(* ===== verification/_CoqProject ===== *)
-Q . S2P
Prelude.v
Cas.v
Chunker.v
Compression.v
Cursor.v
Manifest.v
Crypto.v
Text.v
Disk.v
Store.v
StoreSpec.v
StoreOps.v
StoreBuffer.v
StoreGc.v
HotStore.v
Remote.v
Derivation.v
Graph.v
Memo.v
Ring.v
Vhost.v
Shmem.v
Avce.v
Cell.v
Linker.v
VmConfig.v
Launcher.v
Lifecycle.v
Runner.v
Toml.v
Auth.v
Arctic.v
Attest.v
Confine.v
Clif.v
Symbols.v
Cps.v
CpsInv.v
CpsLang.v
CpsFuse.v
CpsProgram.v
CpsWf.v
CpsFunc.v
CpsGate.v
CpsSem.v
CpsCorrect.v
CpsSim.v
CpsRun.v
Jit.v
JitSafe.v
ModuleHost.v
HostSafe.v
Demo.v
RefiUtil.v
RefiFile.v
RefiJson.v
RefiEngine.v
RefiPolicy.v
RefiRead.v
RefiBoot.v
RefiContent.v
RefiHttp.v
RefiProofs.v
RefiAccounts.v
RefiSite.v
RefiPages.v
RefiService.v
RefiAuth.v
RefiDemo.v
RefiMain.v
Ecma.v
EcmaSafe.v
Sidecar.v
SidecarSafe.v
EcmaDemo.v
Cli.v
CliSafe.v
Modhost.v
ModhostSafe.v
