(* ===== verification/Prelude.v ===== *)
(** * The Austral VM: a verification library

    The repository carries the Austral VM: a compiler front-end in OCaml, a
    code generator and JIT in Rust that compiles and hosts modules under the
    grants of their manifests, and a package system that stores, evaluates,
    links, runs and boots what they produce; and, built on the compiler
    service, the REFI exchange, a web service whose monetary policy is an Austral
    kernel. This library models the code generator and module host
    ([src/safestos/cranelift/src/], with [src/arctic_authority/]), the package
    system (the crates under [src/safestos/pkg/]) and the exchange
    ([src/refi/]).

    ** How the parts work together

    - _Compilation_ ([cranelift/src/cps.rs], [lib.rs]). A CPS binary is read and
      compiled in one pass to a Cranelift function per CPS function; every call
      to a kernel, storage or Rust function is put to the authorization gate
      while it is emitted. A thread keeps one engine, its error channel, the
      module compiled last and the export names claimed.
    - _Authorization_ ([auth.rs], [policy.rs], [arctic_auth.rs],
      [liquid_attest.rs], [sandbox.rs]). One process-wide engine answers the
      gate: the grants of the loaded manifests, Cedar policies, or delegation
      certificates signed by a threshold of authorities. A module may require a
      prover's attestation of its sources; a sidecar process is confined before
      it runs.
    - _Hosting_ ([module.rs]). The host reads a module's manifest, installs its
      grants, compiles its binary (or spawns its sidecar), calls it, swaps it for
      a new version, and keeps isolated instances with kernel sessions. A
      command line ([bin/modhost.rs]) does this for one directory, behind the
      attestation gate.
    - _Sidecars_ ([ecma.rs]). A JavaScript module runs in a process of its own,
      which a thread supervises. It reaches the kernel through one socket: each
      call runs down a chain of listeners (audit, grants, latch, meter, posture,
      deadline) before it is marshalled onto a kernel function.
    - _Storage_ ([avm-cas]). A payload is cut into content-defined chunks, each
      chunk is compressed and appended to a pack, an index maps digests to
      packs, and a manifest, named by the digest of its own encoding, lists the
      chunks. Manifests may be signed. A bounded hot store hydrates cells out
      of the cold store; a client of a remote cache pulls chunks and manifests.
    - _Evaluation_ ([avm-eval]). A plan is a set of named derivations; resolving
      it computes a Merkle identity per derivation, and a memo table with two
      presence tiers decides what need not be rebuilt.
    - _Execution_ ([avm-exec]). The code generator hands over a container
      (AVCE); the cell builder lays it out as an [.avm] cell and signs it; the
      linker relocates a cell against its providers; the runner starts builders
      only after a policy decision and inside the namespaces the host grants.
    - _Driver domains_ ([avm-virtio], [avm-vmm]). A split virtqueue in shared
      memory, the vhost-user messages that set it up, a registry of shared
      regions; and the life cycle of a virtual machine that boots a kernel out
      of the store through the REST socket of a VMM.
    - _The command line_ ([avm-cli]) puts the store, the hot store and evaluation
      together, one process per command.
    - _The exchange_ ([refi/src/], [refi/modules/RefiPolicy.aum]). One thread owns
      the exchange and the compiled policy kernel. A command is put to the
      kernel, which asks the host's primitives whether it may be done and then
      calls the one that does it, and the new state is written before success is
      reported. The HTTP service in front authenticates callers, limits rates,
      serves pages, accounts and proofs, and sends the commands.

    ** Files, and the code they model

    - [Prelude]: outcomes ([Ok], [Err], [Panic]), the state-and-error monad,
      bytes, slices, little-endian integers, automation. [Text]: the [str]
      functions used. [Cursor]: checked readers with their proof rules.
      [Disk]: the directories of the store.
    - [Cas] ([avm-cas/src/lib.rs]): the storage error type, and the interfaces
      of BLAKE3, LZ4 and Ed25519.
    - [Chunker] ([chunker.rs]), [Compression] ([compression.rs]), [Crypto]
      ([crypto.rs]).
    - [Manifest]: [hex], [unhex], [Manifest] and its codec ([engine.rs], first
      part). [Store]: [ChunkStore] and all its operations ([engine.rs]), from
      [open] to [gc]; a Record holds the index, the pack counter and the
      directory.
    - [StoreSpec], [StoreOps], [StoreBuffer], [StoreGc]: the abstract
      store (two finite maps) and the refinement of each operation; Module
      [StoreReach] of [StoreGc]: any run of them.
    - [HotStore] ([hot_store.rs]), [Remote] ([remote.rs]).
    - [Derivation] ([avm-eval/src/hash.rs]), [Graph] ([graph.rs]), [Memo]
      ([memo.rs]).
    - [Ring], [Vhost], [Shmem] ([avm-virtio/src/ring.rs], [vhost.rs],
      [shmem.rs]).
    - [Avce] and [Cell] ([avm-exec/src/cell_builder.rs], with
      [capture.rs]'s [encode_avce]), [Linker] ([linker.rs]), [Runner]
      ([runner.rs]).
    - [VmConfig], [Launcher], [Lifecycle] ([avm-vmm/src/config.rs],
      [launcher.rs], [lifecycle.rs]).
    - [Toml]: what the code uses of the [toml] crate's values. [Auth]
      ([auth.rs], [policy.rs]), [Arctic] ([arctic_authority/src/lib.rs],
      [arctic_auth.rs]), [Attest] ([liquid_attest.rs]), [Confine]
      ([sandbox.rs]).
    - [Clif]: the fragment of Cranelift IR that is emitted, its function
      builder with the builder's assertions, and a machine that runs it.
      [Symbols]: export names and static symbols ([lib.rs]). [Cps]: the
      compiler ([cps.rs]).
    - [CpsLang]: the syntax of CPS programs, their encoding, and compilation
      from the syntax tree; [CpsFuse] and [CpsProgram] fuse the two into the
      one-pass compiler. [CpsInv]: what any compile keeps of the engine.
      [CpsWf] and [CpsFunc]: typing and shape of what is emitted. [CpsGate]:
      the calls of a program. [CpsSem]: the semantics of programs; [CpsCorrect],
      [CpsSim] and [CpsRun] the simulation, with the refinement in Module
      [CpsRefine] of [CpsRun].
    - [Jit], [JitSafe]: the engine of a thread ([lib.rs]). [ModuleHost],
      [HostSafe]: the module host ([module.rs]); [Modhost], [ModhostSafe]: its
      command line ([bin/modhost.rs]). [Demo]: one small engine from compiler
      to host, in Modules [CpsDemo], [JitDemo] and [HostDemo].
    - [RefiUtil] ([refi/src/util.rs]), [RefiFile] (its [write_atomic], over a
      disk that may crash), [RefiJson] (what is used of [serde_json]).
      [RefiEngine]: the primitives of the kernel; [RefiPolicy]: the kernel
      itself ([RefiPolicy.aum]), persistence and [run_cmd], and in Module
      [RefiDurable] both over the disk; [RefiRead]: the queries; [RefiBoot]:
      boot and the jobs ([engine.rs]).
    - [RefiContent] ([content.rs]), [RefiHttp] ([server.rs], and the client of
      [mm0.rs]), [RefiProofs] ([proofs.rs]), [RefiAccounts] ([accounts.rs]),
      [RefiSite] ([site.rs]) and [RefiPages] (a reader of HTML, and what it
      finds in the pages), [RefiService] ([service.rs], [attestation.rs]),
      [RefiAuth] (what a request may do), [RefiMain] ([main.rs]), [RefiDemo]
      (witnesses).
    - [Ecma]: the loopback server, its listeners and the marshalling of every
      symbol; [Sidecar]: finding the runtime, starting, supervising, calling and
      ending a sidecar ([ecma.rs]). [EcmaSafe], [SidecarSafe]: their theorems;
      [EcmaDemo]: a small kernel and a small machine.
    - [Cli] and [CliSafe] ([avm-cli/src/main.rs]).

    ** What the theorems show

    - _Compiled code means what the program means._ [cps_one_pass] replaces the
      one-pass compiler by compilation of a syntax tree, in both directions;
      [cps_emits_typed] says the emitted functions are well formed and the
      builder's assertions hold; [cps_correct] is the refinement of the program's
      semantics by the machine that runs the emitted code, and
      [jit_entry_correct] carries it to the pointer the entry point returns.
    - _The gate cannot be bypassed._ [cps_gate], [native_symbols_gated],
      [auth_exact], [arctic_exact], [attest_exact]; [host_no_escalation] composes
      them through a hot swap.
    - _Engines and registries stay coherent_: [jit_lookup_live] and
      [jit_swap_atomic] (panics included), [host_registry_coherent],
      [host_registry_atomic], [claim_terminates], [trapping_exact].
    - _The host's command line_: [modhost_gated] (no call before the gate, swap
      included), [host_options_exact] (the options against a grammar),
      [authorize_exact] (the exit code against the manifest), [machine_clean].
    - _Confinement_: [seccomp_exact] runs the generated filter on every number,
      [sandbox_confines] says what a child that starts has been through.
    - _The exchange does what its policy allows_: [command_exact] (the kernel and
      its primitives against a specification of permission and transition),
      [command_durable] (crashes at any moment), [daily_cap_holds] (over runs and
      restarts, for any clock; [clock_back_passes_cap] is a clock that goes back),
      [boot_gated] and [main_gated] (composing the bridge's gate with
      the manifest and the command line), [secret_durable] (the signing
      secret across crashes and failing calls; [stat_failure_replaces_secret]),
      [registry_exact] (over any log; [recreated_listed_twice]).
    - _Requests do what their token allows_: [requests_authorized] covers every
      endpoint; [published_final], [page_store_exact], [render_markdown_safe];
      [request_bounded], [reply_roundtrip] and [slots_exact] for the HTTP layer;
      [pages_well_formed]: no value can add an element or an attribute to a page,
      but for the body of a content page and the identifier of a published proof,
      which are written as they are.
    - _A sidecar does what its module may_: [loopback_contained] covers any bytes
      on the socket, [agent_bounded] its sub-agents (whose network is the module's:
      [agent_fetches]), [loopback_audited] the trail of calls and connections; [buf_out_consistent] the reads of stores that others change;
      [single_sidecar], [supervise_heals] and [drop_ends] the supervision, with
      [healed_refused] and [drop_orphans] for what it does wrong.
    - _Commands compose the components_: [cli_put_get] across processes, short
      writes included,
      [cli_dry_run_exact], [cli_eval_agrees], [cli_refuses].
    - _The store refines a pair of maps._ [Inv s A] relates an open store to an
      abstract one. [put_chunk_batch_refines], [put_buffer_roundtrip],
      [put_buffer_dedup], [put_manifest_fail_closed], [gc_refines],
      [gc_idempotent] and [reopen_refines] say what each operation does to [A];
      [reachable_consistent] composes them along any sequence of operations: no
      manifest ever dangles. [read_integrity] needs no invariant: it holds of
      any disk whatever.
    - _Encodings are exact._ [manifest_codec_exact], [avce_wire_exact],
      [cell_parse_exact], [wire_messages_exact], [regions_reply_exact]: a
      decoder accepts exactly the encodings of well-formed values and never
      panics beyond the case stated; [encode_unsigned_inj] and
      [derivation_hash_canonical] say that what is signed and hashed determines
      its meaning; [index_roundtrip], [hex_roundtrip], [codec_contract].
    - _Chunking_: [chunk_payload_partition] (tiling and bounds),
      [chunk_prefix_stable] and [chunk_resync] (edits move few boundaries).
    - _Evaluation_: [resolve_exact] (success exactly on closed acyclic plans,
      with the Merkle identities, dependencies first, and meaningful errors),
      [memo_transparent] and [warm_evaluation].
    - _Caches and remotes cannot change content_: [acquire_transparent],
      [make_room_lru], [pull_chunks_verified], [pull_manifest_verified],
      [signature_fail_closed].
    - _Cells_: [build_cell_roundtrip], [link_exact], [link_patches],
      [capability_gate].
    - _Driver domains_: [queue_refines] and [chain_walk_exact] (the byte image
      of the rings is a descriptor table with two queues, [u16] wrap-around and
      overrun rings included), [shmem_messages_safe], [config_validation_exact],
      [http_reply_framed], [launch_honest].

    ** Conventions

    A [Result] is [res E A], whose third constructor [Panic] is an unwinding
    panic (a slice out of range, an overflow under overflow checks, an
    allocation above [isize::MAX]); absence of panics is therefore part of each
    theorem. Integers are [Z] with their width written out where the code can
    reach it ([w64] in the chunker, 16-bit indices in the rings, range checks
    in the cursors). Mutable structs are records passed through a state-and-error
    monad that keeps the state a failing operation leaves behind. Text of error
    messages keeps the format string; in the host and the exchange also its
    arguments, except the text of another crate's error.

    Crates that are not in the repository are interfaces: a class of operations
    with, where a proof needs it, a class of documented laws, and an executable
    instance that shows the laws can hold. They are [Blake3] (32-byte digests;
    nothing about collisions is assumed: where a statement depends on the
    absence of one it says so, for the payloads concerned), [Lz4], [Ed25519],
    [Json] and [SerdeJson], [JsonText], [InfoJson], [Transport] (an arbitrary,
    possibly hostile server), [Presence], [WriteAt] (which may
    write short), [Cedar], [Os], [VmmSocket], [VmmHost] with [VmmLaws], [Clock],
    [TomlText], [CedarVm], [ArcticCore], [Libc] with [LibcLaws], [Kernel],
    [ClifModule] with [ClifModuleLaws], [JitBackend] with [JitLaws], [Memory]
    (the loads, stores and allocations of compiled code), [HostWorld] (files,
    sidecars, the kernel), [ModuleDirs] and [JitServer] (a directory's files, a
    compiler process), [Unfer] (the kernel's C functions and protocol
    tables, on a state other threads may change), [Sidecar.Os] (files and
    processes). For the exchange: [Taler] (the exchange crate),
    [StateCodec] with [StateLaws], [AccountCodec], [ContentCodec],
    [ProofCodec], [JsonCodec] (serde), [Sha256], [HexText] with [HexLaws], [Keys], [Network]
    (arbitrary answers), [Measure], [Faults] and
    [Process] (which disk calls fail). [Storage] is the interface between the
    stores of the exchange and the disk of [RefiFile]. [ByteReader], [WireMsg] and [AuthorizationEngine] are interfaces between the library's own components.

    ** Fuel

    Loops that are not structural take a fuel argument, and the theorem of the
    operation shows it is never exhausted. [chunk_loop] gets the payload length
    (a chunk has at least one byte); [resolve_node] and [m_resolve] the size of
    the plan (the stack holds distinct names of it); [make_room_loop] the number
    of resident cells (one leaves per round); [worker_ids] the number of chunks;
    [walk] one more than the queue size, where the code itself gives up.
    [claim_loop] gets one more than the number of claimed names
    ([claim_terminates]); the emitters get the length of the binary plus one (a
    nesting level and a statement each cost a byte: [cps_one_pass]).
    [links] gets the number of opening brackets plus one and [bold_and_code] the
    length of the text plus one ([render_markdown_safe]); [coin_loop] the sixteen
    coins the kernel admits. The semantics of programs and of compiled code run for a number of steps that
    the refinement quantifies over. The
    polling loops of the VMM client run for the attempts the code is given.

    ** Not modelled

    I/O errors other than those the code branches on, symbolic links, the contents of log
    output, the text of [Display] implementations, the order in which real
    threads interleave inside one call (the positional writes of a parallel
    hydration reach the file in an arbitrary order given as an argument; a
    hydration is split in two steps where the code gives up its lock),
    [spawn_vmm_logged] and the search path of [find_hermit_runner]. Of [lib.rs]:
    printing and allocation, the Cedar entry points, the bridges that hand text
    to the kernel, and the wrappers of the object-cell functions. Of
    [sandbox.rs]: the fork probe and the command plumbing. Poisoned locks. Of the
    exchange: the usage and log lines of [main.rs], the thread that
    wakes the proof refresher, socket options and shedding; a handler runs as
    one step, so two requests are never inside their handlers at once. Of
    [ecma.rs]: the text of the JavaScript harness (a parameter), the read of the
    peer's credentials (an argument) and the accept loop around one
    connection. *)

From stdpp Require Export base tactics numbers list gmap sorting strings.
From Stdlib Require Export ZArith Lia.
From Stdlib Require Strings.Byte String.

Declare Scope avm_scope.
Delimit Scope avm_scope with avm.
Open Scope Z_scope.
Open Scope avm_scope.

(** ** Outcomes of a Rust call

    [Ok] and [Err] are the constructors of [Result]; [Panic] is an unwinding
    panic: a slice index out of range, an [unwrap] of [None], an integer
    overflow under [overflow-checks]. *)
Inductive res (E A : Type) : Type :=
| Ok (a : A)
| Err (e : E)
| Panic.
Arguments Ok {E A} a.
Arguments Err {E A} e.
Arguments Panic {E A}.

#[export] Instance res_ret {E} : MRet (res E) := λ A a, Ok a.
#[export] Instance res_bind {E} : MBind (res E) := λ A B k m,
  match m with Ok a => k a | Err e => Err e | Panic => Panic end.
#[export] Instance res_fmap {E} : FMap (res E) := λ A B f m,
  match m with Ok a => Ok (f a) | Err e => Err e | Panic => Panic end.

(** [Result::map_err]. *)
Definition map_err {E F A} (f : E → F) (m : res E A) : res F A :=
  match m with Ok a => Ok a | Err e => Err (f e) | Panic => Panic end.

(** [Option::ok_or]. *)
Definition ok_or {E A} (o : option A) (e : E) : res E A :=
  match o with Some a => Ok a | None => Err e end.

(** [for x in xs { body?; }] over an accumulator. *)
Fixpoint foldM {E A B} (f : B → A → res E B) (b : B) (l : list A) : res E B :=
  match l with
  | [] => Ok b
  | a :: l => b' ← f b a; foldM f b' l
  end.

(** [xs.iter().map(f).collect::<Result<Vec<_>, _>>()]. *)
Fixpoint mapM_res {E A B} (f : A → res E B) (l : list A) : res E (list B) :=
  match l with
  | [] => Ok []
  | a :: l => b ← f a; bs ← mapM_res f l; Ok (b :: bs)
  end.

Section res_lemmas.
Context {E : Type}.

Lemma bind_Ok {A B} (m : res E A) (k : A → res E B) b :
  m ≫= k = Ok b ↔ ∃ a, m = Ok a ∧ k a = Ok b.
Proof. destruct m; cbn; naive_solver. Qed.

Lemma bind_Ok_l {A B} (a : A) (k : A → res E B) : Ok a ≫= k = k a.
Proof. reflexivity. Qed.

Lemma bind_Panic {A B} (m : res E A) (k : A → res E B) :
  m ≫= k = Panic ↔ m = Panic ∨ ∃ a, m = Ok a ∧ k a = Panic.
Proof. destruct m; cbn; naive_solver. Qed.

Lemma no_panic_bind {A B} (m : res E A) (k : A → res E B) :
  m ≠ Panic → (∀ a, m = Ok a → k a ≠ Panic) → m ≫= k ≠ Panic.
Proof. intros Hm Hk. rewrite bind_Panic. naive_solver. Qed.

Lemma no_panic_ok_or {A} (o : option A) (e : E) : ok_or o e ≠ Panic.
Proof. by destruct o. Qed.

Lemma map_err_Ok {F A} (f : E → F) (m : res E A) a :
  map_err f m = Ok a ↔ m = Ok a.
Proof. destruct m; cbn; naive_solver. Qed.

Lemma ok_or_Ok {A} (o : option A) (e : E) a : ok_or o e = Ok a ↔ o = Some a.
Proof. destruct o; cbn; naive_solver. Qed.

Lemma foldM_app {A B} (f : B → A → res E B) b l1 l2 :
  foldM f b (l1 ++ l2) = b' ← foldM f b l1; foldM f b' l2.
Proof.
  revert b; induction l1 as [|a l1 IH]; intros b; cbn; [done|].
  destruct (f b a); cbn; [apply IH|done..].
Qed.

Lemma mapM_res_Ok {A B} (f : A → res E B) l bs :
  mapM_res f l = Ok bs ↔ Forall2 (λ a b, f a = Ok b) l bs.
Proof.
  revert bs; induction l as [|a l IH]; intros bs; cbn.
  - split; [intros [= <-]; constructor | intros H; by inversion H].
  - rewrite bind_Ok. split.
    + intros (b & Hb & H). apply bind_Ok in H as (bs' & Hbs & [= <-]).
      constructor; [done|by apply IH].
    + intros H; inversion H as [|? b ? bs' Hb Hbs]; subst.
      exists b; split; [done|]. apply bind_Ok. exists bs'.
      split; [by apply IH|done].
Qed.
End res_lemmas.

(** Invert every [_ ≫= _ = Ok _] in the context. *)
Ltac bind_inv :=
  repeat match goal with
  | H : (_ ≫= _) = Ok _ |- _ =>
      let a := fresh "a" in let Ha := fresh "Ha" in
      apply bind_Ok in H as (a & Ha & H)
  | H : mbind _ _ = Ok _ |- _ =>
      let a := fresh "a" in let Ha := fresh "Ha" in
      apply bind_Ok in H as (a & Ha & H)
  | H : map_err _ _ = Ok _ |- _ => apply map_err_Ok in H
  | H : ok_or _ _ = Ok _ |- _ => apply ok_or_Ok in H
  end.

(** Split the [if]s and [match]es of an hypothesis that ends in [Ok]. *)
Ltac case_if_in H :=
  repeat match type of H with
  | context [if ?b then _ else _] => destruct b eqn:?; try discriminate H
  end.

(** ** State and errors

    [stm S E A]: a computation on a state that survives its failures. *)
Definition stm (S E A : Type) : Type := S → S * res E A.

#[export] Instance stm_ret {S E} : MRet (stm S E) := λ A a s, (s, Ok a).
#[export] Instance stm_bind {S E} : MBind (stm S E) := λ A B k m s,
  match m s with
  | (s', Ok a) => k a s'
  | (s', Err e) => (s', Err e)
  | (s', Panic) => (s', Panic)
  end.

Definition stm_lift {S E A} (r : res E A) : stm S E A := λ s, (s, r).
Definition stm_err {S E A} (e : E) : stm S E A := λ s, (s, Err e).

Fixpoint stm_foldl {S E A B} (f : B → A → stm S E B) (b : B) (l : list A) : stm S E B :=
  match l with
  | [] => mret b
  | a :: l => b' ← f b a; stm_foldl f b' l
  end.

Lemma mapM_res_no_panic {E A B} (f : A → res E B) l :
  (∀ a, a ∈ l → f a ≠ Panic) → mapM_res f l ≠ Panic.
Proof.
  induction l as [|a l IH]; intros Hl; cbn; [done|].
  intros [Hp|(b & _ & Hp)]%bind_Panic; [by apply (Hl a); [set_solver|]|].
  apply bind_Panic in Hp as [Hp|(bs & _ & Hp)]; [|done].
  apply IH in Hp; [done|set_solver].
Qed.

Lemma foldM_no_panic {E A B} (f : B → A → res E B) b l :
  (∀ b a, a ∈ l → f b a ≠ Panic) → foldM f b l ≠ Panic.
Proof.
  revert b; induction l as [|a l IH]; intros b Hl; cbn; [done|].
  intros [Hp|(b' & _ & Hp)]%bind_Panic; [by apply (Hl b a); [set_solver|]|].
  apply IH in Hp; [done|set_solver].
Qed.

Lemma foldM_unit_Ok {E A} (f : () → A → res E ()) l :
  foldM f () l = Ok () ↔ Forall (λ a, f () a = Ok ()) l.
Proof.
  induction l as [|a l IH]; cbn; [done|]. rewrite Forall_cons, <-IH.
  destruct (f () a) as [[]|e|]; cbn; naive_solver.
Qed.

(** Panic freedom, by the shape of the computation. *)
Create HintDb no_panic.
#[export] Hint Resolve no_panic_ok_or : no_panic.

Ltac no_panic :=
  repeat first
    [ discriminate
    | solve [auto 2 with no_panic]
    | apply no_panic_bind; [|intros ? _]
    | match goal with |- (if ?b then _ else _) ≠ Panic => destruct b end
    | match goal with |- (match ?x with _ => _ end) ≠ Panic => destruct x end ].

(** ** Bytes

    A [u8] is [byte]; [b2z] and [z2b] are [as u64] and [as u8]. *)
Abbreviation byte := Byte.byte.
Abbreviation bytes := (list Byte.byte).

Definition b2z (b : byte) : Z := Z.of_N (Byte.to_N b).
Definition z2b (z : Z) : byte :=
  match Byte.of_N (Z.to_N (z mod 256)) with Some b => b | None => Byte.x00 end.

#[export] Instance byte_eq_dec' : EqDecision byte := Byte.byte_eq_dec.
#[export] Program Instance byte_countable : Countable byte :=
  inj_countable Byte.to_N Byte.of_N _.
Next Obligation. intros x. apply Byte.of_to_N. Qed.

Lemma b2z_range b : 0 ≤ b2z b < 256.
Proof. unfold b2z. pose proof (Byte.to_N_bounded b). lia. Qed.

Lemma z2b_b2z b : z2b (b2z b) = b.
Proof.
  unfold z2b. rewrite Z.mod_small by apply b2z_range.
  unfold b2z. by rewrite N2Z.id, Byte.of_to_N.
Qed.

Lemma b2z_z2b z : b2z (z2b z) = z mod 256.
Proof.
  unfold b2z, z2b. pose proof (Z.mod_pos_bound z 256 ltac:(lia)) as Hb.
  pose proof (Byte.to_of_N_option_map (Z.to_N (z mod 256))) as H.
  destruct (Byte.of_N _) as [b|]; cbn in H.
  - destruct (_ <=? _)%N; simplify_eq. rewrite H. lia.
  - destruct (N.leb_spec (Z.to_N (z mod 256)) 255); [done|lia].
Qed.

#[export] Instance b2z_inj : Inj (=) (=) b2z.
Proof. intros x y H. by rewrite <-(z2b_b2z x), <-(z2b_b2z y), H. Qed.

(** String literals as the UTF-8 bytes of a Rust [str]. *)
Definition str (s : String.string) : bytes := String.list_byte_of_string s.

(** [Vec::len] and slicing with [usize] indices. *)
Abbreviation Zlen l := (Z.of_nat (length l)).

Definition slice {A} (l : list A) (lo hi : Z) : list A :=
  take (Z.to_nat (hi - lo)) (drop (Z.to_nat lo) l).
Notation "l .[ lo : hi ]" := (slice l lo hi)
  (at level 2, left associativity, lo at level 69, hi at level 69, format "l .[ lo  :  hi ]") : avm_scope.

(** [&l[lo..hi]]: panics unless [lo <= hi <= l.len()]. *)
Definition slice_p {E A} (l : list A) (lo hi : Z) : res E (list A) :=
  if (0 <=? lo) && (lo <=? hi) && (hi <=? Zlen l) then Ok (slice l lo hi) else Panic.

(** [l[i]]: panics out of range. *)
Definition index_p {E A} (l : list A) (i : Z) : res E A :=
  if 0 <=? i then
    match l !! Z.to_nat i with Some a => Ok a | None => Panic end
  else Panic.

(** [l[lo..lo + src.len()].copy_from_slice(src)], in range. *)
Definition splice {A} (l : list A) (lo : Z) (src : list A) : list A :=
  take (Z.to_nat lo) l ++ src ++ drop (Z.to_nat lo + length src) l.

Definition splice_p {E A} (l : list A) (lo : Z) (src : list A) : res E (list A) :=
  if (0 <=? lo) && (lo + Zlen src <=? Zlen l) then Ok (splice l lo src) else Panic.

(** ** Little-endian integers: [to_le_bytes] and [from_le_bytes] *)
Fixpoint le_bytes (n : nat) (z : Z) : bytes :=
  match n with
  | O => []
  | S n => z2b z :: le_bytes n (z / 256)
  end.

Fixpoint le_val (l : bytes) : Z :=
  match l with
  | [] => 0
  | b :: l => b2z b + 256 * le_val l
  end.

Lemma length_le_bytes n z : length (le_bytes n z) = n.
Proof. revert z; induction n; intros z; cbn; congruence. Qed.

Lemma le_val_le_bytes n z : le_val (le_bytes n z) = z mod 2 ^ (8 * Z.of_nat n).
Proof.
  revert z; induction n as [|n IH]; intros z; cbn [le_bytes le_val].
  - by rewrite Z.mod_1_r.
  - rewrite IH, b2z_z2b.
    replace (8 * Z.of_nat (S n)) with (8 + 8 * Z.of_nat n) by lia.
    rewrite Z.pow_add_r by lia. change (2 ^ 8) with 256.
    rewrite (Z.rem_mul_r z 256 (2 ^ (8 * Z.of_nat n))) by lia. lia.
Qed.

Lemma le_val_le_bytes_small n z :
  0 ≤ z < 2 ^ (8 * Z.of_nat n) → le_val (le_bytes n z) = z.
Proof. intros H. rewrite le_val_le_bytes. by apply Z.mod_small. Qed.

Lemma le_val_range l : 0 ≤ le_val l < 2 ^ (8 * Zlen l).
Proof.
  induction l as [|b l IH]; cbn [le_val length]; [lia|].
  replace (8 * Z.of_nat (S (length l))) with (8 + 8 * Zlen l) by lia.
  rewrite Z.pow_add_r by lia. pose proof (b2z_range b). lia.
Qed.

Lemma le_bytes_le_val n l : length l = n → le_bytes n (le_val l) = l.
Proof.
  revert n; induction l as [|b l IH]; intros n <-; cbn [le_val length le_bytes]; [done|].
  pose proof (b2z_range b). f_equal.
  - rewrite <-(z2b_b2z b) at 2. unfold z2b. do 3 f_equal.
    rewrite (Z.mul_comm 256), Z_mod_plus_full. done.
  - rewrite (Z.mul_comm 256), Z.div_add by lia.
    rewrite Z.div_small by lia. by apply IH.
Qed.

Lemma le_bytes_inj n z1 z2 :
  0 ≤ z1 < 2 ^ (8 * Z.of_nat n) → 0 ≤ z2 < 2 ^ (8 * Z.of_nat n) →
  le_bytes n z1 = le_bytes n z2 → z1 = z2.
Proof.
  intros H1 H2 H. by rewrite <-(le_val_le_bytes_small n z1), H, le_val_le_bytes_small.
Qed.

(** ** Lists and slices *)
Lemma slice_0 {A} (l : list A) : slice l 0 (Zlen l) = l.
Proof. unfold slice. rewrite Z.sub_0_r, Nat2Z.id, drop_0. by apply take_ge. Qed.

Lemma length_slice {A} (l : list A) lo hi :
  0 ≤ lo → lo ≤ hi → hi ≤ Zlen l → Zlen (slice l lo hi) = hi - lo.
Proof. intros. unfold slice. rewrite length_take, length_drop. lia. Qed.

Lemma slice_app_r {A} (p s : list A) lo hi :
  0 ≤ lo → slice (p ++ s) (Zlen p + lo) (Zlen p + hi) = slice s lo hi.
Proof.
  intros. unfold slice. replace (Z.to_nat (Zlen p + lo)) with (length p + Z.to_nat lo)%nat by lia.
  rewrite <-drop_drop, drop_app_length. f_equal. lia.
Qed.

Lemma slice_middle {A} (p m s : list A) :
  slice (p ++ m ++ s) (Zlen p) (Zlen p + Zlen m) = m.
Proof.
  unfold slice. rewrite Nat2Z.id, drop_app_length.
  replace (Z.to_nat _) with (length m) by lia. by rewrite take_app_length.
Qed.

Lemma slice_prefix {A} (p s : list A) : slice (p ++ s) 0 (Zlen p) = p.
Proof. apply (slice_middle [] p s). Qed.

Lemma slice_suffix {A} (p s : list A) : slice (p ++ s) (Zlen p) (Zlen (p ++ s)) = s.
Proof.
  rewrite length_app, Nat2Z.inj_add. rewrite <-(app_nil_r s) at 1. apply slice_middle.
Qed.

(** A list cut at two offsets: the slice with what surrounds it. *)
Lemma slice_split {A} (l : list A) lo hi :
  0 ≤ lo → lo ≤ hi → hi ≤ Zlen l →
  l = take (Z.to_nat lo) l ++ slice l lo hi ++ drop (Z.to_nat hi) l.
Proof.
  intros. unfold slice.
  replace (Z.to_nat hi) with (Z.to_nat lo + Z.to_nat (hi - lo))%nat by lia.
  rewrite <-drop_drop, (take_drop (Z.to_nat (hi - lo))). by rewrite take_drop.
Qed.

Lemma slice_p_Ok {E A} (l : list A) lo hi :
  0 ≤ lo → lo ≤ hi → hi ≤ Zlen l → slice_p (E:=E) l lo hi = Ok (slice l lo hi).
Proof.
  intros. unfold slice_p. by destruct (Z.leb_spec 0 lo), (Z.leb_spec lo hi), (Z.leb_spec hi (Zlen l)); try lia.
Qed.

Lemma length_splice {A} (l : list A) lo src :
  0 ≤ lo → lo + Zlen src ≤ Zlen l → length (splice l lo src) = length l.
Proof. intros. unfold splice. rewrite !length_app, length_take, length_drop. lia. Qed.

Lemma splice_p_Ok {E A} (l : list A) lo src :
  0 ≤ lo → lo + Zlen src ≤ Zlen l → splice_p (E:=E) l lo src = Ok (splice l lo src).
Proof.
  intros. unfold splice_p. by destruct (Z.leb_spec 0 lo), (Z.leb_spec (lo + Zlen src) (Zlen l)); try lia.
Qed.

Lemma lookup_slice {A} (l : list A) lo hi (i : nat) :
  0 ≤ lo → Z.of_nat i < hi - lo → slice l lo hi !! i = l !! (Z.to_nat lo + i)%nat.
Proof. intros Hlo Hi. unfold slice. rewrite lookup_take_lt by lia. by rewrite lookup_drop. Qed.

Lemma lookup_splice {A} (l : list A) lo src (i : nat) :
  0 ≤ lo → lo + Zlen src ≤ Zlen l →
  splice l lo src !! i =
  if decide (lo ≤ Z.of_nat i < lo + Zlen src) then src !! (i - Z.to_nat lo)%nat else l !! i.
Proof.
  intros Hlo Hhi. unfold splice. destruct (decide _) as [Hin|Hout].
  - rewrite lookup_app_r by (rewrite length_take; lia). rewrite length_take.
    rewrite lookup_app_l by lia. f_equal. lia.
  - destruct (decide (Z.of_nat i < lo)).
    + rewrite lookup_app_l by (rewrite length_take; lia). rewrite lookup_take_lt by lia. done.
    + rewrite !lookup_app_r by (rewrite ?length_take; lia). rewrite length_take, lookup_drop. f_equal. lia.
Qed.

Lemma slice_splice_same {A} (l : list A) lo src :
  0 ≤ lo → lo + Zlen src ≤ Zlen l → slice (splice l lo src) lo (lo + Zlen src) = src.
Proof.
  intros Hlo Hhi. apply list_eq. intros i. destruct (decide (Z.of_nat i < Zlen src)) as [Hi|Hi].
  - rewrite lookup_slice, lookup_splice by lia. rewrite decide_True by lia. f_equal. lia.
  - rewrite !lookup_ge_None_2; [done|lia|].
    pose proof (length_slice (splice l lo src) lo (lo + Zlen src)) as Hl.
    rewrite length_splice in Hl by done. lia.
Qed.

Lemma slice_splice_disjoint {A} (l : list A) lo src a b :
  0 ≤ lo → lo + Zlen src ≤ Zlen l → 0 ≤ a → a ≤ b → b ≤ Zlen l →
  b ≤ lo ∨ lo + Zlen src ≤ a → slice (splice l lo src) a b = slice l a b.
Proof.
  intros Hlo Hhi Ha Hab Hb Hd. apply list_eq. intros i.
  destruct (decide (Z.of_nat i < b - a)) as [Hi|Hi].
  - rewrite !lookup_slice, lookup_splice by lia. by rewrite decide_False by lia.
  - rewrite !lookup_ge_None_2; [done| |].
    + pose proof (length_slice l a b). lia.
    + pose proof (length_slice (splice l lo src) a b) as Hl. rewrite length_splice in Hl by done. lia.
Qed.

(** ** UTF-8: the well-formedness check of [String::from_utf8] *)
Definition byte_in (lo hi : Z) (b : byte) : bool := (lo <=? b2z b) && (b2z b <=? hi).

Fixpoint utf8_valid (l : bytes) : bool :=
  match l with
  | [] => true
  | b0 :: t0 =>
      if byte_in 0 0x7F b0 then utf8_valid t0
      else match t0 with
      | [] => false
      | b1 :: t1 =>
          if byte_in 0xC2 0xDF b0 then byte_in 0x80 0xBF b1 && utf8_valid t1
          else match t1 with
          | [] => false
          | b2 :: t2 =>
              if byte_in 0xE0 0xEF b0 then
                (if byte_in 0xE0 0xE0 b0 then byte_in 0xA0 0xBF b1
                 else if byte_in 0xED 0xED b0 then byte_in 0x80 0x9F b1
                 else byte_in 0x80 0xBF b1)
                && byte_in 0x80 0xBF b2 && utf8_valid t2
              else match t2 with
              | [] => false
              | b3 :: t3 =>
                  if byte_in 0xF0 0xF4 b0 then
                    (if byte_in 0xF0 0xF0 b0 then byte_in 0x90 0xBF b1
                     else if byte_in 0xF4 0xF4 b0 then byte_in 0x80 0x8F b1
                     else byte_in 0x80 0xBF b1)
                    && byte_in 0x80 0xBF b2 && byte_in 0x80 0xBF b3 && utf8_valid t3
                  else false
              end
          end
      end
  end.

(** A Rust [String] is its bytes when they are well-formed. *)
Definition from_utf8 {E} (e : E) (b : bytes) : res E bytes :=
  if utf8_valid b then Ok b else Err e.
