(* ===== verification/Cas.v ===== *)
(** * Interfaces and errors of the storage subsystem ([avm-cas/src/lib.rs])

    The error type every storage component shares, and the crates the code
    calls as interfaces: BLAKE3, LZ4 and Ed25519. Each interface is a class of
    operations with a class of the documented laws the proofs use; small
    executable instances at the end show that the laws can hold. *)

From S2P Require Import Prelude.

(** ** The BLAKE3 interface (crate [blake3])

    The store only relies on the digest length; results that need more state
    the absence of a collision on the payloads at hand. *)
Class Blake3 := blake3 : bytes → bytes.
Class Blake3Laws `{Blake3} : Prop := blake3_length : ∀ b, length (blake3 b) = 32%nat.

(** No two of the given payloads collide. *)
Definition collision_free `{Blake3} (ps : list bytes) : Prop :=
  ∀ a b, a ∈ ps → b ∈ ps → blake3 a = blake3 b → a = b.

(** ** Errors of the storage subsystem ([avm-cas/src/lib.rs])

    A message is the literal or the template of the [format!]; the values it
    interpolates are never inspected by the code and are left out. *)
Inductive CasError : Type :=
| Io (e : bytes)
| NotFound (what : bytes)
| Corrupt (what : bytes)
| Signature (what : bytes)
| Capacity (what : bytes)
| Codec (c : byte)
| Remote (what : bytes).

Definition corrupt (s : String.string) : CasError := Corrupt (str s).

(** ** The LZ4 interface (crate [lz4_flex])

    [compress_prepend_size] and [decompress_size_prepended]; the size prefix
    is a [u32], so the round trip is documented below [2^32] bytes. *)
Class Lz4 := {
  lz4_compress : bytes → bytes;
  lz4_decompress : bytes → option bytes
}.
Class Lz4Laws `{Lz4} : Prop :=
  lz4_roundtrip : ∀ d, Zlen d < 2 ^ 32 → lz4_decompress (lz4_compress d) = Some d.

(** ** The Ed25519 interface (crate [ed25519-dalek])

    Keys and signatures are byte strings: a 32-byte seed, the 32-byte
    verifying key it determines, a 64-byte signature over a message.
    [vk_valid] is [VerifyingKey::from_bytes] succeeding. *)
Class Ed25519 := {
  ed_verifying_key : bytes → bytes;
  ed_sign : bytes → bytes → bytes;
  vk_valid : bytes → bool;
  ed_verify : bytes → bytes → bytes → bool
}.
Class Ed25519Laws `{Ed25519} : Prop := {
  ed_key_length : ∀ seed, length (ed_verifying_key seed) = 32%nat;
  ed_sign_length : ∀ seed m, length (ed_sign seed m) = 64%nat;
  ed_key_valid : ∀ seed, vk_valid (ed_verifying_key seed) = true;
  ed_correct : ∀ seed m, ed_verify (ed_verifying_key seed) m (ed_sign seed m) = true
}.

(** ** Executable instances

    Not the real algorithms: the smallest functions with the documented
    lengths and round trips, so that closed terms evaluate. *)
Definition pad_to (n : nat) (b : bytes) : bytes := take n (b ++ replicate n Byte.x00).

Lemma length_pad_to n b : length (pad_to n b) = n.
Proof. unfold pad_to. rewrite length_take, length_app, length_replicate. lia. Qed.

Definition toy_mix (b : bytes) : Z :=
  foldl (λ h x, (h * 31 + b2z x + 1) mod 2 ^ 128) 7 b.

Definition toy_blake3 : Blake3 := λ b,
  pad_to 32 (le_bytes 16 (toy_mix b) ++ take 16 b).

Lemma toy_blake3_laws : @Blake3Laws toy_blake3.
Proof. intros b. apply length_pad_to. Qed.

(** A run of zero bytes becomes its 4-byte length; anything else is stored
    behind a 5-byte header. *)
Definition toy_lz4 : Lz4 := {|
  lz4_compress d :=
    if forallb (λ b, Z.eqb (b2z b) 0) d then le_bytes 4 (Zlen d) else replicate 5 Byte.xff ++ d;
  lz4_decompress c :=
    if Nat.eqb (length c) 4 then Some (replicate (Z.to_nat (le_val c)) Byte.x00)
    else Some (drop 5 c)
|}.

Lemma toy_lz4_laws : @Lz4Laws toy_lz4.
Proof.
  intros d Hd. cbn [lz4_compress lz4_decompress toy_lz4]. destruct (forallb _ d) eqn:Ha.
  - rewrite length_le_bytes. cbn [Nat.eqb]. rewrite le_val_le_bytes_small by (cbn; lia).
    f_equal. rewrite Nat2Z.id. clear Hd. induction d as [|b d IH]; cbn in *; [done|].
    apply andb_prop in Ha as [Hb Ha]. f_equal; [|by apply IH].
    apply (inj b2z). apply Z.eqb_eq in Hb. by rewrite Hb.
  - rewrite length_app. by destruct (Nat.eqb_spec (length (replicate 5 Byte.xff) + length d) 4).
Qed.

Definition toy_ed25519 : Ed25519 := {|
  ed_verifying_key seed := pad_to 32 seed;
  ed_sign seed m := pad_to 64 (pad_to 32 seed ++ m);
  vk_valid k := Nat.eqb (length k) 32;
  ed_verify k m s := bool_decide (s = pad_to 64 (k ++ m))
|}.

Lemma toy_ed25519_laws : @Ed25519Laws toy_ed25519.
Proof.
  split; cbn [ed_verifying_key ed_sign vk_valid ed_verify toy_ed25519]; intros.
  - apply length_pad_to.
  - apply length_pad_to.
  - by rewrite length_pad_to.
  - by apply bool_decide_eq_true.
Qed.
