(* ===== verification/Chunker.v ===== *)
(** * Content-defined chunking ([avm-cas/src/chunker.rs])

    The gear table, the two-mask cut-point scan and the payload loop, with
    the partition, bound and locality theorems of FastCDC-style chunking.
    BLAKE3 is an operation of the [Blake3] interface. *)

From S2P Require Import Prelude Cas.

Module Cdc.

Definition w64 (z : Z) : Z := z mod 2 ^ 64.

Definition GEAR_SEED : Z := 0x9E3779B97F4A7C15.

(** One SplitMix64 step: the new state and the mixed word. *)
Definition splitmix64 (state : Z) : Z * Z :=
  let state := w64 (state + 0x9E3779B97F4A7C15) in
  let z := state in
  let z := w64 (Z.lxor z (Z.shiftr z 30) * 0xBF58476D1CE4E5B9) in
  let z := w64 (Z.lxor z (Z.shiftr z 27) * 0x94D049BB133111EB) in
  (state, Z.lxor z (Z.shiftr z 31)).

Fixpoint gear_table (n : nat) (state : Z) : list Z :=
  match n with
  | O => []
  | S n => let '(state, w) := splitmix64 state in w :: gear_table n state
  end.

(** The 256-entry table, evaluated once. *)
Definition GEAR : list Z := Eval vm_compute in gear_table 256 GEAR_SEED.

Record ChunkerConfig := { cfg_min : Z; cfg_avg : Z; cfg_max : Z }.

Definition default_config : ChunkerConfig :=
  {| cfg_min := 16 * 1024; cfg_avg := 64 * 1024; cfg_max := 256 * 1024 |}.

Definition validate (c : ChunkerConfig) : bool :=
  (0 <? cfg_min c) && (cfg_min c <=? cfg_avg c) && (cfg_avg c <=? cfg_max c).

(** [usize::BITS - 1 - avg.leading_zeros()] *)
Definition log2_avg (c : ChunkerConfig) : Z := Z.log2 (cfg_avg c).

Record Chunk := { ck_offset : Z; ck_len : Z; ck_hash : bytes }.

Definition mask_early (c : ChunkerConfig) : Z :=
  let base := Z.max (log2_avg c) 3 in
  if 64 <=? base + 2 then 2 ^ 64 - 1 else Z.shiftl 1 (base + 2) - 1.

Definition mask_late (c : ChunkerConfig) : Z :=
  let base := Z.max (log2_avg c) 3 in
  Z.shiftl 1 (Z.max (Z.max (base - 2) 0) 1) - 1.

Definition mid (c : ChunkerConfig) : Z := cfg_min c + (cfg_avg c - cfg_min c) / 2.

(** The scan loop: [rest] is [&data[i..]]. *)
Fixpoint scan (c : ChunkerConfig) (scan_end : Z) (rest : bytes) (i h : Z) : Z :=
  match rest with
  | [] => scan_end
  | b :: rest =>
      if i <? scan_end then
        let h := w64 (w64 (Z.shiftl h 1) + nth (Z.to_nat (b2z b)) GEAR 0) in
        let mask := if i <? mid c then mask_early c else mask_late c in
        if Z.land h mask =? 0 then i + 1 else scan c scan_end rest (i + 1) h
      else scan_end
  end.

Definition cut_point (data : bytes) (c : ChunkerConfig) : Z :=
  let n := Zlen data in
  if n <=? cfg_min c then n
  else scan c (Z.min n (cfg_max c)) (drop (Z.to_nat (cfg_min c)) data) (cfg_min c) 0.

Section payload.
Context `{Blake3}.

(** The [while offset < data.len()] loop on a fuel that bounds its
    iterations; [None] is fuel exhaustion. *)
Fixpoint chunk_loop (fuel : nat) (data : bytes) (c : ChunkerConfig) (offset : Z)
    : option (list Chunk) :=
  if offset <? Zlen data then
    match fuel with
    | O => None
    | S fuel =>
        let len := cut_point (drop (Z.to_nat offset) data) c in
        let hash := blake3 data.[offset : offset + len] in
        out ← chunk_loop fuel data c (offset + len);
        Some ({| ck_offset := offset; ck_len := len; ck_hash := hash |} :: out)
    end
  else Some [].

(** Every chunk is at least one byte long, so [data.len()] iterations are
    enough: [chunk_payload_partition] shows that the [None] branch is dead. *)
Definition chunk_payload (data : bytes) (c : ChunkerConfig) : res CasError (list Chunk) :=
  if negb (validate c) then Err (corrupt "invalid chunker config min={} avg={} max={}")
  else match chunk_loop (length data) data c 0 with
       | Some out => Ok out
       | None => Panic
       end.
End payload.

(** ** The scan *)
Definition valid_config (c : ChunkerConfig) : Prop :=
  0 < cfg_min c ∧ cfg_min c ≤ cfg_avg c ∧ cfg_avg c ≤ cfg_max c.

Lemma validate_spec c : validate c = true ↔ valid_config c.
Proof. unfold validate, valid_config. lia. Qed.

#[export] Instance valid_config_dec c : Decision (valid_config c).
Proof. unfold valid_config. apply _. Defined.

Lemma scan_bounds c e rest i h :
  i ≤ e → i ≤ scan c e rest i h ≤ e.
Proof.
  revert i h; induction rest as [|b rest IH]; intros i h Hi; cbn [scan]; [lia|].
  destruct (Z.ltb_spec i e); [|lia]. cbv zeta.
  case_match; [lia|]. pose proof (IH (i + 1)
    (w64 (w64 (Z.shiftl h 1) + nth (Z.to_nat (b2z b)) GEAR 0)) ltac:(lia)). lia.
Qed.

Lemma cut_point_bounds data c :
  valid_config c → data ≠ [] →
  0 < cut_point data c ≤ Zlen data ∧
  cut_point data c ≤ cfg_max c ∧
  (cfg_min c ≤ Zlen data → cfg_min c ≤ cut_point data c) ∧
  (Zlen data ≤ cfg_min c → cut_point data c = Zlen data).
Proof.
  intros (Hmin & Hma & Hax) Hne. unfold cut_point.
  assert (0 < Zlen data) by (destruct data; [done|cbn [length]; lia]).
  destruct (Z.leb_spec (Zlen data) (cfg_min c)); [lia|].
  pose proof (scan_bounds c (Z.min (Zlen data) (cfg_max c))
    (drop (Z.to_nat (cfg_min c)) data) (cfg_min c) 0). lia.
Qed.

(** The scan looks at no byte past its answer: with the same bytes up to the
    answer, and an end that does not cut earlier, it answers the same. *)
Lemma scan_local c e e' rest rest' i h k :
  scan c e rest i h = k → i ≤ e → e ≤ i + Zlen rest →
  e' = e ∨ (k < e ∧ k ≤ e') →
  take (Z.to_nat (k - i)) rest' = take (Z.to_nat (k - i)) rest →
  scan c e' rest' i h = k.
Proof.
  revert rest' i h; induction rest as [|b rest IH]; intros rest' i h Hk Hi Hend Hcase Heq.
  - cbn in *. destruct rest'; cbn; [lia|]. destruct (Z.ltb_spec i e'); lia.
  - cbn [scan length] in *. destruct (Z.ltb_spec i e) as [Hlt|Hge].
    2: { destruct rest'; cbn; [lia|]. destruct (Z.ltb_spec i e'); lia. }
    cbv zeta in Hk. set (h' := w64 _) in *.
    assert (i + 1 ≤ k) as Hki.
    { case_match; [lia|]. pose proof (scan_bounds c e rest (i + 1) h'). lia. }
    replace (Z.to_nat (k - i)) with (S (Z.to_nat (k - (i + 1)))) in Heq by lia.
    destruct rest' as [|b' rest']; [done|]. cbn [take] in Heq. simplify_eq.
    cbn [scan]. destruct (Z.ltb_spec i e'); [|lia]. cbv zeta. fold h'.
    case_match; [done|]. apply IH; lia || done.
Qed.

Lemma cut_point_local d d' c k :
  valid_config c → cut_point d c = k → k < Zlen d → k ≤ Zlen d' →
  take (Z.to_nat k) d' = take (Z.to_nat k) d →
  cut_point d' c = k.
Proof.
  intros (Hmin & Hma & Hax) Hk Hd Hd' Heq. unfold cut_point in *.
  destruct (Z.leb_spec (Zlen d) (cfg_min c)) as [|Hgt]; [lia|].
  pose proof (scan_bounds c (Z.min (Zlen d) (cfg_max c))
    (drop (Z.to_nat (cfg_min c)) d) (cfg_min c) 0 ltac:(lia)) as Hb. rewrite Hk in Hb.
  destruct (Z.leb_spec (Zlen d') (cfg_min c)) as [Hle|Hgt'].
  - lia.
  - eapply scan_local; [exact Hk| |rewrite length_drop; lia| |]; [lia|lia|].
    apply (f_equal (drop (Z.to_nat (cfg_min c)))) in Heq.
    rewrite !skipn_firstn_comm in Heq.
    by replace (Z.to_nat (k - cfg_min c)) with (Z.to_nat k - Z.to_nat (cfg_min c))%nat by lia.
Qed.

(** ** The payload loop as a relation *)
Section relation.
Context `{Blake3}.

Inductive cdc (data : bytes) (c : ChunkerConfig) : Z → list Chunk → Prop :=
| cdc_end off : Zlen data ≤ off → cdc data c off []
| cdc_step off len cs :
    off < Zlen data →
    cut_point (drop (Z.to_nat off) data) c = len →
    cdc data c (off + len) cs →
    cdc data c off
      ({| ck_offset := off; ck_len := len;
          ck_hash := blake3 data.[off : off + len] |} :: cs).

Lemma cdc_det data c off cs cs' : cdc data c off cs → cdc data c off cs' → cs = cs'.
Proof.
  intros Hc; revert cs'. induction Hc; intros cs' Hc'; inversion Hc'; subst; try lia; [done|].
  f_equal. by apply IHHc.
Qed.

Lemma chunk_loop_cdc fuel data c off cs :
  chunk_loop fuel data c off = Some cs → cdc data c off cs.
Proof.
  revert off cs; induction fuel as [|fuel IH]; intros off cs; cbn [chunk_loop];
    destruct (Z.ltb_spec off (Zlen data)) as [Hlt|Hge]; intros Hs; simplify_eq;
    try (by constructor).
  apply bind_Some in Hs as (out & Hout & [= <-]). by constructor; [|done|apply IH].
Qed.

Lemma cut_point_drop data c off :
  valid_config c → 0 ≤ off < Zlen data →
  0 < cut_point (drop (Z.to_nat off) data) c ≤ Zlen data - off ∧
  cut_point (drop (Z.to_nat off) data) c ≤ cfg_max c ∧
  (cfg_min c ≤ Zlen data - off → cfg_min c ≤ cut_point (drop (Z.to_nat off) data) c) ∧
  (Zlen data - off ≤ cfg_min c →
     cut_point (drop (Z.to_nat off) data) c = Zlen data - off).
Proof.
  intros Hv Ho. destruct (cut_point_bounds (drop (Z.to_nat off) data) c Hv) as (H1 & H2 & H3 & H4).
  - intros Hnil%(f_equal length). rewrite length_drop in Hnil. cbn in Hnil. lia.
  - rewrite length_drop in *. lia.
Qed.

Lemma chunk_loop_total fuel data c off :
  valid_config c → 0 ≤ off → Zlen data - off ≤ Z.of_nat fuel →
  is_Some (chunk_loop fuel data c off).
Proof.
  intros Hv. revert off; induction fuel as [|fuel IH]; intros off Ho Hf; cbn [chunk_loop];
    destruct (Z.ltb_spec off (Zlen data)); try by eexists.
  - lia.
  - destruct (cut_point_drop data c off Hv ltac:(lia)) as ((H1 & H2) & _).
    destruct (IH (off + cut_point (drop (Z.to_nat off) data) c)) as [out Hout]; [lia..|].
    rewrite Hout. by eexists.
Qed.

Lemma chunk_payload_Ok data c cs :
  chunk_payload data c = Ok cs ↔ valid_config c ∧ cdc data c 0 cs.
Proof.
  unfold chunk_payload. destruct (validate c) eqn:Hv; cbn [negb].
  - apply validate_spec in Hv.
    destruct (chunk_loop_total (length data) data c 0) as [out Hout]; [done|lia|lia|].
    rewrite Hout. pose proof (chunk_loop_cdc _ _ _ _ _ Hout) as Hc. split.
    + by intros [= <-].
    + intros [_ Hcs]. by rewrite (cdc_det _ _ _ _ _ Hcs Hc).
  - split; [done|]. intros [Hc _]. apply validate_spec in Hc. congruence.
Qed.

(** What the chunk list promises about the payload: contiguous ranges that
    start at [off] and end with the payload, each with the digest of its own
    bytes, and the size policy. *)
Fixpoint tiles (data : bytes) (c : ChunkerConfig) (off : Z) (cs : list Chunk) : Prop :=
  match cs with
  | [] => off = Zlen data
  | k :: cs =>
      ck_offset k = off ∧
      0 < ck_len k ≤ cfg_max c ∧
      off + ck_len k ≤ Zlen data ∧
      (ck_len k < cfg_min c → off + ck_len k = Zlen data) ∧
      ck_hash k = blake3 data.[off : off + ck_len k] ∧
      tiles data c (off + ck_len k) cs
  end.

Definition chunk_bytes (data : bytes) (k : Chunk) : bytes :=
  data.[ck_offset k : ck_offset k + ck_len k].

Lemma cdc_tiles data c off cs :
  valid_config c → 0 ≤ off ≤ Zlen data → cdc data c off cs → tiles data c off cs.
Proof.
  intros Hv Ho Hc. induction Hc as [off Hge|off len cs Hlt Hk Hc IH]; cbn [tiles]; [lia|].
  destruct (cut_point_drop data c off Hv ltac:(lia)) as ((H1 & H2) & H3 & H4 & H5).
  cbn [ck_offset ck_len ck_hash].
  repeat split; try lia. apply IH. lia.
Qed.

Lemma tiles_concat data c off cs :
  0 ≤ off → tiles data c off cs →
  concat (chunk_bytes data <$> cs) = drop (Z.to_nat off) data.
Proof.
  revert off; induction cs as [|k cs IH]; intros off Ho Ht; cbn [tiles] in Ht.
  - cbn. subst. by rewrite Nat2Z.id, drop_all.
  - destruct Ht as (Hoff & Hlen & Hend & _ & _ & Ht). subst off. rewrite fmap_cons. cbn [concat].
    rewrite (IH (ck_offset k + ck_len k)) by (done || lia). unfold chunk_bytes, slice.
    replace (Z.to_nat (ck_offset k + ck_len k))
      with (Z.to_nat (ck_offset k) + Z.to_nat (ck_len k))%nat by lia.
    rewrite <-drop_drop, Z.add_simpl_l. apply take_drop.
Qed.

Lemma chunk_payload_tiles data c :
  valid_config c →
  ∃ cs, chunk_payload data c = Ok cs ∧ tiles data c 0 cs ∧
        concat (chunk_bytes data <$> cs) = data.
Proof.
  intros Hv. destruct (chunk_loop_total (length data) data c 0) as [cs Hcs]; [done|lia|lia|].
  exists cs. apply chunk_loop_cdc in Hcs.
  assert (tiles data c 0 cs) by (apply cdc_tiles; auto with lia).
  split; [by apply chunk_payload_Ok|]. split; [done|].
  by rewrite (tiles_concat data c 0).
Qed.

(** C20. For a valid configuration [chunk_payload] returns, and its chunks
    partition the payload: contiguous from offset 0 to the end, each of
    positive length at most [max] and, except the last, at least [min], each
    carrying the digest of its own bytes; concatenating their ranges gives
    the payload back. *)
Theorem chunk_payload_partition data c :
  valid_config c →
  ∃ cs, chunk_payload data c = Ok cs ∧ tiles data c 0 cs ∧
        concat (chunk_bytes data <$> cs) = data.
Proof. apply chunk_payload_tiles. Qed.

(** *** Locality *)
Fixpoint total_len (cs : list Chunk) : Z :=
  match cs with [] => 0 | k :: cs => ck_len k + total_len cs end.
Definition shift (d : Z) (k : Chunk) : Chunk :=
  {| ck_offset := d + ck_offset k; ck_len := ck_len k; ck_hash := ck_hash k |}.
(** What a chunk contributes to a manifest, wherever it lies. *)
Definition fingerprint (k : Chunk) : Z * bytes := (ck_len k, ck_hash k).

Lemma cdc_app data c off l r :
  cdc data c off (l ++ r) → cdc data c (off + total_len l) r.
Proof.
  revert off; induction l as [|k l IH]; intros off Hc; cbn in *; [by rewrite Z.add_0_r|].
  inversion Hc as [|? len cs Hlt Hk Htl]; subst. cbn [ck_len].
  rewrite Z.add_assoc. by apply IH.
Qed.

Lemma cdc_suffix p s c off cs :
  valid_config c → 0 ≤ off →
  cdc (p ++ s) c (Zlen p + off) cs → ∃ cs', cs = shift (Zlen p) <$> cs' ∧ cdc s c off cs'.
Proof.
  intros Hv Ho Hc. remember (Zlen p + off) as o eqn:Heq. revert off Ho Heq.
  induction Hc as [o Hge|o len cs Hlt Hk Hc IH]; intros off Ho ->; rewrite length_app in *.
  - exists []. split; [done|]. constructor. lia.
  - assert (drop (Z.to_nat (Zlen p + off)) (p ++ s) = drop (Z.to_nat off) s) as Hd.
    { replace (Z.to_nat (Zlen p + off)) with (length p + Z.to_nat off)%nat by lia.
      by rewrite <-drop_drop, drop_app_length. }
    rewrite Hd in Hk.
    destruct (cut_point_drop s c off Hv ltac:(lia)) as ((H1 & _) & _).
    destruct (IH (off + len)) as (cs' & -> & Hcs'); [lia..|].
    eexists. split; [|apply cdc_step; [lia|exact Hk|exact Hcs']].
    cbn. unfold shift at 2. cbn. f_equal. f_equal.
    rewrite <-Z.add_assoc. f_equal. apply slice_app_r. lia.
Qed.

(** Resynchronisation. Two payloads that end in the same bytes [s] and
    both have a chunk boundary where [s] starts are chunked identically from
    there on: same lengths and digests, whatever precedes [s]. *)
Theorem chunk_resync c p1 p2 s l1 r1 l2 r2 :
  chunk_payload (p1 ++ s) c = Ok (l1 ++ r1) →
  chunk_payload (p2 ++ s) c = Ok (l2 ++ r2) →
  total_len l1 = Zlen p1 → total_len l2 = Zlen p2 →
  fingerprint <$> r1 = fingerprint <$> r2.
Proof.
  intros [Hv H1]%chunk_payload_Ok [_ H2]%chunk_payload_Ok Hl1 Hl2.
  apply cdc_app in H1, H2. rewrite Hl1, Z.add_comm in H1. rewrite Hl2, Z.add_comm in H2.
  apply cdc_suffix in H1 as (t1 & -> & H1); [|done|lia].
  apply cdc_suffix in H2 as (t2 & -> & H2); [|done|lia].
  rewrite (cdc_det _ _ _ _ _ H1 H2), <-!list_fmap_compose. by apply list_fmap_ext.
Qed.

Lemma take_drop_prefix (p s1 s2 : bytes) (o k : nat) :
  (o + k ≤ length p)%nat →
  take k (drop o (p ++ s1)) = take k (drop o (p ++ s2)).
Proof. intros. by rewrite !drop_app_le, !take_app_le by (rewrite ?length_drop; lia). Qed.

Lemma tiles_total_len_nonneg data c off l r : tiles data c off (l ++ r) → 0 ≤ total_len l.
Proof.
  revert off; induction l as [|k l IH]; intros off Ht; cbn in *; [lia|].
  destruct Ht as (_ & ? & _ & _ & _ & Ht). specialize (IH _ Ht). lia.
Qed.

Lemma cdc_total_len_nonneg data c off l r :
  valid_config c → 0 ≤ off ≤ Zlen data → cdc data c off (l ++ r) → 0 ≤ total_len l.
Proof. intros Hv Ho Hc. by eapply tiles_total_len_nonneg, cdc_tiles. Qed.

Lemma cdc_prefix c p s1 s2 off l r :
  valid_config c → 0 ≤ off → s1 ≠ [] →
  cdc (p ++ s1) c off (l ++ r) → off + total_len l ≤ Zlen p →
  ∀ cs, cdc (p ++ s2) c off cs → ∃ r', cs = l ++ r'.
Proof.
  intros Hv Ho Hs. assert (0 < Zlen s1) by (destruct s1; [done|cbn [length]; lia]).
  revert off Ho. induction l as [|k l IH]; intros off Ho Hc Hl cs Hcs; [by exists cs|].
  cbn in Hc, Hl. inversion Hc as [|? len cs1 Hlt Hk Htl]; subst. cbn [ck_len] in *.
  set (len := cut_point (drop (Z.to_nat off) (p ++ s1)) c) in *.
  destruct (cut_point_drop (p ++ s1) c off Hv ltac:(lia)) as ((H1 & H2) & _). fold len in H1, H2.
  assert (0 ≤ total_len l) as Hpos
    by (apply (cdc_total_len_nonneg (p ++ s1) c (off + len) l r); done || lia).
  assert (cut_point (drop (Z.to_nat off) (p ++ s2)) c = len) as Hk2.
  { eapply (cut_point_local (drop (Z.to_nat off) (p ++ s1))); [done|done| | |];
      rewrite ?length_drop, ?length_app; [lia|lia|].
    apply take_drop_prefix. lia. }
  inversion Hcs as [|? len2 cs2 Hlt2 Hk2' Htl2]; subst;
    [rewrite length_app in *; lia|].
  rewrite Hk2 in *. destruct (IH (off + len)) with (cs := cs2) as (r' & ->); [lia|done|lia|done|].
  exists r'. cbn. do 3 f_equal. unfold slice. apply take_drop_prefix. lia.
Qed.

(** An edit leaves every earlier chunk alone. If two payloads share the
    prefix [p], the chunks of one that end inside [p] are, unchanged, the
    first chunks of the other. *)
Theorem chunk_prefix_stable c p s1 s2 l r cs :
  chunk_payload (p ++ s1) c = Ok (l ++ r) →
  chunk_payload (p ++ s2) c = Ok cs →
  s1 ≠ [] → total_len l ≤ Zlen p →
  ∃ r', cs = l ++ r'.
Proof.
  intros [Hv H1]%chunk_payload_Ok [_ H2]%chunk_payload_Ok Hs Hl.
  by eapply cdc_prefix; [done| |done|exact H1| |exact H2].
Qed.
End relation.

(** ** Errors and concrete runs *)

(** A configuration outside [0 < min <= avg <= max] is refused before any
    byte is read, and no other input is: the loop itself never fails. *)
Lemma chunk_payload_error `{Blake3} data c :
  (∃ e, chunk_payload data c = Err e) ↔ ¬ valid_config c.
Proof.
  unfold chunk_payload. rewrite <-validate_spec.
  destruct (validate c) eqn:Hv; cbn [negb].
  - split; [|done]. intros [e He]. by case_match.
  - split; [done|]. intros _. by eexists.
Qed.

Section witnesses.
#[local] Existing Instance toy_blake3.

Definition small_config : ChunkerConfig := {| cfg_min := 2; cfg_avg := 4; cfg_max := 6 |}.
Definition small_suffix : bytes := z2b <$> [5; 6; 7; 8; 9; 10; 11; 12; 13; 14].
Definition small_payload (p : list Z) : bytes := (z2b <$> p) ++ small_suffix.
Definition chunks_of (d : bytes) : list Chunk :=
  match chunk_payload d small_config with Ok cs => cs | _ => [] end.

Example gear_first_word : nth 0 GEAR 0 = 0x6E789E6AA1B965F4.
Proof. reflexivity. Qed.

Example small_run :
  (λ k, (ck_offset k, ck_len k)) <$> chunks_of (small_payload [1; 2; 3; 4])
  = [(0, 4); (4, 4); (8, 6)].
Proof. vm_compute. reflexivity. Qed.

Lemma chunk_payload_partition_witness :
  ∃ cs, chunk_payload small_suffix small_config = Ok cs ∧
        tiles small_suffix small_config 0 cs ∧
        concat (chunk_bytes small_suffix <$> cs) = small_suffix.
Proof. apply (chunk_payload_partition small_suffix small_config). unfold valid_config; cbn; lia. Defined.

Lemma chunk_resync_witness :
  fingerprint <$> drop 1 (chunks_of (small_payload [1; 2; 3; 4])) =
  fingerprint <$> drop 1 (chunks_of (small_payload [99; 98; 3; 4])).
Proof.
  apply (chunk_resync small_config (z2b <$> [1; 2; 3; 4]) (z2b <$> [99; 98; 3; 4]) small_suffix
           (take 1 (chunks_of (small_payload [1; 2; 3; 4]))) _
           (take 1 (chunks_of (small_payload [99; 98; 3; 4]))) _);
    vm_compute; reflexivity.
Defined.

Lemma chunk_prefix_stable_witness :
  ∃ r', chunks_of (small_payload [1; 2; 3; 4] ++ [Byte.x07]) =
        take 2 (chunks_of (small_payload [1; 2; 3; 4])) ++ r'.
Proof.
  apply (chunk_prefix_stable small_config (take 13 (small_payload [1; 2; 3; 4]))
           (drop 13 (small_payload [1; 2; 3; 4]))
           (drop 13 (small_payload [1; 2; 3; 4] ++ [Byte.x07]))
           (take 2 (chunks_of (small_payload [1; 2; 3; 4])))
           (drop 2 (chunks_of (small_payload [1; 2; 3; 4]))));
    vm_compute; done || (intros; discriminate).
Defined.
End witnesses.

End Cdc.
