(* ===== verification/Compression.v ===== *)
(** * Packfile entry codecs ([avm-cas/src/compression.rs])

    LZ4 with the STORE fallback, over the [Lz4] interface. *)

From S2P Require Import Prelude Cas.

Module Compression.

Definition CODEC_STORE : byte := Byte.x00.
Definition CODEC_LZ4 : byte := Byte.x01.

Section codec.
Context `{Lz4}.

Definition compress (data : bytes) : byte * bytes :=
  let lz := lz4_compress data in
  if Zlen lz <? Zlen data then (CODEC_LZ4, lz) else (CODEC_STORE, data).

Definition decompress (codec : byte) (data : bytes) : res CasError bytes :=
  if decide (codec = CODEC_STORE) then Ok data
  else if decide (codec = CODEC_LZ4) then
    ok_or (lz4_decompress data) (corrupt "lz4 block invalid: {}")
  else Err (Codec codec).

Lemma compress_length data : Zlen (compress data).2 ≤ Zlen data.
Proof. unfold compress. destruct (Z.ltb_spec (Zlen (lz4_compress data)) (Zlen data)); cbn; lia. Qed.

Lemma decompress_compress `{!Lz4Laws} data :
  Zlen data < 2 ^ 32 → decompress (compress data).1 (compress data).2 = Ok data.
Proof.
  intros Hd. unfold compress, decompress.
  destruct (Z.ltb_spec (Zlen (lz4_compress data)) (Zlen data)); cbn [fst snd].
  - rewrite decide_False, decide_True by done. by rewrite lz4_roundtrip.
  - by rewrite decide_True.
Qed.

(** Codec contract: an entry the store writes decompresses to the bytes
    it was made from and is never larger than them, and a codec id the
    format does not define is a hard error whatever the entry holds. *)
Theorem codec_contract `{!Lz4Laws} data :
  Zlen data < 2 ^ 32 →
  decompress (compress data).1 (compress data).2 = Ok data ∧
  Zlen (compress data).2 ≤ Zlen data ∧
  (∀ codec entry, 1 < b2z codec → decompress codec entry = Err (Codec codec)).
Proof.
  intros Hd. split; [by apply decompress_compress|]. split; [apply compress_length|].
  intros codec entry Hc. unfold decompress.
  rewrite !decide_False; [done|intros ->; cbn in Hc; lia..].
Qed.
End codec.

Lemma codec_contract_witness :
  decompress (H:=toy_lz4) (compress (H:=toy_lz4) (replicate 20 Byte.x00)).1
    (compress (H:=toy_lz4) (replicate 20 Byte.x00)).2 = Ok (replicate 20 Byte.x00).
Proof.
  apply (@codec_contract toy_lz4 toy_lz4_laws (replicate 20 Byte.x00)). cbn. lia.
Defined.

End Compression.
