(* ===== verification/Cursor.v ===== *)
(** * Bounds-checked byte cursors

    The decoding idiom [avm-cas] ([engine.rs], [Reader]) and [avm-exec]
    ([cell_builder.rs], [R]) share: a byte slice with a position, every read
    through a checked [take]. A reader is a function on cursors; [reads] and
    [accepts] are the two halves of a codec proof (what an encoding decodes to;
    what a decoded value was decoded from), with their composition rules. *)

From S2P Require Import Prelude.

Record cursor := { cur_b : bytes; cur_i : Z }.

Definition rd (E A : Type) : Type := cursor → res E (A * cursor).

#[export] Instance rd_ret {E} : MRet (rd E) := λ A a c, Ok (a, c).
#[export] Instance rd_bind {E} : MBind (rd E) := λ A B k p c,
  match p c with Ok (a, c') => k a c' | Err e => Err e | Panic => Panic end.

Definition rd_err {E A} (e : E) : rd E A := λ _, Err e.
Definition rd_lift {E A} (m : res E A) : rd E A := λ c, a ← m; Ok (a, c).

(** [for _ in 0..n { v.push(p()?) }] *)
Fixpoint rd_rep {E A} (n : nat) (p : rd E A) : rd E (list A) :=
  match n with
  | O => mret []
  | S n => a ← p; l ← rd_rep n p; mret (a :: l)
  end.

(** No Rust slice is longer than [isize::MAX] bytes. *)
Definition buffer (b : bytes) : Prop := Zlen b < 2 ^ 63.

(** The cursor that has read [pre] and has [post] left. *)
Definition at_ (pre post : bytes) : cursor := {| cur_b := pre ++ post; cur_i := Zlen pre |}.

Definition reads {E A} (p : rd E A) (s : bytes) (a : A) : Prop :=
  ∀ pre post, buffer (pre ++ s ++ post) → p (at_ pre (s ++ post)) = Ok (a, at_ (pre ++ s) post).

Definition accepts {E A} (p : rd E A) (P : A → bytes → Prop) : Prop :=
  ∀ pre rest, buffer (pre ++ rest) →
  match p (at_ pre rest) with
  | Ok (a, c') => ∃ s post, rest = s ++ post ∧ c' = at_ (pre ++ s) post ∧ P a s
  | Err _ => True
  | Panic => False
  end.

Lemma at_app pre s post : at_ pre (s ++ post) = {| cur_b := (pre ++ s) ++ post; cur_i := Zlen pre |}.
Proof. unfold at_. by rewrite app_assoc. Qed.

Section rules.
Context {E : Type}.

Lemma reads_ret {A} (a : A) : reads (E:=E) (mret a) [] a.
Proof. intros pre post _. unfold mret, rd_ret. cbn. by rewrite app_nil_r. Qed.

Lemma reads_bind {A B} (p : rd E A) (k : A → rd E B) s1 s2 a b :
  reads p s1 a → reads (k a) s2 b → reads (p ≫= k) (s1 ++ s2) b.
Proof.
  intros Hp Hk pre post Hb. unfold mbind, rd_bind. rewrite <-app_assoc in *.
  rewrite Hp by done. rewrite Hk by (by rewrite <-app_assoc).
  by rewrite <-app_assoc.
Qed.

(** The shape every decoder step has after its value is known. *)
Lemma reads_bind_r {A B} (p : rd E A) (k : A → rd E B) s a b :
  reads p s a → reads (k a) [] b → reads (p ≫= k) s b.
Proof. intros. rewrite <-(app_nil_r s). by eapply reads_bind. Qed.

Lemma reads_rep {A} (p : rd E A) (enc : A → bytes) l :
  (∀ a, a ∈ l → reads p (enc a) a) →
  reads (rd_rep (length l) p) (concat (enc <$> l)) l.
Proof.
  induction l as [|a l IH]; intros Hl; cbn [length rd_rep]; [apply reads_ret|].
  rewrite fmap_cons. cbn [concat].
  eapply reads_bind; [apply Hl; set_solver|].
  eapply reads_bind_r; [apply IH; set_solver|apply reads_ret].
Qed.

Lemma accepts_ret {A} (a : A) (P : A → bytes → Prop) : P a [] → accepts (E:=E) (mret a) P.
Proof. intros HP pre rest _. exists [], rest. by rewrite app_nil_r. Qed.

Lemma accepts_err {A} (e : E) (P : A → bytes → Prop) : accepts (rd_err e) P.
Proof. intros pre rest _. exact I. Qed.

Lemma accepts_mono {A} (p : rd E A) (P Q : A → bytes → Prop) :
  accepts p P → (∀ a s, P a s → Q a s) → accepts p Q.
Proof.
  intros Hp HPQ pre rest Hb. specialize (Hp pre rest Hb).
  destruct (p _) as [[a c']|e|]; [|done..].
  destruct Hp as (s & post & -> & -> & HP). eauto 10.
Qed.

Lemma accepts_bind {A B} (p : rd E A) (k : A → rd E B) P Q :
  accepts p P →
  (∀ a s, P a s → accepts (k a) (λ b t, Q b (s ++ t))) →
  accepts (p ≫= k) Q.
Proof.
  intros Hp Hk pre rest Hb. unfold mbind, rd_bind. specialize (Hp pre rest Hb).
  destruct (p _) as [[a c']|e|]; [|done..].
  destruct Hp as (s & post & -> & -> & HP).
  specialize (Hk a s HP (pre ++ s) post). rewrite <-app_assoc in Hk. specialize (Hk Hb).
  destruct (k a _) as [[b c'']|e|]; [|done..].
  destruct Hk as (t & post' & -> & -> & HQ).
  exists (s ++ t), post'. by rewrite <-!app_assoc.
Qed.

Lemma accepts_rep {A} (p : rd E A) (enc : A → bytes) (P : A → Prop) n :
  accepts p (λ a s, s = enc a ∧ P a) →
  accepts (rd_rep n p)
    (λ l s, s = concat (enc <$> l) ∧ length l = n ∧ Forall P l).
Proof.
  intros Hp. induction n as [|n IH]; cbn [rd_rep].
  - apply accepts_ret. auto.
  - eapply accepts_bind; [exact Hp|]. intros a s [-> Ha]. cbv beta.
    eapply accepts_bind; [exact IH|]. intros l t (-> & Hlen & Hl).
    apply accepts_ret. rewrite fmap_cons. cbn. rewrite app_nil_r. auto.
Qed.

(** A reader that succeeds on the whole buffer, and only there. *)
Lemma accepts_all {A} (p : rd E A) P b a c' :
  accepts p P → buffer b → p {| cur_b := b; cur_i := 0 |} = Ok (a, c') →
  ∃ s post, b = s ++ post ∧ c' = at_ s post ∧ P a s.
Proof.
  intros Hp Hb Hr. specialize (Hp [] b Hb).
  change (at_ [] b) with {| cur_b := b; cur_i := 0 |} in Hp. by rewrite Hr in Hp.
Qed.

Lemma accepts_no_panic {A} (p : rd E A) P b :
  accepts p P → buffer b → p {| cur_b := b; cur_i := 0 |} ≠ Panic.
Proof.
  intros Hp Hb Hr. specialize (Hp [] b Hb).
  change (at_ [] b) with {| cur_b := b; cur_i := 0 |} in Hp. by rewrite Hr in Hp.
Qed.

Lemma reads_all {A} (p : rd E A) s a :
  reads p s a → buffer s →
  p {| cur_b := s; cur_i := 0 |} = Ok (a, {| cur_b := s; cur_i := Zlen s |}).
Proof.
  intros Hp Hb. specialize (Hp [] []). rewrite app_nil_r in Hp. unfold at_ in Hp.
  cbn in Hp. rewrite app_nil_r in Hp. by apply Hp.
Qed.
End rules.

(** ** Decoders that must consume the whole buffer *)
Definition rd_whole {E A} (p : rd E A) (e : E) (bs : bytes) : res E A :=
  '(a, r) ← p {| cur_b := bs; cur_i := 0 |};
  if negb (cur_i r =? Zlen bs) then Err e else Ok a.

(** A reader with both halves of the codec proof, run to the end of its input,
    is exactly the inverse of the encoder. *)
Lemma rd_whole_exact {E A} (p : rd E A) (enc : A → bytes) (wf : A → Prop) e bs :
  (∀ a, wf a → reads p (enc a) a) → accepts p (λ a s, s = enc a ∧ wf a) → buffer bs →
  rd_whole p e bs ≠ Panic ∧ ∀ a, rd_whole p e bs = Ok a ↔ wf a ∧ bs = enc a.
Proof.
  intros Hrd Hacc Hb. unfold rd_whole. split.
  { intros [Hp|([a r] & _ & Hp)]%bind_Panic.
    - by apply (accepts_no_panic _ _ _ Hacc Hb).
    - cbv beta iota in Hp. by case_match. }
  intros a. rewrite bind_Ok. split.
  - intros ([a' r] & Hr & Heq). cbv beta iota in Heq.
    destruct (Z.eqb_spec (cur_i r) (Zlen bs)) as [Hi|]; cbn [negb] in Heq; simplify_eq.
    apply (accepts_all _ _ _ _ _ Hacc) in Hr as (s & post & Hbs & -> & -> & Hwf); [|done].
    unfold at_ in Hi. cbn [cur_i] in Hi. split; [done|]. subst bs. rewrite length_app in Hi.
    destruct post as [|x post]; [by rewrite app_nil_r|cbn [length] in Hi; lia].
  - intros [Hwf ->]. exists (a, {| cur_b := enc a; cur_i := Zlen (enc a) |}).
    split; [apply reads_all; [by apply Hrd|done]|].
    cbv beta iota. cbn [cur_i]. by rewrite Z.eqb_refl.
Qed.

(** ** Fixed-width reads over any checked [take] *)
Class ByteReader (E : Type) := br_take : Z → rd E bytes.
Class ByteReaderLaws (E : Type) `{ByteReader E} : Prop := {
  br_reads : ∀ s, reads (br_take (Zlen s)) s s;
  br_accepts : ∀ n, 0 ≤ n < 2 ^ 63 → accepts (br_take n) (λ a s, a = s ∧ Zlen s = n)
}.

(** A [take] that slices in range and reports an error otherwise has the laws. *)
Lemma checked_take_laws {E} `{ByteReader E} :
  (∀ c n, 0 ≤ cur_i c ≤ Zlen (cur_b c) → 0 ≤ n < 2 ^ 63 → buffer (cur_b c) →
     (cur_i c + n ≤ Zlen (cur_b c) ∧
      br_take n c = Ok ((cur_b c).[cur_i c : cur_i c + n],
                        {| cur_b := cur_b c; cur_i := cur_i c + n |})) ∨
     (Zlen (cur_b c) < cur_i c + n ∧ ∃ e, br_take n c = Err e)) →
  ByteReaderLaws E.
Proof.
  intros Ht. split.
  - intros s pre post Hb. assert (Hb' := Hb). unfold buffer in Hb'. rewrite !length_app in Hb'.
    destruct (Ht (at_ pre (s ++ post)) (Zlen s)) as [[_ ->]|[Hl _]];
      cbn [at_ cur_b cur_i] in *; [rewrite ?length_app; lia|lia|done| |rewrite !length_app in Hl; lia].
    unfold at_. by rewrite slice_middle, app_assoc, length_app, Nat2Z.inj_add.
  - intros n Hn pre rest Hb. assert (Hb' := Hb). unfold buffer in Hb'. rewrite length_app in Hb'.
    destruct (Ht (at_ pre rest) n) as [[Hl ->]|[_ [e ->]]];
      cbn [at_ cur_b cur_i] in *; [rewrite ?length_app; lia|done|done| |done].
    rewrite length_app in Hl.
    exists (take (Z.to_nat n) rest), (drop (Z.to_nat n) rest).
    assert ((pre ++ rest).[Zlen pre : Zlen pre + n] = take (Z.to_nat n) rest) as ->.
    { rewrite <-(Z.add_0_r (Zlen pre)) at 1. rewrite slice_app_r by lia.
      unfold slice. by rewrite Z.sub_0_r, drop_0. }
    assert (Zlen (take (Z.to_nat n) rest) = n) as Hn' by (rewrite length_take; lia).
    rewrite take_drop. split; [done|]. split; [|done]. unfold at_.
    by rewrite <-app_assoc, take_drop, length_app, Nat2Z.inj_add, Hn'.
Qed.

Section reads_of_take.
Context {E : Type} `{ByteReader E}.

(** [self.take(1)?[0]] *)
Definition rd_u8 : rd E byte := s ← br_take 1; rd_lift (index_p s 0).
(** [uN::from_le_bytes(self.take(n)?.try_into().unwrap())] *)
Definition rd_le (n : nat) : rd E Z := s ← br_take (Z.of_nat n); mret (le_val s).
(** [self.take(n)?.try_into().unwrap()] into [[u8; n]] *)
Definition rd_array (n : nat) : rd E bytes := br_take (Z.of_nat n).

Context `{!ByteReaderLaws E}.

Lemma reads_u8 b : reads rd_u8 [b] b.
Proof.
  unfold rd_u8. eapply reads_bind_r; [apply (br_reads [b])|]. cbn.
  intros pre post _. cbn. by rewrite app_nil_r.
Qed.

Lemma reads_le n z : 0 ≤ z < 2 ^ (8 * Z.of_nat n) → reads (rd_le n) (le_bytes n z) z.
Proof.
  intros Hz. unfold rd_le. eapply reads_bind_r.
  - rewrite <-(length_le_bytes n z) at 1. apply br_reads.
  - rewrite le_val_le_bytes_small by done. apply reads_ret.
Qed.

Lemma reads_array n s : length s = n → reads (rd_array n) s s.
Proof. intros <-. apply br_reads. Qed.

Lemma accepts_u8 : accepts rd_u8 (λ b s, s = [b]).
Proof.
  unfold rd_u8. eapply accepts_bind; [by apply br_accepts|].
  intros a s [<- Hs]. destruct a as [|b [|]]; cbn [length] in Hs; try lia.
  intros pre rest _. cbn. exists [], rest. by rewrite app_nil_r.
Qed.

Lemma accepts_le n :
  (n ≤ 8)%nat → accepts (rd_le n) (λ z s, s = le_bytes n z ∧ 0 ≤ z < 2 ^ (8 * Z.of_nat n)).
Proof.
  intros Hn. unfold rd_le. eapply accepts_bind; [by apply br_accepts; lia|].
  intros a s [<- Hs]. apply accepts_ret. rewrite app_nil_r.
  pose proof (le_val_range a) as Hr. rewrite Hs in Hr.
  split; [|done]. by rewrite le_bytes_le_val by lia.
Qed.

Lemma accepts_array n :
  Z.of_nat n < 2 ^ 63 → accepts (rd_array n) (λ a s, a = s ∧ length s = n).
Proof. intros Hn. unfold rd_array. eapply accepts_mono; [apply (br_accepts (Z.of_nat n)); lia|]. intros a s [-> Hs]. auto with lia. Qed.
End reads_of_take.

(** Step through a decoder: one read of the encoding, one of the acceptance. *)
Tactic Notation "reads_step" uconstr(lem) := eapply reads_bind; [apply lem | cbn beta].
Tactic Notation "accepts_step" uconstr(lem) := eapply accepts_bind; [apply lem | cbn beta].
