(* ===== verification/Manifest.v ===== *)
(** * Manifests and their canonical encoding ([avm-cas/src/engine.rs])

    Digest text ([hex], [unhex]), the [Manifest] record, its unsigned and
    signed encodings, and the bounds-checked decoder. The decoder is proved to
    be exactly the inverse of the encoder on well-formed manifests. *)

From S2P Require Import Prelude Cas Cursor.

(** ** Digest text *)
Module Hex.

(** [char::from_digit(d, 16)] for [d < 16]. *)
Definition from_digit (d : Z) : byte := if d <? 10 then z2b (48 + d) else z2b (87 + d).

(** [char::to_digit(16)]. *)
Definition to_digit (b : byte) : option Z :=
  let c := b2z b in
  if (48 <=? c) && (c <=? 57) then Some (c - 48)
  else if (97 <=? c) && (c <=? 102) then Some (c - 87)
  else if (65 <=? c) && (c <=? 70) then Some (c - 55)
  else None.

Definition hex (bs : bytes) : bytes :=
  concat ((λ b, [from_digit (Z.shiftr (b2z b) 4); from_digit (Z.land (b2z b) 0xF)]) <$> bs).

(** One iteration of the [unhex] loop. *)
Definition unhex_at (s : bytes) (i : Z) : res CasError byte :=
  b_hi ← index_p s (2 * i);
  hi ← ok_or (to_digit b_hi) (corrupt "bad hex");
  b_lo ← index_p s (2 * i + 1);
  lo ← ok_or (to_digit b_lo) (corrupt "bad hex");
  Ok (z2b (Z.lor (Z.shiftl hi 4) lo)).

Definition unhex (s : bytes) : res CasError bytes :=
  if negb (Zlen s =? 64) then Err (corrupt "digest must be 64 hex chars, got {}")
  else mapM_res (unhex_at s) (seqZ 0 32).

Lemma to_digit_from_digit d : 0 ≤ d < 16 → to_digit (from_digit d) = Some d.
Proof.
  intros Hd. assert (d ∈ seqZ 0 16) as H by (apply elem_of_seqZ; lia).
  clear Hd. revert d H. apply Forall_forall. repeat constructor.
Qed.

Lemma hex_byte b :
  to_digit (from_digit (Z.shiftr (b2z b) 4)) = Some (Z.shiftr (b2z b) 4) ∧
  to_digit (from_digit (Z.land (b2z b) 0xF)) = Some (Z.land (b2z b) 0xF) ∧
  z2b (Z.lor (Z.shiftl (Z.shiftr (b2z b) 4) 4) (Z.land (b2z b) 0xF)) = b.
Proof. by destruct b. Qed.

Lemma length_hex d : length (hex d) = (2 * length d)%nat.
Proof. induction d as [|b d IH]; [done|]. unfold hex in *. cbn in *. lia. Qed.

Lemma hex_lookup d i b :
  d !! i = Some b →
  hex d !! (2 * i)%nat = Some (from_digit (Z.shiftr (b2z b) 4)) ∧
  hex d !! (2 * i + 1)%nat = Some (from_digit (Z.land (b2z b) 0xF)).
Proof.
  revert i; induction d as [|a d IH]; intros i Hi; [done|].
  destruct i as [|i]; cbn in Hi; simplify_eq; [done|].
  replace (2 * S i)%nat with (S (S (2 * i))) by lia.
  replace (2 * S i + 1)%nat with (S (S (2 * i + 1))) by lia.
  by apply IH.
Qed.

Lemma index_p_Some {E A} (l : list A) (i : nat) (x : A) :
  l !! i = Some x → index_p (E:=E) l (Z.of_nat i) = Ok x.
Proof.
  intros H. unfold index_p. destruct (Z.leb_spec 0 (Z.of_nat i)); [|lia].
  by rewrite Nat2Z.id, H.
Qed.

Lemma unhex_at_hex d (i : nat) b :
  d !! i = Some b → unhex_at (hex d) (Z.of_nat i) = Ok b.
Proof.
  intros Hi. destruct (hex_lookup d i b Hi) as [H1 H2].
  destruct (hex_byte b) as (D1 & D2 & D3). unfold unhex_at.
  replace (2 * Z.of_nat i) with (Z.of_nat (2 * i)) by lia.
  replace (Z.of_nat (2 * i) + 1) with (Z.of_nat (2 * i + 1)) by lia.
  rewrite (index_p_Some _ _ _ H1), (index_p_Some _ _ _ H2). cbn.
  rewrite D1. cbn. rewrite D2. cbn. by rewrite D3.
Qed.

Lemma unhex_hex d : length d = 32%nat → unhex (hex d) = Ok d.
Proof.
  intros Hd. unfold unhex. rewrite length_hex.
  destruct (Z.eqb_spec (Z.of_nat (2 * length d)) 64); [|lia]. cbn [negb].
  apply mapM_res_Ok. apply Forall2_same_length_lookup. split.
  - by rewrite length_seqZ, Hd.
  - intros i x b Hx Hb. apply lookup_seqZ in Hx as [-> Hi].
    by apply unhex_at_hex.
Qed.

Lemma unhex_length s d : unhex s = Ok d → length s = 64%nat ∧ length d = 32%nat.
Proof.
  unfold unhex. destruct (Z.eqb_spec (Zlen s) 64); cbn [negb]; [|done].
  intros H%mapM_res_Ok%Forall2_length. rewrite length_seqZ in H. lia.
Qed.

Lemma unhex_at_no_panic s i : 0 ≤ i → 2 * i + 1 < Zlen s → unhex_at s i ≠ Panic.
Proof.
  intros H0 H1. unfold unhex_at.
  destruct (lookup_lt_is_Some_2 s (Z.to_nat (2 * i))) as [x Hx]; [lia|].
  destruct (lookup_lt_is_Some_2 s (Z.to_nat (2 * i + 1))) as [y Hy]; [lia|].
  rewrite <-(Z2Nat.id (2 * i)) by lia. rewrite (index_p_Some _ _ _ Hx).
  rewrite Z2Nat.id by lia. rewrite <-(Z2Nat.id (2 * i + 1)) by lia.
  rewrite (index_p_Some _ _ _ Hy). cbn.
  destruct (to_digit x); cbn; [|done]. by destruct (to_digit y).
Qed.

(** Digest text. [unhex] inverts [hex] on every 32-byte digest, accepts
    only 64-character strings, always yields 32 bytes, and never panics
    whatever the string. *)
Theorem hex_roundtrip :
  (∀ d, length d = 32%nat → unhex (hex d) = Ok d) ∧
  (∀ s d, unhex s = Ok d → length s = 64%nat ∧ length d = 32%nat) ∧
  (∀ s, unhex s ≠ Panic).
Proof.
  split; [exact unhex_hex|]. split; [exact unhex_length|]. intros s. unfold unhex.
  destruct (Z.eqb_spec (Zlen s) 64); cbn [negb]; [|done].
  apply mapM_res_no_panic. intros i Hi%elem_of_seqZ. apply unhex_at_no_panic; lia.
Qed.

#[export] Instance hex_inj : Inj (=) (=) hex.
Proof.
  intros a; induction a as [|x a IH]; intros b Hab.
  - destruct b; [done|]. apply (f_equal length) in Hab. rewrite !length_hex in Hab. cbn in Hab. lia.
  - destruct b as [|y b]; [apply (f_equal length) in Hab; rewrite !length_hex in Hab; cbn in Hab; lia|].
    destruct (hex_byte x) as (X1 & X2 & X3), (hex_byte y) as (Y1 & Y2 & Y3).
    unfold hex in Hab. cbn in Hab. injection Hab as H1 H2 H3.
    f_equal; [|by apply IH].
    rewrite <-X3, <-Y3. rewrite H1 in X1. rewrite H2 in X2. congruence.
Qed.

End Hex.

(** ** The record and its encodings *)
Module Manifest.

Definition MANIFEST_MAGIC : bytes := str "AVMM".
Definition MANIFEST_FORMAT : Z := 1.

Record Manifest := {
  m_name : bytes;
  m_version : bytes;
  m_total_size : Z;
  m_chunks : list bytes;
  m_drv_hash : option bytes;
  m_pubkey : option bytes;
  m_signature : option bytes
}.

#[export] Instance Manifest_eq_dec : EqDecision Manifest.
Proof. solve_decision. Defined.

Definition new (name version : bytes) : Manifest := {|
  m_name := name; m_version := version; m_total_size := 0; m_chunks := [];
  m_drv_hash := None; m_pubkey := None; m_signature := None |}.

(** [&(s.len() as u32).to_le_bytes()] then [s.as_bytes()]. *)
Definition encode_string (s : bytes) : bytes := le_bytes 4 (Zlen s) ++ s.

(** The presence byte and the array of an [Option<[u8; N]>] field. *)
Definition encode_opt (o : option bytes) : bytes :=
  match o with None => [Byte.x00] | Some h => Byte.x01 :: h end.

Definition encode_unsigned (m : Manifest) : bytes :=
  MANIFEST_MAGIC ++ le_bytes 2 MANIFEST_FORMAT ++
  encode_string (m_name m) ++ encode_string (m_version m) ++
  le_bytes 8 (m_total_size m) ++
  encode_opt (m_drv_hash m) ++
  le_bytes 4 (Zlen (m_chunks m)) ++ concat (m_chunks m).

Definition encode_signed (m : Manifest) : bytes :=
  encode_unsigned m ++ encode_opt (m_pubkey m) ++ encode_opt (m_signature m).

Definition to_bytes (m : Manifest) : bytes := encode_signed m.

Definition identity_digest `{Blake3} (m : Manifest) : bytes := blake3 (encode_unsigned m).

(** ** [Reader] *)
Definition take (n : Z) : rd CasError bytes := λ r,
  if 2 ^ 64 <=? cur_i r + n then Panic
  else if Zlen (cur_b r) <? cur_i r + n then Err (corrupt "manifest truncated")
  else s ← slice_p (cur_b r) (cur_i r) (cur_i r + n);
       Ok (s, {| cur_b := cur_b r; cur_i := cur_i r + n |}).

#[export] Instance Reader_take : ByteReader CasError := take.

Definition u8 : rd CasError byte := rd_u8.
Definition u16 : rd CasError Z := rd_le 2.
Definition u32 : rd CasError Z := rd_le 4.
Definition u64 : rd CasError Z := rd_le 8.
Definition array32 : rd CasError bytes := rd_array 32.
Definition array64 : rd CasError bytes := rd_array 64.

Definition string : rd CasError bytes :=
  n ← u32;
  if Z.shiftl 1 20 <? n then rd_err (corrupt "string length implausible")
  else raw ← br_take n; rd_lift (from_utf8 (corrupt "manifest string not utf-8") raw).

(** [match r.u8()? { 0 => None, 1 => Some(array()?), _ => Err }] *)
Definition opt_field (msg : String.string) (array : rd CasError bytes)
    : rd CasError (option bytes) :=
  p ← u8;
  if b2z p =? 0 then mret None
  else if b2z p =? 1 then h ← array; mret (Some h)
  else rd_err (corrupt msg).

Definition decode_body : rd CasError Manifest :=
  magic ← br_take 4;
  if negb (bool_decide (magic = MANIFEST_MAGIC)) then rd_err (corrupt "manifest magic mismatch")
  else
  format ← u16;
  if negb (format =? MANIFEST_FORMAT) then rd_err (corrupt "manifest format {} unsupported")
  else
  name ← string;
  version ← string;
  total_size ← u64;
  drv_hash ← opt_field "drv_hash presence byte invalid" array32;
  n ← u32;
  if Z.shiftl 1 24 <? n then rd_err (corrupt "manifest chunk count implausible")
  else
  chunks ← rd_rep (Z.to_nat n) array32;
  pubkey ← opt_field "pubkey presence byte invalid" array32;
  signature ← opt_field "signature presence byte invalid" array64;
  mret {| m_name := name; m_version := version; m_total_size := total_size;
          m_chunks := chunks; m_drv_hash := drv_hash; m_pubkey := pubkey;
          m_signature := signature |}.

Definition decode (bs : bytes) : res CasError Manifest :=
  rd_whole decode_body (corrupt "trailing bytes after manifest") bs.

Definition from_bytes (bs : bytes) : res CasError Manifest := decode bs.

(** ** The reader satisfies the cursor interface *)
#[export] Instance Reader_laws : ByteReaderLaws CasError.
Proof.
  apply checked_take_laws. intros c n Hi Hn Hb. unfold buffer in Hb.
  unfold br_take, Reader_take, take.
  destruct (Z.leb_spec (2 ^ 64) (cur_i c + n)); [lia|].
  destruct (Z.ltb_spec (Zlen (cur_b c)) (cur_i c + n)); [right; split; [lia|by eexists]|].
  left. split; [lia|]. by rewrite slice_p_Ok by lia.
Qed.

(** ** Well-formed manifests: what the decoder can produce *)
Definition opt_len (n : nat) (o : option bytes) : Prop :=
  match o with None => True | Some h => length h = n end.

Definition string_wf (s : bytes) : Prop := Zlen s ≤ 2 ^ 20 ∧ utf8_valid s = true.

Record manifest_wf (m : Manifest) : Prop := {
  wf_name : string_wf (m_name m);
  wf_version : string_wf (m_version m);
  wf_size : 0 ≤ m_total_size m < 2 ^ 64;
  wf_count : Zlen (m_chunks m) ≤ 2 ^ 24;
  wf_chunks : Forall (λ h, length h = 32%nat) (m_chunks m);
  wf_drv : opt_len 32 (m_drv_hash m);
  wf_key : opt_len 32 (m_pubkey m);
  wf_sig : opt_len 64 (m_signature m)
}.

Lemma reads_string s : string_wf s → reads string (encode_string s) s.
Proof.
  intros [Hs Hu]. unfold string, encode_string, u32. reads_step reads_le; [cbn; lia|].
  change (Z.shiftl 1 20) with (2 ^ 20).
  destruct (Z.ltb_spec (2 ^ 20) (Zlen s)); [lia|].
  eapply reads_bind_r; [apply br_reads|].
  intros pre post _. unfold rd_lift, from_utf8. rewrite Hu. cbn. by rewrite app_nil_r.
Qed.

Lemma accepts_string : accepts string (λ s e, e = encode_string s ∧ string_wf s).
Proof.
  unfold string, u32. accepts_step (accepts_le 4); [lia|]. intros n e [-> Hn].
  change (Z.shiftl 1 20) with (2 ^ 20).
  destruct (Z.ltb_spec (2 ^ 20) n); [apply accepts_err|].
  eapply accepts_bind; [apply br_accepts; lia|]. intros s t [<- Hs].
  intros pre rest _. unfold rd_lift, from_utf8. destruct (utf8_valid s) eqn:Hu; cbn; [|done].
  exists [], rest. rewrite !app_nil_r. split; [done|]. split; [done|].
  unfold encode_string, string_wf. rewrite Hs. auto with lia.
Qed.

Lemma reads_opt msg n o :
  opt_len n o → reads (opt_field msg (rd_array n)) (encode_opt o) o.
Proof.
  intros Ho. destruct o as [h|]; unfold opt_field, encode_opt.
  - change (Byte.x01 :: h) with ([Byte.x01] ++ h).
    reads_step reads_u8. eapply reads_bind_r; [by apply reads_array|apply reads_ret].
  - eapply reads_bind_r; [apply reads_u8|apply reads_ret].
Qed.

Lemma accepts_opt msg n :
  Z.of_nat n < 2 ^ 63 →
  accepts (opt_field msg (rd_array n)) (λ o e, e = encode_opt o ∧ opt_len n o).
Proof.
  intros Hn. unfold opt_field, u8. accepts_step accepts_u8. intros p e ->.
  destruct (Z.eqb_spec (b2z p) 0) as [H0|].
  { apply accepts_ret. split; [|done]. cbn. f_equal. by apply (inj b2z). }
  destruct (Z.eqb_spec (b2z p) 1) as [H1|]; [|apply accepts_err].
  accepts_step accepts_array; [done|]. intros h e [<- Hh].
  apply accepts_ret. rewrite app_nil_r. split; [|done]. cbn. f_equal. by apply (inj b2z).
Qed.

Lemma reads_decode_body m : manifest_wf m → reads decode_body (encode_signed m) m.
Proof.
  intros [Hn Hv Hs Hc Hcs Hd Hk Hg].
  unfold decode_body, encode_signed, encode_unsigned. rewrite <-!app_assoc.
  reads_step (br_reads MANIFEST_MAGIC). rewrite bool_decide_eq_true_2 by done. cbn [negb].
  reads_step reads_le; [done|]. cbn [negb].
  reads_step reads_string; [done|]. reads_step reads_string; [done|].
  reads_step reads_le; [done|]. reads_step (reads_opt _ 32); [done|].
  reads_step reads_le; [cbn; lia|].
  change (Z.shiftl 1 24) with (2 ^ 24). destruct (Z.ltb_spec (2 ^ 24) (Zlen (m_chunks m))); [lia|].
  rewrite Nat2Z.id.
  eapply reads_bind.
  { rewrite <-(list_fmap_id (m_chunks m)) at 2. apply reads_rep.
    intros h Hh. apply reads_array. by eapply Forall_forall in Hcs. }
  reads_step (reads_opt _ 32); [done|]. eapply reads_bind_r; [by apply (reads_opt _ 64)|].
  destruct m; apply reads_ret.
Qed.

Lemma accepts_decode_body : accepts decode_body (λ m e, e = encode_signed m ∧ manifest_wf m).
Proof.
  unfold decode_body. accepts_step br_accepts; [lia|]. intros magic ? [<- _].
  destruct (decide (magic = MANIFEST_MAGIC)) as [->|Hm];
    [rewrite bool_decide_eq_true_2 by done|rewrite bool_decide_eq_false_2 by exact Hm; apply accepts_err].
  cbn [negb]. accepts_step (accepts_le 2); [lia|]. intros fmt ? [-> _].
  destruct (Z.eqb_spec fmt MANIFEST_FORMAT) as [->|]; cbn [negb]; [|apply accepts_err].
  accepts_step accepts_string. intros name ? [-> Hn].
  accepts_step accepts_string. intros version ? [-> Hv].
  accepts_step (accepts_le 8); [lia|]. intros size ? [-> Hs].
  accepts_step (accepts_opt "drv_hash presence byte invalid" 32); [lia|]. intros drv ? [-> Hd].
  accepts_step (accepts_le 4); [lia|]. intros n ? [-> Hc].
  change (Z.shiftl 1 24) with (2 ^ 24). destruct (Z.ltb_spec (2 ^ 24) n); [apply accepts_err|].
  accepts_step (accepts_rep array32 id (λ h, length h = 32%nat)).
  { eapply accepts_mono; [apply accepts_array; lia|]. intros a s [-> Ha]. auto. }
  intros chunks ? (-> & Hlen & Hcs).
  accepts_step (accepts_opt "pubkey presence byte invalid" 32); [lia|]. intros key ? [-> Hk].
  accepts_step (accepts_opt "signature presence byte invalid" 64); [lia|]. intros sg ? [-> Hg].
  apply accepts_ret. split.
  - unfold encode_signed, encode_unsigned.
    cbn [m_name m_version m_total_size m_chunks m_drv_hash m_pubkey m_signature].
    rewrite list_fmap_id, Hlen, Z2Nat.id by lia. by rewrite app_nil_r, <-!app_assoc.
  - split; cbn; done || lia.
Qed.

Lemma concat_length_32 (l : list bytes) :
  Forall (λ h, length h = 32%nat) l → length (concat l) = (32 * length l)%nat.
Proof. induction 1 as [|h l Hh Hl IH]; cbn; [done|]. rewrite length_app. lia. Qed.

Lemma encode_signed_buffer m : manifest_wf m → buffer (encode_signed m).
Proof.
  intros [[Hn _] [Hv _] Hs Hc Hcs Hd Hk Hg].
  assert (∀ n o, opt_len n o → (length (encode_opt o) ≤ S n)%nat) as Ho.
  { intros n [h|] H; cbn in *; lia. }
  pose proof (Ho _ _ Hd). pose proof (Ho _ _ Hk). pose proof (Ho _ _ Hg).
  unfold buffer, encode_signed, encode_unsigned, encode_string.
  rewrite !length_app, !length_le_bytes, concat_length_32 by done.
  change (length MANIFEST_MAGIC) with 4%nat. lia.
Qed.

Lemma decode_exact bs :
  buffer bs →
  decode bs ≠ Panic ∧
  ∀ m, decode bs = Ok m ↔ manifest_wf m ∧ bs = encode_signed m.
Proof. apply rd_whole_exact; [exact reads_decode_body|exact accepts_decode_body]. Qed.

(** C21. The codec is exact. On any buffer the decoder never panics, and it
    answers [Ok m] precisely on the canonical bytes of a well-formed [m]: every
    well-formed manifest survives the round trip, no two byte strings decode to
    the same manifest, and whatever decodes is well-formed. *)
Theorem manifest_codec_exact bs :
  buffer bs →
  decode bs ≠ Panic ∧
  ∀ m, decode bs = Ok m ↔ manifest_wf m ∧ bs = encode_signed m.
Proof. apply decode_exact. Qed.

Lemma decode_encode m : manifest_wf m → decode (encode_signed m) = Ok m.
Proof.
  intros Hwf. unfold decode, rd_whole.
  rewrite (reads_all _ _ _ (reads_decode_body m Hwf) (encode_signed_buffer m Hwf)).
  cbn. by rewrite Z.eqb_refl.
Qed.

(** The unsigned part of a manifest. *)
Definition unsigned (m : Manifest) : Manifest := {|
  m_name := m_name m; m_version := m_version m; m_total_size := m_total_size m;
  m_chunks := m_chunks m; m_drv_hash := m_drv_hash m;
  m_pubkey := None; m_signature := None |}.

Lemma unsigned_wf m : manifest_wf m → manifest_wf (unsigned m).
Proof. intros []. by split. Qed.

Lemma encode_signed_unsigned m :
  encode_signed (unsigned m) = encode_unsigned m ++ [Byte.x00; Byte.x00].
Proof. reflexivity. Qed.

(** The unsigned encoding, the message that is hashed and signed, is
    injective: equal encodings come from manifests that agree on every field
    except key and signature. *)
Theorem encode_unsigned_inj m1 m2 :
  manifest_wf m1 → manifest_wf m2 →
  encode_unsigned m1 = encode_unsigned m2 → unsigned m1 = unsigned m2.
Proof.
  intros H1 H2 Heq. apply unsigned_wf in H1, H2.
  pose proof (decode_encode _ H1) as D1. pose proof (decode_encode _ H2) as D2.
  rewrite !encode_signed_unsigned in *. congruence.
Qed.

Definition demo : Manifest := {|
  m_name := str "demo"; m_version := str "0.1.0"; m_total_size := 1234;
  m_chunks := [replicate 32 Byte.x07]; m_drv_hash := Some (replicate 32 Byte.x09);
  m_pubkey := Some (replicate 32 Byte.x0a); m_signature := Some (replicate 64 Byte.x0b) |}.

Lemma demo_wf : manifest_wf demo.
Proof. split; cbn; try lia; repeat constructor; cbn; lia. Qed.

Lemma manifest_codec_exact_witness : decode (encode_signed demo) = Ok demo.
Proof.
  apply (manifest_codec_exact (encode_signed demo)); [apply encode_signed_buffer, demo_wf|].
  split; [apply demo_wf|reflexivity].
Defined.

Lemma encode_unsigned_inj_witness : unsigned demo = unsigned (unsigned demo).
Proof. apply (encode_unsigned_inj demo (unsigned demo)); [apply demo_wf|apply unsigned_wf, demo_wf|reflexivity]. Defined.

End Manifest.
