(* ===== verification/Crypto.v ===== *)
(** * Manifest signatures ([avm-cas/src/crypto.rs])

    Signing in place and fail-closed verification over the [Ed25519]
    interface. *)

From S2P Require Import Prelude Cas Manifest.
Import Manifest.

Module Crypto.

Section signatures.
Context `{Blake3} `{Ed25519}.

(** A [SigningKey] is its 32-byte seed. *)
Definition signing_key_from_seed (seed : bytes) : bytes := seed.

Definition sign_manifest (m : Manifest) (key : bytes) : Manifest :=
  let digest := identity_digest m in
  let sig := ed_sign key digest in
  {| m_name := m_name m; m_version := m_version m; m_total_size := m_total_size m;
     m_chunks := m_chunks m; m_drv_hash := m_drv_hash m;
     m_pubkey := Some (ed_verifying_key key); m_signature := Some sig |}.

Definition verify_manifest (m : Manifest) : res CasError () :=
  match m_pubkey m with
  | None => Err (Signature (str "manifest carries no public key"))
  | Some pk_bytes =>
      match m_signature m with
      | None => Err (Signature (str "manifest is unsigned"))
      | Some sig_bytes =>
          if vk_valid pk_bytes then
            let digest := identity_digest m in
            if ed_verify pk_bytes digest sig_bytes then Ok ()
            else Err (Signature (str "signature mismatch: {}"))
          else Err (Signature (str "invalid public key: {}"))
      end
  end.

(** Fail-closed signatures. Verification succeeds exactly on a manifest
    that carries a key and a signature by that key over its identity digest,
    and every other manifest is a [Signature] error; a freshly signed
    manifest verifies, and signing keeps the identity and well-formedness. *)
Theorem signature_fail_closed `{!Ed25519Laws} m key :
  (verify_manifest m = Ok () ↔
     ∃ pk sg, m_pubkey m = Some pk ∧ m_signature m = Some sg ∧
              vk_valid pk = true ∧ ed_verify pk (identity_digest m) sg = true) ∧
  (verify_manifest m = Ok () ∨ ∃ why, verify_manifest m = Err (Signature why)) ∧
  verify_manifest (sign_manifest m key) = Ok () ∧
  identity_digest (sign_manifest m key) = identity_digest m ∧
  (manifest_wf m → manifest_wf (sign_manifest m key)).
Proof.
  split; [|split]; [unfold verify_manifest..|].
  - split.
    + intros Hv. repeat case_match; simplify_eq. eauto 10.
    + intros (pk & sg & -> & -> & -> & Hs). by rewrite Hs.
  - repeat case_match; eauto.
  - assert (identity_digest (sign_manifest m key) = identity_digest m) as Hid by reflexivity.
    split; [|split; [done|]].
    + unfold verify_manifest. cbv zeta. rewrite Hid. cbn [sign_manifest m_pubkey m_signature].
      by rewrite ed_key_valid, ed_correct.
    + intros []. split; cbn; try done; [apply ed_key_length|apply ed_sign_length].
Qed.
End signatures.

Section witnesses.
#[local] Existing Instance toy_blake3.
#[local] Existing Instance toy_ed25519.

Lemma signature_fail_closed_witness :
  verify_manifest (sign_manifest demo (replicate 32 Byte.x05)) = Ok ().
Proof.
  apply (@signature_fail_closed toy_blake3 toy_ed25519 toy_ed25519_laws demo
           (replicate 32 Byte.x05)).
Defined.
End witnesses.

End Crypto.
