(* ===== verification/Text.v ===== *)
(** * Text: what the code uses of [str]

    Rust strings as their UTF-8 bytes: decimal numbers, prefixes and suffixes,
    splitting and joining, [lines], [trim], [split_whitespace] and
    [String::from_utf8_lossy], with the laws that connect printing and
    parsing. *)

From S2P Require Import Prelude.

(** ** Decimal numbers *)

Definition digit (d : Z) : byte := z2b (48 + d).

(** The last [k] decimal digits of [n]. *)
Fixpoint dec_fixed (k : nat) (n : Z) : bytes :=
  match k with
  | O => []
  | S k => dec_fixed k (n / 10) ++ [digit (n mod 10)]
  end.

(** How many digits [n] has, with fuel [k]; 20 digits hold an [u64]. *)
Fixpoint ndigits (k : nat) (n : Z) : nat :=
  match k with
  | O => 1
  | S k => if n <? 10 then 1 else S (ndigits k (n / 10))
  end.

(** [to_string] of an unsigned integer of at most 64 bits. *)
Definition dec (n : Z) : bytes := dec_fixed (ndigits 20 n) n.

(** [{:0kx}] of an integer of at most [k] hexadecimal digits. *)
Fixpoint hex_fixed (k : nat) (n : Z) : bytes :=
  match k with
  | O => []
  | S k => hex_fixed k (n / 16) ++ [let d := n mod 16 in if d <? 10 then digit d else z2b (87 + d)]
  end.

Definition from_ascii_digit (b : byte) : option Z :=
  if (48 <=? b2z b) && (b2z b <=? 57) then Some (b2z b - 48) else None.

(** [str::parse] of an unsigned integer below [bound]: an optional ['+'], at
    least one digit, no overflow. *)
Fixpoint parse_digits (bound : Z) (s : bytes) (acc : Z) : option Z :=
  match s with
  | [] => Some acc
  | b :: s =>
      d ← from_ascii_digit b;
      if acc * 10 + d <? bound then parse_digits bound s (acc * 10 + d) else None
  end.

Definition parse_uint (bound : Z) (s : bytes) : option Z :=
  let s := match s with b :: s' => if b2z b =? 43 then s' else s | [] => s end in
  match s with [] => None | _ => parse_digits bound s 0 end.

(** The same of an [i64]: a minus or a plus, then digits. *)
Definition parse_i64 (s : bytes) : option Z :=
  match s with
  | [] => None
  | b :: t =>
      if b2z b =? 45 then match t with [] => None | _ => Z.opp <$> parse_digits (2 ^ 63 + 1) t 0 end
      else parse_uint (2 ^ 63) s
  end.

(** ** Prefixes and suffixes *)

(** [str::strip_prefix] and [str::strip_suffix]. *)
Definition strip_prefix (p s : bytes) : option bytes :=
  if bool_decide (take (length p) s = p) then Some (drop (length p) s) else None.
Definition strip_suffix (p s : bytes) : option bytes :=
  if bool_decide (drop (length s - length p) s = p)
  then Some (take (length s - length p) s) else None.

Definition starts_with (p s : bytes) : bool := bool_decide (is_Some (strip_prefix p s)).
Definition ends_with (p s : bytes) : bool := bool_decide (is_Some (strip_suffix p s)).

(** [str::is_char_boundary] at a position of the text. *)
Definition is_char_boundary (s : bytes) (n : Z) : bool :=
  match s !! Z.to_nat n with Some b => negb (byte_in 0x80 0xBF b) | None => true end.

(** ** Splitting and joining on a byte *)

(** [s.split(sep).collect()]: never empty. *)
Fixpoint split (sep : byte) (s : bytes) : list bytes :=
  match s with
  | [] => [[]]
  | b :: s =>
      if bool_decide (b = sep) then [] :: split sep s
      else match split sep s with
           | p :: ps => (b :: p) :: ps
           | [] => [[b]]
           end
  end.

Fixpoint join (sep : byte) (ps : list bytes) : bytes :=
  match ps with
  | [] => []
  | [p] => p
  | p :: ps => p ++ sep :: join sep ps
  end.

(** [s.split_once(pat)], the first occurrence. *)
Fixpoint split_once (pat s : bytes) : option (bytes * bytes) :=
  match strip_prefix pat s with
  | Some rest => Some ([], rest)
  | None => match s with
            | [] => None
            | b :: s => '(a, rest) ← split_once pat s; Some (b :: a, rest)
            end
  end.

(** ** [lines]: at ["\n"], a ["\r"] before it stripped, no last empty line *)
Definition CR : byte := Byte.x0d.
Definition LF : byte := Byte.x0a.
Definition CRLF : bytes := [CR; LF].

Definition strip_cr (p : bytes) : bytes :=
  match strip_suffix [CR] p with Some q => q | None => p end.

Fixpoint lines_of (parts : list bytes) : list bytes :=
  match parts with
  | [] => []
  | [p] => match p with [] => [] | _ => [p] end
  | p :: parts => strip_cr p :: lines_of parts
  end.
Definition lines (s : bytes) : list bytes := lines_of (split LF s).

(** ** White space: the characters with the Unicode property, encoded *)
Definition whitespace : list bytes :=
  ((λ z, [z2b z]) <$> [0x09; 0x0A; 0x0B; 0x0C; 0x0D; 0x20]) ++
  [z2b <$> [0xC2; 0x85]; z2b <$> [0xC2; 0xA0]; z2b <$> [0xE1; 0x9A; 0x80]] ++
  ((λ z, z2b <$> [0xE2; 0x80; z]) <$> seqZ 0x80 11) ++
  [z2b <$> [0xE2; 0x80; 0xA8]; z2b <$> [0xE2; 0x80; 0xA9]; z2b <$> [0xE2; 0x80; 0xAF];
   z2b <$> [0xE2; 0x81; 0x9F]; z2b <$> [0xE3; 0x80; 0x80]].

(** The length of the white-space character [s] starts with, or 0. *)
Definition ws_len (ws : list bytes) (s : bytes) : nat :=
  match list_find (λ w, is_Some (strip_prefix w s)) ws with
  | Some (_, w) => length w
  | None => 0
  end.

(** Drop white space at the start; [skip] bytes of the current one remain. *)
Fixpoint trim_left (ws : list bytes) (skip : nat) (s : bytes) : bytes :=
  match s with
  | [] => []
  | _ :: t =>
      match skip with
      | S k => trim_left ws k t
      | O => match ws_len ws s with O => s | S k => trim_left ws k t end
      end
  end.

Definition trim (s : bytes) : bytes :=
  reverse (trim_left (reverse <$> whitespace) 0 (reverse (trim_left whitespace 0 s))).

Definition flush (cur : bytes) : list bytes := match cur with [] => [] | _ => [cur] end.

Fixpoint split_ws (skip : nat) (cur s : bytes) : list bytes :=
  match s with
  | [] => flush cur
  | b :: t =>
      match skip with
      | S k => split_ws k cur t
      | O => match ws_len whitespace s with
             | O => split_ws 0 (cur ++ [b]) t
             | S k => flush cur ++ split_ws k [] t
             end
      end
  end.
Definition split_whitespace (s : bytes) : list bytes := split_ws 0 [] s.

(** ** [Path::join]: an absolute second path replaces the first *)
Definition path_join (p name : bytes) : bytes :=
  if bool_decide (is_Some (strip_prefix (str "/") name)) || (Zlen p =? 0) then name
  else if ends_with (str "/") p then p ++ name else p ++ str "/" ++ name.

(** ** [Path::parent], [Path::file_name] and [Path::file_stem]

    Trailing separators and current directories do not count. *)
Fixpoint skip_seps (r : bytes) : bytes :=
  match r with
  | Byte.x2f :: r => skip_seps r
  | Byte.x2e :: (Byte.x2f :: _) as r' => match r' with _ :: r => skip_seps r | [] => [] end
  | r => r
  end.
Fixpoint skip_name (r : bytes) : bytes := match r with [] => [] | Byte.x2f :: _ => r | _ :: r => skip_name r end.
Definition path_parent (p : bytes) : option bytes :=
  match skip_seps (reverse p) with
  | [] => None
  | r => match skip_name r with
         | [] => Some []
         | r => match skip_seps r with [] => Some (str "/") | r => Some (reverse r) end
         end
  end.
Definition path_file_name (p : bytes) : option bytes :=
  let r := skip_seps (reverse p) in
  let name := reverse (take (length r - length (skip_name r))%nat r) in
  if bool_decide (name ∈ [ []; str "."; str ".."]) then None else Some name.
Definition rsplit_once (c : byte) (s : bytes) : option (bytes * bytes) :=
  match split_once [c] (reverse s) with Some (b, a) => Some (reverse a, reverse b) | None => None end.
Definition path_file_stem (p : bytes) : option bytes :=
  (λ name, match rsplit_once Byte.x2e name with Some ([], _) | None => name | Some (stem, _) => stem end) <$> path_file_name p.

(** ** [str::to_ascii_lowercase] *)
Definition lower (b : byte) : byte := if byte_in 65 90 b then z2b (b2z b + 32) else b.
Definition to_ascii_lowercase (s : bytes) : bytes := lower <$> s.

(** ** [String::from_utf8_lossy]: each maximal ill-formed part becomes U+FFFD *)
Definition FFFD : bytes := z2b <$> [0xEF; 0xBF; 0xBD].

Definition second_of_3 (b0 b1 : byte) : bool :=
  if byte_in 0xE0 0xE0 b0 then byte_in 0xA0 0xBF b1
  else if byte_in 0xED 0xED b0 then byte_in 0x80 0x9F b1
  else byte_in 0x80 0xBF b1.
Definition second_of_4 (b0 b1 : byte) : bool :=
  if byte_in 0xF0 0xF0 b0 then byte_in 0x90 0xBF b1
  else if byte_in 0xF4 0xF4 b0 then byte_in 0x80 0x8F b1
  else byte_in 0x80 0xBF b1.

Fixpoint from_utf8_lossy (l : bytes) : bytes :=
  match l with
  | [] => []
  | b0 :: t0 =>
      if byte_in 0 0x7F b0 then b0 :: from_utf8_lossy t0
      else if byte_in 0xC2 0xDF b0 then
        match t0 with
        | b1 :: t1 =>
            if byte_in 0x80 0xBF b1 then b0 :: b1 :: from_utf8_lossy t1
            else FFFD ++ from_utf8_lossy t0
        | [] => FFFD
        end
      else if byte_in 0xE0 0xEF b0 then
        match t0 with
        | b1 :: t1 =>
            if second_of_3 b0 b1 then
              match t1 with
              | b2 :: t2 =>
                  if byte_in 0x80 0xBF b2 then b0 :: b1 :: b2 :: from_utf8_lossy t2
                  else FFFD ++ from_utf8_lossy t1
              | [] => FFFD
              end
            else FFFD ++ from_utf8_lossy t0
        | [] => FFFD
        end
      else if byte_in 0xF0 0xF4 b0 then
        match t0 with
        | b1 :: t1 =>
            if second_of_4 b0 b1 then
              match t1 with
              | b2 :: t2 =>
                  if byte_in 0x80 0xBF b2 then
                    match t2 with
                    | b3 :: t3 =>
                        if byte_in 0x80 0xBF b3 then b0 :: b1 :: b2 :: b3 :: from_utf8_lossy t3
                        else FFFD ++ from_utf8_lossy t2
                    | [] => FFFD
                    end
                  else FFFD ++ from_utf8_lossy t1
              | [] => FFFD
              end
            else FFFD ++ from_utf8_lossy t0
        | [] => FFFD
        end
      else FFFD ++ from_utf8_lossy t0
  end.

(** ** Laws: boolean checks over lists *)
Lemma forallb_Forall {A} (f : A → bool) l : forallb f l = true ↔ Forall (λ x, f x = true) l.
Proof.
  induction l as [|x l IH]; cbn; [split; [constructor|done]|].
  rewrite andb_true_iff, IH. split; [intros []; by constructor|by intros []%Forall_cons].
Qed.

Lemma byte_in_spec lo hi b : byte_in lo hi b = true ↔ lo ≤ b2z b ≤ hi.
Proof. unfold byte_in. rewrite andb_true_iff, !Z.leb_le. done. Qed.

(** ** Laws: decimal numbers *)
Lemma from_ascii_digit_digit d : 0 ≤ d < 10 → from_ascii_digit (digit d) = Some d.
Proof.
  intros Hd. assert (d ∈ seqZ 0 10) as H by (apply elem_of_seqZ; lia).
  clear Hd. revert d H. apply Forall_forall. repeat constructor.
Qed.

Lemma parse_digits_app bound s1 s2 acc :
  parse_digits bound (s1 ++ s2) acc = acc' ← parse_digits bound s1 acc; parse_digits bound s2 acc'.
Proof.
  revert acc; induction s1 as [|b s1 IH]; intros acc; cbn; [done|].
  destruct (from_ascii_digit b); cbn; [|done]. case_match; [apply IH|done].
Qed.

Lemma parse_digits_dec_fixed bound k n :
  0 ≤ n < bound → parse_digits bound (dec_fixed k n) 0 = Some (n mod 10 ^ Z.of_nat k).
Proof.
  revert n; induction k as [|k IH]; intros n Hn; cbn [dec_fixed].
  - cbn. by rewrite Z.mod_1_r.
  - pose proof (Z.mod_pos_bound n 10 ltac:(lia)) as Hm.
    pose proof (Z.div_mod n 10 ltac:(lia)) as Hdm.
    rewrite parse_digits_app, IH by lia. cbn [mbind option_bind].
    set (q := n / 10 mod 10 ^ Z.of_nat k).
    assert (n mod 10 ^ Z.of_nat (S k) = q * 10 + n mod 10) as Heq.
    { replace (Z.of_nat (S k)) with (1 + Z.of_nat k) by lia.
      rewrite Z.pow_add_r, Z.pow_1_r by lia. rewrite Z.rem_mul_r by lia. unfold q. lia. }
    assert (0 ≤ n mod 10 ^ Z.of_nat (S k) ≤ n) as Hle.
    { split; [apply Z.mod_pos_bound; lia|apply Z.mod_le; lia]. }
    cbn [parse_digits]. rewrite from_ascii_digit_digit by done. cbn.
    destruct (Z.ltb_spec (q * 10 + n mod 10) bound); [by rewrite Heq|lia].
Qed.

(** Every byte of a printed number is an ASCII digit. *)
Definition is_digit (b : byte) : Prop := 48 ≤ b2z b ≤ 57.

Lemma dec_fixed_digits k n : Forall is_digit (dec_fixed k n).
Proof.
  revert n; induction k as [|k IH]; intros n; cbn; [constructor|]. apply Forall_app. split; [apply IH|].
  constructor; [|constructor]. unfold is_digit, digit. pose proof (Z.mod_pos_bound n 10 ltac:(lia)).
  rewrite b2z_z2b, Z.mod_small; lia.
Qed.

Lemma length_dec_fixed k n : length (dec_fixed k n) = k.
Proof. revert n; induction k as [|k IH]; intros n; cbn; [done|]. rewrite length_app, IH. cbn. lia. Qed.

Lemma parse_uint_dec_fixed bound k n :
  (0 < k)%nat → 0 ≤ n < bound → n < 10 ^ Z.of_nat k → parse_uint bound (dec_fixed k n) = Some n.
Proof.
  intros Hk Hn Hlt. pose proof (parse_digits_dec_fixed bound k n Hn) as Hp.
  rewrite Z.mod_small in Hp by lia. unfold parse_uint.
  pose proof (dec_fixed_digits k n) as Hd. pose proof (length_dec_fixed k n) as Hl.
  destruct (dec_fixed k n) as [|b s]; [cbn in Hl; lia|]. apply Forall_cons in Hd as [Hb _].
  unfold is_digit in Hb. destruct (Z.eqb_spec (b2z b) 43); [lia|done].
Qed.

Lemma ndigits_bound k n : 0 ≤ n < 10 ^ Z.of_nat k → (0 < k)%nat →
  (0 < ndigits k n)%nat ∧ n < 10 ^ Z.of_nat (ndigits k n).
Proof.
  revert n; induction k as [|k IH]; intros n Hn Hk; [lia|]. cbn [ndigits].
  destruct (Z.ltb_spec n 10); [cbn; lia|].
  destruct k as [|k]; [cbn in Hn; lia|].
  pose proof (Z.div_mod n 10 ltac:(lia)). pose proof (Z.mod_pos_bound n 10 ltac:(lia)).
  replace (Z.of_nat (S (S k))) with (1 + Z.of_nat (S k)) in Hn by lia.
  rewrite Z.pow_add_r, Z.pow_1_r in Hn by lia.
  destruct (IH (n / 10)) as [Hpos Hlt]; [lia..|]. split; [lia|].
  replace (Z.of_nat (S (ndigits (S k) (n / 10)))) with (1 + Z.of_nat (ndigits (S k) (n / 10))) by lia.
  rewrite Z.pow_add_r, Z.pow_1_r by lia. lia.
Qed.

Lemma parse_uint_dec bound n : 0 ≤ n < bound → n < 2 ^ 64 → parse_uint bound (dec n) = Some n.
Proof.
  intros Hn H64. destruct (ndigits_bound 20 n) as [H1 H2]; [cbn; lia|lia|].
  by apply parse_uint_dec_fixed.
Qed.

Lemma dec_nonempty n : dec n ≠ [].
Proof.
  unfold dec. intros H. apply (f_equal length) in H. rewrite length_dec_fixed in H.
  cbn [ndigits length] in H. case_match; lia.
Qed.

(** ** Laws: prefixes, suffixes, splitting *)
Lemma strip_prefix_app p s : strip_prefix p (p ++ s) = Some s.
Proof. unfold strip_prefix. by rewrite take_app_length, bool_decide_eq_true_2, drop_app_length. Qed.

Lemma strip_prefix_Some p s t : strip_prefix p s = Some t → s = p ++ t.
Proof.
  unfold strip_prefix. case_bool_decide as Hd; [|done]. intros [= <-].
  rewrite <-Hd at 1. by rewrite take_drop.
Qed.

Lemma strip_suffix_app p s : strip_suffix p (s ++ p) = Some s.
Proof.
  unfold strip_suffix. rewrite length_app, Nat.add_sub.
  by rewrite drop_app_length, bool_decide_eq_true_2, take_app_length.
Qed.

Lemma strip_suffix_Some p s t : strip_suffix p s = Some t → s = t ++ p.
Proof.
  unfold strip_suffix. case_bool_decide as Hd; [|done]. intros [= <-].
  rewrite <-Hd at 2. by rewrite take_drop.
Qed.

Lemma ends_with_true p s : ends_with p s = true ↔ ∃ t, s = t ++ p.
Proof.
  unfold ends_with. rewrite bool_decide_eq_true. split.
  - intros [t Ht]. exists t. by apply strip_suffix_Some.
  - intros [t ->]. rewrite strip_suffix_app. by eexists.
Qed.

Lemma split_nonempty sep s : split sep s ≠ [].
Proof. destruct s as [|b s]; cbn; [done|]. case_bool_decide; [done|]. by destruct (split sep s). Qed.

Lemma split_app_sep sep a b : sep ∉ a → split sep (a ++ sep :: b) = a :: split sep b.
Proof.
  induction a as [|x a IH]; intros Ha; cbn; [by rewrite bool_decide_eq_true_2|].
  rewrite bool_decide_eq_false_2 by set_solver. rewrite IH by set_solver. done.
Qed.

Lemma split_no_sep sep a : sep ∉ a → split sep a = [a].
Proof.
  induction a as [|x a IH]; intros Ha; cbn; [done|].
  rewrite bool_decide_eq_false_2 by set_solver. rewrite IH by set_solver. done.
Qed.

Lemma join_split sep s : join sep (split sep s) = s.
Proof.
  induction s as [|b s IH]; cbn; [done|]. case_bool_decide as Hb.
  - subst. pose proof (split_nonempty sep s). cbn [join]. destruct (split sep s) eqn:E; [done|]. by rewrite IH.
  - pose proof (split_nonempty sep s). destruct (split sep s) as [|p ps] eqn:E; [done|].
    cbn in IH |- *. destruct ps; by rewrite <-IH.
Qed.

Lemma split_parts sep s : Forall (λ p, sep ∉ p) (split sep s).
Proof.
  induction s as [|b s IH]; cbn; [constructor; [set_solver|constructor]|]. case_bool_decide.
  - constructor; [set_solver|done].
  - destruct (split sep s) as [|p ps]; [constructor; [set_solver|constructor]|].
    apply Forall_cons in IH as [Hp Hps]. constructor; [set_solver|done].
Qed.

Lemma split_join sep ps : ps ≠ [] → Forall (λ p, sep ∉ p) ps → split sep (join sep ps) = ps.
Proof.
  induction ps as [|p ps IH]; intros Hne Hps; [done|]. apply Forall_cons in Hps as [Hp Hps].
  destruct ps as [|q ps]; [by apply split_no_sep|].
  change (join sep (p :: q :: ps)) with (p ++ sep :: join sep (q :: ps)).
  rewrite split_app_sep by done. by rewrite IH.
Qed.

Lemma from_utf8_lossy_valid n : ∀ l, (length l ≤ n)%nat → utf8_valid l = true → from_utf8_lossy l = l.
Proof.
  induction n as [|n IH]; intros l Hn Hv; [by destruct l; [|cbn in Hn; lia]|].
  destruct l as [|b0 t0]; [done|]. cbn [length] in Hn. cbn [utf8_valid from_utf8_lossy] in *.
  destruct (byte_in 0 0x7F b0); [rewrite IH; done || lia|].
  destruct t0 as [|b1 t1]; [done|]. cbn [length] in Hn.
  destruct (byte_in 0xC2 0xDF b0); [apply andb_prop in Hv as [-> Hv]; rewrite IH; done || lia|].
  destruct t1 as [|b2 t2]; [done|]. cbn [length] in Hn.
  destruct (byte_in 0xE0 0xEF b0).
  { apply andb_prop in Hv as [[H1 H2]%andb_prop Hv]. unfold second_of_3. rewrite H1, H2, IH; done || lia. }
  destruct t2 as [|b3 t3]; [done|]. cbn [length] in Hn.
  destruct (byte_in 0xF0 0xF4 b0); [|done].
  apply andb_prop in Hv as [[[H1 H2]%andb_prop H3]%andb_prop Hv].
  unfold second_of_4. rewrite H1, H2, H3, IH; done || lia.
Qed.

(** ** The order of [String], [[u8; 32]] and path names: bytes, lexicographically *)
Fixpoint digest_leb (a b : bytes) : bool :=
  match a, b with
  | [], _ => true
  | _ :: _, [] => false
  | x :: a, y :: b => (b2z x <? b2z y) || ((b2z x =? b2z y) && digest_leb a b)
  end.
Definition digest_le (a b : bytes) : Prop := digest_leb a b = true.
#[export] Instance digest_le_dec a b : Decision (digest_le a b).
Proof. unfold digest_le. apply _. Defined.

Lemma digest_leb_refl a : digest_leb a a = true.
Proof. induction a as [|x a IH]; cbn; [done|]. by rewrite Z.eqb_refl, IH, orb_true_r. Qed.

Lemma digest_leb_total a b : digest_leb a b = true ∨ digest_leb b a = true.
Proof.
  revert b; induction a as [|x a IH]; intros [|y b]; cbn; auto.
  destruct (Z.ltb_spec (b2z x) (b2z y)), (Z.ltb_spec (b2z y) (b2z x)); cbn [orb]; auto; try lia.
  replace (b2z x) with (b2z y) by lia. rewrite Z.eqb_refl. cbn [andb]. apply IH.
Qed.

Lemma digest_leb_antisym a b : digest_leb a b = true → digest_leb b a = true → a = b.
Proof.
  revert b; induction a as [|x a IH]; intros [|y b]; cbn; try done.
  destruct (Z.ltb_spec (b2z x) (b2z y)), (Z.ltb_spec (b2z y) (b2z x)); cbn [orb]; try lia;
    destruct (Z.eqb_spec (b2z x) (b2z y)) as [Hxy|], (Z.eqb_spec (b2z y) (b2z x)); cbn [andb]; try done; try lia.
  intros Ha Hb. f_equal; [by apply (inj b2z)|by apply IH].
Qed.

Lemma digest_leb_trans a b c : digest_leb a b = true → digest_leb b c = true → digest_leb a c = true.
Proof.
  revert b c; induction a as [|x a IH]; intros [|y b] [|z c]; cbn; try done.
  destruct (Z.ltb_spec (b2z x) (b2z y)), (Z.ltb_spec (b2z y) (b2z z)), (Z.ltb_spec (b2z x) (b2z z));
    cbn [orb]; try done; try lia;
    destruct (Z.eqb_spec (b2z x) (b2z y)), (Z.eqb_spec (b2z y) (b2z z)), (Z.eqb_spec (b2z x) (b2z z));
    cbn [andb]; try done; try lia. apply IH.
Qed.

#[export] Instance digest_le_total : Total digest_le.
Proof. intros a b. apply digest_leb_total. Qed.
#[export] Instance digest_le_trans : Transitive digest_le.
Proof. intros a b c. apply digest_leb_trans. Qed.
#[export] Instance digest_le_antisymm : AntiSymm (=) digest_le.
Proof. intros a b. apply digest_leb_antisym. Qed.

(** ** White space and tokens *)

(** No white-space character starts, or ends, with a digit. *)
Definition no_digit (w : bytes) : bool :=
  match w with [] => false | b :: _ => negb (byte_in 48 57 b) end.

Lemma ws_digit ws b s : forallb no_digit ws = true → is_digit b → ws_len ws (b :: s) = 0%nat.
Proof.
  intros Hws Hb. unfold ws_len. destruct (list_find _ ws) as [[i w]|] eqn:E; [|done].
  apply list_find_Some in E as (Hi & [t Ht] & _). apply strip_prefix_Some in Ht.
  rewrite forallb_Forall, Forall_lookup in Hws. specialize (Hws i w Hi).
  destruct w as [|b' w]; [done|]. cbn in Ht, Hws. simplify_eq.
  apply byte_in_spec in Hb. by rewrite Hb in Hws.
Qed.

Lemma trim_digits s : Forall is_digit s → trim s = s.
Proof.
  intros Hs. unfold trim.
  assert (∀ ws t, forallb no_digit ws = true → Forall is_digit t → trim_left ws 0 t = t) as Ht.
  { intros ws [|b t] Hw Ht; [done|]. apply Forall_cons in Ht as [Hb _]. cbn [trim_left].
    by rewrite ws_digit. }
  rewrite (Ht whitespace s) by done. rewrite Ht by (done || by apply Forall_reverse).
  apply reverse_involutive.
Qed.

Definition not_ws (b : byte) : bool :=
  forallb (λ w, match w with [] => false | c :: _ => negb (bool_decide (b = c)) end) whitespace.

Lemma ws_len_none b s : not_ws b = true → ws_len whitespace (b :: s) = 0%nat.
Proof.
  intros Hb. unfold ws_len. destruct (list_find _ whitespace) as [[i w]|] eqn:E; [|done].
  apply list_find_Some in E as (Hi & [t Ht] & _). apply strip_prefix_Some in Ht.
  unfold not_ws in Hb. rewrite forallb_Forall, Forall_lookup in Hb. specialize (Hb i w Hi).
  destruct w as [|c w]; [done|]. cbn in Ht. simplify_eq. by rewrite bool_decide_eq_true_2 in Hb.
Qed.

Lemma split_ws_token tok : ∀ cur r,
  Forall (λ b, not_ws b = true) tok →
  split_ws 0 cur (tok ++ Byte.x20 :: r) = flush (cur ++ tok) ++ split_ws 0 [] r.
Proof.
  induction tok as [|b tok IH]; intros cur r Ht; cbn [app].
  - rewrite app_nil_r. reflexivity.
  - apply Forall_cons in Ht as [Hb Ht]. cbn [split_ws]. rewrite ws_len_none by done.
    rewrite IH by done. by rewrite <-app_assoc.
Qed.

Lemma digit_not_ws b : is_digit b → not_ws b = true.
Proof. destruct b; unfold is_digit; intros Hb; try (cbn in Hb; lia); reflexivity. Qed.
