(* ===== verification/Disk.v ===== *)
(** * The store's directories

    What [engine.rs] uses of [std::fs]: a directory maps file names to
    contents; [create_new] fails on an existing file, [open] on a missing one,
    writes append to an open file, [rename] replaces. File names carry
    information the store parses back ([p-<id>.pack], [<hex>.mfx]), so they are
    modelled as the byte strings the code formats and parses. Other I/O errors
    are not modelled: the file system is assumed to perform what it is asked. *)

From S2P Require Import Prelude Cas Text.

Abbreviation dir := (gmap bytes bytes).

(** ** Decimal file names *)

(** [format!("{id:08}")] of a [u32]: at least eight digits. *)
Definition format08 (n : Z) : bytes :=
  if n <? 10 ^ 8 then dec_fixed 8 n
  else if n <? 10 ^ 9 then dec_fixed 9 n else dec_fixed 10 n.

(** [str::parse::<u32>()] *)
Definition parse_u32 (s : bytes) : option Z := parse_uint (2 ^ 32) s.

Lemma parse_format08 n : 0 ≤ n < 2 ^ 32 → parse_u32 (format08 n) = Some n.
Proof.
  intros Hn. unfold format08, parse_u32.
  destruct (Z.ltb_spec n (10 ^ 8)); [by apply parse_uint_dec_fixed; [lia|done|lia]|].
  destruct (Z.ltb_spec n (10 ^ 9)); apply parse_uint_dec_fixed; done || lia.
Qed.
