(* ===== verification/Store.v ===== *)
(** * The cold content-addressed store ([avm-cas/src/engine.rs])

    [ChunkStore]: append-only packs, the in-memory index with its file, the
    manifest directory, and every operation on them, in a state-and-error
    monad that keeps the state an operation leaves behind when it fails. *)

From S2P Require Import Prelude Cas Chunker Compression Cursor Manifest Text Disk.
Import Hex Manifest.

Module Store.

Definition INDEX_MAGIC : bytes := str "AVMI".
Definition INDEX_FORMAT : Z := 1.

Record ChunkEntry := {
  ce_pack_id : Z;
  ce_offset : Z;
  ce_comp_len : Z;
  ce_raw_len : Z;
  ce_codec : byte
}.

#[export] Instance ChunkEntry_eq_dec : EqDecision ChunkEntry.
Proof. solve_decision. Defined.

Record StoreStats := {
  ss_chunks : Z; ss_packs : Z; ss_manifests : Z; ss_pack_bytes : Z
}.

Record GcReport := {
  gr_live_chunks : Z; gr_dead_chunks : Z; gr_packs_before : Z; gr_packs_after : Z;
  gr_bytes_reclaimed : Z
}.

(** The three directories under the root. *)
Record Disk := { d_packs : dir; d_index : dir; d_manifests : dir }.

(** An open store: the disk and the two mutex-protected fields. The chunker
    configuration is always the default one. *)
Record ChunkStore := {
  cs_disk : Disk;
  cs_state : gmap bytes ChunkEntry;
  cs_next_pack_id : Z
}.

Definition set_packs (p : dir) (s : ChunkStore) : ChunkStore := {|
  cs_disk := {| d_packs := p; d_index := d_index (cs_disk s);
                d_manifests := d_manifests (cs_disk s) |};
  cs_state := cs_state s; cs_next_pack_id := cs_next_pack_id s |}.
Definition set_index (p : dir) (s : ChunkStore) : ChunkStore := {|
  cs_disk := {| d_packs := d_packs (cs_disk s); d_index := p;
                d_manifests := d_manifests (cs_disk s) |};
  cs_state := cs_state s; cs_next_pack_id := cs_next_pack_id s |}.
Definition set_manifests (p : dir) (s : ChunkStore) : ChunkStore := {|
  cs_disk := {| d_packs := d_packs (cs_disk s); d_index := d_index (cs_disk s);
                d_manifests := p |};
  cs_state := cs_state s; cs_next_pack_id := cs_next_pack_id s |}.
Definition set_state (m : gmap bytes ChunkEntry) (s : ChunkStore) : ChunkStore := {|
  cs_disk := cs_disk s; cs_state := m; cs_next_pack_id := cs_next_pack_id s |}.
Definition set_next (n : Z) (s : ChunkStore) : ChunkStore := {|
  cs_disk := cs_disk s; cs_state := cs_state s; cs_next_pack_id := n |}.

(** ** The monad: state survives an error *)
Definition st (A : Type) : Type := ChunkStore → ChunkStore * res CasError A.

#[export] Instance st_ret : MRet st := λ A a s, (s, Ok a).
#[export] Instance st_bind : MBind st := λ A B k m s,
  match m s with
  | (s', Ok a) => k a s'
  | (s', Err e) => (s', Err e)
  | (s', Panic) => (s', Panic)
  end.

Definition st_lift {A} (r : res CasError A) : st A := λ s, (s, r).
Definition st_get {A} (f : ChunkStore → A) : st A := λ s, (s, Ok (f s)).
Definition st_try {A} (f : ChunkStore → res CasError A) : st A := λ s, (s, f s).
Definition st_put (f : ChunkStore → ChunkStore) : st () := λ s, (f s, Ok ()).

Fixpoint st_foldl {A B} (f : B → A → st B) (b : B) (l : list A) : st B :=
  match l with
  | [] => mret b
  | a :: l => b' ← f b a; st_foldl f b' l
  end.

(** ** Entries in the order of their keys *)
Definition key_le {A} (x y : bytes * A) : Prop := digest_le x.1 y.1.

#[export] Instance key_le_dec {A} (x y : bytes * A) : Decision (key_le x y).
Proof. unfold key_le. apply _. Defined.

(** ** Paths *)
Definition index_name : bytes := str "chunks.idx".
Definition tmp_pack_name : bytes := str ".tmp-compaction.pack".
Definition pack_path (id : Z) : bytes := str "p-" ++ format08 id ++ str ".pack".
Definition manifest_path (id : bytes) : bytes := hex id ++ str ".mfx".

(** [name.starts_with("p-") && name.ends_with(".pack")] *)
Definition is_pack (name : bytes) : bool :=
  bool_decide (is_Some (strip_prefix (str "p-") name)) &&
  bool_decide (is_Some (strip_suffix (str ".pack") name)).

(** [path.with_extension("tmp-write")] of the two paths it is used on. *)
Definition tmp_write_name (path : bytes) : bytes :=
  match strip_suffix (str ".idx") path with
  | Some stem => stem ++ str ".tmp-write"
  | None => match strip_suffix (str ".mfx") path with
            | Some stem => stem ++ str ".tmp-write"
            | None => path ++ str ".tmp-write"
            end
  end.

(** Temp file, write, sync, rename over the target. *)
Definition atomic_write (path content : bytes) (d : dir) : dir :=
  let tmp := tmp_write_name path in
  let d := <[tmp := content]> d in
  delete tmp (<[path := content]> d).

(** ** Opening *)
Fixpoint scan_pack_ids (names : list bytes) (next : Z) : res CasError Z :=
  match names with
  | [] => Ok next
  | name :: names =>
      match (rest ← strip_prefix (str "p-") name; strip_suffix (str ".pack") rest) with
      | Some rest =>
          match parse_u32 rest with
          | Some id => if id + 1 =? 2 ^ 32 then Panic else scan_pack_ids names (Z.max next (id + 1))
          | None => scan_pack_ids names next
          end
      | None => scan_pack_ids names next
      end
  end.

Definition scan_next_pack_id (packs : dir) : res CasError Z :=
  scan_pack_ids (map_to_list packs).*1 0.

Definition read_entry : rd CasError (bytes * ChunkEntry) :=
  hash ← array32;
  pack_id ← u32;
  offset ← u64;
  comp_len ← u32;
  raw_len ← u32;
  codec ← u8;
  mret (hash, {| ce_pack_id := pack_id; ce_offset := offset; ce_comp_len := comp_len;
                 ce_raw_len := raw_len; ce_codec := codec |}).

Definition insert_all {A} (m : gmap bytes A) (l : list (bytes * A)) : gmap bytes A :=
  foldl (λ m kv, <[kv.1 := kv.2]> m) m l.

Definition load_body : rd CasError (gmap bytes ChunkEntry) :=
  magic ← br_take 4;
  if negb (bool_decide (magic = INDEX_MAGIC)) then rd_err (corrupt "index magic mismatch")
  else
  format ← u16;
  if negb (format =? INDEX_FORMAT) then rd_err (corrupt "index format {} unsupported")
  else
  n ← u32;
  es ← rd_rep (Z.to_nat n) read_entry;
  mret (insert_all ∅ es).

Definition load_index (buf : bytes) : res CasError (gmap bytes ChunkEntry) :=
  '(m, _) ← load_body {| cur_b := buf; cur_i := 0 |}; Ok m.

Definition open (d : Disk) : res CasError ChunkStore :=
  state ← match d_index d !! index_name with
          | Some buf => load_index buf
          | None => Ok ∅
          end;
  next ← scan_next_pack_id (d_packs d);
  Ok {| cs_disk := d; cs_state := state; cs_next_pack_id := next |}.

(** ** The index file *)
Definition encode_entry (kv : bytes * ChunkEntry) : bytes :=
  let '(hash, e) := kv in
  hash ++ le_bytes 4 (ce_pack_id e) ++ le_bytes 8 (ce_offset e) ++
  le_bytes 4 (ce_comp_len e) ++ le_bytes 4 (ce_raw_len e) ++ [ce_codec e].

(** The map's entries in [BTreeMap] order. *)
Definition sorted_entries {A} (m : gmap bytes A) : list (bytes * A) :=
  merge_sort key_le (map_to_list m).

Definition encode_index (m : gmap bytes ChunkEntry) : bytes :=
  let entries := sorted_entries m in
  INDEX_MAGIC ++ le_bytes 2 INDEX_FORMAT ++ le_bytes 4 (Zlen entries) ++
  concat (encode_entry <$> entries).

Definition persist_index_locked (m : gmap bytes ChunkEntry) : st () :=
  st_put (λ s, set_index (atomic_write index_name (encode_index m) (d_index (cs_disk s))) s).

Section operations.
Context `{Blake3} `{Lz4}.

Definition has_chunk (s : ChunkStore) (hash : bytes) : bool :=
  bool_decide (is_Some (cs_state s !! hash)).

Definition chunk_raw_lens (s : ChunkStore) (chunks : list bytes) : res CasError (list Z) :=
  mapM_res (λ c, e ← ok_or (cs_state s !! c) (NotFound (hex c)); Ok (ce_raw_len e)) chunks.

(** [read_exact] of [n] bytes at [pos]. *)
Definition read_exact (f : bytes) (pos n : Z) : res CasError bytes :=
  if pos + n <=? Zlen f then Ok f.[pos : pos + n]
  else Err (Io (str "failed to fill whole buffer")).

Definition get_chunk (s : ChunkStore) (hash : bytes) : res CasError bytes :=
  entry ← ok_or (cs_state s !! hash) (NotFound (hex hash));
  f ← ok_or (d_packs (cs_disk s) !! pack_path (ce_pack_id entry)) (Io (str "No such file"));
  framed ← read_exact f (ce_offset entry) 4;
  if negb (le_val framed =? ce_comp_len entry) then
    Err (corrupt "pack framing disagrees with index")
  else
  codec ← read_exact f (ce_offset entry + 4) 1;
  if negb (bool_decide (codec = [ce_codec entry])) then
    Err (corrupt "pack codec disagrees with index")
  else
  comp ← read_exact f (ce_offset entry + 5) (ce_comp_len entry);
  raw ← Compression.decompress (ce_codec entry) comp;
  if negb (Zlen raw =? ce_raw_len entry) then
    Err (corrupt "decompressed size disagrees with index")
  else if negb (bool_decide (blake3 raw = hash)) then
    Err (corrupt "chunk plaintext does not match its digest")
  else Ok raw.

(** *** Appending to a fresh pack *)

(** [OpenOptions::new().create_new(true).write(true).open(path)] *)
Definition create_new (path : bytes) : st () := λ s,
  match d_packs (cs_disk s) !! path with
  | Some _ => (s, Err (Io (str "File exists")))
  | None => (set_packs (<[path := []]> (d_packs (cs_disk s))) s, Ok ())
  end.

(** [pack.write_all(b)] *)
Definition write_all (path b : bytes) : st () :=
  st_put (λ s, set_packs (alter (λ c, c ++ b) path (d_packs (cs_disk s))) s).

(** Write one framed chunk and record its entry: the loop body the three
    writers share. *)
Definition write_chunk (path : bytes) (pack_id : Z)
    (acc : Z * list (bytes * ChunkEntry)) (item : bytes * Z * bytes)
    : st (Z * list (bytes * ChunkEntry)) :=
  let '(offset, entries) := acc in
  let '(digest, raw_len, raw) := item in
  let '(codec, comp) := Compression.compress raw in
  _ ← write_all path (le_bytes 4 (Zlen comp));
  _ ← write_all path [codec];
  _ ← write_all path comp;
  mret (offset + 4 + 1 + Zlen comp,
        entries ++ [(digest, {| ce_pack_id := pack_id; ce_offset := offset;
                                ce_comp_len := Zlen comp mod 2 ^ 32;
                                ce_raw_len := raw_len mod 2 ^ 32;
                                ce_codec := codec |})]).

(** [*guard += 1] on the [u32] counter, returning the old value. *)
Definition alloc_pack_id : st Z := λ s,
  let id := cs_next_pack_id s in
  if id + 1 =? 2 ^ 32 then (s, Panic) else (set_next (id + 1) s, Ok id).

(** Insert the new entries and persist the index, under the state lock. *)
Definition commit_entries (new : list (bytes * ChunkEntry)) : st () :=
  map ← st_get cs_state;
  let map := insert_all map new in
  _ ← st_put (set_state map);
  persist_index_locked map.

(** *** [put_buffer] *)

(** The dedup pass, in first-appearance order. *)
Fixpoint pending_new (map : gmap bytes ChunkEntry) (seen : gset bytes)
    (chunks : list Cdc.Chunk) : list (bytes * Z) :=
  match chunks with
  | [] => []
  | c :: chunks =>
      if bool_decide (is_Some (map !! Cdc.ck_hash c)) || bool_decide (Cdc.ck_hash c ∈ seen)
      then pending_new map seen chunks
      else (Cdc.ck_hash c, Cdc.ck_len c) :: pending_new map ({[Cdc.ck_hash c]} ∪ seen) chunks
  end.

(** [ranges.entry(c.hash).or_insert((c.offset, c.len))] over the chunks. *)
Definition first_ranges (chunks : list Cdc.Chunk) : gmap bytes (Z * Z) :=
  foldl (λ m c, match m !! Cdc.ck_hash c with
                | Some _ => m
                | None => <[Cdc.ck_hash c := (Cdc.ck_offset c, Cdc.ck_len c)]> m
                end) ∅ chunks.

Definition put_manifest (m : Manifest) : st bytes := λ s,
  match list_find (λ c, cs_state s !! c = None) (m_chunks m) with
  | Some (_, c) => (s, Err (NotFound (str "chunk {} of manifest")))
  | None =>
      let id := identity_digest m in
      (set_manifests (atomic_write (manifest_path id) (encode_signed m)
                        (d_manifests (cs_disk s))) s, Ok id)
  end.

Definition put_new_chunks (data : bytes) (chunks : list Cdc.Chunk)
    (pending : list (bytes * Z)) : st () :=
  pack_id ← alloc_pack_id;
  let path := pack_path pack_id in
  _ ← create_new path;
  let ranges := first_ranges chunks in
  '(_, new) ← st_foldl (λ acc '(digest, raw_len),
    '(start, _) ← st_lift (match ranges !! digest with Some r => Ok r | None => Panic end);
    raw ← st_lift (slice_p data start (start + raw_len));
    write_chunk path pack_id acc (digest, raw_len, raw)) (0, []) pending;
  commit_entries new.

Definition put_buffer (name version data : bytes) (drv_hash : option bytes) : st Manifest :=
  chunks ← st_lift (Cdc.chunk_payload data Cdc.default_config);
  pending ← st_get (λ s, pending_new (cs_state s) ∅ chunks);
  _ ← match pending with [] => mret () | _ => put_new_chunks data chunks pending end;
  let manifest := {| m_name := name; m_version := version; m_total_size := Zlen data;
                     m_chunks := Cdc.ck_hash <$> chunks; m_drv_hash := drv_hash;
                     m_pubkey := None; m_signature := None |} in
  _ ← put_manifest manifest;
  mret manifest.

(** *** [put_chunk_batch] *)
Fixpoint pending_batch (map : gmap bytes ChunkEntry) (seen : gset bytes) (raws : list bytes)
    : list bytes :=
  match raws with
  | [] => []
  | raw :: raws =>
      let d := blake3 raw in
      if bool_decide (is_Some (map !! d)) || bool_decide (d ∈ seen)
      then pending_batch map seen raws
      else raw :: pending_batch map ({[d]} ∪ seen) raws
  end.

Definition put_new_batch (pending : list bytes) : st () :=
  pack_id ← alloc_pack_id;
  let path := pack_path pack_id in
  _ ← create_new path;
  '(_, new) ← st_foldl (λ acc raw,
    write_chunk path pack_id acc (blake3 raw, Zlen raw, raw)) (0, []) pending;
  commit_entries new.

Definition put_chunk_batch (raws : list bytes) : st (list bytes) :=
  let digests := blake3 <$> raws in
  pending ← st_get (λ s, pending_batch (cs_state s) ∅ raws);
  _ ← match pending with [] => mret () | _ => put_new_batch pending end;
  mret digests.

(** [v.remove(0)] panics on an empty vector. *)
Definition put_chunk_data (raw : bytes) : st bytes :=
  v ← put_chunk_batch [raw];
  st_lift (match v with d :: _ => Ok d | [] => Panic end).

(** *** Manifests *)
Definition get_manifest (s : ChunkStore) (id : bytes) : res CasError Manifest :=
  buf ← ok_or (d_manifests (cs_disk s) !! manifest_path id) (NotFound (hex id));
  m ← decode buf;
  if negb (bool_decide (identity_digest m = id)) then
    Err (corrupt "manifest file does not hash to its name")
  else Ok m.

(** [read_dir] lists the names in an unspecified order; the digests are
    sorted. *)
Definition list_manifests (s : ChunkStore) : res CasError (list bytes) :=
  out ← foldM (λ out name,
          match strip_suffix (str ".mfx") name with
          | Some stem => d ← unhex stem; Ok (out ++ [d])
          | None => Ok out
          end) [] (map_to_list (d_manifests (cs_disk s))).*1;
  Ok (merge_sort digest_le out).

Definition drop_manifest (id : bytes) : st () := λ s,
  match d_manifests (cs_disk s) !! manifest_path id with
  | Some _ => (set_manifests (delete (manifest_path id) (d_manifests (cs_disk s))) s, Ok ())
  | None => (s, Err (NotFound (hex id)))
  end.

(** [Vec::with_capacity(total_size as usize)] panics on a capacity above
    [isize::MAX]. *)
Definition read_assembled (s : ChunkStore) (m : Manifest) : res CasError bytes :=
  if 2 ^ 63 <=? m_total_size m then Panic else
  out ← foldM (λ out c, raw ← get_chunk s c; Ok (out ++ raw)) [] (m_chunks m);
  if negb (Zlen out =? m_total_size m) then Err (corrupt "assembled size disagrees with manifest")
  else Ok out.

(** *** Garbage collection *)
Definition pack_paths (s : ChunkStore) : list bytes :=
  merge_sort digest_le (filter (λ n, is_pack n = true) (map_to_list (d_packs (cs_disk s))).*1).

Definition pack_bytes (s : ChunkStore) : Z :=
  foldr Z.add 0 (omap (λ p, (λ c, Zlen c) <$> d_packs (cs_disk s) !! p) (pack_paths s)).

Definition live_set (s : ChunkStore) : res CasError (gset bytes) :=
  ids ← list_manifests s;
  foldM (λ live id, m ← get_manifest s id; Ok (live ∪ list_to_set (m_chunks m))) ∅ ids.

(** [fs::rename(src, dst)?] *)
Definition rename_pack (src dst : bytes) : st () := λ s,
  match d_packs (cs_disk s) !! src with
  | Some c => (set_packs (<[dst := c]> (delete src (d_packs (cs_disk s)))) s, Ok ())
  | None => (s, Err (Io (str "No such file")))
  end.

(** The swap: index first, then the counter, then the old packs, then the
    rename of the compaction pack. *)
Definition gc_swap (new_map : gmap bytes ChunkEntry) : st () :=
  _ ← st_put (set_state new_map);
  _ ← persist_index_locked new_map;
  _ ← st_put (set_next 1);
  old ← st_get pack_paths;
  _ ← st_put (λ s, set_packs (foldr (λ p d, if decide (p = pack_path 0) then d else delete p d)
                                (d_packs (cs_disk s)) old) s);
  rename_pack tmp_pack_name (pack_path 0).

Definition gc : st GcReport :=
  live ← st_try live_set;
  packs_before ← st_get (λ s, Zlen (pack_paths s));
  bytes_before ← st_get pack_bytes;
  map ← st_get cs_state;
  let keep := filter (λ kv, kv.1 ∈ live) (map_to_list map) in
  let dead := Zlen (map_to_list map) - Zlen keep in
  if dead =? 0 then
    mret {| gr_live_chunks := Z.of_nat (size live); gr_dead_chunks := 0;
            gr_packs_before := packs_before; gr_packs_after := packs_before;
            gr_bytes_reclaimed := 0 |}
  else
  let keep := merge_sort key_le keep in
  _ ← create_new tmp_pack_name;
  '(_, new) ← st_foldl (λ acc '(digest, entry),
    raw ← st_try (λ s, get_chunk s digest);
    write_chunk tmp_pack_name 0 acc (digest, ce_raw_len entry, raw)) (0, []) keep;
  _ ← gc_swap (insert_all ∅ new);
  bytes_after ← st_get pack_bytes;
  mret {| gr_live_chunks := Z.of_nat (size live); gr_dead_chunks := dead;
          gr_packs_before := packs_before; gr_packs_after := 1;
          gr_bytes_reclaimed := Z.max 0 (bytes_before - bytes_after) |}.

Definition stats (s : ChunkStore) : StoreStats := {|
  ss_chunks := Z.of_nat (size (cs_state s));
  ss_packs := Zlen (pack_paths s);
  ss_manifests := Z.of_nat (size (d_manifests (cs_disk s)));
  ss_pack_bytes := pack_bytes s |}.
End operations.

End Store.
