(* ===== verification/StoreSpec.v ===== *)
(** * The store refines a map from digests to payloads

    The abstract store is two finite maps: chunk payloads by digest, manifests
    by identity. [Inv s A] relates an open [ChunkStore] to it: every index entry
    points at a well-framed chunk of some pack, the index file encodes the
    in-memory index, pack names are dense below the counter, and the manifest
    directory holds canonical bytes under identity names. Every operation is
    shown to keep [Inv] and to compute its abstract counterpart. *)

From S2P Require Import Prelude Cas Chunker Compression Cursor Manifest Text Disk Store.
Import Hex Manifest Store.

Module StoreSpec.

(** ** Paths are injective *)
Lemma pack_path_inj a b :
  0 ≤ a < 2 ^ 32 → 0 ≤ b < 2 ^ 32 → pack_path a = pack_path b → a = b.
Proof.
  intros Ha Hb Heq. unfold pack_path in Heq.
  apply app_inv_head in Heq. apply app_inv_tail in Heq.
  pose proof (parse_format08 a Ha) as Pa. rewrite Heq, parse_format08 in Pa by done. congruence.
Qed.

Lemma manifest_path_inj a b : manifest_path a = manifest_path b → a = b.
Proof. unfold manifest_path. intros Heq%app_inv_tail. by apply (inj hex). Qed.

Lemma tmp_pack_not_pack id : tmp_pack_name ≠ pack_path id.
Proof. discriminate. Qed.

Lemma manifest_tmp_ne a b : tmp_write_name (manifest_path a) ≠ manifest_path b.
Proof.
  assert (strip_suffix (str ".idx") (manifest_path a) = None) as Hn.
  { destruct (strip_suffix _ _) as [t|] eqn:E; [|done]. apply strip_suffix_Some in E.
    unfold manifest_path in E. by apply app_inj_2 in E as [_ ?]. }
  unfold tmp_write_name. rewrite Hn. unfold manifest_path at 1. rewrite strip_suffix_app.
  intros E. apply (f_equal (λ l, last l)) in E. unfold manifest_path in E.
  rewrite !last_app in E. done.
Qed.

Lemma atomic_write_lookup path content d :
  tmp_write_name path ≠ path → atomic_write path content d !! path = Some content.
Proof.
  intros Hne. unfold atomic_write. rewrite lookup_delete_ne by done. by rewrite lookup_insert_eq.
Qed.

Lemma atomic_write_lookup_ne path content d name :
  name ≠ path → name ≠ tmp_write_name path →
  atomic_write path content d !! name = d !! name.
Proof.
  intros Hp Ht. unfold atomic_write. by rewrite lookup_delete_ne, !lookup_insert_ne by done.
Qed.

(** ** Sorting and bulk insertion *)
Lemma sorted_entries_perm {A} (m : gmap bytes A) : sorted_entries m ≡ₚ map_to_list m.
Proof. apply merge_sort_Permutation. Qed.

Lemma length_sorted_entries {A} (m : gmap bytes A) : length (sorted_entries m) = size m.
Proof. rewrite sorted_entries_perm. apply length_map_to_list. Qed.

Lemma insert_all_cons {A} (m : gmap bytes A) kv l :
  insert_all m (kv :: l) = insert_all (<[kv.1 := kv.2]> m) l.
Proof. reflexivity. Qed.

Lemma insert_all_lookup_None {A} (m : gmap bytes A) l k :
  k ∉ l.*1 → insert_all m l !! k = m !! k.
Proof.
  revert m; induction l as [|[k' v] l IH]; intros m Hk; [done|].
  cbn in Hk. apply not_elem_of_cons in Hk as [Hne Hk].
  rewrite insert_all_cons, IH by done. by rewrite lookup_insert_ne.
Qed.

Lemma insert_all_lookup {A} (m : gmap bytes A) l k v :
  NoDup l.*1 → (k, v) ∈ l → insert_all m l !! k = Some v.
Proof.
  revert m; induction l as [|[k' v'] l IH]; intros m Hnd Hin; [by apply not_elem_of_nil in Hin|].
  cbn in Hnd. apply NoDup_cons in Hnd as [Hk Hnd].
  rewrite insert_all_cons. apply elem_of_cons in Hin as [Heq|Hin].
  - simplify_eq. rewrite insert_all_lookup_None by done. cbn. by rewrite lookup_insert_eq.
  - by apply IH.
Qed.

Lemma insert_all_inv {A} (m : gmap bytes A) l k v :
  insert_all m l !! k = Some v → (k, v) ∈ l ∨ m !! k = Some v.
Proof.
  revert m; induction l as [|[k' v'] l IH]; intros m Hl; [by right|].
  rewrite insert_all_cons in Hl. apply IH in Hl as [Hin|Hm]; [left; set_solver|].
  destruct (decide (k' = k)) as [->|Hne].
  - cbn in Hm. rewrite lookup_insert_eq in Hm. simplify_eq. left. set_solver.
  - cbn in Hm. rewrite lookup_insert_ne in Hm by done. by right.
Qed.

Lemma insert_all_perm {A} (m : gmap bytes A) l :
  l ≡ₚ map_to_list m → insert_all ∅ l = m.
Proof.
  intros Hp. assert (NoDup l.*1) as Hnd by (rewrite Hp; apply NoDup_fst_map_to_list).
  apply map_eq. intros k. destruct (m !! k) as [v|] eqn:Hk.
  - apply insert_all_lookup; [done|]. rewrite Hp. by apply elem_of_map_to_list.
  - rewrite insert_all_lookup_None; [done|]. rewrite Hp. intros Hin.
    apply list_elem_of_fmap in Hin as ([k' v] & -> & Hin). apply elem_of_map_to_list in Hin.
    cbn in Hk. congruence.
Qed.

Lemma insert_all_dom {A} (m : gmap bytes A) l k :
  is_Some (insert_all m l !! k) ↔ is_Some (m !! k) ∨ k ∈ l.*1.
Proof.
  revert m; induction l as [|[k' v] l IH]; intros m; [set_solver|].
  rewrite insert_all_cons, IH. cbn. rewrite elem_of_cons.
  destruct (decide (k' = k)) as [->|Hne].
  - rewrite lookup_insert_eq. split; [by right; left|]. intros _. left. by eexists.
  - rewrite lookup_insert_ne by done. naive_solver.
Qed.

(** ** The index file round trip *)
Record entry_fits (kv : bytes * ChunkEntry) : Prop := {
  ef_digest : length kv.1 = 32%nat;
  ef_pack : 0 ≤ ce_pack_id kv.2 < 2 ^ 32;
  ef_offset : 0 ≤ ce_offset kv.2 < 2 ^ 64;
  ef_comp : 0 ≤ ce_comp_len kv.2 < 2 ^ 32;
  ef_raw : 0 ≤ ce_raw_len kv.2 < 2 ^ 32
}.

Lemma reads_entry kv : entry_fits kv → reads read_entry (encode_entry kv) kv.
Proof.
  destruct kv as [h e]. intros [Hh Hp Ho Hc Hr]. cbn [fst snd] in *. unfold read_entry, encode_entry.
  reads_step reads_array; [done|]. reads_step reads_le; [done|]. reads_step reads_le; [done|].
  reads_step reads_le; [done|]. reads_step reads_le; [done|].
  eapply reads_bind_r; [apply reads_u8|]. destruct e. apply reads_ret.
Qed.

Lemma length_encode_entry kv : length kv.1 = 32%nat → length (encode_entry kv) = 53%nat.
Proof. destruct kv. intros Hl. cbn in Hl. unfold encode_entry. rewrite !length_app, !length_le_bytes. cbn. lia. Qed.

Lemma length_concat_const {A} (f : A → bytes) n l :
  (∀ a, a ∈ l → length (f a) = n) → length (concat (f <$> l)) = (n * length l)%nat.
Proof.
  induction l as [|a l IH]; intros Hl; [cbn; lia|]. rewrite fmap_cons. cbn [concat].
  rewrite length_app, IH, Hl by set_solver. cbn [length]. lia.
Qed.

Lemma load_encode_index (m : gmap bytes ChunkEntry) :
  map_Forall (λ k e, entry_fits (k, e)) m → Z.of_nat (size m) < 2 ^ 32 →
  load_index (encode_index m) = Ok m.
Proof.
  intros Hf Hsz. unfold load_index.
  assert (∀ kv, kv ∈ sorted_entries m → entry_fits kv) as Hall.
  { intros [k e] Hin. rewrite sorted_entries_perm in Hin. apply elem_of_map_to_list in Hin.
    by apply (Hf k e). }
  assert (reads load_body (encode_index m) m) as Hr.
  { unfold load_body, encode_index.
    reads_step (br_reads INDEX_MAGIC). rewrite bool_decide_eq_true_2 by done. cbn [negb].
    reads_step reads_le; [done|]. cbn [negb].
    reads_step reads_le; [rewrite length_sorted_entries; cbn; lia|].
    rewrite Nat2Z.id. eapply reads_bind_r.
    - apply reads_rep. intros kv Hkv. by apply reads_entry, Hall.
    - rewrite (insert_all_perm m) by apply sorted_entries_perm. apply reads_ret. }
  rewrite (reads_all _ _ _ Hr); [done|].
  unfold buffer, encode_index. rewrite !length_app, !length_le_bytes.
  rewrite (length_concat_const _ 53) by (intros kv Hkv; apply length_encode_entry, Hall, Hkv).
  rewrite length_sorted_entries. change (length INDEX_MAGIC) with 4%nat. lia.
Qed.

(** Reopening finds the index that was persisted: loading the bytes that
    [persist_index_locked] writes gives back exactly the in-memory map,
    whatever the order its entries were inserted in. *)
Theorem index_roundtrip (m : gmap bytes ChunkEntry) :
  map_Forall (λ k e, entry_fits (k, e)) m → Z.of_nat (size m) < 2 ^ 32 →
  load_index (encode_index m) = Ok m.
Proof. apply load_encode_index. Qed.

(** ** The abstraction *)
Record Abs := { a_chunks : gmap bytes bytes; a_manifests : gmap bytes Manifest }.

(** One framed chunk: [[u32 comp_len][u8 codec][payload]]. *)
Definition frame (codec : byte) (comp : bytes) : bytes :=
  le_bytes 4 (Zlen comp) ++ [codec] ++ comp.

Section spec.
Context `{Blake3} `{Lz4}.

(** [e] locates a frame of [packs] that decompresses to [raw]. *)
Definition entry_ok (packs : dir) (e : ChunkEntry) (raw : bytes) : Prop :=
  ∃ comp pre post,
    packs !! pack_path (ce_pack_id e) = Some (pre ++ frame (ce_codec e) comp ++ post) ∧
    Zlen pre = ce_offset e ∧ Zlen comp = ce_comp_len e ∧
    Compression.decompress (ce_codec e) comp = Ok raw ∧ Zlen raw = ce_raw_len e.

Record Inv (s : ChunkStore) (A : Abs) : Prop := {
  inv_entry : ∀ d e, cs_state s !! d = Some e →
    ∃ raw, a_chunks A !! d = Some raw ∧ blake3 raw = d ∧
           entry_ok (d_packs (cs_disk s)) e raw ∧ entry_fits (d, e);
  inv_dom : ∀ d, is_Some (a_chunks A !! d) → is_Some (cs_state s !! d);
  inv_index : (d_index (cs_disk s) !! index_name = Some (encode_index (cs_state s))) ∨
              (d_index (cs_disk s) !! index_name = None ∧ cs_state s = ∅);
  inv_count : Z.of_nat (size (cs_state s)) < 2 ^ 32;
  inv_next : 0 ≤ cs_next_pack_id s < 2 ^ 32;
  inv_packs : ∀ name, is_Some (d_packs (cs_disk s) !! name) →
    ∃ id, 0 ≤ id < cs_next_pack_id s ∧ name = pack_path id;
  inv_files : ∀ name c, d_manifests (cs_disk s) !! name = Some c →
    ∃ id m, a_manifests A !! id = Some m ∧ name = manifest_path id ∧ c = encode_signed m;
  inv_manifest : ∀ id m, a_manifests A !! id = Some m →
    d_manifests (cs_disk s) !! manifest_path id = Some (encode_signed m) ∧
    manifest_wf m ∧ identity_digest m = id ∧
    (∀ c, c ∈ m_chunks m → is_Some (a_chunks A !! c))
}.

Definition abs_empty : Abs := {| a_chunks := ∅; a_manifests := ∅ |}.

(** A freshly created store. *)
Definition disk0 : Disk := {| d_packs := ∅; d_index := ∅; d_manifests := ∅ |}.
Definition store0 : ChunkStore := {| cs_disk := disk0; cs_state := ∅; cs_next_pack_id := 0 |}.

Lemma inv_empty : open disk0 = Ok store0 ∧ Inv store0 abs_empty.
Proof.
  split; [reflexivity|].
  split; cbn [store0 disk0 abs_empty cs_disk cs_state cs_next_pack_id d_packs d_index d_manifests
              a_chunks a_manifests]; [intros d e|intros d|by right|done|lia|intros name|intros name c|intros id m];
    rewrite lookup_empty; try done; by intros ?%is_Some_None.
Qed.

(** *** Reading one chunk *)
Lemma read_exact_middle (pre m post : bytes) pos n :
  pos = Zlen pre → n = Zlen m → read_exact (pre ++ m ++ post) pos n = Ok m.
Proof.
  intros -> ->. unfold read_exact. rewrite !length_app.
  destruct (Z.leb_spec (Zlen pre + Zlen m) (Z.of_nat (length pre + (length m + length post)))); [|lia].
  by rewrite slice_middle.
Qed.

Lemma get_chunk_ok s d e raw :
  cs_state s !! d = Some e → entry_ok (d_packs (cs_disk s)) e raw →
  entry_fits (d, e) → blake3 raw = d → get_chunk s d = Ok raw.
Proof.
  intros He (comp & pre & post & Hp & Hpre & Hcomp & Hdec & Hraw) Hfit Hh.
  unfold get_chunk. rewrite He. cbn [ok_or mbind res_bind]. rewrite Hp. cbn [ok_or mbind res_bind].
  unfold frame. rewrite <-!app_assoc.
  rewrite (read_exact_middle pre (le_bytes 4 (Zlen comp)) _ (ce_offset e) 4) by (rewrite ?length_le_bytes; done || lia).
  cbn [mbind res_bind]. destruct Hfit as [_ _ _ Hc _]. cbn in Hc.
  rewrite le_val_le_bytes_small by (cbn; lia). rewrite Hcomp, Z.eqb_refl. cbn [negb].
  rewrite (app_assoc pre).
  rewrite (read_exact_middle _ [ce_codec e] _ (ce_offset e + 4) 1) by (rewrite ?length_app, ?length_le_bytes; cbn; lia).
  cbn [mbind res_bind]. rewrite bool_decide_eq_true_2 by done. cbn [negb].
  rewrite (app_assoc (pre ++ _)).
  rewrite (read_exact_middle _ comp _ (ce_offset e + 5)) by (rewrite ?length_app, ?length_le_bytes; cbn; lia).
  cbn [mbind res_bind]. rewrite Hdec. cbn [mbind res_bind]. rewrite Hraw, Z.eqb_refl. cbn [negb].
  by rewrite bool_decide_eq_true_2.
Qed.

Lemma inv_get_chunk s A d raw :
  Inv s A → a_chunks A !! d = Some raw → get_chunk s d = Ok raw.
Proof.
  intros HI Hd. destruct (inv_dom _ _ HI d) as [e He]; [by eexists|].
  destruct (inv_entry _ _ HI d e He) as (raw' & Hr & Hh & Hok & Hfit).
  simplify_eq. by eapply get_chunk_ok.
Qed.

Lemma inv_get_chunk_none s A d :
  Inv s A → a_chunks A !! d = None → get_chunk s d = Err (NotFound (hex d)).
Proof.
  intros HI Hd. unfold get_chunk. destruct (cs_state s !! d) as [e|] eqn:He; [|done].
  destruct (inv_entry _ _ HI d e He) as (raw & Hr & _). congruence.
Qed.

(** *** Writing chunks to a pack *)
Definition item_frame (it : bytes * Z * bytes) : bytes :=
  frame (Compression.compress it.2).1 (Compression.compress it.2).2.

Fixpoint item_entries (pack_id off : Z) (items : list (bytes * Z * bytes))
    : list (bytes * ChunkEntry) :=
  match items with
  | [] => []
  | it :: items =>
      let comp := (Compression.compress it.2).2 in
      (it.1.1, {| ce_pack_id := pack_id; ce_offset := off;
                  ce_comp_len := Zlen comp mod 2 ^ 32; ce_raw_len := it.1.2 mod 2 ^ 32;
                  ce_codec := (Compression.compress it.2).1 |})
      :: item_entries pack_id (off + Zlen (item_frame it)) items
  end.

Lemma write_all_insert path b c P s :
  write_all path b (set_packs (<[path := c]> P) s) = (set_packs (<[path := c ++ b]> P) s, Ok ()).
Proof.
  unfold write_all, st_put, set_packs. cbn. by rewrite alter_insert_eq.
Qed.

Lemma write_chunk_spec path id off es it c P s :
  write_chunk path id (off, es) it (set_packs (<[path := c]> P) s) =
  (set_packs (<[path := c ++ item_frame it]> P) s,
   Ok (off + Zlen (item_frame it), es ++ item_entries id off [it])).
Proof.
  destruct it as [[d rl] raw]. unfold write_chunk, item_frame, frame. cbn [fst snd item_entries].
  destruct (Compression.compress raw) as [codec comp] eqn:E. cbn [fst snd].
  assert (Zlen (le_bytes 4 (Zlen comp) ++ [codec] ++ comp) = 4 + 1 + Zlen comp) as ->
    by (rewrite !length_app, length_le_bytes; cbn [length]; lia).
  unfold mbind, st_bind. rewrite !write_all_insert. unfold mret, st_ret.
  by rewrite <-!app_assoc, !Z.add_assoc.
Qed.

Lemma write_chunks_spec path id items off es c P s :
  st_foldl (write_chunk path id) (off, es) items (set_packs (<[path := c]> P) s) =
  (set_packs (<[path := c ++ concat (item_frame <$> items)]> P) s,
   Ok (off + Zlen (concat (item_frame <$> items)), es ++ item_entries id off items)).
Proof.
  revert off es c; induction items as [|it items IH]; intros off es c.
  - cbn. by rewrite !app_nil_r, Z.add_0_r.
  - rewrite fmap_cons. cbn [st_foldl concat]. unfold mbind, st_bind.
    rewrite write_chunk_spec, IH. rewrite length_app, <-!app_assoc. do 3 f_equal. lia.
Qed.

Lemma item_entries_keys id off items : (item_entries id off items).*1 = (λ it, it.1.1) <$> items.
Proof. revert off; induction items as [|it items IH]; intros off; cbn; [done|]. f_equal. apply IH. Qed.

(** An item to store: the digest and length of its payload, which fits a [u32]. *)
Definition item_ok (it : bytes * Z * bytes) : Prop :=
  it.1.1 = blake3 it.2 ∧ it.1.2 = Zlen it.2 ∧ Zlen it.2 < 2 ^ 32.

Lemma item_entries_ok `{!Blake3Laws, !Lz4Laws} packs id off items pre d e :
  packs !! pack_path id = Some (pre ++ concat (item_frame <$> items)) →
  off = Zlen pre → 0 ≤ id < 2 ^ 32 →
  Zlen (pre ++ concat (item_frame <$> items)) < 2 ^ 63 →
  Forall item_ok items → (d, e) ∈ item_entries id off items →
  ∃ raw, (d, Zlen raw, raw) ∈ items ∧ blake3 raw = d ∧
         entry_ok packs e raw ∧ entry_fits (d, e).
Proof.
  intros Hp Hoff Hid Hsz Hit. revert off pre Hp Hoff Hsz.
  induction Hit as [|[[d' rl] raw] items (Hd & Hrl & Hraw) Hit IH]; intros off pre Hp Hoff Hsz Hin;
    [by apply not_elem_of_nil in Hin|].
  rewrite fmap_cons in Hp, Hsz. cbn [concat] in Hp, Hsz. cbn [fst snd] in *. subst d' rl.
  cbn [item_entries] in Hin. apply elem_of_cons in Hin as [Heq|Hin].
  - simplify_eq. exists raw. cbn [fst snd].
    pose proof (Compression.compress_length raw) as Hc.
    rewrite !Z.mod_small by lia.
    split; [apply elem_of_cons; by left|]. split; [done|]. split.
    + exists (Compression.compress raw).2, pre, (concat (item_frame <$> items)).
      cbn [ce_pack_id ce_offset ce_comp_len ce_raw_len ce_codec].
      split; [done|]. repeat split; auto.
      by apply Compression.decompress_compress.
    + rewrite length_app in Hsz.
      split; cbn; try lia. apply blake3_length.
  - destruct (IH (off + Zlen (item_frame (blake3 raw, Zlen raw, raw)))
               (pre ++ item_frame (blake3 raw, Zlen raw, raw))) as (raw' & Hin' & Hrest).
    + by rewrite <-app_assoc.
    + rewrite length_app. lia.
    + by rewrite <-app_assoc.
    + exact Hin.
    + exists raw'. split; [apply elem_of_cons; by right|done].
Qed.

Lemma entry_ok_frame packs packs' e raw :
  packs' !! pack_path (ce_pack_id e) = packs !! pack_path (ce_pack_id e) →
  entry_ok packs e raw → entry_ok packs' e raw.
Proof. intros Heq (comp & pre & post & Hp & Hrest). exists comp, pre, post. by rewrite Heq. Qed.

Lemma insert_all_size {A} (m : gmap bytes A) l :
  (size (insert_all m l) ≤ size m + length l)%nat.
Proof.
  revert m; induction l as [|[k v] l IH]; intros m; [cbn; lia|].
  rewrite insert_all_cons. specialize (IH (<[k := v]> m)).
  assert (size (<[k := v]> m) ≤ S (size m))%nat
    by (rewrite map_size_insert; destruct (m !! k); cbn; lia).
  cbn [length fst snd] in *. lia.
Qed.

(** *** Storing a batch of new chunks *)
Definition store_pack (items : list (bytes * Z * bytes)) : st () :=
  pack_id ← alloc_pack_id;
  let path := pack_path pack_id in
  _ ← create_new path;
  '(_, new) ← st_foldl (write_chunk path pack_id) (0, []) items;
  commit_entries new.

Definition after_pack (s : ChunkStore) (items : list (bytes * Z * bytes)) : ChunkStore :=
  let id := cs_next_pack_id s in
  let map := insert_all (cs_state s) (item_entries id 0 items) in
  {| cs_disk := {| d_packs := <[pack_path id := concat (item_frame <$> items)]> (d_packs (cs_disk s));
                   d_index := atomic_write index_name (encode_index map) (d_index (cs_disk s));
                   d_manifests := d_manifests (cs_disk s) |};
     cs_state := map; cs_next_pack_id := id + 1 |}.

Lemma inv_fresh s A : Inv s A → d_packs (cs_disk s) !! pack_path (cs_next_pack_id s) = None.
Proof.
  intros HI. destruct (d_packs _ !! _) eqn:E; [|done].
  destruct (inv_packs _ _ HI (pack_path (cs_next_pack_id s))) as (id & Hid & Heq); [by rewrite E|].
  apply pack_path_inj in Heq; [lia|apply HI|]. pose proof (inv_next _ _ HI). lia.
Qed.

Lemma store_pack_run s A items :
  Inv s A → cs_next_pack_id s + 1 < 2 ^ 32 →
  store_pack items s = (after_pack s items, Ok ()).
Proof.
  intros HI Hn. unfold store_pack, alloc_pack_id, mbind, st_bind.
  destruct (Z.eqb_spec (cs_next_pack_id s + 1) (2 ^ 32)); [lia|].
  unfold create_new. cbn [set_next cs_disk]. rewrite (inv_fresh _ _ HI).
  rewrite write_chunks_spec. cbn. done.
Qed.

Lemma inv_entry_path s A d e raw :
  Inv s A → cs_state s !! d = Some e → entry_ok (d_packs (cs_disk s)) e raw →
  pack_path (cs_next_pack_id s) ≠ pack_path (ce_pack_id e).
Proof.
  intros HI He (comp & pre & post & Hp & _) Heq. rewrite <-Heq, (inv_fresh _ _ HI) in Hp. done.
Qed.

Lemma after_pack_inv `{!Blake3Laws, !Lz4Laws} s A items :
  Inv s A → cs_next_pack_id s + 1 < 2 ^ 32 →
  Forall item_ok items → NoDup ((λ it, it.1.1) <$> items) →
  (∀ it, it ∈ items → a_chunks A !! it.1.1 = None) →
  Zlen (concat (item_frame <$> items)) < 2 ^ 63 →
  Z.of_nat (size (cs_state s)) + Zlen items < 2 ^ 32 →
  Inv (after_pack s items)
    {| a_chunks := insert_all (a_chunks A) ((λ it, (it.1.1, it.2)) <$> items);
       a_manifests := a_manifests A |}.
Proof.
  intros HI Hn Hit Hnd Hnew Hsz Hcount.
  assert (((λ it : bytes * Z * bytes, (it.1.1, it.2)) <$> items).*1 = (λ it, it.1.1) <$> items) as Hk
    by (by rewrite <-list_fmap_compose).
  assert (∀ d, is_Some (a_chunks A !! d) → d ∉ (λ it : bytes * Z * bytes, it.1.1) <$> items) as Hfresh.
  { intros d [raw Hd] (it & -> & Hin)%list_elem_of_fmap. rewrite Hnew in Hd; done. }
  split; cbn [after_pack cs_state cs_disk d_packs d_index d_manifests cs_next_pack_id
              a_chunks a_manifests].
  - intros d e He. apply insert_all_inv in He as [Hin|He].
    + eapply (item_entries_ok (<[pack_path (cs_next_pack_id s) := concat (item_frame <$> items)]>
          (d_packs (cs_disk s))) _ _ items []) in Hin as (raw & Hraw & Hh & Hok & Hf);
        [|by rewrite lookup_insert_eq|done|apply HI|done|done].
      exists raw. split_and!; try done. apply insert_all_lookup; [by rewrite Hk|].
      apply list_elem_of_fmap. by exists (d, Zlen raw, raw).
    + destruct (inv_entry _ _ HI d e He) as (raw & Hr & Hh & Hok & Hf).
      exists raw. split_and!; try done.
      * rewrite insert_all_lookup_None; [done|]. rewrite Hk. apply Hfresh. by eexists.
      * eapply entry_ok_frame; [|exact Hok]. apply lookup_insert_ne. by eapply inv_entry_path.
  - intros d Hd. apply insert_all_dom. rewrite item_entries_keys.
    apply insert_all_dom in Hd as [Hd|Hd]; [left; by apply HI|right]. by rewrite Hk in Hd.
  - left. by apply atomic_write_lookup.
  - pose proof (insert_all_size (cs_state s) (item_entries (cs_next_pack_id s) 0 items)) as Hs.
    pose proof (f_equal length (item_entries_keys (cs_next_pack_id s) 0 items)) as Hl.
    rewrite !length_fmap in Hl. lia.
  - pose proof (inv_next _ _ HI). lia.
  - intros name Hname. destruct (decide (name = pack_path (cs_next_pack_id s))) as [->|Hne].
    + exists (cs_next_pack_id s). pose proof (inv_next _ _ HI). split; [lia|done].
    + rewrite lookup_insert_ne in Hname by done.
      destruct (inv_packs _ _ HI name Hname) as (id & Hid & ->). exists id. split; [lia|done].
  - apply HI.
  - intros id m Hm. destruct (inv_manifest _ _ HI id m Hm) as (Hf & Hwf & Hid & Hc).
    split_and!; try done. intros c Hcin. apply insert_all_dom. left. by apply Hc.
Qed.
End spec.

Definition index_demo : gmap bytes ChunkEntry :=
  {[ replicate 32 Byte.x02 := {| ce_pack_id := 0; ce_offset := 0; ce_comp_len := 9;
                                 ce_raw_len := 20; ce_codec := Byte.x01 |};
     replicate 32 Byte.x01 := {| ce_pack_id := 3; ce_offset := 14; ce_comp_len := 7;
                                 ce_raw_len := 7; ce_codec := Byte.x00 |} ]}.

Lemma index_roundtrip_witness : load_index (encode_index index_demo) = Ok index_demo.
Proof.
  apply index_roundtrip; [|vm_compute; reflexivity].
  unfold index_demo. apply map_Forall_insert_2; [split; cbn; lia|].
  apply map_Forall_singleton. split; cbn; lia.
Defined.

End StoreSpec.
