(* ===== verification/StoreOps.v ===== *)
(** * Store operations refine their abstract counterparts

    [put_chunk_batch], [put_manifest], [put_buffer], [drop_manifest] and the
    readers, over the invariant of [StoreSpec]. *)

From S2P Require Import Prelude Cas Chunker Compression Cursor Manifest Disk Store StoreSpec.
Import Hex Manifest Store StoreSpec.

Module StoreOps.

Lemma st_foldl_cons {A B} (f : B → A → st B) b a l s :
  st_foldl f b (a :: l) s =
  match f b a s with
  | (s', Ok b') => st_foldl f b' l s'
  | (s', Err e) => (s', Err e)
  | (s', Panic) => (s', Panic)
  end.
Proof. reflexivity. Qed.

Lemma st_foldl_fmap {A B C} (f : B → A → st B) (h : C → A) b l s :
  st_foldl (λ acc c, f acc (h c)) b l s = st_foldl f b (h <$> l) s.
Proof.
  revert b s; induction l as [|c l IH]; intros b s; cbn; [done|].
  unfold mbind, st_bind. destruct (f b (h c) s) as [s' [b'|e|]]; [apply IH|done..].
Qed.

Lemma st_foldl_ext {A B} (f g : B → A → st B) b l s :
  (∀ b a s, a ∈ l → f b a s = g b a s) → st_foldl f b l s = st_foldl g b l s.
Proof.
  revert b s; induction l as [|a l IH]; intros b s Hfg; cbn; [done|].
  unfold mbind, st_bind. rewrite Hfg by set_solver.
  destruct (g b a s) as [s' [b'|e|]]; [apply IH; set_solver|done..].
Qed.

Section ops.
Context `{Blake3} `{Lz4}.

(** First writer wins, as the dedup pass does. *)
Fixpoint add_chunks (c : gmap bytes bytes) (raws : list bytes) : gmap bytes bytes :=
  match raws with
  | [] => c
  | raw :: raws =>
      add_chunks (match c !! blake3 raw with Some _ => c | None => <[blake3 raw := raw]> c end) raws
  end.

Lemma pending_batch_spec c map seen raws :
  (∀ d, is_Some (c !! d) ↔ is_Some (map !! d) ∨ d ∈ seen) →
  insert_all c ((λ raw, (blake3 raw, raw)) <$> pending_batch map seen raws) = add_chunks c raws ∧
  NoDup (blake3 <$> pending_batch map seen raws) ∧
  (∀ raw, raw ∈ pending_batch map seen raws → c !! blake3 raw = None).
Proof.
  revert c seen; induction raws as [|raw raws IH]; intros c seen Hc; cbn [pending_batch add_chunks].
  { split_and!; [done|constructor|set_solver]. }
  destruct (c !! blake3 raw) as [old|] eqn:E.
  - assert (bool_decide (is_Some (map !! blake3 raw)) || bool_decide (blake3 raw ∈ seen) = true) as ->.
    { destruct (proj1 (Hc (blake3 raw))); [by eexists|rewrite bool_decide_eq_true_2; done|].
      rewrite (bool_decide_eq_true_2 (_ ∈ _)) by done. by rewrite orb_true_r. }
    by apply IH.
  - assert (¬ is_Some (map !! blake3 raw) ∧ blake3 raw ∉ seen) as [Hm Hs].
    { split; intros Hx; destruct (proj2 (Hc (blake3 raw))); auto; congruence. }
    rewrite !bool_decide_eq_false_2 by done. cbn [orb].
    destruct (IH (<[blake3 raw := raw]> c) ({[blake3 raw]} ∪ seen)) as (I1 & I2 & I3).
    { intros d. destruct (decide (d = blake3 raw)) as [->|Hne].
      - rewrite lookup_insert_eq. split; [set_solver|by eexists].
      - rewrite lookup_insert_ne by done. rewrite Hc. set_solver. }
    rewrite !fmap_cons, insert_all_cons. cbn [fst snd]. split; [done|]. split.
    + apply NoDup_cons. split; [|done]. intros (raw' & Heq & Hin)%list_elem_of_fmap.
      specialize (I3 raw' Hin). rewrite <-Heq, lookup_insert_eq in I3. done.
    + intros raw' [->|Hin]%elem_of_cons; [done|]. specialize (I3 raw' Hin).
      destruct (decide (blake3 raw = blake3 raw')) as [Heq|Hne].
      * by rewrite Heq, lookup_insert_eq in I3.
      * by rewrite lookup_insert_ne in I3.
Qed.

Lemma pending_batch_sublist map seen raws : pending_batch map seen raws `sublist_of` raws.
Proof.
  revert seen; induction raws as [|raw raws IH]; intros seen; cbn [pending_batch]; [constructor|].
  case_match; [by apply sublist_cons|by apply sublist_skip].
Qed.

Lemma add_chunks_lookup_Some c raws d x :
  c !! d = Some x → add_chunks c raws !! d = Some x.
Proof.
  revert c; induction raws as [|raw raws IH]; intros c Hc; cbn; [done|].
  apply IH. destruct (c !! blake3 raw) eqn:E; [done|].
  rewrite lookup_insert_ne; [done|]. intros Heq. congruence.
Qed.

Lemma add_chunks_elem c raws raw : raw ∈ raws → is_Some (add_chunks c raws !! blake3 raw).
Proof.
  revert c; induction raws as [|raw' raws IH]; intros c Hin; [set_solver|].
  cbn. apply elem_of_cons in Hin as [->|Hin]; [|by apply IH].
  destruct (c !! blake3 raw') as [x|] eqn:E.
  - exists x. by apply add_chunks_lookup_Some.
  - exists raw'. apply add_chunks_lookup_Some. by rewrite lookup_insert_eq.
Qed.

Lemma add_chunks_inv c raws d x :
  add_chunks c raws !! d = Some x → c !! d = Some x ∨ (x ∈ raws ∧ d = blake3 x).
Proof.
  revert c; induction raws as [|raw raws IH]; intros c Hd; cbn in Hd; [by left|].
  apply IH in Hd as [Hd|[Hin ->]]; [|right; set_solver].
  destruct (c !! blake3 raw) eqn:E; [by left|].
  destruct (decide (blake3 raw = d)) as [<-|Hne].
  - rewrite lookup_insert_eq in Hd. simplify_eq. right. set_solver.
  - rewrite lookup_insert_ne in Hd by done. by left.
Qed.

(** *** Room for a batch: the widths the formats impose *)
Fixpoint weight (raws : list bytes) : Z :=
  match raws with [] => 0 | r :: raws => 5 + Zlen r + weight raws end.

Record room (s : ChunkStore) (raws : list bytes) : Prop := {
  room_raw : Forall (λ r, Zlen r < 2 ^ 32) raws;
  room_weight : weight raws < 2 ^ 63;
  room_count : Z.of_nat (size (cs_state s)) + Zlen raws < 2 ^ 32;
  room_next : cs_next_pack_id s + 1 < 2 ^ 32
}.

Lemma weight_sublist l k : l `sublist_of` k → 0 ≤ weight l ≤ weight k.
Proof. induction 1; cbn; lia. Qed.

Definition item_of (raw : bytes) : bytes * Z * bytes := (blake3 raw, Zlen raw, raw).

Lemma frames_weight raws : Zlen (concat (item_frame <$> (item_of <$> raws))) ≤ weight raws.
Proof.
  induction raws as [|raw raws IH]; [cbn; lia|]. rewrite !fmap_cons. cbn [concat weight].
  rewrite length_app. unfold item_frame at 1, frame. rewrite !length_app, length_le_bytes.
  pose proof (Compression.compress_length raw). cbn [item_of snd length]. lia.
Qed.

Lemma inv_dom_iff s A d :
  Inv s A → is_Some (a_chunks A !! d) ↔ is_Some (cs_state s !! d) ∨ d ∈ (∅ : gset bytes).
Proof.
  intros HI. split.
  - intros Hd. left. by apply HI.
  - intros [[e He]|Hd]; [|set_solver].
    destruct (inv_entry _ _ HI d e He) as (r & Hr & _). by eexists.
Qed.

Lemma store_pending `{!Blake3Laws, !Lz4Laws} s A raws pending :
  Inv s A → room s raws → pending_batch (cs_state s) ∅ raws = pending →
  store_pack (item_of <$> pending) s = (after_pack s (item_of <$> pending), Ok ()) ∧
  Inv (match pending with [] => s | _ => after_pack s (item_of <$> pending) end)
    {| a_chunks := add_chunks (a_chunks A) raws; a_manifests := a_manifests A |}.
Proof.
  intros HI [Hraw Hw Hc Hn] <-. set (pending := pending_batch _ _ _).
  split; [by eapply store_pack_run|].
  destruct (pending_batch_spec (a_chunks A) (cs_state s) ∅ raws) as (P1 & P2 & P3).
  { intros d. by apply inv_dom_iff. }
  fold pending in P1, P2, P3.
  assert (pending `sublist_of` raws) as Hsub by apply pending_batch_sublist.
  rewrite <-P1. destruct pending as [|r rs] eqn:Hp; [by destruct A|]. rewrite <-Hp in *.
  replace ((λ raw, (blake3 raw, raw)) <$> pending)
    with ((λ it : bytes * Z * bytes, (it.1.1, it.2)) <$> (item_of <$> pending))
    by (by rewrite <-list_fmap_compose).
  apply after_pack_inv; try done.
  - apply Forall_fmap, Forall_forall. intros x Hx. split_and!; [done..|].
    eapply Forall_forall in Hraw; [exact Hraw|]. by eapply sublist_subseteq.
  - by rewrite <-list_fmap_compose.
  - intros it (raw & -> & Hin)%list_elem_of_fmap. by apply P3.
  - pose proof (frames_weight pending). pose proof (weight_sublist _ _ Hsub). lia.
  - rewrite length_fmap. apply sublist_length in Hsub. lia.
Qed.

Lemma put_new_batch_eq pending s :
  put_new_batch pending s = store_pack (item_of <$> pending) s.
Proof.
  unfold put_new_batch, store_pack, mbind, st_bind.
  destruct (alloc_pack_id s) as [s1 [id|e|]]; [|done..].
  destruct (create_new (pack_path id) s1) as [s2 [[]|e|]]; [|done..].
  by rewrite (st_foldl_fmap (write_chunk (pack_path id) id) item_of).
Qed.

Lemma put_chunk_batch_ok `{!Blake3Laws, !Lz4Laws} s A raws :
  Inv s A → room s raws →
  ∃ s', put_chunk_batch raws s = (s', Ok (blake3 <$> raws)) ∧
        Inv s' {| a_chunks := add_chunks (a_chunks A) raws; a_manifests := a_manifests A |}.
Proof.
  intros HI Hroom. unfold put_chunk_batch, st_get, mbind, st_bind.
  destruct (pending_batch (cs_state s) ∅ raws) as [|r rs] eqn:E;
    destruct (store_pending s A raws _ HI Hroom E) as [Hrun Hinv].
  - by exists s.
  - exists (after_pack s (item_of <$> r :: rs)). split; [|done].
    by rewrite put_new_batch_eq, Hrun.
Qed.

(** [put_chunk_batch] refines adding payloads to the abstract map: it
    returns the digest of every input in order, stores each payload whose
    digest is not present yet (first writer wins), and keeps the store
    invariant: index file, pack names and manifests included. *)
Theorem put_chunk_batch_refines `{!Blake3Laws, !Lz4Laws} s A raws :
  Inv s A → room s raws →
  ∃ s', put_chunk_batch raws s = (s', Ok (blake3 <$> raws)) ∧
        Inv s' {| a_chunks := add_chunks (a_chunks A) raws; a_manifests := a_manifests A |}.
Proof. apply put_chunk_batch_ok. Qed.

(** *** Manifests *)
Definition add_manifest (A : Abs) (m : Manifest) : Abs :=
  {| a_chunks := a_chunks A; a_manifests := <[identity_digest m := m]> (a_manifests A) |}.

Lemma put_manifest_ok s A m :
  Inv s A → manifest_wf m → (∀ c, c ∈ m_chunks m → is_Some (a_chunks A !! c)) →
  ∃ s', put_manifest m s = (s', Ok (identity_digest m)) ∧ Inv s' (add_manifest A m) ∧
        cs_state s' = cs_state s ∧ d_packs (cs_disk s') = d_packs (cs_disk s).
Proof.
  intros HI Hwf Hc. unfold put_manifest.
  destruct (list_find (λ c, cs_state s !! c = None) (m_chunks m)) as [[i c]|] eqn:E.
  { apply list_find_Some in E as (Hi & Hn & _).
    assert (is_Some (cs_state s !! c)) as [e He]; [|congruence].
    apply (inv_dom _ _ HI), Hc. by eapply list_elem_of_lookup_2. }
  eexists. split; [done|]. split; [|done].
  set (id := identity_digest m).
  assert (tmp_write_name (manifest_path id) ≠ manifest_path id) as Hne by apply manifest_tmp_ne.
  split; cbn [set_manifests cs_state cs_disk d_packs d_index d_manifests cs_next_pack_id
              add_manifest a_chunks a_manifests]; try apply HI.
  - intros name c Hn. destruct (decide (name = manifest_path id)) as [->|Hp].
    { rewrite atomic_write_lookup in Hn by done. simplify_eq.
      exists id, m. by rewrite lookup_insert_eq. }
    destruct (decide (name = tmp_write_name (manifest_path id))) as [->|Ht].
    { unfold atomic_write in Hn. by rewrite lookup_delete_eq in Hn. }
    rewrite atomic_write_lookup_ne in Hn by done.
    destruct (inv_files _ _ HI name c Hn) as (id' & m' & Hm' & -> & ->).
    exists id', m'. rewrite lookup_insert_ne; [done|]. intros Heq. apply Hp. symmetry. by apply (f_equal manifest_path).
  - intros id' m' Hm'. destruct (decide (id' = id)) as [->|Hid].
    { rewrite lookup_insert_eq in Hm'. simplify_eq.
      by rewrite atomic_write_lookup by done. }
    rewrite lookup_insert_ne in Hm' by done.
    destruct (inv_manifest _ _ HI id' m' Hm') as (Hf & Hrest).
    rewrite atomic_write_lookup_ne; [done| |].
    + intros Heq%manifest_path_inj. done.
    + intros Heq. symmetry in Heq. by apply manifest_tmp_ne in Heq.
Qed.

Lemma put_manifest_missing s A m c :
  Inv s A → c ∈ m_chunks m → a_chunks A !! c = None →
  ∃ why, put_manifest m s = (s, Err (NotFound why)).
Proof.
  intros HI Hc Hn. unfold put_manifest.
  destruct (list_find (λ c, cs_state s !! c = None) (m_chunks m)) as [[i c']|] eqn:E; [by eexists|].
  exfalso. rewrite list_find_None in E. eapply Forall_forall in E; [|exact Hc]. apply E.
  destruct (cs_state s !! c) as [e|] eqn:He; [|done].
  destruct (inv_entry _ _ HI c e He) as (raw & Hr & _). congruence.
Qed.

Lemma put_manifest_cases s A m :
  Inv s A → manifest_wf m →
  (∃ s', put_manifest m s = (s', Ok (identity_digest m)) ∧ Inv s' (add_manifest A m)) ∨
  (∃ why, put_manifest m s = (s, Err (NotFound why))).
Proof.
  intros HI Hwf. destruct (decide (Forall (λ c, is_Some (a_chunks A !! c)) (m_chunks m))) as [Hc|Hc].
  - left. destruct (put_manifest_ok s A m HI Hwf) as (s' & Hr & Hi & _); [by apply Forall_forall|]. by exists s'.
  - right. apply not_Forall_Exists, Exists_exists in Hc as (c & Hin & Hn); [|apply _].
    apply eq_None_not_Some in Hn. by eapply put_manifest_missing.
Qed.

(** [put_manifest] is fail-closed: when every referenced chunk is stored
    the manifest is recorded under its identity, and when one is missing the
    call is a [NotFound] error that leaves the store exactly as it was. *)
Theorem put_manifest_fail_closed s A m :
  Inv s A → manifest_wf m →
  ((∀ c, c ∈ m_chunks m → is_Some (a_chunks A !! c)) →
     ∃ s', put_manifest m s = (s', Ok (identity_digest m)) ∧ Inv s' (add_manifest A m)) ∧
  ((∃ c, c ∈ m_chunks m ∧ a_chunks A !! c = None) →
     ∃ why, put_manifest m s = (s, Err (NotFound why))).
Proof.
  intros HI Hwf. split.
  - intros Hc. destruct (put_manifest_ok s A m HI Hwf Hc) as (s' & Hr & Hi & _). by exists s'.
  - intros (c & Hc & Hn). by eapply put_manifest_missing.
Qed.

Lemma get_manifest_ok s A id m :
  Inv s A → a_manifests A !! id = Some m → get_manifest s id = Ok m.
Proof.
  intros HI Hm. destruct (inv_manifest _ _ HI id m Hm) as (Hf & Hwf & Hid & _).
  unfold get_manifest. rewrite Hf. cbn [ok_or mbind res_bind].
  rewrite decode_encode by done. cbn [mbind res_bind].
  by rewrite bool_decide_eq_true_2.
Qed.

Lemma get_manifest_none s A id :
  Inv s A → a_manifests A !! id = None → get_manifest s id = Err (NotFound (hex id)).
Proof.
  intros HI Hm. unfold get_manifest. destruct (d_manifests (cs_disk s) !! manifest_path id) eqn:E; [|done].
  destruct (inv_files _ _ HI _ _ E) as (id' & m & Hm' & Heq%manifest_path_inj & _). congruence.
Qed.

(** *** Reassembly *)
Definition payload (A : Abs) (m : Manifest) : option bytes :=
  (λ raws, concat raws) <$> mapM (λ c, a_chunks A !! c) (m_chunks m).

Lemma read_fold s A cs out raws :
  Inv s A → Forall2 (λ c raw, a_chunks A !! c = Some raw) cs raws →
  foldM (λ out c, raw ← get_chunk s c; Ok (out ++ raw)) out cs = Ok (out ++ concat raws).
Proof.
  intros HI Hall. revert out; induction Hall as [|c raw cs raws Hc Hall IH]; intros out; cbn [foldM concat].
  - by rewrite app_nil_r.
  - rewrite (inv_get_chunk _ _ _ _ HI Hc). cbn [mbind res_bind].
    rewrite IH. by rewrite <-app_assoc.
Qed.

Lemma read_assembled_ok s A m raws :
  Inv s A → Forall2 (λ c raw, a_chunks A !! c = Some raw) (m_chunks m) raws →
  m_total_size m = Zlen (concat raws) → m_total_size m < 2 ^ 63 →
  read_assembled s m = Ok (concat raws).
Proof.
  intros HI Hall Hsz Hcap. unfold read_assembled.
  destruct (Z.leb_spec (2 ^ 63) (m_total_size m)); [lia|]. rewrite (read_fold s A _ _ raws) by done.
  cbn [mbind res_bind app]. by rewrite Hsz, Z.eqb_refl.
Qed.
End ops.

Section witnesses.
#[local] Existing Instance toy_blake3.
#[local] Existing Instance toy_lz4.

Definition demo_raws : list bytes := [str "alpha"; str "beta"; str "alpha"].

Lemma put_chunk_batch_refines_witness :
  ∃ s', put_chunk_batch demo_raws store0 = (s', Ok (blake3 <$> demo_raws)) ∧
        Inv s' {| a_chunks := add_chunks ∅ demo_raws; a_manifests := ∅ |}.
Proof.
  apply (@put_chunk_batch_refines _ _ toy_blake3_laws toy_lz4_laws store0 abs_empty demo_raws);
    [apply inv_empty|].
  split; [repeat constructor|vm_compute; reflexivity..].
Defined.

Lemma put_manifest_fail_closed_witness :
  (∃ s', put_manifest (new (str "a") (str "1")) store0 =
           (s', Ok (identity_digest (new (str "a") (str "1")))) ∧
         Inv s' (add_manifest abs_empty (new (str "a") (str "1")))) ∧
  (∃ why, put_manifest demo store0 = (store0, Err (NotFound why))).
Proof.
  split.
  - apply (put_manifest_fail_closed store0 abs_empty (new (str "a") (str "1"))); [apply inv_empty| |].
    + split; cbn; try lia; repeat constructor; cbn; lia.
    + cbn. intros c Hc. by apply not_elem_of_nil in Hc.
  - apply (put_manifest_fail_closed store0 abs_empty demo); [apply inv_empty|apply demo_wf|].
    exists (replicate 32 Byte.x07). split; [by left|done].
Defined.
End witnesses.

End StoreOps.
