(* ===== verification/StoreBuffer.v ===== *)
(** * Ingesting a buffer and reading it back

    [put_buffer] is the composition of the chunker, the dedup pass, the pack
    writer and [put_manifest]; its dedup and range bookkeeping is shown to
    store exactly what [put_chunk_batch] stores for the chunk payloads, and
    the manifest it returns reassembles to the buffer. *)

From S2P Require Import Prelude Cas Chunker Compression Cursor Manifest Disk Store StoreSpec StoreOps.
Import Hex Manifest Store StoreSpec StoreOps.

Module StoreBuffer.

Section buffer.
Context `{Blake3} `{Lz4}.

(** *** The chunks the dedup pass selects *)
Fixpoint selected (map : gmap bytes ChunkEntry) (seen : gset bytes) (cs : list Cdc.Chunk)
    : list Cdc.Chunk :=
  match cs with
  | [] => []
  | c :: cs =>
      if bool_decide (is_Some (map !! Cdc.ck_hash c)) || bool_decide (Cdc.ck_hash c ∈ seen)
      then selected map seen cs
      else c :: selected map ({[Cdc.ck_hash c]} ∪ seen) cs
  end.

Lemma selected_pending_new map seen cs :
  pending_new map seen cs = (λ c, (Cdc.ck_hash c, Cdc.ck_len c)) <$> selected map seen cs.
Proof.
  revert seen; induction cs as [|c cs IH]; intros seen; cbn [pending_new selected]; [done|].
  case_match; [apply IH|]. rewrite fmap_cons. f_equal. apply IH.
Qed.

(** A chunk carries the digest and the range of its own bytes. *)
Definition chunk_ok (data : bytes) (c : Cdc.Chunk) : Prop :=
  Cdc.ck_hash c = blake3 (Cdc.chunk_bytes data c) ∧
  0 ≤ Cdc.ck_offset c ∧ 0 < Cdc.ck_len c ≤ 2 ^ 18 ∧
  Cdc.ck_offset c + Cdc.ck_len c ≤ Zlen data.

Lemma chunk_bytes_length data c :
  chunk_ok data c → Zlen (Cdc.chunk_bytes data c) = Cdc.ck_len c.
Proof. intros (_ & Ho & Hl & Hb). unfold Cdc.chunk_bytes. rewrite length_slice; lia. Qed.

Lemma selected_pending_batch data map seen cs :
  Forall (chunk_ok data) cs →
  pending_batch map seen (Cdc.chunk_bytes data <$> cs) =
  Cdc.chunk_bytes data <$> selected map seen cs.
Proof.
  intros Hall. revert seen; induction Hall as [|c cs (Hh & _) Hall IH]; intros seen;
    cbn [pending_batch selected fmap list_fmap]; [done|].
  rewrite <-Hh. case_match; [apply IH|]. rewrite fmap_cons. f_equal. apply IH.
Qed.

Lemma selected_elem map seen cs c : c ∈ selected map seen cs → c ∈ cs.
Proof.
  revert seen; induction cs as [|c' cs IH]; intros seen; cbn [selected]; [done|].
  case_match; set_solver.
Qed.

Definition range_step (m : gmap bytes (Z * Z)) (c : Cdc.Chunk) : gmap bytes (Z * Z) :=
  match m !! Cdc.ck_hash c with
  | Some _ => m
  | None => <[Cdc.ck_hash c := (Cdc.ck_offset c, Cdc.ck_len c)]> m
  end.

Lemma range_fold_keep m cs d r : m !! d = Some r → foldl range_step m cs !! d = Some r.
Proof.
  revert m; induction cs as [|c cs IH]; intros m Hm; cbn [foldl]; [done|].
  apply IH. unfold range_step. case_match; [done|]. rewrite lookup_insert_ne; congruence.
Qed.

Lemma range_fold_selected m map seen cs c :
  (∀ d, is_Some (m !! d) → is_Some (map !! d) ∨ d ∈ seen) →
  c ∈ selected map seen cs →
  foldl range_step m cs !! Cdc.ck_hash c = Some (Cdc.ck_offset c, Cdc.ck_len c).
Proof.
  revert m seen; induction cs as [|c' cs IH]; intros m seen Hm Hin; cbn [foldl selected] in *;
    [set_solver|].
  assert (∀ d, is_Some (range_step m c' !! d) → is_Some (m !! d) ∨ d = Cdc.ck_hash c') as Hstep.
  { intros d Hd. unfold range_step in Hd. destruct (m !! Cdc.ck_hash c'); [left; exact Hd|].
    destruct (decide (Cdc.ck_hash c' = d)) as [<-|Hne]; [right; reflexivity|].
    rewrite lookup_insert_ne in Hd by done. left; exact Hd. }
  destruct (bool_decide (is_Some (map !! Cdc.ck_hash c')) || _) eqn:E.
  - apply (IH _ seen); [|done]. intros d [Hd| ->]%Hstep; [by apply Hm|].
    apply orb_true_iff in E as [E|E]; apply bool_decide_eq_true in E; auto.
  - apply orb_false_iff in E as [E1 E2]. apply bool_decide_eq_false in E1, E2.
    apply elem_of_cons in Hin as [->|Hin].
    + apply range_fold_keep. unfold range_step.
      destruct (m !! Cdc.ck_hash c') eqn:Em; [|by rewrite lookup_insert_eq].
      exfalso. destruct (Hm (Cdc.ck_hash c')); [by rewrite Em|done..].
    + apply (IH _ ({[Cdc.ck_hash c']} ∪ seen)); [|done].
      intros d [Hd| ->]%Hstep; [|set_solver]. apply Hm in Hd. set_solver.
Qed.

(** The pack writer of [put_buffer] finds every selected chunk's bytes. *)
Lemma put_new_chunks_eq data map cs s :
  Forall (chunk_ok data) cs →
  put_new_chunks data cs (pending_new map ∅ cs) s =
  store_pack (item_of <$> (Cdc.chunk_bytes data <$> selected map ∅ cs)) s.
Proof.
  intros Hall. unfold put_new_chunks, store_pack, mbind, st_bind.
  destruct (alloc_pack_id s) as [s1 [id|e|]]; [|done..].
  destruct (create_new (pack_path id) s1) as [s2 [[]|e|]]; [|done..].
  rewrite selected_pending_new.
  rewrite <-(st_foldl_fmap _ (λ c, (Cdc.ck_hash c, Cdc.ck_len c))).
  rewrite <-list_fmap_compose, <-(st_foldl_fmap (write_chunk (pack_path id) id)).
  erewrite st_foldl_ext; [done|]. intros acc c s0 Hin. cbn beta iota.
  pose proof (selected_elem _ _ _ _ Hin) as Hc. eapply Forall_forall in Hc; [|exact Hall].
  unfold first_ranges. change (foldl _ ∅ cs) with (foldl range_step ∅ cs).
  rewrite (range_fold_selected ∅ map ∅ cs c) by (done || (intros d [? Hd]; by rewrite lookup_empty in Hd)).
  unfold compose, item_of. rewrite (chunk_bytes_length _ _ Hc).
  destruct Hc as (Hh & Ho & Hl & Hb). unfold st_lift, mbind, st_bind.
  rewrite slice_p_Ok by lia. rewrite Hh. reflexivity.
Qed.

(** *** Sizes *)
Lemma tiles_chunk_ok data off cs :
  0 ≤ off → Cdc.tiles data Cdc.default_config off cs → Forall (chunk_ok data) cs.
Proof.
  revert off; induction cs as [|c cs IH]; intros off Ho Ht; [constructor|].
  destruct Ht as (Hoff & Hl & Hb & _ & Hh & Ht). cbn in Hl. constructor.
  - unfold chunk_ok, Cdc.chunk_bytes. rewrite Hoff. split_and!; auto; lia.
  - eapply IH; [|exact Ht]. lia.
Qed.

Lemma tiles_count data off cs :
  Cdc.tiles data Cdc.default_config off cs → cs ≠ [] →
  (Zlen cs - 1) * 2 ^ 14 < Zlen data - off.
Proof.
  revert off; induction cs as [|c cs IH]; intros off Ht Hne; [done|].
  destruct Ht as (Hoff & Hl & Hb & Hmin & Hh & Ht). cbn in Hl, Hmin.
  destruct cs as [|c' cs]; [cbn; lia|].
  specialize (IH _ Ht ltac:(done)). destruct Ht as (_ & Hl' & Hb' & _).
  cbn [length] in *. lia.
Qed.

Lemma weight_pieces data cs :
  Forall (chunk_ok data) cs → weight (Cdc.chunk_bytes data <$> cs) ≤ (5 + 2 ^ 18) * Zlen cs.
Proof.
  induction 1 as [|c cs Hc Hall IH]; [cbn; lia|]. rewrite fmap_cons. cbn [weight length].
  rewrite (chunk_bytes_length _ _ Hc). destruct Hc as (_ & _ & Hl & _). lia.
Qed.

(** What [put_buffer] needs to succeed: fields the manifest format can hold
    and room in the store. *)
Record buffer_fits (s : ChunkStore) (name version data : bytes) (drv : option bytes) : Prop := {
  bf_name : string_wf name;
  bf_version : string_wf version;
  bf_drv : opt_len 32 drv;
  bf_data : Zlen data ≤ 2 ^ 38;
  bf_count : Z.of_nat (size (cs_state s)) + 2 ^ 24 < 2 ^ 32;
  bf_next : cs_next_pack_id s + 1 < 2 ^ 32
}.

Definition manifest_of (name version data : bytes) (drv : option bytes) (cs : list Cdc.Chunk)
    : Manifest :=
  {| m_name := name; m_version := version; m_total_size := Zlen data;
     m_chunks := Cdc.ck_hash <$> cs; m_drv_hash := drv; m_pubkey := None; m_signature := None |}.

Definition with_chunks (A : Abs) (raws : list bytes) : Abs :=
  {| a_chunks := add_chunks (a_chunks A) raws; a_manifests := a_manifests A |}.

Lemma buffer_room s name version data drv cs :
  buffer_fits s name version data drv → Cdc.tiles data Cdc.default_config 0 cs →
  Zlen cs ≤ 2 ^ 24 ∧ room s (Cdc.chunk_bytes data <$> cs).
Proof.
  intros [_ _ _ Hd Hc Hn] Ht. pose proof (tiles_chunk_ok data 0 cs ltac:(lia) Ht) as Hall.
  assert (Zlen cs ≤ 2 ^ 24) as Hlen.
  { destruct cs as [|c cs]; [cbn; lia|]. pose proof (tiles_count _ _ _ Ht ltac:(done)). lia. }
  split; [done|]. split.
  - apply Forall_fmap. eapply Forall_impl; [exact Hall|]. intros c Hcc. cbn.
    rewrite (chunk_bytes_length _ _ Hcc). destruct Hcc as (_ & _ & Hl & _). lia.
  - pose proof (weight_pieces data cs Hall). lia.
  - rewrite length_fmap. lia.
  - done.
Qed.

Lemma hashes_of_pieces data cs :
  Forall (chunk_ok data) cs → Cdc.ck_hash <$> cs = blake3 <$> (Cdc.chunk_bytes data <$> cs).
Proof. induction 1 as [|c cs (Hh & _) _ IH]; [done|]. rewrite !fmap_cons. by f_equal. Qed.

Lemma put_buffer_run `{!Blake3Laws, !Lz4Laws} s A name version data drv cs :
  Inv s A → buffer_fits s name version data drv →
  Cdc.chunk_payload data Cdc.default_config = Ok cs →
  ∃ s', put_buffer name version data drv s = (s', Ok (manifest_of name version data drv cs)) ∧
        Inv s' (add_manifest (with_chunks A (Cdc.chunk_bytes data <$> cs))
                  (manifest_of name version data drv cs)) ∧
        (pending_new (cs_state s) ∅ cs = [] →
           cs_state s' = cs_state s ∧ d_packs (cs_disk s') = d_packs (cs_disk s)).
Proof.
  intros HI Hfit Hcs. pose proof Hcs as [Hv Hcdc]%Cdc.chunk_payload_Ok.
  assert (Cdc.tiles data Cdc.default_config 0 cs) as Ht by (apply Cdc.cdc_tiles; auto with lia).
  destruct (buffer_room _ _ _ _ _ _ Hfit Ht) as [Hlen Hroom].
  pose proof (tiles_chunk_ok data 0 cs ltac:(lia) Ht) as Hall.
  set (raws := Cdc.chunk_bytes data <$> cs) in *.
  destruct (store_pending s A raws _ HI Hroom eq_refl) as [Hrun Hinv].
  subst raws. rewrite selected_pending_batch in Hrun, Hinv by done.
  set (m := manifest_of name version data drv cs).
  assert (manifest_wf m) as Hwf.
  { destruct Hfit. split; cbn; auto; [lia|by rewrite length_fmap|].
    apply Forall_fmap. eapply Forall_impl; [exact Hall|]. intros c (Hh & _). cbn. rewrite Hh.
    apply blake3_length. }
  set (s1 := match selected (cs_state s) ∅ cs with
             | [] => s
             | _ => after_pack s (item_of <$> (Cdc.chunk_bytes data <$> selected (cs_state s) ∅ cs))
             end).
  assert (Inv s1 (with_chunks A (Cdc.chunk_bytes data <$> cs))) as Hinv1.
  { subst s1. destruct (selected _ _ _); exact Hinv. }
  destruct (put_manifest_ok s1 _ m Hinv1 Hwf) as (s' & Hput & Hinv' & Hst & Hpk).
  { intros d Hd. cbn in Hd. rewrite (hashes_of_pieces data cs Hall) in Hd.
    apply list_elem_of_fmap in Hd as (raw & -> & Hin). by apply add_chunks_elem. }
  exists s'. split; [|split; [done|]].
  - unfold put_buffer, mbind, st_bind, st_lift, st_get, mret, st_ret. rewrite Hcs.
    pose proof (put_new_chunks_eq data (cs_state s) cs s Hall) as Heq. rewrite Hrun in Heq.
    rewrite selected_pending_new in Heq |- *. subst s1.
    destruct (selected (cs_state s) ∅ cs) as [|c l]; cbn [fmap list_fmap] in *; [|rewrite Heq];
      subst m; unfold manifest_of in *; cbn [fmap list_fmap] in *; by rewrite Hput.
  - rewrite selected_pending_new. intros Hp%fmap_nil_inv. subst s1. by rewrite Hp in Hst, Hpk.
Qed.

(** *** Round trip and deduplication *)

(** No payload of the new chunks shares its digest with a different one,
    among themselves or with a stored chunk. *)
Definition no_clash (A : Abs) (raws : list bytes) : Prop :=
  collision_free raws ∧
  ∀ raw x, raw ∈ raws → a_chunks A !! blake3 raw = Some x → x = raw.

Lemma add_chunks_no_clash A raws raw :
  no_clash A raws → raw ∈ raws → add_chunks (a_chunks A) raws !! blake3 raw = Some raw.
Proof.
  intros [Hcf Hold] Hin. destruct (add_chunks_elem (a_chunks A) raws raw Hin) as [x Hx].
  rewrite Hx. f_equal. apply add_chunks_inv in Hx as [Hx|[Hx Heq]]; [by apply Hold|].
  symmetry. by apply Hcf.
Qed.

(** The abstract effect: the chunks of the payload and its manifest are
    there afterwards, and nothing is lost. *)
Lemma put_buffer_stored `{!Blake3Laws, !Lz4Laws} s A name version data drv :
  Inv s A → buffer_fits s name version data drv →
  (∀ cs, Cdc.chunk_payload data Cdc.default_config = Ok cs →
         no_clash A (Cdc.chunk_bytes data <$> cs)) →
  ∃ s' A' cs, let m := manifest_of name version data drv cs in let raws := Cdc.chunk_bytes data <$> cs in
    Cdc.chunk_payload data Cdc.default_config = Ok cs ∧ put_buffer name version data drv s = (s', Ok m) ∧ Inv s' A' ∧
    a_manifests A' !! identity_digest m = Some m ∧
    Forall2 (λ c raw, a_chunks A' !! c = Some raw) (m_chunks m) raws ∧ concat raws = data ∧
    ∀ d raw, a_chunks A !! d = Some raw → a_chunks A' !! d = Some raw.
Proof.
  intros HI Hfit Hclash.
  assert (Cdc.valid_config Cdc.default_config) as Hv by (by apply Cdc.validate_spec).
  destruct (Cdc.chunk_payload_tiles data Cdc.default_config Hv) as (cs & Hcs & Ht & Hcat).
  specialize (Hclash cs Hcs).
  destruct (put_buffer_run s A name version data drv cs HI Hfit Hcs) as (s' & Hrun & Hinv & _).
  pose proof (tiles_chunk_ok data 0 cs ltac:(lia) Ht) as Hall.
  exists s', (add_manifest (with_chunks A (Cdc.chunk_bytes data <$> cs)) (manifest_of name version data drv cs)), cs.
  split; [exact Hcs|]. split; [exact Hrun|]. split; [exact Hinv|]. split; [apply lookup_insert_eq|]. split; [|split; [done|]].
  - cbn [add_manifest with_chunks a_chunks manifest_of m_chunks].
    rewrite (hashes_of_pieces data cs Hall). apply Forall2_fmap_l, Forall_Forall2_diag.
    apply Forall_forall. intros raw Hraw. by apply add_chunks_no_clash.
  - intros d raw E. by apply add_chunks_lookup_Some.
Qed.

(** C2. What goes in comes out: [put_buffer] succeeds whenever the format
    has room and the store holds no other bytes under a digest of the payload's
    chunks, keeps the store invariant, and afterwards the manifest is found
    under its identity and reassembles to exactly the ingested buffer, while
    every chunk that was readable before still reads the same. *)
Theorem put_buffer_roundtrip `{!Blake3Laws, !Lz4Laws} s A name version data drv :
  Inv s A → buffer_fits s name version data drv →
  (∀ cs, Cdc.chunk_payload data Cdc.default_config = Ok cs →
         no_clash A (Cdc.chunk_bytes data <$> cs)) →
  ∃ s' m A', put_buffer name version data drv s = (s', Ok m) ∧ Inv s' A' ∧
    m_name m = name ∧ m_version m = version ∧ m_drv_hash m = drv ∧
    get_manifest s' (identity_digest m) = Ok m ∧
    read_assembled s' m = Ok data ∧
    (∀ d raw, get_chunk s d = Ok raw → get_chunk s' d = Ok raw).
Proof.
  intros HI Hfit Hclash.
  destruct (put_buffer_stored s A name version data drv HI Hfit Hclash) as (s' & A' & cs & _ & Hrun & Hinv & Hm & Hall & Hcat & Hkeep).
  do 3 eexists. split; [exact Hrun|]. split; [exact Hinv|]. split_and!; [done..| | |].
  - by eapply get_manifest_ok.
  - rewrite <- Hcat at 2. eapply read_assembled_ok; [exact Hinv|exact Hall|by rewrite Hcat|destruct Hfit; cbn; lia].
  - intros d raw Hd. destruct (a_chunks A !! d) as [raw'|] eqn:E.
    + rewrite (inv_get_chunk _ _ _ _ HI E) in Hd. simplify_eq. eapply inv_get_chunk; [exact Hinv|by apply Hkeep].
    + by rewrite (inv_get_chunk_none _ _ _ HI E) in Hd.
Qed.

Lemma pending_new_nil map seen cs :
  (∀ c, c ∈ cs → is_Some (map !! Cdc.ck_hash c)) → pending_new map seen cs = [].
Proof.
  induction cs as [|c cs IH]; intros Hc; cbn [pending_new]; [done|].
  rewrite (bool_decide_eq_true_2 (is_Some _)) by (apply Hc; set_solver). cbn [orb].
  apply IH. set_solver.
Qed.

(** Ingesting a payload a second time, under any name and version, writes
    no pack and no index entry: only the manifest directory changes. *)
Theorem put_buffer_dedup `{!Blake3Laws, !Lz4Laws} s A n1 v1 n2 v2 data d1 d2 s1 r1 :
  Inv s A → buffer_fits s n1 v1 data d1 →
  put_buffer n1 v1 data d1 s = (s1, r1) → buffer_fits s1 n2 v2 data d2 →
  ∃ s2 m2, put_buffer n2 v2 data d2 s1 = (s2, Ok m2) ∧
           cs_state s2 = cs_state s1 ∧ d_packs (cs_disk s2) = d_packs (cs_disk s1).
Proof.
  intros HI Hfit Hput Hfit1.
  assert (Cdc.valid_config Cdc.default_config) as Hv by (by apply Cdc.validate_spec).
  destruct (Cdc.chunk_payload_tiles data Cdc.default_config Hv) as (cs & Hcs & Ht & _).
  pose proof (tiles_chunk_ok data 0 cs ltac:(lia) Ht) as Hall.
  destruct (put_buffer_run s A n1 v1 data d1 cs HI Hfit Hcs) as (s1' & Hrun & Hinv & _).
  rewrite Hput in Hrun. simplify_eq.
  destruct (put_buffer_run _ _ n2 v2 data d2 cs Hinv Hfit1 Hcs) as (s2 & Hrun2 & _ & Hsame).
  exists s2, (manifest_of n2 v2 data d2 cs). split; [done|]. apply Hsame, pending_new_nil.
  intros c Hc. apply (inv_dom _ _ Hinv). cbn.
  eapply Forall_forall in Hall as (Hh & _); [|exact Hc]. rewrite Hh.
  apply add_chunks_elem, list_elem_of_fmap. by exists c.
Qed.
End buffer.

Section witnesses.
#[local] Existing Instance toy_blake3.
#[local] Existing Instance toy_lz4.

Lemma demo_fits s :
  Z.of_nat (size (cs_state s)) ≤ 1 → cs_next_pack_id s ≤ 1 →
  buffer_fits s (str "a") (str "1") (str "hello") None.
Proof. intros Hs Hn. split; try done; lia. Qed.

Lemma put_buffer_roundtrip_witness :
  ∃ s' m A', put_buffer (str "a") (str "1") (str "hello") None store0 = (s', Ok m) ∧ Inv s' A' ∧
    m_name m = str "a" ∧ m_version m = str "1" ∧ m_drv_hash m = None ∧
    get_manifest s' (identity_digest m) = Ok m ∧ read_assembled s' m = Ok (str "hello") ∧
    (∀ d raw, get_chunk store0 d = Ok raw → get_chunk s' d = Ok raw).
Proof.
  apply (@put_buffer_roundtrip _ _ toy_blake3_laws toy_lz4_laws store0 abs_empty);
    [apply inv_empty|by apply demo_fits|].
  intros cs Hcs. vm_compute in Hcs. injection Hcs as <-. split.
  - intros a b ->%list_elem_of_singleton ->%list_elem_of_singleton _. reflexivity.
  - intros raw x _ Hx. cbn in Hx. by rewrite lookup_empty in Hx.
Defined.

Lemma put_buffer_dedup_witness :
  ∃ s2 m2, put_buffer (str "a") (str "1") (str "hello") None
             (put_buffer (str "a") (str "1") (str "hello") None store0).1 = (s2, Ok m2) ∧
           cs_state s2 = cs_state (put_buffer (str "a") (str "1") (str "hello") None store0).1 ∧
           d_packs (cs_disk s2) =
           d_packs (cs_disk (put_buffer (str "a") (str "1") (str "hello") None store0).1).
Proof.
  apply (@put_buffer_dedup _ _ toy_blake3_laws toy_lz4_laws store0 abs_empty
           (str "a") (str "1") (str "a") (str "1") (str "hello") None None _
           (put_buffer (str "a") (str "1") (str "hello") None store0).2);
    [apply inv_empty|by apply demo_fits|apply surjective_pairing|].
  apply demo_fits; vm_compute; discriminate.
Defined.
End witnesses.

End StoreBuffer.
