(* ===== verification/StoreGc.v ===== *)
(** * Integrity, reopening and garbage collection

    What every read guarantees whatever the disk holds; that reopening a store
    finds the state that was closed; that the compacting collector keeps
    exactly the chunks the manifests reference. Module [StoreReach]: any run of
    the operations keeps a store consistent. *)

From stdpp Require Import relations.
From S2P Require Import Prelude Cas Chunker Compression Cursor Manifest Text Disk Store StoreSpec StoreOps StoreBuffer.
Import Hex Manifest Store StoreSpec StoreOps StoreBuffer.

Module StoreGc.

(** ** Reads never return tampered bytes *)
Section integrity.
Context `{Blake3} `{Lz4}.

Lemma get_chunk_digest s d raw : get_chunk s d = Ok raw → blake3 raw = d.
Proof.
  unfold get_chunk. intros Hg. bind_inv. case_if_in Hg. bind_inv. case_if_in Hg. bind_inv.
  case_if_in Hg. case_bool_decide; by simplify_eq.
Qed.

Lemma get_chunk_no_panic s d : get_chunk s d ≠ Panic.
Proof.
  unfold get_chunk, read_exact, Compression.decompress. no_panic.
Qed.

Lemma read_fold_spec s cs out r :
  foldM (λ out c, raw ← get_chunk s c; Ok (out ++ raw)) out cs = r →
  match r with
  | Ok out' => ∃ raws, blake3 <$> raws = cs ∧ out' = out ++ concat raws
  | Err _ => True
  | Panic => False
  end.
Proof.
  intros <-. revert out; induction cs as [|c cs IH]; intros out; cbn [foldM].
  { exists []. by rewrite app_nil_r. }
  destruct (get_chunk s c) as [raw|e|] eqn:E; cbn [mbind res_bind]; [|done|].
  - specialize (IH (out ++ raw)). destruct (foldM _ _ cs); [|done..].
    destruct IH as (raws & <- & ->). exists (raw :: raws). rewrite fmap_cons. cbn [concat].
    by rewrite (get_chunk_digest _ _ _ E), <-app_assoc.
  - by apply get_chunk_no_panic in E.
Qed.

(** A payload certified by its manifest: made of chunks with exactly the
    manifest's digests, in order, and of the manifest's size. *)
Definition certified (m : Manifest) (out : bytes) : Prop :=
  ∃ raws, blake3 <$> raws = m_chunks m ∧ out = concat raws ∧ Zlen out = m_total_size m.

(** Reads are self-certifying whatever the disk and the index hold:
    a chunk that is returned hashes to the digest asked for, an assembled
    payload is made of chunks with exactly the manifest's digests in order
    and has the manifest's size; anything else is an error value, and the
    only panic is the allocation of a payload above [isize::MAX]. *)
Theorem read_integrity s d m :
  match get_chunk s d with Ok raw => blake3 raw = d | Err _ => True | Panic => False end ∧
  match read_assembled s m with
  | Ok out => certified m out
  | Err _ => True
  | Panic => 2 ^ 63 ≤ m_total_size m
  end.
Proof.
  split.
  - destruct (get_chunk s d) eqn:E; [by apply get_chunk_digest in E|done|].
    by apply get_chunk_no_panic in E.
  - unfold read_assembled. destruct (Z.leb_spec (2 ^ 63) (m_total_size m)) as [|Hcap]; [done|].
    destruct (foldM _ _ _) as [out|e|] eqn:E; apply read_fold_spec in E; cbn [mbind res_bind]; [|done..].
    destruct E as (raws & Hr & ->). cbn [app].
    destruct (Z.eqb_spec (Zlen (concat raws)) (m_total_size m)); cbn [negb]; [|done].
    by exists raws.
Qed.
End integrity.

(** ** Reopening *)
Lemma pack_path_parse id :
  0 ≤ id < 2 ^ 32 →
  (rest ← strip_prefix (str "p-") (pack_path id); strip_suffix (str ".pack") rest) = Some (format08 id).
Proof. intros Hid. unfold pack_path. rewrite strip_prefix_app. cbn [mbind option_bind]. apply strip_suffix_app. Qed.

Lemma scan_pack_ids_spec names N next :
  N < 2 ^ 32 → Forall (λ n, ∃ id, 0 ≤ id < N ∧ n = pack_path id) names →
  ∃ next', scan_pack_ids names next = Ok next' ∧ next ≤ next' ≤ Z.max next N ∧
           ∀ id, 0 ≤ id < N → pack_path id ∈ names → id < next'.
Proof.
  intros HN Hall. revert next; induction Hall as [|n names (id & Hid & ->) Hall IH]; intros next.
  { exists next. split; [done|]. split; [lia|]. intros id _ Hin. by apply not_elem_of_nil in Hin. }
  cbn [scan_pack_ids]. rewrite pack_path_parse, parse_format08 by lia.
  destruct (Z.eqb_spec (id + 1) (2 ^ 32)); [lia|].
  destruct (IH (Z.max next (id + 1))) as (next' & -> & Hb & Hin). exists next'.
  split; [done|]. split; [lia|]. intros id' Hid' [Heq|Hin']%elem_of_cons; [|by apply Hin].
  apply pack_path_inj in Heq; lia.
Qed.

Section reopen.
Context `{Blake3} `{Lz4}.

Lemma reopen_ok s A :
  Inv s A →
  ∃ s', open (cs_disk s) = Ok s' ∧ cs_state s' = cs_state s ∧ cs_disk s' = cs_disk s ∧ Inv s' A.
Proof.
  intros HI. destruct (scan_pack_ids_spec (map_to_list (d_packs (cs_disk s))).*1
                         (cs_next_pack_id s) 0) as (next & Hscan & Hb & Hin).
  { apply HI. }
  { apply Forall_forall. intros n ([n' c] & -> & Hin)%list_elem_of_fmap.
    apply elem_of_map_to_list in Hin. apply (inv_packs _ _ HI). by eexists. }
  assert (match d_index (cs_disk s) !! index_name with Some buf => load_index buf | None => Ok ∅ end
          = Ok (cs_state s)) as Hload.
  { destruct (inv_index _ _ HI) as [-> | [-> ->]]; [|done]. apply load_encode_index; [|apply HI].
    intros d e He. by destruct (inv_entry _ _ HI d e He) as (raw & _ & _ & _ & Hf). }
  unfold open. rewrite Hload. unfold scan_next_pack_id. cbn [mbind res_bind]. rewrite Hscan.
  eexists. split; [done|]. split; [done|]. split; [done|].
  split; cbn [cs_state cs_disk cs_next_pack_id]; try apply HI.
  - pose proof (inv_next _ _ HI). lia.
  - intros name Hn. destruct (inv_packs _ _ HI name Hn) as (id & Hid & ->). exists id.
    split; [|done]. split; [lia|]. apply Hin; [done|]. destruct Hn as [c Hc].
    apply list_elem_of_fmap. exists (pack_path id, c). split; [done|]. by apply elem_of_map_to_list.
Qed.

(** Two handles on the same store: same index, same directory. *)
Definition same_store (s s' : ChunkStore) : Prop :=
  cs_state s' = cs_state s ∧ cs_disk s' = cs_disk s.

(** Reopening is faithful: opening the directory of any store that meets
    the invariant succeeds and gives a store with the same index, the same
    disk and the same abstract contents, whatever was done before. *)
Theorem reopen_refines s A :
  Inv s A →
  ∃ s', open (cs_disk s) = Ok s' ∧ same_store s s' ∧ Inv s' A.
Proof. intros (s' & ? & ? & ? & ?)%reopen_ok. by exists s'. Qed.
End reopen.

(** ** The manifest directory *)
Section listing.
Context `{Blake3} `{Lz4}.

Lemma inv_names s A :
  Inv s A →
  ∃ ids, (map_to_list (d_manifests (cs_disk s))).*1 = manifest_path <$> ids ∧
         ∀ id, id ∈ ids ↔ is_Some (a_manifests A !! id).
Proof.
  intros HI. set (l := map_to_list (d_manifests (cs_disk s))).
  assert (Forall (λ n, ∃ id, is_Some (a_manifests A !! id) ∧ n = manifest_path id) l.*1) as Hall.
  { apply Forall_forall. intros n ([n' c] & -> & Hin)%list_elem_of_fmap.
    apply elem_of_map_to_list in Hin. destruct (inv_files _ _ HI n' c Hin) as (id & m & Hm & -> & _).
    exists id. by rewrite Hm. }
  assert (∃ ids, l.*1 = manifest_path <$> ids ∧ Forall (λ id, is_Some (a_manifests A !! id)) ids)
    as (ids & Hids & Hsome).
  { induction Hall as [|n names (id & Hs & ->) _ (ids & -> & IH)]; [by exists []|].
    exists (id :: ids). split; [done|]. by constructor. }
  exists ids. split; [done|]. intros id. split.
  { revert id. by apply Forall_forall. }
  intros [m Hm]. destruct (inv_manifest _ _ HI id m Hm) as (Hf & _).
  assert (manifest_path id ∈ l.*1) as Hin.
  { apply list_elem_of_fmap. exists (manifest_path id, encode_signed m). split; [done|].
    by apply elem_of_map_to_list. }
  rewrite Hids in Hin. apply list_elem_of_fmap in Hin as (id' & Heq%manifest_path_inj & Hin). by subst.
Qed.

Lemma list_fold out ids :
  Forall (λ id, length id = 32%nat) ids →
  foldM (λ out name, match strip_suffix (str ".mfx") name with
                     | Some stem => d ← unhex stem; Ok (out ++ [d])
                     | None => Ok out
                     end) out (manifest_path <$> ids) = (Ok (out ++ ids) : res CasError _).
Proof.
  intros Hl. revert out; induction Hl as [|id ids Hid Hl IH]; intros out.
  { cbn. by rewrite app_nil_r. }
  rewrite fmap_cons. cbn [foldM]. 
  rewrite (strip_suffix_app (str ".mfx") (hex id) : strip_suffix _ (manifest_path id) = _).
  rewrite unhex_hex by done.
  cbn [mbind res_bind]. rewrite IH. by rewrite <-app_assoc.
Qed.

Lemma list_manifests_ok `{!Blake3Laws} s A :
  Inv s A →
  ∃ ids, list_manifests s = Ok ids ∧ ∀ id, id ∈ ids ↔ is_Some (a_manifests A !! id).
Proof.
  intros HI. destruct (inv_names s A HI) as (ids & Hn & Hids).
  exists (merge_sort digest_le ids). unfold list_manifests. rewrite Hn, list_fold.
  - split; [done|]. intros id. by rewrite merge_sort_Permutation.
  - apply Forall_forall. intros id [m Hm]%Hids.
    destruct (inv_manifest _ _ HI id m Hm) as (_ & _ & <- & _). apply blake3_length.
Qed.

(** *** The live set *)
Definition live_of (A : Abs) : gset bytes :=
  ⋃ ((λ kv, list_to_set (m_chunks kv.2)) <$> map_to_list (a_manifests A)).

Lemma elem_of_live A d :
  d ∈ live_of A ↔ ∃ id m, a_manifests A !! id = Some m ∧ d ∈ m_chunks m.
Proof.
  unfold live_of. rewrite elem_of_union_list. split.
  - intros (X & ([id m] & -> & Hin)%list_elem_of_fmap & Hd). apply elem_of_map_to_list in Hin.
    exists id, m. split; [done|]. by apply elem_of_list_to_set in Hd.
  - intros (id & m & Hm & Hd). exists (list_to_set (m_chunks m)). split; [|by apply elem_of_list_to_set].
    apply list_elem_of_fmap. exists (id, m). split; [done|]. by apply elem_of_map_to_list.
Qed.

Lemma live_fold (s : ChunkStore) (A : Abs) (ids : list bytes) (live : gset bytes) :
  Inv s A → Forall (λ id, is_Some (a_manifests A !! id)) ids →
  ∃ L : gset bytes, foldM (λ live id, m ← get_manifest s id; Ok (live ∪ list_to_set (m_chunks m))) live ids = Ok L ∧
       ∀ d, d ∈ L ↔ d ∈ live ∨ ∃ id m, id ∈ ids ∧ a_manifests A !! id = Some m ∧ d ∈ m_chunks m.
Proof.
  intros HI Hall. revert live; induction Hall as [|id ids [m Hm] Hall IH]; intros live; cbn [foldM].
  { exists live. split; [done|]. intros d. split; [by left|]. intros [?|(? & ? & Hin & _)]; [done|].
    by apply not_elem_of_nil in Hin. }
  rewrite (get_manifest_ok s A id m HI Hm). cbn [mbind res_bind].
  destruct (IH (live ∪ list_to_set (m_chunks m))) as (L & -> & HL). exists L. split; [done|].
  intros d. rewrite HL, elem_of_union, elem_of_list_to_set. split.
  - intros [[?|?]|(id' & m' & ? & ?)]; [by left|right; exists id, m|right; exists id', m'];
      rewrite elem_of_cons; auto.
  - intros [?|(id' & m' & [-> |?]%elem_of_cons & Hm' & ?)]; [by left; left|left; right|right];
      [congruence|by exists id', m'].
Qed.

Lemma live_set_ok `{!Blake3Laws} s A : Inv s A → live_set s = Ok (live_of A).
Proof.
  intros HI. destruct (list_manifests_ok s A HI) as (ids & Hl & Hids).
  destruct (live_fold s A ids ∅ HI) as (L & HL & Hd).
  { apply Forall_forall. intros id Hin. by apply Hids. }
  unfold live_set. rewrite Hl. cbn [mbind res_bind]. rewrite HL. f_equal. apply leibniz_equiv.
  intros d. rewrite Hd, elem_of_live. split.
  - intros [Hn|(id & m & _ & ?)]; [set_solver|by exists id, m].
  - intros (id & m & Hm & ?). right. exists id, m. split; [|done]. apply Hids. by eexists.
Qed.
End listing.

(** ** Compaction *)
Section compaction.
Context `{Blake3} `{Lz4}.

Definition raw_of (A : Abs) (d : bytes) : bytes := default [] (a_chunks A !! d).

Definition gc_item (A : Abs) (kv : bytes * ChunkEntry) : bytes * Z * bytes :=
  (kv.1, ce_raw_len kv.2, raw_of A kv.1).

(** Reading old packs while the compaction pack grows. *)
Lemma gc_fold s A keep c off es :
  Inv s A → (∀ kv, kv ∈ keep → cs_state s !! kv.1 = Some kv.2) →
  st_foldl (λ acc '(digest, entry),
    raw ← st_try (λ s, get_chunk s digest);
    write_chunk tmp_pack_name 0 acc (digest, ce_raw_len entry, raw)) (off, es) keep
    (set_packs (<[tmp_pack_name := c]> (d_packs (cs_disk s))) s) =
  st_foldl (write_chunk tmp_pack_name 0) (off, es) (gc_item A <$> keep)
    (set_packs (<[tmp_pack_name := c]> (d_packs (cs_disk s))) s).
Proof.
  intros HI. revert c off es; induction keep as [|[d e] keep IH]; intros c off es Hk; [done|].
  rewrite fmap_cons, !st_foldl_cons. rewrite write_chunk_spec.
  assert (cs_state s !! d = Some e) as He by (apply (Hk (d, e)); by left).
  destruct (inv_entry _ _ HI d e He) as (raw & Hr & Hh & Hok & Hf).
  assert (get_chunk (set_packs (<[tmp_pack_name := c]> (d_packs (cs_disk s))) s) d = Ok raw) as Hg.
  { eapply get_chunk_ok; [exact He| |exact Hf|exact Hh]. eapply entry_ok_frame; [|exact Hok].
    apply lookup_insert_ne, tmp_pack_not_pack. }
  unfold mbind at 1, st_bind at 1, st_try at 1. rewrite Hg, write_chunk_spec.
  assert (gc_item A (d, e) = (d, ce_raw_len e, raw)) as ->.
  { unfold gc_item, raw_of. cbn [fst snd]. by rewrite Hr. }
  apply IH. intros kv Hkv. apply Hk. by right.
Qed.

Definition after_gc (s : ChunkStore) (items : list (bytes * Z * bytes)) : ChunkStore :=
  let map := insert_all ∅ (item_entries 0 0 items) in
  {| cs_disk := {| d_packs := {[ pack_path 0 := concat (item_frame <$> items) ]};
                   d_index := atomic_write index_name (encode_index map) (d_index (cs_disk s));
                   d_manifests := d_manifests (cs_disk s) |};
     cs_state := map; cs_next_pack_id := 1 |}.

Lemma is_pack_path id : is_pack (pack_path id) = true.
Proof.
  unfold is_pack, pack_path. rewrite strip_prefix_app. rewrite app_assoc, strip_suffix_app. done.
Qed.

Lemma elem_of_pack_paths s n :
  n ∈ pack_paths s ↔ is_pack n = true ∧ is_Some (d_packs (cs_disk s) !! n).
Proof.
  unfold pack_paths. rewrite merge_sort_Permutation, list_elem_of_filter, list_elem_of_fmap.
  split; intros [Hp Hn]; (split; [done|]).
  - destruct Hn as ([n' c] & -> & Hin). apply elem_of_map_to_list in Hin. by eexists.
  - destruct Hn as [c Hc]. exists (n, c). split; [done|]. by apply elem_of_map_to_list.
Qed.

Lemma delete_packs_lookup (old : list bytes) (d : dir) n :
  foldr (λ p d, if decide (p = pack_path 0) then d else delete p d) d old !! n =
  if decide (n ∈ old ∧ n ≠ pack_path 0) then None else d !! n.
Proof.
  induction old as [|p old IH]; cbn [foldr].
  { rewrite decide_False; [done|]. intros [Hn _]. by apply not_elem_of_nil in Hn. }
  destruct (decide (p = pack_path 0)) as [->|Hp].
  - rewrite IH. apply decide_ext. rewrite elem_of_cons. naive_solver.
  - destruct (decide (p = n)) as [->|Hne].
    + rewrite lookup_delete_eq, decide_True; [done|]. split; [by left|done].
    + rewrite lookup_delete_ne, IH by done. apply decide_ext. rewrite elem_of_cons. naive_solver.
Qed.

(** Dropping the old packs and renaming the compaction pack leaves one file. *)
Lemma swap_packs s A c :
  Inv s A →
  let s' := set_packs (<[tmp_pack_name := c]> (d_packs (cs_disk s))) s in
  <[pack_path 0 := c]> (delete tmp_pack_name
    (foldr (λ p d, if decide (p = pack_path 0) then d else delete p d)
       (d_packs (cs_disk s')) (pack_paths s'))) = {[ pack_path 0 := c ]}.
Proof.
  intros HI s'. apply map_eq. intros n. destruct (decide (n = pack_path 0)) as [->|Hn].
  { by rewrite lookup_insert_eq, lookup_singleton_eq. }
  rewrite lookup_insert_ne, lookup_singleton_ne by done.
  destruct (decide (n = tmp_pack_name)) as [->|Ht]; [by rewrite lookup_delete_eq|].
  rewrite lookup_delete_ne, delete_packs_lookup by done.
  destruct (decide _) as [|Hno]; [done|].
  destruct (d_packs (cs_disk s') !! n) as [x|] eqn:E; [|done]. exfalso. apply Hno. split; [|done].
  apply elem_of_pack_paths. split; [|by rewrite E]. cbn in E. rewrite lookup_insert_ne in E by done.
  destruct (inv_packs _ _ HI n) as (id & _ & ->); [by eexists|]. apply is_pack_path.
Qed.

Lemma gc_swap_run s A items :
  Inv s A →
  gc_swap (insert_all ∅ (item_entries 0 0 items))
    (set_packs (<[tmp_pack_name := concat (item_frame <$> items)]> (d_packs (cs_disk s))) s) =
  (after_gc s items, Ok ()).
Proof.
  intros HI. pose proof (swap_packs s A (concat (item_frame <$> items)) HI) as Hswap. cbv zeta in Hswap.
  unfold gc_swap, rename_pack, persist_index_locked, st_put, st_get, mbind, st_bind.
  match goal with |- context [foldr ?f ?d ?l] => set (Q := foldr f d l) end.
  change (<[pack_path 0 := concat (item_frame <$> items)]> (delete tmp_pack_name Q) =
          {[ pack_path 0 := concat (item_frame <$> items) ]}) in Hswap.
  assert (Q !! tmp_pack_name = Some (concat (item_frame <$> items))) as Ht.
  { subst Q. rewrite delete_packs_lookup. rewrite decide_False.
    - cbn. by rewrite lookup_insert_eq.
    - rewrite elem_of_pack_paths. by intros [[? _] _]. }
  cbn [set_packs set_state set_index set_next cs_disk d_packs d_index d_manifests cs_state cs_next_pack_id].
  rewrite Ht. cbn [set_packs set_state set_index set_next cs_disk d_packs d_index d_manifests cs_state cs_next_pack_id].
  rewrite Hswap. reflexivity.
Qed.

(** *** The collector *)
Definition gc_abs (A : Abs) : Abs :=
  {| a_chunks := filter (λ kv, kv.1 ∈ live_of A) (a_chunks A); a_manifests := a_manifests A |}.

Definition kept (s : ChunkStore) (A : Abs) : list (bytes * ChunkEntry) :=
  filter (λ kv, kv.1 ∈ live_of A) (map_to_list (cs_state s)).

Definition gc_items (s : ChunkStore) (A : Abs) : list (bytes * Z * bytes) :=
  gc_item A <$> merge_sort key_le (kept s A).

Definition dead_of (s : ChunkStore) (A : Abs) : Z :=
  Zlen (map_to_list (cs_state s)) - Zlen (kept s A).

Lemma elem_of_kept s A kv :
  kv ∈ merge_sort key_le (kept s A) ↔ kv.1 ∈ live_of A ∧ cs_state s !! kv.1 = Some kv.2.
Proof.
  unfold kept. rewrite merge_sort_Permutation, list_elem_of_filter. destruct kv as [d e].
  by rewrite elem_of_map_to_list.
Qed.

Lemma gc_run `{!Blake3Laws} s A :
  Inv s A →
  ∃ r, gc s = (if dead_of s A =? 0 then s else after_gc s (gc_items s A), Ok r) ∧
       gr_live_chunks r = Z.of_nat (size (live_of A)) ∧ gr_dead_chunks r = dead_of s A.
Proof.
  intros HI. unfold gc, mbind, st_bind, st_try at 1, st_get. rewrite (live_set_ok s A HI).
  fold (kept s A). fold (dead_of s A). cbn zeta.
  destruct (Z.eqb_spec (dead_of s A) 0) as [Hz|_].
  { eexists. split; [done|]. split; [done|]. by rewrite Hz. }
  assert (d_packs (cs_disk s) !! tmp_pack_name = None) as Hfree.
  { destruct (d_packs (cs_disk s) !! tmp_pack_name) eqn:E; [|done].
    destruct (inv_packs _ _ HI tmp_pack_name) as (id & _ & Hc); [by eexists|]. by apply tmp_pack_not_pack in Hc. }
  unfold create_new. rewrite Hfree.
  rewrite (gc_fold s A (merge_sort key_le (kept s A)) [] 0 [] HI) by (intros kv ?%elem_of_kept; naive_solver).
  fold (gc_items s A). rewrite write_chunks_spec. cbn [app]. rewrite (gc_swap_run s A) by done.
  by eexists.
Qed.

(** *** Sizes of the compacted pack *)
Definition abs_weight (A : Abs) : Z := weight (map_to_list (a_chunks A)).*2.

Lemma weight_perm l k : l ≡ₚ k → weight l = weight k.
Proof. induction 1; cbn; lia. Qed.

Lemma inv_keys_perm s A : Inv s A → (map_to_list (a_chunks A)).*1 ≡ₚ (map_to_list (cs_state s)).*1.
Proof.
  intros HI. apply NoDup_Permutation; [apply NoDup_fst_map_to_list..|]. intros d.
  rewrite !list_elem_of_fmap. pose proof (inv_dom_iff s A d HI) as Hd. split.
  - intros ([d' x] & -> & Hin%elem_of_map_to_list). cbn [fst] in *.
    destruct (inv_dom _ _ HI d') as [e He]; [by eexists|]. exists (d', e).
    split; [done|]. by apply elem_of_map_to_list.
  - intros ([d' e] & -> & Hin%elem_of_map_to_list). cbn [fst] in *.
    destruct (inv_entry _ _ HI d' e Hin) as (raw & Hr & _). exists (d', raw).
    split; [done|]. by apply elem_of_map_to_list.
Qed.

Lemma raw_of_values A : (map_to_list (a_chunks A)).*2 = raw_of A <$> (map_to_list (a_chunks A)).*1.
Proof.
  rewrite <-list_fmap_compose. apply list_fmap_ext. intros i [d x] Hi%list_elem_of_lookup_2.
  apply elem_of_map_to_list in Hi. unfold raw_of. cbn. by rewrite Hi.
Qed.

Lemma gc_weight s A : Inv s A → weight ((λ it, it.2) <$> gc_items s A) ≤ abs_weight A.
Proof.
  intros HI. unfold abs_weight. rewrite raw_of_values.
  rewrite (weight_perm (raw_of A <$> (map_to_list (a_chunks A)).*1)
                       (raw_of A <$> (map_to_list (cs_state s)).*1)) by (by rewrite inv_keys_perm).
  unfold gc_items. rewrite <-!list_fmap_compose.
  rewrite (weight_perm _ ((raw_of A ∘ fst) <$> kept s A)).
  2:{ rewrite merge_sort_Permutation. apply Permutation_refl'. by apply list_fmap_ext. }
  apply weight_sublist, fmap_sublist, sublist_filter.
Qed.

Lemma frames_weight_items (items : list (bytes * Z * bytes)) :
  Zlen (concat (item_frame <$> items)) ≤ weight ((λ it, it.2) <$> items).
Proof.
  etrans; [|apply frames_weight]. apply Z.eq_le_incl. do 3 f_equal.
  rewrite <-!list_fmap_compose. by apply list_fmap_ext.
Qed.

Lemma gc_items_ok s A : Inv s A → Forall item_ok (gc_items s A).
Proof.
  intros HI. apply Forall_fmap, Forall_forall. intros [d e] [_ He]%elem_of_kept. cbn [fst snd] in He.
  destruct (inv_entry _ _ HI d e He) as (raw & Hr & Hh & (comp & pre & post & _ & _ & _ & _ & Hl) & Hf).
  unfold compose, item_ok, gc_item, raw_of. cbn [fst snd]. rewrite Hr. cbn [default].
  destruct Hf as [_ _ _ _ Hraw]. cbn in Hraw. split_and!; [done..|]. cbn. lia.
Qed.

Lemma gc_items_elem s A d :
  Inv s A → d ∈ (λ it : bytes * Z * bytes, it.1.1) <$> gc_items s A ↔
            d ∈ live_of A ∧ is_Some (a_chunks A !! d).
Proof.
  intros HI. unfold gc_items. rewrite <-list_fmap_compose, list_elem_of_fmap. split.
  - intros ([d' e] & -> & [Hl He]%elem_of_kept). split; [done|]. cbn in *.
    destruct (inv_entry _ _ HI d' e He) as (raw & Hr & _). by eexists.
  - intros [Hl Hd]. destruct (inv_dom _ _ HI d Hd) as [e He]. exists (d, e). split; [done|].
    by apply elem_of_kept.
Qed.

Lemma gc_items_nodup s A : NoDup ((λ it : bytes * Z * bytes, it.1.1) <$> gc_items s A).
Proof.
  unfold gc_items. rewrite <-list_fmap_compose.
  change (NoDup (merge_sort key_le (kept s A)).*1).
  rewrite merge_sort_Permutation. eapply sublist_NoDup; [apply (NoDup_fst_map_to_list (cs_state s))|].
  apply fmap_sublist, sublist_filter.
Qed.

Lemma gc_items_raw s A d raw :
  Inv s A → (d, Zlen raw, raw) ∈ gc_items s A → d ∈ live_of A ∧ a_chunks A !! d = Some raw.
Proof.
  intros HI Hin. assert (d ∈ (λ it : bytes * Z * bytes, it.1.1) <$> gc_items s A) as Hd.
  { apply list_elem_of_fmap. by exists (d, Zlen raw, raw). }
  apply gc_items_elem in Hd as [Hl [x Hx]]; [|done]. split; [done|].
  apply list_elem_of_fmap in Hin as ([d' e] & Heq & _). unfold gc_item, raw_of in Heq. cbn in Heq.
  simplify_eq. by rewrite Hx.
Qed.

Lemma after_gc_inv `{!Blake3Laws, !Lz4Laws} s A :
  Inv s A → abs_weight A < 2 ^ 63 → Inv (after_gc s (gc_items s A)) (gc_abs A).
Proof.
  intros HI Hw.
  assert (∀ d e, insert_all ∅ (item_entries 0 0 (gc_items s A)) !! d = Some e →
            ∃ raw, (d, Zlen raw, raw) ∈ gc_items s A ∧ blake3 raw = d ∧
                   entry_ok {[ pack_path 0 := concat (item_frame <$> gc_items s A) ]} e raw ∧
                   entry_fits (d, e)) as Hentry.
  { intros d e He. apply insert_all_inv in He as [Hin|He]; [|by rewrite lookup_empty in He].
    eapply (item_entries_ok _ 0 0 (gc_items s A) []); [apply lookup_singleton_eq|done|lia| |by apply gc_items_ok|done].
    pose proof (frames_weight_items (gc_items s A)). pose proof (gc_weight s A HI). cbn [app]. lia. }
  split; cbn [after_gc gc_abs cs_state cs_disk d_packs d_index d_manifests cs_next_pack_id
              a_chunks a_manifests].
  - intros d e He. destruct (Hentry d e He) as (raw & Hin & Hrest). exists raw. split; [|done].
    apply gc_items_raw in Hin as [Hl Hr]; [|done]. by apply map_lookup_filter_Some.
  - intros d [raw [Hr Hl]%map_lookup_filter_Some]. apply insert_all_dom. right.
    rewrite item_entries_keys. apply gc_items_elem; [done|]. split; [done|by eexists].
  - left. by apply atomic_write_lookup.
  - assert (size (insert_all ∅ (item_entries 0 0 (gc_items s A))) ≤ size (cs_state s))%nat; 
      [|pose proof (inv_count _ _ HI); lia].
    etrans; [apply insert_all_size|]. rewrite map_size_empty. cbn [Nat.add].
    rewrite <-(length_fmap fst), item_entries_keys, length_fmap. unfold gc_items. rewrite length_fmap.
    rewrite merge_sort_Permutation, <-length_map_to_list. apply length_filter.
  - lia.
  - intros name [c Hc]. apply lookup_singleton_Some in Hc as [<- _]. exists 0. split; [lia|done].
  - apply HI.
  - intros id m Hm. destruct (inv_manifest _ _ HI id m Hm) as (Hf & Hwf & Hid & Hc).
    split_and!; try done. intros c Hin. destruct (Hc c Hin) as [raw Hr]. exists raw.
    apply map_lookup_filter_Some. split; [done|]. apply elem_of_live. by exists id, m.
Qed.

(** *** The collector's contract *)
Lemma map_to_list_filter {V} (P : bytes * V → Prop) `{!∀ x, Decision (P x)} (m : gmap bytes V) :
  map_to_list (filter P m) ≡ₚ filter P (map_to_list m).
Proof.
  apply NoDup_Permutation; [apply NoDup_map_to_list|apply NoDup_filter, NoDup_map_to_list|].
  intros [k v]. rewrite list_elem_of_filter, !elem_of_map_to_list, map_lookup_filter_Some. naive_solver.
Qed.

Lemma filter_fst {V} (P : bytes → Prop) `{!∀ d, Decision (P d)} (l : list (bytes * V)) :
  length (filter (λ kv, P kv.1) l) = length (filter P l.*1).
Proof.
  induction l as [|[k v] l IH]; [done|]. rewrite fmap_cons, !filter_cons. cbn [fst].
  destruct (decide (P k)); cbn [length]; by rewrite IH.
Qed.

Lemma dead_of_size s A :
  Inv s A → dead_of s A = Z.of_nat (size (a_chunks A)) - Z.of_nat (size (a_chunks (gc_abs A))).
Proof.
  intros HI. unfold dead_of. pose proof (inv_keys_perm s A HI) as Hp.
  cbn [gc_abs a_chunks]. rewrite <-!length_map_to_list, map_to_list_filter.
  unfold kept.
  pose proof (filter_fst (λ d, d ∈ live_of A) (map_to_list (cs_state s))) as F1.
  pose proof (filter_fst (λ d, d ∈ live_of A) (map_to_list (a_chunks A))) as F2.
  pose proof (Permutation_length Hp) as Hl. rewrite !length_fmap in Hl.
  rewrite Hp in F2. rewrite <-F1 in F2. f_equal; [|f_equal]; f_equal; [done|].
  etrans; [|exact (eq_sym F2)]. done.
Qed.

Lemma dead_zero s A : Inv s A → dead_of s A = 0 → gc_abs A = A.
Proof.
  intros HI Hz. rewrite (dead_of_size s A HI) in Hz. unfold gc_abs in *. cbn [a_chunks] in Hz.
  destruct A as [C M]. cbn [a_chunks a_manifests] in *. f_equal.
  apply map_subseteq_size_eq; [apply map_filter_subseteq|lia].
Qed.

Lemma read_assembled_ext s s' m :
  (∀ c, c ∈ m_chunks m → get_chunk s c = get_chunk s' c) → read_assembled s m = read_assembled s' m.
Proof.
  intros Hc. unfold read_assembled. case_match; [done|]. f_equal. generalize (@nil byte) as out.
  induction (m_chunks m) as [|c cs IH]; intros out; cbn [foldM]; [done|].
  rewrite Hc by by left. destruct (get_chunk s' c); cbn; [|done..]. apply IH.
  intros c' Hc'. apply Hc. by right.
Qed.

Lemma gc_ok `{!Blake3Laws, !Lz4Laws} s A :
  Inv s A → abs_weight A < 2 ^ 63 →
  ∃ s' r, gc s = (s', Ok r) ∧ Inv s' (gc_abs A) ∧ (dead_of s A = 0 → s' = s) ∧
    gr_live_chunks r = Z.of_nat (size (live_of A)) ∧
    gr_dead_chunks r = Z.of_nat (size (a_chunks A)) - Z.of_nat (size (a_chunks (gc_abs A))).
Proof.
  intros HI Hw. destruct (gc_run s A HI) as (r & Hrun & Hl & Hd).
  do 2 eexists. split; [exact Hrun|]. rewrite <-(dead_of_size s A HI). split_and!; [|by intros ->|done..].
  destruct (Z.eqb_spec (dead_of s A) 0) as [Hz|]; [by rewrite (dead_zero s A)|].
  by apply after_gc_inv.
Qed.

(** C12. The collector keeps exactly what the manifests reference: it
    succeeds, the surviving chunks are the referenced ones, the report counts
    the live digests and the dropped chunks, and every manifest that was
    readable reads and reassembles to the same result afterwards. *)
Theorem gc_refines `{!Blake3Laws, !Lz4Laws} s A :
  Inv s A → abs_weight A < 2 ^ 63 →
  ∃ s' r, gc s = (s', Ok r) ∧ Inv s' (gc_abs A) ∧
    gr_live_chunks r = Z.of_nat (size (live_of A)) ∧
    gr_dead_chunks r = Z.of_nat (size (a_chunks A)) - Z.of_nat (size (a_chunks (gc_abs A))) ∧
    ∀ id m, get_manifest s id = Ok m →
            get_manifest s' id = Ok m ∧ read_assembled s' m = read_assembled s m.
Proof.
  intros HI Hw. destruct (gc_ok s A HI Hw) as (s' & r & Hrun & HI' & _ & Hl & Hd).
  exists s', r. split_and!; try done. intros id m Hg.
  assert (a_manifests A !! id = Some m) as Hm.
  { destruct (a_manifests A !! id) as [m'|] eqn:E.
    - rewrite (get_manifest_ok s A id m' HI E) in Hg. by simplify_eq.
    - by rewrite (get_manifest_none s A id HI E) in Hg. }
  split; [by eapply get_manifest_ok|]. apply read_assembled_ext. intros c Hc.
  destruct (inv_manifest _ _ HI id m Hm) as (_ & _ & _ & Hstored). destruct (Hstored c Hc) as [raw Hr].
  rewrite (inv_get_chunk s A c raw HI Hr). eapply inv_get_chunk; [exact HI'|].
  apply map_lookup_filter_Some. split; [done|]. apply elem_of_live. by exists id, m.
Qed.

Lemma gc_abs_idem A : gc_abs (gc_abs A) = gc_abs A.
Proof.
  unfold gc_abs at 1. cbn [gc_abs a_chunks a_manifests].
  change (live_of (gc_abs A)) with (live_of A). unfold gc_abs. f_equal.
  apply map_filter_id. intros d x [_ Hl]%map_lookup_filter_Some. exact Hl.
Qed.

(** Collecting twice is collecting once: the second run finds nothing
    dead and leaves the store, its packs and its index byte for byte as they
    are. *)
Theorem gc_idempotent `{!Blake3Laws, !Lz4Laws} s A s' r :
  Inv s A → abs_weight A < 2 ^ 63 → gc s = (s', Ok r) →
  ∃ r', gc s' = (s', Ok r') ∧ gr_dead_chunks r' = 0 ∧ gr_bytes_reclaimed r' = 0.
Proof.
  intros HI Hw Hgc. destruct (gc_ok s A HI Hw) as (s1 & r1 & Hrun & HI' & _).
  rewrite Hgc in Hrun. simplify_eq.
  assert (dead_of s1 (gc_abs A) = 0) as Hz.
  { rewrite (dead_of_size _ _ HI'), gc_abs_idem. lia. }
  unfold gc, mbind, st_bind, st_try at 1, st_get. rewrite (live_set_ok s1 (gc_abs A) HI').
  fold (kept s1 (gc_abs A)). fold (dead_of s1 (gc_abs A)). rewrite Hz. by eexists.
Qed.
End compaction.
End StoreGc.

(** * Every reachable store is consistent

    The operations of [ChunkStore] as a step relation, the invariant along any
    run, and what it means for a caller: no manifest ever dangles. *)

Import Hex Manifest Store StoreSpec StoreOps StoreBuffer StoreGc.

Module StoreReach.

Section reach.
Context `{Blake3} `{Lz4}.

Lemma drop_manifest_inv s A id :
  Inv s A → Inv (drop_manifest id s).1 {| a_chunks := a_chunks A; a_manifests := delete id (a_manifests A) |}.
Proof.
  intros HI. unfold drop_manifest. destruct (d_manifests (cs_disk s) !! manifest_path id) as [c|] eqn:E.
  - split; cbn [fst set_manifests cs_state cs_disk d_packs d_index d_manifests cs_next_pack_id a_chunks a_manifests];
      try apply HI.
    + intros name x [Hne Hx]%lookup_delete_Some.
      destruct (inv_files _ _ HI name x Hx) as (id' & m & Hm & -> & ->). exists id', m.
      split; [|done]. apply lookup_delete_Some. split; [|done]. by intros ->.
    + intros id' m [Hne Hm]%lookup_delete_Some. rewrite lookup_delete_ne by (intros Heq%manifest_path_inj; done).
      by apply (inv_manifest _ _ HI).
  - assert (a_manifests A !! id = None) as Hn.
    { destruct (a_manifests A !! id) as [m|] eqn:Em; [|done].
      destruct (inv_manifest _ _ HI id m Em) as (Hf & _). congruence. }
    cbn [fst]. rewrite delete_id by done. by destruct A.
Qed.

(** [sum of raw_len + framing] over the index. *)
Definition stored_weight (s : ChunkStore) : Z :=
  foldr (λ kv acc, 5 + ce_raw_len kv.2 + acc) 0 (map_to_list (cs_state s)).

Lemma weight_foldr A (l : list (bytes * ChunkEntry)) :
  (∀ kv, kv ∈ l → Zlen (raw_of A kv.1) = ce_raw_len kv.2) →
  weight (raw_of A <$> l.*1) = foldr (λ kv acc, 5 + ce_raw_len kv.2 + acc) 0 l.
Proof.
  induction l as [|kv l IH]; intros Hl; [done|]. rewrite !fmap_cons. cbn [weight foldr].
  rewrite (Hl kv) by by left. rewrite IH; [done|]. intros kv' ?. apply Hl. by right.
Qed.

Lemma abs_weight_stored s A : Inv s A → abs_weight A = stored_weight s.
Proof.
  intros HI. unfold abs_weight. rewrite raw_of_values.
  rewrite (weight_perm _ (raw_of A <$> (map_to_list (cs_state s)).*1)) by (by rewrite inv_keys_perm).
  apply weight_foldr. intros [d e] He%elem_of_map_to_list.
  destruct (inv_entry _ _ HI d e He) as (raw & Hr & _ & (? & ? & ? & _ & _ & _ & _ & Hl) & _).
  unfold raw_of. cbn. by rewrite Hr.
Qed.

(** One call on the store, successful or not, within the widths the formats
    impose. *)
Inductive step (s : ChunkStore) : ChunkStore → Prop :=
| step_buffer name version data drv :
    buffer_fits s name version data drv → step s (put_buffer name version data drv s).1
| step_batch raws : room s raws → step s (put_chunk_batch raws s).1
| step_manifest m : manifest_wf m → step s (put_manifest m s).1
| step_drop id : step s (drop_manifest id s).1
| step_gc : stored_weight s < 2 ^ 63 → step s (gc s).1
| step_reopen s' : open (cs_disk s) = Ok s' → step s s'.

Lemma step_inv `{!Blake3Laws, !Lz4Laws} s A s' : Inv s A → step s s' → ∃ A', Inv s' A'.
Proof.
  intros HI Hs. destruct Hs as [name version data drv Hfit|raws Hroom|m Hwf|id|Hw|s' Ho].
  - destruct (Cdc.chunk_payload_tiles data Cdc.default_config) as (cs & Hcs & _); [by apply Cdc.validate_spec|].
    destruct (put_buffer_run s A name version data drv cs HI Hfit Hcs) as (s' & -> & Hi & _). by eexists.
  - destruct (put_chunk_batch_ok s A raws HI Hroom) as (s' & -> & Hi). by eexists.
  - destruct (put_manifest_cases s A m HI Hwf) as [(s' & -> & Hi)|(why & ->)]; by eexists.
  - eexists. by apply drop_manifest_inv.
  - destruct (gc_ok s A HI) as (s' & r & -> & Hi & _); [by rewrite (abs_weight_stored s A HI)|]. by eexists.
  - destruct (reopen_ok s A HI) as (s1 & Ho1 & _ & _ & Hi). rewrite Ho in Ho1. simplify_eq. by eexists.
Qed.

Lemma reachable_inv `{!Blake3Laws, !Lz4Laws} s : rtc step store0 s → ∃ A, Inv s A.
Proof.
  intros Hr. assert (∃ A, Inv store0 A) as Hi by (exists abs_empty; apply inv_empty). revert Hi.
  induction Hr as [s|s1 s2 s3 Hstep Hr IH]; [done|]. intros [A HI]. apply IH. by eapply step_inv.
Qed.

(** C5. No dangling references, ever: after any sequence of ingests, batch
    pulls, manifest writes and drops, collections and reopenings, every
    listed manifest decodes under its identity and every chunk it references
    can be read and hashes to its digest. *)
Theorem reachable_consistent `{!Blake3Laws, !Lz4Laws} s :
  rtc step store0 s →
  ∃ ids, list_manifests s = Ok ids ∧
    ∀ id, id ∈ ids → ∃ m, get_manifest s id = Ok m ∧ identity_digest m = id ∧
      ∀ c, c ∈ m_chunks m → ∃ raw, get_chunk s c = Ok raw ∧ blake3 raw = c.
Proof.
  intros [A HI]%reachable_inv. destruct (list_manifests_ok s A HI) as (ids & Hl & Hids).
  exists ids. split; [done|]. intros id [m Hm]%Hids. exists m.
  destruct (inv_manifest _ _ HI id m Hm) as (_ & _ & Hid & Hc).
  split; [by eapply get_manifest_ok|]. split; [done|]. intros c [raw Hr]%Hc. exists raw.
  pose proof (inv_get_chunk s A c raw HI Hr) as Hg. split; [done|]. by eapply get_chunk_digest.
Qed.
End reach.

(** ** A concrete run: an ingest, an unreferenced chunk, a collection *)
Section witnesses.
#[local] Existing Instance toy_blake3.
#[local] Existing Instance toy_lz4.
#[local] Existing Instance toy_blake3_laws.
#[local] Existing Instance toy_lz4_laws.

Definition demo1 : ChunkStore := (put_buffer (str "a") (str "1") (str "hello") None store0).1.
Definition demo2 : ChunkStore := (put_chunk_batch [str "garbage"] demo1).1.
Definition demo3 : ChunkStore := (gc demo2).1.

Lemma demo2_steps : rtc step store0 demo2.
Proof.
  apply (rtc_l _ _ demo1); [|apply rtc_once].
  - apply step_buffer. by apply demo_fits.
  - apply step_batch. split; [repeat constructor|vm_compute; reflexivity..].
Qed.

Lemma demo2_inv : ∃ A, Inv demo2 A ∧ abs_weight A < 2 ^ 63.
Proof.
  destruct (reachable_inv demo2 demo2_steps) as [A HI]. exists A. split; [done|].
  rewrite (abs_weight_stored demo2 A HI). vm_compute. reflexivity.
Qed.

Lemma reopen_refines_witness :
  ∃ A s', open (cs_disk demo2) = Ok s' ∧ same_store demo2 s' ∧ Inv s' A.
Proof.
  destruct demo2_inv as (A & HI & _). exists A. apply (reopen_refines demo2 A HI).
Defined.

Lemma gc_refines_witness :
  ∃ A s' r, gc demo2 = (s', Ok r) ∧ Inv s' (gc_abs A) ∧
    gr_live_chunks r = Z.of_nat (size (live_of A)) ∧
    gr_dead_chunks r = Z.of_nat (size (a_chunks A)) - Z.of_nat (size (a_chunks (gc_abs A))) ∧
    ∀ id m, get_manifest demo2 id = Ok m →
            get_manifest s' id = Ok m ∧ read_assembled s' m = read_assembled demo2 m.
Proof.
  destruct demo2_inv as (A & HI & Hw). exists A. apply (gc_refines demo2 A HI Hw).
Defined.

Definition demo_report : GcReport :=
  match (gc demo2).2 with
  | Ok r => r
  | _ => {| gr_live_chunks := 0; gr_dead_chunks := 0; gr_packs_before := 0; gr_packs_after := 0;
            gr_bytes_reclaimed := 0 |}
  end.

Lemma gc_idempotent_witness :
  gr_dead_chunks demo_report = 1 ∧
  ∃ r', gc demo3 = (demo3, Ok r') ∧ gr_dead_chunks r' = 0 ∧ gr_bytes_reclaimed r' = 0.
Proof.
  split; [vm_compute; reflexivity|]. destruct demo2_inv as (A & HI & Hw).
  apply (gc_idempotent demo2 A demo3 demo_report HI Hw). vm_compute. reflexivity.
Defined.

Lemma reachable_consistent_witness :
  ∃ ids, list_manifests demo2 = Ok ids ∧
    ∀ id, id ∈ ids → ∃ m, get_manifest demo2 id = Ok m ∧ identity_digest m = id ∧
      ∀ c, c ∈ m_chunks m → ∃ raw, get_chunk demo2 c = Ok raw ∧ blake3 raw = c.
Proof. apply (reachable_consistent demo2 demo2_steps). Defined.
End witnesses.

End StoreReach.
