(* ===== verification/HotStore.v ===== *)
(** * The hot store ([avm-cas/src/hot_store.rs])

    A bounded cache of hydrated cells over the cold store: LRU eviction with
    usage accounting, and hydration into a scratch file by one or several
    workers. The mapping of a cell is the byte string of its scratch file. *)

From S2P Require Import Prelude Cas Chunker Compression Cursor Manifest Crypto Disk Store StoreSpec StoreOps StoreGc.
Import Hex Manifest Crypto Store StoreSpec StoreOps StoreGc.

Module HotStore.

Record HotCell := { hc_manifest_hash : bytes; hc_size : Z; hc_mmap : bytes; hc_last_used : Z }.

Record HotStats := {
  hst_capacity : Z; hst_usage : Z; hst_cells : Z; hst_evictions : Z; hst_evicted_bytes : Z
}.

Record HotStore := {
  hs_cells : gmap bytes HotCell;
  hs_capacity : Z;
  hs_usage : Z;
  hs_tick : Z;
  hs_evictions : Z;
  hs_evicted_bytes : Z;
  hs_enforce : bool
}.

Definition new (capacity : Z) (enforce_signatures : bool) : HotStore := {|
  hs_cells := ∅; hs_capacity := capacity; hs_usage := 0; hs_tick := 0;
  hs_evictions := 0; hs_evicted_bytes := 0; hs_enforce := enforce_signatures |}.

Definition stats (h : HotStore) : HotStats := {|
  hst_capacity := hs_capacity h; hst_usage := hs_usage h;
  hst_cells := Z.of_nat (size (hs_cells h)); hst_evictions := hs_evictions h;
  hst_evicted_bytes := hs_evicted_bytes h |}.

(** Atomic counters wrap. *)
Definition u64 (z : Z) : Z := z mod 2 ^ 64.

(** ** Eviction *)
Definition release (id : bytes) (h : HotStore) : HotStore :=
  match hs_cells h !! id with
  | Some cell => {|
      hs_cells := delete id (hs_cells h); hs_capacity := hs_capacity h;
      hs_usage := u64 (hs_usage h - hc_size cell); hs_tick := hs_tick h;
      hs_evictions := u64 (hs_evictions h + 1);
      hs_evicted_bytes := u64 (hs_evicted_bytes h + hc_size cell);
      hs_enforce := hs_enforce h |}
  | None => h
  end.

(** [iter().reduce(..)] by [last_used], the accumulator winning ties. *)
Definition older (a b : bytes * HotCell) : bytes * HotCell :=
  if hc_last_used a.2 <=? hc_last_used b.2 then a else b.

Definition victim (cells : gmap bytes HotCell) : option bytes :=
  match map_to_list cells with
  | [] => None
  | kv :: l => Some (foldl older kv l).1
  end.

(** The [while] loop; every iteration but the last drops a cell, so the number
    of cells bounds the iterations. The [u64] sum of the guard is checked. *)
Fixpoint make_room_loop (fuel : nat) (incoming : Z) (h : HotStore) : HotStore * res CasError () :=
  if 2 ^ 64 <=? hs_usage h + incoming then (h, Panic)
  else if hs_usage h + incoming <=? hs_capacity h then (h, Ok ())
  else match victim (hs_cells h) with
       | Some k => match fuel with
                   | O => (h, Panic)
                   | S fuel => make_room_loop fuel incoming (release k h)
                   end
       | None => (h, Ok ())
       end.

Definition make_room (incoming : Z) (h : HotStore) : HotStore * res CasError () :=
  make_room_loop (size (hs_cells h)) incoming h.

(** ** The scratch file *)

(** How many bytes [write_at] accepts of a buffer at an offset: the operating
    system's choice, documented to be possibly fewer than offered. *)
Class WriteAt := write_at_len : bytes → Z → nat.

Definition file_write (f : bytes) (off : Z) (b : bytes) : bytes :=
  splice (f ++ replicate (Z.to_nat off - length f) Byte.x00) off b.

(** Offsets by running sum, the [u64] addition checked. *)
Fixpoint offsets_from (off : Z) (lens : list Z) : res CasError (list Z * Z) :=
  match lens with
  | [] => Ok ([], off)
  | l :: lens =>
      if 2 ^ 64 <=? off + l then Panic
      else '(offs, total) ← offsets_from (off + l) lens; Ok (off :: offs, total)
  end.

(** The indices of worker [w]: [i = w; while i < n { ..; i += workers }]. *)
Fixpoint worker_ids (fuel : nat) (n workers i : nat) : list nat :=
  match fuel with
  | O => []
  | S fuel => if (i <? n)%nat then i :: worker_ids fuel n workers (i + workers) else []
  end.

Section hydration.
Context `{Blake3} `{Lz4} `{Ed25519} `{WriteAt}.

(** One worker: it stops at its first failing chunk. *)
Definition worker (cold : ChunkStore) (chunks : list bytes) (ids : list nat) : res CasError () :=
  foldM (λ _ i, _ ← (c ← index_p chunks (Z.of_nat i); get_chunk cold c); Ok ()) () ids.

(** The effect of one chunk on the shared file. *)
Definition write_one (cold : ChunkStore) (chunks : list bytes) (offsets : list Z) (f : bytes) (i : nat)
    : bytes :=
  match chunks !! i, offsets !! i with
  | Some c, Some off =>
      match get_chunk cold c with
      | Ok raw => file_write f off (firstn (write_at_len raw off) raw)
      | _ => f
      end
  | _, _ => f
  end.

(** Parallel assembly. The handles are joined in worker order and the first
    error wins; when there is none, [sched] is the order in which the
    positional writes of all workers reached the file. *)
Definition assemble_parallel (cold : ChunkStore) (chunks : list bytes) (offsets : list Z)
    (workers : nat) (sched : list nat) (f : bytes) : res CasError bytes :=
  let n := length chunks in
  _ ← foldM (λ _ w, worker cold chunks (worker_ids n n workers w)) () (seq 0 workers);
  Ok (foldl (write_one cold chunks offsets) f sched).

(** Sequential assembly: [write_all] at the file's cursor. *)
Definition assemble_sequential (cold : ChunkStore) (chunks : list bytes) (f : bytes)
    : res CasError bytes :=
  '(f, _) ← foldM (λ '(f, pos) c,
    raw ← get_chunk cold c; Ok (file_write f pos raw, pos + Zlen raw)) (f, 0) chunks;
  Ok f.

(** The fail-closed signature policy. *)
Definition check_policy (enforce : bool) (m : Manifest) : res CasError () :=
  match m_pubkey m, m_signature m with
  | Some _, Some _ => verify_manifest m
  | None, None => if enforce then Err (Signature (str "manifest {} is unsigned and this hot store requires signatures"))
                  else Ok ()
  | _, _ => Err (Signature (str "manifest {} is unsigned and this hot store requires signatures"))
  end.

(** Everything between [make_room] and the mapping: no hot-store state. *)
Definition assemble (cold : ChunkStore) (workers : nat) (sched : list nat) (m : Manifest)
    : res CasError bytes :=
  lens ← chunk_raw_lens cold (m_chunks m);
  '(offsets, off) ← offsets_from 0 lens;
  if negb (off =? m_total_size m) then
    Err (corrupt "manifest total_size disagrees with its chunk lengths")
  else
  let f := replicate (Z.to_nat off) Byte.x00 in
  if (64 <=? Zlen (m_chunks m)) && (1 <? workers)%nat
  then assemble_parallel cold (m_chunks m) offsets workers sched f
  else assemble_sequential cold (m_chunks m) f.

(** Account for the mapping and make it resident. *)
Definition commit_cell (id : bytes) (total : Z) (mmap : bytes) (h : HotStore) : HotStore := {|
  hs_cells := <[id := {| hc_manifest_hash := id; hc_size := total; hc_mmap := mmap;
                         hc_last_used := hs_tick h |}]> (hs_cells h);
  hs_capacity := hs_capacity h; hs_usage := u64 (hs_usage h + total);
  hs_tick := u64 (hs_tick h + 1); hs_evictions := hs_evictions h;
  hs_evicted_bytes := hs_evicted_bytes h; hs_enforce := hs_enforce h |}.

(** The part of [hydrate] before anything is made resident. *)
Definition hydrate_prepare (cold : ChunkStore) (workers : nat) (sched : list nat) (id : bytes)
    (h : HotStore) : HotStore * res CasError (Z * bytes) :=
  match (m ← get_manifest cold id; _ ← check_policy (hs_enforce h) m; Ok m) with
  | Ok m =>
      match make_room (m_total_size m) h with
      | (h, Ok _) => (h, mmap ← assemble cold workers sched m; Ok (m_total_size m, mmap))
      | (h, Err e) => (h, Err e)
      | (h, Panic) => (h, Panic)
      end
  | Err e => (h, Err e)
  | Panic => (h, Panic)
  end.

Definition hydrate (cold : ChunkStore) (workers : nat) (sched : list nat) (id : bytes)
    (h : HotStore) : HotStore * res CasError bytes :=
  match hydrate_prepare cold workers sched id h with
  | (h, Ok (total, mmap)) => (commit_cell id total mmap h, Ok mmap)
  | (h, Err e) => (h, Err e)
  | (h, Panic) => (h, Panic)
  end.

(** A hit bumps the cell's [last_used] with the old tick. *)
Definition touch (cell : HotCell) (t : Z) : HotCell := {|
  hc_manifest_hash := hc_manifest_hash cell; hc_size := hc_size cell; hc_mmap := hc_mmap cell;
  hc_last_used := t |}.

Definition acquire (cold : ChunkStore) (workers : nat) (sched : list nat) (id : bytes)
    (h : HotStore) : HotStore * res CasError bytes :=
  match hs_cells h !! id with
  | Some cell =>
      ({| hs_cells := <[id := touch cell (hs_tick h)]> (hs_cells h);
          hs_capacity := hs_capacity h; hs_usage := hs_usage h;
          hs_tick := u64 (hs_tick h + 1); hs_evictions := hs_evictions h;
          hs_evicted_bytes := hs_evicted_bytes h; hs_enforce := hs_enforce h |},
       Ok (hc_mmap cell))
  | None => hydrate cold workers sched id h
  end.

Definition read_cell (cold : ChunkStore) (workers : nat) (sched : list nat) (id : bytes)
    (h : HotStore) : HotStore * res CasError bytes :=
  acquire cold workers sched id h.
End hydration.

(** ** Positional writes commute *)
Section scratch.
(** Running offsets of the payloads. *)
Fixpoint offs_of (off : Z) (raws : list bytes) : list Z :=
  match raws with [] => [] | r :: raws => off :: offs_of (off + Zlen r) raws end.

Lemma offs_of_length off raws : length (offs_of off raws) = length raws.
Proof. revert off; induction raws as [|r raws IH]; intros off; cbn; [done|]. by rewrite IH. Qed.

Lemma offs_of_bounds off raws i o raw :
  offs_of off raws !! i = Some o → raws !! i = Some raw →
  off ≤ o ∧ o + Zlen raw ≤ off + Zlen (concat raws).
Proof.
  revert off i; induction raws as [|r raws IH]; intros off i Ho Hr; [done|].
  cbn [concat]. rewrite length_app. destruct i as [|i]; cbn in Ho, Hr; simplify_eq; [lia|].
  specialize (IH _ _ Ho Hr). lia.
Qed.

Lemma offs_of_lt off raws i j oi oj ri :
  offs_of off raws !! i = Some oi → offs_of off raws !! j = Some oj → raws !! i = Some ri →
  (i < j)%nat → oi + Zlen ri ≤ oj.
Proof.
  revert off i j; induction raws as [|r raws IH]; intros off i j Hi Hj Hr Hlt; [done|].
  destruct j as [|j]; [lia|]. destruct i as [|i]; cbn in Hi, Hj, Hr; simplify_eq.
  - destruct (lookup_lt_is_Some_2 raws j) as [rj Hrj].
    { rewrite <-(offs_of_length (oi + Zlen ri)). by eapply lookup_lt_Some. }
    pose proof (offs_of_bounds _ _ _ _ _ Hj Hrj). lia.
  - eapply IH; eauto. lia.
Qed.

(** What one positional write leaves in the slot of a chunk: the bytes the
    system accepted, and the zeros of the fresh file after them. *)
Context `{WriteAt}.
Definition landed (raw : bytes) (off : Z) : bytes :=
  let n := write_at_len raw off in firstn n raw ++ replicate (length raw - n) Byte.x00.
Definition landed_all (off : Z) (raws : list bytes) : bytes := concat (zip_with landed raws (offs_of off raws)).
(** The system accepted every chunk whole. *)
Definition wholly (raws : list bytes) : Prop :=
  ∀ i raw o, raws !! i = Some raw → offs_of 0 raws !! i = Some o → (length raw ≤ write_at_len raw o)%nat.

Lemma landed_length raw o : length (landed raw o) = length raw.
Proof. unfold landed. rewrite length_app, length_take, length_replicate. lia. Qed.
Lemma landed_whole raw o : (length raw ≤ write_at_len raw o)%nat → landed raw o = raw.
Proof. intros Hl. unfold landed. rewrite take_ge by done. replace (_ - _)%nat with 0%nat by lia. apply app_nil_r. Qed.
Lemma landed_all_whole raws : wholly raws → landed_all 0 raws = concat raws.
Proof.
  unfold wholly, landed_all. generalize 0 as off. induction raws as [|r raws IH]; intros off Hw; [done|]. cbn.
  rewrite landed_whole by by apply (Hw 0%nat). f_equal. apply IH. intros i. apply (Hw (S i)).
Qed.

Lemma slice_splice_prefix (l : bytes) lo src n :
  0 ≤ lo → Zlen src ≤ n → lo + n ≤ Zlen l → slice (splice l lo src) lo (lo + n) = src ++ drop (length src) (slice l lo (lo + n)).
Proof.
  intros Hlo Hs Hn. unfold slice, splice. replace (Z.to_nat (lo + n - lo)) with (Z.to_nat n) by lia.
  rewrite drop_app_length' by (rewrite length_take; lia). rewrite take_app_ge by lia. f_equal.
  rewrite <-drop_drop, take_drop_commute.
  by replace (length src + (Z.to_nat n - length src))%nat with (Z.to_nat n) by lia.
Qed.

(** [f] holds what was accepted of every chunk in [done], and zeros elsewhere. *)
Definition written (raws : list bytes) (f : bytes) (done : gset nat) : Prop :=
  Zlen f = Zlen (concat raws) ∧
  ∀ i raw o, raws !! i = Some raw → offs_of 0 raws !! i = Some o →
             f.[o : o + Zlen raw] = if decide (i ∈ done) then landed raw o else replicate (length raw) Byte.x00.

Lemma written_step raws f done k raw o :
  written raws f done → raws !! k = Some raw → offs_of 0 raws !! k = Some o →
  written raws (file_write f o (firstn (write_at_len raw o) raw)) ({[k]} ∪ done).
Proof.
  intros [Hl Hw] Hr Ho. pose proof (offs_of_bounds _ _ _ _ _ Ho Hr) as Hb. set (n := write_at_len raw o).
  assert (Zlen (firstn n raw) ≤ Zlen raw) as Hn by (rewrite length_take; lia).
  unfold file_write. replace (Z.to_nat o - length f)%nat with 0%nat by lia. cbn [replicate].
  rewrite app_nil_r. split; [rewrite length_splice by lia; done|].
  intros i raw' o' Hr' Ho'. destruct (decide (i = k)) as [->|Hne].
  { simplify_eq. rewrite decide_True by set_solver. rewrite slice_splice_prefix by lia. rewrite (Hw k raw o) by done.
    unfold landed. fold n. f_equal. rewrite length_take. destruct (decide (k ∈ done)).
    - destruct (decide (n ≤ length raw)%nat).
      + rewrite Nat.min_l by done. by rewrite drop_app_length' by (rewrite length_take; lia).
      + rewrite drop_ge; [by replace (_ - n)%nat with 0%nat by lia|]. rewrite length_app, length_take, length_replicate. lia.
    - rewrite drop_replicate. f_equal. lia. }
  pose proof (offs_of_bounds _ _ _ _ _ Ho' Hr').
  rewrite slice_splice_disjoint; try lia.
  - rewrite (Hw i raw' o') by done. by destruct (decide (i ∈ done)), (decide (i ∈ {[k]} ∪ done)); try set_solver.
  - destruct (decide (i < k)%nat).
    + left. eapply offs_of_lt; [exact Ho'|exact Ho|exact Hr'|done].
    + right. etrans; [|eapply offs_of_lt; [exact Ho|exact Ho'|exact Hr|lia]]. lia.
Qed.

Lemma written_all_gen raws off f :
  0 ≤ off → Zlen f = off + Zlen (concat raws) →
  (∀ i raw o, raws !! i = Some raw → offs_of off raws !! i = Some o → f.[o : o + Zlen raw] = landed raw o) →
  drop (Z.to_nat off) f = landed_all off raws.
Proof.
  revert off; induction raws as [|r raws IH]; intros off Ho Hl Hw.
  { cbn in *. apply drop_ge. lia. }
  unfold landed_all. cbn [concat offs_of zip_with] in *. rewrite length_app in Hl.
  change (concat _) with (landed_all (off + Zlen r) raws).
  rewrite <-(IH (off + Zlen r)); [|lia|lia|].
  - pose proof (Hw 0%nat r off eq_refl eq_refl) as Hs. unfold slice in Hs.
    replace (Z.to_nat (off + Zlen r)) with (Z.to_nat off + length r)%nat by lia.
    rewrite <-Hs at 1. rewrite <-drop_drop. replace (Z.to_nat (off + Zlen r - off)) with (length r) by lia.
    by rewrite take_drop.
  - intros i raw o Hr Hoff. by apply (Hw (S i)).
Qed.

Lemma written_all raws f done :
  written raws f done → (∀ i, (i < length raws)%nat → i ∈ done) → f = landed_all 0 raws.
Proof.
  intros [Hl Hw] Hall. rewrite <-(written_all_gen raws 0 f); [done|lia|lia|].
  intros i raw o Hr Ho. rewrite (Hw i raw o) by done. rewrite decide_True; [done|]. apply Hall. by eapply lookup_lt_Some.
Qed.

(** A fresh file of zeros. *)
Lemma slice_zeros n lo len : 0 ≤ lo → 0 ≤ len → lo + len ≤ Z.of_nat n →
  slice (replicate n Byte.x00) lo (lo + len) = replicate (Z.to_nat len) Byte.x00.
Proof. intros. unfold slice. rewrite drop_replicate, take_replicate. f_equal. lia. Qed.
Lemma written_fresh raws : written raws (replicate (length (concat raws)) Byte.x00) ∅.
Proof.
  split; [by rewrite length_replicate|]. intros i raw o Hr Ho. rewrite decide_False by set_solver.
  pose proof (offs_of_bounds _ _ _ _ _ Ho Hr). rewrite slice_zeros by lia. f_equal. lia.
Qed.

(** What a mapping holds: several workers leave what the system accepted of
    each chunk; a single one, or a cell of fewer than 64 chunks, writes all. *)
Definition delivered (workers : nat) (raws : list bytes) : bytes :=
  if (64 <=? Zlen raws) && (1 <? workers)%nat then landed_all 0 raws else concat raws.
Lemma delivered_exact workers raws : Zlen raws < 64 ∨ (workers ≤ 1)%nat ∨ wholly raws → delivered workers raws = concat raws.
Proof.
  intros Hc. unfold delivered. destruct (Z.leb_spec 64 (Zlen raws)), (Nat.ltb_spec 1 workers); cbn [andb]; try done.
  apply landed_all_whole. by destruct Hc as [?|[?|?]]; [lia..|].
Qed.
Lemma landed_all_length off raws : length (landed_all off raws) = length (concat raws).
Proof.
  unfold landed_all. revert off; induction raws as [|r raws IH]; intros off; [done|]. cbn. rewrite !length_app, landed_length. by rewrite IH.
Qed.
Lemma delivered_length workers raws : length (delivered workers raws) = length (concat raws).
Proof. unfold delivered. case_match; [apply landed_all_length|done]. Qed.
End scratch.

(** ** Hydration reads what the cold store reassembles *)
Section assembly.
Context `{Blake3} `{Lz4} `{Ed25519} `{WriteAt}.

Definition stored (A : Abs) (c raw : bytes) : Prop := a_chunks A !! c = Some raw.

(** A schedule covers the chunks when every index is written and no other. *)
Definition covers (sched : list nat) (n : nat) : Prop := ∀ i, i ∈ sched ↔ (i < n)%nat.

Lemma raw_lens_ok cold A cs raws :
  Inv cold A → Forall2 (stored A) cs raws → chunk_raw_lens cold cs = Ok ((λ r, Zlen r) <$> raws).
Proof.
  intros HI Hall. apply mapM_res_Ok. apply Forall2_fmap_r. eapply Forall2_impl; [exact Hall|].
  intros c raw Hc. unfold stored in Hc. destruct (inv_dom _ _ HI c) as [e He]; [by eexists|].
  destruct (inv_entry _ _ HI c e He) as (raw' & Hr & _ & (? & ? & ? & _ & _ & _ & _ & Hl) & _).
  simplify_eq. rewrite He. cbn. by rewrite Hl.
Qed.

Lemma raw_lens_missing cold A cs :
  Inv cold A → (∃ c, c ∈ cs ∧ a_chunks A !! c = None) → ∀ l, chunk_raw_lens cold cs ≠ Ok l.
Proof.
  intros HI (c & Hin & Hn) l Hl%mapM_res_Ok. apply list_elem_of_lookup in Hin as [i Hi].
  eapply Forall2_lookup_l in Hl as (z & _ & Hz); [|exact Hi]. cbn in Hz. bind_inv.
  destruct (inv_entry _ _ HI c a Ha) as (raw & Hr & _). congruence.
Qed.

Lemma offsets_ok off raws :
  0 ≤ off → off + Zlen (concat raws) < 2 ^ 64 →
  offsets_from off ((λ r, Zlen r) <$> raws) = Ok (offs_of off raws, off + Zlen (concat raws)).
Proof.
  revert off; induction raws as [|r raws IH]; intros off Ho Hs.
  { cbn. by rewrite Z.add_0_r. }
  rewrite fmap_cons. cbn [offsets_from offs_of concat] in *. rewrite length_app in *.
  destruct (Z.leb_spec (2 ^ 64) (off + Zlen r)); [lia|]. rewrite IH by lia. cbn. do 2 f_equal. lia.
Qed.

Lemma worker_ids_lt fuel n workers i j : j ∈ worker_ids fuel n workers i → (j < n)%nat.
Proof.
  revert i; induction fuel as [|fuel IH]; intros i; cbn [worker_ids]; [by intros ?%not_elem_of_nil|].
  destruct (Nat.ltb_spec i n); [|by intros ?%not_elem_of_nil].
  intros [->|Hin]%elem_of_cons; [done|by eapply IH].
Qed.

Lemma worker_ok cold A cs raws ids :
  Inv cold A → Forall2 (stored A) cs raws → (∀ i, i ∈ ids → (i < length cs)%nat) →
  worker cold cs ids = Ok ().
Proof.
  intros HI Hall. unfold worker. induction ids as [|i ids IH]; intros Hlt; cbn [foldM]; [done|].
  destruct (lookup_lt_is_Some_2 cs i) as [c Hc]; [apply Hlt; by left|].
  rewrite (index_p_Some _ _ _ Hc). eapply Forall2_lookup_l in Hall as (raw & _ & Hr); [|exact Hc].
  cbn [mbind res_bind]. rewrite (inv_get_chunk cold A c raw HI Hr). cbn [mbind res_bind]. apply IH.
  intros j Hj. apply Hlt. by right.
Qed.

Lemma workers_ok cold A cs raws workers ws :
  Inv cold A → Forall2 (stored A) cs raws →
  foldM (λ _ w, worker cold cs (worker_ids (length cs) (length cs) workers w)) () ws = Ok ().
Proof.
  intros HI Hall. induction ws as [|w ws IH]; cbn [foldM]; [done|].
  rewrite (worker_ok cold A cs raws) by (done || intros i; apply worker_ids_lt). apply IH.
Qed.

Lemma parallel_fold cold A cs raws sched f done :
  Inv cold A → Forall2 (stored A) cs raws → (∀ i, i ∈ sched → (i < length cs)%nat) →
  written raws f done →
  written raws (foldl (write_one cold cs (offs_of 0 raws)) f sched) (done ∪ list_to_set sched).
Proof.
  intros HI Hall. revert f done; induction sched as [|i sched IH]; intros f done Hlt Hw; cbn [foldl].
  { cbn [list_to_set]. by rewrite union_empty_r_L. }
  assert (written raws (write_one cold cs (offs_of 0 raws) f i) ({[i]} ∪ done)) as Hi.
  { destruct (lookup_lt_is_Some_2 cs i) as [c Hc]; [apply Hlt; by left|].
    destruct (Forall2_lookup_l _ _ _ _ _ Hall Hc) as (raw & Hr & Hraw).
    destruct (lookup_lt_is_Some_2 (offs_of 0 raws) i) as [o Ho].
    { rewrite offs_of_length. by eapply lookup_lt_Some. }
    unfold write_one. rewrite Hc, Ho, (inv_get_chunk cold A c raw HI Hraw).
    by apply written_step. }
  cbn [list_to_set]. rewrite (union_assoc_L done), (union_comm_L done). apply IH; [|done].
  intros j Hj. apply Hlt. by right.
Qed.

Lemma parallel_ok cold A cs raws workers sched :
  Inv cold A → Forall2 (stored A) cs raws → covers sched (length cs) →
  assemble_parallel cold cs (offs_of 0 raws) workers sched (replicate (length (concat raws)) Byte.x00)
  = Ok (landed_all 0 raws).
Proof.
  intros HI Hall Hcov. unfold assemble_parallel. cbv zeta. rewrite (workers_ok cold A cs raws) by done.
  cbn [mbind res_bind]. f_equal. eapply written_all.
  - eapply parallel_fold with (done := ∅); [done..|intros i; apply Hcov|]. apply written_fresh.
  - intros i Hi. apply elem_of_union_r, elem_of_list_to_set, Hcov. by rewrite (Forall2_length _ _ _ Hall).
Qed.

Lemma sequential_fold cold A cs raws (pre : bytes) n :
  Inv cold A → Forall2 (stored A) cs raws → n = length (concat raws) →
  foldM (λ '(f, pos) c, raw ← get_chunk cold c; Ok (file_write f pos raw, pos + Zlen raw))
    (pre ++ replicate n Byte.x00, Zlen pre) cs
  = Ok (pre ++ concat raws, Zlen pre + Zlen (concat raws)).
Proof.
  intros HI Hall. revert pre n; induction Hall as [|c raw cs raws Hc Hall IH]; intros pre n ->; cbn [foldM].
  { cbn. by rewrite Z.add_0_r. }
  rewrite (inv_get_chunk cold A c raw HI Hc). cbn [mbind res_bind concat].
  assert (file_write (pre ++ replicate (length (raw ++ concat raws)) Byte.x00) (Zlen pre) raw =
          (pre ++ raw) ++ replicate (length (concat raws)) Byte.x00) as ->.
  { unfold file_write, splice. rewrite Nat2Z.id, !length_app, length_replicate.
    replace (length pre - _)%nat with 0%nat by lia. cbn [replicate]. rewrite app_nil_r.
    rewrite take_app_length. rewrite <-app_assoc. do 2 f_equal.
    rewrite <-drop_drop, drop_app_length. rewrite drop_replicate. f_equal. lia. }
  replace (Zlen pre + Zlen raw) with (Zlen (pre ++ raw)) by (rewrite length_app; lia).
  rewrite IH by done. rewrite <-app_assoc. f_equal. f_equal. rewrite !length_app. lia.
Qed.

Lemma assemble_ok cold A workers sched m raws :
  Inv cold A → Forall2 (stored A) (m_chunks m) raws → covers sched (length (m_chunks m)) →
  Zlen (concat raws) < 2 ^ 64 →
  assemble cold workers sched m =
  if m_total_size m =? Zlen (concat raws) then Ok (delivered workers raws)
  else Err (corrupt "manifest total_size disagrees with its chunk lengths").
Proof.
  intros HI Hall Hcov Hsz. unfold assemble. rewrite (raw_lens_ok cold A _ raws) by done.
  cbn [mbind res_bind]. rewrite offsets_ok by lia. cbn [mbind res_bind]. rewrite Z.add_0_l, Z.eqb_sym.
  destruct (m_total_size m =? Zlen (concat raws)); cbn [negb]; [|done]. rewrite Nat2Z.id.
  unfold delivered. rewrite <-(Forall2_length _ _ _ Hall). case_match; [by eapply parallel_ok|]. unfold assemble_sequential.
  pose proof (sequential_fold cold A (m_chunks m) raws [] _ HI Hall eq_refl) as Hs.
  cbn [app length] in Hs. change (Z.of_nat 0) with 0 in Hs. by rewrite Hs.
Qed.
End assembly.

(** ** Accounting and eviction *)
Definition usage_of (cells : gmap bytes HotCell) : Z :=
  map_fold (λ _ c acc, hc_size c + acc) 0 cells.

Lemma usage_of_insert cells id c :
  cells !! id = None → usage_of (<[id := c]> cells) = hc_size c + usage_of cells.
Proof. intros Hn. unfold usage_of. rewrite map_fold_insert_L; [done|intros; lia|done]. Qed.

Lemma usage_of_delete cells id c :
  cells !! id = Some c → usage_of cells = hc_size c + usage_of (delete id cells).
Proof.
  intros Hs. rewrite <-(usage_of_insert (delete id cells) id c) by apply lookup_delete_eq.
  by rewrite insert_delete_id.
Qed.

(** Sizes are the mapped lengths, the counter is their sum, and no two cells
    were used at the same tick. *)
Record HInv (h : HotStore) : Prop := {
  hi_usage : hs_usage h = usage_of (hs_cells h);
  hi_bound : usage_of (hs_cells h) < 2 ^ 64;
  hi_cell : ∀ id c, hs_cells h !! id = Some c →
    hc_manifest_hash c = id ∧ hc_size c = Zlen (hc_mmap c) ∧ 0 ≤ hc_last_used c < hs_tick h;
  hi_tick : 0 ≤ hs_tick h;
  hi_distinct : ∀ i j c d, hs_cells h !! i = Some c → hs_cells h !! j = Some d →
    hc_last_used c = hc_last_used d → i = j
}.

Lemma new_inv capacity enforce : HInv (new capacity enforce).
Proof.
  split; cbn [new hs_cells hs_usage hs_tick]; [done|done| |lia|]; intros *; by rewrite lookup_empty.
Qed.

Lemma usage_of_nonneg cells :
  (∀ id c, cells !! id = Some c → 0 ≤ hc_size c) → 0 ≤ usage_of cells.
Proof.
  induction cells as [|id c cells Hn IH] using map_ind; intros Hc; [done|].
  rewrite usage_of_insert by done. specialize (Hc id c (lookup_insert_eq _ _ _)) as H0.
  assert (0 ≤ usage_of cells); [|lia]. apply IH. intros id' c' Hc'. apply (Hc id').
  rewrite lookup_insert_ne; congruence.
Qed.

Lemma usage_nonneg h : HInv h → 0 ≤ usage_of (hs_cells h).
Proof. intros HI. apply usage_of_nonneg. intros id c Hc. destruct (hi_cell _ HI id c Hc) as (_ & -> & _). lia. Qed.

Lemma release_cells id h : hs_cells (release id h) = delete id (hs_cells h).
Proof. unfold release. destruct (hs_cells h !! id) eqn:E; [done|]. by rewrite delete_id. Qed.

Lemma release_inv id h : HInv h → HInv (release id h).
Proof.
  intros HI. destruct (hs_cells h !! id) as [c|] eqn:E; [|unfold release; by rewrite E].
  pose proof (usage_of_delete _ _ _ E) as Hu. pose proof (hi_bound _ HI) as Hb.
  assert (0 ≤ usage_of (delete id (hs_cells h))) as Hnn.
  { apply usage_of_nonneg. intros id' c' [_ Hc']%lookup_delete_Some.
    destruct (hi_cell _ HI id' c' Hc') as (_ & -> & _). lia. }
  assert (0 ≤ hc_size c) by (destruct (hi_cell _ HI id c E) as (_ & -> & _); lia).
  unfold release. rewrite E. split; cbn [hs_cells hs_usage hs_tick].
  - rewrite (hi_usage _ HI). unfold u64. rewrite Z.mod_small; lia.
  - lia.
  - intros id' c' [_ Hc']%lookup_delete_Some. by apply (hi_cell _ HI).
  - apply HI.
  - intros i j a b [_ Ha]%lookup_delete_Some [_ Hb']%lookup_delete_Some. by apply (hi_distinct _ HI).
Qed.

Lemma older_spec kv l :
  foldl older kv l ∈ kv :: l ∧ ∀ x, x ∈ kv :: l → hc_last_used (foldl older kv l).2 ≤ hc_last_used x.2.
Proof.
  revert kv; induction l as [|y l IH]; intros kv; cbn [foldl].
  { split; [by left|]. intros x ->%list_elem_of_singleton. done. }
  destruct (IH (older kv y)) as [Hin Hmin]. unfold older in *.
  pose proof (Hmin _ (list_elem_of_here _ _)) as Hh.
  destruct (Z.leb_spec (hc_last_used kv.2) (hc_last_used y.2)); split;
    try (apply elem_of_cons in Hin as [->|Hin]; [|]; rewrite !elem_of_cons; tauto);
    intros x [->|[->|Hx]%elem_of_cons]%elem_of_cons; try lia; apply Hmin; by right.
Qed.

Lemma victim_None cells : victim cells = None ↔ cells = ∅.
Proof.
  unfold victim. destruct (map_to_list cells) as [|kv l] eqn:E; split; try done.
  - intros _. by apply map_to_list_empty_iff.
  - intros ->. by rewrite map_to_list_empty in E.
Qed.

Lemma victim_Some cells k :
  victim cells = Some k →
  ∃ c, cells !! k = Some c ∧ ∀ k' c', cells !! k' = Some c' → hc_last_used c ≤ hc_last_used c'.
Proof.
  unfold victim. destruct (map_to_list cells) as [|kv l] eqn:E; [done|]. intros [= <-].
  destruct (older_spec kv l) as [Hin Hmin]. rewrite <-E in Hin, Hmin.
  exists (foldl older kv l).2. split.
  - apply elem_of_map_to_list. by rewrite <-surjective_pairing.
  - intros k' c' Hc%elem_of_map_to_list. by apply (Hmin (k', c')).
Qed.

(** What an eviction run leaves: a subset of the cells, chosen by age. *)
Record evicted (h h' : HotStore) : Prop := {
  ev_sub : hs_cells h' ⊆ hs_cells h;
  ev_old : ∀ k c k' c', hs_cells h !! k = Some c → hs_cells h' !! k = None →
             hs_cells h' !! k' = Some c' → hc_last_used c < hc_last_used c';
  ev_capacity : hs_capacity h' = hs_capacity h;
  ev_tick : hs_tick h' = hs_tick h;
  ev_enforce : hs_enforce h' = hs_enforce h
}.

Lemma evicted_refl h : evicted h h.
Proof. split; try done. intros. congruence. Qed.

Lemma evicted_step h k h' :
  HInv h → victim (hs_cells h) = Some k → evicted (release k h) h' → evicted h h'.
Proof.
  intros HI Hv [Hsub Hold Hc Ht He]. destruct (victim_Some _ _ Hv) as (ck & Hk & Hmin).
  rewrite release_cells in *. unfold release in Hc, Ht, He. rewrite Hk in Hc, Ht, He.
  cbn [hs_capacity hs_tick hs_enforce] in *. split; try done.
  - etrans; [exact Hsub|apply delete_subseteq].
  - intros a ca b cb Ha Hna Hb. destruct (decide (a = k)) as [->|Hne].
    + assert (ck = ca) as -> by congruence. pose proof (lookup_weaken _ _ _ _ Hb Hsub) as [Hbk Hb']%lookup_delete_Some.
      specialize (Hmin b cb Hb'). assert (hc_last_used ca ≠ hc_last_used cb); [|lia].
      intros Heq. by apply Hbk, (hi_distinct _ HI k b ca cb).
    + apply (Hold a ca b cb); [|done..]. by rewrite lookup_delete_ne.
Qed.

Lemma make_room_loop_ok fuel incoming h :
  HInv h → 0 ≤ incoming → hs_usage h + incoming < 2 ^ 64 → (size (hs_cells h) ≤ fuel)%nat →
  ∃ h', make_room_loop fuel incoming h = (h', Ok ()) ∧ HInv h' ∧ evicted h h' ∧
        (hs_usage h' + incoming ≤ hs_capacity h ∨ hs_cells h' = ∅) ∧ hs_usage h' ≤ hs_usage h.
Proof.
  revert h; induction fuel as [|fuel IH]; intros h HI Hi Ho Hf; cbn [make_room_loop];
    (destruct (Z.leb_spec (2 ^ 64) (hs_usage h + incoming)); [lia|]);
    (destruct (Z.leb_spec (hs_usage h + incoming) (hs_capacity h)) as [Hfit|Hover];
      [exists h; split_and!; auto using evicted_refl with lia|]);
    (destruct (victim (hs_cells h)) as [k|] eqn:Hv;
      [|apply victim_None in Hv; exists h; split_and!; auto using evicted_refl with lia]);
    destruct (victim_Some _ _ Hv) as (ck & Hk & _).
  - exfalso. assert (size (hs_cells h) = 0%nat) as Hz%map_size_empty_iff by lia. by rewrite Hz, lookup_empty in Hk.
  - assert (HInv (release k h)) as HI' by (by apply release_inv).
    assert (hs_usage (release k h) ≤ hs_usage h) as Hle.
    { rewrite (hi_usage _ HI'), (hi_usage _ HI), release_cells, (usage_of_delete _ _ _ Hk).
      destruct (hi_cell _ HI k ck Hk) as (_ & -> & _). lia. }
    destruct (IH (release k h)) as (h' & Hrun & HI2 & Hev & Hend & Hle'); [done|done|lia| |].
    { rewrite release_cells, map_size_delete, Hk. lia. }
    exists h'. split; [done|]. split; [done|]. split; [by eapply evicted_step|]. split; [|lia].
    replace (hs_capacity h) with (hs_capacity (release k h)); [done|]. unfold release. by rewrite Hk.
Qed.

(** Eviction terminates and is least-recently-used: [make_room] either
    brings the incoming bytes within the budget or empties the cache, evicts
    only cells that were used before every cell it keeps, touches nothing when
    the bytes already fit, and keeps the usage counter equal to the bytes
    mapped. *)
Theorem make_room_lru incoming h :
  HInv h → 0 ≤ incoming → hs_usage h + incoming < 2 ^ 64 →
  ∃ h', make_room incoming h = (h', Ok ()) ∧ HInv h' ∧ evicted h h' ∧
        (hs_usage h' + incoming ≤ hs_capacity h ∨ hs_cells h' = ∅) ∧
        (hs_usage h + incoming ≤ hs_capacity h → h' = h).
Proof.
  intros HI Hi Ho. destruct (make_room_loop_ok (size (hs_cells h)) incoming h) as (h' & Hr & HI' & Hev & Hend & _); [done..|].
  exists h'. split_and!; try done. intros Hfit. unfold make_room in *.
  destruct (size (hs_cells h)); cbn [make_room_loop] in Hr;
    destruct (Z.leb_spec (2 ^ 64) (hs_usage h + incoming)); try lia;
    destruct (Z.leb_spec (hs_usage h + incoming) (hs_capacity h)); try lia; by simplify_eq.
Qed.

(** ** The cache is transparent *)
Section transparency.
Context `{Blake3} `{Lz4} `{Ed25519} `{WriteAt}.

(** The uncached meaning of a cell: its manifest is found, meets the policy and
    reassembles, and the mapping holds what was delivered of its chunks. *)
Definition cell_spec (cold : ChunkStore) (workers : nat) (enforce : bool) (id : bytes) : res CasError bytes :=
  m ← get_manifest cold id; _ ← check_policy enforce m; _ ← read_assembled cold m;
  raws ← mapM_res (get_chunk cold) (m_chunks m); Ok (delivered workers raws).

(** Resident cells hold what the cold store would give. *)
Definition coherent (cold : ChunkStore) (workers : nat) (h : HotStore) : Prop :=
  ∀ id c, hs_cells h !! id = Some c → cell_spec cold workers (hs_enforce h) id = Ok (hc_mmap c).

Lemma concat_bound A cold cs raws :
  Inv cold A → Forall2 (stored A) cs raws → Zlen (concat raws) ≤ 2 ^ 32 * Zlen cs.
Proof.
  intros HI. induction 1 as [|c raw cs raws Hc _ IH]; [done|]. cbn [concat length].
  rewrite length_app. unfold stored in Hc. destruct (inv_dom _ _ HI c) as [e He]; [by eexists|].
  destruct (inv_entry _ _ HI c e He) as (raw' & Hr & _ & (? & ? & ? & _ & _ & _ & _ & Hl) & [_ _ _ _ Hf]).
  cbn in Hf. simplify_eq. lia.
Qed.

Lemma raws_read cold A cs raws : Inv cold A → Forall2 (stored A) cs raws → mapM_res (get_chunk cold) cs = Ok raws.
Proof. intros HI Hall. apply mapM_res_Ok. eapply Forall2_impl; [exact Hall|]. intros c raw. by apply inv_get_chunk. Qed.

Lemma assemble_reads cold A workers sched id m :
  Inv cold A → get_manifest cold id = Ok m → m_total_size m < 2 ^ 63 →
  covers sched (length (m_chunks m)) →
  assemble cold workers sched m ≠ Panic ∧ (∀ b, assemble cold workers sched m = Ok b → Zlen b = m_total_size m) ∧
  ∀ b, assemble cold workers sched m = Ok b ↔
    (_ ← read_assembled cold m; raws ← mapM_res (get_chunk cold) (m_chunks m); Ok (delivered workers raws)) = Ok b.
Proof.
  intros HI Hg Hcap Hcov.
  assert (a_manifests A !! id = Some m) as Hm.
  { destruct (a_manifests A !! id) as [m'|] eqn:E.
    - rewrite (get_manifest_ok cold A id m' HI E) in Hg. by simplify_eq.
    - by rewrite (get_manifest_none cold A id HI E) in Hg. }
  destruct (inv_manifest _ _ HI id m Hm) as (_ & Hwf & _ & Hst).
  assert (∃ raws, Forall2 (stored A) (m_chunks m) raws) as [raws Hall].
  { clear -Hst. induction (m_chunks m) as [|c cs IH]; [by exists []|].
    destruct (Hst c) as [raw Hr]; [by left|]. destruct IH as [raws IH]; [intros; apply Hst; by right|].
    exists (raw :: raws). by constructor. }
  pose proof (concat_bound A cold _ raws HI Hall). destruct Hwf.
  rewrite (assemble_ok cold A workers sched m raws) by (done || lia).
  unfold read_assembled. destruct (Z.leb_spec (2 ^ 63) (m_total_size m)); [lia|].
  rewrite (read_fold cold A _ _ raws) by done. rewrite (raws_read cold A _ raws) by done. cbn [mbind res_bind app]. rewrite Z.eqb_sym.
  destruct (Z.eqb_spec (Zlen (concat raws)) (m_total_size m)); cbn [negb mbind res_bind]; split_and!; try done.
  intros b [= <-]. by rewrite delivered_length.
Qed.

Lemma commit_inv id total mmap h :
  HInv h → hs_cells h !! id = None → total = Zlen mmap → hs_usage h + total < 2 ^ 64 →
  hs_tick h + 1 < 2 ^ 64 → HInv (commit_cell id total mmap h).
Proof.
  intros HI Hn -> Hb Ht. pose proof (usage_nonneg h HI) as Hnn. pose proof (hi_usage _ HI) as Hu.
  pose proof (hi_tick _ HI). unfold commit_cell, u64.
  split; cbn [hs_cells hs_usage hs_tick]; rewrite ?usage_of_insert, ?Z.mod_small by (done || lia);
    cbn [hc_size]; try lia.
  - intros id' c [[<- <-]|[Hne Hc]]%lookup_insert_Some; [cbn; split_and!; auto; lia|].
    destruct (hi_cell _ HI id' c Hc) as (? & ? & ?). split_and!; auto; lia.
  - intros i j c d [[<- <-]|[_ Hc]]%lookup_insert_Some [[<- <-]|[_ Hd]]%lookup_insert_Some; cbn; try done.
    + destruct (hi_cell _ HI j d Hd) as (_ & _ & ?). lia.
    + destruct (hi_cell _ HI i c Hc) as (_ & _ & ?). lia.
    + by apply (hi_distinct _ HI).
Qed.

Lemma touch_inv id c h :
  HInv h → hs_cells h !! id = Some c → hs_tick h + 1 < 2 ^ 64 →
  HInv {| hs_cells := <[id := touch c (hs_tick h)]> (hs_cells h);
          hs_capacity := hs_capacity h; hs_usage := hs_usage h;
          hs_tick := u64 (hs_tick h + 1); hs_evictions := hs_evictions h;
          hs_evicted_bytes := hs_evicted_bytes h; hs_enforce := hs_enforce h |}.
Proof.
  intros HI Hc Ht. pose proof (hi_tick _ HI). pose proof (hi_usage _ HI). pose proof (hi_bound _ HI).
  assert (usage_of (<[id := touch c (hs_tick h)]> (hs_cells h)) = usage_of (hs_cells h)) as Hu.
  { rewrite <-insert_delete_eq, usage_of_insert by apply lookup_delete_eq.
    by rewrite (usage_of_delete _ _ _ Hc). }
  destruct (hi_cell _ HI id c Hc) as (Hh & Hs & _).
  split; cbn [hs_cells hs_usage hs_tick]; unfold u64; rewrite ?Hu, ?Z.mod_small by lia; try lia.
  - intros id' c' [[<- <-]|[Hne Hc']]%lookup_insert_Some; [cbn; split_and!; auto; lia|].
    destruct (hi_cell _ HI id' c' Hc') as (? & ? & ?). split_and!; auto; lia.
  - intros i j a d [[<- <-]|[_ Ha]]%lookup_insert_Some [[<- <-]|[_ Hd]]%lookup_insert_Some; cbn; try done.
    + destruct (hi_cell _ HI j d Hd) as (_ & _ & ?). lia.
    + destruct (hi_cell _ HI i a Ha) as (_ & _ & ?). lia.
    + by apply (hi_distinct _ HI).
Qed.

Lemma evicted_coherent cold workers h h' : evicted h h' → coherent cold workers h → coherent cold workers h'.
Proof.
  intros Hev Hco id c Hc. rewrite (ev_enforce _ _ Hev). apply Hco.
  by eapply lookup_weaken; [exact Hc|apply Hev].
Qed.

Lemma get_manifest_no_panic cold A id : Inv cold A → get_manifest cold id ≠ Panic.
Proof.
  intros HI. destruct (a_manifests A !! id) as [m|] eqn:E.
  - by rewrite (get_manifest_ok cold A id m HI E).
  - by rewrite (get_manifest_none cold A id HI E).
Qed.

Lemma check_policy_no_panic enforce m : check_policy enforce m ≠ Panic.
Proof. unfold check_policy, verify_manifest. no_panic. Qed.

(** What a request needs from its environment: the schedule covers the
    cell's chunks and the [u64] sums do not overflow. *)
Definition request_ok (cold : ChunkStore) (sched : list nat) (id : bytes) (h : HotStore) : Prop :=
  hs_tick h + 1 < 2 ^ 64 ∧
  ∀ m, get_manifest cold id = Ok m →
       covers sched (length (m_chunks m)) ∧ 0 ≤ m_total_size m < 2 ^ 63 ∧
       hs_usage h + m_total_size m < 2 ^ 64.

Definition within_budget (id : bytes) (h : HotStore) : Prop :=
  hs_usage h ≤ hs_capacity h ∨ ∃ c, hs_cells h = {[ id := c ]}.

(** The outcome of a miss. *)
Lemma hydrate_ok cold A workers sched id h :
  Inv cold A → HInv h → coherent cold workers h → hs_cells h !! id = None → request_ok cold sched id h →
  ∃ h' r, hydrate cold workers sched id h = (h', r) ∧ HInv h' ∧ coherent cold workers h' ∧ r ≠ Panic ∧
    (∀ b, r = Ok b ↔ cell_spec cold workers (hs_enforce h) id = Ok b) ∧
    (∀ b, r = Ok b → within_budget id h').
Proof.
  intros HI HH Hco Hn [Ht Hreq]. unfold hydrate, hydrate_prepare, cell_spec.
  destruct (get_manifest cold id) as [m|e|] eqn:Hg; cbn [mbind res_bind].
  2:{ exists h, (Err e). split_and!; done. }
  2:{ by apply (get_manifest_no_panic cold A) in Hg. }
  destruct (Hreq m eq_refl) as (Hcov & Hcap & Hsum).
  destruct (check_policy (hs_enforce h) m) as [[]|e|] eqn:Hp; cbn [mbind res_bind].
  2:{ exists h, (Err e). split_and!; done. }
  2:{ by apply check_policy_no_panic in Hp. }
  destruct (make_room_loop_ok (size (hs_cells h)) (m_total_size m) h) as (h1 & Hr & HH1 & Hev & Hend & Hle);
    [done|lia|done|done|].
  unfold make_room. rewrite Hr.
  destruct (assemble_reads cold A workers sched id m HI Hg ltac:(lia) Hcov) as (Hnp & Hlen & Hiff).
  pose proof (evicted_coherent _ workers _ _ Hev Hco) as Hco1.
  destruct (assemble cold workers sched m) as [b|e|] eqn:Ha; cbn [mbind res_bind]; [| |done].
  2:{ exists h1, (Err e). split_and!; try done. }
  pose proof (proj1 (Hiff b) eq_refl) as Hread. specialize (Hlen b eq_refl).
  assert (hs_cells h1 !! id = None) as Hn1.
  { destruct (hs_cells h1 !! id) eqn:E; [|done]. pose proof (lookup_weaken _ _ _ _ E (ev_sub _ _ Hev)). congruence. }
  exists (commit_cell id (m_total_size m) b h1), (Ok b). split; [done|].
  split; [apply commit_inv; rewrite ?(ev_tick _ _ Hev); auto; lia|].
  split.
  { intros k c Hc. cbn [commit_cell hs_cells hs_enforce] in *. rewrite (ev_enforce _ _ Hev).
    apply lookup_insert_Some in Hc as [[<- <-]|[_ Hc]].
    - unfold cell_spec. rewrite Hg. cbn [mbind res_bind]. by rewrite Hp.
    - rewrite <-(ev_enforce _ _ Hev). by apply Hco1. }
  split; [done|]. split; [intros b'; split; [intros [= <-]; done|by intros ?%Hiff]|].
  intros _ _. unfold within_budget, commit_cell. cbn [hs_usage hs_capacity hs_cells].
  destruct Hend as [Hfit| ->]; [left|right; by eexists].
  pose proof (usage_nonneg _ HH1). rewrite (hi_usage _ HH1) in *. unfold u64. rewrite Z.mod_small by lia.
  by rewrite (ev_capacity _ _ Hev).
Qed.

(** The cache is transparent: over a consistent cold store, whichever
    way the workers' writes interleave, a request returns a cell exactly when
    the uncached read does (manifest found, signature policy met, payload
    reassembled) and returns what was delivered of its chunks, which is the
    payload unless a positioned write was short; it never panics, keeps the
    accounting exact and every resident cell faithful, and a hydrated cell
    leaves the cache within budget unless that cell is alone in it. *)
Theorem acquire_transparent cold A workers sched id h :
  Inv cold A → HInv h → coherent cold workers h → request_ok cold sched id h →
  ∃ h' r, acquire cold workers sched id h = (h', r) ∧ HInv h' ∧ coherent cold workers h' ∧ r ≠ Panic ∧
    (∀ b, r = Ok b ↔ cell_spec cold workers (hs_enforce h) id = Ok b) ∧
    (∀ b, r = Ok b → hs_cells h !! id = None → within_budget id h').
Proof.
  intros HI HH Hco Hreq. unfold acquire. destruct (hs_cells h !! id) as [c|] eqn:E.
  - do 2 eexists. split; [done|]. split; [apply touch_inv; [done..|apply Hreq]|].
    pose proof (Hco id c E) as Hspec. split.
    + intros k d Hd. cbn [hs_cells hs_enforce] in *.
      apply lookup_insert_Some in Hd as [[<- <-]|[_ Hd]]; [done|by apply Hco].
    + split; [done|]. split; [|done]. intros b. rewrite Hspec. done.
  - destruct (hydrate_ok cold A workers sched id h HI HH Hco E Hreq) as (h' & r & Ha & Hb & Hc & Hd & He & Hf).
    exists h', r. split_and!; try done. intros b Hr _. by eapply Hf.
Qed.

(** Two threads that both miss on one cell both commit it: the second insert
    replaces the first cell without subtracting it, and the counter keeps
    [total] bytes that no eviction can ever give back. *)
Lemma double_hydration_leaks id total mmap h :
  HInv h → hs_cells h !! id = None → total = Zlen mmap → hs_usage h + 2 * total < 2 ^ 64 →
  let h2 := commit_cell id total mmap (commit_cell id total mmap h) in
  hs_usage h2 = usage_of (hs_cells h2) + total.
Proof.
  intros HI Hn -> Hb. cbv zeta. pose proof (usage_nonneg h HI). pose proof (hi_usage _ HI).
  unfold commit_cell, u64. cbn [hs_cells hs_usage hs_tick].
  rewrite insert_insert_eq, usage_of_insert by done. cbn [hc_size].
  rewrite (Z.mod_small (hs_usage h + _)) by lia. rewrite Z.mod_small by lia. lia.
Qed.

(** The budget is taken before the sizes are checked: a stored manifest that
    claims more bytes than its chunks have empties the cache on its way to
    the error. *)
Lemma lying_manifest_evicts cold A workers sched id m h raws :
  Inv cold A → HInv h → get_manifest cold id = Ok m → check_policy (hs_enforce h) m = Ok () →
  Forall2 (stored A) (m_chunks m) raws → Zlen (concat raws) < m_total_size m →
  hs_capacity h < m_total_size m → hs_usage h + m_total_size m < 2 ^ 64 →
  ∃ h' e, hydrate cold workers sched id h = (h', Err e) ∧ hs_cells h' = ∅.
Proof.
  intros HI HH Hg Hp Hall Hlie Hcap Hsum. unfold hydrate, hydrate_prepare. rewrite Hg. cbn [mbind res_bind].
  rewrite Hp. cbn [mbind res_bind].
  destruct (make_room_loop_ok (size (hs_cells h)) (m_total_size m) h) as (h1 & Hr & HH1 & Hev & Hend & Hle);
    [done|lia|done|done|].
  unfold make_room. rewrite Hr. unfold assemble. rewrite (raw_lens_ok cold A _ raws) by done.
  cbn [mbind res_bind]. pose proof (usage_nonneg _ HH). pose proof (hi_usage _ HH).
  rewrite offsets_ok by lia. cbn [mbind res_bind].
  destruct (Z.eqb_spec (0 + Zlen (concat raws)) (m_total_size m)); [lia|]. cbn [negb mbind res_bind].
  do 2 eexists. split; [done|]. destruct Hend as [Hfit|]; [|done].
  pose proof (usage_nonneg _ HH1). rewrite (hi_usage _ HH1) in Hfit. lia.
Qed.
End transparency.

(** ** A concrete cell *)
Section witnesses.
#[local] Existing Instance toy_blake3.
#[local] Existing Instance toy_lz4.
#[local] Existing Instance toy_ed25519.
#[local] Existing Instance toy_blake3_laws.
#[local] Existing Instance toy_lz4_laws.

Definition full_writes : WriteAt := λ b _, length b.
#[local] Existing Instance full_writes.
(** A system that accepts nothing of a positioned write, and says so: the code
    does not look, and the mapping of 64 chunks is 64 zeros. *)
Definition no_writes : WriteAt := λ _ _, 0%nat.
Example short_writes_delivered :
  let raws := replicate 64 [Byte.x01] in
  delivered (H:=no_writes) 2 raws = replicate 64 Byte.x00 ∧ delivered (H:=no_writes) 1 raws = concat raws ∧
  delivered (H:=full_writes) 2 raws = concat raws.
Proof. by vm_compute. Qed.

Definition demo_id : bytes :=
  match list_manifests StoreReach.demo2 with Ok (id :: _) => id | _ => [] end.

Definition two_cells : HotStore :=
  let cell := λ id n t, {| hc_manifest_hash := id; hc_size := n;
    hc_mmap := replicate (Z.to_nat n) Byte.x00; hc_last_used := t |} in
  {| hs_cells := {[ str "a" := cell (str "a") 6 1; str "b" := cell (str "b") 5 0 ]};
     hs_capacity := 12; hs_usage := 11; hs_tick := 2; hs_evictions := 0; hs_evicted_bytes := 0;
     hs_enforce := false |}.

Lemma two_cells_inv : HInv two_cells.
Proof.
  split; [vm_compute; reflexivity|vm_compute; reflexivity| |done|]; cbn [two_cells hs_cells hs_tick].
  - intros id c [[<- <-]|[_ [<- <-]%lookup_singleton_Some]]%lookup_insert_Some; cbn; split_and!; done || lia.
  - intros i j c d [[<- <-]|[_ [<- <-]%lookup_singleton_Some]]%lookup_insert_Some
      [[<- <-]|[_ [<- <-]%lookup_singleton_Some]]%lookup_insert_Some; cbn; done.
Qed.

Lemma make_room_lru_witness :
  victim (hs_cells two_cells) = Some (str "b") ∧
  ∃ h', make_room 4 two_cells = (h', Ok ()) ∧ HInv h' ∧ evicted two_cells h' ∧
        (hs_usage h' + 4 ≤ 12 ∨ hs_cells h' = ∅) ∧ (11 + 4 ≤ 12 → h' = two_cells).
Proof.
  split; [vm_compute; reflexivity|].
  apply (make_room_lru 4 two_cells two_cells_inv); [done|vm_compute; reflexivity].
Defined.

Lemma acquire_transparent_witness :
  ∃ h' r, acquire StoreReach.demo2 8 [0%nat] demo_id (new 100 false) = (h', r) ∧ HInv h' ∧
    coherent StoreReach.demo2 8 h' ∧ r ≠ Panic ∧
    (∀ b, r = Ok b ↔ cell_spec StoreReach.demo2 8 false demo_id = Ok b) ∧
    (∀ b, r = Ok b → hs_cells (new 100 false) !! demo_id = None → within_budget demo_id h').
Proof.
  destruct StoreReach.demo2_inv as (A & HI & _).
  apply (acquire_transparent StoreReach.demo2 A 8 [0%nat] demo_id (new 100 false) HI).
  - apply new_inv.
  - intros id c. cbn. by rewrite lookup_empty.
  - split; [done|]. intros m Hm. vm_compute in Hm. injection Hm as <-. split; [|done].
    intros i. cbn. rewrite list_elem_of_singleton. lia.
Defined.
End witnesses.

End HotStore.
