(* ===== verification/Remote.v ===== *)
(** * The remote binary cache ([avm-cas/src/remote.rs])

    The client of the REST cache. The transport and the server behind it are
    parameters: any function of the server's state and the request, honest or
    not. JSON of the missing-list is a parameter too. The client keeps a log of
    the requests it sent, so that what travels can be stated. *)

From S2P Require Import Prelude Cas Chunker Compression Cursor Manifest Disk Store StoreSpec StoreOps StoreBuffer.
Import Hex Manifest Store StoreSpec StoreOps StoreBuffer.

Module Remote.

Inductive Method := HEAD | GET | PUT | POST.
Record Request := { rq_method : Method; rq_url : bytes; rq_body : bytes }.
(** [rp_body] is [None] when reading the body fails. *)
Record Response := { rp_status : Z; rp_body : option bytes }.

#[export] Instance Method_eq_dec : EqDecision Method.
Proof. solve_decision. Defined.
#[export] Instance Request_eq_dec : EqDecision Request.
Proof. solve_decision. Defined.

(** The transport: [None] is a failed [send]. *)
Class Transport (Sv : Type) := serve : Sv → Request → Sv * option Response.

(** [serde_json]: the request body, and the ["missing"] array of a reply whose
    entries are strings or not. *)
Class Json := {
  json_hashes : list bytes → bytes;
  json_missing : bytes → option (option (list (option bytes)))
}.

Record World (Sv : Type) := { w_server : Sv; w_store : ChunkStore; w_log : list Request }.
Arguments w_server {Sv}. Arguments w_store {Sv}. Arguments w_log {Sv}.
Arguments Build_World {Sv}.

Definition remote_err (s : String.string) : CasError := Remote (str s).
Definition is_success (status : Z) : bool := (200 <=? status) && (status <? 300).

(** [Remote::new]: trailing slashes trimmed. *)
Definition new (base : bytes) : bytes :=
  rev ((fix go (r : bytes) : bytes :=
          match r with
          | [] => []
          | b :: r' => if b2z b =? 47 then go r' else r
          end) (rev base)).

Definition chunk_url (base id : bytes) : bytes := base ++ str "/chunks/" ++ hex id.
Definition manifest_url (base id : bytes) : bytes := base ++ str "/manifests/" ++ hex id.

(** The ids [pull_chunks] will request: absent locally, first occurrence. *)
Fixpoint want_list (map : gmap bytes ChunkEntry) (seen : gset bytes) (ids : list bytes) : list bytes :=
  match ids with
  | [] => []
  | id :: ids =>
      if bool_decide (map !! id = None) && negb (bool_decide (id ∈ seen))
      then id :: want_list map ({[id]} ∪ seen) ids
      else want_list map seen ids
  end.

Section client.
Context `{Blake3} `{Lz4} {Sv : Type} `{!Transport Sv} `{Json}.
Context (base : bytes).

Definition rt (A : Type) : Type := stm (World Sv) CasError A.

Definition send (rq : Request) : rt Response := λ w,
  let '(sv, rp) := serve (w_server w) rq in
  (Build_World sv (w_store w) (w_log w ++ [rq]), ok_or rp (remote_err "{method} {url}: {e}")).

Definition on_store {A} (f : st A) : rt A := λ w,
  let '(s, r) := f (w_store w) in (Build_World (w_server w) s (w_log w), r).

Definition body (rp : Response) : rt bytes := stm_lift (ok_or (rp_body rp) (remote_err "{method} {url} body: {e}")).

Definition missing_chunks (ids : list bytes) : rt (list bytes) :=
  rp ← send {| rq_method := POST; rq_url := base ++ str "/chunks/missing";
               rq_body := json_hashes (hex <$> ids) |};
  if negb (is_success (rp_status rp)) then stm_err (remote_err "POST {url}: HTTP {status}")
  else
  text ← body rp;
  v ← stm_lift (ok_or (json_missing text) (remote_err "missing-list {e}"));
  arr ← stm_lift (ok_or v (remote_err "missing-list: no `missing` array"));
  stm_foldl (λ out h,
    s ← stm_lift (ok_or h (remote_err "missing-list: entry not a string"));
    d ← stm_lift (map_err (λ _, remote_err "missing-list hex: {e}") (unhex s));
    mret (out ++ [d])) [] arr.

Definition push_chunks (ids : list bytes) : rt Z :=
  missing ← missing_chunks ids;
  _ ← stm_foldl (λ _ id,
    bytes ← on_store (st_try (λ s, get_chunk s id));
    rp ← send {| rq_method := PUT; rq_url := chunk_url base id; rq_body := bytes |};
    if negb (is_success (rp_status rp)) then stm_err (remote_err "PUT {url}: HTTP {status}")
    else mret ()) () missing;
  mret (Zlen missing).

(** One download: the bytes are checked against the id before they are kept. *)
Definition fetch_chunk (fetched : list bytes) (id : bytes) : rt (list bytes) :=
  rp ← send {| rq_method := GET; rq_url := chunk_url base id; rq_body := [] |};
  if rp_status rp =? 404 then stm_err (remote_err "chunk {} vanished between listing and fetch")
  else if negb (is_success (rp_status rp)) then stm_err (remote_err "GET {url}: HTTP {status}")
  else
  bytes ← body rp;
  if negb (bool_decide (blake3 bytes = id)) then
    stm_err (corrupt "remote chunk {} does not match its digest (got {})")
  else mret (fetched ++ [bytes]).

Definition pull_chunks (ids : list bytes) : rt Z :=
  want ← on_store (st_get (λ s, want_list (cs_state s) ∅ ids));
  fetched ← stm_foldl fetch_chunk [] want;
  _ ← match fetched with [] => mret () | _ => _ ← on_store (put_chunk_batch fetched); mret () end;
  mret (Zlen want).

Definition head_ok (url : bytes) : rt bool :=
  rp ← send {| rq_method := HEAD; rq_url := url; rq_body := [] |};
  if rp_status rp =? 200 then mret true
  else if rp_status rp =? 404 then mret false
  else stm_err (remote_err "HEAD {url}: HTTP {s}").

Definition has_chunk (id : bytes) : rt bool := head_ok (chunk_url base id).
Definition has_manifest (id : bytes) : rt bool := head_ok (manifest_url base id).

Definition push_manifest (id : bytes) : rt () :=
  m ← on_store (st_try (λ s, get_manifest s id));
  rp ← send {| rq_method := PUT; rq_url := manifest_url base id; rq_body := to_bytes m |};
  if negb (is_success (rp_status rp)) then stm_err (remote_err "PUT {url}: HTTP {status}")
  else mret ().

Definition pull_manifest (id : bytes) : rt () :=
  rp ← send {| rq_method := GET; rq_url := manifest_url base id; rq_body := [] |};
  if rp_status rp =? 404 then stm_err (NotFound (hex id))
  else if negb (is_success (rp_status rp)) then stm_err (remote_err "GET {url}: HTTP {status}")
  else
  bytes ← body rp;
  m ← stm_lift (map_err (λ _, remote_err "manifest {} undecodable: {e}") (from_bytes bytes));
  if negb (bool_decide (identity_digest m = id)) then
    stm_err (corrupt "remote manifest {} has identity {}")
  else
  _ ← on_store (put_manifest m);
  mret ().
End client.

(** ** What an untrusted server can do *)
Lemma want_list_spec map seen ids :
  NoDup (want_list map seen ids) ∧
  ∀ id, id ∈ want_list map seen ids ↔ id ∈ ids ∧ map !! id = None ∧ id ∉ seen.
Proof.
  revert seen; induction ids as [|x ids IH]; intros seen; cbn [want_list].
  { split; [constructor|]. intros id. split; [by intros ?%not_elem_of_nil|by intros [?%not_elem_of_nil _]]. }
  destruct (bool_decide_reflect (map !! x = None)) as [Hx|Hx]; cbn [andb].
  - destruct (bool_decide_reflect (x ∈ seen)) as [Hs|Hs]; cbn [negb].
    + destruct (IH seen) as [Hnd Hin]. split; [done|]. intros id. rewrite Hin, elem_of_cons.
      split; [tauto|]. intros ([->|?] & ? & ?); tauto.
    + destruct (IH ({[x]} ∪ seen)) as [Hnd Hin]. split.
      * apply NoDup_cons. split; [|done]. rewrite Hin, elem_of_union, elem_of_singleton. tauto.
      * intros id. rewrite !elem_of_cons, Hin, elem_of_union, elem_of_singleton.
        destruct (decide (id = x)) as [->|]; tauto.
  - destruct (IH seen) as [Hnd Hin]. split; [done|]. intros id. rewrite Hin, elem_of_cons.
    split; [tauto|]. intros ([->|?] & ? & ?); tauto.
Qed.

Section untrusted.
Context `{Blake3} `{Lz4} {Sv : Type} `{!Transport Sv} `{Json}.
Context (base : bytes).

(** HTTP bodies below 4 GiB, so that a chunk's length fits its index field. *)
Definition small_bodies : Prop :=
  ∀ sv rq sv' rp b, serve sv rq = (sv', Some rp) → rp_body rp = Some b → Zlen b < 2 ^ 32.

Definition get_rq (id : bytes) : Request :=
  {| rq_method := GET; rq_url := chunk_url base id; rq_body := [] |}.

Lemma fetch_chunk_spec w fetched id :
  small_bodies →
  ∃ sv r, fetch_chunk base fetched id w = (Build_World sv (w_store w) (w_log w ++ [get_rq id]), r) ∧
    match r with
    | Ok f => ∃ b, f = fetched ++ [b] ∧ blake3 b = id ∧ Zlen b < 2 ^ 32
    | Err _ => True
    | Panic => False
    end.
Proof.
  intros Hsm. unfold fetch_chunk, send, body, mbind, stm_bind, stm_lift, stm_err, mret, stm_ret.
  fold (get_rq id). destruct (serve (w_server w) (get_rq id)) as [sv [rp|]] eqn:Hs; cbn [ok_or];
    [|by do 2 eexists].
  exists sv. case_match; [by eexists|]. case_match; [by eexists|].
  destruct (rp_body rp) as [b|] eqn:Hb; cbn [ok_or]; [|by eexists].
  case_bool_decide as Hd; cbn [negb]; [|by eexists].
  eexists. split; [done|]. exists b. split_and!; [done..|]. by eapply Hsm.
Qed.

Lemma fetch_all_spec w fetched want :
  small_bodies →
  ∃ sv pre r, stm_foldl (fetch_chunk base) fetched want w =
      (Build_World sv (w_store w) (w_log w ++ (get_rq <$> pre)), r) ∧ pre `prefix_of` want ∧
    match r with
    | Ok f => pre = want ∧ ∃ new, f = fetched ++ new ∧ blake3 <$> new = want ∧
                                Forall (λ b, Zlen b < 2 ^ 32) new
    | Err _ => True
    | Panic => False
    end.
Proof.
  intros Hsm. revert w fetched; induction want as [|id want IH]; intros w fetched; cbn [stm_foldl].
  { exists (w_server w), []. eexists. split; [destruct w; cbn; by rewrite app_nil_r|].
    split; [done|]. split; [done|]. exists []. by rewrite app_nil_r. }
  unfold mbind, stm_bind.
  destruct (fetch_chunk_spec w fetched id Hsm) as (sv & r & -> & Hr). destruct r as [f|e|]; [| |done].
  - destruct Hr as (b & -> & Hb & Hl).
    destruct (IH (Build_World sv (w_store w) (w_log w ++ [get_rq id])) (fetched ++ [b]))
      as (sv' & pre & r & -> & Hpre & Hr). cbn [w_store w_log].
    exists sv', (id :: pre), r. rewrite <-app_assoc. split; [done|]. split; [by apply prefix_cons|].
    destruct r as [f|e|]; [|done..]. destruct Hr as (-> & new & -> & Hn & Hall). split; [done|].
    exists (b :: new). rewrite <-app_assoc, fmap_cons, Hb, Hn. split_and!; try done. by constructor.
  - exists sv, [id], (Err e). split; [done|]. split; [|done]. by apply prefix_cons, prefix_nil.
Qed.

Lemma weight_bound raws : Forall (λ b, Zlen b < 2 ^ 32) raws → weight raws ≤ (5 + 2 ^ 32) * Zlen raws.
Proof. induction 1; cbn [weight length]; lia. Qed.

(** A lying cache cannot poison the store through [pull_chunks]: for
    any server whatsoever, only hashes the store lacks are requested, each
    at most once; on success the store gained, under the requested digests,
    payloads that hash to them, and holds every id asked for; on any failure
    the store is untouched. *)
Theorem pull_chunks_verified `{!Blake3Laws, !Lz4Laws} w A ids :
  Inv (w_store w) A → small_bodies →
  Z.of_nat (size (cs_state (w_store w))) + Zlen ids < 2 ^ 30 →
  cs_next_pack_id (w_store w) + 1 < 2 ^ 32 →
  ∃ want w' r pre, pull_chunks base ids w = (w', r) ∧
    NoDup want ∧ (∀ id, id ∈ want ↔ id ∈ ids ∧ a_chunks A !! id = None) ∧
    w_log w' = w_log w ++ (get_rq <$> pre) ∧ pre `prefix_of` want ∧
    match r with
    | Ok n => pre = want ∧ n = Zlen want ∧
        ∃ raws, blake3 <$> raws = want ∧ Inv (w_store w') (with_chunks A raws) ∧
                ∀ id, id ∈ ids → is_Some (a_chunks (with_chunks A raws) !! id)
    | Err _ => w_store w' = w_store w
    | Panic => False
    end.
Proof.
  intros HI Hsm Hc Hn. set (want := want_list (cs_state (w_store w)) ∅ ids).
  destruct (want_list_spec (cs_state (w_store w)) ∅ ids) as [Hnd Hin]. fold want in Hnd, Hin.
  assert (∀ id, a_chunks A !! id = None ↔ cs_state (w_store w) !! id = None) as Hdom.
  { intros id. pose proof (inv_dom_iff (w_store w) A id HI) as Hd. rewrite !eq_None_not_Some, Hd.
    pose proof (not_elem_of_empty (C:=gset bytes) id). tauto. }
  assert (∀ id, id ∈ want ↔ id ∈ ids ∧ a_chunks A !! id = None) as Hwant.
  { intros id. rewrite Hin, Hdom. pose proof (not_elem_of_empty (C:=gset bytes) id). tauto. }
  assert (Zlen want ≤ Zlen ids) as Hlen.
  { apply Nat2Z.inj_le, submseteq_length, NoDup_submseteq; [done|]. intros id Hid. by apply Hwant in Hid as [? _]. }
  destruct (fetch_all_spec w [] want Hsm) as (sv & pre & r & Hrun & Hpre & Hr).
  exists want. unfold pull_chunks, on_store, st_get, mbind, stm_bind, mret, stm_ret. fold want.
  replace {| w_server := w_server w; w_store := w_store w; w_log := w_log w |} with w by (by destruct w).
  rewrite Hrun. destruct r as [f|e|]; [| |done].
  2:{ do 3 eexists. split_and!; [done|done|done| |exact Hpre|done]. done. }
  destruct Hr as (-> & new & -> & Hnew & Hsz). cbn [app].
  assert (Zlen new = Zlen want) as Hl by (by rewrite <-Hnew, length_fmap).
  assert (room (w_store w) new) as Hroom.
  { split; [done| |lia|done]. pose proof (weight_bound new Hsz). lia. }
  destruct (put_chunk_batch_ok (w_store w) A new HI Hroom) as (s' & Hput & Hinv).
  assert (∀ id, id ∈ ids → is_Some (a_chunks (with_chunks A new) !! id)) as Hall.
  { intros id Hid. cbn. destruct (a_chunks A !! id) as [x|] eqn:Ex.
    - exists x. by apply add_chunks_lookup_Some.
    - assert (id ∈ want) as Hw by (by apply Hwant). rewrite <-Hnew in Hw.
      apply list_elem_of_fmap in Hw as (raw & -> & Hraw). by apply add_chunks_elem. }
  destruct new as [|b new].
  - do 3 eexists. split; [done|]. split_and!; try done. exists []. split_and!; try done. by destruct A.
  - cbn [w_store w_server w_log]. rewrite Hput. do 3 eexists. split; [done|]. split_and!; try done.
    by exists (b :: new).
Qed.

(** A pulled manifest is what was asked for: for any server, success
    means a well-formed manifest with the requested identity was recorded and
    is readable under it, all its chunks being present; every failure leaves
    the store untouched. *)
Theorem pull_manifest_verified w A id :
  Inv (w_store w) A → small_bodies →
  ∃ w' r, pull_manifest base id w = (w', r) ∧
    match r with
    | Ok _ => ∃ m, identity_digest m = id ∧ manifest_wf m ∧ Inv (w_store w') (add_manifest A m) ∧
                   get_manifest (w_store w') id = Ok m
    | Err _ => w_store w' = w_store w
    | Panic => False
    end.
Proof.
  intros HI Hsm. unfold pull_manifest, send, body, mbind, stm_bind, stm_lift, stm_err, mret, stm_ret.
  destruct (serve (w_server w) _) as [sv [rp|]] eqn:Hs; cbn [ok_or]; [|by do 2 eexists].
  case_match; [by do 2 eexists|]. case_match; [by do 2 eexists|].
  destruct (rp_body rp) as [b|] eqn:Hb; cbn [ok_or]; [|by do 2 eexists].
  destruct (decode_exact b) as [Hnp Hdec].
  { unfold buffer. pose proof (Hsm _ _ _ _ _ Hs Hb). lia. }
  unfold from_bytes. destruct (decode b) as [m|e|]; cbn [map_err]; [|by do 2 eexists|done].
  destruct (proj1 (Hdec m) eq_refl) as [Hwf _].
  case_bool_decide as Hid; cbn [negb]; [|by do 2 eexists]. unfold on_store. cbn [w_store].
  destruct (put_manifest_cases (w_store w) A m HI Hwf) as [(s' & -> & Hinv)|(why & ->)].
  - do 2 eexists. split; [done|]. exists m. split_and!; try done. cbn.
    eapply get_manifest_ok; [exact Hinv|]. rewrite <-Hid. apply lookup_insert_eq.
  - do 2 eexists. split; [done|]. done.
Qed.

(** The identity covers the unsigned part only: a server that answers with
    the same manifest stripped of its signature passes the identity check,
    and the pull replaces the signed manifest the store held. *)
Lemma remote_strips_signature w A id m sv :
  Inv (w_store w) A → a_manifests A !! id = Some m →
  serve (w_server w) {| rq_method := GET; rq_url := manifest_url base id; rq_body := [] |} =
    (sv, Some {| rp_status := 200; rp_body := Some (encode_signed (unsigned m)) |}) →
  ∃ w', pull_manifest base id w = (w', Ok ()) ∧ get_manifest (w_store w') id = Ok (unsigned m).
Proof.
  intros HI Hm Hs. destruct (inv_manifest _ _ HI id m Hm) as (_ & Hwf & Hid & Hc).
  pose proof (unsigned_wf m Hwf) as Hwf'.
  unfold pull_manifest, send, body, mbind, stm_bind, stm_lift, stm_err, mret, stm_ret. rewrite Hs.
  cbn [ok_or rp_status rp_body]. unfold from_bytes. rewrite decode_encode by done. cbn [map_err].
  assert (identity_digest (unsigned m) = id) as Hid' by (rewrite <-Hid; done).
  rewrite bool_decide_eq_true_2 by done. cbn. unfold on_store. cbn [w_store].
  destruct (put_manifest_ok (w_store w) A (unsigned m) HI Hwf' Hc) as (s' & -> & Hinv & _).
  eexists. split; [done|]. cbn. eapply get_manifest_ok; [exact Hinv|]. rewrite <-Hid'. apply lookup_insert_eq.
Qed.
End untrusted.

Section witnesses.
#[local] Existing Instance toy_blake3.
#[local] Existing Instance toy_lz4.
#[local] Existing Instance toy_blake3_laws.
#[local] Existing Instance toy_lz4_laws.

(** A cache with one chunk, answering everything else with a manifest. *)
Definition demo_serve : Transport () := λ _ rq,
  ((), Some {| rp_status := 200;
               rp_body := Some (if decide (rq_url rq = chunk_url (str "http://h") (blake3 (str "hi")))
                                then str "hi" else encode_signed (Manifest.new (str "a") (str "1"))) |}).
#[local] Existing Instance demo_serve.

Definition demo_world : World () := Build_World () store0 [].

Lemma demo_small : small_bodies.
Proof.
  intros sv rq sv' rp b Hs Hb. unfold serve, demo_serve in Hs. injection Hs as _ <-. cbn in Hb.
  injection Hb as <-. case_decide; vm_compute; reflexivity.
Qed.

Lemma pull_chunks_verified_witness :
  ∃ want w' r pre, pull_chunks (str "http://h") [blake3 (str "hi")] demo_world = (w', r) ∧
    NoDup want ∧ (∀ id, id ∈ want ↔ id ∈ [blake3 (str "hi")] ∧ (∅ : gmap bytes bytes) !! id = None) ∧
    w_log w' = w_log demo_world ++ (get_rq (str "http://h") <$> pre) ∧ pre `prefix_of` want ∧
    match r with
    | Ok n => pre = want ∧ n = Zlen want ∧
        ∃ raws, blake3 <$> raws = want ∧ Inv (w_store w') (with_chunks abs_empty raws) ∧
                ∀ id, id ∈ [blake3 (str "hi")] → is_Some (a_chunks (with_chunks abs_empty raws) !! id)
    | Err _ => w_store w' = w_store demo_world
    | Panic => False
    end.
Proof.
  apply (pull_chunks_verified (str "http://h") demo_world abs_empty [blake3 (str "hi")]);
    [apply inv_empty|apply demo_small|vm_compute; reflexivity|vm_compute; reflexivity].
Defined.

Lemma pull_manifest_verified_witness :
  let id := identity_digest (Manifest.new (str "a") (str "1")) in
  ∃ w' r, pull_manifest (str "http://h") id demo_world = (w', r) ∧
    match r with
    | Ok _ => ∃ m, identity_digest m = id ∧ manifest_wf m ∧ Inv (w_store w') (add_manifest abs_empty m) ∧
                   get_manifest (w_store w') id = Ok m
    | Err _ => w_store w' = w_store demo_world
    | Panic => False
    end.
Proof.
  apply (pull_manifest_verified (str "http://h") demo_world abs_empty); [apply inv_empty|apply demo_small].
Defined.
End witnesses.

End Remote.
