(* ===== verification/Derivation.v ===== *)
(** * The derivation input-hash calculus ([avm-eval/src/hash.rs], [graph.rs])

    [Derivation] and [calculate_derivation_hash]: the canonical byte encoding
    that is hashed, its independence of the order of unordered inputs, and its
    injectivity up to that order. *)

From S2P Require Import Prelude Cas Cursor Text Store.
Import Store.

Module Derivation.

Inductive Totality := Proven | Unproven.

Record Derivation := {
  dv_name : bytes;
  dv_version : bytes;
  dv_builder_symbol : bytes;
  dv_dependencies : list bytes;
  dv_sources : list bytes;
  dv_env_vars : list (bytes * bytes);
  dv_totality : option Totality
}.

Definition is_proven (d : Derivation) : bool :=
  match dv_totality d with Some Proven => true | _ => false end.

Definition MAGIC : bytes := str "AVM_DRV_V1" ++ [Byte.x00].

(** [Ord] of [String] and of [(String, String)]. *)
Definition pair_leb (x y : bytes * bytes) : bool :=
  if decide (x.1 = y.1) then digest_leb x.2 y.2 else digest_leb x.1 y.1.
Definition pair_le (x y : bytes * bytes) : Prop := pair_leb x y = true.
#[export] Instance pair_le_dec x y : Decision (pair_le x y).
Proof. unfold pair_le. apply _. Defined.

Definition enc_str (s : bytes) : bytes := le_bytes 4 (Zlen s) ++ s.
Definition enc_list {A} (enc : A → bytes) (l : list A) : bytes :=
  le_bytes 4 (Zlen l) ++ concat (enc <$> l).

(** The byte string fed to the hasher. *)
Definition derivation_bytes (drv : Derivation) (dep_ids : list bytes) : bytes :=
  MAGIC ++ enc_str (dv_name drv) ++ enc_str (dv_version drv) ++ enc_str (dv_builder_symbol drv) ++
  enc_list id (merge_sort digest_le dep_ids) ++
  enc_list enc_str (merge_sort digest_le (dv_sources drv)) ++
  enc_list (λ kv, enc_str kv.1 ++ enc_str kv.2) (merge_sort pair_le (dv_env_vars drv)).

Definition calculate_derivation_hash `{Blake3} (drv : Derivation) (dep_ids : list bytes) : bytes :=
  blake3 (derivation_bytes drv dep_ids).

(** ** The order of pairs is total *)
#[export] Instance pair_le_total : Total pair_le.
Proof.
  intros [a b] [c d]. unfold pair_le, pair_leb. cbn [fst snd].
  destruct (decide (a = c)) as [->|Hne]; [rewrite decide_True by done|rewrite decide_False by congruence];
    apply digest_leb_total.
Qed.
#[export] Instance pair_le_trans : Transitive pair_le.
Proof.
  intros [a b] [c d] [e f]. unfold pair_le, pair_leb. cbn [fst snd].
  repeat case_decide; subst; try done; try apply digest_leb_trans.
  intros Hac Hca. exfalso. match goal with H : ?x ≠ ?x' |- _ => by apply H, digest_leb_antisym end.
Qed.
#[export] Instance pair_le_antisymm : AntiSymm (=) pair_le.
Proof.
  intros [a b] [c d]. unfold pair_le, pair_leb. cbn [fst snd].
  destruct (decide (a = c)) as [->|Hne]; [rewrite decide_True by done|rewrite decide_False by congruence];
    intros H1 H2; [f_equal|exfalso; apply Hne]; by apply digest_leb_antisym.
Qed.

(** ** Order independence *)
Lemma sort_perm_eq {A} (R : relation A) `{!∀ x y, Decision (R x y), !Total R, !Transitive R, !AntiSymm (=) R} l k :
  l ≡ₚ k → merge_sort R l = merge_sort R k.
Proof.
  intros Hp. apply (StronglySorted_unique R); [apply (StronglySorted_merge_sort R)..|].
  by rewrite !merge_sort_Permutation.
Qed.

(** Two derivations with the same inputs, listed in any order. *)
Record same_inputs (d1 d2 : Derivation) : Prop := {
  si_name : dv_name d1 = dv_name d2;
  si_version : dv_version d1 = dv_version d2;
  si_builder : dv_builder_symbol d1 = dv_builder_symbol d2;
  si_sources : dv_sources d1 ≡ₚ dv_sources d2;
  si_env : dv_env_vars d1 ≡ₚ dv_env_vars d2
}.

Lemma derivation_bytes_perm d1 d2 ids1 ids2 :
  same_inputs d1 d2 → ids1 ≡ₚ ids2 → derivation_bytes d1 ids1 = derivation_bytes d2 ids2.
Proof.
  intros [Hn Hv Hb Hs He] Hi. unfold derivation_bytes.
  by rewrite Hn, Hv, Hb, (sort_perm_eq _ _ _ Hi), (sort_perm_eq _ _ _ Hs), (sort_perm_eq _ _ _ He).
Qed.

(** ** Injectivity: every field is length-prefixed *)

(** The encoding of a [P] value is determined by any string it starts. *)
Definition prefix_free {A} (P : A → Prop) (enc : A → bytes) : Prop :=
  ∀ a b r r', P a → P b → enc a ++ r = enc b ++ r' → a = b ∧ r = r'.

Lemma prefix_free_le n : prefix_free (λ z, 0 ≤ z < 2 ^ (8 * Z.of_nat n)) (le_bytes n).
Proof.
  intros a b r r' Ha Hb Heq. apply app_inj_1 in Heq as [He Hr]; [|by rewrite !length_le_bytes].
  split; [|done]. by apply (le_bytes_inj n).
Qed.

Lemma prefix_free_fixed n : prefix_free (λ b : bytes, length b = n) id.
Proof. intros a b r r' Ha Hb Heq. apply app_inj_1 in Heq; [done|]. unfold id in *. congruence. Qed.

Lemma prefix_free_str : prefix_free (λ s, Zlen s < 2 ^ 32) enc_str.
Proof.
  intros a b r r' Ha Hb Heq. unfold enc_str in Heq. rewrite <-!app_assoc in Heq.
  apply (prefix_free_le 4) in Heq as [Hl Hr]; [|cbn; lia..].
  apply app_inj_1 in Hr; [done|lia].
Qed.

Lemma prefix_free_pair {A B} (P : A → Prop) (Q : B → Prop) ea eb :
  prefix_free P ea → prefix_free Q eb → prefix_free (λ x, P x.1 ∧ Q x.2) (λ x, ea x.1 ++ eb x.2).
Proof.
  intros HP HQ [a b] [a' b'] r r' [Ha Hb] [Ha' Hb'] Heq. cbn [fst snd] in *. rewrite <-!app_assoc in Heq.
  apply HP in Heq as [-> Heq]; [|done..]. by apply HQ in Heq as [-> ->].
Qed.

Lemma prefix_free_concat {A} (P : A → Prop) enc l k r r' :
  prefix_free P enc → length l = length k → Forall P l → Forall P k →
  concat (enc <$> l) ++ r = concat (enc <$> k) ++ r' → l = k ∧ r = r'.
Proof.
  intros HP Hlen Hl. revert k Hlen; induction Hl as [|a l Ha Hl IH]; intros [|b k] Hlen Hk Heq; try done.
  apply Forall_cons in Hk as [Hb Hk]. rewrite !fmap_cons in Heq. cbn [concat] in Heq.
  rewrite <-!app_assoc in Heq. apply HP in Heq as [-> Heq]; [|done..].
  apply IH in Heq as [-> ->]; [done|cbn in Hlen; lia|done].
Qed.

Lemma prefix_free_list {A} (P : A → Prop) enc :
  prefix_free P enc → prefix_free (λ l, Zlen l < 2 ^ 32 ∧ Forall P l) (enc_list enc).
Proof.
  intros HP l k r r' [Hl HPl] [Hk HPk] Heq. unfold enc_list in Heq. rewrite <-!app_assoc in Heq.
  apply (prefix_free_le 4) in Heq as [Hlen Heq]; [|cbn; lia..].
  eapply prefix_free_concat in Heq; [done..|lia|done|done].
Qed.

(** The widths of the format, in whatever order the inputs are listed. *)
Record drv_fits (d : Derivation) (ids : list bytes) : Prop := {
  df_name : Zlen (dv_name d) < 2 ^ 32;
  df_version : Zlen (dv_version d) < 2 ^ 32;
  df_builder : Zlen (dv_builder_symbol d) < 2 ^ 32;
  df_ids : Zlen ids < 2 ^ 32 ∧ Forall (λ b, length b = 32%nat) ids;
  df_sources : Zlen (dv_sources d) < 2 ^ 32 ∧ Forall (λ s, Zlen s < 2 ^ 32) (dv_sources d);
  df_env : Zlen (dv_env_vars d) < 2 ^ 32 ∧
           Forall (λ kv, Zlen kv.1 < 2 ^ 32 ∧ Zlen kv.2 < 2 ^ 32) (dv_env_vars d)
}.

Lemma sorted_fits {A} (R : relation A) `{!∀ x y, Decision (R x y)} (P : A → Prop) l :
  Zlen l < 2 ^ 32 ∧ Forall P l → Zlen (merge_sort R l) < 2 ^ 32 ∧ Forall P (merge_sort R l).
Proof. by rewrite !merge_sort_Permutation. Qed.

Lemma sort_eq_perm {A} (R : relation A) `{!∀ x y, Decision (R x y)} (l k : list A) :
  merge_sort R l = merge_sort R k → l ≡ₚ k.
Proof. intros Heq. by rewrite <-(merge_sort_Permutation R l), Heq, merge_sort_Permutation. Qed.

Lemma derivation_bytes_inj d1 d2 ids1 ids2 :
  drv_fits d1 ids1 → drv_fits d2 ids2 → derivation_bytes d1 ids1 = derivation_bytes d2 ids2 →
  same_inputs d1 d2 ∧ ids1 ≡ₚ ids2.
Proof.
  intros [N1 V1 B1 I1 S1 E1] [N2 V2 B2 I2 S2 E2] Heq. unfold derivation_bytes in Heq.
  apply app_inv_head in Heq.
  apply prefix_free_str in Heq as [Hn Heq]; [|done..]. apply prefix_free_str in Heq as [Hv Heq]; [|done..].
  apply prefix_free_str in Heq as [Hb Heq]; [|done..].
  apply (prefix_free_list _ _ (prefix_free_fixed 32)) in Heq as [Hi Heq]; [|by apply sorted_fits..].
  apply (prefix_free_list _ _ prefix_free_str) in Heq as [Hs Heq]; [|by apply sorted_fits..].
  rewrite <-(app_nil_r (enc_list _ _)), <-(app_nil_r (enc_list _ (merge_sort pair_le (dv_env_vars d2)))) in Heq.
  apply (prefix_free_list _ _ (prefix_free_pair _ _ _ _ prefix_free_str prefix_free_str)) in Heq as [He _];
    [|by apply sorted_fits..].
  split; [split; try done|]; by eapply sort_eq_perm.
Qed.

(** The derivation id is canonical: for derivations within the format's
    widths whose encodings do not collide, two ids agree exactly when the two
    derivations have the same name, version and builder and the same multisets
    of dependency ids, sources and environment pairs. In particular listing
    order and the totality record never matter, and any changed input does. *)
Theorem derivation_hash_canonical `{Blake3} d1 d2 ids1 ids2 :
  drv_fits d1 ids1 → drv_fits d2 ids2 →
  collision_free [derivation_bytes d1 ids1; derivation_bytes d2 ids2] →
  calculate_derivation_hash d1 ids1 = calculate_derivation_hash d2 ids2 ↔
  same_inputs d1 d2 ∧ ids1 ≡ₚ ids2.
Proof.
  intros F1 F2 Hcf. unfold calculate_derivation_hash. split.
  - intros Hh. apply derivation_bytes_inj; [done..|]. apply Hcf; [set_solver..|done].
  - intros [Hs Hi]. f_equal. by apply derivation_bytes_perm.
Qed.

Definition demo_drv (env : list (bytes * bytes)) (t : option Totality) : Derivation := {|
  dv_name := str "zlib"; dv_version := str "1.3"; dv_builder_symbol := str "build";
  dv_dependencies := [str "cc"]; dv_sources := [str "b"; str "a"]; dv_env_vars := env; dv_totality := t |}.

Lemma derivation_hash_canonical_witness :
  let d1 := demo_drv [(str "A", str "1"); (str "B", str "2")] None in
  let d2 := demo_drv [(str "B", str "2"); (str "A", str "1")] (Some Proven) in
  @calculate_derivation_hash toy_blake3 d1 [] = @calculate_derivation_hash toy_blake3 d2 [].
Proof.
  cbv zeta. apply (@derivation_hash_canonical toy_blake3).
  - split; cbn; try lia; split; try lia; repeat constructor.
  - split; cbn; try lia; split; try lia; repeat constructor.
  - intros a b Ha Hb _. cbn in Ha, Hb.
    apply elem_of_cons in Ha as [->| ->%list_elem_of_singleton];
      apply elem_of_cons in Hb as [->| ->%list_elem_of_singleton]; vm_compute; reflexivity.
  - split; [|done]. split; try done. cbn. by apply Permutation_swap.
Defined.

End Derivation.
