(* ===== verification/Graph.v ===== *)
(** * The derivation Merkle DAG ([avm-eval/src/graph.rs])

    [Plan], its depth-first resolution with cycle detection, and the Merkle
    identity it computes: soundness, dependency-first order, meaningful errors,
    termination and completeness. *)

From stdpp Require Import relations.
From S2P Require Import Prelude Cas Text Store Derivation.
Import Store Derivation.

Module Graph.

Inductive EvalError : Type :=
| Unknown (name : bytes)
| Cycle (names : list bytes)
| Duplicate (name : bytes).

Abbreviation Plan := (gmap bytes Derivation).

Record ResolvedGraph := { rg_ids : gmap bytes bytes; rg_order : list bytes }.

Definition insert (plan : Plan) (drv : Derivation) : res EvalError Plan :=
  match plan !! dv_name drv with
  | Some _ => Err (Duplicate (dv_name drv))
  | None => Ok (<[dv_name drv := drv]> plan)
  end.

Definition get (plan : Plan) (name : bytes) : option Derivation := plan !! name.

(** [BTreeMap] keys: ascending. *)
Definition all_names (plan : Plan) : list bytes := merge_sort digest_le (map_to_list plan).*1.

(** The accumulators [resolve_node] mutates. *)
Record GState := {
  g_ids : gmap bytes bytes;
  g_order : list bytes;
  g_stack : list bytes;
  g_on_stack : gset bytes
}.

Definition push_node (name : bytes) (g : GState) : GState := {|
  g_ids := g_ids g; g_order := g_order g; g_stack := g_stack g ++ [name];
  g_on_stack := {[name]} ∪ g_on_stack g |}.

Definition finish_node (name id : bytes) (g : GState) : GState := {|
  g_ids := <[name := id]> (g_ids g); g_order := g_order g ++ [name];
  g_stack := removelast (g_stack g); g_on_stack := g_on_stack g ∖ {[name]} |}.

(** [stack[start..]] from the first occurrence of [name], or the whole stack. *)
Definition loop_names (stack : list bytes) (name : bytes) : list bytes :=
  let start := match list_find (λ n, n = name) stack with Some (i, _) => i | None => 0%nat end in
  drop start stack ++ [name].

Section resolution.
Context `{Blake3}.

(** The recursion goes one level deeper only through a node that is not yet
    on the stack, so the number of derivations bounds its depth; running out
    of fuel is [Panic], shown unreachable. *)
Fixpoint resolve_node (fuel : nat) (plan : Plan) (name : bytes) (g : GState)
    : res EvalError (GState * bytes) :=
  match g_ids g !! name with
  | Some id => Ok (g, id)
  | None =>
      match plan !! name with
      | None => Err (Unknown name)
      | Some drv =>
          if decide (name ∈ g_on_stack g) then Err (Cycle (loop_names (g_stack g) name))
          else match fuel with
               | O => Panic
               | S fuel =>
                   '(g, dep_ids) ← foldM (λ '(g, dep_ids) dep,
                       '(g, id) ← resolve_node fuel plan dep g; Ok (g, dep_ids ++ [id]))
                     (push_node name g, []) (dv_dependencies drv);
                   let id := calculate_derivation_hash drv dep_ids in
                   Ok (finish_node name id g, id)
               end
      end
  end.

Definition g_empty : GState := {| g_ids := ∅; g_order := []; g_stack := []; g_on_stack := ∅ |}.

Definition resolve (plan : Plan) (target : option bytes) : res EvalError ResolvedGraph :=
  roots ← match target with
          | Some t => if decide (plan !! t = None) then Err (Unknown t) else Ok [t]
          | None => Ok (all_names plan)
          end;
  g ← foldM (λ g r, '(g, _) ← resolve_node (size plan) plan r g; Ok g) g_empty roots;
  Ok {| rg_ids := g_ids g; rg_order := g_order g |}.

(** ** The Merkle identity, declaratively *)
Inductive merkle (plan : Plan) : bytes → bytes → Prop :=
| merkle_node name drv ids :
    plan !! name = Some drv → merkles plan (dv_dependencies drv) ids →
    merkle plan name (calculate_derivation_hash drv ids)
with merkles (plan : Plan) : list bytes → list bytes → Prop :=
| merkles_nil : merkles plan [] []
| merkles_cons n ns id ids :
    merkle plan n id → merkles plan ns ids → merkles plan (n :: ns) (id :: ids).

Definition edge (plan : Plan) (a b : bytes) : Prop :=
  ∃ drv, plan !! a = Some drv ∧ b ∈ dv_dependencies drv.
End resolution.

Scheme merkle_mut := Induction for merkle Sort Prop
  with merkles_mut := Induction for merkles Sort Prop.

(** ** Facts about the graph *)
Section facts.
Context `{Blake3}.

Lemma merkles_snoc plan ns n ids id :
  merkles plan ns ids → merkle plan n id → merkles plan (ns ++ [n]) (ids ++ [id]).
Proof. induction 1; cbn; repeat constructor; auto. Qed.

Lemma merkles_elem plan ns ids n : merkles plan ns ids → n ∈ ns → ∃ id, merkle plan n id.
Proof.
  induction 1 as [|m ns id ids Hm _ IH]; intros Hin; [by apply not_elem_of_nil in Hin|].
  apply elem_of_cons in Hin as [->|Hin]; [by exists id|by apply IH].
Qed.

Lemma merkle_det plan n id id' : merkle plan n id → merkle plan n id' → id = id'.
Proof.
  intros Hm; revert id'.
  induction Hm using merkle_mut with (P0 := λ ns ids _, ∀ ids', merkles plan ns ids' → ids = ids').
  - intros id' Hm'. inversion Hm'; subst. simplify_eq. f_equal. by apply IHHm.
  - intros ids' Hm'. by inversion Hm'.
  - intros ids' Hm'. inversion Hm'; subst. f_equal; auto.
Qed.

Lemma merkle_edge plan a b id : merkle plan a id → edge plan a b → ∃ id', merkle plan b id'.
Proof.
  intros Hm (drv & Hd & Hb). inversion Hm; subst. simplify_eq. by eapply merkles_elem.
Qed.

Lemma merkle_reach plan a b id : merkle plan a id → rtc (edge plan) a b → ∃ id', merkle plan b id'.
Proof.
  intros Hm Hr. revert id Hm. induction Hr as [a|a b c He Hr IH]; intros id Hm; [by exists id|].
  destruct (merkle_edge _ _ _ _ Hm He) as [id' Hb]. by eapply IH.
Qed.

(** A resolvable node has no infinite dependency chain. *)
Lemma merkle_acc plan a id : merkle plan a id → Acc (flip (edge plan)) a.
Proof.
  induction 1 using merkle_mut with
    (P0 := λ ns _ _, ∀ n, n ∈ ns → Acc (flip (edge plan)) n).
  - constructor. intros b (drv' & Hd & Hb). simplify_eq. by apply IHmerkle.
  - intros n Hn. by apply not_elem_of_nil in Hn.
  - intros n' [->|Hn]%elem_of_cons; auto.
Qed.

Lemma acc_no_cycle plan a : Acc (flip (edge plan)) a → ¬ tc (edge plan) a a.
Proof.
  intros Hacc. induction Hacc as [a _ IH]. intros Ht.
  inversion Ht as [? ? He|? b ? He Hba]; subst; [by eapply (IH a)|].
  apply (IH b He). eapply tc_r; [exact Hba|exact He].
Qed.
End facts.

(** ** Resolution is sound *)
Section sound.
Context `{Blake3}.

(** Dependency-first: every dependency comes earlier. *)
Inductive topo (plan : Plan) : list bytes → Prop :=
| topo_nil : topo plan []
| topo_snoc l n drv :
    topo plan l → plan !! n = Some drv → (∀ d, d ∈ dv_dependencies drv → d ∈ l) → topo plan (l ++ [n]).

Definition chain (plan : Plan) (l : list bytes) : Prop :=
  ∀ i a b, l !! i = Some a → l !! S i = Some b → edge plan a b.

(** What [EvalError::Cycle] carries. *)
Definition is_cycle (plan : Plan) (l : list bytes) : Prop :=
  chain plan l ∧ ∃ x mid, l = x :: mid ++ [x].

Record GInv (plan : Plan) (g : GState) : Prop := {
  gi_merkle : ∀ n id, g_ids g !! n = Some id → merkle plan n id;
  gi_order : NoDup (g_order g);
  gi_dom : ∀ n, n ∈ g_order g ↔ is_Some (g_ids g !! n);
  gi_topo : topo plan (g_order g);
  gi_stack : NoDup (g_stack g);
  gi_set : ∀ n, n ∈ g_on_stack g ↔ n ∈ g_stack g;
  gi_plan : ∀ n, n ∈ g_stack g → is_Some (plan !! n);
  gi_fresh : ∀ n, n ∈ g_stack g → g_ids g !! n = None
}.

(** The result of a resolution that started at [r]. *)
Definition outcome {A : Type} (plan : Plan) (r : bytes) (Q : A → Prop) (x : res EvalError A) : Prop :=
  match x with
  | Ok a => Q a
  | Err (Unknown n) => plan !! n = None ∧ rtc (edge plan) r n
  | Err (Cycle l) => is_cycle plan l ∧ ∀ n, n ∈ l → rtc (edge plan) r n
  | Err (Duplicate _) => False
  | Panic => False
  end.

Lemma outcome_bind {A B : Type} plan r (Q : A → Prop) (Q' : B → Prop) m k :
  outcome plan r Q m → (∀ a, Q a → outcome plan r Q' (k a)) → outcome plan r Q' (m ≫= k).
Proof. destruct m as [a|[]|]; cbn; auto. Qed.

Lemma outcome_mono {A : Type} plan r (Q Q' : A → Prop) m :
  outcome plan r Q m → (∀ a, Q a → Q' a) → outcome plan r Q' m.
Proof. destruct m as [a|[]|]; cbn; auto. Qed.

Lemma chain_snoc plan l a b : chain plan (l ++ [a]) → edge plan a b → chain plan ((l ++ [a]) ++ [b]).
Proof.
  intros Hc He i x y Hx Hy. destruct (decide (S i < length (l ++ [a]))%nat) as [Hlt|Hge].
  - rewrite lookup_app_l in Hx, Hy by lia. by eapply Hc.
  - assert (S i = length (l ++ [a])) as Hi.
    { apply lookup_lt_Some in Hy. rewrite length_app in Hy. cbn in Hy. lia. }
    rewrite lookup_app_r in Hy by lia. rewrite Hi, Nat.sub_diag in Hy. cbn in Hy.
    rewrite lookup_app_l in Hx by lia. rewrite length_app in Hi. cbn in Hi.
    rewrite lookup_app_r in Hx by lia. replace (i - length l)%nat with 0%nat in Hx by lia.
    cbn in Hx. by simplify_eq.
Qed.

Lemma chain_reach plan r l n : chain plan l → head l = Some r → n ∈ l → rtc (edge plan) r n.
Proof.
  intros Hc Hr Hn. apply list_elem_of_lookup in Hn as [i Hi]. revert n Hi.
  induction i as [|i IH]; intros n Hi.
  - destruct l; cbn in *; simplify_eq. reflexivity.
  - destruct (lookup_lt_is_Some_2 l i) as [m Hm]; [apply lookup_lt_Some in Hi; lia|].
    eapply rtc_r; [by apply IH|by eapply Hc].
Qed.

Lemma chain_drop plan l k : chain plan l → chain plan (drop k l).
Proof. intros Hc i a b. rewrite !lookup_drop, Nat.add_succ_r. apply Hc. Qed.

Lemma loop_is_cycle plan stack name :
  chain plan (stack ++ [name]) → name ∈ stack → is_cycle plan (loop_names stack name).
Proof.
  intros Hc Hin. unfold loop_names.
  destruct (list_find (λ n, n = name) stack) as [[k x]|] eqn:E.
  - apply list_find_Some in E as (Hk & -> & _). split.
    + rewrite <-(drop_app_le _ [name]) by (apply lookup_lt_Some in Hk; lia). by apply chain_drop.
    + rewrite (drop_S _ _ _ Hk). by exists name, (drop (S k) stack).
  - rewrite list_find_None in E. eapply Forall_forall in E; [|exact Hin]. done.
Qed.

Lemma loop_names_elem stack name n : n ∈ loop_names stack name → n ∈ stack ++ [name].
Proof.
  unfold loop_names. rewrite !elem_of_app. intros [Hd|Hn]; [left|by right].
  eapply sublist_subseteq; [apply sublist_drop|exact Hd].
Qed.

(** What a call leaves behind: more ids, a longer order, the same stack. *)
Definition grows (plan : Plan) (g g' : GState) : Prop :=
  GInv plan g' ∧ g_stack g' = g_stack g ∧ g_ids g ⊆ g_ids g'.

Lemma grows_trans plan a b c : grows plan a b → grows plan b c → grows plan a c.
Proof. intros (_ & S1 & I1) (G & S2 & I2). split; [done|]. split; [congruence|by etrans]. Qed.

Lemma push_inv plan name drv g :
  GInv plan g → plan !! name = Some drv → g_ids g !! name = None → name ∉ g_on_stack g →
  GInv plan (push_node name g).
Proof.
  intros [] Hp Hn Hs. split; cbn [push_node g_ids g_order g_stack g_on_stack]; try done.
  - apply NoDup_app. split; [done|]. split; [|apply NoDup_singleton].
    intros n Hin ->%list_elem_of_singleton. by apply Hs, gi_set0.
  - intros n. rewrite elem_of_union, elem_of_singleton, elem_of_app, list_elem_of_singleton, gi_set0. tauto.
  - intros n [Hin| ->%list_elem_of_singleton]%elem_of_app; [by apply gi_plan0|by eexists].
  - intros n [Hin| ->%list_elem_of_singleton]%elem_of_app; [by apply gi_fresh0|done].
Qed.

Lemma finish_inv plan name drv ids g0 g :
  GInv plan g0 → plan !! name = Some drv → name ∉ g_on_stack g0 →
  grows plan (push_node name g0) g →
  Forall2 (λ d id, g_ids g !! d = Some id) (dv_dependencies drv) ids →
  grows plan g0 (finish_node name (calculate_derivation_hash drv ids) g).
Proof.
  intros HI0 Hp Hns (HI & Hst & Hids) Hdeps. cbn [push_node g_stack g_ids] in Hst, Hids.
  assert (name ∈ g_stack g) as Hin by (rewrite Hst; apply elem_of_app; right; by left).
  assert (g_ids g !! name = None) as Hfresh by (by apply (gi_fresh _ _ HI)).
  assert (name ∉ g_stack g0) as Hn0 by (by rewrite <-(gi_set _ _ HI0)).
  unfold finish_node. split; [|split]; cbn [g_stack g_ids];
    [|by rewrite Hst, removelast_last|etrans; [exact Hids|by apply insert_subseteq]].
  split; cbn [g_ids g_order g_stack g_on_stack]; rewrite ?Hst, ?removelast_last.
  - intros n id [[<- <-]|[_ Hid]]%lookup_insert_Some; [|by apply (gi_merkle _ _ HI)].
    apply merkle_node; [done|]. clear -Hdeps HI.
    induction Hdeps; constructor; auto. by apply (gi_merkle _ _ HI).
  - apply NoDup_app. split; [apply HI|]. split; [|apply NoDup_singleton].
    intros n Hn ->%list_elem_of_singleton. apply (gi_dom _ _ HI) in Hn as [? ?]. congruence.
  - intros n. rewrite elem_of_app, list_elem_of_singleton, (gi_dom _ _ HI), lookup_insert_is_Some.
    destruct (decide (name = n)) as [->|]; naive_solver.
  - eapply topo_snoc; [apply HI|exact Hp|]. intros d Hd. apply (gi_dom _ _ HI).
    apply list_elem_of_lookup in Hd as [i Hi].
    destruct (Forall2_lookup_l _ _ _ _ _ Hdeps Hi) as (id & _ & Hid). by eexists.
  - apply HI0.
  - intros n. rewrite elem_of_difference, elem_of_singleton, (gi_set _ _ HI), Hst, elem_of_app,
      list_elem_of_singleton. split; [tauto|]. intros Hn. split; [by left|]. by intros ->.
  - intros n Hn. by apply (gi_plan _ _ HI0).
  - intros n Hn. rewrite lookup_insert_ne by (by intros ->). apply (gi_fresh _ _ HI).
    rewrite Hst. apply elem_of_app. by left.
Qed.

Lemma stack_room plan name g :
  GInv plan g → is_Some (plan !! name) → name ∉ g_on_stack g → (length (g_stack g) < size plan)%nat.
Proof.
  intros HI Hp Hn. rewrite (gi_set _ _ HI) in Hn.
  change (length (name :: g_stack g) ≤ size plan)%nat. rewrite <-size_dom.
  rewrite <-(size_list_to_set (C:=gset bytes) (name :: g_stack g)) by (apply NoDup_cons; split; [done|apply HI]).
  apply subseteq_size. intros n. rewrite elem_of_list_to_set, elem_of_dom.
  intros [->|Hin]%elem_of_cons; [done|by apply (gi_plan _ _ HI)].
Qed.

Lemma resolve_node_spec fuel plan name g r :
  GInv plan g → chain plan (g_stack g ++ [name]) → head (g_stack g ++ [name]) = Some r →
  (size plan ≤ fuel + length (g_stack g))%nat →
  outcome plan r (λ '(g', id), grows plan g g' ∧ g_ids g' !! name = Some id)
    (resolve_node fuel plan name g).
Proof.
  revert name g; induction fuel as [|fuel IH]; intros name g HI Hc Hr Hf; cbn [resolve_node];
    destruct (g_ids g !! name) as [id|] eqn:Hid; try (by split);
    (destruct (plan !! name) as [drv|] eqn:Hp;
      [|split; [done|eapply chain_reach; [done..|apply elem_of_app; right; by left]]]);
    (destruct (decide (name ∈ g_on_stack g)) as [Hon|Hon];
      [apply (gi_set _ _ HI) in Hon; split; [by apply loop_is_cycle|
         intros n Hn%loop_names_elem; by eapply chain_reach]|]);
    pose proof (stack_room plan name g HI ltac:(by rewrite Hp) Hon).
  - cbn in Hf. lia.
  - pose proof (push_inv plan name drv g HI Hp Hid Hon) as HP.
    apply outcome_bind with (Q := λ '(g', ids), grows plan (push_node name g) g' ∧
      Forall2 (λ d id, g_ids g' !! d = Some id) (dv_dependencies drv) ids).
    2:{ intros [g' ids] [Hg Hd]. cbn. split; [|apply lookup_insert_eq]. by eapply finish_inv. }
    assert (∀ ds g1 done ids, (∀ d, d ∈ ds → d ∈ dv_dependencies drv) →
      grows plan (push_node name g) g1 → Forall2 (λ d id, g_ids g1 !! d = Some id) done ids →
      outcome plan r (λ '(g', ids'), grows plan (push_node name g) g' ∧
          Forall2 (λ d id, g_ids g' !! d = Some id) (done ++ ds) ids')
        (foldM (λ '(g, dep_ids) dep, '(g, id) ← resolve_node fuel plan dep g; Ok (g, dep_ids ++ [id]))
           (g1, ids) ds)) as Hfold.
    { induction ds as [|d ds IHds]; intros g1 done ids Hds Hg1 Hdone; cbn [foldM].
      { cbn. by rewrite app_nil_r. }
      destruct Hg1 as (HI1 & Hst & Hids). pose proof Hst as Hst'. cbn [push_node g_stack] in Hst'.
      apply outcome_bind with (Q := λ '(g2, ids2), grows plan (push_node name g) g2 ∧
        Forall2 (λ d id, g_ids g2 !! d = Some id) (done ++ [d]) ids2).
      - eapply outcome_bind; [apply (IH d g1 HI1)|].
        + rewrite Hst'. apply chain_snoc; [done|]. exists drv. split; [done|]. apply Hds. by left.
        + rewrite Hst'. by destruct (g_stack g).
        + rewrite Hst', length_app. cbn. lia.
        + intros [g2 id] [Hg2 Hid2]. cbn. split; [by eapply grows_trans|].
          apply Forall2_app; [|by constructor]. eapply Forall2_impl; [exact Hdone|].
          intros x i Hx. by eapply lookup_weaken; [exact Hx|apply Hg2].
      - intros [g2 ids2] [Hg2 Hd2]. rewrite (app_assoc done [d] ds : done ++ d :: ds = _).
        apply IHds; [|done..]. intros x Hx. apply Hds. by right. }
    apply (Hfold (dv_dependencies drv) (push_node name g) [] []); [done| |constructor].
    split; [done|]. split; done.
Qed.

(** ** Whole plans *)
Definition is_root (plan : Plan) (target : option bytes) (r : bytes) : Prop :=
  match target with Some t => r = t | None => is_Some (plan !! r) end.

(** The contract of a resolution: correct ids for every root, in dependency
    order, or an error that names a real defect reachable from a root. *)
Definition resolved (plan : Plan) (target : option bytes) (x : res EvalError ResolvedGraph) : Prop :=
  match x with
  | Ok rg =>
      (∀ n id, rg_ids rg !! n = Some id → merkle plan n id) ∧
      (∀ r, is_root plan target r → is_Some (rg_ids rg !! r)) ∧
      NoDup (rg_order rg) ∧ (∀ n, n ∈ rg_order rg ↔ is_Some (rg_ids rg !! n)) ∧ topo plan (rg_order rg)
  | Err (Unknown n) => plan !! n = None ∧ ∃ r, is_root plan target r ∧ rtc (edge plan) r n
  | Err (Cycle l) =>
      is_cycle plan l ∧ ∃ r, is_root plan target r ∧ ∀ n, n ∈ l → rtc (edge plan) r n
  | Err (Duplicate _) => False
  | Panic => False
  end.

Lemma all_names_elem (plan : Plan) n : n ∈ all_names plan ↔ is_Some (plan !! n).
Proof.
  unfold all_names. rewrite merge_sort_Permutation, list_elem_of_fmap. split.
  - intros ([n' d] & -> & Hin%elem_of_map_to_list). by eexists.
  - intros [d Hd]. exists (n, d). split; [done|]. by apply elem_of_map_to_list.
Qed.

Lemma resolve_roots plan target roots g x :
  GInv plan g → g_stack g = [] → (∀ r, r ∈ roots → is_root plan target r) →
  foldM (λ g r, '(g, _) ← resolve_node (size plan) plan r g; Ok g) g roots = x →
  match x with
  | Ok g' => GInv plan g' ∧ g_ids g ⊆ g_ids g' ∧ ∀ r, r ∈ roots → is_Some (g_ids g' !! r)
  | Err (Unknown n) => plan !! n = None ∧ ∃ r, is_root plan target r ∧ rtc (edge plan) r n
  | Err (Cycle l) => is_cycle plan l ∧ ∃ r, is_root plan target r ∧ ∀ n, n ∈ l → rtc (edge plan) r n
  | Err (Duplicate _) => False
  | Panic => False
  end.
Proof.
  intros HI Hst Hroots <-. revert g HI Hst Hroots; induction roots as [|r roots IH]; intros g HI Hst Hroots;
    cbn [foldM].
  { split; [done|]. split; [done|]. intros r Hr. by apply not_elem_of_nil in Hr. }
  pose proof (resolve_node_spec (size plan) plan r g r HI) as Hspec. rewrite Hst in Hspec. cbn [app] in Hspec.
  specialize (Hspec ltac:(intros i a b Ha Hb; by destruct i) eq_refl ltac:(cbn; lia)).
  destruct (resolve_node (size plan) plan r g) as [[g1 id]|[n|l|]|]; cbn [outcome mbind res_bind] in *; try done.
  - destruct Hspec as [(HI1 & Hst1 & Hids) Hid]. specialize (IH g1 HI1 ltac:(congruence)).
    specialize (IH ltac:(intros r' Hr'; apply Hroots; by right)).
    destruct (foldM _ g1 roots) as [g2|[]|]; try done. destruct IH as (HI2 & Hs2 & Hall).
    split; [done|]. split; [by etrans|]. intros r' [->|Hr']%elem_of_cons; [|by apply Hall].
    exists id. by eapply lookup_weaken.
  - destruct Hspec as [Hn Hr]. split; [done|]. exists r. split; [apply Hroots; by left|done].
  - destruct Hspec as [Hn Hr]. split; [done|]. exists r. split; [apply Hroots; by left|done].
Qed.

Lemma g_empty_inv plan : GInv plan g_empty.
Proof.
  split; cbn [g_empty g_ids g_order g_stack g_on_stack]; try constructor; try done;
    intros *; rewrite ?lookup_empty; try done; try (by intros ?%not_elem_of_nil);
    try (by intros ?%elem_of_empty); try (by intros ?%is_Some_None).
Qed.

Lemma resolve_resolved plan target : resolved plan target (resolve plan target).
Proof.
  assert (∀ roots, (∀ r, r ∈ roots ↔ is_root plan target r) →
    resolved plan target
      (g ← foldM (λ g r, '(g, _) ← resolve_node (size plan) plan r g; Ok g) g_empty roots;
       Ok {| rg_ids := g_ids g; rg_order := g_order g |})) as Hrun.
  { intros roots Hroots.
    pose proof (resolve_roots plan target roots g_empty _ (g_empty_inv plan) eq_refl
                  (λ r Hr, proj1 (Hroots r) Hr) eq_refl) as Hspec.
    destruct (foldM _ g_empty roots) as [g|[]|]; cbn [mbind res_bind resolved] in *; try done.
    destruct Hspec as ([] & _ & Hall). cbn. split_and!; try done. intros r Hr. by apply Hall, Hroots. }
  unfold resolve. destruct target as [t|]; cbn [mbind res_bind].
  - destruct (decide (plan !! t = None)) as [Hn|Hs]; cbn [mbind res_bind].
    + split; [done|]. exists t. split; [done|reflexivity].
    + apply Hrun. intros r. cbn. by rewrite list_elem_of_singleton.
  - apply Hrun. intros r. cbn. apply all_names_elem.
Qed.

Lemma cycle_tc plan l : is_cycle plan l → ∃ x, x ∈ l ∧ tc (edge plan) x x.
Proof.
  intros [Hc (x & mid & ->)]. exists x. split; [by left|].
  assert (∀ k l0 a b, chain plan (a :: l0) → (a :: l0) !! S k = Some b → tc (edge plan) a b) as Hgo.
  { induction k as [|k IH]; intros l0 a b Hch Hb.
    - destruct l0 as [|c l0]; [done|]. apply tc_once. by apply (Hch 0%nat).
    - destruct l0 as [|c l0]; [done|]. eapply tc_l; [by apply (Hch 0%nat a c)|].
      apply (IH l0); [|done]. intros i u v Hu Hv. by apply (Hch (S i)). }
  apply (Hgo (length mid) (mid ++ [x]) x x Hc).
  change ((mid ++ [x]) !! length mid = Some x). rewrite lookup_app_r by lia. by rewrite Nat.sub_diag.
Qed.

(** C22. Resolution is sound and complete. It always returns; on success
    every id it reports is the Merkle id of its node, the order lists each
    resolved node once after all its dependencies and every root is resolved;
    an [Unknown] name is missing from the plan and a [Cycle] is a closed
    dependency walk, both reachable from a root. It succeeds exactly when
    every root has a Merkle identity: everything the roots reach is present
    and no dependency cycle is reachable. *)
Theorem resolve_exact plan target :
  resolved plan target (resolve plan target) ∧
  ((∃ rg, resolve plan target = Ok rg) ↔ ∀ r, is_root plan target r → ∃ id, merkle plan r id).
Proof.
  split; [apply resolve_resolved|].
  pose proof (resolve_resolved plan target) as Hs. split.
  - intros [rg Hrg] r Hr. rewrite Hrg in Hs. destruct Hs as (Hm & Hroots & _).
    destruct (Hroots r Hr) as [id Hid]. exists id. by apply Hm.
  - intros Hall. destruct (resolve plan target) as [rg|[n|l|]|]; cbn [resolved] in Hs; try done; [by exists rg|..].
    + destruct Hs as (Hn & r & Hr & Hreach). destruct (Hall r Hr) as [id Hid].
      destruct (merkle_reach _ _ _ _ Hid Hreach) as [id' Hm]. inversion Hm; subst. congruence.
    + destruct Hs as (Hcy & r & Hr & Hreach). destruct (Hall r Hr) as [id Hid].
      destruct (cycle_tc _ _ Hcy) as (x & Hx & Ht).
      destruct (merkle_reach _ _ _ _ Hid (Hreach x Hx)) as [id' Hm].
      by eapply acc_no_cycle in Ht; [|eapply merkle_acc].
Qed.
End sound.

End Graph.
