(* ===== verification/Memo.v ===== *)
(** * Memoised evaluation ([avm-eval/src/memo.rs])

    [MemoTable::evaluate] over the session memo and the two presence oracles:
    with a memo that is valid for the plan it agrees with the Merkle ids, keeps
    the memo valid, and only ever skips work. *)

From stdpp Require Import relations.
From S2P Require Import Prelude Cas Store Derivation Graph.
Import Store Derivation Graph.

Module Memo.

(** The [Presence] trait. *)
Class Presence := contains_id : bytes → bool.

Record EvalReport := {
  er_target_id : bytes;
  er_resolved : gmap bytes bytes;
  er_order : list bytes;
  er_visited : list bytes;
  er_session_hits : list bytes;
  er_store_hits : list bytes;
  er_remote_hits : list bytes
}.

Record MemoTable := {
  mt_l1 : gmap bytes bytes;
  mt_presence : option Presence;
  mt_remote : option Presence
}.

Definition new (presence : option Presence) : MemoTable :=
  {| mt_l1 := ∅; mt_presence := presence; mt_remote := None |}.
Definition with_remote (presence remote : option Presence) : MemoTable :=
  {| mt_l1 := ∅; mt_presence := presence; mt_remote := remote |}.

(** The memo, the report under construction and the recursion stack. *)
Record MState := { ms_l1 : gmap bytes bytes; ms_report : EvalReport; ms_stack : list bytes }.

Definition empty_report : EvalReport := {|
  er_target_id := replicate 32 Byte.x00; er_resolved := ∅; er_order := []; er_visited := [];
  er_session_hits := []; er_store_hits := []; er_remote_hits := [] |}.

Definition asks (o : option Presence) (id : bytes) : bool :=
  match o with Some p => @contains_id p id | None => false end.

(** L2 first; only ids the local store lacks consult L3. *)
Definition check_store (t : MemoTable) (name id : bytes) (r : EvalReport) : EvalReport :=
  if asks (mt_presence t) id then {|
    er_target_id := er_target_id r; er_resolved := er_resolved r; er_order := er_order r;
    er_visited := er_visited r; er_session_hits := er_session_hits r;
    er_store_hits := er_store_hits r ++ [name]; er_remote_hits := er_remote_hits r |}
  else if asks (mt_remote t) id then {|
    er_target_id := er_target_id r; er_resolved := er_resolved r; er_order := er_order r;
    er_visited := er_visited r; er_session_hits := er_session_hits r;
    er_store_hits := er_store_hits r; er_remote_hits := er_remote_hits r ++ [name] |}
  else r.

(** The L1 hit: recorded once per run. *)
Definition hit (t : MemoTable) (name id : bytes) (r : EvalReport) : EvalReport :=
  match er_resolved r !! name with
  | None => check_store t name id {|
      er_target_id := er_target_id r; er_resolved := <[name := id]> (er_resolved r);
      er_order := er_order r ++ [name]; er_visited := er_visited r;
      er_session_hits := er_session_hits r ++ [name]; er_store_hits := er_store_hits r;
      er_remote_hits := er_remote_hits r |}
  | Some _ => {|
      er_target_id := er_target_id r; er_resolved := <[name := id]> (er_resolved r);
      er_order := er_order r; er_visited := er_visited r; er_session_hits := er_session_hits r;
      er_store_hits := er_store_hits r; er_remote_hits := er_remote_hits r |}
  end.

(** A computed node. *)
Definition visit (t : MemoTable) (name id : bytes) (r : EvalReport) : EvalReport :=
  check_store t name id {|
    er_target_id := er_target_id r; er_resolved := <[name := id]> (er_resolved r);
    er_order := match er_resolved r !! name with None => er_order r ++ [name] | Some _ => er_order r end;
    er_visited := er_visited r ++ [name]; er_session_hits := er_session_hits r;
    er_store_hits := er_store_hits r; er_remote_hits := er_remote_hits r |}.

Section evaluation.
Context `{Blake3}.

(** All dependencies resolved: pop, hash, memoise, report. *)
Definition m_finish (t : MemoTable) (name : bytes) (drv : Derivation) (dep_ids : list bytes)
    : stm MState EvalError bytes := λ s,
  let id := calculate_derivation_hash drv dep_ids in
  ({| ms_l1 := <[name := id]> (ms_l1 s); ms_report := visit t name id (ms_report s);
      ms_stack := removelast (ms_stack s) |}, Ok id).

(** Fuel as in [resolve_node]: the stack never holds a name twice. *)
Fixpoint m_resolve (fuel : nat) (t : MemoTable) (plan : Plan) (name : bytes)
    : stm MState EvalError bytes := λ s,
  match ms_l1 s !! name with
  | Some id => ({| ms_l1 := ms_l1 s; ms_report := hit t name id (ms_report s); ms_stack := ms_stack s |}, Ok id)
  | None =>
      if decide (name ∈ ms_stack s) then (s, Err (Cycle (loop_names (ms_stack s) name)))
      else match get plan name with
      | None => (s, Err (Unknown name))
      | Some drv =>
          match fuel with
          | O => (s, Panic)
          | S fuel =>
              (dep_ids ← stm_foldl (λ ids dep, id ← m_resolve fuel t plan dep; mret (ids ++ [id]))
                           [] (dv_dependencies drv);
               m_finish t name drv dep_ids : stm MState EvalError bytes)
              {| ms_l1 := ms_l1 s; ms_report := ms_report s; ms_stack := ms_stack s ++ [name] |}
          end
      end
  end.

Definition with_target (id : bytes) (r : EvalReport) : EvalReport := {|
  er_target_id := id; er_resolved := er_resolved r; er_order := er_order r;
  er_visited := er_visited r; er_session_hits := er_session_hits r;
  er_store_hits := er_store_hits r; er_remote_hits := er_remote_hits r |}.

Definition evaluate (plan : Plan) (target : option bytes) : stm MemoTable EvalError EvalReport := λ t,
  match (match target with
         | Some n => if decide (get plan n = None) then Err (Unknown n) else Ok [n]
         | None => Ok (all_names plan)
         end) with
  | Ok roots =>
      let '(s, r) := stm_foldl (λ _ root, m_resolve (size plan) t plan root)
                       (replicate 32 Byte.x00) roots
                       {| ms_l1 := mt_l1 t; ms_report := empty_report; ms_stack := [] |} in
      let t' := {| mt_l1 := ms_l1 s; mt_presence := mt_presence t; mt_remote := mt_remote t |} in
      (t', last_id ← r;
           id ← match target with
                | Some n => match er_resolved (ms_report s) !! n with Some id => Ok id | None => Panic end
                | None => Ok last_id
                end;
           Ok (with_target id (ms_report s)))
  | Err e => (t, Err e)
  | Panic => (t, Panic)
  end.
End evaluation.

(** ** The memo only skips work *)
Section transparent.
Context `{Blake3}.

Definition valid (plan : Plan) (l1 : gmap bytes bytes) : Prop :=
  ∀ n id, l1 !! n = Some id → merkle plan n id.

(** [l0] is the memo the run started with, [R] names already reported. *)
Record MInv (plan : Plan) (l0 : gmap bytes bytes) (R : gset bytes) (s : MState) : Prop := {
  mi_valid : valid plan (ms_l1 s);
  mi_start : l0 ⊆ ms_l1 s;
  mi_stack : NoDup (ms_stack s);
  mi_plan : ∀ n, n ∈ ms_stack s → is_Some (plan !! n) ∧ ms_l1 s !! n = None;
  mi_resolved : ∀ n id, er_resolved (ms_report s) !! n = Some id → ms_l1 s !! n = Some id;
  mi_visited : ∀ n, n ∈ er_visited (ms_report s) ↔ is_Some (ms_l1 s !! n) ∧ l0 !! n = None;
  mi_once : NoDup (er_visited (ms_report s));
  mi_seen : ∀ n, n ∈ er_visited (ms_report s) → is_Some (er_resolved (ms_report s) !! n);
  mi_hits : ∀ n, n ∈ er_session_hits (ms_report s) → is_Some (l0 !! n);
  mi_keep : ∀ n, n ∈ R → is_Some (er_resolved (ms_report s) !! n)
}.

Definition extends (plan : Plan) (s s' : MState) : Prop :=
  valid plan (ms_l1 s') ∧ ms_l1 s ⊆ ms_l1 s'.

(** A run from [s]: the memo grows and stays valid even when it fails. *)
Definition mspec {A : Type} (plan : Plan) (r : bytes) (s : MState) (Q : MState → A → Prop)
    (m : stm MState EvalError A) : Prop :=
  extends plan s (m s).1 ∧ outcome plan r (Q (m s).1) (m s).2.

Lemma mspec_bind {A B : Type} plan r s (Q : MState → A → Prop) (Q' : MState → B → Prop) m k :
  mspec plan r s Q m → (∀ s' a, extends plan s s' → Q s' a → mspec plan r s' Q' (k a)) →
  mspec plan r s Q' (m ≫= k).
Proof.
  unfold mspec, mbind, stm_bind. intros [He Ho] Hk. destruct (m s) as [s1 [a|e|]]; cbn in *; [|done..].
  destruct (Hk s1 a He Ho) as [[Hv Hs] Ho']. split; [|done]. split; [done|]. destruct He. by etrans.
Qed.

Lemma check_store_same t name id r :
  er_resolved (check_store t name id r) = er_resolved r ∧
  er_visited (check_store t name id r) = er_visited r ∧
  er_session_hits (check_store t name id r) = er_session_hits r.
Proof. unfold check_store. by repeat case_match. Qed.

Lemma hit_inv plan l0 R t name id s :
  MInv plan l0 R s → ms_l1 s !! name = Some id →
  MInv plan l0 R {| ms_l1 := ms_l1 s; ms_report := hit t name id (ms_report s); ms_stack := ms_stack s |} ∧
  er_resolved (hit t name id (ms_report s)) !! name = Some id.
Proof.
  intros [] Hid. unfold hit. destruct (er_resolved (ms_report s) !! name) as [x|] eqn:E.
  - split; [|apply lookup_insert_eq]. split; cbn [ms_l1 ms_report ms_stack er_resolved er_visited er_session_hits];
      try done.
    + intros n i [[<- <-]|[_ Hi]]%lookup_insert_Some; [done|by apply mi_resolved0].
    + intros n Hn. apply lookup_insert_is_Some'. right. by apply mi_seen0.
    + intros n Hn. apply lookup_insert_is_Some'. right. by apply mi_keep0.
  - edestruct (check_store_same t name id) as (Er & Ev & Eh). split; [|rewrite Er; apply lookup_insert_eq].
    split; cbn [ms_l1 ms_report ms_stack]; rewrite ?Er, ?Ev, ?Eh; cbn [er_resolved er_visited er_session_hits];
      try done.
    + intros n i [[<- <-]|[_ Hi]]%lookup_insert_Some; [done|by apply mi_resolved0].
    + intros n Hn. apply lookup_insert_is_Some'. right. by apply mi_seen0.
    + intros n [Hn| ->%list_elem_of_singleton]%elem_of_app; [by apply mi_hits0|].
      destruct (l0 !! name) eqn:El; [by eexists|]. exfalso.
      assert (name ∈ er_visited (ms_report s)) as Hv by (apply mi_visited0; split; [by eexists|done]).
      apply mi_seen0 in Hv as [? ?]. congruence.
    + intros n Hn. apply lookup_insert_is_Some'. right. by apply mi_keep0.
Qed.

Lemma finish_minv plan l0 R t name drv ids s s1 r :
  MInv plan l0 R s → plan !! name = Some drv → ms_l1 s !! name = None → name ∉ ms_stack s →
  MInv plan l0 R s1 → ms_stack s1 = ms_stack s ++ [name] →
  Forall2 (λ d id, ms_l1 s1 !! d = Some id) (dv_dependencies drv) ids →
  mspec plan r s1 (λ s' id, MInv plan l0 R s' ∧ ms_stack s' = ms_stack s ∧
    ms_l1 s' !! name = Some id ∧ er_resolved (ms_report s') !! name = Some id) (m_finish t name drv ids).
Proof.
  intros HI0 Hp Hn0 Hns HI Hst Hdeps. set (id := calculate_derivation_hash drv ids).
  assert (ms_l1 s1 !! name = None) as Hfresh.
  { apply (mi_plan _ _ _ _ HI). rewrite Hst. apply elem_of_app. right. by left. }
  assert (merkle plan name id) as Hm.
  { apply merkle_node; [done|]. clear -Hdeps HI. induction Hdeps; constructor; auto.
    by apply (mi_valid _ _ _ _ HI). }
  assert (valid plan (<[name := id]> (ms_l1 s1))) as Hv.
  { intros n i [[<- <-]|[_ Hi]]%lookup_insert_Some; [done|by apply (mi_valid _ _ _ _ HI)]. }
  assert (l0 !! name = None) as Hl0.
  { destruct (l0 !! name) eqn:E; [|done]. pose proof (lookup_weaken _ _ _ _ E (mi_start _ _ _ _ HI)). congruence. }
  unfold mspec, m_finish. fold id. cbn [fst snd outcome].
  split; [split; [done|by apply insert_subseteq]|].
  unfold visit. edestruct (check_store_same t name id) as (Er & Ev & Eh).
  split; [|split_and!; cbn [ms_stack ms_l1 ms_report];
    [by rewrite Hst, removelast_last|apply lookup_insert_eq|rewrite Er; apply lookup_insert_eq]].
  split; cbn [ms_l1 ms_report ms_stack]; rewrite ?Er, ?Ev, ?Eh, ?Hst, ?removelast_last;
    cbn [er_resolved er_visited er_session_hits].
  - done.
  - etrans; [apply (mi_start _ _ _ _ HI)|by apply insert_subseteq].
  - apply HI0.
  - intros n Hn. destruct (mi_plan _ _ _ _ HI n) as [Hpn Hln]; [rewrite Hst; apply elem_of_app; by left|].
    split; [done|]. rewrite lookup_insert_ne; [done|]. by intros ->.
  - intros n i [[<- <-]|[Hne Hi]]%lookup_insert_Some; [apply lookup_insert_eq|].
    rewrite lookup_insert_ne by done. by apply (mi_resolved _ _ _ _ HI).
  - intros n. rewrite elem_of_app, list_elem_of_singleton, (mi_visited _ _ _ _ HI), lookup_insert_is_Some'.
    split; [intros [[? ?]| ->]; auto|]. intros [[<-|?] ?]; auto.
  - apply NoDup_app. split; [apply HI|]. split; [|apply NoDup_singleton].
    intros n Hn ->%list_elem_of_singleton. apply (mi_visited _ _ _ _ HI) in Hn as [[? ?] _]. congruence.
  - intros n [Hn| ->%list_elem_of_singleton]%elem_of_app; apply lookup_insert_is_Some'; [|by left].
    right. by apply (mi_seen _ _ _ _ HI).
  - apply HI.
  - intros n Hn. apply lookup_insert_is_Some'. right. by apply (mi_keep _ _ _ _ HI).
Qed.

Lemma memo_stack_room plan l0 R name s :
  MInv plan l0 R s → is_Some (plan !! name) → name ∉ ms_stack s → (length (ms_stack s) < size plan)%nat.
Proof.
  intros HI Hp Hn. change (length (name :: ms_stack s) ≤ size plan)%nat. rewrite <-size_dom.
  rewrite <-(size_list_to_set (C:=gset bytes) (name :: ms_stack s)) by (apply NoDup_cons; split; [done|apply HI]).
  apply subseteq_size. intros n. rewrite elem_of_list_to_set, elem_of_dom.
  intros [->|Hin]%elem_of_cons; [done|by apply (mi_plan _ _ _ _ HI)].
Qed.

Definition memo_post (plan : Plan) (l0 : gmap bytes bytes) (R : gset bytes) (stack : list bytes) (name : bytes)
    (s : MState) (id : bytes) : Prop :=
  MInv plan l0 R s ∧ ms_stack s = stack ∧ ms_l1 s !! name = Some id ∧
  er_resolved (ms_report s) !! name = Some id.

Lemma m_resolve_spec fuel plan t l0 R name s r :
  MInv plan l0 R s → chain plan (ms_stack s ++ [name]) → head (ms_stack s ++ [name]) = Some r →
  (size plan ≤ fuel + length (ms_stack s))%nat →
  mspec plan r s (memo_post plan l0 R (ms_stack s) name) (m_resolve fuel t plan name).
Proof.
  revert name s; induction fuel as [|fuel IH]; intros name s HI Hc Hr Hf; unfold mspec; cbn [m_resolve];
    (destruct (ms_l1 s !! name) as [id|] eqn:Hid;
      [destruct (hit_inv plan l0 R t name id s HI Hid); cbn; split; [split; [apply HI|done]|done]|]);
    (destruct (decide (name ∈ ms_stack s)) as [Hon|Hon];
      [cbn; split; [split; [apply HI|done]|]; split; [by apply loop_is_cycle|
         intros n Hn%loop_names_elem; by eapply chain_reach]|]);
    unfold get; (destruct (plan !! name) as [drv|] eqn:Hp;
      [|cbn; split; [split; [apply HI|done]|]; split;
         [done|eapply chain_reach; [done..|apply elem_of_app; right; by left]]]);
    pose proof (memo_stack_room plan l0 R name s HI ltac:(by rewrite Hp) Hon).
  - cbn in Hf. lia.
  - set (s0 := {| ms_l1 := ms_l1 s; ms_report := ms_report s; ms_stack := ms_stack s ++ [name] |}).
    assert (MInv plan l0 R s0) as HI0.
    { destruct HI. split; cbn [s0 ms_l1 ms_report ms_stack]; try done.
      - apply NoDup_app. split; [done|]. split; [|apply NoDup_singleton].
        intros n Hin ->%list_elem_of_singleton. done.
      - intros n [Hin| ->%list_elem_of_singleton]%elem_of_app; [by apply mi_plan0|by rewrite Hp]. }
    change (mspec plan r s0 (memo_post plan l0 R (ms_stack s) name)
      (dep_ids ← stm_foldl (λ ids dep, id ← m_resolve fuel t plan dep; mret (ids ++ [id]))
                   [] (dv_dependencies drv); m_finish t name drv dep_ids)).
    assert (∀ ds done ids s1, (∀ d, d ∈ ds → d ∈ dv_dependencies drv) →
      MInv plan l0 R s1 → ms_stack s1 = ms_stack s0 → Forall2 (λ d id, ms_l1 s1 !! d = Some id) done ids →
      mspec plan r s1 (λ s2 ids2, MInv plan l0 R s2 ∧ ms_stack s2 = ms_stack s0 ∧
          Forall2 (λ d id, ms_l1 s2 !! d = Some id) (done ++ ds) ids2)
        (stm_foldl (λ ids dep, id ← m_resolve fuel t plan dep; mret (ids ++ [id])) ids ds)) as Hfold.
    { induction ds as [|d ds IHds]; intros done ids s1 Hds HI1 Hst1 Hdone; cbn [stm_foldl].
      { unfold mspec, mret, stm_ret. cbn. rewrite app_nil_r. split; [split; [apply HI1|done]|done]. }
      apply mspec_bind with (Q := λ s2 ids2, MInv plan l0 R s2 ∧ ms_stack s2 = ms_stack s0 ∧
        Forall2 (λ d id, ms_l1 s2 !! d = Some id) (done ++ [d]) ids2).
      - eapply mspec_bind; [apply (IH d s1 HI1)|].
        + rewrite Hst1. apply chain_snoc; [done|]. exists drv. split; [done|]. apply Hds. by left.
        + rewrite Hst1. cbn [s0 ms_stack]. by destruct (ms_stack s).
        + rewrite Hst1. cbn [s0 ms_stack]. rewrite length_app. cbn. lia.
        + intros s2 id [Hv Hs] (HI2 & Hst2 & Hid2 & _). unfold mspec, mret, stm_ret. cbn [fst snd outcome].
          split; [split; [apply HI2|done]|]. split; [done|]. split; [congruence|].
          apply Forall2_app; [|by constructor]. eapply Forall2_impl; [exact Hdone|].
          intros x i Hx. by eapply lookup_weaken; [exact Hx|].
      - intros s2 ids2 _ (HI2 & Hst2 & Hd2). rewrite (app_assoc done [d] ds : done ++ d :: ds = _).
        apply IHds; [|done..]. intros x Hx. apply Hds. by right. }
    eapply mspec_bind; [apply (Hfold (dv_dependencies drv) [] [] s0); [done..|constructor]|].
    intros s1 ids _ (HI1 & Hst1 & Hd1). by apply (finish_minv plan l0 R t name drv ids s s1 r).
Qed.

Lemma minv_start plan l0 R s :
  MInv plan l0 R s → MInv plan l0 (dom (er_resolved (ms_report s))) s.
Proof. intros []. split; try done. intros n. by rewrite elem_of_dom. Qed.

Definition roots_post (plan : Plan) (target : option bytes) (l0 : gmap bytes bytes) (roots : list bytes)
    (s : MState) (x : res EvalError bytes) : Prop :=
  match x with
  | Ok _ => (∃ R, MInv plan l0 R s) ∧ ∀ r, r ∈ roots → is_Some (er_resolved (ms_report s) !! r)
  | Err (Unknown n) => plan !! n = None ∧ ∃ r, is_root plan target r ∧ rtc (edge plan) r n
  | Err (Cycle l) => is_cycle plan l ∧ ∃ r, is_root plan target r ∧ ∀ n, n ∈ l → rtc (edge plan) r n
  | Err (Duplicate _) => False
  | Panic => False
  end.

Lemma m_roots plan target t l0 R roots b s :
  MInv plan l0 R s → ms_stack s = [] → (∀ r, r ∈ roots → is_root plan target r) →
  let '(s', x) := stm_foldl (λ _ root, m_resolve (size plan) t plan root) b roots s in
  extends plan s s' ∧ roots_post plan target l0 roots s' x ∧
  (∀ v, x = Ok v → ∀ n, is_Some (er_resolved (ms_report s) !! n) → is_Some (er_resolved (ms_report s') !! n)).
Proof.
  revert b R s; induction roots as [|r roots IH]; intros b R s HI Hst Hroots; cbn [stm_foldl].
  { unfold mret, stm_ret. split; [split; [apply HI|done]|]. split; [|done]. split; [by exists R|].
    intros r Hr. by apply not_elem_of_nil in Hr. }
  apply minv_start in HI.
  pose proof (m_resolve_spec (size plan) plan t l0 _ r s r HI) as Hspec. rewrite Hst in Hspec. cbn [app] in Hspec.
  specialize (Hspec ltac:(intros i a c Ha Hb; by destruct i) eq_refl ltac:(cbn; lia)).
  unfold mspec in Hspec. unfold mbind, stm_bind. clear R.
  destruct (m_resolve (size plan) t plan r s) as [s1 [id|[n|l|n]|]]; cbn [fst snd outcome] in Hspec;
    destruct Hspec as [Hext Hspec]; try done.
  - destruct Hspec as (HI1 & Hst1 & Hid & Hres).
    specialize (IH id _ s1 HI1 Hst1 ltac:(intros r' Hr'; apply Hroots; by right)).
    destruct (stm_foldl _ id roots s1) as [s2 x]. destruct IH as ([Hv2 Hs2] & Hpost & Hgrow).
    split; [split; [done|]; destruct Hext; by etrans|]. split.
    + destruct x as [v|[]|]; try done. destruct Hpost as [HI2 Hall]. split; [done|].
      intros r' [->|Hr']%elem_of_cons; [|by apply Hall]. apply (Hgrow v eq_refl). by eexists.
    + intros v -> n Hn. apply (Hgrow v eq_refl). apply (mi_keep _ _ _ _ HI1). by apply elem_of_dom.
  - split; [done|]. destruct Hspec as [Hn Hr]. split; [|done]. split; [done|]. exists r. split; [apply Hroots; by left|done].
  - split; [done|]. destruct Hspec as [Hn Hr]. split; [|done]. split; [done|]. exists r. split; [apply Hroots; by left|done].
Qed.

Lemma no_defect plan target e :
  (∀ r, is_root plan target r → ∃ id, merkle plan r id) → resolved plan target (Err e) → False.
Proof.
  intros Hall. destruct e as [n|l|n]; cbn [resolved]; [| |done].
  - intros (Hn & r & Hr & Hreach). destruct (Hall r Hr) as [id Hid].
    destruct (merkle_reach _ _ _ _ Hid Hreach) as [id' Hm]. inversion Hm; subst. congruence.
  - intros (Hcy & r & Hr & Hreach). destruct (Hall r Hr) as [id Hid].
    destruct (cycle_tc _ _ Hcy) as (x & Hx & Ht).
    destruct (merkle_reach _ _ _ _ Hid (Hreach x Hx)) as [id' Hm].
    by eapply acc_no_cycle in Ht; [|eapply merkle_acc].
Qed.

(** The shape of every evaluation. *)
Lemma evaluate_spec plan target t :
  valid plan (mt_l1 t) →
  let '(t', r) := evaluate plan target t in
  valid plan (mt_l1 t') ∧ mt_l1 t ⊆ mt_l1 t' ∧
  match r with
  | Ok rep =>
      (∀ n id, er_resolved rep !! n = Some id → merkle plan n id ∧ mt_l1 t' !! n = Some id) ∧
      (∀ root, is_root plan target root → is_Some (er_resolved rep !! root)) ∧
      (∀ x, target = Some x → merkle plan x (er_target_id rep)) ∧
      NoDup (er_visited rep) ∧
      (∀ n, n ∈ er_visited rep ↔ is_Some (mt_l1 t' !! n) ∧ mt_l1 t !! n = None)
  | Err e => resolved plan target (Err e)
  | Panic => False
  end.
Proof.
  intros Hval.
  assert (MInv plan (mt_l1 t) ∅ {| ms_l1 := mt_l1 t; ms_report := empty_report; ms_stack := [] |}) as HI.
  { split; cbn [ms_l1 ms_report ms_stack empty_report er_resolved er_visited er_session_hits];
      [done|done|constructor|by intros ? ?%not_elem_of_nil|by intros ? ?; rewrite lookup_empty| |constructor
      |by intros ? ?%not_elem_of_nil|by intros ? ?%not_elem_of_nil|by intros ? ?%elem_of_empty].
    intros n. split; [by intros ?%not_elem_of_nil|]. intros [[? ?] ?]. congruence. }
  assert (∀ roots, (∀ r, r ∈ roots ↔ is_root plan target r) →
    let '(s, x) := stm_foldl (λ _ root, m_resolve (size plan) t plan root) (replicate 32 Byte.x00) roots
       {| ms_l1 := mt_l1 t; ms_report := empty_report; ms_stack := [] |} in
    valid plan (ms_l1 s) ∧ mt_l1 t ⊆ ms_l1 s ∧ roots_post plan target (mt_l1 t) roots s x) as Hrun.
  { intros roots Hroots.
    pose proof (m_roots plan target t (mt_l1 t) ∅ roots (replicate 32 Byte.x00) _ HI eq_refl
                  (λ r Hr, proj1 (Hroots r) Hr)) as Hm.
    destruct (stm_foldl _ _ roots _) as [s x]. destruct Hm as ([Hv Hs] & Hp & _). by split_and!. }
  unfold evaluate, get.
  destruct target as [x|].
  - destruct (decide (plan !! x = None)) as [Hn|Hs].
    { split; [done|]. split; [done|]. split; [done|]. exists x. split; [done|reflexivity]. }
    specialize (Hrun [x] ltac:(intros r; cbn; by rewrite list_elem_of_singleton)).
    destruct (stm_foldl _ _ [x] _) as [s [v|e|]]; destruct Hrun as (Hv & Hsub & Hp); cbn [mbind res_bind mt_l1];
      [|done..].
    destruct Hp as [[R HI'] Hall]. destruct (Hall x) as [id Hid]; [by left|]. rewrite Hid. cbn [mbind res_bind].
    split; [done|]. split; [done|]. cbn [with_target er_resolved er_visited er_target_id].
    split_and!; try apply HI'.
    + intros n i Hi%(mi_resolved _ _ _ _ HI'). split; [by apply Hv|done].
    + intros r ->. by eexists.
    + intros y [= <-]. by apply Hv, (mi_resolved _ _ _ _ HI').
  - specialize (Hrun (all_names plan) (all_names_elem plan)).
    destruct (stm_foldl _ _ (all_names plan) _) as [s [v|e|]]; destruct Hrun as (Hv & Hsub & Hp);
      cbn [mbind res_bind mt_l1]; [|done..].
    destruct Hp as [[R HI'] Hall].
    split; [done|]. split; [done|]. cbn [with_target er_resolved er_visited er_target_id].
    split_and!; try apply HI'; try done.
    + intros n i Hi%(mi_resolved _ _ _ _ HI'). split; [by apply Hv|done].
    + intros r Hr. by apply Hall, all_names_elem.
Qed.

(** C23. Memoisation is referentially transparent: with a memo valid for the
    plan, evaluation succeeds exactly when cold resolution does, every id it
    reports (the target's included) is the Merkle id, each node is hashed at
    most once and only if the memo lacked it, and the memo it leaves, also
    after an error, is still valid. *)
Theorem memo_transparent plan target t :
  valid plan (mt_l1 t) →
  let '(t', r) := evaluate plan target t in
  valid plan (mt_l1 t') ∧ r ≠ Panic ∧
  ((∃ rep, r = Ok rep) ↔ ∃ rg, resolve plan target = Ok rg) ∧
  ∀ rep, r = Ok rep →
    (∀ n id, er_resolved rep !! n = Some id → merkle plan n id) ∧
    (∀ root, is_root plan target root → is_Some (er_resolved rep !! root)) ∧
    (∀ x, target = Some x → merkle plan x (er_target_id rep)) ∧
    NoDup (er_visited rep) ∧
    (∀ n, n ∈ er_visited rep ↔ is_Some (mt_l1 t' !! n) ∧ mt_l1 t !! n = None).
Proof.
  intros Hval. pose proof (evaluate_spec plan target t Hval) as Hs.
  pose proof (resolve_resolved plan target) as Hr.
  destruct (evaluate plan target t) as [t' r]. destruct Hs as (Hv & Hsub & Hs).
  split; [done|]. destruct r as [rep|e|]; [| |done]; (split; [done|]).
  - split; [|intros rep' [= <-]; destruct Hs as (Hm & Hrest); split; [|exact Hrest];
             intros n id Hn; by apply (Hm n id Hn)]. split; [intros _|by eexists].
    destruct (resolve plan target) as [rg|e|]; [by eexists| |done]. exfalso.
    eapply no_defect; [|exact Hr]. intros root Hroot. destruct Hs as (Hm & Hroots & _).
    destruct (Hroots root Hroot) as [id Hid]. exists id. by apply (Hm root id Hid).
  - split; [|done]. split; [by intros []|]. intros [rg Hrg]. exfalso. rewrite Hrg in Hr.
    eapply no_defect; [|exact Hs]. intros root Hroot. destruct Hr as (Hm & Hroots & _).
    destruct (Hroots root Hroot) as [id Hid]. exists id. by apply Hm.
Qed.

(** *** Warm evaluation *)
Lemma hit_same t name id r :
  er_visited (hit t name id r) = er_visited r ∧
  er_resolved (hit t name id r) = <[name := id]> (er_resolved r).
Proof.
  unfold hit. case_match; [done|]. edestruct (check_store_same t name id) as (Er & Ev & _).
  by rewrite Er, Ev.
Qed.

Lemma warm_fold fuel t plan roots b s :
  (∀ r, r ∈ roots → is_Some (ms_l1 s !! r)) →
  ∃ rep v, stm_foldl (λ _ root, m_resolve fuel t plan root) b roots s =
      ({| ms_l1 := ms_l1 s; ms_report := rep; ms_stack := ms_stack s |}, Ok v) ∧
    er_visited rep = er_visited (ms_report s) ∧
    (∀ n id, er_resolved rep !! n = Some id →
       er_resolved (ms_report s) !! n = Some id ∨ ms_l1 s !! n = Some id) ∧
    (∀ n, n ∈ roots ∨ is_Some (er_resolved (ms_report s) !! n) → is_Some (er_resolved rep !! n)) ∧
    (v = b ∧ roots = [] ∨ ∃ r, last roots = Some r ∧ ms_l1 s !! r = Some v).
Proof.
  revert b s; induction roots as [|r roots IH]; intros b s Hroots; cbn [stm_foldl].
  { exists (ms_report s), b. split; [by destruct s|]. split_and!; auto.
    intros n [Hn%not_elem_of_nil|Hn]; done. }
  destruct (Hroots r) as [id Hid]; [by left|].
  assert (m_resolve fuel t plan r s =
    ({| ms_l1 := ms_l1 s; ms_report := hit t r id (ms_report s); ms_stack := ms_stack s |}, Ok id)) as Hm.
  { destruct fuel; cbn [m_resolve]; by rewrite Hid. }
  unfold mbind, stm_bind. rewrite Hm. destruct (hit_same t r id (ms_report s)) as [Ev Er].
  destruct (IH id {| ms_l1 := ms_l1 s; ms_report := hit t r id (ms_report s); ms_stack := ms_stack s |})
    as (rep & v & -> & Hv & Hres & Hall & Hlast).
  { intros r' Hr'. apply Hroots. by right. }
  cbn [ms_l1 ms_report ms_stack] in *. exists rep, v. split; [done|]. rewrite Hv, Ev. split; [done|]. split_and!.
  - intros n i [Hn|Hn]%Hres; [|by right]. rewrite Er in Hn.
    apply lookup_insert_Some in Hn as [[<- <-]|[_ Hn]]; auto.
  - intros n Hn. apply Hall. rewrite Er, lookup_insert_is_Some'.
    destruct Hn as [[->|Hn]%elem_of_cons|Hn]; auto.
  - right. destruct Hlast as [[-> ->]|(r' & Hl & Hr')]; [by exists r|]. exists r'.
    split; [|done]. rewrite last_cons. by rewrite Hl.
Qed.

(** A warm evaluation does no hashing: repeating a successful
    evaluation visits no node, leaves the memo as it is and reports the same
    target id. *)
Theorem warm_evaluation plan x t t1 rep :
  valid plan (mt_l1 t) → evaluate plan (Some x) t = (t1, Ok rep) →
  ∃ rep', evaluate plan (Some x) t1 = (t1, Ok rep') ∧ er_visited rep' = [] ∧
          er_target_id rep' = er_target_id rep.
Proof.
  intros Hval Hrun. pose proof (evaluate_spec plan (Some x) t Hval) as Hs. rewrite Hrun in Hs.
  destruct Hs as (Hv & _ & Hm & Hroots & Htgt & _). destruct (Hroots x eq_refl) as [id Hid].
  destruct (Hm x id Hid) as [Hmx Hl1].
  assert (plan !! x ≠ None) as Hp by (inversion Hmx; congruence).
  destruct (warm_fold (size plan) t1 plan [x] (replicate 32 Byte.x00)
    {| ms_l1 := mt_l1 t1; ms_report := empty_report; ms_stack := [] |}) as (rep' & v & Hf & Hvis & Hres & Hall & _).
  { intros r ->%list_elem_of_singleton. by eexists. }
  unfold evaluate, get. rewrite decide_False by done. rewrite Hf. cbn [ms_l1 ms_report ms_stack mbind res_bind] in *.
  destruct (Hall x) as [id' Hid']; [left; by left|]. rewrite Hid'. cbn [mbind res_bind].
  eexists. split; [destruct t1; done|]. split; [done|]. cbn.
  destruct (Hres x id' Hid') as [Hn|Hn]; [exfalso; exact (lookup_empty_Some _ _ Hn)|].
  eapply merkle_det; [|by apply (Htgt x)]. assert (id' = id) as -> by congruence. done.
Qed.

(** The session memo is keyed by name alone: once a name is in it, the plan
    given to a later evaluation does not matter. *)
Lemma memo_ignores_plan plan x old t :
  mt_l1 t !! x = Some old → is_Some (plan !! x) →
  ∃ rep, evaluate plan (Some x) t = (t, Ok rep) ∧ er_target_id rep = old.
Proof.
  intros Hl [drv Hp].
  destruct (warm_fold (size plan) t plan [x] (replicate 32 Byte.x00)
    {| ms_l1 := mt_l1 t; ms_report := empty_report; ms_stack := [] |}) as (rep' & v & Hf & Hvis & Hres & Hall & _).
  { intros r ->%list_elem_of_singleton. by eexists. }
  unfold evaluate, get. rewrite decide_False by congruence. rewrite Hf. cbn [ms_l1 ms_report ms_stack mbind res_bind] in *.
  destruct (Hall x) as [id' Hid']; [left; by left|]. rewrite Hid'. cbn [mbind res_bind].
  eexists. split; [destruct t; done|]. cbn. destruct (Hres x id' Hid') as [Hn|Hn]; [exfalso; exact (lookup_empty_Some _ _ Hn)|].
  congruence.
Qed.
End transparent.

(** ** A concrete plan *)
Section witnesses.
#[local] Existing Instance toy_blake3.

Definition node (name : bytes) (deps sources : list bytes) : Derivation := {|
  dv_name := name; dv_version := str "1"; dv_builder_symbol := str "build";
  dv_dependencies := deps; dv_sources := sources; dv_env_vars := []; dv_totality := None |}.

Definition demo_plan : Plan :=
  {[ str "app" := node (str "app") [str "lib"; str "cc"] [];
     str "lib" := node (str "lib") [str "cc"] [];
     str "cc" := node (str "cc") [] [str "src"] ]}.

Definition demo_cold : MemoTable * res EvalError EvalReport :=
  evaluate demo_plan (Some (str "app")) (new None).

Definition demo_rep : EvalReport := match demo_cold.2 with Ok rep => rep | _ => empty_report end.

Lemma demo_cold_visited : er_visited demo_rep = [str "cc"; str "lib"; str "app"].
Proof. vm_compute. reflexivity. Qed.

Lemma valid_empty : valid demo_plan ∅.
Proof. intros n id. by rewrite lookup_empty. Qed.

Lemma memo_transparent_witness : valid demo_plan (mt_l1 demo_cold.1).
Proof.
  pose proof (memo_transparent demo_plan (Some (str "app")) (new None) valid_empty) as H.
  unfold demo_cold. destruct (evaluate _ _ _) as [t' r]. exact (proj1 H).
Defined.

Lemma warm_evaluation_witness :
  ∃ rep', evaluate demo_plan (Some (str "app")) demo_cold.1 = (demo_cold.1, Ok rep') ∧
          er_visited rep' = [] ∧ er_target_id rep' = er_target_id demo_rep.
Proof.
  apply (warm_evaluation demo_plan (str "app") (new None) demo_cold.1 demo_rep valid_empty).
  vm_compute. reflexivity.
Defined.
End witnesses.

End Memo.
