(* ===== verification/Ring.v ===== *)
(** * The split virtqueue ([avm-virtio/src/ring.rs])

    A queue over an explicit byte image of guest memory: descriptor table,
    available ring and used ring at computed offsets, [u16] indices that wrap.
    The image refines an abstract queue: a descriptor table and two FIFOs. *)

From S2P Require Import Prelude.

Module Ring.

Definition VRING_DESC_F_NEXT : Z := 1.
Definition VRING_DESC_F_WRITE : Z := 2.
Definition DESC_SIZE : Z := 16.
Definition USED_ELEM_SIZE : Z := 8.

Inductive QueueError :=
| NotPowerOfTwo (size : Z)
| OutOfRange (what : bytes)
| CorruptChain.

Record Descriptor := { ds_addr : Z; ds_len : Z; ds_flags : Z; ds_next : Z }.

Record SplitQueue := {
  sq_size : Z;
  sq_mem : bytes;
  sq_avail_ring : Z;
  sq_used_ring : Z;
  sq_next_avail : Z;
  sq_last_used : Z
}.

Definition with_mem (m : bytes) (q : SplitQueue) : SplitQueue := {|
  sq_size := sq_size q; sq_mem := m; sq_avail_ring := sq_avail_ring q; sq_used_ring := sq_used_ring q;
  sq_next_avail := sq_next_avail q; sq_last_used := sq_last_used q |}.

Definition u16 (z : Z) : Z := z mod 2 ^ 16.

(** [u16::is_power_of_two] *)
Definition is_power_of_two (n : Z) : bool := (0 <? n) && (Z.land n (n - 1) =? 0).

Definition new (size : Z) : res QueueError SplitQueue :=
  if (size =? 0) || negb (is_power_of_two size) then Err (NotPowerOfTwo size)
  else
  let table := DESC_SIZE * size in
  let avail_ring := table in
  let used_ring := Z.land (avail_ring + 6 + 2 * size + 3) (Z.lnot 3) in
  let total := used_ring + 6 + USED_ELEM_SIZE * size in
  Ok {| sq_size := size; sq_mem := replicate (Z.to_nat total) Byte.x00; sq_avail_ring := avail_ring;
        sq_used_ring := used_ring; sq_next_avail := 0; sq_last_used := 0 |}.

(** [from_le_bytes] of [n] bytes at [off]; [copy_from_slice] of the [to_le_bytes]. *)
Definition rd_at (mem : bytes) (off n : Z) : res QueueError Z :=
  b ← slice_p mem off (off + n); Ok (le_val b).
Definition wr_at (mem : bytes) (off : Z) (n : nat) (v : Z) : res QueueError bytes :=
  splice_p mem off (le_bytes n v).

Definition desc_offset (q : SplitQueue) (i : Z) : res QueueError Z :=
  if sq_size q <=? i then Err (OutOfRange (str "descriptor")) else Ok (DESC_SIZE * i).

Definition set_desc (q : SplitQueue) (i addr len flags next : Z) : res QueueError SplitQueue :=
  off ← desc_offset q i;
  m ← wr_at (sq_mem q) off 8 addr;
  m ← wr_at m (off + 8) 4 len;
  m ← wr_at m (off + 12) 2 flags;
  m ← wr_at m (off + 14) 2 next;
  Ok (with_mem m q).

Definition push_avail (q : SplitQueue) (head : Z) : res QueueError (SplitQueue * Z) :=
  if sq_size q <=? head then Err (OutOfRange (str "head"))
  else
  idx ← rd_at (sq_mem q) (sq_avail_ring q + 2) 2;
  let slot := sq_avail_ring q + 4 + 2 * (idx mod sq_size q) in
  m ← wr_at (sq_mem q) slot 2 head;
  let idx := u16 (idx + 1) in
  m ← wr_at m (sq_avail_ring q + 2) 2 idx;
  Ok (with_mem m q, idx).

Definition avail_count (q : SplitQueue) : res QueueError Z :=
  idx ← rd_at (sq_mem q) (sq_avail_ring q + 2) 2;
  Ok (u16 (idx - sq_next_avail q)).

(** One descriptor out of the table. *)
Definition read_desc (q : SplitQueue) (i : Z) : res QueueError Descriptor :=
  off ← desc_offset q i;
  addr ← rd_at (sq_mem q) off 8;
  len ← rd_at (sq_mem q) (off + 8) 4;
  flags ← rd_at (sq_mem q) (off + 12) 2;
  next ← rd_at (sq_mem q) (off + 14) 2;
  Ok {| ds_addr := addr; ds_len := len; ds_flags := flags; ds_next := next |}.

(** The [loop] of [pop_chain]. The chain grows by one every iteration and is
    refused above [size], so [size + 1] iterations are enough. *)
Fixpoint walk (fuel : nat) (size : Z) (read : Z → res QueueError Descriptor) (cur : Z)
    (chain : list Descriptor) : res QueueError (list Descriptor) :=
  match fuel with
  | O => Panic
  | S fuel =>
      d ← read cur;
      let chain := chain ++ [d] in
      if size <? Zlen chain then Err CorruptChain
      else if negb (Z.land (ds_flags d) VRING_DESC_F_NEXT =? 0) then walk fuel size read (ds_next d) chain
      else Ok chain
  end.

Definition pop_chain (q : SplitQueue) : res QueueError (SplitQueue * option (list Descriptor)) :=
  count ← avail_count q;
  if count =? 0 then Ok (q, None)
  else if sq_size q <? count then Err CorruptChain
  else
  let slot := sq_avail_ring q + 4 + 2 * (sq_next_avail q mod sq_size q) in
  head ← rd_at (sq_mem q) slot 2;
  chain ← walk (S (Z.to_nat (sq_size q))) (sq_size q) (read_desc q) head [];
  Ok ({| sq_size := sq_size q; sq_mem := sq_mem q; sq_avail_ring := sq_avail_ring q;
         sq_used_ring := sq_used_ring q; sq_next_avail := u16 (sq_next_avail q + 1);
         sq_last_used := sq_last_used q |}, Some chain).

Definition push_used (q : SplitQueue) (head written : Z) : res QueueError SplitQueue :=
  if sq_size q <=? head then Err (OutOfRange (str "head"))
  else
  idx ← rd_at (sq_mem q) (sq_used_ring q + 2) 2;
  let slot := sq_used_ring q + 4 + USED_ELEM_SIZE * (idx mod sq_size q) in
  m ← wr_at (sq_mem q) slot 4 head;
  m ← wr_at m (slot + 4) 4 written;
  let idx := u16 (idx + 1) in
  m ← wr_at m (sq_used_ring q + 2) 2 idx;
  Ok (with_mem m q).

Definition pop_used (q : SplitQueue) : res QueueError (SplitQueue * option (Z * Z)) :=
  idx ← rd_at (sq_mem q) (sq_used_ring q + 2) 2;
  if idx =? sq_last_used q then Ok (q, None)
  else
  let slot := sq_used_ring q + 4 + USED_ELEM_SIZE * (sq_last_used q mod sq_size q) in
  id ← rd_at (sq_mem q) slot 4;
  len ← rd_at (sq_mem q) (slot + 4) 4;
  Ok ({| sq_size := sq_size q; sq_mem := sq_mem q; sq_avail_ring := sq_avail_ring q;
         sq_used_ring := sq_used_ring q; sq_next_avail := sq_next_avail q;
         sq_last_used := u16 (sq_last_used q + 1) |}, Some (u16 id, len)).

(** ** Fields of the image *)
Definition fld (m : bytes) (off n : Z) : Z := le_val m.[off : off + n].
Definition upd (m : bytes) (off : Z) (n : nat) (v : Z) : bytes := splice m off (le_bytes n v).

Lemma rd_at_fld m off n : 0 ≤ off → 0 ≤ n → off + n ≤ Zlen m → rd_at m off n = Ok (fld m off n).
Proof. intros. unfold rd_at. by rewrite slice_p_Ok by lia. Qed.

Lemma wr_at_upd m off n v : 0 ≤ off → off + Z.of_nat n ≤ Zlen m → wr_at m off n v = Ok (upd m off n v).
Proof. intros. unfold wr_at. rewrite splice_p_Ok; [done|lia|]. rewrite length_le_bytes. lia. Qed.

Lemma length_upd m off n v : 0 ≤ off → off + Z.of_nat n ≤ Zlen m → Zlen (upd m off n v) = Zlen m.
Proof. intros. unfold upd. rewrite length_splice; [done|lia|]. rewrite length_le_bytes. lia. Qed.

Lemma fld_upd_same m off n v :
  0 ≤ off → off + Z.of_nat n ≤ Zlen m → 0 ≤ v < 2 ^ (8 * Z.of_nat n) →
  fld (upd m off n v) off (Z.of_nat n) = v.
Proof.
  intros Ho Hb Hv. unfold fld, upd. rewrite <-(length_le_bytes n v) at 2.
  rewrite slice_splice_same; [by apply le_val_le_bytes_small|lia|]. rewrite length_le_bytes. lia.
Qed.

Lemma fld_upd_other m off n v off' n' :
  0 ≤ off → off + Z.of_nat n ≤ Zlen m → 0 ≤ off' → 0 ≤ n' → off' + n' ≤ Zlen m →
  off' + n' ≤ off ∨ off + Z.of_nat n ≤ off' →
  fld (upd m off n v) off' n' = fld m off' n'.
Proof.
  intros Ho Hb Ho' Hn' Hb' Hd. unfold fld, upd.
  rewrite slice_splice_disjoint; rewrite ?length_le_bytes; [done|lia..].
Qed.

Lemma fld_range m off n : 0 ≤ off → 0 ≤ n → off + n ≤ Zlen m → 0 ≤ fld m off n < 2 ^ (8 * n).
Proof.
  intros. unfold fld. pose proof (le_val_range m.[off : off + n]) as Hr.
  rewrite length_slice in Hr by lia. by replace (off + n - off) with n in Hr by lia.
Qed.

(** ** Geometry *)
Record WF (q : SplitQueue) : Prop := {
  wf_pow : ∃ k, 0 ≤ k ≤ 15 ∧ sq_size q = 2 ^ k;
  wf_avail_ring : sq_avail_ring q = 16 * sq_size q;
  wf_used_ring : 18 * sq_size q + 6 ≤ sq_used_ring q;
  wf_len : Zlen (sq_mem q) = sq_used_ring q + 6 + 8 * sq_size q
}.

Lemma wf_size_pos q : WF q → 0 < sq_size q ≤ 2 ^ 15.
Proof.
  intros [(k & Hk & ->) _ _ _]. split; [lia|]. apply Z.pow_le_mono_r; lia.
Qed.

Lemma mod_pow2 q x : WF q → (x mod 2 ^ 16) mod sq_size q = x mod sq_size q.
Proof.
  intros [(k & Hk & ->) _ _ _]. apply Z.mod_mod_divide.
  exists (2 ^ (16 - k)). rewrite <-Z.pow_add_r by lia. f_equal. lia.
Qed.

Lemma is_power_of_two_spec n :
  0 ≤ n < 2 ^ 16 → is_power_of_two n = true ↔ ∃ k, 0 ≤ k ≤ 15 ∧ n = 2 ^ k.
Proof.
  intros Hn. unfold is_power_of_two. rewrite andb_true_iff, Z.ltb_lt, Z.eqb_eq. split.
  - intros [Hp Hl]. exists (Z.log2 n). pose proof (Z.log2_spec n Hp) as [Hlo Hhi].
    assert (0 ≤ Z.log2 n ≤ 15) as Hk.
    { split; [apply Z.log2_nonneg|]. destruct (Z.le_gt_cases (Z.log2 n) 15); [done|].
      assert (2 ^ 16 ≤ 2 ^ Z.log2 n) by (apply Z.pow_le_mono_r; lia). lia. }
    split; [done|]. destruct (Z.eq_dec n (2 ^ Z.log2 n)) as [|Hne]; [done|]. exfalso.
    assert (Z.log2 (n - 1) = Z.log2 n) as Hlog.
    { apply Z.log2_unique; [lia|]. lia. }
    assert (Z.testbit (Z.land n (n - 1)) (Z.log2 n) = true) as Hb.
    { rewrite Z.land_spec, Z.bit_log2 by done. rewrite <-Hlog at 1. apply Z.bit_log2.
      assert (1 ≤ 2 ^ Z.log2 n) by (apply (Z.pow_le_mono_r 2 0); lia). lia. }
    rewrite Hl, Z.testbit_0_l in Hb. done.
  - intros (k & Hk & ->). split; [lia|]. replace (2 ^ k - 1) with (Z.ones k) by (rewrite Z.ones_equiv; lia).
    rewrite Z.land_ones by lia. apply Z.mod_same. lia.
Qed.

Lemma new_wf size q : 0 ≤ size < 2 ^ 16 → new size = Ok q → WF q ∧ sq_size q = size.
Proof.
  intros Hs. unfold new. destruct (Z.eqb_spec size 0); cbn [orb]; [done|].
  destruct (is_power_of_two size) eqn:Hp; cbn [negb]; [|done]. intros [= <-].
  apply is_power_of_two_spec in Hp as (k & Hk & Hsz); [|done].
  assert (∀ x, Z.land x (Z.lnot 3) = 4 * (x / 4)) as Hal.
  { intros x. change (Z.lnot 3) with (Z.lnot (Z.ones 2)).
    rewrite <-Z.ldiff_land, Z.ldiff_ones_r by lia. rewrite Z.shiftl_mul_pow2, Z.shiftr_div_pow2 by lia.
    change (2 ^ 2) with 4. lia. }
  split; [|done]. unfold DESC_SIZE, USED_ELEM_SIZE. rewrite Hal.
  split; cbn [sq_size sq_avail_ring sq_used_ring sq_mem]; [by exists k|done| |].
  - pose proof (Z.mul_div_le (16 * size + 6 + 2 * size + 3) 4). pose proof (Z.mod_pos_bound (16 * size + 6 + 2 * size + 3) 4).
    pose proof (Z.div_mod (16 * size + 6 + 2 * size + 3) 4). lia.
  - rewrite length_replicate. rewrite Z2Nat.id; [done|].
    assert (0 ≤ (16 * size + 6 + 2 * size + 3) / 4) by (apply Z.div_pos; lia). lia.
Qed.

(** ** The abstract queue *)

(** [aq_popped] and [aq_reclaimed] count consumptions without wrapping. *)
Record AQ := {
  aq_desc : list Descriptor;
  aq_avail : list Z;
  aq_used : list (Z * Z);
  aq_popped : Z;
  aq_reclaimed : Z
}.

Definition desc_fits (d : Descriptor) : Prop :=
  0 ≤ ds_addr d < 2 ^ 64 ∧ 0 ≤ ds_len d < 2 ^ 32 ∧ 0 ≤ ds_flags d < 2 ^ 16 ∧ 0 ≤ ds_next d < 2 ^ 16.

Definition desc_at (m : bytes) (i : Z) : Descriptor := {|
  ds_addr := fld m (16 * i) 8; ds_len := fld m (16 * i + 8) 4;
  ds_flags := fld m (16 * i + 12) 2; ds_next := fld m (16 * i + 14) 2 |}.

Record DescView (size : Z) (m : bytes) (l : list Descriptor) : Prop := {
  dv_len : Zlen l = size;
  dv_at : ∀ i d, l !! i = Some d → desc_at m (Z.of_nat i) = d ∧ desc_fits d
}.

(** A ring of [elem]-byte slots at [base + 4]: its [u16] index, and the entries
    published from the consumer's position on. Nothing keeps the producer from
    passing the consumer: only the last [size] entries are still in their slots. *)
Record RingView {E : Type} (size base elem : Z) (m : bytes) (pos : Z) (entry : Z → E → Prop) (l : list E)
    : Prop := {
  rv_pos : 0 ≤ pos;
  rv_idx : fld m (base + 2) 2 = u16 (pos + Zlen l);
  rv_at : ∀ j e, Zlen l - size ≤ Z.of_nat j → l !! j = Some e → entry (base + 4 + elem * ((pos + Z.of_nat j) mod size)) e
}.

Definition avail_entry (size : Z) (m : bytes) (slot h : Z) : Prop := fld m slot 2 = h ∧ 0 ≤ h < size.
Definition used_entry (size : Z) (m : bytes) (slot : Z) (e : Z * Z) : Prop :=
  fld m slot 4 = e.1 ∧ fld m (slot + 4) 4 = e.2 ∧ 0 ≤ e.1 < size ∧ 0 ≤ e.2 < 2 ^ 32.

Record Rel (q : SplitQueue) (A : AQ) : Prop := {
  rel_wf : WF q;
  rel_desc : DescView (sq_size q) (sq_mem q) (aq_desc A);
  rel_avail : RingView (sq_size q) (sq_avail_ring q) 2 (sq_mem q) (aq_popped A)
                (avail_entry (sq_size q) (sq_mem q)) (aq_avail A);
  rel_used : RingView (sq_size q) (sq_used_ring q) 8 (sq_mem q) (aq_reclaimed A)
               (used_entry (sq_size q) (sq_mem q)) (aq_used A);
  rel_next : sq_next_avail q = u16 (aq_popped A);
  rel_last : sq_last_used q = u16 (aq_reclaimed A)
}.

(** *** Framing: two images agree on a region *)
Definition agree (lo hi : Z) (m m' : bytes) : Prop :=
  ∀ off n, lo ≤ off → 0 ≤ n → off + n ≤ hi → fld m' off n = fld m off n.

Lemma agree_refl lo hi m : agree lo hi m m.
Proof. done. Qed.

Lemma agree_trans lo hi m1 m2 m3 : agree lo hi m1 m2 → agree lo hi m2 m3 → agree lo hi m1 m3.
Proof. intros H1 H2 off n ? ? ?. by rewrite H2, H1. Qed.

Lemma upd_agree lo hi m off n v :
  0 ≤ lo → hi ≤ Zlen m → 0 ≤ off → off + Z.of_nat n ≤ Zlen m →
  hi ≤ off ∨ off + Z.of_nat n ≤ lo → agree lo hi m (upd m off n v).
Proof. intros. intros off' n' ? ? ?. apply fld_upd_other; lia. Qed.

Lemma desc_view_agree size m m' l :
  agree 0 (16 * size) m m' → DescView size m l → DescView size m' l.
Proof.
  intros Ha [Hl Hat]. split; [done|]. intros i d Hi. destruct (Hat i d Hi) as [<- Hf]. split; [|done].
  assert (Z.of_nat i < size) by (apply lookup_lt_Some in Hi; lia).
  unfold desc_at. by rewrite !Ha by lia.
Qed.

Lemma avail_view_agree size base m m' pos l :
  0 < size → agree (base + 2) (base + 4 + 2 * size) m m' →
  RingView size base 2 m pos (avail_entry size m) l → RingView size base 2 m' pos (avail_entry size m') l.
Proof.
  intros Hs Ha [Hp Hi Hat]. split; [done|by rewrite Ha by lia|].
  intros j e Hr Hj. destruct (Hat j e Hr Hj) as [<- Hb].
  pose proof (Z.mod_pos_bound (pos + Z.of_nat j) size Hs). split; [|done]. apply Ha; lia.
Qed.

Lemma used_view_agree size base m m' pos l :
  0 < size → agree (base + 2) (base + 4 + 8 * size) m m' →
  RingView size base 8 m pos (used_entry size m) l → RingView size base 8 m' pos (used_entry size m') l.
Proof.
  intros Hs Ha [Hp Hi Hat]. split; [done|by rewrite Ha by lia|].
  intros j e Hr Hj. destruct (Hat j e Hr Hj) as (H1 & H2 & Hb).
  pose proof (Z.mod_pos_bound (pos + Z.of_nat j) size Hs).
  split; [rewrite <-H1; apply Ha; lia|]. split; [rewrite <-H2; apply Ha; lia|done].
Qed.

(** *** Producing and consuming on a ring *)

(** Entries less than a ring apart occupy distinct slots. *)
Lemma slots_distinct size pos i j :
  0 < j - i < size → (pos + i) mod size ≠ (pos + j) mod size.
Proof.
  intros Hij Heq.
  assert ((pos + j - (pos + i)) mod size = 0) as Hz.
  { rewrite Zminus_mod, Heq, Z.sub_diag. apply Z.mod_0_l. lia. }
  replace (pos + j - (pos + i)) with (j - i) in Hz by lia. rewrite Z.mod_small in Hz; lia.
Qed.

Lemma ring_consume {E : Type} size base elem m pos entry (e : E) l :
  RingView size base elem m pos entry (e :: l) → RingView size base elem m (pos + 1) entry l.
Proof.
  intros [Hp Hi Hat]. cbn [length] in *. split; [lia| |].
  - rewrite Hi. f_equal. lia.
  - intros j e' Hr Hj. replace (pos + 1 + Z.of_nat j) with (pos + Z.of_nat (S j)) by lia. apply Hat; [lia|done].
Qed.

Lemma ring_count size base elem m pos {E : Type} entry (l : list E) :
  RingView size base elem m pos entry l → u16 (fld m (base + 2) 2 - u16 pos) = u16 (Zlen l).
Proof.
  intros [Hp Hi Hat]. rewrite Hi. unfold u16. rewrite <-Zminus_mod. f_equal. lia.
Qed.

(** The entry in the consumer's slot: the last one published there. *)
Definition oldest {E : Type} (size : Z) (l : list E) : option E := l !! Z.to_nat (size * ((Zlen l - 1) / size)).

(** Without an overrun it is the first one pending. *)
Lemma oldest_head {E : Type} size (l : list E) : Zlen l ≤ size → oldest size l = head l.
Proof.
  intros Hl. destruct l as [|e l]; [by unfold oldest|]. unfold oldest. cbn [length] in *.
  rewrite Z.div_small by lia. by rewrite Z.mul_0_r.
Qed.

Lemma ring_oldest size base elem m pos {E : Type} entry (l : list E) :
  0 < size → l ≠ [] → RingView size base elem m pos entry l →
  ∃ e, oldest size l = Some e ∧ entry (base + 4 + elem * (pos mod size)) e.
Proof.
  intros Hs Hne [Hp Hi Hat]. assert (0 < Zlen l) as Hl by (destruct l; [done|cbn; lia]).
  set (k := (Zlen l - 1) / size). pose proof (Z.mul_div_le (Zlen l - 1) size Hs) as Hle.
  pose proof (Z.mul_succ_div_gt (Zlen l - 1) size Hs) as Hgt. fold k in Hle, Hgt.
  assert (0 ≤ k) as Hk by (apply Z.div_pos; lia). assert (0 ≤ size * k) by nia.
  destruct (lookup_lt_is_Some_2 l (Z.to_nat (size * k))) as [e He]; [lia|].
  exists e. split; [done|]. assert (Zlen l - size ≤ Z.of_nat (Z.to_nat (size * k))) as Hr by lia.
  pose proof (Hat _ _ Hr He) as Hen. rewrite Z2Nat.id in Hen by lia.
  replace ((pos + size * k) mod size) with (pos mod size) in Hen; [done|].
  rewrite (Z.mul_comm size k). by rewrite Z.mod_add by lia.
Qed.

(** Read past the last write of an image. *)
Ltac skip m := unfold m; rewrite fld_upd_other by (cbn; lia).

(** *** The operations *)
Definition add_avail (h : Z) (A : AQ) : AQ := {|
  aq_desc := aq_desc A; aq_avail := aq_avail A ++ [h]; aq_used := aq_used A;
  aq_popped := aq_popped A; aq_reclaimed := aq_reclaimed A |}.
Definition add_used (e : Z * Z) (A : AQ) : AQ := {|
  aq_desc := aq_desc A; aq_avail := aq_avail A; aq_used := aq_used A ++ [e];
  aq_popped := aq_popped A; aq_reclaimed := aq_reclaimed A |}.
Definition set_aq_desc (i : Z) (d : Descriptor) (A : AQ) : AQ := {|
  aq_desc := <[Z.to_nat i := d]> (aq_desc A); aq_avail := aq_avail A; aq_used := aq_used A;
  aq_popped := aq_popped A; aq_reclaimed := aq_reclaimed A |}.

Lemma slot_bound size pos : 0 < size → 0 ≤ pos mod size < size.
Proof. apply Z.mod_pos_bound. Qed.

Lemma push_avail_ok q A h :
  Rel q A → 0 ≤ h < sq_size q →
  ∃ q', push_avail q h = Ok (q', u16 (aq_popped A + Zlen (aq_avail A) + 1)) ∧ Rel q' (add_avail h A).
Proof.
  intros [Hwf Hd Ha Hu Hn Hl] Hh. pose proof (wf_size_pos q Hwf) as Hs.
  pose proof (wf_avail_ring q Hwf) as Hav. pose proof (wf_used_ring q Hwf) as Hus. pose proof (wf_len q Hwf) as Hlen.
  unfold push_avail. destruct (Z.leb_spec (sq_size q) h); [lia|].
  rewrite rd_at_fld by lia. cbn [mbind res_bind]. rewrite (rv_idx _ _ _ _ _ _ _ Ha).
  set (n := aq_popped A + Zlen (aq_avail A)). rewrite (mod_pow2 q n Hwf : u16 n mod sq_size q = _).
  pose proof (slot_bound (sq_size q) n ltac:(lia)) as Hslot. set (sl := n mod sq_size q) in *.
  rewrite wr_at_upd by (cbn; lia). cbn [mbind res_bind].
  set (m1 := upd (sq_mem q) (sq_avail_ring q + 4 + 2 * sl) 2 h).
  assert (Zlen m1 = Zlen (sq_mem q)) as Hl1 by (apply length_upd; cbn; lia).
  rewrite wr_at_upd by (cbn; lia). cbn [mbind res_bind].
  assert (u16 (u16 n + 1) = u16 (n + 1)) as -> by (unfold u16; by rewrite Zplus_mod_idemp_l).
  set (m2 := upd m1 (sq_avail_ring q + 2) 2 (u16 (n + 1))).
  assert (Zlen m2 = Zlen (sq_mem q)) as Hl2 by (unfold m2; rewrite length_upd; cbn; lia).
  assert (0 ≤ u16 (n + 1) < 2 ^ 16) as Hix by (apply Z.mod_pos_bound; lia).
  assert (∀ lo hi, 0 ≤ lo → hi ≤ Zlen (sq_mem q) →
            hi ≤ sq_avail_ring q + 2 ∨ sq_avail_ring q + 4 + 2 * sq_size q ≤ lo →
            agree lo hi (sq_mem q) m2) as Hag.
  { intros lo hi Hlo Hhi Hdis. apply (agree_trans _ _ _ m1); apply upd_agree; cbn; lia. }
  eexists. split; [done|].
  split; cbn [with_mem sq_size sq_mem sq_avail_ring sq_used_ring sq_next_avail sq_last_used
              add_avail aq_desc aq_avail aq_used aq_popped aq_reclaimed]; try done.
  - destruct Hwf. split; try done. cbn [with_mem sq_mem sq_used_ring sq_size]. lia.
  - eapply desc_view_agree; [apply Hag; lia|done].
  - destruct Ha as [Hp Hi Hat].
    assert (fld m2 (sq_avail_ring q + 4 + 2 * sl) 2 = h) as Hnew.
    { skip m2. apply (fld_upd_same _ _ 2); cbn; lia. }
    split; [done| |].
    + rewrite length_app. cbn [length]. unfold m2.
      rewrite (fld_upd_same _ _ 2) by (cbn; lia). unfold n. f_equal. lia.
    + intros j e Hr [Hj|[Hj <-]]%lookup_snoc_Some.
      * destruct Hj as [Hjl Hj]. rewrite length_app in Hr. cbn [length] in Hr. destruct (Hat j e ltac:(lia) Hj) as [<- Hb].
        assert ((aq_popped A + Z.of_nat j) mod sq_size q ≠ sl) as Hne by (apply slots_distinct; lia).
        pose proof (slot_bound (sq_size q) (aq_popped A + Z.of_nat j) ltac:(lia)).
        set (sj := (aq_popped A + Z.of_nat j) mod sq_size q) in *.
        split; [|done]. skip m2. skip m1. done.
      * subst j. split; [|done]. exact Hnew.
  - eapply used_view_agree; [lia|apply Hag; lia|done].
Qed.

Lemma push_used_ok q A h w :
  Rel q A → 0 ≤ h < sq_size q → 0 ≤ w < 2 ^ 32 →
  ∃ q', push_used q h w = Ok q' ∧ Rel q' (add_used (h, w) A).
Proof.
  intros [Hwf Hd Ha Hu Hn Hl] Hh Hw. pose proof (wf_size_pos q Hwf) as Hs.
  pose proof (wf_avail_ring q Hwf) as Hav. pose proof (wf_used_ring q Hwf) as Hus. pose proof (wf_len q Hwf) as Hlen.
  unfold push_used, USED_ELEM_SIZE. destruct (Z.leb_spec (sq_size q) h); [lia|].
  rewrite rd_at_fld by lia. cbn [mbind res_bind]. rewrite (rv_idx _ _ _ _ _ _ _ Hu).
  set (n := aq_reclaimed A + Zlen (aq_used A)). rewrite (mod_pow2 q n Hwf : u16 n mod sq_size q = _).
  pose proof (slot_bound (sq_size q) n ltac:(lia)) as Hslot. set (sl := n mod sq_size q) in *.
  rewrite wr_at_upd by (cbn; lia). cbn [mbind res_bind].
  set (m1 := upd (sq_mem q) (sq_used_ring q + 4 + 8 * sl) 4 h).
  assert (Zlen m1 = Zlen (sq_mem q)) as Hl1 by (apply length_upd; cbn; lia).
  rewrite wr_at_upd by (cbn; lia). cbn [mbind res_bind].
  set (m2 := upd m1 (sq_used_ring q + 4 + 8 * sl + 4) 4 w).
  assert (Zlen m2 = Zlen (sq_mem q)) as Hl2 by (unfold m2; rewrite length_upd; cbn; lia).
  rewrite wr_at_upd by (cbn; lia). cbn [mbind res_bind].
  assert (u16 (u16 n + 1) = u16 (n + 1)) as -> by (unfold u16; by rewrite Zplus_mod_idemp_l).
  set (m3 := upd m2 (sq_used_ring q + 2) 2 (u16 (n + 1))).
  assert (Zlen m3 = Zlen (sq_mem q)) as Hl3 by (unfold m3; rewrite length_upd; cbn; lia).
  assert (0 ≤ u16 (n + 1) < 2 ^ 16) as Hix by (apply Z.mod_pos_bound; lia).
  assert (∀ hi, hi ≤ sq_used_ring q + 2 → ∀ lo, 0 ≤ lo → agree lo hi (sq_mem q) m3) as Hag.
  { intros hi Hhi lo Hlo. apply (agree_trans _ _ _ m2); [apply (agree_trans _ _ _ m1)|];
      apply upd_agree; cbn; lia. }
  eexists. split; [done|].
  split; cbn [with_mem sq_size sq_mem sq_avail_ring sq_used_ring sq_next_avail sq_last_used
              add_used aq_desc aq_avail aq_used aq_popped aq_reclaimed]; try done.
  - destruct Hwf. split; try done. cbn [with_mem sq_mem sq_used_ring sq_size]. lia.
  - eapply desc_view_agree; [apply Hag; lia|done].
  - eapply avail_view_agree; [lia|apply Hag; lia|done].
  - destruct Hu as [Hp Hi Hat].
    assert (fld m3 (sq_used_ring q + 4 + 8 * sl) 4 = h) as H1.
    { skip m3. skip m2. apply (fld_upd_same _ _ 4); cbn; lia. }
    assert (fld m3 (sq_used_ring q + 4 + 8 * sl + 4) 4 = w) as H2.
    { skip m3. apply (fld_upd_same _ _ 4); cbn; lia. }
    split; [done| |].
    + rewrite length_app. cbn [length]. unfold m3.
      rewrite (fld_upd_same _ _ 2) by (cbn; lia). unfold n. f_equal. lia.
    + intros j e Hr [Hj|[Hj <-]]%lookup_snoc_Some.
      * destruct Hj as [Hjl Hj]. rewrite length_app in Hr. cbn [length] in Hr. destruct (Hat j e ltac:(lia) Hj) as (E1 & E2 & Hb).
        assert ((aq_reclaimed A + Z.of_nat j) mod sq_size q ≠ sl) as Hne by (apply slots_distinct; lia).
        pose proof (slot_bound (sq_size q) (aq_reclaimed A + Z.of_nat j) ltac:(lia)).
        set (sj := (aq_reclaimed A + Z.of_nat j) mod sq_size q) in *.
        split; [|split; [|done]].
        -- rewrite <-E1. skip m3. skip m2. skip m1. done.
        -- rewrite <-E2. skip m3. skip m2. skip m1. done.
      * subst j. done.
Qed.

Lemma set_desc_ok q A i d :
  Rel q A → 0 ≤ i < sq_size q → desc_fits d →
  ∃ q', set_desc q i (ds_addr d) (ds_len d) (ds_flags d) (ds_next d) = Ok q' ∧ Rel q' (set_aq_desc i d A).
Proof.
  intros [Hwf Hd Ha Hu Hn Hl] Hi (F1 & F2 & F3 & F4). pose proof (wf_size_pos q Hwf) as Hs.
  pose proof (wf_avail_ring q Hwf) as Hav. pose proof (wf_used_ring q Hwf) as Hus. pose proof (wf_len q Hwf) as Hlen.
  unfold set_desc, desc_offset, DESC_SIZE. destruct (Z.leb_spec (sq_size q) i); [lia|]. cbn [mbind res_bind].
  rewrite wr_at_upd by (cbn; lia). cbn [mbind res_bind]. set (m1 := upd _ _ 8 _).
  assert (Zlen m1 = Zlen (sq_mem q)) as L1 by (apply length_upd; cbn; lia).
  rewrite wr_at_upd by (cbn; lia). cbn [mbind res_bind]. set (m2 := upd m1 _ 4 _).
  assert (Zlen m2 = Zlen (sq_mem q)) as L2 by (unfold m2; rewrite length_upd; cbn; lia).
  rewrite wr_at_upd by (cbn; lia). cbn [mbind res_bind]. set (m3 := upd m2 _ 2 _).
  assert (Zlen m3 = Zlen (sq_mem q)) as L3 by (unfold m3; rewrite length_upd; cbn; lia).
  rewrite wr_at_upd by (cbn; lia). cbn [mbind res_bind]. set (m4 := upd m3 _ 2 _).
  assert (Zlen m4 = Zlen (sq_mem q)) as L4 by (unfold m4; rewrite length_upd; cbn; lia).
  assert (∀ lo hi, 0 ≤ lo → hi ≤ Zlen (sq_mem q) → hi ≤ 16 * i ∨ 16 * i + 16 ≤ lo →
            agree lo hi (sq_mem q) m4) as Hag.
  { intros lo hi Hlo Hhi Hdis.
    apply (agree_trans _ _ _ m3); [apply (agree_trans _ _ _ m2); [apply (agree_trans _ _ _ m1)|]|];
      apply upd_agree; cbn; lia. }
  eexists. split; [done|].
  split; cbn [with_mem sq_size sq_mem sq_avail_ring sq_used_ring sq_next_avail sq_last_used
              set_aq_desc aq_desc aq_avail aq_used aq_popped aq_reclaimed]; try done.
  - destruct Hwf. split; try done. cbn [with_mem sq_mem sq_used_ring sq_size]. lia.
  - destruct Hd as [Hdl Hat]. split; [by rewrite length_insert|].
    intros j e [(Hij & <- & Hj)|[Hij Hj]]%list_lookup_insert_Some.
    + subst j. rewrite Z2Nat.id by lia. split; [|done]. unfold desc_at. destruct d as [addr len flags next].
      cbn [ds_addr ds_len ds_flags ds_next] in *. f_equal.
      * skip m4. skip m3. skip m2. apply (fld_upd_same _ _ 8); cbn; lia.
      * skip m4. skip m3. apply (fld_upd_same _ _ 4); cbn; lia.
      * skip m4. apply (fld_upd_same _ _ 2); cbn; lia.
      * apply (fld_upd_same _ _ 2); cbn; lia.
    + destruct (Hat j e Hj) as [<- Hf]. split; [|done].
      assert (Z.of_nat j < sq_size q) by (apply lookup_lt_Some in Hj; lia).
      unfold desc_at. f_equal; apply (Hag (16 * Z.of_nat j) (16 * Z.of_nat j + 16)); lia.
  - eapply avail_view_agree; [lia|apply Hag; lia|done].
  - eapply used_view_agree; [lia|apply Hag; lia|done].
Qed.

(** The descriptor table as the walk sees it. *)
Definition table_read (l : list Descriptor) (i : Z) : res QueueError Descriptor :=
  if Zlen l <=? i then Err (OutOfRange (str "descriptor"))
  else match l !! Z.to_nat i with Some d => Ok d | None => Panic end.

Lemma read_desc_table q A i :
  Rel q A → 0 ≤ i → read_desc q i = table_read (aq_desc A) i.
Proof.
  intros [Hwf [Hdl Hat] _ _ _ _] Hi. pose proof (wf_size_pos q Hwf). pose proof (wf_used_ring q Hwf).
  pose proof (wf_len q Hwf). unfold read_desc, table_read, desc_offset, DESC_SIZE. rewrite Hdl.
  destruct (Z.leb_spec (sq_size q) i); [done|]. cbn [mbind res_bind].
  rewrite !rd_at_fld by lia. cbn [mbind res_bind].
  destruct (lookup_lt_is_Some_2 (aq_desc A) (Z.to_nat i)) as [d Hd]; [lia|]. rewrite Hd.
  destruct (Hat _ _ Hd) as [<- _]. rewrite Z2Nat.id by lia. done.
Qed.

Lemma walk_ext fuel size read read' cur chain :
  (∀ i, 0 ≤ i → read i = read' i) → (∀ i d, read' i = Ok d → 0 ≤ ds_next d) → 0 ≤ cur →
  walk fuel size read cur chain = walk fuel size read' cur chain.
Proof.
  intros Heq Hnext. revert cur chain; induction fuel as [|fuel IH]; intros cur chain Hc; cbn [walk]; [done|].
  rewrite Heq by done. destruct (read' cur) as [d|e|] eqn:E; cbn [mbind res_bind]; [|done..].
  case_match; [done|]. case_match; [|done]. apply IH. by eapply Hnext.
Qed.

(** The chain a head denotes. *)
Definition chain_of (l : list Descriptor) (h : Z) : res QueueError (list Descriptor) :=
  walk (S (length l)) (Zlen l) (table_read l) h [].

Definition pop_avail (l : list Z) (A : AQ) : AQ := {|
  aq_desc := aq_desc A; aq_avail := l; aq_used := aq_used A;
  aq_popped := aq_popped A + 1; aq_reclaimed := aq_reclaimed A |}.
Definition reclaim (l : list (Z * Z)) (A : AQ) : AQ := {|
  aq_desc := aq_desc A; aq_avail := aq_avail A; aq_used := l;
  aq_popped := aq_popped A; aq_reclaimed := aq_reclaimed A + 1 |}.

Lemma u16_succ z : u16 (u16 z + 1) = u16 (z + 1).
Proof. unfold u16. by rewrite Zplus_mod_idemp_l. Qed.

Lemma pop_chain_ok q A :
  Rel q A →
  let n := u16 (Zlen (aq_avail A)) in
  if n =? 0 then pop_chain q = Ok (q, None)
  else if sq_size q <? n then pop_chain q = Err CorruptChain
  else ∃ h, oldest (sq_size q) (aq_avail A) = Some h ∧ 0 ≤ h ∧
    match chain_of (aq_desc A) h with
    | Ok c => ∃ q', pop_chain q = Ok (q', Some c) ∧ Rel q' (pop_avail (tail (aq_avail A)) A)
    | Err e => pop_chain q = Err e
    | Panic => pop_chain q = Panic
    end.
Proof.
  intros HR. pose proof HR as [Hwf Hd Ha Hu Hn Hl]. pose proof (wf_size_pos q Hwf) as Hs.
  pose proof (wf_avail_ring q Hwf). pose proof (wf_used_ring q Hwf). pose proof (wf_len q Hwf).
  pose proof (dv_len _ _ _ Hd) as Hdl. cbv zeta.
  unfold pop_chain, avail_count. rewrite (rd_at_fld _ (sq_avail_ring q + 2)) by lia. cbn [mbind res_bind].
  rewrite Hn, (ring_count _ _ _ _ _ _ _ Ha). destruct (u16 (Zlen (aq_avail A)) =? 0) eqn:E0; [done|].
  destruct (sq_size q <? u16 (Zlen (aq_avail A))); [done|].
  assert (aq_avail A ≠ []) as Hne by (intros He; by rewrite He in E0).
  rewrite (mod_pow2 q (aq_popped A) Hwf : u16 _ mod sq_size q = _).
  pose proof (slot_bound (sq_size q) (aq_popped A) ltac:(lia)).
  destruct (ring_oldest _ _ _ _ _ _ _ (proj1 Hs) Hne Ha) as (h & Ho & Hh & Hhb).
  exists h. split; [done|]. split; [lia|]. rewrite rd_at_fld by lia. cbn [mbind res_bind]. rewrite Hh.
  assert (walk (S (Z.to_nat (sq_size q))) (sq_size q) (read_desc q) h [] = chain_of (aq_desc A) h) as ->.
  { unfold chain_of. rewrite Hdl. replace (Z.to_nat (sq_size q)) with (length (aq_desc A)) by lia.
    apply walk_ext; [intros i Hi; by apply read_desc_table| |lia].
    intros i d. unfold table_read. case_match; [done|]. destruct (aq_desc A !! Z.to_nat i) as [d'|] eqn:E; [|done].
    intros [= <-]. destruct (dv_at _ _ _ Hd _ _ E) as [_ (_ & _ & _ & Hf)]. lia. }
  destruct (chain_of (aq_desc A) h) as [c|e|]; cbn [mbind res_bind]; [|done..].
  eexists. split; [done|]. rewrite u16_succ.
  split; cbn [sq_size sq_mem sq_avail_ring sq_used_ring sq_next_avail sq_last_used
              pop_avail aq_desc aq_avail aq_used aq_popped aq_reclaimed]; try done.
  - by destruct Hwf.
  - destruct (aq_avail A) as [|h' l]; [done|]. by eapply ring_consume.
Qed.

Lemma pop_used_ok q A :
  Rel q A →
  if u16 (Zlen (aq_used A)) =? 0 then pop_used q = Ok (q, None)
  else ∃ e q', oldest (sq_size q) (aq_used A) = Some e ∧ pop_used q = Ok (q', Some e) ∧ Rel q' (reclaim (tail (aq_used A)) A).
Proof.
  intros [Hwf Hd Ha Hu Hn Hl]. pose proof (wf_size_pos q Hwf) as Hs.
  pose proof (wf_avail_ring q Hwf). pose proof (wf_used_ring q Hwf). pose proof (wf_len q Hwf).
  pose proof (ring_count _ _ _ _ _ _ _ Hu) as Hcount.
  unfold pop_used, USED_ELEM_SIZE. rewrite (rd_at_fld _ (sq_used_ring q + 2)) by lia. cbn [mbind res_bind]. rewrite Hl.
  pose proof (fld_range (sq_mem q) (sq_used_ring q + 2) 2 ltac:(lia) ltac:(lia) ltac:(lia)) as Hf. change (2 ^ (8 * 2)) with (2 ^ 16) in Hf.
  set (idx := fld (sq_mem q) (sq_used_ring q + 2) 2) in *.
  assert ((u16 (Zlen (aq_used A)) =? 0) = (idx =? u16 (aq_reclaimed A))) as ->.
  { rewrite <-Hcount. apply eq_true_iff_eq. rewrite !Z.eqb_eq. split; [|intros ->; unfold u16; by rewrite Z.sub_diag].
    intros Hz. unfold u16 in *. pose proof (Z.mod_pos_bound (aq_reclaimed A) (2 ^ 16) ltac:(lia)).
    apply Z.mod_divide in Hz as [k Hk]; lia. }
  destruct (idx =? u16 (aq_reclaimed A)) eqn:E0; [done|].
  assert (aq_used A ≠ []) as Hne.
  { intros He. rewrite He in Hcount. cbn in Hcount. pose proof (Z.mod_pos_bound (aq_reclaimed A) (2 ^ 16) ltac:(lia)). unfold u16 in *.
    change (0 mod 2 ^ 16) with 0 in Hcount. apply Z.mod_divide in Hcount as [k Hk]; lia. }
  rewrite (mod_pow2 q (aq_reclaimed A) Hwf : u16 _ mod sq_size q = _).
  pose proof (slot_bound (sq_size q) (aq_reclaimed A) ltac:(lia)).
  destruct (ring_oldest _ _ _ _ _ _ _ (proj1 Hs) Hne Hu) as ([h w] & Ho & E1 & E2 & Hb1 & Hb2).
  cbn [fst snd] in *. rewrite !rd_at_fld by lia. cbn [mbind res_bind].
  rewrite E1, E2. assert (u16 h = h) as -> by (unfold u16; rewrite Z.mod_small; lia).
  eexists _, _. split; [done|]. split; [done|]. rewrite u16_succ.
  split; cbn [sq_size sq_mem sq_avail_ring sq_used_ring sq_next_avail sq_last_used
              reclaim aq_desc aq_avail aq_used aq_popped aq_reclaimed]; try done.
  - by destruct Hwf.
  - destruct (aq_used A) as [|e' l]; [done|]. by eapply ring_consume.
Qed.

(** ** Chains *)

(** The descriptors a head links, ending at one without [NEXT]. *)
Inductive chain_path (l : list Descriptor) : Z → list Descriptor → Prop :=
| path_end i d :
    table_read l i = Ok d → Z.land (ds_flags d) VRING_DESC_F_NEXT = 0 → chain_path l i [d]
| path_next i d c :
    table_read l i = Ok d → Z.land (ds_flags d) VRING_DESC_F_NEXT ≠ 0 → chain_path l (ds_next d) c →
    chain_path l i (d :: c).

Lemma chain_path_det l i c c' : chain_path l i c → chain_path l i c' → c = c'.
Proof.
  intros Hc; revert c'. induction Hc as [i d Hr Hf|i d c Hr Hf Hc IH]; intros c' Hc';
    inversion Hc' as [? d' Hr' Hf'|? d' c0 Hr' Hf' Hc0]; subst; rewrite Hr in Hr'; injection Hr' as <-;
    try done. f_equal. by apply IH.
Qed.

(** No index repeats along a path, so a path is never longer than the table. *)
Lemma chain_path_indices l i c :
  Forall desc_fits l → 0 ≤ i → chain_path l i c →
  ∃ js : list nat, length js = length c ∧ NoDup js ∧
    ∀ j, j ∈ js → (j < length l)%nat ∧ ∃ c', chain_path l (Z.of_nat j) c' ∧ (length c' ≤ length c)%nat.
Proof.
  intros Hl Hi Hc. revert Hi. induction Hc as [i d Hr Hf|i d c Hr Hf Hc IH]; intros Hi.
  all: assert (i < Zlen l ∧ l !! Z.to_nat i = Some d) as [Hlt Hd]
         by (unfold table_read in Hr; destruct (Z.leb_spec (Zlen l) i); [done|];
             destruct (l !! Z.to_nat i); by simplify_eq).
  - exists [Z.to_nat i]. split; [done|]. split; [apply NoDup_singleton|].
    intros j ->%list_elem_of_singleton. split; [lia|]. exists [d]. rewrite Z2Nat.id by lia.
    split; [by apply path_end|done].
  - destruct IH as (js & Hlen & Hnd & His).
    { eapply Forall_lookup_1 in Hl as (_ & _ & _ & Hn); [|exact Hd]. lia. }
    exists (Z.to_nat i :: js). split; [cbn; lia|]. split.
    + apply NoDup_cons. split; [|done]. intros Hin. destruct (His _ Hin) as (_ & c' & Hc' & Hle).
      rewrite Z2Nat.id in Hc' by lia.
      assert (c' = d :: c) as -> by (eapply chain_path_det; [exact Hc'|by apply path_next]). cbn in Hle. lia.
    + intros j [->|Hj]%elem_of_cons.
      * split; [lia|]. exists (d :: c). rewrite Z2Nat.id by lia. split; [by apply path_next|done].
      * destruct (His j Hj) as (Hjl & c' & Hc' & Hle). split; [done|]. exists c'. cbn. split; [done|lia].
Qed.

Lemma chain_path_length l i c : Forall desc_fits l → 0 ≤ i → chain_path l i c → (length c ≤ length l)%nat.
Proof.
  intros Hl Hi Hc. destruct (chain_path_indices l i c Hl Hi Hc) as (js & <- & Hnd & His).
  rewrite <-(length_seq (length l) 0). apply submseteq_length, NoDup_submseteq; [done|].
  intros j Hj. apply elem_of_seq. destruct (His j Hj). lia.
Qed.

Lemma walk_spec fuel l cur acc :
  Forall desc_fits l → 0 ≤ cur → (length acc + fuel = S (length l))%nat → (length acc ≤ length l)%nat →
  match walk fuel (Zlen l) (table_read l) cur acc with
  | Ok r => ∃ c, chain_path l cur c ∧ r = acc ++ c
  | Err _ => ∀ c, chain_path l cur c → (length l < length acc + length c)%nat
  | Panic => False
  end.
Proof.
  intros Hl. revert cur acc; induction fuel as [|fuel IH]; intros cur acc Hc Hf Ha; cbn [walk]; [lia|].
  destruct (table_read l cur) as [d|e|] eqn:Hr; cbn [mbind res_bind].
  2:{ intros c Hp. inversion Hp; congruence. }
  2:{ unfold table_read in Hr. destruct (Z.leb_spec (Zlen l) cur); [done|].
      destruct (lookup_lt_is_Some_2 l (Z.to_nat cur)) as [x Hx]; [lia|]. by rewrite Hx in Hr. }
  assert (0 ≤ ds_next d) as Hn.
  { unfold table_read in Hr. case_match; [done|]. destruct (l !! Z.to_nat cur) as [d'|] eqn:E; simplify_eq.
    eapply Forall_lookup_1 in Hl as (_ & _ & _ & Hn); [|exact E]. lia. }
  rewrite length_app. cbn [length]. destruct (Z.ltb_spec (Zlen l) (Z.of_nat (length acc + 1))).
  { intros c Hp. inversion Hp; cbn; lia. }
  destruct (Z.eqb_spec (Z.land (ds_flags d) VRING_DESC_F_NEXT) 0) as [Hz|Hnz]; cbn [negb].
  { exists [d]. split; [by apply path_end|done]. }
  specialize (IH (ds_next d) (acc ++ [d]) Hn). rewrite length_app in IH. cbn [length] in IH.
  specialize (IH ltac:(lia) ltac:(lia)).
  destruct (walk fuel _ _ (ds_next d) _) as [r|e|]; [| |done].
  - destruct IH as (c & Hp & ->). exists (d :: c). split; [by apply path_next|]. by rewrite <-app_assoc.
  - intros c Hp. inversion Hp as [? d' Hr' Hf'|? d' c0 Hr' Hf' Hc0]; subst; rewrite Hr in Hr'; injection Hr' as <-;
      [done|]. specialize (IH _ Hc0). cbn. lia.
Qed.

(** Chain walking is exact and total on any guest-written table: the walk
    returns descriptors [c] exactly when [c] is the in-range [NEXT]-linked
    chain of the head; a cyclic or out-of-range chain is an error value, never
    a hang, a truncation or an out-of-bounds read. *)
Theorem chain_walk_exact l h :
  Forall desc_fits l → 0 ≤ h →
  chain_of l h ≠ Panic ∧ ∀ c, chain_of l h = Ok c ↔ chain_path l h c.
Proof.
  intros Hl Hh. pose proof (walk_spec (S (length l)) l h [] Hl Hh ltac:(cbn; lia) ltac:(cbn; lia)) as Hw.
  fold (chain_of l h) in Hw. destruct (chain_of l h) as [r|e|]; [| |done]; (split; [done|]); intros c.
  - destruct Hw as (c' & Hp & ->). cbn [app]. split; [by intros [= <-]|].
    intros Hc. f_equal. by eapply chain_path_det.
  - split; [done|]. intros Hc. specialize (Hw c Hc). pose proof (chain_path_length l h c Hl Hh Hc).
    cbn in Hw. lia.
Qed.

(** ** Sequences of operations *)
Inductive op :=
| SetDesc (i : Z) (d : Descriptor)
| PushAvail (head : Z)
| PopChain
| PushUsed (head written : Z)
| PopUsed.

Inductive out :=
| ODone
| OIdx (idx : Z)
| OChain (c : option (list Descriptor))
| OUsed (e : option (Z * Z))
| OErr (e : QueueError).

(** A failing call leaves the queue as it was; [None] is a panic. *)
Definition settle {A} (q : SplitQueue) (r : res QueueError A) (k : A → SplitQueue * out)
    : option (SplitQueue * out) :=
  match r with Ok a => Some (k a) | Err e => Some (q, OErr e) | Panic => None end.

Definition exec (o : op) (q : SplitQueue) : option (SplitQueue * out) :=
  match o with
  | SetDesc i d => settle q (set_desc q i (ds_addr d) (ds_len d) (ds_flags d) (ds_next d)) (λ q', (q', ODone))
  | PushAvail h => settle q (push_avail q h) (λ '(q', i), (q', OIdx i))
  | PopChain => settle q (pop_chain q) (λ '(q', c), (q', OChain c))
  | PushUsed h w => settle q (push_used q h w) (λ q', (q', ODone))
  | PopUsed => settle q (pop_used q) (λ '(q', e), (q', OUsed e))
  end.

Fixpoint run {Q : Type} (step : op → Q → option (Q * out)) (ops : list op) (q : Q)
    : option (Q * list out) :=
  match ops with
  | [] => Some (q, [])
  | o :: ops => '(q, r) ← step o q; '(q, rs) ← run step ops q; Some (q, r :: rs)
  end.

(** The argument types: [u16], [u32], [u64]. *)
Definition op_typed (o : op) : Prop :=
  match o with
  | SetDesc i d => 0 ≤ i < 2 ^ 16 ∧ desc_fits d
  | PushAvail h => 0 ≤ h < 2 ^ 16
  | PushUsed h w => 0 ≤ h < 2 ^ 16 ∧ 0 ≤ w < 2 ^ 32
  | PopChain | PopUsed => True
  end.

(** The abstract queue; [None] is a panic. A push never looks at the consumer.
    The consumer sees how many entries are pending only modulo [2 ^ 16], refuses
    more available heads than the ring holds, and takes the last entry published
    in its slot: the first pending one as long as the ring was not overrun
    ([oldest_head]). *)
Definition aexec (o : op) (A : AQ) : option (AQ * out) :=
  let size := Zlen (aq_desc A) in
  match o with
  | SetDesc i d => if size <=? i then Some (A, OErr (OutOfRange (str "descriptor")))
                   else Some (set_aq_desc i d A, ODone)
  | PushAvail h => if size <=? h then Some (A, OErr (OutOfRange (str "head")))
                   else Some (add_avail h A, OIdx (u16 (aq_popped A + Zlen (aq_avail A) + 1)))
  | PopChain =>
      let n := u16 (Zlen (aq_avail A)) in
      if n =? 0 then Some (A, OChain None)
      else if size <? n then Some (A, OErr CorruptChain)
      else h ← oldest size (aq_avail A);
           match chain_of (aq_desc A) h with
           | Ok c => Some (pop_avail (tail (aq_avail A)) A, OChain (Some c))
           | Err e => Some (A, OErr e)
           | Panic => None
           end
  | PushUsed h w => if size <=? h then Some (A, OErr (OutOfRange (str "head"))) else Some (add_used (h, w) A, ODone)
  | PopUsed =>
      if u16 (Zlen (aq_used A)) =? 0 then Some (A, OUsed None)
      else e ← oldest size (aq_used A); Some (reclaim (tail (aq_used A)) A, OUsed (Some e))
  end.

Lemma desc_view_fits size m l : DescView size m l → Forall desc_fits l.
Proof. intros [_ Hat]. apply Forall_lookup_2. intros i d Hd. by apply (Hat i d). Qed.

Lemma exec_refines o q A :
  Rel q A → op_typed o → ∃ A' r q', aexec o A = Some (A', r) ∧ exec o q = Some (q', r) ∧ Rel q' A'.
Proof.
  intros HR Ht. pose proof (dv_len _ _ _ (rel_desc _ _ HR)) as Hsz.
  destruct o as [i d|h| |h w|]; cbn [aexec exec op_typed] in *; rewrite ?Hsz.
  - destruct (Z.leb_spec (sq_size q) i) as [Hge|Hlt].
    + eexists _, _, q. split; [done|]. split; [|done]. unfold set_desc, desc_offset. by destruct (Z.leb_spec (sq_size q) i); [|lia].
    + destruct Ht as [Hi Hf]. destruct (set_desc_ok q A i d HR ltac:(lia) Hf) as (q' & -> & HR'). by eexists _, _, q'.
  - destruct (Z.leb_spec (sq_size q) h) as [Hge|Hlt].
    + eexists _, _, q. split; [done|]. split; [|done]. unfold push_avail. by destruct (Z.leb_spec (sq_size q) h); [|lia].
    + destruct (push_avail_ok q A h HR ltac:(lia)) as (q' & -> & HR'). by eexists _, _, q'.
  - pose proof (pop_chain_ok q A HR) as Hp. cbv zeta in *. destruct (_ =? 0); [rewrite Hp; by eexists _, _, q|].
    destruct (_ <? _); [rewrite Hp; by eexists _, _, q|]. destruct Hp as (h & -> & Hh & Hp). cbn [mbind option_bind].
    destruct (chain_walk_exact (aq_desc A) h (desc_view_fits _ _ _ (rel_desc _ _ HR)) Hh) as [Hnp _].
    destruct (chain_of (aq_desc A) h) as [c|e|]; [| |done].
    + destruct Hp as (q' & -> & HR'). by eexists _, _, q'.
    + rewrite Hp. by eexists _, _, q.
  - destruct (Z.leb_spec (sq_size q) h) as [Hge|Hlt].
    + eexists _, _, q. split; [done|]. split; [|done]. unfold push_used. by destruct (Z.leb_spec (sq_size q) h); [|lia].
    + destruct (push_used_ok q A h w HR ltac:(lia) ltac:(lia)) as (q' & -> & HR'). by eexists _, _, q'.
  - pose proof (pop_used_ok q A HR) as Hp. destruct (_ =? 0); [rewrite Hp; by eexists _, _, q|].
    destruct Hp as (e & q' & -> & -> & HR'). by eexists _, _, q'.
Qed.

(** The fresh queue. *)
Definition aq_new (size : Z) : AQ := {|
  aq_desc := replicate (Z.to_nat size) {| ds_addr := 0; ds_len := 0; ds_flags := 0; ds_next := 0 |};
  aq_avail := []; aq_used := []; aq_popped := 0; aq_reclaimed := 0 |}.

Lemma le_val_zeros l : Forall (λ b, b = Byte.x00) l → le_val l = 0.
Proof. induction 1 as [|b l -> _ IH]; cbn [le_val]; [done|]. rewrite IH. done. Qed.

Lemma fld_zeros n off k : fld (replicate n Byte.x00) off k = 0.
Proof.
  unfold fld, slice. apply le_val_zeros. apply Forall_take, Forall_drop, Forall_replicate. done.
Qed.

Lemma new_rel size q : 0 ≤ size < 2 ^ 16 → new size = Ok q → Rel q (aq_new size).
Proof.
  intros Hs Hn. destruct (new_wf size q Hs Hn) as [Hwf Hsz]. pose proof (wf_size_pos q Hwf).
  assert (∃ n, sq_mem q = replicate n Byte.x00 ∧ sq_next_avail q = 0 ∧ sq_last_used q = 0) as (n & Hm & Hna & Hlu).
  { unfold new in Hn. case_match; [done|]. injection Hn as <-. by eexists. }
  split; rewrite ?Hm; cbn [aq_new aq_desc aq_avail aq_used aq_popped aq_reclaimed]; try done.
  - split; [rewrite length_replicate; lia|]. intros i d [-> _]%lookup_replicate_1.
    unfold desc_at. rewrite !fld_zeros. split; [done|]. unfold desc_fits. cbn. lia.
  - split; [done|by rewrite fld_zeros|done].
  - split; [done|by rewrite fld_zeros|done].
Qed.

(** C24. The byte image implements the queue: on a fresh queue of any
    power-of-two size, every sequence of calls whatever, also one that overruns a
    ring, returns what the abstract queue returns (heads, chains and completions,
    errors included) for any number of wrap-arounds of the [u16] indices, and no
    call panics. As long as no more entries are pending than a ring holds, the
    abstract queue is a descriptor table with two first-in first-out queues. *)
Theorem queue_refines size q ops :
  0 ≤ size < 2 ^ 16 → new size = Ok q → Forall op_typed ops →
  ∃ A' outs q', run aexec ops (aq_new size) = Some (A', outs) ∧ run exec ops q = Some (q', outs) ∧ Rel q' A' ∧
    (Zlen (aq_avail A') ≤ size → oldest size (aq_avail A') = head (aq_avail A') ∧ u16 (Zlen (aq_avail A')) = Zlen (aq_avail A')) ∧
    (Zlen (aq_used A') ≤ size → oldest size (aq_used A') = head (aq_used A') ∧ u16 (Zlen (aq_used A')) = Zlen (aq_used A')).
Proof.
  intros Hs Hn Ht. pose proof (new_rel size q Hs Hn) as HR.
  assert (∃ A' outs q', run aexec ops (aq_new size) = Some (A', outs) ∧ run exec ops q = Some (q', outs) ∧ Rel q' A') as (A' & outs & q' & Ha & Hq & HR').
  { clear Hs Hn. revert HR. generalize (aq_new size) as A. revert q.
    induction Ht as [|o ops Ho _ IH]; intros q A HR; cbn [run]; [by eexists _, _, q|].
    destruct (exec_refines o q A HR Ho) as (A1 & r & q1 & -> & -> & HR1). cbn.
    destruct (IH q1 A1 HR1) as (A' & rs & q' & -> & -> & HR'). by eexists _, _, q'. }
  exists A', outs, q'. split; [done|]. split; [done|]. split; [done|].
  split; intros Hl; (split; [by apply oldest_head|unfold u16; apply Z.mod_small; lia]).
Qed.

(** A ring that was overrun stays refused: pushing one head more than it holds
    makes every later pop an error, which consumes nothing. *)
Lemma overrun_refused A : Zlen (aq_desc A) < Zlen (aq_avail A) < 2 ^ 16 → aexec PopChain A = Some (A, OErr CorruptChain).
Proof.
  intros Hl. cbn [aexec]. unfold u16. rewrite Z.mod_small by lia. destruct (Z.eqb_spec (Zlen (aq_avail A)) 0); [lia|].
  by destruct (Z.ltb_spec (Zlen (aq_desc A)) (Zlen (aq_avail A))); [|lia].
Qed.

(** ** Concrete runs: one chain submitted, served and reclaimed; and a ring
    overrun *)
Definition demo_ops : list op :=
  [SetDesc 0 {| ds_addr := 65536; ds_len := 64; ds_flags := 1; ds_next := 1 |};
   SetDesc 1 {| ds_addr := 131072; ds_len := 128; ds_flags := 2; ds_next := 0 |};
   PushAvail 0; PopUsed; PopChain; PopChain; PushUsed 0 96; PopUsed; PushAvail 9;
   PushAvail 0; PushAvail 1; PushAvail 2; PushAvail 3; PushAvail 0; PopChain].

Definition demo_queue : SplitQueue :=
  match new 4 with Ok q => q
  | _ => {| sq_size := 0; sq_mem := []; sq_avail_ring := 0; sq_used_ring := 0; sq_next_avail := 0; sq_last_used := 0 |}
  end.

Lemma queue_refines_witness :
  ∃ A' outs q', run aexec demo_ops (aq_new 4) = Some (A', outs) ∧ run exec demo_ops demo_queue = Some (q', outs) ∧ Rel q' A' ∧
    nth 7 outs ODone = OUsed (Some (0, 96)) ∧ nth 14 outs ODone = OErr CorruptChain.
Proof.
  assert (Forall op_typed demo_ops) as Ht by (repeat constructor; cbn; lia).
  destruct (queue_refines 4 demo_queue demo_ops ltac:(lia) ltac:(vm_compute; reflexivity) Ht) as (A' & outs & q' & Ha & Hq & HR & _).
  exists A', outs, q'. split; [exact Ha|]. split; [exact Hq|]. split; [exact HR|].
  assert ((λ x, nth 7 x.2 ODone) <$> run exec demo_ops demo_queue = Some (OUsed (Some (0, 96)))) as H7 by (vm_compute; reflexivity).
  assert ((λ x, nth 14 x.2 ODone) <$> run exec demo_ops demo_queue = Some (OErr CorruptChain)) as H14 by (vm_compute; reflexivity).
  rewrite Hq in H7, H14. injection H7 as ->. injection H14 as ->. split; reflexivity.
Defined.

Lemma chain_walk_exact_witness :
  let l := [{| ds_addr := 1; ds_len := 8; ds_flags := 1; ds_next := 1 |};
            {| ds_addr := 2; ds_len := 8; ds_flags := 0; ds_next := 0 |}] in
  chain_of l 0 ≠ Panic ∧ ∀ c, chain_of l 0 = Ok c ↔ chain_path l 0 c.
Proof.
  cbv zeta. apply chain_walk_exact; [|lia]. repeat constructor; cbn; lia.
Defined.

End Ring.
