(* ===== verification/Vhost.v ===== *)
(** * The vhost-user message codec ([avm-virtio/src/vhost.rs])

    Fixed-layout messages with validity checks, as instances of one wire
    interface, and the framing of the shared-memory-regions reply. *)

From S2P Require Import Prelude.

Module Vhost.

Definition VERSION : Z := 1.
Definition FLAG_REPLY : Z := 4.
Definition GET_PROTOCOL_FEATURES : Z := 15.
Definition SET_PROTOCOL_FEATURES : Z := 16.
Definition GET_SHARED_MEMORY_REGIONS : Z := 1004.
Definition SHMEM_MAP : Z := 1000.
Definition SHMEM_UNMAP : Z := 1001.
Definition PROTOCOL_F_SHARED_MEMORY_REGIONS : Z := 0x80000000.

Inductive CodecError :=
| Truncated (what : bytes)
| BadVersion (v : Z)
| UnknownRequest (r : Z)
| BadMapFlags (f : byte)
| Overflow (what : bytes)
| BadRegionReply.

(** ** The wire interface: a fixed-length encoding, its validity check and the
    widths of the fields. *)
Class WireMsg (M : Type) := {
  wm_len : Z;
  wm_fits : M → Prop;
  wm_valid : M → bool;
  wm_encode : M → res CodecError bytes;
  wm_decode : bytes → res CodecError M
}.

(** What a message type promises its users: valid messages encode to [wm_len]
    bytes and decode back whatever follows them; whatever decodes is valid and
    in range; short input is [Truncated]; no input panics. *)
Record WireExact (M : Type) `{WireMsg M} : Prop := {
  we_encode : ∀ m, wm_fits m → wm_valid m = true →
    ∃ b, wm_encode m = Ok b ∧ Zlen b = wm_len ∧ ∀ tail, wm_decode (b ++ tail) = Ok m;
  we_decode : ∀ b m, wm_decode b = Ok m → wm_valid m = true ∧ wm_fits m ∧ wm_len ≤ Zlen b;
  we_short : ∀ b, Zlen b < wm_len → ∃ what, wm_decode b = Err (Truncated what);
  we_total : ∀ b, wm_decode b ≠ Panic
}.

(** [u32::from_le_bytes] or [u64::from_le_bytes] of a slice. *)
Definition word_at (b : bytes) (off n : Z) : res CodecError Z :=
  w ← slice_p b off (off + n); Ok (le_val w).

Definition zeros (n : nat) : bytes := replicate n Byte.x00.
Definition u64_sum (a b : Z) : option Z := if a + b <? 2 ^ 64 then Some (a + b) else None.

(** ** Frame header *)
Record MsgHeader := { mh_request : Z; mh_version : Z; mh_flags : Z; mh_size : Z }.

Definition request (r : Z) : MsgHeader :=
  {| mh_request := r; mh_version := VERSION; mh_flags := 0; mh_size := 0 |}.
Definition reply (r size : Z) : MsgHeader :=
  {| mh_request := r; mh_version := VERSION; mh_flags := FLAG_REPLY; mh_size := size |}.

Definition header_encode (h : MsgHeader) : bytes :=
  le_bytes 4 (mh_request h) ++ le_bytes 4 (mh_version h) ++ le_bytes 4 (mh_flags h) ++ le_bytes 4 (mh_size h).

Definition header_decode (b : bytes) : res CodecError MsgHeader :=
  if Zlen b <? 16 then Err (Truncated (str "header"))
  else
  r ← word_at b 0 4; v ← word_at b 4 4; f ← word_at b 8 4; s ← word_at b 12 4;
  let h := {| mh_request := r; mh_version := v; mh_flags := f; mh_size := s |} in
  if negb (mh_version h =? VERSION) then Err (BadVersion (mh_version h)) else Ok h.

(** ** Region record *)
Record SharedMemoryRegion := { sm_id : byte; sm_length : Z }.
Definition REGION_LEN : Z := 16.

Definition region_encode (r : SharedMemoryRegion) : bytes :=
  [sm_id r] ++ zeros 7 ++ le_bytes 8 (sm_length r).

Definition region_decode (b : bytes) : res CodecError SharedMemoryRegion :=
  if Zlen b <? REGION_LEN then Err (Truncated (str "region"))
  else
  id ← index_p b 0; len ← word_at b 8 8;
  Ok {| sm_id := id; sm_length := len |}.

(** ** The regions reply: a count, then the records *)
Definition encode_regions_reply (regions : list SharedMemoryRegion) : bytes :=
  le_bytes 8 (Zlen regions) ++ concat (region_encode <$> regions).

(** [8 + count * ENCODED_LEN] is checked [usize] arithmetic. *)
Definition decode_regions_reply (b : bytes) : res CodecError (list SharedMemoryRegion) :=
  if Zlen b <? 8 then Err (Truncated (str "region count"))
  else
  count ← word_at b 0 8;
  if 2 ^ 64 <=? 8 + count * REGION_LEN then Panic
  else if negb (Zlen b =? 8 + count * REGION_LEN) then Err BadRegionReply
  else mapM_res (λ i, d ← slice_p b (8 + i * REGION_LEN) (Zlen b); region_decode d) (seqZ 0 count).

(** ** Map and unmap messages *)
Definition MAP_R : Z := 1.
Definition MAP_W : Z := 2.

Record ShmemMapMsg := {
  mm_flags : byte; mm_shmid : byte; mm_shm_offset : Z; mm_fd_offset : Z; mm_len : Z
}.

(** [flags & !(MAP_R | MAP_W) != 0] *)
Definition bad_flags (f : byte) : bool := negb (Z.land (b2z f) (Z.lnot (Z.lor MAP_R MAP_W)) =? 0).

Definition map_is_valid (m : ShmemMapMsg) : bool :=
  negb (bad_flags (mm_flags m)) &&
  bool_decide (is_Some (u64_sum (mm_fd_offset m) (mm_len m))) &&
  bool_decide (is_Some (u64_sum (mm_shm_offset m) (mm_len m))).

Definition map_error (m : ShmemMapMsg) : CodecError :=
  if bad_flags (mm_flags m) then BadMapFlags (mm_flags m) else Overflow (str "shmem map").

Definition map_encode (m : ShmemMapMsg) : res CodecError bytes :=
  if negb (map_is_valid m) then Err (map_error m)
  else Ok ([mm_flags m] ++ [mm_shmid m] ++ zeros 6 ++ le_bytes 8 (mm_shm_offset m) ++
           le_bytes 8 (mm_fd_offset m) ++ le_bytes 8 (mm_len m)).

Definition map_decode (b : bytes) : res CodecError ShmemMapMsg :=
  if Zlen b <? 32 then Err (Truncated (str "shmem map"))
  else
  flags ← index_p b 0; shmid ← index_p b 1;
  so ← word_at b 8 8; fo ← word_at b 16 8; len ← word_at b 24 8;
  let m := {| mm_flags := flags; mm_shmid := shmid; mm_shm_offset := so; mm_fd_offset := fo; mm_len := len |} in
  if negb (map_is_valid m) then Err (map_error m) else Ok m.

Record ShmemUnmapMsg := { um_shmid : byte; um_shm_offset : Z; um_len : Z }.

Definition unmap_is_valid (m : ShmemUnmapMsg) : bool :=
  bool_decide (is_Some (u64_sum (um_shm_offset m) (um_len m))).

Definition unmap_encode (m : ShmemUnmapMsg) : res CodecError bytes :=
  if negb (unmap_is_valid m) then Err (Overflow (str "shmem unmap"))
  else Ok ([um_shmid m] ++ zeros 7 ++ le_bytes 8 (um_shm_offset m) ++ le_bytes 8 (um_len m)).

Definition unmap_decode (b : bytes) : res CodecError ShmemUnmapMsg :=
  if Zlen b <? 24 then Err (Truncated (str "shmem unmap"))
  else
  shmid ← index_p b 0; so ← word_at b 8 8; len ← word_at b 16 8;
  let m := {| um_shmid := shmid; um_shm_offset := so; um_len := len |} in
  if negb (unmap_is_valid m) then Err (Overflow (str "shmem unmap")) else Ok m.

(** ** Instances *)
Definition w32 (z : Z) : Prop := 0 ≤ z < 2 ^ 32.
Definition w64 (z : Z) : Prop := 0 ≤ z < 2 ^ 64.

#[export] Instance header_wire : WireMsg MsgHeader := {|
  wm_len := 16;
  wm_fits h := w32 (mh_request h) ∧ w32 (mh_flags h) ∧ w32 (mh_size h);
  wm_valid h := mh_version h =? VERSION;
  wm_encode h := Ok (header_encode h);
  wm_decode := header_decode |}.
#[export] Instance region_wire : WireMsg SharedMemoryRegion := {|
  wm_len := 16; wm_fits r := w64 (sm_length r); wm_valid _ := true;
  wm_encode r := Ok (region_encode r); wm_decode := region_decode |}.
#[export] Instance map_wire : WireMsg ShmemMapMsg := {|
  wm_len := 32; wm_fits m := w64 (mm_shm_offset m) ∧ w64 (mm_fd_offset m) ∧ w64 (mm_len m);
  wm_valid := map_is_valid; wm_encode := map_encode; wm_decode := map_decode |}.
#[export] Instance unmap_wire : WireMsg ShmemUnmapMsg := {|
  wm_len := 24; wm_fits m := w64 (um_shm_offset m) ∧ w64 (um_len m);
  wm_valid := unmap_is_valid; wm_encode := unmap_encode; wm_decode := unmap_decode |}.

(** ** Reading a concatenation of fields *)
Lemma word_at_Ok b off n : 0 ≤ off → 0 ≤ n → off + n ≤ Zlen b →
  ∃ z, word_at b off n = Ok z ∧ 0 ≤ z < 2 ^ (8 * n).
Proof.
  intros. unfold word_at. rewrite slice_p_Ok by lia. cbn. eexists. split; [done|].
  pose proof (le_val_range b.[off : off + n]) as Hr. rewrite length_slice in Hr by lia.
  by replace (off + n - off) with n in Hr by lia.
Qed.

Lemma word_at_middle p n z s off k :
  0 ≤ z < 2 ^ (8 * Z.of_nat n) → off = Zlen p → k = Z.of_nat n → word_at (p ++ le_bytes n z ++ s) off k = Ok z.
Proof.
  intros Hz -> ->. unfold word_at. rewrite slice_p_Ok by (rewrite ?length_app, ?length_le_bytes; lia).
  rewrite <-(length_le_bytes n z) at 2. rewrite slice_middle. cbn. by rewrite le_val_le_bytes_small.
Qed.

Lemma index_p_middle {E A} (p : list A) a s i : i = Zlen p → index_p (E:=E) (p ++ [a] ++ s) i = Ok a.
Proof.
  intros ->. unfold index_p. destruct (Z.leb_spec 0 (Zlen p)); [|lia].
  rewrite Nat2Z.id, lookup_app_r by lia. by rewrite Nat.sub_diag.
Qed.

Lemma index_p_Ok {E A} (l : list A) i : 0 ≤ i < Zlen l → ∃ a, index_p (E:=E) l i = Ok a.
Proof.
  intros Hi. unfold index_p. destruct (Z.leb_spec 0 i); [|lia].
  destruct (lookup_lt_is_Some_2 l (Z.to_nat i)) as [a Ha]; [lia|]. rewrite Ha. by eexists.
Qed.

(** Locate a field after the prefix [p]. *)
Lemma word_at_field b p n z s off k :
  b = p ++ le_bytes n z ++ s → 0 ≤ z < 2 ^ (8 * Z.of_nat n) → off = Zlen p → k = Z.of_nat n →
  word_at b off k = Ok z.
Proof. intros ->. apply word_at_middle. Qed.

Lemma index_p_field (b p : bytes) a s i : b = p ++ [a] ++ s → i = Zlen p → index_p (E:=CodecError) b i = Ok a.
Proof. intros ->. apply index_p_middle. Qed.

(** Discharge one field read: the list equation by reassociation, the widths by
    arithmetic. *)
Ltac field_side :=
  first [ by rewrite <-?app_assoc
        | by rewrite ?length_app, ?length_le_bytes
        | cbn; unfold w32, w64 in *; lia ].
Ltac word off p n z := erewrite (word_at_field _ p n z _ off); [cbn [mbind res_bind]|field_side..].
Ltac octet off p a := erewrite (index_p_field _ p a _ off); [cbn [mbind res_bind]|field_side..].

Lemma u64_sum_Some a b : is_Some (u64_sum a b) ↔ a + b < 2 ^ 64.
Proof.
  unfold u64_sum. destruct (Z.ltb_spec (a + b) (2 ^ 64)); split; [done|by eexists|by intros []|lia].
Qed.

Lemma header_exact : WireExact MsgHeader.
Proof.
  split; cbn [wm_len wm_fits wm_valid wm_encode wm_decode header_wire].
  - intros [r v f sz] (Hr & Hf & Hs) Hv%Z.eqb_eq. cbn [mh_request mh_version mh_flags mh_size] in *. subst v. eexists. split; [done|].
    unfold header_encode. cbn [mh_request mh_version mh_flags mh_size]. split; [by rewrite !length_app, !length_le_bytes|].
    intros tail. unfold header_decode.
    destruct (Z.ltb_spec (Zlen ((le_bytes 4 r ++ le_bytes 4 VERSION ++ le_bytes 4 f ++ le_bytes 4 sz) ++ tail)) 16) as [Hlt|_].
    { rewrite !length_app, !length_le_bytes in Hlt. lia. }
    word 0 (@nil byte) 4%nat r. word 4 (le_bytes 4 r) 4%nat VERSION. word 8 (le_bytes 4 r ++ le_bytes 4 VERSION) 4%nat f.
    word 12 (le_bytes 4 r ++ le_bytes 4 VERSION ++ le_bytes 4 f) 4%nat sz. done.
  - intros b m. unfold header_decode. destruct (Z.ltb_spec (Zlen b) 16); [done|].
    destruct (word_at_Ok b 0 4) as (r & -> & ?); [lia..|]. destruct (word_at_Ok b 4 4) as (v & -> & ?); [lia..|].
    destruct (word_at_Ok b 8 4) as (f & -> & ?); [lia..|]. destruct (word_at_Ok b 12 4) as (z & -> & ?); [lia..|].
    cbn [mbind res_bind mh_version]. destruct (v =? VERSION) eqn:E; cbn [negb]; [|done]. intros [= <-].
    cbn. unfold w32. split_and!; try done; lia.
  - intros b Hb. unfold header_decode. destruct (Z.ltb_spec (Zlen b) 16); [by eexists|lia].
  - intros b. unfold header_decode. destruct (Z.ltb_spec (Zlen b) 16); [done|].
    destruct (word_at_Ok b 0 4) as (r & -> & _); [lia..|]. destruct (word_at_Ok b 4 4) as (v & -> & _); [lia..|].
    destruct (word_at_Ok b 8 4) as (f & -> & _); [lia..|]. destruct (word_at_Ok b 12 4) as (z & -> & _); [lia..|].
    cbn. by case_match.
Qed.

Lemma region_exact : WireExact SharedMemoryRegion.
Proof.
  split; cbn [wm_len wm_fits wm_valid wm_encode wm_decode region_wire].
  - intros [id len] Hl _. cbn in Hl. eexists. split; [done|]. unfold region_encode. cbn [sm_id sm_length].
    split; [by rewrite !length_app, length_le_bytes|]. intros tail. unfold region_decode.
    destruct (Z.ltb_spec (Zlen (([id] ++ zeros 7 ++ le_bytes 8 len) ++ tail)) REGION_LEN) as [Hlt|_].
    { rewrite !length_app, length_le_bytes in Hlt. cbn in Hlt. unfold REGION_LEN in Hlt. lia. }
    octet 0 (@nil byte) id. word 8 ([id] ++ zeros 7) 8%nat len. done.
  - intros b m. unfold region_decode, REGION_LEN. destruct (Z.ltb_spec (Zlen b) 16); [done|].
    destruct (index_p_Ok (E:=CodecError) b 0) as (i & ->); [lia|]. destruct (word_at_Ok b 8 8) as (z & -> & ?); [lia..|].
    cbn. intros [= <-]. cbn. unfold w64. split_and!; try done; lia.
  - intros b Hb. unfold region_decode, REGION_LEN. destruct (Z.ltb_spec (Zlen b) 16); [by eexists|lia].
  - intros b. unfold region_decode, REGION_LEN. destruct (Z.ltb_spec (Zlen b) 16); [done|].
    destruct (index_p_Ok (E:=CodecError) b 0) as (i & ->); [lia|]. by destruct (word_at_Ok b 8 8) as (z & -> & _); [lia..|].
Qed.

Lemma map_exact : WireExact ShmemMapMsg.
Proof.
  split; cbn [wm_len wm_fits wm_valid wm_encode wm_decode map_wire].
  - intros [fl id so fo len] (Hso & Hfo & Hln) Hv. cbn in Hso, Hfo, Hln. unfold map_encode. rewrite Hv. cbn [negb].
    eexists. split; [done|]. cbn [mm_flags mm_shmid mm_shm_offset mm_fd_offset mm_len].
    split; [by rewrite !length_app, !length_le_bytes|]. intros tail. unfold map_decode.
    set (b := ([fl] ++ [id] ++ zeros 6 ++ le_bytes 8 so ++ le_bytes 8 fo ++ le_bytes 8 len) ++ tail).
    destruct (Z.ltb_spec (Zlen b) 32) as [Hlt|_].
    { unfold b in Hlt. rewrite !length_app, !length_le_bytes in Hlt. cbn in Hlt. lia. }
    unfold b. octet 0 (@nil byte) fl. octet 1 [fl] id. word 8 ([fl] ++ [id] ++ zeros 6) 8%nat so.
    word 16 ([fl] ++ [id] ++ zeros 6 ++ le_bytes 8 so) 8%nat fo.
    word 24 ([fl] ++ [id] ++ zeros 6 ++ le_bytes 8 so ++ le_bytes 8 fo) 8%nat len.
    rewrite Hv. done.
  - intros b m. unfold map_decode. destruct (Z.ltb_spec (Zlen b) 32); [done|].
    destruct (index_p_Ok (E:=CodecError) b 0) as (f & ->); [lia|]. destruct (index_p_Ok (E:=CodecError) b 1) as (i & ->); [lia|].
    destruct (word_at_Ok b 8 8) as (x & -> & ?); [lia..|]. destruct (word_at_Ok b 16 8) as (y & -> & ?); [lia..|].
    destruct (word_at_Ok b 24 8) as (z & -> & ?); [lia..|]. cbn [mbind res_bind].
    destruct (map_is_valid _) eqn:E; cbn [negb]; [|done]. intros [= <-]. split; [done|]. unfold w64. cbn. lia.
  - intros b Hb. unfold map_decode. destruct (Z.ltb_spec (Zlen b) 32); [by eexists|lia].
  - intros b. unfold map_decode. destruct (Z.ltb_spec (Zlen b) 32); [done|].
    destruct (index_p_Ok (E:=CodecError) b 0) as (f & ->); [lia|]. destruct (index_p_Ok (E:=CodecError) b 1) as (i & ->); [lia|].
    destruct (word_at_Ok b 8 8) as (x & -> & _); [lia..|]. destruct (word_at_Ok b 16 8) as (y & -> & _); [lia..|].
    destruct (word_at_Ok b 24 8) as (z & -> & _); [lia..|]. cbn [mbind res_bind]. by case_match.
Qed.

Lemma unmap_exact : WireExact ShmemUnmapMsg.
Proof.
  split; cbn [wm_len wm_fits wm_valid wm_encode wm_decode unmap_wire].
  - intros [id so len] (Hso & Hln) Hv. cbn in Hso, Hln. unfold unmap_encode. rewrite Hv. cbn [negb].
    eexists. split; [done|]. cbn [um_shmid um_shm_offset um_len].
    split; [by rewrite !length_app, !length_le_bytes|]. intros tail. unfold unmap_decode.
    set (b := ([id] ++ zeros 7 ++ le_bytes 8 so ++ le_bytes 8 len) ++ tail).
    destruct (Z.ltb_spec (Zlen b) 24) as [Hlt|_].
    { unfold b in Hlt. rewrite !length_app, !length_le_bytes in Hlt. cbn in Hlt. lia. }
    unfold b. octet 0 (@nil byte) id. word 8 ([id] ++ zeros 7) 8%nat so. word 16 ([id] ++ zeros 7 ++ le_bytes 8 so) 8%nat len.
    rewrite Hv. done.
  - intros b m. unfold unmap_decode. destruct (Z.ltb_spec (Zlen b) 24); [done|].
    destruct (index_p_Ok (E:=CodecError) b 0) as (i & ->); [lia|].
    destruct (word_at_Ok b 8 8) as (x & -> & ?); [lia..|]. destruct (word_at_Ok b 16 8) as (y & -> & ?); [lia..|].
    cbn [mbind res_bind]. destruct (unmap_is_valid _) eqn:E; cbn [negb]; [|done]. intros [= <-]. split; [done|].
    unfold w64. cbn. lia.
  - intros b Hb. unfold unmap_decode. destruct (Z.ltb_spec (Zlen b) 24); [by eexists|lia].
  - intros b. unfold unmap_decode. destruct (Z.ltb_spec (Zlen b) 24); [done|].
    destruct (index_p_Ok (E:=CodecError) b 0) as (i & ->); [lia|].
    destruct (word_at_Ok b 8 8) as (x & -> & _); [lia..|]. destruct (word_at_Ok b 16 8) as (y & -> & _); [lia..|].
    cbn [mbind res_bind]. by case_match.
Qed.

(** Every vhost-user message codec is exact: headers, region records, map
    and unmap requests round-trip at their fixed length with anything behind
    them, decoding accepts only messages that pass the protocol's validity
    check (version, map flags, no [offset + len] overflow), short frames are
    [Truncated], no frame panics; an invalid map or unmap request is refused
    before it reaches the wire. *)
Theorem wire_messages_exact :
  WireExact MsgHeader ∧ WireExact SharedMemoryRegion ∧ WireExact ShmemMapMsg ∧ WireExact ShmemUnmapMsg ∧
  (∀ m, map_is_valid m = true ↔
        bad_flags (mm_flags m) = false ∧ mm_fd_offset m + mm_len m < 2 ^ 64 ∧ mm_shm_offset m + mm_len m < 2 ^ 64) ∧
  (∀ m, map_is_valid m = false → map_encode m = Err (map_error m)) ∧
  (∀ m, unmap_is_valid m = false → unmap_encode m = Err (Overflow (str "shmem unmap"))).
Proof.
  split_and!; [apply header_exact|apply region_exact|apply map_exact|apply unmap_exact|..].
  - intros m. unfold map_is_valid.
    rewrite !andb_true_iff, !bool_decide_eq_true, !u64_sum_Some, negb_true_iff. tauto.
  - intros m Hm. unfold map_encode. by rewrite Hm.
  - intros m Hm. unfold unmap_encode. by rewrite Hm.
Qed.

(** ** The regions reply *)
Lemma length_region_encode r : length (region_encode r) = 16%nat.
Proof. unfold region_encode. by rewrite !length_app, length_le_bytes. Qed.

Lemma length_regions rs : Zlen (concat (region_encode <$> rs)) = 16 * Zlen rs.
Proof.
  induction rs as [|r rs IH]; [done|]. rewrite fmap_cons. cbn [concat length].
  rewrite length_app, length_region_encode. lia.
Qed.

Lemma drop_regions rs (i : nat) r :
  rs !! i = Some r →
  ∃ tail, drop (16 * i) (concat (region_encode <$> rs)) = region_encode r ++ tail.
Proof.
  revert i; induction rs as [|r' rs IH]; intros i Hi; [done|]. rewrite fmap_cons. cbn [concat].
  destruct i as [|i]; cbn in Hi; simplify_eq; [by eexists|].
  pose proof (length_region_encode r') as Hl.
  destruct (IH i Hi) as [tail Ht]. exists tail. rewrite <-Ht.
  replace (16 * S i)%nat with (length (region_encode r') + 16 * i)%nat by lia.
  by rewrite <-drop_drop, drop_app_length.
Qed.

(** The regions reply frames exactly: an encoded list of regions decodes
    to itself; any accepted reply has precisely [8 + 16 * count] bytes and
    yields [count] regions; the only panic is a count whose byte size overflows
    the machine word. *)
Theorem regions_reply_exact :
  (∀ rs, Forall (λ r, w64 (sm_length r)) rs → 8 + 16 * Zlen rs < 2 ^ 63 →
         decode_regions_reply (encode_regions_reply rs) = Ok rs) ∧
  ∀ b, match decode_regions_reply b with
       | Ok rs => Zlen b = 8 + 16 * Zlen rs ∧ word_at b 0 8 = Ok (Zlen rs)
       | Err e => True
       | Panic => ∃ count, word_at b 0 8 = Ok count ∧ 2 ^ 64 ≤ 8 + 16 * count
       end.
Proof.
  split.
  - intros rs Hrs Hlen. unfold decode_regions_reply, encode_regions_reply, REGION_LEN.
    assert (Zlen (le_bytes 8 (Zlen rs) ++ concat (region_encode <$> rs)) = 8 + 16 * Zlen rs) as Hb
      by (rewrite length_app, length_le_bytes, Nat2Z.inj_add, length_regions; lia).
    rewrite Hb. destruct (Z.ltb_spec (8 + 16 * Zlen rs) 8); [lia|].
    word 0 (@nil byte) 8%nat (Zlen rs). destruct (Z.leb_spec (2 ^ 64) (8 + Zlen rs * 16)); [lia|].
    destruct (Z.eqb_spec (8 + 16 * Zlen rs) (8 + Zlen rs * 16)); [|lia]. cbn [negb].
    apply mapM_res_Ok. apply Forall2_same_length_lookup. split; [rewrite length_seqZ; lia|].
    intros i z r Hz Hr. apply lookup_seqZ in Hz as [-> Hi].
    rewrite slice_p_Ok by (rewrite ?Hb; lia). cbn [mbind res_bind].
    destruct (drop_regions rs i r Hr) as [tail Ht].
    assert ((le_bytes 8 (Zlen rs) ++ concat (region_encode <$> rs)).[8 + (0 + Z.of_nat i) * 16 : 8 + 16 * Zlen rs]
            = region_encode r ++ tail) as ->.
    { unfold slice. rewrite take_ge.
      - replace (Z.to_nat (8 + (0 + Z.of_nat i) * 16)) with (length (le_bytes 8 (Zlen rs)) + 16 * i)%nat
          by (rewrite length_le_bytes; lia).
        by rewrite <-drop_drop, drop_app_length.
      - rewrite length_drop. lia. }
    destruct (we_encode _ region_exact r) as (b & [= <-] & _ & Hdec); [|done|apply Hdec].
    exact (Forall_lookup_1 _ _ _ _ Hrs Hr).
  - intros b. unfold decode_regions_reply, REGION_LEN. destruct (Z.ltb_spec (Zlen b) 8); [done|].
    destruct (word_at_Ok b 0 8) as (count & Hc & Hr); [lia..|]. rewrite Hc. cbn [mbind res_bind].
    destruct (Z.leb_spec (2 ^ 64) (8 + count * 16)); [exists count; split; [done|lia]|].
    destruct (Z.eqb_spec (Zlen b) (8 + count * 16)) as [Hl|]; cbn [negb]; [|done].
    destruct (mapM_res _ _) as [rs|e|] eqn:E; [|done|].
    + apply mapM_res_Ok, Forall2_length in E. rewrite length_seqZ in E.
      assert (Zlen rs = count) as -> by lia. split; [lia|done].
    + exfalso. revert E. apply mapM_res_no_panic. intros i Hi%elem_of_seqZ.
      rewrite slice_p_Ok by lia. cbn [mbind res_bind]. apply (we_total _ region_exact).
Qed.

Lemma regions_reply_exact_witness :
  let rs := [{| sm_id := Byte.x00; sm_length := 4096 |}; {| sm_id := Byte.x01; sm_length := 1048576 |}] in
  decode_regions_reply (encode_regions_reply rs) = Ok rs.
Proof. cbv zeta. apply regions_reply_exact; [repeat constructor; cbn; lia|cbn; lia]. Defined.

End Vhost.
