(* ===== verification/Shmem.v ===== *)
(** * The shared-memory-region registry ([avm-virtio/src/shmem.rs])

    Regions with ids in registration order, and the range-checked wire
    messages built for them. The backing files are the operating system's: a
    registration takes the outcome of its file operations as an argument. *)

From S2P Require Import Prelude Vhost.
Import Vhost.

Module Shmem.

Inductive ShmemError :=
| OutOfIds
| UnknownRegion (id : byte)
| RangeOutOfBounds (shmid : byte) (shm_offset len region_len : Z)
| Io (e : bytes)
| Codec (e : CodecError).

Record Region := { rg_id : byte; rg_length : Z }.

Abbreviation ShmemRegistry := (list Region).

Definition add_backing (regions : ShmemRegistry) (length : Z) : res ShmemError (ShmemRegistry * byte) :=
  let id := Zlen regions in
  if 255 <? id then Err OutOfIds
  else
  let id := z2b id in
  Ok (regions ++ [{| rg_id := id; rg_length := length |}], id).

(** [os] is the outcome of creating and sizing the backing file. *)
Definition add_region (os : res ShmemError ()) (regions : ShmemRegistry) (length : Z)
    : res ShmemError (ShmemRegistry * byte) :=
  _ ← os; add_backing regions length.

(** [os] is the length of the file and the outcome of copying it. *)
Definition add_region_file (os : res ShmemError Z) (regions : ShmemRegistry)
    : res ShmemError (ShmemRegistry * byte) :=
  len ← os; add_backing regions len.

Definition find (regions : ShmemRegistry) (id : byte) : res ShmemError Region :=
  match list_find (λ r, rg_id r = id) regions with
  | Some (_, r) => Ok r
  | None => Err (UnknownRegion id)
  end.

Definition check_range (regions : ShmemRegistry) (shmid : byte) (shm_offset len : Z) : res ShmemError () :=
  region ← find regions shmid;
  match u64_sum shm_offset len with
  | Some stop => if stop <=? rg_length region then Ok ()
                 else Err (RangeOutOfBounds shmid shm_offset len (rg_length region))
  | None => Err (RangeOutOfBounds shmid shm_offset len (rg_length region))
  end.

Definition records (regions : ShmemRegistry) : list SharedMemoryRegion :=
  (λ r, {| sm_id := rg_id r; sm_length := rg_length r |}) <$> regions.

Definition map_msg (regions : ShmemRegistry) (shmid : byte) (shm_offset fd_offset len : Z) (writable : bool)
    : res ShmemError ShmemMapMsg :=
  _ ← check_range regions shmid shm_offset len;
  let flags := z2b (if writable then Z.lor MAP_R MAP_W else MAP_R) in
  let msg := {| mm_flags := flags; mm_shmid := shmid; mm_shm_offset := shm_offset;
                mm_fd_offset := fd_offset; mm_len := len |} in
  _ ← map_err Codec (map_encode msg);
  Ok msg.

Definition unmap_msg (regions : ShmemRegistry) (shmid : byte) (shm_offset len : Z) : res ShmemError bytes :=
  _ ← check_range regions shmid shm_offset len;
  map_err Codec (unmap_encode {| um_shmid := shmid; um_shm_offset := shm_offset; um_len := len |}).

(** ** Ids are positions *)
Record RegInv (regions : ShmemRegistry) : Prop := {
  ri_count : Zlen regions ≤ 256;
  ri_id : ∀ i r, regions !! i = Some r → b2z (rg_id r) = Z.of_nat i ∧ 0 ≤ rg_length r < 2 ^ 64
}.

Lemma add_backing_inv regions length :
  RegInv regions → 0 ≤ length < 2 ^ 64 →
  match add_backing regions length with
  | Ok (regions', id) => RegInv regions' ∧ b2z id = Zlen regions ∧
      find regions' id = Ok {| rg_id := id; rg_length := length |} ∧
      ∀ id' r, find regions id' = Ok r → find regions' id' = Ok r
  | Err e => e = OutOfIds ∧ Zlen regions = 256
  | Panic => False
  end.
Proof.
  intros [Hc Hid] Hl. unfold add_backing. destruct (Z.ltb_spec 255 (Zlen regions)); [split; [done|lia]|].
  assert (b2z (z2b (Zlen regions)) = Zlen regions) as Hz by (rewrite b2z_z2b, Z.mod_small; lia).
  assert (∀ r, r ∈ regions → b2z (rg_id r) < Zlen regions) as Hlt.
  { intros r [i Hi]%list_elem_of_lookup. destruct (Hid i r Hi) as [-> _]. apply lookup_lt_Some in Hi. lia. }
  split_and!; [|done|..].
  - split; [rewrite length_app; cbn; lia|]. intros i r [[Hi Hr]|[-> <-]]%lookup_snoc_Some; [by apply Hid|done].
  - unfold find. destruct (list_find _ (regions ++ _)) as [[i r]|] eqn:E.
    + apply list_find_Some in E as (Hi & Hr & _). apply lookup_snoc_Some in Hi as [[Hi Hreg]|[_ <-]]; [|done].
      exfalso. pose proof (Hlt r (list_elem_of_lookup_2 _ _ _ Hreg)). rewrite Hr, Hz in *. lia.
    + rewrite list_find_None in E. apply Forall_app in E as [_ E]. by inversion E.
  - intros id' r Hf. unfold find in *. destruct (list_find _ regions) as [[i r']|] eqn:E; simplify_eq.
    rewrite (list_find_app_l _ _ _ _ _ E). done.
Qed.

(** Mapping requests are safe to put on the wire: over a well-formed
    registry, [map_msg] answers exactly when the region exists, the range lies
    inside it and the file range does not overflow; the message it returns is
    valid, never asks for more than read and write access, and decodes to
    itself on the other side. Registration keeps ids unique and stable, and
    refuses the 257th region. *)
Theorem shmem_messages_safe regions shmid so fo len writable :
  RegInv regions → 0 ≤ so < 2 ^ 64 → 0 ≤ fo < 2 ^ 64 → 0 ≤ len < 2 ^ 64 →
  ((∀ m, map_msg regions shmid so fo len writable = Ok m →
     (∃ r, find regions shmid = Ok r ∧ so + len ≤ rg_length r) ∧ fo + len < 2 ^ 64 ∧
     mm_shmid m = shmid ∧ mm_shm_offset m = so ∧ mm_fd_offset m = fo ∧ mm_len m = len ∧
     bad_flags (mm_flags m) = false ∧
     ∃ b, map_encode m = Ok b ∧ map_decode b = Ok m) ∧
  (∀ r, find regions shmid = Ok r → so + len ≤ rg_length r → fo + len < 2 ^ 64 →
     ∃ m, map_msg regions shmid so fo len writable = Ok m) ∧
  map_msg regions shmid so fo len writable ≠ Panic) ∧
  ∀ l, 0 ≤ l < 2 ^ 64 →
    match add_backing regions l with
    | Ok (regions', id) => RegInv regions' ∧ b2z id = Zlen regions ∧
        find regions' id = Ok {| rg_id := id; rg_length := l |} ∧
        ∀ id' r, find regions id' = Ok r → find regions' id' = Ok r
    | Err e => e = OutOfIds ∧ Zlen regions = 256
    | Panic => False
    end.
Proof.
  intros Hinv Hso Hfo Hln. split; [|intros l Hl; by apply add_backing_inv].
  set (m := {| mm_flags := z2b (if writable then Z.lor MAP_R MAP_W else MAP_R); mm_shmid := shmid;
               mm_shm_offset := so; mm_fd_offset := fo; mm_len := len |}).
  assert (bad_flags (mm_flags m) = false) as Hfl by (by destruct writable).
  assert (∀ r, find regions shmid = Ok r → rg_length r < 2 ^ 64) as Hlen.
  { intros r Hr. unfold find in Hr. destruct (list_find _ regions) as [[i r']|] eqn:E; simplify_eq.
    apply list_find_Some in E as (Hi & _). destruct (ri_id _ Hinv i r Hi). lia. }
  assert (fo + len < 2 ^ 64 ∧ so + len < 2 ^ 64 ↔ map_is_valid m = true) as Hvalid.
  { unfold map_is_valid. rewrite Hfl, !andb_true_iff, !bool_decide_eq_true, !u64_sum_Some. cbn. tauto. }
  unfold map_msg, check_range. fold m. destruct (find regions shmid) as [r|e|] eqn:Hf; cbn [mbind res_bind].
  2:{ split; [done|]. by split. }
  2:{ unfold find in Hf. by repeat case_match. }
  specialize (Hlen r eq_refl). unfold u64_sum. destruct (Z.ltb_spec (so + len) (2 ^ 64)); cbn [mbind res_bind].
  2:{ split; [done|]. split; [|done]. intros r' [= <-] Hle. lia. }
  destruct (Z.leb_spec (so + len) (rg_length r)); cbn [mbind res_bind].
  2:{ split; [done|]. split; [|done]. intros r' [= <-] Hle. lia. }
  destruct (map_is_valid m) eqn:Hm.
  - destruct (we_encode _ map_exact m) as (b & Hb & _ & Hdec); [done|done|]. cbn in Hb. rewrite Hb. cbn [map_err mbind res_bind].
    split; [|split; [by eexists|done]]. intros m' [= <-]. destruct (proj2 Hvalid eq_refl).
    split_and!; try done; [by exists r|]. exists b. split; [done|].
    specialize (Hdec []). by rewrite app_nil_r in Hdec.
  - unfold map_encode. rewrite Hm. cbn [negb map_err mbind res_bind]. split; [done|]. split; [|done].
    intros r' _ _ Hfo'. exfalso.
    by assert (false = true) by (apply Hvalid; lia).
Qed.

Definition demo_regions : ShmemRegistry :=
  [{| rg_id := Byte.x00; rg_length := 4096 |}; {| rg_id := Byte.x01; rg_length := 65536 |}].

Lemma demo_regions_inv : RegInv demo_regions.
Proof.
  split; [cbn; lia|]. intros [|[|i]] r Hi; cbn in Hi; simplify_eq; cbn; split; done || lia.
Qed.

Lemma shmem_messages_safe_witness :
  ∃ m, map_msg demo_regions Byte.x01 4096 0 8192 true = Ok m.
Proof.
  apply (shmem_messages_safe demo_regions Byte.x01 4096 0 8192 true demo_regions_inv ltac:(lia) ltac:(lia) ltac:(lia))
    with {| rg_id := Byte.x01; rg_length := 65536 |}; [reflexivity|cbn; lia|lia].
Defined.

End Shmem.
