(* ===== verification/Avce.v ===== *)
(** * The AVCE container: compiler bridge to cell builder

    [avm-exec/src/cell_builder.rs] ([CellError], the reader [R],
    [parse_avce]) and the writer on the other side of the wire,
    [cranelift/src/capture.rs] ([CaptureModule::encode_avce]). The two live in
    different crates and share no code; the parser is proved to be exactly the
    inverse of the writer. *)

From S2P Require Import Prelude Cursor.

Module Avce.

(** Messages are the literal or the template of the [format!]. *)
Inductive CellError :=
| Parse (m : bytes)
| Arch (m : bytes)
| Sig (m : bytes)
| Link (m : bytes)
| Io (e : bytes).

Definition parse_error (s : String.string) : CellError := Parse (str s).

(** ** Data *)
Record AvceReloc := { rl_offset : Z; rl_addend : Z; rl_kind : bytes; rl_symbol : bytes }.
Record AvceFn := { fn_name : bytes; fn_body : bytes; fn_relocs : list AvceReloc }.
Record AvceDoc := { doc_arch : bytes; doc_functions : list AvceFn; doc_imports : list bytes }.

#[export] Instance AvceReloc_eq_dec : EqDecision AvceReloc.
Proof. solve_decision. Defined.
#[export] Instance AvceFn_eq_dec : EqDecision AvceFn.
Proof. solve_decision. Defined.
#[export] Instance AvceDoc_eq_dec : EqDecision AvceDoc.
Proof. solve_decision. Defined.

(** ** The reader [R] *)
Definition take (n : Z) : rd CellError bytes := λ r,
  if 2 ^ 64 <=? cur_i r + n then Err (parse_error "length overflow")
  else if Zlen (cur_b r) <? cur_i r + n then
    Err (parse_error "needs {n} bytes at offset {}, only {} remain")
  else s ← slice_p (cur_b r) (cur_i r) (cur_i r + n);
       Ok (s, {| cur_b := cur_b r; cur_i := cur_i r + n |}).

#[export] Instance R_take : ByteReader CellError := take.

Definition u16 : rd CellError Z := rd_le 2.
Definition u32 : rd CellError Z := rd_le 4.
Definition u64 : rd CellError Z := rd_le 8.

(** Two's complement: the [i64] whose bits are those of an [u64]. *)
Definition as_i64 (z : Z) : Z := if z <? 2 ^ 63 then z else z - 2 ^ 64.
Definition i64v : rd CellError Z := z ← rd_le 8; mret (as_i64 z).

Definition bytes_str : rd CellError bytes :=
  n ← u32;
  raw ← br_take n;
  rd_lift (from_utf8 (parse_error "utf-8 in string field") raw).

(** ** The parser *)
Definition AVCE_MAGIC : Z := 0x41564345.

(** The four fields of a relocation record, shared by both containers. *)
Definition reloc_fields : rd CellError AvceReloc :=
  offset ← u64;
  addend ← i64v;
  kind ← bytes_str;
  symbol ← bytes_str;
  mret {| rl_offset := offset; rl_addend := addend; rl_kind := kind; rl_symbol := symbol |}.

(** A record whose site must lie in a section of [len] bytes. *)
Definition reloc_in (len : Z) (e : CellError) : rd CellError AvceReloc :=
  r ← reloc_fields;
  if len <=? rl_offset r then rd_err e else mret r.

Definition avce_fn : rd CellError AvceFn :=
  name ← bytes_str;
  blen ← u32;
  body ← br_take blen;
  if Zlen body =? 0 then rd_err (parse_error "function {name} has empty body")
  else
  nrel ← u32;
  if Z.shiftl 1 20 <? nrel then rd_err (parse_error "relocation count absurd")
  else
  relocs ← rd_rep (Z.to_nat nrel)
             (reloc_in (Zlen body) (parse_error "reloc offset {offset} outside function {name} ({} bytes)"));
  mret {| fn_name := name; fn_body := body; fn_relocs := relocs |}.

Definition avce_doc : rd CellError AvceDoc :=
  magic ← u32;
  if negb (magic =? AVCE_MAGIC) then rd_err (parse_error "bad AVCE magic {magic:#010x}")
  else
  version ← u16;
  if negb (version =? 1) then rd_err (parse_error "AVCE version {version} unsupported")
  else
  arch ← bytes_str;
  nfuncs ← u32;
  if nfuncs =? 0 then rd_err (parse_error "container defines no functions")
  else
  functions ← rd_rep (Z.to_nat nfuncs) avce_fn;
  nimports ← u32;
  imports ← rd_rep (Z.to_nat nimports) bytes_str;
  mret {| doc_arch := arch; doc_functions := functions; doc_imports := imports |}.

Definition parse_avce (bs : bytes) : res CellError AvceDoc :=
  rd_whole avce_doc (parse_error "{} trailing bytes after AVCE body") bs.

(** ** The writer *)

(** [&(s.len() as u32).to_le_bytes()] then [s.as_bytes()]. *)
Definition put_str (s : bytes) : bytes := le_bytes 4 (Zlen s) ++ s.

Record CapturedBody := { cb_bytes : bytes; cb_relocs : list AvceReloc }.

Definition put_reloc (r : AvceReloc) : bytes :=
  le_bytes 8 (rl_offset r) ++ le_bytes 8 (rl_addend r) ++ put_str (rl_kind r) ++ put_str (rl_symbol r).

Definition put_body (f : bytes * CapturedBody) : bytes :=
  put_str f.1 ++ le_bytes 4 (Zlen (cb_bytes f.2)) ++ cb_bytes f.2 ++
  le_bytes 4 (Zlen (cb_relocs f.2)) ++ concat (put_reloc <$> cb_relocs f.2).

(** [encode_avce], on what the module's queries [arch_name], [defined] and
    [imports] answer. *)
Definition encode_avce (arch : bytes) (defined : list (bytes * CapturedBody))
    (imports : list bytes) : bytes :=
  le_bytes 4 AVCE_MAGIC ++ le_bytes 2 1 ++ put_str arch ++
  le_bytes 4 (Zlen defined) ++ concat (put_body <$> defined) ++
  le_bytes 4 (Zlen imports) ++ concat (put_str <$> imports).

(** ** The reader satisfies the cursor interface *)
#[export] Instance R_laws : ByteReaderLaws CellError.
Proof.
  apply checked_take_laws. intros c n Hi Hn Hb. unfold buffer in Hb.
  unfold br_take, R_take, take.
  destruct (Z.leb_spec (2 ^ 64) (cur_i c + n)); [lia|].
  destruct (Z.ltb_spec (Zlen (cur_b c)) (cur_i c + n)); [right; split; [lia|by eexists]|].
  left. split; [lia|]. by rewrite slice_p_Ok by lia.
Qed.

(** ** Well-formed containers *)
Definition str_wf (s : bytes) : Prop := Zlen s < 2 ^ 32 ∧ utf8_valid s = true.
Definition i64_range (z : Z) : Prop := - 2 ^ 63 ≤ z < 2 ^ 63.

Record reloc_wf (len : Z) (r : AvceReloc) : Prop := {
  rw_offset : 0 ≤ rl_offset r < len;
  rw_addend : i64_range (rl_addend r);
  rw_kind : str_wf (rl_kind r);
  rw_symbol : str_wf (rl_symbol r)
}.

Record fn_wf (f : AvceFn) : Prop := {
  fw_name : str_wf (fn_name f);
  fw_body : 0 < Zlen (fn_body f) < 2 ^ 32;
  fw_count : Zlen (fn_relocs f) ≤ 2 ^ 20;
  fw_relocs : Forall (reloc_wf (Zlen (fn_body f))) (fn_relocs f)
}.

Record doc_wf (d : AvceDoc) : Prop := {
  dw_arch : str_wf (doc_arch d);
  dw_count : 0 < Zlen (doc_functions d) < 2 ^ 32;
  dw_functions : Forall fn_wf (doc_functions d);
  dw_icount : Zlen (doc_imports d) < 2 ^ 32;
  dw_imports : Forall str_wf (doc_imports d)
}.

(** The same function on the compiler's side. *)
Definition captured (f : AvceFn) : bytes * CapturedBody :=
  (fn_name f, {| cb_bytes := fn_body f; cb_relocs := fn_relocs f |}).
Definition encode_doc (d : AvceDoc) : bytes :=
  encode_avce (doc_arch d) (captured <$> doc_functions d) (doc_imports d).

(** ** Field lemmas *)
Lemma le_bytes_as_i64 z : 0 ≤ z < 2 ^ 64 → le_bytes 8 (as_i64 z) = le_bytes 8 z.
Proof.
  intros Hz. rewrite <-(le_bytes_le_val 8 (le_bytes 8 (as_i64 z))) by apply length_le_bytes.
  rewrite le_val_le_bytes. f_equal. change (2 ^ (8 * Z.of_nat 8)) with (2 ^ 64).
  unfold as_i64. case_match; [by apply Z.mod_small|].
  rewrite Zminus_mod, Z_mod_same_full, Z.sub_0_r, Z.mod_mod by lia. by apply Z.mod_small.
Qed.

Lemma as_i64_range z : 0 ≤ z < 2 ^ 64 → i64_range (as_i64 z).
Proof. unfold as_i64, i64_range. case_match; lia. Qed.

Lemma as_i64_le_val z : i64_range z → as_i64 (le_val (le_bytes 8 z)) = z.
Proof.
  intros Hz. rewrite le_val_le_bytes. change (2 ^ (8 * Z.of_nat 8)) with (2 ^ 64).
  unfold as_i64, i64_range in *. destruct (decide (0 ≤ z)).
  - rewrite Z.mod_small by lia. destruct (Z.ltb_spec z (2 ^ 63)); lia.
  - rewrite <-(Z_mod_plus_full z 1), Z.mod_small by lia.
    destruct (Z.ltb_spec (z + 1 * 2 ^ 64) (2 ^ 63)); lia.
Qed.

Lemma reads_i64 z : i64_range z → reads i64v (le_bytes 8 z) z.
Proof.
  intros Hz. unfold i64v. eapply reads_bind_r.
  - unfold rd_le. eapply reads_bind_r; [|apply reads_ret].
    rewrite <-(length_le_bytes 8 z) at 1. apply br_reads.
  - rewrite as_i64_le_val by done. apply reads_ret.
Qed.

Lemma accepts_i64 : accepts i64v (λ z s, s = le_bytes 8 z ∧ i64_range z).
Proof.
  unfold i64v. accepts_step (accepts_le 8); [lia|]. intros z s [-> Hz].
  apply accepts_ret. rewrite app_nil_r, le_bytes_as_i64 by done. auto using as_i64_range.
Qed.

Lemma reads_str s : str_wf s → reads bytes_str (put_str s) s.
Proof.
  intros [Hs Hu]. unfold bytes_str, put_str, u32. reads_step reads_le; [cbn; lia|].
  eapply reads_bind_r; [apply br_reads|].
  intros pre post _. unfold rd_lift, from_utf8. rewrite Hu. cbn. by rewrite app_nil_r.
Qed.

Lemma accepts_str : accepts bytes_str (λ s e, e = put_str s ∧ str_wf s).
Proof.
  unfold bytes_str, u32. accepts_step (accepts_le 4); [lia|]. intros n e [-> Hn].
  cbn in Hn. eapply accepts_bind; [apply br_accepts; lia|]. intros s t [<- Hs].
  intros pre rest _. unfold rd_lift, from_utf8. destruct (utf8_valid s) eqn:Hu; cbn; [|done].
  exists [], rest. rewrite !app_nil_r. split; [done|]. split; [done|].
  unfold put_str, str_wf. rewrite Hs. auto with lia.
Qed.

Lemma reads_reloc len e r : len ≤ 2 ^ 64 → reloc_wf len r → reads (reloc_in len e) (put_reloc r) r.
Proof.
  intros Hlen [Ho Ha Hk Hs]. unfold reloc_in. eapply reads_bind_r.
  - unfold reloc_fields, put_reloc. reads_step reads_le; [cbn; lia|].
    reads_step reads_i64; [done|]. reads_step reads_str; [done|].
    eapply reads_bind_r; [by apply reads_str|apply reads_ret].
  - cbn [rl_offset]. destruct (Z.leb_spec len (rl_offset r)); [lia|]. destruct r. apply reads_ret.
Qed.

Lemma accepts_reloc len e : accepts (reloc_in len e) (λ r s, s = put_reloc r ∧ reloc_wf len r).
Proof.
  unfold reloc_in, reloc_fields.
  eapply accepts_bind with
    (P := λ r s, s = put_reloc r ∧ 0 ≤ rl_offset r ∧ i64_range (rl_addend r) ∧
                 str_wf (rl_kind r) ∧ str_wf (rl_symbol r)).
  - accepts_step (accepts_le 8); [lia|]. intros o ? [-> Ho].
    accepts_step accepts_i64. intros a ? [-> Ha].
    accepts_step accepts_str. intros k ? [-> Hk]. accepts_step accepts_str. intros y ? [-> Hy].
    apply accepts_ret. rewrite app_nil_r. cbn. split_and!; done || apply Ho.
  - intros r s (-> & Ho & Ha & Hk & Hy).
    destruct (Z.leb_spec len (rl_offset r)); [apply accepts_err|]. apply accepts_ret.
    rewrite app_nil_r. split; [done|]. by split.
Qed.

Lemma reads_fn f : fn_wf f → reads avce_fn (put_body (captured f)) f.
Proof.
  intros [Hn Hb Hc Hr]. unfold avce_fn, put_body, captured. cbn [fst snd cb_bytes cb_relocs].
  reads_step reads_str; [done|]. reads_step reads_le; [cbn; lia|]. reads_step br_reads.
  destruct (Z.eqb_spec (Zlen (fn_body f)) 0); [lia|]. reads_step reads_le; [cbn; lia|].
  change (Z.shiftl 1 20) with (2 ^ 20). destruct (Z.ltb_spec (2 ^ 20) (Zlen (fn_relocs f))); [lia|].
  rewrite Nat2Z.id. eapply (reads_bind_r _ _ _ (fn_relocs f)); [|destruct f; apply reads_ret].
  apply reads_rep. intros r Hin. apply reads_reloc; [lia|]. by eapply Forall_forall in Hr.
Qed.

Lemma accepts_fn : accepts avce_fn (λ f s, s = put_body (captured f) ∧ fn_wf f).
Proof.
  unfold avce_fn. accepts_step accepts_str. intros name ? [-> Hn].
  accepts_step (accepts_le 4); [lia|]. intros blen ? [-> Hb]. cbn in Hb.
  accepts_step br_accepts; [lia|]. intros body ? [<- Hbl]. subst blen.
  destruct (Z.eqb_spec (Zlen body) 0) as [|Hne]; [apply accepts_err|].
  accepts_step (accepts_le 4); [lia|]. intros n ? [-> Hr].
  change (Z.shiftl 1 20) with (2 ^ 20). destruct (Z.ltb_spec (2 ^ 20) n); [apply accepts_err|].
  accepts_step accepts_rep; [apply accepts_reloc|]. intros rs ? (-> & Hlen & Hrs).
  apply accepts_ret. rewrite app_nil_r. unfold put_body, captured.
  cbn [fst snd cb_bytes cb_relocs fn_name fn_body fn_relocs].
  assert (Zlen rs = n) as <- by lia.
  split; [done|]. split; cbn; auto with lia.
Qed.

Lemma reads_doc d : doc_wf d → reads avce_doc (encode_doc d) d.
Proof.
  intros [Ha Hc Hf Hi Hs]. unfold avce_doc, encode_doc, encode_avce. rewrite length_fmap.
  reads_step reads_le; [done|]. cbn [negb]. reads_step reads_le; [done|]. cbn [negb].
  reads_step reads_str; [done|]. reads_step reads_le; [cbn; lia|].
  destruct (Z.eqb_spec (Zlen (doc_functions d)) 0); [lia|]. rewrite Nat2Z.id.
  eapply reads_bind.
  { rewrite <-list_fmap_compose. apply (reads_rep _ (put_body ∘ captured)). intros f Hin.
    apply reads_fn. by eapply Forall_forall in Hf. }
  reads_step reads_le; [cbn; lia|]. rewrite Nat2Z.id.
  eapply (reads_bind_r _ _ _ (doc_imports d)); [|destruct d; apply reads_ret].
  apply reads_rep. intros s Hin. apply reads_str. by eapply Forall_forall in Hs.
Qed.

Lemma accepts_doc : accepts avce_doc (λ d s, s = encode_doc d ∧ doc_wf d).
Proof.
  unfold avce_doc. accepts_step (accepts_le 4); [lia|]. intros magic ? [-> _].
  destruct (Z.eqb_spec magic AVCE_MAGIC) as [->|]; cbn [negb]; [|apply accepts_err].
  accepts_step (accepts_le 2); [lia|]. intros v ? [-> _].
  destruct (Z.eqb_spec v 1) as [->|]; cbn [negb]; [|apply accepts_err].
  accepts_step accepts_str. intros arch ? [-> Ha].
  accepts_step (accepts_le 4); [lia|]. intros n ? [-> Hn]. cbn in Hn.
  destruct (Z.eqb_spec n 0) as [|Hnz]; [apply accepts_err|].
  accepts_step (accepts_rep avce_fn (put_body ∘ captured) fn_wf); [apply accepts_fn|].
  intros fs ? (-> & Hfl & Hfs).
  accepts_step (accepts_le 4); [lia|]. intros k ? [-> Hk]. cbn in Hk.
  accepts_step accepts_rep; [apply accepts_str|]. intros imps ? (-> & Hil & His).
  apply accepts_ret. rewrite app_nil_r. unfold encode_doc, encode_avce.
  cbn [doc_arch doc_functions doc_imports]. rewrite length_fmap.
  assert (Zlen fs = n) as <- by lia. assert (Zlen imps = k) as <- by lia.
  split; [by rewrite list_fmap_compose|]. split; cbn; auto with lia.
Qed.

(** The two sides of the AVCE wire agree. On any buffer [parse_avce]
    never panics, and it answers [Ok d] precisely on what the compiler's
    [encode_avce] writes for the functions and imports of a well-formed [d]:
    every relocation site inside its function's non-empty body, every string
    UTF-8, nothing trailing. *)
Theorem avce_wire_exact bs :
  buffer bs →
  parse_avce bs ≠ Panic ∧
  ∀ d, parse_avce bs = Ok d ↔
    doc_wf d ∧ bs = encode_avce (doc_arch d) (captured <$> doc_functions d) (doc_imports d).
Proof. apply (rd_whole_exact avce_doc encode_doc doc_wf); [exact reads_doc|exact accepts_doc]. Qed.

(** A function with one call relocation and one import. *)
Definition demo_doc : AvceDoc := {|
  doc_arch := str "x86_64";
  doc_functions := [ {| fn_name := str "run";
    fn_body := z2b <$> [0xE8; 0; 0; 0; 0; 0xC3];
    fn_relocs := [ {| rl_offset := 1; rl_addend := -4; rl_kind := str "X86CallPCRel4";
                      rl_symbol := str "dep" |} ] |} ];
  doc_imports := [str "dep"] |}.

Lemma demo_doc_wf : doc_wf demo_doc.
Proof. repeat (constructor || split); vm_compute; congruence. Qed.

Lemma avce_wire_exact_witness : parse_avce (encode_doc demo_doc) = Ok demo_doc.
Proof.
  apply (avce_wire_exact (encode_doc demo_doc)); [vm_compute; reflexivity|].
  split; [exact demo_doc_wf|reflexivity].
Defined.

End Avce.
