(* ===== verification/Cell.v ===== *)
(** * The [.avm] cell: layout, parser, builder ([avm-exec/src/cell_builder.rs])

    [CellView::parse] reads a cell whose bytes anyone may have written;
    [build_cell] lays a compiled container out and signs it. The parser is
    proved exact for the layout, and the builder's cells to parse, verify and
    hold every function where its symbol says. [serde_json] is an interface. *)

From S2P Require Import Prelude Cas Cursor Avce.
Import Avce.

Module Cell.

Definition AVMC_MAGIC : bytes := z2b <$> [0x41; 0x56; 0x4D; 0x43].
Definition AVMC_VERSION : Z := 1.
Definition PAGE : Z := 4096.
Definition SIG_LEN : Z := 64.
Definition ARCH_X86_64 : Z := 1.
Definition ARCH_AARCH64 : Z := 2.
Definition CAP_MAX : Z := 16 * 1024 * 1024.

(** ** The [serde_json] interface: values, [from_slice] and [to_vec] *)
Class SerdeJson := {
  json_value : Type;
  json_from_slice : bytes → option json_value;
  json_to_vec : json_value → option bytes
}.

Record SymDef := { sd_name : bytes; sd_offset : Z; sd_len : Z }.

Record CellView `{SerdeJson} := {
  cv_version : Z;
  cv_arch : Z;
  cv_drv_hash : bytes;
  cv_capability_table : json_value;
  cv_text : bytes;
  cv_symdefs : list SymDef;
  cv_imports : list bytes;
  cv_relocs : list AvceReloc;
  cv_signature : bytes;
  cv_signed : bytes
}.

Definition arch_code (name : bytes) : res CellError Z :=
  if bool_decide (name = str "x86_64") || bool_decide (name = str "x86-64") then Ok ARCH_X86_64
  else if bool_decide (name = str "aarch64") || bool_decide (name = str "arm64") then Ok ARCH_AARCH64
  else Err (Arch (str "cannot put arch {other:?} into a cell header (known: x86_64, aarch64)")).

Definition arch_name (code : Z) : res CellError bytes :=
  if code =? ARCH_X86_64 then Ok (str "x86_64")
  else if code =? ARCH_AARCH64 then Ok (str "aarch64")
  else Err (Arch (str "unknown arch code {c}")).

Section cell.
Context `{SerdeJson}.

(** ** [CellView::parse] *)

(** Magic to text section. *)
Definition cell_head : rd CellError (Z * Z * bytes * json_value * bytes) :=
  magic ← br_take 4;
  if negb (bool_decide (magic = AVMC_MAGIC)) then rd_err (parse_error "bad AVMC magic {magic:?}")
  else
  version ← u16;
  if negb (version =? AVMC_VERSION) then rd_err (parse_error "version {version} unsupported")
  else
  arch ← u16;
  _ ← rd_lift (arch_name arch);
  drv_hash ← rd_array 32;
  cap_len ← u32;
  if CAP_MAX <? cap_len then rd_err (parse_error "capability table > 16 MiB")
  else
  cap_bytes ← br_take cap_len;
  capability_table ← rd_lift (ok_or (json_from_slice cap_bytes)
                                (parse_error "capability table is not valid JSON: {e}"));
  m ← u32;
  if (m =? 0) || negb (m mod PAGE =? 0) then
    rd_err (parse_error "text length {m} must be a positive page multiple")
  else if Z.shiftl 1 30 <? m then rd_err (parse_error "text > 1 GiB")
  else
  text ← br_take m;
  mret (version, arch, drv_hash, capability_table, text).

Definition symdef_entry (m : Z) : rd CellError SymDef :=
  name ← bytes_str;
  offset ← u64;
  len ← u32;
  if (2 ^ 64 <=? offset + len) || (m <? offset + len) then
    rd_err (parse_error "symdef {name} runs past the text section")
  else mret {| sd_name := name; sd_offset := offset; sd_len := len |}.

(** A count of at most [2^20], then the entries. *)
Definition k_table {A} (e : String.string) (p : rd CellError A) : rd CellError (list A) :=
  n ← u32;
  if Z.shiftl 1 20 <? n then rd_err (parse_error e) else rd_rep (Z.to_nat n) p.

Definition k_region (m : Z) : rd CellError (list SymDef * list bytes * list AvceReloc) :=
  symdefs ← k_table "symdef count absurd" (symdef_entry m);
  imports ← k_table "import count absurd" bytes_str;
  relocs ← k_table "reloc count absurd"
             (reloc_in m (parse_error "reloc offset {offset} outside text ({m} bytes)"));
  mret (symdefs, imports, relocs).

Definition parse (bs : bytes) : res CellError CellView :=
  if Zlen bs <? 0x2C + SIG_LEN + 4 then Err (parse_error "cell far too short")
  else
  '((version, arch, drv_hash, cap, text), r) ← cell_head {| cur_b := bs; cur_i := 0 |};
  let k_end := Zlen bs - SIG_LEN in
  if k_end <? cur_i r then Err (parse_error "cell truncated before signature")
  else
  '((symdefs, imports, relocs), r) ← k_region (Zlen text) r;
  if negb (cur_i r =? k_end) then
    Err (parse_error "K region did not end at the signature: cursor {} vs {k_end}")
  else
  signed ← slice_p bs 0 k_end;
  signature ← slice_p bs k_end (Zlen bs);
  Ok {| cv_version := version; cv_arch := arch; cv_drv_hash := drv_hash;
        cv_capability_table := cap; cv_text := text; cv_symdefs := symdefs;
        cv_imports := imports; cv_relocs := relocs; cv_signature := signature;
        cv_signed := signed |}.

Definition arch_str (v : CellView) : res CellError bytes := arch_name (cv_arch v).

Definition symdef (v : CellView) (name : bytes) : option SymDef :=
  snd <$> list_find (λ s, sd_name s = name) (cv_symdefs v).

(** [map(end).max().unwrap_or(text.len())]; the [u64] sum is checked. *)
Definition sym_end (s : SymDef) : res CellError Z :=
  if 2 ^ 64 <=? sd_offset s + sd_len s then Panic else Ok (sd_offset s + sd_len s).
Definition code_len (v : CellView) : res CellError Z :=
  ends ← mapM_res sym_end (cv_symdefs v);
  match ends with
  | [] => Ok (Zlen (cv_text v))
  | e :: es => Ok (foldl Z.max e es)
  end.

Definition verify_signature `{Ed25519} (v : CellView) (verifying_key : bytes) : res CellError () :=
  if negb (vk_valid verifying_key) then Err (Sig (str "bad verifying key: {e}"))
  else if ed_verify verifying_key (cv_signed v) (cv_signature v) then Ok ()
  else Err (Sig (str "signature check failed: {e}")).

(** ** [build_cell] *)
Record BuildCell := {
  bc_drv_hash : bytes;
  bc_capability_table : json_value;
  bc_avce : AvceDoc;
  bc_signing_seed : bytes
}.

Definition shift_reloc (off : Z) (r : AvceReloc) : AvceReloc := {|
  rl_offset := rl_offset r + off; rl_addend := rl_addend r;
  rl_kind := rl_kind r; rl_symbol := rl_symbol r |}.

(** The inner loop: one relocation of a function at [off], the text so far
    being [tlen] bytes; [r.offset + off] is checked. *)
Definition add_reloc (off tlen : Z) (relocs : list AvceReloc) (r : AvceReloc)
    : res CellError (list AvceReloc) :=
  if 2 ^ 64 <=? rl_offset r + off then Panic
  else if tlen <=? rl_offset r + off then Err (parse_error "reloc offset {shifted} outside laid-out text")
  else Ok (relocs ++ [shift_reloc off r]).

Definition lay_fn (st : bytes * list SymDef * list AvceReloc) (f : AvceFn)
    : res CellError (bytes * list SymDef * list AvceReloc) :=
  let '(text, symdefs, relocs) := st in
  let off := Zlen text in
  let text := text ++ fn_body f in
  let symdefs := symdefs ++
    [ {| sd_name := fn_name f; sd_offset := off; sd_len := Zlen (fn_body f) mod 2 ^ 32 |} ] in
  relocs ← foldM (add_reloc off (Zlen text)) relocs (fn_relocs f);
  Ok (text, symdefs, relocs).

Definition put_symdef (s : SymDef) : bytes :=
  put_str (sd_name s) ++ le_bytes 8 (sd_offset s) ++ le_bytes 4 (sd_len s).

Definition put_table {A} (put : A → bytes) (l : list A) : bytes :=
  le_bytes 4 (Zlen l) ++ concat (put <$> l).

(** Everything before the signature trailer. *)
Definition put_head (arch : Z) (drv_hash cap_bytes text : bytes) : bytes :=
  AVMC_MAGIC ++ le_bytes 2 AVMC_VERSION ++ le_bytes 2 arch ++ drv_hash ++
  le_bytes 4 (Zlen cap_bytes) ++ cap_bytes ++ le_bytes 4 (Zlen text) ++ text.
Definition put_k (symdefs : list SymDef) (imports : list bytes) (relocs : list AvceReloc) : bytes :=
  put_table put_symdef symdefs ++ put_table put_str imports ++ put_table put_reloc relocs.

Definition build_cell `{Ed25519} (spec : BuildCell) : res CellError bytes :=
  if Zlen (doc_functions (bc_avce spec)) =? 0 then Err (parse_error "no functions to put in the cell")
  else
  arch ← arch_code (doc_arch (bc_avce spec));
  cap_bytes ← ok_or (json_to_vec (bc_capability_table spec))
                (parse_error "capability table not serializable: {e}");
  if CAP_MAX <? Zlen cap_bytes then Err (parse_error "capability table > 16 MiB")
  else
  '(text, symdefs, relocs) ← foldM lay_fn ([], [], []) (doc_functions (bc_avce spec));
  let real := Zlen text in
  if 2 ^ 64 <=? real + (PAGE - 1) then Err (parse_error "text length overflow")
  else
  let m := (real + (PAGE - 1)) / PAGE * PAGE in
  if m =? 0 then Err (parse_error "empty text")
  else
  let text := text ++ replicate (Z.to_nat (m - real)) Byte.x00 in
  let b := put_head arch (bc_drv_hash spec) cap_bytes text ++
           put_k symdefs (doc_imports (bc_avce spec)) relocs in
  Ok (b ++ ed_sign (bc_signing_seed spec) b).

(** ** Well-formed views: what a user of a parsed cell may rely on *)
Record symdef_wf (m : Z) (s : SymDef) : Prop := {
  sw_name : str_wf (sd_name s);
  sw_offset : 0 ≤ sd_offset s;
  sw_len : 0 ≤ sd_len s < 2 ^ 32;
  sw_end : sd_offset s + sd_len s ≤ m
}.

Record text_wf (text : bytes) : Prop := {
  tw_pos : 0 < Zlen text ≤ 2 ^ 30;
  tw_page : Zlen text mod PAGE = 0
}.

Record k_wf (m : Z) (symdefs : list SymDef) (imports : list bytes) (relocs : list AvceReloc) : Prop := {
  kw_symdefs : Zlen symdefs ≤ 2 ^ 20 ∧ Forall (symdef_wf m) symdefs;
  kw_imports : Zlen imports ≤ 2 ^ 20 ∧ Forall str_wf imports;
  kw_relocs : Zlen relocs ≤ 2 ^ 20 ∧ Forall (reloc_wf m) relocs
}.

Record view_wf (v : CellView) : Prop := {
  vw_version : cv_version v = AVMC_VERSION;
  vw_arch : cv_arch v = ARCH_X86_64 ∨ cv_arch v = ARCH_AARCH64;
  vw_drv : length (cv_drv_hash v) = 32%nat;
  vw_text : text_wf (cv_text v);
  vw_k : k_wf (Zlen (cv_text v)) (cv_symdefs v) (cv_imports v) (cv_relocs v);
  vw_sig : length (cv_signature v) = 64%nat
}.

(** The bytes a view was read from, given the text of its capability table. *)
Definition view_bytes (v : CellView) (cap_bytes : bytes) : bytes :=
  put_head (cv_arch v) (cv_drv_hash v) cap_bytes (cv_text v) ++
  put_k (cv_symdefs v) (cv_imports v) (cv_relocs v).

(** ** The head *)
Lemma arch_name_spec c :
  (c = ARCH_X86_64 ∨ c = ARCH_AARCH64) ∧ (∃ n, arch_name c = Ok n) ∨
  (∃ e, arch_name c = Err e) ∧ c ≠ ARCH_X86_64 ∧ c ≠ ARCH_AARCH64.
Proof.
  unfold arch_name. destruct (Z.eqb_spec c ARCH_X86_64); [eauto|].
  destruct (Z.eqb_spec c ARCH_AARCH64); eauto 10.
Qed.

Lemma arch_code_name d a : arch_code d = Ok a → a = ARCH_X86_64 ∨ a = ARCH_AARCH64.
Proof. unfold arch_code. repeat case_match; naive_solver. Qed.

(** A computation lifted between two reads, when its result is known. *)
Lemma reads_lift {E A B} (m : res E A) (k : A → rd E B) a s b :
  m = Ok a → reads (k a) s b → reads (rd_lift m ≫= k) s b.
Proof. intros -> Hk. apply (reads_bind _ _ [] s a); [|done]. apply (reads_ret a). Qed.

Lemma accepts_lift {E A B} (m : res E A) (k : A → rd E B) (Q : B → bytes → Prop) :
  m ≠ Panic → (∀ a, m = Ok a → accepts (k a) Q) → accepts (rd_lift m ≫= k) Q.
Proof.
  intros Hm Hk. destruct m as [a|e|]; [|by intros pre rest _|done].
  intros pre rest Hb. exact (Hk a eq_refl pre rest Hb).
Qed.

Lemma text_guard text :
  text_wf text ↔
  (Zlen text =? 0) || negb (Zlen text mod PAGE =? 0) = false ∧ (Z.shiftl 1 30 <? Zlen text) = false.
Proof.
  change (Z.shiftl 1 30) with (2 ^ 30). rewrite orb_false_iff, negb_false_iff, Z.eqb_eq, Z.eqb_neq, Z.ltb_ge.
  split; [intros []; lia|intros ([? ?] & ?); split; lia].
Qed.

Lemma reads_head arch drv cap v text :
  arch = ARCH_X86_64 ∨ arch = ARCH_AARCH64 → length drv = 32%nat → Zlen cap ≤ CAP_MAX →
  json_from_slice cap = Some v → text_wf text →
  reads cell_head (put_head arch drv cap text) (AVMC_VERSION, arch, drv, v, text).
Proof.
  intros Ha Hd Hc Hj Ht. unfold cell_head, put_head.
  reads_step (br_reads AVMC_MAGIC). rewrite bool_decide_eq_true_2 by done. cbn [negb].
  reads_step reads_le; [done|]. cbn [negb].
  reads_step reads_le; [destruct Ha as [-> | ->]; done|].
  destruct (arch_name_spec arch) as [[_ [n Hn]]|[_ ?]]; [|naive_solver].
  eapply reads_lift; [exact Hn|].
  reads_step reads_array; [done|]. unfold CAP_MAX in *. reads_step reads_le; [cbn; lia|].
  destruct (Z.ltb_spec (16 * 1024 * 1024) (Zlen cap)); [lia|]. reads_step br_reads.
  eapply reads_lift; [by rewrite Hj|]. pose proof (tw_pos _ Ht).
  reads_step reads_le; [cbn; lia|]. apply text_guard in Ht as [-> ->].
  eapply reads_bind_r; [apply br_reads|apply reads_ret].
Qed.

Definition head_ok (h : Z * Z * bytes * json_value * bytes) (s : bytes) : Prop :=
  let '(version, arch, drv, v, text) := h in
  version = AVMC_VERSION ∧ (arch = ARCH_X86_64 ∨ arch = ARCH_AARCH64) ∧ length drv = 32%nat ∧
  text_wf text ∧
  ∃ cap, json_from_slice cap = Some v ∧ Zlen cap ≤ CAP_MAX ∧ s = put_head arch drv cap text.

Lemma accepts_head : accepts cell_head head_ok.
Proof.
  unfold cell_head. accepts_step br_accepts; [lia|]. intros magic ? [<- _].
  destruct (decide (magic = AVMC_MAGIC)) as [->|Hm];
    [rewrite bool_decide_eq_true_2 by done|rewrite bool_decide_eq_false_2 by exact Hm; apply accepts_err].
  cbn [negb]. accepts_step (accepts_le 2); [lia|]. intros ver ? [-> _].
  destruct (Z.eqb_spec ver AVMC_VERSION) as [->|]; cbn [negb]; [|apply accepts_err].
  accepts_step (accepts_le 2); [lia|]. intros arch ? [-> _].
  destruct (arch_name_spec arch) as [[Ha [n Hn]]|[[e He] _]];
    [|intros pre rest _; unfold mbind, rd_bind, rd_lift; by rewrite He].
  apply accepts_lift; [by rewrite Hn|]. intros _ _.
  accepts_step accepts_array; [lia|]. intros drv ? [<- Hd].
  accepts_step (accepts_le 4); [lia|]. intros cl ? [-> Hcl]. cbn in Hcl. unfold CAP_MAX.
  destruct (Z.ltb_spec (16 * 1024 * 1024) cl); [apply accepts_err|].
  accepts_step br_accepts; [lia|]. intros cap ? [<- Hcap]. subst cl.
  apply accepts_lift; [by destruct (json_from_slice cap)|]. intros v Hv%ok_or_Ok.
  accepts_step (accepts_le 4); [lia|]. intros m ? [-> Hml]. cbn in Hml.
  destruct (_ || _) eqn:Hpage; [apply accepts_err|]. destruct (_ <? m) eqn:Hmax; [apply accepts_err|].
  accepts_step br_accepts; [lia|]. intros text ? [<- Htl]. subst m.
  apply accepts_ret. rewrite app_nil_r. cbn [head_ok]. split_and!; [done..| |].
  - by apply text_guard.
  - exists cap. done.
Qed.

(** ** The K region *)
Lemma reads_table {A} e (p : rd CellError A) put l :
  Zlen l ≤ 2 ^ 20 → (∀ a, a ∈ l → reads p (put a) a) → reads (k_table e p) (put_table put l) l.
Proof.
  intros Hl Hp. unfold k_table, put_table. reads_step reads_le; [cbn; lia|].
  change (Z.shiftl 1 20) with (2 ^ 20). destruct (Z.ltb_spec (2 ^ 20) (Zlen l)); [lia|].
  rewrite Nat2Z.id. by apply reads_rep.
Qed.

Lemma accepts_table {A} e (p : rd CellError A) put (P : A → Prop) :
  accepts p (λ a s, s = put a ∧ P a) →
  accepts (k_table e p) (λ l s, s = put_table put l ∧ Zlen l ≤ 2 ^ 20 ∧ Forall P l).
Proof.
  intros Hp. unfold k_table. accepts_step (accepts_le 4); [lia|]. intros n ? [-> Hn]. cbn in Hn.
  change (Z.shiftl 1 20) with (2 ^ 20). destruct (Z.ltb_spec (2 ^ 20) n); [apply accepts_err|].
  eapply accepts_mono; [by apply (accepts_rep p put P)|]. intros l s (-> & Hl & HP).
  unfold put_table. assert (Zlen l = n) as <- by lia. auto.
Qed.

Lemma reads_symdef m s : m < 2 ^ 64 → symdef_wf m s → reads (symdef_entry m) (put_symdef s) s.
Proof.
  intros Hm [Hn Ho Hl He]. unfold symdef_entry, put_symdef. reads_step reads_str; [done|].
  reads_step reads_le; [cbn; lia|]. eapply reads_bind_r; [apply reads_le; cbn; lia|].
  destruct (Z.leb_spec (2 ^ 64) (sd_offset s + sd_len s)); [lia|].
  destruct (Z.ltb_spec m (sd_offset s + sd_len s)); [lia|]. destruct s. apply reads_ret.
Qed.

Lemma accepts_symdef m : accepts (symdef_entry m) (λ s e, e = put_symdef s ∧ symdef_wf m s).
Proof.
  unfold symdef_entry. accepts_step accepts_str. intros name ? [-> Hn].
  accepts_step (accepts_le 8); [lia|]. intros off ? [-> Ho].
  accepts_step (accepts_le 4); [lia|]. intros len ? [-> Hl].
  destruct (Z.leb_spec (2 ^ 64) (off + len)); [apply accepts_err|].
  destruct (Z.ltb_spec m (off + len)); [apply accepts_err|]. apply accepts_ret.
  rewrite app_nil_r. split; [done|]. split; cbn; done || lia.
Qed.

Lemma reads_k m syms imps rels :
  m < 2 ^ 64 → k_wf m syms imps rels → reads (k_region m) (put_k syms imps rels) (syms, imps, rels).
Proof.
  intros Hm [[Hs Hsf] [Hi Hif] [Hr Hrf]]. rewrite Forall_forall in Hsf. rewrite Forall_forall in Hif. rewrite Forall_forall in Hrf.
  unfold k_region, put_k.
  reads_step reads_table; [done|intros; apply reads_symdef; auto|].
  reads_step reads_table; [done|intros; apply reads_str; auto|].
  eapply reads_bind_r; [apply reads_table; [done|intros; apply reads_reloc; auto with lia]|].
  apply reads_ret.
Qed.

Lemma accepts_k m :
  accepts (k_region m) (λ k s, s = put_k k.1.1 k.1.2 k.2 ∧ k_wf m k.1.1 k.1.2 k.2).
Proof.
  unfold k_region.
  accepts_step accepts_table; [apply accepts_symdef|]. intros syms ? (-> & Hs).
  accepts_step accepts_table; [apply accepts_str|]. intros imps ? (-> & Hi).
  accepts_step accepts_table; [apply accepts_reloc|]. intros rels ? (-> & Hr).
  apply accepts_ret. rewrite app_nil_r. split; [done|]. by split.
Qed.

(** ** The whole cell *)
Definition view_of (v : CellView) (bs : bytes) : Prop :=
  view_wf v ∧ bs = cv_signed v ++ cv_signature v ∧
  ∃ cap_bytes, json_from_slice cap_bytes = Some (cv_capability_table v) ∧
    Zlen cap_bytes ≤ CAP_MAX ∧ cv_signed v = view_bytes v cap_bytes.

Lemma length_put_head arch drv cap text :
  Zlen (put_head arch drv cap text) = 16 + Zlen drv + Zlen cap + Zlen text.
Proof.
  unfold put_head. rewrite !length_app, !length_le_bytes. change (length AVMC_MAGIC) with 4%nat. lia.
Qed.

Lemma parse_accepts bs :
  buffer bs → match parse bs with Ok v => view_of v bs | Err _ => True | Panic => False end.
Proof.
  intros Hb. unfold parse, SIG_LEN. destruct (Z.ltb_spec (Zlen bs) (0x2C + 64 + 4)); [done|].
  change {| cur_b := bs; cur_i := 0 |} with (at_ [] bs).
  pose proof (accepts_head [] bs Hb) as Hh.
  destruct (cell_head _) as [[[[[[ver arch] drv] cv] text] r]|e|]; [|done..].
  destruct Hh as (h & rest & -> & -> & -> & Ha & Hd & Ht & cap & Hj & Hc & ->).
  set (h := put_head arch drv cap text) in *. cbn [app mbind res_bind].
  destruct (_ <? _) eqn:Hk; [done|]. apply Z.ltb_ge in Hk. cbn [at_ cur_i] in Hk.
  pose proof (accepts_k (Zlen text) h rest Hb) as Hkr.
  destruct (k_region _ _) as [[[[syms imps] rels] r]|e|]; [|done..].
  destruct Hkr as (k & sig & -> & -> & -> & Hkw). cbn [fst snd] in *.
  set (k := put_k syms imps rels) in *. cbn [mbind res_bind at_ cur_i].
  destruct (Z.eqb_spec (Zlen (h ++ k)) (Zlen (h ++ k ++ sig) - 64)) as [Heq|]; cbn [negb]; [|done].
  assert (Zlen sig = 64) as Hs64 by (rewrite !length_app in Heq; lia).
  rewrite <-Heq, !slice_p_Ok by (rewrite ?length_app; lia). cbn [mbind res_bind].
  rewrite app_assoc, slice_prefix, slice_suffix.
  split; [split; cbn; done || lia|]. cbn. split; [done|]. by exists cap.
Qed.

Lemma parse_view v bs : buffer bs → view_of v bs → parse bs = Ok v.
Proof.
  intros Hb ([Hver Ha Hd Ht Hk Hs] & -> & cap & Hj & Hc & Hsig). unfold parse, SIG_LEN.
  assert (∃ h k, cv_signed v = h ++ k ∧ h = put_head (cv_arch v) (cv_drv_hash v) cap (cv_text v) ∧
    k = put_k (cv_symdefs v) (cv_imports v) (cv_relocs v)) as (h & k & Hhk & Hh & Hkk) by eauto.
  assert (Zlen h = 16 + Zlen (cv_drv_hash v) + Zlen cap + Zlen (cv_text v)) as Hlh
    by (subst h; apply length_put_head).
  pose proof (tw_pos _ Ht) as Htp. pose proof (tw_page _ Ht) as Htm. unfold PAGE in Htm.
  assert (4096 ≤ Zlen (cv_text v)) as Hpg.
  { destruct (decide (Zlen (cv_text v) < 4096)); [|lia]. rewrite Z.mod_small in Htm; lia. }
  rewrite Hhk in *. clear Hsig. set (sig := cv_signature v) in *. rewrite <-!app_assoc in *.
  destruct (Z.ltb_spec (Zlen (h ++ k ++ sig)) (0x2C + 64 + 4)); [rewrite !length_app in *; lia|].
  change {| cur_b := h ++ k ++ sig; cur_i := 0 |} with (at_ [] (h ++ k ++ sig)).
  rewrite Hh at 1. rewrite (reads_head _ _ cap (cv_capability_table v) _ Ha Hd Hc Hj Ht)
    by (rewrite <-Hh; done). rewrite <-Hh. cbn [app mbind res_bind].
  destruct (Z.ltb_spec (Zlen (h ++ k ++ sig) - 64) (cur_i (at_ h (k ++ sig))));
    [cbn [at_ cur_i] in *; rewrite !length_app in *; lia|].
  rewrite Hkk at 1. rewrite (reads_k (Zlen (cv_text v)) _ _ _ ltac:(lia) Hk)
    by (rewrite <-Hkk; done). rewrite <-Hkk. cbn [mbind res_bind at_ cur_i].
  destruct (Z.eqb_spec (Zlen (h ++ k)) (Zlen (h ++ k ++ sig) - 64)) as [Heq|]; cbn [negb];
    [|rewrite !length_app in *; lia].
  rewrite <-Heq. rewrite !slice_p_Ok by (rewrite ?length_app in *; lia). cbn [mbind res_bind].
  rewrite app_assoc, slice_prefix, slice_suffix, <-Hhk. subst sig.
  destruct v; cbn in *. by subst.
Qed.

(** The cell parser is exact and fail-closed. On any buffer it never
    panics, and it answers [Ok v] precisely on the cell layout of [v]: the
    text a positive page multiple, every symbol and relocation inside it, a
    known architecture, the capability table valid JSON, the signature the
    last 64 bytes and the signed range everything before it. *)
Theorem cell_parse_exact bs :
  buffer bs → parse bs ≠ Panic ∧ ∀ v, parse bs = Ok v ↔ view_of v bs.
Proof.
  intros Hb. pose proof (parse_accepts bs Hb) as Hp. split; [by intros Heq; rewrite Heq in Hp|].
  intros v. split; [intros Heq; by rewrite Heq in Hp|by apply parse_view].
Qed.

(** ** What the builder lays out *)
Definition bodies (fs : list AvceFn) : bytes := concat (fn_body <$> fs).

Fixpoint place (off : Z) (fs : list AvceFn) : list SymDef :=
  match fs with
  | [] => []
  | f :: fs => {| sd_name := fn_name f; sd_offset := off; sd_len := Zlen (fn_body f) |}
               :: place (off + Zlen (fn_body f)) fs
  end.

Fixpoint shifted (off : Z) (fs : list AvceFn) : list AvceReloc :=
  match fs with
  | [] => []
  | f :: fs => (shift_reloc off <$> fn_relocs f) ++ shifted (off + Zlen (fn_body f)) fs
  end.

Lemma bodies_cons f fs : Zlen (bodies (f :: fs)) = Zlen (fn_body f) + Zlen (bodies fs).
Proof. unfold bodies. rewrite fmap_cons. cbn [concat]. rewrite length_app. lia. Qed.

Lemma add_relocs off tlen rels rs :
  0 ≤ off → tlen ≤ 2 ^ 64 → Forall (reloc_wf (tlen - off)) rs →
  foldM (add_reloc off tlen) rels rs = Ok (rels ++ (shift_reloc off <$> rs)).
Proof.
  intros Ho Ht Hrs. revert rels. induction Hrs as [|r rs [Hr _ _ _] _ IH]; intros rels.
  - cbn. by rewrite app_nil_r.
  - assert (add_reloc off tlen rels r = Ok (rels ++ [shift_reloc off r])) as Hadd.
    { unfold add_reloc. destruct (Z.leb_spec (2 ^ 64) (rl_offset r + off)); [lia|].
      by destruct (Z.leb_spec tlen (rl_offset r + off)); [lia|]. }
    cbn [foldM]. rewrite Hadd. cbn [mbind res_bind]. rewrite IH. by rewrite <-app_assoc.
Qed.

Lemma lay_fns fs : ∀ text syms rels,
  Forall fn_wf fs → Zlen text + Zlen (bodies fs) ≤ 2 ^ 64 →
  foldM lay_fn (text, syms, rels) fs =
  Ok (text ++ bodies fs, syms ++ place (Zlen text) fs, rels ++ shifted (Zlen text) fs).
Proof.
  induction fs as [|f fs IH]; intros text syms rels Hf Hlen.
  - cbn. by rewrite !app_nil_r.
  - apply Forall_cons in Hf as [[Hn Hb Hc Hr] Hf]. rewrite bodies_cons in Hlen.
    cbn [foldM lay_fn]. rewrite add_relocs;
      [|lia|rewrite length_app; lia|rewrite length_app; by replace (_ - _) with (Zlen (fn_body f)) by lia].
    cbn [mbind res_bind]. rewrite IH by (rewrite ?length_app; done || lia). cbn [place shifted].
    rewrite Z.mod_small by lia. rewrite length_app, Nat2Z.inj_add. unfold bodies.
    by rewrite fmap_cons, <-!app_assoc.
Qed.

Lemma length_place off fs : length (place off fs) = length fs.
Proof. revert off. induction fs; intros off; cbn; auto. Qed.

Lemma place_wf m fs : ∀ off,
  Forall fn_wf fs → 0 ≤ off → off + Zlen (bodies fs) ≤ m → Forall (symdef_wf m) (place off fs).
Proof.
  induction fs as [|f fs IH]; intros off Hf Ho Hm; cbn; [constructor|].
  apply Forall_cons in Hf as [[Hn Hb Hc Hr] Hf]. rewrite bodies_cons in Hm.
  constructor; [|apply IH; done || lia]. split; cbn; done || lia.
Qed.

Lemma shifted_wf m fs : ∀ off,
  Forall fn_wf fs → 0 ≤ off → off + Zlen (bodies fs) ≤ m → Forall (reloc_wf m) (shifted off fs).
Proof.
  induction fs as [|f fs IH]; intros off Hf Ho Hm; cbn; [constructor|].
  apply Forall_cons in Hf as [[Hn Hb Hc Hr] Hf]. rewrite bodies_cons in Hm.
  apply Forall_app. split; [|apply IH; done || lia]. apply Forall_fmap.
  eapply Forall_impl; [exact Hr|]. intros r [H1 H2 H3 H4]. split; cbn; done || lia.
Qed.

Lemma length_shifted off fs : length (shifted off fs) = length (fs ≫= fn_relocs).
Proof.
  revert off. induction fs as [|f fs IH]; intros off; cbn; [done|].
  rewrite !length_app, length_fmap, IH. done.
Qed.

Lemma place_lookup fs : ∀ off i f,
  fs !! i = Some f →
  place off fs !! i = Some {| sd_name := fn_name f; sd_offset := off + Zlen (bodies (firstn i fs));
                              sd_len := Zlen (fn_body f) |} ∧
  (∀ r, r ∈ fn_relocs f → shift_reloc (off + Zlen (bodies (firstn i fs))) r ∈ shifted off fs).
Proof.
  induction fs as [|g fs IH]; intros off i f Hi; [done|]. destruct i as [|i]; cbn in Hi.
  - simplify_eq. cbn [firstn bodies fmap list_fmap concat length place shifted lookup]. rewrite Z.add_0_r.
    split; [done|]. intros r Hr. apply elem_of_app. left. by apply list_elem_of_fmap_2.
  - destruct (IH (off + Zlen (fn_body g)) i f Hi) as [H1 H2]. cbn [firstn]. rewrite bodies_cons, Z.add_assoc. split; [exact H1|].
    intros r Hr. apply elem_of_app. right. by apply H2.
Qed.

Lemma bodies_slice fs i f pad :
  fs !! i = Some f →
  slice (bodies fs ++ pad) (Zlen (bodies (firstn i fs)))
    (Zlen (bodies (firstn i fs)) + Zlen (fn_body f)) = fn_body f.
Proof.
  intros Hi. rewrite <-(take_drop_middle fs i f Hi) at 1. unfold bodies.
  rewrite fmap_app, concat_app, fmap_cons. cbn [concat]. rewrite <-!app_assoc. apply slice_middle.
Qed.

Lemma place_ends fs : ∀ off, 0 ≤ off → off + Zlen (bodies fs) < 2 ^ 64 →
  ∃ ends, mapM_res sym_end (place off fs) = Ok ends ∧ length ends = length fs ∧
          Forall (Z.le off) ends ∧ foldl Z.max off ends = off + Zlen (bodies fs).
Proof.
  induction fs as [|f fs IH]; intros off Ho Hlen.
  - exists []. cbn. auto with lia.
  - rewrite bodies_cons in *. destruct (IH (off + Zlen (fn_body f))) as (ends & Hm & Hl & Hg & He); [lia..|].
    exists ((off + Zlen (fn_body f)) :: ends). cbn [place mapM_res].
    assert (sym_end {| sd_name := fn_name f; sd_offset := off; sd_len := Zlen (fn_body f) |} =
            Ok (off + Zlen (fn_body f))) as ->.
    { unfold sym_end. cbn. by destruct (Z.leb_spec (2 ^ 64) (off + Zlen (fn_body f))); [lia|]. }
    cbn [mbind res_bind]. rewrite Hm. cbn. split_and!; [done|lia| |rewrite Z.max_r by lia; rewrite He; lia].
    constructor; [lia|]. eapply Forall_impl; [exact Hg|]. cbn. lia.
Qed.

(** Page rounding. *)
Lemma padded_text_wf (code : bytes) :
  0 < Zlen code ≤ 2 ^ 30 →
  let m := (Zlen code + (PAGE - 1)) / PAGE * PAGE in
  Zlen code ≤ m ∧ m ≠ 0 ∧ text_wf (code ++ replicate (Z.to_nat (m - Zlen code)) Byte.x00).
Proof.
  intros Hc m. assert (Zlen code ≤ m ≤ 2 ^ 30) as Hm.
  { unfold m, PAGE. Z.to_euclidean_division_equations. lia. }
  split; [lia|]. split; [lia|].
  assert (Zlen (code ++ replicate (Z.to_nat (m - Zlen code)) Byte.x00) = m) as Hl
    by (rewrite length_app, length_replicate; lia).
  split; rewrite Hl; [lia|]. apply Z.mod_mul. done.
Qed.

(** Sizes: a well-formed cell is far below the largest buffer. *)
Lemma length_table {A} (put : A → bytes) B l :
  Forall (λ a, Zlen (put a) ≤ B) l → Zlen l ≤ 2 ^ 20 → 0 ≤ B → Zlen (put_table put l) ≤ 4 + B * 2 ^ 20.
Proof.
  intros Hl Hn HB. unfold put_table. rewrite length_app, length_le_bytes.
  assert (Zlen (concat (put <$> l)) ≤ B * Zlen l) as Hc.
  { clear Hn. induction Hl as [|a l Ha _ IH]; cbn; [lia|]. rewrite length_app. lia. }
  nia.
Qed.

Lemma length_put_k m syms imps rels : k_wf m syms imps rels → Zlen (put_k syms imps rels) ≤ 2 ^ 56.
Proof.
  intros [[Hs Hsf] [Hi Hif] [Hr Hrf]]. unfold put_k. rewrite !length_app.
  pose proof (length_table put_symdef (2 ^ 33) syms) as H1.
  pose proof (length_table put_str (2 ^ 33) imps) as H2.
  pose proof (length_table put_reloc (2 ^ 34) rels) as H3.
  enough (Zlen (put_table put_symdef syms) ≤ 4 + 2 ^ 33 * 2 ^ 20 ∧
          Zlen (put_table put_str imps) ≤ 4 + 2 ^ 33 * 2 ^ 20 ∧
          Zlen (put_table put_reloc rels) ≤ 4 + 2 ^ 34 * 2 ^ 20) by lia.
  split_and!; [apply H1|apply H2|apply H3]; try done;
    [eapply Forall_impl; [exact Hsf|]|eapply Forall_impl; [exact Hif|]|eapply Forall_impl; [exact Hrf|]].
  - intros s [[Hn _] _ _ _]. unfold put_symdef, put_str. rewrite !length_app, !length_le_bytes. lia.
  - intros s [Hn _]. unfold put_str. rewrite !length_app, !length_le_bytes. lia.
  - intros r [_ _ [Hk _] [Hy _]]. unfold put_reloc, put_str. rewrite !length_app, !length_le_bytes. lia.
Qed.

(** The limits of the format, which [build_cell] does not check. *)
Record doc_fits (d : AvceDoc) : Prop := {
  df_text : Zlen (bodies (doc_functions d)) ≤ 2 ^ 30;
  df_functions : Zlen (doc_functions d) ≤ 2 ^ 20;
  df_imports : Zlen (doc_imports d) ≤ 2 ^ 20;
  df_relocs : Zlen (doc_functions d ≫= fn_relocs) ≤ 2 ^ 20
}.

Lemma laid_k_wf d m :
  doc_wf d → doc_fits d → Zlen (bodies (doc_functions d)) ≤ m →
  k_wf m (place 0 (doc_functions d)) (doc_imports d) (shifted 0 (doc_functions d)).
Proof.
  intros [Ha Hc Hf Hic Hi] [Ht Hn Hm Hr] Hlen. split.
  - rewrite length_place. split; [done|]. by apply place_wf.
  - done.
  - rewrite length_shifted. split; [done|]. by apply shifted_wf.
Qed.

Lemma bodies_pos d : doc_wf d → 0 < Zlen (bodies (doc_functions d)).
Proof.
  intros [_ Hc Hf _ _]. destruct (doc_functions d) as [|f fs]; cbn in Hc; [lia|].
  apply Forall_cons in Hf as [[_ Hb _ _] _]. rewrite bodies_cons. lia.
Qed.

Section build.
Context `{Ed25519}.

(** The bytes [build_cell] signs, and the view they parse to. *)
Definition laid_text (d : AvceDoc) : bytes :=
  let code := bodies (doc_functions d) in
  code ++ replicate (Z.to_nat ((Zlen code + (PAGE - 1)) / PAGE * PAGE - Zlen code)) Byte.x00.

Definition laid_view (spec : BuildCell) (arch : Z) (cap_bytes : bytes) : CellView :=
  let d := bc_avce spec in
  let b := put_head arch (bc_drv_hash spec) cap_bytes (laid_text d) ++
           put_k (place 0 (doc_functions d)) (doc_imports d) (shifted 0 (doc_functions d)) in
  {| cv_version := AVMC_VERSION; cv_arch := arch; cv_drv_hash := bc_drv_hash spec;
     cv_capability_table := bc_capability_table spec; cv_text := laid_text d;
     cv_symdefs := place 0 (doc_functions d); cv_imports := doc_imports d;
     cv_relocs := shifted 0 (doc_functions d);
     cv_signature := ed_sign (bc_signing_seed spec) b; cv_signed := b |}.

Lemma build_cell_run spec arch cap_bytes :
  doc_wf (bc_avce spec) → doc_fits (bc_avce spec) →
  arch_code (doc_arch (bc_avce spec)) = Ok arch →
  json_to_vec (bc_capability_table spec) = Some cap_bytes → Zlen cap_bytes ≤ CAP_MAX →
  let v := laid_view spec arch cap_bytes in
  build_cell spec = Ok (cv_signed v ++ cv_signature v).
Proof.
  intros Hd Hf Ha Hj Hc v. unfold build_cell. pose proof (dw_count _ Hd). pose proof (df_text _ Hf).
  pose proof (bodies_pos _ Hd).
  destruct (Z.eqb_spec (Zlen (doc_functions (bc_avce spec))) 0); [lia|].
  rewrite Ha. cbn [mbind res_bind]. rewrite Hj. cbn [ok_or mbind res_bind].
  destruct (Z.ltb_spec CAP_MAX (Zlen cap_bytes)); [lia|].
  rewrite lay_fns by (try apply dw_functions; cbn [length]; done || lia).
  cbn [mbind res_bind app]. change (Zlen (@nil byte)) with 0.
  set (code := bodies _) in *.
  destruct (padded_text_wf code ltac:(lia)) as (Hm & Hm0 & _).
  destruct (Z.leb_spec (2 ^ 64) (Zlen code + (PAGE - 1))); [unfold PAGE in *; lia|].
  destruct (Z.eqb_spec ((Zlen code + (PAGE - 1)) / PAGE * PAGE) 0); [done|]. done.
Qed.

Lemma laid_view_of `{!Ed25519Laws} spec arch cap_bytes :
  doc_wf (bc_avce spec) → doc_fits (bc_avce spec) → length (bc_drv_hash spec) = 32%nat →
  arch_code (doc_arch (bc_avce spec)) = Ok arch → Zlen cap_bytes ≤ CAP_MAX →
  json_from_slice cap_bytes = Some (bc_capability_table spec) →
  let v := laid_view spec arch cap_bytes in
  buffer (cv_signed v ++ cv_signature v) ∧ view_of v (cv_signed v ++ cv_signature v).
Proof.
  intros Hd Hf Hh Ha Hc Hj v. pose proof (df_text _ Hf). pose proof (bodies_pos _ Hd).
  destruct (padded_text_wf (bodies (doc_functions (bc_avce spec))) ltac:(lia)) as (Hm & _ & Ht).
  fold (laid_text (bc_avce spec)) in Ht.
  assert (Zlen (bodies (doc_functions (bc_avce spec))) ≤ Zlen (laid_text (bc_avce spec))) as Hle
    by (unfold laid_text; rewrite length_app; lia).
  pose proof (laid_k_wf _ _ Hd Hf Hle) as Hk. pose proof (length_put_k _ _ _ _ Hk).
  pose proof (tw_pos _ Ht). split.
  - unfold buffer. rewrite length_app, Nat2Z.inj_add. cbn [v laid_view cv_signed cv_signature].
    rewrite ed_sign_length, length_app, Nat2Z.inj_add, length_put_head, Hh. unfold CAP_MAX in *. lia.
  - split; [|split; [done|by exists cap_bytes]].
    split; cbn [v laid_view cv_version cv_arch cv_drv_hash cv_text cv_symdefs cv_imports cv_relocs cv_signature];
      [done|by eapply arch_code_name|done|done|done|apply ed_sign_length].
Qed.

Lemma laid_code_len spec arch cap_bytes :
  doc_wf (bc_avce spec) → doc_fits (bc_avce spec) →
  code_len (laid_view spec arch cap_bytes) = Ok (Zlen (bodies (doc_functions (bc_avce spec)))).
Proof.
  intros Hd Hf. unfold code_len. cbn [laid_view cv_symdefs].
  destruct (place_ends (doc_functions (bc_avce spec)) 0) as (ends & -> & Hl & Hg & He);
    [done|pose proof (df_text _ Hf); lia|].
  pose proof (dw_count _ Hd). destruct ends as [|e es]; cbn in Hl; [lia|].
  apply Forall_cons in Hg as [Hg _]. cbn in He |- *. rewrite Z.max_r in He by done. by rewrite He.
Qed.

(** C27. A built cell round-trips. For a well-formed container within the
    limits of the format, [build_cell] succeeds and the cell it returns
    parses, verifies under the builder's key, and carries the derivation
    hash, capability table and imports it was given; its code is the
    function bodies, each exactly where its symbol says, and each
    relocation moved with its function. *)
Theorem build_cell_roundtrip `{!Ed25519Laws} spec arch cap_bytes :
  doc_wf (bc_avce spec) → doc_fits (bc_avce spec) → length (bc_drv_hash spec) = 32%nat →
  arch_code (doc_arch (bc_avce spec)) = Ok arch →
  json_to_vec (bc_capability_table spec) = Some cap_bytes → Zlen cap_bytes ≤ CAP_MAX →
  json_from_slice cap_bytes = Some (bc_capability_table spec) →
  ∃ b v, build_cell spec = Ok b ∧ parse b = Ok v ∧
    verify_signature v (ed_verifying_key (bc_signing_seed spec)) = Ok () ∧
    cv_arch v = arch ∧ cv_drv_hash v = bc_drv_hash spec ∧
    cv_capability_table v = bc_capability_table spec ∧
    cv_imports v = doc_imports (bc_avce spec) ∧
    code_len v = Ok (Zlen (concat (fn_body <$> doc_functions (bc_avce spec)))) ∧
    length (cv_symdefs v) = length (doc_functions (bc_avce spec)) ∧
    ∀ i f, doc_functions (bc_avce spec) !! i = Some f →
      ∃ s, cv_symdefs v !! i = Some s ∧ sd_name s = fn_name f ∧
        (cv_text v).[sd_offset s : sd_offset s + sd_len s] = fn_body f ∧
        ∀ r, r ∈ fn_relocs f → shift_reloc (sd_offset s) r ∈ cv_relocs v.
Proof.
  intros Hd Hf Hh Ha Hj Hc Hjr.
  destruct (laid_view_of spec arch cap_bytes Hd Hf Hh Ha Hc Hjr) as [Hb Hv].
  eexists _, (laid_view spec arch cap_bytes).
  split; [by apply build_cell_run|]. split; [by apply parse_view|]. split_and!; try done.
  - unfold verify_signature. rewrite ed_key_valid. cbn [negb laid_view cv_signed cv_signature].
    by rewrite ed_correct.
  - by apply laid_code_len.
  - apply length_place.
  - intros i f Hi. destruct (place_lookup _ 0 i f Hi) as [Hs Hr]. rewrite Z.add_0_l in *.
    eexists. split; [exact Hs|]. split_and!; [done|by apply bodies_slice|exact Hr].
Qed.
End build.

End cell.

Section witnesses.
(** JSON restricted to the table of no capabilities. *)
Definition toy_json : SerdeJson := {|
  json_value := ();
  json_from_slice b := if bool_decide (b = str "[]") then Some () else None;
  json_to_vec _ := Some (str "[]")
|}.
#[local] Existing Instance toy_json.
#[local] Existing Instance toy_ed25519.
#[local] Existing Instance toy_ed25519_laws.

Definition demo_spec : BuildCell := {|
  bc_drv_hash := replicate 32 Byte.x09; bc_capability_table := ();
  bc_avce := demo_doc; bc_signing_seed := replicate 32 Byte.x07 |}.

Lemma demo_doc_fits : doc_fits demo_doc.
Proof. split; vm_compute; congruence. Qed.

Lemma build_cell_roundtrip_witness :
  ∃ b v, build_cell demo_spec = Ok b ∧ parse b = Ok v ∧
    verify_signature v (ed_verifying_key (replicate 32 Byte.x07)) = Ok ().
Proof.
  destruct (build_cell_roundtrip demo_spec ARCH_X86_64 (str "[]"))
    as (b & v & H1 & H2 & H3 & _);
    [exact demo_doc_wf|exact demo_doc_fits|done|done|done|vm_compute; congruence|done|].
  exists b, v. split; [exact H1|]. split; [exact H2|exact H3].
Defined.

Definition demo_cell : bytes :=
  match build_cell demo_spec with Ok b => b | _ => [] end.

Lemma cell_parse_exact_witness :
  buffer demo_cell ∧ parse demo_cell ≠ Panic ∧ parse (drop 1 demo_cell) ≠ Panic.
Proof.
  split; [vm_compute; reflexivity|].
  split; apply cell_parse_exact; vm_compute; reflexivity.
Defined.
End witnesses.

End Cell.
