(* ===== verification/Linker.v ===== *)
(** * Load-time linking ([avm-exec/src/linker.rs])

    [link] relocates a copy of a cell's code against the symbols of the cell
    itself and of its providers. The symbol table refines a two-level lookup,
    success is characterised exactly, and a linked image differs from the
    cell's code only at the relocation sites, where it holds the displacement
    that reaches the target. *)

From S2P Require Import Prelude Cas Cursor Avce Cell.
Import Avce Cell.

Module Linker.

Section linker.
Context `{SerdeJson}.

Record LinkedImage := { li_text : bytes; li_symbols : gmap bytes Z }.
Record Provider := { pr_view : CellView; pr_base : Z }.

Definition link_error (s : String.string) : CellError := Link (str s).

(** The closures [write32] and [write64]. *)
Definition write (text : bytes) (off : Z) (bs : bytes) : res CellError bytes :=
  if 2 ^ 64 <=? off + Zlen bs then Err (link_error "offset overflow")
  else if Zlen text <? off + Zlen bs then
    Err (link_error "reloc at {off} runs past the text ({} bytes)")
  else splice_p text off bs.

(** [i32::try_from] of an [i128]. *)
Definition i32_try_from (z : Z) : option Z :=
  if (- 2 ^ 31 <=? z) && (z <? 2 ^ 31) then Some z else None.

Definition pcrel_kind (k : bytes) : bool :=
  bool_decide (k = str "X86PCRel4") || bool_decide (k = str "X86CallPCRel4") ||
  bool_decide (k = str "X86CallPLTRel4").
Definition got_kind (k : bytes) : bool :=
  bool_decide (k = str "X86GOTPCRel4") || bool_decide (k = str "X86GOTPCRel8") ||
  bool_decide (k = str "X86CallPLTRel4GOT").

Definition apply_one (text : bytes) (site_base : Z) (r : AvceReloc) (target : Z)
    : res CellError bytes :=
  let off := rl_offset r in
  if bool_decide (rl_kind r = str "Abs8") then
    write text off (le_bytes 8 ((target + rl_addend r) mod 2 ^ 64))
  else if bool_decide (rl_kind r = str "Abs4") then
    val ← ok_or (i32_try_from (target + rl_addend r)) (link_error "Abs4 target {val} out of range");
    write text off (le_bytes 4 val)
  else if pcrel_kind (rl_kind r) then
    site ← (if 2 ^ 64 <=? site_base + rl_offset r then Err (link_error "site address overflow")
            else Ok (site_base + rl_offset r));
    rel ← ok_or (i32_try_from (target + rl_addend r - (site + 4)))
            (link_error "PC-relative distance {rel} from {site:#x} to {target:#x} out of i32 range (provider cell more than 2 GiB away)");
    write text off (le_bytes 4 rel)
  else if got_kind (rl_kind r) then
    Err (link_error "relocation kind {} needs GOT/PLT indirection the cell format does not carry")
  else Err (link_error "unknown relocation kind {other:?}").

Definition check_kind (kind : bytes) : res CellError () :=
  if bool_decide (kind = str "Abs8") || bool_decide (kind = str "Abs4") || pcrel_kind kind then Ok ()
  else if got_kind kind then
    Err (link_error "relocation kind {kind} needs GOT/PLT indirection the cell format does not carry")
  else Err (link_error "unknown relocation kind {other:?}").

(** [owner_base + s.offset] and [p.base + s.offset] are checked. *)
Definition sym_addr (base : Z) (s : SymDef) : res CellError Z :=
  if 2 ^ 64 <=? base + sd_offset s then Panic else Ok (base + sd_offset s).

Definition add_own (base : Z) (symbols : gmap bytes Z) (s : SymDef) : res CellError (gmap bytes Z) :=
  a ← sym_addr base s;
  match symbols !! sd_name s with
  | Some _ => Err (link_error "duplicate symbol {}")
  | None => Ok (<[sd_name s := a]> symbols)
  end.

Definition add_provided (base : Z) (symbols : gmap bytes Z) (s : SymDef) : res CellError (gmap bytes Z) :=
  match symbols !! sd_name s with
  | Some _ => Ok symbols
  | None => a ← sym_addr base s; Ok (<[sd_name s := a]> symbols)
  end.

Definition add_provider (symbols : gmap bytes Z) (p : Provider) : res CellError (gmap bytes Z) :=
  foldM (add_provided (pr_base p)) symbols (cv_symdefs (pr_view p)).

Definition apply_reloc (owner_base : Z) (symbols : gmap bytes Z) (text : bytes) (r : AvceReloc)
    : res CellError bytes :=
  target ← ok_or (symbols !! rl_symbol r)
    (link_error "unresolved symbol {:?} (owner defines {} symbol(s), providers supply {})");
  apply_one text owner_base r target.

Definition link (owner : CellView) (owner_base : Z) (providers : list Provider)
    : res CellError LinkedImage :=
  n ← code_len owner;
  if Zlen (cv_text owner) <? n then Err (link_error "symdefs run past the text")
  else
  text ← slice_p (cv_text owner) 0 n;
  _ ← mapM_res (λ r, check_kind (rl_kind r)) (cv_relocs owner);
  symbols ← foldM (add_own owner_base) ∅ (cv_symdefs owner);
  symbols ← foldM add_provider symbols providers;
  text ← foldM (apply_reloc owner_base symbols) text (cv_relocs owner);
  Ok {| li_text := text; li_symbols := symbols |}.

(** ** Specification *)

(** A symbol table as a search: the first definition of the name. *)
Definition defined_at (base : Z) (syms : list SymDef) (name : bytes) : option Z :=
  (λ p, base + sd_offset p.2) <$> list_find (λ s, sd_name s = name) syms.
Fixpoint provided_at (ps : list Provider) (name : bytes) : option Z :=
  match ps with
  | [] => None
  | p :: ps =>
      match defined_at (pr_base p) (cv_symdefs (pr_view p)) name with
      | Some a => Some a
      | None => provided_at ps name
      end
  end.
(** The owner's own definition shadows the providers', the first provider
    the later ones. *)
Definition resolve_symbol (owner : CellView) (base : Z) (ps : list Provider) (name : bytes) : option Z :=
  match defined_at base (cv_symdefs owner) name with
  | Some a => Some a
  | None => provided_at ps name
  end.

(** Two's complement of 32 bits. *)
Definition as_i32 (z : Z) : Z := if z <? 2 ^ 31 then z else z - 2 ^ 32.

Definition width (r : AvceReloc) : Z := if bool_decide (rl_kind r = str "Abs8") then 8 else 4.
Definition disjoint_sites (a b : AvceReloc) : Prop :=
  rl_offset a + width a ≤ rl_offset b ∨ rl_offset b + width b ≤ rl_offset a.

(** What the bytes at a relocated site mean to the processor. *)
Definition patched (text : bytes) (base : Z) (r : AvceReloc) (target : Z) : Prop :=
  let field := le_val text.[rl_offset r : rl_offset r + width r] in
  if bool_decide (rl_kind r = str "Abs8") then field = (target + rl_addend r) mod 2 ^ 64
  else if bool_decide (rl_kind r = str "Abs4") then as_i32 field = target + rl_addend r
  else (base + rl_offset r + 4) + as_i32 field = target + rl_addend r.

(** When one relocation can be applied to [n] bytes of code. *)
Definition applicable (n base : Z) (r : AvceReloc) (target : Z) : Prop :=
  rl_offset r + width r ≤ n ∧
  (rl_kind r = str "Abs8" ∨
   rl_kind r = str "Abs4" ∧ - 2 ^ 31 ≤ target + rl_addend r < 2 ^ 31 ∨
   pcrel_kind (rl_kind r) = true ∧
     - 2 ^ 31 ≤ target + rl_addend r - (base + rl_offset r + 4) < 2 ^ 31).

(** ** One relocation *)
Lemma write_cases text off bs :
  0 ≤ off → Zlen text < 2 ^ 63 → Zlen bs ≤ 8 →
  (off + Zlen bs ≤ Zlen text ∧ write text off bs = Ok (splice text off bs)) ∨
  (Zlen text < off + Zlen bs ∧ ∃ why, write text off bs = Err (Link why)).
Proof.
  intros Ho Ht Hb. unfold write. destruct (Z.leb_spec (2 ^ 64) (off + Zlen bs)); [right; split; [lia|by eexists]|].
  destruct (Z.ltb_spec (Zlen text) (off + Zlen bs)); [right; split; [lia|by eexists]|].
  left. split; [lia|]. by apply splice_p_Ok.
Qed.

Lemma as_i32_le_val z : - 2 ^ 31 ≤ z < 2 ^ 31 → as_i32 (le_val (le_bytes 4 z)) = z.
Proof.
  intros Hz. rewrite le_val_le_bytes. change (2 ^ (8 * Z.of_nat 4)) with (2 ^ 32). unfold as_i32.
  destruct (decide (0 ≤ z)).
  - rewrite Z.mod_small by lia. destruct (Z.ltb_spec z (2 ^ 31)); lia.
  - rewrite <-(Z_mod_plus_full z 1), Z.mod_small by lia.
    destruct (Z.ltb_spec (z + 1 * 2 ^ 32) (2 ^ 31)); lia.
Qed.

Lemma i32_try_from_cases z :
  (- 2 ^ 31 ≤ z < 2 ^ 31 ∧ i32_try_from z = Some z) ∨ (¬ (- 2 ^ 31 ≤ z < 2 ^ 31) ∧ i32_try_from z = None).
Proof.
  unfold i32_try_from. destruct (Z.leb_spec (- 2 ^ 31) z), (Z.ltb_spec z (2 ^ 31)); cbn; auto with lia.
Qed.

Lemma pcrel_not_abs k : pcrel_kind k = true → k ≠ str "Abs8" ∧ k ≠ str "Abs4".
Proof.
  unfold pcrel_kind. rewrite !orb_true_iff, !bool_decide_eq_true.
  intros [[-> | ->] | ->]; split; vm_compute; congruence.
Qed.

Lemma width_bounds r : 4 ≤ width r ≤ 8.
Proof. unfold width. case_match; lia. Qed.

(** The outcome of one application: the bytes at the site, or a link error
    exactly when the relocation does not apply. *)
Definition applied (text : bytes) (base : Z) (r : AvceReloc) (target : Z) (o : res CellError bytes) : Prop :=
  (applicable (Zlen text) base r target ∧
   ∃ bs, Zlen bs = width r ∧ o = Ok (splice text (rl_offset r) bs) ∧
         patched (splice text (rl_offset r) bs) base r target) ∨
  (¬ applicable (Zlen text) base r target ∧ ∃ why, o = Err (Link why)).

Lemma applied_write text base r target bs :
  0 ≤ rl_offset r → Zlen text < 2 ^ 63 → Zlen bs = width r →
  (rl_offset r + width r ≤ Zlen text → applicable (Zlen text) base r target) →
  (∀ t, t.[rl_offset r : rl_offset r + width r] = bs → patched t base r target) →
  applied text base r target (write text (rl_offset r) bs).
Proof.
  intros Ho Ht Hl Ha Hp. pose proof (width_bounds r).
  destruct (write_cases text (rl_offset r) bs) as [[Hin ->]|[Hout Hw]]; [lia..| |].
  - left. split; [apply Ha; lia|]. exists bs. split; [done|]. split; [done|]. apply Hp.
    rewrite <-Hl. by apply slice_splice_same.
  - right. split; [|done]. intros [Hin _]. lia.
Qed.

Lemma apply_one_spec text base r target :
  0 ≤ rl_offset r → Zlen text < 2 ^ 63 → base + rl_offset r < 2 ^ 64 →
  applied text base r target (apply_one text base r target).
Proof.
  intros Ho Ht Hs. unfold apply_one. destruct (decide (rl_kind r = str "Abs8")) as [H8|H8].
  { rewrite bool_decide_eq_true_2 by done.
    assert (width r = 8) as Hw by (unfold width; by rewrite bool_decide_eq_true_2).
    apply applied_write; [done..| | |].
    - by rewrite length_le_bytes, Hw.
    - intros Hin. split; [done|by left].
    - intros t Hb. unfold patched. rewrite bool_decide_eq_true_2, Hb by done.
      rewrite le_val_le_bytes. by rewrite Z.mod_mod. }
  rewrite bool_decide_eq_false_2 by done.
  assert (width r = 4) as Hw by (unfold width; by rewrite bool_decide_eq_false_2).
  destruct (decide (rl_kind r = str "Abs4")) as [H4|H4].
  { rewrite bool_decide_eq_true_2 by done.
    destruct (i32_try_from_cases (target + rl_addend r)) as [[Hr ->]|[Hr ->]]; cbn [ok_or mbind res_bind].
    - apply applied_write; [done..|by rewrite length_le_bytes, Hw|intros Hin; split; auto|].
      intros t Hb. unfold patched. rewrite bool_decide_eq_false_2, bool_decide_eq_true_2, Hb by done.
      by apply as_i32_le_val.
    - right. split; [|by eexists]. intros [_ [?|[[_ ?]|[?%pcrel_not_abs _]]]]; naive_solver. }
  rewrite bool_decide_eq_false_2 by done. destruct (pcrel_kind (rl_kind r)) eqn:Hpc.
  - destruct (Z.leb_spec (2 ^ 64) (base + rl_offset r)); [lia|]. cbn [mbind res_bind].
    destruct (i32_try_from_cases (target + rl_addend r - (base + rl_offset r + 4)))
      as [[Hr ->]|[Hr ->]]; cbn [ok_or mbind res_bind].
    + apply applied_write; [done..|by rewrite length_le_bytes, Hw|intros Hin; split; auto|].
      intros t Hb. unfold patched. rewrite !bool_decide_eq_false_2, Hb by done.
      rewrite as_i32_le_val by done. lia.
    + right. split; [|by eexists]. intros [_ [?|[[? _]|[_ ?]]]]; done.
  - right. split; [|destruct (got_kind _); by eexists].
    intros [_ [?|[[? _]|[? _]]]]; congruence.
Qed.

(** ** All of them, in order *)
Definition site (r : AvceReloc) (i : nat) : Prop :=
  rl_offset r ≤ Z.of_nat i < rl_offset r + width r.

Definition resolvable (n base : Z) (symbols : gmap bytes Z) (r : AvceReloc) : Prop :=
  ∃ t, symbols !! rl_symbol r = Some t ∧ applicable n base r t.

Lemma patched_ext t1 t2 base r target :
  (∀ i, site r i → t1 !! i = t2 !! i) → 0 ≤ rl_offset r →
  patched t1 base r target → patched t2 base r target.
Proof.
  intros Heq Ho. unfold patched.
  assert (t2.[rl_offset r : rl_offset r + width r] = t1.[rl_offset r : rl_offset r + width r]) as ->;
    [|done].
  apply list_eq. intros i. destruct (decide (Z.of_nat i < width r)) as [Hi|Hi].
  - rewrite !lookup_slice by lia. symmetry. apply Heq. unfold site. lia.
  - unfold slice. rewrite !lookup_take_ge by lia. done.
Qed.

Definition image (text : bytes) (base : Z) (symbols : gmap bytes Z) (rs : list AvceReloc) (text' : bytes) : Prop :=
  length text' = length text ∧
  (∀ i, (∀ r, r ∈ rs → ¬ site r i) → text' !! i = text !! i) ∧
  (∀ l1 r l2 t, rs = l1 ++ r :: l2 → symbols !! rl_symbol r = Some t →
     Forall (disjoint_sites r) l2 → patched text' base r t).

Lemma image_cons text base symbols r rs t bs text' :
  0 ≤ rl_offset r → symbols !! rl_symbol r = Some t → rl_offset r + width r ≤ Zlen text →
  Zlen bs = width r → patched (splice text (rl_offset r) bs) base r t →
  image (splice text (rl_offset r) bs) base symbols rs text' → image text base symbols (r :: rs) text'.
Proof.
  intros Ho Ht Hin Hbs Hp (Hl & Hout & Hpa). split; [|split].
  - rewrite Hl. apply length_splice; lia.
  - intros i Hi. rewrite Hout by (intros; apply Hi; set_solver).
    rewrite lookup_splice by lia. rewrite decide_False; [done|].
    rewrite Hbs. apply (Hi r). set_solver.
  - intros l1 r' l2 t' Heq Ht' Hdis. destruct l1 as [|r1 l1]; cbn in Heq; simplify_eq; [|by eapply Hpa].
    eapply patched_ext; [|done|exact Hp]. intros i Hi. symmetry. apply Hout.
    intros r Hr Hsr. rewrite Forall_forall in Hdis. specialize (Hdis r Hr).
    unfold disjoint_sites, site in *. lia.
Qed.

Lemma apply_all base symbols rs : ∀ text,
  Zlen text < 2 ^ 63 → Forall (λ r, 0 ≤ rl_offset r ∧ base + rl_offset r < 2 ^ 64) rs →
  (Forall (resolvable (Zlen text) base symbols) rs ∧
   ∃ text', foldM (apply_reloc base symbols) text rs = Ok text' ∧ image text base symbols rs text') ∨
  (¬ Forall (resolvable (Zlen text) base symbols) rs ∧
   ∃ why, foldM (apply_reloc base symbols) text rs = Err (Link why)).
Proof.
  induction rs as [|r rs IH]; intros text Hl Hrs.
  { left. split; [constructor|]. exists text. split; [done|]. split; [done|]. split; [done|].
    intros [|? ?]; done. }
  apply Forall_cons in Hrs as [[Ho Hb] Hrs]. cbn [foldM].
  destruct (symbols !! rl_symbol r) as [t|] eqn:Ht.
  - assert (apply_reloc base symbols text r = apply_one text base r t) as ->
      by (unfold apply_reloc; by rewrite Ht).
    destruct (apply_one_spec text base r t Ho Hl Hb) as [(Ha & bs & Hbs & -> & Hp)|(Ha & why & ->)].
    + cbn [mbind res_bind]. assert (length (splice text (rl_offset r) bs) = length text) as Hls
        by (apply length_splice; [lia|]; rewrite Hbs; apply Ha).
      destruct (IH (splice text (rl_offset r) bs)) as [[Hf (text' & -> & Him)]|[Hf (why & ->)]];
        [by rewrite Hls|done|left|right]; rewrite Hls in Hf.
      * split; [constructor; [by exists t|done]|]. exists text'. split; [done|].
        eapply image_cons; try done. apply Ha.
      * split; [|by eexists]. by intros [_ ?]%Forall_cons.
    + right. split; [|by eexists]. intros [(t' & Ht' & Ha') _]%Forall_cons. naive_solver.
  - right. split; [intros [(t' & Ht' & _) _]%Forall_cons; naive_solver|].
    unfold apply_reloc at 2. rewrite Ht. by eexists.
Qed.

(** ** The symbol table *)
Definition fits_at (base : Z) (s : SymDef) : Prop := base + sd_offset s < 2 ^ 64.

Lemma sym_addr_Ok base s : fits_at base s → sym_addr base s = Ok (base + sd_offset s).
Proof. unfold fits_at, sym_addr. intros. by destruct (Z.leb_spec (2 ^ 64) (base + sd_offset s)); [lia|]. Qed.

Lemma defined_at_cons base s syms name :
  defined_at base (s :: syms) name =
  if decide (sd_name s = name) then Some (base + sd_offset s) else defined_at base syms name.
Proof.
  unfold defined_at. cbn [list_find]. destruct (decide (sd_name s = name)); [done|].
  by destruct (list_find _ syms) as [[]|].
Qed.

Lemma defined_at_None base syms name :
  defined_at base syms name = None ↔ name ∉ sd_name <$> syms.
Proof.
  induction syms as [|s syms IH]; [cbn; set_solver|]. rewrite defined_at_cons, fmap_cons.
  destruct (decide (sd_name s = name)); set_solver.
Qed.

(** [m] extended by a list of definitions that never override. *)
Definition extends (m : gmap bytes Z) (look : bytes → option Z) (m' : gmap bytes Z) : Prop :=
  ∀ name, m' !! name = match m !! name with Some a => Some a | None => look name end.

Lemma extends_insert m s base syms m' :
  m !! sd_name s = None → extends (<[sd_name s := base + sd_offset s]> m) (defined_at base syms) m' →
  extends m (defined_at base (s :: syms)) m'.
Proof.
  intros Hn Hm' name. rewrite Hm', defined_at_cons. destruct (decide (sd_name s = name)) as [<-|Hne].
  - by rewrite lookup_insert_eq, Hn.
  - by rewrite lookup_insert_ne.
Qed.

Lemma add_owns base syms : ∀ m, Forall (fits_at base) syms →
  (NoDup (sd_name <$> syms) ∧ (∀ n, n ∈ sd_name <$> syms → m !! n = None) ∧
   ∃ m', foldM (add_own base) m syms = Ok m' ∧ extends m (defined_at base syms) m') ∨
  (¬ (NoDup (sd_name <$> syms) ∧ (∀ n, n ∈ sd_name <$> syms → m !! n = None)) ∧
   ∃ why, foldM (add_own base) m syms = Err (Link why)).
Proof.
  induction syms as [|s syms IH]; intros m Hf.
  { left. split; [constructor|]. split; [set_solver|]. exists m. split; [done|].
    intros n. by destruct (m !! n). }
  apply Forall_cons in Hf as [Hs Hf]. rewrite fmap_cons, NoDup_cons. cbn [foldM].
  destruct (m !! sd_name s) as [a|] eqn:Hm.
  - assert (add_own base m s = Err (link_error "duplicate symbol {}")) as ->
      by (unfold add_own; rewrite sym_addr_Ok by done; cbn; by rewrite Hm).
    right. split; [|by eexists]. intros [_ Hn]. specialize (Hn (sd_name s)). set_solver.
  - assert (add_own base m s = Ok (<[sd_name s := base + sd_offset s]> m)) as ->
      by (unfold add_own; rewrite sym_addr_Ok by done; cbn; by rewrite Hm).
    cbn [mbind res_bind]. destruct (IH (<[sd_name s := base + sd_offset s]> m) Hf)
      as [(Hnd & Hn & m' & -> & He)|(Hn & why & ->)].
    + left. assert (sd_name s ∉ sd_name <$> syms) as Hni
        by (intros Hin%Hn; by rewrite lookup_insert_eq in Hin).
      split_and!; [done..| |exists m'; split; [done|by apply extends_insert]].
      intros n [->|Hin]%elem_of_cons; [done|]. specialize (Hn n Hin).
      by rewrite lookup_insert_None in Hn; destruct Hn.
    + right. split; [|by eexists]. intros [[Hni Hnd] Hall]. apply Hn. split; [done|].
      intros n Hin. rewrite lookup_insert_ne by set_solver. apply Hall. set_solver.
Qed.

Lemma add_provideds base syms : ∀ m, Forall (fits_at base) syms →
  ∃ m', foldM (add_provided base) m syms = Ok m' ∧ extends m (defined_at base syms) m'.
Proof.
  induction syms as [|s syms IH]; intros m Hf.
  { exists m. split; [done|]. intros n. by destruct (m !! n). }
  apply Forall_cons in Hf as [Hs Hf]. cbn [foldM]. destruct (m !! sd_name s) as [a|] eqn:Hm.
  - assert (add_provided base m s = Ok m) as -> by (unfold add_provided; by rewrite Hm).
    cbn [mbind res_bind]. destruct (IH m Hf) as (m' & -> & He). exists m'. split; [done|]. intros n.
    rewrite He, defined_at_cons. destruct (m !! n) eqn:Hn; [done|].
    by destruct (decide (sd_name s = n)) as [<-|]; [congruence|].
  - assert (add_provided base m s = Ok (<[sd_name s := base + sd_offset s]> m)) as ->
      by (unfold add_provided; by rewrite Hm, sym_addr_Ok by done).
    cbn [mbind res_bind]. destruct (IH (<[sd_name s := base + sd_offset s]> m) Hf) as (m' & -> & He).
    exists m'. split; [done|]. by apply extends_insert.
Qed.

(** A cell mapped at an address: parsed, and inside the address space. *)
Record mapped (v : CellView) (base : Z) : Prop := {
  mp_view : view_wf v;
  mp_base : 0 ≤ base;
  mp_end : base + Zlen (cv_text v) < 2 ^ 64
}.

Lemma mapped_fits v base : mapped v base → Forall (fits_at base) (cv_symdefs v).
Proof.
  intros [[_ _ _ _ [[_ Hs] _ _] _] Hb He]. eapply Forall_impl; [exact Hs|].
  intros s [_ Ho Hl Hend]. unfold fits_at. lia.
Qed.

Lemma add_providers ps : ∀ m, Forall (λ p, mapped (pr_view p) (pr_base p)) ps →
  ∃ m', foldM add_provider m ps = Ok m' ∧ extends m (provided_at ps) m'.
Proof.
  induction ps as [|p ps IH]; intros m Hp.
  { exists m. split; [done|]. intros n. by destruct (m !! n). }
  apply Forall_cons in Hp as [Hm Hp]. cbn [foldM provided_at].
  destruct (add_provideds (pr_base p) (cv_symdefs (pr_view p)) m (mapped_fits _ _ Hm)) as (m1 & H1 & He1).
  destruct (IH m1 Hp) as (m' & H2 & He). exists m'. split; [unfold add_provider at 2; by rewrite H1|].
  intros n. rewrite He, He1. cbn. destruct (m !! n); [done|]. by destruct (defined_at (pr_base p) (cv_symdefs (pr_view p)) n).
Qed.

(** ** Linking *)
Lemma foldl_max_bounds l : ∀ e m, e ≤ m → Forall (λ x, x ≤ m) l → e ≤ foldl Z.max e l ≤ m.
Proof.
  induction l as [|x l IH]; intros e m He Hl; cbn; [lia|]. apply Forall_cons in Hl as [Hx Hl].
  specialize (IH (Z.max e x) m ltac:(lia) Hl). lia.
Qed.

Lemma code_len_bounds v : view_wf v → ∃ n, code_len v = Ok n ∧ 0 ≤ n ≤ Zlen (cv_text v).
Proof.
  intros [_ _ _ [Ht _] [[_ Hs] _ _] _]. unfold code_len.
  assert (mapM_res sym_end (cv_symdefs v) = Ok ((λ s, sd_offset s + sd_len s) <$> cv_symdefs v)) as ->.
  { apply mapM_res_Ok. apply Forall2_fmap_r, Forall_Forall2_diag. eapply Forall_impl; [exact Hs|].
    intros s [_ Ho Hl He]. unfold sym_end.
    by destruct (Z.leb_spec (2 ^ 64) (sd_offset s + sd_len s)); [lia|]. }
  cbn [mbind res_bind]. destruct (cv_symdefs v) as [|s syms]; cbn; [eexists; split; [done|lia]|].
  apply Forall_cons in Hs as [[_ Ho Hl He] Hs]. eexists. split; [done|].
  pose proof (foldl_max_bounds ((λ s, sd_offset s + sd_len s) <$> syms) (sd_offset s + sd_len s) (Zlen (cv_text v)))
    as Hb.
  enough (sd_offset s + sd_len s ≤ foldl Z.max (sd_offset s + sd_len s)
            ((λ s, sd_offset s + sd_len s) <$> syms) ≤ Zlen (cv_text v)) by lia.
  apply Hb; [done|]. apply Forall_fmap. eapply Forall_impl; [exact Hs|]. by intros s' [].
Qed.

Definition known_kind (k : bytes) : bool :=
  bool_decide (k = str "Abs8") || bool_decide (k = str "Abs4") || pcrel_kind k.

Lemma check_kinds rs :
  (Forall (λ r, known_kind (rl_kind r) = true) rs ∧
   ∃ l, mapM_res (λ r, check_kind (rl_kind r)) rs = Ok l) ∨
  (¬ Forall (λ r, known_kind (rl_kind r) = true) rs ∧
   ∃ why, mapM_res (λ r, check_kind (rl_kind r)) rs = Err (Link why)).
Proof.
  induction rs as [|r rs IH]; [left; split; [constructor|by eexists]|]. cbn [mapM_res].
  assert (known_kind (rl_kind r) = true ∧ check_kind (rl_kind r) = Ok () ∨
          known_kind (rl_kind r) = false ∧ ∃ why, check_kind (rl_kind r) = Err (Link why))
    as [[Hk ->]|[Hk [why ->]]].
  { unfold check_kind, known_kind. destruct (_ || _); [by left|]. right. split; [done|].
    destruct (got_kind _); by eexists. }
  - cbn [mbind res_bind]. destruct IH as [[Hf [l ->]]|[Hf [why ->]]]; [left|right]; cbn [mbind res_bind].
    + split; [by constructor|by eexists].
    + split; [|by eexists]. by intros [_ ?]%Forall_cons.
  - right. split; [|by eexists]. intros [? _]%Forall_cons. congruence.
Qed.

Lemma resolvable_kind n base symbols r : resolvable n base symbols r → known_kind (rl_kind r) = true.
Proof.
  intros (t & _ & _ & [-> | [[-> _]|[Hp _]]]); unfold known_kind;
    rewrite ?orb_true_iff, ?bool_decide_eq_true; auto.
Qed.

(** The condition on the inputs under which a cell links. *)
Definition linkable (owner : CellView) (base : Z) (ps : list Provider) (n : Z) : Prop :=
  NoDup (sd_name <$> cv_symdefs owner) ∧
  ∀ r, r ∈ cv_relocs owner →
    ∃ t, resolve_symbol owner base ps (rl_symbol r) = Some t ∧ applicable n base r t.

Lemma link_cases owner base ps n :
  mapped owner base → Forall (λ p, mapped (pr_view p) (pr_base p)) ps → code_len owner = Ok n →
  (linkable owner base ps n ∧ ∃ img, link owner base ps = Ok img ∧
     (∀ name, li_symbols img !! name = resolve_symbol owner base ps name) ∧
     image ((cv_text owner).[0 : n]) base (li_symbols img) (cv_relocs owner) (li_text img)) ∨
  (¬ linkable owner base ps n ∧ ∃ why, link owner base ps = Err (Link why)).
Proof.
  intros Hm Hps Hn. pose proof (mp_view _ _ Hm) as Hv. pose proof (mp_end _ _ Hm) as He.
  destruct (code_len_bounds owner Hv) as (n' & Hn' & Hb). assert (n' = n) as -> by congruence.
  unfold link. rewrite Hn. cbn [mbind res_bind].
  destruct (Z.ltb_spec (Zlen (cv_text owner)) n); [lia|]. rewrite slice_p_Ok by lia. cbn [mbind res_bind].
  set (text := _.[_ : _]). assert (Zlen text = n) as Hl by (unfold text; rewrite length_slice; lia).
  assert (Forall (λ r, 0 ≤ rl_offset r ∧ base + rl_offset r < 2 ^ 64) (cv_relocs owner)) as Hoff.
  { destruct Hv as [_ _ _ _ [_ _ [_ Hr]] _]. eapply Forall_impl; [exact Hr|]. intros r [? _ _ _]. lia. }
  destruct (tw_pos _ (vw_text _ Hv)) as [_ Hmax].
  assert (∀ symbols, (∀ name, symbols !! name = resolve_symbol owner base ps name) →
    Forall (resolvable n base symbols) (cv_relocs owner) ↔
    ∀ r, r ∈ cv_relocs owner → ∃ t, resolve_symbol owner base ps (rl_symbol r) = Some t ∧ applicable n base r t) as Hres.
  { intros symbols Hsy. rewrite Forall_forall. unfold resolvable. by setoid_rewrite Hsy. }
  destruct (add_owns base (cv_symdefs owner) ∅ (mapped_fits _ _ Hm)) as [(Hnd & _ & m1 & H1 & He1)|(Hnd & why & H1)].
  - destruct (add_providers ps m1 Hps) as (m2 & H2 & He2).
    assert (∀ name, m2 !! name = resolve_symbol owner base ps name) as Hsy.
    { intros name. rewrite He2, He1, lookup_empty. done. }
    destruct (apply_all base m2 (cv_relocs owner) text ltac:(lia) Hoff) as [[Hf (text' & H3 & Him)]|[Hf (why & H3)]];
      rewrite Hl, (Hres m2 Hsy) in Hf.
    + left. split; [done|]. apply (Hres m2 Hsy) in Hf.
      destruct (check_kinds (cv_relocs owner)) as [[_ [l ->]]|[Hk _]];
        [|destruct Hk; eapply Forall_impl; [exact Hf|]; apply resolvable_kind].
      cbn [mbind res_bind]. rewrite H1. cbn [mbind res_bind]. rewrite H2. cbn [mbind res_bind]. rewrite H3.
      eexists. split; [done|]. done.
    + right. split; [by intros [_ ?]|].
      destruct (check_kinds (cv_relocs owner)) as [[_ [l ->]]|[_ [w ->]]]; [|by eexists].
      cbn [mbind res_bind]. rewrite H1. cbn [mbind res_bind]. rewrite H2. cbn [mbind res_bind]. rewrite H3.
      by eexists.
  - right. split; [intros [? _]; apply Hnd; split; [done|]; intros; apply lookup_empty|].
    destruct (check_kinds (cv_relocs owner)) as [[_ [l ->]]|[_ [w ->]]]; [|by eexists].
    cbn [mbind res_bind]. rewrite H1. by eexists.
Qed.

(** Linking is total and exact. For cells inside the address space,
    [link] never panics: it succeeds precisely when the owner's symbols are
    distinct and every relocation names a symbol that the owner or some
    provider defines, has a supported kind, lies inside the code and reaches
    its target; anything else is a [Link] error, never a silent zero. *)
Theorem link_exact owner base ps n :
  mapped owner base → Forall (λ p, mapped (pr_view p) (pr_base p)) ps → code_len owner = Ok n →
  ((∃ img, link owner base ps = Ok img) ↔
     NoDup (sd_name <$> cv_symdefs owner) ∧
     ∀ r, r ∈ cv_relocs owner →
       ∃ t, resolve_symbol owner base ps (rl_symbol r) = Some t ∧ applicable n base r t) ∧
  ((∃ img, link owner base ps = Ok img) ∨ ∃ why, link owner base ps = Err (Link why)).
Proof.
  intros Hm Hps Hn. destruct (link_cases owner base ps n Hm Hps Hn) as [(Hl & img & -> & _)|(Hl & why & ->)].
  - split; [split; [intros _; exact Hl|eauto]|eauto].
  - split; [|eauto]. split; [intros [? ?]; done|]. intros Hl'. by destruct Hl.
Qed.

(** A linked image is the code with its sites patched. It has the
    length of the code; its symbol table is the two-level lookup (own
    definitions shadow the providers'); every byte outside the relocation
    sites is the cell's; and a site no later relocation overlaps holds the
    value that reaches the symbol: the absolute address, or the displacement
    from the end of the site. *)
Theorem link_patches owner base ps n img :
  mapped owner base → Forall (λ p, mapped (pr_view p) (pr_base p)) ps → code_len owner = Ok n →
  link owner base ps = Ok img →
  Zlen (li_text img) = n ∧
  (∀ name, li_symbols img !! name = resolve_symbol owner base ps name) ∧
  (∀ i, Z.of_nat i < n → (∀ r, r ∈ cv_relocs owner → ¬ site r i) → li_text img !! i = cv_text owner !! i) ∧
  (∀ l1 r l2, cv_relocs owner = l1 ++ r :: l2 → Forall (disjoint_sites r) l2 →
     ∃ t, resolve_symbol owner base ps (rl_symbol r) = Some t ∧ patched (li_text img) base r t).
Proof.
  intros Hm Hps Hn Hlink. destruct (code_len_bounds owner (mp_view _ _ Hm)) as (n' & Hn' & Hb). assert (n' = n) as -> by congruence.
  destruct (link_cases owner base ps n Hm Hps Hn) as [([_ Hl] & img' & Heq & Hsy & Hi)|(_ & why & Heq)];
    rewrite Heq in Hlink; simplify_eq. destruct Hi as (Hlen & Hout & Hpa).
  split; [rewrite Hlen, length_slice; lia|]. split; [done|]. split.
  - intros i Hi Hs. rewrite Hout by done. rewrite lookup_slice by lia. done.
  - intros l1 r l2 Hrs Hdis. destruct (Hl r) as (t & Ht & _); [rewrite Hrs; set_solver|].
    exists t. split; [done|]. eapply Hpa; [done|by rewrite Hsy|done].
Qed.

End linker.
Section witnesses.
#[local] Existing Instance toy_json.
#[local] Existing Instance toy_ed25519.
#[local] Existing Instance toy_ed25519_laws.

(** [run] calls [dep], which another cell defines. *)
Definition dep_doc : AvceDoc := {|
  doc_arch := str "x86_64";
  doc_functions := [ {| fn_name := str "dep"; fn_body := [Byte.xc3]; fn_relocs := [] |} ];
  doc_imports := [] |}.
Definition dep_spec : BuildCell := {|
  bc_drv_hash := replicate 32 Byte.x09; bc_capability_table := ();
  bc_avce := dep_doc; bc_signing_seed := replicate 32 Byte.x07 |}.

Definition owner_view : CellView := laid_view demo_spec ARCH_X86_64 (str "[]").
Definition dep_view : CellView := laid_view dep_spec ARCH_X86_64 (str "[]").
Definition demo_providers : list Provider := [ {| pr_view := dep_view; pr_base := 0x20000 |} ].
Definition demo_reloc : AvceReloc :=
  {| rl_offset := 1; rl_addend := -4; rl_kind := str "X86CallPCRel4"; rl_symbol := str "dep" |}.

Lemma owner_mapped : mapped owner_view 0x10000.
Proof.
  split; [|done|vm_compute; reflexivity].
  apply (laid_view_of demo_spec ARCH_X86_64 (str "[]"));
    [exact demo_doc_wf|exact demo_doc_fits|done|done|vm_compute; congruence|done].
Qed.

Lemma dep_doc_wf : doc_wf dep_doc.
Proof. repeat (constructor || split); vm_compute; congruence. Qed.
Lemma dep_doc_fits : doc_fits dep_doc.
Proof. split; vm_compute; congruence. Qed.

Lemma providers_mapped : Forall (λ p, mapped (pr_view p) (pr_base p)) demo_providers.
Proof.
  constructor; [|constructor]. split; [|done|vm_compute; reflexivity].
  apply (laid_view_of dep_spec ARCH_X86_64 (str "[]"));
    [exact dep_doc_wf|exact dep_doc_fits|done|done|vm_compute; congruence|done].
Qed.

Lemma link_exact_witness : ∃ img, link owner_view 0x10000 demo_providers = Ok img.
Proof.
  destruct (link_exact owner_view 0x10000 demo_providers 6 owner_mapped providers_mapped) as [[_ Hok] _];
    [vm_compute; reflexivity|].
  apply Hok. split; [apply NoDup_singleton|].
  intros r Hr. change (cv_relocs owner_view) with [demo_reloc] in Hr.
  apply list_elem_of_singleton in Hr as ->.
  exists 0x20000. split; [vm_compute; reflexivity|].
  split; [vm_compute; congruence|]. right. right. vm_compute. intuition congruence.
Defined.

Lemma link_patches_witness :
  ∃ img, link owner_view 0x10000 demo_providers = Ok img ∧ patched (li_text img) 0x10000 demo_reloc 0x20000.
Proof.
  assert (match link owner_view 0x10000 demo_providers with Ok _ => true | _ => false end = true) as Hk
    by (vm_compute; reflexivity).
  destruct (link owner_view 0x10000 demo_providers) as [img|e|] eqn:Hl; [|discriminate Hk..].
  exists img. split; [reflexivity|].
  destruct (link_patches owner_view 0x10000 demo_providers 6 img owner_mapped providers_mapped)
    as (_ & _ & _ & Hp); [vm_compute; reflexivity|exact Hl|].
  destruct (Hp [] demo_reloc []) as (t & Ht & Hpt); [reflexivity|constructor|].
  assert (t = 0x20000) as -> by (vm_compute in Ht; congruence). exact Hpt.
Defined.
End witnesses.

End Linker.
