(* ===== verification/VmConfig.v ===== *)
(** * Driver-domain configurations ([avm-vmm/src/config.rs])

    The [vm.create] payload, the Hermit descriptor, and their validation.
    [#[derive(Serialize)]] is the translation of a record to a JSON tree (an
    absent optional field is skipped); printing the tree is [serde_json]'s.
    The address checks are proved to accept exactly the dotted-quad and
    colon-separated grammars. *)

From S2P Require Import Prelude Text.

Module VmConfig.

(** ** JSON trees and their text ([serde_json::to_string]) *)
Inductive json :=
| JNum (n : Z)
| JStr (s : bytes)
| JArr (l : list json)
| JObj (fields : list (bytes * json)).
Class JsonText := json_text : json → bytes.

(** ** Data *)
Record Cpus := { boot_vcpus : Z; max_vcpus : Z }.
Record Payload := { pl_kernel : bytes; pl_cmdline : bytes }.
Record VDisk := { dk_path : bytes }.
Record Rng := { rg_src : bytes }.
Record Net := { nt_ip : bytes; nt_mask : bytes; nt_mac : bytes }.
Record ConsoleSink := { sk_mode : bytes; sk_file : option bytes }.

Record VmConfig := {
  vc_cpus : Cpus;
  vc_payload : Payload;
  vc_disks : list VDisk;
  vc_rng : Rng;
  vc_net : list Net;
  vc_serial : option ConsoleSink
}.

Inductive DriverDomainProfile := LinuxMicroVm | HermitUnikernel.

Definition default_vcpus (p : DriverDomainProfile) : Z :=
  match p with LinuxMicroVm => 2 | HermitUnikernel => 1 end.
Definition default_memory_mib (p : DriverDomainProfile) : option Z :=
  match p with LinuxMicroVm => None | HermitUnikernel => Some 64 end.

Record HermitConfig := {
  hc_cpus : Cpus;
  hc_memory_mib : Z;
  hc_image : bytes;
  hc_net : list Net
}.

Inductive ConfigError :=
| MaxVcpusBelowBoot
| ZeroVcpus
| EmptyKernel
| EmptyCmdline
| EmptyImage
| BadMac (s : bytes)
| BadIp (what s : bytes).

(** ** Address checks *)
Definition is_ascii_hexdigit (b : byte) : bool :=
  byte_in 48 57 b || byte_in 65 70 b || byte_in 97 102 b.
Definition is_ascii_digit (b : byte) : bool := byte_in 48 57 b.

Definition COLON : byte := Byte.x3a.
Definition DOT : byte := Byte.x2e.

Definition valid_mac (s : bytes) : bool :=
  let parts := split COLON s in
  (Zlen parts =? 6) && forallb (λ p, (Zlen p =? 2) && forallb is_ascii_hexdigit p) parts.

(** One iteration of the loop: [false] is the early return. *)
Definition valid_octet (p : bytes) : bool :=
  if (Zlen p =? 0) || (3 <? Zlen p) || negb (forallb is_ascii_digit p) then false
  else match parse_uint (2 ^ 16) p with
       | Some v => v <=? 255
       | None => false
       end.

Definition valid_ipv4 (s : bytes) : option bool :=
  let parts := split DOT s in
  if negb (Zlen parts =? 4) then Some false else Some (forallb valid_octet parts).

(** ** Validation *)

(** The loop over the interfaces. *)
Definition check_net (n : Net) : res ConfigError () :=
  if negb (valid_mac (nt_mac n)) then Err (BadMac (nt_mac n))
  else if negb (bool_decide (valid_ipv4 (nt_ip n) = Some true)) ||
          negb (bool_decide (valid_ipv4 (nt_mask n) = Some true))
  then Err (BadIp (str "ip/mask") (nt_ip n ++ str "/" ++ nt_mask n))
  else Ok ().

Definition validate (c : VmConfig) : res ConfigError () :=
  if max_vcpus (vc_cpus c) <? boot_vcpus (vc_cpus c) then Err MaxVcpusBelowBoot
  else if Zlen (pl_kernel (vc_payload c)) =? 0 then Err EmptyKernel
  else if Zlen (pl_cmdline (vc_payload c)) =? 0 then Err EmptyCmdline
  else _ ← mapM_res check_net (vc_net c); Ok ().

Definition hermit_validate (c : HermitConfig) : res ConfigError () :=
  if max_vcpus (hc_cpus c) <? boot_vcpus (hc_cpus c) then Err MaxVcpusBelowBoot
  else if boot_vcpus (hc_cpus c) =? 0 then Err ZeroVcpus
  else if Zlen (hc_image c) =? 0 then Err EmptyImage
  else _ ← mapM_res check_net (hc_net c); Ok ().

(** ** Builders *)
Definition driver_domain (kernel cmdline : bytes) : VmConfig := {|
  vc_cpus := {| boot_vcpus := default_vcpus LinuxMicroVm; max_vcpus := default_vcpus LinuxMicroVm |};
  vc_payload := {| pl_kernel := kernel; pl_cmdline := cmdline |};
  vc_disks := []; vc_rng := {| rg_src := str "/dev/urandom" |}; vc_net := []; vc_serial := None |}.

Definition with_serial_file (c : VmConfig) (path : bytes) : VmConfig := {|
  vc_cpus := vc_cpus c; vc_payload := vc_payload c; vc_disks := vc_disks c; vc_rng := vc_rng c;
  vc_net := vc_net c; vc_serial := Some {| sk_mode := str "File"; sk_file := Some path |} |}.

Definition with_disk (c : VmConfig) (path : bytes) : VmConfig := {|
  vc_cpus := vc_cpus c; vc_payload := vc_payload c; vc_disks := vc_disks c ++ [ {| dk_path := path |} ];
  vc_rng := vc_rng c; vc_net := vc_net c; vc_serial := vc_serial c |}.

Definition with_net (c : VmConfig) (ip mask mac : bytes) : VmConfig := {|
  vc_cpus := vc_cpus c; vc_payload := vc_payload c; vc_disks := vc_disks c; vc_rng := vc_rng c;
  vc_net := vc_net c ++ [ {| nt_ip := ip; nt_mask := mask; nt_mac := mac |} ]; vc_serial := vc_serial c |}.

(** [default_memory_mib().expect(_)] *)
Definition hermit_new (image : bytes) : res ConfigError HermitConfig :=
  match default_memory_mib HermitUnikernel with
  | Some mib => Ok {|
      hc_cpus := {| boot_vcpus := default_vcpus HermitUnikernel; max_vcpus := default_vcpus HermitUnikernel |};
      hc_memory_mib := mib; hc_image := image; hc_net := [] |}
  | None => Panic
  end.

Definition hermit_with_net (c : HermitConfig) (ip mask mac : bytes) : HermitConfig := {|
  hc_cpus := hc_cpus c; hc_memory_mib := hc_memory_mib c; hc_image := hc_image c;
  hc_net := hc_net c ++ [ {| nt_ip := ip; nt_mask := mask; nt_mac := mac |} ] |}.

(** ** Serialization *)
Definition cpus_json (c : Cpus) : json :=
  JObj [(str "boot_vcpus", JNum (boot_vcpus c)); (str "max_vcpus", JNum (max_vcpus c))].
Definition net_json (n : Net) : json :=
  JObj [(str "ip", JStr (nt_ip n)); (str "mask", JStr (nt_mask n)); (str "mac", JStr (nt_mac n))].
Definition sink_json (k : ConsoleSink) : json :=
  JObj ((str "mode", JStr (sk_mode k)) ::
        match sk_file k with Some f => [(str "file", JStr f)] | None => [] end).

(** [skip_serializing_if = "Vec::is_empty"] *)
Definition opt_list (key : bytes) (l : list json) : list (bytes * json) :=
  match l with [] => [] | _ => [(key, JArr l)] end.

Definition config_json (c : VmConfig) : json :=
  JObj ([(str "cpus", cpus_json (vc_cpus c));
         (str "payload", JObj [(str "kernel", JStr (pl_kernel (vc_payload c)));
                               (str "cmdline", JStr (pl_cmdline (vc_payload c)))])] ++
        opt_list (str "disks") ((λ d, JObj [(str "path", JStr (dk_path d))]) <$> vc_disks c) ++
        [(str "rng", JObj [(str "src", JStr (rg_src (vc_rng c)))])] ++
        opt_list (str "net") (net_json <$> vc_net c) ++
        match vc_serial c with Some k => [(str "serial", sink_json k)] | None => [] end).

Definition hermit_json (c : HermitConfig) : json :=
  JObj ([(str "cpus", cpus_json (hc_cpus c)); (str "memory_mib", JNum (hc_memory_mib c));
         (str "image", JStr (hc_image c))] ++ opt_list (str "net") (net_json <$> hc_net c)).

Definition to_json `{JsonText} (c : VmConfig) : bytes := json_text (config_json c).
Definition hermit_to_json `{JsonText} (c : HermitConfig) : bytes := json_text (hermit_json c).

(** ** The grammars *)
Definition hex_pair (p : bytes) : Prop := length p = 2%nat ∧ Forall (λ b, is_ascii_hexdigit b = true) p.
Definition mac_text (s : bytes) : Prop :=
  ∃ gs, length gs = 6%nat ∧ Forall hex_pair gs ∧ s = join COLON gs.

(** One to three digits, at most 255. *)
Definition octet_text (p : bytes) : Prop :=
  (1 ≤ length p ≤ 3)%nat ∧ Forall is_digit p ∧ ∃ v, parse_digits (2 ^ 16) p 0 = Some v ∧ v ≤ 255.
Definition ipv4_text (s : bytes) : Prop :=
  ∃ os, length os = 4%nat ∧ Forall octet_text os ∧ s = join DOT os.

Definition net_ok (n : Net) : Prop :=
  mac_text (nt_mac n) ∧ ipv4_text (nt_ip n) ∧ ipv4_text (nt_mask n).

(** A split of fixed arity whose parts satisfy a predicate without the
    separator is a join of such parts. *)
Lemma split_grammar sep n (P : bytes → Prop) s :
  (0 < n)%nat → (∀ p, P p → sep ∉ p) →
  (length (split sep s) = n ∧ Forall P (split sep s)) ↔
  (∃ ps, length ps = n ∧ Forall P ps ∧ s = join sep ps).
Proof.
  intros Hn Hsep. split.
  - intros [Hl HP]. exists (split sep s). by rewrite join_split.
  - intros (ps & Hl & HP & ->). rewrite split_join; [done|by destruct ps; [cbn in Hl; lia|]|].
    eapply Forall_impl; [exact HP|exact Hsep].
Qed.

Lemma hex_pair_colon p : hex_pair p → COLON ∉ p.
Proof. intros [_ Hp] Hin. by eapply Forall_forall in Hp; [|exact Hin]. Qed.

Lemma octet_dot p : octet_text p → DOT ∉ p.
Proof. intros (_ & Hp & _) Hin. eapply Forall_forall in Hp; [|exact Hin]. unfold is_digit in Hp. cbn in Hp. lia. Qed.

Lemma valid_mac_text s : valid_mac s = true ↔ mac_text s.
Proof.
  unfold mac_text. rewrite <-(split_grammar COLON 6 hex_pair) by (lia || apply hex_pair_colon).
  unfold valid_mac. rewrite andb_true_iff, Z.eqb_eq, forallb_Forall.
  assert (∀ p, (Zlen p =? 2) && forallb is_ascii_hexdigit p = true ↔ hex_pair p) as Hp.
  { intros p. unfold hex_pair. rewrite andb_true_iff, Z.eqb_eq, forallb_Forall.
    split; intros [? ?]; split; done || lia. }
  rewrite (Forall_iff _ _ _ Hp). split; intros [? ?]; split; done || lia.
Qed.

Lemma parse_uint_digits bound p : Forall is_digit p → p ≠ [] → parse_uint bound p = parse_digits bound p 0.
Proof.
  intros Hd Hne. unfold parse_uint. destruct p as [|b p]; [done|]. apply Forall_cons in Hd as [Hb _].
  unfold is_digit in Hb. by destruct (Z.eqb_spec (b2z b) 43); [lia|].
Qed.

Lemma valid_octet_text p : valid_octet p = true ↔ octet_text p.
Proof.
  unfold valid_octet, octet_text.
  destruct (Z.eqb_spec (Zlen p) 0); [split; [done|intros [? _]; lia]|].
  destruct (Z.ltb_spec 3 (Zlen p)); [split; [done|intros [? _]; lia]|]. cbn [orb].
  assert (forallb is_ascii_digit p = true ↔ Forall is_digit p) as Hd.
  { rewrite forallb_Forall. apply Forall_iff. intros b. apply byte_in_spec. }
  destruct (forallb is_ascii_digit p); cbn [negb].
  - assert (Forall is_digit p) as Hp by (by apply Hd).
    rewrite parse_uint_digits by (done || by intros ->).
    split.
    + destruct (parse_digits _ _ _) as [v|]; [|done]. intros Hv%Z.leb_le. split; [lia|]. eauto.
    + intros (_ & _ & v & -> & Hv). by apply Z.leb_le.
  - split; [done|]. intros (_ & Hp & _). by apply Hd in Hp.
Qed.

Lemma valid_ipv4_text s : valid_ipv4 s = Some true ↔ ipv4_text s.
Proof.
  unfold ipv4_text. rewrite <-(split_grammar DOT 4 octet_text) by (lia || apply octet_dot).
  unfold valid_ipv4. destruct (Z.eqb_spec (Zlen (split DOT s)) 4) as [Hl|Hl]; cbn [negb].
  - split.
    + intros [= Hv]. split; [lia|]. rewrite forallb_Forall in Hv. eapply Forall_impl; [exact Hv|].
      intros p. apply valid_octet_text.
    + intros [_ Hv]. f_equal. apply forallb_Forall. eapply Forall_impl; [exact Hv|].
      intros p. apply valid_octet_text.
  - split; [done|]. intros [? _]. lia.
Qed.

Lemma check_net_ok n : check_net n = Ok () ↔ net_ok n.
Proof.
  unfold check_net, net_ok. rewrite <-valid_mac_text, <-!valid_ipv4_text.
  destruct (valid_mac (nt_mac n)); cbn [negb]; [|naive_solver].
  do 2 case_bool_decide; cbn; naive_solver.
Qed.

Lemma check_nets_ok ns : (_ ← mapM_res check_net ns; Ok ()) = Ok () ↔ Forall net_ok ns.
Proof.
  rewrite bind_Ok. split.
  - intros (l & Hl%mapM_res_Ok & _). induction Hl as [|n u ns l Hn _ IH]; constructor; [|done]. destruct u. by apply check_net_ok.
  - intros Hn. exists ((λ _, ()) <$> ns). split; [|done]. apply mapM_res_Ok.
    apply Forall2_fmap_r, Forall_Forall2_diag. eapply Forall_impl; [exact Hn|]. intros n. apply check_net_ok.
Qed.

(** Validation accepts exactly the well-formed configurations. A
    [vm.create] payload validates iff its CPU range is ordered, kernel and
    command line are present, and every interface has a MAC address of six
    colon-separated hex pairs and dotted-quad IPv4 address and mask; the Hermit
    descriptor iff it also has a CPU and an image. The domains the launcher
    builds validate whenever their paths are non-empty, and adding an interface
    keeps a payload valid iff the interface is well formed. *)
Theorem config_validation_exact :
  (∀ c, validate c = Ok () ↔
     boot_vcpus (vc_cpus c) ≤ max_vcpus (vc_cpus c) ∧ pl_kernel (vc_payload c) ≠ [] ∧
     pl_cmdline (vc_payload c) ≠ [] ∧ Forall net_ok (vc_net c)) ∧
  (∀ c, hermit_validate c = Ok () ↔
     boot_vcpus (hc_cpus c) ≤ max_vcpus (hc_cpus c) ∧ boot_vcpus (hc_cpus c) ≠ 0 ∧
     hc_image c ≠ [] ∧ Forall net_ok (hc_net c)) ∧
  (∀ kernel cmdline, validate (driver_domain kernel cmdline) = Ok () ↔ kernel ≠ [] ∧ cmdline ≠ []) ∧
  (∀ c ip mask mac, validate (with_net c ip mask mac) = Ok () ↔
     validate c = Ok () ∧ mac_text mac ∧ ipv4_text ip ∧ ipv4_text mask).
Proof.
  assert (∀ b : bytes, (Zlen b =? 0) = true ↔ b = []) as Hz.
  { intros b. rewrite Z.eqb_eq. split; [intros; apply nil_length_inv; lia|by intros ->]. }
  assert (∀ c, validate c = Ok () ↔
     boot_vcpus (vc_cpus c) ≤ max_vcpus (vc_cpus c) ∧ pl_kernel (vc_payload c) ≠ [] ∧
     pl_cmdline (vc_payload c) ≠ [] ∧ Forall net_ok (vc_net c)) as Hv.
  { intros c. unfold validate. destruct (Z.ltb_spec (max_vcpus (vc_cpus c)) (boot_vcpus (vc_cpus c))); [naive_solver lia|].
    rewrite <-check_nets_ok. pose proof (Hz (pl_kernel (vc_payload c))). pose proof (Hz (pl_cmdline (vc_payload c))).
    destruct (_ =? 0); [naive_solver|]. destruct (_ =? 0); naive_solver. }
  split; [exact Hv|]. split; [|split].
  - intros c. unfold hermit_validate. destruct (Z.ltb_spec (max_vcpus (hc_cpus c)) (boot_vcpus (hc_cpus c))); [naive_solver lia|].
    rewrite <-check_nets_ok. pose proof (Hz (hc_image c)).
    destruct (Z.eqb_spec (boot_vcpus (hc_cpus c)) 0); [naive_solver|]. destruct (_ =? 0); naive_solver.
  - intros k l. rewrite Hv. cbn. split; [naive_solver|]. intros []. split_and!; done || constructor.
  - intros c ip mask mac. rewrite !Hv. cbn. rewrite Forall_app, Forall_singleton. unfold net_ok. cbn. naive_solver.
Qed.

End VmConfig.
