(* ===== verification/Launcher.v ===== *)
(** * The VMM's REST API over its socket ([avm-vmm/src/launcher.rs])

    The hand-rolled HTTP/1.1 client: the request text, the reader that stops at
    [Content-Length], the response parser, and the polling and discovery
    helpers. What the other end of the socket does is an interface
    ([VmmSocket]); a reply framed by a conforming server is proved to be read
    exactly, whatever the server sends or withholds after it. *)

From S2P Require Import Prelude Text VmConfig.
Import VmConfig.

Module Launcher.

Inductive LaunchError :=
| Io (e : bytes)
| Http (status : Z) (body : bytes)
| BadResponse (m : bytes)
| NoVmm (m : bytes).

(** What one exchange on the socket delivers: an error before any response
    byte (connect, write), or the bytes received and how the stream then ends:
    [None] at end of file, [Some e] with an I/O error such as the read
    time-out. *)
Inductive Reply :=
| NoReply (e : bytes)
| Stream (received : bytes) (fin : option bytes).

(** The socket at a path, serving one request, in a world [W] that moves on
    while the client sleeps (milliseconds). *)
Class VmmSocket (W : Type) := {
  vmm_exchange : W → bytes → bytes → W * Reply;
  vmm_sleep : W → Z → W
}.

Record Launcher := { ln_socket : bytes }.
Definition new (socket : bytes) : Launcher := {| ln_socket := socket |}.

Definition CRLF2 : bytes := CRLF ++ CRLF.

(** ** The request *)
Definition request_bytes (method path body : bytes) : bytes :=
  method ++ str " " ++ path ++ str " HTTP/1.1" ++ CRLF ++ str "Host: localhost" ++ CRLF ++
  str "Accept: application/json" ++ CRLF ++ str "Connection: close" ++ CRLF ++
  (if Zlen body =? 0 then []
   else str "Content-Type: application/json" ++ CRLF ++
        str "Content-Length: " ++ dec (Zlen body) ++ CRLF) ++
  CRLF ++ body.

(** ** The response *)

(** One byte at a time, up to the blank line or the end of the stream. *)
Fixpoint read_head (fin : option bytes) (head rest : bytes) : res LaunchError (bytes * bytes) :=
  match rest with
  | [] => match fin with None => Ok (head, []) | Some e => Err (Io e) end
  | b :: rest =>
      if ends_with CRLF2 (head ++ [b]) then Ok (head ++ [b], rest)
      else read_head fin (head ++ [b]) rest
  end.

(** [find_map] over the header lines, [unwrap_or(0)] twice. *)
Definition header_length (l : bytes) : option Z :=
  v ← strip_prefix (str "content-length: ") (to_ascii_lowercase l);
  Some (default 0 (parse_uint (2 ^ 64) (trim v))).
Fixpoint find_map {A B} (f : A → option B) (l : list A) : option B :=
  match l with
  | [] => None
  | a :: l => match f a with Some b => Some b | None => find_map f l end
  end.
Definition content_length (head : bytes) : Z := default 0 (find_map header_length (lines head)).

(** [read_exact] into a buffer of [n] bytes. *)
Definition read_exact (fin : option bytes) (rest : bytes) (n : Z) : res LaunchError bytes :=
  if Zlen rest <? n then Err (Io (default (str "failed to fill whole buffer") fin))
  else Ok rest.[0 : n].

Definition parse_response (resp : bytes) : res LaunchError bytes :=
  '(head, body) ← ok_or (split_once CRLF2 resp)
                    (BadResponse (str "response has no header/body separator"));
  let status_line := match lines head with l :: _ => l | [] => [] end in
  status ← ok_or (match split_whitespace status_line with
                  | _ :: s :: _ => parse_uint (2 ^ 16) s
                  | _ => None
                  end) (BadResponse (str "bad status line: {status_line}"));
  if (200 <=? status) && (status <? 300) then Ok body
  else Err (Http status body).

(** [vec![0u8; clen]] panics above [isize::MAX]. *)
Definition read_response (received : bytes) (fin : option bytes) : res LaunchError bytes :=
  '(head_bytes, rest) ← read_head fin [] received;
  let head := from_utf8_lossy head_bytes in
  let clen := content_length head in
  if 2 ^ 63 <=? clen then Panic
  else
  body ← read_exact fin rest clen;
  parse_response (head ++ from_utf8_lossy body).

(** ** Endpoints *)
Section endpoints.
Context {W : Type} `{VmmSocket W}.

Definition request (l : Launcher) (method path : bytes) (body : option bytes) : stm W LaunchError bytes :=
  λ w, match vmm_exchange w (ln_socket l) (request_bytes method path (default [] body)) with
       | (w, NoReply e) => (w, Err (Io e))
       | (w, Stream received fin) => (w, read_response received fin)
       end.

Definition create `{JsonText} (l : Launcher) (cfg : VmConfig) : stm W LaunchError bytes :=
  request l (str "PUT") (str "/api/v1/vm.create") (Some (to_json cfg)).
Definition boot (l : Launcher) : stm W LaunchError bytes :=
  request l (str "PUT") (str "/api/v1/vm.boot") None.
Definition info (l : Launcher) : stm W LaunchError bytes :=
  request l (str "GET") (str "/api/v1/vm.info") None.
Definition shutdown (l : Launcher) : stm W LaunchError bytes :=
  request l (str "PUT") (str "/api/v1/vm.shutdown") None.

(** The loop of [wait_ready] from iteration [i], [n] iterations left. *)
Fixpoint poll_ready (l : Launcher) (attempts i : Z) (n : nat) (last : LaunchError) : stm W LaunchError bytes :=
  match n with
  | O => stm_err last
  | S n => λ w,
      match info l w with
      | (w, Ok body) => (w, Ok body)
      | (w, Err (Http s b)) => (w, Err (Http s b))
      | (w, Err e) =>
          let w := if i + 1 <? attempts then vmm_sleep w 10 else w in
          poll_ready l attempts (i + 1) n e w
      | (w, Panic) => (w, Panic)
      end
  end.
Definition wait_ready (l : Launcher) (attempts : Z) : stm W LaunchError bytes :=
  poll_ready l attempts 0 (Z.to_nat (Z.max attempts 1)) (BadResponse (str "wait_ready: no attempts")).
End endpoints.

(** ** Discovery *)

(** [env]: the variable's value; [is_file]: the file system's answer. *)
Definition find_vmm (env : option bytes) (is_file : bytes → bool) (manifest_dir : bytes) : option bytes :=
  let candidates :=
    [ manifest_dir ++ str "/../../../../cloud-hypervisor-build/cloud-hypervisor/target/release/cloud-hypervisor";
      manifest_dir ++ str "/../../../cloud_hypervisor_vm/cloud-hypervisor/target/release/cloud-hypervisor" ] in
  let found := snd <$> list_find (λ p, is_file p = true) candidates in
  match env with
  | Some p => if is_file p then Some p else found
  | None => found
  end.

Inductive HermitRunner :=
| Uhyve (p : bytes)
| QemuLoader (qemu loader : bytes).

Definition find_hermit_runner_with (probe : bytes → option bytes) : option HermitRunner :=
  match probe (str "uhyve") with
  | Some uhyve => Some (Uhyve uhyve)
  | None =>
      match probe (str "qemu-system-x86_64"), probe (str "hermit-loader-x86_64") with
      | Some qemu, Some loader => Some (QemuLoader qemu loader)
      | _, _ => None
      end
  end.

Definition refuse_reason : bytes :=
  str "refusing to launch: no cloud-hypervisor binary found (set AVM_CLOUD_HYPERVISOR, or build the pinned tree with `australVM/cloud_hypervisor_vm/setup.sh`, which fetches cloud-hypervisor 9a24680a + the SpectrumOS patches; see docs/spectrum_plan.md §6 for the hardware-gated rows)".

(** ** A conforming reply: status line, headers, length, body *)
Definition crlf_lines (ls : list bytes) : bytes := concat ((λ l, l ++ CRLF) <$> ls).

Definition status_line (status : Z) (reason : bytes) : bytes :=
  str "HTTP/1.1 " ++ dec_fixed 3 status ++ str " " ++ reason.
Definition length_line (body : bytes) : bytes := str "Content-Length: " ++ dec (Zlen body).

Definition reply_lines (status : Z) (reason : bytes) (headers : list bytes) (body : bytes) : list bytes :=
  status_line status reason :: headers ++ [length_line body].

Definition http_reply (status : Z) (reason : bytes) (headers : list bytes) (body : bytes) : bytes :=
  crlf_lines (reply_lines status reason headers body) ++ CRLF ++ body.

(** Header text: ASCII, no line break. *)
Definition text_byte (b : byte) : Prop := b2z b < 128 ∧ b ≠ CR ∧ b ≠ LF.
Definition header_text (l : bytes) : Prop := l ≠ [] ∧ Forall text_byte l.
(** A header other than the length. *)
Definition other_header (l : bytes) : Prop :=
  header_text l ∧ strip_prefix (str "content-length: ") (to_ascii_lowercase l) = None.

Definition text_check (b : byte) : bool :=
  (b2z b <? 128) && negb (bool_decide (b = CR)) && negb (bool_decide (b = LF)).

Lemma text_check_ok l : forallb text_check l = true → Forall text_byte l.
Proof.
  rewrite forallb_Forall. intros Hl. eapply Forall_impl; [exact Hl|].
  intros b. unfold text_check, text_byte. rewrite !andb_true_iff, Z.ltb_lt, !negb_true_iff, !bool_decide_eq_false. tauto.
Qed.

Lemma text_no_lf l : Forall text_byte l → (LF ∉ l) ∧ (CR ∉ l).
Proof. rewrite Forall_forall. intros Hl. split; intros Hin; by destruct (Hl _ Hin) as (_ & ? & ?). Qed.

Lemma digit_text b : is_digit b → text_byte b.
Proof.
  unfold is_digit, text_byte. intros Hb. split; [lia|]. split; intros ->; cbn in Hb; lia.
Qed.

Lemma length_line_text body : header_text (length_line body).
Proof.
  split; [done|]. unfold length_line. apply Forall_app. split.
  - by apply text_check_ok.
  - eapply Forall_impl; [apply dec_fixed_digits|exact digit_text].
Qed.

Lemma status_line_text status reason : Forall text_byte reason → header_text (status_line status reason).
Proof.
  intros Hr. split; [done|]. unfold status_line. rewrite !Forall_app. split_and!; [..|done].
  - by apply text_check_ok.
  - eapply Forall_impl; [apply dec_fixed_digits|exact digit_text].
  - by apply text_check_ok.
Qed.

(** *** Reading the head *)
Lemma ends_with_last p s b : ends_with (p ++ [b]) s = true → last s = Some b.
Proof. intros [t ->]%ends_with_true. by rewrite app_assoc, last_snoc. Qed.

Lemma read_head_skip fin : ∀ l head rest,
  LF ∉ l → read_head fin head (l ++ rest) = read_head fin (head ++ l) rest.
Proof.
  induction l as [|b l IH]; intros head rest Hl; cbn [app]; [by rewrite app_nil_r|]. cbn [read_head].
  destruct (ends_with CRLF2 (head ++ [b])) eqn:E.
  - apply (ends_with_last [CR; LF; CR] _ LF) in E. rewrite last_snoc in E. set_solver.
  - rewrite IH by set_solver. by rewrite <-app_assoc.
Qed.

Lemma read_head_lf fin head rest :
  read_head fin head (LF :: rest) =
  if ends_with CRLF2 (head ++ [LF]) then Ok (head ++ [LF], rest) else read_head fin (head ++ [LF]) rest.
Proof. done. Qed.

(** A non-empty line does not complete the blank line. *)
Lemma read_head_line fin l head rest :
  header_text l → read_head fin head (l ++ CRLF ++ rest) = read_head fin (head ++ l ++ CRLF) rest.
Proof.
  intros [Hne Hl]. destruct (text_no_lf l Hl) as [Hlf Hcr].
  replace (l ++ CRLF ++ rest) with ((l ++ [CR]) ++ LF :: rest) by (by rewrite <-app_assoc).
  rewrite read_head_skip, read_head_lf by set_solver.
  replace ((head ++ l ++ [CR]) ++ [LF]) with (head ++ l ++ CRLF) by (by rewrite <-!app_assoc).
  destruct (ends_with _ _) eqn:E; [|done]. apply ends_with_true in E as [t E].
  destruct l as [|b l _] using rev_ind; [done|].
  assert ((head ++ l) ++ [b; CR; LF] = (t ++ [CR]) ++ [LF; CR; LF]) as E'.
  { etrans; [|etrans; [exact E|]]; by rewrite <-!app_assoc. }
  apply app_inj_2 in E' as [_ [= ->]]; [|done]. set_solver.
Qed.

Lemma read_head_lines fin ls : ∀ head rest,
  Forall header_text ls → ends_with CRLF head = true ∨ ls ≠ [] →
  read_head fin head (crlf_lines ls ++ CRLF ++ rest) = Ok (head ++ crlf_lines ls ++ CRLF, rest).
Proof.
  induction ls as [|l ls IH]; intros head rest Hls Hh.
  - destruct Hh as [[t ->]%ends_with_true|]; [|done]. cbn [crlf_lines fmap list_fmap concat app].
    change (CRLF ++ rest) with ([CR] ++ LF :: rest).
    rewrite read_head_skip, read_head_lf by set_solver.
    assert (ends_with CRLF2 (((t ++ CRLF) ++ [CR]) ++ [LF]) = true) as ->.
    { apply ends_with_true. exists t. by rewrite <-!app_assoc. }
    by rewrite <-!app_assoc.
  - apply Forall_cons in Hls as [Hl Hls]. unfold crlf_lines. rewrite fmap_cons. cbn [concat].
    fold (crlf_lines ls). rewrite <-!app_assoc, read_head_line, IH by (try done; left; apply ends_with_true;
      exists (head ++ l); by rewrite <-app_assoc).
    by rewrite <-!app_assoc.
Qed.

(** *** Lines of the head *)
Lemma strip_cr_snoc l : strip_cr (l ++ [CR]) = l.
Proof. unfold strip_cr. by rewrite strip_suffix_app. Qed.

Lemma lines_line l rest : LF ∉ l → lines (l ++ CRLF ++ rest) = l :: lines rest.
Proof.
  intros Hl. unfold lines. replace (l ++ CRLF ++ rest) with ((l ++ [CR]) ++ LF :: rest) by (by rewrite <-app_assoc).
  rewrite split_app_sep by set_solver. pose proof (split_nonempty LF rest).
  destruct (split LF rest) as [|p ps] eqn:E; [done|]. cbn [lines_of]. by rewrite strip_cr_snoc.
Qed.

Lemma lines_head ls : Forall header_text ls → lines (crlf_lines ls ++ CRLF) = ls ++ [[]].
Proof.
  induction 1 as [|l ls [_ Hl] _ IH]; [done|]. unfold crlf_lines. rewrite fmap_cons. cbn [concat].
  fold (crlf_lines ls). rewrite <-!app_assoc, lines_line, IH by apply (text_no_lf l Hl). done.
Qed.

Lemma find_map_app {A B} (f : A → option B) l1 l2 :
  Forall (λ a, f a = None) l1 → find_map f (l1 ++ l2) = find_map f l2.
Proof. induction 1 as [|a l1 Ha _ IH]; cbn; [done|]. by rewrite Ha. Qed.

Lemma lower_digit b : is_digit b → lower b = b.
Proof. unfold is_digit, lower. intros Hb. destruct (byte_in 65 90 b) eqn:E; [|done]. apply byte_in_spec in E. lia. Qed.

Lemma header_length_line body : Zlen body < 2 ^ 63 → header_length (length_line body) = Some (Zlen body).
Proof.
  intros Hb. unfold header_length, length_line, to_ascii_lowercase.
  assert (lower <$> dec (Zlen body) = dec (Zlen body)) as Hd.
  { rewrite <-(list_fmap_id (dec (Zlen body))) at 2. apply list_fmap_ext.
    intros i b Hi. apply lower_digit.
    pose proof (dec_fixed_digits (ndigits 20 (Zlen body)) (Zlen body)) as Hf.
    by eapply Forall_lookup_1 in Hf. }
  rewrite fmap_app, Hd. change (lower <$> str "Content-Length: ") with (str "content-length: ").
  rewrite strip_prefix_app. cbn [mbind option_bind].
  rewrite trim_digits by apply dec_fixed_digits.
  by rewrite parse_uint_dec by lia.
Qed.

(** *** Splitting head from body *)
Lemma split_once_skip pat b s :
  strip_prefix pat (b :: s) = None →
  split_once pat (b :: s) = '(a, rest) ← split_once pat s; Some (b :: a, rest).
Proof. intros Hp. cbn [split_once]. by rewrite Hp. Qed.

Lemma strip_crlf2_other b s : b ≠ CR → strip_prefix CRLF2 (b :: s) = None.
Proof.
  intros Hb. destruct (strip_prefix _ _) as [t|] eqn:E; [|done]. apply strip_prefix_Some in E.
  cbn in E. congruence.
Qed.

Lemma split_once_text l : ∀ s, CR ∉ l →
  split_once CRLF2 (l ++ s) = '(a, rest) ← split_once CRLF2 s; Some (l ++ a, rest).
Proof.
  induction l as [|b l IH]; intros s Hl; cbn [app].
  - by destruct (split_once CRLF2 s) as [[a r]|].
  - rewrite split_once_skip by (apply strip_crlf2_other; set_solver). rewrite IH by set_solver.
    by destruct (split_once CRLF2 s) as [[a r]|].
Qed.

Fixpoint join_lines (ls : list bytes) : bytes :=
  match ls with
  | [] => []
  | [l] => l
  | l :: ls => l ++ CRLF ++ join_lines ls
  end.

Lemma split_once_lines ls body :
  Forall header_text ls → ls ≠ [] →
  split_once CRLF2 (crlf_lines ls ++ CRLF ++ body) = Some (join_lines ls, body).
Proof.
  intros Hls. induction Hls as [|l ls [Hne Hl] Hls IH]; intros Hls0; [done|].
  destruct (text_no_lf l Hl) as [_ Hcr].
  unfold crlf_lines. rewrite fmap_cons. cbn [concat]. fold (crlf_lines ls). rewrite <-!app_assoc.
  rewrite split_once_text by done. destruct ls as [|l2 ls].
  - cbn [crlf_lines fmap list_fmap concat app join_lines].
    change (CRLF ++ CRLF ++ body) with (CRLF2 ++ body).
    assert (split_once CRLF2 (CRLF2 ++ body) = Some ([], body)) as ->.
    { cbn [split_once app CRLF2 CRLF]. change (CR :: LF :: CR :: LF :: body) with (CRLF2 ++ body).
      by rewrite strip_prefix_app. }
    cbn. by rewrite app_nil_r.
  - set (r := crlf_lines (l2 :: ls) ++ CRLF ++ body) in *.
    assert (split_once CRLF2 (CRLF ++ r) = '(a, rest) ← split_once CRLF2 r; Some (CRLF ++ a, rest)) as ->.
    { cbn [CRLF app]. rewrite split_once_skip.
      - rewrite split_once_skip by (by apply strip_crlf2_other). by destruct (split_once CRLF2 r) as [[a q]|].
      - destruct (strip_prefix _ _) as [t|] eqn:E; [|done]. apply strip_prefix_Some in E.
        apply Forall_cons in Hls as [[Hne2 Hl2] _]. destruct l2 as [|b l2]; [done|].
        apply Forall_cons in Hl2 as [(_ & Hb & _) _]. unfold r in E. cbn in E. congruence. }
    rewrite IH by done. done.
Qed.

Lemma first_line ls l : LF ∉ l → l ≠ [] → ∃ more, lines (join_lines (l :: ls)) = l :: more.
Proof.
  intros Hl Hne. destruct ls as [|l2 ls].
  - exists []. unfold lines. cbn [join_lines]. rewrite split_no_sep by done. by destruct l.
  - exists (lines (join_lines (l2 :: ls))). by apply lines_line.
Qed.

(** *** The status line *)
Lemma status_tokens status reason :
  ∃ more, split_whitespace (status_line status reason) = str "HTTP/1.1" :: dec_fixed 3 status :: more.
Proof.
  unfold status_line, split_whitespace.
  change (str "HTTP/1.1 " ++ dec_fixed 3 status ++ str " " ++ reason)
    with (str "HTTP/1.1" ++ Byte.x20 :: dec_fixed 3 status ++ Byte.x20 :: reason).
  rewrite split_ws_token by (repeat constructor).
  rewrite split_ws_token by (eapply Forall_impl; [apply dec_fixed_digits|exact digit_not_ws]).
  pose proof (length_dec_fixed 3 status). eexists. cbn [app flush str].
  destruct (dec_fixed 3 status); [done|reflexivity].
Qed.

Lemma parse_response_lines status reason headers body :
  Forall text_byte reason → Forall header_text headers → 0 ≤ status < 1000 →
  parse_response (crlf_lines (reply_lines status reason headers body) ++ CRLF ++ body) =
  if (200 <=? status) && (status <? 300) then Ok body else Err (Http status body).
Proof.
  intros Hr Hh Hs. unfold parse_response.
  assert (Forall header_text (reply_lines status reason headers body)) as Hall.
  { constructor; [by apply status_line_text|]. apply Forall_app. split; [done|].
    constructor; [apply length_line_text|constructor]. }
  rewrite split_once_lines by done. cbn [ok_or mbind res_bind].
  apply Forall_cons in Hall as [[Hne Ht] _]. destruct (text_no_lf _ Ht) as [Hlf _].
  destruct (first_line (headers ++ [length_line body]) _ Hlf Hne) as [more Hm].
  unfold reply_lines. rewrite Hm. destruct (status_tokens status reason) as [toks ->].
  rewrite parse_uint_dec_fixed by (cbn; lia). done.
Qed.

Lemma lossy_ascii s t : Forall text_byte s → from_utf8_lossy (s ++ t) = s ++ from_utf8_lossy t.
Proof.
  induction 1 as [|b s (Hb & _ & _) _ IH]; [done|]. cbn [app from_utf8_lossy].
  assert (byte_in 0 0x7F b = true) as -> by (apply byte_in_spec; pose proof (b2z_range b); lia).
  by rewrite IH.
Qed.

Lemma lossy_head ls : Forall header_text ls → from_utf8_lossy (crlf_lines ls ++ CRLF) = crlf_lines ls ++ CRLF.
Proof.
  induction 1 as [|l ls [_ Hl] _ IH]; [reflexivity|]. unfold crlf_lines. rewrite fmap_cons. cbn [concat].
  fold (crlf_lines ls). rewrite <-!app_assoc, lossy_ascii by done.
  change (from_utf8_lossy (CRLF ++ crlf_lines ls ++ CRLF)) with (CRLF ++ from_utf8_lossy (crlf_lines ls ++ CRLF)).
  by rewrite IH.
Qed.

(** Replies are framed by their length. Whatever a server sends or
    withholds after it (a kept-alive connection, a time-out, the next
    message), a reply with a status line, other headers, a [Content-Length]
    and that many bytes is read exactly: a 2xx status yields the body, any
    other an [Http] error with that status and body, never a success. *)
Theorem http_reply_framed status reason headers body rest fin :
  0 ≤ status < 1000 → Forall text_byte reason → Forall other_header headers →
  utf8_valid body = true → Zlen body < 2 ^ 63 →
  read_response (http_reply status reason headers body ++ rest) fin =
  if (200 <=? status) && (status <? 300) then Ok body else Err (Http status body).
Proof.
  intros Hs Hr Hh Hu Hl. assert (Forall header_text headers) as Hht
    by (eapply Forall_impl; [exact Hh|]; by intros l []).
  assert (Forall header_text (reply_lines status reason headers body)) as Hall.
  { constructor; [by apply status_line_text|]. apply Forall_app. split; [done|].
    constructor; [apply length_line_text|constructor]. }
  unfold read_response, http_reply. rewrite <-!app_assoc.
  rewrite read_head_lines by (done || by right). cbn [mbind res_bind app].
  rewrite lossy_head by done. unfold content_length. rewrite lines_head by done.
  assert (find_map header_length (reply_lines status reason headers body ++ [[]]) = Some (Zlen body)) as ->.
  { unfold reply_lines. rewrite app_comm_cons, <-app_assoc. rewrite find_map_app.
    - cbn [app find_map]. by rewrite header_length_line.
    - constructor; [done|]. eapply Forall_impl; [exact Hh|]. intros l [_ Hn]. unfold header_length. by rewrite Hn. }
  change (default 0 (Some (Zlen body))) with (Zlen body). destruct (Z.leb_spec (2 ^ 63) (Zlen body)); [lia|]. unfold read_exact.
  destruct (Z.ltb_spec (Zlen (body ++ rest)) (Zlen body)); [rewrite length_app in *; lia|].
  cbn [mbind res_bind]. rewrite slice_prefix, (from_utf8_lossy_valid (length body)) by done.
  rewrite <-app_assoc. by apply parse_response_lines.
Qed.

Lemma http_reply_framed_witness :
  read_response (http_reply 200 (str "OK") [str "Content-Type: application/json"] (str "{}") ++ str "HTTP/1.1 500")
    (Some (str "timed out")) = Ok (str "{}").
Proof.
  apply (http_reply_framed 200 (str "OK") [str "Content-Type: application/json"] (str "{}") (str "HTTP/1.1 500")
           (Some (str "timed out"))); [lia|apply text_check_ok; reflexivity| |reflexivity|vm_compute; reflexivity].
  constructor; [|constructor]. split; [split; [discriminate|]|vm_compute; reflexivity].
  apply text_check_ok. reflexivity.
Defined.

End Launcher.
