(* ===== verification/Lifecycle.v ===== *)
(** * The driver-domain lifecycle ([avm-vmm/src/lifecycle.rs])

    Kernel manifest, hydrated boot file, validated configuration, launch or
    refuse. The host (files, [/dev/kvm], environment) is explicit state; the
    VMM process behind the socket is an interface with the documented
    behaviour of its API as laws. A report that a domain was created is proved
    to mean a running machine with the planned configuration. *)

From S2P Require Import Prelude Cas Chunker Compression Cursor Manifest Text Disk Store StoreSpec VmConfig Launcher.
Import Manifest Store StoreSpec VmConfig Launcher.

Module Lifecycle.

Record DomainSpec := {
  ds_kernel_name : bytes; ds_kernel_version : bytes; ds_cmdline : bytes; ds_workdir : bytes
}.

Inductive LifecycleError :=
| KernelNotFound (name version : bytes)
| CasFailed (e : CasError)
| IoFailed (e : bytes)
| BadInfo (m : bytes)
| ConfigFailed (e : ConfigError)
| LaunchFailed (e : LaunchError).

(** ** The VMM process: spawning it, and its socket *)
Class VmmHost (W : Type) := {
  vmm_socket :: VmmSocket W;
  (** [Command::spawn] of a binary with [--api-socket]: [Some e] on failure. *)
  vmm_spawn : W → bytes → bytes → W * option bytes
}.

(** What the machine offers. [h_io]: the error of writing at a path, if any;
    [h_kvm]: the error of opening [/dev/kvm], with whether it is [NotFound]. *)
Record Host (W : Type) := {
  h_files : gmap bytes bytes;
  h_io : bytes → option bytes;
  h_kvm : option (bool * bytes);
  h_env : option bytes;
  h_is_file : bytes → bool;
  h_manifest_dir : bytes;
  h_world : W
}.
Arguments h_files {W} _.
Arguments h_io {W} _ _.
Arguments h_kvm {W} _.
Arguments h_env {W} _.
Arguments h_is_file {W} _ _.
Arguments h_manifest_dir {W} _.
Arguments h_world {W} _.

Inductive KvmProbe := Available | Absent (e : bytes) | Denied (e : bytes).

Record LaunchOutcome := { lo_created : bool; lo_detail : bytes }.

Section lifecycle.
Context `{Blake3} `{Lz4} `{JsonText} {W : Type} `{VmmHost W}.

Definition set_files (f : gmap bytes bytes) (h : Host W) : Host W := {|
  h_files := f; h_io := h_io h; h_kvm := h_kvm h; h_env := h_env h; h_is_file := h_is_file h;
  h_manifest_dir := h_manifest_dir h; h_world := h_world h |}.
Definition set_world (w : W) (h : Host W) : Host W := {|
  h_files := h_files h; h_io := h_io h; h_kvm := h_kvm h; h_env := h_env h; h_is_file := h_is_file h;
  h_manifest_dir := h_manifest_dir h; h_world := w |}.

(** A computation on the VMM's world, its error wrapped. *)
Definition on_world {A} (m : stm W LaunchError A) : stm (Host W) LifecycleError A := λ h,
  let '(w, r) := m (h_world h) in (set_world w h, map_err LaunchFailed r).

(** ** Planning *)
Fixpoint first_match (store : ChunkStore) (name version : bytes) (ids : list bytes)
    : res LifecycleError Manifest :=
  match ids with
  | [] => Err (KernelNotFound name version)
  | id :: ids =>
      m ← map_err CasFailed (get_manifest store id);
      if bool_decide (m_name m = name) && bool_decide (m_version m = version) then Ok m
      else first_match store name version ids
  end.

Definition find_manifest (store : ChunkStore) (name version : bytes) : res LifecycleError Manifest :=
  ids ← map_err CasFailed (list_manifests store);
  first_match store name version ids.

Definition hydrate_kernel (store : ChunkStore) (spec : DomainSpec) : stm (Host W) LifecycleError bytes := λ h,
  match (m ← find_manifest store (ds_kernel_name spec) (ds_kernel_version spec);
         map_err CasFailed (read_assembled store m)) with
  | Err e => (h, Err e)
  | Panic => (h, Panic)
  | Ok content =>
      let path := path_join (ds_workdir spec) (str "vmlinux") in
      match h_io h (ds_workdir spec), h_io h path with
      | Some e, _ | None, Some e => (h, Err (IoFailed e))
      | None, None => (set_files (<[path := content]> (h_files h)) h, Ok path)
      end
  end.

Definition plan_config (store : ChunkStore) (spec : DomainSpec) : stm (Host W) LifecycleError VmConfig :=
  kernel ← hydrate_kernel store spec;
  let cfg := driver_domain (from_utf8_lossy kernel) (ds_cmdline spec) in
  _ ← stm_lift (map_err ConfigFailed (validate cfg));
  mret cfg.

Definition kvm_available (h : Host W) : KvmProbe :=
  match h_kvm h with
  | None => Available
  | Some (true, e) => Absent e
  | Some (false, e) => Denied e
  end.

(** ** Launching *)
Definition launch_or_refuse (launcher : option Launcher) (cfg : VmConfig)
    : stm (Host W) LifecycleError LaunchOutcome :=
  match launcher with
  | None => mret {| lo_created := false; lo_detail := refuse_reason |}
  | Some l =>
      _ ← on_world (create l cfg);
      _ ← on_world (boot l);
      info ← on_world (info l);
      mret {| lo_created := true; lo_detail := info |}
  end.

Definition spawn_vmm (bin socket : bytes) : stm W LaunchError () := λ w,
  match vmm_spawn w bin socket with
  | (w, None) => (w, Ok ())
  | (w, Some e) => (w, Err (Launcher.Io e))
  end.

(** Readiness: any HTTP answer proves the API is up. *)
Definition await_api (l : Launcher) : stm (Host W) LifecycleError () := λ h,
  match wait_ready l 100 (h_world h) with
  | (w, Ok _) | (w, Err (Http _ _)) => (set_world w h, Ok ())
  | (w, Err e) => (set_world w h, Err (LaunchFailed e))
  | (w, Panic) => (set_world w h, Panic)
  end.

Definition refuse (detail : bytes) : stm (Host W) LifecycleError LaunchOutcome :=
  mret {| lo_created := false; lo_detail := detail |}.

(** Task 7.3's orchestration: spawn the VMM, wait for its API, create, boot. *)
Definition spawn_and_launch (spec : DomainSpec) (bin : bytes) (cfg : VmConfig)
    : stm (Host W) LifecycleError LaunchOutcome :=
  let socket := path_join (ds_workdir spec) (str "vmm-api.sock") in
  _ ← on_world (spawn_vmm bin socket);
  let l := new socket in
  _ ← await_api l;
  launch_or_refuse (Some l) cfg.

Definition launch_planned (spec : DomainSpec) (kvm : KvmProbe) (cfg : VmConfig)
    : stm (Host W) LifecycleError LaunchOutcome := λ h,
  match find_vmm (h_env h) (h_is_file h) (h_manifest_dir h), kvm with
  | None, _ => refuse (refuse_reason ++ str " [kvm: {:?}]") h
  | Some _, Absent e => refuse (str "refusing to launch: /dev/kvm absent ({e})") h
  | Some _, Denied e => refuse (str "refusing to launch: /dev/kvm denied ({e})") h
  | Some bin, Available => spawn_and_launch spec bin cfg h
  end.

Definition run (store : ChunkStore) (spec : DomainSpec) : stm (Host W) LifecycleError LaunchOutcome := λ h,
  let go : stm (Host W) LifecycleError LaunchOutcome :=
    cfg ← plan_config store spec; launch_planned spec (kvm_available h) cfg in
  go h.

Definition bootstrap_kernel_spec (workdir : bytes) : DomainSpec := {|
  ds_kernel_name := str "linux-driver-kernel"; ds_kernel_version := str "0.1.0";
  ds_cmdline := str "console=hvc0"; ds_workdir := workdir |}.

Definition looks_like_elf (files : gmap bytes bytes) (path : bytes) : bool :=
  match files !! path with
  | Some b => (4 <=? Zlen b) && bool_decide (b.[0 : 4] = z2b <$> [0x7f; 0x45; 0x4c; 0x46])
  | None => false
  end.
(** ** The VMM's documented behaviour

    A machine is absent, created from a configuration, or running it. An
    acknowledged (2xx) [vm.create] creates it, an acknowledged [vm.boot]
    starts it, [vm.info] changes nothing; a request that is refused or lost
    promises nothing. *)
Inductive Vm := NoVm | Created (cfg : bytes) | Running (cfg : bytes).

Class VmmLaws (vm_of : W → Vm) : Prop := {
  vl_create : ∀ w sock body w' r fin b,
    vmm_exchange w sock (request_bytes (str "PUT") (str "/api/v1/vm.create") body) = (w', Stream r fin) →
    read_response r fin = Ok b → vm_of w' = Created body;
  vl_boot : ∀ w sock w' r fin b,
    vmm_exchange w sock (request_bytes (str "PUT") (str "/api/v1/vm.boot") []) = (w', Stream r fin) →
    read_response r fin = Ok b → ∃ c, vm_of w = Created c ∧ vm_of w' = Running c;
  vl_info : ∀ w sock w' r,
    vmm_exchange w sock (request_bytes (str "GET") (str "/api/v1/vm.info") []) = (w', r) →
    vm_of w' = vm_of w
}.

Context (vm_of : W → Vm) `{!VmmLaws vm_of}.

Lemma stm_bind_Ok {S E A B} (m : stm S E A) (k : A → stm S E B) s s' b :
  (m ≫= k) s = (s', Ok b) → ∃ s1 a, m s = (s1, Ok a) ∧ k a s1 = (s', Ok b).
Proof. unfold mbind, stm_bind. destruct (m s) as [s1 [a|e|]]; intros; simplify_eq. eauto. Qed.

Lemma on_world_Ok {A} (m : stm W LaunchError A) h h' a :
  on_world m h = (h', Ok a) → m (h_world h) = (h_world h', Ok a) ∧ h' = set_world (h_world h') h.
Proof.
  unfold on_world. destruct (m (h_world h)) as [w [x|e|]]; cbn; intros; simplify_eq. done.
Qed.

Lemma request_Ok l method path body w w' b :
  request l method path body w = (w', Ok b) →
  ∃ r fin, vmm_exchange w (ln_socket l) (request_bytes method path (default [] body)) = (w', Stream r fin) ∧
           read_response r fin = Ok b.
Proof. unfold request. destruct (vmm_exchange _ _ _) as [w1 [e|r fin]]; intros; simplify_eq. eauto. Qed.

Lemma info_state_kept l w w' r : info l w = (w', r) → vm_of w' = vm_of w.
Proof.
  unfold info, request. destruct (vmm_exchange w _ _) as [w1 rep] eqn:E.
  pose proof (vl_info _ _ _ _ E) as Hv. destruct rep; intros; by simplify_eq.
Qed.

Lemma launch_ok l cfg h h' o :
  launch_or_refuse (Some l) cfg h = (h', Ok o) →
  lo_created o = true ∧ vm_of (h_world h') = Running (to_json cfg) ∧ h' = set_world (h_world h') h.
Proof.
  cbn [launch_or_refuse]. intros (h1 & b1 & Hc & (h2 & b2 & Hb & (h3 & b3 & Hi & Hr)%stm_bind_Ok)%stm_bind_Ok)%stm_bind_Ok.
  apply on_world_Ok in Hc as [(r1 & f1 & E1 & R1)%request_Ok Hh1].
  apply on_world_Ok in Hb as [(r2 & f2 & E2 & R2)%request_Ok Hh2].
  apply on_world_Ok in Hi as [Hi Hh3]. apply info_state_kept in Hi.
  cbn [default from_option id] in E1, E2. apply (vl_create _ _ _ _ _ _ _ E1) in R1.
  destruct (vl_boot _ _ _ _ _ _ E2 R2) as (c & Hc & Hrun). unfold mret, stm_ret in Hr. simplify_eq.
  split; [done|]. split; [congruence|]. rewrite Hh3, Hh2, Hh1. done.
Qed.

Lemma first_match_Ok store name version ids m :
  first_match store name version ids = Ok m →
  m_name m = name ∧ m_version m = version ∧ ∃ id, id ∈ ids ∧ get_manifest store id = Ok m.
Proof.
  induction ids as [|id ids IH]; cbn [first_match]; [done|].
  intros (m' & Hm & Hk)%bind_Ok. apply map_err_Ok in Hm.
  destruct (bool_decide (m_name m' = name)) eqn:Hn, (bool_decide (m_version m' = version)) eqn:Hv; cbn in Hk.
  1: apply bool_decide_eq_true in Hn, Hv; simplify_eq; split_and!; [done..|]; exists id; set_solver.
  all: destruct (IH Hk) as (? & ? & id' & ? & ?); split_and!; [done..|]; exists id'; set_solver.
Qed.

Lemma hydrate_Ok store spec (h h' : Host W) path :
  hydrate_kernel store spec h = (h', Ok path) →
  ∃ m content, find_manifest store (ds_kernel_name spec) (ds_kernel_version spec) = Ok m ∧
    read_assembled store m = Ok content ∧ path = path_join (ds_workdir spec) (str "vmlinux") ∧
    h' = set_files (<[path := content]> (h_files h)) h.
Proof.
  unfold hydrate_kernel. destruct (_ ≫= _) as [content|e|] eqn:E; [|intros; simplify_eq..].
  apply bind_Ok in E as (m & Hm & Hc). apply map_err_Ok in Hc.
  repeat case_match; intros; simplify_eq. eauto 10.
Qed.

Lemma plan_Ok store spec (h h' : Host W) cfg :
  plan_config store spec h = (h', Ok cfg) →
  ∃ m content, find_manifest store (ds_kernel_name spec) (ds_kernel_version spec) = Ok m ∧
    read_assembled store m = Ok content ∧
    h' = set_files (<[path_join (ds_workdir spec) (str "vmlinux") := content]> (h_files h)) h ∧
    cfg = driver_domain (from_utf8_lossy (path_join (ds_workdir spec) (str "vmlinux"))) (ds_cmdline spec) ∧
    validate cfg = Ok ().
Proof.
  unfold plan_config.
  intros (h1 & path & (m & content & Hm & Hc & -> & ->)%hydrate_Ok & (h2 & u & Hv & Hr)%stm_bind_Ok)%stm_bind_Ok.
  unfold mret, stm_ret, stm_lift in *. simplify_eq. destruct u. exists m, content.
  split_and!; try done. destruct (validate _); cbn in *; by simplify_eq.
Qed.

Lemma spawn_and_launch_ok spec bin cfg h h' o :
  spawn_and_launch spec bin cfg h = (h', Ok o) →
  lo_created o = true ∧ vm_of (h_world h') = Running (to_json cfg) ∧ h_files h' = h_files h.
Proof.
  unfold spawn_and_launch.
  intros (h1 & u & [_ Hs]%on_world_Ok & (h2 & u2 & Ha & Hl)%stm_bind_Ok)%stm_bind_Ok.
  apply launch_ok in Hl as (Hc & Hv & Hf). split_and!; [done..|]. rewrite Hf. cbn.
  unfold await_api in Ha. destruct (wait_ready _ _ _) as [w [b|[]|]]; simplify_eq; by rewrite Hs.
Qed.

Lemma missing_kernel store spec (h : Host W) e :
  find_manifest store (ds_kernel_name spec) (ds_kernel_version spec) = Err e → run store spec h = (h, Err e).
Proof.
  intros He. unfold run, plan_config, mbind, stm_bind, hydrate_kernel. by rewrite He.
Qed.

(** Launching is honest. If [run] reports a created domain, the store
    held a manifest of the requested name and version, the boot file holds
    its assembled bytes, the planned configuration validates, and the VMM is
    running exactly that configuration; if it reports none, nothing was
    spawned and no request was sent. A kernel the store does not have is an
    error that leaves the host as it was. *)
Theorem launch_honest store spec (h : Host W) :
  (∀ e, find_manifest store (ds_kernel_name spec) (ds_kernel_version spec) = Err e →
        run store spec h = (h, Err e)) ∧
  (∀ h' o, run store spec h = (h', Ok o) → ∃ m content,
    m_name m = ds_kernel_name spec ∧ m_version m = ds_kernel_version spec ∧
    (∃ id, get_manifest store id = Ok m) ∧ read_assembled store m = Ok content ∧
    h_files h' = <[path_join (ds_workdir spec) (str "vmlinux") := content]> (h_files h) ∧
    let cfg := driver_domain (from_utf8_lossy (path_join (ds_workdir spec) (str "vmlinux"))) (ds_cmdline spec) in
    validate cfg = Ok () ∧
    if lo_created o then kvm_available h = Available ∧ vm_of (h_world h') = Running (to_json cfg)
    else h_world h' = h_world h ∧
         (find_vmm (h_env h) (h_is_file h) (h_manifest_dir h) = None ∨ kvm_available h ≠ Available)).
Proof.
  split; [apply missing_kernel|]. intros h' o. unfold run. intros (h1 & cfg & (m & content & Hm & Hc & -> & -> & Hv)%plan_Ok & Hl)%stm_bind_Ok.
  unfold find_manifest in Hm. apply bind_Ok in Hm as (ids & _ & (Hn & Hver & id & _ & Hid)%first_match_Ok).
  exists m, content. split_and!; [done..|by exists id|done| |done|].
  all: unfold launch_planned in Hl; cbn [set_files h_env h_is_file h_manifest_dir] in Hl.
  all: destruct (find_vmm _ _ _) as [bin|] eqn:Hb; [destruct (kvm_available h) eqn:Hk|].
  all: try (unfold refuse, mret, stm_ret in Hl; simplify_eq; cbn; by auto).
  all: apply spawn_and_launch_ok in Hl as (Hcr & Hvm & Hf).
  - done.
  - rewrite Hcr. done.
Qed.

End lifecycle.

(** ** Boot latency *)
Record BootLatency := { bl_polls : Z; bl_elapsed : Z; bl_state : bytes; bl_running : bool }.

(** The clock, and [vm.info]'s JSON: [None] when it does not parse, otherwise
    the string under ["state"], if there is one. *)
Class Clock (W : Type) := { clk_now : W → Z; clk_sleep : W → Z → W }.
Class InfoJson := info_state : bytes → option (option bytes).

Section latency.
Context {W : Type} `{Clock W} `{InfoJson} (poll : stm W LaunchError bytes) (interval : Z).

(** Iterations [i..attempts), [n] of them. *)
Fixpoint measure_loop (start attempts i : Z) (state : bytes) (n : nat)
    : stm W LifecycleError BootLatency :=
  match n with
  | O => λ w, (w, Ok {| bl_polls := attempts; bl_elapsed := clk_now w - start;
                        bl_state := state; bl_running := false |})
  | S n => λ w,
      match poll w with
      | (w, Err e) => (w, Err (LaunchFailed e))
      | (w, Panic) => (w, Panic)
      | (w, Ok body) =>
          match info_state body with
          | None => (w, Err (BadInfo (str "vm.info is not JSON: {e}")))
          | Some s =>
              let state := default (str "<no state>") s in
              if bool_decide (state = str "Running") then
                (w, Ok {| bl_polls := i + 1; bl_elapsed := clk_now w - start;
                          bl_state := state; bl_running := true |})
              else
                let w := if i + 1 <? attempts then clk_sleep w interval else w in
                measure_loop start attempts (i + 1) state n w
          end
      end
  end.

Definition measure_boot_latency (max_polls : Z) : stm W LifecycleError BootLatency := λ w,
  let attempts := Z.max max_polls 1 in
  measure_loop (clk_now w) attempts 0 [] (Z.to_nat attempts) w.

(** A measurement never fakes a running guest. *)
Lemma measure_loop_honest start attempts : ∀ n i state w w' b,
  i + Z.of_nat n = attempts → state ≠ str "Running" →
  measure_loop start attempts i state n w = (w', Ok b) →
  (bl_running b = true ↔ bl_state b = str "Running") ∧ i ≤ bl_polls b ≤ attempts ∧
  (bl_running b = false → bl_polls b = attempts).
Proof.
  induction n as [|n IH]; intros i state w w' b Hi Hs Hm; cbn [measure_loop] in Hm.
  - simplify_eq. cbn. split; [done|]. split; [lia|done].
  - destruct (poll w) as [w1 [body|e|]]; [|simplify_eq..].
    destruct (info_state body) as [st|]; [|simplify_eq].
    case_bool_decide as Hst.
    + simplify_eq. cbn. split; [done|]. split; [lia|done].
    + apply IH in Hm as (H1 & H2 & H3); [|lia|done]. split; [done|]. split; [lia|done].
Qed.

Lemma measure_boot_latency_honest max_polls w w' b :
  measure_boot_latency max_polls w = (w', Ok b) →
  (bl_running b = true ↔ bl_state b = str "Running") ∧ bl_polls b ≤ Z.max max_polls 1 ∧
  (bl_running b = false → bl_polls b = Z.max max_polls 1).
Proof.
  unfold measure_boot_latency. intros Hm.
  apply measure_loop_honest in Hm as (H1 & H2 & H3); [|lia|done]. split; [done|]. split; [lia|done].
Qed.
End latency.

(** ** A small conforming VMM *)
Section witnesses.
#[local] Existing Instance toy_blake3.
#[local] Existing Instance toy_lz4.
(** Configurations printed by their kernel path. *)
#[local] Instance toy_json_text : JsonText := λ j,
  match j with JObj (_ :: (_, JObj ((_, JStr k) :: _)) :: _) => k | _ => [] end.

Definition reply_ok : Reply := Stream (http_reply 200 (str "OK") [] (str "{}")) None.
Definition reply_err : Reply := Stream (http_reply 500 (str "Error") [] []) None.

Definition toy_vmm (w : Vm) (_ : bytes) (req : bytes) : Vm * Reply :=
  match split_once CRLF2 req with
  | None => (w, reply_err)
  | Some (head, body) =>
      if bool_decide (is_Some (strip_prefix (str "PUT /api/v1/vm.create ") head)) then
        match w with NoVm => (Created body, reply_ok) | _ => (w, reply_err) end
      else if bool_decide (is_Some (strip_prefix (str "PUT /api/v1/vm.boot ") head)) then
        match w with Created c => (Running c, reply_ok) | _ => (w, reply_err) end
      else if bool_decide (is_Some (strip_prefix (str "GET ") head)) then
        (w, match w with NoVm => reply_err | _ => reply_ok end)
      else (w, reply_err)
  end.
#[local] Instance toy_host : VmmHost Vm := {|
  vmm_socket := {| vmm_exchange := toy_vmm; vmm_sleep w _ := w |}; vmm_spawn _ _ _ := (NoVm, None) |}.

Lemma request_split method path body :
  Forall text_byte method → Forall text_byte path →
  ∃ more, split_once CRLF2 (request_bytes method path body) =
    Some (method ++ str " " ++ path ++ str " HTTP/1.1" ++ more, body).
Proof.
  intros Hm Hp.
  set (extra := if Zlen body =? 0 then [] else [str "Content-Type: application/json"; length_line body]).
  set (l0 := method ++ str " " ++ path ++ str " HTTP/1.1").
  set (ls := l0 :: [str "Host: localhost"; str "Accept: application/json"; str "Connection: close"] ++ extra).
  assert (request_bytes method path body = crlf_lines ls ++ CRLF ++ body) as ->.
  { unfold request_bytes, ls, l0, extra, length_line, crlf_lines.
    destruct (Zlen body =? 0); cbn [app fmap list_fmap concat]; by rewrite <-?app_assoc. }
  assert (Forall header_text ls) as Hls.
  { unfold ls, extra. constructor; [split; [by unfold l0; destruct method|]|].
    - unfold l0. rewrite !Forall_app. split_and!; done || by apply text_check_ok.
    - apply Forall_app. split; [repeat (constructor; [split; [done|by apply text_check_ok]|]); constructor|].
      destruct (Zlen body =? 0); [constructor|].
      constructor; [split; [done|by apply text_check_ok]|]. constructor; [apply length_line_text|constructor]. }
  rewrite split_once_lines by done. unfold ls. cbn [join_lines app].
  eexists. unfold l0. by rewrite <-!app_assoc.
Qed.

Lemma reply_err_Err b : read_response (http_reply 500 (str "Error") [] []) None ≠ Ok b.
Proof. vm_compute. discriminate. Qed.

Lemma not_prefix p s : (∀ t, s ≠ p ++ t) → bool_decide (is_Some (strip_prefix p s)) = false.
Proof. intros Hs. apply bool_decide_eq_false. intros [t Ht%strip_prefix_Some]. by apply (Hs t). Qed.

Lemma toy_laws : VmmLaws (λ w : Vm, w).
Proof.
  split; cbn [vmm_exchange vmm_socket toy_host]; unfold toy_vmm, reply_ok, reply_err.
  - intros w sock body w' r fin b.
    destruct (request_split (str "PUT") (str "/api/v1/vm.create") body) as [more ->];
      [by apply text_check_ok..|].
    rewrite bool_decide_eq_true_2 by (by eexists).
    destruct w; intros E R; injection E as <- <- <-; [done|by apply reply_err_Err in R..].
  - intros w sock w' r fin b.
    destruct (request_split (str "PUT") (str "/api/v1/vm.boot") []) as [more ->]; [by apply text_check_ok..|].
    rewrite not_prefix by (intros t Ht; cbn in Ht; discriminate Ht).
    rewrite bool_decide_eq_true_2 by (by eexists).
    destruct w; intros E R; injection E as <- <- <-; [by apply reply_err_Err in R|eauto|by apply reply_err_Err in R].
  - intros w sock w' r.
    destruct (request_split (str "GET") (str "/api/v1/vm.info") []) as [more ->]; [by apply text_check_ok..|].
    rewrite !not_prefix by (intros t Ht; cbn in Ht; discriminate Ht).
    rewrite bool_decide_eq_true_2 by (by eexists). destruct w; intros E; injection E as <- _; reflexivity.
Qed.

Definition demo_store : ChunkStore :=
  (put_buffer (str "linux-driver-kernel") (str "0.1.0") (str "ELF") None store0).1.
Definition demo_host : Host Vm := {|
  h_files := ∅; h_io _ := None; h_kvm := None; h_env := Some (str "/bin/vmm"); h_is_file _ := true;
  h_manifest_dir := []; h_world := NoVm |}.

Lemma launch_honest_witness :
  ∃ h' o, run demo_store (bootstrap_kernel_spec (str "/w")) demo_host = (h', Ok o) ∧
    lo_created o = true ∧ h_world h' = Running (str "/w/vmlinux").
Proof.
  assert (match run demo_store (bootstrap_kernel_spec (str "/w")) demo_host with
          | (_, Ok o) => lo_created o | _ => false end = true) as Hk by (vm_compute; reflexivity).
  destruct (run demo_store (bootstrap_kernel_spec (str "/w")) demo_host) as [h' [o|e|]] eqn:Hr; try discriminate Hk.
  exists h', o. split; [reflexivity|]. split; [exact Hk|].
  destruct (@launch_honest _ _ _ _ _ (λ w : Vm, w) toy_laws demo_store (bootstrap_kernel_spec (str "/w")) demo_host)
    as [_ Hl].
  destruct (Hl h' o Hr) as (m & content & _ & _ & _ & _ & _ & _ & Hc). rewrite Hk in Hc.
  destruct Hc as [_ Hc]. exact Hc.
Defined.
End witnesses.

End Lifecycle.
