(* ===== verification/Runner.v ===== *)
(** * The capability-checked runner ([avm-exec/src/runner.rs])

    Two gates before a builder process exists: a Cedar decision over the cell's
    capability table, then the namespaces the host was probed to grant. Cedar,
    [unshare] and the file system are interfaces; the theorems are about what
    the runner asks of them, and in which order. *)

From S2P Require Import Prelude Text Cas Cursor Avce Cell.
Import Cell.

Module Runner.

(** ** Interfaces *)

(** [cedar_policy], over the JSON values of the cell header. *)
Class Cedar `{SerdeJson} := {
  json_container : json_value → bool;      (* Value::Array | Value::Object *)
  policy_set : Type;
  entities : Type;
  entity_uid : Type;
  request : Type;
  entities_from_json_value : json_value → option entities;
  parse_policy_set : bytes → option policy_set;
  parse_entity_uid : bytes → option entity_uid;
  request_new : entity_uid → entity_uid → entity_uid → option request;
  is_allowed : request → policy_set → entities → bool
}.

Inductive ErrorKind := PermissionDenied | InvalidInput | OtherKind (name : bytes).
Record IoError := { io_kind : ErrorKind; io_message : bytes }.

Record Command := {
  cmd_program : bytes; cmd_args : list bytes; cmd_cwd : bytes; cmd_env : gmap bytes bytes
}.
Record Output := { out_success : bool; out_stdout : bytes }.

(** The operating system: a fresh directory, writing a staged file with its
    parent directories, running a command to completion. *)
Class Os (W : Type) := {
  os_tempdir : W → W * (IoError + bytes);
  os_create_parent : W → bytes → W * option IoError;
  os_write : W → bytes → bytes → W * option IoError;
  os_output : W → Command → W * (IoError + Output)
}.

(** ** The sandbox *)
Section sandbox.
Context `{Cedar}.

Record Sandbox := { sb_policies : policy_set; sb_entities : entities }.

Definition sandbox_new (capability_table : json_value) (policy_src : bytes) : res bytes Sandbox :=
  if negb (json_container capability_table) then
    Err (str "capability table must be a JSON array/object, got {}")
  else
  es ← ok_or (entities_from_json_value capability_table) (str "capability table rejected by cedar: {e}");
  ps ← ok_or (parse_policy_set policy_src) (str "cedar policy set: {e}");
  Ok {| sb_policies := ps; sb_entities := es |}.

Definition QUOTE : bytes := [Byte.x22].
Definition check (sb : Sandbox) (action : bytes) : bool :=
  match parse_entity_uid (str "Cell::" ++ QUOTE ++ str "builder" ++ QUOTE),
        parse_entity_uid (str "Action::" ++ QUOTE ++ action ++ QUOTE),
        parse_entity_uid (str "Sandbox::" ++ QUOTE ++ str "host" ++ QUOTE) with
  | Some principal, Some action_uid, Some resource =>
      match request_new principal action_uid resource with
      | Some req => is_allowed req (sb_policies sb) (sb_entities sb)
      | None => false
      end
  | _, _, _ => false
  end.
End sandbox.

(** ** Isolation *)
Record Isolation := {
  unshare_available : bool; user_net_mount_ipc : bool; user_net_mount_ipc_pid : bool; mount_proc : bool
}.

Definition base : list bytes := [str "--map-root-user"].
Definition tier1 : list bytes := [str "--net"; str "--mount"; str "--ipc"].
Definition tier2 : list bytes := [str "--pid"; str "--fork"].

Section probe.
(** Running [unshare] with arguments: [None] when it does not start,
    otherwise whether it exits with success. *)
Variable unshare : list bytes → option bool.

Definition has (flags : list bytes) : bool :=
  default false (unshare (base ++ flags ++ [str "--"; str "true"])).

Definition probe : Isolation :=
  if negb (has tier1) then
    {| unshare_available := bool_decide (is_Some (unshare [str "--help"]));
       user_net_mount_ipc := false; user_net_mount_ipc_pid := false; mount_proc := false |}
  else
  let full := has (tier1 ++ tier2) in
  let proc := full && has (tier1 ++ tier2 ++ [str "--mount-proc"]) in
  {| unshare_available := true; user_net_mount_ipc := true;
     user_net_mount_ipc_pid := full; mount_proc := proc |}.
End probe.

Definition any_ns (i : Isolation) : bool := user_net_mount_ipc i.

(** ** Errors *)
Inductive RunnerError :=
| Denied (action : bytes)
| CedarFailed (m : bytes)
| Io (e : IoError).

(** The [Display] text. *)
Definition error_text (e : RunnerError) : bytes :=
  match e with
  | Denied a => str "EPERM: capability denied for action {a:?}"
  | CedarFailed m => str "cedar: " ++ m
  | Io e => str "runner i/o: " ++ io_message e
  end.

Definition as_io_error (e : RunnerError) : IoError :=
  match e with
  | Denied _ => {| io_kind := PermissionDenied; io_message := str "permission denied" |}
  | CedarFailed _ => {| io_kind := InvalidInput; io_message := error_text e |}
  | Io e => {| io_kind := io_kind e; io_message := io_message e |}
  end.

(** ** The runner *)
Section runner.
Context `{Cedar} {W : Type} `{Os W}.

Record Runner := { rn_sandbox : Sandbox; rn_isolation : Isolation }.

Definition runner_new (unshare : list bytes → option bool) (sb : Sandbox) : Runner :=
  {| rn_sandbox := sb; rn_isolation := probe unshare |}.

Definition authorize (r : Runner) (action : bytes) : res RunnerError () :=
  if check (rn_sandbox r) action then Ok () else Err (Denied action).

(** One staged input. *)
Definition stage_one (stage : bytes) (_ : ()) (f : bytes * bytes) : stm W RunnerError () := λ w,
  let p := path_join stage f.1 in
  match os_create_parent w p with
  | (w, Some e) => (w, Err (Io e))
  | (w, None) =>
      match os_write w p f.2 with
      | (w, Some e) => (w, Err (Io e))
      | (w, None) => (w, Ok ())
      end
  end.

(** The flags the probe granted. *)
Definition ns_args (i : Isolation) : list bytes :=
  base ++ tier1 ++
  (if user_net_mount_ipc_pid i then
     tier2 ++ (if mount_proc i then [str "--mount-proc"] else [])
   else []) ++ [str "--"].

Definition clean_env (stage : bytes) (extra_env : list (bytes * bytes)) : gmap bytes bytes :=
  foldl (λ m kv, <[kv.1 := kv.2]> m)
    (<[str "TMPDIR" := stage]> (<[str "HOME" := stage]>
       (<[str "PATH" := str "/usr/bin:/bin:/run/current-system/sw/bin"]> ∅))) extra_env.

Definition build_command (i : Isolation) (stage program : bytes) (args : list bytes)
    (extra_env : list (bytes * bytes)) : Command :=
  {| cmd_program := if user_net_mount_ipc i then str "unshare" else program;
     cmd_args := (if user_net_mount_ipc i then ns_args i ++ [program] else []) ++ args;
     cmd_cwd := stage;
     cmd_env := clean_env stage extra_env |}.

Definition tempdir : stm W RunnerError bytes := λ w,
  match os_tempdir w with
  | (w, inl e) => (w, Err (Io e))
  | (w, inr d) => (w, Ok d)
  end.
Definition output (c : Command) : stm W RunnerError Output := λ w,
  match os_output w c with
  | (w, inl e) => (w, Err (Io e))
  | (w, inr o) => (w, Ok o)
  end.

Definition run_with_env (r : Runner) (action program : bytes) (args : list bytes)
    (staged : list (bytes * bytes)) (extra_env : list (bytes * bytes)) : stm W RunnerError Output :=
  _ ← stm_lift (authorize r action);
  stage ← tempdir;
  _ ← stm_foldl (stage_one stage) () staged;
  output (build_command (rn_isolation r) stage program args extra_env).

Definition run (r : Runner) (action program : bytes) (args : list bytes)
    (staged : list (bytes * bytes)) : stm W RunnerError Output :=
  run_with_env r action program args staged [].

(** ** Properties *)
Lemma clean_env_dom stage extra k :
  is_Some (clean_env stage extra !! k) ↔
  k = str "PATH" ∨ k = str "HOME" ∨ k = str "TMPDIR" ∨ k ∈ extra.*1.
Proof.
  unfold clean_env. set (m := <[_ := _]> (<[_ := _]> _)).
  assert (is_Some (m !! k) ↔ k = str "PATH" ∨ k = str "HOME" ∨ k = str "TMPDIR") as Hm.
  { unfold m. rewrite !lookup_insert_is_Some', lookup_empty. split; [|naive_solver].
    intros [<-|[<-|[<-|[? ?]]]]; naive_solver. }
  clearbody m. assert (is_Some (m !! k) ∨ k ∈ extra.*1 ↔
    k = str "PATH" ∨ k = str "HOME" ∨ k = str "TMPDIR" ∨ k ∈ extra.*1) as <- by (rewrite Hm; tauto).
  clear Hm. revert m. induction extra as [|[a b] extra IH]; intros m; cbn [foldl].
  - set_solver.
  - rewrite IH, lookup_insert_is_Some'. cbn. set_solver.
Qed.

End runner.

(** An operating system that also records the processes it was asked to run. *)
Definition traced {W} `{Os W} : Os (W * list Command) := {|
  os_tempdir w := let '(w', r) := os_tempdir w.1 in ((w', w.2), r);
  os_create_parent w p := let '(w', r) := os_create_parent w.1 p in ((w', w.2), r);
  os_write w p c := let '(w', r) := os_write w.1 p c in ((w', w.2), r);
  os_output w c := let '(w', r) := os_output w.1 c in ((w', w.2 ++ [c]), r)
|}.

Section gate.
Context `{Cedar} {W : Type} `{Os W}.
#[local] Existing Instance traced.

Lemma staging_spawns_nothing stage staged : ∀ (w w' : W * list Command) r,
  stm_foldl (stage_one stage) () staged w = (w', r) →
  w'.2 = w.2 ∧ (r = Ok () ∨ ∃ e, r = Err (Io e)).
Proof.
  induction staged as [|f staged IH]; intros w w' r; cbn [stm_foldl].
  - unfold mret, stm_ret. intros; simplify_eq. eauto.
  - unfold mbind, stm_bind, stage_one at 1. cbn [os_create_parent os_write traced].
    destruct (os_create_parent w.1 _) as [w1 [e|]]; cbn [fst snd]; [intros; simplify_eq; eauto|].
    destruct (os_write w1 _ _) as [w2 [e|]]; cbn [fst snd]; [intros; simplify_eq; eauto|].
    intros Hr. apply IH in Hr. exact Hr.
Qed.

(** The capability gate. A request the policy set does not allow ends in
    the permission-denied error before anything happens: no directory, no
    file, no process. An allowed request runs exactly one process, or fails
    with an I/O error before running any: the process is the program itself
    or the program under [unshare] with exactly the namespaces the probe
    granted, in the staging directory, with no environment variable but the
    three fixed ones and those passed explicitly. *)
Theorem capability_gate r action program args staged extra (w w' : W) log res :
  run_with_env r action program args staged extra (w, []) = ((w', log), res) →
  if check (rn_sandbox r) action then
    (log = [] ∧ ∃ e, res = Err (Io e)) ∨
    (∃ c, log = [c] ∧
      (if user_net_mount_ipc (rn_isolation r)
       then cmd_program c = str "unshare" ∧ cmd_args c = ns_args (rn_isolation r) ++ program :: args
       else cmd_program c = program ∧ cmd_args c = args) ∧
      cmd_env c !! str "HOME" ≠ None ∧
      (∀ k, is_Some (cmd_env c !! k) →
         k = str "PATH" ∨ k = str "HOME" ∨ k = str "TMPDIR" ∨ k ∈ extra.*1) ∧
      (extra = [] → cmd_env c !! str "HOME" = Some (cmd_cwd c)))
  else w' = w ∧ log = [] ∧ res = Err (Denied action) ∧ io_kind (as_io_error (Denied action)) = PermissionDenied.
Proof.
  unfold run_with_env, stm_lift, authorize. unfold mbind at 1, stm_bind at 1.
  destruct (check (rn_sandbox r) action); [|intros; by simplify_eq].
  unfold mbind at 1, stm_bind at 1, tempdir. cbn [os_tempdir traced fst snd].
  destruct (os_tempdir w) as [w1 [e|stage]]; [intros; simplify_eq; eauto|].
  unfold mbind, stm_bind. destruct (stm_foldl _ _ _ _) as [w2 r2] eqn:Hf.
  apply staging_spawns_nothing in Hf as [Hl [-> | [e ->]]]; cbn [snd] in Hl.
  - unfold output. cbn [os_output traced]. destruct (os_output w2.1 _) as [w3 o]. rewrite Hl. cbn [app].
    intros Ho. right. exists (build_command (rn_isolation r) stage program args extra).
    split; [by destruct o; simplify_eq|]. cbn [build_command cmd_program cmd_args cmd_env cmd_cwd].
    split; [destruct (user_net_mount_ipc _); [by rewrite <-app_assoc|done]|].
    split; [apply not_eq_None_Some, clean_env_dom; auto|].
    split; [intros k; apply clean_env_dom|]. intros ->. by vm_compute.
  - intros; simplify_eq. cbn in Hl. subst. eauto.
Qed.

Lemma probe_tiers unshare :
  let i := probe unshare in
  (mount_proc i = true → user_net_mount_ipc_pid i = true) ∧
  (user_net_mount_ipc_pid i = true → user_net_mount_ipc i = true) ∧
  (user_net_mount_ipc i = true → unshare_available i = true).
Proof.
  unfold probe. destruct (has unshare tier1); cbn; [|done].
  split_and!; try done. by intros [? _]%andb_prop.
Qed.

(** A staged name is joined, not confined: an absolute one leaves the
    staging directory. *)
Lemma staged_absolute stage : path_join stage (str "/etc/passwd") = str "/etc/passwd".
Proof. reflexivity. Qed.
End gate.

Section witnesses.
#[local] Existing Instance toy_json.
(** A policy set is the list of allowed actions, one per line. *)
#[local] Instance toy_cedar : Cedar := {|
  json_container _ := true; policy_set := list bytes; entities := (); entity_uid := bytes; request := bytes;
  entities_from_json_value _ := Some (); parse_policy_set s := Some (lines s); parse_entity_uid s := Some s;
  request_new _ a _ := Some a; is_allowed a ps _ := bool_decide (a ∈ ps) |}.
#[local] Instance toy_os : Os () := {|
  os_tempdir w := (w, inr (str "/tmp/s")); os_create_parent w _ := (w, None); os_write w _ _ := (w, None);
  os_output w _ := (w, inr {| out_success := true; out_stdout := [] |}) |}.

Definition demo_runner : Runner :=
  {| rn_sandbox := {| sb_policies := [str "Action::" ++ QUOTE ++ str "Execute" ++ QUOTE]; sb_entities := () |};
     rn_isolation := probe (λ args, Some (bool_decide (length args ≤ 7)%nat)) |}.

Lemma capability_gate_witness :
  ∃ c, cmd_program c = str "unshare" ∧
    (run_with_env (H1 := traced) demo_runner (str "Execute") (str "cc") [str "x.c"] [] [] ((), [])).1.2 = [c].
Proof.
  destruct (run_with_env (H1 := traced) demo_runner (str "Execute") (str "cc") [str "x.c"] [] [] ((), []))
    as [[w' log] r] eqn:E.
  pose proof (capability_gate _ _ _ _ _ _ _ _ _ _ E) as Hg.
  assert (length log = 1%nat) as Hl.
  { change log with ((w', log), r).1.2. rewrite <-E. vm_compute. reflexivity. }
  assert (check (rn_sandbox demo_runner) (str "Execute") = true) as Hc by (vm_compute; reflexivity).
  assert (user_net_mount_ipc (rn_isolation demo_runner) = true) as Hu by (vm_compute; reflexivity).
  rewrite Hc, Hu in Hg. destruct Hg as [[-> _]|(c & -> & [Hp _] & _)]; [discriminate Hl|].
  exists c. split; [exact Hp|reflexivity].
Defined.
End witnesses.

End Runner.
