(* ===== verification/Toml.v ===== *)
(** * TOML values: what the code uses of the [toml] crate

    The grammar is the crate's ([TomlText] is its parser); the tree it yields
    and the accessors on it ([Value::get], [as_str], [as_array],
    [as_integer]) are modelled, and with them the reading of a table into a
    struct that [#[derive(Deserialize)]] generates. *)

From S2P Require Import Prelude.

Module Toml.

(** [toml::Value]; floats and dates are never inspected. *)
Inductive toml :=
| TString (s : bytes)
| TInteger (z : Z)
| TBoolean (b : bool)
| TArray (items : list toml)
| TTable (fields : list (bytes * toml))
| TOther.

(** [toml::from_str::<Value>]: [None] is a syntax error. *)
Class TomlText := toml_parse : bytes → option toml.

Fixpoint field (key : bytes) (fields : list (bytes * toml)) : option toml :=
  match fields with
  | [] => None
  | (k, v) :: rest => if bool_decide (k = key) then Some v else field key rest
  end.

(** [Value::get(&str)]: [None] on anything but a table. *)
Definition get (v : toml) (key : bytes) : option toml :=
  match v with TTable fields => field key fields | _ => None end.

Definition as_str (v : toml) : option bytes := match v with TString s => Some s | _ => None end.
Definition as_integer (v : toml) : option Z := match v with TInteger z => Some z | _ => None end.
Definition as_array (v : toml) : option (list toml) := match v with TArray l => Some l | _ => None end.

(** [a.iter().filter_map(|v| v.as_str().map(String::from)).collect()]. *)
Definition strings (l : list toml) : list bytes := omap as_str l.

(** ** Deserialising a table into a struct *)

(** [Vec<String>]: every element must be a string. *)
Definition de_strings (v : toml) : option (list bytes) :=
  items ← as_array v; mapM as_str items.

(** [#[serde(default)]]: an absent field is the default, a present one must
    have the right shape. *)
Definition de_default {A} (de : toml → option A) (d : A) (o : option toml) : option A :=
  match o with None => Some d | Some v => de v end.

(** A struct is read from a table. *)
Definition de_table (v : toml) : option (list (bytes * toml)) :=
  match v with TTable fields => Some fields | _ => None end.

Lemma de_strings_strings v l items :
  de_strings v = Some l → as_array v = Some items → strings items = l.
Proof.
  unfold de_strings, strings. intros H Hi. rewrite Hi in H. cbn in H. clear Hi.
  apply mapM_Some in H. induction H as [|i s items l Hi _ IH]; cbn; [done|]. by rewrite Hi, IH.
Qed.

End Toml.
