(* ===== verification/Auth.v ===== *)
(** * Authorization engines ([cranelift/src/auth.rs], [policy.rs])

    The [AuthorizationEngine] trait with its implementations: the grants of
    loaded manifests, a Cedar policy set, [AllowAll], [DenyAll]; and the
    process-wide state behind [check] (installed engine, merged manifests,
    deployment principal). The clock is an argument of [authorize], because
    one implementation reads it. *)

From S2P Require Import Prelude Text Toml.
Import Toml.

Module Auth.

Inductive Decision := Allow | Deny.
#[export] Instance decision_eq_dec : EqDecision Decision.
Proof. solve_decision. Defined.

(** The trait: [authorize(&self, principal, action, resource)] at a time. *)
Class AuthorizationEngine (T : Type) :=
  authorize : T → Z → bytes → bytes → bytes → res bytes Decision.

(** [Box<dyn AuthorizationEngine>]. *)
Record dyn_engine := Dyn { dyn_T : Type; dyn_impl : AuthorizationEngine dyn_T; dyn_val : dyn_T }.
Arguments Dyn {_ _} _.
#[export] Instance dyn_authorize : AuthorizationEngine dyn_engine := λ d,
  @authorize (dyn_T d) (dyn_impl d) (dyn_val d).

Inductive AllowAll_t := AllowAll.
#[export] Instance allow_all_engine : AuthorizationEngine AllowAll_t := λ _ _ _ _ _, Ok Allow.

Inductive DenyAll_t := DenyAll.
#[export] Instance deny_all_engine : AuthorizationEngine DenyAll_t := λ _ _ _ _ _, Ok Deny.

(** ** Manifest grants *)
Inductive LiquidMode := Off | Optional | Required.
#[export] Instance liquid_mode_eq_dec : EqDecision LiquidMode.
Proof. solve_decision. Defined.

Definition liquid_parse (s : bytes) : res bytes LiquidMode :=
  if bool_decide (s = str "off") then Ok Off
  else if bool_decide (s = str "optional") then Ok Optional
  else if bool_decide (s = str "required") then Ok Required
  else Err (str "[verify] liquid must be off, optional or required, got {:?}").

Record GrantsToml := { gt_kernel : list bytes; gt_effects : list bytes; gt_zenodo : list bytes }.
Record VerifyToml := { vt_liquid : option bytes; vt_qualifiers : list bytes }.
Record ManifestToml := { mt_name : bytes; mt_grants : GrantsToml; mt_verify : VerifyToml }.

Definition de_module (v : toml) : option bytes :=
  fields ← de_table v; n ← field (str "name") fields; as_str n.

Definition de_grants (v : toml) : option GrantsToml :=
  fields ← de_table v;
  kernel ← de_default de_strings [] (field (str "kernel") fields);
  effects ← de_default de_strings [] (field (str "effects") fields);
  zenodo ← de_default de_strings [] (field (str "zenodo") fields);
  Some {| gt_kernel := kernel; gt_effects := effects; gt_zenodo := zenodo |}.

Definition de_verify (v : toml) : option VerifyToml :=
  fields ← de_table v;
  liquid ← de_default (λ x, Some <$> as_str x) None (field (str "liquid") fields);
  qualifiers ← de_default de_strings [] (field (str "qualifiers") fields);
  Some {| vt_liquid := liquid; vt_qualifiers := qualifiers |}.

Definition de_manifest (v : toml) : option ManifestToml :=
  fields ← de_table v;
  m ← field (str "module") fields;
  name ← de_module m;
  grants ← de_default de_grants {| gt_kernel := []; gt_effects := []; gt_zenodo := [] |}
             (field (str "grants") fields);
  verify ← de_default de_verify {| vt_liquid := None; vt_qualifiers := [] |}
             (field (str "verify") fields);
  Some {| mt_name := name; mt_grants := grants; mt_verify := verify |}.

Record ManifestAuthEngine := {
  ae_grants : gmap bytes (gset bytes);
  ae_effects : gmap bytes (gset bytes);
  ae_liquid : LiquidMode;
  ae_qualifiers : list bytes
}.

Definition engine_new : ManifestAuthEngine :=
  {| ae_grants := ∅; ae_effects := ∅; ae_liquid := Off; ae_qualifiers := [] |}.

Definition from_toml_str `{TomlText} (s : bytes) : res bytes ManifestAuthEngine :=
  manifest ← ok_or (v ← toml_parse s; de_manifest v) (str "TOML parse error: {}");
  let module_name := mt_name manifest in
  let callables := list_to_set (gt_kernel (mt_grants manifest)) ∪
                   list_to_set (gt_zenodo (mt_grants manifest)) : gset bytes in
  let effects := list_to_set (gt_effects (mt_grants manifest)) : gset bytes in
  liquid ← match vt_liquid (mt_verify manifest) with
           | None => Ok Off
           | Some s => liquid_parse s
           end;
  Ok {| ae_grants := {[module_name := callables]}; ae_effects := {[module_name := effects]};
        ae_liquid := liquid; ae_qualifiers := vt_qualifiers (mt_verify manifest) |}.

Definition liquid_mode (e : ManifestAuthEngine) : LiquidMode := ae_liquid e.
Definition liquid_qualifiers (e : ManifestAuthEngine) : list bytes := ae_qualifiers e.

(** [map.entry(k).or_default().extend(set)]. *)
Definition extend_entry (m : gmap bytes (gset bytes)) (k : bytes) (s : gset bytes) :
    gmap bytes (gset bytes) :=
  <[k := default ∅ (m !! k) ∪ s]> m.

Definition merge_liquid (a b : LiquidMode) : LiquidMode :=
  match a, b with
  | Required, _ | _, Required => Required
  | Optional, _ | _, Optional => Optional
  | _, _ => Off
  end.

Definition merge_qualifier (qs : list bytes) (q : bytes) : list bytes :=
  if bool_decide (q ∈ qs) then qs else qs ++ [q].

Definition merge (self other : ManifestAuthEngine) : ManifestAuthEngine :=
  let '(grants, effects) :=
    foldl (λ '(g, e) '(m, callables), (extend_entry g m callables, extend_entry e m ∅))
          (ae_grants self, ae_effects self) (map_to_list (ae_grants other)) in
  let effects := foldl (λ e '(m, effs), extend_entry e m effs) effects
                       (map_to_list (ae_effects other)) in
  {| ae_grants := grants; ae_effects := effects;
     ae_liquid := merge_liquid (ae_liquid self) (ae_liquid other);
     ae_qualifiers := foldl merge_qualifier (ae_qualifiers self) (ae_qualifiers other) |}.

Definition grant (e : ManifestAuthEngine) (m callable : bytes) : ManifestAuthEngine :=
  {| ae_grants := extend_entry (ae_grants e) m {[callable]}; ae_effects := ae_effects e;
     ae_liquid := ae_liquid e; ae_qualifiers := ae_qualifiers e |}.

Definition grant_effect (e : ManifestAuthEngine) (m effect : bytes) : ManifestAuthEngine :=
  {| ae_grants := ae_grants e; ae_effects := extend_entry (ae_effects e) m {[effect]};
     ae_liquid := ae_liquid e; ae_qualifiers := ae_qualifiers e |}.

(** [map.get(k).is_some_and(|set| set.contains(x))]. *)
Definition holds (m : gmap bytes (gset bytes)) (k x : bytes) : bool :=
  match m !! k with Some s => bool_decide (x ∈ s) | None => false end.

Definition is_granted (e : ManifestAuthEngine) : bytes → bytes → bool := holds (ae_grants e).
Definition is_effect_granted (e : ManifestAuthEngine) : bytes → bytes → bool := holds (ae_effects e).

#[export] Instance manifest_engine : AuthorizationEngine ManifestAuthEngine :=
  λ e _ principal action resource,
  if bool_decide (action = str "Call") then
    Ok (if is_granted e principal resource then Allow else Deny)
  else if bool_decide (action = str "Effect") then
    Ok (if is_effect_granted e principal resource then Allow else Deny)
  else Ok Deny.

(** ** Cedar *)

(** [cedar_policy]: policy sets, entity ids, requests with an empty context,
    and the decision over the empty entity store. *)
Class CedarVm := {
  cv_policies : Type;
  cv_empty : cv_policies;
  cv_parse : bytes → option cv_policies;
  cv_uid : Type;
  cv_parse_uid : bytes → option cv_uid;
  cv_request : Type;
  cv_request_new : cv_uid → cv_uid → cv_uid → option cv_request;
  cv_decide : cv_request → cv_policies → Decision
}.

Record CedarVmEngine `{CedarVm} := { ce_policies : cv_policies }.

Section cedar.
Context `{CedarVm}.

Definition cedar_new : CedarVmEngine := {| ce_policies := cv_empty |}.

(** A policy text replaces the set; a bad one leaves it. *)
Definition load_policy (policy_src : bytes) : stm CedarVmEngine bytes () := λ e,
  match cv_parse policy_src with
  | Some ps => ({| ce_policies := ps |}, Ok ())
  | None => (e, Err (str "Policy parse error: {}"))
  end.

Definition quoted (kind name : bytes) : bytes := kind ++ str "::" ++ [Byte.x22] ++ name ++ [Byte.x22].

Definition is_authorized (e : CedarVmEngine) (principal_mod action resource_mod : bytes)
    : res bytes bool :=
  principal ← ok_or (cv_parse_uid (quoted (str "Module") principal_mod)) (str "Invalid principal: {}");
  action ← ok_or (cv_parse_uid (quoted (str "Action") action)) (str "Invalid action: {}");
  resource ← ok_or (cv_parse_uid (quoted (str "Module") resource_mod)) (str "Invalid resource: {}");
  request ← ok_or (cv_request_new principal action resource) (str "Request creation failed: {}");
  Ok (match cv_decide request (ce_policies e) with Allow => true | Deny => false end).

#[export] Instance cedar_engine : AuthorizationEngine CedarVmEngine :=
  λ e _ principal action resource,
  allowed ← is_authorized e principal action resource;
  Ok (if allowed : bool then Allow else Deny).

Definition cedar_check (e : CedarVmEngine) (principal action resource : bytes) : res bytes () :=
  match is_authorized e principal action resource with
  | Ok true => Ok ()
  | Ok false => Err (str "Cedar Policy Denied: {} cannot {} {}")
  | Err e => Err (str "Cedar Error: {}")
  | Panic => Panic
  end.
End cedar.

(** ** The process-wide engine

    [AUTH_ENGINE], [MANIFEST_ENGINE] and [DEPLOYMENT_PRINCIPAL]; the locks are
    never poisoned (nothing panics while holding one for writing). *)
Record AuthState := {
  au_engine : option dyn_engine;
  au_manifest : ManifestAuthEngine;
  au_principal : option bytes
}.

Definition auth_init : AuthState :=
  {| au_engine := None; au_manifest := engine_new; au_principal := None |}.

Definition set_auth_engine (e : dyn_engine) (s : AuthState) : AuthState :=
  {| au_engine := Some e; au_manifest := au_manifest s; au_principal := au_principal s |}.
Definition set_deployment_principal (name : bytes) (s : AuthState) : AuthState :=
  {| au_engine := au_engine s; au_manifest := au_manifest s; au_principal := Some name |}.
Definition deployment_principal (s : AuthState) : option bytes := au_principal s.
Definition set_deny_all (s : AuthState) : AuthState := set_auth_engine (Dyn DenyAll) s.
Definition set_allow_all (s : AuthState) : AuthState := set_auth_engine (Dyn AllowAll) s.

Definition check_with (e : dyn_engine) (now : Z) (principal action resource : bytes) : res bytes () :=
  match authorize e now principal action resource with
  | Ok Allow => Ok ()
  | Ok Deny => Err (str "UK-4001: Authorization denied: {} is not granted {}")
  | Err e => Err e
  | Panic => Panic
  end.

(** With no engine installed, [DenyAll] is installed and the check repeated. *)
Definition check (now : Z) (principal action resource : bytes) : stm AuthState bytes () := λ s,
  match au_engine s with
  | Some e => (s, check_with e now principal action resource)
  | None => (set_deny_all s, check_with (Dyn DenyAll) now principal action resource)
  end.

Section load.
Context `{TomlText}.

(** [NameOnly]: the [[module] name] alone, empty on a failure. *)
Definition new_engine_principal (toml_str : bytes) : bytes :=
  default [] (v ← toml_parse toml_str; fields ← de_table v; m ← field (str "module") fields; de_module m).

(** The C entry point: [None] is a null pointer. *)
Definition safestos_load_auth_manifest (ptr : option bytes) (s : AuthState) : AuthState * Z :=
  match ptr with
  | None => (s, 0)
  | Some slice =>
      if bool_decide (slice = []) then (s, 0)
      else if negb (utf8_valid slice) then (s, 0)
      else match from_toml_str slice with
           | Ok new_engine =>
               let engine := merge (au_manifest s) new_engine in
               let s := {| au_engine := Some (Dyn engine); au_manifest := engine;
                           au_principal := au_principal s |} in
               (set_deployment_principal (new_engine_principal slice) s, 1)
           | _ => (s, 0)
           end
  end.
End load.

(** ** Merging *)
Lemma holds_spec m k x : holds m k x = true ↔ ∃ s, m !! k = Some s ∧ x ∈ s.
Proof.
  unfold holds. destruct (m !! k) as [s|]; [|naive_solver].
  rewrite bool_decide_eq_true. naive_solver.
Qed.

Lemma holds_extend m k s k' x :
  holds (extend_entry m k s) k' x = true ↔ holds m k' x = true ∨ (k' = k ∧ x ∈ s).
Proof.
  rewrite !holds_spec. unfold extend_entry. destruct (decide (k' = k)) as [->|Hk].
  - rewrite lookup_insert_eq. split.
    + intros (t & [= <-] & [Hx|Hx]%elem_of_union); [|by right].
      left. destruct (m !! k) as [u|]; [by exists u|set_solver].
    + intros [(t & -> & Hx)|[_ Hx]]; eexists; (split; [done|]); set_solver.
  - rewrite lookup_insert_ne by done. naive_solver.
Qed.

Lemma holds_extends (l : list (bytes * gset bytes)) m k x :
  holds (foldl (λ e '(a, s), extend_entry e a s) m l) k x = true ↔
  holds m k x = true ∨ ∃ s, (k, s) ∈ l ∧ x ∈ s.
Proof.
  revert m; induction l as [|[a s] l IH]; intros m; cbn; [set_solver|].
  rewrite IH, holds_extend. set_solver.
Qed.

Lemma merge_fold (l : list (bytes * gset bytes)) g e :
  foldl (λ '(g, e) '(m, callables), (extend_entry g m callables, extend_entry e m ∅)) (g, e) l =
  (foldl (λ e '(a, s), extend_entry e a s) g l,
   foldl (λ e '(a, s), extend_entry e a s) e ((λ p, (p.1, ∅)) <$> l)).
Proof. revert g e; induction l as [|[a s] l IH]; intros g e; cbn; [done|]. by rewrite IH. Qed.

Lemma holds_map_to_list m k x : holds m k x = true ↔ ∃ s, (k, s) ∈ map_to_list m ∧ x ∈ s.
Proof. rewrite holds_spec. by setoid_rewrite elem_of_map_to_list. Qed.

Lemma merge_granted a b m c :
  is_granted (merge a b) m c = true ↔ is_granted a m c = true ∨ is_granted b m c = true.
Proof.
  unfold merge. rewrite merge_fold. unfold is_granted; cbn.
  by rewrite holds_extends, <-holds_map_to_list.
Qed.

Lemma merge_effect_granted a b m c :
  is_effect_granted (merge a b) m c = true ↔
  is_effect_granted a m c = true ∨ is_effect_granted b m c = true.
Proof.
  unfold merge. rewrite merge_fold. unfold is_effect_granted; cbn.
  rewrite holds_extends, <-holds_map_to_list, holds_extends. split; [|tauto].
  intros [[?|(s & Hs & Hx)]|?]; [tauto| |tauto].
  apply list_elem_of_fmap in Hs as (? & [= -> ->] & _). set_solver.
Qed.

(** ** What a process that only loads manifests authorizes *)
Section loads.
Context `{TomlText}.

(** The manifest a text stands for, when the loader accepts it. *)
Definition accepted (t : bytes) : option ManifestToml :=
  if bool_decide (t = []) || negb (utf8_valid t) then None
  else match from_toml_str t with
       | Ok _ => v ← toml_parse t; de_manifest v
       | _ => None
       end.

Definition grants_call (m : ManifestToml) (p r : bytes) : Prop :=
  mt_name m = p ∧ (r ∈ gt_kernel (mt_grants m) ∨ r ∈ gt_zenodo (mt_grants m)).
Definition grants_effect (m : ManifestToml) (p r : bytes) : Prop :=
  mt_name m = p ∧ r ∈ gt_effects (mt_grants m).

Definition load_all (texts : list bytes) (s : AuthState) : AuthState :=
  foldl (λ s t, (safestos_load_auth_manifest (Some t) s).1) s texts.

(** The principal after loading: the name in the last accepted text. *)
Definition last_name (texts : list bytes) (p : option bytes) : option bytes :=
  foldl (λ p t, match accepted t with Some m => Some (mt_name m) | None => p end) p texts.

Lemma from_toml_granted t e p r :
  from_toml_str t = Ok e →
  ∃ m, (v ← toml_parse t; de_manifest v) = Some m ∧ new_engine_principal t = mt_name m ∧
    (is_granted e p r = true ↔ grants_call m p r) ∧
    (is_effect_granted e p r = true ↔ grants_effect m p r).
Proof.
  unfold from_toml_str. intros Ht. bind_inv. subst. injection Ht as <-. exists a. split; [done|].
  unfold is_granted, is_effect_granted, grants_call, grants_effect. cbn [ae_grants ae_effects].
  rewrite !holds_spec. split.
  { apply bind_Some in Ha as (v & Hv & (fs & Hfs & (mv & Hmv & (name & Hn & Ha)%bind_Some)%bind_Some)%bind_Some).
    apply bind_Some in Ha as (g & _ & (w & _ & [= <-])%bind_Some).
    unfold new_engine_principal. rewrite Hv. cbn [mbind option_bind]. rewrite Hfs. cbn [mbind option_bind].
    rewrite Hmv. cbn [mbind option_bind]. by rewrite Hn. }
  split.
  - split; [intros (x & [<- <-]%lookup_singleton_Some & Hx); set_solver|].
    intros [<- Hx]. eexists. rewrite lookup_singleton_eq. split; [done|]. set_solver.
  - split; [intros (x & [<- <-]%lookup_singleton_Some & Hx); set_solver|].
    intros [<- Hx]. eexists. rewrite lookup_singleton_eq. split; [done|]. set_solver.
Qed.

Lemma load_spec t s :
  match accepted t with
  | Some m =>
      ∃ e, from_toml_str t = Ok e ∧ (v ← toml_parse t; de_manifest v) = Some m ∧
      (safestos_load_auth_manifest (Some t) s).1 =
        {| au_engine := Some (Dyn (merge (au_manifest s) e));
           au_manifest := merge (au_manifest s) e; au_principal := Some (mt_name m) |}
  | None => (safestos_load_auth_manifest (Some t) s).1 = s
  end.
Proof.
  unfold accepted, safestos_load_auth_manifest. destruct (bool_decide (t = [])); cbn [orb]; [done|].
  destruct (utf8_valid t); cbn [negb]; [|done]. destruct (from_toml_str t) as [e|e|] eqn:E; [|done..].
  destruct (from_toml_granted t e [] [] E) as (m & Hm & Hn & _). rewrite Hm. exists e.
  split; [done|]. split; [done|]. cbn. unfold set_deployment_principal. cbn. by rewrite Hn.
Qed.

Lemma load_all_inv texts s :
  s = load_all texts auth_init →
  (au_engine s = None ∧ au_manifest s = engine_new ∨ au_engine s = Some (Dyn (au_manifest s))) ∧
  au_principal s = last_name texts None ∧
  ∀ p r,
    (is_granted (au_manifest s) p r = true ↔
       ∃ t m, t ∈ texts ∧ accepted t = Some m ∧ grants_call m p r) ∧
    (is_effect_granted (au_manifest s) p r = true ↔
       ∃ t m, t ∈ texts ∧ accepted t = Some m ∧ grants_effect m p r).
Proof.
  intros ->. induction texts as [|t texts (He & Hp & Hg)] using rev_ind.
  { split; [by left|]. split; [done|]. intros p r. cbn. unfold is_granted, is_effect_granted.
    rewrite !holds_spec. cbn. setoid_rewrite lookup_empty. set_solver. }
  unfold load_all, last_name in *. rewrite !foldl_snoc. set (s := foldl _ auth_init texts) in *.
  pose proof (load_spec t s) as Hl. destruct (accepted t) as [m|] eqn:E.
  - destruct Hl as (e & Ht & Hm & ->). cbn. split; [by right|]. split; [done|]. intros p r.
    rewrite merge_granted, merge_effect_granted.
    destruct (from_toml_granted t e p r Ht) as (m' & Hm' & _ & Hc' & Hf'). rewrite Hc', Hf'.
    assert (m' = m) as -> by congruence. destruct (Hg p r) as [Hc Hf]. rewrite Hc, Hf.
    setoid_rewrite elem_of_app. setoid_rewrite list_elem_of_singleton. split; split.
    1, 3: intros [(u & m0 & ? & ? & ?)|?]; [exists u, m0; tauto|exists t, m; tauto].
    all: intros (u & m0 & [?| ->] & ? & ?); [left; by eauto|]; right; by simplify_eq.
  - rewrite Hl. split; [done|]. split; [done|]. intros p r. destruct (Hg p r) as [Hc Hf]. rewrite Hc, Hf.
    setoid_rewrite elem_of_app. setoid_rewrite list_elem_of_singleton. split; (split; [naive_solver|]).
    all: intros (u & m0 & [?| ->] & ? & ?); [by eauto|congruence].
Qed.

(** C26. Least privilege: in a process that has loaded the manifest texts
    [texts] and nothing else, [check] allows a call exactly when one of the
    accepted texts is the principal's and lists the resource among its kernel
    or zenodo grants, an effect exactly when it lists it among its effects,
    and nothing else; it never panics, and the deployment principal is the
    module name of the last accepted text. With no text loaded everything is
    denied. *)
Theorem auth_exact texts now p a r :
  let s := load_all texts auth_init in
  ((check now p a r s).2 = Ok () ↔
     ∃ t m, t ∈ texts ∧ accepted t = Some m ∧
       (a = str "Call" ∧ grants_call m p r ∨ a = str "Effect" ∧ grants_effect m p r)) ∧
  (check now p a r s).2 ≠ Panic ∧
  deployment_principal s = last_name texts None.
Proof.
  intros s. destruct (load_all_inv texts s eq_refl) as (He & Hp & Hg).
  destruct (Hg p r) as [Hc Hf]. split_and!; [|unfold check|done].
  - assert ((check now p a r s).2 = check_with (Dyn (au_manifest s)) now p a r) as ->.
    { unfold check. destruct He as [[He1 He2]|He1]; rewrite He1; [rewrite He2|done]. unfold check_with, authorize, dyn_authorize.
      cbn. unfold manifest_engine, deny_all_engine.
      by destruct (bool_decide (a = str "Call")), (bool_decide (a = str "Effect")). }
    unfold check_with, authorize, dyn_authorize. cbn. unfold manifest_engine.
    destruct (bool_decide_reflect (a = str "Call")) as [->|Hna].
    { transitivity (is_granted (au_manifest s) p r = true); [by destruct (is_granted _ p r)|].
      rewrite Hc. split; intros (t & m & ? & ? & Hg'); exists t, m; [by auto|].
      destruct Hg' as [[_ ?]|[Ha _]]; [done|by vm_compute in Ha]. }
    destruct (bool_decide_reflect (a = str "Effect")) as [->|Hna'].
    { transitivity (is_effect_granted (au_manifest s) p r = true); [by destruct (is_effect_granted _ p r)|].
      rewrite Hf. split; intros (t & m & ? & ? & Hg'); exists t, m; [by auto|].
      destruct Hg' as [[Ha' _]|[_ ?]]; [by vm_compute in Ha'|done]. }
    split; [done|]. intros (t & m & _ & _ & [[? _]|[? _]]); done.
  - destruct He as [[He1 _]|He1]; rewrite He1; cbn; [done|]. unfold check_with, authorize, dyn_authorize. cbn.
    unfold manifest_engine. by repeat case_match.
Qed.
End loads.

End Auth.
