(* ===== verification/Arctic.v ===== *)
(** * The threshold authority ([arctic_authority/src/lib.rs],
    [cranelift/src/arctic_auth.rs])

    An engine that authorizes a call only against a delegation certificate
    whose threshold signature it verified when the certificate was
    registered. The signature scheme (crate [arctic]), the curve and JSON are
    an interface. *)

From S2P Require Import Prelude Auth.
Import Auth.

Module Arctic.

Record DelegationCertificate := {
  dc_issuer_did : bytes; dc_delegatee_pk : bytes; dc_expires_at : Z; dc_capabilities : list bytes
}.

(** [arctic_core::verify], [CompressedRistretto::decompress] and
    [serde_json::to_vec] of a certificate. *)
Class ArcticCore := {
  PubKey : Type;
  Signature : Type;
  ac_verify : PubKey → bytes → Signature → bool;
  ac_decompress : bytes → option PubKey;
  ac_json : DelegationCertificate → bytes
}.

Inductive AuthzResult := AzAllow | AzDeny.
Inductive ArcticAuthError := BadSignature | BadGroupKey.

Section engine.
Context `{ArcticCore}.

Definition group_pk_from_bytes (b : bytes) : res ArcticAuthError PubKey :=
  ok_or (ac_decompress b) BadGroupKey.

Record ArcticAuthEngine := { ar_group_pk : PubKey; ar_certs : gmap bytes DelegationCertificate }.

Definition arctic_new (pk : PubKey) : ArcticAuthEngine := {| ar_group_pk := pk; ar_certs := ∅ |}.

Definition register_certificate (cert : DelegationCertificate) (sig : Signature)
    : stm ArcticAuthEngine ArcticAuthError () := λ e,
  if negb (ac_verify (ar_group_pk e) (ac_json cert) sig) then (e, Err BadSignature)
  else ({| ar_group_pk := ar_group_pk e; ar_certs := <[dc_delegatee_pk cert := cert]> (ar_certs e) |}, Ok ()).

Definition revoke (delegatee_pk : bytes) (e : ArcticAuthEngine) : ArcticAuthEngine :=
  {| ar_group_pk := ar_group_pk e; ar_certs := delete delegatee_pk (ar_certs e) |}.

(** [now] is the clock; [duration_since(UNIX_EPOCH).unwrap()] panics before
    the epoch, and only when a certificate is there to expire. *)
Definition check (e : ArcticAuthEngine) (now : Z) (principal action resource : bytes)
    : res bytes AuthzResult :=
  if negb (bool_decide (action = str "Call")) then Ok AzDeny
  else match ar_certs e !! principal with
       | None => Ok AzDeny
       | Some cert =>
           if now <? 0 then Panic
           else if dc_expires_at cert <=? now then Ok AzDeny
           else if existsb (λ c, bool_decide (c = resource) || bool_decide (c = str "*"))
                           (dc_capabilities cert) then Ok AzAllow
           else Ok AzDeny
       end.

(** [ArcticVmEngine]: the bridge into the trait. *)
#[export] Instance arctic_engine : AuthorizationEngine ArcticAuthEngine :=
  λ e now principal action resource,
  r ← check e now principal action resource;
  Ok (match r with AzAllow => Allow | AzDeny => Deny end).

Definition install (e : ArcticAuthEngine) (s : AuthState) : AuthState :=
  set_auth_engine (Dyn e) s.

(** ** Runs of an authority *)
Inductive op := Register (cert : DelegationCertificate) (sig : Signature) | Revoke (pk : bytes).

Definition exec (e : ArcticAuthEngine) (o : op) : ArcticAuthEngine :=
  match o with
  | Register cert sig => (register_certificate cert sig e).1
  | Revoke pk => revoke pk e
  end.

(** The certificate in force for [p] after a run, read off the run itself:
    the last verified registration for [p], unless [p] was revoked since. *)
Fixpoint in_force (pk : PubKey) (p : bytes) (ops : list op) (cur : option DelegationCertificate)
    : option DelegationCertificate :=
  match ops with
  | [] => cur
  | Register cert sig :: ops =>
      in_force pk p ops
        (if bool_decide (dc_delegatee_pk cert = p) && ac_verify pk (ac_json cert) sig then Some cert else cur)
  | Revoke q :: ops => in_force pk p ops (if bool_decide (q = p) then None else cur)
  end.

Definition covers (cert : DelegationCertificate) (resource : bytes) : Prop :=
  resource ∈ dc_capabilities cert ∨ str "*" ∈ dc_capabilities cert.

Lemma exec_lookup ops e p :
  ar_group_pk (foldl exec e ops) = ar_group_pk e ∧
  ar_certs (foldl exec e ops) !! p = in_force (ar_group_pk e) p ops (ar_certs e !! p).
Proof.
  revert e; induction ops as [|[cert sig|q] ops IH]; intros e; cbn [foldl in_force exec]; [done| |].
  - unfold register_certificate. destruct (ac_verify _ _ sig) eqn:Hv; cbn [negb fst];
      destruct (IH (if ac_verify (ar_group_pk e) (ac_json cert) sig then
        {| ar_group_pk := ar_group_pk e; ar_certs := <[dc_delegatee_pk cert := cert]> (ar_certs e) |} else e))
        as [IH1 IH2]; rewrite Hv in IH1, IH2; cbn in IH1, IH2; rewrite IH1, IH2, ?andb_true_r, ?andb_false_r;
      [|done]. split; [done|]. f_equal. case_bool_decide as Hp.
    + subst p. by rewrite lookup_insert_eq.
    + by rewrite lookup_insert_ne.
  - destruct (IH (revoke q e)) as [IH1 IH2]. rewrite IH1, IH2. cbn. split; [done|]. f_equal.
    case_bool_decide as Hp; [subst; by rewrite lookup_delete_eq|by rewrite lookup_delete_ne].
Qed.

Lemma covers_spec cert resource :
  existsb (λ c, bool_decide (c = resource) || bool_decide (c = str "*")) (dc_capabilities cert) = true ↔
  covers cert resource.
Proof.
  rewrite existsb_exists. unfold covers. setoid_rewrite orb_true_iff.
  setoid_rewrite bool_decide_eq_true. setoid_rewrite <-list_elem_of_In. naive_solver.
Qed.

(** C37. No grant without a threshold signature: after any sequence of
    registrations (verified or not) and revocations, the installed authority
    allows a request exactly when it is a call, the last verified
    registration for the principal was not revoked since, it has not expired,
    and it lists the resource or the wildcard. *)
Theorem arctic_exact pk ops now principal action resource :
  0 ≤ now →
  authorize (foldl exec (arctic_new pk) ops) now principal action resource = Ok Allow ↔
  action = str "Call" ∧
  ∃ cert, in_force pk principal ops None = Some cert ∧ now < dc_expires_at cert ∧ covers cert resource.
Proof.
  intros Hn. destruct (exec_lookup ops (arctic_new pk) principal) as [_ Hl]. cbn in Hl.
  unfold authorize, arctic_engine, check.
  destruct (bool_decide_reflect (action = str "Call")) as [->|Ha]; cbn [negb]; [|naive_solver].
  rewrite Hl, lookup_empty. destruct (in_force pk principal ops None) as [cert|]; cbn [mbind res_bind]; [|naive_solver].
  destruct (Z.ltb_spec now 0); [lia|]. destruct (Z.leb_spec (dc_expires_at cert) now).
  - split; [done|]. intros (_ & ? & [= <-] & ? & _). lia.
  - destruct (existsb _ _) eqn:E; cbn [mbind res_bind].
    + apply covers_spec in E. split; [eauto|done].
    + split; [done|]. intros (_ & ? & [= <-] & _ & ?%covers_spec). congruence.
Qed.
End engine.

(** ** Witness *)
Section witnesses.

Definition toy_arctic : ArcticCore := {|
  PubKey := bytes; Signature := bytes;
  ac_verify pk msg sig := bool_decide (sig = pk ++ msg);
  ac_decompress := Some;
  ac_json c := dc_delegatee_pk c ++ concat (dc_capabilities c) |}.
Local Existing Instance toy_arctic.

Definition demo_cert : DelegationCertificate := {|
  dc_issuer_did := str "did:web:a"; dc_delegatee_pk := str "hot"; dc_expires_at := 100;
  dc_capabilities := [str "uk_observe"] |}.

Definition demo_ops : list (@op toy_arctic) :=
  [Register demo_cert (str "grouphotuk_observe" : @Signature toy_arctic);
   Register demo_cert (str "forged" : @Signature toy_arctic); Revoke (str "cold")].

Lemma arctic_exact_witness :
  authorize (foldl exec (arctic_new (H:=toy_arctic) (str "group")) demo_ops) 7 (str "hot") (str "Call")
    (str "uk_observe") = Ok Allow.
Proof.
  apply (arctic_exact (H:=toy_arctic) (str "group") demo_ops 7); [done|].
  split; [done|]. exists demo_cert. split; [by vm_compute|]. split; [done|]. left. apply list_elem_of_here.
Defined.
End witnesses.

End Arctic.
