(* ===== verification/Attest.v ===== *)
(** * The load-time attestation ([cranelift/src/liquid_attest.rs])

    The [liquid.ok] sidecar: its parser, the digest of a module's sources, and
    the gate that refuses a module whose attestation does not describe the
    bytes on disk. A module directory is a map from file names to what can be
    read of them. *)

From S2P Require Import Prelude Text Toml Auth.
Import Auth.

Module Attest.

(** FNV-1a, 64-bit, with its wrap-around. *)
Definition fnv_step (h : Z) (b : byte) : Z := (Z.lxor h (b2z b) * 0x00000100000001b3) mod 2 ^ 64.
Definition fnv1a (bs : bytes) : Z := foldl fnv_step 0xcbf29ce484222325 bs.

(** Directory entries: [None] is an entry [fs::read] fails on. *)
Abbreviation mdir := (gmap bytes (option bytes)).

Definition fs_read (d : mdir) (name : bytes) : option bytes := mjoin (d !! name).

Definition hash_file (d : mdir) (name : bytes) : option Z := fnv1a <$> fs_read d name.

(** [fs::read_to_string]: the bytes must be UTF-8. *)
Definition read_to_string (d : mdir) (name : bytes) : option bytes :=
  b ← fs_read d name; if utf8_valid b then Some b else None.

Record Attestation := {
  at_sources_hash : Z; at_mlw_hash : Z; at_prover : bytes; at_prover_version : bytes;
  at_verdict : bytes; at_trusted_contracts : Z
}.

(** The fields seen so far. *)
Record partial := {
  pa_sources_hash : option Z; pa_mlw_hash : option Z; pa_prover : option bytes;
  pa_prover_version : option bytes; pa_verdict : option bytes; pa_trusted_contracts : option Z
}.

Definition partial_none : partial := {|
  pa_sources_hash := None; pa_mlw_hash := None; pa_prover := None; pa_prover_version := None;
  pa_verdict := None; pa_trusted_contracts := None |}.

Definition set_key (p : partial) (key value : bytes) : res bytes partial :=
  let '{| pa_sources_hash := sh; pa_mlw_hash := mh; pa_prover := pr; pa_prover_version := pv;
          pa_verdict := ve; pa_trusted_contracts := tc |} := p in
  if bool_decide (key = str "sources_hash") then
    v ← ok_or (parse_uint (2 ^ 64) value) (str "liquid.ok: sources_hash {:?} is not a u64");
    Ok {| pa_sources_hash := Some v; pa_mlw_hash := mh; pa_prover := pr; pa_prover_version := pv;
          pa_verdict := ve; pa_trusted_contracts := tc |}
  else if bool_decide (key = str "mlw_hash") then
    v ← ok_or (parse_uint (2 ^ 64) value) (str "liquid.ok: mlw_hash {:?} is not a u64");
    Ok {| pa_sources_hash := sh; pa_mlw_hash := Some v; pa_prover := pr; pa_prover_version := pv;
          pa_verdict := ve; pa_trusted_contracts := tc |}
  else if bool_decide (key = str "prover") then
    Ok {| pa_sources_hash := sh; pa_mlw_hash := mh; pa_prover := Some value; pa_prover_version := pv;
          pa_verdict := ve; pa_trusted_contracts := tc |}
  else if bool_decide (key = str "prover_version") then
    Ok {| pa_sources_hash := sh; pa_mlw_hash := mh; pa_prover := pr; pa_prover_version := Some value;
          pa_verdict := ve; pa_trusted_contracts := tc |}
  else if bool_decide (key = str "verdict") then
    Ok {| pa_sources_hash := sh; pa_mlw_hash := mh; pa_prover := pr; pa_prover_version := pv;
          pa_verdict := Some value; pa_trusted_contracts := tc |}
  else if bool_decide (key = str "trusted_contracts") then
    v ← ok_or (parse_uint (2 ^ 32) value) (str "liquid.ok: trusted_contracts {:?} is not a u32");
    Ok {| pa_sources_hash := sh; pa_mlw_hash := mh; pa_prover := pr; pa_prover_version := pv;
          pa_verdict := ve; pa_trusted_contracts := Some v |}
  else Err (str "liquid.ok: unknown key {:?}").

Definition parse_line (p : partial) (raw : bytes) : res bytes partial :=
  let line := trim raw in
  if bool_decide (line = []) || bool_decide (is_Some (strip_prefix (str "#") line)) then Ok p
  else
  '(key, value) ← ok_or (split_once (str "=") line) (str "liquid.ok line {}: expected `key = value`");
  set_key p (trim key) (trim value).

Definition parse_attestation (text : bytes) : res bytes Attestation :=
  p ← foldM parse_line partial_none (lines text);
  sh ← ok_or (pa_sources_hash p) (str "liquid.ok: missing sources_hash");
  mh ← ok_or (pa_mlw_hash p) (str "liquid.ok: missing mlw_hash");
  pr ← ok_or (pa_prover p) (str "liquid.ok: missing prover");
  pv ← ok_or (pa_prover_version p) (str "liquid.ok: missing prover_version");
  ve ← ok_or (pa_verdict p) (str "liquid.ok: missing verdict");
  tc ← ok_or (pa_trusted_contracts p) (str "liquid.ok: missing trusted_contracts");
  Ok {| at_sources_hash := sh; at_mlw_hash := mh; at_prover := pr; at_prover_version := pv;
        at_verdict := ve; at_trusted_contracts := tc |}.

(** [Path::extension] of a file name: what follows the last dot, unless the
    only dot is the first byte. *)
Definition extension (name : bytes) : option bytes :=
  match reverse (split (z2b 46) name) with
  | ext :: (b :: rest) => match b, rest with [], [] => None | _, _ => Some ext end
  | _ => None
  end.

(** [.and_then(|e| e.to_str())]. *)
Definition ext_str (name : bytes) : option bytes :=
  e ← extension name; if utf8_valid e then Some e else None.

Definition dir_names (d : mdir) : list bytes := merge_sort digest_le (map_to_list d).*1.

Definition is_source (name : bytes) : bool :=
  let ext := default [] (ext_str name) in
  bool_decide (ext = str "aui") || bool_decide (ext = str "aum").

(** [out.sort()]: the entries of one directory in the order of their names. *)
Definition source_files (d : mdir) : list bytes :=
  filter (λ n, is_source n = true) (dir_names d).

Definition source_bytes (d : mdir) (acc name : bytes) : res bytes bytes :=
  if negb (utf8_valid name) then Err (str "non-UTF-8 source name")
  else
  b ← ok_or (fs_read d name) (str "cannot read {}: {}");
  Ok (acc ++ name ++ [Byte.x00] ++ b ++ [Byte.x00]).

Definition sources_preimage (d : mdir) : res bytes bytes :=
  foldM (source_bytes d) [] (source_files d).

Definition sources_digest (d : mdir) : res bytes Z :=
  acc ← sources_preimage d; Ok (fnv1a acc).

(** The loop over every [.mlw] in the directory. *)
Definition check_mlw (d : mdir) (want : Z) (_ : ()) (name : bytes) : res bytes () :=
  if negb (bool_decide (ext_str name = Some (str "mlw"))) then Ok ()
  else match hash_file d name with
       | None => Ok ()
       | Some actual =>
           if negb (actual =? want) then
             Err (str "LiquidAttestationStale: liquid.ok records mlw_hash {:#x} but {} hashes to {:#x}")
           else Ok ()
       end.

Definition check_verdict (att : Attestation) : res bytes bytes :=
  if bool_decide (at_verdict att = str "proved") then
    Ok (str "liquid.ok accepted: {} {} proved {} contract(s), {} trusted")
  else if bool_decide (at_verdict att = str "refused") then
    Err (str "LiquidAttestationRefused: the prover refused this module's contracts")
  else if bool_decide (at_verdict att = str "unknown") then
    Err (str "LiquidAttestationUnknown: the prover was inconclusive")
  else Err (str "LiquidAttestationInvalid: verdict {:?} is not proved/refused/unknown").

(** From the parsed attestation on. *)
Definition check_attestation (d : mdir) (att : Attestation) : res bytes bytes :=
  match sources_digest d with
  | Ok want_sources =>
      if negb (at_sources_hash att =? want_sources) then
        Err (str "LiquidAttestationStale: liquid.ok records sources_hash {:#x} but the sources on disk hash to {:#x}")
      else
      _ ← foldM (check_mlw d (at_mlw_hash att)) () (dir_names d);
      check_verdict att
  | Err e => Err (str "LiquidAttestationUndecidable: {}")
  | Panic => Panic
  end.

Definition verify_module (d : mdir) (mode : LiquidMode) : res bytes bytes :=
  if decide (mode = Off) then Ok (str "liquid checking off for this module")
  else match read_to_string d (str "liquid.ok") with
       | None =>
           if decide (mode = Optional) then Ok (str "no liquid.ok ({}); optional, continuing")
           else Err (str "LiquidAttestationMissing: {} declares liquid = required but has no liquid.ok ({})")
       | Some text =>
           match parse_attestation text with
           | Ok att => check_attestation d att
           | Err e =>
               if decide (mode = Optional) then Ok (str "unreadable liquid.ok ({}); optional, continuing")
               else Err (str "LiquidAttestationInvalid: {}")
           | Panic => Panic
           end
       end.

(** ** What the gate accepts *)

(** The attestation describes the directory: sources, obligations, verdict. *)
Definition current (d : mdir) (att : Attestation) : Prop :=
  sources_digest d = Ok (at_sources_hash att) ∧
  (∀ name b, d !! name = Some (Some b) → ext_str name = Some (str "mlw") → fnv1a b = at_mlw_hash att) ∧
  at_verdict att = str "proved".

Definition sidecar (d : mdir) (att : Attestation) : Prop :=
  ∃ text, read_to_string d (str "liquid.ok") = Some text ∧ parse_attestation text = Ok att.

Lemma set_key_no_panic p key value : set_key p key value ≠ Panic.
Proof. destruct p. unfold set_key. no_panic. Qed.

Lemma parse_attestation_no_panic text : parse_attestation text ≠ Panic.
Proof.
  unfold parse_attestation. apply no_panic_bind; [|intros p _; no_panic].
  apply foldM_no_panic. intros p raw _. unfold parse_line.
  destruct (_ || _); [done|]. apply no_panic_bind; [no_panic|intros [key value] _].
  apply set_key_no_panic.
Qed.

Lemma sources_digest_no_panic d : sources_digest d ≠ Panic.
Proof.
  unfold sources_digest, sources_preimage. apply no_panic_bind; [|done].
  apply foldM_no_panic. intros acc name _. unfold source_bytes. no_panic.
Qed.

Lemma elem_of_dir_names d name : name ∈ dir_names d ↔ is_Some (d !! name).
Proof.
  unfold dir_names. rewrite merge_sort_Permutation, list_elem_of_fmap. split.
  - intros ([n c] & -> & ?%elem_of_map_to_list). by exists c.
  - intros [c Hc]. exists (name, c). by rewrite elem_of_map_to_list.
Qed.

Lemma check_mlw_Ok d want name :
  check_mlw d want () name = Ok () ↔
  ∀ b, d !! name = Some (Some b) → ext_str name = Some (str "mlw") → fnv1a b = want.
Proof.
  unfold check_mlw, hash_file, fs_read. case_bool_decide as He; cbn [negb]; [|naive_solver].
  destruct (d !! name) as [[b|]|]; cbn [mjoin option_join fmap option_fmap option_map];
    [|naive_solver..].
  destruct (Z.eqb_spec (fnv1a b) want); cbn [negb]; naive_solver.
Qed.

Lemma check_attestation_spec d att :
  ((∃ note, check_attestation d att = Ok note) ↔ current d att) ∧ check_attestation d att ≠ Panic.
Proof.
  unfold check_attestation, current. pose proof (sources_digest_no_panic d).
  destruct (sources_digest d) as [want|e|]; [|naive_solver..].
  destruct (Z.eqb_spec (at_sources_hash att) want) as [->|]; cbn [negb]; [|naive_solver].
  assert (foldM (check_mlw d (at_mlw_hash att)) () (dir_names d) = Ok () ↔
    ∀ name b, d !! name = Some (Some b) → ext_str name = Some (str "mlw") → fnv1a b = at_mlw_hash att)
    as Hmlw.
  { rewrite foldM_unit_Ok, Forall_forall. setoid_rewrite check_mlw_Ok. split.
    - intros Hall name b Hb. apply (Hall name); [|done]. apply elem_of_dir_names. eauto.
    - intros Hall name _. by apply Hall. }
  assert (foldM (check_mlw d (at_mlw_hash att)) () (dir_names d) ≠ Panic) as Hp.
  { apply foldM_no_panic. intros [] name _. unfold check_mlw. no_panic. }
  destruct (foldM _ _ _) as [[]|e|]; cbn [mbind res_bind].
  - apply proj1 in Hmlw. specialize (Hmlw eq_refl). unfold check_verdict. case_bool_decide as Hv; [split; [|done]; split; [done|eauto]|].
    split; [|by repeat case_bool_decide]. split; [|by intros (_ & _ & ?)]. intros [note Hn].
    by repeat case_bool_decide.
  - split; [|done]. split; [by intros [? ?]|]. intros (_ & Hm & _). by apply Hmlw in Hm.
  - done.
Qed.

(** The load-time gate: a module that requires attestation is hosted
    exactly when its sidecar reads and parses, the digest it records is that
    of the sources on disk, every obligation file on disk has the recorded
    hash, and the verdict is [proved]; an optional one is refused exactly when
    a sidecar that parses fails that test; with the check off nothing is
    refused. The gate never panics, whatever the sidecar holds. *)
Theorem attest_exact d mode :
  ((∃ note, verify_module d mode = Ok note) ↔
   match mode with
   | Off => True
   | Optional => ∀ att, sidecar d att → current d att
   | Required => ∃ att, sidecar d att ∧ current d att
   end) ∧
  verify_module d mode ≠ Panic.
Proof.
  unfold verify_module, sidecar.
  destruct mode; repeat (destruct (decide _); try done); [split; [split; eauto|done]|..];
    destruct (read_to_string d _) as [text|].
  2: { split; [|done]. split; [by intros _ att (? & ? & _)|eauto]. }
  3: { split; [|done]. split; [by intros [? ?]|by intros (att & (? & ? & _) & _)]. }
  all: pose proof (parse_attestation_no_panic text) as Hp;
    destruct (parse_attestation text) as [att|err|] eqn:E; [|split; [|done]|done].
  - destruct (check_attestation_spec d att) as [Hc Hn]. split; [|done]. rewrite Hc. split.
    + intros Hcur att' (t & [= <-] & ?). by assert (att' = att) as -> by congruence.
    + intros Hall. apply Hall. eauto.
  - split; [intros _ att (t & [= <-] & ?); congruence|eauto].
  - destruct (check_attestation_spec d att) as [Hc Hn]. split; [|done]. rewrite Hc. split; [eauto|].
    intros (att' & (t & [= <-] & ?) & Hcur). by assert (att = att') as -> by congruence.
  - split; [by intros [? ?]|]. intros (att & (t & [= <-] & ?) & _). congruence.
Qed.

(** ** What the source digest covers *)

(** The sources of a directory with their contents, in digest order. *)
Definition sources (d : mdir) : list (bytes * bytes) :=
  (λ n, (n, default [] (fs_read d n))) <$> source_files d.

(** No file name holds a NUL; nothing forbids one in a source. *)
Definition nul_free (l : list (bytes * bytes)) : Prop :=
  Forall (λ p, (Byte.x00 ∉ p.1) ∧ (Byte.x00 ∉ p.2)) l.

Definition frame (l : list (bytes * bytes)) : bytes :=
  concat ((λ p, p.1 ++ [Byte.x00] ++ p.2 ++ [Byte.x00]) <$> l).

Lemma preimage_frame d acc : sources_preimage d = Ok acc → acc = frame (sources d).
Proof.
  unfold sources_preimage, sources. generalize (source_files d) as names. intros names.
  assert (∀ pre, foldM (source_bytes d) pre names = Ok acc →
    acc = pre ++ frame ((λ n, (n, default [] (fs_read d n))) <$> names)) as H; [|apply H].
  induction names as [|n names IH]; intros pre; cbn [foldM fmap list_fmap].
  { intros [= <-]. by rewrite app_nil_r. }
  intros (pre' & Hb & ->%IH)%bind_Ok. unfold source_bytes in Hb. case_if_in Hb. bind_inv. injection Hb as <-.
  rewrite Ha. unfold frame. cbn. by rewrite <-!app_assoc.
Qed.

Lemma split_frame l :
  nul_free l → split Byte.x00 (frame l) = concat ((λ p, [p.1; p.2]) <$> l) ++ [[]].
Proof.
  induction 1 as [|[n b] l [Hn Hb] _ IH]; cbn [fmap list_fmap concat fst snd] in *; [done|].
  unfold frame in *. cbn [fmap list_fmap concat fst snd]. rewrite <-!app_assoc. cbn [app].
  rewrite (split_app_sep _ n), (split_app_sep _ b) by done. by do 2 f_equal.
Qed.

(** Renaming, adding, removing or editing a source changes the bytes that are
    hashed, for sources without NUL bytes. *)
Lemma sources_preimage_inj d1 d2 acc :
  sources_preimage d1 = Ok acc → sources_preimage d2 = Ok acc →
  nul_free (sources d1) → nul_free (sources d2) → sources d1 = sources d2.
Proof.
  intros H1%preimage_frame H2%preimage_frame Hf1 Hf2.
  assert (concat ((λ p, [p.1; p.2]) <$> sources d1) = concat ((λ p, [p.1; p.2]) <$> sources d2)) as Hc.
  { apply (app_inv_tail [[]]). rewrite <-!split_frame by done. congruence. }
  clear -Hc. revert Hc. generalize (sources d1) as l1, (sources d2) as l2.
  induction l1 as [|[a b] l1 IH]; intros [|[a' b'] l2]; cbn; try done.
  intros [= -> -> Hc]. f_equal. by apply IH.
Qed.

(** A NUL in a source defeats the framing: two files and one have the same
    digest. *)
Lemma nul_collision :
  let d1 : mdir := {[str "a.aum" := Some (str "x" ++ [Byte.x00] ++ str "b.aum" ++ [Byte.x00] ++ str "y")]} in
  let d2 : mdir := <[str "b.aum" := Some (str "y")]> {[str "a.aum" := Some (str "x")]} in
  sources_preimage d1 = sources_preimage d2 ∧ sources d1 ≠ sources d2.
Proof. by vm_compute. Qed.

End Attest.
