(* ===== verification/Confine.v ===== *)
(** * The engine sandbox ([cranelift/src/sandbox.rs])

    The seccomp program built from the deny-list, run by an interpreter for
    the classic-BPF instructions it uses; the Landlock rights; and the
    confinement sequence a child runs before [execve]. The kernel is an
    interface: a system call is a request with an integer result. *)

From S2P Require Import Prelude Text.

Module Confine.

(** ** Landlock access rights *)
Definition FS_EXECUTE : Z := Z.shiftl 1 0.
Definition FS_WRITE_FILE : Z := Z.shiftl 1 1.
Definition FS_READ_FILE : Z := Z.shiftl 1 2.
Definition FS_READ_DIR : Z := Z.shiftl 1 3.
Definition FS_REMOVE_DIR : Z := Z.shiftl 1 4.
Definition FS_REMOVE_FILE : Z := Z.shiftl 1 5.
Definition FS_MAKE_CHAR : Z := Z.shiftl 1 6.
Definition FS_MAKE_DIR : Z := Z.shiftl 1 7.
Definition FS_MAKE_REG : Z := Z.shiftl 1 8.
Definition FS_MAKE_SOCK : Z := Z.shiftl 1 9.
Definition FS_MAKE_FIFO : Z := Z.shiftl 1 10.
Definition FS_MAKE_BLOCK : Z := Z.shiftl 1 11.
Definition FS_MAKE_SYM : Z := Z.shiftl 1 12.

Definition FS_ALL_WRITE : Z :=
  foldl Z.lor FS_WRITE_FILE [FS_REMOVE_DIR; FS_REMOVE_FILE; FS_MAKE_CHAR; FS_MAKE_DIR; FS_MAKE_REG;
                             FS_MAKE_SOCK; FS_MAKE_FIFO; FS_MAKE_BLOCK; FS_MAKE_SYM].
Definition FS_ALL_READ : Z := foldl Z.lor FS_EXECUTE [FS_READ_FILE; FS_READ_DIR].

(** ** The deny-list and its filter *)

(** [libc]: system-call numbers of the target. *)
Class Libc := sys_nr : bytes → Z.

Definition denied_names : list bytes := str <$>
  ["ptrace"; "mount"; "umount2"; "pivot_root"; "reboot"; "kexec_load"; "init_module"; "finit_module";
   "delete_module"; "open_by_handle_at"; "setns"; "perf_event_open"; "bpf"; "userfaultfd"; "quotactl";
   "swapon"; "swapoff"; "ioperm"; "iopl"; "kcmp"]%string.

Definition DENY_LIST `{Libc} : list Z := sys_nr <$> denied_names.

(** A [sock_filter]: code, jump-if-true, jump-if-false, operand. *)
Definition insn : Type := Z * Z * Z * Z.

Definition RET_ALLOW : Z := 0x7fff0000.
Definition RET_ERRNO_EPERM : Z := Z.lor 0x00050000 1.

(** The loop over the deny-list; [n] is its length, [i] the index. *)
Fixpoint jeqs (n i : Z) (l : list Z) : list insn :=
  match l with
  | [] => []
  | nr :: l => (0x15, (n - i) mod 2 ^ 8, 0, nr mod 2 ^ 32) :: jeqs n (i + 1) l
  end.

Definition build_filter (deny : list Z) : list insn :=
  (0x20, 0, 0, 0) :: jeqs (Zlen deny) 0 deny ++ [(0x06, 0, 0, RET_ALLOW); (0x06, 0, 0, RET_ERRNO_EPERM)].

Definition build_deny_filter `{Libc} : list insn := build_filter DENY_LIST.

(** *** Classic BPF, the instructions used

    [BPF_LD|BPF_W|BPF_ABS] at offset 0 loads the system-call number of the
    [seccomp_data], [BPF_JMP|BPF_JEQ|BPF_K] compares the accumulator,
    [BPF_RET|BPF_K] returns. Jumps only go forward, so a run is structural in
    the rest of the program. [None] is a program the kernel would refuse. *)
Fixpoint bpf_run (nr a : Z) (skip : Z) (prog : list insn) : option Z :=
  match prog with
  | [] => None
  | (code, jt, jf, k) :: rest =>
      if 0 <? skip then bpf_run nr a (skip - 1) rest
      else if code =? 0x20 then if k =? 0 then bpf_run nr nr 0 rest else None
      else if code =? 0x15 then bpf_run nr a (if a =? k then jt else jf) rest
      else if code =? 0x06 then Some k
      else None
  end.

(** ** The confinement sequence *)
Inductive syscall :=
| Getuid | Getgid
| Unshare (flags : list bytes)
| OpenPath (path : bytes) (flags : bytes)
| Write (fd : Z) (data : bytes)
| Close (fd : Z)
| PrctlNoNewPrivs
| PrctlSeccomp (len : Z) (filter : list insn)
| LandlockCreate (handled : Z)
| LandlockAddBeneath (ruleset : Z) (access : Z) (fd : Z)
| LandlockRestrictSelf (ruleset : Z).

Class Kernel (W : Type) := do_sys : syscall → W → W * Z.

Inductive SandboxError := LastOsError | PermissionDenied (what : bytes).

Section setup.
Context `{Libc} {W : Type} `{Kernel W}.

Definition sys (c : syscall) : stm W SandboxError Z := λ w, let '(w, r) := do_sys c w in (w, Ok r).

(** [if r != 0 { return Err(last_os_error()) }]. *)
Definition must (ok : Z → bool) (c : syscall) : stm W SandboxError Z :=
  r ← sys c; if ok r then mret r else stm_err LastOsError.

Definition write_map (file : bytes) (id : Z) : stm W SandboxError () :=
  let s := str "0 " ++ dec id ++ str " 1" ++ [LF] in
  fd ← must (λ fd, 0 <=? fd) (OpenPath file (str "O_WRONLY|O_CLOEXEC"));
  n ← sys (Write fd s);
  _ ← sys (Close fd);
  if negb (n =? Zlen s) then stm_err (PermissionDenied (str "write {file} failed")) else mret ().

Definition apply_seccomp : stm W SandboxError () :=
  let filters := build_deny_filter in
  _ ← must (λ r, r =? 0) (PrctlSeccomp (Zlen filters mod 2 ^ 16) filters); mret ().

(** [CString::new(dir.to_str().unwrap_or(empty)).unwrap()]: a name that is not
    UTF-8 is the empty path, an interior NUL panics. *)
Definition c_path (dir : bytes) : res SandboxError bytes :=
  let p := if utf8_valid dir then dir else [] in
  if bool_decide (Byte.x00 ∈ p) then Panic else Ok p.

Definition add_beneath (ruleset : Z) (access : Z) (skip_missing : bool) (dir : bytes)
    : stm W SandboxError () :=
  c ← stm_lift (c_path dir);
  fd ← sys (OpenPath c (str "O_PATH|O_CLOEXEC"));
  if fd <? 0 then if skip_missing then mret () else stm_err LastOsError
  else
  r ← sys (LandlockAddBeneath ruleset access fd);
  _ ← sys (Close fd);
  if negb (r =? 0) then stm_err LastOsError else mret ().

Definition apply_landlock (writable readable : list bytes) : stm W SandboxError () :=
  ruleset ← must (λ r, 0 <=? r) (LandlockCreate (Z.lor FS_ALL_READ FS_ALL_WRITE));
  _ ← stm_foldl (λ _ d, add_beneath ruleset (Z.lor FS_ALL_READ FS_ALL_WRITE) false d) () writable;
  _ ← stm_foldl (λ _ d, add_beneath ruleset FS_ALL_READ true d) () readable;
  _ ← must (λ r, r =? 0) (LandlockRestrictSelf ruleset);
  mret ().

Definition deny_setgroups : stm W SandboxError () :=
  fd ← sys (OpenPath (str "/proc/self/setgroups") (str "O_WRONLY|O_CLOEXEC"));
  if 0 <=? fd then _ ← sys (Write fd (str "deny")); _ ← sys (Close fd); mret () else mret ().

Definition setup_sandbox (writable readable : list bytes) : stm W SandboxError () :=
  uid ← sys Getuid;
  gid ← sys Getgid;
  _ ← must (λ r, r =? 0) (Unshare [str "CLONE_NEWUSER"]);
  _ ← deny_setgroups;
  _ ← write_map (str "/proc/self/uid_map") uid;
  _ ← write_map (str "/proc/self/gid_map") gid;
  _ ← must (λ r, r =? 0) (Unshare [str "CLONE_NEWNET"; str "CLONE_NEWIPC"]);
  _ ← must (λ r, r =? 0) PrctlNoNewPrivs;
  _ ← apply_seccomp;
  apply_landlock writable readable.
End setup.

(** ** The filter denies exactly the list *)
Lemma bpf_skip nr a skip l rest :
  0 ≤ skip → Zlen l = skip → bpf_run nr a skip (l ++ rest) = bpf_run nr a 0 rest.
Proof.
  intros Hs Hl. revert skip Hs Hl; induction l as [|[[[c jt] jf] k] l IH]; intros skip Hs Hl;
    cbn [length] in Hl; [by subst|].
  cbn [app bpf_run]. destruct (Z.ltb_spec 0 skip); [|lia]. apply IH; lia.
Qed.

Lemma length_jeqs n i l : length (jeqs n i l) = length l.
Proof. revert i; induction l as [|nr l IH]; intros i; cbn; [done|]. by rewrite IH. Qed.

Lemma bpf_jeqs nr n i l :
  0 ≤ nr < 2 ^ 32 → Forall (λ d, 0 ≤ d < 2 ^ 32) l → 0 ≤ i → n = i + Zlen l → n < 2 ^ 8 →
  bpf_run nr nr 0 (jeqs n i l ++ [(0x06, 0, 0, RET_ALLOW); (0x06, 0, 0, RET_ERRNO_EPERM)]) =
  Some (if bool_decide (nr ∈ l) then RET_ERRNO_EPERM else RET_ALLOW).
Proof.
  intros Hnr Hl. revert i; induction Hl as [|d l Hd Hl IH]; intros i Hi Hn Hb; cbn [jeqs app length] in *.
  { by rewrite bool_decide_false by apply not_elem_of_nil. }
  cbn [bpf_run]. cbn [Z.ltb Z.compare Z.eqb Pos.eqb].
  rewrite (Z.mod_small d) by lia. destruct (Z.eqb_spec nr d) as [->|Hne].
  - rewrite Z.mod_small by lia. rewrite bool_decide_true by apply list_elem_of_here.
    change [(0x06, 0, 0, RET_ALLOW); (0x06, 0, 0, RET_ERRNO_EPERM)]
      with ([(0x06, 0, 0, RET_ALLOW)] ++ [(0x06, 0, 0, RET_ERRNO_EPERM)]).
    rewrite app_assoc, bpf_skip; [done|lia|]. rewrite length_app, length_jeqs. cbn. lia.
  - rewrite IH by lia. f_equal. apply (f_equal (λ b : bool, if b then _ else _)).
    apply bool_decide_ext. rewrite elem_of_cons. naive_solver.
Qed.

Lemma bpf_filter nr deny :
  0 ≤ nr < 2 ^ 32 → Forall (λ d, 0 ≤ d < 2 ^ 32) deny → Zlen deny < 2 ^ 8 →
  bpf_run nr 0 0 (build_filter deny) =
    Some (if bool_decide (nr ∈ deny) then RET_ERRNO_EPERM else RET_ALLOW).
Proof. intros. unfold build_filter. cbn [bpf_run]. cbn [Z.ltb Z.compare Z.eqb]. by apply bpf_jeqs. Qed.

Lemma length_filter deny : Zlen (build_filter deny) = Zlen deny + 3.
Proof. unfold build_filter. cbn [length]. rewrite length_app, length_jeqs. cbn [length]. lia. Qed.

Lemma length_deny `{Libc} : Zlen DENY_LIST = 20.
Proof. unfold DENY_LIST. by rewrite length_fmap. Qed.

(** A platform: every number of the list is a 32-bit system-call number. *)
Class LibcLaws `{Libc} : Prop := sys_nr_range : ∀ n, 0 ≤ sys_nr n < 2 ^ 32.

(** The seccomp program is exact: for every system-call number it returns
    [ERRNO|EPERM] when the number is on the deny-list and [ALLOW] otherwise;
    in particular no jump of the generated code falls short or runs off the
    end, and its length fits the [u16] of [sock_fprog]. *)
Theorem seccomp_exact `{LibcLaws} nr :
  0 ≤ nr < 2 ^ 32 →
  bpf_run nr 0 0 build_deny_filter =
    Some (if bool_decide (nr ∈ DENY_LIST) then RET_ERRNO_EPERM else RET_ALLOW) ∧
  Zlen build_deny_filter mod 2 ^ 16 = Zlen build_deny_filter.
Proof.
  intros Hnr. unfold build_deny_filter. rewrite length_filter.
  pose proof length_deny as Hlen. generalize (sys_nr_range) as Hr. intros Hr.
  assert (Forall (λ d, 0 ≤ d < 2 ^ 32) DENY_LIST) as Hf by (apply Forall_fmap, Forall_true, Hr).
  revert Hlen Hf. generalize DENY_LIST as deny. intros deny Hlen Hf.
  split; [apply bpf_filter; [done..|lia]|apply Z.mod_small; lia].
Qed.

(** A read-only rule carries no write right, and every right that is granted is
    one the ruleset handles. *)
Lemma landlock_rights :
  Z.land FS_ALL_READ FS_ALL_WRITE = 0 ∧
  Z.land FS_ALL_READ (Z.lor FS_ALL_READ FS_ALL_WRITE) = FS_ALL_READ ∧
  Z.lor FS_ALL_READ FS_ALL_WRITE = 2 ^ 13 - 1.
Proof. by vm_compute. Qed.

(** ** The sequence fails closed *)

(** A kernel that records the calls it is asked for, with their results. *)
#[export] Instance logged {W} `{Kernel W} : Kernel (W * list (syscall * Z)) := λ c '(w, log),
  let '(w, r) := do_sys c w in ((w, log ++ [(c, r)]), r).

(** What a successful computation has added to the log. *)
Definition does {W A} (m : stm (W * list (syscall * Z)) SandboxError A)
    (P : A → list (syscall * Z) → Prop) : Prop :=
  ∀ w log s' a, m (w, log) = (s', Ok a) → ∃ w' l, s' = (w', log ++ l) ∧ P a l.

Section does_rules.
Context {W : Type} {K : Kernel W}.
Abbreviation M := (stm (W * list (syscall * Z)) SandboxError).

Lemma does_ret {A} (a : A) (P : A → _ → Prop) : P a [] → does (mret a : M A) P.
Proof. intros HP w log s' b [= <- <-]. exists w, []. by rewrite app_nil_r. Qed.

Lemma does_err {A} e (P : A → _ → Prop) : does (stm_err e : M A) P.
Proof. by intros w log s' b [=]. Qed.

Lemma does_sys c (P : Z → _ → Prop) : (∀ r, P r [(c, r)]) → does (sys c : M Z) P.
Proof.
  intros HP w log s' a. unfold sys, do_sys, logged, do_sys. destruct (K c w) as [w' r].
  intros [= <- <-]. by exists w', [(c, r)].
Qed.

Lemma does_bind {A B} (m : M A) (k : A → M B) P Q R :
  does m P → (∀ a, does (k a) (Q a)) → (∀ a b l1 l2, P a l1 → Q a b l2 → R b (l1 ++ l2)) →
  does (m ≫= k) R.
Proof.
  intros Hm Hk HR w log s' b. unfold mbind, stm_bind. destruct (m (w, log)) as [[w1 log1] [a|e|]] eqn:E; try done.
  intros Hb. apply Hm in E as (w1' & l1 & [= -> ->] & HP).
  apply Hk in Hb as (w2 & l2 & -> & HQ). exists w2, (l1 ++ l2). rewrite app_assoc. eauto.
Qed.

(** Sequencing when only the log of the first part matters. *)
Lemma does_seq {A B} (m : M A) (k : A → M B) (P : list _ → Prop) Q R :
  does m (λ _, P) → (∀ a, does (k a) Q) → (∀ b l1 l2, P l1 → Q b l2 → R b (l1 ++ l2)) → does (m ≫= k) R.
Proof. intros Hm Hk HR. eapply (does_bind m k (λ _, P) (λ _, Q)); eauto. Qed.

Lemma does_mono {A} (m : M A) (P Q : A → _ → Prop) : does m P → (∀ a l, P a l → Q a l) → does m Q.
Proof. intros Hm HPQ w log s' a (w' & l & -> & HP)%Hm. eauto. Qed.

Lemma does_any {A} (m : M A) (P : A → _ → Prop) : does m P → does m (λ _ _, True).
Proof. intros Hm. eapply does_mono; eauto. Qed.

Lemma does_must ok c :
  does (must ok c : M Z) (λ r l, l = [(c, r)] ∧ ok r = true).
Proof.
  unfold must. apply (does_bind _ _ (λ r l, l = [(c, r)]) (λ r b l, l = [] ∧ b = r ∧ ok r = true)).
  - by apply does_sys.
  - intros r. destruct (ok r); [by apply does_ret|apply does_err].
  - by intros a b l1 l2 -> (-> & -> & ?).
Qed.

Lemma does_foldl {A} (f : () → A → M ()) (P : A → list _ → Prop) l :
  (∀ a, does (f () a) (λ _, P a)) →
  does (stm_foldl f () l) (λ _ log, ∃ ls, log = concat ls ∧ Forall2 P l ls).
Proof.
  intros Hf. induction l as [|a l IH]; cbn [stm_foldl]; [apply does_ret; by exists []|].
  eapply does_seq; [apply Hf|intros []; apply IH|]. intros _ l1 l2 H1 (ls & -> & Hls).
  exists (l1 :: ls). split; [done|by constructor].
Qed.
End does_rules.

(** The log of one rule: the directory is opened, the rule with these rights
    added for it, the descriptor closed; or it was missing and is skipped. *)
Definition rule_log (rs access : Z) (skip : bool) (d : bytes) (l : list (syscall * Z)) : Prop :=
  ∃ c fd, c_path d = Ok c ∧
    (skip = true ∧ fd < 0 ∧ l = [(OpenPath c (str "O_PATH|O_CLOEXEC"), fd)] ∨
     0 ≤ fd ∧ ∃ r, l = [(OpenPath c (str "O_PATH|O_CLOEXEC"), fd);
                        (LandlockAddBeneath rs access fd, 0); (Close fd, r)]).

Section confines.
Context `{Libc} {W : Type} `{Kernel W}.

Lemma add_beneath_log rs access skip d :
  does (W:=W) (add_beneath rs access skip d) (λ _, rule_log rs access skip d).
Proof.
  unfold add_beneath, rule_log.
  apply (does_bind _ _ (λ c l, c_path d = Ok c ∧ l = []) (λ c _ l, ∃ fd,
     (skip = true ∧ fd < 0 ∧ l = [(OpenPath c (str "O_PATH|O_CLOEXEC"), fd)] ∨
     0 ≤ fd ∧ ∃ r, l = [(OpenPath c (str "O_PATH|O_CLOEXEC"), fd);
                        (LandlockAddBeneath rs access fd, 0); (Close fd, r)]))).
  { intros w log s' a. unfold stm_lift. intros [= <- ->]. exists w, []. by rewrite app_nil_r. }
  2: { intros c [] l1 l2 [? ->] (fd & ?). by exists c, fd. }
  intros c. apply (does_bind _ _ (λ fd l, l = [(OpenPath c (str "O_PATH|O_CLOEXEC"), fd)])
    (λ fd _ l, fd < 0 ∧ skip = true ∧ l = [] ∨
       0 ≤ fd ∧ ∃ r, l = [(LandlockAddBeneath rs access fd, 0); (Close fd, r)])); [by apply does_sys| |].
  { intros fd. destruct (Z.ltb_spec fd 0).
    { destruct skip; [apply does_ret; auto|apply does_err]. }
    apply (does_bind _ _ (λ r l, l = [(LandlockAddBeneath rs access fd, r)])
      (λ r _ l, r = 0 ∧ ∃ r', l = [(Close fd, r')])); [by apply does_sys| |].
    - intros r. apply (does_bind _ _ (λ r' l, l = [(Close fd, r')]) (λ _ _ l, l = [] ∧ r = 0)); [by apply does_sys| |].
      + intros _. destruct (Z.eqb_spec r 0); cbn [negb]; [by apply does_ret|apply does_err].
      + intros r' b l1 l2 -> [-> Hr]. eauto.
    - intros r b l1 l2 -> (-> & r' & ->). right. split; [done|]. by exists r'. }
  intros fd b l1 l2 -> [(Hfd & Hs & ->)|(Hfd & r & ->)]; exists fd; [by left|right; eauto].
Qed.

(** The log of a confined child. *)
Definition confined_log (writable readable : list bytes) (log : list (syscall * Z)) : Prop :=
  ∃ pre rs wl rl,
    log = pre ++ [(PrctlSeccomp (Zlen build_deny_filter mod 2 ^ 16) build_deny_filter, 0)] ++
          [(LandlockCreate (Z.lor FS_ALL_READ FS_ALL_WRITE), rs)] ++ concat wl ++ concat rl ++
          [(LandlockRestrictSelf rs, 0)] ∧
    sublist [(Unshare [str "CLONE_NEWUSER"], 0);
             (Unshare [str "CLONE_NEWNET"; str "CLONE_NEWIPC"], 0); (PrctlNoNewPrivs, 0)] pre ∧
    Forall2 (rule_log rs (Z.lor FS_ALL_READ FS_ALL_WRITE) false) writable wl ∧
    Forall2 (rule_log rs FS_ALL_READ true) readable rl.

Lemma does_must0 c : does (W:=W) (must (λ r, r =? 0) c) (λ _ l, l = [(c, 0)]).
Proof. eapply does_mono; [apply does_must|]. cbn. by intros r l [-> ->%Z.eqb_eq]. Qed.

Lemma apply_landlock_log writable readable :
  does (W:=W) (apply_landlock writable readable) (λ _ log, ∃ rs wl rl,
    log = [(LandlockCreate (Z.lor FS_ALL_READ FS_ALL_WRITE), rs)] ++ concat wl ++ concat rl ++
          [(LandlockRestrictSelf rs, 0)] ∧
    Forall2 (rule_log rs (Z.lor FS_ALL_READ FS_ALL_WRITE) false) writable wl ∧
    Forall2 (rule_log rs FS_ALL_READ true) readable rl).
Proof.
  unfold apply_landlock. apply (does_bind _ _ _ (λ rs _ l, ∃ wl rl,
    l = concat wl ++ concat rl ++ [(LandlockRestrictSelf rs, 0)] ∧
    Forall2 (rule_log rs (Z.lor FS_ALL_READ FS_ALL_WRITE) false) writable wl ∧
    Forall2 (rule_log rs FS_ALL_READ true) readable rl) _ (does_must _ _)); [intros rs|].
  - apply (does_seq _ _ _ (λ _ l, ∃ rl, l = concat rl ++ [(LandlockRestrictSelf rs, 0)] ∧
      Forall2 (rule_log rs FS_ALL_READ true) readable rl) _
      (does_foldl _ _ _ (λ d, add_beneath_log rs _ false d))); [intros _|].
    + apply (does_seq _ _ _ (λ _ l, l = [(LandlockRestrictSelf rs, 0)]) _
        (does_foldl _ _ _ (λ d, add_beneath_log rs _ true d))); [intros _|].
      * eapply does_seq; [apply does_must0|intros _; by apply (does_ret tt (λ _ l, l = []))|].
        by intros [] l1 l2 -> ->.
      * intros [] l1 l2 (rl & -> & Hrl) ->. eauto.
    + intros [] l1 l2 (wl & -> & Hwl) (rl & -> & Hrl). eauto.
  - intros rs [] l1 l2 [-> _] (wl & rl & -> & ? & ?). exists rs, wl, rl. eauto.
Qed.

Lemma does_sys_any c : does (W:=W) (sys c) (λ _ _, True).
Proof. by apply does_sys. Qed.

Lemma does_any_bind {A B} (m : stm (W * list (syscall * Z)) SandboxError A) k :
  does m (λ _ _, True) → (∀ a, does (k a) (λ (_ : B) _, True)) → does (m ≫= k) (λ _ _, True).
Proof. intros Hm Hk. by apply (does_bind m k (λ _ _, True) (λ _ _ _, True)). Qed.

Lemma write_map_any file id : does (W:=W) (write_map file id) (λ _ _, True).
Proof.
  unfold write_map. apply does_any_bind; [eapply does_any, does_must|intros fd].
  do 2 (apply does_any_bind; [apply does_sys_any|intros]).
  destruct (negb _); [apply does_err|by apply does_ret].
Qed.

Lemma deny_setgroups_any : does (W:=W) deny_setgroups (λ _ _, True).
Proof.
  unfold deny_setgroups. apply does_any_bind; [apply does_sys_any|intros fd].
  destruct (0 <=? fd); [|by apply does_ret].
  do 2 (apply does_any_bind; [apply does_sys_any|intros]). by apply does_ret.
Qed.

(** A log with [need] in order in its first part, and a second part in [T]. *)
Definition prologue (T : list (syscall * Z) → Prop) (need l : list (syscall * Z)) : Prop :=
  ∃ pre post, l = pre ++ post ∧ sublist need pre ∧ T post.

(** What a step of the prologue logs goes in front. *)
Lemma does_pre {A} (m : stm (W * list (syscall * Z)) SandboxError A) k P T need rest :
  does m (λ _, P) → (∀ l, P l → sublist need l) → (∀ a, does (k a) (λ _ : (), prologue T rest)) →
  does (m ≫= k) (λ _, prologue T (need ++ rest)).
Proof.
  intros Hm Hn Hk. eapply does_seq; [exact Hm|exact Hk|].
  intros [] l1 l2 H1 (pre & post & -> & Hs & Hp). exists (l1 ++ pre), post.
  rewrite app_assoc. split; [done|]. split; [|done]. apply sublist_app; auto.
Qed.

(** C38. A child that gets past the confinement sequence is confined: the user
    namespace, the network and IPC namespaces and [no_new_privs] were set in
    this order, then the seccomp program of the deny-list was installed, then
    Landlock with one rule per directory, write rights going to the writable
    directories only and missing readable ones skipped, and the last thing
    done was to enter the ruleset. Any other outcome of a call aborts the
    sequence before [execve]. *)
Theorem sandbox_confines writable readable (w w' : W) log :
  setup_sandbox writable readable (w, []) = ((w', log), Ok ()) → confined_log writable readable log.
Proof.
  intros Hs. set (T := λ post, ∃ rs wl rl,
    post = [(PrctlSeccomp (Zlen build_deny_filter mod 2 ^ 16) build_deny_filter, 0)] ++
           [(LandlockCreate (Z.lor FS_ALL_READ FS_ALL_WRITE), rs)] ++ concat wl ++ concat rl ++
           [(LandlockRestrictSelf rs, 0)] ∧
    Forall2 (rule_log rs (Z.lor FS_ALL_READ FS_ALL_WRITE) false) writable wl ∧
    Forall2 (rule_log rs FS_ALL_READ true) readable rl).
  assert (does (W:=W) (setup_sandbox writable readable) (λ _, prologue T
    ([] ++ [] ++ [(Unshare [str "CLONE_NEWUSER"], 0)] ++ [] ++ [] ++ [] ++
     [(Unshare [str "CLONE_NEWNET"; str "CLONE_NEWIPC"], 0)] ++ [(PrctlNoNewPrivs, 0)] ++ []))) as Hd.
  { unfold setup_sandbox.
    do 2 (eapply does_pre; [apply does_sys_any|intros; apply sublist_nil_l|intros]).
    eapply does_pre; [apply does_must0|by intros ? ->|intros _].
    eapply does_pre; [apply deny_setgroups_any|intros; apply sublist_nil_l|intros _].
    do 2 (eapply does_pre; [apply write_map_any|intros; apply sublist_nil_l|intros _]).
    do 2 (eapply does_pre; [apply does_must0|by intros ? ->|intros _]).
    unfold apply_seccomp.
    eapply (does_seq _ _ (λ l, l = [(PrctlSeccomp _ _, 0)])); [|intros _; apply apply_landlock_log|].
    - eapply does_seq; [apply does_must0|intros _; by apply (does_ret tt (λ _ l, l = []))|]. by intros [] l1 l2 -> ->.
    - intros [] l1 l2 -> (rs & wl & rl & -> & Hw & Hr). exists [], ([(PrctlSeccomp (Zlen build_deny_filter mod 2 ^ 16) build_deny_filter, 0)] ++
           [(LandlockCreate (Z.lor FS_ALL_READ FS_ALL_WRITE), rs)] ++ concat wl ++ concat rl ++
           [(LandlockRestrictSelf rs, 0)]). split; [done|]. split; [done|]. exists rs, wl, rl. done. }
  destruct (Hd _ _ _ _ Hs) as (w1 & l & Heq & pre & post & Hl & Hsub & rs & wl & rl & Hpost & Hw & Hr).
  exists pre, rs, wl, rl. split; [|done]. rewrite <-Hpost, <-Hl. by injection Heq.
Qed.
End confines.


(** ** Witnesses: the x86-64 numbers, and a kernel that grants everything *)
Section witnesses.

Definition x86_64_numbers : list Z :=
  [101; 165; 166; 155; 169; 246; 175; 313; 176; 304; 308; 298; 321; 323; 179; 167; 168; 173; 172; 312].

Definition x86_64 : Libc := λ n,
  match list_find (λ p, p.1 = n) (zip denied_names x86_64_numbers) with
  | Some (_, (_, nr)) => nr mod 2 ^ 32
  | None => 0
  end.

Lemma x86_64_laws : @LibcLaws x86_64.
Proof. intros n. unfold sys_nr, x86_64. destruct (list_find _ _) as [[? [? nr]]|]; [apply Z.mod_pos_bound|]; lia. Qed.

Definition toy_kernel : Kernel () := λ c w,
  (w, match c with
      | Getuid | Getgid => 1000
      | OpenPath p _ => if bool_decide (p = str "/missing") then -1 else 3
      | Write _ data => Zlen data
      | _ => 0
      end).

Lemma seccomp_exact_witness :
  bpf_run 165 0 0 (@build_deny_filter x86_64) = Some RET_ERRNO_EPERM ∧
  bpf_run 1 0 0 (@build_deny_filter x86_64) = Some RET_ALLOW.
Proof.
  split.
  - apply (@seccomp_exact x86_64 x86_64_laws 165). lia.
  - apply (@seccomp_exact x86_64 x86_64_laws 1). lia.
Defined.

Lemma sandbox_confines_witness :
  confined_log (H:=x86_64) [str "/stage"] [str "/usr"; str "/missing"]
    (setup_sandbox (H:=x86_64) (W:=() * list (syscall * Z)) (H0:=@logged () toy_kernel)
       [str "/stage"] [str "/usr"; str "/missing"] ((), [])).1.2.
Proof.
  apply (sandbox_confines (H:=x86_64) (H0:=toy_kernel) [str "/stage"] [str "/usr"; str "/missing"] () ()).
  vm_compute. reflexivity.
Defined.
End witnesses.

End Confine.
