(* ===== verification/Clif.v ===== *)
(** * Cranelift IR: the part the CPS compiler emits

    The function under construction, the operations of [FunctionBuilder] that
    [cps.rs] calls, and the semantics of a finished function. Cranelift is
    third-party code: the builder operations here carry its documented
    contract, the assertions included (an instruction after a terminator,
    leaving a block that is not filled, entering one that is, finishing with a
    block neither filled nor sealed), each as [Panic]. A [Variable] keeps its
    contract too: a use reads the last definition on the path, and 0 when
    there is none.

    An [i64] is a [Z] in the signed range; what the memory and the native
    functions do is a parameter. *)

From S2P Require Import Prelude.

Module Clif.

Definition wrap64 (z : Z) : Z := (z + 2 ^ 63) mod 2 ^ 64 - 2 ^ 63.
(** [offset as i32], as the offset of a [store] holds it. *)
Definition wrap32 (z : Z) : Z := (z + 2 ^ 31) mod 2 ^ 32 - 2 ^ 31.

Inductive ty := I8 | I64.
#[export] Instance ty_eq_dec : EqDecision ty.
Proof. solve_decision. Defined.

Abbreviation value := nat (only parsing).
Abbreviation block := nat (only parsing).
Abbreviation variable := nat (only parsing).
Abbreviation func_id := nat (only parsing).

Inductive binop := Iadd | Isub | Imul.
Inductive intcc := SignedLessThan | SignedGreaterThan | SignedLessThanOrEqual
  | SignedGreaterThanOrEqual | Equal | NotEqual.

Inductive inst :=
| IIconst (d : value) (t : ty) (z : Z)
| IBin (d : value) (op : binop) (a b : value)
| IBnot (d : value) (a : value)
| IIcmp (d : value) (cc : intcc) (a b : value)
| IUextend (d : value) (a : value)
| ILoad (d : value) (p : value) (off : Z)
| IStore (t : ty) (v : value) (p : value) (off : Z)
| ICall (d : value) (f : func_id) (args : list value)
| IUse (d : value) (x : variable)
| IDef (x : variable) (v : value).

Inductive term :=
| TReturn (vs : list value)
| TJump (b : block)
| TBrif (c : value) (b1 b2 : block).

Record blk := Blk { b_insts : list inst; b_term : option term }.

(** [Function]: value types by value number, the entry block's parameters, and
    the blocks; block 0 is the entry. *)
Record func := Func { f_types : list ty; f_params : list value; f_blocks : list blk }.

(** [FunctionBuilder]. *)
Record fbuilder := FB {
  fb_func : func;
  fb_sealed : gset block;
  fb_nvars : nat;
  fb_cur : option block
}.

Definition fb_new : fbuilder :=
  {| fb_func := Func [] [] []; fb_sealed := ∅; fb_nvars := 0%nat; fb_cur := None |}.

(** ** Builder operations; [None] is a failed assertion *)
Definition set_blocks (bs : list blk) (b : fbuilder) : fbuilder :=
  {| fb_func := Func (f_types (fb_func b)) (f_params (fb_func b)) bs;
     fb_sealed := fb_sealed b; fb_nvars := fb_nvars b; fb_cur := fb_cur b |}.

Definition create_block (b : fbuilder) : block * fbuilder :=
  (length (f_blocks (fb_func b)), set_blocks (f_blocks (fb_func b) ++ [Blk [] None]) b).

Definition is_filled (b : blk) : bool := bool_decide (is_Some (b_term b)).
Definition is_pristine (b : blk) : bool := bool_decide (b_insts b = []) && negb (is_filled b).

Definition may_leave (b : fbuilder) : bool :=
  match fb_cur b with
  | None => true
  | Some c => from_option (λ k, is_filled k || is_pristine k) false (f_blocks (fb_func b) !! c)
  end.
Definition may_enter (t : block) (b : fbuilder) : bool :=
  from_option (λ k, negb (is_filled k)) false (f_blocks (fb_func b) !! t).

Definition switch_to_block (t : block) (b : fbuilder) : option fbuilder :=
  if may_leave b && may_enter t b
  then Some {| fb_func := fb_func b; fb_sealed := fb_sealed b; fb_nvars := fb_nvars b; fb_cur := Some t |}
  else None.

Definition seal_block (t : block) (b : fbuilder) : fbuilder :=
  {| fb_func := fb_func b; fb_sealed := {[t]} ∪ fb_sealed b; fb_nvars := fb_nvars b; fb_cur := fb_cur b |}.

(** A value of type [t], numbered in order of creation. *)
Definition new_value (t : ty) (b : fbuilder) : value * fbuilder :=
  let f := fb_func b in
  (length (f_types f),
   {| fb_func := Func (f_types f ++ [t]) (f_params f) (f_blocks f);
      fb_sealed := fb_sealed b; fb_nvars := fb_nvars b; fb_cur := fb_cur b |}).

(** [builder.ins()]: the block being filled. *)
Definition current (b : fbuilder) : option (block * blk) :=
  c ← fb_cur b; k ← f_blocks (fb_func b) !! c; guard (is_filled k = false);; Some (c, k).

Definition push_inst (i : inst) (b : fbuilder) : option fbuilder :=
  '(c, k) ← current b;
  Some (set_blocks (<[c := Blk (b_insts k ++ [i]) None]> (f_blocks (fb_func b))) b).

Definition push_term (t : term) (b : fbuilder) : option fbuilder :=
  '(c, k) ← current b;
  Some (set_blocks (<[c := Blk (b_insts k) (Some t)]> (f_blocks (fb_func b))) b).

(** [append_block_params_for_function_params]: the signatures made by the
    compiler have only [i64] parameters. *)
Fixpoint append_params (n : nat) (b : fbuilder) : fbuilder :=
  match n with
  | O => b
  | S n =>
      let '(v, b) := new_value I64 b in
      append_params n {| fb_func := Func (f_types (fb_func b)) (f_params (fb_func b) ++ [v]) (f_blocks (fb_func b));
                         fb_sealed := fb_sealed b; fb_nvars := fb_nvars b; fb_cur := fb_cur b |}
  end.

Definition declare_var (b : fbuilder) : variable * fbuilder :=
  (fb_nvars b, {| fb_func := fb_func b; fb_sealed := fb_sealed b;
                  fb_nvars := S (fb_nvars b); fb_cur := fb_cur b |}).

(** [finalize]: every block is filled and sealed, or was never written. *)
Definition finished (b : fbuilder) : bool :=
  forallb (λ '(i, k), is_pristine k || (is_filled k && bool_decide (i ∈ fb_sealed b)))
    (imap pair (f_blocks (fb_func b))).
Definition finalize (b : fbuilder) : option func := if finished b then Some (fb_func b) else None.

(** ** Execution *)

(** Memory: aligned or not, an access may fault. *)
Class Memory (W : Type) := {
  mem_load : W → Z → option Z;
  mem_store : ty → W → Z → Z → option W
}.

Definition bin_sem (op : binop) (a b : Z) : Z :=
  wrap64 match op with Iadd => a + b | Isub => a - b | Imul => a * b end.
Definition cc_sem (cc : intcc) (a b : Z) : bool :=
  match cc with
  | SignedLessThan => a <? b
  | SignedGreaterThan => b <? a
  | SignedLessThanOrEqual => a <=? b
  | SignedGreaterThanOrEqual => b <=? a
  | Equal => a =? b
  | NotEqual => negb (a =? b)
  end.

Section exec.
Context {W : Type} `{Memory W}.

(** The frame of an activation: its values and its variables. *)
Record frame := Frame { fr_regs : gmap value Z; fr_vars : gmap variable Z }.

Definition set_reg (d : value) (z : Z) (fr : frame) : frame :=
  Frame (<[d := z]> (fr_regs fr)) (fr_vars fr).

(** What a call does: [None] when it does not return. *)
Definition callee : Type := func_id → list Z → W → option (Z * W).

Definition exec_inst (call : callee) (i : inst) (fr : frame) (w : W) : option (frame * W) :=
  let r := λ v, fr_regs fr !! v in
  match i with
  | IIconst d _ z => Some (set_reg d z fr, w)
  | IBin d op a b => x ← r a; y ← r b; Some (set_reg d (bin_sem op x y) fr, w)
  | IBnot d a => x ← r a; Some (set_reg d (Z.lnot x) fr, w)
  | IIcmp d cc a b => x ← r a; y ← r b; Some (set_reg d (Z.b2z (cc_sem cc x y)) fr, w)
  | IUextend d a => x ← r a; Some (set_reg d (x mod 2 ^ 8) fr, w)
  | ILoad d p off => x ← r p; z ← mem_load w (wrap64 (x + off)); Some (set_reg d z fr, w)
  | IStore t v p off => z ← r v; x ← r p; w ← mem_store t w (wrap64 (x + off)) z; Some (fr, w)
  | ICall d f args => xs ← mapM r args; '(z, w) ← call f xs w; Some (set_reg d z fr, w)
  | IUse d x => Some (set_reg d (default 0 (fr_vars fr !! x)) fr, w)
  | IDef x v => z ← r v; Some (Frame (fr_regs fr) (<[x := z]> (fr_vars fr)), w)
  end.

(** A running activation: block, index of the next instruction, frame, world. *)
Record mach := Mach { m_blk : block; m_pc : nat; m_fr : frame; m_w : W }.
Inductive outcome := Next (m : mach) | Done (z : Z) (w : W) | Stuck.

Definition exec_term (t : term) (fr : frame) (w : W) : outcome :=
  match t with
  | TReturn [v] => match fr_regs fr !! v with Some z => Done z w | None => Stuck end
  | TReturn _ => Stuck
  | TJump b => Next (Mach b 0%nat fr w)
  | TBrif c b1 b2 =>
      match fr_regs fr !! c with
      | Some z => Next (Mach (if z =? 0 then b2 else b1) 0%nat fr w)
      | None => Stuck
      end
  end.

Definition step (f : func) (call : callee) (m : mach) : outcome :=
  match f_blocks f !! m_blk m with
  | None => Stuck
  | Some k =>
      match b_insts k !! m_pc m with
      | Some i =>
          match exec_inst call i (m_fr m) (m_w m) with
          | Some (fr, w) => Next (Mach (m_blk m) (S (m_pc m)) fr w)
          | None => Stuck
          end
      | None => match b_term k with Some t => exec_term t (m_fr m) (m_w m) | None => Stuck end
      end
  end.

Fixpoint iter (n : nat) (f : func) (call : callee) (m : mach) : option (Z * W) :=
  match n with
  | O => None
  | S n =>
      match step f call m with
      | Next m => iter n f call m
      | Done z w => Some (z, w)
      | Stuck => None
      end
  end.

Definition start (f : func) (args : list Z) (w : W) : option mach :=
  guard (length args = length (f_params f));;
  Some (Mach 0%nat 0%nat (Frame (list_to_map (zip (f_params f) args)) ∅) w).

(** A call in a program: [code] are the functions with a body, [native] the
    others. [None] is a fault, or a call that takes more than [n] steps or
    activations. *)
Fixpoint run (code : func_id → option func) (native : callee) (n : nat) : callee := λ fid args w,
  match n with
  | O => None
  | S n =>
      match code fid with
      | None => native fid args w
      | Some f => m ← start f args w; iter n f (run code native n) m
      end
  end.

(** ** More fuel changes nothing *)
Definition callee_le (c c' : callee) : Prop := ∀ fid args w r, c fid args w = Some r → c' fid args w = Some r.

#[export] Instance callee_le_preorder : PreOrder callee_le.
Proof. split; [by intros ?????|intros x y z Hxy Hyz fid args w r E; by apply Hyz, Hxy]. Qed.

Lemma exec_inst_mono c c' i fr w r :
  callee_le c c' → exec_inst c i fr w = Some r → exec_inst c' i fr w = Some r.
Proof.
  intros Hc. destruct i; try done. cbn [exec_inst]. intros (xs & -> & (zw & Hz & E)%bind_Some)%bind_Some.
  cbn. by rewrite (Hc _ _ _ _ Hz).
Qed.

Lemma step_mono f c c' m : callee_le c c' → step f c m = Stuck ∨ step f c' m = step f c m.
Proof.
  intros Hc. unfold step. destruct (f_blocks f !! m_blk m) as [k|]; [|by left].
  destruct (b_insts k !! m_pc m) as [i|]; [|by right].
  destruct (exec_inst c i _ _) as [[fr w]|] eqn:E; [|by left]. right. by rewrite (exec_inst_mono _ _ _ _ _ _ Hc E).
Qed.

Lemma iter_mono n n' f c c' m r :
  callee_le c c' → (n ≤ n')%nat → iter n f c m = Some r → iter n' f c' m = Some r.
Proof.
  intros Hc. revert n' m; induction n as [|n IH]; intros n' m Hn; [done|].
  destruct n' as [|n']; [lia|]. cbn [iter]. destruct (step_mono f c c' m Hc) as [->| ->]; [done|].
  destruct (step f c m); [|done..]. apply IH. lia.
Qed.

Lemma run_mono code native n n' : (n ≤ n')%nat → callee_le (run code native n) (run code native n').
Proof.
  revert n'; induction n as [|n IH]; intros n' Hn fid args w r; [done|].
  destruct n' as [|n']; [lia|]. cbn [run]. destruct (code fid); [|done].
  destruct (start _ _ _) as [m|]; [|done]. cbn. apply iter_mono; [apply IH|]; lia.
Qed.

(** Runs of one activation, with [call] for its callees. *)
Inductive steps (f : func) (call : callee) : mach → mach → Prop :=
| steps_refl m : steps f call m m
| steps_next m m' m'' : step f call m = Next m' → steps f call m' m'' → steps f call m m''.

#[export] Instance steps_preorder f call : PreOrder (steps f call).
Proof.
  split; [intros ?; constructor|]. intros x y z Hxy Hyz. induction Hxy; [done|]. econstructor; eauto.
Qed.

Lemma steps_iter f c m m' z w :
  steps f c m m' → step f c m' = Done z w → ∃ n, iter n f c m = Some (z, w).
Proof.
  induction 1 as [m|m m' m'' Hs _ IH]; intros Hd.
  - exists 1%nat. cbn. by rewrite Hd.
  - destruct (IH Hd) as [n Hn]. exists (S n). cbn. by rewrite Hs.
Qed.
End exec.
#[global] Arguments callee W : clear implicits.
#[global] Arguments mach W : clear implicits.
#[global] Arguments outcome W : clear implicits.

End Clif.
