(* ===== verification/Symbols.v ===== *)
(** * Export names and the static symbol registry ([cranelift/src/lib.rs])

    The names a thread's JIT engine has given out ([DEFINED_EXPORTS]) and the
    symbols a statically linked image registers before its first compile. *)

From S2P Require Import Prelude Text.

Module Symbols.

(** [format!("{name}#{n}")] *)
Definition candidate (name : bytes) (n : Z) : bytes := name ++ str "#" ++ dec n.

(** The [loop] of [claim_export_symbol]; [None] when [fuel] candidates are all taken. *)
Fixpoint claim_loop (fuel : nat) (taken : gset bytes) (name : bytes) (n : Z) : option bytes :=
  match fuel with
  | O => None
  | S fuel =>
      if bool_decide (candidate name n ∈ taken) then claim_loop fuel taken name (n + 1)
      else Some (candidate name n)
  end.

(** Of [size taken + 1] candidates one is free. *)
Definition claim_export_symbol (name : bytes) (taken : gset bytes) : gset bytes * bytes :=
  if bool_decide (name ∈ taken)
  then match claim_loop (S (size taken)) taken name 2 with
       | Some c => ({[c]} ∪ taken, c)
       | None => (taken, [])
       end
  else ({[name]} ∪ taken, name).

Definition claimed_export_symbol_count (taken : gset bytes) : nat := size taken.

(** ** Static symbols: [initialized] is whether this thread has an engine *)
Fixpoint set_slot (name : bytes) (addr : Z) (reg : list (bytes * Z)) : option (list (bytes * Z)) :=
  match reg with
  | [] => None
  | (n, a) :: reg =>
      if bool_decide (n = name) then Some ((n, addr) :: reg)
      else reg ← set_slot name addr reg; Some ((n, a) :: reg)
  end.

Definition register_static_symbol (initialized : bool) (name : bytes) (addr : Z) :
    stm (list (bytes * Z)) bytes () := λ reg,
  if bool_decide (name = []) then (reg, Err (str "static symbol: empty name"))
  else if addr =? 0 then (reg, Err (str "static symbol " ++ name ++ str ": null address"))
  else if initialized then
    (reg, Err (str "static symbol " ++ name ++
               str ": this thread's JIT is already initialized (register before the first compile)"))
  else match set_slot name addr reg with
       | Some reg => (reg, Ok ())
       | None => (reg ++ [(name, addr)], Ok ())
       end.

(** The C registrar: [None] is a null name. *)
Definition austral_register_static_symbol (initialized : bool) (name : option bytes) (addr : Z)
    (reg : list (bytes * Z)) : list (bytes * Z) * Z :=
  match name with
  | None => (reg, 0)
  | Some name =>
      if utf8_valid name then
        match register_static_symbol initialized name addr reg with
        | (reg, Ok _) => (reg, 1)
        | (reg, _) => (reg, -1)
        end
      else (reg, 0)
  end.

(** ** Lemmas *)
Lemma candidate_inj name m n :
  0 ≤ m < 2 ^ 64 → 0 ≤ n < 2 ^ 64 → candidate name m = candidate name n → m = n.
Proof.
  intros Hm Hn E. apply (app_inv_head name), (app_inv_head (str "#")) in E.
  pose proof (parse_uint_dec (2 ^ 64) m Hm (proj2 Hm)) as Pm.
  pose proof (parse_uint_dec (2 ^ 64) n Hn (proj2 Hn)) as Pn. congruence.
Qed.

Lemma claim_loop_None fuel taken name n :
  claim_loop fuel taken name n = None → ∀ i, n ≤ i < n + Z.of_nat fuel → candidate name i ∈ taken.
Proof.
  revert n; induction fuel as [|fuel IH]; intros n E i Hi; [lia|]. cbn [claim_loop] in E.
  case_bool_decide as Hc; [|done]. destruct (decide (i = n)) as [->|]; [done|]. apply (IH (n + 1)); [done|lia].
Qed.

Lemma claim_loop_Some fuel taken name n c :
  claim_loop fuel taken name n = Some c →
  ∃ k, n ≤ k < n + Z.of_nat fuel ∧ c = candidate name k ∧ (c ∉ taken) ∧ ∀ i, n ≤ i < k → candidate name i ∈ taken.
Proof.
  revert n; induction fuel as [|fuel IH]; intros n E; [done|]. cbn [claim_loop] in E.
  case_bool_decide as Hc.
  - apply IH in E as (k & Hk & -> & Hn & Ht). exists k. split; [lia|]. split_and!; [done..|].
    intros i Hi. destruct (decide (i = n)) as [->|]; [done|]. apply Ht. lia.
  - injection E as <-. exists n. split_and!; [lia|lia|done|done|lia].
Qed.

(** A set of fewer than [2^63] names cannot hold [size + 1] candidates. *)
Lemma claim_loop_total taken name :
  Z.of_nat (size taken) < 2 ^ 63 → is_Some (claim_loop (S (size taken)) taken name 2).
Proof.
  intros Hs. destruct (claim_loop _ _ _ _) as [c|] eqn:E; [by eexists|exfalso].
  pose proof (claim_loop_None _ _ _ _ E) as Hc.
  set (cs := (λ i : nat, candidate name (2 + Z.of_nat i)) <$> seq 0 (S (size taken))).
  assert (NoDup cs) as Hnd.
  { apply NoDup_fmap_2_strong; [|apply NoDup_seq]. intros i j Hi Hj Eij.
    apply elem_of_seq in Hi, Hj. apply candidate_inj in Eij; lia. }
  assert (list_to_set cs ⊆ taken) as Hsub.
  { intros x Hx. apply elem_of_list_to_set, list_elem_of_fmap in Hx as (i & -> & Hi).
    apply elem_of_seq in Hi. apply Hc. lia. }
  apply subseteq_size in Hsub. rewrite size_list_to_set in Hsub by done.
  unfold cs in Hsub. rewrite length_fmap, length_seq in Hsub. lia.
Qed.

Lemma claim_total name taken :
  Z.of_nat (size taken) < 2 ^ 63 →
  ∃ r, claim_export_symbol name taken = ({[r]} ∪ taken, r) ∧ (r ∉ taken) ∧ (name ∉ taken → r = name).
Proof.
  intros Hs. unfold claim_export_symbol. case_bool_decide as Hn; [|by exists name].
  destruct (claim_loop_total taken name Hs) as [c E]. rewrite E. exists c.
  split; [done|]. apply claim_loop_Some in E as (k & _ & -> & Hk & _). done.
Qed.

(** The search for an export name always ends, within as many rounds as
    there are claimed names, and gives a name that was not taken: the asked
    name when it is free, otherwise the first free [name#n] from 2 up. Every
    name given out is remembered, so no name is ever given twice. *)
Theorem claim_terminates name taken :
  Z.of_nat (size taken) < 2 ^ 63 →
  ∃ r, claim_export_symbol name taken = ({[r]} ∪ taken, r) ∧ (r ∉ taken) ∧
    (name ∉ taken → r = name) ∧
    (name ∈ taken → ∃ n, 2 ≤ n ≤ 2 + Z.of_nat (size taken) ∧ r = candidate name n ∧
       ∀ i, 2 ≤ i < n → candidate name i ∈ taken) ∧
    claimed_export_symbol_count ({[r]} ∪ taken) = S (claimed_export_symbol_count taken).
Proof.
  intros Hs. destruct (claim_total name taken Hs) as (r & E & Hr & Hn). exists r. split_and!; [done..| |].
  - intros Hin. unfold claim_export_symbol in E. rewrite bool_decide_eq_true_2 in E by done.
    destruct (claim_loop _ _ _ _) as [c|] eqn:El; injection E as E Er; [subst c|set_solver]. apply claim_loop_Some in El as (k & Hk & -> & _ & Ht).
    exists k. split_and!; [lia|lia|done|done].
  - unfold claimed_export_symbol_count. rewrite size_union by set_solver. rewrite size_singleton. lia.
Qed.

Definition demo_exports : gset bytes := {[str "run"; str "run#2"; str "main"]}.

Example claim_terminates_witness :
  Z.of_nat (size demo_exports) < 2 ^ 63 ∧
  (claim_export_symbol (str "run") demo_exports).2 = str "run#3" ∧
  ∃ r, claim_export_symbol (str "run") demo_exports = ({[r]} ∪ demo_exports, r) ∧ r ∉ demo_exports.
Proof.
  assert (Z.of_nat (size demo_exports) < 2 ^ 63) as H by (vm_compute; reflexivity).
  split; [exact H|]. split; [vm_compute; reflexivity|].
  destruct (claim_terminates (str "run") demo_exports H) as (r & E & Hr & _). exists r. exact (conj E Hr).
Defined.

End Symbols.
