(* ===== verification/Cps.v ===== *)
(** * The CPS compiler ([cranelift/src/cps.rs])

    Reads a CPS binary and emits one Cranelift function per CPS function, in
    one pass: the reader, the call gate, the block manager, the emitters for
    expressions and statements, and the compilation of a whole binary. The
    Cranelift module the code is declared and defined in is an interface. *)

From S2P Require Import Prelude Cursor Text Auth Clif Symbols.
Import Clif.

Module Cps.

(** ** The interface to [cranelift_module::Module] *)
Inductive linkage := Import | Export.

(** Names to ids ([declare_function], with the number of [i64] parameters; every
    signature returns one [i64]), bodies ([define_function]), the verifier. *)
Class ClifModule (J : Type) := {
  declare_function : bytes → linkage → nat → stm J bytes func_id;
  define_function : func_id → func → stm J bytes ();
  verify_function : J → func → res bytes ()
}.

(** ** [CpsReader] *)
Definition EOF : bytes := str "EOF".

Definition read_u8 : rd bytes byte := λ r,
  if Zlen (cur_b r) <=? cur_i r then Err EOF
  else v ← index_p (cur_b r) (cur_i r); Ok (v, {| cur_b := cur_b r; cur_i := cur_i r + 1 |}).
Definition peek_u8 (r : cursor) : option byte :=
  if Zlen (cur_b r) <=? cur_i r then None else cur_b r !! Z.to_nat (cur_i r).
Definition read_bytes (len : Z) : rd bytes bytes := λ r,
  if Zlen (cur_b r) <? cur_i r + len then Err EOF
  else s ← slice_p (cur_b r) (cur_i r) (cur_i r + len);
       Ok (s, {| cur_b := cur_b r; cur_i := cur_i r + len |}).
Definition read_u32 : rd bytes Z := s ← read_bytes 4; mret (le_val s).
Definition read_i64 : rd bytes Z := s ← read_bytes 8; mret (wrap64 (le_val s)).
Definition read_string : rd bytes bytes :=
  len ← read_u32; s ← read_bytes len; mret (from_utf8_lossy s).
Definition remaining (r : cursor) : Z := Zlen (cur_b r) - cur_i r.

(** A computation over a reader and a state: the reads, the state's own
    computations, and a body read from a buffer of its own. *)
Abbreviation em S := (stm (cursor * S) bytes).
Definition rdm {S A} (p : rd bytes A) : em S A := λ '(r, s),
  match p r with Ok (a, r) => ((r, s), Ok a) | Err e => ((r, s), Err e) | Panic => ((r, s), Panic) end.
Definition run_em {S A} (r : cursor) (m : em S A) : stm S bytes A := λ s,
  let '((_, s), a) := m (r, s) in (s, a).
Definition stem {S A} (m : stm S bytes A) : em S A := λ '(r, s), let '(s, a) := m s in ((r, s), a).
Definition over {S A} (data : bytes) (m : em S A) : em S A :=
  stem (run_em {| cur_b := data; cur_i := 0 |} m).

(** [for _ in 0..n { v.push(body?) }] *)
Fixpoint rep {S A} (n : nat) (m : em S A) : em S (list A) :=
  match n with
  | O => mret []
  | Datatypes.S n => a ← m; l ← rep n m; mret (a :: l)
  end.

Section compiler.
Context {J : Type} `{ClifModule J}.
(** The wall clock, read at each authorization check. *)
Variable clock : nat → Z.

(** What outlives a compile: the engine's module, the process-wide
    authorization state, the claimed export names, and how many times the clock
    was read. *)
Record globals := Globals {
  g_jit : J;
  g_auth : Auth.AuthState;
  g_exports : gset bytes;
  g_tick : nat
}.

Abbreviation gm := (stm globals bytes).

(** ** The call gate *)
Definition is_gated (caller callee : bytes) : bool :=
  negb (starts_with (str "__") callee || starts_with (str "au_") callee || bool_decide (caller = callee)) &&
  (starts_with (str "uk_") callee || starts_with (str "uz_") callee || starts_with (str "rs_") callee).

Definition call_principal (auth : Auth.AuthState) (caller module_name : bytes) : bytes :=
  match Auth.deployment_principal auth with
  | Some (x :: p) => x :: p
  | _ => match module_name with [] => caller | _ => module_name end
  end.

Definition check_call_permission (caller module_name callee : bytes) : gm () := λ g,
  if is_gated caller callee then
    let principal := call_principal (g_auth g) caller module_name in
    let '(auth, r) := Auth.check (clock (g_tick g)) principal (str "Call") callee (g_auth g) in
    ({| g_jit := g_jit g; g_auth := auth; g_exports := g_exports g; g_tick := S (g_tick g) |}, r)
  else (g, Ok ()).

Definition with_jit {A} (m : stm J bytes A) : gm A := λ g,
  let '(j, a) := m (g_jit g) in
  ({| g_jit := j; g_auth := g_auth g; g_exports := g_exports g; g_tick := g_tick g |}, a).

Definition declare_or (what : bytes) (name : bytes) (l : linkage) (argc : nat) : gm func_id :=
  with_jit (λ j, let '(j, r) := declare_function name l argc j in (j, map_err (λ e, what ++ str ": " ++ e) r)).

Definition declare_import (name : bytes) (argc : nat) : gm func_id :=
  declare_or (str "Failed to declare import " ++ name) name Import argc.

(** ** The block manager, over the function builder *)
Record cg := Cg {
  c_g : globals;
  c_fb : fbuilder;
  c_blocks : list block;
  c_terminated : bool;
  c_vars : gmap bytes variable
}.

Abbreviation cm := (stm cg bytes).

Definition set_fb (b : fbuilder) (s : cg) : cg :=
  {| c_g := c_g s; c_fb := b; c_blocks := c_blocks s; c_terminated := c_terminated s; c_vars := c_vars s |}.
Definition set_terminated (t : bool) (s : cg) : cg :=
  {| c_g := c_g s; c_fb := c_fb s; c_blocks := c_blocks s; c_terminated := t; c_vars := c_vars s |}.
Definition set_vars (v : gmap bytes variable) (s : cg) : cg :=
  {| c_g := c_g s; c_fb := c_fb s; c_blocks := c_blocks s; c_terminated := c_terminated s; c_vars := v |}.

Definition ing {A} (m : gm A) : cm A := λ s,
  let '(g, r) := m (c_g s) in
  ({| c_g := g; c_fb := c_fb s; c_blocks := c_blocks s; c_terminated := c_terminated s; c_vars := c_vars s |}, r).

(** A builder operation; a failed assertion panics. *)
Definition fbop (f : fbuilder → option fbuilder) : cm () := λ s,
  match f (c_fb s) with Some b => (set_fb b s, Ok ()) | None => (s, Panic) end.

(** [builder.ins().op(..)] with one result of type [t]. *)
Definition ins (t : ty) (mk : value → inst) : cm value := λ s,
  let '(v, b) := new_value t (c_fb s) in
  match push_inst (mk v) b with Some b => (set_fb b s, Ok v) | None => (s, Panic) end.

Definition iconst (t : ty) (z : Z) : cm value := ins t (λ d, IIconst d t z).
Definition bin (op : binop) (a b : value) : cm value := ins I64 (λ d, IBin d op a b).
Definition bnot (a : value) : cm value := ins I64 (λ d, IBnot d a).
Definition icmp (cc : intcc) (a b : value) : cm value := ins I8 (λ d, IIcmp d cc a b).
Definition uextend (a : value) : cm value := ins I64 (λ d, IUextend d a).
Definition load (p : value) (off : Z) : cm value := ins I64 (λ d, ILoad d p off).
Definition store (t : ty) (v p : value) (off : Z) : cm () := fbop (push_inst (IStore t v p (wrap32 off))).
(** Every signature declared here has one result. *)
Definition call (f : func_id) (args : list value) : cm (list value) :=
  d ← ins I64 (λ d, ICall d f args); mret [d].
Definition use_var (x : variable) : cm value := ins I64 (λ d, IUse d x).
Definition def_var (x : variable) (v : value) : cm () := fbop (push_inst (IDef x v)).
Definition brif (c : value) (b1 b2 : block) : cm () := fbop (push_term (TBrif c b1 b2)).
Definition return_ (vs : list value) : cm () := fbop (push_term (TReturn vs)).
Definition terminate : cm () := λ s, (set_terminated true s, Ok ()).

Definition mgr_create_block : cm block := λ s,
  let '(b, fb) := create_block (c_fb s) in
  ({| c_g := c_g s; c_fb := fb; c_blocks := c_blocks s ++ [b];
      c_terminated := c_terminated s; c_vars := c_vars s |}, Ok b).

Definition seal_all : cm () := λ s, (set_fb (foldl (λ fb b, seal_block b fb) (c_fb s) (c_blocks s)) s, Ok ()).

Definition mgr_switch_to_block (b : block) : cm () :=
  _ ← fbop (switch_to_block b); (λ s, (set_terminated false s, Ok ())) : cm ().

Definition unless_terminated (m : cm ()) : cm () := λ s,
  if c_terminated s then (s, Ok ()) else (_ ← m; terminate) s.

Definition emit_return (vals : list value) : cm () := unless_terminated (return_ vals).
Definition emit_return_call (f : func_id) (args : list value) : cm () :=
  unless_terminated (results ← call f args; return_ results).
Definition emit_jump (target : block) : cm () := unless_terminated (fbop (push_term (TJump target))).

Definition ensure_terminated (merge_block : option block) : cm () := λ s,
  if c_terminated s then (s, Ok ())
  else match merge_block with
       | Some target => emit_jump target s
       | None => (zero ← iconst I64 0; emit_return [zero]) s
       end.

(** ** Emission *)

(** The arguments threaded unchanged through the emitters. *)
Record ectx := Ectx {
  x_name_map : gmap bytes func_id;
  x_import_map : gmap bytes func_id;
  x_caller : bytes;
  x_module : bytes
}.

(** [args[i]] *)
Definition arg (args : list value) (i : Z) : cm value := stm_lift (index_p args i).

Definition slot_get (args : list value) : cm value :=
  ptr ← arg args 0; offset_val ← arg args 1;
  addr ← bin Iadd ptr offset_val;
  load addr 0.

Definition alloc (size : value) : cm value :=
  fid ← ing (declare_or (str "Failed to declare au_alloc") (str "au_alloc") Import 1);
  results ← call fid [size];
  arg results 0.

(** [for (i, field_val) in args.iter().enumerate().skip(k)], storing at [(i - 1) * 8]. *)
Fixpoint store_fields (ptr : value) (i : Z) (fields : list value) : cm () :=
  match fields with
  | [] => mret ()
  | v :: fields => _ ← store I64 v ptr ((i - 1) * 8); store_fields ptr (i + 1) fields
  end.

Definition record_new (args : list value) : cm value :=
  size_val ← arg args 0;
  ptr ← alloc size_val;
  _ ← store_fields ptr 1 (drop 1 args);
  mret ptr.

Definition union_new (args : list value) : cm value :=
  size_val ← arg args 0; tag_val ← arg args 1;
  ptr ← alloc size_val;
  _ ← store I64 tag_val ptr 0;
  _ ← store_fields ptr 2 (drop 2 args);
  mret ptr.

Definition func_ref (x : ectx) (func_name : bytes) (argc : nat) : cm func_id :=
  match x_name_map x !! func_name with
  | Some fid => mret fid
  | None =>
      match x_import_map x !! func_name with
      | Some fid => mret fid
      | None => ing (declare_import func_name argc)
      end
  end.

Definition is_slot_get (f : bytes) : bool :=
  bool_decide (f = str "__slot_get") || bool_decide (f = str "__ptr_slot_get").

(** Opcode 0x04 once its arguments are emitted. *)
Definition emit_app (x : ectx) (func_name : bytes) (args : list value) : cm value :=
  _ ← ing (check_call_permission (x_caller x) (x_module x) func_name);
  if is_slot_get func_name then slot_get args
  else if bool_decide (func_name = str "__record_new") then record_new args
  else if bool_decide (func_name = str "__union_new") then union_new args
  else
    fref ← func_ref x func_name (length args);
    results ← call fref args;
    match results with [] => iconst I64 0 | v :: _ => mret v end.

(** The same in the operand of a return (opcodes 0x07 0x04). *)
Definition emit_return_app (x : ectx) (func_name : bytes) (args : list value) : cm () :=
  _ ← ing (check_call_permission (x_caller x) (x_module x) func_name);
  if is_slot_get func_name then
    val ← slot_get args; _ ← return_ [val]; terminate
  else if bool_decide (func_name = str "__record_new") then
    ptr ← record_new args; _ ← return_ [ptr]; terminate
  else
    fref ← func_ref x func_name (length args);
    emit_return_call fref args.

Fixpoint store_bytes (ptr : value) (i : Z) (bs : bytes) : cm () :=
  match bs with
  | [] => mret ()
  | b :: bs =>
      bv ← iconst I8 (b2z b);
      _ ← store I8 bv ptr i;
      store_bytes ptr (i + 1) bs
  end.

(** Opcode 0x21: the data, and a span [{data; size}] of it. *)
Definition emit_string (bs : bytes) : cm value :=
  fid ← ing (declare_or (str "Failed to declare au_alloc") (str "au_alloc") Import 1);
  data_size ← iconst I64 (Z.max (Zlen bs) 1);
  data_call ← call fid [data_size];
  data_ptr ← arg data_call 0;
  _ ← store_bytes data_ptr 0 bs;
  span_size ← iconst I64 16;
  span_call ← call fid [span_size];
  span_ptr ← arg span_call 0;
  len_val ← iconst I64 (Zlen bs);
  _ ← store I64 data_ptr span_ptr 0;
  _ ← store I64 len_val span_ptr 8;
  mret span_ptr.

Definition emit_var (name : bytes) : cm value := λ s,
  match c_vars s !! name with
  | Some var => use_var var s
  | None => (s, Err (str "Undefined variable: " ++ name))
  end.

(** The comparison opcodes. *)
Definition emit_cmp (cc : intcc) (a b : value) : cm value := cmp ← icmp cc a b; uextend cmp.

(** The binary opcodes. *)
Definition binary (opcode : Z) : option (value → value → cm value) :=
  match opcode with
  | 0x05 => Some (bin Iadd)
  | 0x06 => Some (bin Isub)
  | 0x10 => Some (emit_cmp SignedLessThan)
  | 0x11 => Some (emit_cmp SignedGreaterThan)
  | 0x12 => Some (emit_cmp SignedLessThanOrEqual)
  | 0x13 => Some (emit_cmp SignedGreaterThanOrEqual)
  | 0x14 => Some (emit_cmp Equal)
  | 0x15 => Some (emit_cmp NotEqual)
  | 0x18 => Some (bin Imul)
  | _ => None
  end.

Fixpoint emit_expr (fuel : nat) (x : ectx) : em cg value :=
  match fuel with
  | O => λ s, (s, Panic)
  | S fuel =>
      opcode ← rdm read_u8;
      match b2z opcode with
      | 0x01 => val ← rdm read_i64; stem (iconst I64 val)
      | 0x02 => name ← rdm read_string; stem (emit_var name)
      | 0x04 =>
          func_name ← rdm read_string;
          arg_count ← rdm read_u32;
          args ← rep (Z.to_nat arg_count) (emit_expr fuel x);
          stem (emit_app x func_name args)
      | 0x19 => a ← emit_expr fuel x; stem (bnot a)
      | 0x20 => ptr ← emit_expr fuel x; stem (load ptr 0)
      | 0x21 => len ← rdm read_u32; bs ← rdm (read_bytes len); stem (emit_string bs)
      | op =>
          match binary op with
          | Some f => a ← emit_expr fuel x; b ← emit_expr fuel x; stem (f a b)
          | None => stm_err (str "Unknown opcode: 0x" ++ hex_fixed 2 op)
          end
      end
  end.

Definition nonzero (cond : value) : cm value := zero ← iconst I64 0; icmp NotEqual cond zero.

(** Opcode 0x03 once its operand is emitted. *)
Definition emit_let (name : bytes) (val : value) : cm () := λ s,
  match c_vars s !! name with
  | Some v => def_var v val s
  | None =>
      let '(v, fb) := declare_var (c_fb s) in
      def_var v val (set_vars (<[name := v]> (c_vars s)) (set_fb fb s))
  end.

Section stmt.
Variable x : ectx.
(** The emitter for a nested body. *)
Variable body : bytes → em cg ().

(** Opcode 0x08, the condition emitted. *)
Definition emit_if (cond : value) : em cg () :=
  cond_bool ← stem (nonzero cond);
  then_len ← rdm read_u32; then_data ← rdm (read_bytes then_len);
  else_len ← rdm read_u32; else_data ← rdm (read_bytes else_len);
  then_block ← stem mgr_create_block;
  else_block ← stem mgr_create_block;
  merge_block ← stem mgr_create_block;
  _ ← stem (brif cond_bool then_block else_block);
  _ ← stem (mgr_switch_to_block then_block);
  _ ← body then_data;
  _ ← stem (ensure_terminated (Some merge_block));
  _ ← stem (mgr_switch_to_block else_block);
  _ ← body else_data;
  _ ← stem (ensure_terminated (Some merge_block));
  stem (mgr_switch_to_block merge_block).

(** Opcode 0x09. *)
Definition emit_while (expr : em cg value) : em cg () :=
  header_block ← stem mgr_create_block;
  body_block ← stem mgr_create_block;
  exit_block ← stem mgr_create_block;
  _ ← stem (emit_jump header_block);
  _ ← stem (mgr_switch_to_block header_block);
  cond ← expr;
  cond_bool ← stem (nonzero cond);
  body_len ← rdm read_u32; body_data ← rdm (read_bytes body_len);
  _ ← stem (brif cond_bool body_block exit_block);
  _ ← stem (mgr_switch_to_block body_block);
  _ ← body body_data;
  _ ← stem (emit_jump header_block);
  stem (mgr_switch_to_block exit_block).

(** One case of opcode 0x0A. *)
Definition emit_case (cond : value) (merge_block : block) : em cg () :=
  val_const ← rdm read_i64;
  body_len ← rdm read_u32; body_data ← rdm (read_bytes body_len);
  val_v ← stem (iconst I64 val_const);
  is_match ← stem (icmp Equal cond val_v);
  match_block ← stem mgr_create_block;
  next_case_block ← stem mgr_create_block;
  _ ← stem (brif is_match match_block next_case_block);
  _ ← stem (mgr_switch_to_block match_block);
  _ ← body body_data;
  _ ← stem (ensure_terminated (Some merge_block));
  stem (mgr_switch_to_block next_case_block).

(** Opcode 0x0A, the scrutinee emitted. *)
Definition emit_switch (cond : value) : em cg () :=
  case_count ← rdm read_u32;
  merge_block ← stem mgr_create_block;
  _ ← rep (Z.to_nat case_count) (emit_case cond merge_block);
  def_len ← rdm read_u32; def_data ← rdm (read_bytes def_len);
  _ ← body def_data;
  _ ← stem (ensure_terminated (Some merge_block));
  stem (mgr_switch_to_block merge_block).

(** Opcode 0x07. *)
Definition emit_return_stmt (expr : em cg value) : em cg () := λ s,
  if bool_decide (b2z <$> peek_u8 s.1 = Some 0x04) then
    (_ ← rdm read_u8;
     func_name ← rdm read_string;
     arg_count ← rdm read_u32;
     args ← rep (Z.to_nat arg_count) expr;
     stem (emit_return_app x func_name args)) s
  else (val ← expr; stem (emit_return [val])) s.
End stmt.

Fixpoint emit_stmt_list (fuel : nat) (x : ectx) : em cg () := λ s,
  match fuel with
  | O => (s, Panic)
  | S fuel =>
      let expr := emit_expr fuel x in
      let body := λ data, over data (emit_stmt_list fuel x) in
      let again := emit_stmt_list fuel x in
      if remaining s.1 <=? 0 then (s, Ok ())
      else if c_terminated s.2 then (s, Ok ())
      else match b2z <$> peek_u8 s.1 with
           | Some 0x07 => (_ ← rdm read_u8; emit_return_stmt x expr) s
           | Some 0x08 => (_ ← rdm read_u8; cond ← expr; _ ← emit_if body cond; again) s
           | Some 0x09 => (_ ← rdm read_u8; _ ← emit_while body expr; again) s
           | Some 0x0A => (_ ← rdm read_u8; cond ← expr; _ ← emit_switch body cond; again) s
           | Some 0x03 =>
               (_ ← rdm read_u8; name ← rdm read_string; val ← expr; _ ← stem (emit_let name val); again) s
           | Some 0x30 =>
               (_ ← rdm read_u8; ptr ← expr; val ← expr; _ ← stem (store I64 val ptr 0); again) s
           | Some _ => (_ ← expr; again) s
           | None => (s, Ok ())
           end
  end.

(** A reader position and a nesting level are each paid for by a byte. *)
Definition fuel_of (data : bytes) : nat := S (length data).

(** ** A whole binary *)
Record CpsModule := { name_map : gmap bytes func_id; module_name : bytes }.

Record header := {
  h_name : bytes;
  h_param_count : Z;
  h_params : list bytes;
  h_body : bytes;
  h_func_id : func_id
}.

Definition claim (name : bytes) : gm bytes := λ g,
  let '(set, symbol) := Symbols.claim_export_symbol name (g_exports g) in
  ({| g_jit := g_jit g; g_auth := g_auth g; g_exports := set; g_tick := g_tick g |}, Ok symbol).

(** One round of the first loop. *)
Definition read_header : em globals header :=
  name ← rdm read_string;
  param_count ← rdm read_u32;
  params ← rep (Z.to_nat param_count) (rdm read_string);
  _ ← rdm read_u8;
  body_len ← rdm read_u32;
  body_data ← rdm (read_bytes body_len);
  symbol ← stem (claim name);
  func_id ← stem (declare_or (str "Declare " ++ symbol) symbol Export (Z.to_nat param_count));
  mret {| h_name := name; h_param_count := param_count; h_params := params;
          h_body := body_data; h_func_id := func_id |}.

(** The loop that binds the parameters. *)
Fixpoint bind_params (i n : nat) (names : list bytes) : cm () :=
  match n with
  | O => mret ()
  | S n =>
      val ← (λ s, (s, index_p (f_params (fb_func (c_fb s))) (Z.of_nat i))) : cm value;
      var ← (λ s, let '(v, fb) := declare_var (c_fb s) in (set_fb fb s, Ok v)) : cm variable;
      _ ← def_var var val;
      _ ← (λ s, (set_vars (<[default (str "p" ++ dec (Z.of_nat i)) (names !! i) := var]> (c_vars s)) s, Ok ())) : cm ();
      bind_params (S i) n names
  end.

Definition compile_body (x : ectx) (h : header) : cm () :=
  entry_block ← mgr_create_block;
  _ ← mgr_switch_to_block entry_block;
  _ ← fbop (λ b, Some (append_params (Z.to_nat (h_param_count h)) b));
  _ ← bind_params 0 (Z.to_nat (h_param_count h)) (h_params h);
  _ ← run_em {| cur_b := h_body h; cur_i := 0 |} (emit_stmt_list (fuel_of (h_body h)) x);
  _ ← ensure_terminated None;
  seal_all.

(** One round of the second loop. *)
Definition compile_function (names : gmap bytes func_id) (module_name : bytes) (h : header) : gm () :=
  f ← (λ g,
        let x := {| x_name_map := names; x_import_map := ∅; x_caller := h_name h; x_module := module_name |} in
        let '(s, r) := compile_body x h {| c_g := g; c_fb := fb_new; c_blocks := [];
                                           c_terminated := false; c_vars := ∅ |} in
        (c_g s, _ ← r; match finalize (c_fb s) with Some f => Ok f | None => Panic end)) : gm func;
  _ ← (λ g, (g, map_err (λ e, str "Verifier failed for function '" ++ h_name h ++ str "':" ++ LF :: e)
                  (verify_function (g_jit g) f))) : gm ();
  with_jit (λ j, let '(j, r) := define_function (h_func_id h) f j in
                 (j, map_err (λ e, str "Define " ++ h_name h ++ str ": " ++ e) r)).

Fixpoint compile_functions (names : gmap bytes func_id) (module_name : bytes) (hs : list header) : gm () :=
  match hs with
  | [] => mret ()
  | h :: hs => _ ← compile_function names module_name h; compile_functions names module_name hs
  end.

Definition names_of (hs : list header) : gmap bytes func_id :=
  foldl (λ m h, <[h_name h := h_func_id h]> m) ∅ hs.

Definition read_magic : em globals bytes :=
  magic ← rdm read_u32;
  match magic with
  | 0x43505331 => mret []
  | 0x43505332 => rdm read_string
  | _ => stm_err (str "Invalid magic: 0x" ++ hex_fixed 8 magic)
  end.

Definition compile_cps_to_clif (data : bytes) : gm CpsModule :=
  run_em {| cur_b := data; cur_i := 0 |} (
    module_name ← read_magic;
    func_count ← rdm read_u32;
    func_headers ← rep (Z.to_nat func_count) read_header;
    let names := names_of func_headers in
    _ ← stem (compile_functions names module_name func_headers);
    mret {| name_map := names; module_name := module_name |}).
End compiler.

End Cps.
