(* ===== verification/CpsInv.v ===== *)
(** * What every compile keeps, accepted or not

    An invariant of the engine that declarations and definitions keep is kept by
    the compiler on any input: an accepted binary, one refused half way, one
    that makes the code generator panic. *)

From S2P Require Import Prelude Cursor Text Auth Clif Symbols Cps.
Import Clif Cps.

Module CpsInv.
Create HintDb inv.
Section inv.
Context {J : Type} `{ClifModule J}.
Variable clock : nat → Z.
Variable I : J → Prop.
Hypothesis HI_declare : ∀ n l a j, I j → I (declare_function n l a j).1.
Hypothesis HI_define : ∀ fid f j, I j → I (define_function fid f j).1.

(** [pj] finds the engine in the state. *)
Definition inv {S A} (pj : S → J) (m : stm S bytes A) : Prop := ∀ s, I (pj s) → I (pj (m s).1).
Abbreviation in_cg := (λ s : @cg J, g_jit (c_g s)).

Lemma inv_bind {S A B} (pj : S → J) (m : stm S bytes A) (k : A → stm S bytes B) :
  inv pj m → (∀ a, inv pj (k a)) → inv pj (m ≫= k).
Proof.
  intros Hm Hk s Hs. unfold mbind, stm_bind. specialize (Hm s Hs). destruct (m s) as [s1 [a|e|]]; [|done..].
  by apply Hk.
Qed.
(** A step that leaves the engine alone. *)
Lemma inv_same {S A} (pj : S → J) (m : stm S bytes A) : (∀ s, pj (m s).1 = pj s) → inv pj m.
Proof. intros Hm s Hs. by rewrite Hm. Qed.
Lemma inv_ret {S A} (pj : S → J) (a : A) : inv pj (mret a).
Proof. by apply inv_same. Qed.
Lemma inv_lift {S A} (pj : S → J) (r : res bytes A) : inv pj (stm_lift r).
Proof. by apply inv_same. Qed.
Lemma inv_err {S A} (pj : S → J) (e : bytes) : inv pj (stm_err (A:=A) e).
Proof. by apply inv_same. Qed.
Lemma inv_rdm {S A} (pj : S → J) (p : rd bytes A) : inv (pj ∘ snd) (rdm p).
Proof. apply inv_same. intros [r s]. cbn. by destruct (p r) as [[]| |]. Qed.
Lemma inv_stem {S A} (pj : S → J) (m : stm S bytes A) : inv pj m → inv (pj ∘ snd) (stem m).
Proof. intros Hm [r s] Hs. specialize (Hm s Hs). cbn in *. by destruct (m s). Qed.
Lemma inv_run_em {S A} (pj : S → J) r (m : em S A) : inv (pj ∘ snd) m → inv pj (run_em r m).
Proof. intros Hm s Hs. specialize (Hm (r, s) Hs). unfold run_em. cbn in *. by destruct (m (r, s)) as [[] ?]. Qed.
Lemma inv_over {S A} (pj : S → J) d (m : em S A) : inv (pj ∘ snd) m → inv (pj ∘ snd) (over d m).
Proof. intros Hm. by apply inv_stem, inv_run_em. Qed.
Lemma inv_rep {S A} (pj : S → J) n (m : em S A) : inv (pj ∘ snd) m → inv (pj ∘ snd) (rep n m).
Proof.
  intros Hm. induction n as [|n IH]; cbn [rep]; [apply inv_ret|]. apply inv_bind; [done|]. intros a.
  apply inv_bind; [done|]. intros l. apply inv_ret.
Qed.
#[local] Hint Resolve inv_ret inv_lift inv_err inv_rdm inv_stem inv_over inv_rep : inv.
Ltac chain := repeat (apply inv_bind; [|intros ?]); eauto with inv.

(** ** Emission *)
Lemma inv_ing {A} (m : stm (@globals J) bytes A) : inv g_jit m → inv in_cg (ing m).
Proof. intros Hm s Hs. specialize (Hm (c_g s) Hs). unfold ing. by destruct (m (c_g s)). Qed.
Lemma inv_fbop f : inv in_cg (fbop f).
Proof. apply inv_same. intros s. unfold fbop. by destruct (f (c_fb s)). Qed.
Lemma inv_ins t mk : inv in_cg (ins t mk).
Proof. apply inv_same. intros s. unfold ins. destruct (new_value t (c_fb s)) as [v b]. by destruct (push_inst (mk v) b). Qed.
Lemma inv_declare_or w n l a : inv g_jit (declare_or w n l a).
Proof.
  intros g Hg. unfold declare_or, with_jit. specialize (HI_declare n l a _ Hg).
  by destruct (declare_function n l a (g_jit g)).
Qed.
Lemma inv_check c m f : inv (S:=@globals J) g_jit (check_call_permission clock c m f).
Proof.
  apply inv_same. intros g. unfold check_call_permission. destruct (is_gated c f); [|done].
  by destruct (Auth.check _ _ _ _ _).
Qed.
#[local] Hint Resolve inv_ing inv_fbop inv_ins inv_declare_or inv_check : inv.

Lemma inv_create : inv in_cg mgr_create_block.
Proof. by apply inv_same. Qed.
Lemma inv_switch b : inv in_cg (mgr_switch_to_block b).
Proof. unfold mgr_switch_to_block. apply inv_bind; [apply inv_fbop|]. intros _. by apply inv_same. Qed.
Lemma inv_unless m : inv in_cg m → inv in_cg (unless_terminated m).
Proof.
  intros Hm s Hs. unfold unless_terminated. destruct (c_terminated s); [done|].
  apply (inv_bind in_cg m (λ _, terminate)); [done| |done]. intros _. by apply inv_same.
Qed.
Lemma inv_call f args : inv in_cg (call f args).
Proof. unfold call. chain. Qed.
#[local] Hint Resolve inv_create inv_switch inv_unless inv_call : inv.
Lemma inv_jump b : inv in_cg (emit_jump b).
Proof. unfold emit_jump. eauto with inv. Qed.
Lemma inv_return vs : inv in_cg (emit_return vs).
Proof. unfold emit_return, return_. eauto with inv. Qed.
#[local] Hint Resolve inv_jump inv_return : inv.
Lemma inv_ensure o : inv in_cg (ensure_terminated o).
Proof.
  intros s Hs. unfold ensure_terminated. destruct (c_terminated s); [done|]. destruct o; [by apply inv_jump|].
  revert s Hs. change (inv in_cg (zero ← iconst I64 0; emit_return [zero])). unfold iconst. chain.
Qed.
Lemma inv_alloc v : inv in_cg (alloc v).
Proof. unfold alloc, arg. chain. Qed.
Lemma inv_store_fields p l : ∀ i, inv in_cg (store_fields p i l).
Proof. induction l as [|v l IH]; intros i; cbn [store_fields]; [apply inv_ret|]. unfold store. chain. Qed.
Lemma inv_store_bytes p l : ∀ i, inv in_cg (store_bytes p i l).
Proof. induction l as [|v l IH]; intros i; cbn [store_bytes]; [apply inv_ret|]. unfold store, iconst. chain. Qed.
#[local] Hint Resolve inv_ensure inv_alloc inv_store_fields inv_store_bytes : inv.
Lemma inv_slot_get vs : inv in_cg (slot_get vs).
Proof. unfold slot_get, arg, bin, load. chain. Qed.
Lemma inv_record_new vs : inv in_cg (record_new vs).
Proof. unfold record_new, arg. chain. Qed.
Lemma inv_union_new vs : inv in_cg (union_new vs).
Proof. unfold union_new, arg, store. chain. Qed.
Lemma inv_func_ref x f n : inv in_cg (func_ref x f n).
Proof.
  unfold func_ref. destruct (x_name_map x !! f); [apply inv_ret|].
  destruct (x_import_map x !! f); [apply inv_ret|]. unfold declare_import. eauto with inv.
Qed.
#[local] Hint Resolve inv_slot_get inv_record_new inv_union_new inv_func_ref : inv.
Lemma inv_app x f vs : inv in_cg (emit_app clock x f vs).
Proof.
  unfold emit_app. apply inv_bind; [eauto with inv|]. intros _.
  destruct (is_slot_get f); [eauto with inv|]. case_bool_decide; [eauto with inv|]. case_bool_decide; [eauto with inv|].
  apply inv_bind; [eauto with inv|]. intros fid. apply inv_bind; [eauto with inv|].
  intros [|v l]; [apply inv_ins|apply inv_ret].
Qed.
Lemma inv_return_app x f vs : inv in_cg (emit_return_app clock x f vs).
Proof.
  unfold emit_return_app. apply inv_bind; [eauto with inv|]. intros _. unfold return_, emit_return_call.
  destruct (is_slot_get f); [chain; by apply inv_same|]. case_bool_decide; [chain; by apply inv_same|].
  chain. apply inv_unless. chain.
Qed.
Lemma inv_string bs : inv in_cg (emit_string bs).
Proof. unfold emit_string, iconst, arg, store. chain. Qed.
Lemma inv_var n : inv in_cg (emit_var (J:=J) n).
Proof. intros s Hs. unfold emit_var. destruct (c_vars s !! n); [|done]. by apply inv_ins. Qed.
Lemma inv_binary op f a b : binary (J:=J) op = Some f → inv in_cg (f a b).
Proof.
  unfold binary. intros Hf.
  repeat match type of Hf with context [match ?x with _ => _ end] => destruct x; try discriminate end;
  injection Hf as <-; unfold emit_cmp, bin, icmp, uextend; chain.
Qed.
Lemma inv_let n v : inv in_cg (emit_let (J:=J) n v).
Proof. intros s Hs. unfold emit_let. destruct (c_vars s !! n); by apply inv_fbop. Qed.
Lemma inv_nonzero v : inv in_cg (nonzero (J:=J) v).
Proof. unfold nonzero, iconst, icmp. chain. Qed.
#[local] Hint Resolve inv_app inv_return_app inv_string inv_var inv_let inv_nonzero : inv.

Abbreviation in_em := (in_cg ∘ snd (A:=cursor)).
Lemma inv_st {A} (m : stm (@cg J) bytes A) : inv in_cg m → inv in_em (stem m).
Proof. apply (inv_stem in_cg). Qed.
Lemma inv_rp {A} n (m : em (@cg J) A) : inv in_em m → inv in_em (rep n m).
Proof. apply (inv_rep in_cg). Qed.
#[local] Hint Resolve inv_st inv_rp : inv.

Lemma inv_expr fuel x : inv in_em (emit_expr clock fuel x).
Proof.
  induction fuel as [|fuel IH]; cbn [emit_expr]; [by apply inv_same|]. apply inv_bind; [eauto with inv|]. intros b.
  assert (∀ op, inv in_em (match binary op with
     | Some f => a ← emit_expr clock fuel x; b ← emit_expr clock fuel x; stem (f a b)
     | None => stm_err (str "Unknown opcode: 0x" ++ hex_fixed 2 op) end)) as Hbin.
  { intros op. destruct (binary op) as [f|] eqn:Hf; [|apply inv_err].
    apply inv_bind; [done|intros a]. apply inv_bind; [done|intros b']. apply inv_st. by eapply inv_binary. }
  unfold iconst, bnot, load.
  repeat first [apply Hbin|match goal with |- inv _ (match ?x with _ => _ end) => destruct x end]; chain.
Qed.

Section stmt.
Variable body : bytes → em (@cg J) ().
Hypothesis Hbody : ∀ d, inv in_em (body d).
Lemma inv_if c : inv in_em (emit_if body c).
Proof. unfold emit_if, brif. chain. Qed.
Lemma inv_while e : inv in_em e → inv in_em (emit_while body e).
Proof. intros He. unfold emit_while, brif. chain. Qed.
Lemma inv_case c b : inv in_em (emit_case body c b).
Proof. unfold emit_case, brif, iconst, icmp. chain. Qed.
#[local] Hint Resolve inv_case : inv.
Lemma inv_switch_stmt c : inv in_em (emit_switch body c).
Proof. unfold emit_switch. chain. Qed.
Lemma inv_return_stmt x e : inv in_em e → inv in_em (emit_return_stmt clock x e).
Proof.
  intros He [r s] Hs. unfold emit_return_stmt. case_bool_decide; revert Hs; generalize (r, s);
    match goal with |- ∀ p, _ → I (in_em (?m p).1) => change (inv in_em m) end; chain.
Qed.
End stmt.
#[local] Hint Resolve inv_expr inv_if inv_while inv_case inv_switch_stmt inv_return_stmt : inv.

Lemma inv_stmts fuel x : inv in_em (emit_stmt_list clock fuel x).
Proof.
  induction fuel as [|fuel IH]; intros [r s] Hs; cbn [emit_stmt_list]; [done|].
  destruct (_ <=? 0); [done|]. destruct (c_terminated _); [done|].
  assert (∀ d, inv in_em (over d (emit_stmt_list clock fuel x))) as Hb by (intros d; by apply (inv_over in_cg)).
  destruct (b2z <$> peek_u8 _) as [op|]; [|done].
  assert (∀ m : em (@cg J) (), inv in_em m → I (in_em (m (r, s)).1)) as Happ by (intros m Hm; by apply Hm).
  repeat match goal with |- context [match ?x with _ => _ end (r, s)] => destruct x
         | |- context [match ?x with Z0 => _ | _ => _ end] => destruct x
         | |- context [match ?x with xI _ => _ | _ => _ end] => destruct x end;
    apply Happ; unfold store; chain.
Qed.

(** ** Binaries *)
Lemma inv_bind_params n : ∀ i names, inv in_cg (bind_params i n names).
Proof.
  induction n as [|n IH]; intros i names; cbn [bind_params]; [apply inv_ret|].
  unfold def_var. chain; by apply inv_same.
Qed.
Lemma inv_body x h : inv in_cg (compile_body clock x h).
Proof.
  unfold compile_body. pose proof inv_bind_params. chain. apply inv_run_em, inv_stmts.
Qed.
Lemma inv_function names m h : inv g_jit (compile_function clock names m h).
Proof.
  unfold compile_function. apply inv_bind; [|intros f; apply inv_bind; [by apply inv_same|intros _]].
  - intros g Hg. cbn. set (x := {| x_name_map := names; x_import_map := ∅; x_caller := h_name h; x_module := m |}).
    pose proof (inv_body x h {| c_g := g; c_fb := fb_new; c_blocks := []; c_terminated := false; c_vars := ∅ |} Hg) as Hb.
    by destruct (compile_body _ _ _ _).
  - intros g Hg. unfold with_jit. pose proof (HI_define (h_func_id h) f _ Hg) as Hd. by destruct (define_function _ _ _).
Qed.
Lemma inv_functions names m hs : inv g_jit (compile_functions clock names m hs).
Proof. induction hs as [|h hs IH]; cbn [compile_functions]; [apply inv_ret|]. apply inv_bind; [apply inv_function|done]. Qed.

Lemma compile_keeps data g : I (g_jit g) → I (g_jit (compile_cps_to_clif clock data g).1).
Proof.
  revert g. change (inv g_jit (compile_cps_to_clif clock data)). unfold compile_cps_to_clif. apply inv_run_em.
  apply inv_bind; [|intros mn; apply inv_bind; [apply inv_rdm|intros n]; apply inv_bind; [apply inv_rep|intros hs]].
  - unfold read_magic. apply inv_bind; [apply inv_rdm|]. intros z.
    repeat match goal with |- inv _ (match ?x with _ => _ end) => destruct x end; eauto with inv.
  - unfold read_header. chain. apply (inv_stem g_jit). apply inv_same. intros g. unfold claim. by destruct (Symbols.claim_export_symbol _ _).
  - apply inv_bind; [apply (inv_stem g_jit), inv_functions|]. intros _. apply inv_ret.
Qed.
End inv.
End CpsInv.
