(* ===== verification/CpsLang.v ===== *)
(** * The CPS language: syntax, encoding, and compilation on syntax

    [cps.rs] never builds a syntax tree: it emits code while it reads. Here is
    the tree a binary stands for, its encoding, and the same emission by
    recursion on the tree. The theorems identify the two: the emitter on the
    encoding of a tree does what the recursion does, errors included, and
    whatever the emitter accepts is the encoding of a tree. *)

From S2P Require Import Prelude Cursor Text Clif Symbols Cps.
Import Clif Cps.

Module CpsLang.

(** ** Syntax *)
Inductive op2 := OAdd | OSub | OMul | OCmp (cc : intcc).

(** Names are the bytes in the binary; the compiler reads them through
    [String::from_utf8_lossy]. *)
Inductive expr :=
| EConst (z : Z)
| EVar (name : bytes)
| EApp (f : bytes) (args : exprs)
| EOp (o : op2) (a b : expr)
| ENot (a : expr)
| ELoad (p : expr)
| EString (s : bytes)
with exprs :=
| ENil
| ECons (e : expr) (es : exprs).

(** What follows a return in its block is not read. *)
Inductive stmts :=
| SNil
| SReturn (e : expr) (dead : bytes)
| SIf (c : expr) (t f : stmts) (k : stmts)
| SWhile (c : expr) (b : stmts) (k : stmts)
| SSwitch (c : expr) (cs : cases) (d : stmts) (k : stmts)
| SLet (name : bytes) (e : expr) (k : stmts)
| SStore (p v : expr) (k : stmts)
| SExpr (e : expr) (k : stmts)
with cases :=
| CNil
| CCons (z : Z) (b : stmts) (cs : cases).

Scheme expr_ind' := Induction for expr Sort Prop
with exprs_ind' := Induction for exprs Sort Prop.
Combined Scheme expr_exprs_ind from expr_ind', exprs_ind'.
Scheme stmts_ind' := Induction for stmts Sort Prop
with cases_ind' := Induction for cases Sort Prop.
Combined Scheme stmts_cases_ind from stmts_ind', cases_ind'.

(** The argument and case lists as lists. *)
Lemma exprs_list_ind (Q : exprs → Prop) : Q ENil → (∀ e es, Q es → Q (ECons e es)) → ∀ es, Q es.
Proof. intros H0 H1. fix IH 1. intros [|e es]; [exact H0|]. apply H1, IH. Qed.
Lemma cases_list_ind (Q : cases → Prop) : Q CNil → (∀ z b cs, Q cs → Q (CCons z b cs)) → ∀ cs, Q cs.
Proof. intros H0 H1. fix IH 1. intros [|z b cs]; [exact H0|]. apply H1, IH. Qed.

Fixpoint elen (es : exprs) : nat := match es with ENil => 0 | ECons _ es => S (elen es) end.
Fixpoint clen (cs : cases) : nat := match cs with CNil => 0 | CCons _ _ cs => S (clen cs) end.

(** ** Encoding *)
Definition opcode (o : op2) : Z :=
  match o with
  | OAdd => 0x05 | OSub => 0x06 | OMul => 0x18
  | OCmp SignedLessThan => 0x10 | OCmp SignedGreaterThan => 0x11
  | OCmp SignedLessThanOrEqual => 0x12 | OCmp SignedGreaterThanOrEqual => 0x13
  | OCmp Equal => 0x14 | OCmp NotEqual => 0x15
  end.

Definition u32 (z : Z) : bytes := le_bytes 4 z.
Definition i64 (z : Z) : bytes := le_bytes 8 (z mod 2 ^ 64).
(** A length-prefixed string or body. *)
Definition blob (s : bytes) : bytes := u32 (Zlen s) ++ s.

Fixpoint enc_expr (e : expr) : bytes :=
  match e with
  | EConst z => z2b 0x01 :: i64 z
  | EVar x => z2b 0x02 :: blob x
  | EApp f args => z2b 0x04 :: blob f ++ u32 (Z.of_nat (elen args)) ++ enc_exprs args
  | EOp o a b => z2b (opcode o) :: enc_expr a ++ enc_expr b
  | ENot a => z2b 0x19 :: enc_expr a
  | ELoad p => z2b 0x20 :: enc_expr p
  | EString s => z2b 0x21 :: blob s
  end
with enc_exprs (es : exprs) : bytes :=
  match es with ENil => [] | ECons e es => enc_expr e ++ enc_exprs es end.

Fixpoint enc_stmts (ss : stmts) : bytes :=
  match ss with
  | SNil => []
  | SReturn e dead => z2b 0x07 :: enc_expr e ++ dead
  | SIf c t f k => z2b 0x08 :: enc_expr c ++ blob (enc_stmts t) ++ blob (enc_stmts f) ++ enc_stmts k
  | SWhile c b k => z2b 0x09 :: enc_expr c ++ blob (enc_stmts b) ++ enc_stmts k
  | SSwitch c cs d k =>
      z2b 0x0A :: enc_expr c ++ u32 (Z.of_nat (clen cs)) ++ enc_cases cs ++ blob (enc_stmts d) ++ enc_stmts k
  | SLet x e k => z2b 0x03 :: blob x ++ enc_expr e ++ enc_stmts k
  | SStore p v k => z2b 0x30 :: enc_expr p ++ enc_expr v ++ enc_stmts k
  | SExpr e k => enc_expr e ++ enc_stmts k
  end
with enc_cases (cs : cases) : bytes :=
  match cs with CNil => [] | CCons z b cs => i64 z ++ blob (enc_stmts b) ++ enc_cases cs end.

(** Constants are 64-bit, lengths and counts 32-bit. *)
Definition is_i64 (z : Z) : Prop := - 2 ^ 63 ≤ z < 2 ^ 63.
Definition fits (s : bytes) : Prop := Zlen s < 2 ^ 32.

Fixpoint wf_expr (e : expr) : Prop :=
  match e with
  | EConst z => is_i64 z
  | EVar x => fits x
  | EApp f args => fits f ∧ Z.of_nat (elen args) < 2 ^ 32 ∧ wf_exprs args
  | EOp _ a b => wf_expr a ∧ wf_expr b
  | ENot a | ELoad a => wf_expr a
  | EString s => fits s
  end
with wf_exprs (es : exprs) : Prop :=
  match es with ENil => True | ECons e es => wf_expr e ∧ wf_exprs es end.

Fixpoint wf_stmts (ss : stmts) : Prop :=
  match ss with
  | SNil => True
  | SReturn e _ => wf_expr e
  | SIf c t f k => wf_expr c ∧ (fits (enc_stmts t) ∧ wf_stmts t) ∧ (fits (enc_stmts f) ∧ wf_stmts f) ∧ wf_stmts k
  | SWhile c b k => wf_expr c ∧ (fits (enc_stmts b) ∧ wf_stmts b) ∧ wf_stmts k
  | SSwitch c cs d k =>
      wf_expr c ∧ Z.of_nat (clen cs) < 2 ^ 32 ∧ wf_cases cs ∧ (fits (enc_stmts d) ∧ wf_stmts d) ∧ wf_stmts k
  | SLet x e k => fits x ∧ wf_expr e ∧ wf_stmts k
  | SStore p v k => wf_expr p ∧ wf_expr v ∧ wf_stmts k
  | SExpr e k => wf_expr e ∧ wf_stmts k
  end
with wf_cases (cs : cases) : Prop :=
  match cs with
  | CNil => True
  | CCons z b cs => is_i64 z ∧ (fits (enc_stmts b) ∧ wf_stmts b) ∧ wf_cases cs
  end.

(** ** Compilation on syntax *)
Section compile.
Context {J : Type} `{ClifModule J}.
Variable clock : nat → Z.
Abbreviation cm := (stm (@cg J) bytes).

Definition cop (o : op2) : value → value → cm value :=
  match o with OAdd => bin Iadd | OSub => bin Isub | OMul => bin Imul | OCmp cc => emit_cmp cc end.

Fixpoint cexpr (x : ectx) (e : expr) : cm value :=
  match e with
  | EConst z => iconst I64 z
  | EVar name => emit_var (from_utf8_lossy name)
  | EApp f args => vs ← cexprs x args; emit_app clock x (from_utf8_lossy f) vs
  | EOp o a b => va ← cexpr x a; vb ← cexpr x b; cop o va vb
  | ENot a => v ← cexpr x a; bnot v
  | ELoad p => v ← cexpr x p; load v 0
  | EString s => emit_string s
  end
with cexprs (x : ectx) (es : exprs) : cm (list value) :=
  match es with
  | ENil => mret []
  | ECons e es => v ← cexpr x e; vs ← cexprs x es; mret (v :: vs)
  end.

(** A call returned is a tail call. *)
Definition creturn (x : ectx) (e : expr) : cm () :=
  match e with
  | EApp f args => vs ← cexprs x args; emit_return_app clock x (from_utf8_lossy f) vs
  | _ => v ← cexpr x e; emit_return [v]
  end.

Fixpoint cstmts (x : ectx) (ss : stmts) : cm () :=
  match ss with
  | SNil => mret ()
  | SReturn e _ => creturn x e
  | SIf c t f k =>
      cond ← cexpr x c;
      cond_bool ← nonzero cond;
      then_block ← mgr_create_block;
      else_block ← mgr_create_block;
      merge_block ← mgr_create_block;
      _ ← brif cond_bool then_block else_block;
      _ ← mgr_switch_to_block then_block;
      _ ← cstmts x t;
      _ ← ensure_terminated (Some merge_block);
      _ ← mgr_switch_to_block else_block;
      _ ← cstmts x f;
      _ ← ensure_terminated (Some merge_block);
      _ ← mgr_switch_to_block merge_block;
      cstmts x k
  | SWhile c b k =>
      header_block ← mgr_create_block;
      body_block ← mgr_create_block;
      exit_block ← mgr_create_block;
      _ ← emit_jump header_block;
      _ ← mgr_switch_to_block header_block;
      cond ← cexpr x c;
      cond_bool ← nonzero cond;
      _ ← brif cond_bool body_block exit_block;
      _ ← mgr_switch_to_block body_block;
      _ ← cstmts x b;
      _ ← emit_jump header_block;
      _ ← mgr_switch_to_block exit_block;
      cstmts x k
  | SSwitch c cs d k =>
      cond ← cexpr x c;
      merge_block ← mgr_create_block;
      _ ← ccases x cond merge_block cs;
      _ ← cstmts x d;
      _ ← ensure_terminated (Some merge_block);
      _ ← mgr_switch_to_block merge_block;
      cstmts x k
  | SLet name e k => v ← cexpr x e; _ ← emit_let (from_utf8_lossy name) v; cstmts x k
  | SStore p v k => vp ← cexpr x p; vv ← cexpr x v; _ ← store I64 vv vp 0; cstmts x k
  | SExpr e k => _ ← cexpr x e; cstmts x k
  end
with ccases (x : ectx) (cond : value) (merge_block : block) (cs : cases) : cm () :=
  match cs with
  | CNil => mret ()
  | CCons z b cs =>
      val_v ← iconst I64 z;
      is_match ← icmp Equal cond val_v;
      match_block ← mgr_create_block;
      next_case_block ← mgr_create_block;
      _ ← brif is_match match_block next_case_block;
      _ ← mgr_switch_to_block match_block;
      _ ← cstmts x b;
      _ ← ensure_terminated (Some merge_block);
      _ ← mgr_switch_to_block next_case_block;
      ccases x cond merge_block cs
  end.

(** Emission changes the module by declarations only. *)
Definition declares : relation J := rtc (λ j j', ∃ n l a, j' = (declare_function n l a j).1).

(** ** Programs *)

(** [fd_ret] is the return type byte, which is read and not used. *)
Record fdef := { fd_name : bytes; fd_params : list bytes; fd_ret : byte; fd_body : stmts }.
(** [None] is the first version of the format, which has no module name. *)
Record program := { p_module : option bytes; p_funs : list fdef }.

Definition enc_fdef (fd : fdef) : bytes :=
  blob (fd_name fd) ++ u32 (Zlen (fd_params fd)) ++ concat (blob <$> fd_params fd) ++
  [fd_ret fd] ++ blob (enc_stmts (fd_body fd)).
Definition enc_program (p : program) : bytes :=
  match p_module p with None => u32 0x43505331 | Some m => u32 0x43505332 ++ blob m end ++
  u32 (Zlen (p_funs p)) ++ concat (enc_fdef <$> p_funs p).

Definition wf_fdef (fd : fdef) : Prop :=
  fits (fd_name fd) ∧ Zlen (fd_params fd) < 2 ^ 32 ∧ Forall fits (fd_params fd) ∧ fits (enc_stmts (fd_body fd)).
Definition wf_bodies (p : program) : Prop := Forall (λ fd, wf_stmts (fd_body fd)) (p_funs p).
Definition wf_program (p : program) : Prop :=
  from_option fits True (p_module p) ∧ Zlen (p_funs p) < 2 ^ 32 ∧ Forall wf_fdef (p_funs p).

Definition module_of (p : program) : bytes := from_option from_utf8_lossy [] (p_module p).

(** The header the first loop makes of a function. *)
Definition header_of (fd : fdef) (fid : func_id) : header :=
  {| h_name := from_utf8_lossy (fd_name fd); h_param_count := Zlen (fd_params fd);
     h_params := from_utf8_lossy <$> fd_params fd; h_body := enc_stmts (fd_body fd); h_func_id := fid |}.

Definition cheader (fd : fdef) : stm (@globals J) bytes header :=
  symbol ← claim (from_utf8_lossy (fd_name fd));
  fid ← declare_or (str "Declare " ++ symbol) symbol Export (length (fd_params fd));
  mret (header_of fd fid).

Fixpoint cheaders (fds : list fdef) : stm (@globals J) bytes (list header) :=
  match fds with
  | [] => mret []
  | fd :: fds => h ← cheader fd; hs ← cheaders fds; mret (h :: hs)
  end.

(** A function with its statements compiled by [cstmts]. *)
Definition cbody (x : ectx) (h : header) (ss : stmts) : cm () :=
  entry_block ← mgr_create_block;
  _ ← mgr_switch_to_block entry_block;
  _ ← fbop (λ b, Some (append_params (Z.to_nat (h_param_count h)) b));
  _ ← bind_params 0 (Z.to_nat (h_param_count h)) (h_params h);
  _ ← cstmts x ss;
  _ ← ensure_terminated None;
  seal_all.

Definition start_function (g : @globals J) : cg :=
  {| c_g := g; c_fb := fb_new; c_blocks := []; c_terminated := false; c_vars := ∅ |}.

Definition cfunction (names : gmap bytes func_id) (module_name : bytes) (h : header) (ss : stmts) :
    stm (@globals J) bytes () :=
  f ← (λ g,
        let x := {| x_name_map := names; x_import_map := ∅; x_caller := h_name h; x_module := module_name |} in
        let '(s, r) := cbody x h ss (start_function g) in
        (c_g s, _ ← r; match finalize (c_fb s) with Some f => Ok f | None => Panic end)) : stm globals bytes func;
  _ ← (λ g, (g, map_err (λ e, str "Verifier failed for function '" ++ h_name h ++ str "':" ++ LF :: e)
                  (verify_function (g_jit g) f))) : stm globals bytes ();
  with_jit (λ j, let '(j, r) := define_function (h_func_id h) f j in
                 (j, map_err (λ e, str "Define " ++ h_name h ++ str ": " ++ e) r)).

Fixpoint cfunctions (names : gmap bytes func_id) (module_name : bytes) (hs : list (header * stmts)) :
    stm (@globals J) bytes () :=
  match hs with
  | [] => mret ()
  | (h, ss) :: hs => _ ← cfunction names module_name h ss; cfunctions names module_name hs
  end.

Definition cprogram (p : program) : stm (@globals J) bytes CpsModule :=
  hs ← cheaders (p_funs p);
  _ ← cfunctions (names_of hs) (module_of p) (zip hs (fd_body <$> p_funs p));
  mret {| name_map := names_of hs; module_name := module_of p |}.
End compile.

End CpsLang.
