(* ===== verification/CpsFuse.v ===== *)
(** * Reading and emitting in one pass is compiling the tree

    [fuses P m enc c Q]: from a state in [P], the emitter [m] at the start of
    [enc] does what the tree compilation [c] does; when it succeeds it has read
    [enc] and the state is in [Q]. *)

From S2P Require Import Prelude Cursor Text Clif Symbols Cps CpsLang.
Import Clif Cps CpsLang.

Module CpsFuse.

(** ** The reader *)
#[export] Instance cps_take : ByteReader bytes := read_bytes.
#[export] Instance cps_take_laws : ByteReaderLaws bytes.
Proof.
  apply checked_take_laws. intros c n Hc Hn Hb. unfold br_take, cps_take, read_bytes.
  destruct (Z.ltb_spec (Zlen (cur_b c)) (cur_i c + n)); [right|left]; (split; [lia|]); [by eexists|].
  unfold slice_p. rewrite !(proj2 (Z.leb_le _ _)) by lia. done.
Qed.

Lemma index_p_mid {E} (pre post : bytes) b : index_p (E:=E) (pre ++ b :: post) (Zlen pre) = Ok b.
Proof.
  unfold index_p. rewrite (proj2 (Z.leb_le _ _)) by lia.
  by rewrite Nat2Z.id, lookup_app_r, Nat.sub_diag by lia.
Qed.

Lemma read_u8_at pre b post : read_u8 (at_ pre (b :: post)) = Ok (b, at_ (pre ++ [b]) post).
Proof.
  unfold read_u8, at_. cbn [cur_b cur_i]. rewrite length_app. rewrite (proj2 (Z.leb_gt _ _)) by (cbn; lia).
  rewrite index_p_mid. cbn [mbind res_bind]. rewrite <-app_assoc, length_app. do 3 f_equal; cbn; lia.
Qed.

Lemma read_u8_end pre : read_u8 (at_ pre []) = Err EOF.
Proof. unfold read_u8, at_. cbn [cur_b cur_i]. by rewrite app_nil_r, (proj2 (Z.leb_le _ _)) by lia. Qed.

Lemma peek_at pre b post : peek_u8 (at_ pre (b :: post)) = Some b.
Proof.
  unfold peek_u8, at_. cbn [cur_b cur_i]. rewrite length_app. rewrite (proj2 (Z.leb_gt _ _)) by (cbn; lia).
  by rewrite Nat2Z.id, lookup_app_r, Nat.sub_diag by lia.
Qed.

Lemma remaining_at pre post : remaining (at_ pre post) = Zlen post.
Proof. unfold remaining, at_. cbn [cur_b cur_i]. rewrite length_app. lia. Qed.

Lemma cps_reads_u8 b : reads read_u8 [b] b.
Proof. intros pre post _. apply read_u8_at. Qed.

Lemma cps_accepts_u8 : accepts read_u8 (λ b s, s = [b]).
Proof.
  intros pre [|b rest] _; [by rewrite read_u8_end|]. rewrite read_u8_at. by exists [b], rest.
Qed.

Lemma wrap64_id z : is_i64 z → wrap64 z = z.
Proof. unfold is_i64, wrap64. intros Hz. rewrite Z.mod_small by lia. lia. Qed.
Lemma wrap64_range z : is_i64 (wrap64 z).
Proof. unfold is_i64, wrap64. pose proof (Z.mod_pos_bound (z + 2 ^ 63) (2 ^ 64) ltac:(lia)). lia. Qed.
Lemma wrap64_mod z : wrap64 (z mod 2 ^ 64) = wrap64 z.
Proof. unfold wrap64. by rewrite Zplus_mod_idemp_l. Qed.
Lemma mod_wrap64 z : wrap64 z mod 2 ^ 64 = z mod 2 ^ 64.
Proof.
  unfold wrap64. rewrite Zminus_mod_idemp_l. f_equal. lia.
Qed.

Lemma cps_reads_bytes s : reads (read_bytes (Zlen s)) s s.
Proof. apply br_reads. Qed.
Lemma cps_reads_u32 z : 0 ≤ z < 2 ^ 32 → reads read_u32 (u32 z) z.
Proof. apply (reads_le 4). Qed.
Lemma cps_accepts_u32 : accepts read_u32 (λ z s, s = u32 z ∧ 0 ≤ z < 2 ^ 32).
Proof. apply (accepts_le 4). lia. Qed.

Lemma cps_reads_i64 z : is_i64 z → reads read_i64 (i64 z) z.
Proof.
  intros Hz. unfold read_i64. eapply reads_bind_r.
  - pose proof (cps_reads_bytes (i64 z)) as Hr. unfold i64 in Hr at 1. by rewrite length_le_bytes in Hr.
  - unfold i64. rewrite le_val_le_bytes, Z.mod_mod by lia. change (8 * Z.of_nat 8) with 64.
    rewrite wrap64_mod, wrap64_id by done. apply reads_ret.
Qed.
Lemma cps_accepts_i64 : accepts read_i64 (λ z s, s = i64 z ∧ is_i64 z).
Proof.
  unfold read_i64. eapply accepts_bind; [apply (br_accepts 8); lia|]. intros a s [<- Hs].
  apply accepts_ret. rewrite app_nil_r. split; [|apply wrap64_range]. unfold i64. rewrite mod_wrap64.
  pose proof (le_val_range a) as Hr. rewrite Hs in Hr. rewrite Z.mod_small by done.
  by rewrite le_bytes_le_val by lia.
Qed.

Lemma cps_accepts_bytes n : 0 ≤ n < 2 ^ 32 → accepts (read_bytes n) (λ a s, a = s ∧ Zlen s = n).
Proof. intros Hn. apply (br_accepts n). lia. Qed.

Lemma cps_reads_string s : fits s → reads read_string (blob s) (from_utf8_lossy s).
Proof.
  unfold fits. intros Hs. unfold read_string. eapply reads_bind; [apply cps_reads_u32; lia|].
  eapply reads_bind_r; [apply cps_reads_bytes|apply reads_ret].
Qed.
Lemma cps_accepts_string : accepts read_string (λ x s, ∃ n, s = blob n ∧ fits n ∧ x = from_utf8_lossy n).
Proof.
  unfold read_string. eapply accepts_bind; [apply cps_accepts_u32|]. intros z s [-> Hz].
  eapply accepts_bind; [by apply cps_accepts_bytes|]. intros a s [<- Hs]. apply accepts_ret.
  exists a. unfold blob, fits. rewrite app_nil_r, Hs. by split_and!; [|lia|].
Qed.

(** ** Fused computations *)
Section fuse.
Context {S : Type}.
Implicit Types (P Q : S → Prop).

Definition fuses {A} P (m : em S A) (enc : bytes) (c : stm S bytes A) Q : Prop :=
  ∀ pre post s, buffer (pre ++ enc ++ post) → P s →
  ∃ r, m (at_ pre (enc ++ post), s) = ((r, (c s).1), (c s).2) ∧
    ∀ a, (c s).2 = Ok a → r = at_ (pre ++ enc) post ∧ Q (c s).1.

(** A triple of the state's own computations. *)
Definition leads {A} P (c : stm S bytes A) Q : Prop := ∀ s a, P s → (c s).2 = Ok a → Q (c s).1.

Lemma fuses_stem {A} P (c : stm S bytes A) Q : leads P c Q → fuses P (stem c) [] c Q.
Proof.
  intros Hc pre post s _ Hs. exists (at_ pre post). unfold stem. cbn [app].
  destruct (c s) as [s' r] eqn:E. split; [done|]. intros a Ha. rewrite app_nil_r. split; [done|].
  specialize (Hc s a Hs). rewrite E in Hc. auto.
Qed.

Lemma fuses_bind {A B} P (m : em S A) e1 c Q (k : A → em S B) e2 (kc : A → stm S bytes B) R :
  fuses P m e1 c Q → (∀ a, fuses Q (k a) e2 (kc a) R) → fuses P (m ≫= k) (e1 ++ e2) (c ≫= kc) R.
Proof.
  intros Hm Hk pre post s Hb Hs. rewrite <-app_assoc in Hb |- *.
  destruct (Hm pre (e2 ++ post) s Hb Hs) as (r & E & Hr). unfold mbind, stm_bind. rewrite E.
  destruct (c s) as [s' [a|e|]]; cbn [fst snd] in *; [|by exists r..].
  destruct (Hr a eq_refl) as [-> HQ]. rewrite (app_assoc pre) in Hb.
  destruct (Hk a (pre ++ e1) post s' Hb HQ) as (r & E' & Hr'). exists r. by rewrite E', (app_assoc pre).
Qed.

Lemma fuses_ret {A} P (a : A) : fuses P (mret a) [] (mret a) P.
Proof. intros pre post s _ Hs. exists (at_ pre post). cbn. by rewrite app_nil_r. Qed.

Lemma fuses_read {A B} P (p : rd bytes A) e1 a (k : A → em S B) e2 c R :
  reads p e1 a → fuses P (k a) e2 c R → fuses P (rdm p ≫= k) (e1 ++ e2) c R.
Proof.
  intros Hp Hk pre post s Hb Hs. rewrite <-app_assoc in Hb |- *. unfold mbind, stm_bind, rdm.
  rewrite (Hp pre (e2 ++ post) Hb). rewrite (app_assoc pre) in Hb.
  destruct (Hk (pre ++ e1) post s Hb Hs) as (r & E & Hr). exists r. by rewrite E, (app_assoc pre).
Qed.

Lemma fuses_read_end {A B} P (p : rd bytes A) e1 a (k : A → em S B) c R :
  reads p e1 a → fuses P (k a) [] c R → fuses P (rdm p ≫= k) e1 c R.
Proof. intros Hp Hk. rewrite <-(app_nil_r e1). by eapply fuses_read. Qed.

Lemma fuses_stem_bind {A B} P (c : stm S bytes A) Q (k : A → em S B) e (kc : A → stm S bytes B) R :
  leads P c Q → (∀ a, fuses Q (k a) e (kc a) R) → fuses P (stem c ≫= k) e (c ≫= kc) R.
Proof. intros Hc Hk. apply (fuses_bind P _ [] c Q); [by apply fuses_stem|done]. Qed.

Lemma fuses_bind_end {A B} P (m : em S A) e c Q (k : A → stm S bytes B) R :
  fuses P m e c Q → (∀ a, leads Q (k a) R) → fuses P (m ≫= λ a, stem (k a)) e (c ≫= k) R.
Proof. intros Hm Hk. rewrite <-(app_nil_r e). eapply fuses_bind; [done|]. intros a. by apply fuses_stem. Qed.

Lemma leads_bind {A B} P (c : stm S bytes A) Q (k : A → stm S bytes B) R :
  leads P c Q → (∀ a, leads Q (k a) R) → leads P (c ≫= k) R.
Proof.
  intros Hc Hk s b Hs. unfold mbind, stm_bind. pose proof (Hc s) as Hc'.
  destruct (c s) as [s' [a|e|]]; cbn [fst snd] in *; [|done..]. intros E. eapply Hk; [by eapply Hc'|done].
Qed.
Lemma leads_true {A} P (c : stm S bytes A) : leads P c (λ _, True).
Proof. by intros s a. Qed.
End fuse.

Lemma fuses_conseq {S A} (P P' : S → Prop) (m : em S A) e c (Q Q' : S → Prop) :
  fuses P m e c Q → (∀ s, P' s → P s) → (∀ s, Q s → Q' s) → fuses P' m e c Q'.
Proof.
  intros Hm HP HQ pre post s Hb Hs. destruct (Hm pre post s Hb (HP s Hs)) as (r & E & Hr). exists r.
  split; [done|]. intros a Ha. destruct (Hr a Ha). auto.
Qed.

(** ** Taking a successful chain apart *)
Lemma bind_inv_ok {S A B} (m : stm S bytes A) (k : A → stm S bytes B) s s'' b :
  (m ≫= k) s = (s'', Ok b) → ∃ s' a, m s = (s', Ok a) ∧ k a s' = (s'', Ok b).
Proof. unfold mbind, stm_bind. destruct (m s) as [s' [a|e|]]; [|done..]. eauto. Qed.
Lemma bind_ok {S A B} (m : stm S bytes A) (k : A → stm S bytes B) s s' a :
  m s = (s', Ok a) → (m ≫= k) s = k a s'.
Proof. unfold mbind, stm_bind. by intros ->. Qed.
Lemma stem_inv {S A} (c : stm S bytes A) r s r' s' a :
  stem c (r, s) = ((r', s'), Ok a) → r' = r ∧ c s = (s', Ok a).
Proof. unfold stem. destruct (c s). naive_solver. Qed.
Lemma read_inv {S A} (p : rd bytes A) P pre rest (s : S) r' s' a :
  accepts p P → buffer (pre ++ rest) → rdm p (at_ pre rest, s) = ((r', s'), Ok a) →
  s' = s ∧ ∃ e post, rest = e ++ post ∧ r' = at_ (pre ++ e) post ∧ buffer ((pre ++ e) ++ post) ∧ P a e.
Proof.
  intros Hp Hb. specialize (Hp pre rest Hb). unfold rdm. destruct (p (at_ pre rest)) as [[a' c]|e|]; [|done..].
  intros [= -> -> ->]. destruct Hp as (e & post & -> & -> & HP). split; [done|]. exists e, post.
  by rewrite <-app_assoc.
Qed.

(** Peel one computation off the front of a successful chain. *)
Ltac peel H :=
  let r := fresh "r" in let s := fresh "s" in let a := fresh "a" in let E := fresh "E" in
  apply bind_inv_ok in H as ([r s] & a & E & H).
Ltac peel_stem H :=
  let r := fresh "r" in let s := fresh "s" in let a := fresh "a" in let E := fresh "E" in
  apply bind_inv_ok in H as ([r s] & a & E & H); apply stem_inv in E as [-> E].
Ltac peel_read H lem :=
  peel H;
  match goal with E : rdm _ _ = _ |- _ =>
    eapply read_inv in E as (-> & ? & ? & -> & -> & ? & E); [|apply lem; lia|done]; cbn beta in E end.
(** Rebuild the chain on the tree side. *)
Ltac rebuild := repeat (erewrite bind_ok by eassumption).

Lemma byte_of_opcode b z : b2z b = z → b = z2b z.
Proof. intros <-. by rewrite z2b_b2z. Qed.

(** A length-prefixed body off the front: its length, then its bytes. *)
Ltac peel_blob H d :=
  peel_read H cps_accepts_u32; match goal with E : _ = u32 _ ∧ _ |- _ => destruct E as [-> ?] end;
  peel H; match goal with E : rdm (read_bytes _) _ = _ |- _ =>
    eapply read_inv in E as (-> & d & ? & -> & -> & ? & E); [|apply cps_accepts_bytes; lia|done];
    destruct E as [-> <-] end.

(** ** The emitters keep the block open *)
Section emit.
Context {J : Type} `{ClifModule J}.
Variable clock : nat → Z.
Abbreviation cm := (stm (@cg J) bytes).

Definition live (s : @cg J) : Prop := c_terminated s = false.
Definition any (s : @cg J) : Prop := True.

Lemma live_fbop f : leads live (fbop (J:=J) f) live.
Proof. intros s a Hs. unfold fbop. by destruct (f (c_fb s)). Qed.
Lemma live_ins t mk : leads live (ins (J:=J) t mk) live.
Proof. intros s a Hs. unfold ins. cbn. by case_match. Qed.
Lemma live_ing {A} (m : stm (@globals J) bytes A) : leads live (ing m) live.
Proof. intros s a Hs. unfold ing. by destruct (m (c_g s)). Qed.
Lemma live_lift {A} (r : res bytes A) : leads live (stm_lift r) live.
Proof. by intros s a Hs. Qed.
Lemma live_ret {A} (a : A) : leads live (mret a) live.
Proof. by intros s b Hs. Qed.
Lemma live_bind {A B} (c : cm A) (k : A → cm B) :
  leads live c live → (∀ a, leads live (k a) live) → leads live (c ≫= k) live.
Proof. apply leads_bind. Qed.
Lemma any_switch b : leads any (mgr_switch_to_block b) live.
Proof. intros s a _. unfold mgr_switch_to_block, fbop, mbind, stm_bind. by destruct (switch_to_block b (c_fb s)). Qed.
Lemma live_create : leads live mgr_create_block live.
Proof. by intros s a Hs. Qed.
Lemma any_leads {A} (c : cm A) P : leads P c any.
Proof. by intros s a. Qed.

Create HintDb live.
#[local] Hint Resolve live_fbop live_ins live_ing live_lift live_ret live_bind live_create any_leads any_switch : live.
#[local] Hint Unfold iconst bin bnot icmp uextend load store call use_var def_var brif arg nonzero emit_cmp : live.

Lemma live_store_fields p i l : leads live (store_fields p i l) live.
Proof. revert i; induction l as [|v l IH]; intros i; cbn [store_fields]; eauto with live. Qed.
Lemma live_store_bytes p i l : leads live (store_bytes p i l) live.
Proof. revert i; induction l as [|v l IH]; intros i; cbn [store_bytes]; eauto 6 with live. Qed.
#[local] Hint Resolve live_store_fields live_store_bytes : live.
Lemma live_alloc v : leads live (alloc v) live.
Proof. unfold alloc. eauto 6 with live. Qed.
#[local] Hint Resolve live_alloc : live.
Lemma live_emit_app x f args : leads live (emit_app clock x f args) live.
Proof.
  unfold emit_app. apply live_bind; [eauto with live|]. intros [].
  destruct (is_slot_get f); [unfold slot_get; eauto 10 with live|].
  case_bool_decide; [unfold record_new; eauto 10 with live|].
  case_bool_decide; [unfold union_new; eauto 12 with live|].
  unfold func_ref. apply live_bind.
  { destruct (x_name_map x !! f); [eauto with live|]. destruct (x_import_map x !! f); eauto with live. }
  intros fid. apply live_bind; [eauto 6 with live|]. intros [|v l]; eauto with live.
Qed.
Lemma live_emit_string s : leads live (emit_string s) live.
Proof. unfold emit_string. repeat (apply live_bind; [by eauto 6 with live|intros ?]). eauto with live. Qed.
Lemma live_emit_var n : leads live (emit_var (J:=J) n) live.
Proof. intros s a Hs. unfold emit_var. destruct (c_vars s !! n); [|done]. by apply live_ins. Qed.
Lemma live_cop o a b : leads live (cop (J:=J) o a b) live.
Proof. destruct o; cbn; eauto 6 with live. Qed.
Lemma live_emit_let n v : leads live (emit_let (J:=J) n v) live.
Proof.
  intros s a Hs. unfold emit_let. destruct (c_vars s !! n); [by apply live_fbop|].
  cbn. by apply live_fbop.
Qed.
#[local] Hint Resolve live_emit_app live_emit_string live_emit_var live_cop live_emit_let : live.

Lemma binary_opcode o : binary (J:=J) (opcode o) = Some (cop o).
Proof. by destruct o as [| | |[]]. Qed.
Lemma live_cexpr_exprs x :
  (∀ e, leads live (cexpr clock x e) live) ∧ (∀ es, leads live (cexprs clock x es) live).
Proof.
  apply expr_exprs_ind; intros; cbn [cexpr cexprs]; eauto 6 with live.
  all: repeat (apply live_bind; [eauto 6 with live|intros ?]); eauto 6 with live.
Qed.
Lemma live_cexpr x e : leads live (cexpr clock x e) live.
Proof. apply live_cexpr_exprs. Qed.
#[local] Hint Resolve live_cexpr : live.

(** ** Expressions *)
Abbreviation emit_expr := (emit_expr clock).
Abbreviation cexpr := (cexpr clock).

(** The opcode byte selects its branch. *)
Ltac opcode_step :=
  apply (fuses_read _ _ [_] _ _ _ _ _ (cps_reads_u8 _)); cbn beta;
  match goal with |- context [b2z (z2b ?z)] => change (b2z (z2b z)) with z end; cbv iota.

Lemma emit_expr_S fuel x :
  emit_expr (S fuel) x = (opcode ← rdm read_u8;
      match b2z opcode with
      | 0x01 => val ← rdm read_i64; stem (iconst I64 val)
      | 0x02 => name ← rdm read_string; stem (emit_var name)
      | 0x04 =>
          func_name ← rdm read_string;
          arg_count ← rdm read_u32;
          args ← rep (Z.to_nat arg_count) (emit_expr fuel x);
          stem (emit_app clock x func_name args)
      | 0x19 => a ← emit_expr fuel x; stem (bnot a)
      | 0x20 => ptr ← emit_expr fuel x; stem (load ptr 0)
      | 0x21 => len ← rdm read_u32; bs ← rdm (read_bytes len); stem (emit_string bs)
      | op =>
          match binary op with
          | Some f => a ← emit_expr fuel x; b ← emit_expr fuel x; stem (f a b)
          | None => stm_err (str "Unknown opcode: 0x" ++ hex_fixed 2 op)
          end
      end).
Proof. reflexivity. Qed.

Lemma fuse_op o fuel x a b :
  fuses live (emit_expr fuel x) (enc_expr a) (cexpr x a) live →
  fuses live (emit_expr fuel x) (enc_expr b) (cexpr x b) live →
  fuses live (emit_expr (S fuel) x) (enc_expr (EOp o a b)) (cexpr x (EOp o a b)) live.
Proof.
  intros Ha Hb. rewrite emit_expr_S.
  assert (fuses live (a ← emit_expr fuel x; b ← emit_expr fuel x; stem (cop o a b))
            (enc_expr a ++ enc_expr b) (cexpr x (EOp o a b)) live) as Hk.
  { eapply fuses_bind; [done|]. intros va. eapply fuses_bind_end; [done|]. intros vb. apply live_cop. }
  destruct o as [| | |[]]; opcode_step; exact Hk.
Qed.

Lemma enc_expr_pos e : (0 < length (enc_expr e))%nat.
Proof. destruct e; cbn; lia. Qed.

Lemma fuse_expr_exprs x :
  (∀ e fuel, wf_expr e → (length (enc_expr e) ≤ fuel)%nat →
     fuses live (emit_expr fuel x) (enc_expr e) (cexpr x e) live) ∧
  (∀ es fuel, wf_exprs es → (length (enc_exprs es) ≤ fuel)%nat →
     fuses live (rep (elen es) (emit_expr fuel x)) (enc_exprs es) (cexprs clock x es) live).
Proof.
  apply expr_exprs_ind.
  - intros z [|fuel] Hz Hf; [cbn in Hf; lia|]. rewrite emit_expr_S. opcode_step.
    eapply fuses_read_end; [by apply cps_reads_i64|]. apply fuses_stem. eauto with live.
  - intros n [|fuel] Hn Hf; [cbn in Hf; lia|]. rewrite emit_expr_S. opcode_step.
    eapply fuses_read_end; [by apply cps_reads_string|]. apply fuses_stem. eauto with live.
  - intros f args IH [|fuel] (Hn & Hl & Hw) Hf; [cbn in Hf; lia|]. rewrite emit_expr_S. opcode_step.
    eapply fuses_read; [by apply cps_reads_string|]. eapply fuses_read; [apply cps_reads_u32; lia|].
    cbn beta. rewrite Nat2Z.id. cbn [enc_expr length] in Hf. rewrite !length_app in Hf.
    eapply fuses_bind_end; [apply IH; [done|lia]|]. eauto with live.
  - intros o a IHa b IHb [|fuel] [Ha Hb] Hf; [cbn in Hf; lia|]. cbn [enc_expr length] in Hf. rewrite length_app in Hf.
    apply fuse_op; [apply IHa|apply IHb]; (done || lia).
  - intros a IH [|fuel] Ha Hf; [cbn in Hf; lia|]. cbn [enc_expr length] in Hf. rewrite emit_expr_S. opcode_step.
    eapply fuses_bind_end; [apply IH; [done|lia]|]. eauto with live.
  - intros a IH [|fuel] Ha Hf; [cbn in Hf; lia|]. cbn [enc_expr length] in Hf. rewrite emit_expr_S. opcode_step.
    eapply fuses_bind_end; [apply IH; [done|lia]|]. eauto with live.
  - intros s [|fuel] Hs Hf; [cbn in Hf; lia|]. rewrite emit_expr_S. opcode_step. cbn [wf_expr] in Hs. unfold fits in Hs.
    eapply fuses_read; [apply cps_reads_u32; lia|]. cbn beta.
    eapply fuses_read_end; [apply cps_reads_bytes|]. apply fuses_stem. eauto with live.
  - intros fuel _ _. apply fuses_ret.
  - intros e IH es IHs fuel [He Hes] Hf. cbn [enc_exprs elen rep cexprs] in *. rewrite length_app in Hf.
    eapply fuses_bind; [apply IH; [done|lia]|]. intros v. rewrite <-(app_nil_r (enc_exprs es)).
    eapply fuses_bind; [apply IHs; [done|lia]|]. intros vs. apply fuses_ret.
Qed.
Lemma fuse_expr x e fuel :
  wf_expr e → (length (enc_expr e) ≤ fuel)%nat →
  fuses live (emit_expr fuel x) (enc_expr e) (cexpr x e) live.
Proof. apply fuse_expr_exprs. Qed.

(** ** Statements *)

(** As [fuses], to the end of the buffer. *)
Definition sfuses (P : @cg J → Prop) (m : em (@cg J) ()) (enc : bytes) (c : cm ()) : Prop :=
  ∀ pre s, buffer (pre ++ enc) → P s → ∃ r, m (at_ pre enc, s) = ((r, (c s).1), (c s).2).

Lemma sfuses_bind {A} P (m : em cg A) e1 c Q k e2 (kc : A → cm ()) :
  fuses P m e1 c Q → (∀ a, sfuses Q (k a) e2 (kc a)) → sfuses P (m ≫= k) (e1 ++ e2) (c ≫= kc).
Proof.
  intros Hm Hk pre s Hb Hs. destruct (Hm pre e2 s Hb Hs) as (r & E & Hr).
  unfold mbind, stm_bind. rewrite E. destruct (c s) as [s' [a|e|]]; cbn [fst snd] in *; [|by exists r..].
  destruct (Hr a eq_refl) as [-> HQ]. rewrite (app_assoc pre) in Hb. apply (Hk a _ _ Hb HQ).
Qed.
Lemma sfuses_read {A} P (p : rd bytes A) e1 a k e2 c :
  reads p e1 a → sfuses P (k a) e2 c → sfuses P (rdm p ≫= k) (e1 ++ e2) c.
Proof.
  intros Hp Hk pre s Hb Hs. unfold mbind, stm_bind, rdm. rewrite (Hp pre e2 Hb).
  rewrite (app_assoc pre) in Hb. apply (Hk _ _ Hb Hs).
Qed.
Lemma sfuses_stem {A} P (c : cm A) Q k e (kc : A → cm ()) :
  leads P c Q → (∀ a, sfuses Q (k a) e (kc a)) → sfuses P (stem c ≫= k) e (c ≫= kc).
Proof. intros Hc Hk. apply (sfuses_bind P _ [] c Q); [by apply fuses_stem|done]. Qed.
Lemma sfuses_done P m e c Q dead : fuses P m e c Q → sfuses P m (e ++ dead) c.
Proof. intros Hm pre s Hb Hs. destruct (Hm pre dead s Hb Hs) as (r & E & _). by exists r. Qed.
Lemma sfuses_over P b eb (cb : cm ()) k e kc :
  fits eb → sfuses live b eb cb → (∀ s, P s → live s) → sfuses any (k ()) e (kc ()) →
  sfuses P (over eb b ≫= k) e (cb ≫= kc).
Proof.
  intros Hf Hb HP Hk pre s Hbuf Hs. unfold over, stem, mbind, stm_bind, run_em.
  destruct (Hb [] s) as [r E]; [unfold buffer, fits in *; cbn; lia|by apply HP|].
  unfold at_ in E. cbn [app length] in E. change (Z.of_nat 0) with 0 in E. rewrite E.
  destruct (cb s) as [s' [[]|e'|]]; cbn [fst snd]; [|by eexists..]. by apply Hk.
Qed.

Lemma stm_assoc {S E A B C} (m : stm S E A) (f : A → stm S E B) (g : B → stm S E C) s :
  ((m ≫= f) ≫= g) s = (m ≫= λ a, f a ≫= g) s.
Proof. unfold mbind, stm_bind. by destruct (m s) as [s' [a|e|]]. Qed.
Lemma sfuses_assoc {A B} P (m : em cg A) (f : A → em cg B) g e c :
  sfuses P (m ≫= λ a, f a ≫= g) e c → sfuses P ((m ≫= f) ≫= g) e c.
Proof. intros Hm pre s Hb Hs. rewrite stm_assoc. by apply Hm. Qed.
Lemma sfuses_assoc_c {A B} P m e (c : cm A) (f : A → cm B) g :
  sfuses P m e (c ≫= λ a, f a ≫= g) → sfuses P m e ((c ≫= f) ≫= g).
Proof. intros Hm pre s Hb Hs. rewrite stm_assoc. by apply Hm. Qed.

(** The branch of the statement loop an opcode selects. *)
Definition stmt_of (fuel : nat) (x : ectx) (op : Z) : em cg () :=
  let expr := emit_expr fuel x in
  let body := λ data, over data (emit_stmt_list clock fuel x) in
  let again := emit_stmt_list clock fuel x in
  match op with
  | 0x07 => _ ← rdm read_u8; emit_return_stmt clock x expr
  | 0x08 => _ ← rdm read_u8; cond ← expr; _ ← emit_if body cond; again
  | 0x09 => _ ← rdm read_u8; _ ← emit_while body expr; again
  | 0x0A => _ ← rdm read_u8; cond ← expr; _ ← emit_switch body cond; again
  | 0x03 => _ ← rdm read_u8; name ← rdm read_string; val ← expr; _ ← stem (emit_let name val); again
  | 0x30 => _ ← rdm read_u8; ptr ← expr; val ← expr; _ ← stem (store I64 val ptr 0); again
  | _ => _ ← expr; again
  end.

Lemma emit_stmt_cons fuel x pre b rest s :
  live s →
  emit_stmt_list clock (S fuel) x (at_ pre (b :: rest), s) = stmt_of fuel x (b2z b) (at_ pre (b :: rest), s).
Proof.
  intros Hs. cbn [emit_stmt_list fst snd]. rewrite remaining_at, (proj2 (Z.leb_gt _ _)) by (cbn; lia).
  rewrite Hs, peek_at. cbn [fmap option_fmap option_map]. unfold stmt_of.
  destruct (b2z b) as [|p|p]; [reflexivity| |reflexivity]. do 6 (destruct p as [p|p|]; try reflexivity).
Qed.
Lemma emit_stmt_nil fuel x pre s : emit_stmt_list clock (S fuel) x (at_ pre [], s) = ((at_ pre [], s), Ok ()).
Proof. cbn [emit_stmt_list fst snd]. by rewrite remaining_at. Qed.

Lemma sfuses_opcode fuel x b rest c :
  sfuses live (stmt_of fuel x (b2z b)) (b :: rest) c →
  sfuses live (emit_stmt_list clock (S fuel) x) (b :: rest) c.
Proof. intros Hm pre s Hb Hs. rewrite emit_stmt_cons by done. by apply Hm. Qed.

Lemma fuse_return x e fuel dead :
  wf_expr e → (length (enc_expr e) ≤ fuel)%nat →
  sfuses live (emit_return_stmt clock x (emit_expr fuel x)) (enc_expr e ++ dead) (creturn clock x e).
Proof.
  intros Hw Hf pre s Hb Hs.
  assert (∀ e', e' = e → (∀ f args, e' ≠ EApp f args) →
    ∃ r, (val ← emit_expr fuel x; stem (emit_return [val])) (at_ pre (enc_expr e ++ dead), s) =
      ((r, ((v ← cexpr x e; emit_return [v]) s).1), ((v ← cexpr x e; emit_return [v]) s).2)) as Hgen.
  { intros _ _ _. eapply (sfuses_done live); [|done..]. eapply (fuses_bind_end _ _ _ _ _ _ any);
      [by apply fuse_expr|]. intros v. apply any_leads. }
  unfold emit_return_stmt. destruct e as [| |f args|[| | |[]]| | |].
  3: { clear Hgen. cbn [enc_expr app fst]. rewrite peek_at. rewrite bool_decide_eq_true_2 by done.
       cbn [wf_expr] in Hw. destruct Hw as (Hn & Hl & Hw). cbn [enc_expr length] in Hf. rewrite !length_app in Hf.
       revert pre s Hb Hs. change (sfuses live
         (_ ← rdm read_u8; func_name ← rdm read_string; arg_count ← rdm read_u32;
          args0 ← rep (Z.to_nat arg_count) (emit_expr fuel x); stem (emit_return_app clock x func_name args0))
         (enc_expr (EApp f args) ++ dead) (creturn clock x (EApp f args))).
       eapply (sfuses_done _ _ _ _ any). cbn [enc_expr creturn].
       eapply (fuses_read _ _ [_]); [apply cps_reads_u8|]. eapply fuses_read; [by apply cps_reads_string|].
       eapply fuses_read; [apply cps_reads_u32; lia|]. cbn beta. rewrite Nat2Z.id.
       eapply fuses_bind_end; [apply fuse_expr_exprs; [done|lia]|]. intros v. apply any_leads. }
  all: cbn [enc_expr app fst opcode]; rewrite peek_at; rewrite bool_decide_eq_false_2 by done; by eapply Hgen.
Qed.

(** Right-nest the chain on both sides; then one step of each kind. *)
Ltac sassoc :=
  repeat match goal with
  | |- sfuses _ ((_ ≫= _) ≫= _) _ _ => apply sfuses_assoc
  | |- sfuses _ _ _ ((_ ≫= _) ≫= _) => apply sfuses_assoc_c
  end.
Ltac s_stem Q := sassoc; eapply (sfuses_stem _ _ Q); [eauto 6 with live|intros ?].
Ltac s_read lem := sassoc; eapply sfuses_read; [apply lem; unfold fits in *; (done || lia)|cbn beta].
(** A length-prefixed body: its length, then its bytes. *)
Ltac s_blob := unfold blob at 1; rewrite <-(app_assoc (u32 _)); s_read cps_reads_u32; s_read cps_reads_bytes.
Ltac s_expr := sassoc; eapply sfuses_bind; [apply fuse_expr; [done|lia]|intros ?].
Ltac s_body IH := sassoc; eapply sfuses_over; [done|apply IH; [done|lia]|done|].

Ltac s_opcode Hf :=
  cbn [length] in Hf; rewrite ?length_app in Hf; unfold blob in Hf; rewrite ?length_app in Hf;
  apply sfuses_opcode; eapply (sfuses_read _ _ [_]); [apply cps_reads_u8|cbn beta].

Lemma sfuses_expr fuel x e k kc :
  wf_expr e → sfuses live (emit_stmt_list clock fuel x) k kc → (length (enc_expr e) ≤ fuel)%nat →
  sfuses live (emit_stmt_list clock (S fuel) x) (enc_expr e ++ k) (_ ← cexpr x e; kc).
Proof.
  intros He Hk Hf.
  assert (sfuses live (_ ← emit_expr fuel x; emit_stmt_list clock fuel x) (enc_expr e ++ k) (_ ← cexpr x e; kc)) as Hm.
  { eapply sfuses_bind; [by apply fuse_expr|done]. }
  destruct e as [| | |[| | |[]]| | |]; apply sfuses_opcode; exact Hm.
Qed.

Lemma fuse_stmts_cases x :
  (∀ ss fuel, wf_stmts ss → (length (enc_stmts ss) < fuel)%nat →
     sfuses live (emit_stmt_list clock fuel x) (enc_stmts ss) (cstmts clock x ss)) ∧
  (∀ cs fuel cond merge k e kc, wf_cases cs → (length (enc_cases cs) < fuel)%nat →
     sfuses live k e kc →
     sfuses live (rep (clen cs) (emit_case (λ data, over data (emit_stmt_list clock fuel x)) cond merge) ≫= λ _, k)
       (enc_cases cs ++ e) (ccases clock x cond merge cs ≫= λ _, kc)).
Proof.
  apply stmts_cases_ind; cbn [wf_stmts wf_cases enc_stmts enc_cases cstmts ccases clen].
  - intros [|fuel] _ Hf; [cbn in Hf; lia|]. intros pre s _ Hs. exists (at_ pre []). apply emit_stmt_nil.
  - intros e dead [|fuel] Hw Hf; [lia|]. s_opcode Hf. apply fuse_return; [done|lia].
  - intros c t IHt f IHf k IHk [|fuel] (Hc & [Ht Hwt] & [Hf0 Hwf] & Hk) Hf; [lia|]. s_opcode Hf.
    s_expr. unfold emit_if. s_stem live. s_blob. s_blob. do 3 s_stem live. s_stem any. s_stem live.
    s_body IHt. s_stem any. s_stem live. s_body IHf. s_stem any. s_stem live. apply IHk; [done|lia].
  - intros c b IHb k IHk [|fuel] (Hc & [Hb Hwb] & Hk) Hf; [lia|]. s_opcode Hf.
    unfold emit_while. do 3 s_stem live. s_stem any. s_stem live. s_expr. s_stem live. s_blob.
    s_stem any. s_stem live. s_body IHb. s_stem any. s_stem live. apply IHk; [done|lia].
  - intros c cs IHcs d IHd k IHk [|fuel] (Hc & Hl & Hcs & [Hd Hwd] & Hk) Hf; [lia|]. s_opcode Hf.
    s_expr. unfold emit_switch. s_read cps_reads_u32. s_stem live. rewrite Nat2Z.id. sassoc.
    apply IHcs; [done|lia|]. s_blob. s_body IHd. s_stem any. s_stem live. apply IHk; [done|lia].
  - intros n e k IHk [|fuel] (Hn & He & Hk) Hf; [lia|]. s_opcode Hf.
    s_read cps_reads_string. s_expr. s_stem live. apply IHk; [done|lia].
  - intros p v k IHk [|fuel] (Hp & Hv & Hk) Hf; [lia|]. s_opcode Hf.
    s_expr. s_expr. s_stem live. apply IHk; [done|lia].
  - intros e k IHk [|fuel] (He & Hk) Hf; [lia|]. rewrite length_app in Hf.
    pose proof (enc_expr_pos e). apply sfuses_expr; [done|apply IHk; [done|lia]|lia].
  - intros fuel cond merge k e kc _ _ Hk. exact Hk.
  - intros z b IHb cs IHcs fuel cond merge k e kc (Hz & [Hb Hwb] & Hcs) Hf Hk.
    unfold blob in Hf. rewrite !length_app in Hf. cbn [rep]. rewrite <-!app_assoc. unfold emit_case at 2.
    s_read cps_reads_i64. s_blob. do 4 s_stem live. s_stem any. s_stem live.
    s_body IHb. s_stem any. s_stem live. sassoc. apply (IHcs fuel cond merge k); [done|lia|exact Hk].
Qed.

(** ** What the emitter accepts is an encoding *)
(** What [m] leaves when it succeeds from [pre | rest]: it has read the
    encoding of a well-formed tree, and done what [c] does on it. *)
Definition took {T A} (enc : T → bytes) (wf : T → Prop) (c : T → cm A)
    pre rest (s : @cg J) r s' (v : A) : Prop :=
  ∃ t post, rest = enc t ++ post ∧ wf t ∧ r = at_ (pre ++ enc t) post ∧
    buffer ((pre ++ enc t) ++ post) ∧ c t s = (s', Ok v).
Definition accepted_by (fuel : nat) (x : ectx) : Prop :=
  ∀ pre rest s r s' v, buffer (pre ++ rest) → emit_expr fuel x (at_ pre rest, s) = ((r, s'), Ok v) →
    took enc_expr wf_expr (cexpr x) pre rest s r s' v.

Ltac peel_expr H IH t p :=
  peel H; match goal with E : Cps.emit_expr _ _ _ _ = _ |- _ =>
    apply IH in E as (t & p & -> & ? & -> & ? & ?); [|done] end.
Ltac took_by t p :=
  exists t, p; cbn [enc_expr wf_expr cexpr cexprs app]; rewrite <-?app_assoc in *; cbn [app]; rewrite <-?app_assoc;
  split_and?; [try done..|rebuild; done].

Lemma accept_exprs fuel x :
  accepted_by fuel x →
  ∀ n pre rest s r s' vs, buffer (pre ++ rest) →
    rep n (emit_expr fuel x) (at_ pre rest, s) = ((r, s'), Ok vs) →
    took enc_exprs (λ es, elen es = n ∧ wf_exprs es) (cexprs clock x) pre rest s r s' vs.
Proof.
  intros IH. induction n as [|n IHn]; intros pre rest s r s' vs Hb Hr.
  - injection Hr as <- <- <-. exists ENil, rest. cbn. by rewrite app_nil_r.
  - cbn [rep] in Hr. peel_expr Hr IH e p.
    peel Hr. apply IHn in E as (es & post' & -> & [<- Hws] & -> & Hb'' & Hes); [|done].
    injection Hr as <- <- <-. exists (ECons e es), post'. cbn [elen enc_exprs wf_exprs cexprs].
    rewrite <-!app_assoc in *. split_and!; [done..|]. rebuild. done.
Qed.

Lemma accept_op o fuel x pre rest s r s' v :
  accepted_by fuel x → buffer ((pre ++ [z2b (opcode o)]) ++ rest) →
  (a ← emit_expr fuel x; b ← emit_expr fuel x; stem (cop o a b)) (at_ (pre ++ [z2b (opcode o)]) rest, s)
    = ((r, s'), Ok v) →
  took enc_expr wf_expr (cexpr x) pre ([z2b (opcode o)] ++ rest) s r s' v.
Proof.
  intros IH Hb Hr. peel_expr Hr IH ta pa. peel_expr Hr IH tb pb. apply stem_inv in Hr as [-> Hr].
  took_by (EOp o ta tb) pb.
Qed.

Lemma accept_expr fuel x : accepted_by fuel x.
Proof.
  induction fuel as [|fuel IH]; intros pre rest s r s' v Hb Hr; [done|]. pose proof (accept_exprs fuel x IH) as IHs.
  rewrite emit_expr_S in Hr. peel_read Hr cps_accepts_u8. subst.
  destruct (b2z a) as [|p|p] eqn:Eb; [discriminate| |discriminate].
  do 6 (try (destruct p as [p|p|]; try discriminate Hr)).
  all: apply byte_of_opcode in Eb as ->; cbn [binary] in Hr.
  all: try (first
    [ refine (accept_op OAdd _ _ _ _ _ _ _ _ IH _ Hr) | refine (accept_op OSub _ _ _ _ _ _ _ _ IH _ Hr)
    | refine (accept_op OMul _ _ _ _ _ _ _ _ IH _ Hr) | refine (accept_op (OCmp SignedLessThan) _ _ _ _ _ _ _ _ IH _ Hr)
    | refine (accept_op (OCmp SignedGreaterThan) _ _ _ _ _ _ _ _ IH _ Hr)
    | refine (accept_op (OCmp SignedLessThanOrEqual) _ _ _ _ _ _ _ _ IH _ Hr)
    | refine (accept_op (OCmp SignedGreaterThanOrEqual) _ _ _ _ _ _ _ _ IH _ Hr)
    | refine (accept_op (OCmp Equal) _ _ _ _ _ _ _ _ IH _ Hr)
    | refine (accept_op (OCmp NotEqual) _ _ _ _ _ _ _ _ IH _ Hr) ]; assumption).
  - peel_expr Hr IH t p. apply stem_inv in Hr as [-> Hr]. took_by (ENot t) p.
  - peel_read Hr cps_accepts_u32. destruct E as [-> Hz]. peel_read Hr cps_accepts_bytes. destruct E as [-> Hs].
    apply stem_inv in Hr as [-> Hr]. subst.
    match goal with |- took _ _ _ _ (_ ++ _ ++ ?s0 ++ ?p) _ _ _ _ =>
      exists (EString s0), p end. cbn [enc_expr wf_expr CpsLang.cexpr]. unfold blob, fits.
    rewrite <-!app_assoc in *. split_and!; [reflexivity|lia|done..].
  - peel_expr Hr IH t p. apply stem_inv in Hr as [-> Hr]. took_by (ELoad t) p.
  - peel_read Hr cps_accepts_string. destruct E as (f & -> & Hf & ->).
    peel_read Hr cps_accepts_u32. destruct E as [-> Hz]. peel Hr.
    apply IHs in E as (args & p & -> & [Hl Hw] & -> & ? & ?); [|done]. apply stem_inv in Hr as [-> Hr].
    match type of Hl with _ = Z.to_nat ?n => assert (n = Z.of_nat (elen args)) as -> by lia end. took_by (EApp f args) p. lia.
  - peel_read Hr cps_accepts_string. destruct E as (f & -> & Hf & ->). apply stem_inv in Hr as [-> Hr].
    match goal with |- took _ _ _ _ (_ ++ _ ++ ?p) _ _ _ _ => took_by (EVar f) p end.
  - peel_read Hr cps_accepts_i64. destruct E as [-> Hf]. apply stem_inv in Hr as [-> Hr].
    match goal with |- took _ _ _ _ (_ ++ i64 ?z ++ ?p) _ _ _ _ => took_by (EConst z) p end.
Qed.

Lemma leads_ok {A} (P Q : cg → Prop) (c : cm A) s s' a : leads P c Q → P s → c s = (s', Ok a) → Q s'.
Proof. intros Hc Hs E. specialize (Hc s a Hs). rewrite E in Hc. by apply Hc. Qed.

Definition sfaccepted (fuel : nat) (x : ectx) : Prop :=
  ∀ pre rest s r s', buffer (pre ++ rest) → live s →
    emit_stmt_list clock fuel x (at_ pre rest, s) = ((r, s'), Ok ()) →
    ∃ ss, rest = enc_stmts ss ∧ wf_stmts ss ∧ cstmts clock x ss s = (s', Ok ()).

Lemma over_inv fuel x data r s r' s' :
  sfaccepted fuel x → fits data → live s →
  over data (emit_stmt_list clock fuel x) (r, s) = ((r', s'), Ok ()) →
  r' = r ∧ ∃ ss, data = enc_stmts ss ∧ wf_stmts ss ∧ cstmts clock x ss s = (s', Ok ()).
Proof.
  intros IH Hf Hs Ho. unfold over in Ho. apply stem_inv in Ho as [-> Ho]. split; [done|].
  unfold run_em in Ho. change {| cur_b := data; cur_i := 0 |} with (at_ [] data) in Ho.
  destruct (emit_stmt_list clock fuel x (at_ [] data, s)) as [[r0 s0] a] eqn:E. injection Ho as -> ->.
  eapply IH; [|done|exact E]. unfold buffer, fits in *. cbn. lia.
Qed.

Ltac peel_body H IH t :=
  peel H; match goal with E : over _ _ _ = (_, Ok ?u) |- _ =>
    destruct u; eapply over_inv in E as (-> & t & -> & ? & ?);
    [|exact IH|unfold fits; lia|eapply leads_ok; [apply any_switch|exact I|eassumption]] end.

Lemma accept_cases fuel x : sfaccepted fuel x →
  ∀ n cond merge pre rest s r s' l, buffer (pre ++ rest) → live s →
    rep n (emit_case (λ data, over data (emit_stmt_list clock fuel x)) cond merge) (at_ pre rest, s)
      = ((r, s'), Ok l) →
    ∃ cs post, clen cs = n ∧ rest = enc_cases cs ++ post ∧ wf_cases cs ∧ r = at_ (pre ++ enc_cases cs) post ∧
      buffer ((pre ++ enc_cases cs) ++ post) ∧ live s' ∧ ccases clock x cond merge cs s = (s', Ok ()).
Proof.
  intros IH. induction n as [|n IHn]; intros cond merge pre rest s r s' l Hb Hs Hr.
  { injection Hr as <- <- <-. exists CNil, rest. cbn. by rewrite app_nil_r. }
  cbn [rep] in Hr. peel Hr. unfold emit_case in E.
  peel_read E cps_accepts_i64. match goal with E : _ = i64 _ ∧ _ |- _ => destruct E as [-> ?] end.
  peel_blob E d. do 6 peel_stem E. peel_body E IH t. peel_stem E. apply stem_inv in E as [-> E].
  apply bind_inv_ok in Hr as ([r1 s1'] & l1 & Hrep & Hr). apply IHn in Hrep as (cs & post & <- & -> & Hws & -> & Hb' & Hl & Hcs);
    [|done|eapply leads_ok; [apply any_switch|exact I|exact E]].
  injection Hr as <- <- <-.
  match goal with |- context [i64 ?z ++ _] => exists (CCons z t cs), post end. cbn [clen enc_cases wf_cases ccases].
  unfold blob. rewrite <-!app_assoc in *. split_and!; try done; [unfold fits; lia|]. rebuild. done.
Qed.

Lemma stmt_of_expr fuel x op :
  op ∉ [0x07; 0x08; 0x09; 0x0A; 0x03; 0x30] →
  stmt_of fuel x op = (_ ← emit_expr fuel x; emit_stmt_list clock fuel x).
Proof.
  intros Hop. unfold stmt_of. destruct op as [|p|p]; [done| |done].
  do 6 (try (destruct p as [p|p|]; try reflexivity)). all: exfalso; apply Hop; clear; set_solver.
Qed.

Lemma accept_return fuel x pre rest s r s' :
  buffer (pre ++ rest) → emit_return_stmt clock x (emit_expr fuel x) (at_ pre rest, s) = ((r, s'), Ok ()) →
  ∃ e dead, rest = enc_expr e ++ dead ∧ wf_expr e ∧ creturn clock x e s = (s', Ok ()).
Proof.
  intros Hb Hr. unfold emit_return_stmt in Hr. case_bool_decide as Hp.
  - peel_read Hr cps_accepts_u8. subst. cbn [fst app] in Hp. rewrite peek_at in Hp. injection Hp as Hp.
    apply byte_of_opcode in Hp as ->. peel_read Hr cps_accepts_string. destruct E as (f & -> & Hf & ->).
    peel_read Hr cps_accepts_u32. destruct E as [-> Hz]. peel Hr.
    apply accept_exprs in E as (args & p & -> & [Hl Hw] & -> & ? & ?); [|apply accept_expr|done].
    apply stem_inv in Hr as [-> Hr].
    match type of Hl with _ = Z.to_nat ?n => assert (n = Z.of_nat (elen args)) as -> by lia end.
    exists (EApp f args), p. cbn [enc_expr wf_expr creturn app]. rewrite <-!app_assoc.
    split_and!; try done; [lia|]. rebuild. done.
  - peel_expr Hr accept_expr e dead. apply stem_inv in Hr as [-> Hr]. exists e, dead.
    split_and!; [done..|]. unfold creturn. destruct e as [| |f args| | | |]; rebuild; try done.
    exfalso. apply Hp. cbn [fst enc_expr app]. by rewrite peek_at.
Qed.

Lemma read_op_step {S A} (k : byte → em S A) pre b rest s :
  (rdm read_u8 ≫= k) (at_ pre (b :: rest), s) = k b (at_ (pre ++ [b]) rest, s).
Proof. unfold mbind, stm_bind, rdm. by rewrite read_u8_at. Qed.

(** Rebuild a statement from its tree. *)
Ltac stmt_by t :=
  exists t; cbn [enc_stmts wf_stmts cstmts]; unfold blob; rewrite <-?app_assoc; split_and?; try done;
  try (unfold fits; lia); rebuild; done.
Ltac peel_rest H IH k :=
  apply IH in H as (k & -> & ? & ?);
  [|done|first [ eapply leads_ok; [apply any_switch|exact I|eassumption]
               | eapply leads_ok; [apply live_emit_let| |eassumption]; done
               | eapply leads_ok; [apply live_fbop| |eassumption]; done ]].
Ltac live_now := eapply leads_ok; [apply live_cexpr|done|eassumption].

Lemma accept_stmts fuel x : sfaccepted fuel x.
Proof.
  induction fuel as [|fuel IH]; intros pre rest s r s' Hb Hs Hr; [done|].
  destruct rest as [|b rest].
  { rewrite emit_stmt_nil in Hr. injection Hr as _ <-. by exists SNil. }
  rewrite emit_stmt_cons in Hr by done.
  destruct (decide (b2z b ∈ [0x07; 0x08; 0x09; 0x0A; 0x03; 0x30])) as [Hop|Hop].
  2: { rewrite stmt_of_expr in Hr by done. peel_expr Hr accept_expr e p.
       apply IH in Hr as (k & -> & Hk & Hck); [|done|eapply leads_ok; [apply live_cexpr|done|eassumption]].
       exists (SExpr e k). split_and!; [done..|]. cbn [cstmts]. rebuild. done. }
  rewrite !elem_of_cons, elem_of_nil in Hop.
  destruct Hop as [Hop|[Hop|[Hop|[Hop|[Hop|[Hop|[]]]]]]]; rewrite Hop in Hr; apply byte_of_opcode in Hop as ->;
    cbn [stmt_of] in Hr; rewrite read_op_step in Hr; rewrite (cons_middle _ pre), app_assoc in Hb.
  - apply accept_return in Hr as (e & dead & -> & Hw & Hc); [|done]. by exists (SReturn e dead).
  - peel_expr Hr accept_expr c p. peel Hr. unfold emit_if in E. destruct a0. peel_stem E. peel_blob E d1. peel_blob E d2.
    do 5 peel_stem E. peel_body E IH t. do 2 peel_stem E. peel_body E IH f. peel_stem E.
    apply stem_inv in E as [-> E]. peel_rest Hr IH k. stmt_by (SIf c t f k).
  - peel Hr. unfold emit_while in E. destruct a. do 5 peel_stem E. peel_expr E accept_expr c p. peel_stem E.
    peel_blob E d. do 2 peel_stem E. peel_body E IH t. peel_stem E.
    apply stem_inv in E as [-> E]. peel_rest Hr IH k. stmt_by (SWhile c t k).
  - peel_expr Hr accept_expr c p. assert (live s0) as Hl by live_now. peel Hr. unfold emit_switch in E. destruct a0.
    peel_read E cps_accepts_u32. match goal with E : _ = u32 _ ∧ _ |- _ => destruct E as [-> Hn] end. peel_stem E.
    apply bind_inv_ok in E as ([r1 s3] & l & Hrep & E). eapply accept_cases in Hrep as
      (cs & p1 & Hlen & -> & Hwc & -> & Hb1 & Hl1 & Hcs); [|done|done|by eapply leads_ok; [apply live_create| |eassumption]].
    peel_blob E d. apply bind_inv_ok in E as ([r2 s4] & [] & Hbd & E).
    apply over_inv in Hbd as (-> & t & -> & Hwt & Ht); [|done|unfold fits; lia|done].
    peel_stem E. apply stem_inv in E as [-> E]. peel_rest Hr IH k.
    match type of Hlen with _ = Z.to_nat ?n => assert (n = Z.of_nat (clen cs)) as -> by lia end.
    stmt_by (SSwitch c cs t k).
  - peel_read Hr cps_accepts_string. destruct E as (f & -> & Hf & ->). peel_expr Hr accept_expr e p.
    assert (live s0) as Hl by live_now. peel_stem Hr. peel_rest Hr IH k. stmt_by (SLet f e k).
  - peel_expr Hr accept_expr e1 p1. assert (live s0) as Hl by live_now. peel_expr Hr accept_expr e2 p2.
    assert (live s1) as Hl' by live_now. peel_stem Hr. peel_rest Hr IH k. stmt_by (SStore e1 e2 k).
Qed.
End emit.
End CpsFuse.
