(* ===== verification/CpsProgram.v ===== *)
(** * Compiling a binary is compiling the program it encodes *)

From S2P Require Import Prelude Cursor Text Clif Symbols Cps CpsLang CpsFuse.
Import Clif Cps CpsLang CpsFuse.

Module CpsProgram.
Section program.
Context {J : Type} `{ClifModule J}.
Variable clock : nat → Z.
Abbreviation gm := (stm (@globals J) bytes).
Abbreviation cm := (stm (@cg J) bytes).

(** ** Bodies *)
Lemma bind_eq {S A B} (P Q : S → Prop) (c : stm S bytes A) (k k' : A → stm S bytes B) s :
  leads P c Q → P s → (∀ a s', Q s' → k a s' = k' a s') → (c ≫= k) s = (c ≫= k') s.
Proof.
  intros Hc Hs Hk. unfold mbind, stm_bind. specialize (Hc s). destruct (c s) as [s' [a|e|]]; [|done..].
  by eapply Hk, Hc.
Qed.

Lemma bind_eq_l {S A B} (m m' : stm S bytes A) (k : A → stm S bytes B) s : m s = m' s → (m ≫= k) s = (m' ≫= k) s.
Proof. unfold mbind, stm_bind. by intros ->. Qed.

Lemma live_bind_params i n names : leads live (bind_params (J:=J) i n names) live.
Proof.
  revert i; induction n as [|n IH]; intros i; cbn [bind_params]; [apply live_ret|].
  apply live_bind; [by intros s a Hs|]. intros v. apply live_bind; [by intros s a Hs|]. intros x.
  apply live_bind; [apply live_fbop|]. intros _. apply live_bind; [by intros s a Hs|]. intros _. apply IH.
Qed.

Lemma body_fuse x ss s :
  wf_stmts ss → fits (enc_stmts ss) → live s →
  run_em {| cur_b := enc_stmts ss; cur_i := 0 |} (emit_stmt_list clock (fuel_of (enc_stmts ss)) x) s =
  cstmts clock x ss s.
Proof.
  intros Hw Hf Hs. change {| cur_b := enc_stmts ss; cur_i := 0 |} with (at_ [] (enc_stmts ss)).
  destruct (proj1 (fuse_stmts_cases clock x) ss (fuel_of (enc_stmts ss)) Hw ltac:(unfold fuel_of; lia) [] s)
    as [r E]; [unfold buffer, fits in *; cbn; lia|done|].
  unfold run_em. rewrite E. by destruct (cstmts clock x ss s).
Qed.

Lemma cbody_fuse x fd fid g :
  wf_stmts (fd_body fd) → fits (enc_stmts (fd_body fd)) →
  compile_body clock x (header_of fd fid) (start_function g) =
  cbody clock x (header_of fd fid) (fd_body fd) (start_function g).
Proof.
  intros Hw Hf. unfold compile_body, cbody.
  eapply (bind_eq any any); [apply any_leads|done|]. intros b s _.
  eapply (bind_eq any live); [apply any_switch|done|]. intros _ s1 Hs1.
  eapply (bind_eq live live); [apply live_fbop|done|]. intros _ s2 Hs2.
  eapply (bind_eq live live); [apply live_bind_params|done|]. intros _ s3 Hs3.
  apply bind_eq_l. cbn [header_of h_body]. by apply body_fuse.
Qed.

Lemma body_accept x data s s' :
  fits data → live s →
  run_em {| cur_b := data; cur_i := 0 |} (emit_stmt_list clock (fuel_of data) x) s = (s', Ok ()) →
  ∃ ss, data = enc_stmts ss ∧ wf_stmts ss ∧ cstmts clock x ss s = (s', Ok ()).
Proof.
  intros Hf Hs. unfold run_em. change {| cur_b := data; cur_i := 0 |} with (at_ [] data).
  destruct (emit_stmt_list clock _ x (at_ [] data, s)) as [[r s1] a] eqn:E. intros [= -> ->].
  eapply accept_stmts; [|done|exact E]. unfold buffer, fits in *. cbn. lia.
Qed.

Lemma cbody_accept x h g s' :
  fits (h_body h) →
  compile_body clock x h (start_function g) = (s', Ok ()) →
  ∃ ss, h_body h = enc_stmts ss ∧ wf_stmts ss ∧ cbody clock x h ss (start_function g) = (s', Ok ()).
Proof.
  intros Hf Hr. unfold compile_body in Hr.
  apply bind_inv_ok in Hr as (s1 & b & E1 & Hr). apply bind_inv_ok in Hr as (s2 & [] & E2 & Hr).
  apply bind_inv_ok in Hr as (s3 & [] & E3 & Hr). apply bind_inv_ok in Hr as (s4 & [] & E4 & Hr).
  apply bind_inv_ok in Hr as (s5 & [] & E5 & Hr).
  assert (live s4) as Hl.
  { eapply leads_ok; [apply live_bind_params| |exact E4]. eapply leads_ok; [apply live_fbop| |exact E3].
    eapply leads_ok; [apply any_switch|exact I|exact E2]. }
  apply body_accept in E5 as (ss & Hd & Hw & Hc); [|done..]. exists ss. split_and!; [done..|]. unfold cbody.
  rewrite (bind_ok _ _ _ _ _ E1), (bind_ok _ _ _ _ _ E2), (bind_ok _ _ _ _ _ E3), (bind_ok _ _ _ _ _ E4),
    (bind_ok _ _ _ _ _ Hc). done.
Qed.

(** ** Functions *)
Lemma cfunction_fuse names m fd fid g :
  wf_stmts (fd_body fd) → fits (enc_stmts (fd_body fd)) →
  compile_function clock names m (header_of fd fid) g = cfunction clock names m (header_of fd fid) (fd_body fd) g.
Proof.
  intros Hw Hf. unfold compile_function, cfunction. apply bind_eq_l. cbv beta zeta.
  fold (start_function g). by rewrite cbody_fuse.
Qed.

Lemma cfunction_accept names m h g g' :
  fits (h_body h) → compile_function clock names m h g = (g', Ok ()) →
  ∃ ss, h_body h = enc_stmts ss ∧ wf_stmts ss ∧ cfunction clock names m h ss g = (g', Ok ()).
Proof.
  intros Hf Hr. unfold compile_function in Hr. apply bind_inv_ok in Hr as (g1 & f & E1 & Hr). cbv beta zeta in E1.
  fold (start_function g) in E1.
  destruct (compile_body _ _ _ _) as [s [[]|e|]] eqn:E; [|done..].
  apply cbody_accept in E as (ss & Hd & Hw & E); [|done]. exists ss. split_and!; [done..|]. unfold cfunction.
  erewrite bind_ok; [exact Hr|]. cbv beta zeta. by rewrite E.
Qed.

(** ** Headers *)
Abbreviation top := (λ _ : @globals J, True).
Lemma top_leads {A} (c : gm A) P : leads P c top.
Proof. by intros s a. Qed.

Lemma fuses_pure {S A B} P (m : em S A) e (a : A) (k : A → em S B) e2 c R :
  fuses P m e (mret a) P → fuses P (k a) e2 c R → fuses P (m ≫= k) (e ++ e2) c R.
Proof.
  intros Hm Hk pre post s Hb Hs. rewrite <-app_assoc in Hb |- *.
  destruct (Hm pre (e2 ++ post) s Hb Hs) as (r & E & Hr). destruct (Hr a eq_refl) as [-> _].
  rewrite (bind_ok _ _ _ _ _ E). rewrite (app_assoc pre) in Hb |- *. by apply Hk.
Qed.
Lemma fuses_pure_end {S A B} P (m : em S A) e (a : A) (k : A → em S B) c R :
  fuses P m e (mret a) P → fuses P (k a) [] c R → fuses P (m ≫= k) e c R.
Proof. intros Hm Hk. rewrite <-(app_nil_r e). by eapply fuses_pure. Qed.

Lemma fuse_names ps :
  Forall fits ps →
  fuses (S:=@globals J) top (rep (length ps) (rdm read_string)) (concat (blob <$> ps)) (mret (from_utf8_lossy <$> ps)) top.
Proof.
  induction 1 as [|p ps Hp Hps IH]; cbn [length rep concat fmap list_fmap]; [apply fuses_ret|].
  eapply fuses_read; [by apply cps_reads_string|]. eapply fuses_pure_end; [exact IH|]. apply fuses_ret.
Qed.

Lemma fuse_header fd :
  wf_fdef fd → fuses top read_header (enc_fdef fd) (cheader (J:=J) fd) top.
Proof.
  intros (Hn & Hp & Hps & Hb). unfold read_header, enc_fdef, cheader.
  eapply fuses_read; [by apply cps_reads_string|]. eapply fuses_read; [apply cps_reads_u32; lia|]. cbn beta.
  rewrite Nat2Z.id. eapply fuses_pure; [by apply fuse_names|].
  eapply (fuses_read _ _ [_]); [apply cps_reads_u8|]. unfold blob.
  eapply fuses_read; [apply cps_reads_u32; unfold fits in *; lia|].
  eapply fuses_read_end; [apply cps_reads_bytes|].
  eapply fuses_stem_bind; [apply top_leads|intros sym]. eapply fuses_stem_bind; [apply top_leads|intros fid].
  apply fuses_ret.
Qed.

Lemma fuse_headers fds :
  Forall wf_fdef fds →
  fuses top (rep (length fds) read_header) (concat (enc_fdef <$> fds)) (cheaders (J:=J) fds) top.
Proof.
  induction 1 as [|fd fds Hfd Hfds IH]; cbn [length rep concat fmap list_fmap cheaders]; [apply fuses_ret|].
  eapply fuses_bind; [by apply fuse_header|intros h].
  rewrite <-(app_nil_r (concat _)). eapply fuses_bind; [exact IH|intros hs]. apply fuses_ret.
Qed.

Lemma fuse_magic p :
  from_option fits True (p_module p) →
  fuses (S:=@globals J) top read_magic
    match p_module p with None => u32 0x43505331 | Some m => u32 0x43505332 ++ blob m end
    (mret (module_of p)) top.
Proof.
  intros Hf. unfold read_magic, module_of. destruct (p_module p) as [m|]; cbn [from_option] in *.
  - eapply fuses_read; [apply cps_reads_u32; lia|]. cbv beta iota.
    intros pre post s Hb _. exists (at_ (pre ++ blob m) post). unfold rdm.
    by rewrite (cps_reads_string m Hf pre post Hb).
  - eapply fuses_read_end; [apply cps_reads_u32; lia|]. apply fuses_ret.
Qed.

(** The headers are those of the functions, in order. *)
Lemma cheaders_spec fds g g' hs :
  cheaders (J:=J) fds g = (g', Ok hs) → Forall2 (λ fd h, ∃ fid, h = header_of fd fid) fds hs.
Proof.
  revert g g' hs; induction fds as [|fd fds IH]; intros g g' hs Hr; cbn [cheaders] in Hr.
  - injection Hr as _ <-. constructor.
  - apply bind_inv_ok in Hr as (g1 & h & E1 & Hr). apply bind_inv_ok in Hr as (g2 & hs' & E2 & Hr).
    injection Hr as _ <-. constructor; [|by eapply IH]. unfold cheader in E1.
    apply bind_inv_ok in E1 as (? & ? & _ & E1). apply bind_inv_ok in E1 as (? & fid & _ & E1).
    injection E1 as _ <-. by exists fid.
Qed.

Lemma cfunctions_fuse names m fds hs g :
  Forall2 (λ fd h, ∃ fid, h = header_of fd fid) fds hs →
  Forall wf_fdef fds → Forall (λ fd, wf_stmts (fd_body fd)) fds →
  compile_functions clock names m hs g = cfunctions clock names m (zip hs (fd_body <$> fds)) g.
Proof.
  intros HF Hw Hb. revert g. induction HF as [|fd h fds hs [fid ->] HF IH]; intros g; [done|].
  inversion_clear Hw as [|? ? (_ & _ & _ & Hfit) Hw']. inversion_clear Hb as [|? ? Hfd Hb'].
  cbn [compile_functions zip fmap list_fmap cfunctions zip_with].
  transitivity ((_ ← cfunction clock names m (header_of fd fid) (fd_body fd); compile_functions clock names m hs) g).
  - apply bind_eq_l. by apply cfunction_fuse.
  - eapply (bind_eq top top); [apply top_leads|done|]. intros _ g1 _. by apply IH.
Qed.

Lemma compile_encoded p trailing g :
  wf_program p → wf_bodies p → buffer (enc_program p ++ trailing) →
  compile_cps_to_clif clock (enc_program p ++ trailing) g = cprogram clock p g.
Proof.
  intros (Hm & Hn & Hfs) Hb Hbuf. unfold compile_cps_to_clif.
  change {| cur_b := enc_program p ++ trailing; cur_i := 0 |} with (at_ [] (enc_program p ++ trailing)).
  match goal with |- run_em _ ?m g = _ => assert (fuses top m (enc_program p)
    (hs ← cheaders (p_funs p); _ ← compile_functions clock (names_of hs) (module_of p) hs;
     mret {| name_map := names_of hs; module_name := module_of p |}) top) as Hf end.
  { unfold enc_program. eapply fuses_pure; [by apply fuse_magic|]. eapply fuses_read; [apply cps_reads_u32; lia|].
    cbn beta. rewrite Nat2Z.id, <-(app_nil_r (concat _)). eapply fuses_bind; [by apply fuse_headers|intros hs].
    eapply fuses_stem_bind; [apply top_leads|intros _]. apply fuses_ret. }
  destruct (Hf [] trailing g Hbuf I) as (r & E & _). unfold run_em. rewrite E. clear E Hf.
  rewrite <-surjective_pairing.
  unfold cprogram. unfold mbind at 1 3, stm_bind at 1 3.
  destruct (cheaders (p_funs p) g) as [g1 [hs|e|]] eqn:E; [|done..].
  apply bind_eq_l, cfunctions_fuse; [by eapply cheaders_spec|done..].
Qed.

(** ** Acceptance *)
Lemma accept_names n pre rest (g : @globals J) r g' ns :
  buffer (pre ++ rest) → rep n (rdm read_string) (at_ pre rest, g) = ((r, g'), Ok ns) →
  ∃ ps post, g' = g ∧ length ps = n ∧ rest = concat (blob <$> ps) ++ post ∧ Forall fits ps ∧
    r = at_ (pre ++ concat (blob <$> ps)) post ∧ buffer ((pre ++ concat (blob <$> ps)) ++ post) ∧
    ns = from_utf8_lossy <$> ps.
Proof.
  revert pre rest g r g' ns; induction n as [|n IH]; intros pre rest g r g' ns Hb Hr.
  - injection Hr as <- <- <-. exists [], rest. cbn. by rewrite app_nil_r.
  - cbn [rep] in Hr. peel_read Hr cps_accepts_string. destruct E as (p & -> & Hp & ->).
    apply bind_inv_ok in Hr as ([r1 g1] & ns' & E & Hr).
    apply IH in E as (ps & post & -> & <- & -> & Hps & -> & Hb' & ->); [|done]. injection Hr as <- <- <-.
    exists (p :: ps), post. cbn [length fmap list_fmap concat]. rewrite <-!app_assoc in *.
    split_and!; try done. by constructor.
Qed.

(** A header was read from [enc]; if its body is the encoding of statements,
    [enc] is that of a function. *)
Definition header_from (g : @globals J) (enc : bytes) g' (h : header) : Prop :=
  fits (h_body h) ∧
  ∃ name ps ret, ∀ ss, h_body h = enc_stmts ss →
    let fd := {| fd_name := name; fd_params := ps; fd_ret := ret; fd_body := ss |} in
    enc_fdef fd = enc ∧ wf_fdef fd ∧ cheader fd g = (g', Ok h).

Lemma accept_header pre rest (g : @globals J) r g' h :
  buffer (pre ++ rest) → read_header (at_ pre rest, g) = ((r, g'), Ok h) →
  ∃ enc post, rest = enc ++ post ∧ r = at_ (pre ++ enc) post ∧ buffer ((pre ++ enc) ++ post) ∧
    header_from g enc g' h.
Proof.
  intros Hb Hr. unfold read_header in Hr.
  peel_read Hr cps_accepts_string. destruct E as (name & -> & Hn & ->).
  peel_read Hr cps_accepts_u32. destruct E as [-> Hz].
  apply bind_inv_ok in Hr as ([r1 g1] & ns & E & Hr).
  apply accept_names in E as (ps & post & -> & Hl & -> & Hps & -> & Hb' & ->); [|done].
  peel_read Hr cps_accepts_u8. subst. rename a0 into ret. peel_blob Hr d. rename x into post.
  peel_stem Hr. peel_stem Hr. injection Hr as <- <- <-.
  exists (blob name ++ u32 a ++ concat (blob <$> ps) ++ [ret] ++ blob d), post.
  assert (a = Zlen ps) as -> by lia. unfold blob. rewrite <-!app_assoc. unfold blob in Hb. rewrite <-!app_assoc in Hb.
  split_and!; try done. split; [unfold fits; cbn; lia|]. exists name, ps, ret. cbn [h_body]. intros ss ->.
  unfold enc_fdef, wf_fdef, fits, cheader, header_of. cbn [fd_name fd_params fd_ret fd_body]. split_and!; try done; try lia.
  rewrite Nat2Z.id in E0. rewrite (bind_ok _ _ _ _ _ E), (bind_ok _ _ _ _ _ E0). done.
Qed.

Lemma accept_headers n pre rest (g : @globals J) r g' hs :
  buffer (pre ++ rest) → rep n read_header (at_ pre rest, g) = ((r, g'), Ok hs) →
  ∃ enc post, rest = enc ++ post ∧ length hs = n ∧ Forall (λ h, fits (h_body h)) hs ∧
    ∀ sss, Forall2 (λ h ss, h_body h = enc_stmts ss) hs sss →
      ∃ fds, fd_body <$> fds = sss ∧ concat (enc_fdef <$> fds) = enc ∧ Forall wf_fdef fds ∧
        cheaders fds g = (g', Ok hs).
Proof.
  revert pre rest g r g' hs; induction n as [|n IH]; intros pre rest g r g' hs Hb Hr; cbn [rep] in Hr.
  - injection Hr as _ <- <-. exists [], rest. split_and!; [done..|]. intros sss Hs. inversion Hs; subst.
    by exists [].
  - apply bind_inv_ok in Hr as ([r1 g1] & h & E & Hr).
    apply accept_header in E as (enc & post & -> & -> & Hb' & Hfit & name & ps & ret & Hfrom); [|done].
    apply bind_inv_ok in Hr as ([r2 g2] & hs' & E & Hr).
    apply IH in E as (encs & post' & -> & <- & Hfits & Hall); [|done]. injection Hr as _ <- <-.
    exists (enc ++ encs), post'. split_and!; [by rewrite app_assoc|done|by constructor|].
    intros sss Hs. inversion Hs as [|? ss ? sss' Hss Hsss]; subst.
    destruct (Hfrom ss Hss) as (He & Hw & Hc). destruct (Hall sss' Hsss) as (fds & <- & <- & Hws & Hcs).
    eexists (_ :: fds). cbn [fmap list_fmap concat cheaders]. rewrite He. split_and!; [done..|by constructor|].
    rewrite (bind_ok _ _ _ _ _ Hc), (bind_ok _ _ _ _ _ Hcs). done.
Qed.

Lemma accept_functions names m hs g g' :
  Forall (λ h, fits (h_body h)) hs → compile_functions clock names m hs g = (g', Ok ()) →
  ∃ sss, Forall2 (λ h ss, h_body h = enc_stmts ss) hs sss ∧ Forall wf_stmts sss ∧
    cfunctions clock names m (zip hs sss) g = (g', Ok ()).
Proof.
  intros HF. revert g; induction HF as [|h hs Hh HF IH]; intros g Hr; cbn [compile_functions] in Hr.
  - injection Hr as <-. by exists [].
  - apply bind_inv_ok in Hr as (g1 & [] & E & Hr). apply cfunction_accept in E as (ss & Hss & Hw & E); [|done].
    apply IH in Hr as (sss & Hsss & Hws & Hcs). exists (ss :: sss). split_and!; [by constructor..|].
    cbn [zip zip_with cfunctions]. by rewrite (bind_ok _ _ _ _ _ E).
Qed.

Lemma accept_magic pre rest (g : @globals J) r g' m :
  buffer (pre ++ rest) → read_magic (at_ pre rest, g) = ((r, g'), Ok m) →
  ∃ h post, g' = g ∧ from_option fits True h ∧ m = from_option from_utf8_lossy [] h ∧
    let enc := match h with None => u32 0x43505331 | Some m => u32 0x43505332 ++ blob m end in
    rest = enc ++ post ∧ r = at_ (pre ++ enc) post ∧ buffer ((pre ++ enc) ++ post).
Proof.
  intros Hb Hr. unfold read_magic in Hr. peel_read Hr cps_accepts_u32. destruct E as [-> Hz].
  destruct (decide (a = 0x43505331)) as [->|H1]; [|destruct (decide (a = 0x43505332)) as [->|H2]].
  - injection Hr as <- <- <-. by exists None, x0.
  - eapply read_inv in Hr as (-> & e & post & -> & -> & Hb' & Hs); [|apply cps_accepts_string|done].
    destruct Hs as (n & -> & Hn & ->). exists (Some n), post. cbn [from_option]. rewrite <-!app_assoc in *. done.
  - exfalso. destruct a as [|q|q]; try discriminate.
    do 31 (try (destruct q as [q|q|]; try discriminate)); congruence.
Qed.

Lemma compile_accepted data g g' m :
  buffer data → compile_cps_to_clif clock data g = (g', Ok m) →
  ∃ p trailing, wf_program p ∧ wf_bodies p ∧ data = enc_program p ++ trailing ∧ cprogram clock p g = (g', Ok m).
Proof.
  intros Hb Hr. unfold compile_cps_to_clif, run_em in Hr.
  change {| cur_b := data; cur_i := 0 |} with (at_ [] data) in Hr.
  match type of Hr with (let '(_, _) := ?t in _) = _ => destruct t as [[r1 g1] a] eqn:E end. injection Hr as -> ->.
  apply bind_inv_ok in E as ([r2 g2] & mn & Em & E). apply accept_magic in Em as (h & post & -> & Hh & -> & -> & -> & Hb'); [|done].
  peel_read E cps_accepts_u32. match goal with E : _ = u32 _ ∧ _ |- _ => destruct E as [-> Hz] end.
  apply bind_inv_ok in E as ([r3 g3] & hs & Eh & E). apply accept_headers in Eh as (enc & trailing & -> & Hl & Hfits & Hall); [|done].
  peel_stem E. injection E as <- <- <-. destruct a0.
  apply accept_functions in E0 as (sss & Hsss & Hws & Hcs); [|done].
  destruct (Hall sss Hsss) as (fds & <- & <- & Hwf & Hch).
  exists {| p_module := h; p_funs := fds |}, trailing. unfold wf_program, wf_bodies, enc_program, cprogram, module_of.
  cbn [p_module p_funs]. rewrite (bind_ok _ _ _ _ _ Hch), (bind_ok _ _ _ _ _ Hcs).
  apply Forall2_length in Hsss. rewrite length_fmap in Hsss. rewrite <-!app_assoc.
  assert (a = Zlen fds) as -> by lia.
  split_and!; try done; [lia|]. exact (proj1 (Forall_fmap _ _ _) Hws).
Qed.

(** C19. A binary is compiled exactly as the program it encodes: on the encoding
    of a well-formed program, whatever follows it, the one-pass compiler leaves
    the state and the result (or the error, or the panic) of compiling the
    syntax tree; and every binary it accepts is such an encoding. *)
Theorem cps_one_pass data g :
  buffer data →
  (∀ p trailing, wf_program p → wf_bodies p → data = enc_program p ++ trailing →
     compile_cps_to_clif clock data g = cprogram clock p g) ∧
  (∀ g' m, compile_cps_to_clif clock data g = (g', Ok m) →
     ∃ p trailing, wf_program p ∧ wf_bodies p ∧ data = enc_program p ++ trailing ∧
       cprogram clock p g = (g', Ok m)).
Proof.
  intros Hb. split; [intros p trailing Hp Hw ->; by apply compile_encoded|].
  intros g' m. by apply compile_accepted.
Qed.
End program.
End CpsProgram.
