(* ===== verification/CpsWf.v ===== *)
(** * What the CPS compiler emits is well-formed

    Straight-line emission appends to the current block; statements open and
    close blocks. [good D s] is the builder's invariant with [D] the blocks that
    are created and not entered yet: they are empty, every other block but the
    current one is filled, every instruction is typed. From such a state no
    assertion of the builder fails. *)

From S2P Require Import Prelude Text Auth Clif Symbols Cps CpsLang CpsFuse.
Import Clif Cps CpsLang CpsFuse.

Module CpsWf.

(** ** Typing *)
Definition is_ty (ts : list ty) (t : ty) (v : value) : Prop := ts !! v = Some t.

(** [ts] are the types of the values, [nv] the number of variables. *)
Definition inst_ok (ts : list ty) (nv : nat) (i : inst) : Prop :=
  match i with
  | IIconst d t _ => is_ty ts t d
  | IBin d _ a b => is_ty ts I64 d ∧ is_ty ts I64 a ∧ is_ty ts I64 b
  | IBnot d a => is_ty ts I64 d ∧ is_ty ts I64 a
  | IIcmp d _ a b => is_ty ts I8 d ∧ is_ty ts I64 a ∧ is_ty ts I64 b
  | IUextend d a => is_ty ts I64 d ∧ is_ty ts I8 a
  | ILoad d p _ => is_ty ts I64 d ∧ is_ty ts I64 p
  | IStore t v p _ => is_ty ts t v ∧ is_ty ts I64 p
  | ICall d _ args => is_ty ts I64 d ∧ Forall (is_ty ts I64) args
  | IUse d x => is_ty ts I64 d ∧ (x < nv)%nat
  | IDef x v => (x < nv)%nat ∧ is_ty ts I64 v
  end.

Definition term_ok (ts : list ty) (nb : nat) (t : term) : Prop :=
  match t with
  | TReturn vs => ∃ v, vs = [v] ∧ is_ty ts I64 v
  | TJump b => (b < nb)%nat
  | TBrif c b1 b2 => is_ty ts I8 c ∧ (b1 < nb)%nat ∧ (b2 < nb)%nat
  end.

(** A finished function: every block ends in one terminator, every target
    exists, every operand has the type its instruction wants. *)
Definition block_ok (ts : list ty) (nv nb : nat) (k : blk) : Prop :=
  Forall (inst_ok ts nv) (b_insts k) ∧ from_option (term_ok ts nb) True (b_term k).
Definition func_ok (nv : nat) (f : func) : Prop :=
  f_blocks f ≠ [] ∧ Forall (is_ty (f_types f) I64) (f_params f) ∧
  Forall (λ k, is_Some (b_term k) ∧ block_ok (f_types f) nv (length (f_blocks f)) k) (f_blocks f).

Lemma is_ty_mono ts ts' t v : ts `prefix_of` ts' → is_ty ts t v → is_ty ts' t v.
Proof. intros [l ->] Ht. unfold is_ty in *. rewrite lookup_app_l; [done|]. by eapply lookup_lt_Some. Qed.
Lemma inst_ok_mono ts ts' nv nv' i :
  ts `prefix_of` ts' → (nv ≤ nv')%nat → inst_ok ts nv i → inst_ok ts' nv' i.
Proof.
  intros Hts Hnv. destruct i; cbn; intros; destruct_and?; split_and?; try lia; try by eapply is_ty_mono.
  eapply Forall_impl; [done|]. intros v. by apply is_ty_mono.
Qed.
Lemma term_ok_mono ts ts' nb nb' t :
  ts `prefix_of` ts' → (nb ≤ nb')%nat → term_ok ts nb t → term_ok ts' nb' t.
Proof.
  intros Hts Hnb. destruct t; cbn; [intros (v & -> & Hv); exists v; split; [done|]|lia|intros (? & ? & ?); split_and!; [|lia..]];
    by eapply is_ty_mono.
Qed.
Lemma block_ok_mono ts ts' nv nv' nb nb' k :
  ts `prefix_of` ts' → (nv ≤ nv')%nat → (nb ≤ nb')%nat → block_ok ts nv nb k → block_ok ts' nv' nb' k.
Proof.
  intros Hts Hnv Hnb [Hi Ht]. split.
  - eapply Forall_impl; [exact Hi|]. intros i. by apply inst_ok_mono.
  - destruct (b_term k); [|done]. by eapply term_ok_mono.
Qed.

(** ** Arities of the built-in callees *)
Definition call_arity (f : bytes) (n : nat) : bool :=
  if is_slot_get f then 2 <=? Z.of_nat n
  else if bool_decide (f = str "__record_new") then 1 <=? Z.of_nat n
  else if bool_decide (f = str "__union_new") then 2 <=? Z.of_nat n
  else true.

Fixpoint arity_expr (e : expr) : bool :=
  match e with
  | EConst _ | EVar _ | EString _ => true
  | EApp f args => call_arity (from_utf8_lossy f) (elen args) && arity_exprs args
  | EOp _ a b => arity_expr a && arity_expr b
  | ENot a | ELoad a => arity_expr a
  end
with arity_exprs (es : exprs) : bool :=
  match es with ENil => true | ECons e es => arity_expr e && arity_exprs es end.

Fixpoint arity_stmts (ss : stmts) : bool :=
  match ss with
  | SNil => true
  | SReturn e _ => arity_expr e
  | SIf c t f k => arity_expr c && arity_stmts t && arity_stmts f && arity_stmts k
  | SWhile c b k => arity_expr c && arity_stmts b && arity_stmts k
  | SSwitch c cs d k => arity_expr c && arity_cases cs && arity_stmts d && arity_stmts k
  | SLet _ e k | SExpr e k => arity_expr e && arity_stmts k
  | SStore p v k => arity_expr p && arity_expr v && arity_stmts k
  end
with arity_cases (cs : cases) : bool :=
  match cs with CNil => true | CCons _ b cs => arity_stmts b && arity_cases cs end.

Section wf.
Context {J : Type} `{ClifModule J}.
Variable clock : nat → Z.
Abbreviation cm := (stm (@cg J) bytes).
Abbreviation types s := (f_types (fb_func (c_fb s))).
Abbreviation blocks s := (f_blocks (fb_func (c_fb s))).
Abbreviation params s := (f_params (fb_func (c_fb s))).
Abbreviation cur s := (fb_cur (c_fb s)).
Abbreviation nvars s := (fb_nvars (c_fb s)).

(** ** Where a panic may come from: an engine that panics, a module that does,
    or a built-in callee with too few arguments. *)
Definition quiet (a : Auth.AuthState) : Prop :=
  match Auth.au_engine a with
  | Some e => ∀ now p act r, Auth.check_with e now p act r ≠ Panic
  | None => True
  end.
Definition quiet_module : Prop :=
  (∀ n l a (j : J), (declare_function n l a j).2 ≠ Panic) ∧
  (∀ (j : J) f, verify_function j f ≠ Panic) ∧ (∀ fid f (j : J), (define_function fid f j).2 ≠ Panic).
Definition calm (ar : Prop) (g : @globals J) : Prop := ar ∧ quiet (g_auth g) ∧ quiet_module.

Lemma check_quiet now p act r a a' v :
  Auth.check now p act r a = (a', v) → quiet a → quiet a' ∧ v ≠ Panic.
Proof.
  unfold Auth.check, quiet. destruct (Auth.au_engine a) as [e|] eqn:Ee.
  - intros [= <- <-] Hq. by rewrite Ee.
  - intros [= <- <-] _. by split.
Qed.

(** ** Straight-line emission *)
Definition open_at (s : @cg J) (c : block) (k : blk) : Prop :=
  cur s = Some c ∧ blocks s !! c = Some k ∧ b_term k = None.
Definition opened (s : @cg J) : Prop := live s ∧ ∃ c k, open_at s c k.

(** [s'] is [s] with [il] appended to the current block. *)
Record emits (s s' : @cg J) (il : list inst) : Prop := Emits {
  em_blk : ∃ c k, open_at s c k ∧ cur s' = Some c ∧ blocks s' = <[c := Blk (b_insts k ++ il) None]> (blocks s);
  em_types : types s `prefix_of` types s';
  em_params : params s' = params s;
  em_nvars : (nvars s ≤ nvars s')%nat;
  em_sealed : fb_sealed (c_fb s') = fb_sealed (c_fb s);
  em_list : c_blocks s' = c_blocks s;
  em_live : c_terminated s' = c_terminated s;
  em_quiet : quiet (g_auth (c_g s)) → quiet (g_auth (c_g s'));
  em_decl : declares (g_jit (c_g s)) (g_jit (c_g s'))
}.

Lemma emits_opened s s' il : emits s s' il → opened s → opened s'.
Proof.
  intros [(c & k & (Hc & Hk & Ht) & Hc' & Hb) _ _ _ _ _ Hl _ _] [Hs _]. split; [unfold live in *; congruence|].
  exists c, (Blk (b_insts k ++ il) None). split_and!; [done| |done]. rewrite Hb. apply list_lookup_insert_eq.
  by eapply lookup_lt_Some.
Qed.

Lemma emits_trans s1 s2 s3 il1 il2 : emits s1 s2 il1 → emits s2 s3 il2 → emits s1 s3 (il1 ++ il2).
Proof.
  intros [(c & k & (Hc & Hk & Ht) & Hc' & Hb) ? ? ? ? ? ? ? ?] [(c2 & k2 & (Hc2 & Hk2 & Ht2) & Hc2' & Hb2) ? ? ? ? ? ? ? ?].
  assert (c2 = c) as -> by congruence.
  assert (k2 = Blk (b_insts k ++ il1) None) as ->.
  { rewrite Hb, list_lookup_insert_eq in Hk2 by (by eapply lookup_lt_Some). congruence. }
  split; try congruence; [|by etrans|lia|by auto|by etrans]. exists c, k. split_and!; [done..|].
  by rewrite Hb2, Hb, list_insert_insert_eq, app_assoc.
Qed.

Lemma emits_nil s : (∃ c k, open_at s c k) → emits s s [].
Proof.
  intros (c & k & Hc & Hk & Ht). split; try done. exists c, k. split_and!; [done..|].
  rewrite app_nil_r. symmetry. apply list_insert_id. rewrite Hk. f_equal. destruct k; cbn in *. by subst.
Qed.

(** [ts] are types known before [m]; it emits typed code and its result has [Q]. *)
Definition spec {A} (ar : Prop) (ts : list ty) (m : cm A) (Q : A → list ty → Prop) : Prop :=
  ∀ s, opened s → ts `prefix_of` types s →
  match m s with
  | (s', Ok a) =>
      ∃ il, emits s s' il ∧ c_vars s' = c_vars s ∧ nvars s' = nvars s ∧
        ((∀ n x, c_vars s !! n = Some x → (x < nvars s)%nat) → Forall (inst_ok (types s') (nvars s')) il) ∧
        Q a (types s')
  | (_, Err _) => True
  | (_, Panic) => ¬ calm ar (c_g s)
  end.

Lemma spec_bind {A B} ar ts (m : cm A) Q (k : A → cm B) R :
  spec ar ts m Q → (∀ a ts', ts `prefix_of` ts' → Q a ts' → spec ar ts' (k a) R) → spec ar ts (m ≫= k) R.
Proof.
  intros Hm Hk s Ho Hts. unfold mbind, stm_bind. specialize (Hm s Ho Hts).
  destruct (m s) as [s1 [a|e|]]; [|done..]. destruct Hm as (il & He & Hv & Hn & Hi & HQ).
  specialize (Hk a (types s1) ltac:(etrans; [done|apply He]) HQ s1 (emits_opened _ _ _ He Ho) (reflexivity _)).
  destruct (k a s1) as [s2 [b|e|]]; [|done|].
  2: { intros (Ha & Hq & Hj). apply Hk. split_and!; [done| |done]. by apply He. }
  destruct Hk as (il' & He' & Hv' & Hn' & Hi' & HR).
  exists (il ++ il'). split_and!; [by eapply emits_trans|congruence|congruence| |done].
  intros Hvars. apply Forall_app. split; [|apply Hi'; by rewrite Hv, Hn].
  eapply Forall_impl; [by apply Hi|]. intros i. apply inst_ok_mono; [apply He'|lia].
Qed.

Lemma spec_ret {A} ar ts (a : A) (Q : A → list ty → Prop) : (∀ ts', ts `prefix_of` ts' → Q a ts') → spec ar ts (mret a) Q.
Proof.
  intros HQ s Ho Hts. cbn. exists []. split_and!; [|done..|by constructor|by apply HQ]. apply emits_nil, Ho.
Qed.
Lemma spec_conseq {A} ar ts (m : cm A) Q R :
  spec ar ts m Q → (∀ a ts', ts `prefix_of` ts' → Q a ts' → R a ts') → spec ar ts m R.
Proof.
  intros Hm HQ s Ho Hts. specialize (Hm s Ho Hts). destruct (m s) as [s1 [a|e|]]; [|done..].
  destruct Hm as (il & He & ? & ? & ? & ?). exists il. split_and!; try done. apply HQ; [|done]. etrans; [done|apply He].
Qed.

Lemma current_opened s c k : open_at s c k → current (c_fb s) = Some (c, k).
Proof. intros (Hc & Hk & Ht). unfold current, is_filled. rewrite Hc. cbn. rewrite Hk. cbn. rewrite Ht. done. Qed.

Lemma spec_push ar ts i (Q : list ty → Prop) :
  (∀ ts' nv, ts `prefix_of` ts' → inst_ok ts' nv i) → (∀ ts', ts `prefix_of` ts' → Q ts') →
  spec ar ts (fbop (push_inst i)) (λ _, Q).
Proof.
  intros Hi HQ s [Hl (c & k & Ho)] Hts. unfold fbop, push_inst. rewrite (current_opened s c k Ho). cbn.
  exists [i]. split_and!; [|done..| |by apply HQ].
  - split; cbn; try reflexivity; [|done]. exists c, k. by destruct Ho as (? & ? & ?).
  - intros _. constructor; [|done]. by apply Hi.
Qed.

Lemma spec_ins ar ts t mk :
  (∀ ts' nv d, ts `prefix_of` ts' → is_ty ts' t d → inst_ok ts' nv (mk d)) →
  spec ar ts (ins t mk) (λ v ts', is_ty ts' t v).
Proof.
  intros Hi s [Hl (c & k & Ho)] Hts. unfold ins, push_inst. cbn [new_value].
  assert (is_ty (types s ++ [t]) t (length (types s))) as Hty by (unfold is_ty; by rewrite lookup_app_r, Nat.sub_diag).
  match goal with |- context [current ?b] => assert (current b = Some (c, k)) as -> end.
  { destruct Ho as (Hc & Hk & Ht). unfold current, is_filled. cbn. rewrite Hc. cbn. rewrite Hk. cbn. by rewrite Ht. }
  cbn. exists [mk (length (types s))]. split_and!; [|done..| |done].
  - split; cbn; try reflexivity; [exists c, k; by destruct Ho as (? & ? & ?)|by apply prefix_app_r|done].
  - intros _. constructor; [|done]. apply Hi; [by apply prefix_app_r|done].
Qed.

Definition i64v (v : value) (ts : list ty) : Prop := is_ty ts I64 v.
Definition i64s (vs : list value) (ts : list ty) : Prop := Forall (is_ty ts I64) vs.
Definition anyr {A} (a : A) (ts : list ty) : Prop := True.

Lemma i64s_mono ts ts' vs : ts `prefix_of` ts' → Forall (is_ty ts I64) vs → Forall (is_ty ts' I64) vs.
Proof. intros Hts Hv. eapply Forall_impl; [exact Hv|]. intros v. by apply is_ty_mono. Qed.

Create HintDb ty.
#[local] Hint Resolve is_ty_mono i64s_mono : ty.

Lemma spec_lift {A} ar ts (r : res bytes A) (Q : A → list ty → Prop) :
  (∃ a, r = Ok a ∧ ∀ ts', ts `prefix_of` ts' → Q a ts') → spec ar ts (stm_lift r) Q.
Proof. intros (a & -> & HQ). by apply spec_ret. Qed.

Lemma spec_ing {A} ar ts (m : stm (@globals J) bytes A) :
  (∀ g g' v, m g = (g', v) → declares (g_jit g) (g_jit g') ∧
     (quiet (g_auth g) → quiet (g_auth g')) ∧ (v = Panic → ¬ calm ar g)) →
  spec ar ts (ing m) anyr.
Proof.
  intros Hm s [Hl Ho] Hts. unfold ing. specialize (Hm (c_g s)).
  destruct (m (c_g s)) as [g [a|e|]]; destruct (Hm _ _ eq_refl) as (Hd & Hq & Hp); [|done|by apply Hp].
  exists []. split_and!; [|done..|by constructor|done].
  destruct Ho as (c & k & Hc & Hk & Ht). split; cbn; try reflexivity; [|exact Hq|exact Hd]. exists c, k. split_and!; [done..|].
  rewrite app_nil_r. symmetry. apply list_insert_id. cbn. rewrite Hk. f_equal. destruct k; cbn in *. by subst.
Qed.

Lemma spec_iconst ar ts t z : spec ar ts (iconst t z) (λ v ts', is_ty ts' t v).
Proof. by apply spec_ins. Qed.
Lemma spec_bin ar ts op a b : is_ty ts I64 a → is_ty ts I64 b → spec ar ts (bin op a b) i64v.
Proof. intros. apply spec_ins. cbn. eauto with ty. Qed.
Lemma spec_bnot ar ts a : is_ty ts I64 a → spec ar ts (bnot a) i64v.
Proof. intros. apply spec_ins. cbn. eauto with ty. Qed.
Lemma spec_icmp ar ts cc a b : is_ty ts I64 a → is_ty ts I64 b → spec ar ts (icmp cc a b) (λ v ts', is_ty ts' I8 v).
Proof. intros. apply spec_ins. cbn. eauto with ty. Qed.
Lemma spec_uextend ar ts a : is_ty ts I8 a → spec ar ts (uextend a) i64v.
Proof. intros. apply spec_ins. cbn. eauto with ty. Qed.
Lemma spec_load ar ts a o : is_ty ts I64 a → spec ar ts (load a o) i64v.
Proof. intros. apply spec_ins. cbn. eauto with ty. Qed.
Lemma spec_store ar ts t v p o : is_ty ts t v → is_ty ts I64 p → spec ar ts (store t v p o) anyr.
Proof. intros. apply (spec_push _ _ _ (λ _, True)); [|done]. cbn. eauto with ty. Qed.
Lemma spec_call ar ts f vs : i64s vs ts → spec ar ts (call f vs) (λ l ts', ∃ d, l = [d] ∧ is_ty ts' I64 d).
Proof.
  intros Hvs. unfold call. eapply (spec_bind _ _ _ i64v); [apply spec_ins; cbn; eauto with ty|].
  intros d ts' Hp Hd. apply spec_ret. eauto with ty.
Qed.
Lemma spec_cmp ar ts cc a b : is_ty ts I64 a → is_ty ts I64 b → spec ar ts (emit_cmp cc a b) i64v.
Proof. intros. eapply spec_bind; [by apply spec_icmp|]. intros c ts' _ Hc. by apply spec_uextend. Qed.
Lemma spec_nonzero ar ts v : is_ty ts I64 v → spec ar ts (nonzero v) (λ c ts', is_ty ts' I8 c).
Proof. intros. eapply spec_bind; [apply spec_iconst|]. intros c ts' ? Hc. apply spec_icmp; eauto with ty. Qed.
Lemma spec_arg ar ts vs i : i64s vs ts → 0 ≤ i → (ar → i < Zlen vs) → spec ar ts (arg vs i) i64v.
Proof.
  intros Hvs H0 Hi s Ho Hts. unfold arg, stm_lift, index_p. rewrite (proj2 (Z.leb_le _ _)) by lia.
  destruct (vs !! Z.to_nat i) as [v|] eqn:Hv.
  - apply (spec_ret ar ts v i64v); [|done..]. intros ts' Hp. eapply is_ty_mono; [done|]. by eapply Forall_lookup_1.
  - intros (Ha & _). apply lookup_ge_None in Hv. specialize (Hi Ha). lia.
Qed.

Lemma spec_declare ar ts w n l a : spec ar ts (ing (declare_or w n l a)) anyr.
Proof.
  apply spec_ing. intros g g' v. unfold declare_or, with_jit.
  destruct (declare_function n l a (g_jit g)) as [j r] eqn:Ej. intros [= <- <-]. split_and!; [|done|].
  { cbn. apply rtc_once. exists n, l, a. by rewrite Ej. }
  intros Hp (_ & _ & Hj & _). specialize (Hj n l a (g_jit g)). rewrite Ej in Hj. by destruct r.
Qed.
Lemma spec_check ar ts c m f : spec ar ts (ing (check_call_permission clock c m f)) anyr.
Proof.
  apply spec_ing. intros g g' v. unfold check_call_permission. destruct (is_gated c f); [|intros [= <- <-]; by split].
  destruct (Auth.check _ _ _ _ _) as [a r] eqn:Ec. intros [= <- <-]. cbn. split_and!; [reflexivity|..].
  - intros Hq. by eapply check_quiet.
  - intros -> (_ & Hq & _). by eapply (check_quiet _ _ _ _ _ _ _ Ec).
Qed.
Lemma spec_alloc ar ts v : is_ty ts I64 v → spec ar ts (alloc v) i64v.
Proof.
  intros Hv. unfold alloc. eapply spec_bind; [apply spec_declare|]. intros f ts1 H1 _.
  eapply spec_bind; [apply spec_call; constructor; eauto with ty|]. intros l ts2 H2 (d & -> & Hd).
  apply spec_arg; [by constructor|lia|cbn; lia].
Qed.
Lemma spec_store_fields ar vs : ∀ ts p i, is_ty ts I64 p → i64s vs ts → spec ar ts (store_fields p i vs) anyr.
Proof.
  induction vs as [|v vs IH]; intros ts p i Hp Hvs; cbn [store_fields]; [by apply spec_ret|].
  inversion_clear Hvs as [|? ? Hv Hvs']. eapply spec_bind; [by apply spec_store|]. intros _ ts' Ht _.
  apply IH; unfold i64s; eauto with ty.
Qed.
Lemma spec_store_bytes ar bs : ∀ ts p i, is_ty ts I64 p → spec ar ts (store_bytes p i bs) anyr.
Proof.
  induction bs as [|b bs IH]; intros ts p i Hp; cbn [store_bytes]; [by apply spec_ret|].
  eapply spec_bind; [apply spec_iconst|]. intros v ts' Ht Hv.
  eapply spec_bind; [apply spec_store; eauto with ty|]. intros _ ts2 Ht2 _. apply IH. eauto with ty.
Qed.

Lemma spec_slot_get ar ts vs : i64s vs ts → (ar → 2 ≤ Zlen vs) → spec ar ts (slot_get vs) i64v.
Proof.
  intros Hvs Hl. unfold slot_get.
  eapply spec_bind; [apply spec_arg; [done|lia|intros Ha; specialize (Hl Ha); lia]|]. intros p ts1 H1 Hp.
  eapply spec_bind; [apply spec_arg; [unfold i64s; eauto with ty|lia|intros Ha; specialize (Hl Ha); lia]|]. intros o ts2 H2 Ho.
  eapply spec_bind; [apply spec_bin; unfold i64v in *; eauto with ty|]. intros a ts3 H3 Ha. by apply spec_load.
Qed.
Lemma spec_record_new ar ts vs : i64s vs ts → (ar → 1 ≤ Zlen vs) → spec ar ts (record_new vs) i64v.
Proof.
  intros Hvs Hl. unfold record_new.
  eapply spec_bind; [apply spec_arg; [done|lia|intros Ha; specialize (Hl Ha); lia]|]. intros p ts1 H1 Hp.
  eapply spec_bind; [by apply spec_alloc|]. intros a ts2 H2 Ha.
  eapply spec_bind; [apply spec_store_fields; [done|]|].
  { apply Forall_drop. eapply i64s_mono, Hvs. by etrans. }
  intros _ ts3 H3 _. apply spec_ret. unfold i64v in *. eauto with ty.
Qed.
Lemma spec_union_new ar ts vs : i64s vs ts → (ar → 2 ≤ Zlen vs) → spec ar ts (union_new vs) i64v.
Proof.
  intros Hvs Hl. unfold union_new.
  eapply spec_bind; [apply spec_arg; [done|lia|intros Ha; specialize (Hl Ha); lia]|]. intros p ts1 H1 Hp.
  eapply spec_bind; [apply spec_arg; [unfold i64s; eauto with ty|lia|intros Ha; specialize (Hl Ha); lia]|]. intros o ts2 H2 Ho.
  eapply spec_bind; [apply spec_alloc; unfold i64v in *; eauto with ty|]. intros a ts3 H3 Ha.
  eapply spec_bind; [apply spec_store; unfold i64v in *; eauto with ty|]. intros _ ts4 H4 _.
  eapply spec_bind; [apply spec_store_fields; [unfold i64v in *; eauto with ty|]|].
  { apply Forall_drop. eapply i64s_mono, Hvs. repeat (etrans; [eassumption|]). reflexivity. }
  intros _ ts5 H5 _. apply spec_ret. unfold i64v in *. eauto with ty.
Qed.
Lemma spec_func_ref ar ts x f n : spec ar ts (func_ref x f n) anyr.
Proof.
  unfold func_ref. destruct (x_name_map x !! f); [by apply spec_ret|].
  destruct (x_import_map x !! f); [by apply spec_ret|]. apply spec_declare.
Qed.
Lemma spec_emit_app ar ts x f vs :
  i64s vs ts → (ar → call_arity f (length vs) = true) → spec ar ts (emit_app clock x f vs) i64v.
Proof.
  intros Hvs Har. unfold emit_app. eapply spec_bind; [apply spec_check|]. intros _ ts1 H1 _.
  assert (i64s vs ts1) as Hvs1 by (unfold i64s; eauto with ty). unfold call_arity in Har.
  destruct (is_slot_get f); [apply spec_slot_get; [done|]; intros Ha; specialize (Har Ha); lia|].
  case_bool_decide as Hf1; [apply spec_record_new; [done|]; intros Ha; specialize (Har Ha); lia|].
  case_bool_decide as Hf2; [apply spec_union_new; [done|]; intros Ha; specialize (Har Ha); lia|].
  eapply spec_bind; [apply spec_func_ref|]. intros fid ts2 H2 _.
  eapply spec_bind; [apply spec_call; unfold i64s; eauto with ty|]. intros l ts3 H3 (d & -> & Hd).
  apply spec_ret. unfold i64v in *. eauto with ty.
Qed.
Lemma spec_emit_string ar ts bs : spec ar ts (emit_string bs) i64v.
Proof.
  unfold emit_string. eapply spec_bind; [apply spec_declare|]. intros f ts1 H1 _.
  eapply spec_bind; [apply spec_iconst|]. intros v ts2 H2 Hv.
  eapply spec_bind; [apply spec_call; by constructor|]. intros l ts3 H3 (d & -> & Hd).
  eapply spec_bind; [apply spec_arg; [by constructor|lia|cbn; lia]|]. intros p ts4 H4 Hp.
  eapply spec_bind; [by apply spec_store_bytes|]. intros _ ts5 H5 _.
  eapply spec_bind; [apply spec_iconst|]. intros sz ts6 H6 Hsz.
  eapply spec_bind; [apply spec_call; by constructor|]. intros l2 ts7 H7 (d2 & -> & Hd2).
  eapply spec_bind; [apply spec_arg; [by constructor|lia|cbn; lia]|]. intros p2 ts8 H8 Hp2.
  eapply spec_bind; [apply spec_iconst|]. intros lv ts9 H9 Hlv. unfold i64v in *.
  assert (is_ty ts9 I64 p) as Hp9.
  { eapply is_ty_mono, Hp. repeat (etrans; [eassumption|]). reflexivity. }
  eapply spec_bind; [apply spec_store; eauto with ty|]. intros _ ts10 H10 _.
  eapply spec_bind; [apply spec_store; eauto 6 with ty|]. intros _ ts11 H11 _.
  apply spec_ret. eauto 8 with ty.
Qed.
Lemma spec_cop ar ts o a b : is_ty ts I64 a → is_ty ts I64 b → spec ar ts (cop o a b) i64v.
Proof. destruct o; [apply spec_bin..|apply spec_cmp]. Qed.
Lemma spec_emit_var ar ts n : spec ar ts (emit_var n) i64v.
Proof.
  intros s Ho Hts. unfold emit_var. destruct (c_vars s !! n) as [x|] eqn:Hx; [|done].
  destruct Ho as [Hl (c & k & Ho)]. unfold use_var, ins, push_inst. cbn [new_value].
  match goal with |- context [current ?b] => assert (current b = Some (c, k)) as -> end.
  { destruct Ho as (Hc & Hk & Ht). unfold current, is_filled. cbn. rewrite Hc. cbn. rewrite Hk. cbn. by rewrite Ht. }
  assert (is_ty (types s ++ [I64]) I64 (length (types s))) as Hty by (unfold is_ty; by rewrite lookup_app_r, Nat.sub_diag).
  cbn. exists [IUse (length (types s)) x]. split_and!; [|done..| |done].
  - split; cbn; try reflexivity; [exists c, k; by destruct Ho as (? & ? & ?)|by apply prefix_app_r|done].
  - intros Hv. constructor; [|done]. split; [done|]. by eapply Hv.
Qed.

(** The arities of the parts, from those of the whole. *)
Lemma ar_l (ar : Prop) b c : (ar → b && c = true) → ar → b = true.
Proof. intros Ha h. apply Ha in h. by apply andb_true_iff in h as [? _]. Qed.
Lemma ar_r (ar : Prop) b c : (ar → b && c = true) → ar → c = true.
Proof. intros Ha h. apply Ha in h. by apply andb_true_iff in h as [_ ?]. Qed.
#[local] Hint Resolve ar_l ar_r : ty.

Lemma spec_expr_exprs ar x :
  (∀ e ts, (ar → arity_expr e = true) → spec ar ts (cexpr clock x e) i64v) ∧
  (∀ es ts, (ar → arity_exprs es = true) →
     spec ar ts (cexprs clock x es) (λ vs ts', i64s vs ts' ∧ length vs = elen es)).
Proof.
  apply expr_exprs_ind; cbn [arity_expr arity_exprs cexpr cexprs elen].
  - intros z ts _. apply spec_iconst.
  - intros n ts _. apply spec_emit_var.
  - intros f args IH ts Ha. eapply spec_bind; [apply IH; eauto with ty|].
    intros vs ts' Hts [Hvs Hl]. apply spec_emit_app; [done|]. rewrite Hl. eauto with ty.
  - intros o a IHa b IHb ts Ha. eapply spec_bind; [apply IHa; eauto with ty|]. intros va ts1 H1 Hva.
    eapply spec_bind; [apply IHb; eauto with ty|]. intros vb ts2 H2 Hvb. unfold i64v in *. apply spec_cop; eauto with ty.
  - intros a IH ts Ha. eapply spec_bind; [by apply IH|]. intros v ts1 _ Hv. by apply spec_bnot.
  - intros a IH ts Ha. eapply spec_bind; [by apply IH|]. intros v ts1 _ Hv. by apply spec_load.
  - intros s ts _. apply spec_emit_string.
  - intros ts _. apply spec_ret. intros ts' _. by split; [constructor|].
  - intros e IHe es IHes ts Ha. eapply spec_bind; [apply IHe; eauto with ty|]. intros v ts1 H1 Hv.
    eapply spec_bind; [apply IHes; eauto with ty|]. intros vs ts2 H2 [Hvs Hl]. unfold i64v, i64s in *.
    apply spec_ret. intros ts3 H3. split; [constructor; eauto with ty|cbn; lia].
Qed.
Lemma spec_expr ar x e ts : (ar → arity_expr e = true) → spec ar ts (cexpr clock x e) i64v.
Proof. apply spec_expr_exprs. Qed.

(** ** Blocks *)

(** [F] continues [f]: filled blocks are final, the others only grow. *)
Definition covers (f F : func) : Prop :=
  f_types f `prefix_of` f_types F ∧ f_params F = f_params f ∧
  ∀ b k, f_blocks f !! b = Some k →
    ∃ K, f_blocks F !! b = Some K ∧ b_insts k `prefix_of` b_insts K ∧ (is_Some (b_term k) → K = k).

#[export] Instance covers_preorder : PreOrder covers.
Proof.
  split.
  - intros f. split_and!; [done..|]. intros b k Hk. by exists k.
  - intros f g h (Ht & Hp & Hb) (Ht' & Hp' & Hb'). split_and!; [by etrans|congruence|].
    intros b k Hk. destruct (Hb b k Hk) as (K & HK & Hpre & Hf). destruct (Hb' b K HK) as (K' & HK' & Hpre' & Hf').
    exists K'. split_and!; [done|by etrans|]. intros Hs. specialize (Hf Hs). subst. by apply Hf'.
Qed.

Lemma covers_length f F : covers f F → (length (f_blocks f) ≤ length (f_blocks F))%nat.
Proof.
  intros (_ & _ & Hb). destruct (decide (length (f_blocks f) = 0)%nat) as [|Hn]; [lia|].
  destruct (lookup_lt_is_Some_2 (f_blocks f) (length (f_blocks f) - 1)) as [k Hk]; [lia|].
  destruct (Hb _ _ Hk) as (K & HK & _). apply lookup_lt_Some in HK. lia.
Qed.

(** A variable not bound before is new. *)
Definition fresh_vars (s s' : @cg J) : Prop :=
  (nvars s ≤ nvars s')%nat ∧ ∀ y k, c_vars s' !! y = Some k → c_vars s !! y = Some k ∨ (nvars s ≤ k)%nat.
Lemma fresh_same (s s' : @cg J) : c_vars s' = c_vars s → nvars s' = nvars s → fresh_vars s s'.
Proof. intros Hv Hn. split; [lia|]. rewrite Hv. auto. Qed.

Record grows (s s' : @cg J) : Prop := Grows {
  gr_covers : covers (fb_func (c_fb s)) (fb_func (c_fb s'));
  gr_vars : c_vars s ⊆ c_vars s';
  gr_quiet : quiet (g_auth (c_g s)) → quiet (g_auth (c_g s'));
  gr_decl : declares (g_jit (c_g s)) (g_jit (c_g s'));
  gr_fresh : fresh_vars s s'
}.
#[export] Instance grows_preorder : PreOrder grows.
Proof.
  split; [intros s; split; try done; by apply fresh_same|].
  intros s1 s2 s3 [Hc Hv Hq Hd [Hn Hf]] [Hc' Hv' Hq' Hd' [Hn' Hf']]. split; [by etrans|by etrans|auto|by etrans|].
  split; [lia|]. intros y k Hy. destruct (Hf' y k Hy) as [Hy'|]; [|lia]. by apply Hf.
Qed.

Record good (D : gset block) (s : @cg J) : Prop := Good {
  gd_list : c_blocks s = seq 0 (length (blocks s));
  gd_blocks : Forall (block_ok (types s) (nvars s) (length (blocks s))) (blocks s);
  gd_params : Forall (is_ty (types s) I64) (params s);
  gd_vars : ∀ n x, c_vars s !! n = Some x → (x < nvars s)%nat;
  gd_inj : ∀ n n' x, c_vars s !! n = Some x → c_vars s !! n' = Some x → n = n';
  gd_pending : ∀ b, b ∈ D → blocks s !! b = Some (Blk [] None) ∧ cur s ≠ Some b;
  gd_filled : ∀ b k, blocks s !! b = Some k → b ∉ D → cur s ≠ Some b → is_Some (b_term k)
}.
Definition closed (s : @cg J) : Prop := ∃ c k, cur s = Some c ∧ blocks s !! c = Some k ∧ is_Some (b_term k).

(** With [ts] types and [nb] blocks known: a block is open, the current block is
    closed, either (as the [terminated] flag says). *)
Definition st (D : gset block) (ts : list ty) (nb : nat) (s : @cg J) : Prop :=
  good D s ∧ ts `prefix_of` types s ∧ (nb ≤ length (blocks s))%nat.
Definition in_open D ts nb s : Prop := st D ts nb s ∧ opened s.
Definition in_closed D ts nb s : Prop := st D ts nb s ∧ closed s.
Definition in_either D ts nb s : Prop := st D ts nb s ∧ (opened s ∨ (closed s ∧ c_terminated s = true)).

Definition triple {A} (ar : Prop) (P : @cg J → Prop) (m : cm A) (Q : A → @cg J → Prop) : Prop :=
  ∀ s, P s →
  match m s with
  | (s', Ok a) => Q a s' ∧ grows s s'
  | (_, Err _) => True
  | (_, Panic) => ¬ calm ar (c_g s)
  end.

Lemma triple_bind {A B} ar P (m : cm A) Q (k : A → cm B) R :
  triple ar P m Q → (∀ a, triple ar (Q a) (k a) R) → triple ar P (m ≫= k) R.
Proof.
  intros Hm Hk s Hs. unfold mbind, stm_bind. specialize (Hm s Hs). destruct (m s) as [s1 [a|e|]]; [|done..].
  destruct Hm as [HQ Hg]. specialize (Hk a s1 HQ). destruct (k a s1) as [s2 [b|e|]]; [|done|].
  - destruct Hk. split; [done|by etrans].
  - intros (Ha & Hq & Hj). apply Hk. split_and!; [done|by apply Hg|done].
Qed.
Lemma triple_conseq {A} ar P P' (m : cm A) Q Q' :
  triple ar P m Q → (∀ s, P' s → P s) → (∀ a s, Q a s → Q' a s) → triple ar P' m Q'.
Proof.
  intros Hm HP HQ s Hs. specialize (Hm s (HP s Hs)). destruct (m s) as [s1 [a|e|]]; [|done..]. destruct Hm. auto.
Qed.

Lemma emits_good D s s' il :
  emits s s' il → c_vars s' = c_vars s → nvars s' = nvars s → Forall (inst_ok (types s') (nvars s')) il →
  good D s → good D s' ∧ grows s s' ∧ length (blocks s') = length (blocks s).
Proof.
  intros [(c & k & (Hc & Hk & Ht) & Hc' & Hb) Hts Hps Hnv Hse Hli Hl Hq Hdc] Hv Hn Hil [G1 G2 G3 G4 G5 G6 G7].
  assert (length (blocks s') = length (blocks s)) as Hlen by (rewrite Hb; apply length_insert).
  split; [|split; [split; [|by rewrite Hv|done|done|by apply fresh_same]|done]].
  - split; rewrite ?Hlen, ?Hli, ?Hps, ?Hv, ?Hn, ?Hc'; try done.
    + rewrite Hb. apply Forall_insert.
      * eapply Forall_impl; [exact G2|]. intros j. by apply block_ok_mono; [|lia|lia].
      * pose proof (Forall_lookup_1 _ _ _ _ G2 Hk) as Hkk. split; [|done]. cbn. apply Forall_app.
        rewrite Hn in Hil. split; [|done]. by eapply (block_ok_mono _ (types s') _ (nvars s)) in Hkk as [? _]; [|done..].
    + eapply i64s_mono; [done|exact G3].
    + intros b HD. destruct (G6 b HD) as [Hb0 Hne]. rewrite Hc in Hne. split; [|done].
      rewrite Hb, list_lookup_insert_ne; [done|congruence].
    + intros b j Hj HD Hne. rewrite Hb, list_lookup_insert_ne in Hj by congruence. apply (G7 b); [done..|]. by rewrite Hc.
  - split_and!; [done..|]. intros b j Hj. destruct (decide (b = c)) as [->|Hne].
    + rewrite Hb, list_lookup_insert_eq by (by eapply lookup_lt_Some). eexists. split; [done|].
      assert (j = k) as -> by congruence. cbn. split; [by apply prefix_app_r|]. rewrite Ht. by intros [? ?].
    + exists j. rewrite Hb, list_lookup_insert_ne by done. done.
Qed.

Lemma triple_spec {A} ar D ts nb (m : cm A) Q :
  spec ar ts m Q →
  triple ar (in_open D ts nb) m (λ a s', ∃ ts', ts `prefix_of` ts' ∧ Q a ts' ∧ in_open D ts' nb s').
Proof.
  intros Hm s [(Hg & Hts & Hnb) Ho]. specialize (Hm s Ho Hts). destruct (m s) as [s' [a|e|]]; [|done..].
  destruct Hm as (il & He & Hv & Hn & Hi & HQ).
  destruct (emits_good D s s' il He Hv Hn (Hi (gd_vars _ _ Hg)) Hg) as (Hg' & Hgr & Hl). split; [|done].
  exists (types s'). split_and!; [|done|]. { etrans; [done|apply He]. }
  split; [split_and!; [done..|lia]|]. by eapply emits_opened.
Qed.
Lemma triple_spec_bind {A B} ar D ts nb (m : cm A) Q (k : A → cm B) R :
  spec ar ts m Q →
  (∀ a ts', ts `prefix_of` ts' → Q a ts' → triple ar (in_open D ts' nb) (k a) R) →
  triple ar (in_open D ts nb) (m ≫= k) R.
Proof.
  intros Hm Hk. eapply triple_bind; [by apply triple_spec|].
  intros a s (ts' & Hp & HQ & Hs). exact (Hk a ts' Hp HQ s Hs).
Qed.

Lemma lookup_snoc_inv {A} (l : list A) x b k :
  (l ++ [x]) !! b = Some k → l !! b = Some k ∨ (b = length l ∧ k = x).
Proof.
  intros Hb. apply lookup_app_Some in Hb as [?|[Hle Hb]]; [by left|right].
  apply list_lookup_singleton_Some in Hb as [? ->]. split; [lia|done].
Qed.

(** A new block is pending. *)
Lemma triple_create ar D ts nb :
  triple ar (in_open D ts nb) mgr_create_block
    (λ b s', (b ∉ D) ∧ (nb ≤ b)%nat ∧ in_open ({[b]} ∪ D) ts (S b) s').
Proof. clear clock.
  intros s [(Hg & Hts & Hnb) [Hl (c & k0 & Hc & Hk0 & Ht)]]. destruct Hg as [G1 G2 G3 G4 G5 G6 G7].
  unfold mgr_create_block, create_block, set_blocks. cbn.
  assert (∀ b k, blocks s !! b = Some k → (blocks s ++ [Blk [] None]) !! b = Some k) as Hold.
  { intros b k Hk. rewrite lookup_app_l; [done|]. by eapply lookup_lt_Some. }
  split; [split_and!; [..|split; [split_and!|split]]|].
  - intros HD. apply G6 in HD as [Hb _]. apply lookup_lt_Some in Hb. lia.
  - done.
  - split; cbn; try done.
    + rewrite length_app, seq_app, G1. done.
    + apply Forall_app. split; [|repeat constructor]. eapply Forall_impl; [exact G2|]. intros k.
      apply block_ok_mono; [done..|]. rewrite length_app. lia.
    + intros b [->%elem_of_singleton|HD]%elem_of_union; [|destruct (G6 b HD); auto].
      split; [by rewrite lookup_app_r, Nat.sub_diag|]. apply lookup_lt_Some in Hk0. rewrite Hc. intros [= ->]. lia.
    + intros b k Hk HD Hne. apply lookup_snoc_inv in Hk as [Hk|[-> _]]; [|set_solver]. apply (G7 b); set_solver.
  - done.
  - cbn. rewrite length_app. cbn. lia.
  - done.
  - exists c, k0. split_and!; [done|by apply Hold|done].
  - split; cbn; [|done|done|done|by apply fresh_same]. split_and!; [done..|]. intros b k Hk. exists k. cbn. split_and!; [by apply Hold|done..].
Qed.

(** Closing the current block. *)
Lemma close_good D s c k t :
  good D s → open_at s c k → term_ok (types s) (length (blocks s)) t →
  ∃ b, push_term t (c_fb s) = Some b ∧
    let s' := set_fb b s in
    good D s' ∧ closed s' ∧ grows s s' ∧ types s' = types s ∧ length (blocks s') = length (blocks s) ∧
    cur s' = Some c ∧ blocks s' = <[c := Blk (b_insts k) (Some t)]> (blocks s).
Proof.
  intros [G1 G2 G3 G4 G5 G6 G7] Ho Htk. unfold push_term. rewrite (current_opened s c k Ho). cbn.
  destruct Ho as (Hc & Hk & Ht). eexists. split; [done|]. cbn.
  assert (c < length (blocks s))%nat as Hlt by (by eapply lookup_lt_Some).
  split_and!; try done; try apply length_insert.
  - split; cbn; rewrite ?length_insert; try done.
    + apply Forall_insert; [done|]. pose proof (Forall_lookup_1 _ _ _ _ G2 Hk) as [Hi _]. done.
    + intros b HD. destruct (G6 b HD) as [Hb Hne]. split; [|done]. rewrite list_lookup_insert_ne; [done|congruence].
    + intros b j Hj HD Hne. rewrite list_lookup_insert_ne in Hj by congruence. by apply (G7 b).
  - exists c. eexists. cbn. split_and!; [done|by apply list_lookup_insert_eq|by eexists].
  - split; cbn; [|done|done|done|by apply fresh_same]. split_and!; [done..|]. intros b j Hj. cbn. destruct (decide (b = c)) as [->|Hne].
    + rewrite list_lookup_insert_eq by done. eexists. split; [done|]. assert (j = k) as -> by congruence. cbn.
      split; [done|]. rewrite Ht. by intros [? ?].
    + exists j. by rewrite list_lookup_insert_ne.
Qed.

Lemma triple_term ar D ts nb t :
  (∀ ts' nb', ts `prefix_of` ts' → (nb ≤ nb')%nat → term_ok ts' nb' t) →
  triple ar (in_open D ts nb) (fbop (push_term t)) (λ _, in_closed D ts nb).
Proof.
  intros Ht s [(Hg & Hts & Hnb) [Hl (c & k & Ho)]].
  destruct (close_good D s c k t Hg Ho (Ht _ _ Hts Hnb)) as (b & Hb & Hg' & Hc & Hgr & Hty & Hlen & _).
  unfold fbop. rewrite Hb. split; [|done]. split; [|done]. split_and!; [done| |lia]. by rewrite Hty.
Qed.

(** Entering a pending block. *)
Lemma switch_good D s b :
  good D s → closed s → b ∈ D →
  ∃ fb, switch_to_block b (c_fb s) = Some fb ∧ fb_func fb = fb_func (c_fb s) ∧ fb_cur fb = Some b ∧
    let s' := set_terminated false (set_fb fb s) in
    good (D ∖ {[b]}) s' ∧ opened s' ∧ grows s s' ∧ open_at s' b (Blk [] None).
Proof. clear clock.
  intros [G1 G2 G3 G4 G5 G6 G7] (c & k & Hc & Hk & Ht) HD. destruct (G6 b HD) as [Hb Hne].
  unfold switch_to_block, may_leave, may_enter. rewrite Hc, Hk, Hb. cbn [from_option].
  assert (is_filled k = true) as -> by (by apply bool_decide_eq_true_2). cbn [orb andb].
  assert (negb (is_filled (Blk [] None)) = true) as -> by done. eexists. do 3 (split; [done|]).
  assert (open_at (set_terminated false (set_fb {| fb_func := fb_func (c_fb s); fb_sealed := fb_sealed (c_fb s);
            fb_nvars := nvars s; fb_cur := Some b |} s)) b (Blk [] None)) as Hop by done.
  cbn. split_and!; [|split; [done|by exists b, (Blk [] None)]|split; cbn; [reflexivity|done|done|done|by apply fresh_same]|done].
  split; cbn; try done.
  - intros b' [HD' Hb']%elem_of_difference. destruct (G6 b' HD') as [? _]. split; [done|].
    intros [= ->]. set_solver.
  - intros b' j Hj HD' Hne'. destruct (decide (b' = c)) as [->|]; [congruence|]. apply (G7 b'); [done| |congruence].
    intros HD2. apply HD'. set_solver.
Qed.

Lemma triple_switch ar D ts nb b :
  b ∈ D → triple ar (in_closed D ts nb) (mgr_switch_to_block b) (λ _, in_open (D ∖ {[b]}) ts nb).
Proof. clear clock.
  intros HD s [(Hg & Hts & Hnb) Hc]. destruct (switch_good D s b Hg Hc HD) as (fb & Hfb & Hf & Hcur & Hg' & Ho & Hgr & _).
  unfold mgr_switch_to_block, fbop, mbind, stm_bind. rewrite Hfb. split; [|done]. split; [|done].
  split_and!; [done|cbn; by rewrite Hf|cbn; rewrite Hf; lia].
Qed.

Lemma st_grows D ts nb s s' : st D ts nb s → grows s s' → good D s' → st D ts nb s'.
Proof.
  intros (_ & Hts & Hnb) [Hc _ _ _ _] Hg. split_and!; [done| |].
  - etrans; [done|apply Hc].
  - apply covers_length in Hc. lia.
Qed.

(** [terminate] after a terminator. *)
Lemma triple_terminated ar P D ts nb (m : cm ()) :
  triple ar P m (λ _, in_closed D ts nb) →
  triple ar P (m ≫= λ _, terminate) (λ _ s, in_closed D ts nb s ∧ c_terminated s = true).
Proof.
  intros Hm. eapply triple_bind; [exact Hm|]. intros _ s [(Hg & Hts & Hnb) Hc]. unfold terminate.
  split; [|split; cbn; [reflexivity|done|done|done|by apply fresh_same]]. split; [|done]. split; [|done].
  split_and!; [|done..]. by destruct Hg.
Qed.

Lemma triple_unless ar D ts nb (m : cm ()) :
  triple ar (in_open D ts nb) m (λ _, in_closed D ts nb) →
  triple ar (in_either D ts nb) (unless_terminated m) (λ _ s, in_closed D ts nb s ∧ c_terminated s = true).
Proof.
  intros Hm s [Hs Ho]. unfold unless_terminated. destruct (c_terminated s) eqn:Et.
  - split; [|reflexivity]. destruct Ho as [[Hl _]|[Hc _]]; [unfold live in Hl; congruence|]. by split.
  - destruct Ho as [Ho|[_ ?]]; [|congruence]. by apply (triple_terminated ar _ D ts nb m Hm).
Qed.

Lemma triple_jump ar D ts nb b :
  (b < nb)%nat →
  triple ar (in_either D ts nb) (emit_jump b) (λ _ s, in_closed D ts nb s ∧ c_terminated s = true).
Proof. intros Hb. apply triple_unless, triple_term. cbn. lia. Qed.

Lemma triple_ensure ar D ts nb b :
  (b < nb)%nat →
  triple ar (in_either D ts nb) (ensure_terminated (Some b)) (λ _, in_closed D ts nb).
Proof.
  intros Hb s Hs. unfold ensure_terminated. destruct (c_terminated s) eqn:Et.
  - split; [|reflexivity]. destruct Hs as [Hs [[Hl _]|[Hc _]]]; [unfold live in Hl; congruence|]. by split.
  - eapply triple_conseq; [by apply (triple_jump ar D ts nb b)|done| |exact Hs]. intros a s' [Hc _]. exact Hc.
Qed.

Lemma either_open D ts nb s : in_open D ts nb s → in_either D ts nb s.
Proof. intros [? ?]. split; auto. Qed.

Lemma triple_return ar D ts nb v :
  is_ty ts I64 v →
  triple ar (in_either D ts nb) (emit_return [v]) (λ _ s, in_closed D ts nb s ∧ c_terminated s = true).
Proof. intros Hv. apply triple_unless, triple_term. intros ts' nb' Hp _. cbn. eauto with ty. Qed.

Lemma triple_let ar D ts nb n v :
  is_ty ts I64 v → triple ar (in_open D ts nb) (emit_let n v) (λ _, in_open D ts nb).
Proof.
  intros Hv s [(Hg & Hts & Hnb) Ho]. unfold emit_let.
  set (s0 := match c_vars s !! n with
             | Some x => s
             | None => set_vars (<[n := nvars s]> (c_vars s)) (set_fb (declare_var (c_fb s)).2 s)
             end).
  set (x := default (nvars s) (c_vars s !! n)).
  assert (good D s0 ∧ grows s s0 ∧ opened s0 ∧ types s0 = types s ∧ c_vars s0 !! n = Some x ∧
          length (blocks s0) = length (blocks s)) as (Hg0 & Hgr0 & Ho0 & Ht0 & Hx0 & Hl0).
  { unfold s0, x. destruct (c_vars s !! n) as [x0|] eqn:Ex; [by split_and!|]. cbn. destruct Hg as [G1 G2 G3 G4 G5 G6 G7].
    split_and!; [|split; cbn; [reflexivity|by apply insert_subseteq|done|done|]|done|done|apply lookup_insert_eq|done].
    2: { split; cbn; [lia|]. intros y z [[<- <-]|[_ Hy]]%lookup_insert_Some; auto. }
    split; cbn; try done.
    - eapply Forall_impl; [exact G2|]. intros k. apply block_ok_mono; [done|lia|done].
    - intros n' x' [[<- <-]|[Hne Hx']]%lookup_insert_Some; [lia|]. apply G4 in Hx'. lia.
    - intros n1 n2 x' [[<- <-]|[Hne1 Hx1]]%lookup_insert_Some [[<- ?]|[Hne2 Hx2]]%lookup_insert_Some; [done|..].
      + apply G4 in Hx2. lia.
      + subst. apply G4 in Hx1. lia.
      + by eapply G5. }
  assert ((match c_vars s !! n with
           | Some v0 => def_var v0 v s
           | None => let '(v0, fb) := declare_var (c_fb s) in
                     def_var v0 v (set_vars (<[n := v0]> (c_vars s)) (set_fb fb s))
           end) = def_var x v s0) as -> by (unfold x, s0; by destruct (c_vars s !! n)).
  destruct Ho0 as [Hl (c & k & Hop)]. unfold def_var, fbop, push_inst. rewrite (current_opened s0 c k Hop). cbn.
  set (s1 := set_fb _ s0).
  assert (emits s0 s1 [IDef x v]) as He.
  { split; cbn; try reflexivity; [|done]. exists c, k. by destruct Hop as (? & ? & ?). }
  destruct (emits_good D s0 s1 _ He) as (Hg1 & Hgr1 & Hl1); [done..| |done|].
  { constructor; [|done]. split; [by eapply Hg0|]. cbn. rewrite Ht0. by eapply is_ty_mono. }
  split; [|by etrans]. split; [split_and!; [done| |lia]|by eapply emits_opened; [exact He|split; eauto]].
  cbn. by rewrite Ht0.
Qed.

(** ** Statements *)
Lemma either_closed D ts nb s : in_closed D ts nb s ∧ c_terminated s = true → in_either D ts nb s.
Proof. intros [[? ?] ?]. split; auto. Qed.
Lemma either_mono D ts ts' nb nb' s :
  in_either D ts' nb' s → ts `prefix_of` ts' → (nb ≤ nb')%nat → in_either D ts nb s.
Proof. intros [(? & ? & ?) ?] ? ?. split; [split_and!; [done|by etrans|lia]|done]. Qed.
Lemma open_mono D ts ts' nb nb' s :
  in_open D ts' nb' s → ts `prefix_of` ts' → (nb ≤ nb')%nat → in_open D ts nb s.
Proof. intros [(? & ? & ?) ?] ? ?. split; [split_and!; [done|by etrans|lia]|done]. Qed.

Lemma triple_return_term ar D ts nb v :
  is_ty ts I64 v → triple ar (in_open D ts nb) (_ ← return_ [v]; terminate) (λ _, in_either D ts nb).
Proof.
  intros Hv. eapply triple_conseq; [apply triple_terminated, (triple_term ar D ts nb)|done|intros ? ?; apply either_closed].
  intros ts' nb' Hp _. cbn. eauto with ty.
Qed.

Lemma triple_return_app ar D ts nb x f vs :
  i64s vs ts → (ar → call_arity f (length vs) = true) →
  triple ar (in_open D ts nb) (emit_return_app clock x f vs) (λ _, in_either D ts nb).
Proof.
  intros Hvs Har. unfold emit_return_app. unfold call_arity in Har.
  eapply triple_spec_bind; [apply spec_check|]. intros _ ts1 H1 _.
  assert (i64s vs ts1) as Hvs1 by (unfold i64s; eauto with ty).
  assert (∀ v ts2, ts1 `prefix_of` ts2 → i64v v ts2 →
    triple ar (in_open D ts2 nb) (_ ← return_ [v]; terminate) (λ _, in_either D ts nb)) as Hret.
  { intros v ts2 H2 Hv. eapply triple_conseq; [by apply (triple_return_term ar D ts2 nb v)|done|].
    intros ? s' Hs'. eapply either_mono; [exact Hs'|by etrans|lia]. }
  destruct (is_slot_get f).
  { eapply triple_spec_bind; [apply spec_slot_get; [done|]; intros Ha; specialize (Har Ha); lia|]. exact Hret. }
  case_bool_decide as Hf1.
  { eapply triple_spec_bind; [apply spec_record_new; [done|]; intros Ha; specialize (Har Ha); lia|]. exact Hret. }
  eapply triple_spec_bind; [apply spec_func_ref|]. intros fid ts2 H2 _. unfold emit_return_call.
  eapply triple_conseq; [eapply (triple_unless ar D ts2 nb)|apply either_open|].
  - eapply triple_spec_bind; [apply spec_call; unfold i64s; eauto with ty|]. intros l ts3 H3 (d & -> & Hd).
    eapply triple_conseq; [apply (triple_term ar D ts3 nb)|done|].
    + intros ts' nb' Hp _. cbn. eauto with ty.
    + intros ? s' [(? & ? & ?) ?]. split; [split_and!; [done|by etrans|lia]|done].
  - intros ? s' Hs'. eapply either_mono; [apply either_closed; exact Hs'|by etrans|lia].
Qed.

Lemma triple_creturn ar D ts nb x e :
  (ar → arity_expr e = true) → triple ar (in_open D ts nb) (creturn clock x e) (λ _, in_either D ts nb).
Proof.
  intros Ha.
  assert (triple ar (in_open D ts nb) (v ← cexpr clock x e; emit_return [v]) (λ _, in_either D ts nb)) as Hgen.
  { eapply triple_spec_bind; [by apply spec_expr|]. intros v ts1 H1 Hv.
    eapply triple_conseq; [by apply (triple_return ar D ts1 nb)|apply either_open|].
    intros ? s' Hs'. eapply either_mono; [apply either_closed; exact Hs'|done|lia]. }
  destruct e; try exact Hgen. cbn [creturn]. cbn [arity_expr] in Ha.
  eapply triple_spec_bind; [apply spec_expr_exprs; eauto with ty|]. intros vs ts1 H1 [Hvs Hl].
  eapply triple_conseq; [apply (triple_return_app ar D ts1 nb); [done|rewrite Hl; eauto with ty]|done|].
  intros ? s' Hs'. eapply either_mono; [exact Hs'|done|lia].
Qed.

Lemma triple_set_eq {A} ar D D' ts nb (m : cm A) Q :
  D = D' → triple ar (in_open D' ts nb) m Q → triple ar (in_open D ts nb) m Q.
Proof. by intros ->. Qed.
Lemma triple_either_mono {A} ar P D ts ts' nb nb' (m : cm A) :
  ts `prefix_of` ts' → (nb ≤ nb')%nat →
  triple ar P m (λ _, in_either D ts' nb') → triple ar P m (λ _, in_either D ts nb).
Proof. intros Ht Hn Hm. eapply triple_conseq; [exact Hm|done|]. intros ? s Hs. eapply either_mono; [exact Hs|done..]. Qed.

Lemma triple_jump_either ar D ts nb b :
  (b < nb)%nat → triple ar (in_either D ts nb) (emit_jump b) (λ _, in_closed D ts nb).
Proof. intros Hb. eapply triple_conseq; [by apply (triple_jump ar D ts nb)|done|]. intros ? s [Hs _]. exact Hs. Qed.
Lemma triple_jump_open ar D ts nb b :
  (b < nb)%nat → triple ar (in_open D ts nb) (emit_jump b) (λ _, in_closed D ts nb).
Proof. intros Hb. eapply triple_conseq; [by apply triple_jump_either|apply either_open|done]. Qed.

Lemma triple_create_bind {B} ar D ts nb (k : block → cm B) R :
  (∀ b, b ∉ D → (nb ≤ b)%nat → triple ar (in_open ({[b]} ∪ D) ts (S b)) (k b) R) →
  triple ar (in_open D ts nb) (mgr_create_block ≫= k) R.
Proof. clear clock. intros Hk. eapply triple_bind; [apply triple_create|]. intros b s (Hb & Hn & Hs). by apply Hk. Qed.

Ltac t_brif :=
  eapply triple_bind; [apply triple_term; cbn; intros; split_and!; [eauto with ty|lia|lia]|intros ?].
Ltac t_switch b := eapply triple_bind; [apply (triple_switch _ _ _ _ b); set_solver|intros ?].
Ltac t_ensure := eapply triple_bind; [apply triple_ensure; lia|intros ?].
Ltac t_jump := eapply triple_bind; [first [apply triple_jump_open; lia|apply triple_jump_either; lia]|intros ?].

Lemma triple_stmts_cases ar x :
  (∀ ss D ts nb, (ar → arity_stmts ss = true) →
     triple ar (in_open D ts nb) (cstmts clock x ss) (λ _, in_either D ts nb)) ∧
  (∀ cs D ts nb cond merge, (ar → arity_cases cs = true) → is_ty ts I64 cond → (merge < nb)%nat →
     triple ar (in_open D ts nb) (ccases clock x cond merge cs) (λ _, in_open D ts nb)).
Proof.
  apply stmts_cases_ind; cbn [arity_stmts arity_cases cstmts ccases].
  - intros D ts nb _ s Hs. split; [by apply either_open|reflexivity].
  - intros e dead D ts nb Ha. by apply triple_creturn.
  - intros c t IHt f IHf k IHk D ts nb Ha.
    eapply triple_spec_bind; [apply spec_expr; eauto with ty|]. intros v ts1 H1 Hv.
    eapply triple_spec_bind; [by apply spec_nonzero|]. intros cb ts2 H2 Hcb.
    apply triple_create_bind; intros b1 Hb1 Hn1. apply triple_create_bind; intros b2 Hb2 Hn2.
    apply triple_create_bind; intros b3 Hb3 Hn3.
    t_brif. t_switch b1. eapply triple_bind; [apply IHt; eauto 6 with ty|intros ?].
    t_ensure. t_switch b2. eapply triple_bind; [apply IHf; eauto 6 with ty|intros ?].
    t_ensure. t_switch b3. apply (triple_set_eq _ _ D); [set_solver|].
    eapply (triple_either_mono _ _ _ _ ts2 _ (S b3)); [by etrans|lia|]. apply IHk. eauto with ty.
  - intros c b IHb k IHk D ts nb Ha.
    apply triple_create_bind; intros b1 Hb1 Hn1. apply triple_create_bind; intros b2 Hb2 Hn2.
    apply triple_create_bind; intros b3 Hb3 Hn3. t_jump. t_switch b1.
    eapply triple_spec_bind; [apply spec_expr; eauto with ty|]. intros v ts1 H1 Hv.
    eapply triple_spec_bind; [by apply spec_nonzero|]. intros cb ts2 H2 Hcb.
    t_brif. t_switch b2. eapply triple_bind; [apply IHb; eauto 6 with ty|intros ?].
    t_jump. t_switch b3. apply (triple_set_eq _ _ D); [set_solver|].
    eapply (triple_either_mono _ _ _ _ ts2 _ (S b3)); [by etrans|lia|]. apply IHk. eauto with ty.
  - intros c cs IHcs d IHd k IHk D ts nb Ha.
    eapply triple_spec_bind; [apply spec_expr; eauto 6 with ty|]. intros v ts1 H1 Hv.
    apply triple_create_bind; intros b1 Hb1 Hn1.
    eapply triple_bind; [apply IHcs; [eauto 6 with ty|done|lia]|intros ?].
    eapply triple_bind; [apply IHd; eauto 6 with ty|intros ?]. t_ensure. t_switch b1.
    apply (triple_set_eq _ _ D); [set_solver|].
    eapply (triple_either_mono _ _ _ _ ts1 _ (S b1)); [done|lia|]. apply IHk. eauto with ty.
  - intros n e k IHk D ts nb Ha. eapply triple_spec_bind; [apply spec_expr; eauto with ty|]. intros v ts1 H1 Hv.
    eapply triple_bind; [by apply triple_let|intros ?].
    eapply (triple_either_mono _ _ _ _ ts1 _ nb); [done|lia|]. apply IHk. eauto with ty.
  - intros p v k IHk D ts nb Ha. eapply triple_spec_bind; [apply spec_expr; eauto with ty|]. intros vp ts1 H1 Hp.
    eapply triple_spec_bind; [apply spec_expr; eauto with ty|]. intros vv ts2 H2 Hv. unfold i64v in *.
    eapply triple_spec_bind; [apply spec_store; eauto with ty|]. intros ? ts3 H3 _.
    eapply (triple_either_mono _ _ _ _ ts3 _ nb); [by repeat (etrans; [eassumption|])|lia|]. apply IHk. eauto with ty.
  - intros e k IHk D ts nb Ha. eapply triple_spec_bind; [apply spec_expr; eauto with ty|]. intros v ts1 H1 Hv.
    eapply (triple_either_mono _ _ _ _ ts1 _ nb); [done|lia|]. apply IHk. eauto with ty.
  - intros D ts nb cond merge _ _ _ s Hs. by split.
  - intros z b IHb cs IHcs D ts nb cond merge Ha Hcond Hm.
    eapply triple_spec_bind; [apply spec_iconst|]. intros v ts1 H1 Hv.
    eapply triple_spec_bind; [apply spec_icmp; eauto with ty|]. intros cb ts2 H2 Hcb.
    apply triple_create_bind; intros b1 Hb1 Hn1. apply triple_create_bind; intros b2 Hb2 Hn2.
    t_brif. t_switch b1. eapply triple_bind; [apply IHb; eauto 6 with ty|intros ?]. t_ensure. t_switch b2.
    apply (triple_set_eq _ _ D); [set_solver|].
    eapply triple_conseq; [apply (IHcs D ts2 (S b2)); [eauto with ty..|lia]|done|].
    intros ? s' Hs'. eapply open_mono; [exact Hs'|by etrans|lia].
Qed.
End wf.
End CpsWf.
