(* ===== verification/CpsFunc.v ===== *)
(** * Whole functions: entry, parameters, sealing, the finished function *)

From S2P Require Import Prelude Cursor Text Auth Clif Symbols Cps CpsLang CpsFuse CpsProgram CpsWf.
Import Clif Cps CpsLang CpsFuse CpsProgram CpsWf.

Module CpsFunc.
Section func.
Context {J : Type} `{ClifModule J}.
Variable clock : nat → Z.
Abbreviation cm := (stm (@cg J) bytes).
Abbreviation types s := (f_types (fb_func (c_fb s))).
Abbreviation blocks s := (f_blocks (fb_func (c_fb s))).
Abbreviation params s := (f_params (fb_func (c_fb s))).
Abbreviation cur s := (fb_cur (c_fb s)).
Abbreviation nvars s := (fb_nvars (c_fb s)).

(** ** Entry *)
Lemma append_params_spec n b :
  f_params (fb_func b) = seq 0 (length (f_types (fb_func b))) →
  append_params n b =
    {| fb_func := Func (f_types (fb_func b) ++ replicate n I64)
                       (seq 0 (length (f_types (fb_func b)) + n)) (f_blocks (fb_func b));
       fb_sealed := fb_sealed b; fb_nvars := fb_nvars b; fb_cur := fb_cur b |}.
Proof.
  revert b; induction n as [|n IH]; intros b Hp; cbn [append_params new_value].
  - destruct b as [[ts ps bs] se nv c]; cbn in *. rewrite app_nil_r, Nat.add_0_r. by subst.
  - cbn. rewrite IH; cbn.
    + rewrite length_app, <-app_assoc. cbn. by replace (length (f_types (fb_func b)) + 1 + n)%nat with (length (f_types (fb_func b)) + S n)%nat by lia.
    + rewrite length_app, seq_app, Hp. done.
Qed.

(** The state in which the parameters are bound: one empty block. *)
Definition entered (n : nat) (g : @globals J) : @cg J :=
  {| c_g := g;
     c_fb := {| fb_func := Func (replicate n I64) (seq 0 n) [Blk [] None];
                fb_sealed := ∅; fb_nvars := 0; fb_cur := Some 0%nat |};
     c_blocks := [0%nat]; c_terminated := false; c_vars := ∅ |}.

Lemma entry_spec {B} n g (k : () → cm B) :
  (entry_block ← mgr_create_block; _ ← mgr_switch_to_block entry_block;
   _ ← fbop (λ b, Some (append_params n b)); k ()) (start_function g) = k () (entered n g).
Proof.
  unfold mgr_create_block, mgr_switch_to_block, fbop, mbind, stm_bind, start_function, create_block, switch_to_block.
  cbn. rewrite append_params_spec by done. done.
Qed.

Lemma entered_good n g : good ∅ (entered n g) ∧ opened (entered n g).
Proof.
  split; [split; cbn; try done|split; [done|by exists 0%nat, (Blk [] None)]].
  - repeat constructor.
  - apply Forall_lookup. intros i x Hi. apply lookup_seq in Hi as [-> Hi]. apply lookup_replicate. split; [done|lia].
  - intros b k Hk _ Hne. destruct b as [|b]; [done|]. destruct b; done.
Qed.

(** ** Parameters *)
Definition pname (names : list bytes) (i : nat) : bytes := default (str "p" ++ dec (Z.of_nat i)) (names !! i).
Definition bound_vars (names : list bytes) (i v : nat) (vars : gmap bytes variable) (n : nat) : gmap bytes variable :=
  foldl (λ m j, <[pname names (i + j) := (v + j)%nat]> m) vars (seq 0 n).

Lemma bound_vars_S names i v vars n :
  bound_vars names i v vars (S n) = bound_vars names (S i) (S v) (<[pname names i := v]> vars) n.
Proof.
  unfold bound_vars. cbn [seq foldl]. rewrite !Nat.add_0_r, <-fmap_S_seq.
  generalize (<[pname names i := v]> vars) (seq 0 n). intros m l. revert m.
  induction l as [|j l IH]; intros m; cbn; [done|]. by rewrite IH, !Nat.add_succ_r.
Qed.

Lemma bind_params_spec n : ∀ names i (s : @cg J),
  good ∅ s → opened s → params s = seq 0 (i + n) → types s = replicate (i + n) I64 →
  ∃ s', bind_params i n names s = (s', Ok ()) ∧ good ∅ s' ∧ opened s' ∧
    emits s s' ((λ j, IDef (nvars s + j) (i + j)) <$> seq 0 n) ∧ types s' = types s ∧
    c_g s' = c_g s ∧ c_vars s' = bound_vars names i (nvars s) (c_vars s) n ∧ nvars s' = (nvars s + n)%nat.
Proof.
  induction n as [|n IH]; intros names i s Hg Ho Hp Ht.
  { exists s. cbn. rewrite Nat.add_0_r. split_and!; try done. apply emits_nil, Ho. }
  (* one parameter: the state [s2] with its variable defined and named *)
  destruct Ho as [Hl (c & k & Hop)].
  set (b1 := (declare_var (c_fb s)).2).
  set (b2 := set_blocks (<[c := Blk (b_insts k ++ [IDef (nvars s) i]) None]> (blocks s)) b1).
  set (s2 := set_vars (<[pname names i := nvars s]> (c_vars s)) (set_fb b2 s)).
  assert (bind_params i (S n) names s = bind_params (S i) n names s2) as Hstep.
  { cbn [bind_params]. unfold mbind, stm_bind. unfold index_p. rewrite (proj2 (Z.leb_le _ _)) by lia.
    rewrite Nat2Z.id, Hp, lookup_seq_lt by lia. cbn [declare_var]. unfold def_var, fbop, push_inst.
    assert (current (c_fb (set_fb b1 s)) = Some (c, k)) as Hcur by (by apply current_opened).
    change (set_fb {| fb_func := _; fb_sealed := _; fb_nvars := _; fb_cur := _ |} s) with (set_fb b1 s).
    rewrite Hcur. done. }
  assert (emits s s2 [IDef (nvars s) i]) as He.
  { split; cbn; try reflexivity; [|lia|done]. exists c, k. by destruct Hop as (? & ? & ?). }
  assert (good ∅ s2) as Hg2.
  { destruct Hg as [G1 G2 G3 G4 G5 G6 G7]. destruct Hop as (Hc & Hk & Htk). split; cbn; rewrite ?length_insert; try done.
    - apply Forall_insert.
      + eapply Forall_impl; [exact G2|]. intros j. apply block_ok_mono; [done|lia|done].
      + pose proof (Forall_lookup_1 _ _ _ _ G2 Hk) as Hkk.
        eapply (block_ok_mono _ (types s) _ (S (nvars s))) in Hkk as [? _]; [|done|lia|done]. split; [|done]. cbn.
        apply Forall_app. split; [done|]. constructor; [|done]. split; [lia|]. unfold is_ty. rewrite Ht.
        apply lookup_replicate. split; [done|lia].
    - intros n' x' [[<- <-]|[Hne Hx']]%lookup_insert_Some; [lia|]. apply G4 in Hx'. lia.
    - intros n1 n2 x' [[<- <-]|[Hne1 Hx1]]%lookup_insert_Some [[<- ?]|[Hne2 Hx2]]%lookup_insert_Some; [done|..].
      + apply G4 in Hx2. lia.
      + subst. apply G4 in Hx1. lia.
      + by eapply G5.
    - intros b j Hj HD Hne. rewrite list_lookup_insert_ne in Hj by congruence. by apply (G7 b). }
  destruct (IH names (S i) s2) as (s' & E & Hg' & Ho' & He' & Ht' & Hgg & Hv' & Hn'); [done| |by rewrite Nat.add_succ_comm|by rewrite Nat.add_succ_comm|].
  { by eapply emits_opened; [exact He|split; eauto]. }
  exists s'. rewrite Hstep. split_and!; try done.
  - pose proof (emits_trans _ _ _ _ _ He He') as Htr. cbn [seq fmap list_fmap]. rewrite <-fmap_S_seq, <-list_fmap_compose.
    cbn [app] in Htr. rewrite !Nat.add_0_r. refine (eq_ind _ (emits s s') Htr _ _). f_equal. apply list_fmap_ext.
    intros ? j _. cbn. f_equal; lia.
  - by rewrite Hv', bound_vars_S.
  - rewrite Hn'. cbn. lia.
Qed.

(** ** The end of the function *)
Lemma triple_ensure_none ar D ts nb :
  triple ar (in_either D ts nb) (ensure_terminated None) (λ _, in_closed D ts nb).
Proof.
  intros s Hs. unfold ensure_terminated. destruct (c_terminated s) eqn:Et.
  - split; [|reflexivity]. destruct Hs as [Hs [[Hl _]|[Hc _]]]; [unfold live in Hl; congruence|]. by split.
  - destruct Hs as [Hs [Ho|[_ ?]]]; [|congruence].
    apply (triple_spec_bind ar D ts nb _ _ _ _ (spec_iconst ar ts I64 0)); [|by split].
    intros z ts' Hp Hz. eapply triple_conseq; [by apply (triple_return ar D ts' nb)|apply either_open|].
    intros ? s' [[(Hg & Ht & Hn) Hc] _]. split; [|done]. split_and!; [done|by etrans|done].
Qed.

Lemma seal_all_spec (s : @cg J) :
  ∃ fb, seal_all s = (set_fb fb s, Ok ()) ∧ fb_func fb = fb_func (c_fb s) ∧ fb_nvars fb = nvars s ∧
    ∀ b, b ∈ c_blocks s → b ∈ fb_sealed fb.
Proof.
  unfold seal_all. eexists. split; [done|]. generalize (c_fb s). induction (c_blocks s) as [|b l IH]; intros fb; cbn.
  { split_and!; [done..|]. set_solver. }
  destruct (IH (seal_block b fb)) as (Hf & Hn & Hs). rewrite Hf, Hn. split_and!; [done..|].
  intros b' [->|Hb]%elem_of_cons; [|by apply Hs]. clear -Hs.
  assert (∀ l fb b, b ∈ fb_sealed fb → b ∈ fb_sealed (foldl (λ fb b, seal_block b fb) fb l)) as Hmono.
  { clear. induction l as [|c l IH]; intros fb b Hb; cbn; [done|]. apply IH. cbn. set_solver. }
  apply Hmono. cbn. set_solver.
Qed.

Lemma finished_spec (s : @cg J) fb ts nb :
  in_closed ∅ ts nb s → fb_func fb = fb_func (c_fb s) → (∀ b, b ∈ c_blocks s → b ∈ fb_sealed fb) →
  finalize fb = Some (fb_func fb) ∧ func_ok (nvars s) (fb_func fb).
Proof.
  intros [([G1 G2 G3 G4 G5 G6 G7] & _ & _) (c & k & Hc & Hk & Ht)] Hf Hs.
  assert (∀ b j, blocks s !! b = Some j → is_Some (b_term j)) as Hall.
  { intros b j Hj. destruct (decide (b = c)) as [->|Hne]; [congruence|]. apply (G7 b); [done|set_solver|congruence]. }
  split.
  - unfold finalize. assert (finished fb = true) as ->; [|done]. unfold finished. rewrite Hf. apply forallb_Forall.
    apply Forall_lookup. intros i [b j] Hij. rewrite list_lookup_imap in Hij.
    destruct (blocks s !! i) as [k'|] eqn:Hi; [|done]. cbn in Hij. injection Hij as <- <-.
    apply orb_true_iff. right. apply andb_true_iff. split; apply bool_decide_eq_true_2; [by eapply Hall|].
    apply Hs. rewrite G1. apply elem_of_seq. apply lookup_lt_Some in Hi. lia.
  - rewrite Hf. split_and!; [intros E; by rewrite E in Hk|done|].
    apply Forall_lookup. intros i j Hj. split; [by eapply Hall|]. by eapply Forall_lookup_1.
Qed.

Lemma cbody_spec ar x h ss g :
  (ar → arity_stmts ss = true) →
  match cbody clock x h ss (start_function g) with
  | (s', Ok _) => (∃ f, finalize (c_fb s') = Some f ∧ func_ok (nvars s') f) ∧
      declares (g_jit g) (g_jit (c_g s')) ∧ (quiet (g_auth g) → quiet (g_auth (c_g s')))
  | (_, Err _) => True
  | (_, Panic) => ¬ calm ar g
  end.
Proof.
  intros Ha. unfold cbody. set (n := Z.to_nat (h_param_count h)).
  rewrite (entry_spec n g (λ _, _ ← bind_params 0 n (h_params h); _ ← cstmts clock x ss; _ ← ensure_terminated None; seal_all)).
  destruct (entered_good n g) as [Hg Ho].
  destruct (bind_params_spec n (h_params h) 0 (entered n g)) as (s4 & E4 & Hg4 & Ho4 & He4 & _ & Hc4 & _); [done..|].
  rewrite (bind_ok _ _ _ _ _ E4).
  assert (triple ar (in_open ∅ (types s4) 0) (_ ← cstmts clock x ss; ensure_terminated None)
            (λ _, in_closed ∅ (types s4) 0)) as Ht.
  { eapply triple_bind; [by apply triple_stmts_cases|intros ?]. apply triple_ensure_none. }
  specialize (Ht s4 ltac:(split; [split_and!; [done..|lia]|done])).
  rewrite <-(stm_assoc (cstmts clock x ss) (λ _, ensure_terminated None) (λ _, seal_all)).
  unfold mbind at 1, stm_bind at 1. destruct ((cstmts clock x ss ≫= λ _, ensure_terminated None) s4) as [s5 [[]|e|]].
  - destruct Ht as [Hcl [_ _ Hq Hd _]]. destruct (seal_all_spec s5) as (fb & -> & Hf & Hnv & Hs). cbn [c_fb set_fb c_g].
    rewrite Hc4 in *. cbn in Hq, Hd. destruct (finished_spec s5 fb _ _ Hcl Hf Hs) as [Hfin Hok].
    split; [|done]. exists (fb_func fb). by rewrite Hnv.
  - done.
  - by rewrite Hc4 in Ht.
Qed.

(** ** Programs *)

(** An invariant of the module that declarations keep, and definitions of
    well-formed functions. *)
Definition keeps (I : J → Prop) : Prop :=
  (∀ n l a j, I j → I (declare_function n l a j).1) ∧
  (∀ fid f nv j, func_ok nv f → I j → I (define_function fid f j).1).

Lemma keeps_declares I j j' : keeps I → declares j j' → I j → I j'.
Proof. intros [Hd _] Hr. induction Hr as [|j1 j2 j3 (n & l & a & ->) _ IH]; [done|]. intros Hj. by apply IH, Hd. Qed.

(** What a round of either loop does to the module and the gate's state. *)
Definition well (I : J → Prop) (g g' : @globals J) : Prop :=
  (keeps I → I (g_jit g) → I (g_jit g')) ∧ (quiet (g_auth g) → quiet (g_auth g')).
Lemma well_trans I g1 g2 g3 : well I g1 g2 → well I g2 g3 → well I g1 g3.
Proof. intros [? ?] [? ?]. split; auto. Qed.

Lemma cfunction_spec I ar names m h ss g :
  (ar → arity_stmts ss = true) →
  match cfunction clock names m h ss g with
  | (g', Ok _) => well I g g'
  | (_, Err _) => True
  | (_, Panic) => ¬ calm ar g
  end.
Proof.
  intros Ha. unfold cfunction, mbind, stm_bind.
  set (x := {| x_name_map := names; x_import_map := ∅; x_caller := h_name h; x_module := m |}).
  pose proof (cbody_spec ar x h ss g Ha) as Hb. destruct (cbody clock x h ss (start_function g)) as [s [u|e|]]; [|done..].
  destruct Hb as ((f & Hf & Hok) & Hd & Hq). cbn. rewrite Hf.
  destruct (verify_function (g_jit (c_g s)) f) as [?|?|] eqn:Ev; cbn; [|done|].
  - unfold with_jit. destruct (define_function (h_func_id h) f (g_jit (c_g s))) as [j [?|?|]] eqn:Ed; cbn; [|done|].
    + split; cbn; [|done]. intros Hk Hj. pose proof Hk as [_ Hdef].
      specialize (Hdef (h_func_id h) f _ (g_jit (c_g s)) Hok). rewrite Ed in Hdef. apply Hdef.
      by eapply keeps_declares.
    + intros (_ & _ & _ & _ & Hj). specialize (Hj (h_func_id h) f (g_jit (c_g s))). by rewrite Ed in Hj.
  - intros (_ & _ & _ & Hj & _). by apply (Hj (g_jit (c_g s)) f).
Qed.

Lemma cfunctions_spec I ar names m hs g :
  (ar → forallb (λ p, arity_stmts p.2) hs = true) →
  match cfunctions clock names m hs g with
  | (g', Ok _) => well I g g'
  | (_, Err _) => True
  | (_, Panic) => ¬ calm ar g
  end.
Proof.
  revert g; induction hs as [|[h ss] hs IH]; intros g Ha; cbn [cfunctions]; [by split|].
  cbn [forallb] in Ha. unfold mbind, stm_bind.
  pose proof (cfunction_spec I ar names m h ss g (ar_l _ _ _ Ha)) as Hf.
  destruct (cfunction clock names m h ss g) as [g1 [u|e|]]; [|done..].
  specialize (IH g1 (ar_r _ _ _ Ha)). destruct (cfunctions clock names m hs g1) as [g2 [v|e|]]; [|done|].
  - by eapply well_trans.
  - intros (Har & Hq & Hj). apply IH. split_and!; [done|by apply Hf|done].
Qed.

Lemma cheaders_well I fds g :
  match cheaders (J:=J) fds g with
  | (g', Ok _) => well I g g'
  | (_, Err _) => True
  | (_, Panic) => ¬ calm True g
  end.
Proof.
  revert g; induction fds as [|fd fds IH]; intros g; cbn [cheaders]; [by split|].
  unfold mbind at 1, stm_bind at 1. unfold cheader, claim, declare_or, with_jit.
  unfold mbind at 1, stm_bind at 1. destruct (Symbols.claim_export_symbol _ _) as [e sym].
  unfold mbind at 1, stm_bind at 1. cbn [g_jit g_auth g_exports g_tick].
  destruct (declare_function sym Export (length (fd_params fd)) (g_jit g)) as [j [fid|er|]] eqn:Ej; cbn [map_err mret stm_ret].
  - set (g1 := {| g_jit := j; g_auth := g_auth g; g_exports := e; g_tick := g_tick g |}).
    assert (well I g g1) as Hw.
    { split; cbn; [|done]. intros [Hd _] Hi. specialize (Hd sym Export (length (fd_params fd)) _ Hi). by rewrite Ej in Hd. }
    specialize (IH g1). unfold mbind, stm_bind. destruct (cheaders fds g1) as [g2 [hs|er|]]; [|done|].
    + by eapply well_trans.
    + intros (_ & Hq & Hj). apply IH. split_and!; [done|by apply Hw|done].
  - done.
  - intros (_ & _ & Hj & _). specialize (Hj sym Export (length (fd_params fd)) (g_jit g)). by rewrite Ej in Hj.
Qed.

Definition arities (p : program) : bool := forallb (λ fd, arity_stmts (fd_body fd)) (p_funs p).

Lemma cprogram_spec I ar p g :
  (ar → arities p = true) →
  match cprogram clock p g with
  | (g', Ok _) => well I g g'
  | (_, Err _) => True
  | (_, Panic) => ¬ calm ar g
  end.
Proof.
  intros Ha. unfold cprogram. unfold mbind at 1, stm_bind at 1. pose proof (cheaders_well I (p_funs p) g) as Hh.
  destruct (cheaders (p_funs p) g) as [g1 [hs|e|]] eqn:Eh; [|done|].
  2: { intros (? & ? & ?). by apply Hh. }
  assert (ar → forallb (λ p, arity_stmts p.2) (zip hs (fd_body <$> p_funs p)) = true) as Hz.
  { intros Har. specialize (Ha Har). unfold arities in Ha. apply forallb_Forall in Ha. apply forallb_Forall.
    apply Forall_lookup. intros i [h ss] Hi. apply lookup_zip_with_Some in Hi as (? & ? & [= -> ->] & _ & Hss).
    apply list_lookup_fmap_Some in Hss as (fd & -> & Hfd). by eapply (Forall_lookup_1 _ _ _ _ Ha). }
  unfold mbind, stm_bind. pose proof (cfunctions_spec I ar (names_of hs) (module_of p) _ g1 Hz) as Hf.
  destruct (cfunctions _ _ _ _ g1) as [g2 [u|e|]]; [|done|].
  - by eapply well_trans.
  - intros (Har & Hq & Hj). apply Hf. split_and!; [done|by apply Hh|done].
Qed.

(** C25. Type and shape of the emitted code: every function a compile defines
    has each of its blocks ended by exactly one terminator, jumps only to its
    own blocks, and gives every instruction operands of the type it takes
    (stated as: an invariant of the module kept by declarations and by
    definitions of such functions is kept by a compile). And the compiler never
    trips an assertion of the function builder: on a program whose calls to the
    built-in accessors have their arguments, it does not panic, as long as the
    authorization engine and the module do not. *)
Theorem cps_emits_typed data g :
  buffer data →
  (∀ g' m I, compile_cps_to_clif clock data g = (g', Ok m) → keeps I → I (g_jit g) → I (g_jit g')) ∧
  (∀ p trailing, wf_program p → wf_bodies p → data = enc_program p ++ trailing → arities p = true →
     quiet (g_auth g) → quiet_module (J:=J) → (compile_cps_to_clif clock data g).2 ≠ Panic).
Proof.
  intros Hb. split.
  - intros g' m I Hc Hk Hj. apply compile_accepted in Hc as (p & tr & _ & _ & _ & Hc); [|done].
    pose proof (cprogram_spec I False p g ltac:(done)) as Hp. rewrite Hc in Hp. by apply Hp.
  - intros p tr Hw Hwb -> Ha Hq Hj. rewrite compile_encoded by done.
    pose proof (cprogram_spec (λ _, True) True p g (λ _, Ha)) as Hp.
    destruct (cprogram clock p g) as [g' [?|?|]]; [done..|]. exfalso. by apply Hp.
Qed.
End func.
End CpsFunc.
