(* ===== verification/CpsGate.v ===== *)
(** * The call gate of the CPS compiler

    Every kernel, store or Rust call written in an accepted binary was
    authorized while it was compiled. *)

From S2P Require Import Prelude Cursor Text Auth Clif Symbols Cps CpsLang CpsFuse CpsProgram.
Import Clif Cps CpsLang CpsFuse CpsProgram.

Module CpsGate.

(** The callees written in a body. *)
Fixpoint calls_expr (e : expr) : list bytes :=
  match e with
  | EConst _ | EVar _ | EString _ => []
  | EApp f args => calls_exprs args ++ [from_utf8_lossy f]
  | EOp _ a b => calls_expr a ++ calls_expr b
  | ENot a | ELoad a => calls_expr a
  end
with calls_exprs (es : exprs) : list bytes :=
  match es with ENil => [] | ECons e es => calls_expr e ++ calls_exprs es end.

Fixpoint calls_stmts (ss : stmts) : list bytes :=
  match ss with
  | SNil => []
  | SReturn e _ => calls_expr e
  | SIf c t f k => calls_expr c ++ calls_stmts t ++ calls_stmts f ++ calls_stmts k
  | SWhile c b k => calls_expr c ++ calls_stmts b ++ calls_stmts k
  | SSwitch c cs d k => calls_expr c ++ calls_cases cs ++ calls_stmts d ++ calls_stmts k
  | SLet _ e k | SExpr e k => calls_expr e ++ calls_stmts k
  | SStore p v k => calls_expr p ++ calls_expr v ++ calls_stmts k
  end
with calls_cases (cs : cases) : list bytes :=
  match cs with CNil => [] | CCons _ b cs => calls_stmts b ++ calls_cases cs end.

Section gate.
Context {J : Type} `{ClifModule J}.
Variable clock : nat → Z.
Abbreviation cm := (stm (@cg J) bytes).

(** The installed engine allowed [caller] of [module] to call [f], at some
    reading of the clock. *)
Definition allowed (auth : Auth.AuthState) (caller module f : bytes) : Prop :=
  ∃ e k, Auth.au_engine auth = Some e ∧
    Auth.check_with e (clock k) (call_principal auth caller module) (str "Call") f = Ok ().
Definition gated_ok (auth : Auth.AuthState) (caller module f : bytes) : Prop :=
  is_gated caller f = true → allowed auth caller module f.

(** A successful [m] leaves the gate's state alone, declares functions at most,
    and has authorized [fs]. *)
Definition permits {A} (x : ectx) (m : cm A) (fs : list bytes) : Prop :=
  ∀ s s' a, m s = (s', Ok a) →
    g_auth (c_g s') = g_auth (c_g s) ∧ declares (g_jit (c_g s)) (g_jit (c_g s')) ∧
    Forall (gated_ok (g_auth (c_g s)) (x_caller x) (x_module x)) fs.

Lemma permits_bind {A B} x (m : cm A) fs (k : A → cm B) gs :
  permits x m fs → (∀ a, permits x (k a) gs) → permits x (m ≫= k) (fs ++ gs).
Proof.
  intros Hm Hk s s' b Hr. apply bind_inv_ok in Hr as (s1 & a & E & Hr).
  destruct (Hm _ _ _ E) as (H1 & Hd & H2). destruct (Hk a _ _ _ Hr) as (H3 & Hd' & H4). rewrite H1 in *.
  split_and!; [done|by etrans|]. by apply Forall_app.
Qed.
Lemma permits_bind_l {A B} x (m : cm A) fs (k : A → cm B) :
  permits x m fs → (∀ a, permits x (k a) []) → permits x (m ≫= k) fs.
Proof. intros Hm Hk. rewrite <-(app_nil_r fs). by eapply permits_bind. Qed.
Lemma permits_bind_r {A B} x (m : cm A) (k : A → cm B) gs :
  permits x m [] → (∀ a, permits x (k a) gs) → permits x (m ≫= k) gs.
Proof. intros Hm Hk. by apply (permits_bind x m []). Qed.

Lemma permits_ret {A} x (a : A) : permits x (mret a) [].
Proof. by intros s s' b [= <- <-]. Qed.
Lemma permits_lift {A} x (r : res bytes A) : permits x (stm_lift r) [].
Proof. by intros s s' b [= <- _]. Qed.
Lemma permits_fbop x f : permits x (fbop (J:=J) f) [].
Proof. intros s s' a. unfold fbop. destruct (f (c_fb s)); [|done]. by intros [= <- <-]. Qed.
Lemma permits_ins x t mk : permits x (ins (J:=J) t mk) [].
Proof. intros s s' a. unfold ins. cbn. case_match; [|done]. by intros [= <- <-]. Qed.
Lemma permits_declare x w n l a : permits x (ing (declare_or w n l a)) [].
Proof.
  intros s s' f. unfold ing, declare_or, with_jit.
  intros E. destruct (declare_function n l a (g_jit (c_g s))) as [j r] eqn:Ej. injection E as <- _. split_and!; [done| |done].
  apply rtc_once. exists n, l, a. by rewrite Ej.
Qed.
Lemma permits_create x : permits x mgr_create_block [].
Proof. by intros s s' b [= <- <-]. Qed.
Lemma permits_switch x b : permits x (mgr_switch_to_block b) [].
Proof. apply permits_bind_l; [apply permits_fbop|]. intros _. by intros s s' a [= <- <-]. Qed.
Lemma permits_terminate x : permits x (terminate (J:=J)) [].
Proof. by intros s s' a [= <- <-]. Qed.
Lemma permits_unless x (m : cm ()) : permits x m [] → permits x (unless_terminated m) [].
Proof.
  intros Hm s s' a. unfold unless_terminated. destruct (c_terminated s); [by intros [= <- <-]|].
  apply permits_bind_l; [done|]. intros _. apply permits_terminate.
Qed.

Lemma permits_check x f : permits x (ing (check_call_permission clock (x_caller x) (x_module x) f)) [f].
Proof.
  intros s s' a. unfold ing, check_call_permission.
  destruct (is_gated (x_caller x) f) eqn:Eg.
  - unfold Auth.check. destruct (Auth.au_engine (g_auth (c_g s))) as [e|] eqn:Ee; [|by intros [= <- ?]].
    intros [= <- Hc]. split_and!; [done..|]. constructor; [|done]. intros _. exists e, (g_tick (c_g s)).
    split; [done|]. by destruct a.
  - intros [= <- <-]. split_and!; [done..|]. constructor; [|done]. intros ?. congruence.
Qed.

Create HintDb gate.
#[local] Hint Resolve permits_ret permits_lift permits_fbop permits_ins permits_declare permits_create
  permits_switch permits_terminate permits_unless : gate.
#[local] Hint Resolve permits_bind_l : gate.

Lemma permits_store_fields x p i l : permits x (store_fields p i l) [].
Proof. revert i; induction l as [|v l IH]; intros i; cbn [store_fields]; eauto with gate. Qed.
Lemma permits_store_bytes x p i l : permits x (store_bytes p i l) [].
Proof. revert i; induction l as [|v l IH]; intros i; cbn [store_bytes]; eauto 6 with gate. Qed.
#[local] Hint Resolve permits_store_fields permits_store_bytes : gate.
Lemma permits_alloc x v : permits x (alloc v) [].
Proof. unfold alloc, call, arg. eauto 8 with gate. Qed.
#[local] Hint Resolve permits_alloc : gate.
Lemma permits_slot_get x vs : permits x (slot_get vs) [].
Proof. unfold slot_get, arg. eauto 8 with gate. Qed.
Lemma permits_record_new x vs : permits x (record_new vs) [].
Proof. unfold record_new, arg. eauto 8 with gate. Qed.
Lemma permits_union_new x vs : permits x (union_new vs) [].
Proof. unfold union_new, arg, store. eauto 12 with gate. Qed.
Lemma permits_call x f vs : permits x (call f vs) [].
Proof. unfold call. eauto with gate. Qed.
Lemma permits_func_ref x f n : permits x (func_ref x f n) [].
Proof.
  unfold func_ref. destruct (x_name_map x !! f); [eauto with gate|]. destruct (x_import_map x !! f); [eauto with gate|].
  unfold declare_import. eauto with gate.
Qed.
#[local] Hint Resolve permits_slot_get permits_record_new permits_union_new permits_call permits_func_ref : gate.

Lemma permits_app x f vs : permits x (emit_app clock x f vs) [f].
Proof.
  unfold emit_app. apply permits_bind_l; [apply permits_check|]. intros _.
  destruct (is_slot_get f); [eauto with gate|]. case_bool_decide; [eauto with gate|]. case_bool_decide; [eauto with gate|].
  apply permits_bind_l; [eauto with gate|]. intros fid. apply permits_bind_l; [eauto with gate|]. intros [|v l]; [|eauto with gate].
  unfold iconst. eauto with gate.
Qed.
Lemma permits_return_app x f vs : permits x (emit_return_app clock x f vs) [f].
Proof.
  unfold emit_return_app. apply permits_bind_l; [apply permits_check|]. intros _. unfold return_, emit_return_call.
  destruct (is_slot_get f); [eauto 6 with gate|]. case_bool_decide; eauto 8 with gate.
Qed.
Lemma permits_string x s : permits x (emit_string s) [].
Proof. unfold emit_string, iconst, arg, store. repeat (apply permits_bind_l; [solve [eauto with gate]|intros ?]). eauto with gate. Qed.
Lemma permits_var x n : permits x (emit_var (J:=J) n) [].
Proof. intros s s' a. unfold emit_var. destruct (c_vars s !! n); [|done]. apply permits_ins. Qed.
Lemma permits_cop x o a b : permits x (cop (J:=J) o a b) [].
Proof. destruct o; cbn; unfold bin, emit_cmp, icmp, uextend; eauto with gate. Qed.
Lemma permits_let x n v : permits x (emit_let (J:=J) n v) [].
Proof.
  intros s s' a. unfold emit_let. destruct (c_vars s !! n); [apply permits_fbop|]. cbn.
  intros E. by apply (permits_fbop x) in E.
Qed.
Lemma permits_nonzero x v : permits x (nonzero (J:=J) v) [].
Proof. unfold nonzero, iconst, icmp. eauto with gate. Qed.
Lemma permits_ensure x o : permits x (ensure_terminated (J:=J) o) [].
Proof.
  intros s s' a. unfold ensure_terminated. destruct (c_terminated s); [by intros [= <- <-]|].
  destruct o; [by apply permits_unless; auto with gate|]. apply permits_bind_l; [apply permits_ins|].
  intros z. apply permits_unless; unfold return_; auto with gate.
Qed.
#[local] Hint Resolve permits_app permits_return_app permits_string permits_var permits_cop permits_let
  permits_nonzero permits_ensure : gate.

Lemma permits_expr_exprs x :
  (∀ e, permits x (cexpr clock x e) (calls_expr e)) ∧ (∀ es, permits x (cexprs clock x es) (calls_exprs es)).
Proof.
  apply expr_exprs_ind; intros; cbn [cexpr cexprs calls_expr calls_exprs]; unfold iconst, bnot, load; eauto with gate.
  - apply permits_bind; eauto with gate.
  - apply permits_bind; [done|]. intros a'. eauto with gate.
  - apply permits_bind; [done|]. intros v. eauto with gate.
Qed.
Lemma permits_expr x e : permits x (cexpr clock x e) (calls_expr e).
Proof. apply permits_expr_exprs. Qed.
Lemma permits_return x e : permits x (creturn clock x e) (calls_expr e).
Proof.
  assert (permits x (v ← cexpr clock x e; emit_return [v]) (calls_expr e)) as Hg.
  { apply permits_bind_l; [apply permits_expr|]. intros v. apply permits_unless. unfold return_. auto with gate. }
  destruct e; try exact Hg. cbn [creturn calls_expr]. apply permits_bind; [apply permits_expr_exprs|]. eauto with gate.
Qed.

Ltac g_skip := apply permits_bind_r; [solve [unfold brif, iconst, icmp, emit_jump; eauto with gate]|intros ?].
Ltac g_take IH := apply permits_bind; [apply IH|intros ?].

Lemma permits_stmts_cases x :
  (∀ ss, permits x (cstmts clock x ss) (calls_stmts ss)) ∧
  (∀ cs cond merge, permits x (ccases clock x cond merge cs) (calls_cases cs)).
Proof.
  apply stmts_cases_ind; cbn [cstmts ccases calls_stmts calls_cases].
  - apply permits_ret.
  - intros e d. apply permits_return.
  - intros c t IHt f IHf k IHk. g_take permits_expr. do 6 g_skip. g_take IHt. do 2 g_skip. g_take IHf. do 2 g_skip. apply IHk.
  - intros c b IHb k IHk. do 5 g_skip. g_take permits_expr. do 3 g_skip. g_take IHb. do 2 g_skip. apply IHk.
  - intros c cs IHcs d IHd k IHk. g_take permits_expr. g_skip. g_take IHcs. g_take IHd. do 2 g_skip. apply IHk.
  - intros n e k IHk. g_take permits_expr. g_skip. apply IHk.
  - intros p v k IHk. g_take permits_expr. g_take permits_expr. unfold store. g_skip. apply IHk.
  - intros e k IHk. g_take permits_expr. apply IHk.
  - intros cond merge. apply permits_ret.
  - intros z b IHb cs IHcs cond merge. do 6 g_skip. g_take IHb. do 2 g_skip. apply IHcs.
Qed.

Lemma permits_bind_params x i n names : permits x (bind_params (J:=J) i n names) [].
Proof.
  revert i; induction n as [|n IH]; intros i; cbn [bind_params]; [apply permits_ret|].
  apply permits_bind_l; [intros s s' a [= <- _]; done|]. intros v.
  apply permits_bind_l; [by intros s s' a [= <- <-]|]. intros y.
  apply permits_bind_l; [apply permits_fbop|]. intros _.
  apply permits_bind_l; [by intros s s' a [= <- <-]|]. intros _. apply IH.
Qed.

Lemma permits_body x h ss : permits x (cbody clock x h ss) (calls_stmts ss).
Proof.
  unfold cbody. do 3 g_skip. apply permits_bind_r; [apply permits_bind_params|intros ?].
  apply permits_bind_l; [apply permits_stmts_cases|intros ?]. apply permits_bind_l; [apply permits_ensure|intros ?].
  by intros s s' r [= <- <-].
Qed.

Lemma permits_function names m h ss (g g' : @globals J) :
  cfunction clock names m h ss g = (g', Ok ()) →
  g_auth g' = g_auth g ∧ Forall (gated_ok (g_auth g) (h_name h) m) (calls_stmts ss).
Proof.
  intros Hr. unfold cfunction in Hr. apply bind_inv_ok in Hr as (g1 & f & E1 & Hr).
  apply bind_inv_ok in Hr as (g2 & [] & E2 & Hr). injection E2 as <- _.
  assert (g_auth g' = g_auth g1) as ->.
  { unfold with_jit in Hr. destruct (define_function _ _ _) as [j r]. by injection Hr as <- _. }
  cbv beta zeta in E1. set (x := {| x_caller := h_name h |}) in E1.
  destruct (cbody clock x h ss (start_function g)) as [s [[]|e|]] eqn:E; [|done..].
  injection E1 as <- _. by apply permits_body in E as (? & _ & ?).
Qed.

Lemma permits_functions names m hs (g g' : @globals J) :
  cfunctions clock names m hs g = (g', Ok ()) →
  g_auth g' = g_auth g ∧ Forall (λ p, Forall (gated_ok (g_auth g) (h_name p.1) m) (calls_stmts p.2)) hs.
Proof.
  revert g; induction hs as [|[h ss] hs IH]; intros g Hr; cbn [cfunctions] in Hr; [by injection Hr as <-|].
  apply bind_inv_ok in Hr as (g1 & [] & E & Hr). apply permits_function in E as [E1 E2]. apply IH in Hr as [E3 E4].
  rewrite E1 in *. split; [done|]. by constructor.
Qed.

Lemma cheaders_auth fds (g g' : @globals J) hs : cheaders fds g = (g', Ok hs) → g_auth g' = g_auth g.
Proof.
  revert g hs; induction fds as [|fd fds IH]; intros g hs Hr; cbn [cheaders] in Hr; [by injection Hr as <- _|].
  apply bind_inv_ok in Hr as (g1 & h & E1 & Hr). apply bind_inv_ok in Hr as (g2 & hs' & E2 & Hr).
  injection Hr as <- _. rewrite (IH _ _ E2). clear -E1. unfold cheader, claim, declare_or, with_jit in E1.
  apply bind_inv_ok in E1 as (g2 & sym & E & E1). apply bind_inv_ok in E1 as (g3 & fid & E' & E1). injection E1 as <- _.
  destruct (Symbols.claim_export_symbol _ _) as [ex y]. injection E as <- _. cbn in E'.
  destruct (declare_function _ _ _ _) as [j r]. injection E' as <- _. done.
Qed.

Lemma permits_program p (g g' : @globals J) m :
  cprogram clock p g = (g', Ok m) →
  g_auth g' = g_auth g ∧
  Forall (λ fd, Forall (gated_ok (g_auth g) (from_utf8_lossy (fd_name fd)) (module_of p)) (calls_stmts (fd_body fd))) (p_funs p).
Proof.
  intros Hr. unfold cprogram in Hr. apply bind_inv_ok in Hr as (g1 & hs & E1 & Hr).
  apply bind_inv_ok in Hr as (g2 & [] & E2 & Hr). injection Hr as <- _.
  pose proof (cheaders_auth _ _ _ _ E1) as Ha. apply permits_functions in E2 as [E3 E4]. rewrite E3, Ha in *.
  split; [done|]. apply cheaders_spec in E1. apply Forall_lookup. intros i fd Hfd.
  destruct (Forall2_lookup_l _ _ _ _ _ E1 Hfd) as (h & Hh & fid & ->).
  refine (Forall_lookup_1 _ _ i (header_of fd fid, fd_body fd) E4 _).
  apply lookup_zip_with_Some. exists (header_of fd fid), (fd_body fd). split_and!; [done..|].
  by rewrite list_lookup_fmap, Hfd.
Qed.

Lemma compile_gated data g g' m :
  buffer data → compile_cps_to_clif clock data g = (g', Ok m) →
  g_auth g' = g_auth g ∧
  ∃ p trailing, data = enc_program p ++ trailing ∧ wf_program p ∧ wf_bodies p ∧
    ∀ fd f, fd ∈ p_funs p → f ∈ calls_stmts (fd_body fd) →
      gated_ok (g_auth g) (from_utf8_lossy (fd_name fd)) (module_of p) f.
Proof.
  intros Hb Hc. apply compile_accepted in Hc as (p & tr & Hw & Hwb & -> & Hc); [|done].
  apply permits_program in Hc as [Ha Hf]. split; [done|]. exists p, tr. split_and!; [done..|].
  intros fd f Hfd Hfm. rewrite Forall_forall in Hf. specialize (Hf fd Hfd). rewrite Forall_forall in Hf. by apply Hf.
Qed.

(** C9. No call gets past the gate: in a binary the compiler accepts, every
    call written anywhere to a kernel, store or Rust function (a gated callee)
    was allowed by the installed engine to the principal of the binary, as a
    [Call]; and with no engine installed, a binary with such a call is not
    accepted. The gate's state is as before. *)
Theorem cps_gate data g g' m :
  buffer data → compile_cps_to_clif clock data g = (g', Ok m) →
  g_auth g' = g_auth g ∧
  ∃ p trailing, data = enc_program p ++ trailing ∧ wf_program p ∧ wf_bodies p ∧
    ∀ fd f, fd ∈ p_funs p → f ∈ calls_stmts (fd_body fd) →
      is_gated (from_utf8_lossy (fd_name fd)) f = true →
      allowed (g_auth g) (from_utf8_lossy (fd_name fd)) (module_of p) f.
Proof. exact (compile_gated data g g' m). Qed.
End gate.
End CpsGate.
