(* ===== verification/CpsSem.v ===== *)
(** * What a CPS program means

    A definitional interpreter over syntax trees: values are 64-bit, a variable
    lives in its function and is 0 until it is assigned, fields of a record lie
    8 bytes apart, a string is a span of its bytes. Memory and native functions
    are parameters, as in [Clif]. *)

From S2P Require Import Prelude Text Clif Cps CpsLang.
Import Clif Cps CpsLang.

Module CpsSem.

(** The variables of an activation. *)
Definition env : Type := gmap bytes Z.
Definition no_vars : env := (∅ : gmap bytes Z).
Definition get (e : env) (x : bytes) : Z := default 0 ((e : gmap bytes Z) !! x).
Definition upd (x : bytes) (v : Z) (e : env) : env := <[x := v]> (e : gmap bytes Z).

Lemma get_upd x v e : get (upd x v e) x = v.
Proof. unfold get, upd. by rewrite lookup_insert_eq. Qed.
Lemma get_upd_ne x y v e : x ≠ y → get (upd x v e) y = get e y.
Proof. intros. unfold get, upd. by rewrite lookup_insert_ne. Qed.
Lemma get_no_vars x : get no_vars x = 0.
Proof. done. Qed.

Section sem.
Context {W : Type} `{Memory W}.

(** How names resolve: the functions of this binary, then the symbols of the
    engine. *)
Variable names : gmap bytes func_id.
Variable symbols : bytes → option func_id.
(** The functions with a CPS body, and the others. *)
Variable functions : func_id → option fdef.
Variable native : callee W.

Definition resolve (f : bytes) : option func_id :=
  match names !! f with Some fid => Some fid | None => symbols f end.

Definition op_sem (o : op2) (a b : Z) : Z :=
  match o with
  | OAdd => wrap64 (a + b)
  | OSub => wrap64 (a - b)
  | OMul => wrap64 (a * b)
  | OCmp cc => Z.b2z (cc_sem cc a b)
  end.

(** Word [i] and up of the object at [p]. *)
Fixpoint store_words (w : W) (p i : Z) (zs : list Z) : option W :=
  match zs with
  | [] => Some w
  | z :: zs => w ← mem_store I64 w (wrap64 (p + 8 * i)) z; store_words w p (i + 1) zs
  end.
Fixpoint store_data (w : W) (p i : Z) (bs : bytes) : option W :=
  match bs with
  | [] => Some w
  | b :: bs => w ← mem_store I8 w (wrap64 (p + i)) (b2z b); store_data w p (i + 1) bs
  end.

Section call.
Variable call : callee W.

Definition new_object (size : Z) (w : W) : option (Z * W) :=
  fid ← symbols (str "au_alloc"); call fid [size] w.

(** [tail]: in the operand of a return, where [__union_new] is not built in. *)
Definition apply (tail : bool) (f : bytes) (vs : list Z) (w : W) : option (Z * W) :=
  if is_slot_get f then
    p ← vs !! 0%nat; o ← vs !! 1%nat; z ← mem_load w (wrap64 (p + o)); Some (z, w)
  else if bool_decide (f = str "__record_new") then
    size ← vs !! 0%nat; '(p, w) ← new_object size w; w ← store_words w p 0 (drop 1 vs); Some (p, w)
  else if negb tail && bool_decide (f = str "__union_new") then
    size ← vs !! 0%nat; _ ← vs !! 1%nat; '(p, w) ← new_object size w;
    w ← store_words w p 0 (drop 1 vs); Some (p, w)
  else fid ← resolve f; call fid vs w.

Definition new_string (bs : bytes) (w : W) : option (Z * W) :=
  '(d, w) ← new_object (Z.max (Zlen bs) 1) w;
  w ← store_data w d 0 bs;
  '(p, w) ← new_object 16 w;
  w ← store_words w p 0 [d; Zlen bs];
  Some (p, w).
End call.

Inductive out := Fall (e : env) (w : W) | Ret (z : Z) (w : W).

Fixpoint select (z : Z) (cs : cases) (d : stmts) : stmts :=
  match cs with
  | CNil => d
  | CCons z' b cs => if z =? z' then b else select z cs d
  end.

Definition bind_env (params : list bytes) (vs : list Z) : env :=
  foldl (λ e '(x, v), upd (from_utf8_lossy x) v e) no_vars (zip params vs).

(** [None]: a fault, or more than [n] nested evaluations. *)
Fixpoint eval (n : nat) (r : env) (w : W) (e : expr) : option (Z * W) :=
  match n with
  | O => None
  | S n =>
      match e with
      | EConst z => Some (z, w)
      | EVar x => Some (get r (from_utf8_lossy x), w)
      | EApp f args => '(vs, w) ← evals n r w args; apply (invoke n) false (from_utf8_lossy f) vs w
      | EOp o a b => '(x, w) ← eval n r w a; '(y, w) ← eval n r w b; Some (op_sem o x y, w)
      | ENot a => '(x, w) ← eval n r w a; Some (Z.lnot x, w)
      | ELoad p => '(x, w) ← eval n r w p; z ← mem_load w (wrap64 x); Some (z, w)
      | EString s => new_string (invoke n) s w
      end
  end
with evals (n : nat) (r : env) (w : W) (es : exprs) : option (list Z * W) :=
  match n with
  | O => None
  | S n =>
      match es with
      | ENil => Some ([], w)
      | ECons e es => '(v, w) ← eval n r w e; '(vs, w) ← evals n r w es; Some (v :: vs, w)
      end
  end
with exec (n : nat) (r : env) (w : W) (ss : stmts) : option out :=
  match n with
  | O => None
  | S n =>
      let continue o k := match o with Fall r w => exec n r w k | Ret z w => Some (Ret z w) end in
      match ss with
      | SNil => Some (Fall r w)
      | SReturn (EApp f args) _ =>
          '(vs, w) ← evals n r w args; '(z, w) ← apply (invoke n) true (from_utf8_lossy f) vs w; Some (Ret z w)
      | SReturn e _ => '(z, w) ← eval n r w e; Some (Ret z w)
      | SIf c t f k => '(v, w) ← eval n r w c; o ← exec n r w (if v =? 0 then f else t); continue o k
      | SWhile c b k =>
          '(v, w) ← eval n r w c;
          if v =? 0 then exec n r w k else o ← exec n r w b; continue o (SWhile c b k)
      | SSwitch c cs d k => '(v, w) ← eval n r w c; o ← exec n r w (select v cs d); continue o k
      | SLet x e k => '(v, w) ← eval n r w e; exec n (upd (from_utf8_lossy x) v r) w k
      | SStore p v k =>
          '(x, w) ← eval n r w p; '(y, w) ← eval n r w v; w ← mem_store I64 w (wrap64 x) y; exec n r w k
      | SExpr e k => '(_, w) ← eval n r w e; exec n r w k
      end
  end
with invoke (n : nat) (fid : func_id) (vs : list Z) (w : W) : option (Z * W) :=
  match n with
  | O => None
  | S n =>
      match functions fid with
      | None => native fid vs w
      | Some fd =>
          if bool_decide (length vs = length (fd_params fd)) then
            o ← exec n (bind_env (fd_params fd) vs) w (fd_body fd);
            match o with Fall _ w => Some (0, w) | Ret z w => Some (z, w) end
          else None
      end
  end.
End sem.
End CpsSem.
