(* ===== verification/CpsCorrect.v ===== *)
(** * The emitted code computes what the program means

    Expressions: the instructions emitted for an expression, run in a frame
    that agrees with the environment, leave its value in the result. *)

From S2P Require Import Prelude Cursor Text Auth Clif Symbols Cps CpsLang CpsFuse CpsProgram CpsWf CpsFunc CpsGate CpsSem.
Import Clif Cps CpsLang CpsFuse CpsProgram CpsWf CpsFunc CpsGate CpsSem.

Module CpsCorrect.

(** ** The documented behaviour of a Cranelift module

    A name is declared once and keeps its id, ids of different names differ, a
    definition gives the id its body. *)
Class ClifModuleLaws (J : Type) `{ClifModule J} := {
  sym : J → bytes → option func_id;
  body_of : J → func_id → option func;
  declare_Ok : ∀ n l a j j' fid, declare_function n l a j = (j', Ok fid) → sym j' n = Some fid;
  declare_sym : ∀ n l a j n' fid, sym j n' = Some fid → sym (declare_function n l a j).1 n' = Some fid;
  declare_body : ∀ n l a j fid, body_of (declare_function n l a j).1 fid = body_of j fid;
  sym_inj : ∀ j n n' fid, sym j n = Some fid → sym j n' = Some fid → n = n';
  define_sym : ∀ fid f j n, sym (define_function fid f j).1 n = sym j n;
  define_Ok : ∀ fid f j j' u fid', define_function fid f j = (j', Ok u) →
    body_of j' fid' = if decide (fid' = fid) then Some f else body_of j fid'
}.

Lemma wrap64_idem z : wrap64 (wrap64 z + 0) = wrap64 z.
Proof. rewrite Z.add_0_r. apply wrap64_id, wrap64_range. Qed.
Lemma wrap32_id z : - 2 ^ 31 ≤ z < 2 ^ 31 → wrap32 z = z.
Proof. unfold wrap32. intros Hz. rewrite Z.mod_small by lia. lia. Qed.

Section correct.
Context {J : Type} `{ClifModuleLaws J} {W : Type} `{Memory W}.
Variable clock : nat → Z.
Abbreviation cm := (stm (@cg J) bytes).
Abbreviation types s := (f_types (fb_func (c_fb s))).
Abbreviation nvals s := (length (f_types (fb_func (c_fb s)))).

(** The finished engine, the names of the binary, and the code that runs. *)
Variable jF : J.
Variable names : gmap bytes func_id.
Variable code : func_id → option func.
Variable native : callee W.

(** What a module declared stays declared to the end. *)
Definition later (s : @cg J) : Prop := ∀ n fid, sym (g_jit (c_g s)) n = Some fid → sym jF n = Some fid.

Lemma declares_sym j j' n fid : declares (J:=J) j j' → sym j n = Some fid → sym j' n = Some fid.
Proof. intros Hd. induction Hd as [|j1 j2 j3 (n' & l & a & ->) _ IH]; [done|]. intros Hs. by apply IH, declare_sym. Qed.
Lemma later_back s s' : declares (g_jit (c_g s)) (g_jit (c_g s')) → later s' → later s.
Proof. intros Hd Hl n fid Hs. eapply Hl, declares_sym, Hs. exact Hd. Qed.

(** ** Running straight-line code, each call with the fuel it needs *)
Definition xinst (i : inst) (fr : frame) (w : W) (fr' : frame) (w' : W) : Prop :=
  ∃ N, exec_inst (run code native N) i fr w = Some (fr', w').
Inductive xinsts : list inst → frame → W → frame → W → Prop :=
| xinsts_nil fr w : xinsts [] fr w fr w
| xinsts_cons i il fr w fr1 w1 fr2 w2 :
    xinst i fr w fr1 w1 → xinsts il fr1 w1 fr2 w2 → xinsts (i :: il) fr w fr2 w2.

Lemma xinsts_app il1 il2 fr w fr1 w1 fr2 w2 :
  xinsts il1 fr w fr1 w1 → xinsts il2 fr1 w1 fr2 w2 → xinsts (il1 ++ il2) fr w fr2 w2.
Proof. induction 1; intros; cbn; [done|]. econstructor; eauto. Qed.

(** From [s] to [s'] code was emitted that takes the frame from [fr] to [fr'],
    touching no variable and no earlier value. *)
Definition does (s s' : @cg J) (fr : frame) (w : W) (fr' : frame) (w' : W) : Prop :=
  (∃ il, emits s s' il ∧ xinsts il fr w fr' w') ∧ c_vars s' = c_vars s ∧
  fr_vars fr' = fr_vars fr ∧ ∀ u, (u < nvals s)%nat → fr_regs fr' !! u = fr_regs fr !! u.

Definition has (fr : frame) (s : @cg J) (v : value) (z : Z) : Prop :=
  fr_regs fr !! v = Some z ∧ (v < nvals s)%nat.

Lemma emits_nvals s s' il : emits s s' il → (nvals s ≤ nvals s')%nat.
Proof. intros He. apply prefix_length, He. Qed.

Lemma does_trans s1 s2 s3 fr1 w1 fr2 w2 fr3 w3 :
  does s1 s2 fr1 w1 fr2 w2 → does s2 s3 fr2 w2 fr3 w3 → does s1 s3 fr1 w1 fr3 w3.
Proof.
  intros ((il1 & He1 & Hx1) & Hc1 & Hv1 & Hr1) ((il2 & He2 & Hx2) & Hc2 & Hv2 & Hr2). split_and!; [|congruence..|].
  - exists (il1 ++ il2). split; [by eapply emits_trans|by eapply xinsts_app].
  - intros u Hu. rewrite Hr2, Hr1; [done|done|]. apply emits_nvals in He1. lia.
Qed.
Lemma does_refl s fr w : opened s → does s s fr w fr w.
Proof. intros [_ Ho]. split_and!; try done. exists []. split; [by apply emits_nil|constructor]. Qed.
Lemma does_opened s s' fr w fr' w' : does s s' fr w fr' w' → opened s → opened s'.
Proof. intros ((il & He & _) & _). by eapply emits_opened. Qed.
Lemma does_decl s s' fr w fr' w' : does s s' fr w fr' w' → declares (g_jit (c_g s)) (g_jit (c_g s')).
Proof. intros ((il & He & _) & _). apply He. Qed.
Lemma has_does fr s v z s' w fr' w' : has fr s v z → does s s' fr w fr' w' → has fr' s' v z.
Proof.
  intros [Hr Hv] ((il & He & _) & _ & _ & Hk). split; [by rewrite Hk|]. apply emits_nvals in He. lia.
Qed.

(** ** Primitive operations *)
Lemma ins_emits t mk s s' v :
  opened s → ins t mk s = (s', Ok v) →
  emits s s' [mk v] ∧ v = nvals s ∧ nvals s' = S (nvals s) ∧ c_vars s' = c_vars s ∧ c_g s' = c_g s.
Proof.
  intros [Hl (c & k & Ho)]. unfold ins, push_inst. cbn [new_value].
  match goal with |- context [current ?b] => assert (current b = Some (c, k)) as -> end.
  { destruct Ho as (Hc & Hk & Ht). unfold current, is_filled. cbn. rewrite Hc. cbn. rewrite Hk. cbn. by rewrite Ht. }
  cbn. intros [= <- <-]. split_and!; [|done|cbn; rewrite length_app; cbn; lia|done..].
  split; cbn; try reflexivity; [exists c, k; by destruct Ho as (? & ? & ?)|by apply prefix_app_r|done].
Qed.

Lemma ex_ins t mk s s' v fr w w' z :
  opened s → ins t mk s = (s', Ok v) → (∀ d, xinst (mk d) fr w (set_reg d z fr) w') →
  ∃ fr', does s s' fr w fr' w' ∧ has fr' s' v z.
Proof.
  intros Ho Hi Hx. destruct (ins_emits _ _ _ _ _ Ho Hi) as (He & -> & Hn & Hv & _).
  exists (set_reg (nvals s) z fr). split; [|split; [apply lookup_insert_eq|lia]]. split_and!; [|done..|].
  - exists [mk (nvals s)]. split; [done|]. econstructor; [apply Hx|constructor].
  - intros u Hu. cbn. rewrite lookup_insert_ne; [done|lia].
Qed.

(** An instruction that does not call runs at any fuel. *)
Lemma xinst_pure i fr w fr' w' : exec_inst (run code native 0) i fr w = Some (fr', w') → xinst i fr w fr' w'.
Proof. by exists 0%nat. Qed.

Lemma ex_iconst t z s s' v fr w :
  opened s → iconst t z s = (s', Ok v) → ∃ fr', does s s' fr w fr' w ∧ has fr' s' v z.
Proof. intros Ho Hi. eapply ex_ins; [done|exact Hi|]. intros d. by apply xinst_pure. Qed.
Lemma ex_bin op a b x y s s' v fr w :
  opened s → bin op a b s = (s', Ok v) → has fr s a x → has fr s b y →
  ∃ fr', does s s' fr w fr' w ∧ has fr' s' v (bin_sem op x y).
Proof. intros Ho Hi [Ha _] [Hb _]. eapply ex_ins; [done|exact Hi|]. intros d. apply xinst_pure. cbn. by rewrite Ha, Hb. Qed.
Lemma ex_bnot a x s s' v fr w :
  opened s → bnot a s = (s', Ok v) → has fr s a x → ∃ fr', does s s' fr w fr' w ∧ has fr' s' v (Z.lnot x).
Proof. intros Ho Hi [Ha _]. eapply ex_ins; [done|exact Hi|]. intros d. apply xinst_pure. cbn. by rewrite Ha. Qed.
Lemma ex_icmp cc a b x y s s' v fr w :
  opened s → icmp cc a b s = (s', Ok v) → has fr s a x → has fr s b y →
  ∃ fr', does s s' fr w fr' w ∧ has fr' s' v (Z.b2z (cc_sem cc x y)).
Proof. intros Ho Hi [Ha _] [Hb _]. eapply ex_ins; [done|exact Hi|]. intros d. apply xinst_pure. cbn. by rewrite Ha, Hb. Qed.
Lemma ex_uextend a x s s' v fr w :
  opened s → uextend a s = (s', Ok v) → has fr s a x → ∃ fr', does s s' fr w fr' w ∧ has fr' s' v (x mod 2 ^ 8).
Proof. intros Ho Hi [Ha _]. eapply ex_ins; [done|exact Hi|]. intros d. apply xinst_pure. cbn. by rewrite Ha. Qed.
Lemma ex_load a o x z s s' v fr w :
  opened s → load a o s = (s', Ok v) → has fr s a x → mem_load w (wrap64 (x + o)) = Some z →
  ∃ fr', does s s' fr w fr' w ∧ has fr' s' v z.
Proof. intros Ho Hi [Ha _] Hm. eapply ex_ins; [done|exact Hi|]. intros d. apply xinst_pure. cbn. rewrite Ha. cbn. by rewrite Hm. Qed.
Lemma ex_use y s s' v fr w :
  opened s → use_var y s = (s', Ok v) → ∃ fr', does s s' fr w fr' w ∧ has fr' s' v (default 0 (fr_vars fr !! y)).
Proof. intros Ho Hi. eapply ex_ins; [done|exact Hi|]. intros d. by apply xinst_pure. Qed.

Lemma push_emits i s s' :
  opened s → fbop (push_inst i) s = (s', Ok ()) →
  emits s s' [i] ∧ c_vars s' = c_vars s ∧ types s' = types s ∧ c_g s' = c_g s.
Proof.
  intros [Hl (c & k & Ho)]. unfold fbop, push_inst. rewrite (current_opened s c k Ho). cbn. intros [= <-].
  split; [|done]. split; cbn; try reflexivity; [|done]. exists c, k. by destruct Ho as (? & ? & ?).
Qed.
Lemma ex_store t a p o x y s s' fr w w' :
  opened s → store t a p o s = (s', Ok ()) → has fr s a x → has fr s p y →
  mem_store t w (wrap64 (y + wrap32 o)) x = Some w' → does s s' fr w fr w'.
Proof.
  intros Ho Hi [Ha _] [Hp _] Hm. destruct (push_emits _ _ _ Ho Hi) as (He & Hv & _). split_and!; [|done..].
  eexists. split; [exact He|]. econstructor; [|constructor]. apply xinst_pure. cbn. rewrite Ha. cbn. rewrite Hp. cbn. by rewrite Hm.
Qed.

Lemma mapM_has fr s vs zs : Forall2 (has fr s) vs zs → mapM (λ v, fr_regs fr !! v) vs = Some zs.
Proof. induction 1 as [|v z vs zs [Hv _] _ IH]; cbn; [done|]. rewrite Hv. cbn. by rewrite IH. Qed.

Lemma ex_call f vs zs z s s' l fr w w' N :
  opened s → call f vs s = (s', Ok l) → Forall2 (has fr s) vs zs → run code native N f zs w = Some (z, w') →
  ∃ d fr', l = [d] ∧ does s s' fr w fr' w' ∧ has fr' s' d z.
Proof.
  intros Ho Hi Hvs Hr. unfold call in Hi. apply bind_inv_ok in Hi as (s1 & d & Hi & E). injection E as <- <-.
  edestruct (ex_ins _ _ _ _ _ fr w w' z Ho Hi) as (fr' & Hd & Hh); [|by exists d, fr'].
  intros e. exists N. cbn. rewrite (mapM_has _ _ _ _ Hvs). cbn. by rewrite Hr.
Qed.

(** Declarations and checks emit nothing. *)
Lemma ing_emits {A} (m : stm (@globals J) bytes A) s s' a :
  opened s → ing m s = (s', Ok a) → declares (g_jit (c_g s)) (g_jit (c_g s')) →
  (quiet (g_auth (c_g s)) → quiet (g_auth (c_g s'))) →
  emits s s' [] ∧ c_vars s' = c_vars s ∧ types s' = types s ∧ m (c_g s) = (c_g s', Ok a).
Proof.
  intros [Hl (c & k & Hc & Hk & Ht)]. unfold ing. destruct (m (c_g s)) as [g r]. intros [= <- ->] Hd Hq. cbn in Hd, Hq.
  split_and!; [|done..]. split; cbn; try reflexivity; [|done..]. exists c, k. split_and!; [done..|].
  rewrite app_nil_r. symmetry. apply list_insert_id. rewrite Hk. f_equal. destruct k; cbn in *. by subst.
Qed.

Lemma nop_does s s' fr w :
  emits s s' [] ∧ c_vars s' = c_vars s → does s s' fr w fr w.
Proof. intros [He Hv]. split_and!; try done. exists []. split; [done|constructor]. Qed.

Lemma ex_declare wh n l a s s' fid fr w :
  opened s → ing (declare_or wh n l a) s = (s', Ok fid) →
  does s s' fr w fr w ∧ sym (g_jit (c_g s')) n = Some fid.
Proof.
  intros Ho E.
  assert (declares (g_jit (c_g s)) (g_jit (c_g s')) ∧ (quiet (g_auth (c_g s)) → quiet (g_auth (c_g s'))) ∧
          sym (g_jit (c_g s')) n = Some fid) as (Hd & Hq & Hs).
  { unfold ing, declare_or, with_jit in E. destruct (declare_function n l a (g_jit (c_g s))) as [j r] eqn:Ej.
    injection E as <- Hr. cbn. split_and!; [|done|].
    - apply rtc_once. exists n, l, a. by rewrite Ej.
    - destruct r as [f|e|]; cbn in Hr; [|done..]. injection Hr as <-. by eapply declare_Ok. }
  split; [|done]. apply nop_does. by destruct (ing_emits _ _ _ _ Ho E Hd Hq) as (? & ? & _).
Qed.
Lemma ex_check c m f s s' u fr w :
  opened s → ing (check_call_permission clock c m f) s = (s', Ok u) → does s s' fr w fr w.
Proof.
  intros Ho E. apply nop_does.
  assert (declares (g_jit (c_g s)) (g_jit (c_g s')) ∧ (quiet (g_auth (c_g s)) → quiet (g_auth (c_g s')))) as (Hd & Hq).
  { unfold ing, check_call_permission in E. destruct (is_gated c f); [|by injection E as <- _].
    destruct (Auth.check _ _ _ _ _) as [a r] eqn:Ec. injection E as <- _. cbn. split; [reflexivity|].
    intros Hq. by eapply check_quiet. }
  by destruct (ing_emits _ _ _ _ Ho E Hd Hq) as (? & ? & _).
Qed.

Lemma arg_inv vs i s s' v fr (zs : list Z) :
  arg (J:=J) vs i s = (s', Ok v) → Forall2 (has fr s) vs zs →
  s' = s ∧ ∃ z, zs !! Z.to_nat i = Some z ∧ has fr s v z.
Proof.
  unfold arg, stm_lift, index_p. destruct (0 <=? i); [|done].
  destruct (vs !! Z.to_nat i) as [v'|] eqn:Hv; [|done]. intros [= <- <-] HF. split; [done|].
  destruct (Forall2_lookup_l _ _ _ _ _ HF Hv) as (z & Hz & Hh). eauto.
Qed.
Lemma all_has fr s vs zs s' w fr' w' :
  Forall2 (has fr s) vs zs → does s s' fr w fr' w' → Forall2 (has fr' s') vs zs.
Proof. intros HF Hd. eapply Forall2_impl; [exact HF|]. intros v z Hh. by eapply has_does. Qed.

(** ** Built-in callees *)
Abbreviation symF := (sym jF).

(** A source-level callee is simulated by running the code. *)
Definition sims (c : callee W) : Prop :=
  ∀ fid vs w r, c fid vs w = Some r → ∃ N, run code native N fid vs w = Some r.

Lemma later_of {A} x (m : cm A) fs s s' a : permits clock x m fs → m s = (s', Ok a) → later s' → later s.
Proof. intros Hp E. by destruct (Hp _ _ _ E) as (_ & Hd & _); apply later_back. Qed.

Lemma ex_alloc c v size s s' p fr w z w' :
  sims c → opened s → alloc v s = (s', Ok p) → later s' → has fr s v size →
  new_object symF c size w = Some (z, w') →
  ∃ fr', does s s' fr w fr' w' ∧ has fr' s' p z.
Proof.
  intros Hc Ho E Hl Hv Hn. unfold alloc in E. apply bind_inv_ok in E as (s1 & fid & E1 & E).
  destruct (ex_declare _ _ _ _ _ _ _ fr w Ho E1) as [Hd1 Hs1]. pose proof (does_opened _ _ _ _ _ _ Hd1 Ho) as Ho1.
  apply bind_inv_ok in E as (s2 & l & E2 & E).
  unfold new_object in Hn. apply bind_Some in Hn as (fid' & Hf & Hn).
  assert (fid' = fid) as ->.
  { assert (s' = s2) as -> by (unfold arg, stm_lift in E; by injection E as <- _).
    assert (declares (g_jit (c_g s1)) (g_jit (c_g s2))) as Hd2.
    { unfold call in E2. apply bind_inv_ok in E2 as (s3 & d & E2 & E3). injection E3 as <- _.
      by apply (ins_emits _ _ _ _ _ Ho1) in E2 as (He & _); apply He. }
    pose proof (later_back _ _ Hd2 Hl _ _ Hs1). congruence. }
  apply Hc in Hn as [N Hn]. destruct (ex_call fid [v] [size] z s1 s2 l fr w w' N) as (d & fr' & -> & Hd2 & Hh); [done|done| |done|].
  { constructor; [by eapply has_does|constructor]. }
  apply (arg_inv [d] 0 s2 s' p fr' [z]) in E as [-> (z' & [= <-] & Hh')]; [|constructor; [exact Hh|constructor]].
  exists fr'. split; [by eapply does_trans|done].
Qed.

Lemma ex_store_fields vs : ∀ zs ptr p i s s' fr w w',
  opened s → store_fields ptr i vs s = (s', Ok ()) → has fr s ptr p → Forall2 (has fr s) vs zs →
  0 ≤ i - 1 → i - 1 + Zlen vs < 2 ^ 28 →
  store_words w p (i - 1) zs = Some w' → does s s' fr w fr w'.
Proof.
  induction vs as [|v vs IH]; intros zs ptr p i s s' fr w w' Ho E Hp HF Hi Hb Hw; inversion HF as [|? z ? zs' Hv HF']; subst.
  - injection E as <-. injection Hw as <-. by apply does_refl.
  - cbn [store_fields] in E. apply bind_inv_ok in E as (s1 & [] & E1 & E). cbn [store_words] in Hw.
    apply bind_Some in Hw as (w1 & Hw1 & Hw). cbn [length] in Hb.
    assert (does s s1 fr w fr w1) as Hd.
    { eapply ex_store; [done|exact E1|done|done|]. rewrite wrap32_id by lia. by replace ((i - 1) * 8) with (8 * (i - 1)) by lia. }
    eapply does_trans; [exact Hd|]. eapply (IH zs'); [by eapply does_opened|exact E|by eapply has_does|by eapply all_has|lia|lia|].
    by replace (i + 1 - 1) with (i - 1 + 1) by lia.
Qed.
Lemma ex_store_bytes bs : ∀ ptr p i s s' fr w w',
  opened s → store_bytes ptr i bs s = (s', Ok ()) → has fr s ptr p → 0 ≤ i → i + Zlen bs < 2 ^ 28 →
  store_data w p i bs = Some w' → ∃ fr', does s s' fr w fr' w'.
Proof.
  induction bs as [|b bs IH]; intros ptr p i s s' fr w w' Ho E Hp Hi Hb Hw.
  - injection E as <-. injection Hw as <-. exists fr. by apply does_refl.
  - cbn [store_bytes] in E. apply bind_inv_ok in E as (s1 & v & E1 & E). apply bind_inv_ok in E as (s2 & [] & E2 & E).
    cbn [store_data] in Hw. apply bind_Some in Hw as (w1 & Hw1 & Hw). cbn [length] in Hb.
    destruct (ex_iconst _ _ _ _ _ fr w Ho E1) as (fr1 & Hd1 & Hh1). pose proof (does_opened _ _ _ _ _ _ Hd1 Ho) as Ho1.
    assert (does s1 s2 fr1 w fr1 w1) as Hd2.
    { eapply ex_store; [done|exact E2|exact Hh1|by eapply has_does|]. by rewrite wrap32_id by lia. }
    destruct (IH ptr p (i + 1) s2 s' fr1 w1 w') as (fr' & Hd3); [by eapply does_opened|done| |lia|lia|done|].
    { eapply has_does; [|exact Hd2]. by eapply has_does. }
    exists fr'. eapply does_trans; [exact Hd1|]. by eapply does_trans.
Qed.

Section app.
Variable x : ectx.
Hypothesis Hx_names : x_name_map x = names.
Hypothesis Hx_imports : x_import_map x = ∅.
Variable c : callee W.
Hypothesis Hsim : sims c.

Lemma ex_slot_get vs zs s s' v fr w z w' :
  opened s → slot_get vs s = (s', Ok v) → Forall2 (has fr s) vs zs →
  (p ← zs !! 0%nat; o ← zs !! 1%nat; z ← mem_load w (wrap64 (p + o)); Some (z, w)) = Some (z, w') →
  ∃ fr', does s s' fr w fr' w' ∧ has fr' s' v z.
Proof.
  intros Ho E HF Hm. unfold slot_get in E. apply bind_inv_ok in E as (s1 & p & E1 & E).
  apply (arg_inv _ _ _ _ _ fr zs) in E1 as [-> (zp & Hp & Hhp)]; [|done].
  apply bind_inv_ok in E as (s2 & o & E2 & E). apply (arg_inv _ _ _ _ _ fr zs) in E2 as [-> (zo & Hzo & Hho)]; [|done].
  apply bind_inv_ok in E as (s3 & a & E3 & E). 
  change (Z.to_nat 0) with 0%nat in Hp. change (Z.to_nat 1) with 1%nat in Hzo.
  rewrite Hp in Hm. cbn [mbind option_bind] in Hm. rewrite Hzo in Hm. cbn [mbind option_bind] in Hm.
  apply bind_Some in Hm as (z' & Hm & [= -> <-]).
  destruct (ex_bin Iadd p o zp zo s s3 a fr w Ho E3 Hhp Hho) as (fr1 & Hd1 & Hh1).
  destruct (ex_load a 0 (bin_sem Iadd zp zo) z s3 s' v fr1 w) as (fr2 & Hd2 & Hh2);
    [by eapply does_opened|done|done|unfold bin_sem; by rewrite wrap64_idem|].
  exists fr2. split; [by eapply does_trans|done].
Qed.

(** Allocate, then store the words after the size. *)
Lemma ex_object vs zs size v s s1 s' ptr fr w z w' :
  opened s → alloc v s = (s1, Ok ptr) → store_fields ptr 1 vs s1 = (s', Ok ()) → later s' →
  has fr s v size → Forall2 (has fr s) vs zs → Zlen vs < 2 ^ 28 →
  ('(p, w) ← new_object symF c size w; w ← store_words w p 0 zs; Some (p, w)) = Some (z, w') →
  ∃ fr', does s s' fr w fr' w' ∧ has fr' s' ptr z.
Proof.
  intros Ho E1 E2 Hl Hv HF Hb Hm. apply bind_Some in Hm as ([p w1] & Hn & Hm). apply bind_Some in Hm as (w2 & Hw & [= -> ->]).
  destruct (ex_alloc c v size s s1 ptr fr w z w1) as (fr1 & Hd1 & Hh1); try done.
  { eapply (later_of x); [apply permits_store_fields|exact E2|done]. }
  assert (does s1 s' fr1 w1 fr1 w') as Hd2.
  { eapply (ex_store_fields vs zs); [by eapply does_opened|exact E2|done|by eapply all_has|lia|lia|done]. }
  exists fr1. split; [by eapply does_trans|by eapply has_does].
Qed.

Lemma ex_record_new vs zs s s' v fr w z w' :
  opened s → record_new vs s = (s', Ok v) → later s' → Forall2 (has fr s) vs zs → Zlen vs < 2 ^ 28 →
  (size ← zs !! 0%nat; '(p, w) ← new_object symF c size w; w ← store_words w p 0 (drop 1 zs); Some (p, w)) = Some (z, w') →
  ∃ fr', does s s' fr w fr' w' ∧ has fr' s' v z.
Proof.
  intros Ho E Hl HF Hb Hm. unfold record_new in E. apply bind_inv_ok in E as (s1 & sz & E1 & E).
  apply (arg_inv _ _ _ _ _ fr zs) in E1 as [-> (size & Hsz & Hh)]; [|done]. change (Z.to_nat 0) with 0%nat in Hsz. rewrite Hsz in Hm. cbn [mbind option_bind] in Hm.
  apply bind_inv_ok in E as (s2 & ptr & E2 & E). apply bind_inv_ok in E as (s3 & [] & E3 & E). injection E as <- <-.
  eapply ex_object; [done|exact E2|exact E3|done|exact Hh|by apply Forall2_drop| |exact Hm].
  rewrite length_drop. lia.
Qed.

Lemma ex_union_new vs zs s s' v fr w z w' :
  opened s → union_new vs s = (s', Ok v) → later s' → Forall2 (has fr s) vs zs → Zlen vs < 2 ^ 28 →
  (size ← zs !! 0%nat; _ ← zs !! 1%nat; '(p, w) ← new_object symF c size w;
   w ← store_words w p 0 (drop 1 zs); Some (p, w)) = Some (z, w') →
  ∃ fr', does s s' fr w fr' w' ∧ has fr' s' v z.
Proof.
  intros Ho E Hl HF Hb Hm. unfold union_new in E. apply bind_inv_ok in E as (s1 & sz & E1 & E).
  apply (arg_inv _ _ _ _ _ fr zs) in E1 as [-> (size & Hsz & Hh)]; [|done]. change (Z.to_nat 0) with 0%nat in Hsz. rewrite Hsz in Hm. cbn [mbind option_bind] in Hm.
  apply bind_inv_ok in E as (s2 & tag & E2 & E). apply (arg_inv _ _ _ _ _ fr zs) in E2 as [-> (zt & Hzt & Hht)]; [|done].
  change (Z.to_nat 1) with 1%nat in Hzt. rewrite Hzt in Hm. cbn [mbind option_bind] in Hm.
  apply bind_inv_ok in E as (s3 & ptr & E3 & E). apply bind_inv_ok in E as (s4 & [] & E4 & E).
  apply bind_inv_ok in E as (s5 & [] & E5 & E). injection E as <- <-.
  destruct zs as [|z0 [|z1 zs]]; [done..|]. injection Hsz as ->. injection Hzt as ->. inversion HF as [|v0 ? vs0 ? ? HF1]; subst.
  inversion HF1 as [|v1 ? vs1 ? ? HF2]; subst. cbn [drop] in *.
  eapply (ex_object (tag :: vs1)); [done|exact E3| |done|exact Hh| |cbn [length] in *; lia|exact Hm].
  - cbn [store_fields]. rewrite (bind_ok _ _ _ _ _ E4). exact E5.
  - by constructor.
Qed.

Lemma ex_func_ref f n s s' fid fr w :
  opened s → func_ref x f n s = (s', Ok fid) → later s' → does s s' fr w fr w ∧ resolve names symF f = Some fid.
Proof.
  intros Ho E Hl. unfold func_ref in E. rewrite Hx_names, Hx_imports, lookup_empty in E. unfold resolve.
  destruct (names !! f) as [fid'|]; [injection E as <- <-; split; [by apply does_refl|done]|].
  unfold declare_import in E. destruct (ex_declare _ _ _ _ _ _ _ fr w Ho E) as [Hd Hs]. split; [done|]. by apply Hl.
Qed.

(** What an application does once it is checked. *)
Lemma ex_app f vs zs s s' v fr w z w' :
  opened s → emit_app clock x f vs s = (s', Ok v) → later s' → Forall2 (has fr s) vs zs → Zlen vs < 2 ^ 28 →
  apply names symF c false f zs w = Some (z, w') →
  ∃ fr', does s s' fr w fr' w' ∧ has fr' s' v z.
Proof.
  intros Ho E Hl HF Hb Hm. unfold emit_app in E. apply bind_inv_ok in E as (s1 & u & E1 & E).
  pose proof (ex_check _ _ _ _ _ _ fr w Ho E1) as Hd1. pose proof (does_opened _ _ _ _ _ _ Hd1 Ho) as Ho1.
  pose proof (all_has _ _ _ _ _ _ _ _ HF Hd1) as HF1. unfold apply in Hm. cbn [negb andb] in Hm.
  assert (∀ fr', does s1 s' fr w fr' w' ∧ has fr' s' v z → ∃ fr', does s s' fr w fr' w' ∧ has fr' s' v z) as Hfin.
  { intros fr' [Hd Hh]. exists fr'. split; [by eapply does_trans|done]. }
  destruct (is_slot_get f).
  { destruct (ex_slot_get vs zs s1 s' v fr w z w' Ho1 E HF1 Hm) as (fr' & ?). by eapply Hfin. }
  case_bool_decide as Hr; [destruct (ex_record_new vs zs s1 s' v fr w z w' Ho1 E Hl HF1 Hb Hm) as (fr' & ?); by eapply Hfin|].
  case_bool_decide as Hun; [destruct (ex_union_new vs zs s1 s' v fr w z w' Ho1 E Hl HF1 Hb Hm) as (fr' & ?); by eapply Hfin|].
  apply bind_inv_ok in E as (s2 & fid & E2 & E). apply bind_inv_ok in E as (s3 & l & E3 & E).
  apply bind_Some in Hm as (fid' & Hf & Hm).
  assert (later s2) as Hl2.
  { eapply (later_of x); [apply permits_call|exact E3|]. destruct l as [|v0 l]; [|by injection E as <- _].
    eapply (later_of x); [apply permits_ins|exact E|done]. }
  destruct (ex_func_ref f (length vs) s1 s2 fid fr w Ho1 E2 Hl2) as [Hd2 Hf2]. assert (fid' = fid) as -> by congruence.
  apply Hsim in Hm as [N Hm].
  destruct (ex_call fid vs zs z s2 s3 l fr w w' N) as (d & fr' & -> & Hd3 & Hh);
    [by eapply does_opened|done|by eapply all_has|done|].
  injection E as <- <-. apply (Hfin fr'). split; [by eapply does_trans|done].
Qed.

Lemma ex_string bs s s' v fr w z w' :
  opened s → emit_string bs s = (s', Ok v) → later s' → Zlen bs < 2 ^ 28 →
  new_string symF c bs w = Some (z, w') →
  ∃ fr', does s s' fr w fr' w' ∧ has fr' s' v z.
Proof.
  intros Ho E Hl Hb Hm. unfold new_string in Hm.
  apply bind_Some in Hm as ([d w1] & Hn1 & Hm). apply bind_Some in Hm as (w2 & Hw2 & Hm).
  apply bind_Some in Hm as ([p w3] & Hn2 & Hm). apply bind_Some in Hm as (w4 & Hw4 & [= -> ->]).
  unfold new_object in Hn1, Hn2. apply bind_Some in Hn1 as (fid & Hfid & Hn1). rewrite Hfid in Hn2. cbn [mbind option_bind] in Hn2.
  apply Hsim in Hn1 as [N1 Hn1]. apply Hsim in Hn2 as [N2 Hn2].
  cbn [store_words] in Hw4. apply bind_Some in Hw4 as (w5 & Hw5 & Hw4). apply bind_Some in Hw4 as (w6 & Hw6 & [= ->]).
  unfold emit_string in E. apply bind_inv_ok in E as (s1 & fid' & E1 & E).
  apply bind_inv_ok in E as (s2 & ds & E2 & E). apply bind_inv_ok in E as (s3 & l1 & E3 & E).
  apply bind_inv_ok in E as (s4 & dp & E4 & E). apply bind_inv_ok in E as (s5 & [] & E5 & E).
  apply bind_inv_ok in E as (s6 & ss & E6 & E). apply bind_inv_ok in E as (s7 & l2 & E7 & E).
  apply bind_inv_ok in E as (s8 & sp & E8 & E). apply bind_inv_ok in E as (s9 & lv & E9 & E).
  apply bind_inv_ok in E as (s10 & [] & E10 & E). apply bind_inv_ok in E as (s11 & [] & E11 & E). injection E as <- <-.
  destruct (ex_declare _ _ _ _ _ _ _ fr w Ho E1) as [Hd1 Hs1]. pose proof (does_opened _ _ _ _ _ _ Hd1 Ho) as Ho1.
  destruct (ex_iconst _ _ _ _ _ fr w Ho1 E2) as (fr2 & Hd2 & Hh2). pose proof (does_opened _ _ _ _ _ _ Hd2 Ho1) as Ho2.
  assert (fid' = fid) as ->.
  { assert (later s1) as Hl1; [|specialize (Hl1 _ _ Hs1); congruence].
    eapply (later_of x); [apply permits_ins|exact E2|]. eapply (later_of x); [apply permits_call|exact E3|].
    eapply (later_of x); [apply permits_lift|exact E4|]. eapply (later_of x); [apply permits_store_bytes|exact E5|].
    eapply (later_of x); [apply permits_ins|exact E6|]. eapply (later_of x); [apply permits_call|exact E7|].
    eapply (later_of x); [apply permits_lift|exact E8|]. eapply (later_of x); [apply permits_ins|exact E9|].
    eapply (later_of x); [apply permits_fbop|exact E10|]. by eapply (later_of x); [apply permits_fbop|exact E11|]. }
  destruct (ex_call fid [ds] [Z.max (Zlen bs) 1] d s2 s3 l1 fr2 w w1 N1) as (d3 & fr3 & -> & Hd3 & Hh3);
    [done|done|constructor; [done|constructor]|done|]. pose proof (does_opened _ _ _ _ _ _ Hd3 Ho2) as Ho3.
  apply (arg_inv _ _ _ _ _ fr3 [d]) in E4 as [-> (d' & [= <-] & Hh4)]; [|constructor; [done|constructor]].
  destruct (ex_store_bytes bs dp d 0 s3 s5 fr3 w1 w2 Ho3 E5 Hh4) as (fr5 & Hd5); [lia|lia|done|].
  pose proof (does_opened _ _ _ _ _ _ Hd5 Ho3) as Ho5.
  destruct (ex_iconst _ _ _ _ _ fr5 w2 Ho5 E6) as (fr6 & Hd6 & Hh6). pose proof (does_opened _ _ _ _ _ _ Hd6 Ho5) as Ho6.
  destruct (ex_call fid [ss] [16] z s6 s7 l2 fr6 w2 w3 N2) as (d7 & fr7 & -> & Hd7 & Hh7);
    [done|done|constructor; [done|constructor]|done|]. pose proof (does_opened _ _ _ _ _ _ Hd7 Ho6) as Ho7.
  apply (arg_inv _ _ _ _ _ fr7 [z]) in E8 as [-> (z' & [= <-] & Hh8)]; [|constructor; [done|constructor]].
  destruct (ex_iconst _ _ _ _ _ fr7 w3 Ho7 E9) as (fr9 & Hd9 & Hh9). pose proof (does_opened _ _ _ _ _ _ Hd9 Ho7) as Ho9.
  assert (has fr9 s9 dp d) as Hdp.
  { eapply has_does; [|exact Hd9]. eapply has_does; [|exact Hd7]. eapply has_does; [|exact Hd6]. by eapply has_does. }
  assert (has fr9 s9 sp z) as Hsp by (by eapply has_does).
  assert (does s9 s10 fr9 w3 fr9 w5) as Hd10 by (eapply ex_store; [done|exact E10|exact Hdp|exact Hsp|exact Hw5]).
  assert (does s10 s11 fr9 w5 fr9 w') as Hd11.
  { eapply ex_store; [by eapply does_opened|exact E11|by eapply has_does|by eapply has_does|exact Hw6]. }
  exists fr9. split; [|eapply has_does; [|exact Hd11]; by eapply has_does].
  do 8 (eapply does_trans; [eassumption|]). done.
Qed.

Lemma ex_cop o a b p q s s' v fr w :
  opened s → cop o a b s = (s', Ok v) → has fr s a p → has fr s b q →
  ∃ fr', does s s' fr w fr' w ∧ has fr' s' v (op_sem o p q).
Proof.
  intros Ho E Ha Hb. destruct o; cbn [cop op_sem] in *; [by eapply (ex_bin Iadd)|by eapply (ex_bin Isub)|by eapply (ex_bin Imul)|].
  unfold emit_cmp in E. apply bind_inv_ok in E as (s1 & k & E1 & E).
  destruct (ex_icmp cc a b p q s s1 k fr w Ho E1 Ha Hb) as (fr1 & Hd1 & Hh1).
  destruct (ex_uextend k _ s1 s' v fr1 w (does_opened _ _ _ _ _ _ Hd1 Ho) E Hh1) as (fr2 & Hd2 & Hh2).
  exists fr2. split; [by eapply does_trans|]. by destruct (cc_sem cc p q).
Qed.

Lemma ex_nonzero a p s s' v fr w :
  opened s → nonzero a s = (s', Ok v) → has fr s a p →
  ∃ fr', does s s' fr w fr' w ∧ has fr' s' v (Z.b2z (negb (p =? 0))).
Proof.
  intros Ho E Ha. unfold nonzero in E. apply bind_inv_ok in E as (s1 & k & E1 & E).
  destruct (ex_iconst _ _ _ _ _ fr w Ho E1) as (fr1 & Hd1 & Hh1).
  destruct (ex_icmp NotEqual a k p 0 s1 s' v fr1 w) as (fr2 & Hd2 & Hh2); [by eapply does_opened|done|by eapply has_does|done|].
  exists fr2. split; [by eapply does_trans|done].
Qed.
End app.

(** ** Expressions *)
Definition agree (V : gmap bytes variable) (r : env) (fr : frame) : Prop :=
  ∀ y k, V !! y = Some k → default 0 (fr_vars fr !! k) = get r y.

Lemma elen_enc es : (elen es ≤ length (enc_exprs es))%nat.
Proof.
  induction es as [|e es IH] using exprs_list_ind; cbn [elen enc_exprs enc_expr]; [lia|].
  rewrite length_app. pose proof (enc_expr_pos e). lia.
Qed.

Section sim.
Variable functions : func_id → option fdef.
(** The functions without a CPS body, as the source sees them. *)
Variable ext : callee W.

Abbreviation eval := (eval names symF functions ext).
Abbreviation evals := (evals names symF functions ext).
Abbreviation exec := (exec names symF functions ext).
Abbreviation invoke := (invoke names symF functions ext).

Definition fits_ctx (x : ectx) : Prop := x_name_map x = names ∧ x_import_map x = ∅.

Definition sim_expr (n : nat) : Prop :=
  ∀ x e s s' v V r w z w' fr,
    fits_ctx x → Zlen (enc_expr e) < 2 ^ 28 → opened s → cexpr clock x e s = (s', Ok v) → later s' →
    c_vars s ⊆ V → agree V r fr → eval n r w e = Some (z, w') →
    ∃ fr', does s s' fr w fr' w' ∧ has fr' s' v z.
Definition sim_exprs (n : nat) : Prop :=
  ∀ x es s s' vs V r w zs w' fr,
    fits_ctx x → Zlen (enc_exprs es) < 2 ^ 28 → opened s → cexprs clock x es s = (s', Ok vs) → later s' →
    c_vars s ⊆ V → agree V r fr → evals n r w es = Some (zs, w') →
    ∃ fr', does s s' fr w fr' w' ∧ Forall2 (has fr' s') vs zs ∧ length vs = elen es.

Lemma does_vars s s' fr w fr' w' V r :
  does s s' fr w fr' w' → c_vars s ⊆ V → agree V r fr → c_vars s' ⊆ V ∧ agree V r fr'.
Proof. intros (_ & Hv & Hf & _) Hsub Ha. rewrite Hv. split; [done|]. intros y k Hy. rewrite Hf. by apply Ha. Qed.

Lemma sim_expr_S n : sims (invoke n) → sim_expr n → sim_exprs n → sim_expr (S n).
Proof.
  intros Hc IH IHs x e s s' v V r w z w' fr [Hx1 Hx2] Hb Ho E Hl HV Ha Hev.
  destruct e as [k|y|f args|o a b|a|p|bs]; cbn [cexpr cexprs CpsSem.eval enc_expr length] in *.
  - injection Hev as <- <-. by eapply ex_iconst.
  - injection Hev as <- <-. unfold emit_var in E. destruct (c_vars s !! from_utf8_lossy y) as [vr|] eqn:Ey; [|done].
    destruct (ex_use vr s s' v fr w Ho E) as (fr' & Hd & Hh). exists fr'. split; [done|].
    rewrite (Ha (from_utf8_lossy y)) in Hh; [done|]. by eapply lookup_weaken.
  - apply bind_inv_ok in E as (s1 & vs & E1 & E). apply bind_Some in Hev as ([zs w1] & He1 & Hev). rewrite !length_app in Hb.
    pose proof (elen_enc args) as Hlen.
    destruct (IHs x args s s1 vs V r w zs w1 fr) as (fr1 & Hd1 & HF & Hl1); try done; [lia| |].
    { eapply (later_of x); [apply permits_app|exact E|done]. }
    destruct (ex_app x Hx1 Hx2 (invoke n) Hc (from_utf8_lossy f) vs zs s1 s' v fr1 w1 z w') as (fr2 & Hd2 & Hh); try done;
      [by eapply does_opened|lia|]. exists fr2. split; [by eapply does_trans|done].
  - apply bind_inv_ok in E as (s1 & va & E1 & E). apply bind_inv_ok in E as (s2 & vb & E2 & E). rewrite length_app in Hb.
    apply bind_Some in Hev as ([za w1] & He1 & Hev). apply bind_Some in Hev as ([zb w2] & He2 & [= <- <-]).
    assert (later s2) as Hl2 by (eapply (later_of x); [apply permits_cop|exact E|done]).
    assert (later s1) as Hl1 by (eapply (later_of x); [apply permits_expr|exact E2|done]).
    destruct (IH x a s s1 va V r w za w1 fr) as (fr1 & Hd1 & Hh1); try done; [lia|].
    destruct (does_vars _ _ _ _ _ _ V r Hd1 HV Ha) as [HV1 Ha1]. pose proof (does_opened _ _ _ _ _ _ Hd1 Ho) as Ho1.
    destruct (IH x b s1 s2 vb V r w1 zb w2 fr1) as (fr2 & Hd2 & Hh2); try done; [lia|].
    destruct (ex_cop o va vb za zb s2 s' v fr2 w2) as (fr3 & Hd3 & Hh3); [by eapply does_opened|done|by eapply has_does|done|].
    exists fr3. split; [|done]. eapply does_trans; [exact Hd1|]. by eapply does_trans.
  - apply bind_inv_ok in E as (s1 & va & E1 & E). apply bind_Some in Hev as ([za w1] & He1 & [= <- <-]).
    assert (later s1) as Hl1 by (eapply (later_of x); [apply permits_ins|exact E|done]).
    destruct (IH x a s s1 va V r w za w1 fr) as (fr1 & Hd1 & Hh1); try done; [lia|].
    destruct (ex_bnot va za s1 s' v fr1 w1) as (fr3 & Hd3 & Hh3); [by eapply does_opened|done|done|].
    exists fr3. split; [by eapply does_trans|done].
  - apply bind_inv_ok in E as (s1 & va & E1 & E). apply bind_Some in Hev as ([za w1] & He1 & Hev).
    apply bind_Some in Hev as (z0 & Hm & [= -> <-]).
    assert (later s1) as Hl1 by (eapply (later_of x); [apply permits_ins|exact E|done]).
    destruct (IH x p s s1 va V r w za w1 fr) as (fr1 & Hd1 & Hh1); try done; [lia|].
    destruct (ex_load va 0 za z s1 s' v fr1 w1) as (fr3 & Hd3 & Hh3); [by eapply does_opened|done|done|by rewrite Z.add_0_r|].
    exists fr3. split; [by eapply does_trans|done].
  - eapply (ex_string x (invoke n) Hc bs); try done. unfold blob in Hb. rewrite length_app in Hb. lia.
Qed.

Lemma sim_exprs_S n : sim_expr n → sim_exprs n → sim_exprs (S n).
Proof.
  intros IH IHs x es s s' vs V r w zs w' fr Hx Hb Ho E Hl HV Ha Hev.
  destruct es as [|e es]; cbn [cexpr cexprs CpsSem.evals enc_exprs] in *.
  - injection E as <- <-. injection Hev as <- <-. exists fr. split_and!; [by apply does_refl|constructor|done].
  - apply bind_inv_ok in E as (s1 & v & E1 & E). apply bind_inv_ok in E as (s2 & vs' & E2 & E). injection E as <- <-.
    apply bind_Some in Hev as ([z w1] & He1 & Hev). apply bind_Some in Hev as ([zs' w2] & He2 & [= <- <-]). rewrite length_app in Hb.
    assert (later s1) as Hl1 by (eapply (later_of x); [apply permits_expr_exprs|exact E2|done]).
    destruct (IH x e s s1 v V r w z w1 fr) as (fr1 & Hd1 & Hh1); try done; [lia|].
    destruct (does_vars _ _ _ _ _ _ V r Hd1 HV Ha) as [HV1 Ha1]. pose proof (does_opened _ _ _ _ _ _ Hd1 Ho) as Ho1.
    destruct (IHs x es s1 s2 vs' V r w1 zs' w2 fr1) as (fr2 & Hd2 & HF & Hlen); try done; [lia|].
    exists fr2. split_and!; [by eapply does_trans|constructor; [by eapply has_does|done]|cbn; lia].
Qed.
End sim.
End correct.
End CpsCorrect.
