(* ===== verification/CpsSim.v ===== *)
(** * Simulation: statements, functions, programs *)

From S2P Require Import Prelude Cursor Text Auth Clif Symbols Cps CpsLang CpsFuse CpsProgram CpsWf CpsFunc CpsGate CpsSem CpsCorrect.
Import Clif Cps CpsLang CpsFuse CpsProgram CpsWf CpsFunc CpsGate CpsSem CpsCorrect.

Module CpsSim.
Section sim.
Context {J : Type} `{ClifModuleLaws J} {W : Type} `{Memory W}.
Variable clock : nat → Z.
Abbreviation cm := (stm (@cg J) bytes).
Abbreviation types s := (f_types (fb_func (c_fb s))).
Abbreviation blocks s := (f_blocks (fb_func (c_fb s))).
Abbreviation nvals s := (length (f_types (fb_func (c_fb s)))).
Variable jF : J.
Variable names : gmap bytes func_id.
Variable code : func_id → option func.
Variable native : callee W.
Variable functions : func_id → option fdef.
Variable ext : callee W.

Abbreviation eval := (eval names (sym jF) functions ext).
Abbreviation evals := (evals names (sym jF) functions ext).
Abbreviation exec := (exec names (sym jF) functions ext).
Abbreviation invoke := (invoke names (sym jF) functions ext).
Abbreviation later := (later jF).
Abbreviation does := (does code native).
Abbreviation sims := (sims code native).
Abbreviation sim_expr := (sim_expr clock jF names code native functions ext).
Abbreviation sim_exprs := (sim_exprs clock jF names code native functions ext).
Abbreviation fits_ctx := (fits_ctx names).

Section activation.
(** The finished function of the activation, and its variables. *)
Variable F : func.
Variable V : gmap bytes variable.
Hypothesis HV_inj : ∀ y y' k, V !! y = Some k → V !! y' = Some k → y = y'.

(** ** Steps between program points *)
Definition xsteps : relation (mach W) := rtc (λ m m', ∃ N, step F (run code native N) m = Next m').
Definition xdone (m : mach W) (z : Z) (w : W) : Prop :=
  ∃ m', xsteps m m' ∧ ∃ N, step F (run code native N) m' = Done z w.

(** The point the builder has reached. *)
Definition here (s : @cg J) (fr : frame) (w : W) (m : mach W) : Prop :=
  ∃ c k, open_at s c k ∧ m = Mach c (length (b_insts k)) fr w.
Definition cov (s : @cg J) : Prop := covers (fb_func (c_fb s)) F.

Lemma run_block il : ∀ c K pre post fr w fr' w',
  f_blocks F !! c = Some K → b_insts K = pre ++ il ++ post → xinsts code native il fr w fr' w' →
  xsteps (Mach c (length pre) fr w) (Mach c (length (pre ++ il)) fr' w').
Proof.
  induction il as [|i il IH]; intros c K pre post fr w fr' w' HK Hi Hx; inversion Hx as [|? ? ? ? fr1 w1 ? ? [N HN] Hx']; subst.
  - rewrite app_nil_r. reflexivity.
  - eapply rtc_l.
    + exists N. unfold step. cbn [m_blk m_pc m_fr m_w]. rewrite HK, Hi, lookup_app_r, Nat.sub_diag by lia. cbn [app lookup list_lookup].
      rewrite HN. done.
    + specialize (IH c K (pre ++ [i]) post fr1 w1 fr' w' HK). rewrite <-!app_assoc in IH. cbn [app] in IH.
      rewrite !length_app in IH. cbn [length] in IH. rewrite length_app. cbn [length].
      replace (S (length pre)) with (length pre + 1)%nat by lia. apply IH; done.
Qed.

Lemma emits_steps s s' il fr w fr' w' m :
  emits s s' il → xinsts code native il fr w fr' w' → cov s' → here s fr w m → ∃ m', here s' fr' w' m' ∧ xsteps m m'.
Proof.
  intros He Hx Hc (c & k & Ho & ->). destruct He as [(c' & k' & Ho' & Hc' & Hb) _ _ _ _ _ _ _ _].
  destruct Ho as (H3 & H4 & H5). destruct Ho' as (H6 & H7 & H8).
  assert (c' = c) as -> by congruence. assert (k' = k) as -> by congruence.
  assert (blocks s' !! c = Some (Blk (b_insts k ++ il) None)) as Hbc.
  { rewrite Hb. apply list_lookup_insert_eq. by eapply lookup_lt_Some. }
  destruct Hc as (_ & _ & Hcov). destruct (Hcov _ _ Hbc) as (K & HK & [post Hpre] & _). cbn in Hpre.
  exists (Mach c (length (b_insts k ++ il)) fr' w'). split.
  - exists c, (Blk (b_insts k ++ il) None). done.
  - eapply run_block; [exact HK| |exact Hx]. by rewrite Hpre, <-app_assoc.
Qed.
Lemma does_steps s s' fr w fr' w' m :
  does s s' fr w fr' w' → cov s' → here s fr w m → ∃ m', here s' fr' w' m' ∧ xsteps m m'.
Proof. intros ((il & He & Hx) & _). by eapply emits_steps. Qed.

Lemma triple_ok {A} ar P (m : cm A) Q s s' a :
  triple ar P m Q → P s → m s = (s', Ok a) → Q a s' ∧ grows s s'.
Proof. intros Ht Hs E. specialize (Ht s Hs). by rewrite E in Ht. Qed.
Lemma cov_back s s' : grows s s' → cov s' → cov s.
Proof. intros [Hc _ _ _ _] HF. unfold cov in *. by etrans. Qed.
Lemma later_grows s s' : grows s s' → later s' → later s.
Proof. intros Hg. apply later_back, Hg. Qed.

(** Executing the terminator that closed a block. *)
Lemma closed_step (s s' : @cg J) c k t :
  open_at s c k → blocks s' = <[c := Blk (b_insts k) (Some t)]> (blocks s) → cov s' →
  ∀ N fr w, step F (run code native N) (Mach c (length (b_insts k)) fr w) = exec_term t fr w.
Proof.
  intros (Hc & Hk & _) Hb (_ & _ & Hcov) N fr w.
  assert (blocks s' !! c = Some (Blk (b_insts k) (Some t))) as Hbc.
  { rewrite Hb. apply list_lookup_insert_eq. by eapply lookup_lt_Some. }
  destruct (Hcov _ _ Hbc) as (K & HK & _ & Hf). rewrite Hf in HK by (by eexists). unfold step. cbn.
  rewrite HK. cbn. rewrite lookup_ge_None_2 by lia. done.
Qed.

Lemma term_step D ts nb s s' t fr w m :
  in_open D ts nb s → fbop (push_term t) s = (s', Ok ()) → term_ok (types s) (length (blocks s)) t →
  cov s' → here s fr w m → ∀ N, step F (run code native N) m = exec_term t fr w.
Proof.
  intros [(Hg & _) _] E Ht Hc (c & k & Ho & ->) N.
  destruct (close_good D s c k t Hg Ho Ht) as (b & Hb & _ & _ & _ & _ & _ & _ & Hbs). unfold fbop in E. rewrite Hb in E.
  injection E as <-. by eapply closed_step.
Qed.

Lemma brif_steps D ts nb s s' cb b1 b2 fr w m z :
  in_open D ts nb s → brif cb b1 b2 s = (s', Ok ()) → is_ty ts I8 cb → (b1 < nb)%nat → (b2 < nb)%nat →
  cov s' → here s fr w m → fr_regs fr !! cb = Some z →
  xsteps m (Mach (if z =? 0 then b2 else b1) 0 fr w).
Proof.
  intros Ho E Hty H1' H2' Hc Hh Hz. pose proof Ho as [(_ & Hp & Hnb) _]. apply rtc_once. exists 0%nat.
  rewrite (term_step D ts nb s s' (TBrif cb b1 b2) fr w m); try done.
  - cbn. by rewrite Hz.
  - cbn. split_and!; [by eapply is_ty_mono|lia|lia].
Qed.

Lemma jump_steps D ts nb s s' b fr w m :
  in_open D ts nb s → emit_jump b s = (s', Ok ()) → (b < nb)%nat → cov s' → here s fr w m →
  xsteps m (Mach b 0 fr w).
Proof.
  intros Ho E Hb Hc Hh. pose proof Ho as [(_ & Hp & Hnb) [Hl _]]. unfold emit_jump, unless_terminated in E. rewrite Hl in E.
  apply bind_inv_ok in E as (s1 & [] & E & E'). injection E' as <-.
  apply rtc_once. exists 0%nat. rewrite (term_step D ts nb s s1 (TJump b) fr w m); try done. cbn. lia.
Qed.
Lemma ensure_steps D ts nb s s' b fr w m :
  in_open D ts nb s → ensure_terminated (Some b) s = (s', Ok ()) → (b < nb)%nat → cov s' → here s fr w m →
  xsteps m (Mach b 0 fr w).
Proof.
  intros Ho E. pose proof Ho as [_ [Hl _]]. unfold ensure_terminated in E. rewrite Hl in E. by eapply jump_steps.
Qed.

Lemma enter_here D ts nb s s' b fr w :
  in_closed D ts nb s → b ∈ D → mgr_switch_to_block b s = (s', Ok ()) → here s' fr w (Mach b 0 fr w).
Proof.
  intros [(Hg & _) Hc] HD E. destruct (switch_good D s b Hg Hc HD) as (fb & Hfb & _ & _ & _ & _ & _ & Ho).
  unfold mgr_switch_to_block, fbop, mbind, stm_bind in E. rewrite Hfb in E. injection E as <-.
  exists b, (Blk [] None). done.
Qed.
Lemma create_here s s' b fr w m : mgr_create_block s = (s', Ok b) → here s fr w m → here s' fr w m.
Proof.
  intros [= <- <-] (c & k & (Hc & Hk & Ht) & ->). exists c, k. split; [|done]. split_and!; [done| |done]. cbn.
  rewrite lookup_app_l; [done|]. by eapply lookup_lt_Some.
Qed.

(** ** Outcomes *)
Definition reaches (m : mach W) (o : out) (ex : frame → W → mach W → Prop) : Prop :=
  match o with
  | Ret z w => xdone m z w
  | Fall r w => ∃ fr m', agree V r fr ∧ ex fr w m' ∧ xsteps m m'
  end.

Lemma reaches_steps m m' o ex : xsteps m m' → reaches m' o ex → reaches m o ex.
Proof.
  intros Hs. destruct o; cbn.
  - intros (fr & m2 & Ha & He & Hs'). exists fr, m2. split_and!; [done..|]. by etrans.
  - intros (m2 & Hs' & Hd). exists m2. split; [by etrans|done].
Qed.
Lemma reaches_then m o ex ex' (k : env → W → option out) o' :
  reaches m o ex →
  match o with Fall r w => k r w | Ret z w => Some (Ret z w) end = Some o' →
  (∀ r w fr m', agree V r fr → ex fr w m' → k r w = Some o' → reaches m' o' ex') →
  reaches m o' ex'.
Proof.
  intros Hr Ho Hk. destruct o as [r w|z w]; cbn in Hr.
  - destruct Hr as (fr & m' & Ha & He & Hs). eapply reaches_steps; [exact Hs|]. by eapply Hk.
  - by injection Ho as <-.
Qed.

(** ** Statements *)
Definition sim_stmts (n : nat) : Prop :=
  ∀ x ss D s s' r w o fr m,
    fits_ctx x → Zlen (enc_stmts ss) < 2 ^ 28 → in_open D [] 0 s → cstmts clock x ss s = (s', Ok ()) →
    later s' → cov s' → c_vars s' ⊆ V → agree V r fr → exec n r w ss = Some o → here s fr w m →
    reaches m o (here s').

(** One step of the compilation: its invariant, and that the state grows. *)
Ltac t_step lem E I G :=
  let Hx := fresh in pose proof (triple_ok _ _ _ _ _ _ _ lem I E) as Hx; clear I; destruct Hx as [I G].
Ltac t_chain E s a Ea := apply bind_inv_ok in E as (s & a & Ea & E).

Lemma no_ar P : False → P.
Proof. done. Qed.

(** What the end of the compilation gives to each of its states. *)
Definition ends (s sE : @cg J) : Prop := grows s sE ∧ later sE ∧ cov sE ∧ c_vars sE ⊆ V.
Lemma ends_back s s' sE : grows s s' → ends s' sE → ends s sE.
Proof. intros Hg (HG & ? & ? & ?). split_and!; try done. by etrans. Qed.
Lemma ends_facts s sE : ends s sE → later s ∧ cov s ∧ c_vars s ⊆ V.
Proof. intros (HG & Hl & Hc & HV). split_and!; [by eapply later_grows|by eapply cov_back|]. etrans; [apply HG|done]. Qed.

(** An expression in statement position. *)
Lemma expr_step x e D ts nb s s1 v :
  in_open D ts nb s → cexpr clock x e s = (s1, Ok v) →
  ∃ ts1, ts `prefix_of` ts1 ∧ is_ty ts1 I64 v ∧ in_open D ts1 nb s1 ∧ grows s s1 ∧
  ∀ n sE (r : env) w z w1 fr m,
    sim_expr n → fits_ctx x → Zlen (enc_expr e) < 2 ^ 28 → ends s1 sE → agree V r fr →
    eval n r w e = Some (z, w1) → here s fr w m →
    ∃ fr1 m1, agree V r fr1 ∧ has fr1 s1 v z ∧ here s1 fr1 w1 m1 ∧ xsteps m m1.
Proof.
  intros HI E.
  destruct (triple_ok _ _ _ _ _ _ _ (triple_spec False D ts nb _ _ (spec_expr clock False x e ts (no_ar _))) HI E)
    as [(ts1 & Hp & Hty & HI1) G1].
  exists ts1. split_and!; try done. intros n sE r w z w1 fr m IH Hx Hb HE Ha Hev Hh. destruct HI as [_ Ho].
  destruct (ends_facts _ _ HE) as (Hl & Hc & HV1).
  assert (c_vars s ⊆ V) as HV0 by (etrans; [apply G1|done]).
  destruct (IH x e s s1 v V r w z w1 fr) as (fr1 & Hd & Hh1); try done.
  destruct (does_steps s s1 fr w fr1 w1 m Hd) as (m1 & Hm1 & Hs1); [done..|].
  exists fr1, m1. split_and!; try done; try apply Hh1. apply (does_vars _ _ _ _ _ _ _ _ V r Hd HV0 Ha).
Qed.

Lemma nonzero_step D ts nb s s1 v cb :
  in_open D ts nb s → is_ty ts I64 v → nonzero v s = (s1, Ok cb) →
  ∃ ts1, ts `prefix_of` ts1 ∧ is_ty ts1 I8 cb ∧ in_open D ts1 nb s1 ∧ grows s s1 ∧
  ∀ sE (r : env) w z fr m, ends s1 sE → agree V r fr → has fr s v z → here s fr w m →
    ∃ fr1 m1, agree V r fr1 ∧ fr_regs fr1 !! cb = Some (Z.b2z (negb (z =? 0))) ∧ here s1 fr1 w m1 ∧ xsteps m m1.
Proof.
  intros HI Hv E.
  destruct (triple_ok _ _ _ _ _ _ _ (triple_spec False D ts nb _ _ (spec_nonzero False ts v Hv)) HI E)
    as [(ts1 & Hp & Hty & HI1) G1].
  exists ts1. split_and!; try done. intros sE r w z fr m HE Ha Hh Hm. destruct HI as [_ Ho].
  destruct (ends_facts _ _ HE) as (Hl & Hc & HV1).
  destruct (ex_nonzero code native v z s s1 cb fr w Ho E Hh) as (fr1 & Hd & [Hz _]).
  destruct (does_steps s s1 fr w fr1 w m Hd) as (m1 & Hm1 & Hs1); [done..|].
  exists fr1, m1. split_and!; try done. destruct Hd as (_ & _ & Hf & _). intros y k Hy. rewrite Hf. by apply Ha.
Qed.

Lemma create_step D ts nb s s1 b :
  in_open D ts nb s → mgr_create_block s = (s1, Ok b) →
  (b ∉ D) ∧ (nb ≤ b)%nat ∧ in_open ({[b]} ∪ D) ts (S b) s1 ∧ grows s s1 ∧ ∀ fr w m, here s fr w m → here s1 fr w m.
Proof.
  intros HI E. destruct (triple_ok _ _ _ _ _ _ _ (triple_create False D ts nb) HI E) as [(? & ? & ?) G].
  split_and!; try done. intros fr w m. by apply create_here with (b := b).
Qed.

Lemma brif_step D ts nb s s1 cb b1 b2 :
  in_open D ts nb s → is_ty ts I8 cb → (b1 < nb)%nat → (b2 < nb)%nat → brif cb b1 b2 s = (s1, Ok ()) →
  in_closed D ts nb s1 ∧ grows s s1 ∧
  ∀ sE fr w m z, ends s1 sE → here s fr w m → fr_regs fr !! cb = Some z →
    xsteps m (Mach (if z =? 0 then b2 else b1) 0 fr w).
Proof.
  intros HI Hty Hb1 Hb2 E.
  assert (triple False (in_open D ts nb) (brif cb b1 b2) (λ _, in_closed D ts nb)) as Ht.
  { apply triple_term. intros ts' nb' Hp Hn. cbn. split_and!; [by eapply is_ty_mono|lia|lia]. }
  destruct (triple_ok _ _ _ _ _ _ _ Ht HI E) as [HI1 G].
  split_and!; try done. intros sE fr w m z HE Hh Hz. destruct (ends_facts _ _ HE) as (Hl & Hc & _). by eapply brif_steps.
Qed.

Lemma open_weaken D ts nb (s : @cg J) : in_open D ts nb s → in_open D [] 0 s.
Proof. intros HI. eapply open_mono; [exact HI|apply prefix_nil|lia]. Qed.

(** A body falls through exactly when its last block is open. *)
Lemma here_open D ts nb (s : @cg J) fr w m : in_either D ts nb s → here s fr w m → in_open D ts nb s.
Proof.
  intros [Hs [Ho|[(c & k & Hc & Hk & Ht) _]]] (c' & k' & (Hc' & Hk' & Ht') & _); [by split|].
  assert (c' = c) as -> by congruence. assert (k' = k) as -> by congruence. rewrite Ht' in Ht. by destruct Ht.
Qed.

Lemma stmts_step x ss D ts nb s s1 :
  in_open D ts nb s → cstmts clock x ss s = (s1, Ok ()) → in_either D ts nb s1 ∧ grows s s1.
Proof.
  intros HI E.
  exact (triple_ok _ _ _ _ _ _ _ (proj1 (triple_stmts_cases clock False x) ss _ _ _ (no_ar _)) HI E).
Qed.

Lemma switch_step D ts nb s s1 b :
  in_closed D ts nb s → b ∈ D → mgr_switch_to_block b s = (s1, Ok ()) →
  in_open (D ∖ {[b]}) ts nb s1 ∧ grows s s1 ∧ ∀ fr w, here s1 fr w (Mach b 0 fr w).
Proof.
  intros HI Hb E. destruct (triple_ok _ _ _ _ _ _ _ (triple_switch False D ts nb b Hb) HI E) as [HI1 G].
  split_and!; try done. intros fr w. by eapply enter_here.
Qed.

(** A branch: enter its block, run its body, leave for [merge]. *)
Lemma branch x ss D ts nb s0 s1 s2 s3 b merge :
  in_closed D ts nb s0 → b ∈ D → (merge < nb)%nat →
  mgr_switch_to_block b s0 = (s1, Ok ()) → cstmts clock x ss s1 = (s2, Ok ()) →
  ensure_terminated (Some merge) s2 = (s3, Ok ()) →
  in_closed (D ∖ {[b]}) ts nb s3 ∧ grows s0 s3 ∧
  ∀ n sE (r : env) w o fr,
   sim_stmts n → fits_ctx x → Zlen (enc_stmts ss) < 2 ^ 28 → ends s3 sE →
   agree V r fr → exec n r w ss = Some o →
   reaches (Mach b 0 fr w) o (λ fr' w' m', m' = Mach merge 0 fr' w').
Proof.
  intros HI HbD Hm E1 E2 E3.
  destruct (switch_step D ts nb s0 s1 b HI HbD E1) as (HI1 & G1 & Hh).
  destruct (stmts_step x ss _ _ _ _ _ HI1 E2) as [HI2 G2].
  destruct (triple_ok _ _ _ _ _ _ _ (triple_ensure False _ _ _ merge Hm) HI2 E3) as [HI3 G3].
  split; [done|]. split; [etrans; [exact G1|]; by etrans|].
  intros n sE r w o fr IH Hx Hb HE Ha Hex. pose proof (ends_back _ _ _ G3 HE) as HE2.
  destruct (ends_facts _ _ HE2) as (Hl & Hc & HV). destruct (ends_facts _ _ HE) as (_ & Hc3 & _).
  assert (reaches (Mach b 0 fr w) o (here s2)) as Hr by (by eapply (IH x ss _ s1 s2); [..|by eapply open_weaken|done| | | | | |]).
  destruct o as [r' w'|z w']; [|done]. destruct Hr as (fr' & m' & Ha' & Hm' & Hs).
  exists fr', (Mach merge 0 fr' w'). split_and!; [done..|]. etrans; [exact Hs|].
  eapply ensure_steps; [by eapply here_open|exact E3|done|done|done].
Qed.

Lemma sim_if n x c t f k D s s' r w o fr m :
  sim_expr n → sim_stmts n →
  fits_ctx x → Zlen (enc_stmts (SIf c t f k)) < 2 ^ 28 → in_open D [] 0 s → cstmts clock x (SIf c t f k) s = (s', Ok ()) →
  later s' → cov s' → c_vars s' ⊆ V → agree V r fr → exec (S n) r w (SIf c t f k) = Some o → here s fr w m →
  reaches m o (here s').
Proof.
  intros IHe IH Hx Hb HI E Hl Hc HV Ha Hex Hm. cbn [enc_stmts cstmts] in *. cbn [CpsSem.exec] in Hex.
  cbn [length] in Hb. unfold blob in Hb. rewrite !length_app in Hb.
  t_chain E s1 v E1. t_chain E s2 cb E2. t_chain E s3 b1 E3. t_chain E s4 b2 E4. t_chain E s5 b3 E5. t_chain E s6 u6 E6.
  t_chain E s7 u7 E7. t_chain E s8 u8 E8. t_chain E s9 u9 E9. t_chain E s10 u10 E10. t_chain E s11 u11 E11.
  t_chain E s12 u12 E12. t_chain E s13 u13 E13. destruct u6, u7, u8, u9, u10, u11, u12, u13.
  apply bind_Some in Hex as ([z w1] & Hev & Hex). apply bind_Some in Hex as (o1 & Hb1 & Hex).
  destruct (expr_step _ _ _ _ _ _ _ _ HI E1) as (ts1 & Hp1 & Ht1 & HI1 & G1 & X1).
  destruct (nonzero_step _ _ _ _ _ _ _ HI1 Ht1 E2) as (ts2 & Hp2 & Ht2 & HI2 & G2 & X2).
  destruct (create_step _ _ _ _ _ _ HI2 E3) as (Hb1' & Hn1 & HI3 & G3 & X3).
  destruct (create_step _ _ _ _ _ _ HI3 E4) as (Hb2' & Hn2 & HI4 & G4 & X4).
  destruct (create_step _ _ _ _ _ _ HI4 E5) as (Hb3' & Hn3 & HI5 & G5 & X5).
  destruct (brif_step _ _ _ _ _ cb b1 b2 HI5 Ht2 ltac:(lia) ltac:(lia) E6) as (HI6 & G6 & X6).
  destruct (branch x t _ _ _ _ _ _ _ b1 b3 HI6 ltac:(set_solver) ltac:(lia) E7 E8 E9) as (HI9 & G9 & X9).
  destruct (branch x f _ _ _ _ _ _ _ b2 b3 HI9 ltac:(set_solver) ltac:(lia) E10 E11 E12) as (HI12 & G12 & X12).
  destruct (switch_step _ _ _ _ _ b3 HI12 ltac:(set_solver) E13) as (HI13 & G13 & X13).
  destruct (stmts_step _ _ _ _ _ _ _ HI13 E) as [HI' G'].
  assert (ends s13 s') as He13 by done. pose proof (ends_back _ _ _ G13 He13) as He12. pose proof (ends_back _ _ _ G12 He12) as He9.
  pose proof (ends_back _ _ _ G9 He9) as He6. pose proof (ends_back _ _ _ G6 He6) as He5.
  pose proof (ends_back _ _ _ G3 (ends_back _ _ _ G4 (ends_back _ _ _ G5 He5))) as He2.
  pose proof (ends_back _ _ _ G2 He2) as He1.
  destruct (X1 n s' r w z w1 fr m IHe Hx ltac:(lia) He1 Ha Hev Hm) as (fr1 & m1 & Ha1 & Hh1 & Hm1 & S1).
  destruct (X2 s' r w1 z fr1 m1 He2 Ha1 Hh1 Hm1) as (fr2 & m2 & Ha2 & Hz2 & Hm2 & S2).
  pose proof (X6 s' fr2 w1 m2 _ He6 (X5 _ _ _ (X4 _ _ _ (X3 _ _ _ Hm2))) Hz2) as S6.
  eapply reaches_steps; [etrans; [exact S1|]; etrans; [exact S2|exact S6]|].
  assert (reaches (Mach (if Z.b2z (negb (z =? 0)) =? 0 then b2 else b1) 0 fr2 w1) o1
            (λ fr' w' m', m' = Mach b3 0 fr' w')) as Hr.
  { destruct (z =? 0); cbn [negb Z.b2z Z.eqb]; [eapply (X12 n s')|eapply (X9 n s')]; try done; lia. }
  eapply reaches_then; [exact Hr|exact Hex|]. intros r2 w2 fr3 m3 Ha3 -> Hk.
  eapply (IH x k _ s13 s'); [done|lia|by eapply open_weaken|done..|apply X13].
Qed.

Lemma jump_step D ts nb s s1 b :
  in_either D ts nb s → (b < nb)%nat → emit_jump b s = (s1, Ok ()) →
  in_closed D ts nb s1 ∧ grows s s1 ∧
  ∀ sE fr w m, ends s1 sE → here s fr w m → xsteps m (Mach b 0 fr w).
Proof.
  intros HI Hb E. destruct (triple_ok _ _ _ _ _ _ _ (triple_jump_either False D ts nb b Hb) HI E) as [HI1 G].
  split_and!; try done. intros sE fr w m HE Hh. destruct (ends_facts _ _ HE) as (_ & Hc & _).
  eapply jump_steps; [by eapply here_open|done..].
Qed.

Lemma sim_while n x c b k D s s' r w o fr m :
  (∀ i, (i ≤ n)%nat → sim_expr i) → (∀ i, (i ≤ n)%nat → sim_stmts i) →
  fits_ctx x → Zlen (enc_stmts (SWhile c b k)) < 2 ^ 28 → in_open D [] 0 s → cstmts clock x (SWhile c b k) s = (s', Ok ()) →
  later s' → cov s' → c_vars s' ⊆ V → agree V r fr → exec (S n) r w (SWhile c b k) = Some o → here s fr w m →
  reaches m o (here s').
Proof.
  intros IHe IH Hx Hb HI E Hl Hc HV Ha Hex Hm. cbn [enc_stmts cstmts] in Hb, E.
  cbn [length] in Hb. unfold blob in Hb. rewrite !length_app in Hb.
  t_chain E s1 b1 E1. t_chain E s2 b2 E2. t_chain E s3 b3 E3. t_chain E s4 u4 E4. t_chain E s5 u5 E5. t_chain E s6 v E6.
  t_chain E s7 cb E7. t_chain E s8 u8 E8. t_chain E s9 u9 E9. t_chain E s10 u10 E10. t_chain E s11 u11 E11.
  t_chain E s12 u12 E12. destruct u4, u5, u8, u9, u10, u11, u12.
  destruct (create_step _ _ _ _ _ _ HI E1) as (Hb1 & Hn1 & HI1 & G1 & X1).
  destruct (create_step _ _ _ _ _ _ HI1 E2) as (Hb2 & Hn2 & HI2 & G2 & X2).
  destruct (create_step _ _ _ _ _ _ HI2 E3) as (Hb3 & Hn3 & HI3 & G3 & X3).
  destruct (jump_step _ _ _ _ _ b1 (either_open _ _ _ _ HI3) ltac:(lia) E4) as (HI4 & G4 & X4).
  destruct (switch_step _ _ _ _ _ b1 HI4 ltac:(set_solver) E5) as (HI5 & G5 & X5).
  destruct (expr_step _ _ _ _ _ _ _ _ HI5 E6) as (ts1 & Hp1 & Ht1 & HI6 & G6 & X6).
  destruct (nonzero_step _ _ _ _ _ _ _ HI6 Ht1 E7) as (ts2 & Hp2 & Ht2 & HI7 & G7 & X7).
  destruct (brif_step _ _ _ _ _ cb b2 b3 HI7 Ht2 ltac:(lia) ltac:(lia) E8) as (HI8 & G8 & X8).
  destruct (switch_step _ _ _ _ _ b2 HI8 ltac:(set_solver) E9) as (HI9 & G9 & X9).
  destruct (stmts_step _ _ _ _ _ _ _ HI9 E10) as [HI10 G10].
  destruct (jump_step _ _ _ _ _ b1 HI10 ltac:(lia) E11) as (HI11 & G11 & X11).
  destruct (switch_step _ _ _ _ _ b3 HI11 ltac:(set_solver) E12) as (HI12 & G12 & X12).
  destruct (stmts_step _ _ _ _ _ _ _ HI12 E) as [HI' G'].
  assert (ends s12 s') as He12 by done. pose proof (ends_back _ _ _ G12 He12) as He11. pose proof (ends_back _ _ _ G11 He11) as He10.
  pose proof (ends_back _ _ _ G9 (ends_back _ _ _ G10 He10)) as He8. pose proof (ends_back _ _ _ G8 He8) as He7.
  pose proof (ends_back _ _ _ G7 He7) as He6. pose proof (ends_back _ _ _ G5 (ends_back _ _ _ G6 He6)) as He4.
  eapply reaches_steps; [exact (X4 s' fr w m He4 (X3 _ _ _ (X2 _ _ _ (X1 _ _ _ Hm))))|]. clear m Hm X1 X2 X3 X4.
  (* the loop, from its header *)
  assert (∀ i, (i ≤ S n)%nat → ∀ r w o fr, agree V r fr → exec i r w (SWhile c b k) = Some o →
            reaches (Mach b1 0 fr w) o (here s')) as Hloop; [|by eapply Hloop].
  clear Ha Hex fr r w o. induction i as [|i IHi]; intros Hi r w o fr Ha Hex; [done|]. cbn [CpsSem.exec] in Hex.
  apply bind_Some in Hex as ([z w1] & Hev & Hex).
  destruct (X6 i s' r w z w1 fr _ (IHe i ltac:(lia)) Hx ltac:(lia) He6 Ha Hev (X5 fr w)) as (fr1 & m1 & Ha1 & Hh1 & Hm1 & S1).
  destruct (X7 s' r w1 z fr1 m1 He7 Ha1 Hh1 Hm1) as (fr2 & m2 & Ha2 & Hz2 & Hm2 & S2).
  pose proof (X8 s' fr2 w1 m2 _ He8 Hm2 Hz2) as S8.
  eapply reaches_steps; [etrans; [exact S1|]; etrans; [exact S2|exact S8]|].
  destruct (z =? 0); cbn [negb Z.b2z Z.eqb].
  - eapply (IH i ltac:(lia) x k _ s12 s'); [done|lia|by eapply open_weaken|done..|apply X12].
  - apply bind_Some in Hex as (o1 & Ho1 & Hex). destruct (ends_facts _ _ He10) as (Hl10 & Hc10 & HV10).
    assert (reaches (Mach b2 0 fr2 w1) o1 (here s10)) as Hr.
    { eapply (IH i ltac:(lia) x b _ s9 s10); [done|lia|by eapply open_weaken|done..|apply X9]. }
    eapply reaches_then; [exact Hr|exact Hex|]. intros r2 w2 fr3 m3 Ha3 Hm3 Hk.
    eapply reaches_steps; [exact (X11 s' fr3 w2 m3 He11 Hm3)|]. by eapply (IHi ltac:(lia)).
Qed.

(** The test of one case. *)
Lemma test_step D ts nb s s1 s2 cond v cb z' :
  in_open D ts nb s → is_ty ts I64 cond → iconst I64 z' s = (s1, Ok v) → icmp Equal cond v s1 = (s2, Ok cb) →
  ∃ ts2, ts `prefix_of` ts2 ∧ is_ty ts2 I8 cb ∧ in_open D ts2 nb s2 ∧ grows s s2 ∧
  ∀ sE (r : env) w z fr m, ends s2 sE → agree V r fr → has fr s cond z → here s fr w m →
    ∃ fr2 m2, agree V r fr2 ∧ fr_regs fr2 !! cb = Some (Z.b2z (z =? z')) ∧ has fr2 s2 cond z ∧ here s2 fr2 w m2 ∧ xsteps m m2.
Proof.
  intros HI Hty E1 E2. pose proof HI as [_ Ho].
  destruct (triple_ok _ _ _ _ _ _ _ (triple_spec False D ts nb _ _ (spec_iconst False ts I64 z')) HI E1)
    as [(ts1 & Hp1 & Hv & HI1) G1].
  destruct (triple_ok _ _ _ _ _ _ _ (triple_spec False D ts1 nb _ _ (spec_icmp False ts1 Equal cond v (is_ty_mono _ _ _ _ Hp1 Hty) Hv)) HI1 E2)
    as [(ts2 & Hp2 & Hcb & HI2) G2].
  exists ts2. split_and!; try done; [by etrans..|].
  intros sE r w z fr m HE Ha Hh Hm. destruct (ends_facts _ _ HE) as (_ & Hc & _).
  destruct (ex_iconst code native _ _ _ _ _ fr w Ho E1) as (fr1 & Hd1 & Hh1).
  pose proof (does_opened _ _ _ _ _ _ _ _ Hd1 Ho) as Ho1. pose proof (has_does _ _ _ _ _ _ _ _ _ _ Hh Hd1) as Hc1.
  destruct (ex_icmp code native Equal cond v z z' s1 s2 cb fr1 w Ho1 E2 Hc1 Hh1) as (fr2 & Hd2 & [Hz _]).
  pose proof (does_trans _ _ _ _ _ _ _ _ _ _ _ Hd1 Hd2) as Hd.
  destruct (does_steps s s2 fr w fr2 w m Hd) as (m2 & Hm2 & Hs2); [done..|].
  exists fr2, m2. split_and!; try done; [|by eapply has_does]. destruct Hd as (_ & _ & Hf & _). intros y k Hy. rewrite Hf. by apply Ha.
Qed.

Fixpoint matches (z : Z) (cs : cases) : bool :=
  match cs with CNil => false | CCons z' _ cs => (z =? z') || matches z cs end.
Lemma select_none z cs d : matches z cs = false → select z cs d = d.
Proof.
  induction cs as [|z' b cs IH] using cases_list_ind; cbn; [done|]. intros Hm.
  apply orb_false_iff in Hm as [-> Hm]. by apply IH.
Qed.

Lemma cases_step x cond merge : ∀ cs D ts nb s s1,
  in_open D ts nb s → is_ty ts I64 cond → (merge < nb)%nat → ccases clock x cond merge cs s = (s1, Ok ()) →
  in_open D ts nb s1 ∧ grows s s1 ∧
  ∀ n sE (r : env) w z d o fr m,
    sim_stmts n → fits_ctx x → Zlen (enc_cases cs) < 2 ^ 28 → ends s1 sE → agree V r fr → has fr s cond z →
    here s fr w m → exec n r w (select z cs d) = Some o →
    if matches z cs then reaches m o (λ fr' w' m', m' = Mach merge 0 fr' w')
    else ∃ fr1 m1, agree V r fr1 ∧ here s1 fr1 w m1 ∧ xsteps m m1.
Proof.
  induction cs as [|z' b cs IH] using cases_list_ind; intros D ts nb s s1 HI Hty Hmg E; cbn [cstmts ccases] in E.
  { injection E as <-. split_and!; [done..|]. intros n sE r w z d o fr m _ _ _ _ Ha _ Hm _. cbn. by exists fr, m. }
  t_chain E s2 v E2. t_chain E s3 cb E3. t_chain E s4 b1 E4. t_chain E s5 b2 E5. t_chain E s6 u6 E6. t_chain E s7 u7 E7.
  t_chain E s8 u8 E8. t_chain E s9 u9 E9. t_chain E s10 u10 E10. destruct u6, u7, u8, u9, u10.
  destruct (test_step _ _ _ _ _ _ _ _ _ _ HI Hty E2 E3) as (ts3 & Hp3 & Hcb & HI3 & G3 & X3).
  destruct (create_step _ _ _ _ _ _ HI3 E4) as (Hb1 & Hn1 & HI4 & G4 & X4).
  destruct (create_step _ _ _ _ _ _ HI4 E5) as (Hb2 & Hn2 & HI5 & G5 & X5).
  destruct (brif_step _ _ _ _ _ cb b1 b2 HI5 Hcb ltac:(lia) ltac:(lia) E6) as (HI6 & G6 & X6).
  destruct (branch x b _ _ _ _ _ _ _ b1 merge HI6 ltac:(set_solver) ltac:(lia) E7 E8 E9) as (HI9 & G9 & X9).
  destruct (switch_step _ _ _ _ _ b2 HI9 ltac:(set_solver) E10) as (HI10 & G10 & X10).
  replace (({[b2]} ∪ ({[b1]} ∪ D)) ∖ {[b1]} ∖ {[b2]}) with D in HI10 by set_solver.
  destruct (IH _ _ _ _ _ HI10 (is_ty_mono _ _ _ _ Hp3 Hty) ltac:(lia) E) as (HI1 & G1 & X1).
  split; [eapply open_mono; [exact HI1|done|lia]|]. split; [exact (transitivity G3 (transitivity G4 (transitivity G5 (transitivity G6 (transitivity G9 (transitivity G10 G1))))))|].
  intros n sE r w z d o fr m IHs Hx Hb He1 Ha Hh Hm Hex. cbn [enc_cases enc_stmts] in Hb. unfold blob in Hb. rewrite !length_app in Hb.
  pose proof (ends_back _ _ _ G1 He1) as He10. pose proof (ends_back _ _ _ G10 He10) as He9.
  pose proof (ends_back _ _ _ G9 He9) as He6. pose proof (ends_back _ _ _ G4 (ends_back _ _ _ G5 (ends_back _ _ _ G6 He6))) as He3.
  destruct (X3 sE r w z fr m He3 Ha Hh Hm) as (fr3 & m3 & Ha3 & Hz3 & Hh3 & Hm3 & S3).
  pose proof (X6 sE fr3 w m3 _ He6 (X5 _ _ _ (X4 _ _ _ Hm3)) Hz3) as S6.
  cbn [select matches] in *. destruct (z =? z') eqn:Ez; cbn [orb Z.b2z Z.eqb] in *.
  - eapply reaches_steps; [etrans; [exact S3|exact S6]|]. eapply (X9 n sE); [done|done|lia|done..].
  - assert (has fr3 s10 cond z) as Hh10.
    { destruct Hh3 as [Hr3 Hv3]. split; [done|].
      pose proof (transitivity G4 (transitivity G5 (transitivity G6 (transitivity G9 G10)))) as Hg.
      destruct Hg as [(Hpre & _) _ _ _ _]. apply prefix_length in Hpre. lia. }
    pose proof (X1 n sE r w z d o fr3 _ IHs Hx ltac:(lia) He1 Ha3 Hh10 (X10 fr3 w) Hex) as Hres.
    destruct (matches z cs).
    + eapply reaches_steps; [etrans; [exact S3|exact S6]|]. exact Hres.
    + destruct Hres as (fr1 & m1 & Ha1 & Hm1 & S1). exists fr1, m1. split_and!; [done..|].
      etrans; [exact S3|]. by etrans.
Qed.

Lemma ensure_step D ts nb s s1 b :
  in_either D ts nb s → (b < nb)%nat → ensure_terminated (Some b) s = (s1, Ok ()) →
  in_closed D ts nb s1 ∧ grows s s1 ∧
  ∀ sE fr w m, ends s1 sE → here s fr w m → xsteps m (Mach b 0 fr w).
Proof.
  intros HI Hb E. destruct (triple_ok _ _ _ _ _ _ _ (triple_ensure False D ts nb b Hb) HI E) as [HI1 G].
  split_and!; try done. intros sE fr w m HE Hh. destruct (ends_facts _ _ HE) as (_ & Hc & _).
  eapply ensure_steps; [by eapply here_open|done..].
Qed.

Lemma sim_switch n x c cs d k D s s' r w o fr m :
  sim_expr n → sim_stmts n →
  fits_ctx x → Zlen (enc_stmts (SSwitch c cs d k)) < 2 ^ 28 → in_open D [] 0 s →
  cstmts clock x (SSwitch c cs d k) s = (s', Ok ()) →
  later s' → cov s' → c_vars s' ⊆ V → agree V r fr → exec (S n) r w (SSwitch c cs d k) = Some o → here s fr w m →
  reaches m o (here s').
Proof.
  intros IHe IH Hx Hb HI E Hl Hc HV Ha Hex Hm. cbn [enc_stmts enc_cases cstmts ccases] in *. cbn [CpsSem.exec] in Hex.
  cbn [length] in Hb. unfold blob in Hb. rewrite !length_app in Hb.
  t_chain E s1 v E1. t_chain E s2 b1 E2. t_chain E s3 u3 E3. t_chain E s4 u4 E4. t_chain E s5 u5 E5. t_chain E s6 u6 E6.
  destruct u3, u4, u5, u6.
  apply bind_Some in Hex as ([z w1] & Hev & Hex). apply bind_Some in Hex as (o1 & Ho1 & Hex).
  destruct (expr_step _ _ _ _ _ _ _ _ HI E1) as (ts1 & Hp1 & Ht1 & HI1 & G1 & X1).
  destruct (create_step _ _ _ _ _ _ HI1 E2) as (Hb1 & Hn1 & HI2 & G2 & X2).
  destruct (cases_step x v b1 cs _ _ _ _ _ HI2 Ht1 ltac:(lia) E3) as (HI3 & G3 & X3).
  destruct (stmts_step _ _ _ _ _ _ _ HI3 E4) as [HI4 G4].
  destruct (ensure_step _ _ _ _ _ b1 HI4 ltac:(lia) E5) as (HI5 & G5 & X5).
  destruct (switch_step _ _ _ _ _ b1 HI5 ltac:(set_solver) E6) as (HI6 & G6 & X6).
  destruct (stmts_step _ _ _ _ _ _ _ HI6 E) as [HI' G'].
  assert (ends s6 s') as He6 by done. pose proof (ends_back _ _ _ G6 He6) as He5. pose proof (ends_back _ _ _ G5 He5) as He4.
  pose proof (ends_back _ _ _ G4 He4) as He3. pose proof (ends_back _ _ _ G2 (ends_back _ _ _ G3 He3)) as He1.
  destruct (X1 n s' r w z w1 fr m IHe Hx ltac:(lia) He1 Ha Hev Hm) as (fr1 & m1 & Ha1 & Hh1 & Hm1 & S1).
  eapply reaches_steps; [exact S1|].
  assert (has fr1 s2 v z) as Hh2.
  { destruct Hh1 as [Hr1 Hv1]. split; [done|]. destruct G2 as [(Hpre & _) _ _ _ _]. apply prefix_length in Hpre. lia. }
  pose proof (X3 n s' r w1 z d o1 fr1 m1 IH Hx ltac:(lia) He3 Ha1 Hh2 (X2 _ _ _ Hm1) Ho1) as Hr.
  assert (reaches m1 o1 (λ fr' w' m', m' = Mach b1 0 fr' w')) as Hr1.
  { destruct (matches z cs) eqn:Em; [done|]. rewrite select_none in Ho1 by done.
    destruct Hr as (fr3 & m3 & Ha3 & Hm3 & S3). eapply reaches_steps; [exact S3|].
    destruct (ends_facts _ _ He4) as (Hl4 & Hc4 & HV4).
    assert (reaches m3 o1 (here s4)) as Hd.
    { eapply (IH x d _ s3 s4); [done|lia|by eapply open_weaken|done..]. }
    destruct o1 as [r' w'|z' w']; [|done]. destruct Hd as (fr' & m' & Ha' & Hm' & Hs).
    exists fr', (Mach b1 0 fr' w'). split_and!; [done..|]. etrans; [exact Hs|]. by eapply X5. }
  eapply reaches_then; [exact Hr1|exact Hex|]. intros r2 w2 fr3 m3 Ha3 -> Hk.
  eapply (IH x k _ s6 s'); [done|lia|by eapply open_weaken|done..|apply X6].
Qed.

(** Assignment keeps the frame and the environment in step. *)
Lemma let_step D ts nb s s1 y v :
  in_open D ts nb s → is_ty ts I64 v → emit_let y v s = (s1, Ok ()) →
  in_open D ts nb s1 ∧ grows s s1 ∧
  ∀ sE (r : env) w z fr m, ends s1 sE → agree V r fr → has fr s v z → here s fr w m →
    ∃ fr1 m1, agree V (upd y z r) fr1 ∧ here s1 fr1 w m1 ∧ xsteps m m1.
Proof.
  intros HI Hv E. destruct (triple_ok _ _ _ _ _ _ _ (triple_let False D ts nb y v Hv) HI E) as [HI1 G].
  split_and!; try done. intros sE r w z fr m HE Ha [Hz _] Hm. destruct (ends_facts _ _ HE) as (_ & Hc & HV).
  assert (∃ s0 k, fbop (push_inst (IDef k v)) s0 = (s1, Ok ()) ∧ opened s0 ∧ here s0 fr w m ∧ c_vars s0 !! y = Some k)
    as (s0 & k & E0 & Ho0 & Hm0 & Hk).
  { destruct HI as [_ [Hl Ho]]. unfold emit_let in E. destruct (c_vars s !! y) as [k|] eqn:Ey.
    - by exists s, k.
    - eexists _, _. split; [exact E|]. split_and!; [|exact Hm|apply lookup_insert_eq]. by split. }
  destruct (push_emits _ _ _ Ho0 E0) as (He & Hv0 & _).
  destruct (emits_steps s0 s1 [IDef k v] fr w (Frame (fr_regs fr) (<[k := z]> (fr_vars fr))) w m) as (m1 & Hm1 & S1);
    [done| |done|done|].
  { econstructor; [|constructor]. apply xinst_pure. cbn. by rewrite Hz. }
  assert (V !! y = Some k) as HVy by (eapply lookup_weaken; [exact Hk|]; by rewrite <-Hv0).
  exists (Frame (fr_regs fr) (<[k := z]> (fr_vars fr))), m1. split_and!; [|done..].
  intros y' k' Hy'. cbn [fr_vars]. destruct (decide (y' = y)) as [->|Hne].
  - assert (k' = k) as -> by congruence. by rewrite get_upd, lookup_insert_eq.
  - rewrite get_upd_ne, lookup_insert_ne by (first [done|intros ->; apply Hne; by eapply HV_inj]). by apply Ha.
Qed.

Lemma store_step D ts nb s s1 vv vp :
  in_open D ts nb s → is_ty ts I64 vv → is_ty ts I64 vp → store I64 vv vp 0 s = (s1, Ok ()) →
  (∃ ts1, in_open D ts1 nb s1) ∧ grows s s1 ∧
  ∀ sE (r : env) w w1 p z fr m, ends s1 sE → agree V r fr → has fr s vv z → has fr s vp p → here s fr w m →
    mem_store I64 w (wrap64 p) z = Some w1 → ∃ m1, here s1 fr w1 m1 ∧ xsteps m m1.
Proof.
  intros HI Hv Hp E.
  destruct (triple_ok _ _ _ _ _ _ _ (triple_spec False D ts nb _ _ (spec_store False ts I64 vv vp 0 Hv Hp)) HI E)
    as [(ts1 & Hp1 & _ & HI1) G1].
  split_and!; [by exists ts1|done|]. intros sE r w w1 p z fr m HE Ha Hz Hpp Hm Hst. destruct (ends_facts _ _ HE) as (_ & Hc & _).
  destruct HI as [_ Ho]. eapply does_steps; [|done|exact Hm].
  eapply ex_store; [done|exact E|done|done|]. change (wrap32 0) with 0. by rewrite Z.add_0_r.
Qed.
End activation.
End sim.
End CpsSim.
