(* ===== verification/CpsRun.v ===== *)
(** * Simulation: returns, bodies, functions

    The statement simulation put together, and the simulation of calls: running
    the code emitted for a function is what the function means. Module
    [CpsRefine]: the compiler is correct. *)

From S2P Require Import Prelude Cursor Text Auth Clif Symbols Cps CpsLang CpsFuse CpsProgram CpsWf CpsFunc CpsGate CpsSem CpsCorrect CpsSim.
Import Clif Cps CpsLang CpsFuse CpsProgram CpsWf CpsFunc CpsGate CpsSem CpsCorrect CpsSim.

Module CpsRun.
Section sim.
Context {J : Type} `{ClifModuleLaws J} {W : Type} `{Memory W}.
Variable clock : nat → Z.
Abbreviation cm := (stm (@cg J) bytes).
Abbreviation types s := (f_types (fb_func (c_fb s))).
Abbreviation blocks s := (f_blocks (fb_func (c_fb s))).
Abbreviation nvals s := (length (f_types (fb_func (c_fb s)))).
Variable jF : J.
Variable names : gmap bytes func_id.
Variable code : func_id → option func.
Variable native : callee W.
Variable functions : func_id → option fdef.
Variable ext : callee W.

Abbreviation eval := (eval names (sym jF) functions ext).
Abbreviation evals := (evals names (sym jF) functions ext).
Abbreviation exec := (exec names (sym jF) functions ext).
Abbreviation invoke := (invoke names (sym jF) functions ext).
Abbreviation later := (later jF).
Abbreviation does := (does code native).
Abbreviation sims := (sims code native).
Abbreviation sim_expr := (sim_expr clock jF names code native functions ext).
Abbreviation sim_exprs := (sim_exprs clock jF names code native functions ext).
Abbreviation fits_ctx := (fits_ctx names).

Section activation.
Variable F : func.
Variable V : gmap bytes variable.
Hypothesis HV_inj : ∀ y y' k, V !! y = Some k → V !! y' = Some k → y = y'.
Abbreviation xsteps := (xsteps code native F).
Abbreviation xdone := (xdone code native F).
Abbreviation cov := (cov (J:=J) F).
Abbreviation here := (here (J:=J) (W:=W)).
Abbreviation sim_stmts := (sim_stmts clock jF names code native functions ext F V).

Ltac t_chain E s a Ea := apply bind_inv_ok in E as (s & a & Ea & E).

(** ** Returns *)
Lemma return_done D ts nb s s1 v z fr w m :
  in_open D ts nb s → is_ty ts I64 v → (_ ← return_ [v]; terminate) s = (s1, Ok ()) → cov s1 → here s fr w m →
  fr_regs fr !! v = Some z → xdone m z w.
Proof.
  intros HI Hv E Hc Hm Hz. t_chain E s2 u E2. destruct u. injection E as <-. exists m. split; [reflexivity|]. exists 0%nat.
  rewrite (term_step code native F D ts nb s s2 (TReturn [v]) fr w m); try done; cbn.
  - by rewrite Hz.
  - exists v. split; [done|]. destruct HI as [(_ & Hp & _) _]. by eapply is_ty_mono.
Qed.

(** A value emitted, then returned. *)
Lemma value_done D ts nb (mk : cm value) s s' fr w z w' m :
  in_open D ts nb s → spec False ts mk i64v → (v ← mk; _ ← return_ [v]; terminate) s = (s', Ok ()) →
  (∀ s1 v, mk s = (s1, Ok v) → grows s1 s' → ∃ fr', does s s1 fr w fr' w' ∧ has fr' s1 v z) →
  cov s' → here s fr w m → xdone m z w'.
Proof.
  intros HI Hs E Hmk Hc Hm. t_chain E s1 v E1.
  destruct (triple_ok _ _ _ _ _ _ _ (triple_spec False D ts nb _ _ Hs) HI E1) as [(ts1 & Hp1 & Hv & HI1) G1].
  destruct (triple_ok _ _ _ _ _ _ _ (triple_return_term False D ts1 nb v Hv) HI1 E) as [_ G2].
  destruct (Hmk s1 v E1 G2) as (fr1 & Hd & [Hz _]).
  destruct (does_steps code native F s s1 fr w fr1 w' m Hd) as (m1 & Hm1 & S1); [by eapply cov_back|done|].
  destruct (return_done D ts1 nb s1 s' v z fr1 w' m1) as (m2 & S2 & Hd2); try done.
  exists m2. split; [by etrans|done].
Qed.

(** The engine's declarations move no code. *)
Lemma ing_here {A} (p : stm (@globals J) bytes A) (s s1 : @cg J) a fr (w : W) m :
  ing p s = (s1, a) → here s fr w m → here s1 fr w m.
Proof. unfold ing. destruct (p (c_g s)) as [g r]. by intros [= <- <-]. Qed.
Lemma func_ref_here x f n (s s1 : @cg J) a fr (w : W) m :
  func_ref x f n s = (s1, Ok a) → here s fr w m → here s1 fr w m.
Proof.
  unfold func_ref. destruct (x_name_map x !! f); [by intros [= <- <-]|].
  destruct (x_import_map x !! f); [by intros [= <- <-]|]. apply ing_here.
Qed.

Lemma return_app_done x c D ts nb f vs zs s s' fr w z w' m :
  fits_ctx x → sims c → in_open D ts nb s → i64s vs ts → emit_return_app clock x f vs s = (s', Ok ()) →
  later s' → cov s' → Forall2 (has fr s) vs zs → Zlen vs < 2 ^ 28 →
  apply names (sym jF) c true f zs w = Some (z, w') → here s fr w m → xdone m z w'.
Proof.
  intros [Hx1 Hx2] Hsim HI Hvs E Hl Hc HF Hb Hm Hh. unfold emit_return_app in E. t_chain E s1 u E1.
  destruct (triple_ok _ _ _ _ _ _ _ (triple_spec False D ts nb _ _ (spec_check clock False ts _ _ _)) HI E1)
    as [(ts1 & Hp1 & _ & HI1) G1]. pose proof HI as [_ Ho]. pose proof HI1 as [_ Ho1].
  pose proof (ex_check clock code native _ _ _ _ _ _ fr w Ho E1) as Hd1.
  pose proof (all_has _ _ _ _ _ _ _ _ _ _ HF Hd1) as HF1. pose proof (ing_here _ _ _ _ _ _ _ E1 Hh) as Hh1.
  assert (i64s vs ts1) as Hvs1 by (by eapply i64s_mono). unfold apply in Hm. cbn [negb andb] in Hm.
  destruct (is_slot_get f).
  { eapply (value_done D ts1 nb (slot_get vs)); [done|by apply spec_slot_get|exact E| |done|done].
    intros s2 v E2 _. by eapply ex_slot_get. }
  case_bool_decide as Hr.
  { eapply (value_done D ts1 nb (record_new vs)); [done|by apply spec_record_new|exact E| |done|done].
    intros s2 v E2 G2. eapply ex_record_new; try done. by eapply later_grows. }
  t_chain E s2 fid E2. apply bind_Some in Hm as (fid' & Hf & Hm).
  destruct (triple_ok _ _ _ _ _ _ _ (triple_spec False D ts1 nb _ _ (spec_func_ref False ts1 x f _)) HI1 E2)
    as [(ts2 & Hp2 & _ & HI2) G2]. pose proof HI2 as [_ Ho2].
  assert (i64s vs ts2) as Hvs2 by (by eapply i64s_mono). pose proof (func_ref_here _ _ _ _ _ _ _ _ _ E2 Hh1) as Hh2.
  unfold emit_return_call, unless_terminated in E. destruct Ho2 as [Hlive Hop]. rewrite Hlive in E.
  assert (value_call : (v ← ins I64 (λ d, ICall d fid vs); _ ← return_ [v]; terminate) s2 = (s', Ok ())).
  { unfold call in E. rewrite !stm_assoc in E. exact E. }
  eapply (value_done D ts2 nb (ins I64 (λ d, ICall d fid vs))); [done| |exact value_call| |done|done].
  { apply spec_ins. cbn. intros. split; [done|]. by eapply i64s_mono. }
  intros s3 v E3 G3. assert (later s2) as Hl2.
  { eapply (later_of clock jF x); [apply permits_ins|exact E3|]. by eapply later_grows. }
  destruct (ex_func_ref jF names code native x Hx1 Hx2 f (length vs) s1 s2 fid fr w Ho1 E2 Hl2) as [Hd2 Hf2].
  assert (fid' = fid) as -> by congruence. apply Hsim in Hm as [N Hm].
  destruct (ex_call code native fid vs zs z s2 s3 [v] fr w w' N) as (d & fr' & [= <-] & Hd3 & Hh3).
  { by split. } { unfold call. by rewrite (bind_ok _ _ _ _ _ E3). } { by eapply all_has. } { done. }
  by exists fr'.
Qed.
(** The operand of a return. *)
Lemma value_return_done x e n D s s' r w z w' fr m :
  sim_expr n → fits_ctx x → Zlen (enc_expr e) < 2 ^ 28 → in_open D [] 0 s →
  (v ← cexpr clock x e; emit_return [v]) s = (s', Ok ()) → later s' → cov s' → c_vars s' ⊆ V → agree V r fr →
  eval n r w e = Some (z, w') → here s fr w m → xdone m z w'.
Proof.
  intros IH Hx Hb HI E Hl Hc HV Ha Hev Hm.
  assert ((v ← cexpr clock x e; _ ← return_ [v]; terminate) s = (s', Ok ())) as E'.
  { t_chain E s1 v E1. rewrite (bind_ok _ _ _ _ _ E1).
    destruct (expr_step clock jF names code native functions ext F V x e D [] 0 s s1 v HI E1) as (ts1 & _ & _ & [_ [Hlive _]] & _).
    unfold emit_return, unless_terminated in E. by rewrite Hlive in E. }
  eapply (value_done D [] 0 (cexpr clock x e)); [done|by apply spec_expr|exact E'| |done|done].
  intros s1 v E1 G1. destruct HI as [_ Ho]. eapply (IH x e s s1 v V); try done; [by eapply later_grows|].
  destruct (Hx) as [_ _]. pose proof G1 as [_ Hv1 _ _ _].
  assert (c_vars s ⊆ c_vars s1) as Hv0; [|etrans; [exact Hv0|]; etrans; [exact Hv1|exact HV]].
  pose proof (spec_expr clock False x e [] (no_ar _) s Ho (prefix_nil _)) as Hs. rewrite E1 in Hs.
  destruct Hs as (il & _ & -> & _). done.
Qed.

Lemma sim_return n x e dead D s s' r w o fr m :
  sims (invoke n) → sim_expr n → sim_exprs n →
  fits_ctx x → Zlen (enc_stmts (SReturn e dead)) < 2 ^ 28 → in_open D [] 0 s → creturn clock x e s = (s', Ok ()) →
  later s' → cov s' → c_vars s' ⊆ V → agree V r fr → exec (S n) r w (SReturn e dead) = Some o → here s fr w m →
  ∃ z w', o = Ret z w' ∧ xdone m z w'.
Proof.
  intros Hinv IHe IHes Hx Hb HI E Hl Hc HV Ha Hex Hm. cbn [enc_stmts enc_cases length] in Hb. rewrite length_app in Hb.
  destruct e as [k|y|f args|op a b|a|p|bs]; cbn [creturn CpsSem.exec] in *.
  all: try (apply bind_Some in Hex as ([z w1] & Hev & [= <-]); exists z, w1; split; [done|];
            eapply value_return_done; try done; lia).
  apply bind_Some in Hex as ([zs w1] & Hevs & Hex). apply bind_Some in Hex as ([z w2] & Hap & [= <-]). exists z, w2. split; [done|].
  t_chain E s1 vs E1.
  destruct (triple_ok _ _ _ _ _ _ _ (triple_spec False D [] 0 _ _ (proj2 (spec_expr_exprs clock False x) args [] (no_ar _))) HI E1)
    as [(ts1 & Hp1 & [Hvs Hlen] & HI1) G1].
  destruct (triple_ok _ _ _ _ _ _ _ (triple_return_app clock False D ts1 0 x _ vs Hvs (no_ar _)) HI1 E) as [_ G2].
  pose proof (elen_enc args) as Hel. cbn [enc_expr enc_exprs length] in Hb. rewrite !length_app in Hb. destruct HI as [_ Ho].
  destruct (IHes x args s s1 vs V r w zs w1 fr) as (fr1 & Hd & HF & _); try done; [lia|by eapply later_grows| |].
  { etrans; [apply G1|]. etrans; [apply G2|done]. }
  destruct (does_steps code native F s s1 fr w fr1 w1 m Hd) as (m1 & Hm1 & S1); [by eapply cov_back|done|].
  destruct (return_app_done x (invoke n) D ts1 0 (from_utf8_lossy f) vs zs s1 s' fr1 w1 z w2 m1) as (m2 & S2 & Hd2); try done; [lia|].
  exists m2. split; [by etrans|done].
Qed.

Lemma sim_stmts_S n :
  sims (invoke n) → (∀ i, (i ≤ n)%nat → sim_expr i) → sim_exprs n → (∀ i, (i ≤ n)%nat → sim_stmts i) → sim_stmts (S n).
Proof.
  intros Hinv IHe IHes IH. pose proof (IHe n (Nat.le_refl n)) as IHen. pose proof (IH n (Nat.le_refl n)) as IHn.
  intros x ss D s s' r w o fr m Hx Hb HI E Hl Hc HV Ha Hex Hm. destruct ss as [|e dead|c t f k|c b k|c cs d k|y e k|p v k|e k].
  - cbn in E, Hex. injection E as <-. injection Hex as <-. exists fr, m. by split_and!.
  - edestruct (sim_return n x e dead) as (z & w' & -> & Hd); try done.
  - by eapply sim_if.
  - by eapply sim_while.
  - by eapply sim_switch.
  - cbn [cstmts enc_stmts enc_cases CpsSem.exec length] in *. unfold blob in Hb. rewrite !length_app in Hb.
    t_chain E s1 v E1. t_chain E s2 u E2. destruct u. apply bind_Some in Hex as ([z w1] & Hev & Hex).
    destruct (expr_step clock jF names code native functions ext F V _ _ _ _ _ _ _ _ HI E1) as (ts1 & Hp1 & Ht1 & HI1 & G1 & X1).
    destruct (let_step jF code native F V HV_inj _ _ _ _ _ _ _ HI1 Ht1 E2) as (HI2 & G2 & X2).
    destruct (stmts_step clock _ _ _ _ _ _ _ HI2 E) as [_ G'].
    assert (ends jF F V s2 s') as He2 by done. pose proof (ends_back _ _ _ _ _ _ G2 He2) as He1.
    destruct (X1 n s' r w z w1 fr m IHen Hx ltac:(lia) He1 Ha Hev Hm) as (fr1 & m1 & Ha1 & Hh1 & Hm1 & S1).
    destruct (X2 s' r w1 z fr1 m1 He2 Ha1 Hh1 Hm1) as (fr2 & m2 & Ha2 & Hm2 & S2).
    eapply reaches_steps; [etrans; [exact S1|exact S2]|].
    eapply (IHn x k _ s2 s'); [done|lia|by eapply open_weaken|done..].
  - cbn [cstmts enc_stmts enc_cases CpsSem.exec length] in *. rewrite !length_app in Hb.
    t_chain E s1 vp E1. t_chain E s2 vv E2. t_chain E s3 u E3. destruct u.
    apply bind_Some in Hex as ([zp w1] & Hev & Hex). apply bind_Some in Hex as ([zv w2] & Hev2 & Hex). apply bind_Some in Hex as (w3 & Hst & Hex).
    destruct (expr_step clock jF names code native functions ext F V _ _ _ _ _ _ _ _ HI E1) as (ts1 & Hp1 & Ht1 & HI1 & G1 & _).
    destruct (expr_step clock jF names code native functions ext F V _ _ _ _ _ _ _ _ HI1 E2) as (ts2 & Hp2 & Ht2 & HI2 & G2 & _).
    destruct (store_step jF code native F V _ _ _ _ _ _ _ HI2 Ht2 (is_ty_mono _ _ _ _ Hp2 Ht1) E3) as ((ts3 & HI3) & G3 & X3).
    destruct (stmts_step clock _ _ _ _ _ _ _ HI3 E) as [_ G'].
    assert (ends jF F V s3 s') as He3 by done. pose proof (ends_back _ _ _ _ _ _ G3 He3) as He2. pose proof (ends_back _ _ _ _ _ _ G2 He2) as He1.
    destruct (ends_facts _ _ _ _ _ He1) as (Hl1 & _ & HV1). destruct (ends_facts _ _ _ _ _ He2) as (Hl2 & Hc2 & _).
    assert (c_vars s ⊆ V) as HV0 by (etrans; [apply G1|done]).
    pose proof HI as [_ Ho]. pose proof HI1 as [_ Ho1].
    destruct (IHen x p s s1 vp V r w zp w1 fr) as (fr1 & Hd1 & Hh1); try done; [lia|].
    destruct (does_vars _ _ _ _ _ _ _ _ V r Hd1 HV0 Ha) as [_ Ha1].
    destruct (IHen x v s1 s2 vv V r w1 zv w2 fr1) as (fr2 & Hd2 & Hh2); try done; [lia|].
    destruct (does_vars _ _ _ _ _ _ _ _ V r Hd2 HV1 Ha1) as [_ Ha2].
    destruct (does_steps code native F s s2 fr w fr2 w2 m) as (m2 & Hm2 & S2); [by eapply does_trans|done|done|].
    destruct (X3 s' r w2 w3 zp zv fr2 m2 He3 Ha2 Hh2 (has_does _ _ _ _ _ _ _ _ _ _ Hh1 Hd2) Hm2 Hst) as (m3 & Hm3 & S3).
    eapply reaches_steps; [etrans; [exact S2|exact S3]|].
    eapply (IHn x k _ s3 s'); [done|lia|by eapply open_weaken|done..].
  - cbn [cstmts enc_stmts enc_cases CpsSem.exec length] in *. rewrite !length_app in Hb.
    t_chain E s1 v E1. apply bind_Some in Hex as ([z w1] & Hev & Hex).
    destruct (expr_step clock jF names code native functions ext F V _ _ _ _ _ _ _ _ HI E1) as (ts1 & Hp1 & Ht1 & HI1 & G1 & X1).
    destruct (stmts_step clock _ _ _ _ _ _ _ HI1 E) as [_ G'].
    assert (ends jF F V s1 s') as He1 by done.
    destruct (X1 n s' r w z w1 fr m IHen Hx ltac:(lia) He1 Ha Hev Hm) as (fr1 & m1 & Ha1 & Hh1 & Hm1 & S1).
    eapply reaches_steps; [exact S1|]. eapply (IHn x k _ s1 s'); [done|lia|by eapply open_weaken|done..].
Qed.
End activation.

(** ** Parameters *)
Lemma defs_run regs (w : W) l : ∀ vars,
  Forall (λ j, is_Some (regs !! j)) l →
  ∃ vars', xinsts code native ((λ j, IDef j j) <$> l) (Frame regs vars) w (Frame regs vars') w ∧
    ∀ k, vars' !! k = if decide (k ∈ l) then regs !! k else vars !! k.
Proof.
  induction l as [|j l IH]; intros vars Hl; [exists vars; split; [constructor|done]|].
  inversion_clear Hl as [|? ? [z Hz] Hl']. destruct (IH (<[j := z]> vars) Hl') as (vars' & Hx & Hv). exists vars'. split.
  - cbn [fmap list_fmap]. econstructor; [|exact Hx]. apply xinst_pure. cbn. by rewrite Hz.
  - intros k. rewrite Hv. destruct (decide (k = j)) as [->|Hne].
    + rewrite (decide_True (P:=j ∈ j :: l)) by set_solver. rewrite lookup_insert_eq. by destruct (decide _).
    + rewrite lookup_insert_ne by done. by destruct (decide (k ∈ l)), (decide (k ∈ j :: l)); set_solver.
Qed.

Lemma args_lookup (vs : list Z) k :
  (list_to_map (zip (seq 0 (length vs)) vs) : gmap nat Z) !! k = vs !! k.
Proof.
  assert (fst <$> zip (seq 0 (length vs)) vs = seq 0 (length vs)) as Hf by (apply fst_zip; rewrite length_seq; lia).
  destruct (vs !! k) as [v|] eqn:Hk.
  - apply elem_of_list_to_map_1; [rewrite Hf; apply NoDup_seq|]. apply list_elem_of_lookup. exists k.
    apply lookup_zip_with_Some. exists k, v. split_and!; [done| |done]. apply lookup_seq_lt. by eapply lookup_lt_Some.
  - apply not_elem_of_list_to_map_1. rewrite Hf. intros Hin%elem_of_seq. apply lookup_ge_None in Hk. lia.
Qed.

(** The parameters' variables hold what the environment says. *)
Lemma bound_env ps (vs : list Z) : length vs = length ps → ∀ y,
  match bound_vars (from_utf8_lossy <$> ps) 0 0 ∅ (length ps) !! y with
  | Some k => (k < length ps)%nat ∧ get (bind_env ps vs) y = default 0 (vs !! k)
  | None => get (bind_env ps vs) y = 0
  end.
Proof.
  intros Hlen y. unfold bound_vars, bind_env.
  assert (∀ j, (j ≤ length ps)%nat →
    match foldl (λ m j, <[pname (from_utf8_lossy <$> ps) (0 + j) := (0 + j)%nat]> m) (∅ : gmap bytes nat) (seq 0 j) !! y with
    | Some k => (k < j)%nat ∧ get (foldl (λ e '(x, v), upd (from_utf8_lossy x) v e) no_vars (take j (zip ps vs))) y = default 0 (vs !! k)
    | None => get (foldl (λ e '(x, v), upd (from_utf8_lossy x) v e) no_vars (take j (zip ps vs))) y = 0
    end) as Hj.
  { induction j as [|j IH]; intros Hj; [done|]. specialize (IH ltac:(lia)).
    destruct (lookup_lt_is_Some_2 ps j) as [p Hp]; [lia|]. destruct (lookup_lt_is_Some_2 vs j) as [v Hv]; [lia|].
    rewrite seq_S, foldl_snoc, (take_S_r _ _ (p, v)), foldl_snoc by (by apply lookup_zip_with_Some; eauto).
    cbn [Nat.add]. unfold pname at 1. rewrite list_lookup_fmap, Hp. cbn [fmap option_fmap option_map default].
    destruct (decide (from_utf8_lossy p = y)) as [<-|Hne].
    - rewrite lookup_insert_eq, get_upd, Hv. split; [lia|done].
    - rewrite lookup_insert_ne, get_upd_ne by done. destruct (foldl _ ∅ (seq 0 j) !! y) as [k|]; [|done].
      destruct IH. split; [lia|done]. }
  specialize (Hj (length ps) (Nat.le_refl _)). rewrite take_ge in Hj; [exact Hj|]. rewrite length_zip_with. lia.
Qed.

(** ** Levels *)
Lemma expr_levels n : (∀ i, (i < n)%nat → sims (invoke i)) → ∀ i, (i ≤ n)%nat → sim_expr i ∧ sim_exprs i.
Proof.
  intros Hinv. induction i as [|i IH]; intros Hi; [by split; intros ? ?|]. destruct (IH ltac:(lia)) as [He Hes].
  split; [apply sim_expr_S|apply sim_exprs_S]; try done. apply Hinv. lia.
Qed.
Lemma stmt_levels F V n :
  (∀ y y' k, V !! y = Some k → V !! y' = Some k → y = y') → (∀ i, (i < n)%nat → sims (invoke i)) →
  ∀ i, (i ≤ n)%nat → sim_stmts clock jF names code native functions ext F V i.
Proof.
  intros HV Hinv. induction i as [i IH] using lt_wf_ind. intros Hi. destruct i as [|i]; [by intros ? ?|].
  apply sim_stmts_S; [done|apply Hinv; lia|intros j Hj; apply (expr_levels n Hinv); lia|apply (expr_levels n Hinv); lia|].
  intros j Hj. apply IH; lia.
Qed.
(** ** Functions *)
Definition result (o : @out W) : Z * W := match o with Fall _ w => (0, w) | Ret z w => (z, w) end.

(** A body that falls off its end returns 0. *)
Lemma fall_done F D ts nb s s' fr w m :
  in_either D ts nb s → ensure_terminated None s = (s', Ok ()) → cov (J:=J) F s' → here s fr w m →
  xdone code native F m 0 w.
Proof.
  intros HI E Hc Hm. pose proof (here_open _ _ _ _ _ _ _ HI Hm) as HO. pose proof HO as [_ [Hlive Ho]].
  unfold ensure_terminated in E. rewrite Hlive in E.
  assert ((v ← iconst I64 0; _ ← return_ [v]; terminate) s = (s', Ok ())) as E'.
  { apply bind_inv_ok in E as (s1 & v & E1 & E). rewrite (bind_ok _ _ _ _ _ E1).
    destruct (ex_iconst code native _ _ _ _ _ fr w (conj Hlive Ho) E1) as (fr1 & Hd & _).
    destruct (does_opened _ _ _ _ _ _ _ _ Hd (conj Hlive Ho)) as [Hl1 _].
    unfold emit_return, unless_terminated in E. by rewrite Hl1 in E. }
  eapply value_done; [exact HO|apply spec_iconst|exact E'| |done|done].
  intros s1 v E1 _. eapply ex_iconst; [by split|done].
Qed.

(** The state in which the statements of a body are emitted. *)
Lemma params_here ps (vs : list Z) g w :
  length vs = length ps →
  ∃ s4, bind_params 0 (length ps) (from_utf8_lossy <$> ps) (entered (length ps) g) = (s4, Ok ()) ∧
    in_open ∅ [] 0 s4 ∧ g_jit (c_g s4) = g_jit g ∧
    ∀ F V s5, cov F s5 → grows s4 s5 → c_vars s5 = V →
    ∃ m fr, start F vs w = Some m ∧ agree V (bind_env ps vs) fr ∧ ∃ m4, here s4 fr w m4 ∧ xsteps code native F m m4.
Proof.
  intros Hlen. destruct (entered_good (length ps) g) as [Hg Ho].
  destruct (bind_params_spec (length ps) (from_utf8_lossy <$> ps) 0 (entered (length ps) g))
    as (s4 & E4 & Hg4 & Ho4 & He4 & _ & Hc4 & Hv4 & Hn4); [done..|].
  exists s4. split_and!; [done| |by rewrite Hc4|].
  { split; [|done]. split_and!; [done|apply prefix_nil|lia]. }
  intros F V s5 Hc G HV. assert (cov F s4) as Hc4' by (by eapply cov_back). cbn [c_fb entered fb_nvars Nat.add] in He4, Hn4.
  set (regs := list_to_map (zip (seq 0 (length vs)) vs) : gmap nat Z).
  destruct (defs_run regs w (seq 0 (length ps)) ∅) as (vars' & Hx & Hvars).
  { apply Forall_forall. intros j Hj%elem_of_seq. unfold regs. rewrite args_lookup. apply lookup_lt_is_Some_2. lia. }
  exists (Mach 0%nat 0%nat (Frame regs ∅) w), (Frame regs vars'). split_and!.
  - unfold start. destruct Hc4' as (_ & Hp & _). destruct He4 as [_ _ Hps _ _ _ _ _ _]. rewrite Hp, Hps. cbn [c_fb entered fb_func f_params].
    rewrite length_seq, option_guard_True by done. unfold regs. by rewrite Hlen.
  - intros y k Hy. cbn [fr_vars]. rewrite Hvars. pose proof (bound_env ps vs Hlen y) as Hb.
    cbn [c_fb entered fb_nvars c_vars] in Hv4. rewrite <-Hv4 in Hb.
    destruct (c_vars s4 !! y) as [k'|] eqn:Hy4.
    + assert (V !! y = Some k') as Hy' by (rewrite <-HV; eapply lookup_weaken; [exact Hy4|apply G]).
      assert (k' = k) as -> by congruence. destruct Hb as [Hk ->]. rewrite decide_True by (apply elem_of_seq; lia).
      unfold regs. by rewrite args_lookup.
    + rewrite Hb. destruct G as [_ _ _ _ [_ Hf]]. rewrite <-HV in Hy. destruct (Hf y k Hy) as [?|Hk]; [congruence|].
      rewrite decide_False; [done|]. intros Hin%elem_of_seq. lia.
  - eapply (emits_steps code native F (entered (length ps) g) s4); [exact He4|exact Hx|done|].
    exists 0%nat, (Blk [] None). split; [done|reflexivity].
Qed.

(** A function does what its body means. *)
Lemma function_sim n x h ps ss vs g s' F w o :
  (∀ i, (i < n)%nat → sims (invoke i)) → fits_ctx x → Zlen (enc_stmts ss) < 2 ^ 28 →
  h_param_count h = Zlen ps → h_params h = from_utf8_lossy <$> ps →
  cbody clock x h ss (start_function g) = (s', Ok ()) → finalize (c_fb s') = Some F → later s' →
  length vs = length ps → exec n (bind_env ps vs) w ss = Some o →
  ∃ m, start F vs w = Some m ∧ xdone code native F m (result o).1 (result o).2.
Proof.
  intros Hinv Hx Hb Hpc Hpn E HF Hl Hlen Hex. unfold cbody in E. rewrite Hpc, Hpn, Nat2Z.id in E.
  rewrite (entry_spec (length ps) g (λ _, _ ← bind_params 0 (length ps) (from_utf8_lossy <$> ps);
    _ ← cstmts clock x ss; _ ← ensure_terminated None; seal_all)) in E.
  destruct (params_here ps vs g w Hlen) as (s4 & E4 & HI4 & _ & Hgo). rewrite (bind_ok _ _ _ _ _ E4) in E.
  apply bind_inv_ok in E as (s5 & u5 & E5 & E). apply bind_inv_ok in E as (s6 & u6 & E6 & E). destruct u5, u6.
  destruct (stmts_step clock _ _ _ _ _ _ _ HI4 E5) as [HI5 G5].
  destruct (triple_ok _ _ _ _ _ _ _ (triple_ensure_none False _ _ _) HI5 E6) as [_ G6].
  destruct (seal_all_spec s6) as (fb & Es & Hf & _). rewrite Es in E. injection E as <-.
  unfold finalize in HF. destruct (finished _); [|done]. injection HF as <-. cbn [set_fb c_fb].
  assert (cov (fb_func fb) s6) as Hc6 by (unfold cov; by rewrite Hf).
  assert (cov (fb_func fb) s5) as Hc5 by (by eapply cov_back).
  assert (later s5) as Hl5 by (by eapply later_grows).
  destruct (Hgo (fb_func fb) (c_vars s5) s5 Hc5 G5 eq_refl) as (m & fr & Hm & Ha & m4 & Hm4 & S4).
  exists m. split; [done|].
  pose proof (stmt_levels (fb_func fb) (c_vars s5) n (gd_inj _ _ (proj1 (proj1 HI5))) Hinv n (Nat.le_refl n)
    x ss _ s4 s5 (bind_env ps vs) w o fr m4 Hx Hb HI4 E5 Hl5 Hc5 (reflexivity _) Ha Hex Hm4) as Hr.
  pose proof (reaches_steps _ _ _ _ _ _ _ _ S4 Hr) as Hr'. destruct o as [r' w'|z w']; cbn [result fst snd]; [|exact Hr'].
  destruct Hr' as (fr' & m' & _ & Hm' & Hs).
  destruct (fall_done (fb_func fb) _ _ _ s5 s6 fr' w' m' HI5 E6 Hc6 Hm') as (m2 & S2 & Hd2).
  exists m2. split; [by etrans|done].
Qed.

(** Steps with fuel each, as one run. *)
Lemma xdone_iter F m z w : xdone code native F m z w → ∃ K, iter K F (run code native K) m = Some (z, w).
Proof.
  intros (m' & Hs & N & Hd). induction Hs as [m|m m1 m2 [N1 H1'] _ IH].
  - exists (S N). cbn [iter]. destruct (step_mono F (run code native N) (run code native (S N)) m) as [He| ->];
      [apply run_mono; lia|congruence|]. by rewrite Hd.
  - destruct (IH Hd) as [K HK]. exists (S (N1 + K)). cbn [iter].
    destruct (step_mono F (run code native N1) (run code native (S (N1 + K))) m) as [He| ->]; [apply run_mono; lia|congruence|].
    rewrite H1'. eapply iter_mono; [|by instantiate (1 := K); lia|exact HK]. apply run_mono. lia.
Qed.

(** What links the source's functions to the code. *)
Definition compiled (fid : func_id) (fd : fdef) : Prop :=
  ∃ x h g s' F, code fid = Some F ∧ fits_ctx x ∧ Zlen (enc_stmts (fd_body fd)) < 2 ^ 28 ∧
    h_param_count h = Zlen (fd_params fd) ∧ h_params h = from_utf8_lossy <$> fd_params fd ∧
    cbody clock x h (fd_body fd) (start_function g) = (s', Ok ()) ∧ finalize (c_fb s') = Some F ∧ later s'.

Lemma sims_invoke :
  (∀ fid fd, functions fid = Some fd → compiled fid fd) →
  (∀ fid vs w r, functions fid = None → ext fid vs w = Some r → ∃ N, run code native N fid vs w = Some r) →
  ∀ n, sims (invoke n).
Proof.
  intros Hfun Hext n. induction n as [n IH] using lt_wf_ind. intros fid vs w r Hr.
  destruct n as [|n]; [done|]. cbn [CpsSem.invoke] in Hr. destruct (functions fid) as [fd|] eqn:Hfd; [|by eapply Hext].
  case_bool_decide as Hlen; [|done]. apply bind_Some in Hr as (o & Hex & Hr).
  destruct (Hfun fid fd Hfd) as (x & h & g & s' & F & Hcode & Hx & Hb & Hpc & Hpn & E & HF & Hl).
  destruct (function_sim n x h (fd_params fd) (fd_body fd) vs g s' F w o) as (m & Hm & Hd); try done.
  { intros i Hi. apply IH. lia. }
  destruct (xdone_iter _ _ _ _ Hd) as [K HK]. exists (S K). cbn [run]. rewrite Hcode, Hm. cbn [mbind option_bind].
  rewrite HK. destruct o; by injection Hr as <-.
Qed.
End sim.
End CpsRun.

(** * The CPS compiler is correct

    A compiled binary, run by the engine, computes what the program it encodes
    means: the functions' ids, the bodies the engine ends with, and the
    refinement theorem. *)

Import Clif Cps CpsLang CpsFuse CpsProgram CpsWf CpsFunc CpsGate CpsSem CpsCorrect CpsSim CpsRun.

Module CpsRefine.
Section refine.
Context {J : Type} `{ClifModuleLaws J}.
Variable clock : nat → Z.

(** ** The declared functions *)
Lemma cheader_inv fd (g g1 : @globals J) h :
  Z.of_nat (size (g_exports g)) < 2 ^ 63 → cheader fd g = (g1, Ok h) →
  ∃ symbol fid, (symbol ∉ g_exports g) ∧ g_exports g1 = {[symbol]} ∪ g_exports g ∧
    sym (g_jit g1) symbol = Some fid ∧ h = header_of fd fid ∧ declares (g_jit g) (g_jit g1).
Proof.
  intros Hs E. unfold cheader, claim in E. apply bind_inv_ok in E as (g2 & s & E1 & E).
  destruct (Symbols.claim_total (from_utf8_lossy (fd_name fd)) (g_exports g) Hs) as (r & Er & Hr & _). rewrite Er in E1.
  injection E1 as <- <-. apply bind_inv_ok in E as (g3 & fid & E2 & E). injection E as <- <-.
  unfold declare_or, with_jit in E2. cbn [g_jit g_auth g_exports g_tick] in E2.
  destruct (declare_function r Export (length (fd_params fd)) (g_jit g)) as [j [f|e|]] eqn:Ed; [|done..].
  injection E2 as <- <-. exists r, f. cbn. split_and!; [done..|by eapply declare_Ok|done|].
  apply rtc_once. exists r, Export, (length (fd_params fd)). by rewrite Ed.
Qed.

(** Every function gets an export name of its own. *)
Lemma cheaders_inv fds : ∀ (g g1 : @globals J) hs,
  Z.of_nat (size (g_exports g) + length fds) < 2 ^ 63 → cheaders fds g = (g1, Ok hs) →
  declares (g_jit g) (g_jit g1) ∧
  ∃ fids symbols, hs = zip_with header_of fds fids ∧ length fids = length fds ∧ NoDup symbols ∧
    (∀ s, s ∈ symbols → s ∉ g_exports g) ∧ Forall2 (λ fid s, sym (g_jit g1) s = Some fid) fids symbols.
Proof.
  induction fds as [|fd fds IH]; intros g g1 hs Hs E; cbn [cheaders] in E.
  { injection E as <- <-. split; [reflexivity|]. exists [], []. split_and!; [done|done|constructor|set_solver|constructor]. }
  apply bind_inv_ok in E as (g2 & h & E1 & E). apply bind_inv_ok in E as (g3 & hs' & E2 & E). injection E as <- <-. cbn [length] in Hs.
  apply cheader_inv in E1 as (s & fid & Hf & He & Hsym & -> & Hd); [|lia].
  assert (size (g_exports g2) = S (size (g_exports g))) as Hsz by (rewrite He, size_union, size_singleton by set_solver; lia).
  apply IH in E2 as (Hd2 & fids & symbols & -> & Hl & Hnd & Hfr & HF); [|lia].
  split; [by etrans|]. exists (fid :: fids), (s :: symbols). cbn [length zip_with]. split_and!; [done|lia| | |].
  - constructor; [|done]. intros Hin%Hfr. set_solver.
  - intros s' [->|Hin]%elem_of_cons; [done|]. apply Hfr in Hin. set_solver.
  - constructor; [|done]. by eapply declares_sym.
Qed.

Lemma ids_distinct (j : J) fids symbols :
  NoDup symbols → Forall2 (λ fid s, sym j s = Some fid) fids symbols → NoDup fids.
Proof.
  intros Hnd HF. induction HF as [|fid s fids symbols Hs HF IH]; [constructor|].
  inversion_clear Hnd as [|? ? Hns Hnd']. constructor; [|by apply IH].
  intros Hin. apply list_elem_of_lookup in Hin as [i Hi]. destruct (Forall2_lookup_l _ _ _ _ _ HF Hi) as (s' & Hs' & Hsym).
  apply Hns. rewrite (sym_inj j s s' fid Hs Hsym). by apply list_elem_of_lookup; exists i.
Qed.

(** ** The defined functions *)
Lemma declares_body j j' fid : declares (J:=J) j j' → body_of j' fid = body_of j fid.
Proof. intros Hd. induction Hd as [|j1 j2 j3 (n & l & a & ->) _ IH]; [done|]. rewrite IH. apply declare_body. Qed.

(** What was declared in [j] still is in [j']. *)
Definition keeps_syms (j j' : J) : Prop := ∀ n fid, sym j n = Some fid → sym j' n = Some fid.

(** The body in the engine is the code emitted for the function. *)
Definition body_emitted (names : gmap bytes func_id) (mn : bytes) (jF : J) (h : header) (ss : stmts) : Prop :=
  ∃ g s F, let x := {| x_name_map := names; x_import_map := ∅; x_caller := h_name h; x_module := mn |} in
    cbody clock x h ss (start_function g) = (s, Ok ()) ∧ finalize (c_fb s) = Some F ∧
    body_of jF (h_func_id h) = Some F ∧ keeps_syms (g_jit (c_g s)) jF.

Lemma cfunction_inv names mn h ss g g' :
  cfunction clock names mn h ss g = (g', Ok ()) →
  body_emitted names mn (g_jit g') h ss ∧ keeps_syms (g_jit g) (g_jit g') ∧
  ∀ fid, fid ≠ h_func_id h → body_of (g_jit g') fid = body_of (g_jit g) fid.
Proof.
  intros E. unfold cfunction in E. apply bind_inv_ok in E as (g1 & F & E1 & E). apply bind_inv_ok in E as (g2 & u & E2 & E).
  set (x := {| x_name_map := names; x_import_map := ∅; x_caller := h_name h; x_module := mn |}) in E1.
  pose proof (cbody_spec clock False x h ss g (no_ar _)) as Hb.
  destruct (cbody clock x h ss (start_function g)) as [s [[]|e|]] eqn:Ec; [|done..]. destruct Hb as (_ & Hd & _).
  destruct (finalize (c_fb s)) as [F'|] eqn:HF; [|done]. injection E1 as <- <-. injection E2 as <- _.
  unfold with_jit in E. destruct (define_function (h_func_id h) F' (g_jit (c_g s))) as [j r] eqn:Ej. injection E as <- E.
  destruct r as [[]|e|]; [|done..]. cbn [g_jit].
  assert (keeps_syms (g_jit (c_g s)) j) as Hk.
  { intros n fid Hn. pose proof (define_sym (h_func_id h) F' (g_jit (c_g s)) n) as Hdef. rewrite Ej in Hdef. cbn in Hdef. congruence. }
  split_and!.
  - exists g, s, F'. split_and!; [done..| |done]. rewrite (define_Ok _ _ _ _ _ _ Ej). by rewrite decide_True.
  - intros n fid Hn. by eapply Hk, declares_sym.
  - intros fid Hne. rewrite (define_Ok _ _ _ _ _ _ Ej), decide_False by done. by apply declares_body.
Qed.

Lemma cfunctions_inv names mn hs : ∀ g g',
  cfunctions clock names mn hs g = (g', Ok ()) → NoDup ((h_func_id ∘ fst) <$> hs) →
  Forall (λ p, body_emitted names mn (g_jit g') p.1 p.2) hs ∧ keeps_syms (g_jit g) (g_jit g') ∧
  ∀ fid, fid ∉ (h_func_id ∘ fst) <$> hs → body_of (g_jit g') fid = body_of (g_jit g) fid.
Proof.
  induction hs as [|[h ss] hs IH]; intros g g' E Hnd; cbn [cfunctions] in E.
  { injection E as <-. split_and!; [constructor|by intros ? ?|done]. }
  apply bind_inv_ok in E as (g1 & u & E1 & E). destruct u. cbn [fmap list_fmap compose fst] in *.
  inversion_clear Hnd as [|? ? Hni Hnd']. apply cfunction_inv in E1 as (Hb & Hk & Ho).
  destruct (IH _ _ E Hnd') as (HF & Hk' & Ho'). split_and!.
  - constructor; [|done]. destruct Hb as (g0 & s & F & Ec & Hf & Hbo & Hks). exists g0, s, F. cbn [fst snd]. split_and!; [done..| |].
    + by rewrite Ho'.
    + intros n fid Hn. by apply Hk', Hks.
  - intros n fid Hn. by apply Hk', Hk.
  - intros fid Hfid. rewrite Ho', Ho; set_solver.
Qed.

(** ** Sizes *)
Lemma enc_fdef_pos fd : (0 < length (enc_fdef fd))%nat ∧ (length (enc_stmts (fd_body fd)) ≤ length (enc_fdef fd))%nat.
Proof. unfold enc_fdef, blob. rewrite !length_app. cbn [length]. lia. Qed.
Lemma enc_funs_length fds :
  (length fds ≤ length (concat (enc_fdef <$> fds)))%nat ∧
  Forall (λ fd, (length (enc_stmts (fd_body fd)) ≤ length (concat (enc_fdef <$> fds)))%nat) fds.
Proof.
  induction fds as [|fd fds [IH1 IH2]]; [split; [done|constructor]|]. cbn [fmap list_fmap concat length].
  rewrite length_app. destruct (enc_fdef_pos fd). split; [lia|]. constructor; [lia|].
  eapply Forall_impl; [exact IH2|]. intros fd'. cbn. lia.
Qed.
Lemma enc_program_length p :
  (length (p_funs p) ≤ length (enc_program p))%nat ∧
  Forall (λ fd, (length (enc_stmts (fd_body fd)) ≤ length (enc_program p))%nat) (p_funs p).
Proof.
  unfold enc_program. rewrite !length_app. destruct (enc_funs_length (p_funs p)) as [H1' H2']. split; [lia|].
  eapply Forall_impl; [exact H2'|]. intros fd. cbn. lia.
Qed.

(** ** Programs *)
Section world.
Context {W : Type} `{Memory W}.

(** The functions of the program by the ids they were given. *)
Definition functions_of (fids : list func_id) (p : program) (fid : func_id) : option fdef :=
  (list_to_map (zip fids (p_funs p)) : gmap nat fdef) !! fid.

Lemma functions_of_Some fids p fid fd :
  functions_of fids p fid = Some fd → ∃ i, fids !! i = Some fid ∧ p_funs p !! i = Some fd.
Proof.
  intros Hf. unfold functions_of in Hf. apply elem_of_list_to_map_2, list_elem_of_lookup in Hf as [i Hi].
  apply lookup_zip_with_Some in Hi as (? & ? & [= <- <-] & ? & ?). by exists i.
Qed.

Lemma program_sim p (g g' : @globals J) m :
  Zlen (enc_program p) < 2 ^ 28 → Z.of_nat (size (g_exports g)) < 2 ^ 62 → cprogram clock p g = (g', Ok m) →
  ∃ fids, length fids = length (p_funs p) ∧ NoDup fids ∧
    m = {| name_map := names_of (zip_with header_of (p_funs p) fids); module_name := module_of p |} ∧
    ∀ (ext native : callee W),
      (∀ fid vs w r, functions_of fids p fid = None → ext fid vs w = Some r →
         ∃ N, run (body_of (g_jit g')) native N fid vs w = Some r) →
      ∀ n, sims (body_of (g_jit g')) native (invoke (name_map m) (sym (g_jit g')) (functions_of fids p) ext n).
Proof.
  intros Hlen Hex E. unfold cprogram in E. apply bind_inv_ok in E as (g1 & hs & E1 & E).
  apply bind_inv_ok in E as (g2 & u & E2 & E). destruct u. injection E as <- <-.
  destruct (enc_program_length p) as [Hfl Hbl].
  apply cheaders_inv in E1 as (_ & fids & symbols & -> & Hl & Hnd & _ & HF); [|lia].
  pose proof (ids_distinct _ _ _ Hnd HF) as Hdist. exists fids. split_and!; [done..|].
  set (names := names_of (zip_with header_of (p_funs p) fids)) in *. set (hs := zip_with header_of (p_funs p) fids) in *.
  assert ((h_func_id ∘ fst) <$> zip hs (fd_body <$> p_funs p) = fids) as Hids.
  { rewrite list_fmap_compose, fst_zip by (unfold hs; rewrite length_zip_with, length_fmap; lia). unfold hs.
    clear -Hl. revert fids Hl. induction (p_funs p) as [|fd fds IH]; intros [|f fids] Hl; try done. cbn in *. f_equal. apply IH. lia. }
  apply cfunctions_inv in E2 as (HB & _ & _); [|by rewrite Hids].
  intros ext native Hext n. eapply (sims_invoke clock); [|done]. intros fid fd Hf.
  apply functions_of_Some in Hf as (i & Hi & Hfd).
  assert (zip hs (fd_body <$> p_funs p) !! i = Some (header_of fd fid, fd_body fd)) as Hz.
  { apply lookup_zip_with_Some. exists (header_of fd fid), (fd_body fd). split_and!; [done| |by rewrite list_lookup_fmap, Hfd].
    apply lookup_zip_with_Some. by exists fd, fid. }
  destruct (Forall_lookup_1 _ _ _ _ HB Hz) as (g0 & s & F & Ec & Hfin & Hbo & Hks). cbn [fst snd] in *.
  pose proof (Forall_lookup_1 _ _ _ _ Hbl Hfd) as Hbody. cbn in Hbody.
  eexists _, (header_of fd fid), g0, s, F. split_and!; [exact Hbo| |lia|done|done|exact Ec|done|exact Hks]. done.
Qed.

(** C1. A compiled binary refines the program it encodes: when the compiler
    accepts a binary (under 256 MiB), the binary is the encoding of a
    well-formed program, each function has an id of its own, the returned name
    map names them, and whenever a call of any function gives a result in the
    semantics of the program (over wrapping 64-bit integers, memory with
    faults, and whatever the other functions of the engine do), running the code
    the engine now holds gives the same result and the same final memory. *)
Theorem cps_correct data (g g' : @globals J) m :
  buffer data → Zlen data < 2 ^ 28 → Z.of_nat (size (g_exports g)) < 2 ^ 62 →
  compile_cps_to_clif clock data g = (g', Ok m) →
  ∃ p trailing fids, data = enc_program p ++ trailing ∧ wf_program p ∧ wf_bodies p ∧
    length fids = length (p_funs p) ∧ NoDup fids ∧
    m = {| name_map := names_of (zip_with header_of (p_funs p) fids); module_name := module_of p |} ∧
    ∀ (native : callee W) K n fid vs w r,
      let engine := run (body_of (g_jit g')) native in
      invoke (name_map m) (sym (g_jit g')) (functions_of fids p) (engine K) n fid vs w = Some r →
      ∃ N, engine N fid vs w = Some r.
Proof.
  intros Hb Hlen Hex E. apply compile_accepted in E as (p & trailing & Hwf & Hwb & -> & E); [|done].
  rewrite length_app in Hlen.
  destruct (program_sim p g g' m) as (fids & Hl & Hnd & Hm & Hsim); [lia|done|done|].
  exists p, trailing, fids. split_and!; try done. intros native K n fid vs w r engine Hr.
  assert (∀ fid vs w r, functions_of fids p fid = None → run (body_of (g_jit g')) native K fid vs w = Some r →
            ∃ N, run (body_of (g_jit g')) native N fid vs w = Some r) as Hext by eauto.
  exact (Hsim _ native Hext n fid vs w r Hr).
Qed.
End world.
End refine.
End CpsRefine.
