(* ===== verification/Jit.v ===== *)
(** * The JIT engine of a thread ([cranelift/src/lib.rs])

    What a thread keeps: its engine, its last error, the module compiled last,
    the claimed export names; and the C entry points over it: initialization,
    compilation, hot swap, lookup, guarded execution, shutdown. Trapping
    arithmetic and the tables of native symbols. The engine itself
    ([cranelift_jit]) is an interface; a pointer is a [Z], null is 0. *)

From S2P Require Import Prelude Cursor Text Auth Clif Symbols Cps CpsCorrect.
Import Clif Cps CpsCorrect.

Module Jit.

(** ** Trapping arithmetic; [None] aborts the process *)
Definition checked (z : Z) : option Z := if (- 2 ^ 63 <=? z) && (z <? 2 ^ 63) then Some z else None.
Definition au_trapping_add (lhs rhs : Z) : option Z := checked (lhs + rhs).
Definition au_trapping_subtract (lhs rhs : Z) : option Z := checked (lhs - rhs).
Definition au_trapping_multiply (lhs rhs : Z) : option Z := checked (lhs * rhs).
(** [i64::checked_div] *)
Definition trapping_divide_checked (lhs rhs : Z) : option Z :=
  if rhs =? 0 then None else checked (Z.quot lhs rhs).
Definition au_trapping_divide (lhs rhs : Z) : option Z := trapping_divide_checked lhs rhs.

(** ** Native symbols: the names, and the Rust function or address behind *)
Inductive target := RustFn (f : bytes) | Address (a : Z).

Definition runtime_symbols : list (bytes * target) :=
  [(str "au_print_int", RustFn (str "au_print_int")); (str "au_exit", RustFn (str "au_exit"));
   (str "au_alloc", RustFn (str "au_alloc")); (str "au_free", RustFn (str "au_free"));
   (str "__union_new", RustFn (str "au_exit")); (str "__record_new", RustFn (str "au_exit"));
   (str "__slot_get", RustFn (str "au_exit"))].
Definition register_trapping_symbols : list (bytes * target) :=
  [(str "Austral.Pervasive::trappingAdd", RustFn (str "au_trapping_add"));
   (str "Austral.Pervasive::trappingSubtract", RustFn (str "au_trapping_subtract"));
   (str "Austral.Pervasive::trappingMultiply", RustFn (str "au_trapping_multiply"));
   (str "Austral.Pervasive::trappingDivide", RustFn (str "au_trapping_divide"))].

(** The kernel interface: memory, models, evolution, results, proofs. *)
Definition unfer_model_symbols : list bytes := str <$> [
  "uk_engram_store"; "uk_engram_lookup"; "uk_summarize"; "uk_version"; "uk_init"; "uk_memory_append";
   "uk_memory_read"; "uk_model_create"; "uk_model_free"; "uk_set_prior"; "uk_set_hamiltonian"; "uk_evolve";
   "uk_condition"; "uk_event_probability"; "uk_events_poll"; "uk_observe"; "uk_get_result"; "uk_last_error";
   "uk_logos_compile"; "uk_austral_unf"; "uk_austral_defeq"; "uk_snapshot"; "uk_restore"; "uk_subscribe";
   "uk_poll"; "uk_posture_get"; "uk_posture_set"; "uk_proof_verify"; "uk_symbolic_simplify"; "uk_whyml_emit";
   "uk_bayesian_update"; "uk_belief_propagation"; "uk_buf_free"; "uk_ode_analyze"; "uk_ode_measure_original"]%string.
(** Actions, blueprints, audit, agents, owner log, secrets, resources. *)
Definition unfer_action_symbols : list bytes := str <$> [
  "uk_action_submit"; "uk_action_apply"; "uk_action_reject"; "uk_action_revert"; "uk_action_get";
   "uk_action_list"; "uk_blueprint_export"; "uk_blueprint_instantiate"; "uk_audit_list"; "uk_audit_clear";
   "uk_agent_spawn"; "uk_agent_list"; "uk_agent_kill"; "uk_agent_grants"; "uk_blueprint_cell";
   "uk_blueprint_export_gadget"; "uk_blueprint_get_by_id"; "uk_blueprint_import"; "uk_blueprint_list";
   "uk_observability"; "uk_report_issue"; "uk_owner_clear"; "uk_owner_list"; "uk_owner_log";
   "uk_registry_vetted"; "uk_meter_status"; "uk_secret_put"; "uk_secret_get"; "uk_secret_revoke";
   "uk_request_resource"; "uk_resource_introduce"; "uk_resource_pending"; "uk_resource_use";
   "uk_resource_forfeit"]%string.
(** Certificates, auctions, gates, sessions, skills, durable state. *)
Definition unfer_market_symbols : list bytes := str <$> [
  "uk_cert_set_authority"; "uk_cert_mint"; "uk_cert_mint_request"; "uk_cert_transfer"; "uk_cert_burn";
   "uk_cert_status"; "uk_cert_root"; "uk_auction_open"; "uk_auction_bid"; "uk_auction_close";
   "uk_auction_report"; "uk_gate_list_pending"; "uk_gate_approve"; "uk_gate_reject"; "uk_session_fork";
   "uk_session_compact"; "uk_skill_get"; "uk_skill_list"; "uk_skill_pack_import"; "uk_skill_register";
   "uk_durable_status"; "uk_durable_snapshot_error"; "uk_certificate_issued"]%string.
Definition UNFER_SYMBOLS : list bytes := unfer_model_symbols ++ unfer_action_symbols ++ unfer_market_symbols.
Definition ZENODO_SYMBOLS : list bytes := str <$> [
  "uz_init"; "uz_push"; "uz_pull"; "uz_manifest_json"; "uz_last_error"]%string.
Definition RS_FFI_SYMBOLS : list bytes := str <$> [
  "rs_checksum"; "rs_version"; "rs_bundle_tag"]%string.

(** A kernel symbol is registered under the name of its function. *)
Definition register (names : list bytes) : list (bytes * target) := (λ n, (n, RustFn n)) <$> names.
Definition registered_unfer_symbols : list bytes := UNFER_SYMBOLS.
Definition registered_zenodo_symbols : list bytes := ZENODO_SYMBOLS.
Definition registered_rs_symbols : list bytes := RS_FFI_SYMBOLS.

(** The cargo features that decide which tables are registered. *)
Record features := { f_unfer_kernel : bool; f_zenodo_store : bool; f_tier1_rs : bool }.

Definition when (b : bool) (l : list (bytes * target)) : list (bytes * target) := if b then l else [].

(** What [cranelift_init] registers, and what a hot swap does. *)
Definition init_symbols (ft : features) (statics : list (bytes * Z)) : list (bytes * target) :=
  runtime_symbols ++ register_trapping_symbols ++
  when (f_unfer_kernel ft) (register UNFER_SYMBOLS) ++
  when (f_zenodo_store ft) (register ZENODO_SYMBOLS) ++
  when (f_tier1_rs ft) (register RS_FFI_SYMBOLS) ++
  ((λ '(n, a), (n, Address a)) <$> statics).
Definition swap_symbols (ft : features) : list (bytes * target) :=
  runtime_symbols ++ register_trapping_symbols ++
  when (f_unfer_kernel ft) (register UNFER_SYMBOLS) ++
  when (f_zenodo_store ft) (register ZENODO_SYMBOLS).

(** ** The engine *)

(** [JITModule]: made from a symbol table (the ISA and the memory arena may
    fail), finalized, and asked for the address of a function (which panics
    when the function is not finalized). *)
Class JitBackend (J : Type) := {
  jit_new : list (bytes * target) → res bytes J;
  finalize_definitions : stm J bytes ();
  get_finalized_function : J → func_id → option Z
}.

(** A panic when there is no address. *)
Definition address (o : option Z) : res bytes Z := match o with Some p => Ok p | None => Panic end.

(** [CString::new]: none with an interior NUL. *)
Definition cstring_new (s : bytes) : option bytes :=
  if bool_decide (Byte.x00 ∈ s) then None else Some s.
(** [trim_end_matches('\0')] *)
Fixpoint drop_nul (s : bytes) : bytes :=
  match s with Byte.x00 :: s => drop_nul s | _ => s end.
Definition trim_nul (s : bytes) : bytes := reverse (drop_nul (reverse s)).
(** [join] of a list of strings. *)
Definition intersperse (sep : bytes) (l : list bytes) : list bytes :=
  match l with [] => [] | x :: l => x :: concat ((λ y, [sep; y]) <$> l) end.

Section jit.
Context {J : Type} `{ClifModule J, !JitBackend J}.
Variable clock : nat → Z.
Variable ft : features.
(** The order a [HashMap] iterates in, and the text of a panic. *)
Variable hash_order : gmap bytes func_id → list (bytes * func_id).
Variable panic_reason : bytes.

(** The thread-locals of the bridge, with the process-wide authorization state
    and static symbols. *)
Record thread := Thread {
  t_jit : option J;
  t_error : option bytes;
  t_module : option CpsModule;
  t_exports : gset bytes;
  t_auth : Auth.AuthState;
  t_tick : nat;
  t_statics : list (bytes * Z)
}.

Definition thread_new (auth : Auth.AuthState) (statics : list (bytes * Z)) : thread :=
  {| t_jit := None; t_error := None; t_module := None; t_exports := ∅; t_auth := auth; t_tick := 0; t_statics := statics |}.

Definition put_jit (j : option J) (t : thread) : thread :=
  {| t_jit := j; t_error := t_error t; t_module := t_module t; t_exports := t_exports t;
     t_auth := t_auth t; t_tick := t_tick t; t_statics := t_statics t |}.
Definition put_error (e : option bytes) (t : thread) : thread :=
  {| t_jit := t_jit t; t_error := e; t_module := t_module t; t_exports := t_exports t;
     t_auth := t_auth t; t_tick := t_tick t; t_statics := t_statics t |}.
Definition put_module (m : option CpsModule) (t : thread) : thread :=
  {| t_jit := t_jit t; t_error := t_error t; t_module := m; t_exports := t_exports t;
     t_auth := t_auth t; t_tick := t_tick t; t_statics := t_statics t |}.
Definition put_exports (x : gset bytes) (t : thread) : thread :=
  {| t_jit := t_jit t; t_error := t_error t; t_module := t_module t; t_exports := x;
     t_auth := t_auth t; t_tick := t_tick t; t_statics := t_statics t |}.

Definition reset_jit (t : thread) : thread := put_exports ∅ (put_module None (put_jit None t)).
Definition set_last_error (msg : bytes) (t : thread) : thread := put_error (cstring_new msg) t.
Definition cranelift_last_error (t : thread) : option bytes := t_error t.
Definition cranelift_clear_error (t : thread) : thread := put_error None t.

(** An entry point: the thread it leaves, and its result. *)
Abbreviation tm := (stm thread bytes).
Definition fail (msg : bytes) : tm Z := λ t, (set_last_error msg t, Ok 0).

Definition cranelift_init : tm Z := λ t,
  match t_jit t with
  | Some _ => (t, Ok 1)
  | None =>
      match jit_new (init_symbols ft (t_statics t)) with
      | Ok jit => (put_jit (Some jit) t, Ok 1)
      | Err e => (set_last_error (str "JIT init failed: " ++ e) t, Ok 0)
      | Panic => (t, Panic)
      end
  end.

(** A panic becomes an error and a null result. *)
Definition compile_guarded (label : bytes) (f : tm Z) : tm Z := λ t,
  match f t with
  | (t, Panic) =>
      (set_last_error (label ++ str ": JIT panicked: " ++ panic_reason ++
                       str "; result is null (JIT module state undefined)") t, Ok 0)
  | (t, r) => (t, r)
  end.

(** The compiler on an engine, with the thread's names and the process' gate. *)
Definition compile_into (jit : J) (ir : bytes) (t : thread) : thread * J * res bytes CpsModule :=
  let '(g, r) := compile_cps_to_clif clock ir
    {| g_jit := jit; g_auth := t_auth t; g_exports := t_exports t; g_tick := t_tick t |} in
  ({| t_jit := t_jit t; t_error := t_error t; t_module := t_module t; t_exports := g_exports g;
      t_auth := g_auth g; t_tick := g_tick g; t_statics := t_statics t |}, g_jit g, r).

(** [run], then [main], then some function. *)
Definition default_entry (names : gmap bytes func_id) : option func_id :=
  match names !! str "run" with
  | Some fid => Some fid
  | None => match names !! str "main" with
            | Some fid => Some fid
            | None => snd <$> head (hash_order names)
            end
  end.

(** The name argument: null or empty is no name; invalid UTF-8 is refused. *)
Definition entry_name (name : option bytes) : option bytes :=
  match name with
  | None | Some [] => Some []
  | Some slice => if utf8_valid slice then Some (trim_nul slice) else None
  end.

Definition not_found (name_str : bytes) (names : gmap bytes func_id) : bytes :=
  str "Function '" ++ name_str ++ str "' not found. Available: [" ++
  concat (intersperse (str ", ") (fst <$> hash_order names)) ++ str "]".

(** The pointer of an accepted module. *)
Definition select_entry (jit : J) (name_str : bytes) (names : gmap bytes func_id) : tm Z := λ t,
  match name_str with
  | [] => match default_entry names with
          | Some fid => (t, address (get_finalized_function jit fid))
          | None => (t, Ok 0)
          end
  | _ => match names !! name_str with
         | Some fid => (t, address (get_finalized_function jit fid))
         | None => fail (not_found name_str names) t
         end
  end.

Definition compile_to_function_named_impl (ir : option bytes) (name : option bytes) : tm Z :=
  ready ← (λ t, cranelift_init (cranelift_clear_error t));
  if ready =? 0 then mret 0
  else match ir with
  | None | Some [] => fail (str "Empty IR passed to compiler")
  | Some ir =>
      match entry_name name with
      | None => fail (str "Invalid UTF-8 in function name")
      | Some name_str => λ t,
          match t_jit t with
          | None => (t, Panic)
          | Some jit =>
              let '(t, jit, r) := compile_into jit ir t in
              match r with
              | Ok module =>
                  let '(jit, r) := finalize_definitions jit in
                  let t := put_jit (Some jit) t in
                  match r with
                  | Err e => fail (str "Finalize failed: " ++ e) t
                  | Panic => (t, Panic)
                  | Ok _ => select_entry jit name_str (name_map module) (put_module (Some module) t)
                  end
              | Err e => fail (str "Compilation error: " ++ e) (put_jit (Some jit) t)
              | Panic => (put_jit (Some jit) t, Panic)
              end
          end
      end
  end.
Definition compile_to_function_named (ir : option bytes) (name : option bytes) : tm Z :=
  compile_guarded (str "compile") (compile_to_function_named_impl ir name).
Definition compile_to_function (ir : option bytes) : tm Z := compile_to_function_named ir None.

Definition cranelift_is_ready (t : thread) : Z := match t_jit t with Some _ => 1 | None => 0 end.
Definition cranelift_shutdown (t : thread) : thread := put_module None (put_jit None t).

(** The fresh engine is built and filled aside, then installed. *)
Definition cranelift_swap_binary_impl (ir : option bytes) : tm Z := λ t,
  let t := cranelift_clear_error t in
  match ir with
  | None | Some [] => fail (str "Empty IR passed to swap") t
  | Some ir =>
      match jit_new (swap_symbols ft) with
      | Panic => (t, Panic)
      | Err e => fail (str "Swap JIT init failed: " ++ e) t
      | Ok new_jit =>
          let '(t, new_jit, r) := compile_into new_jit ir t in
          match r with
          | Panic => (t, Panic)
          | Err e => fail (str "Swap compilation error: " ++ e) t
          | Ok module =>
              let '(new_jit, r) := finalize_definitions new_jit in
              match r with
              | Panic => (t, Panic)
              | Err e => fail (str "Swap finalize failed: " ++ e) t
              | Ok _ =>
                  let entry := match default_entry (name_map module) with
                               | Some fid => get_finalized_function new_jit fid
                               | None => Some 0
                               end in
                  match entry with
                  | Some ptr => (put_module (Some module) (put_jit (Some new_jit) t), Ok ptr)
                  | None => (t, Panic)
                  end
              end
          end
      end
  end.
Definition cranelift_swap_binary (ir : option bytes) : tm Z :=
  compile_guarded (str "swap") (cranelift_swap_binary_impl ir).

Definition lookup_function (name : option bytes) (t : thread) : res bytes Z :=
  match name with
  | None | Some [] => Ok 0
  | Some slice =>
      if utf8_valid slice then
        match t_jit t, t_module t with
        | Some jit, Some m =>
            match name_map m !! trim_nul slice with
            | Some fid => address (get_finalized_function jit fid)
            | None => Ok 0
            end
        | _, _ => Ok 0
        end
      else Ok 0
  end.

(** The names as a JSON array, in the order of the map; not escaped. *)
Definition list_compiled_function_names (t : thread) : bytes :=
  let names := match t_module t with Some m => fst <$> hash_order (name_map m) | None => [] end in
  default [] (cstring_new (str "[" ++
    concat (intersperse (str ",") ((λ n, [Byte.x22] ++ n ++ [Byte.x22]) <$> names)) ++ str "]")).

(** ** Guarded execution: [call] is the code at a pointer *)
Definition JIT_PANIC : Z := - 2 ^ 63.
Section execute.
Variable call : Z → list Z → tm Z.
Definition run_guarded (f : tm Z) : tm Z := λ t,
  match f t with
  | (t, Ok v) => (t, Ok v)
  | (t, _) =>
      (set_last_error (str "execute_function: JIT-compiled function panicked; result is unknown (JIT_PANIC i64::MIN) — check the runtime helper that call invoked") t,
       Ok JIT_PANIC)
  end.
Definition execute (ptr : Z) (args : list Z) : tm Z :=
  if ptr =? 0 then mret (-1) else run_guarded (call ptr args).
Definition execute_function (ptr : Z) : tm Z := execute ptr [].
Definition execute_function_1 (ptr arg1 : Z) : tm Z := execute ptr [arg1].
Definition execute_function_2 (ptr arg1 arg2 : Z) : tm Z := execute ptr [arg1; arg2].
End execute.
End jit.
End Jit.
