(* ===== verification/JitSafe.v ===== *)
(** * The JIT engine is used safely

    Whatever sequence of entry points a thread calls, the module it has
    installed lives in the engine it has installed, so lookups never fail; a
    failed swap changes neither; and a compiled entry point runs as the program
    means. *)

From S2P Require Import Prelude Cursor Text Auth Clif Symbols Cps CpsInv CpsLang CpsFuse CpsProgram CpsSem CpsCorrect CpsRun Jit.
Import Clif Cps CpsInv CpsLang CpsFuse CpsProgram CpsSem CpsCorrect CpsRefine Jit.

Module JitSafe.

(** ** The documented behaviour of [JITModule] *)
Class JitLaws (J : Type) `{ClifModuleLaws J, !JitBackend J} := {
  finalized : J → func_id → Prop;
  declare_finalized : ∀ n l a j fid, finalized j fid → finalized (declare_function n l a j).1 fid;
  define_finalized : ∀ fid f j fid', finalized j fid' → finalized (define_function fid f j).1 fid';
  finalize_finalized : ∀ j fid, finalized j fid → finalized (finalize_definitions j).1 fid;
  finalize_Ok : ∀ j j' u fid, finalize_definitions j = (j', Ok u) → is_Some (body_of j fid) → finalized j' fid;
  finalize_sym : ∀ j, sym (finalize_definitions j).1 = sym j;
  finalize_body : ∀ j, body_of (finalize_definitions j).1 = body_of j;
  get_finalized : ∀ j fid, finalized j fid → ∃ p, get_finalized_function j fid = Some p ∧ p ≠ 0
}.

(** ** Native symbols *)
Definition kernel_name (s : bytes) : bool :=
  negb (starts_with (str "__") s || starts_with (str "au_") s) &&
  (starts_with (str "uk_") s || starts_with (str "uz_") s || starts_with (str "rs_") s).

Lemma kernel_names : forallb kernel_name (UNFER_SYMBOLS ++ ZENODO_SYMBOLS ++ RS_FFI_SYMBOLS) = true.
Proof. vm_compute. reflexivity. Qed.
Lemma runtime_names : forallb (λ s, negb (is_gated [] s)) (fst <$> runtime_symbols ++ register_trapping_symbols) = true.
Proof. vm_compute. reflexivity. Qed.

Lemma gated_kernel caller s : kernel_name s = true → caller ≠ s → is_gated caller s = true.
Proof.
  unfold kernel_name, is_gated. intros [Hn Hp]%andb_true_iff Hne. rewrite Hp, andb_true_r.
  rewrite bool_decide_eq_false_2 by done. by rewrite orb_false_r.
Qed.

Lemma registered b l s t : (s, t) ∈ when b (register l) → s ∈ l ∧ t = RustFn s.
Proof. destruct b; [|by intros Hi%not_elem_of_nil]. intros (n & [= -> ->] & Hn)%list_elem_of_fmap. done. Qed.

Lemma ungated_runtime caller s :
  s ∈ fst <$> runtime_symbols ++ register_trapping_symbols → is_gated caller s = false.
Proof.
  intros Hs. pose proof runtime_names as Hn. apply forallb_Forall in Hn. rewrite Forall_forall in Hn. specialize (Hn s Hs).
  unfold is_gated in *. destruct (starts_with (str "__") s), (starts_with (str "au_") s); try done. cbn [orb] in *.
  destruct (bool_decide (caller = s)); [done|]. cbn [orb negb andb].
  destruct (starts_with (str "uk_") s || starts_with (str "uz_") s || starts_with (str "rs_") s) eqn:E; [|done].
  rewrite andb_true_r, negb_involutive in Hn. apply bool_decide_eq_true in Hn. subst s. discriminate.
Qed.

(** Native functions are reachable only through the gate: of the symbols
    the engine resolves natively, each kernel, store or Rust function is a
    gated callee (for any caller of another name) and resolves to the function
    of that name, and each other one is a runtime or arithmetic primitive, which
    is never gated; no name is registered twice. *)
Theorem native_symbols_gated ft :
  NoDup (fst <$> init_symbols ft []) ∧
  Forall (λ '(s, t),
    (s ∈ UNFER_SYMBOLS ++ ZENODO_SYMBOLS ++ RS_FFI_SYMBOLS ∧ t = RustFn s ∧
       ∀ caller, is_gated caller s = negb (bool_decide (caller = s))) ∨
    ((s, t) ∈ runtime_symbols ++ register_trapping_symbols ∧ ∀ caller, is_gated caller s = false))
    (init_symbols ft []).
Proof.
  split.
  { apply (bool_decide_eq_true_1 (NoDup (fst <$> init_symbols ft []))). destruct ft as [[] [] []]; vm_compute; reflexivity. }
  apply Forall_forall. intros [s t] Hin.
  assert ((s, t) ∈ runtime_symbols ++ register_trapping_symbols ∨ s ∈ UNFER_SYMBOLS ++ ZENODO_SYMBOLS ++ RS_FFI_SYMBOLS ∧ t = RustFn s)
    as [Hr|[Hk Ht]].
  { unfold init_symbols in Hin. cbn [fmap list_fmap] in Hin. repeat rewrite elem_of_app in Hin. repeat rewrite elem_of_app.
    destruct Hin as [?|[?|[Hi%registered|[Hi%registered|[Hi%registered|Hi]]]]]; [tauto..|]. by apply not_elem_of_nil in Hi. }
  - right. split; [done|]. intros caller. apply ungated_runtime, list_elem_of_fmap. by exists (s, t).
  - left. split_and!; [done..|]. intros c. destruct (decide (c = s)) as [->|Hc].
    + unfold is_gated. rewrite (bool_decide_eq_true_2 (s = s)) by done. by rewrite orb_true_r.
    + rewrite (bool_decide_eq_false_2 (c = s)) by done. apply gated_kernel; [|done]. pose proof kernel_names as Hn.
      apply forallb_Forall in Hn. rewrite Forall_forall in Hn. by apply Hn.
Qed.

(** ** Trapping arithmetic *)
Lemma checked_Some z v : checked z = Some v ↔ v = z ∧ is_i64 v.
Proof. unfold checked, is_i64. destruct (_ && _) eqn:E; [|split; [done|lia]]. split; [intros [= <-]; lia|intros [-> _]; done]. Qed.

(** A quotient is no larger than the dividend, and as large only for +-1. *)
Lemma quot_le a b : b ≠ 0 → - Z.abs a ≤ Z.quot a b ≤ Z.abs a.
Proof.
  intros Hb. assert (Z.abs (Z.quot a b) ≤ Z.abs a); [|lia]. rewrite <-Z.quot_abs by done.
  apply Z.quot_le_upper_bound; [lia|]. nia.
Qed.
Lemma quot_max a b : is_i64 a → b ≠ 0 → Z.quot a b = 2 ^ 63 → a = - 2 ^ 63 ∧ b = -1.
Proof.
  intros Ha Hb Hq. unfold is_i64 in Ha. pose proof (quot_le a b Hb). assert (a = - 2 ^ 63) as -> by lia. split; [done|].
  assert (Z.abs (Z.quot (- 2 ^ 63) b) = 2 ^ 63) as Habs by lia. rewrite <-Z.quot_abs in Habs by done.
  assert (Z.abs b = 1) as Hb1.
  { destruct (decide (Z.abs b = 1)) as [|Hne]; [done|]. exfalso.
    assert (Z.quot (Z.abs (- 2 ^ 63)) (Z.abs b) < 2 ^ 63); [|lia]. apply Z.quot_lt_upper_bound; [lia..|].
    change (Z.abs (- 2 ^ 63)) with (2 ^ 63). nia. }
  destruct (decide (b = 1)) as [->|]; [|lia]. rewrite Z.quot_1_r in Hq. lia.
Qed.

(** Trapping arithmetic on 64-bit integers returns the true sum, difference,
    product or truncated quotient when it fits in 64 bits, and aborts exactly
    when it does not (a division also on a zero divisor): among divisions, only
    that of the least integer by -1 overflows. *)
Theorem trapping_exact a b :
  is_i64 a → is_i64 b →
  (∀ v, au_trapping_add a b = Some v ↔ v = a + b ∧ is_i64 v) ∧
  (∀ v, au_trapping_subtract a b = Some v ↔ v = a - b ∧ is_i64 v) ∧
  (∀ v, au_trapping_multiply a b = Some v ↔ v = a * b ∧ is_i64 v) ∧
  (∀ v, au_trapping_divide a b = Some v ↔ b ≠ 0 ∧ v = Z.quot a b ∧ is_i64 v) ∧
  (au_trapping_divide a b = None ↔ b = 0 ∨ (a = - 2 ^ 63 ∧ b = -1)).
Proof.
  intros Ha Hb. split_and!; [intros v; apply checked_Some..| |].
  - intros v. unfold au_trapping_divide, trapping_divide_checked. destruct (Z.eqb_spec b 0) as [->|Hne].
    + split; [done|]. intros [? _]. done.
    + rewrite checked_Some. naive_solver.
  - unfold au_trapping_divide, trapping_divide_checked. destruct (Z.eqb_spec b 0) as [->|Hne]; [split; auto|].
    assert (checked (Z.quot a b) = None ↔ Z.quot a b = 2 ^ 63) as ->.
    { unfold checked, is_i64 in *. pose proof (quot_le a b Hne). destruct (_ && _) eqn:E; split; [done|lia|intros _|done].
      pose proof (Z.quot_rem' a b). lia. }
    split.
    + intros Hq. right. apply quot_max; [done..|]. done.
    + intros [?|[-> ->]]; [done|]. reflexivity.
Qed.

Section safe.
Context {J : Type} `{JitLaws J}.
Variable clock : nat → Z.
Variable ft : features.
Variable hash_order : gmap bytes func_id → list (bytes * func_id).
Variable panic_reason : bytes.
Abbreviation thread := (@thread J).
Abbreviation compile_impl := (compile_to_function_named_impl clock ft hash_order).
Abbreviation compile := (compile_to_function_named clock ft hash_order panic_reason).
Abbreviation swap_impl := (cranelift_swap_binary_impl clock ft hash_order).
Abbreviation swap := (cranelift_swap_binary clock ft hash_order panic_reason).

(** ** Every named function has a body *)
Lemma cfunctions_bodies names mn hs : ∀ (g g' : @globals J),
  cfunctions clock names mn hs g = (g', Ok ()) →
  (∀ fid, is_Some (body_of (g_jit g) fid) → is_Some (body_of (g_jit g') fid)) ∧
  Forall (λ p, is_Some (body_of (g_jit g') (h_func_id p.1))) hs.
Proof.
  induction hs as [|[h ss] hs IH]; intros g g' E; cbn [cfunctions] in E; [injection E as <-; by split|].
  apply bind_inv_ok in E as (g1 & u & E1 & E). destruct u. apply cfunction_inv in E1 as ((? & ? & F & _ & _ & Hb & _) & _ & Ho).
  destruct (IH _ _ E) as [Hk HF]. split.
  - intros fid Hf. apply Hk. destruct (decide (fid = h_func_id h)) as [->|Hne]; [by rewrite Hb|by rewrite Ho].
  - constructor; [|done]. apply Hk. cbn. by rewrite Hb.
Qed.

Lemma cheaders_length fds : ∀ (g g1 : @globals J) hs, cheaders fds g = (g1, Ok hs) → length hs = length fds.
Proof.
  induction fds as [|fd fds IH]; intros g g1 hs E; cbn [cheaders] in E; [by injection E as _ <-|].
  apply bind_inv_ok in E as (g2 & h & _ & E). apply bind_inv_ok in E as (g3 & hs' & E & E'). injection E' as _ <-.
  cbn. by rewrite (IH _ _ _ E).
Qed.

Lemma names_of_Some hs n fid : names_of hs !! n = Some fid → ∃ h, h ∈ hs ∧ h_func_id h = fid.
Proof.
  unfold names_of. assert (∀ m : gmap bytes func_id, foldl (λ m h, <[h_name h := h_func_id h]> m) m hs !! n = Some fid →
    m !! n = Some fid ∨ ∃ h, h ∈ hs ∧ h_func_id h = fid) as Hg.
  { induction hs as [|h hs IH]; intros m Hm; [by left|]. cbn in Hm. apply IH in Hm as [Hm|(h' & ? & ?)].
    - apply lookup_insert_Some in Hm as [[_ <-]|[_ ?]]; [right; exists h; set_solver|by left].
    - right. exists h'. set_solver. }
  intros Hn. apply Hg in Hn as [Hn|?]; [by rewrite lookup_empty in Hn|done].
Qed.

Lemma compiled_bodies data (g g' : @globals J) m n fid :
  buffer data → compile_cps_to_clif clock data g = (g', Ok m) → name_map m !! n = Some fid →
  is_Some (body_of (g_jit g') fid).
Proof.
  intros Hb E Hn. apply compile_accepted in E as (p & tr & _ & _ & _ & E); [|done].
  unfold cprogram in E. apply bind_inv_ok in E as (g1 & hs & E1 & E). apply bind_inv_ok in E as (g2 & u & E2 & E).
  destruct u. injection E as <- <-. cbn [name_map] in Hn. apply names_of_Some in Hn as (h & Hh & <-).
  apply cheaders_length in E1. apply cfunctions_bodies in E2 as [_ HF].
  apply list_elem_of_lookup in Hh as [i Hi]. rewrite Forall_lookup in HF.
  assert (i < length (fd_body <$> p_funs p))%nat as Hlt by (rewrite length_fmap, <-E1; by eapply lookup_lt_Some).
  destruct (lookup_lt_is_Some_2 _ _ Hlt) as [ss Hss].
  apply (HF i (h, ss)). apply lookup_zip_with_Some. by exists h, ss.
Qed.

(** ** Compilation on a thread's engine *)
Lemma compile_into_spec jit ir (t : thread) t' jit' r :
  compile_into clock jit ir t = (t', jit', r) →
  t_jit t' = t_jit t ∧ t_module t' = t_module t ∧ t_error t' = t_error t ∧
  (∀ fid, finalized jit fid → finalized jit' fid) ∧
  ∃ g', compile_cps_to_clif clock ir {| g_jit := jit; g_auth := t_auth t; g_exports := t_exports t; g_tick := t_tick t |} = (g', r) ∧
    g_jit g' = jit'.
Proof.
  unfold compile_into. destruct (compile_cps_to_clif clock ir _) as [g' r'] eqn:E. intros [= <- <- <-]. cbn.
  split_and!; [done..| |by exists g'].
  intros fid Hf. set (g := {| g_jit := jit; g_auth := _; g_exports := _; g_tick := _ |}) in E.
  assert (finalized (g_jit (compile_cps_to_clif clock ir g).1) fid) as Hk; [|by rewrite E in Hk].
  refine (compile_keeps clock (λ j, finalized j fid) _ _ ir g Hf); intros; [by apply declare_finalized|by apply define_finalized].
Qed.

(** The installed module lives in the installed engine. *)
Definition sound (t : thread) : Prop :=
  ∀ m, t_module t = Some m → ∃ j, t_jit t = Some j ∧ ∀ n fid, name_map m !! n = Some fid → finalized j fid.

Lemma sound_engine (t t' : thread) :
  sound t → t_module t' = t_module t →
  (∀ j, t_jit t = Some j → ∃ j', t_jit t' = Some j' ∧ ∀ fid, finalized j fid → finalized j' fid) → sound t'.
Proof.
  intros Hs Hm Hj m Em. rewrite Hm in Em. destruct (Hs m Em) as (j & Ej & Hf). destruct (Hj j Ej) as (j' & Ej' & Hk).
  exists j'. split; [done|]. intros n fid Hn. by eapply Hk, Hf.
Qed.
Lemma sound_same (t t' : thread) : sound t → t_module t' = t_module t → t_jit t' = t_jit t → sound t'.
Proof. intros Hs Hm Hj. eapply sound_engine; [done|done|]. intros j Ej. exists j. by rewrite Hj. Qed.

(** A module just compiled into a finalized engine. *)
Lemma sound_install (t : thread) ir g g' m j u :
  buffer ir → compile_cps_to_clif clock ir g = (g', Ok m) → finalize_definitions (g_jit g') = (j, Ok u) →
  t_module t = Some m → t_jit t = Some j → sound t.
Proof.
  intros Hb E Ef Hm Hj m' Em. assert (m' = m) as -> by congruence. exists j. split; [done|]. intros n fid Hn.
  eapply finalize_Ok; [exact Ef|]. by eapply compiled_bodies.
Qed.

Lemma select_entry_spec j name names (t : thread) :
  let '(t', r) := select_entry hash_order j name names t in t_module t' = t_module t ∧ t_jit t' = t_jit t.
Proof.
  unfold select_entry. destruct name as [|b name].
  - by destruct (default_entry hash_order names).
  - by destruct (names !! (b :: name)).
Qed.

Definition bounded (ir : option bytes) : Prop := from_option buffer True ir.

Lemma init_spec (t t' : thread) r :
  cranelift_init ft t = (t', r) → t_module t' = t_module t ∧
  (r = Ok 1 → is_Some (t_jit t')) ∧ (∀ j, t_jit t = Some j → t_jit t' = Some j).
Proof.
  unfold cranelift_init. destruct (t_jit t) as [j|] eqn:Ej; [intros [= <- <-]; rewrite Ej; naive_solver|].
  destruct (jit_new _); intros [= <- <-]; cbn; split_and!; naive_solver.
Qed.

Lemma compile_sound ir name (t : thread) : bounded ir → sound t → sound (compile_impl ir name t).1.
Proof.
  intros Hb Hs. unfold compile_to_function_named_impl, mbind, stm_bind.
  destruct (cranelift_init ft (cranelift_clear_error t)) as [t1 r] eqn:E1.
  apply init_spec in E1 as (Hm1 & _ & Hj1).
  assert (sound t1) as Hs1 by (eapply sound_engine; [exact Hs|done|]; intros j Ej; exists j; split; [by apply Hj1|done]).
  destruct r as [ready|e|]; [|done..]. destruct (ready =? 0); [done|].
  destruct ir as [[|b ir]|]; try (by eapply sound_same). destruct (entry_name name) as [ns|]; [|by eapply sound_same].
  destruct (t_jit t1) as [jit|] eqn:Ej; [|done].
  destruct (compile_into clock jit (b :: ir) t1) as [[t2 jit2] r2] eqn:E2.
  apply compile_into_spec in E2 as (Hj2 & Hm2 & _ & Hk2 & g' & Ec & <-).
  assert (sound (put_jit (Some (g_jit g')) t2)) as Hs2.
  { eapply (sound_engine t1); [done|done|]. intros j Ej'. rewrite Ej in Ej'. injection Ej' as <-. by exists (g_jit g'). }
  destruct r2 as [m|e|]; [|by eapply sound_same|done].
  destruct (finalize_definitions (g_jit g')) as [j3 r3] eqn:Ef.
  assert (sound (put_jit (Some j3) t2)) as Hs3.
  { eapply (sound_engine _ _ Hs2); [done|]. intros j [= <-]. exists j3. split; [done|]. intros fid Hf.
    pose proof (finalize_finalized _ _ Hf) as Hf'. by rewrite Ef in Hf'. }
  destruct r3 as [u|e|]; [|by eapply sound_same|done].
  pose proof (select_entry_spec j3 ns (name_map m) (put_module (Some m) (put_jit (Some j3) t2))) as Hse.
  destruct (select_entry _ _ _ _ _) as [t4 r4]. destruct Hse as [Hm4 Hj4]. cbn.
  by eapply (sound_install t4 (b :: ir)); [|exact Ec|exact Ef|..].
Qed.

(** ** The swap *)
Lemma swap_spec ir (t : thread) :
  let '(t', r) := swap_impl ir t in
  (t_jit t' = t_jit t ∧ t_module t' = t_module t ∧ (∀ p, r = Ok p → p = 0)) ∨
  (∃ data j0 j m g g' u, ir = Some data ∧ jit_new (swap_symbols ft) = Ok j0 ∧ g_jit g = j0 ∧
     compile_cps_to_clif clock data g = (g', Ok m) ∧ finalize_definitions (g_jit g') = (j, Ok u) ∧
     t_jit t' = Some j ∧ t_module t' = Some m ∧ t_error t' = None ∧
     ∃ p, r = Ok p ∧ match default_entry hash_order (name_map m) with Some fid => get_finalized_function j fid | None => Some 0 end = Some p).
Proof.
  unfold cranelift_swap_binary_impl. destruct ir as [[|b ir]|]; try (left; split_and!; [done..|by intros ? [= <-]]).
  destruct (jit_new (swap_symbols ft)) as [j0|e|] eqn:Ej; try (left; split_and!; [done..|by intros ? [= <-]]).
  destruct (compile_into clock j0 (b :: ir) (cranelift_clear_error t)) as [[t2 j2] r2] eqn:E2.
  apply compile_into_spec in E2 as (Hj2 & Hm2 & He2 & _ & g' & Ec & <-).
  destruct r2 as [m|e|]; try (left; split_and!; [done..|by intros ? [= <-]]).
  destruct (finalize_definitions (g_jit g')) as [j3 r3] eqn:Ef.
  destruct r3 as [u|e|]; try (left; split_and!; [done..|by intros ? [= <-]]).
  destruct (match default_entry hash_order (name_map m) with Some fid => get_finalized_function j3 fid | None => Some 0 end)
    as [p|] eqn:Ep; try (left; split_and!; [done..|by intros ? [= <-]]).
  right. exists (b :: ir), j0, j3, m. do 3 eexists. split_and!; [done|done| |exact Ec|exact Ef|done|done|done|by exists p]. done.
Qed.

Lemma swap_total ir (t : thread) : ∀ e, (swap_impl ir t).2 ≠ Err e.
Proof.
  intros e. unfold cranelift_swap_binary_impl. destruct ir as [[|b ir]|]; [done| |done].
  destruct (jit_new _) as [j0|?|]; [|done..]. destruct (compile_into _ _ _ _) as [[t2 j2] [m|?|]]; [|done..].
  destruct (finalize_definitions j2) as [j3 [u|?|]]; [|done..].
  by destruct (match default_entry hash_order (name_map m) with Some fid => _ | None => _ end).
Qed.

Lemma swap_sound ir (t : thread) : bounded ir → sound t → sound (swap_impl ir t).1.
Proof.
  intros Hb Hs. pose proof (swap_spec ir t) as Hsp. destruct (swap_impl ir t) as [t' r]. cbn.
  destruct Hsp as [(Hj & Hm & _)|(data & j0 & j & m & g & g' & u & -> & _ & _ & Ec & Ef & Hj & Hm & _)];
    [by eapply sound_same|by eapply sound_install].
Qed.

Lemma guarded_sound label (f : stm thread bytes Z) t : sound (f t).1 → sound (compile_guarded panic_reason label f t).1.
Proof. intros Hs. unfold compile_guarded. destruct (f t) as [t' [v|e|]]; cbn in *; [done..|]. by eapply sound_same. Qed.

(** ** Sequences of calls *)
Inductive api :=
| AInit | ACompile (ir name : option bytes) | ASwap (ir : option bytes)
| AClearError | AReset | AShutdown.
Definition api_step (t : thread) (a : api) : thread :=
  match a with
  | AInit => (cranelift_init ft t).1
  | ACompile ir name => (compile ir name t).1
  | ASwap ir => (swap ir t).1
  | AClearError => cranelift_clear_error t
  | AReset => reset_jit t
  | AShutdown => cranelift_shutdown t
  end.
Definition api_bounded (a : api) : Prop := match a with ACompile ir _ | ASwap ir => bounded ir | _ => True end.

Lemma api_sound t a : api_bounded a → sound t → sound (api_step t a).
Proof.
  destruct a as [|ir name|ir| | |]; intros Hb Hs; cbn.
  - destruct (cranelift_init ft t) as [t1 r] eqn:E1. apply init_spec in E1 as (Hm1 & _ & Hj1).
    eapply sound_engine; [exact Hs|done|]. intros j Ej. exists j. split; [by apply Hj1|done].
  - apply guarded_sound. by apply compile_sound.
  - apply guarded_sound. by apply swap_sound.
  - by eapply sound_same.
  - intros m Hm. discriminate.
  - intros m Hm. discriminate.
Qed.

Ltac null_result :=
  exists 0; split; [done|]; split; [split; [done|intros (? & ? & ? & ? & ? & ? & ? & ? & ? & ?); simplify_eq; try congruence]|intros; simplify_eq; try congruence].

(** After any sequence of initializations, compiles (accepted, refused, or
    panicking half way), swaps, resets and shutdowns on a thread, the module
    installed last is in the engine installed: a lookup of any name never
    panics, and it gives the address of the function when the module has that
    name, null otherwise. *)
Theorem jit_lookup_live auth statics calls name :
  Forall api_bounded calls →
  let t := foldl api_step (thread_new auth statics) calls in
  ∃ p, lookup_function name t = Ok p ∧
    (p ≠ 0 ↔ ∃ slice m j fid, name = Some slice ∧ slice ≠ [] ∧ utf8_valid slice = true ∧
       t_module t = Some m ∧ t_jit t = Some j ∧ name_map m !! trim_nul slice = Some fid) ∧
    (∀ slice m j fid, name = Some slice → slice ≠ [] → utf8_valid slice = true → t_module t = Some m → t_jit t = Some j →
       name_map m !! trim_nul slice = Some fid → get_finalized_function j fid = Some p).
Proof.
  intros Hc. set (t := foldl api_step (thread_new auth statics) calls). cbn zeta.
  assert (sound t) as Hs.
  { unfold t. assert (sound (thread_new auth statics)) as H0' by (intros m Hm; discriminate).
    revert H0'. generalize (thread_new auth statics : thread). induction Hc as [|a calls Ha Hc IH]; intros t0 Ht0; [done|].
    cbn. apply IH. by apply api_sound. }
  clearbody t. unfold lookup_function.
  destruct name as [[|b s]|]; [null_result| |null_result]. destruct (utf8_valid (b :: s)) eqn:Eu; [|null_result].
  destruct (t_module t) as [m|] eqn:Em; [|destruct (t_jit t); null_result].
  destruct (Hs m Em) as (j & Ej & Hf). rewrite Ej. destruct (name_map m !! trim_nul (b :: s)) as [fid|] eqn:En; [|null_result].
  destruct (get_finalized j fid (Hf _ _ En)) as (p & Hp & Hne). exists p. rewrite Hp. split; [done|].
  split; [|intros; simplify_eq; done]. split; [intros _; by exists (b :: s), m, j, fid|done].
Qed.

(** A [HashMap] iterates over its entries. *)
Hypothesis Hhash : ∀ m, hash_order m ≡ₚ map_to_list m.

Lemma default_entry_in names fid : default_entry hash_order names = Some fid → ∃ n, names !! n = Some fid.
Proof.
  unfold default_entry. destruct (names !! str "run") as [f|] eqn:Er; [intros [= <-]; by eexists|].
  destruct (names !! str "main") as [f|] eqn:Em; [intros [= <-]; by eexists|].
  intros ([n f] & Hh & ->)%fmap_Some. exists n. apply elem_of_map_to_list. rewrite <-(Hhash names).
  destruct (hash_order names); [done|]. injection Hh as ->. set_solver.
Qed.

(** C36. A hot swap is all or nothing, and never unwinds into its caller: either
    the engine and the module are the ones from before and the result is null,
    or both are new: the engine was made for the swap, the module is the
    binary compiled and finalized into it, and the result is the address of its
    entry point (null when the binary has no function). *)
Theorem jit_swap_atomic ir (t : thread) :
  bounded ir →
  ∃ t' p, swap ir t = (t', Ok p) ∧
  ((t_jit t' = t_jit t ∧ t_module t' = t_module t ∧ p = 0) ∨
   (∃ data g g' m j u, ir = Some data ∧ jit_new (swap_symbols ft) = Ok (g_jit g) ∧
      compile_cps_to_clif clock data g = (g', Ok m) ∧ finalize_definitions (g_jit g') = (j, Ok u) ∧
      t_jit t' = Some j ∧ t_module t' = Some m ∧ t_error t' = None ∧
      match default_entry hash_order (name_map m) with
      | Some fid => get_finalized_function j fid = Some p ∧ p ≠ 0
      | None => p = 0
      end)).
Proof.
  intros Hb. unfold cranelift_swap_binary, compile_guarded. pose proof (swap_spec ir t) as Hsp.
  pose proof (swap_total ir t) as Htot. destruct (swap_impl ir t) as [t' r].
  destruct Hsp as [(Hj & Hm & Hr)|(data & j0 & j & m & g & g' & u & -> & Hn & <- & Ec & Ef & Hj & Hm & He & p & -> & Hp)].
  - destruct r as [p|e|]; [|by destruct (Htot e)|].
    + exists t', p. split; [done|]. left. split_and!; [done..|]. by apply Hr.
    + eexists _, 0. split; [done|]. left. by split_and!.
  - exists t', p. split; [done|]. right. exists data, g, g', m, j, u. split_and!; try done.
    destruct (default_entry hash_order (name_map m)) as [fid|] eqn:Ed; [|by injection Hp as <-]. split; [done|].
    apply default_entry_in in Ed as [n Hname].
    destruct (get_finalized j fid) as (p' & Hp' & Hne); [|congruence].
    eapply finalize_Ok; [exact Ef|]. by eapply compiled_bodies.
Qed.

(** ** From bytes to results *)
Lemma compile_pointer data name (t t' : thread) p :
  compile (Some data) name t = (t', Ok p) → p ≠ 0 →
  t_error t' = None ∧
  ∃ jit g g' m j u name_str fid, t_jit (cranelift_init ft (cranelift_clear_error t)).1 = Some jit ∧ g_jit g = jit ∧
    g_exports g = t_exports t ∧ g_auth g = t_auth t ∧
    compile_cps_to_clif clock data g = (g', Ok m) ∧ finalize_definitions (g_jit g') = (j, Ok u) ∧
    t_jit t' = Some j ∧ t_module t' = Some m ∧ entry_name name = Some name_str ∧
    (if bool_decide (name_str = []) then default_entry hash_order (name_map m) else name_map m !! name_str) = Some fid ∧
    get_finalized_function j fid = Some p.
Proof.
  unfold compile_to_function_named, compile_guarded. intros E Hp.
  destruct (compile_impl (Some data) name t) as [t1 r] eqn:E1. destruct r as [v|e|]; [|done|by injection E as _ <-].
  injection E as <- <-. unfold compile_to_function_named_impl in E1. apply bind_inv_ok in E1 as (t2 & ready & E2 & E1).
  destruct (ready =? 0) eqn:Er; [by injection E1 as _ <-|].
  assert (t_exports t2 = t_exports t ∧ t_auth t2 = t_auth t ∧ t_error t2 = None) as (Hx2 & Ha2 & He2).
  { unfold cranelift_init in E2. cbn in E2. destruct (t_jit t); [by injection E2 as <- _|].
    destruct (jit_new _) as [j|e|]; simplify_eq; done. }
  destruct data as [|b data]; [by injection E1 as _ <-|].
  destruct (entry_name name) as [ns|] eqn:En; [|by injection E1 as _ <-].
  destruct (t_jit t2) as [jit|] eqn:Ej; [|done].
  destruct (compile_into clock jit (b :: data) t2) as [[t3 j3] r3] eqn:E3.
  apply compile_into_spec in E3 as (Hj3 & Hm3 & He3 & _ & g' & Ec & <-).
  destruct r3 as [m|e|]; [|by injection E1 as _ <-|done].
  destruct (finalize_definitions (g_jit g')) as [j4 [u|e|]] eqn:Ef; [|by injection E1 as _ <-|done].
  assert (∃ fid, (if bool_decide (ns = []) then default_entry hash_order (name_map m) else name_map m !! ns) = Some fid ∧
    get_finalized_function j4 fid = Some v ∧ t1 = put_module (Some m) (put_jit (Some j4) t3)) as (fid & Hfid & Hg & ->).
  { unfold select_entry in E1. destruct ns as [|c ns].
    - rewrite bool_decide_eq_true_2 by done. destruct (default_entry hash_order (name_map m)) as [fid|]; [|by injection E1 as _ <-].
      exists fid. destruct (get_finalized_function j4 fid) as [q|]; [|done]. by injection E1 as <- <-.
    - rewrite bool_decide_eq_false_2 by done. destruct (name_map m !! (c :: ns)) as [fid|]; [|by injection E1 as _ <-].
      exists fid. destruct (get_finalized_function j4 fid) as [q|]; [|done]. by injection E1 as <- <-. }
  split; [cbn; congruence|]. eexists jit, _, g', m, j4, u, ns, fid. rewrite E2. cbn [fst].
  split_and!; [done| | | |exact Ec|done..]; done.
Qed.

(** C13. A pointer the compile entry point returns is the entry point asked for
    (by name, or [run], [main] or some function when no name is given) of the
    program the bytes encode: the error channel is clear, the module is
    installed, and whenever a call of that function gives a result in the
    semantics of the program, running it on the thread's engine gives the same
    result and memory. *)
Theorem jit_entry_correct {W} `{Memory W} data name (t t' : thread) p :
  Zlen data < 2 ^ 28 → Z.of_nat (size (t_exports t)) < 2 ^ 62 →
  compile (Some data) name t = (t', Ok p) → p ≠ 0 →
  t_error t' = None ∧
  ∃ prog trailing fids m j name_str fid,
    data = enc_program prog ++ trailing ∧ NoDup fids ∧ length fids = length (p_funs prog) ∧
    t_module t' = Some m ∧ t_jit t' = Some j ∧ get_finalized_function j fid = Some p ∧
    name_map m = names_of (zip_with header_of (p_funs prog) fids) ∧ entry_name name = Some name_str ∧
    (if bool_decide (name_str = []) then default_entry hash_order (name_map m) else name_map m !! name_str) = Some fid ∧
    ∀ (native : callee W) K n vs w r,
      let engine := run (body_of j) native in
      invoke (name_map m) (sym j) (functions_of fids prog) (engine K) n fid vs w = Some r →
      ∃ N, engine N fid vs w = Some r.
Proof.
  intros Hlen Hex E Hp. apply compile_pointer in E as (He & jit & g & g' & m & j & u & ns & fid & _ & _ & Hge & _ & Ec & Ef & Hj & Hm & Hn & Hf & Hg);
    [|done]. split; [done|].
  apply compile_accepted in Ec as (prog & tr & _ & _ & -> & Ec); [|unfold buffer; lia]. rewrite length_app in Hlen.
  destruct (program_sim (W:=W) clock prog g g' m) as (fids & Hl & Hnd & Hmm & Hsim); [lia|by rewrite Hge|done|].
  exists prog, tr, fids, m, j, ns, fid. do 6 (split; [done|]). split; [by rewrite Hmm|]. do 2 (split; [done|]).
  intros native K n vs w r engine Hr.
  pose proof (finalize_body (g_jit g')) as Hb. pose proof (finalize_sym (g_jit g')) as Hs. rewrite Ef in Hb, Hs. cbn in Hb, Hs.
  unfold engine in *. rewrite Hb, Hs in *.
  assert (∀ fid vs w r, functions_of fids prog fid = None → run (body_of (g_jit g')) native K fid vs w = Some r →
            ∃ N, run (body_of (g_jit g')) native N fid vs w = Some r) as Hext by eauto.
  exact (Hsim _ native Hext n fid vs w r Hr).
Qed.
End safe.
End JitSafe.
