(* ===== verification/ModuleHost.v ===== *)
(** * The module host ([cranelift/src/module.rs])

    Manifests, loaded modules and isolated instances: loading (a CPS binary
    into an engine of its own, or a JavaScript sidecar), calls, hot swap with
    its no-escalation rule, instances and blueprints. Files, sidecars and the
    native kernel are an interface; compilation and authorization are the
    components of [Jit] and [Auth]. *)

From S2P Require Import Prelude Cursor Text Toml Auth Clif Symbols Cps CpsCorrect Jit.
Import Toml Clif Cps CpsCorrect Jit.

Module ModuleHost.
#[local] Existing Instance Auth.manifest_engine.

(** ** Manifests *)
Inductive GatekeeperMode := Enabled | Optional | Disabled.
#[export] Instance gatekeeper_eq_dec : EqDecision GatekeeperMode.
Proof. solve_decision. Defined.

Definition gatekeeper_from_toml (v : bytes) : GatekeeperMode :=
  if bool_decide (v = str "disabled") then Disabled
  else if bool_decide (v = str "optional") then Optional
  else Enabled.

Record ModuleManifest := {
  mm_name : bytes;
  mm_version : bytes;
  mm_archetypes : list bytes;
  mm_archetype : bytes;
  mm_entry : bytes;
  mm_grants : list bytes;
  mm_effects : list bytes;
  mm_effect_kinds : list (bytes * bytes);
  mm_observers : list bytes;
  mm_resources : list bytes;
  mm_fs_grants : list bytes;
  mm_net_grants : list bytes;
  mm_max_ms : option Z;
  mm_memory_max_bytes : option Z;
  mm_gatekeeper_mode : GatekeeperMode
}.

(** [v.get(section).and_then(|s| s.get(key))] *)
Definition get2 (v : toml) (section key : bytes) : option toml := s ← get v section; get s key.
(** An array's strings; anything else is empty. *)
Definition string_array (o : option toml) : list bytes := default [] (v ← o; a ← as_array v; Some (strings a)).

(** [{ name = "x", effect_kind = "observe" }] *)
Definition effect_kind (item : toml) : option (bytes * bytes) :=
  match item with
  | TTable t =>
      name ← field (str "name") t ≫= as_str;
      Some (name, default (str "mutate") (field (str "effect_kind") t ≫= as_str))
  | _ => None
  end.

(** [as u64] *)
Definition as_u64 (z : Z) : Z := z mod 2 ^ 64.

Definition manifest_from_toml_str `{TomlText} (s : bytes) : res bytes ModuleManifest :=
  v ← ok_or (toml_parse s) (str "TOML parse error: {}");
  module ← ok_or (get v (str "module")) (str "missing [module] section");
  name ← ok_or (get module (str "name") ≫= as_str) (str "missing module.name");
  let grants k := string_array (get2 v (str "grants") k) in
  Ok {| mm_name := name;
        mm_version := default (str "0.0.0") (get module (str "version") ≫= as_str);
        mm_archetypes := string_array (get module (str "archetypes"));
        mm_archetype := default (str "austral_cps") (get module (str "archetype") ≫= as_str);
        mm_entry := default (str "run") (get module (str "entry") ≫= as_str);
        mm_grants := grants (str "kernel");
        mm_effects := grants (str "effects");
        mm_effect_kinds := default [] (e ← get2 v (str "grants") (str "effects"); a ← as_array e; Some (omap effect_kind (a : list toml)));
        mm_observers := grants (str "observers");
        mm_resources := grants (str "resources");
        mm_fs_grants := grants (str "fs");
        mm_net_grants := grants (str "net");
        mm_max_ms := as_u64 <$> (get2 v (str "limits") (str "max_ms") ≫= as_integer);
        mm_memory_max_bytes := as_u64 <$> (get2 v (str "limits") (str "memory_bytes") ≫= as_integer);
        mm_gatekeeper_mode :=
          default Enabled (gatekeeper_from_toml <$> (get2 v (str "gatekeeper") (str "mode") ≫= as_str)) |}.

(** ** What is outside: files, processes, the kernel *)

(** [unfer_protocol::RuntimeChoice] *)
Inductive choice := Profile (id : bytes) | Rejected (requested : bytes).

Class HostWorld (X : Type) := {
  read_to_string : bytes → stm X bytes bytes;
  read_file : bytes → stm X bytes bytes;
  write_file : bytes → bytes → stm X bytes ();
  create_dir_all : bytes → stm X bytes ();
  exists_path : bytes → stm X bytes bool;
  env_var : bytes → stm X bytes bytes;
  (* unfer_protocol *)
  runtime_choice : list bytes → option bytes → option bytes → bytes → option bytes → choice;
  cell : Type;
  cell_parse : bytes → res bytes cell;
  cell_name : cell → bytes;
  cell_files : cell → list (bytes * bytes);
  cell_session : cell → option bytes;
  (* workerd *)
  sidecar : Type;
  worker_paths : Type;
  paths_from_env : stm X bytes worker_paths;
  spawn : bytes → bytes → ModuleManifest → worker_paths → stm X bytes sidecar;
  sidecar_call : sidecar → bytes → bytes → stm X bytes bytes;
  (* serde_json: the numeric [result] field of a body *)
  json_result : bytes → option (option Z);
  (* unfer_ffi: a null buffer probes *)
  uk_snapshot : Z → option Z → stm X bytes (Z * bytes);
  uk_restore : bytes → stm X bytes Z;
  uk_model_free : Z → stm X bytes Z;
  uk_last_error : option Z → stm X bytes (Z * bytes);
  (* compiled code at an address *)
  call_code : Z → list Z → stm X bytes Z
}.

Section host.
Context {J : Type} `{ClifModule J, !JitBackend J} {X : Type} `{HostWorld X} `{TomlText}.
Variable clock : nat → Z.
Variable ft : features.
(** The [ecmascript] feature. *)
Variable ecmascript : bool.
Variable hash_order : gmap bytes Z → list (bytes * Z).

(** ** Loaded modules *)

(** The engine of a JIT module is leaked, so that its pointers stay valid. *)
Inductive IrRuntime :=
| RJit (functions : gmap bytes Z) (cps_data : bytes) (leaked : J)
| REcma (s : sidecar).

Definition is_ecmascript (r : IrRuntime) : bool :=
  ecmascript && match r with REcma _ => true | RJit _ _ _ => false end.
Definition function_ptr (r : IrRuntime) (name : bytes) : option Z :=
  match r with RJit functions _ _ => functions !! name | REcma _ => None end.
Definition or_else {A} (a b : option A) : option A := match a with Some x => Some x | None => b end.
Definition entrypoint_ptr (r : IrRuntime) (entry : bytes) : option Z :=
  or_else (function_ptr r entry) (or_else (function_ptr r (str "run")) (or_else (function_ptr r (str "main"))
    (match r with RJit functions _ _ => snd <$> head (hash_order functions) | REcma _ => None end))).

Record ModuleHandle := Handle { mh_manifest : ModuleManifest; mh_runtime : IrRuntime; mh_call_count : Z }.
Definition function_count (h : ModuleHandle) : nat :=
  match mh_runtime h with RJit functions _ _ => size functions | REcma _ => 0 end.

Record ModuleInstance := Instance {
  mi_key : bytes; mi_manifest : ModuleManifest; mi_sidecar : sidecar; mi_dir : bytes;
  mi_session : option Z; mi_call_count : Z
}.

(** The host with the thread it runs on and the outside. *)
Record state := State {
  h_modules : gmap bytes ModuleHandle;
  h_instances : gmap bytes ModuleInstance;
  h_thread : @thread J;
  h_x : X
}.
Abbreviation hm := (stm state bytes).

Definition out {A} (m : stm X bytes A) : hm A := λ s,
  let '(x, r) := m (h_x s) in (State (h_modules s) (h_instances s) (h_thread s) x, r).
Definition out_or {A} (what : bytes) (m : stm X bytes A) : hm A := λ s,
  let '(s, r) := out m s in (s, map_err (λ e, what ++ e) r).
Definition thr {A} (f : @thread J → @thread J * res bytes A) : hm A := λ s,
  let '(t, r) := f (h_thread s) in (State (h_modules s) (h_instances s) t (h_x s), r).
Definition put_handle (name : bytes) (h : ModuleHandle) : hm () := λ s,
  (State (<[name := h]> (h_modules s)) (h_instances s) (h_thread s) (h_x s), Ok ()).
Definition put_instance (key : bytes) (i : ModuleInstance) : hm () := λ s,
  (State (h_modules s) (<[key := i]> (h_instances s)) (h_thread s) (h_x s), Ok ()).
Definition get_module (name : bytes) : hm ModuleHandle := λ s,
  (s, ok_or (h_modules s !! name) (str "module '" ++ name ++ str "' not loaded")).
Definition get_instance (key : bytes) : hm ModuleInstance := λ s,
  (s, ok_or (h_instances s !! key) (str "instance '" ++ key ++ str "' not found")).
Definition count_call (name : bytes) : hm () := λ s,
  match h_modules s !! name with
  | Some h => put_handle name (Handle (mh_manifest h) (mh_runtime h) ((mh_call_count h + 1) mod 2 ^ 64)) s
  | None => (s, Ok ())
  end.

Definition set_auth (f : Auth.AuthState → Auth.AuthState) : hm () :=
  thr (λ t, ({| t_jit := t_jit t; t_error := t_error t; t_module := t_module t; t_exports := t_exports t;
                t_auth := f (t_auth t); t_tick := t_tick t; t_statics := t_statics t |}, Ok ())).

(** [compile_cps_binary]: the symbols of its builder, and the function table. *)
Definition module_symbols : list (bytes * target) :=
  runtime_symbols ++ when (f_unfer_kernel ft) (register UNFER_SYMBOLS) ++
  when (f_zenodo_store ft) (register ZENODO_SYMBOLS).

Fixpoint collect_functions (jit : J) (l : list (bytes * func_id)) : res bytes (gmap bytes Z) :=
  match l with
  | [] => Ok ∅
  | (name, fid) :: l =>
      ptr ← address (get_finalized_function jit fid);
      m ← collect_functions jit l;
      Ok (<[name := ptr]> m)
  end.

Definition compile_cps_binary (data : bytes) : hm (gmap bytes Z * J) := thr (λ t,
  match jit_new module_symbols with
  | Err e => (t, Err e)
  | Panic => (t, Panic)
  | Ok jit =>
      let '(t, jit, r) := compile_into clock jit data t in
      match r with
      | Err e => (t, Err e)
      | Panic => (t, Panic)
      | Ok module =>
          let '(jit, r) := finalize_definitions jit in
          (t, _ ← map_err (λ e, str "finalize: " ++ e) r;
              functions ← collect_functions jit (map_to_list (name_map module));
              Ok (functions, jit))
      end
  end).

Definition resolve_runtime_choice (m : ModuleManifest) : hm bytes := λ s,
  let '(s, r) := out (env_var (str "UNFER_HARNESS_ORG")) s in
  let org := match r with Ok (b :: o) => Some (b :: o) | _ => None end in
  match runtime_choice (mm_archetypes m) org None (str "austral_cps") (Some (mm_archetype m)) with
  | Profile id => (s, Ok id)
  | Rejected requested =>
      (s, Err (str "UK-4001: archetype '" ++ requested ++ str "' is not approved for module '" ++ mm_name m ++ str "'"))
  end.

Definition instance_key (module_name instance_id : bytes) : bytes := module_name ++ str "@" ++ instance_id.

(** Reading and parsing the manifest of a directory. *)
Definition read_manifest (module_dir : bytes) : hm (bytes * ModuleManifest) :=
  let path := path_join module_dir (str "module.toml") in
  toml_str ← out_or (str "cannot read " ++ path ++ str ": ") (read_to_string path);
  manifest ← stm_lift (manifest_from_toml_str toml_str);
  mret (toml_str, manifest).

(** The manifest's grants become the process' authorization. *)
Definition install_auth (toml_str : bytes) (manifest : ModuleManifest) : hm () :=
  engine ← stm_lift (map_err (λ e, str "manifest auth error: " ++ e) (Auth.from_toml_str toml_str));
  _ ← set_auth (Auth.set_auth_engine (Auth.Dyn engine));
  set_auth (Auth.set_deployment_principal (mm_name manifest)).

Definition no_ecmascript : bytes := str "archetype 'ecmascript' requires the 'ecmascript' feature (workerd sidecar)".

(** The sidecar of a module. *)
Definition spawn_sidecar (dir staging : bytes) (manifest : ModuleManifest) : hm sidecar :=
  paths ← out paths_from_env;
  out (spawn dir staging manifest paths).

Definition load (module_dir : bytes) : hm ModuleHandle :=
  '(toml_str, manifest) ← read_manifest module_dir;
  _ ← install_auth toml_str manifest;
  resolved ← resolve_runtime_choice manifest;
  if bool_decide (resolved ≠ mm_archetype manifest) then
    stm_err (str "UK-4001: archetype '" ++ mm_archetype manifest ++ str "' resolved to '" ++ resolved ++
             str "' which the loader does not map; add an adapter for the resolved profile")
  else if bool_decide (mm_archetype manifest = str "ecmascript") then
    if ecmascript then
      s ← spawn_sidecar module_dir (path_join module_dir (str ".unfer-ecma")) manifest;
      let h := Handle manifest (REcma s) 0 in
      _ ← put_handle (mm_name manifest) h; mret h
    else stm_err no_ecmascript
  else
    cps_data ← out_or (str "cannot read " ++ path_join module_dir (str "module.cps") ++ str ": ") (read_file (path_join module_dir (str "module.cps")));
    '(functions, jit) ← compile_cps_binary cps_data;
    let h := Handle manifest (RJit functions cps_data jit) 0 in
    _ ← put_handle (mm_name manifest) h; mret h.

(** ** Calls *)

(** No, one, two or four arguments; a third pads, a fifth is dropped. *)
Definition call_jit_function (ptr : Z) (args : list Z) : stm X bytes Z :=
  match args with
  | [] | [_] | [_; _] => call_code ptr args
  | _ => call_code ptr (take 4 (args ++ [0; 0; 0; 0]))
  end.

Definition dec_i64 (z : Z) : bytes := if z <? 0 then str "-" ++ dec (- z) else dec z.
Definition args_json (args : list Z) : bytes :=
  str "[" ++ concat (intersperse (str ",") (dec_i64 <$> args)) ++ str "]".

Definition call_json (module_name entrypoint args : bytes) : hm bytes :=
  h ← get_module module_name;
  match mh_runtime h with
  | RJit _ _ _ => stm_err (str "module '" ++ module_name ++ str "' is not an ECMAScript module")
  | REcma s =>
      result ← out (sidecar_call s entrypoint args);
      _ ← count_call module_name;
      mret result
  end.

Definition call (module_name entrypoint : bytes) (args : list Z) : hm Z :=
  h ← get_module module_name;
  if is_ecmascript (mh_runtime h) then
    result ← call_json module_name entrypoint (args_json args);
    v ← stm_lift (ok_or (json_result result) (str "bad kernel response: {}"));
    _ ← count_call module_name;
    stm_lift (ok_or v (str "kernel response has no numeric result: " ++ result))
  else
    ptr ← stm_lift (ok_or (function_ptr (mh_runtime h) entrypoint)
                      (str "entrypoint '" ++ entrypoint ++ str "' not found in module '" ++ module_name ++ str "'"));
    result ← out (call_jit_function ptr args);
    _ ← count_call module_name;
    mret result.

(** ** Hot swap *)

(** [for g in new { if !old.contains(g) { return Err(..) } }] *)
Fixpoint no_escalation (what : bytes) (old new : list bytes) : res bytes () :=
  match new with
  | [] => Ok ()
  | g :: new =>
      if bool_decide (g ∈ old) then no_escalation what old new
      else Err (str "UK-4001 swap rejected: new module escalates " ++ what ++ str " '" ++ g ++ str "'")
  end.

Definition swap (module_name new_module_dir : bytes) : hm () :=
  old ← get_module module_name;
  let old_m := mh_manifest old in
  '(toml_str, new) ← read_manifest new_module_dir;
  _ ← (if bool_decide (mm_name new ≠ mm_name old_m) then
         stm_err (str "swap rejected: module name mismatch ('" ++ mm_name old_m ++ str "' vs '" ++ mm_name new ++ str "')")
       else mret ());
  _ ← stm_lift (no_escalation (str "grant") (mm_grants old_m) (mm_grants new));
  _ ← stm_lift (no_escalation (str "fs grant") (mm_fs_grants old_m) (mm_fs_grants new));
  _ ← stm_lift (no_escalation (str "effect grant") (mm_effects old_m) (mm_effects new));
  _ ← stm_lift (no_escalation (str "net grant") (mm_net_grants old_m) (mm_net_grants new));
  cps_data ← out_or (str "cannot read " ++ path_join new_module_dir (str "module.cps") ++ str ": ") (read_file (path_join new_module_dir (str "module.cps")));
  _ ← install_auth toml_str new;
  h ← (if bool_decide (mm_archetype new = str "ecmascript") then
         if ecmascript then
           s ← spawn_sidecar new_module_dir (path_join new_module_dir (str ".unfer-ecma")) new;
           mret (Handle new (REcma s) 0)
         else stm_err no_ecmascript
       else
         '(functions, jit) ← compile_cps_binary cps_data;
         mret (Handle new (RJit functions cps_data jit) 0));
  put_handle module_name h.

Definition get_handle (name : bytes) (s : state) : option ModuleHandle := h_modules s !! name.

(** ** Instances *)
Definition not_isolated (archetype : bytes) : bytes :=
  str "instance isolation requires the 'ecmascript' archetype, got '" ++ archetype ++ str "'".

Definition instantiate (module_dir instance_id : bytes) : hm bytes :=
  '(_, manifest) ← read_manifest module_dir;
  if bool_decide (mm_archetype manifest ≠ str "ecmascript") then stm_err (not_isolated (mm_archetype manifest))
  else
    let key := instance_key (mm_name manifest) instance_id in
    s ← spawn_sidecar module_dir (path_join module_dir (str ".unfer-ecma-" ++ instance_id)) manifest;
    _ ← put_instance key (Instance key manifest s module_dir None 0);
    mret key.

Definition call_json_instance (key entrypoint args : bytes) : hm bytes :=
  i ← get_instance key;
  result ← out (sidecar_call (mi_sidecar i) entrypoint args);
  _ ← put_instance key (Instance (mi_key i) (mi_manifest i) (mi_sidecar i) (mi_dir i) (mi_session i)
                          ((mi_call_count i + 1) mod 2 ^ 64));
  mret result.

Definition session_handle (key : bytes) (s : state) : option Z := i ← h_instances s !! key; mi_session i.

(** [UK-<code>: <text>], the text asked for by probing. *)
Definition read_kernel_error (ret : Z) : hm bytes :=
  let code := str "UK-" ++ dec ((- ret) mod 2 ^ 32) in
  '(needed, _) ← out (uk_last_error None);
  if 0 <? needed then
    '(_, buf) ← out (uk_last_error (Some needed));
    mret (if utf8_valid buf then code ++ str ": " ++ buf else code)
  else mret code.
Definition kernel_fail {A} (ret : Z) : hm A := e ← read_kernel_error ret; stm_err e.

Definition snapshot_session (handle : Z) : hm bytes :=
  '(needed, _) ← out (uk_snapshot handle None);
  if needed <? 0 then kernel_fail needed
  else
    '(n, buf) ← out (uk_snapshot handle (Some needed));
    if n <? 0 then kernel_fail n
    else stm_lift (if utf8_valid buf then Ok buf else Err (str "snapshot is not UTF-8: {}")).

Definition restore_instance (key session_json : bytes) : hm Z :=
  handle ← out (uk_restore session_json);
  if handle <? 0 then kernel_fail handle
  else
    i ← get_instance key;
    _ ← put_instance key (Instance (mi_key i) (mi_manifest i) (mi_sidecar i) (mi_dir i) (Some handle) (mi_call_count i));
    mret handle.

(** [Path::parent], up to the spelling of the path: its components but the last. *)
Definition components (p : bytes) : list bytes :=
  filter (λ c, c ≠ [] ∧ c ≠ str ".") (split Byte.x2f p).
Definition path_parent (p : bytes) : option bytes :=
  match components p with
  | [] => None
  | cs => Some ((if bool_decide (is_Some (strip_prefix (str "/") p)) then str "/" else []) ++
                join Byte.x2f (take (length cs - 1) cs))
  end.

Definition unslash (p : bytes) : bytes := (λ b, if bool_decide (b = Byte.x5c) then Byte.x2f else b) <$> p.

Fixpoint materialize (dir : bytes) (files : list (bytes * bytes)) : hm () :=
  match files with
  | [] => mret ()
  | (rel, content) :: files =>
      let rel := unslash (from_utf8_lossy rel) in
      if bool_decide (str ".." ∈ split Byte.x2f rel) then
        stm_err (str "UK-4001 blueprint rejected: path traversal in archive entry '" ++ rel ++ str "'")
      else
        let dest := path_join dir rel in
        _ ← (match path_parent dest with
             | Some parent => out_or (str "materialize " ++ rel ++ str ": ") (create_dir_all parent)
             | None => mret ()
             end);
        _ ← out_or (str "materialize " ++ rel ++ str ": ") (write_file dest content);
        materialize dir files
  end.

Definition instantiate_from_blueprint (archive parent_dir instance_id : bytes) : hm (bytes * option Z) :=
  parsed ← stm_lift (map_err (λ e, str "UK-4100: bad blueprint archive: " ++ e) (cell_parse archive));
  let name := cell_name parsed in
  let dir := path_join parent_dir (name ++ str "-" ++ instance_id) in
  _ ← out_or (str "materialize dir: ") (create_dir_all dir);
  _ ← materialize dir (cell_files parsed);
  present ← out (exists_path (path_join dir (str "module.toml")));
  if negb present then stm_err (str "UK-4100 blueprint rejected: no module.toml in archive")
  else
    toml_str ← out_or (str "cannot read materialized module.toml: ") (read_to_string (path_join dir (str "module.toml")));
    manifest ← stm_lift (manifest_from_toml_str toml_str);
    if bool_decide (mm_archetype manifest ≠ str "ecmascript") then stm_err (not_isolated (mm_archetype manifest))
    else
      let key := instance_key name instance_id in
      s ← spawn_sidecar dir (path_join dir (str ".unfer-ecma")) manifest;
      session ← (match cell_session parsed with
                 | Some b => handle ← out (uk_restore b);
                             if handle <? 0 then kernel_fail handle else mret (Some handle)
                 | None => mret None
                 end);
      _ ← put_instance key (Instance key manifest s dir session 0);
      mret (key, session).

Definition drop_instance (key : bytes) : hm () :=
  i ← get_instance key;
  _ ← (λ s, (State (h_modules s) (delete key (h_instances s)) (h_thread s) (h_x s), Ok ())) : hm ();
  match mi_session i with
  | Some h => ret ← out (uk_model_free h); if ret <? 0 then kernel_fail ret else mret ()
  | None => mret ()
  end.
End host.
End ModuleHost.
