(* ===== verification/HostSafe.v ===== *)
(** * The module host: no escalation, nothing half done

    What a successful load or swap installs, that a failed one leaves the
    registry alone, and that the code of a swapped module calls nothing its
    predecessor was not granted. *)

From S2P Require Import Prelude Cursor Text Toml Auth Clif Symbols Cps CpsLang CpsFuse CpsProgram CpsGate CpsCorrect Jit ModuleHost.
Import Toml Clif Cps CpsLang CpsFuse CpsProgram CpsGate CpsCorrect Jit ModuleHost.

Module HostSafe.
#[local] Existing Instance Auth.manifest_engine.

Section host.
Context {J : Type} `{ClifModule J, !JitBackend J} {X : Type} `{HostWorld X} `{TomlText}.
Variable clock : nat → Z.
Variable ft : features.
Variable ecmascript : bool.
Abbreviation state := (@state J X _).
Abbreviation hm := (stm state bytes).
Abbreviation load := (load (J:=J) (X:=X) clock ft ecmascript).
Abbreviation swap := (swap (J:=J) (X:=X) clock ft ecmascript).

(** ** The registry *)
Definition same (s s' : state) : Prop := h_modules s' = h_modules s ∧ h_instances s' = h_instances s.
#[local] Instance same_preorder : PreOrder same.
Proof. split; [by intros s|]. intros s1 s2 s3 [? ?] [? ?]. split; congruence. Qed.

(** [m] leaves the registry alone. *)
Definition quietly {A} (m : hm A) : Prop := ∀ s s' r, m s = (s', r) → same s s'.
(** [m] changes the registry as [Q] says when it succeeds, and not otherwise. *)
Definition commits {A} (Q : state → A → state → Prop) (m : hm A) : Prop :=
  ∀ s s' r, m s = (s', r) → match r with Ok a => Q s a s' | _ => same s s' end.

Lemma quietly_bind {A B} (m : hm A) (k : A → hm B) : quietly m → (∀ a, quietly (k a)) → quietly (m ≫= k).
Proof.
  intros Hm Hk s s' r. unfold mbind, stm_bind. destruct (m s) as [s1 [a|e|]] eqn:E; apply Hm in E.
  - intros E'. apply Hk in E'. by etrans.
  - by intros [= <- _].
  - by intros [= <- _].
Qed.
Lemma commits_bind {A B} (Q : state → B → state → Prop) (m : hm A) (k : A → hm B) :
  (∀ s s1 b s', same s s1 → Q s1 b s' → Q s b s') → quietly m → (∀ a, commits Q (k a)) → commits Q (m ≫= k).
Proof.
  intros HQ Hm Hk s s' r. unfold mbind, stm_bind. destruct (m s) as [s1 [a|e|]] eqn:E; apply Hm in E.
  - intros E'. apply Hk in E'. destruct r; [by eapply HQ|by etrans..].
  - by intros [= <- <-].
  - by intros [= <- <-].
Qed.
Lemma commits_err {A} (Q : state → A → state → Prop) e : commits Q (stm_err e).
Proof. by intros s s' r [= <- <-]. Qed.
Lemma quietly_lift {A} (r : res bytes A) : quietly (stm_lift r).
Proof. by intros s s' r' [= <- <-]. Qed.
Lemma quietly_ret {A} (a : A) : quietly (mret a).
Proof. by intros s s' r' [= <- <-]. Qed.
Lemma quietly_err {A} e : quietly (stm_err (A:=A) e).
Proof. by intros s s' r [= <- _]. Qed.
Lemma quietly_out {A} (m : stm X bytes A) : quietly (out m).
Proof. intros s s' r. unfold out. destruct (m (h_x s)). by intros [= <- _]. Qed.
Lemma quietly_out_or {A} w (m : stm X bytes A) : quietly (out_or w m).
Proof. intros s s' r. unfold out_or, out. destruct (m (h_x s)). by intros [= <- _]. Qed.
Lemma quietly_thr {A} (f : @thread J → @thread J * res bytes A) : quietly (thr f).
Proof. intros s s' r. unfold thr. destruct (f (h_thread s)). by intros [= <- _]. Qed.
Lemma quietly_get n : quietly (get_module n).
Proof. by intros s s' r [= <- _]. Qed.
Lemma quietly_get_instance n : quietly (get_instance n).
Proof. by intros s s' r [= <- _]. Qed.
Lemma quietly_resolve m : quietly (resolve_runtime_choice m).
Proof.
  intros s s' r. unfold resolve_runtime_choice. destruct (out _ s) as [s1 r1] eqn:E. apply quietly_out in E.
  destruct (runtime_choice _ _ _ _ _); intros [= <- _]; done.
Qed.
Create HintDb host.
#[local] Hint Resolve quietly_bind quietly_lift quietly_ret quietly_err quietly_out quietly_out_or quietly_thr
  quietly_get quietly_get_instance quietly_resolve : host.

Lemma quietly_manifest d : quietly (read_manifest d).
Proof. unfold read_manifest. auto 6 with host. Qed.
Lemma quietly_install t m : quietly (install_auth t m).
Proof. unfold install_auth, set_auth. auto 6 with host. Qed.
Lemma quietly_spawn d st m : quietly (spawn_sidecar d st m).
Proof. unfold spawn_sidecar. auto with host. Qed.
Lemma quietly_compile d : quietly (compile_cps_binary clock ft d).
Proof. apply quietly_thr. Qed.
#[local] Hint Resolve quietly_manifest quietly_install quietly_spawn quietly_compile : host.

(** What success installs. *)
Definition installs (s : state) (h : ModuleHandle) (s' : state) : Prop :=
  h_modules s' = <[mm_name (mh_manifest h) := h]> (h_modules s) ∧ h_instances s' = h_instances s.
Lemma installs_same s s1 h s' : same s s1 → installs s1 h s' → installs s h s'.
Proof. intros [Hm Hi] [Hm' Hi']. split; congruence. Qed.
Lemma commits_put h : commits installs (_ ← put_handle (mm_name (mh_manifest h)) h; mret h).
Proof. by intros s s' r [= <- <-]. Qed.

Lemma load_commits dir : commits installs (load dir).
Proof.
  unfold ModuleHost.load. apply (commits_bind _ _ _ installs_same); [auto with host|]. intros [toml_str manifest].
  apply (commits_bind _ _ _ installs_same); [auto with host|]. intros _.
  apply (commits_bind _ _ _ installs_same); [auto with host|]. intros resolved.
  case_bool_decide; [apply commits_err|]. case_bool_decide.
  - destruct ecmascript; [|apply commits_err]. apply (commits_bind _ _ _ installs_same); [auto with host|]. intros sc.
    exact (commits_put (Handle manifest (REcma sc) 0)).
  - apply (commits_bind _ _ _ installs_same); [auto with host|]. intros data.
    apply (commits_bind _ _ _ installs_same); [auto with host|]. intros [functions jit].
    exact (commits_put (Handle manifest (RJit functions data jit) 0)).
Qed.
(** ** What the pieces of a swap do *)
Lemma no_escalation_Ok what old new : no_escalation what old new = Ok () → new ⊆ old.
Proof.
  induction new as [|g new IH]; cbn; [set_solver|]. case_bool_decide as Hg; [|done]. intros E. specialize (IH E). set_solver.
Qed.

Lemma install_auth_inv toml m (s s' : state) :
  install_auth toml m s = (s', Ok ()) →
  ∃ eng, Auth.from_toml_str toml = Ok eng ∧ Auth.au_engine (t_auth (h_thread s')) = Some (Auth.Dyn eng) ∧
    Auth.au_principal (t_auth (h_thread s')) = Some (mm_name m).
Proof.
  intros E. unfold install_auth in E. apply bind_inv_ok in E as (s1 & eng & E1 & E).
  unfold stm_lift in E1. destruct (Auth.from_toml_str toml) as [e|e|]; [|done..]. injection E1 as <- <-.
  apply bind_inv_ok in E as (s2 & u & E2 & E). injection E2 as <- _. injection E as <-. by exists e.
Qed.

(** A function table is the addresses of the names. *)
Lemma collect_lookup (jit : J) l functions n p :
  collect_functions jit l = Ok functions → functions !! n = Some p →
  ∃ fid, (n, fid) ∈ l ∧ get_finalized_function jit fid = Some p.
Proof.
  revert functions; induction l as [|[n' fid] l IH]; intros functions E Hn; cbn [collect_functions] in E.
  { injection E as <-. by rewrite lookup_empty in Hn. }
  destruct (get_finalized_function jit fid) as [q|] eqn:Eq; [|done]. cbn in E.
  destruct (collect_functions jit l) as [m|e|]; [|done..]. injection E as <-.
  apply lookup_insert_Some in Hn as [[<- <-]|[_ Hn]].
  - exists fid. split; [set_solver|done].
  - destruct (IH m eq_refl Hn) as (fid' & ? & ?). exists fid'. split; [set_solver|done].
Qed.

Definition compiled_as (data : bytes) (auth : Auth.AuthState) (functions : gmap bytes Z) (jit : J) : Prop :=
  ∃ g g' m u, jit_new (module_symbols ft) = Ok (g_jit g) ∧ g_auth g = auth ∧
    compile_cps_to_clif clock data g = (g', Ok m) ∧ finalize_definitions (g_jit g') = (jit, Ok u) ∧
    ∀ n p, functions !! n = Some p → ∃ fid, name_map m !! n = Some fid ∧ get_finalized_function jit fid = Some p.

Lemma compile_binary_inv data (s s' : state) functions jit :
  buffer data → compile_cps_binary clock ft data s = (s', Ok (functions, jit)) →
  t_auth (h_thread s') = t_auth (h_thread s) ∧ compiled_as data (t_auth (h_thread s)) functions jit.
Proof.
  intros Hb. unfold compile_cps_binary, thr, compile_into. destruct (jit_new (module_symbols ft)) as [j0|e|] eqn:Ej; [|done..].
  match goal with |- context [compile_cps_to_clif clock data ?g0] => set (g := g0) end.
  destruct (compile_cps_to_clif clock data g) as [g' [m|e|]] eqn:Ec; [|done..].
  destruct (finalize_definitions (g_jit g')) as [j r] eqn:Ef. destruct r as [u|e|]; [|done..]. cbn [map_err].
  destruct (collect_functions j (map_to_list (name_map m))) as [fs|e|] eqn:Efs; [|done..].
  intros E. injection E as <- <- <-. cbn [h_thread t_auth].
  destruct (compile_gated clock data g g' m Hb Ec) as [Ha _]. split; [by rewrite Ha|].
  exists g, g', m, u. split_and!; [done..|]. intros n p Hn. destruct (collect_lookup _ _ _ _ _ Efs Hn) as (fid & Hin & Hg).
  exists fid. split; [by apply elem_of_map_to_list|done].
Qed.

(** ** Grants *)
Lemma strict_strings v section key fields gf l :
  de_table v = Some fields → field section fields = Some (TTable gf) →
  de_default de_strings [] (field key gf) = Some l → string_array (get2 v section key) = l.
Proof.
  destruct v; try done. intros [= ->] Hs Hl. unfold string_array, get2. cbn. rewrite Hs. cbn.
  destruct (field key gf) as [a|]; cbn in *; [|by injection Hl as <-].
  destruct (as_array a) as [items|] eqn:Ei.
  - cbn. by eapply de_strings_strings.
  - unfold de_strings in Hl. by rewrite Ei in Hl.
Qed.

(** The strict reading of the grants agrees with the lenient one. *)
Lemma engine_grants toml eng p f :
  Auth.from_toml_str toml = Ok eng → Auth.is_granted eng p f = true →
  ∃ v, toml_parse toml = Some v ∧
    (f ∈ string_array (get2 v (str "grants") (str "kernel")) ∨ f ∈ string_array (get2 v (str "grants") (str "zenodo"))).
Proof.
  intros E Hg. unfold Auth.from_toml_str in E.
  destruct (toml_parse toml) as [v|] eqn:Ev; [|done]. cbn [mbind option_bind] in E.
  destruct (Auth.de_manifest v) as [mt|] eqn:Em; [|done]. cbn [ok_or mbind res_bind] in E.
  assert (Auth.holds {[Auth.mt_name mt := list_to_set (Auth.gt_kernel (Auth.mt_grants mt)) ∪ list_to_set (Auth.gt_zenodo (Auth.mt_grants mt))]} p f = true) as Hh.
  { destruct (match Auth.vt_liquid (Auth.mt_verify mt) with Some s => Auth.liquid_parse s | None => Ok Auth.Off end); [|done..].
    injection E as <-. exact Hg. }
  exists v. split; [done|]. unfold Auth.holds in Hh. destruct (_ !! p) as [set|] eqn:Ep; [|done].
  apply lookup_singleton_Some in Ep as [_ <-]. apply bool_decide_eq_true in Hh.
  unfold Auth.de_manifest in Em. destruct (de_table v) as [fields|] eqn:Et; [|done]. cbn [mbind option_bind] in Em.
  destruct (field (str "module") fields); [|done]. cbn [mbind option_bind] in Em. destruct (Auth.de_module _); [|done]. cbn [mbind option_bind] in Em.
  destruct (de_default Auth.de_grants _ (field (str "grants") fields)) as [gt|] eqn:Eg; [|done]. cbn [mbind option_bind] in Em.
  destruct (de_default Auth.de_verify _ _); [|done]. injection Em as <-. cbn [Auth.mt_grants] in Hh.
  destruct (field (str "grants") fields) as [gv|] eqn:Egf; cbn [de_default] in Eg.
  - unfold Auth.de_grants in Eg. destruct gv as [| | | |gf|]; try done. cbn [mbind option_bind de_table] in Eg.
    destruct (de_default de_strings [] (field (str "kernel") gf)) as [k|] eqn:Ek; [|done]. cbn [mbind option_bind de_table] in Eg.
    destruct (de_default de_strings [] (field (str "effects") gf)) as [e|] eqn:Ee; [|done]. cbn [mbind option_bind de_table] in Eg.
    destruct (de_default de_strings [] (field (str "zenodo") gf)) as [z|] eqn:Ez; [|done]. cbn [mbind option_bind de_table] in Eg. injection Eg as <-.
    cbn [Auth.gt_kernel Auth.gt_zenodo] in Hh. rewrite (strict_strings _ _ _ _ _ _ Et Egf Ek), (strict_strings _ _ _ _ _ _ Et Egf Ez). set_solver.
  - injection Eg as <-. cbn [Auth.gt_kernel Auth.gt_zenodo] in Hh. set_solver.
Qed.
(** ** Swaps *)

(** A file fits in memory. *)
Definition files_fit : Prop := ∀ path x x' d, read_file (X:=X) path x = (x', Ok d) → buffer d.

(** The code of a handle was compiled, by this text's authorization, from its bytes. *)
Definition code_from (auth : Auth.AuthState) (h : ModuleHandle) : Prop :=
  match mh_runtime h with RJit functions data jit => buffer data ∧ compiled_as data auth functions jit | REcma _ => True end.

Lemma swap_inv name dir (s s' : state) :
  files_fit → swap name dir s = (s', Ok ()) →
  ∃ old h toml eng, h_modules s !! name = Some old ∧
    manifest_from_toml_str toml = Ok (mh_manifest h) ∧ Auth.from_toml_str toml = Ok eng ∧
    (mm_name (mh_manifest h) = mm_name (mh_manifest old) ∧
     mm_grants (mh_manifest h) ⊆ mm_grants (mh_manifest old) ∧ mm_fs_grants (mh_manifest h) ⊆ mm_fs_grants (mh_manifest old) ∧
     mm_effects (mh_manifest h) ⊆ mm_effects (mh_manifest old) ∧ mm_net_grants (mh_manifest h) ⊆ mm_net_grants (mh_manifest old)) ∧
    h_modules s' = <[name := h]> (h_modules s) ∧ h_instances s' = h_instances s ∧
    ∃ auth, Auth.au_engine auth = Some (Auth.Dyn eng) ∧ Auth.au_principal auth = Some (mm_name (mh_manifest h)) ∧ code_from auth h.
Proof.
  intros Hfit E. unfold ModuleHost.swap in E. apply bind_inv_ok in E as (s1 & old & E1 & E).
  unfold get_module in E1. destruct (h_modules s !! name) as [o|] eqn:Eo; [|done]. injection E1 as <- <-.
  apply bind_inv_ok in E as (s2 & [toml new] & E2 & E).
  assert (manifest_from_toml_str toml = Ok new) as Hman.
  { unfold read_manifest in E2. apply bind_inv_ok in E2 as (s3 & tx & _ & E2). apply bind_inv_ok in E2 as (s4 & mf & E3 & E2).
    injection E2 as <- <- <-. unfold stm_lift in E3. by injection E3. }
  apply quietly_manifest in E2.
  apply bind_inv_ok in E as (s3 & u3 & E3 & E). destruct (bool_decide_reflect (mm_name new ≠ mm_name (mh_manifest o))) as [|Hname]; [discriminate E3|]. injection E3 as <- _.
  apply bind_inv_ok in E as (s4 & u4 & E4 & E). apply bind_inv_ok in E as (s5 & u5 & E5 & E).
  apply bind_inv_ok in E as (s6 & u6 & E6 & E). apply bind_inv_ok in E as (s7 & u7 & E7 & E). destruct u4, u5, u6, u7.
  unfold stm_lift in E4, E5, E6, E7. injection E4 as <- E4. injection E5 as <- E5. injection E6 as <- E6. injection E7 as <- E7.
  apply no_escalation_Ok in E4, E5, E6, E7.
  apply bind_inv_ok in E as (s8 & data & E8 & E).
  assert (buffer data) as Hb.
  { unfold out_or, out in E8. destruct (read_file _ (h_x s2)) as [x' r] eqn:Er. injection E8 as <- E8.
    apply map_err_Ok in E8 as ->. by eapply Hfit. }
  apply quietly_out_or in E8. apply bind_inv_ok in E as (s9 & u9 & E9 & E). destruct u9.
  pose proof (install_auth_inv _ _ _ _ E9) as (eng & Heng & Ha1 & Ha2). apply quietly_install in E9.
  apply bind_inv_ok in E as (s10 & h & E10 & E). injection E as <-. cbn [h_modules h_instances].
  assert (same s9 s10 ∧ mh_manifest h = new ∧ code_from (t_auth (h_thread s9)) h) as (Hs10 & <- & Hcode).
  { destruct (bool_decide (mm_archetype new = str "ecmascript")).
    - destruct ecmascript; [|done]. apply bind_inv_ok in E10 as (s11 & sc & E11 & E10). injection E10 as <- <-.
      apply quietly_spawn in E11. by split_and!.
    - apply bind_inv_ok in E10 as (s11 & [fs jit] & E11 & E10). injection E10 as <- <-.
      pose proof (compile_binary_inv _ _ _ _ _ Hb E11) as [_ Hc]. apply quietly_compile in E11. by split_and!. }
  destruct (transitivity (transitivity E2 E8) (transitivity E9 Hs10)) as [Hm Hi].
  exists o, h, toml, eng. split_and!; try done; [by destruct (decide (mm_name (mh_manifest h) = mm_name (mh_manifest o)))|by rewrite Hm|].
  exists (t_auth (h_thread s9)). by split_and!.
Qed.

(** C8. A hot swap cannot widen what a module may do: when a swap succeeds, the
    new module has the old one's name and no kernel, file, effect or network
    grant the old one had not, only that entry of the registry changes, and
    every gated call written anywhere in the new module's binary is one of the
    old module's kernel grants (or a storage grant the new manifest lists, which
    the swap does not compare). *)
Theorem host_no_escalation name dir (s s' : state) :
  files_fit → swap name dir s = (s', Ok ()) →
  ∃ old h toml v, h_modules s !! name = Some old ∧ h_modules s' = <[name := h]> (h_modules s) ∧ h_instances s' = h_instances s ∧
    toml_parse toml = Some v ∧ manifest_from_toml_str toml = Ok (mh_manifest h) ∧
    (mm_name (mh_manifest h) = mm_name (mh_manifest old) ∧
     mm_grants (mh_manifest h) ⊆ mm_grants (mh_manifest old) ∧ mm_fs_grants (mh_manifest h) ⊆ mm_fs_grants (mh_manifest old) ∧
     mm_effects (mh_manifest h) ⊆ mm_effects (mh_manifest old) ∧ mm_net_grants (mh_manifest h) ⊆ mm_net_grants (mh_manifest old)) ∧
    ∀ functions data jit, mh_runtime h = RJit functions data jit →
      ∃ p trailing, data = enc_program p ++ trailing ∧
        ∀ fd f, fd ∈ p_funs p → f ∈ calls_stmts (fd_body fd) → is_gated (from_utf8_lossy (fd_name fd)) f = true →
          f ∈ mm_grants (mh_manifest old) ∨ f ∈ string_array (get2 v (str "grants") (str "zenodo")).
Proof.
  intros Hfit E. destruct (swap_inv _ _ _ _ Hfit E) as (old & h & toml & eng & Ho & Hman & Heng & Hgr & Hm & Hi & auth & Ha & _ & Hcode).
  assert (∃ v, toml_parse toml = Some v ∧ mm_grants (mh_manifest h) = string_array (get2 v (str "grants") (str "kernel"))) as (v & Hv & Hk).
  { unfold manifest_from_toml_str in Hman. destruct (toml_parse toml) as [v|]; [|done]. exists v. split; [done|].
    cbn [ok_or mbind res_bind] in Hman. destruct (get v (str "module")) as [md|]; [|done]. cbn [ok_or mbind res_bind] in Hman.
    destruct (get md (str "name") ≫= as_str); [|done]. cbn [ok_or mbind res_bind] in Hman. by injection Hman as <-. }
  exists old, h, toml, v. split_and!; try done; try apply Hgr. intros functions data jit Hr. unfold code_from in Hcode. rewrite Hr in Hcode.
  destruct Hcode as [Hb (g & g' & m & u & _ & Hga & Ec & _)].
  destruct (compile_gated clock data g g' m Hb Ec) as (_ & p & tr & Hd & _ & _ & Hall).
  exists p, tr. split; [done|]. intros fd f Hfd Hf Hgate. destruct (Hall fd f Hfd Hf Hgate) as (e & k & He & Hck).
  rewrite Hga, Ha in He. injection He as <-.
  assert (Auth.is_granted eng (call_principal (g_auth g) (from_utf8_lossy (fd_name fd)) (module_of p)) f = true) as Hg.
  { unfold Auth.check_with, Auth.authorize, Auth.dyn_authorize in Hck. cbn [Auth.dyn_T Auth.dyn_impl Auth.dyn_val] in Hck.
    unfold Auth.authorize, Auth.manifest_engine in Hck. rewrite bool_decide_eq_true_2 in Hck by done.
    by destruct (Auth.is_granted _ _ _). }
  destruct (engine_grants _ _ _ _ Heng Hg) as (v' & Hv' & Hin). assert (v' = v) as -> by congruence.
  destruct Hgr as (_ & Hsub & _). rewrite Hk in Hsub. destruct Hin as [Hin|Hin]; [left; by apply Hsub|by right].
Qed.
(** ** The registry through any sequence of operations *)
Inductive op :=
| OLoad (dir : bytes) | OSwap (name dir : bytes) | OCall (name entry : bytes) (args : list Z)
| OCallJson (name entry args : bytes) | OInstantiate (dir id : bytes) | OCallInstance (key entry args : bytes)
| OSnapshot (h : Z) | ORestore (key json : bytes) | OBlueprint (archive parent id : bytes) | ODrop (key : bytes).
Definition op_step (s : state) (o : op) : state :=
  match o with
  | OLoad d => (load d s).1
  | OSwap n d => (swap n d s).1
  | OCall n e a => (ModuleHost.call ecmascript n e a s).1
  | OCallJson n e a => (call_json n e a s).1
  | OInstantiate d i => (instantiate d i s).1
  | OCallInstance k e a => (call_json_instance k e a s).1
  | OSnapshot h => (snapshot_session h s).1
  | ORestore k j => (restore_instance k j s).1
  | OBlueprint a p i => (instantiate_from_blueprint a p i s).1
  | ODrop k => (drop_instance k s).1
  end.

(** A loaded module: under its own name, its code compiled from its bytes with
    the grants of its own manifest in force. *)
Definition handle_ok (name : bytes) (h : ModuleHandle) : Prop :=
  mm_name (mh_manifest h) = name ∧
  ∃ auth eng toml, Auth.from_toml_str toml = Ok eng ∧ manifest_from_toml_str toml = Ok (mh_manifest h) ∧
    Auth.au_engine auth = Some (Auth.Dyn eng) ∧ Auth.au_principal auth = Some name ∧ code_from auth h.
Definition instance_ok (key : bytes) (i : ModuleInstance) : Prop :=
  mi_key i = key ∧ mm_archetype (mi_manifest i) = str "ecmascript".
Definition registry_ok (s : state) : Prop :=
  map_Forall handle_ok (h_modules s) ∧ map_Forall instance_ok (h_instances s).

Lemma registry_same s s' : same s s' → registry_ok s → registry_ok s'.
Proof. intros [Hm Hi] [? ?]. split; by rewrite ?Hm, ?Hi. Qed.
Lemma registry_quiet {A} (m : hm A) s : quietly m → registry_ok s → registry_ok (m s).1.
Proof. intros Hq. destruct (m s) as [s' r] eqn:E. apply Hq in E. by apply registry_same. Qed.

(** [keeps m]: the registry stays well-formed. *)
Definition keeps {A} (m : hm A) : Prop := ∀ s, registry_ok s → registry_ok (m s).1.
Lemma keeps_bind {A B} (m : hm A) (k : A → hm B) : keeps m → (∀ a, keeps (k a)) → keeps (m ≫= k).
Proof.
  intros Hm Hk s Hs. unfold mbind, stm_bind. specialize (Hm s Hs). destruct (m s) as [s1 [a|e|]]; [|done..]. by apply Hk.
Qed.
Lemma keeps_quiet {A} (m : hm A) : quietly m → keeps m.
Proof. intros Hq s. by apply registry_quiet. Qed.
Lemma keeps_put key i : instance_ok key i → keeps (put_instance key i).
Proof. intros Hi s [Hm Hins]. split; [done|]. cbn. by apply map_Forall_insert_2. Qed.
Lemma keeps_count n : keeps (count_call n).
Proof.
  intros s [Hm Hi]. unfold count_call. destruct (h_modules s !! n) as [h|] eqn:E; [|by split]. split; [|done]. cbn.
  apply map_Forall_insert_2; [|done]. exact (Hm n h E).
Qed.
(** With what was found in the registry at hand. *)
Lemma keeps_get_instance {B} key (k : ModuleInstance → hm B) :
  (∀ i, instance_ok key i → keeps (k i)) → keeps (get_instance key ≫= k).
Proof.
  intros Hk s Hs. unfold mbind, stm_bind, get_instance. destruct (h_instances s !! key) as [i|] eqn:E; [|done]. cbn.
  apply Hk; [|done]. exact (proj2 Hs key i E).
Qed.
#[local] Hint Resolve keeps_quiet keeps_count : host.

Lemma load_keeps dir : files_fit → keeps (load dir).
Proof.
  intros Hfit s Hs. destruct (load dir s) as [s' r] eqn:E. cbn. pose proof (load_commits dir s s' r E) as Hc.
  destruct r as [h|e|]; [|by eapply registry_same..]. destruct Hc as [Hm Hi]. split; [|rewrite Hi; apply Hs]. rewrite Hm.
  apply map_Forall_insert_2; [|apply Hs]. split; [done|].
  unfold ModuleHost.load in E. apply bind_inv_ok in E as (s1 & [toml new] & E1 & E).
  assert (manifest_from_toml_str toml = Ok new) as Hman.
  { unfold read_manifest in E1. apply bind_inv_ok in E1 as (s3 & tx & _ & E1). apply bind_inv_ok in E1 as (s4 & mf & E3 & E1).
    injection E1 as <- <- <-. unfold stm_lift in E3. by injection E3. }
  apply bind_inv_ok in E as (s2 & u2 & E2 & E). destruct u2. apply install_auth_inv in E2 as (eng & Heng & Ha1 & Ha2).
  apply bind_inv_ok in E as (s3 & res & E3 & E).
  assert (h_thread s3 = h_thread s2) as Ht.
  { unfold resolve_runtime_choice, out in E3. destruct (env_var _ (h_x s2)). destruct (runtime_choice _ _ _ _ _); by injection E3 as <- _. }
  destruct (bool_decide (res ≠ mm_archetype new)); [discriminate E|]. destruct (bool_decide (mm_archetype new = str "ecmascript")).
  - destruct ecmascript; [|discriminate E]. apply bind_inv_ok in E as (s4 & sc & E4 & E).
    apply bind_inv_ok in E as (s5 & u5 & E5 & E). injection E as _ <-. exists (t_auth (h_thread s2)), eng, toml. by split_and!.
  - apply bind_inv_ok in E as (s4 & data & E4 & E). apply bind_inv_ok in E as (s5 & [fs jit] & E5 & E).
    apply bind_inv_ok in E as (s6 & u6 & E6 & E). injection E as _ <-. exists (t_auth (h_thread s2)), eng, toml.
    split_and!; try done. unfold out_or, out in E4. destruct (read_file _ (h_x s3)) as [x' r] eqn:Er. injection E4 as <- E4.
    apply map_err_Ok in E4 as ->. pose proof (Hfit _ _ _ _ Er) as Hb. unfold code_from. cbn [mh_runtime]. split; [done|].
    apply compile_binary_inv in E5 as [_ Hc]; [|done]. cbn [h_thread] in Hc. by rewrite Ht in Hc.
Qed.

Lemma call_json_keeps n e a : keeps (call_json (J:=J) (X:=X) n e a).
Proof.
  unfold call_json. apply keeps_bind; [auto with host|]. intros h. destruct (mh_runtime h); [auto with host|].
  repeat (apply keeps_bind; [auto with host|intros ?]). auto with host.
Qed.
Lemma call_keeps n e a : keeps (ModuleHost.call (J:=J) (X:=X) ecmascript n e a).
Proof.
  unfold ModuleHost.call. apply keeps_bind; [auto with host|]. intros h. destruct (is_ecmascript ecmascript (mh_runtime h)).
  - apply keeps_bind; [apply call_json_keeps|intros ?]. repeat (apply keeps_bind; [auto with host|intros ?]). auto with host.
  - repeat (apply keeps_bind; [auto with host|intros ?]). auto with host.
Qed.
Lemma instantiate_keeps d i : keeps (instantiate (J:=J) (X:=X) d i).
Proof.
  unfold instantiate. apply keeps_bind; [auto with host|]. intros [toml m]. case_bool_decide as Ha; [auto with host|].
  apply keeps_bind; [auto with host|]. intros sc. apply keeps_bind; [|auto with host]. apply keeps_put. by split.
Qed.
Lemma call_instance_keeps k e a : keeps (call_json_instance (J:=J) (X:=X) k e a).
Proof.
  unfold call_json_instance. apply keeps_get_instance. intros i [Hk Ha].
  apply keeps_bind; [auto with host|]. intros r. apply keeps_bind; [|auto with host]. apply keeps_put. by split.
Qed.
Lemma quietly_kernel_fail {A} z : quietly (kernel_fail (J:=J) (X:=X) (A:=A) z).
Proof.
  unfold kernel_fail, read_kernel_error. apply quietly_bind; [|auto with host].
  apply quietly_bind; [auto with host|]. intros [n b]. destruct (0 <? n); [|auto with host].
  apply quietly_bind; [auto with host|]. intros [n' b']. auto with host.
Qed.
#[local] Hint Resolve quietly_kernel_fail : host.
Lemma quietly_snapshot h : quietly (snapshot_session (J:=J) (X:=X) h).
Proof.
  unfold snapshot_session. apply quietly_bind; [auto with host|]. intros [n b]. destruct (n <? 0); [auto with host|].
  apply quietly_bind; [auto with host|]. intros [n' b']. destruct (n' <? 0); auto with host.
Qed.
Lemma restore_keeps k j : keeps (restore_instance (J:=J) (X:=X) k j).
Proof.
  unfold restore_instance. apply keeps_bind; [auto with host|]. intros h. destruct (h <? 0); [auto with host|].
  apply keeps_get_instance. intros i [Hk Ha]. apply keeps_bind; [|auto with host]. apply keeps_put. by split.
Qed.
Lemma quietly_materialize dir files : quietly (materialize (J:=J) (X:=X) dir files).
Proof.
  induction files as [|[rel c] files IH]; cbn [materialize]; [auto with host|]. case_bool_decide; [auto with host|].
  apply quietly_bind; [destruct (path_parent _); auto with host|]. intros _. auto with host.
Qed.
#[local] Hint Resolve quietly_materialize : host.
Lemma blueprint_keeps a p i : keeps (instantiate_from_blueprint (J:=J) (X:=X) a p i).
Proof.
  unfold instantiate_from_blueprint. apply keeps_bind; [auto with host|]. intros c.
  do 2 (apply keeps_bind; [auto with host|intros _]). apply keeps_bind; [auto with host|]. intros b. destruct (negb b); [auto with host|].
  apply keeps_bind; [auto with host|]. intros toml. apply keeps_bind; [auto with host|]. intros m.
  case_bool_decide as Ha; [auto with host|]. apply keeps_bind; [auto with host|]. intros sc.
  apply keeps_bind; [apply keeps_quiet; destruct (cell_session c); [apply quietly_bind; [auto with host|]; intros h; destruct (h <? 0)|]; auto with host|].
  intros session. apply keeps_bind; [|auto with host]. apply keeps_put. by split.
Qed.
Lemma drop_keeps k : keeps (drop_instance (J:=J) (X:=X) k).
Proof.
  unfold drop_instance. apply keeps_get_instance. intros i _. apply keeps_bind.
  - intros s [Hm Hi]. split; [done|]. cbn. by apply map_Forall_delete.
  - intros _. apply keeps_quiet. destruct (mi_session i); [apply quietly_bind; [auto with host|]; intros r; destruct (r <? 0)|]; auto with host.
Qed.

(** A swap replaces one entry. *)
Definition replaces (name : bytes) (s s' : state) : Prop :=
  ∃ h, h_modules s' = <[name := h]> (h_modules s) ∧ h_instances s' = h_instances s.
Lemma swap_commits name dir : commits (λ s _ s', replaces name s s') (swap name dir).
Proof.
  assert (∀ s s1 (u : ()) s', same s s1 → replaces name s1 s' → replaces name s s') as HQ.
  { intros s s1 _ s' [Hm Hi] (h & Hm' & Hi'). exists h. split; congruence. }
  unfold ModuleHost.swap. apply (commits_bind _ _ _ HQ); [auto with host|]. intros old.
  apply (commits_bind _ _ _ HQ); [auto with host|]. intros [toml new].
  apply (commits_bind _ _ _ HQ); [case_bool_decide; auto with host|]. intros _.
  do 4 (apply (commits_bind _ _ _ HQ); [auto with host|intros _]).
  apply (commits_bind _ _ _ HQ); [auto with host|]. intros data. apply (commits_bind _ _ _ HQ); [auto with host|]. intros _.
  apply (commits_bind _ _ _ HQ).
  - case_bool_decide; [destruct ecmascript; auto with host|]. apply quietly_bind; [auto with host|]. intros [fs jit]. auto with host.
  - intros h s s' r [= <- <-]. by exists h.
Qed.

Lemma swap_keeps name dir : files_fit → keeps (swap name dir).
Proof.
  intros Hfit s Hs. destruct (swap name dir s) as [s' r] eqn:E. cbn. destruct r as [[]|e|].
  - destruct (swap_inv _ _ _ _ Hfit E) as (old & h & toml & eng & Ho & Hman & Heng & (Hn & _) & Hm & Hi & auth & Ha & Hp & Hcode).
    split; [|rewrite Hi; apply Hs]. rewrite Hm. apply map_Forall_insert_2; [|apply Hs].
    destruct (proj1 Hs name old Ho) as [Hname _]. split; [congruence|]. exists auth, eng, toml. split_and!; try done. congruence.
  - pose proof (swap_commits name dir _ _ _ E) as Hc. exact (registry_same _ _ Hc Hs).
  - pose proof (swap_commits name dir _ _ _ E) as Hc. exact (registry_same _ _ Hc Hs).
Qed.

(** C35. The registry of a host is always coherent: after any sequence of loads,
    swaps, calls, instantiations, restores, blueprints and drops, successful or
    not, every module is registered under its own name, the code behind its
    function table is its own binary compiled while the grants of its own
    manifest were in force, each pointer being the address of the function of
    that name; every instance is registered under its key and is a sidecar
    module. *)
Theorem host_registry_coherent ops (t : @thread J) (x : X) :
  files_fit → registry_ok (foldl op_step (State ∅ ∅ t x) ops).
Proof.
  intros Hfit. assert (registry_ok (State ∅ ∅ t x)) as H0' by (split; apply map_Forall_empty).
  revert H0'. generalize (State ∅ ∅ t x : state). induction ops as [|o ops IH]; intros s Hs; [done|]. cbn. apply IH.
  destruct o; cbn [op_step].
  - by apply load_keeps.
  - by apply swap_keeps.
  - by apply call_keeps.
  - by apply call_json_keeps.
  - by apply instantiate_keeps.
  - by apply call_instance_keeps.
  - by apply registry_quiet; [apply quietly_snapshot|].
  - by apply restore_keeps.
  - by apply blueprint_keeps.
  - by apply drop_keeps.
Qed.

(** Loading and swapping are all or nothing for the registry: a load that
    succeeds adds exactly its handle under the module's name, a swap replaces
    exactly the named entry, and either leaves modules and instances as they
    were when it fails or panics at any point. *)
Theorem host_registry_atomic dir name (s : state) :
  (let '(s', r) := load dir s in match r with Ok h => installs s h s' | _ => same s s' end) ∧
  (let '(s', r) := swap name dir s in match r with Ok _ => replaces name s s' | _ => same s s' end).
Proof.
  split.
  - destruct (load dir s) as [s' r] eqn:E. exact (load_commits dir s s' r E).
  - destruct (swap name dir s) as [s' r] eqn:E. exact (swap_commits name dir s s' r E).
Qed.
End host.
End HostSafe.
