(* ===== verification/Demo.v ===== *)
(** * One small engine, from the compiler to the host

    [CpsDemo]: an engine that keeps names and bodies in tables, a memory of words, and a
    two-function program with a loop and a tail call: it is compiled from its
    bytes and run. [JitDemo] runs it behind the bridge's entry points, and
    [HostDemo] in a module host. *)

From S2P Require Import Prelude Cursor Text Toml Auth Clif Symbols Cps CpsLang CpsFuse CpsProgram CpsWf CpsFunc CpsGate CpsSem CpsCorrect CpsSim CpsRun Jit JitSafe ModuleHost HostSafe.
Import Clif Cps CpsLang CpsFuse CpsProgram CpsWf CpsFunc CpsGate CpsSem CpsCorrect CpsSim CpsRun CpsRefine.

Module CpsDemo.

(** ** An engine *)
Record engine := Engine { en_names : list bytes; en_bodies : gmap nat func }.

Fixpoint position (n : bytes) (l : list bytes) : option nat :=
  match l with
  | [] => None
  | m :: l => if bool_decide (m = n) then Some 0%nat else S <$> position n l
  end.

Definition declare (n : bytes) (e : engine) : engine * res bytes func_id :=
  match position n (en_names e) with
  | Some fid => (e, Ok fid)
  | None => (Engine (en_names e ++ [n]) (en_bodies e), Ok (length (en_names e)))
  end.

#[export] Instance engine_module : ClifModule engine := {
  declare_function n l a := declare n;
  define_function fid f e := (Engine (en_names e) (<[fid := f]> (en_bodies e)), Ok ());
  verify_function e f := Ok ()
}.

Lemma position_app n m l fid : position n l = Some fid → position n (l ++ m) = Some fid.
Proof.
  revert fid; induction l as [|x l IH]; intros fid; cbn; [done|]. case_bool_decide; [done|].
  intros (k & Hk & ->)%fmap_Some. by rewrite (IH k Hk).
Qed.
Lemma position_new n l : position n l = None → position n (l ++ [n]) = Some (length l).
Proof.
  induction l as [|x l IH]; cbn; [by rewrite bool_decide_eq_true_2|]. case_bool_decide; [done|].
  intros Hn%fmap_None. by rewrite IH.
Qed.
Lemma position_lookup n l fid : position n l = Some fid → l !! fid = Some n.
Proof.
  revert fid; induction l as [|x l IH]; intros fid; cbn; [done|].
  case_bool_decide as Hx; [intros [= <-]; by subst|]. intros (k & Hk & ->)%fmap_Some. by apply IH.
Qed.

#[export] Instance engine_laws : ClifModuleLaws engine.
Proof.
  refine {| sym e n := position n (en_names e); body_of e fid := en_bodies e !! fid |}; cbn; unfold declare.
  - intros n _ _ j j' fid. destruct (position n (en_names j)) eqn:E; intros [= <- <-]; [done|]. by apply position_new.
  - intros n _ _ j n' fid Hn. destruct (position n (en_names j)); [done|]. by apply position_app.
  - intros n _ _ j fid. by destruct (position n (en_names j)).
  - intros j n n' fid H1%position_lookup H2%position_lookup. congruence.
  - done.
  - intros fid f j j' u fid' [= <- _]. cbn. destruct (decide (fid' = fid)) as [->|]; [by rewrite lookup_insert_eq|by rewrite lookup_insert_ne].
Defined.

#[export] Instance words : Memory (gmap Z Z) := {
  mem_load w a := w !! a;
  mem_store _ w a z := Some (<[a := z]> w)
}.

(** ** A program *)
(** [sum(n) { acc = 0; while (n > 0) { acc = acc + n; n = n - 1; } return acc; }],
    [run() { return sum(4); }] *)
Definition demo_sum : fdef :=
  {| fd_name := str "sum"; fd_params := [str "n"]; fd_ret := z2b 0;
     fd_body := SLet (str "acc") (EConst 0)
       (SWhile (EOp (OCmp SignedGreaterThan) (EVar (str "n")) (EConst 0))
          (SLet (str "acc") (EOp OAdd (EVar (str "acc")) (EVar (str "n")))
             (SLet (str "n") (EOp OSub (EVar (str "n")) (EConst 1)) SNil))
          (SReturn (EVar (str "acc")) [])) |}.
Definition demo_run : fdef :=
  {| fd_name := str "run"; fd_params := []; fd_ret := z2b 0;
     fd_body := SReturn (EApp (str "sum") (ECons (EConst 4) ENil)) [] |}.
Definition demo_program : program := {| p_module := Some (str "demo"); p_funs := [demo_sum; demo_run] |}.
Definition demo_data : bytes := enc_program demo_program ++ [z2b 7].

Definition demo_clock : nat → Z := λ _, 0.
Definition demo_globals : @globals engine :=
  {| g_jit := Engine [] ∅; g_auth := Auth.auth_init; g_exports := ∅; g_tick := 0 |}.

Definition demo_module : CpsModule := {| name_map := <[str "sum" := 0%nat]> {[str "run" := 1%nat]}; module_name := str "demo" |}.
Definition demo_after : @globals engine := (compile_cps_to_clif demo_clock demo_data demo_globals).1.

Lemma demo_compiles :
  compile_cps_to_clif demo_clock demo_data demo_globals = (demo_after, Ok demo_module).
Proof. vm_compute. reflexivity. Qed.
Lemma demo_buffer : buffer demo_data ∧ Zlen demo_data < 2 ^ 28 ∧ Z.of_nat (size (g_exports demo_globals)) < 2 ^ 62.
Proof. vm_compute. auto. Qed.

Example cps_one_pass_witness :
  buffer demo_data ∧
  ∃ p trailing, wf_program p ∧ wf_bodies p ∧ demo_data = enc_program p ++ trailing ∧
    cprogram demo_clock p demo_globals = (demo_after, Ok demo_module).
Proof.
  split; [exact (proj1 demo_buffer)|].
  exact (proj2 (cps_one_pass demo_clock demo_data demo_globals (proj1 demo_buffer)) _ _ demo_compiles).
Defined.

(** The invariant that every body the engine holds is well-formed. *)
Definition bodies_ok (e : engine) : Prop := ∀ fid f, en_bodies e !! fid = Some f → ∃ nv, func_ok nv f.
Lemma bodies_ok_keeps : keeps (J:=engine) bodies_ok.
Proof.
  split.
  - intros n l a j Hj. cbn. unfold declare. by destruct (position n (en_names j)).
  - intros fid f nv j Hf Hj fid' f'. cbn. intros [[_ <-]|[_ Hl]]%lookup_insert_Some; [by exists nv|by eapply Hj].
Qed.

Example cps_emits_typed_witness :
  buffer demo_data ∧ bodies_ok (g_jit demo_after) ∧
  (∃ f, en_bodies (g_jit demo_after) !! 0%nat = Some f ∧ length (f_blocks f) = 4%nat).
Proof.
  split; [exact (proj1 demo_buffer)|]. split; [|eexists; vm_compute; split; reflexivity].
  refine (proj1 (cps_emits_typed demo_clock demo_data demo_globals (proj1 demo_buffer)) _ _ bodies_ok demo_compiles bodies_ok_keeps _).
  intros fid f Hl. discriminate Hl.
Defined.

Definition is_Ok {E A} (r : res E A) : bool := match r with Ok _ => true | _ => false end.

(** [main() { uk_log(1); }], with every call allowed. *)
Definition gated_data : bytes :=
  enc_program {| p_module := None;
    p_funs := [{| fd_name := str "main"; fd_params := []; fd_ret := z2b 0;
                  fd_body := SExpr (EApp (str "uk_log") (ECons (EConst 1) ENil)) SNil |}] |}.
Definition open_globals : @globals engine :=
  {| g_jit := Engine [] ∅; g_auth := Auth.set_allow_all Auth.auth_init; g_exports := ∅; g_tick := 0 |}.

Example cps_gate_witness :
  buffer gated_data ∧ is_gated (str "main") (str "uk_log") = true ∧
  (∃ e, (compile_cps_to_clif demo_clock gated_data demo_globals).2 = Err e) ∧
  ∃ g' m, compile_cps_to_clif demo_clock gated_data open_globals = (g', Ok m) ∧ g_auth g' = g_auth open_globals.
Proof.
  assert (buffer gated_data) as Hb by (vm_compute; reflexivity).
  split; [exact Hb|]. split; [vm_compute; reflexivity|]. split; [eexists; vm_compute; reflexivity|].
  assert (is_Ok (compile_cps_to_clif demo_clock gated_data open_globals).2 = true) as Hok by (vm_compute; reflexivity).
  destruct (compile_cps_to_clif demo_clock gated_data open_globals) as [g' [m|e|]] eqn:E; [|discriminate Hok..].
  exists g', m. split; [reflexivity|]. exact (proj1 (cps_gate demo_clock gated_data open_globals g' m Hb E)).
Defined.

(** Nothing native. *)
Definition no_native : callee (gmap Z Z) := λ _ _ _, None.

(** 1 + 2 + 3 + 4, as the program means it and as the engine runs it. *)
Example demo_means :
  invoke (name_map demo_module) (sym (g_jit demo_after)) (functions_of [0; 1]%nat demo_program) no_native 40%nat 1%nat [] ∅
  = Some (10, ∅).
Proof. vm_compute. reflexivity. Qed.
Example demo_runs : run (body_of (g_jit demo_after)) no_native 100%nat 1%nat [] ∅ = Some (10, ∅).
Proof. vm_compute. reflexivity. Qed.

Example cps_correct_witness :
  buffer demo_data ∧ Zlen demo_data < 2 ^ 28 ∧ Z.of_nat (size (g_exports demo_globals)) < 2 ^ 62 ∧
  ∃ p trailing fids, demo_data = enc_program p ++ trailing ∧ length fids = length (p_funs p) ∧ NoDup fids ∧
    ∀ n fid vs (w : gmap Z Z) r,
      invoke (name_map demo_module) (sym (g_jit demo_after)) (functions_of fids p)
        (run (body_of (g_jit demo_after)) no_native 0%nat) n fid vs w = Some r →
      ∃ N, run (body_of (g_jit demo_after)) no_native N fid vs w = Some r.
Proof.
  destruct demo_buffer as (Hb & Hl & Hs). split; [exact Hb|]. split; [exact Hl|]. split; [exact Hs|].
  destruct (cps_correct (W:=gmap Z Z) demo_clock demo_data demo_globals _ _ Hb Hl Hs demo_compiles)
    as (p & tr & fids & E & _ & _ & Hlen & Hnd & _ & Hrun).
  exists p, tr, fids. split; [exact E|]. split; [exact Hlen|]. split; [exact Hnd|].
  intros n fid vs w r. exact (Hrun no_native 0%nat n fid vs w r).
Defined.
End CpsDemo.

(** * The JIT engine end to end

    The table engine of [CpsDemo] as a JIT: a thread compiles the demo program,
    looks its functions up, swaps it, and fails to swap in garbage. *)

Import Clif Cps CpsLang CpsSem CpsCorrect CpsRefine CpsDemo Jit JitSafe.

Module JitDemo.

#[export] Instance engine_jit : JitBackend engine := {
  jit_new _ := Ok (Engine [] ∅);
  finalize_definitions j := (j, Ok ());
  get_finalized_function j fid := (λ _, Z.of_nat fid + 1) <$> en_bodies j !! fid
}.

#[export] Instance engine_jit_laws : JitLaws engine.
Proof.
  refine {| finalized j fid := is_Some (en_bodies j !! fid) |}; cbn.
  - intros n _ _ j fid. unfold declare. by destruct (position n (en_names j)).
  - intros fid f j fid' Hf. cbn. destruct (decide (fid' = fid)) as [->|]; [by rewrite lookup_insert_eq|by rewrite lookup_insert_ne].
  - done.
  - by intros j j' u fid [= <- _].
  - done.
  - done.
  - intros j fid [f Hf]. exists (Z.of_nat fid + 1). rewrite Hf. split; [done|lia].
Defined.

Definition demo_order (m : gmap bytes func_id) : list (bytes * func_id) := map_to_list m.
Lemma demo_order_perm m : demo_order m ≡ₚ map_to_list m.
Proof. done. Qed.
Definition demo_features : features := {| f_unfer_kernel := true; f_zenodo_store := false; f_tier1_rs := true |}.
Definition demo_thread : @thread engine := thread_new Auth.auth_init [].
Abbreviation demo_compile := (compile_to_function_named (J:=engine) demo_clock demo_features demo_order (str "boom")).
Abbreviation demo_swap := (cranelift_swap_binary (J:=engine) demo_clock demo_features demo_order (str "boom")).

(** Compile, a refused compile, a refused swap. *)
Definition demo_calls : list api :=
  [ACompile (Some demo_data) None; ACompile (Some (str "junk")) None; ASwap (Some (str "junk"))].

Lemma demo_calls_bounded : Forall api_bounded demo_calls.
Proof. repeat constructor; vm_compute; reflexivity. Qed.
Lemma demo_data_bounded : Zlen demo_data < 2 ^ 28 ∧ Z.of_nat (size (t_exports demo_thread)) < 2 ^ 62.
Proof. vm_compute. auto. Qed.

Example jit_lookup_live_witness :
  Forall api_bounded demo_calls ∧
  ∃ p, lookup_function (Some (str "sum"))
         (foldl (api_step demo_clock demo_features demo_order (str "boom")) demo_thread demo_calls) = Ok p.
Proof.
  split; [exact demo_calls_bounded|].
  destruct (jit_lookup_live demo_clock demo_features demo_order (str "boom") Auth.auth_init []
              demo_calls (Some (str "sum")) demo_calls_bounded) as (p & E & _). exists p. exact E.
Defined.
Example demo_lookups :
  let t := foldl (api_step demo_clock demo_features demo_order (str "boom")) demo_thread demo_calls in
  lookup_function (Some (str "sum")) t = Ok 1 ∧ lookup_function (Some (str "junk")) t = Ok 0 ∧
  t_error t = Some (str "Swap compilation error: Invalid magic: 0x6b6e756a").
Proof. vm_compute. auto. Qed.

Example jit_swap_atomic_witness :
  bounded (Some demo_data) ∧ (demo_swap (Some demo_data) demo_thread).2 = Ok 2 ∧
  ∃ t' p, demo_swap (Some demo_data) demo_thread = (t', Ok p).
Proof.
  assert (bounded (Some demo_data)) as Hb by (vm_compute; reflexivity).
  split; [exact Hb|]. split; [vm_compute; reflexivity|].
  destruct (jit_swap_atomic demo_clock demo_features demo_order (str "boom") demo_order_perm (Some demo_data) demo_thread Hb)
    as (t' & p & E & _). exists t', p. exact E.
Defined.

Definition demo_compiled : @thread engine := (demo_compile (Some demo_data) (Some (str "run")) demo_thread).1.
Lemma demo_compile_ok : demo_compile (Some demo_data) (Some (str "run")) demo_thread = (demo_compiled, Ok 2).
Proof. vm_compute. reflexivity. Qed.

Example jit_entry_correct_witness :
  t_error demo_compiled = None ∧
  ∃ prog trailing fids m j fid, demo_data = enc_program prog ++ trailing ∧ NoDup fids ∧
    t_module demo_compiled = Some m ∧ t_jit demo_compiled = Some j ∧ get_finalized_function j fid = Some 2 ∧
    ∀ n vs (w : gmap Z Z) r,
      invoke (name_map m) (sym j) (functions_of fids prog) (run (body_of j) no_native 0%nat) n fid vs w = Some r →
      ∃ N, run (body_of j) no_native N fid vs w = Some r.
Proof.
  destruct demo_data_bounded as [Hl Hs].
  destruct (jit_entry_correct (W:=gmap Z Z) demo_clock demo_features demo_order (str "boom") demo_data (Some (str "run"))
    demo_thread demo_compiled 2 Hl Hs demo_compile_ok ltac:(discriminate))
    as (He & prog & tr & fids & m & j & ns & fid & Hd & Hnd & _ & Hm & Hj & Hg & _ & _ & _ & Hrun).
  split; [exact He|]. exists prog, tr, fids, m, j, fid. split; [exact Hd|]. split; [exact Hnd|]. split; [exact Hm|].
  split; [exact Hj|]. split; [exact Hg|]. intros n vs w r. exact (Hrun no_native 0%nat n vs w r).
Defined.

Example trapping_exact_witness :
  is_i64 (- 2 ^ 63) ∧ is_i64 (-1) ∧ au_trapping_divide (- 2 ^ 63) (-1) = None ∧
  (∀ v, au_trapping_add (- 2 ^ 63) (-1) = Some v ↔ v = - 2 ^ 63 + -1 ∧ is_i64 v).
Proof.
  assert (is_i64 (- 2 ^ 63)) as Ha by (unfold is_i64; lia). assert (is_i64 (-1)) as Hb by (unfold is_i64; lia).
  split; [exact Ha|]. split; [exact Hb|]. split; [vm_compute; reflexivity|].
  exact (proj1 (trapping_exact (- 2 ^ 63) (-1) Ha Hb)).
Defined.
End JitDemo.

(** * A module host end to end

    A world of files held in a map, two versions of a module, and the swap from
    one to the other; and what the swap and the blueprint checks let through. *)

Import Toml Clif Cps CpsLang CpsCorrect CpsDemo Jit JitDemo ModuleHost HostSafe.

Module HostDemo.

Abbreviation files := (gmap bytes bytes).

Definition demo_read (path : bytes) : stm files bytes bytes := λ fs,
  (fs, match fs !! path with
       | Some d => if Zlen d <? 2 ^ 63 then Ok d else Err (str "too large")
       | None => Err (str "not found")
       end).

#[export] Instance demo_world : HostWorld files := {
  read_to_string := demo_read;
  read_file := demo_read;
  write_file path d fs := (<[path := d]> fs, Ok ());
  create_dir_all _ fs := (fs, Ok ());
  exists_path path fs := (fs, Ok (bool_decide (is_Some (fs !! path))));
  env_var _ fs := (fs, Err []);
  runtime_choice _ _ _ fallback requested := Profile (default fallback requested);
  cell := list (bytes * bytes);
  cell_parse _ := Ok [(str "/etc/passwd", str "x")];
  cell_name _ := str "bp";
  cell_files c := c;
  cell_session _ := None;
  sidecar := ();
  worker_paths := ();
  paths_from_env fs := (fs, Ok ());
  spawn _ _ _ _ fs := (fs, Ok ());
  sidecar_call _ _ args fs := (fs, Ok args);
  json_result _ := Some (Some 7);
  uk_snapshot _ _ fs := (fs, Ok (0, []));
  uk_restore _ fs := (fs, Ok 1);
  uk_model_free _ fs := (fs, Ok 0);
  uk_last_error _ fs := (fs, Ok (0, []));
  call_code _ args fs := (fs, Ok (Zlen args))
}.

(** Manifest texts stand for their trees: ["zenodo"] lists a storage grant. *)
Definition demo_manifest (zenodo : list toml) : toml :=
  TTable [(str "module", TTable [(str "name", TString (str "demo"))]);
          (str "grants", TTable [(str "kernel", TArray [TString (str "uk_init")]); (str "zenodo", TArray zenodo)])].
#[export] Instance demo_toml : TomlText := λ s,
  if bool_decide (s = str "plain") then Some (demo_manifest [])
  else if bool_decide (s = str "zenodo") then Some (demo_manifest [TString (str "uz_push")])
  else None.

Definition demo_files : files :=
  list_to_map [(str "/a/module.toml", str "plain"); (str "/a/module.cps", demo_data);
               (str "/b/module.toml", str "zenodo"); (str "/b/module.cps", demo_data);
               (str "/c/module.toml", str "zenodo")].

Abbreviation demo_load := (load (J:=engine) (X:=files) demo_clock demo_features true).
Abbreviation demo_host_swap := (swap (J:=engine) (X:=files) demo_clock demo_features true).
Definition demo_state : @state engine files _ := State ∅ ∅ demo_thread demo_files.
Definition demo_loaded : @state engine files _ := (demo_load (str "/a") demo_state).1.
Definition demo_swapped : @state engine files _ := (demo_host_swap (str "demo") (str "/b") demo_loaded).1.

Lemma demo_files_fit : files_fit (X:=files).
Proof.
  intros path x x' d. cbn. unfold demo_read. destruct (x !! path) as [d'|]; [|done].
  destruct (Zlen d' <? 2 ^ 63) eqn:E; [|done]. intros [= _ <-]. unfold buffer. lia.
Qed.
Lemma demo_swap_ok : demo_host_swap (str "demo") (str "/b") demo_loaded = (demo_swapped, Ok ()).
Proof.
  assert (is_Ok (demo_host_swap (str "demo") (str "/b") demo_loaded).2 = true) as Hok by (vm_compute; reflexivity).
  unfold demo_swapped. by destruct (demo_host_swap (str "demo") (str "/b") demo_loaded) as [s [[]|e|]].
Qed.

Example host_no_escalation_witness :
  files_fit (X:=files) ∧
  ∃ old h, h_modules demo_loaded !! str "demo" = Some old ∧
    h_modules demo_swapped = <[str "demo" := h]> (h_modules demo_loaded) ∧
    mm_grants (mh_manifest h) ⊆ mm_grants (mh_manifest old).
Proof.
  split; [exact demo_files_fit|].
  destruct (host_no_escalation demo_clock demo_features true (str "demo") (str "/b") demo_loaded demo_swapped
              demo_files_fit demo_swap_ok) as (old & h & toml & v & Ho & Hm & _ & _ & _ & (_ & Hg & _) & _).
  exists old, h. split; [exact Ho|]. split; [exact Hm|exact Hg].
Defined.

Definition demo_ops : list op :=
  [OLoad (str "/a"); OSwap (str "demo") (str "/b"); OLoad (str "/nowhere"); OCall (str "demo") (str "sum") [4]].
Example host_registry_coherent_witness :
  files_fit (X:=files) ∧
  registry_ok demo_clock demo_features (foldl (op_step demo_clock demo_features true) (State ∅ ∅ demo_thread demo_files) demo_ops) ∧
  (h_modules (foldl (op_step demo_clock demo_features true) (State ∅ ∅ demo_thread demo_files) demo_ops) !! str "demo"
     ≫= λ h, Some (mh_call_count h)) = Some 1.
Proof.
  split; [exact demo_files_fit|]. split; [|vm_compute; reflexivity].
  exact (host_registry_coherent demo_clock demo_features true demo_ops demo_thread demo_files demo_files_fit).
Defined.

(** Whether the module may push to storage. *)
Definition may_push (s : @state engine files _) : bool :=
  is_Ok (Auth.check 0 (str "demo") (str "Call") (str "uz_push") (t_auth (h_thread s))).2.

(** A load that fails has already replaced the process' authorization: the
    directory has no binary, and its manifest's grants are in force. *)
Example failed_load_installs_grants :
  is_Ok (demo_load (str "/c") demo_loaded).2 = false ∧ may_push demo_loaded = false ∧
  may_push (demo_load (str "/c") demo_loaded).1 = true.
Proof. split_and!; vm_compute; reflexivity. Qed.

(** A swap does not compare storage grants. *)
Example swap_adds_storage_grant : may_push demo_loaded = false ∧ may_push demo_swapped = true.
Proof. split; vm_compute; reflexivity. Qed.

(** An archive entry with an absolute path is written outside the instance's
    directory. *)
Example blueprint_escapes :
  let s := (instantiate_from_blueprint (str "archive") (str "/srv") (str "1") demo_state).1 in
  h_x s !! str "/etc/passwd" = Some (str "x").
Proof. vm_compute. reflexivity. Qed.

(** A call of a sidecar module is counted twice. *)
Example sidecar_calls_count_twice :
  let s := State {[str "js" := Handle {| mm_name := str "js"; mm_version := []; mm_archetypes := []; mm_archetype := str "ecmascript";
      mm_entry := []; mm_grants := []; mm_effects := []; mm_effect_kinds := []; mm_observers := []; mm_resources := [];
      mm_fs_grants := []; mm_net_grants := []; mm_max_ms := None; mm_memory_max_bytes := None; mm_gatekeeper_mode := Enabled |}
      (REcma ()) 0]} ∅ demo_thread demo_files in
  mh_call_count <$> h_modules (call (J:=engine) (X:=files) true (str "js") (str "run") [1] s).1 !! str "js" = Some 2.
Proof. vm_compute. reflexivity. Qed.
End HostDemo.
