(* ===== verification/RefiUtil.v ===== *)
(** * Helpers of the REFI service ([refi/src/util.rs])

    Constant-time comparison, identifiers, HTML escaping, form and path
    encoding, slugs, the request and response types and the structured API
    error. Strings are their UTF-8 bytes. *)

From S2P Require Import Prelude Text Manifest.
Import Hex.

Module RefiUtil.

(** ** Time, in Unix seconds *)
Definition today (now : Z) : Z := now / 86400.

(** ** Hashes and hexadecimal: the [sha2] and [hex] crates *)
Class Sha256 := sha256 : bytes → bytes.
Class HexText := { hex_encode : bytes → bytes; hex_decode : bytes → option bytes }.

Definition sha256_hex `{Sha256, HexText} (bs : bytes) : bytes := hex_encode (sha256 bs).

(** [diff |= x ^ y] over the zipped bytes. *)
Definition ct_eq (a b : bytes) : bool :=
  if negb (Zlen a =? Zlen b) then false
  else foldl (λ diff '(x, y), Z.lor diff (Z.lxor (b2z x) (b2z y))) 0 (zip a b) =? 0.

Definition parse_hex32 `{HexText} (s : bytes) : option bytes :=
  bs ← hex_decode (trim s); if Zlen bs =? 32 then Some bs else None.

(** [s.chars().any(|c| c.is_whitespace())] *)
Fixpoint any_whitespace (s : bytes) : bool :=
  match s with
  | [] => false
  | _ :: t => negb (bool_decide (ws_len whitespace s = 0%nat)) || any_whitespace t
  end.

Definition is_ascii_digit (b : byte) : bool := byte_in 48 57 b.

Definition is_doi (s : bytes) : bool :=
  if (Zlen s =? 0) || (200 <? Zlen s) || any_whitespace s then false
  else match strip_prefix (str "10.") s with
       | None => false
       | Some rest =>
           match split_once (str "/") rest with
           | None => false
           | Some (registrant, suffix) =>
               (4 <=? Zlen registrant) && (Zlen registrant <=? 9) &&
               forallb is_ascii_digit registrant && negb (Zlen suffix =? 0)
           end
       end.

(** ** HTML *)
Definition escape_char (c : byte) : bytes :=
  match c with
  | Byte.x26 => str "&amp;"
  | Byte.x3c => str "&lt;"
  | Byte.x3e => str "&gt;"
  | Byte.x22 => str "&quot;"
  | Byte.x27 => str "&#x27;"
  | _ => [c]
  end.
Definition escape_html (s : bytes) : bytes := concat (escape_char <$> s).

(** ** Forms *)

(** [u8::from_str_radix(.., 16)] of two bytes: a leading plus is accepted. *)
Definition from_hex2 (a c : byte) : option byte :=
  if bool_decide (a = Byte.x2b) then z2b <$> to_digit c
  else hi ← to_digit a; lo ← to_digit c; Some (z2b (16 * hi + lo)).

Definition is_continuation (b : byte) : bool := byte_in 0x80 0xBF b.

(** The loop of [url_decode]. The two characters after a percent sign are
    sliced out of the string, which panics inside a character. *)
Fixpoint decode_loop {E} (s : bytes) : res E bytes :=
  match s with
  | [] => Ok []
  | b :: rest =>
      if bool_decide (b = Byte.x2b) then out ← decode_loop rest; Ok (Byte.x20 :: out)
      else if bool_decide (b = Byte.x25) then
        match rest with
        | a :: c :: tl =>
            if match tl with d :: _ => is_continuation d | [] => false end then Panic
            else match from_hex2 a c with
                 | Some v => out ← decode_loop tl; Ok (v :: out)
                 | None => out ← decode_loop rest; Ok (b :: out)
                 end
        | _ => out ← decode_loop rest; Ok (b :: out)
        end
      else out ← decode_loop rest; Ok (b :: out)
  end.
Definition url_decode {E} (s : bytes) : res E bytes := out ← decode_loop s; Ok (from_utf8_lossy out).

Definition decode_pair {E} (pair : bytes) : res E (bytes * bytes) :=
  let '(k, v) := default (pair, []) (split_once (str "=") pair) in
  k ← url_decode k; v ← url_decode v; Ok (k, v).

Definition parse_form {E} (body : bytes) : res E (list (bytes * bytes)) :=
  mapM_res decode_pair (filter (λ p, p ≠ []) (split Byte.x26 (from_utf8_lossy body))).

Definition form_get (form : list (bytes * bytes)) (key : bytes) : option bytes :=
  snd <$> (snd <$> list_find (λ kv, kv.1 = key) form).

Definition is_unreserved (b : byte) : bool :=
  byte_in 65 90 b || byte_in 97 122 b || byte_in 48 57 b ||
  bool_decide (b ∈ str "-_.~").

(** [{b:02X}] *)
Definition upper_digit (d : Z) : byte := if d <? 10 then z2b (48 + d) else z2b (55 + d).
Definition percent (b : byte) : bytes := [Byte.x25; upper_digit (b2z b / 16); upper_digit (b2z b mod 16)].
Definition url_encode (s : bytes) : bytes := concat ((λ b, if is_unreserved b then [b] else percent b) <$> s).

(** ** Slugs *)
Definition is_ascii_alphanumeric (b : byte) : bool := byte_in 65 90 b || byte_in 97 122 b || byte_in 48 57 b.

(** The loop of [slugify]: every byte of a character beyond ASCII is a dash. *)
Fixpoint slug_loop (last_dash : bool) (s : bytes) : bytes :=
  match s with
  | [] => []
  | c :: s =>
      if is_ascii_alphanumeric c then lower c :: slug_loop false s
      else if last_dash then slug_loop true s
      else Byte.x2d :: slug_loop true s
  end.

Fixpoint drop_dashes (s : bytes) : bytes :=
  match s with Byte.x2d :: s => drop_dashes s | _ => s end.
(** [trim_matches('-')] *)
Definition trim_dashes (s : bytes) : bytes := reverse (drop_dashes (reverse (drop_dashes s))).

Definition slugify (title : bytes) : bytes :=
  match trim_dashes (slug_loop true title) with [] => str "page" | t => t end.

(** ** Requests, responses and errors *)
Record HttpRequest := {
  rq_method : bytes; rq_path : bytes; rq_query : list (bytes * bytes); rq_headers : list (bytes * bytes);
  rq_body : bytes; rq_peer : bytes; rq_secure : bool
}.

Definition eq_ignore_ascii_case (a b : bytes) : bool := bool_decide (to_ascii_lowercase a = to_ascii_lowercase b).

Definition header (r : HttpRequest) (name : bytes) : option bytes :=
  snd <$> (snd <$> list_find (λ kv, eq_ignore_ascii_case kv.1 name = true) (rq_headers r)).
Definition query_get (r : HttpRequest) (key : bytes) : option bytes := form_get (rq_query r) key.

Record HttpResponse := {
  rs_status : Z; rs_content_type : bytes; rs_body : bytes; rs_headers : list (bytes * bytes)
}.

Definition resp_html (status : Z) (body : bytes) : HttpResponse :=
  {| rs_status := status; rs_content_type := str "text/html; charset=utf-8"; rs_body := body; rs_headers := [] |}.
Definition resp_text (status : Z) (body : bytes) : HttpResponse :=
  {| rs_status := status; rs_content_type := str "text/plain; charset=utf-8"; rs_body := body; rs_headers := [] |}.
Definition with_header (r : HttpResponse) (name value : bytes) : HttpResponse :=
  {| rs_status := rs_status r; rs_content_type := rs_content_type r; rs_body := rs_body r;
     rs_headers := rs_headers r ++ [(name, value)] |}.

Record ApiError := { ae_status : Z; ae_code : bytes; ae_name : bytes; ae_message : bytes }.
#[export] Instance api_error_eq_dec : EqDecision ApiError.
Proof. solve_decision. Defined.

Definition api_error (status : Z) (code name message : String.string) : ApiError :=
  {| ae_status := status; ae_code := str code; ae_name := str name; ae_message := str message |}.
Definition bad_request (message : String.string) : ApiError := api_error 400 "UK-1001" "BadRequest" message.
Definition unauthorized (message : String.string) : ApiError := api_error 401 "UK-4001" "Unauthorized" message.
Definition not_found (message : String.string) : ApiError := api_error 404 "UK-1002" "NotFound" message.
Definition limit (message : String.string) : ApiError := api_error 429 "UK-RATE-LIMIT" "RateLimited" message.
Definition internal (message : String.string) : ApiError := api_error 500 "UK-5000" "Internal" message.
Definition unavailable (message : String.string) : ApiError := api_error 503 "UK-5001" "Unavailable" message.

(** ** Comparison *)
Lemma b2z_inj a b : b2z a = b2z b → a = b.
Proof. intros E. by rewrite <-(z2b_b2z a), <-(z2b_b2z b), E. Qed.

Lemma ct_diff_0 l acc :
  foldl (λ diff '(x, y), Z.lor diff (Z.lxor (b2z x) (b2z y))) acc l = 0 ↔ acc = 0 ∧ Forall (λ '(x, y), x = y) l.
Proof.
  revert acc. induction l as [|[x y] l IH]; intros acc; cbn [foldl]; [naive_solver|].
  rewrite IH, Z.lor_eq_0_iff, Z.lxor_eq_0_iff, Forall_cons.
  split; [intros [[? E%b2z_inj] ?]; auto|intros (? & -> & ?); auto].
Qed.

(** [ct_eq] is equality. *)
Lemma ct_eq_exact a b : ct_eq a b = true ↔ a = b.
Proof.
  unfold ct_eq. destruct (Zlen a =? Zlen b) eqn:El; cbn [negb]; [|split; [done|intros ->; lia]].
  rewrite Z.eqb_eq, ct_diff_0. split; [intros [_ HF]|intros ->; split; [done|]].
  - apply Z.eqb_eq, Nat2Z.inj in El. revert b El HF. induction a as [|x a IH]; intros [|y b] El HF; try done.
    cbn in HF. apply Forall_cons in HF as [-> HF]. f_equal. apply IH; [by injection El|done].
  - apply Forall_forall. intros [x y] Hin. clear El. induction b as [|z b IH]; cbn in Hin; [by apply not_elem_of_nil in Hin|].
    apply elem_of_cons in Hin as [[= -> ->]|Hin]; auto.
Qed.

(** ** Encoding and decoding *)
Definition is_ascii (b : byte) : bool := byte_in 0 0x7F b.

Lemma utf8_ascii s : forallb is_ascii s = true → utf8_valid s = true.
Proof.
  induction s as [|b s IH]; [done|]. cbn [forallb]. intros [Hb Hs]%andb_true_iff.
  cbn [utf8_valid]. unfold is_ascii in Hb. rewrite Hb. auto.
Qed.
Lemma lossy_valid s : utf8_valid s = true → from_utf8_lossy s = s.
Proof. by apply (from_utf8_lossy_valid (length s)). Qed.

(** A fact about every byte. *)
Ltac bytewise b := destruct b; vm_compute; try reflexivity; try discriminate.

Lemma unreserved_plain b : is_unreserved b = true → b ≠ Byte.x2b ∧ b ≠ Byte.x25 ∧ b ≠ Byte.x26 ∧ b ≠ Byte.x3d ∧ is_ascii b = true.
Proof. destruct b; vm_compute; intros; split_and!; congruence. Qed.
Lemma percent_decodes b : from_hex2 (upper_digit (b2z b / 16)) (upper_digit (b2z b mod 16)) = Some b.
Proof. bytewise b. Qed.
Lemma percent_plain b : Forall (λ c, c ≠ Byte.x2b ∧ c ≠ Byte.x26 ∧ c ≠ Byte.x3d ∧ is_ascii c = true) (percent b).
Proof. destruct b; vm_compute; repeat constructor; congruence. Qed.

Lemma url_encode_cons b s : url_encode (b :: s) = (if is_unreserved b then [b] else percent b) ++ url_encode s.
Proof. done. Qed.
Lemma url_encode_plain s : Forall (λ c, c ≠ Byte.x2b ∧ c ≠ Byte.x26 ∧ c ≠ Byte.x3d ∧ is_ascii c = true) (url_encode s).
Proof.
  induction s as [|b s IH]; [constructor|]. rewrite url_encode_cons, Forall_app. split; [|done].
  destruct (is_unreserved b) eqn:E; [|apply percent_plain]. apply unreserved_plain in E. repeat constructor; naive_solver.
Qed.
Lemma url_encode_no_continuation s : match url_encode s with d :: _ => is_continuation d | [] => false end = false.
Proof.
  pose proof (url_encode_plain s) as HF. destruct (url_encode s) as [|d l]; [done|].
  apply Forall_cons in HF as [(_ & _ & _ & Hd) _]. revert Hd. unfold is_ascii, is_continuation, byte_in. lia.
Qed.

Lemma url_round_trip {E} s : decode_loop (E:=E) (url_encode s) = Ok s.
Proof.
  induction s as [|b s IH]; [done|]. rewrite url_encode_cons. destruct (is_unreserved b) eqn:Eb.
  - apply unreserved_plain in Eb as (H1 & H2 & _). cbn [app decode_loop].
    rewrite !bool_decide_eq_false_2 by done. by rewrite IH.
  - cbn [percent app decode_loop]. rewrite bool_decide_eq_false_2 by done. rewrite bool_decide_eq_true_2 by done.
    by rewrite url_encode_no_continuation, percent_decodes, IH.
Qed.

(** Percent-encoding a string and decoding it gives it back. *)
Lemma url_roundtrip {E} s : utf8_valid s = true → url_decode (E:=E) (url_encode s) = Ok s.
Proof. intros Hs. unfold url_decode. rewrite url_round_trip. cbn. by rewrite lossy_valid. Qed.

(** The body of a form. *)
Definition form_pair (kv : bytes * bytes) : bytes := url_encode kv.1 ++ str "=" ++ url_encode kv.2.
Definition form_body (l : list (bytes * bytes)) : bytes := join Byte.x26 (form_pair <$> l).

Lemma split_once_Some pat s a b : split_once pat s = Some (a, b) → s = a ++ pat ++ b.
Proof.
  revert a b. induction s as [|c s IH]; intros a b; cbn.
  all: destruct (strip_prefix pat _) as [t|] eqn:Hp; [apply strip_prefix_Some in Hp; by intros [= <- <-]|].
  - done.
  - intros ([a' b'] & E & [= <- <-])%bind_Some. by rewrite (IH _ _ E).
Qed.
Lemma split_once_byte c a b : c ∉ a → split_once [c] (a ++ c :: b) = Some (a, b).
Proof.
  induction a as [|x a IH]; intros Hn; cbn [app].
  - cbn [split_once]. unfold strip_prefix. cbn. by rewrite bool_decide_eq_true_2.
  - apply not_elem_of_cons in Hn as [Hx Ha]. cbn [split_once]. unfold strip_prefix at 1. cbn [length take app].
    rewrite bool_decide_eq_false_2 by congruence. by rewrite IH.
Qed.

Lemma form_pair_plain kv : Forall (λ c, c ≠ Byte.x26 ∧ is_ascii c = true) (form_pair kv).
Proof.
  unfold form_pair. rewrite !Forall_app. split_and!; [|repeat constructor; done|];
    (eapply Forall_impl; [apply url_encode_plain|naive_solver]).
Qed.
Lemma decode_pair_form {E} kv : utf8_valid kv.1 = true → utf8_valid kv.2 = true → decode_pair (E:=E) (form_pair kv) = Ok kv.
Proof.
  intros H1 H2. unfold decode_pair, form_pair. change (str "=") with [Byte.x3d]. cbn [app]. rewrite split_once_byte.
  - cbn [default from_option id]. rewrite url_roundtrip by done. cbn [mbind res_bind]. rewrite url_roundtrip by done. by destruct kv.
  - intros Hin. pose proof (url_encode_plain kv.1) as HF. rewrite Forall_forall in HF. by apply HF in Hin as (_ & _ & ? & _).
Qed.

Lemma join_ascii l : Forall (λ p, forallb is_ascii p = true) l → forallb is_ascii (join Byte.x26 l) = true.
Proof.
  induction l as [|p [|q l] IH]; [done|intros [? _]%Forall_cons; done|]. intros [Hp Hl]%Forall_cons.
  change (join Byte.x26 (p :: q :: l)) with (p ++ Byte.x26 :: join Byte.x26 (q :: l)).
  rewrite forallb_app, Hp. cbn [forallb]. by rewrite IH.
Qed.

Lemma filter_id {A} (P : A → Prop) `{∀ x, Decision (P x)} (l : list A) : Forall P l → filter P l = l.
Proof. induction 1 as [|x l Hx Hl IH]; [done|]. rewrite filter_cons_True by done. by rewrite IH. Qed.

(** A form is parsed back into the fields it was made of. *)
Lemma form_roundtrip {E} l :
  Forall (λ kv, utf8_valid kv.1 = true ∧ utf8_valid kv.2 = true) l → parse_form (E:=E) (form_body l) = Ok l.
Proof.
  intros Hl. unfold parse_form, form_body. rewrite lossy_valid.
  2: { apply utf8_ascii, join_ascii, Forall_fmap, Forall_forall. intros kv _. apply forallb_Forall.
       eapply Forall_impl; [apply form_pair_plain|naive_solver]. }
  destruct l as [|kv l]; [done|]. rewrite split_join; [|done|].
  2: { apply Forall_fmap, Forall_forall. intros kv' _ Hin. pose proof (form_pair_plain kv') as HF.
       rewrite Forall_forall in HF. by apply HF in Hin as [? _]. }
  rewrite filter_id.
  2: { apply Forall_fmap, Forall_forall. intros kv' _. cbn. unfold form_pair. intros E'%app_nil. naive_solver. }
  clear -Hl. induction (kv :: l) as [|x xs IH]; [done|]. apply Forall_cons in Hl as [[H1 H2] Hl]. cbn [fmap list_fmap mapM_res].
  rewrite decode_pair_form by done. cbn. by rewrite IH.
Qed.

(** ** HTML *)

(** Text that cannot open a tag, close one or leave an attribute. *)
Definition is_text (b : byte) : bool := negb (bool_decide (b ∈ [Byte.x3c; Byte.x3e; Byte.x22; Byte.x27])).

Lemma escape_char_text c : forallb is_text (escape_char c) = true.
Proof. bytewise c. Qed.
Lemma escape_html_text s : forallb is_text (escape_html s) = true.
Proof.
  induction s as [|c s IH]; [done|]. change (escape_html (c :: s)) with (escape_char c ++ escape_html s).
  by rewrite forallb_app, escape_char_text, IH.
Qed.

(** The codes of two characters, one a prefix of the other, are the same. *)
Lemma escape_prefix_free c d s t : escape_char c ++ s = escape_char d ++ t → c = d.
Proof.
  assert (∀ c, escape_char c = [c] ∧ c ≠ Byte.x26 ∨ ∃ l, escape_char c = Byte.x26 :: l) as Hcode
    by (intros x; destruct x; vm_compute; eauto; left; done).
  destruct (Hcode c) as [[Ec Nc]|[l Ec]], (Hcode d) as [[Ed Nd]|[m Ed]].
  - rewrite Ec, Ed. by intros [= ->].
  - rewrite Ec, Ed. by intros [= -> ].
  - rewrite Ec, Ed. by intros [= <- ].
  - intros Eq. clear Ec Ed l m Hcode.
    assert (∀ c, c ∈ [Byte.x26; Byte.x3c; Byte.x3e; Byte.x22; Byte.x27] ∨ escape_char c = [c] ∧ c ≠ Byte.x26) as Hspecial
      by (intros x; destruct x; vm_compute; first [right; done | left; repeat constructor]).
    destruct (Hspecial c) as [Hc|[Ec Nc]], (Hspecial d) as [Hd|[Ed Nd]].
    + repeat (apply elem_of_cons in Hc as [->|Hc]); try by apply not_elem_of_nil in Hc.
      all: repeat (apply elem_of_cons in Hd as [->|Hd]); try by apply not_elem_of_nil in Hd.
      all: cbn in Eq; congruence.
    + rewrite Ed in Eq. repeat (apply elem_of_cons in Hc as [->|Hc]); try (by apply not_elem_of_nil in Hc); cbn in Eq; congruence.
    + rewrite Ec in Eq. repeat (apply elem_of_cons in Hd as [->|Hd]); try (by apply not_elem_of_nil in Hd); cbn in Eq; congruence.
    + rewrite Ec, Ed in Eq. cbn in Eq. congruence.
Qed.

(** Escaping loses nothing. *)
Lemma escape_html_inj s t : escape_html s = escape_html t → s = t.
Proof.
  assert (∀ c, escape_char c ≠ []) as Hne by (intros x; destruct x; done).
  revert t. induction s as [|c s IH]; intros [|d t] Eq; [done| | |].
  - change (escape_html (d :: t)) with (escape_char d ++ escape_html t) in Eq. symmetry in Eq. apply app_nil in Eq as [Eq _]. by apply Hne in Eq.
  - change (escape_html (c :: s)) with (escape_char c ++ escape_html s) in Eq. apply app_nil in Eq as [Eq _]. by apply Hne in Eq.
  - change (escape_char c ++ escape_html s = escape_char d ++ escape_html t) in Eq.
    pose proof (escape_prefix_free _ _ _ _ Eq) as ->. apply app_inv_head in Eq. f_equal. auto.
Qed.

(** ** Slugs *)

(** Lower-case letters, digits and single dashes inside. *)
Fixpoint slug_tail (last_dash : bool) (s : bytes) : bool :=
  match s with
  | [] => negb last_dash
  | c :: s =>
      if byte_in 97 122 c || byte_in 48 57 c then slug_tail false s
      else bool_decide (c = Byte.x2d) && negb last_dash && slug_tail true s
  end.
Definition is_slug (s : bytes) : bool := slug_tail true s.

(** The same, with a dash at the end allowed. *)
Fixpoint slugish (last_dash : bool) (s : bytes) : bool :=
  match s with
  | [] => true
  | c :: s =>
      if byte_in 97 122 c || byte_in 48 57 c then slugish false s
      else bool_decide (c = Byte.x2d) && negb last_dash && slugish true s
  end.

Lemma lower_alnum c : is_ascii_alphanumeric c = true → byte_in 97 122 (lower c) || byte_in 48 57 (lower c) = true.
Proof. bytewise c. Qed.
Lemma slug_loop_slugish d s : slugish d (slug_loop d s) = true.
Proof.
  revert d. induction s as [|c s IH]; intros d; [done|]. cbn [slug_loop].
  destruct (is_ascii_alphanumeric c) eqn:Ec; [cbn [slugish]; by rewrite lower_alnum|].
  destruct d; [done|]. cbn [slugish]. change (byte_in 97 122 Byte.x2d || byte_in 48 57 Byte.x2d) with false. cbn. by apply IH.
Qed.

(** [trim_end_matches('-')] *)
Definition rtrim (s : bytes) : bytes := reverse (drop_dashes (reverse s)).
Lemma drop_dashes_app s t : drop_dashes s ≠ [] → drop_dashes (s ++ t) = drop_dashes s ++ t.
Proof. induction s as [|c s IH]; [done|]. destruct c; cbn; auto. Qed.
Lemma drop_dashes_nil s t : drop_dashes s = [] → drop_dashes (s ++ t) = drop_dashes t.
Proof. induction s as [|c s IH]; [done|]. destruct c; cbn; auto; done. Qed.
Lemma drop_dashes_other c s : c ≠ Byte.x2d → drop_dashes (c :: s) = c :: s.
Proof. by destruct c. Qed.
Lemma rtrim_cons c s :
  rtrim (c :: s) = match rtrim s with [] => if bool_decide (c = Byte.x2d) then [] else [c] | t => c :: t end.
Proof.
  unfold rtrim. rewrite reverse_cons. destruct (drop_dashes (reverse s)) as [|x l] eqn:Ed.
  - rewrite drop_dashes_nil by done. cbn [reverse]. case_bool_decide; [by subst|]. by rewrite drop_dashes_other.
  - rewrite drop_dashes_app by (rewrite Ed; done). rewrite Ed, reverse_app. cbn [reverse]. 
    destruct (reverse (x :: l)) as [|y m] eqn:Er; [|done].
    apply (f_equal length) in Er. rewrite length_reverse in Er. done.
Qed.
Lemma rtrim_slug d s : slugish d s = true → rtrim s = [] ∨ slug_tail d (rtrim s) = true.
Proof.
  revert d. induction s as [|c s IH]; intros d; [by left|]. cbn [slugish]. rewrite rtrim_cons.
  destruct (byte_in 97 122 c || byte_in 48 57 c) eqn:Ec.
  - intros Hs. right. assert (c ≠ Byte.x2d) by (intros ->; discriminate). destruct (IH _ Hs) as [->|Hr].
    + rewrite bool_decide_eq_false_2 by done. cbn [slug_tail]. by rewrite Ec.
    + destruct (rtrim s); [rewrite bool_decide_eq_false_2 by done|]; cbn [slug_tail]; by rewrite Ec.
  - intros [[Hc Hd]%andb_true_iff Hs]%andb_true_iff. apply bool_decide_eq_true in Hc as ->.
    destruct (IH _ Hs) as [->|Hr]; [left; done|]. destruct (rtrim s) as [|y m] eqn:Er; [by left|]. right.
    cbn [slug_tail] in *. rewrite Ec, Hd. done.
Qed.
Lemma slugish_head s : slugish true s = true → drop_dashes s = s.
Proof.
  destruct s as [|c s]; [done|]. cbn [slugish]. intros Hs. apply drop_dashes_other. intros ->.
  change (byte_in 97 122 Byte.x2d || byte_in 48 57 Byte.x2d) with false in Hs. done.
Qed.
Lemma slugify_slug title : is_slug (slugify title) = true.
Proof.
  unfold slugify, trim_dashes. pose proof (slug_loop_slugish true title) as Hs. rewrite (slugish_head (slug_loop true title)) by done.
  fold (rtrim (slug_loop true title)). destruct (rtrim_slug _ _ Hs) as [->|Hr]; [done|].
  by destruct (rtrim (slug_loop true title)).
Qed.

Lemma lower_id c : byte_in 97 122 c || byte_in 48 57 c = true → is_ascii_alphanumeric c = true ∧ lower c = c.
Proof. destruct c; vm_compute; intros; split; congruence. Qed.
Lemma slug_loop_id d s : slug_tail d s = true → slug_loop d s = s.
Proof.
  revert d. induction s as [|c s IH]; intros d; [done|]. cbn [slug_tail slug_loop].
  destruct (byte_in 97 122 c || byte_in 48 57 c) eqn:Ec.
  - intros Hs. destruct (lower_id _ Ec) as [-> ->]. by rewrite IH.
  - intros [[Hc Hd]%andb_true_iff Hs]%andb_true_iff. apply bool_decide_eq_true in Hc as ->. destruct d; [done|]. cbn. by rewrite IH.
Qed.
Lemma slug_tail_slugish d s : slug_tail d s = true → slugish d s = true.
Proof.
  revert d. induction s as [|c s IH]; intros d; [done|]. cbn [slug_tail slugish].
  destruct (byte_in 97 122 c || byte_in 48 57 c); [auto|]. rewrite !andb_true_iff. naive_solver.
Qed.
Lemma slug_tail_rtrim d s : slug_tail d s = true → rtrim s = s ∧ (d = true → s ≠ []).
Proof.
  revert d. induction s as [|c s IH]; intros d; [by destruct d|]. cbn [slug_tail]. rewrite rtrim_cons.
  destruct (byte_in 97 122 c || byte_in 48 57 c) eqn:Ec.
  - intros Hs. destruct (IH _ Hs) as [-> _]. split; [|done]. destruct s; [|done]. rewrite bool_decide_eq_false_2; [done|]. intros ->. discriminate.
  - intros [_ Hs]%andb_true_iff. destruct (IH _ Hs) as [-> Hne]. specialize (Hne eq_refl). split; [by destruct s|done].
Qed.

(** A title becomes a slug, and a slug is kept: saving a page under its own
    slug finds it again. *)
Lemma slugify_idempotent s : is_slug s = true → slugify s = s.
Proof.
  intros Hs. unfold slugify, trim_dashes. rewrite slug_loop_id by done.
  rewrite (slugish_head s) by (by apply slug_tail_slugish). fold (rtrim s).
  destruct (slug_tail_rtrim _ _ Hs) as [-> Hne]. specialize (Hne eq_refl). by destruct s.
Qed.
End RefiUtil.
