(* ===== verification/RefiFile.v ===== *)
(** * Durable files of the REFI service ([refi/src/util.rs], [write_atomic])

    A file system seen through a crash: directory states and file contents as
    the process sees them, and what may be left of them after a power loss.
    [write_atomic] is proved to leave the previous contents or the new ones,
    complete, whenever the crash comes. The stores of the service use it
    through the class [Storage]. *)

From S2P Require Import Prelude Text ModuleHost.

Module RefiFile.

(** ** The file system

    A directory state maps names to inodes. [d_hist] holds the directory states
    since the last time the directory was forced, the current one first; a crash
    keeps one of them. The contents of an inode carry whether they were forced;
    a crash leaves anything in one that was not. *)
Abbreviation dir := (gmap bytes Z).
Record disk := Disk { d_dir : dir; d_past : list dir; d_data : gmap Z (bytes * bool); d_next : Z }.
Definition d_hist (d : disk) : list dir := d_dir d :: d_past d.

(** What a process reads. *)
Definition contents (d : disk) (p : bytes) : option bytes := i ← d_dir d !! p; fst <$> d_data d !! i.

(** What may be found at a name after a crash. *)
Definition after_crash (d : disk) (p : bytes) (o : option bytes) : Prop :=
  ∃ c, c ∈ d_hist d ∧
    match c !! p with
    | None => o = None
    | Some i => match d_data d !! i with
                | Some (b, true) => o = Some b
                | _ => is_Some o
                end
    end.

(** ** Calls

    Each may fail; the environment decides which, and how much of a failed
    write reached the file. The state is the trace of disks with the number of
    calls made. *)
Class Faults := { fault : nat → option bytes; written : nat → nat }.

Record fsys := Fsys { fs_now : disk; fs_trace : list disk; fs_calls : nat }.
Abbreviation fsm := (stm fsys bytes).

Definition io `{Faults} (what : bytes) (f : disk → disk) : fsm () := λ s,
  match fault (fs_calls s) with
  | Some e => (Fsys (fs_now s) (fs_trace s) (S (fs_calls s)), Err (what ++ e))
  | None => (Fsys (f (fs_now s)) (fs_now s :: fs_trace s) (S (fs_calls s)), Ok ())
  end.

(** A new directory state. *)
Definition relink (c : dir) (d : disk) : disk := Disk c (d_hist d) (d_data d) (d_next d).

(** [open] with [create] and [truncate]. *)
Definition open_truncate (p : bytes) (d : disk) : disk :=
  match d_dir d !! p with
  | Some i => Disk (d_dir d) (d_past d) (<[i := ([], false)]> (d_data d)) (d_next d)
  | None => relink (<[p := d_next d]> (d_dir d)) (Disk (d_dir d) (d_past d) (<[d_next d := ([], false)]> (d_data d)) (d_next d + 1))
  end.
Definition put_data (p : bytes) (b : bytes) (forced : bool) (d : disk) : disk :=
  match d_dir d !! p with
  | Some i => Disk (d_dir d) (d_past d) (<[i := (b, forced)]> (d_data d)) (d_next d)
  | None => d
  end.
Definition rename (p q : bytes) (d : disk) : disk :=
  match d_dir d !! p with
  | Some i => relink (<[q := i]> (delete p (d_dir d))) d
  | None => d
  end.
Definition sync_dir (d : disk) : disk := Disk (d_dir d) [] (d_data d) (d_next d).

(** ** Paths *)
Definition file_stem (name : bytes) : bytes :=
  match reverse (split (z2b 46) name) with
  | _ :: (b :: rest) => match b, rest with [], [] => name | _, _ => join (z2b 46) (reverse (b :: rest)) end
  | _ => name
  end.
(** [Path::with_extension] of a path that does not end in a slash. *)
Definition with_extension (p ext : bytes) : bytes :=
  match reverse (split Byte.x2f p) with
  | name :: dirs => join Byte.x2f (reverse ((file_stem name ++ str "." ++ ext) :: dirs))
  | [] => p
  end.
(** The process id. *)
Class Process := pid : Z.
Definition tmp_path `{Process} (p : bytes) : bytes := with_extension p (str "tmp." ++ dec pid).

(** ** [write_atomic] *)
Section write.
Context `{Faults, Process}.

(** A failed [write_all] leaves a part of the bytes. *)
Definition write_all (p b : bytes) : fsm () := λ s,
  match fault (fs_calls s) with
  | Some e => (Fsys (put_data p (take (written (fs_calls s)) b) false (fs_now s)) (fs_now s :: fs_trace s) (S (fs_calls s)),
               Err (str "write " ++ p ++ str ": " ++ e))
  | None => io [] (put_data p b false) s
  end.

(** [if let Ok(d) = File::open(dir) { let _ = d.sync_all(); }] *)
Definition sync_dir_ignored : fsm () := λ s, let '(s, _) := io [] sync_dir s in (s, Ok ()).

(** Creating the directory does not touch the files in it. *)
Definition write_atomic (path b : bytes) : fsm () :=
  match ModuleHost.path_parent path with
  | None => stm_err (path ++ str " has no parent directory")
  | Some dir =>
    let tmp := tmp_path path in
    _ ← io (str "create " ++ dir ++ str ": ") (λ d, d);
    _ ← io (str "open " ++ tmp ++ str ": ") (open_truncate tmp);
    _ ← write_all tmp b;
    _ ← io (str "fsync " ++ tmp ++ str ": ") (put_data tmp b true);
    _ ← io (str "rename to " ++ path ++ str ": ") (rename tmp path);
    sync_dir_ignored
  end.
End write.

(** ** What a crash leaves *)

(** Whatever crash comes, [path] holds forced contents that satisfy [P], or is
    missing and [P] allows it; and the temporary file is another one. *)
Record settled (path tmp : bytes) (P : option bytes → Prop) (d : disk) : Prop := {
  settled_dirs : ∀ c, c ∈ d_hist d →
    match c !! path with
    | None => P None
    | Some i => ∃ b, d_data d !! i = Some (b, true) ∧ P (Some b) ∧ i < d_next d ∧ d_dir d !! tmp ≠ Some i
    end;
  settled_tmp : ∀ i, d_dir d !! tmp = Some i → i < d_next d
}.

Lemma settled_crash path tmp P d o : settled path tmp P d → after_crash d path o → P o.
Proof.
  intros [Hd _] (c & Hc & Ho). specialize (Hd c Hc). destruct (c !! path) as [i|]; [|by subst].
  destruct Hd as (x & Ex & HP & _). rewrite Ex in Ho. by subst.
Qed.
Lemma settled_now path tmp P d : settled path tmp P d → P (contents d path).
Proof.
  intros [Hd _]. specialize (Hd (d_dir d) ltac:(by left)). unfold contents. destruct (d_dir d !! path) as [i|]; [|done].
  destruct Hd as (x & Ex & HP & _). cbn. by rewrite Ex.
Qed.
Lemma settled_weaken path tmp (P Q : option bytes → Prop) d : (∀ o, P o → Q o) → settled path tmp P d → settled path tmp Q d.
Proof. intros HPQ [Hd Ht]. split; [|done]. intros c Hc. specialize (Hd c Hc). destruct (c !! path); [|auto]. naive_solver. Qed.

Section crash.
Variables (path tmp : bytes) (P : option bytes → Prop).
Hypothesis tmp_ne : tmp ≠ path.

Lemma settled_put d x f : settled path tmp P d → settled path tmp P (put_data tmp x f d).
Proof.
  intros Hs. pose proof Hs as [Hd Ht]. unfold put_data. destruct (d_dir d !! tmp) as [i|] eqn:Ei; [|done]. split.
  - intros c Hc. specialize (Hd c Hc). destruct (c !! path) as [j|]; [|done]. destruct Hd as (y & Ey & ? & ? & ?).
    exists y. cbn. rewrite lookup_insert_ne by congruence. split_and!; [done..|]. congruence.
  - cbn. intros j. rewrite Ei. auto.
Qed.

Lemma settled_open d : settled path tmp P d → settled path tmp P (open_truncate tmp d) ∧ is_Some (d_dir (open_truncate tmp d) !! tmp).
Proof.
  intros Hs. pose proof Hs as [Hd Ht]. unfold open_truncate. destruct (d_dir d !! tmp) as [i|] eqn:Ei.
  - cbn. split; [|by rewrite Ei]. pose proof (settled_put d [] false Hs) as Hp. unfold put_data in Hp. by rewrite Ei in Hp.
  - cbn. split; [|rewrite lookup_insert_eq; eauto]. split.
    + unfold d_hist, relink. cbn. intros c Hc.
      assert (∃ c', c' ∈ d_hist d ∧ c !! path = c' !! path) as (c' & Hc' & Ec).
      { apply elem_of_cons in Hc as [->|Hc]; [exists (d_dir d); split; [by left|by rewrite lookup_insert_ne]|by exists c]. }
      specialize (Hd c' Hc'). rewrite Ec. destruct (c' !! path) as [j|]; [|done]. destruct Hd as (y & Ey & ? & ? & ?).
      exists y. cbn. rewrite lookup_insert_ne by lia. rewrite lookup_insert_eq. split_and!; [done..|lia|intros [= ?]; lia].
    + intros i. cbn. rewrite lookup_insert_eq. intros [= <-]. lia.
Qed.

(** Once forced and renamed. *)
Lemma settled_rename d b i :
  settled path tmp P d → d_dir d !! tmp = Some i → d_data d !! i = Some (b, true) →
  settled path tmp (λ o, P o ∨ o = Some b) (rename tmp path d) ∧
  settled path tmp (λ o, o = Some b) (sync_dir (rename tmp path d)) ∧ contents (rename tmp path d) path = Some b.
Proof.
  intros [Hd Ht] Ei Eb. unfold rename. rewrite Ei. cbn. set (c1 := <[path := i]> (delete tmp (d_dir d))).
  assert (c1 !! path = Some i) as E1 by (unfold c1; by rewrite lookup_insert_eq).
  assert (c1 !! tmp = None) as E2 by (unfold c1; by rewrite lookup_insert_ne, lookup_delete_eq).
  split_and!.
  - split; cbn; [|intros j; by rewrite E2]. unfold d_hist at 1. cbn. intros c Hc. rewrite E2.
    apply elem_of_cons in Hc as [->|Hc].
    + rewrite E1. exists b. split_and!; [done|by right|by apply Ht|done].
    + specialize (Hd c Hc). destruct (c !! path) as [j|]; [|by left]. destruct Hd as (y & ? & ? & ? & _). exists y. naive_solver.
  - split; cbn; [|intros j; by rewrite E2]. intros c Hc. assert (c = c1) as -> by by apply list_elem_of_singleton in Hc.
    rewrite E1, E2.
    exists b. split_and!; [done|done|by apply Ht|done].
  - unfold contents. cbn. rewrite E1. cbn. by rewrite Eb.
Qed.
End crash.

Section atomic.
Context `{Faults, Process}.
Variables (path b : bytes) (P : option bytes → Prop).
Hypothesis tmp_ne : tmp_path path ≠ path.
Local Abbreviation tmp := (tmp_path path).
Let Q : option bytes → Prop := λ o, P o ∨ o = Some b.

(** The disk is settled, every disk before it was, and what is read at
    [path] has not changed since [d]. *)
Definition holds (d : disk) (s : fsys) : Prop :=
  settled path tmp P (fs_now s) ∧ Forall (settled path tmp Q) (fs_trace s) ∧ contents (fs_now s) path = contents d path.

Lemma settled_Q d : settled path tmp P d → settled path tmp Q d.
Proof. apply settled_weaken. by left. Qed.

Lemma io_holds what f d s s' r :
  io what f s = (s', r) → holds d s → (settled path tmp P (fs_now s) → settled path tmp P (f (fs_now s))) →
  contents (f (fs_now s)) path = contents (fs_now s) path →
  holds d s' ∧ (r = Ok () ∧ fs_now s' = f (fs_now s) ∨ ∃ e, r = Err e).
Proof.
  unfold io, holds. intros E (Hn & Ht & Hc) Hf Ef.
  destruct (fault (fs_calls s)) as [e|]; injection E as <- <-; cbn; [split_and!; eauto|]. split_and!; auto; [|congruence].
  constructor; [by apply settled_Q|done].
Qed.

Lemma settled_apart d i : settled path tmp P d → d_dir d !! path = Some i → i < d_next d ∧ d_dir d !! tmp ≠ Some i.
Proof. intros [Hd _] Ei. specialize (Hd (d_dir d) ltac:(by left)). rewrite Ei in Hd. naive_solver. Qed.

Lemma contents_put d x f : settled path tmp P d → contents (put_data tmp x f d) path = contents d path.
Proof.
  intros Hs. unfold put_data, contents. destruct (d_dir d !! tmp) as [i|] eqn:Ei; [|done]. cbn.
  destruct (d_dir d !! path) as [j|] eqn:Ej; [|done]. cbn. rewrite lookup_insert_ne; [done|].
  intros ->. by apply (settled_apart _ _ Hs) in Ej as [_ ?].
Qed.
Lemma contents_open d : settled path tmp P d → contents (open_truncate tmp d) path = contents d path.
Proof.
  intros Hs. pose proof (contents_put d [] false Hs) as Hp. unfold put_data in Hp. unfold open_truncate.
  destruct (d_dir d !! tmp) as [i|] eqn:Ei; [done|]. unfold contents, relink. cbn. rewrite lookup_insert_ne by done.
  destruct (d_dir d !! path) as [j|] eqn:Ej; [|done]. cbn. rewrite lookup_insert_ne; [done|].
  apply (settled_apart _ _ Hs) in Ej as [? _]. lia.
Qed.

Lemma put_dir p x f d : d_dir (put_data p x f d) = d_dir d.
Proof. unfold put_data. by destruct (d_dir d !! p). Qed.
Lemma put_forced p x f d i : d_dir d !! p = Some i → d_data (put_data p x f d) !! i = Some (x, f).
Proof. intros Ei. unfold put_data. rewrite Ei. cbn. by rewrite lookup_insert_eq. Qed.

Lemma write_all_holds d s s' r :
  write_all tmp b s = (s', r) → holds d s →
  holds d s' ∧ d_dir (fs_now s') = d_dir (fs_now s) ∧ (r = Ok () ∨ ∃ e, r = Err e).
Proof.
  unfold write_all, io. intros E (Hn & Ht & Hc). unfold holds.
  destruct (fault (fs_calls s)) as [e|]; injection E as <- <-; cbn; rewrite put_dir, contents_put by done;
    (split_and!; eauto; [by apply settled_put|constructor; [by apply settled_Q|done]]).
Qed.

(** The file is all or nothing: on every disk of the run a crash leaves what a
    crash could leave before, or the new bytes, complete. An error changes
    nothing of what is read; success makes the new bytes the contents, for good
    once the directory was forced. *)
Theorem write_atomic_crash s s' r :
  write_atomic path b s = (s', r) → settled path tmp P (fs_now s) → Forall (settled path tmp Q) (fs_trace s) →
  Forall (settled path tmp Q) (fs_now s' :: fs_trace s') ∧
  match r with
  | Ok _ => contents (fs_now s') path = Some b ∧
            (d_past (fs_now s') = [] → settled path tmp (λ o, o = Some b) (fs_now s'))
  | Err _ => settled path tmp P (fs_now s') ∧ contents (fs_now s') path = contents (fs_now s) path
  | Panic => False
  end.
Proof.
  intros E Hs Ht. set (d0 := fs_now s). assert (holds d0 s) as Hh by done.
  assert (∀ s0, holds d0 s0 → Forall (settled path tmp Q) (fs_now s0 :: fs_trace s0)) as Hall.
  { intros s0 (? & ? & ?). constructor; [by apply settled_Q|done]. }
  match goal with |- ?G => assert (∀ s0 e, holds d0 s0 → (s0, Err e) = (s', r) → G) as Herr end.
  { intros s0 e Hs0 [= <- <-]. split; [by apply Hall|]. by destruct Hs0 as (? & _ & ?). }
  unfold write_atomic in E. destruct (ModuleHost.path_parent path) as [dir|]; [|by apply Herr in E].
  cbn zeta in E. unfold mbind, stm_bind in E.
  destruct (io _ (λ d, d) s) as [s1 r1] eqn:E1. apply (io_holds _ _ d0) in E1 as [H1 [[-> N1]|[e ->]]]; [|by apply Herr in E|done..].
  destruct (io _ (open_truncate _) s1) as [s2 r2] eqn:E2.
  apply (io_holds _ _ d0) in E2 as [H2 [[-> N2]|[e ->]]]; [|by apply Herr in E|done|intros Hd; exact (proj1 (settled_open _ _ P tmp_ne _ Hd))|apply contents_open, H1].
  assert (is_Some (d_dir (fs_now s2) !! tmp)) as [i Ei] by (rewrite N2; exact (proj2 (settled_open _ _ P tmp_ne _ (proj1 H1)))).
  destruct (write_all tmp b s2) as [s3 r3] eqn:E3. apply (write_all_holds d0) in E3 as (H3 & N3 & [->|[e ->]]); [|by apply Herr in E|done].
  destruct (io _ (put_data _ _ _) s3) as [s4 r4] eqn:E4.
  apply (io_holds _ _ d0) in E4 as [H4 [[-> N4]|[e ->]]]; [|by apply Herr in E|done|apply settled_put; done|apply contents_put, H3].
  assert (d_dir (fs_now s4) !! tmp = Some i) as Ei4 by (rewrite N4, put_dir, N3; done).
  assert (d_data (fs_now s4) !! i = Some (b, true)) as Eb by (rewrite N4; apply put_forced; by rewrite N3).
  destruct (settled_rename _ _ P tmp_ne _ b i (proj1 H4) Ei4 Eb) as (HQ & HS & HC).
  unfold io in E. destruct (fault (fs_calls s4)) as [e|]; [by apply Herr in E|].
  unfold sync_dir_ignored, io in E. cbn in E.
  destruct (fault (S (fs_calls s4))) as [e|]; injection E as <- <-; cbn.
  - split; [constructor; [done|by apply Hall]|]. split; [done|]. unfold rename. rewrite Ei4. done.
  - split; [|split; [done|intros _; done]]. constructor; [|constructor; [done|by apply Hall]].
    eapply settled_weaken; [|done]. intros o ->. by right.
Qed.
End atomic.

(** ** The temporary name is another one *)
Lemma join_snoc sep l : ∃ pre, ∀ x, join sep (l ++ [x]) = pre ++ x.
Proof.
  induction l as [|p l (pre & IH)]; [by exists []|]. exists (p ++ sep :: pre). intros x.
  destruct l as [|q l]; cbn [app] in *.
  - change (join sep [p; x]) with (p ++ sep :: x). specialize (IH x). change (join sep [x]) with x in IH.
    rewrite IH at 1. by rewrite <-app_assoc.
  - change (join sep (p :: q :: l ++ [x])) with (p ++ sep :: join sep (q :: l ++ [x])). by rewrite IH, <-app_assoc.
Qed.

Lemma join_snoc_sep sep l e : l ≠ [] → join sep (l ++ [e]) = join sep l ++ sep :: e.
Proof.
  induction l as [|p [|q l] IH]; [done|done|]. intros _. cbn [app] in *.
  change (join sep (p :: q :: l ++ [e])) with (p ++ sep :: join sep (q :: l ++ [e])).
  change (join sep (p :: q :: l)) with (p ++ sep :: join sep (q :: l)). rewrite IH by done. by rewrite <-app_assoc.
Qed.

Lemma file_stem_cases name : file_stem name = name ∨ ∃ e, (z2b 46 ∉ e) ∧ name = file_stem name ++ z2b 46 :: e.
Proof.
  unfold file_stem. pose proof (join_split (z2b 46) name) as Ej. pose proof (split_parts (z2b 46) name) as Hp.
  destruct (reverse (split (z2b 46) name)) as [|e [|c rest]] eqn:Er; [by left..|].
  assert (split (z2b 46) name = reverse (c :: rest) ++ [e]) as Es.
  { rewrite <-(reverse_involutive (split _ _)), Er. by rewrite (reverse_cons (c :: rest)). }
  assert (name = join (z2b 46) (reverse (c :: rest)) ++ z2b 46 :: e) as En.
  { rewrite <-Ej at 1. rewrite Es. apply join_snoc_sep. intros E%(f_equal length). by rewrite length_reverse in E. }
  assert (z2b 46 ∉ e). { rewrite Es, Forall_app in Hp. destruct Hp as [_ [? _]%Forall_cons]. done. }
  destruct c as [|x c]; [destruct rest as [|y rest]; [by left|]|]; right; eauto.
Qed.

Lemma tmp_path_ne `{Process} p : tmp_path p ≠ p.
Proof.
  unfold tmp_path, with_extension. pose proof (join_split Byte.x2f p) as Ej.
  destruct (reverse (split Byte.x2f p)) as [|name dirs] eqn:Er.
  { apply (f_equal length) in Er. rewrite length_reverse in Er. destruct (split Byte.x2f p) eqn:E; [|done]. by apply split_nonempty in E. }
  assert (split Byte.x2f p = reverse dirs ++ [name]) as Es.
  { rewrite <-(reverse_involutive (split _ _)), Er. by rewrite reverse_cons. }
  rewrite reverse_cons. destruct (join_snoc Byte.x2f (reverse dirs)) as [pre Hpre]. rewrite Hpre. rewrite <-Ej, Es, Hpre.
  intros E%app_inv_head. destruct (file_stem_cases name) as [En|(e & He & En)].
  - rewrite En in E. apply (f_equal length) in E. rewrite !length_app in E. cbn in E. lia.
  - rewrite En in E at 2. apply app_inv_head in E. apply (f_equal (drop 1)) in E. cbn [drop app] in E. rewrite !drop_0 in E. rewrite <-E in He. apply He.
    apply list_elem_of_further, list_elem_of_further, list_elem_of_further, list_elem_of_here.
Qed.
End RefiFile.
