(* ===== verification/RefiJson.v ===== *)
(** * JSON values, as the REFI service uses [serde_json]

    The value type, indexing (a missing field or a non-object is null), the
    accessors, and printing and parsing as an interface. *)

From S2P Require Import Prelude.

Module RefiJson.

(** A number that is not an integer keeps its text. *)
Inductive json :=
| JNull
| JBool (b : bool)
| JNum (n : Z)
| JFloat (text : bytes)
| JStr (s : bytes)
| JArr (l : list json)
| JObj (fields : list (bytes * json)).

Class JsonCodec := { json_from_slice : bytes → option json; json_to_vec : json → bytes }.

Fixpoint field (key : bytes) (fields : list (bytes * json)) : option json :=
  match fields with
  | [] => None
  | (k, v) :: fields => if bool_decide (k = key) then Some v else field key fields
  end.

(** [v["key"]] *)
Definition at_key (v : json) (key : String.string) : json :=
  match v with JObj fields => default JNull (field (str key) fields) | _ => JNull end.

Definition as_str (v : json) : option bytes := match v with JStr s => Some s | _ => None end.
Definition as_u64 (v : json) : option Z :=
  match v with JNum n => if (0 <=? n) && (n <? 2 ^ 64) then Some n else None | _ => None end.
Definition as_array (v : json) : option (list json) := match v with JArr l => Some l | _ => None end.

(** [v["key"] = x] on an object (or null, which becomes one); it panics on the
    other values. *)
Fixpoint set_field (key : bytes) (x : json) (fields : list (bytes * json)) : list (bytes * json) :=
  match fields with
  | [] => [(key, x)]
  | (k, v) :: fields => if bool_decide (k = key) then (k, x) :: fields else (k, v) :: set_field key x fields
  end.
Definition set_key {E} (v : json) (key : String.string) (x : json) : res E json :=
  match v with
  | JNull => Ok (JObj [(str key, x)])
  | JObj fields => Ok (JObj (set_field (str key) x fields))
  | _ => Panic
  end.

(** [json!({ .. })] *)
Definition obj (l : list (String.string * json)) : json := JObj ((λ '(k, v), (str k, v)) <$> l).
Definition opt {A} (f : A → json) (o : option A) : json := match o with Some a => f a | None => JNull end.
Definition text (s : String.string) : json := JStr (str s).
End RefiJson.
