(* ===== verification/RefiEngine.v ===== *)
(** * The exchange engine ([refi/src/engine.rs], [refi/modules/RefiPolicy.aum])

    Commands, the primitives the policy kernel calls, the kernel itself, the
    execution of a command with its persistence, and the read-only queries. The
    exchange, the certificate ledger and their snapshots ([unfer_taler],
    [unfer_consensus]) are an interface. *)

From S2P Require Import Prelude Text RefiUtil RefiJson RefiFile Clif Jit.
Import RefiUtil RefiJson.

Module RefiEngine.

(** ** Configuration and commands *)
Record EngineConfig := {
  cfg_state_path : bytes; cfg_treasury_seed : bytes; cfg_manifest_path : bytes; cfg_cps_path : bytes;
  cfg_austral_bin : bytes; cfg_module_path : bytes;
  cfg_max_wire : Z; cfg_daily_cap : Z; cfg_denom_horizon : Z; cfg_default_denoms : list Z
}.

Inductive Cmd :=
| OpenReserve (actor reserve : bytes)
| PegIn (actor reserve : bytes) (amount : Z)
| Withdraw (actor reserve : bytes) (amount : Z)
| Deposit (actor secret : bytes) (coins : list bytes) (merchant : bytes)
| PegOut (actor : bytes) (amount : Z) (bank : bytes) (admin : bool)
| ConfirmPegOut (actor wire : bytes) (admin : bool)
| CancelPegOut (actor wire : bytes) (admin : bool)
| IssueDenom (actor : bytes) (value : Z) (expires_seq : option Z) (admin : bool)
| Mint (actor : bytes) (amount : Z) (owner source : bytes) (admin : bool)
| Transfer (actor secret : bytes) (inputs : list bytes) (outputs : list (Z * bytes)).

Definition code (c : Cmd) : Z :=
  match c with
  | OpenReserve _ _ => 1 | PegIn _ _ _ => 2 | Withdraw _ _ _ => 3 | Deposit _ _ _ _ => 4 | PegOut _ _ _ _ => 5
  | ConfirmPegOut _ _ _ => 6 | CancelPegOut _ _ _ => 7 | IssueDenom _ _ _ _ => 8 | Mint _ _ _ _ _ => 9
  | Transfer _ _ _ _ => 10
  end.

Definition amount (c : Cmd) : Z :=
  match c with
  | OpenReserve _ _ | ConfirmPegOut _ _ _ | CancelPegOut _ _ _ => 0
  | PegIn _ _ a | Withdraw _ _ a | PegOut _ a _ _ | Mint _ a _ _ _ => a
  | Deposit _ _ coins _ => Zlen coins
  | IssueDenom _ v _ _ => v
  | Transfer _ _ inputs _ => Zlen inputs
  end.

Definition actor (c : Cmd) : bytes :=
  match c with
  | OpenReserve a _ | PegIn a _ _ | Withdraw a _ _ | Deposit a _ _ _ | PegOut a _ _ _ | ConfirmPegOut a _ _
  | CancelPegOut a _ _ | IssueDenom a _ _ _ | Mint a _ _ _ _ | Transfer a _ _ _ => a
  end.

Definition is_admin (c : Cmd) : bool :=
  match c with
  | PegOut _ _ _ admin | ConfirmPegOut _ _ admin | CancelPegOut _ _ admin | IssueDenom _ _ _ admin | Mint _ _ _ _ admin => admin
  | _ => false
  end.

(** ** Diagnostics ([unfer_protocol::Code]) *)
Inductive Code :=
| TALER_INSUFFICIENT_BALANCE | TALER_UNKNOWN_RESERVE | TALER_DENOM_UNSUPPORTED | TALER_COIN_ALREADY_DEPOSITED
| TALER_UNKNOWN_E_COIN | TALER_UNCONFIRMED_WIRE | CERT_NONEXISTENT_INPUT | CERT_DOUBLE_SPEND
| CERT_MINT_NOT_AUTHORIZED | CERT_OWNER_MISMATCH | CERT_AMOUNT_MISMATCH | OtherCode (n : Z).
Record Diagnostic := { dg_code : Code; dg_name : bytes; dg_message : bytes }.

(** ** The exchange *)
Record Coin := { cn_id : bytes; cn_amount : Z; cn_owner : bytes; cn_minted_seq : Z }.
Record CoinRef := { cr_id : bytes; cr_amount : Z; cr_owner : bytes }.
Record WireRef := { wr_id : bytes; wr_to : bytes; wr_amount : Z }.
Record PegOutWire := { pw_wire : WireRef; pw_confirmed : bool; pw_merchant : bytes }.
Record Denomination := { dn_value : Z; dn_expires_seq : Z }.

(** [CertificateOp]s of the log; [OtherOp] is any other transaction. *)
Inductive OpKind :=
| OpMint (amount : Z) (owner blinding : bytes) (source : option bytes)
| OpTransfer (inputs : list CoinRef) (outputs : list (Z * bytes))
| OpBurn (inputs : list CoinRef).
Inductive LedgerOp := CertificateOp (seq : Z) (did : bytes) (kind : OpKind) | OtherOp.

Class Taler (T : Type) := {
  code_num : Code → Z;
  code_name : Code → bytes;
  snapshot_t : Type;
  taler_new : bytes → T;
  snapshot : T → snapshot_t;
  from_snapshot : bytes → snapshot_t → res bytes T;
  (* reads *)
  reserve : T → bytes → option (bytes * Z);
  is_deposited : T → bytes → bool;
  utxo : T → bytes → option Coin;
  denomination : T → Z → option Denomination;
  audit : T → res Diagnostic ();
  merchant_balance : T → bytes → Z;
  peg_out_wire : T → bytes → option PegOutWire;
  current_seq : T → Z;
  get_wire : T → bytes → option WireRef;
  reserves : T → list (bytes * bytes * Z);
  merchants : T → list (bytes * Z);
  funded_outstanding : T → Z;
  fiat_in : T → Z;
  fiat_out : T → Z;
  ledger_root : T → bytes;
  total_supply : T → Z;
  unspent_count : T → Z;
  denominations : T → list Denomination;
  treasury_did : T → bytes;
  peg_outs : T → list PegOutWire;
  coins_of : T → bytes → list Coin;
  ops : T → list LedgerOp;
  commit_coin : Z → bytes → bytes → bytes;
  (* operations; a signer is its seed *)
  open_reserve : bytes → bytes → T → T;
  issue_denomination : Z → Z → T → T;
  prepare_transfer : bytes → Z → stm T bytes WireRef;
  confirm_wire : bytes → stm T bytes ();
  peg_in : bytes → WireRef → stm T Diagnostic ();
  withdraw : bytes → Z → stm T Diagnostic bytes;
  deposit : bytes → list CoinRef → bytes → stm T Diagnostic Z;
  peg_out : bytes → Z → bytes → stm T Diagnostic PegOutWire;
  confirm_peg_out : bytes → stm T Diagnostic ();
  cancel_peg_out : bytes → stm T Diagnostic ();
  mint_certificate : Z → bytes → bytes → option bytes → stm T Diagnostic bytes;
  transfer_certificate : bytes → list CoinRef → list (Z * bytes) → stm T Diagnostic (list bytes)
}.

(** ** Files: [fs::read] (no file is [None]), [Path::exists] (a call of its own,
    which answers no when it fails), [create_dir_all] and [write_atomic] *)
Class Storage (X : Type) := {
  st_read : bytes → stm X bytes (option bytes);
  st_exists : bytes → X → X * bool;
  st_create_dir : bytes → stm X bytes ();
  st_write_atomic : bytes → bytes → stm X bytes ()
}.

(** ** State of the engine thread *)
Record Usage := { us_day : Z; us_per_account : gmap bytes Z }.
Definition usage_default : Usage := {| us_day := 0; us_per_account := ∅ |}.

Definition saturating_add (a b : Z) : Z := Z.min (a + b) (2 ^ 64 - 1).

Definition allows (u : Usage) (day : Z) (did : bytes) (amount cap : Z) : bool :=
  let used := if us_day u =? day then default 0 (us_per_account u !! did) else 0 in
  saturating_add used amount <=? cap.

(** A sum that does not fit panics. *)
Definition checked_u64 {E} (z : Z) : res E Z := if (0 <=? z) && (z <? 2 ^ 64) then Ok z else Panic.

Definition usage_add {E} (u : Usage) (day : Z) (did : bytes) (amount : Z) : res E Usage :=
  let m := if us_day u =? day then us_per_account u else ∅ in
  v ← checked_u64 (default 0 (m !! did) + amount);
  Ok {| us_day := day; us_per_account := <[did := v]> m |}.

Record Persisted `{Taler T} := { ps_version : Z; ps_exchange : snapshot_t; ps_usage : Usage }.
Class StateCodec (T : Type) `{Taler T} := {
  encode_state : Persisted → option bytes;
  decode_state : bytes → option Persisted
}.

Section engine.
Context {T : Type} `{Taler T, !StateCodec T} {X : Type} `{Storage X} `{Sha256, HexText}.
(** The wall clock, read once per [today]. *)
Variable clock : nat → Z.

Record Runtime := { rt_cfg : EngineConfig; rt_exchange : T; rt_usage : Usage }.
Record Ctx := { cx_cmd : Cmd; cx_err : option Diagnostic; cx_result : option json }.
Definition ctx_new (c : Cmd) : Ctx := {| cx_cmd := c; cx_err := None; cx_result := None |}.

(** The thread-locals, the clock and the files. *)
Record est := Est { e_rt : option Runtime; e_ctx : option Ctx; e_tick : nat; e_x : X }.
Abbreviation pm := (stm est bytes).

Definition read_today : pm Z := λ s, (Est (e_rt s) (e_ctx s) (S (e_tick s)) (e_x s), Ok (today (clock (e_tick s)))).
Definition put_rt (rt : Runtime) : pm () := λ s, (Est (Some rt) (e_ctx s) (e_tick s) (e_x s), Ok ()).
Definition put_ctx (c : Ctx) : pm () := λ s, (Est (e_rt s) (Some c) (e_tick s) (e_x s), Ok ()).

(** The primitives never run inside one another, so a borrow never fails. *)
Definition with_rt (f : Runtime → pm Z) : pm Z := λ s, match e_rt s with Some rt => f rt s | None => (s, Ok 7) end.
Definition with_ctx (f : Ctx → pm Z) : pm Z := λ s, match e_ctx s with Some c => f c s | None => (s, Ok 7) end.
Definition with_both (f : Runtime → Ctx → pm Z) : pm Z := λ s,
  match e_rt s, e_ctx s with Some rt, Some c => f rt c s | _, _ => (s, Ok 7) end.

(** An exchange operation, with its outcome as a value; a panic is one here. *)
Definition set_exchange (rt : Runtime) (e : T) : Runtime := {| rt_cfg := rt_cfg rt; rt_exchange := e; rt_usage := rt_usage rt |}.
Definition ex_op {E A} (m : stm T E A) (k : T → res E A → pm Z) : pm Z := with_rt (λ rt,
  let '(e, r) := m (rt_exchange rt) in
  _ ← put_rt (set_exchange rt e);
  match r with Panic => stm_lift Panic | r => k e r end).

Definition diag (c : Code) (message : bytes) : Diagnostic := {| dg_code := c; dg_name := code_name c; dg_message := message |}.

Definition fail_code (c : Code) : Z :=
  match c with
  | TALER_INSUFFICIENT_BALANCE => 3
  | TALER_UNKNOWN_RESERVE => 4
  | TALER_DENOM_UNSUPPORTED => 5
  | TALER_COIN_ALREADY_DEPOSITED => 6
  | TALER_UNKNOWN_E_COIN => 2
  | TALER_UNCONFIRMED_WIRE => 4
  | _ => 7
  end.
Definition fail (ctx : Ctx) (d : Diagnostic) : pm Z :=
  _ ← put_ctx {| cx_cmd := cx_cmd ctx; cx_err := Some d; cx_result := cx_result ctx |}; mret (fail_code (dg_code d)).
Definition done_with (ctx : Ctx) (v : json) : pm Z :=
  _ ← put_ctx {| cx_cmd := cx_cmd ctx; cx_err := cx_err ctx; cx_result := Some v |}; mret 0.

(** [.map(|(_, b)| b).unwrap_or(0)] *)
Definition reserve_balance (e : T) (id : bytes) : Z := default 0 (snd <$> reserve e id).

(** ** Policy queries *)
Definition rs_role (required : Z) : pm Z := with_ctx (λ ctx,
  mret (if required =? 0 then 0 else if (required =? 1) && is_admin (cx_cmd ctx) then 0 else 1)).

Definition rs_max_wire : pm Z := with_rt (λ rt, mret (Clif.wrap64 (cfg_max_wire (rt_cfg rt)))).

Definition rs_amount_ok (amount : Z) : pm Z := mret (if (0 <? amount) && (amount <=? 1000000000) then 0 else 2).

Definition rs_owns_reserve : pm Z := with_both (λ rt ctx,
  match cx_cmd ctx with
  | PegIn _ r _ | Withdraw _ r _ | OpenReserve _ r =>
      mret (match reserve (rt_exchange rt) r with
            | Some (owner, _) => if bool_decide (owner = actor (cx_cmd ctx)) then 0 else 4
            | None => 4
            end)
  | _ => mret 2
  end).

Definition rs_owns_merchant : pm Z := with_ctx (λ ctx,
  match cx_cmd ctx with PegOut _ _ _ _ => mret 0 | _ => mret 2 end).

Definition rs_daily_cap_ok (amount : Z) : pm Z :=
  if amount <=? 0 then mret 2
  else with_both (λ rt ctx,
    day ← read_today;
    mret (if allows (rt_usage rt) day (actor (cx_cmd ctx)) amount (cfg_daily_cap (rt_cfg rt)) then 0 else 8)).

Definition rs_coin_count : pm Z := with_ctx (λ ctx,
  match cx_cmd ctx with Deposit _ _ coins _ => mret (Zlen coins) | _ => mret 0 end).

Definition no_such_coin (id : bytes) : Diagnostic :=
  diag CERT_NONEXISTENT_INPUT (str "coin " ++ hex_encode id ++ str " is not an unspent certificate").

Definition rs_coin_ok (index : Z) : pm Z :=
  if index <? 0 then mret 2
  else with_both (λ rt ctx,
    match cx_cmd ctx with
    | Deposit actor _ coins _ =>
        match coins !! Z.to_nat index with
        | None => mret 2
        | Some id =>
            if is_deposited (rt_exchange rt) id then
              fail ctx (diag TALER_COIN_ALREADY_DEPOSITED (str "coin " ++ hex_encode id ++ str " was already deposited"))
            else match utxo (rt_exchange rt) id with
                 | Some coin => mret (if bool_decide (cn_owner coin = actor) then 0 else 2)
                 | None => fail ctx (no_such_coin id)
                 end
        end
    | _ => mret 2
    end).

Definition rs_denom_ok (amount : Z) : pm Z :=
  if amount <=? 0 then mret 5
  else with_rt (λ rt, mret (match denomination (rt_exchange rt) amount with Some _ => 0 | None => 5 end)).

Definition rs_audit_ok : pm Z := with_rt (λ rt,
  match audit (rt_exchange rt) with Ok _ => mret 0 | Err _ => mret 7 | Panic => stm_lift Panic end).

(** ** Mechanism *)
Definition rs_open_reserve : pm Z := with_both (λ rt ctx,
  match cx_cmd ctx with
  | OpenReserve actor r =>
      let e := open_reserve r actor (rt_exchange rt) in
      _ ← put_rt (set_exchange rt e);
      done_with ctx (obj [("reserve_id", JStr (hex_encode r)); ("balance", JNum (reserve_balance e r)); ("owner", JStr actor)]%string)
  | _ => mret 2
  end).

Definition rs_peg_in : pm Z := with_both (λ rt ctx,
  match cx_cmd ctx with
  | PegIn actor r amount =>
      let unconfirmed m := fail ctx (diag TALER_UNCONFIRMED_WIRE m) in
      ex_op (prepare_transfer (str "sandbox:incoming-wire") amount) (λ _ p,
        match p with
        | Ok prepared =>
            ex_op (confirm_wire (wr_id prepared)) (λ e c,
              match c with
              | Err m => unconfirmed m
              | _ =>
                  match get_wire e (wr_id prepared) with
                  | None => unconfirmed (str "wire vanished")
                  | Some confirmed =>
                      ex_op (peg_in r confirmed) (λ e q,
                        match q with
                        | Err d => fail ctx d
                        | _ =>
                            day ← read_today;
                            u ← stm_lift (usage_add (rt_usage rt) day actor amount);
                            _ ← put_rt {| rt_cfg := rt_cfg rt; rt_exchange := e; rt_usage := u |};
                            done_with ctx (obj [("wire_id", JStr (wr_id confirmed)); ("amount", JNum amount);
                              ("reserve_id", JStr (hex_encode r)); ("reserve_balance", JNum (reserve_balance e r));
                              ("sandbox", JBool true)]%string)
                        end)
                  end
              end)
        | Err m => unconfirmed m
        | Panic => stm_lift Panic
        end)
  | _ => mret 2
  end).

Definition rs_withdraw : pm Z := with_both (λ rt ctx,
  match cx_cmd ctx with
  | Withdraw _ r amount =>
      ex_op (withdraw r amount) (λ e q,
        match q with
        | Ok coin => done_with ctx (obj [("coin_id", JStr (hex_encode coin)); ("amount", JNum amount);
                       ("reserve_id", JStr (hex_encode r)); ("reserve_balance", JNum (reserve_balance e r))]%string)
        | Err d => fail ctx d
        | Panic => stm_lift Panic
        end)
  | _ => mret 2
  end).

(** The references of the coins, or the first one that is not unspent. *)
Fixpoint coin_refs (e : T) (ids : list bytes) : res Diagnostic (list CoinRef) :=
  match ids with
  | [] => Ok []
  | id :: ids =>
      match utxo e id with
      | None => Err (no_such_coin id)
      | Some coin =>
          refs ← coin_refs e ids;
          Ok ({| cr_id := cn_id coin; cr_amount := cn_amount coin; cr_owner := cn_owner coin |} :: refs)
      end
  end.

Definition rs_deposit : pm Z := with_both (λ rt ctx,
  match cx_cmd ctx with
  | Deposit actor secret ids merchant =>
      match coin_refs (rt_exchange rt) ids with
      | Ok refs =>
          ex_op (deposit secret refs merchant) (λ e q,
            match q with
            | Ok credited => done_with ctx (obj [("credited", JNum credited); ("merchant", JStr merchant);
                               ("merchant_balance", JNum (merchant_balance e merchant)); ("from", JStr actor)]%string)
            | Err d => fail ctx d
            | Panic => stm_lift Panic
            end)
      | Err d => fail ctx d
      | Panic => stm_lift Panic
      end
  | _ => mret 2
  end).

Definition rs_peg_out : pm Z := with_both (λ rt ctx,
  match cx_cmd ctx with
  | PegOut actor amount bank _ =>
      ex_op (peg_out actor amount bank) (λ e q,
        match q with
        | Ok peg => done_with ctx (obj [("wire_id", JStr (wr_id (pw_wire peg))); ("amount", JNum (wr_amount (pw_wire peg)));
                      ("to", JStr (wr_to (pw_wire peg))); ("confirmed", JBool false); ("merchant", JStr actor);
                      ("merchant_balance", JNum (merchant_balance e actor)); ("sandbox", JBool true)]%string)
        | Err d => fail ctx d
        | Panic => stm_lift Panic
        end)
  | _ => mret 2
  end).

Definition rs_confirm_peg_out : pm Z := with_both (λ rt ctx,
  match cx_cmd ctx with
  | ConfirmPegOut _ wire _ =>
      ex_op (confirm_peg_out wire) (λ e q,
        match q with
        | Ok _ => done_with ctx (obj [("wire_id", JStr wire);
                    ("confirmed", JBool (default false (pw_confirmed <$> peg_out_wire e wire)))]%string)
        | Err d => fail ctx d
        | Panic => stm_lift Panic
        end)
  | _ => mret 2
  end).

Definition rs_cancel_peg_out : pm Z := with_both (λ rt ctx,
  match cx_cmd ctx with
  | CancelPegOut actor wire admin =>
      match peg_out_wire (rt_exchange rt) wire with
      | None => fail ctx (diag TALER_UNCONFIRMED_WIRE (str "unknown peg-out"))
      | Some p =>
          if bool_decide (pw_merchant p ≠ actor) && negb admin then mret 1
          else ex_op (cancel_peg_out wire) (λ e q,
            match q with
            | Ok _ => done_with ctx (obj [("wire_id", JStr wire); ("cancelled", JBool true); ("merchant", JStr (pw_merchant p));
                        ("merchant_balance", JNum (merchant_balance e (pw_merchant p)))]%string)
            | Err d => fail ctx d
            | Panic => stm_lift Panic
            end)
      end
  | _ => mret 2
  end).

Definition rs_issue_denom : pm Z := with_both (λ rt ctx,
  match cx_cmd ctx with
  | IssueDenom _ value requested _ =>
      expires ← stm_lift (match requested with
                          | Some e => Ok e
                          | None => checked_u64 (current_seq (rt_exchange rt) + cfg_denom_horizon (rt_cfg rt))
                          end);
      _ ← put_rt (set_exchange rt (issue_denomination value expires (rt_exchange rt)));
      done_with ctx (obj [("value", JNum value); ("expires_seq", JNum expires)]%string)
  | _ => mret 2
  end).

Definition mint_blinding (seq amount : Z) (owner source : bytes) : bytes :=
  sha256 (str "refi:mint" ++ le_bytes 8 seq ++ le_bytes 8 amount ++ owner ++ source).

Definition rs_mint : pm Z := with_both (λ rt ctx,
  match cx_cmd ctx with
  | Mint _ amount owner source _ =>
      seq ← stm_lift (checked_u64 (current_seq (rt_exchange rt) + 1));
      ex_op (mint_certificate amount owner (mint_blinding seq amount owner source) (Some source)) (λ e q,
        match q with
        | Ok id => done_with ctx (obj [("cert_id", JStr (hex_encode id)); ("amount", JNum amount); ("owner", JStr owner);
                     ("source", JStr source); ("status", text "unspent"); ("sandbox", JBool true)]%string)
        | Err d => fail ctx d
        | Panic => stm_lift Panic
        end)
  | _ => mret 2
  end).

Definition rs_transfer : pm Z := with_both (λ rt ctx,
  match cx_cmd ctx with
  | Transfer actor secret inputs outputs =>
      match coin_refs (rt_exchange rt) inputs with
      | Ok refs =>
          ex_op (transfer_certificate secret refs outputs) (λ e q,
            match q with
            | Ok ids => done_with ctx (obj [("from", JStr actor); ("inputs", JArr ((λ i, JStr (hex_encode i)) <$> inputs));
                          ("outputs", JArr ((λ i, JStr (hex_encode i)) <$> ids))]%string)
            | Err d => fail ctx d
            | Panic => stm_lift Panic
            end)
      | Err d => fail ctx d
      | Panic => stm_lift Panic
      end
  | _ => mret 2
  end).
End engine.
End RefiEngine.
