(* ===== verification/RefiPolicy.v ===== *)
(** * The policy kernel and the execution of a command
    ([refi/modules/RefiPolicy.aum], [run_cmd], [Runtime::open] and
    [Runtime::save] of [refi/src/engine.rs])

    The kernel decides which command runs; [run_cmd] executes it, maps its
    failures and saves the state before success is reported. The theorems:
    the kernel runs a command's mechanism exactly when the command is
    permitted, a reported success survives a crash and a restart, and no
    account exceeds its daily cap. Module [RefiDurable]: what a crash at any
    moment of a command leaves on the disk. *)

From S2P Require Import Prelude Text Clif Jit RefiUtil RefiFile RefiJson RefiEngine.
Import RefiUtil RefiJson RefiEngine.

Module RefiPolicy.

Inductive refused := Refused.

Section kernel.
Context {T : Type} `{Taler T, !StateCodec T} {X : Type} `{Storage X} `{Sha256, HexText}.
Variable clock : nat → Z.
Abbreviation pm := (stm (est (T:=T) (X:=X)) bytes).

(** ** The kernel *)
Definition amount_gate (amount : Z) : pm Z :=
  if amount <=? 0 then mret 2
  else ok ← rs_amount_ok amount;
       if negb (ok =? 0) then mret 2
       else max ← rs_max_wire;
            if max <? amount then mret 8 else mret 0.

Definition audit_gate : pm Z := ok ← rs_audit_ok; mret (if negb (ok =? 0) then 7 else 0).

(** [if r /= 0 then return r; end if; return audit_gate();] *)
Definition then_audit (m : pm Z) : pm Z := r ← m; if negb (r =? 0) then mret r else audit_gate.

(** [while i < count]: the first refusal, if any. The fuel is the bound of 16
    coins checked before the loop. *)
Fixpoint coin_loop (fuel : nat) (i count : Z) : pm (option Z) :=
  if i <? count then
    match fuel with
    | O => stm_lift Panic
    | S fuel =>
        c ← rs_coin_ok i;
        if negb (c =? 0) then mret (Some c) else coin_loop fuel (i + 1) count
    end
  else mret None.

Definition apply (cmd amount : Z) : pm Z :=
  if cmd =? 1 then
    r ← rs_role 0; if negb (r =? 0) then mret 1 else rs_open_reserve
  else if cmd =? 2 then
    r ← rs_role 0; if negb (r =? 0) then mret 1 else
    o ← rs_owns_reserve; if negb (o =? 0) then mret 4 else
    gate ← amount_gate amount; if negb (gate =? 0) then mret gate else
    d ← rs_daily_cap_ok clock amount; if negb (d =? 0) then mret 8 else
    then_audit (rs_peg_in clock)
  else if cmd =? 3 then
    r ← rs_role 0; if negb (r =? 0) then mret 1 else
    o ← rs_owns_reserve; if negb (o =? 0) then mret 4 else
    gate ← amount_gate amount; if negb (gate =? 0) then mret gate else
    d ← rs_denom_ok amount; if negb (d =? 0) then mret 5 else
    then_audit rs_withdraw
  else if cmd =? 4 then
    r ← rs_role 0; if negb (r =? 0) then mret 1 else
    count ← rs_coin_count;
    if count <=? 0 then mret 2 else if 16 <? count then mret 8 else
    bad ← coin_loop 16 0 count;
    match bad with Some c => mret c | None => then_audit rs_deposit end
  else if cmd =? 5 then
    r ← rs_role 0; if negb (r =? 0) then mret 1 else
    o ← rs_owns_merchant; if negb (o =? 0) then mret 1 else
    gate ← amount_gate amount; if negb (gate =? 0) then mret gate else
    then_audit rs_peg_out
  else if cmd =? 6 then
    r ← rs_role 1; if negb (r =? 0) then mret 1 else then_audit rs_confirm_peg_out
  else if cmd =? 7 then
    r ← rs_role 0; if negb (r =? 0) then mret 1 else then_audit rs_cancel_peg_out
  else if cmd =? 8 then
    r ← rs_role 1; if negb (r =? 0) then mret 1 else
    gate ← amount_gate amount; if negb (gate =? 0) then mret gate else
    rs_issue_denom
  else if cmd =? 9 then
    r ← rs_role 1; if negb (r =? 0) then mret 1 else
    gate ← amount_gate amount; if negb (gate =? 0) then mret gate else
    then_audit rs_mint
  else if cmd =? 10 then
    r ← rs_role 0; if negb (r =? 0) then mret 1 else
    gate ← amount_gate amount; if negb (gate =? 0) then mret gate else
    then_audit rs_transfer
  else mret 9.

(** ** State on disk *)
Definition save : pm () := λ s,
  match e_rt s with
  | None => (s, Err [])
  | Some rt =>
      match encode_state {| ps_version := 1; ps_exchange := snapshot (rt_exchange rt); ps_usage := rt_usage rt |} with
      | None => (s, Err (str "encode state: "))
      | Some b =>
          let '(x, r) := st_write_atomic (cfg_state_path (rt_cfg rt)) b (e_x s) in
          (Est (e_rt s) (e_ctx s) (e_tick s) x, r)
      end
  end.

(** [Runtime::open], with the runtime installed in [RUNTIME]. *)
Definition genesis (cfg : EngineConfig) : Runtime :=
  {| rt_cfg := cfg; rt_usage := usage_default;
     rt_exchange := foldl (λ e v, issue_denomination v (2 ^ 64 - 1) e) (taler_new (cfg_treasury_seed cfg)) (cfg_default_denoms cfg) |}.

Definition open (cfg : EngineConfig) : pm () := λ s,
  let '(x, r) := st_read (cfg_state_path cfg) (e_x s) in
  let s := Est (e_rt s) (e_ctx s) (e_tick s) x in
  match r with
  | Err e => (s, Err (str "read " ++ cfg_state_path cfg ++ str ": " ++ e))
  | Panic => (s, Panic)
  | Ok None => save (Est (Some (genesis cfg)) (e_ctx s) (e_tick s) x)
  | Ok (Some b) =>
      match decode_state b with
      | None => (s, Err (str "state file " ++ cfg_state_path cfg ++ str " is not valid: "))
      | Some p =>
          match from_snapshot (cfg_treasury_seed cfg) (ps_exchange p) with
          | Err e => (s, Err e)
          | Panic => (s, Panic)
          | Ok e => put_rt {| rt_cfg := cfg; rt_exchange := e; rt_usage := ps_usage p |} s
          end
      end
  end.

(** ** Failures *)
Definition diag_status (c : Code) : Z :=
  match c with
  | TALER_UNKNOWN_RESERVE | TALER_UNKNOWN_E_COIN | CERT_NONEXISTENT_INPUT => 404
  | TALER_INSUFFICIENT_BALANCE | TALER_COIN_ALREADY_DEPOSITED | CERT_DOUBLE_SPEND => 409
  | CERT_MINT_NOT_AUTHORIZED | CERT_OWNER_MISMATCH => 403
  | TALER_DENOM_UNSUPPORTED | CERT_AMOUNT_MISMATCH => 422
  | _ => 422
  end.

(** [{rc}] of an [i64]. *)
Definition dec_i64 (z : Z) : bytes := if z <? 0 then str "-" ++ dec (- z) else dec z.

Definition policy_error (rc : Z) (d : option Diagnostic) : ApiError :=
  if rc =? Jit.JIT_PANIC then internal "the policy kernel panicked while applying the command"
  else match d with
  | Some d => {| ae_status := diag_status (dg_code d); ae_code := str "UK-" ++ dec (code_num (dg_code d));
                 ae_name := dg_name d; ae_message := dg_message d |}
  | None =>
      if rc =? 1 then api_error 403 "UK-4001" "NotAuthorized" "the account may not perform this command"
      else if rc =? 2 then api_error 422 "UK-7002" "BadAmount" "the amount or request shape is invalid"
      else if rc =? 3 then api_error 409 "UK-7102" "InsufficientBalance" "insufficient balance"
      else if rc =? 4 then api_error 404 "UK-7101" "UnknownReserve" "the reserve or wire is unknown"
      else if rc =? 5 then api_error 422 "UK-7104" "DenominationUnsupported" "no live denomination for that value"
      else if rc =? 6 then api_error 409 "UK-7105" "CoinAlreadyDeposited" "the coin was already deposited"
      else if rc =? 7 then internal "the post-operation conservation audit failed"
      else if rc =? 8 then limit "the request exceeds a policy limit (per-request or daily cap)"
      else {| ae_status := 500; ae_code := str "UK-5000"; ae_name := str "Internal";
              ae_message := str "the policy kernel returned unknown code " ++ dec_i64 rc |}
  end.

(** ** Execution of a command

    [f] is the compiled kernel. A primitive is an [extern] function, so a panic
    inside one stops the process: it is no outcome of the command. *)
Definition run_cmd (f : Z → Z → pm Z) (c : Cmd) : stm (est (T:=T) (X:=X)) ApiError json := λ s,
  match f (code c) (Clif.wrap64 (amount c)) (Est (e_rt s) (Some (ctx_new c)) (e_tick s) (e_x s)) with
  | (s', Ok rc) =>
      let ctx := default (ctx_new (OpenReserve [] (replicate 32 Byte.x00))) (e_ctx s') in
      let s' := Est (e_rt s') None (e_tick s') (e_x s') in
      if negb (rc =? 0) then (s', Err (policy_error rc (cx_err ctx)))
      else match e_rt s' with
           | None => (s', Err (internal "the operation was applied but could not be persisted; the service is degraded"))
           | Some _ =>
               match save s' with
               | (s', Ok _) => (s', Ok (default JNull (cx_result ctx)))
               | (s', Err _) => (s', Err (internal "the operation was applied but could not be persisted; the service is degraded"))
               | (s', Panic) => (s', Panic)
               end
           end
  | (s', _) => (s', Panic)
  end.

(** ** What the kernel promises *)
Definition amount_within (rt : Runtime (T:=T)) (a : Z) : bool :=
  (0 <? a) && (a <=? 1000000000) && (a <=? Clif.wrap64 (cfg_max_wire (rt_cfg rt))).
Definition owns (rt : Runtime (T:=T)) (r who : bytes) : bool :=
  match reserve (rt_exchange rt) r with Some (owner, _) => bool_decide (owner = who) | None => false end.
Definition spendable (rt : Runtime (T:=T)) (who id : bytes) : bool :=
  negb (is_deposited (rt_exchange rt) id) &&
  match utxo (rt_exchange rt) id with Some coin => bool_decide (cn_owner coin = who) | None => false end.

(** The commands the policy lets through, on a given day. *)
Definition permitted (rt : Runtime (T:=T)) (day : Z) (c : Cmd) : bool :=
  match c with
  | OpenReserve _ _ => true
  | PegIn who r a => owns rt r who && amount_within rt a && allows (rt_usage rt) day who a (cfg_daily_cap (rt_cfg rt))
  | Withdraw who r a => owns rt r who && amount_within rt a && bool_decide (is_Some (denomination (rt_exchange rt) a))
  | Deposit who _ coins _ => (1 <=? Zlen coins) && (Zlen coins <=? 16) && forallb (spendable rt who) coins
  | PegOut _ a _ _ => amount_within rt a
  | ConfirmPegOut _ _ admin => admin
  | CancelPegOut who wire admin =>
      match peg_out_wire (rt_exchange rt) wire with Some p => bool_decide (pw_merchant p = who) || admin | None => false end
  | IssueDenom _ v _ admin => admin && amount_within rt v
  | Mint _ a _ _ admin => admin && amount_within rt a
  | Transfer _ _ inputs _ => amount_within rt (Zlen inputs)
  end.

(** What a command does to the exchange. *)
Definition forget {E A B} (f : A → B) (m : stm T E A) : stm T refused B := λ e,
  let '(e, r) := m e in (e, match r with Ok a => Ok (f a) | Err _ => Err Refused | Panic => Panic end).
Abbreviation only m := (forget (λ _, tt) m).

Definition credit_wire (r w : bytes) : stm T refused () := λ e,
  match get_wire e w with None => (e, Err Refused) | Some confirmed => only (peg_in r confirmed) e end.
Definition wire_in (r : bytes) (a : Z) : stm T refused () :=
  w ← (forget wr_id (prepare_transfer (str "sandbox:incoming-wire") a) : stm T refused bytes);
  _ ← (only (confirm_wire w) : stm T refused ());
  credit_wire r w.

Definition transition (cfg : EngineConfig) (c : Cmd) : stm T refused () := λ e,
  match c with
  | OpenReserve who r => (open_reserve r who e, Ok ())
  | PegIn _ r a => wire_in r a e
  | Withdraw _ r a => only (withdraw r a) e
  | Deposit _ secret ids m =>
      match coin_refs e ids with Ok refs => only (deposit secret refs m) e | Err _ => (e, Err Refused) | Panic => (e, Panic) end
  | PegOut who a bank _ => only (peg_out who a bank) e
  | ConfirmPegOut _ wire _ => only (confirm_peg_out wire) e
  | CancelPegOut _ wire _ => only (cancel_peg_out wire) e
  | IssueDenom _ v requested _ =>
      match (match requested with Some x => Ok x | None => checked_u64 (current_seq e + cfg_denom_horizon cfg) end) with
      | Ok expires => (issue_denomination v expires e, Ok ())
      | Err r => (e, Err r)
      | Panic => (e, Panic)
      end
  | Mint _ a owner source _ =>
      match checked_u64 (current_seq e + 1) with
      | Ok seq => only (mint_certificate a owner (mint_blinding seq a owner source) (Some source)) e
      | Err r => (e, Err r)
      | Panic => (e, Panic)
      end
  | Transfer _ secret inputs outputs =>
      match coin_refs e inputs with
      | Ok refs => only (transfer_certificate secret refs outputs) e | Err _ => (e, Err Refused) | Panic => (e, Panic)
      end
  end.

(** The commands whose outcome the conservation audit must confirm. *)
Definition audited (c : Cmd) : bool := match c with OpenReserve _ _ | IssueDenom _ _ _ _ => false | _ => true end.
Definition audit_ok (c : Cmd) (e : T) : Prop := audited c = true → audit e = Ok ().

(** The usage after a successful command, [day] the day it completes. *)
Definition charge (c : Cmd) (day : Z) (u u' : Usage) : Prop :=
  match c with PegIn who _ a => usage_add (E:=bytes) u day who a = Ok u' | _ => u' = u end.

(** The times the effect of a command reads the clock before it charges. *)
Definition effect_reads (c : Cmd) : nat := match c with PegIn _ _ _ => 1 | _ => 0 end.

(** *** Proof *)
Ltac run :=
  cbv beta iota zeta delta [mbind stm_bind mret stm_ret stm_lift with_rt with_ctx with_both put_rt put_ctx read_today
    ex_op set_exchange e_rt e_ctx e_tick e_x fail done_with ctx_new cx_cmd cx_err cx_result forget];
  cbn [Z.eqb Pos.eqb negb andb fst snd is_admin actor]; cbv beta iota.

Definition effect (c : Cmd) : pm Z :=
  match c with
  | OpenReserve _ _ => rs_open_reserve
  | PegIn _ _ _ => then_audit (rs_peg_in clock)
  | Withdraw _ _ _ => then_audit rs_withdraw
  | Deposit _ _ _ _ => then_audit rs_deposit
  | PegOut _ _ _ _ => then_audit rs_peg_out
  | ConfirmPegOut _ _ _ => then_audit rs_confirm_peg_out
  | CancelPegOut _ _ _ => then_audit rs_cancel_peg_out
  | IssueDenom _ _ _ _ => rs_issue_denom
  | Mint _ _ _ _ _ => then_audit rs_mint
  | Transfer _ _ _ _ => then_audit rs_transfer
  end.

Lemma wrap64_pos a : 0 ≤ a < 2 ^ 64 → (0 <? Clif.wrap64 a) && (Clif.wrap64 a <=? 1000000000) = (0 <? a) && (a <=? 1000000000).
Proof.
  intros Ha. unfold Clif.wrap64. apply eq_bool_prop_intro. rewrite !andb_True, !Is_true_true, !Z.ltb_lt, !Z.leb_le.
  destruct (decide (a < 2 ^ 63)).
  - rewrite Z.mod_small by lia. lia.
  - replace (a + 2 ^ 63) with (a - 2 ^ 63 + 1 * 2 ^ 64) by lia. rewrite Z.mod_add, Z.mod_small by lia. lia.
Qed.
Lemma wrap64_small a : 0 ≤ a < 2 ^ 63 → Clif.wrap64 a = a.
Proof. intros Ha. unfold Clif.wrap64. rewrite Z.mod_small by lia. lia. Qed.

(** The amount gate passes exactly the amounts within the limits. *)
Lemma amount_gate_ok rt cx k x a :
  0 ≤ a < 2 ^ 64 →
  ∃ rc, amount_gate (Clif.wrap64 a) (Est (Some rt) cx k x) = (Est (Some rt) cx k x, Ok rc) ∧ (rc =? 0) = amount_within rt a.
Proof.
  intros Ha. pose proof (wrap64_pos a Ha) as Hw. unfold amount_gate, amount_within, rs_amount_ok, rs_max_wire, with_rt.
  destruct (Z.leb_spec (Clif.wrap64 a) 0) as [Hl|Hl].
  { exists 2. split; [done|]. rewrite <- Hw. destruct (Z.ltb_spec 0 (Clif.wrap64 a)); [lia|done]. }
  run. rewrite Hw. destruct ((0 <? a) && (a <=? 1000000000)) eqn:E; run; [|by eexists].
  apply andb_prop in E as [E1 E2]. rewrite Z.ltb_lt in E1. rewrite Z.leb_le in E2.
  rewrite (wrap64_small a) by lia. rewrite Z.ltb_antisym. destruct (a <=? _); run; by eexists.
Qed.

(** The loop accepts exactly when every coin from [i] on is spendable. *)
Lemma coin_loop_ok rt who sec coins m k x fuel i :
  let c := Deposit who sec coins m in
  Zlen coins - Z.of_nat fuel ≤ Z.of_nat i ≤ Zlen coins →
  ∃ o cx, coin_loop fuel (Z.of_nat i) (Zlen coins) (Est (Some rt) (Some (ctx_new c)) k x) = (Est (Some rt) (Some cx) k x, Ok o) ∧
    if forallb (spendable rt who) (drop i coins) then o = None ∧ cx = ctx_new c else ∃ rc, o = Some rc ∧ rc ≠ 0.
Proof.
  intros c; subst c. revert i. induction fuel as [|fuel IH]; intros i Hi; cbn [coin_loop].
  - destruct (Z.ltb_spec (Z.of_nat i) (Zlen coins)); [lia|]. rewrite drop_ge by lia. run; eexists _, _; by split.
  - destruct (Z.ltb_spec (Z.of_nat i) (Zlen coins)) as [Hl|Hl].
    2:{ rewrite drop_ge by lia. run; eexists _, _; by split. }
    destruct (lookup_lt_is_Some_2 coins i) as [id Hid]; [lia|].
    rewrite (drop_S _ _ _ Hid). cbn [forallb]. unfold rs_coin_ok.
    destruct (Z.ltb_spec (Z.of_nat i) 0); [lia|]. run. rewrite Nat2Z.id, Hid. unfold spendable at 1.
    destruct (is_deposited _ id); run; [eexists _, _; split; [done|]; by eexists|].
    destruct (utxo _ id) as [coin|]; run; [|eexists _, _; split; [done|]; by eexists].
    destruct (bool_decide _); run; [|eexists _, _; split; [done|]; by eexists].
    replace (Z.of_nat i + 1) with (Z.of_nat (S i)) by lia. apply IH. lia.
Qed.

Ltac refused := eexists _, _, _; split; [reflexivity|split; [done|lia]].
Ltac gate a :=
  match goal with |- context [amount_gate _ (Est (Some ?rt) ?cx ?k ?x)] =>
    let rc := fresh "rc" in
    destruct (amount_gate_ok rt cx k x a) as (rc & Eg & Hrc); [assumption|]; rewrite Eg; rewrite <-Hrc; run;
    destruct (rc =? 0) eqn:Erc; run; [|apply Z.eqb_neq in Erc; refused]
  end.

(** A command that is not permitted is refused with nothing changed; a
    permitted one goes on to its effect. *)
Lemma apply_gates c rt k x :
  0 ≤ amount c < 2 ^ 64 →
  let s := Est (Some rt) (Some (ctx_new c)) k x in
  if permitted rt (today (clock k)) c
  then apply (code c) (Clif.wrap64 (amount c)) s = effect c (Est (Some rt) (Some (ctx_new c)) (match c with PegIn _ _ _ => S k | _ => k end) x)
  else ∃ cx k' rc, apply (code c) (Clif.wrap64 (amount c)) s = (Est (Some rt) cx k' x, Ok rc) ∧ rc ≠ 0 ∧ (k ≤ k')%nat.
Proof.
  intros Ha s; subst s. destruct c as [who r|who r a|who r a|who sec coins m|who a bank admin|who wire admin|who wire admin|who v e admin|who a owner source admin|who sec ins outs];
    cbn [code amount] in *; unfold apply; cbn [Z.eqb Pos.eqb]; unfold rs_role, rs_owns_reserve, rs_owns_merchant, permitted, owns; cbn [is_admin actor]; run.
  - done.
  - destruct (reserve _ r) as [[owner bal]|]; [|refused]. destruct (bool_decide _); [|refused]. run.
    gate a. unfold rs_daily_cap_ok.
    pose proof (wrap64_pos a Ha) as Hw. unfold amount_within in Hrc. symmetry in Hrc. rewrite !andb_true_iff, Z.ltb_lt, Z.leb_le in Hrc.
    rewrite wrap64_small by lia. destruct (Z.leb_spec a 0); [lia|]. run.
    destruct (allows _ _ _ _ _); run; [done|refused].
  - destruct (reserve _ r) as [[owner bal]|]; [|refused]. destruct (bool_decide _); [|refused]. run.
    gate a. unfold rs_denom_ok.
    unfold amount_within in Hrc. symmetry in Hrc. rewrite !andb_true_iff, Z.ltb_lt, Z.leb_le in Hrc.
    rewrite wrap64_small by lia. destruct (Z.leb_spec a 0); [lia|]. run.
    destruct (denomination _ a); run; [by rewrite bool_decide_eq_true_2|rewrite bool_decide_eq_false_2 by (intros []; done); refused].
  - unfold rs_coin_count; run. destruct (Z.leb_spec (Zlen coins) 0), (Z.leb_spec 1 (Zlen coins)); try lia; [refused|run].
    rewrite (Z.leb_antisym 16). destruct (Z.ltb_spec 16 (Zlen coins)); [refused|]. run.
    destruct (coin_loop_ok rt who sec coins m k x 16 0) as (o & cx & E & Ho); [lia|]. change (Z.of_nat 0) with 0 in E. unfold ctx_new in E. rewrite E.
    rewrite drop_0 in Ho. destruct (forallb _ coins); [by destruct Ho as [-> ->]|destruct Ho as (rc & -> & Hrc); run]. refused.
  - gate a. done.
  - destruct admin; run; [done|refused].
  - destruct (peg_out_wire _ wire) as [p|] eqn:Ep; run.
    + destruct (bool_decide (pw_merchant p = who) || admin) eqn:Eb; [done|]. apply orb_false_elim in Eb as [Eb%bool_decide_eq_false ->].
      unfold then_audit, rs_cancel_peg_out. run. rewrite Ep, bool_decide_eq_true_2 by done. run. refused.
    + unfold then_audit, rs_cancel_peg_out. run. rewrite Ep. run. refused.
  - destruct admin; run; [run|refused]. gate v. done.
  - destruct admin; run; [run|refused]. gate a. done.
  - gate (Zlen ins). done.
Qed.

Lemma coin_refs_no_panic (e : T) ids : coin_refs e ids ≠ Panic.
Proof. induction ids as [|id ids IH]; cbn; [done|]. destruct (utxo e id); [|done]. by destruct (coin_refs e ids). Qed.

Lemma fail_code_nz c : (fail_code c =? 0) = false.
Proof. by destruct c. Qed.
Lemma fail_code_ne c : fail_code c ≠ 0.
Proof. by destruct c. Qed.
Ltac settled_outcome :=
  intros _; eexists _, _, _, _; split; [reflexivity|]; split; [naive_solver lia|]; split; [|split; [lia|naive_solver]]; split;
  [first [intros [= Hz%fail_code_ne]; done|naive_solver]|naive_solver].
Ltac failed_outcome := rewrite ?fail_code_nz; run; settled_outcome.

(** The effect of a command is its transition, then the audit. *)
Lemma effect_refines c rt k x :
  let '(e', o) := transition (rt_cfg rt) c (rt_exchange rt) in
  match c with CancelPegOut who wire admin => permitted rt 0 c = true | _ => True end →
  ∃ u' cx k' r, effect c (Est (Some rt) (Some (ctx_new c)) k x) =
      (Est (Some {| rt_cfg := rt_cfg rt; rt_exchange := e'; rt_usage := u' |}) cx k' x, r) ∧
    (u' = rt_usage rt ∨ charge c (today (clock k)) (rt_usage rt) u' ∧ (k + effect_reads c ≤ k')%nat) ∧
    (r = Ok 0 ↔ o = Ok () ∧ audit_ok c e' ∧ charge c (today (clock k)) (rt_usage rt) u') ∧
    (k ≤ k')%nat ∧ (o = Ok () → ∀ u, charge c (today (clock k)) (rt_usage rt) u → u' = u).
Proof.
  destruct rt as [cfg ex us]. unfold audit_ok.
  destruct c as [who r|who r a|who r a|who sec coins m|who a bank admin|who wire admin|who wire admin|who v e admin|who a owner source admin|who sec ins outs];
    cbn [transition effect audited permitted charge effect_reads rt_cfg rt_exchange rt_usage];
    unfold then_audit, audit_gate, rs_audit_ok, rs_open_reserve, rs_peg_in, rs_withdraw, rs_deposit, rs_peg_out, rs_confirm_peg_out, rs_cancel_peg_out, rs_issue_denom, rs_mint, rs_transfer, wire_in, credit_wire; run; cbn [rt_cfg rt_exchange rt_usage].
  - settled_outcome.
  - destruct (prepare_transfer _ a ex) as [e1 [w|m|]]; run; cbn [rt_cfg rt_exchange rt_usage]; [|failed_outcome..].
    destruct (confirm_wire _ e1) as [e2 [[]|m|]]; run; cbn [rt_cfg rt_exchange rt_usage]; [|failed_outcome..].
    destruct (get_wire e2 _) as [w'|]; run; cbn [rt_cfg rt_exchange rt_usage]; [|failed_outcome].
    destruct (peg_in r w' e2) as [e3 [[]|d|]]; run; cbn [rt_cfg rt_exchange rt_usage]; [|failed_outcome..].
    destruct (usage_add (E:=bytes) us (today (clock k)) who a) as [u| |] eqn:Eu; run; cbn [rt_cfg rt_exchange rt_usage]; [|failed_outcome..].
    destruct (audit e3) as [[]|d|] eqn:Ea; run; settled_outcome.
  - destruct (withdraw r a ex) as [e1 [w|d|]]; run; cbn [rt_cfg rt_exchange rt_usage]; [|failed_outcome..].
    destruct (audit e1) as [[]|d|] eqn:Ea; run; settled_outcome.
  - pose proof (coin_refs_no_panic ex coins). destruct (coin_refs ex coins) as [refs|d|]; run; cbn [rt_cfg rt_exchange rt_usage]; [|failed_outcome|done].
    destruct (deposit sec refs m ex) as [e1 [w|d|]]; run; cbn [rt_cfg rt_exchange rt_usage]; [|failed_outcome..].
    destruct (audit e1) as [[]|d|] eqn:Ea; run; settled_outcome.
  - destruct (peg_out who a bank ex) as [e1 [w|d|]]; run; cbn [rt_cfg rt_exchange rt_usage]; [|failed_outcome..].
    destruct (audit e1) as [[]|d|] eqn:Ea; run; settled_outcome.
  - destruct (confirm_peg_out wire ex) as [e1 [w|d|]]; run; cbn [rt_cfg rt_exchange rt_usage]; [|failed_outcome..].
    destruct (audit e1) as [[]|d|] eqn:Ea; run; settled_outcome.
  - destruct (cancel_peg_out wire ex) as [e1 o] eqn:Ec. destruct (peg_out_wire ex wire) as [p|]; [|by destruct o].
    replace (bool_decide (pw_merchant p ≠ who) && negb admin) with (negb (bool_decide (pw_merchant p = who) || admin))
      by (rewrite bool_decide_not; by destruct (bool_decide _), admin).
    destruct (bool_decide (pw_merchant p = who) || admin); [|by destruct o]. run. cbn [rt_cfg rt_exchange rt_usage]. rewrite Ec.
    destruct o as [w|d|]; run; cbn [rt_cfg rt_exchange rt_usage]; [|failed_outcome..].
    destruct (audit e1) as [[]|d|] eqn:Ea; run; settled_outcome.
  - destruct e as [e|]; run; [settled_outcome|]. unfold checked_u64. destruct (_ && _); run; settled_outcome.
  - unfold checked_u64. destruct (_ && _); run; [|settled_outcome]. cbn [rt_cfg rt_exchange rt_usage].
    destruct (mint_certificate a owner _ _ ex) as [e1 [w|d|]]; run; cbn [rt_cfg rt_exchange rt_usage]; [|failed_outcome..].
    destruct (audit e1) as [[]|d|] eqn:Ea; run; settled_outcome.
  - pose proof (coin_refs_no_panic ex ins). destruct (coin_refs ex ins) as [refs|d|]; run; cbn [rt_cfg rt_exchange rt_usage]; [|failed_outcome|done].
    destruct (transfer_certificate sec refs outs ex) as [e1 [w|d|]]; run; cbn [rt_cfg rt_exchange rt_usage]; [|failed_outcome..].
    destruct (audit e1) as [[]|d|] eqn:Ea; run; settled_outcome.
Qed.

(** The kernel as a specification: a command that is not permitted is refused
    with nothing changed; a permitted one makes exactly its transition, and is
    accepted exactly when that succeeds and the audit confirms it. *)
Lemma apply_refines c rt k x :
  0 ≤ amount c < 2 ^ 64 →
  let '(e', o) := transition (rt_cfg rt) c (rt_exchange rt) in
  ∃ rt' cx k' r, apply (code c) (Clif.wrap64 (amount c)) (Est (Some rt) (Some (ctx_new c)) k x) = (Est (Some rt') cx k' x, r) ∧
    rt_cfg rt' = rt_cfg rt ∧ (match c with PegIn _ _ _ => k + Nat.b2n (permitted rt (today (clock k)) c) | _ => k end ≤ k')%nat ∧
    let day := today (clock (match c with PegIn _ _ _ => S k | _ => k end)) in
    if permitted rt (today (clock k)) c
    then rt_exchange rt' = e' ∧
         (rt_usage rt' = rt_usage rt ∨ charge c day (rt_usage rt) (rt_usage rt') ∧ (k + 2 * effect_reads c ≤ k')%nat) ∧
         (r = Ok 0 ↔ o = Ok () ∧ audit_ok c e' ∧ ∃ u, charge c day (rt_usage rt) u) ∧
         (r = Ok 0 → charge c day (rt_usage rt) (rt_usage rt'))
    else rt' = rt ∧ ∃ rc, r = Ok rc ∧ rc ≠ 0.
Proof.
  intros Ha. pose proof (apply_gates c rt k x Ha) as Hg.
  pose proof (effect_refines c rt (match c with PegIn _ _ _ => S k | _ => k end) x) as He.
  destruct (transition _ c _) as [e' o]. destruct (permitted rt _ c) eqn:Ep.
  - destruct He as (u' & cx & k' & r & E & Hu & Hr & Hk & Hf); [by destruct c|]. rewrite <-Hg in E.
    eexists _, cx, k', r. split; [exact E|]. split; [done|]. split; [destruct c; cbn; lia|]. split; [done|].
    split; [|naive_solver]. destruct Hu as [?|[? ?]]; [by left|right; split; [done|destruct c; cbn in *; lia]].
  - destruct Hg as (cx & k' & rc & E & Hrc & Hk). exists rt, cx, k', (Ok rc). split_and!; eauto. destruct c; cbn; lia.
Qed.

Definition persisted (rt : Runtime (T:=T)) : Persisted :=
  {| ps_version := 1; ps_exchange := snapshot (rt_exchange rt); ps_usage := rt_usage rt |}.

(** A command as a whole: what it did to the runtime, and that success is
    reported only after the new state was written. *)
Lemma run_cmd_spec c rt cx k x s' r :
  0 ≤ amount c < 2 ^ 64 →
  run_cmd apply c (Est (Some rt) cx k x) = (s', r) →
  let '(e', o) := transition (rt_cfg rt) c (rt_exchange rt) in
  ∃ rt', e_rt s' = Some rt' ∧ rt_cfg rt' = rt_cfg rt ∧
    (match c with PegIn _ _ _ => k + Nat.b2n (permitted rt (today (clock k)) c) | _ => k end ≤ e_tick s')%nat ∧
    let day := today (clock (match c with PegIn _ _ _ => S k | _ => k end)) in
    if permitted rt (today (clock k)) c
    then rt_exchange rt' = e' ∧
         (rt_usage rt' = rt_usage rt ∨ charge c day (rt_usage rt) (rt_usage rt') ∧ (k + 2 * effect_reads c ≤ e_tick s')%nat) ∧
         match r with
         | Ok _ => o = Ok () ∧ audit_ok c e' ∧ charge c day (rt_usage rt) (rt_usage rt') ∧
             ∃ b, encode_state (persisted rt') = Some b ∧ st_write_atomic (cfg_state_path (rt_cfg rt)) b x = (e_x s', Ok ())
         | Err _ => e_x s' = x ∨ ∃ b e, encode_state (persisted rt') = Some b ∧ st_write_atomic (cfg_state_path (rt_cfg rt)) b x = (e_x s', Err e)
         | Panic => e_x s' = x ∨ ∃ b, encode_state (persisted rt') = Some b ∧ st_write_atomic (cfg_state_path (rt_cfg rt)) b x = (e_x s', Panic)
         end
    else rt' = rt ∧ e_x s' = x ∧ ∃ e, r = Err e.
Proof.
  intros Ha E. pose proof (apply_refines c rt k x Ha) as Hp. destruct (transition _ c _) as [e' o].
  destruct Hp as (rt' & cx' & k' & ra & Ea & Hc & Hk & Hp). unfold run_cmd in E. cbn [e_rt e_tick e_x] in E. rewrite Ea in E.
  exists rt'. destruct (permitted rt _ c); cbn [Nat.b2n] in *.
  2:{ destruct Hp as (-> & rc & -> & Hrc%Z.eqb_neq). rewrite Hrc in E. injection E as <- <-. cbn [e_rt e_x e_tick]; by eauto 8. }
  destruct Hp as (<- & Hu & Hr & Hch). destruct ra as [rc|er|]; [|injection E as <- <-; cbn [e_rt e_x e_tick]; by eauto 9..].
  destruct (rc =? 0) eqn:Erc; [|injection E as <- <-; cbn [e_rt e_x e_tick]; by eauto 9]. apply Z.eqb_eq in Erc.
  destruct (proj1 Hr) as (Ho & Hau & _); [by f_equal|]. specialize (Hch ltac:(by f_equal)). cbn in E. unfold save in E. cbn [e_rt e_tick e_x e_ctx] in E.
  fold (persisted rt') in E. rewrite Hc in E. destruct (encode_state (persisted rt')) as [b|] eqn:Eb; [|injection E as <- <-; cbn [e_rt e_x e_tick]; by eauto 9].
  destruct (st_write_atomic _ b x) as [x' [[]|ew|]] eqn:Ew; injection E as <- <-; cbn [e_rt e_x e_tick]; by eauto 16.
Qed.

(** A denomination expires when the caller says; the configured horizon is the
    expiry only of a request that names none. *)
Lemma expiry_requested cfg who v x admin e :
  transition cfg (IssueDenom who v (Some x) admin) e = (issue_denomination v x e, Ok ()).
Proof. done. Qed.

(** C7. A command that is not permitted is answered with an error and changes
    neither the exchange nor the files. A permitted command makes exactly its
    transition of the exchange, and succeeds exactly when the transition
    succeeds, the conservation audit confirms it, the daily usage can be
    charged, and the new state is written. The transitions are the code's, also
    where a comment of the kernel says otherwise: a denomination is issued with
    the caller's expiry ([expiry_requested]), and inputs of a transfer are gated
    by their number. *)
Theorem command_exact c rt cx k x s' r :
  0 ≤ amount c < 2 ^ 64 →
  run_cmd apply c (Est (Some rt) cx k x) = (s', r) →
  let '(e', o) := transition (rt_cfg rt) c (rt_exchange rt) in
  let day := today (clock (match c with PegIn _ _ _ => S k | _ => k end)) in
  if permitted rt (today (clock k)) c
  then (∃ u, e_rt s' = Some {| rt_cfg := rt_cfg rt; rt_exchange := e'; rt_usage := u |}) ∧
       ((∃ v, r = Ok v) ↔ o = Ok () ∧ audit_ok c e' ∧ ∃ u b x', charge c day (rt_usage rt) u ∧
          encode_state {| ps_version := 1; ps_exchange := snapshot e'; ps_usage := u |} = Some b ∧
          st_write_atomic (cfg_state_path (rt_cfg rt)) b x = (x', Ok ()))
  else e_rt s' = Some rt ∧ e_x s' = x ∧ ∃ e, r = Err e.
Proof.
  intros Ha E. pose proof (run_cmd_spec c rt cx k x s' r Ha E) as Hs. pose proof (apply_refines c rt k x Ha) as Hp.
  destruct (transition _ c _) as [e' o]. destruct Hs as ([cfg e2 u2] & Hrt & Hcfg & _ & Hs). cbn in Hcfg; subst cfg.
  destruct (permitted rt _ c). 2:{ destruct Hs as (<- & ? & ?). by rewrite Hrt. }
  destruct Hs as (He & _ & Hr). cbn in He; subst e2. split; [by exists u2|]. split.
  { intros [v ->]. destruct Hr as (-> & Hau & Hch & b & Eb & Ew). split_and!; [done..|]. by exists u2, b, (e_x s'). }
  intros (-> & Hau & u & b & x' & Hch & Eb & Ew). destruct Hp as (rt' & cx' & k' & ra & Ea & Hc & _ & He & Hu & [_ Hra] & Hch').
  assert (ra = Ok 0) as -> by (apply Hra; split_and!; eauto). specialize (Hch' eq_refl).
  assert (rt_usage rt' = u) as <- by (destruct c; cbn in Hch, Hch'; congruence).
  unfold run_cmd in E. cbn [e_rt e_tick e_x] in E. rewrite Ea in E. cbn in E. unfold save in E. cbn [e_rt e_x] in E.
  rewrite He, Eb, Hc, Ew in E. injection E as _ <-. eauto.
Qed.

(** ** Daily caps over a run *)

(** The commands the engine served until it stopped, with the day each peg-in
    that was accepted is booked on. *)
Record entry := { en_day : Z; en_who : bytes; en_amount : Z }.
Definition booked (c : Cmd) (s : est (T:=T) (X:=X)) (r : res ApiError json) : list entry :=
  match c, e_rt s, r with
  | PegIn who _ a, Some rt, Ok _ => [{| en_day := us_day (rt_usage rt); en_who := who; en_amount := a |}]
  | _, _, _ => []
  end.
Fixpoint serve (cs : list Cmd) (s : est (T:=T) (X:=X)) : list entry :=
  match cs with
  | [] => []
  | c :: cs =>
      let '(s', r) := run_cmd apply c s in
      booked c s' r ++ match r with Panic => [] | _ => serve cs s' end
  end.
Fixpoint pegged_in (day : Z) (who : bytes) (l : list entry) : Z :=
  match l with
  | [] => 0
  | e :: l => (if (en_day e =? day) && bool_decide (en_who e = who) then en_amount e else 0) + pegged_in day who l
  end.

Lemma pegged_in_app day who l1 l2 : pegged_in day who (l1 ++ l2) = pegged_in day who l1 + pegged_in day who l2.
Proof. induction l1 as [|e l1 IH]; cbn; [done|]. rewrite IH. lia. Qed.

(** The state a run ends in. *)
Fixpoint ended (cs : list Cmd) (s : est (T:=T) (X:=X)) : est (T:=T) (X:=X) :=
  match cs with
  | [] => s
  | c :: cs => match run_cmd apply c s with (s', Panic) => s' | (s', _) => ended cs s' end
  end.

(** The days the clock shows, and how often they enter a day, coming from [d0]. *)
Definition readings (k k' : nat) : list Z := (λ i, today (clock i)) <$> seq k (k' - k).
Fixpoint visits (day d0 : Z) (l : list Z) : Z :=
  match l with [] => 0 | d :: l => (if (d =? day) && negb (d0 =? day) then 1 else 0) + visits day d l end.
Definition entered (day d0 : Z) (l : list Z) : Z := (if d0 =? day then 1 else 0) + visits day d0 l.

Lemma entered_snoc day d0 l d :
  entered day d0 (l ++ [d]) = entered day d0 l + if (d =? day) && negb (default d0 (last l) =? day) then 1 else 0.
Proof.
  unfold entered. revert d0. induction l as [|d1 l IH]; intros d0; cbn [app visits last default]; [cbn; lia|].
  specialize (IH d1). replace (default d0 (last (d1 :: l))) with (default d1 (last l)) by (rewrite last_cons; by destruct (last l)). lia.
Qed.
Lemma readings_app k k1 k2 : (k ≤ k1 ≤ k2)%nat → readings k k2 = readings k k1 ++ readings k1 k2.
Proof.
  intros Hk. unfold readings. replace (k2 - k)%nat with ((k1 - k) + (k2 - k1))%nat by lia. rewrite seq_app, fmap_app. do 3 f_equal. lia.
Qed.
Lemma readings_two k : readings k (k + 2) = [today (clock k); today (clock (S k))].
Proof. unfold readings. by replace (k + 2 - k)%nat with 2%nat by lia. Qed.

(** A clock that does not go back enters a day once. *)
Lemma entered_once day n k d0 : (∀ i j, (k ≤ i ≤ j)%nat → clock i ≤ clock j) → d0 ≤ today (clock k) →
  entered day d0 (readings k (k + n)) ≤ 1 ∧ (day < d0 → entered day d0 (readings k (k + n)) = 0).
Proof.
  unfold readings. replace (k + n - k)%nat with n by lia. revert k d0. induction n as [|n IH]; intros k d0 Hm Hd.
  { cbn. unfold entered. cbn. destruct (Z.eqb_spec d0 day); lia. }
  assert (today (clock k) ≤ today (clock (S k))) as Hk by (unfold today; apply Z.div_le_mono; [lia|]; apply Hm; lia).
  destruct (IH (S k) (today (clock k))) as [E1 E2]; [intros i j Hij; apply Hm; lia|done|].
  cbn [seq fmap list_fmap]. unfold entered in *. cbn [visits].
  revert E1 E2. generalize (visits day (today (clock k)) ((λ i, today (clock i)) <$> seq (S k) n)) as v. intros v.
  destruct (Z.eqb_spec d0 day), (Z.eqb_spec (today (clock k)) day); cbn [andb negb]; lia.
Qed.

(** What the usage accounts for, after the readings [ds]: a day's bookings never
    exceed the cap for each time the day was entered, and the last of these
    times accounts only for what the usage holds. *)
Definition used (u : Usage) (day : Z) (who : bytes) : Z := if us_day u =? day then default 0 (us_per_account u !! who) else 0.
Record capped (cap d0 : Z) (ds : list Z) (u : Usage) (l : list entry) : Prop := {
  cap_all : ∀ day who, pegged_in day who l ≤ cap * entered day d0 ds;
  cap_last : ∀ who, let r := default d0 (last ds) in pegged_in r who l ≤ cap * (entered r d0 ds - 1) + Z.min cap (used u r who);
  cap_pos : ∀ day who, 0 ≤ used u day who
}.

Lemma usage_add_inv u day who a u' :
  usage_add (E:=bytes) u day who a = Ok u' →
  us_day u' = day ∧ used u' day who < 2 ^ 64 ∧
  ∀ d w, used u' d w = if day =? d then used u day w + (if bool_decide (w = who) then a else 0) else 0.
Proof.
  unfold usage_add, checked_u64. intros E. set (m := if us_day u =? day then us_per_account u else ∅) in *.
  assert (∀ w, used u day w = default 0 (m !! w)) as Hm.
  { intros w. unfold used, m. by destruct (us_day u =? day). }
  destruct (_ && _) eqn:Er; [|done]. rewrite andb_true_iff, Z.ltb_lt in Er. cbn in E. injection E as <-.
  split; [done|]. split; [unfold used; cbn; rewrite Z.eqb_refl, lookup_insert_eq; apply Er|].
  intros d w. unfold used at 1. cbn. destruct (day =? d); [|done]. rewrite Hm. case_bool_decide as Hw.
  - subst w. by rewrite lookup_insert_eq.
  - rewrite lookup_insert_ne by congruence. lia.
Qed.

Lemma capped_read cap d0 ds u l d : 0 ≤ cap → capped cap d0 ds u l → capped cap d0 (ds ++ [d]) u l.
Proof.
  intros Hc [Ha Hl Hp]. split; [|rewrite last_snoc|done].
  - intros day who. rewrite entered_snoc. pose proof (Ha day who). destruct (_ && _); nia.
  - intros who. cbn. rewrite entered_snoc, Z.eqb_refl. cbn [andb]. cbn in Hl.
    destruct (Z.eqb_spec (default d0 (last ds)) d) as [E|E]; cbn [negb].
    + rewrite Z.add_0_r, <-E. apply Hl.
    + pose proof (Ha d who). pose proof (Hp d who). nia.
Qed.
Lemma capped_reads cap d0 ds ds' u l : 0 ≤ cap → capped cap d0 ds u l → capped cap d0 (ds ++ ds') u l.
Proof.
  intros Hc. revert ds. induction ds' as [|d ds' IH]; intros ds Hd; [by rewrite app_nil_r|].
  rewrite cons_middle, app_assoc. apply IH. by apply capped_read.
Qed.

(** A charged peg-in keeps the accounts, whether it is booked or not. *)
Lemma capped_charge cap d0 ds d1 d2 u u' l who a (b : bool) :
  0 ≤ cap → 0 < a → capped cap d0 ds u l → allows u d1 who a cap = true → usage_add (E:=bytes) u d2 who a = Ok u' →
  capped cap d0 (ds ++ [d1; d2]) u' (l ++ if b then [{| en_day := us_day u'; en_who := who; en_amount := a |}] else []).
Proof.
  intros Hcap Ha Hc Hal (Hd & Hlt & Hu)%usage_add_inv.
  pose proof (capped_read _ _ _ _ _ d1 Hcap Hc) as Hc1. pose proof (capped_read _ _ _ _ _ d2 Hcap Hc1) as Hc2.
  rewrite cons_middle, app_assoc. change (ds ++ [d1; d2]) with (ds ++ [d1] ++ [d2]) in *. destruct Hc2 as [HA HL HP].
  rewrite last_snoc in HL. cbn in HL. unfold allows, saturating_add in Hal. fold (used u d1 who) in Hal. apply Z.leb_le in Hal.
  set (ext := if b then _ else _).
  assert (∀ d w, pegged_in d w (l ++ ext) ≤ pegged_in d w l + (if (d2 =? d) && bool_decide (w = who) then a else 0)) as Hle.
  { intros d w. rewrite pegged_in_app. unfold ext. destruct b; cbn; [|destruct (_ && _); lia]. rewrite Hd.
    rewrite (bool_decide_ext (who = w) (w = who)) by done. lia. }
  assert (∀ w, pegged_in d2 w (l ++ ext) ≤ cap * (entered d2 d0 ((ds ++ [d1]) ++ [d2]) - 1) + Z.min cap (used u' d2 w)) as Hlast.
  { intros w. specialize (Hle d2 w). rewrite Hu. specialize (Hu d2 who). rewrite Z.eqb_refl in *. cbn [andb] in Hle.
    pose proof (HL w) as E1. pose proof (HP d2 w) as E2. pose proof (HP d1 who) as E3. case_bool_decide as Ew; [subst w|lia].
    rewrite bool_decide_eq_true_2 in Hu by done. destruct (Z.eq_dec d1 d2) as [->|Hne]; [lia|].
    assert (pegged_in d2 who l ≤ cap * (entered d2 d0 ((ds ++ [d1]) ++ [d2]) - 1)); [|lia].
    rewrite entered_snoc, last_snoc, Z.eqb_refl. cbn [default andb id from_option]. rewrite (proj2 (Z.eqb_neq d1 d2)) by done. cbn [negb].
    pose proof (cap_all _ _ _ _ _ Hc1 d2 who). lia. }
  split.
  - intros d w. destruct (Z.eq_dec d2 d) as [<-|Hne]; [specialize (Hlast w); lia|].
    specialize (Hle d w). rewrite (proj2 (Z.eqb_neq d2 d)) in Hle by done. cbn in Hle. specialize (HA d w). lia.
  - intros w. rewrite last_snoc. apply Hlast.
  - intros d w. rewrite Hu. destruct (d2 =? d); [|done]. pose proof (HP d2 w). case_bool_decide; lia.
Qed.

Lemma serve_step cap d0 ds c rt cx k x s' r l :
  0 ≤ cap → cfg_daily_cap (rt_cfg rt) = cap → 0 ≤ amount c < 2 ^ 64 → capped cap d0 ds (rt_usage rt) l →
  run_cmd apply c (Est (Some rt) cx k x) = (s', r) →
  ∃ rt', e_rt s' = Some rt' ∧ cfg_daily_cap (rt_cfg rt') = cap ∧ (k ≤ e_tick s')%nat ∧
    capped cap d0 (ds ++ readings k (e_tick s')) (rt_usage rt') (l ++ booked c s' r).
Proof.
  intros Hcap Hrt Hc Hl E. pose proof (run_cmd_spec c rt cx k x s' r Hc E) as Hs. destruct (transition _ c _) as [e' o].
  destruct Hs as (rt' & Hrt' & Hcfg & Hk & Hs). exists rt'. split; [done|]. split; [congruence|].
  split; [destruct c; cbn in Hk; lia|].
  assert (∀ v u, r = v → rt_usage rt' = rt_usage rt → booked c s' r = [] →
    capped cap d0 (ds ++ u) (rt_usage rt') (l ++ booked c s' r)) as Hsame.
  { intros v u _ -> ->. rewrite app_nil_r. by apply capped_reads. }
  destruct (permitted rt (today (clock k)) c) eqn:Ep.
  2:{ destruct Hs as (-> & _ & er & ->). eapply Hsame; [done..|]. unfold booked. rewrite Hrt'. by destruct c. }
  destruct c as [|who re a| | | | | | | |]; try (destruct Hs as (_ & [Hu|[Hu _]] & _); cbn in Hu; eapply Hsame; done).
  cbn in Ep. rewrite !andb_true_iff in Ep. destruct Ep as [[_ Hw] Hal]. unfold amount_within in Hw. rewrite !andb_true_iff, Z.ltb_lt in Hw.
  rewrite Hrt in Hal. destruct Hs as (_ & Hu & Hr). cbn [effect_reads] in Hu.
  assert (charge (PegIn who re a) (today (clock (S k))) (rt_usage rt) (rt_usage rt') ∧ (k + 2 ≤ e_tick s')%nat →
    capped cap d0 (ds ++ readings k (e_tick s')) (rt_usage rt') (l ++ booked (PegIn who re a) s' r)) as Hch.
  { intros [Hch Ht]. rewrite (readings_app k (k + 2)), readings_two, app_assoc by lia. apply capped_reads; [done|].
    assert (∃ b : bool, booked (PegIn who re a) s' r =
      if b then [{| en_day := us_day (rt_usage rt'); en_who := who; en_amount := a |}] else []) as [b ->].
    { unfold booked. rewrite Hrt'. destruct r; [by exists true|by exists false..]. }
    eapply capped_charge; [done| |done..]. lia. }
  destruct Hu as [Hu|Hu]; [|by apply Hch]. destruct r as [v|er|]; [|eapply Hsame; [done|done|cbn; by rewrite Hrt']..].
  exfalso. destruct Hr as (_ & _ & (Hd & _ & Hch')%usage_add_inv & _). specialize (Hch' (today (clock (S k))) who).
  rewrite Hu, Z.eqb_refl, bool_decide_eq_true_2 in Hch' by done. lia.
Qed.

Lemma serve_capped cap d0 cs rt cx k0 k x l :
  0 ≤ cap → cfg_daily_cap (rt_cfg rt) = cap → Forall (λ c, 0 ≤ amount c < 2 ^ 64) cs → (k0 ≤ k)%nat →
  capped cap d0 (readings k0 k) (rt_usage rt) l → let s := Est (Some rt) cx k x in
  (k ≤ e_tick (ended cs s))%nat ∧
  ∀ day who, pegged_in day who (l ++ serve cs s) ≤ cap * entered day d0 (readings k0 (e_tick (ended cs s))).
Proof.
  intros Hcap. revert rt cx k x l. induction cs as [|c cs IH]; intros rt cx k x l Hrt Ha Hk Hl.
  { cbn. rewrite app_nil_r. split; [done|apply Hl]. }
  apply Forall_cons in Ha as [Hc Ha]. cbn [serve ended]. destruct (run_cmd apply c _) as [s' r] eqn:E.
  destruct (serve_step _ _ _ _ _ _ _ _ _ _ _ Hcap Hrt Hc Hl E) as (rt' & Hrt' & Hcfg & Hk' & Hn).
  rewrite <-readings_app in Hn by done. destruct s' as [rt2 cx' k' x']. cbn in Hrt', Hk', Hn; subst rt2.
  setoid_rewrite app_assoc. destruct r as [v|er|].
  3:{ rewrite app_nil_r. split; [done|apply Hn]. }
  all: destruct (IH rt' cx' k' x' _ Hcfg Ha ltac:(lia) Hn) as [E1 E2]; split; [lia|done].
Qed.

(** C15. The daily cap over any run of the engine, also one that resumes the
    usage of an earlier process, for any readings of the clock: what is pegged
    in on a day for an account, with what the usage already accounts for up to
    the cap, never exceeds the cap for each time the clock enters that day. So
    while the clock does not go back it never exceeds the cap; a clock that
    goes back to a day finds its usage forgotten. *)
Theorem daily_cap_holds cs rt cx k x day who :
  let u := rt_usage rt in
  let cap := cfg_daily_cap (rt_cfg rt) in
  let s := Est (Some rt) cx k x in
  let total := Z.min cap (used u day who) + pegged_in day who (serve cs s) in
  0 ≤ cap → (∀ w, 0 ≤ default 0 (us_per_account u !! w)) → Forall (λ c, 0 ≤ amount c < 2 ^ 64) cs →
  total ≤ cap * entered day (us_day u) (readings k (e_tick (ended cs s))) ∧
  ((∀ i j, (k ≤ i ≤ j)%nat → clock i ≤ clock j) → us_day u ≤ today (clock k) → total ≤ cap).
Proof.
  intros u cap s total Hcap Hu Ha.
  pose (e := {| en_day := us_day u; en_who := who; en_amount := Z.min cap (default 0 (us_per_account u !! who)) |}).
  assert (∀ w, 0 ≤ Z.min cap (default 0 (us_per_account u !! w)) ≤ cap) as Hm by (intros w; specialize (Hu w); lia).
  assert (capped cap (us_day u) (readings k k) u [e]) as Hc.
  { unfold readings. rewrite Nat.sub_diag. cbn [seq fmap list_fmap]. split; cbn [last default pegged_in e en_day en_who en_amount].
    - intros d w. unfold entered. cbn. specialize (Hm who). destruct (us_day u =? d); cbn; [|lia]. case_bool_decide; lia.
    - intros w. unfold entered, used. cbn. rewrite Z.eqb_refl. cbn. specialize (Hm w). case_bool_decide as Ew; [subst w|]; lia.
    - intros d w. unfold used. specialize (Hu w). destruct (us_day u =? d); lia. }
  destruct (serve_capped cap (us_day u) cs rt cx k k x [e] Hcap eq_refl Ha ltac:(lia) Hc) as [Hk Hs].
  specialize (Hs day who). fold s in Hs, Hk. rewrite pegged_in_app in Hs. cbn [pegged_in e en_day en_who en_amount] in Hs.
  rewrite bool_decide_eq_true_2, andb_true_r in Hs by done.
  assert (total ≤ cap * entered day (us_day u) (readings k (e_tick (ended cs s)))) as Ht.
  { unfold total, used. destruct (us_day u =? day); lia. }
  split; [exact Ht|]. intros Hmono Hd. destruct (entered_once day (e_tick (ended cs s) - k) k (us_day u) Hmono Hd) as [E1 _].
  replace (k + (e_tick (ended cs s) - k))%nat with (e_tick (ended cs s)) in E1 by lia. nia.
Qed.
End kernel.
End RefiPolicy.

(** * Durability of the exchange ([refi/src/engine.rs] over
    [refi/src/util.rs])

    The engine on the crash-aware file system: what a crash at any moment of a
    command leaves, and what a restart finds. *)

Import RefiUtil RefiJson RefiFile RefiEngine RefiPolicy.

Module RefiDurable.

(** Reading a file is one call, which may fail too. *)
#[export] Instance fsys_storage `{Faults, Process} : Storage fsys := {
  st_read p := λ s,
    let s' := Fsys (fs_now s) (fs_trace s) (S (fs_calls s)) in
    match fault (fs_calls s) with Some e => (s', Err e) | None => (s', Ok (contents (fs_now s) p)) end;
  st_exists p s :=
    (Fsys (fs_now s) (fs_trace s) (S (fs_calls s)),
     match fault (fs_calls s) with Some _ => false | None => bool_decide (is_Some (contents (fs_now s) p)) end);
  st_create_dir _ := io [] (λ d, d);
  st_write_atomic := write_atomic
}.

(** What the persistence relies on: serde reads back what it wrote, and a
    restored exchange has the snapshot it was restored from. *)
Class StateLaws (T : Type) `{Taler T, !StateCodec T} := {
  decode_encode : ∀ p b, encode_state p = Some b → decode_state b = Some p;
  restore_snapshot : ∀ seed e, ∃ e', from_snapshot seed (snapshot e) = Ok e' ∧ snapshot e' = snapshot e
}.

Section durable.
Context {T : Type} `{StateLaws T} `{Faults, Process} `{Sha256, HexText}.
Variable clock : nat → Z.
Abbreviation engine := (est (T:=T) (X:=fsys)).

(** The bytes of a state file that hold a runtime. *)
Definition holds_state (rt : Runtime (T:=T)) (o : option bytes) : Prop :=
  ∃ b, o = Some b ∧ decode_state b = Some (persisted rt).
Definition stored (path : bytes) (rt : Runtime (T:=T)) (d : disk) : Prop :=
  settled path (tmp_path path) (holds_state rt) d.

(** A restart from a file that holds a runtime. *)
Lemma open_restores cfg rt x :
  holds_state rt (contents (fs_now x) (cfg_state_path cfg)) → fault (fs_calls x) = None →
  ∃ s' rt2, open cfg (Est None None 0 x) = (s', Ok ()) ∧ e_rt s' = Some rt2 ∧ rt_cfg rt2 = cfg ∧ persisted rt2 = persisted rt.
Proof.
  intros (b & Eb & Ed) Hf. unfold open. cbn. rewrite Hf, Eb. cbn. rewrite Ed. cbn.
  destruct (restore_snapshot (cfg_treasury_seed cfg) (rt_exchange rt)) as (e' & -> & Es).
  eexists _, _. split; [done|]. split; [done|]. split; [done|]. unfold persisted. cbn. by rewrite Es.
Qed.

(** A restart that finds [o] in the state file resumes [rt]. *)
Definition resumes (cfg : EngineConfig) (rt : Runtime (T:=T)) (o : option bytes) : Prop :=
  ∀ x, contents (fs_now x) (cfg_state_path cfg) = o → fault (fs_calls x) = None →
    ∃ s' rt', open cfg (Est None None 0 x) = (s', Ok ()) ∧ e_rt s' = Some rt' ∧ persisted rt' = persisted rt.
(** A crash on any disk of the run, then a restart, resumes one of the two. *)
Definition survives (cfg : EngineConfig) (rt rt' : Runtime (T:=T)) (x : fsys) : Prop :=
  ∀ d o, d ∈ fs_now x :: fs_trace x → after_crash d (cfg_state_path cfg) o → resumes cfg rt o ∨ resumes cfg rt' o.

Lemma holds_resumes cfg rt o : holds_state rt o → resumes cfg rt o.
Proof. intros Ho x <- Hf. destruct (open_restores cfg rt x Ho Hf) as (s & rt2 & ? & ? & _ & ?). eauto. Qed.

Lemma settled_survives cfg rt rt' x Q :
  Forall (settled (cfg_state_path cfg) (tmp_path (cfg_state_path cfg)) Q) (fs_now x :: fs_trace x) →
  (∀ o, Q o → holds_state rt o ∨ holds_state rt' o) → survives cfg rt rt' x.
Proof.
  rewrite Forall_forall. intros Hx HQ d o Hd Hc. apply Hx in Hd. eapply settled_crash, HQ in Hc as [?|?]; [| |done].
  - left. by apply holds_resumes.
  - right. by apply holds_resumes.
Qed.

Lemma idle_survives cfg rt rt' x :
  stored (cfg_state_path cfg) rt (fs_now x) → fs_trace x = [] → survives cfg rt rt' x.
Proof. intros Hs Ht. apply (settled_survives _ _ _ _ (holds_state rt)); [by rewrite Ht; constructor|by left]. Qed.

Lemma write_survives cfg rt rt' b x x' r :
  stored (cfg_state_path cfg) rt (fs_now x) → fs_trace x = [] →
  encode_state (persisted rt') = Some b → st_write_atomic (cfg_state_path cfg) b x = (x', r) →
  survives cfg rt rt' x' ∧
  match r with
  | Ok _ => holds_state rt' (contents (fs_now x') (cfg_state_path cfg)) ∧ (d_past (fs_now x') = [] → stored (cfg_state_path cfg) rt' (fs_now x'))
  | _ => stored (cfg_state_path cfg) rt (fs_now x')
  end.
Proof.
  intros Hst Htr Eb%decode_encode Ew.
  destruct (write_atomic_crash _ b (holds_state rt) (tmp_path_ne _) _ _ _ Ew Hst) as [Hall Hr]; [by rewrite Htr|].
  split.
  - eapply settled_survives; [exact Hall|]. intros o [?| ->]; [by left|right; by exists b].
  - destruct r as [[]|e|]; [|apply Hr|done]. destruct Hr as [Hc Hr]. split; [by exists b|]. intros Hp.
    eapply settled_weaken; [|by apply Hr]. intros o ->. by exists b.
Qed.

(** C10. The exchange is durable. Run a command on a disk that safely stores the
    engine's state: whatever the disk calls do, a crash at any moment followed
    by a restart resumes the state before or the state after the command, never
    a mixture. When success was reported the file holds the state after, whose
    exchange made the command's transition, safely once the directory was
    forced; a command that did not succeed leaves the state before stored. *)
Theorem command_durable c rt cx k x s' r :
  0 ≤ amount c < 2 ^ 64 →
  let path := cfg_state_path (rt_cfg rt) in
  stored path rt (fs_now x) → fs_trace x = [] →
  run_cmd (apply clock) c (Est (Some rt) cx k x) = (s', r) →
  ∃ rt', e_rt s' = Some rt' ∧ survives (rt_cfg rt) rt rt' (e_x s') ∧
    match r with
    | Ok _ => rt_exchange rt' = (transition (rt_cfg rt) c (rt_exchange rt)).1 ∧
              holds_state rt' (contents (fs_now (e_x s')) path) ∧
              (d_past (fs_now (e_x s')) = [] → stored path rt' (fs_now (e_x s')))
    | _ => stored path rt (fs_now (e_x s'))
    end.
Proof.
  intros Ha path Hst Htr E. pose proof (run_cmd_spec clock c rt cx k x s' r Ha E) as Hs.
  destruct (transition _ c _) as [e' o]. destruct Hs as (rt' & Hrt & Hcfg & _ & Hs). exists rt'. split; [done|].
  pose proof (idle_survives (rt_cfg rt) rt rt' x Hst Htr) as Hi.
  destruct (permitted rt _ c).
  - destruct Hs as (He & _ & Hr). destruct r as [v|er|].
    + destruct Hr as (_ & _ & _ & b & Eb & Ew). by destruct (write_survives _ _ _ _ _ _ _ Hst Htr Eb Ew).
    + destruct Hr as [-> |(b & e & Eb & Ew)]; [done|exact (write_survives _ _ _ _ _ _ _ Hst Htr Eb Ew)].
    + destruct Hr as [-> |(b & Eb & Ew)]; [done|exact (write_survives _ _ _ _ _ _ _ Hst Htr Eb Ew)].
  - by destruct Hs as (_ & -> & e & ->).
Qed.
End durable.
End RefiDurable.
