(* ===== verification/RefiRead.v ===== *)
(** * Queries of the exchange ([refi/src/engine.rs], [read_exchange] and the
    helpers at its end)

    Read-only views, rendered as JSON. The registry replays the operation log
    to recover the kind of every certificate. *)

From S2P Require Import Prelude Text RefiUtil RefiJson RefiEngine.
Import RefiUtil RefiJson RefiEngine.

Module RefiRead.

Inductive Read :=
| Status | Audit | Registry (limit : Z) (kind : option bytes) | Denominations | Ops (limit : Z)
| Reserve (id : bytes) | Reserves (owner : bytes) | Coins (owner : bytes) | Merchant (did : bytes) | PegOuts.

(** [sort_by_key] and [sort_by]: stable. *)
Section sort.
Context {A : Type} (le : A → A → bool).
Fixpoint place (x : A) (l : list A) : list A :=
  match l with [] => [x] | y :: l' => if le x y then x :: l else y :: place x l' end.
Definition sort (l : list A) : list A := foldr place [] l.

Lemma place_perm x l : place x l ≡ₚ x :: l.
Proof. induction l as [|y l IH]; cbn; [done|]. destruct (le x y); [done|]. rewrite IH. by constructor. Qed.
Lemma sort_perm l : sort l ≡ₚ l.
Proof. induction l as [|x l IH]; cbn; [done|]. by rewrite place_perm, IH. Qed.

Hypothesis le_total : ∀ x y, le x y = false → le y x = true.
Hypothesis le_trans : ∀ x y z, le x y = true → le y z = true → le x z = true.
Lemma place_sorted x l : StronglySorted (λ x y, le x y = true) l → StronglySorted (λ x y, le x y = true) (place x l).
Proof.
  induction 1 as [|y l Hl IH Hy]; cbn; [by repeat constructor|]. destruct (le x y) eqn:E.
  - constructor; [by constructor|]. constructor; [done|]. eapply Forall_impl; [exact Hy|]. cbn. eauto.
  - constructor; [done|]. rewrite place_perm. constructor; [by apply le_total|done].
Qed.
Lemma sort_sorted l : StronglySorted (λ x y, le x y = true) (sort l).
Proof. induction l as [|x l IH]; cbn; [constructor|]. by apply place_sorted. Qed.

(** Elements that are equivalent keep their order. *)
Lemma place_filter x l (z : A) :
  StronglySorted (λ x y, le x y = true) l →
  filter (λ y, le y z && le z y = true) (place x l) = filter (λ y, le y z && le z y = true) (x :: l).
Proof.
  induction 1 as [|y l Hl IH Hy]; [done|]. cbn [place]. destruct (le x y) eqn:E; [done|].
  rewrite (filter_cons _ y), IH, !filter_cons. destruct (decide (le y z && le z y = true)) as [Hyz|]; [|done].
  destruct (decide (le x z && le z x = true)) as [Hxz|]; [|done].
  rewrite andb_true_iff in Hyz, Hxz. rewrite (le_trans x z y) in E; naive_solver.
Qed.
Lemma sort_stable l z : filter (λ y, le y z && le z y = true) (sort l) = filter (λ y, le y z && le z y = true) l.
Proof.
  induction l as [|x l IH]; [done|]. cbn [sort foldr]. change (foldr place [] l) with (sort l).
  rewrite place_filter by apply sort_sorted. by rewrite !filter_cons, IH.
Qed.
End sort.

(** Which value form a mint represents. *)
Definition kind_of (source : option bytes) : bytes :=
  match source with
  | Some s => if starts_with (str "unfccc:vc:") s then str "carbon"
              else if starts_with (str "taler:reserve:") s then str "e-coin"
              else if is_doi s then str "attested" else str "certificate"
  | None => str "certificate"
  end.

Section read.
Context {T : Type} `{Taler T} `{Sha256, HexText}.

(** [.sum::<u64>()] *)
Definition sum_u64 {E} (l : list Z) : res E Z := foldM (λ a b, checked_u64 (a + b)) 0 l.

Definition clamp (limit : Z) : nat := Z.to_nat (Z.max 1 (Z.min limit 1000)).

(** ** The registry *)
Definition zero_blinding : bytes := replicate 32 Byte.x00.
Abbreviation kinds_map := (gmap bytes bytes).

(** The first pass: [kinds] and [mint_ids]. *)
Definition replay_output (inherited : bytes) (kinds : kinds_map) (out : Z * bytes) : kinds_map :=
  <[commit_coin out.1 out.2 zero_blinding := inherited]> kinds.
Definition replay_op (acc : kinds_map * kinds_map) (tx : LedgerOp) : kinds_map * kinds_map :=
  let '(kinds, mint_ids) := acc in
  match tx with
  | CertificateOp _ _ (OpMint amount owner blinding source) =>
      let id := commit_coin amount owner blinding in
      (<[id := kind_of source]> kinds, <[id := kind_of source]> mint_ids)
  | CertificateOp _ _ (OpTransfer inputs outputs) =>
      let inherited := default (str "certificate") (i ← head inputs; kinds !! cr_id i) in
      (foldl (replay_output inherited) kinds outputs, mint_ids)
  | _ => acc
  end.
Definition replay (ops : list LedgerOp) : kinds_map * kinds_map := foldl replay_op (∅, ∅) ops.

Definition wanted (kind : option bytes) (name : bytes) : bool :=
  match kind with Some want => bool_decide (want = name) | None => true end.

Definition row (id kind : bytes) (amount : Z) (owner : bytes) (source : option bytes) (status : String.string) (seq : Z) : Z * json :=
  (seq, obj [("cert_id", JStr (hex_encode id)); ("kind", JStr kind); ("amount", JNum amount); ("owner", JStr owner);
             ("source", opt JStr source); ("status", text status); ("seq", JNum seq)]%string).

(** The second pass: a row per mint. *)
Definition mint_row (ex : T) (kinds : kinds_map) (kind : option bytes) (tx : LedgerOp) : list (Z * json) :=
  match tx with
  | CertificateOp seq _ (OpMint amount owner blinding source) =>
      let id := commit_coin amount owner blinding in
      let name := default (str "certificate") (kinds !! id) in
      if wanted kind name
      then [row id name amount owner source (if bool_decide (is_Some (utxo ex id)) then "unspent" else "spent") seq] else []
  | _ => []
  end.

(** The third: the live outputs of transfers. *)
Definition output_row (ex : T) (kinds mint_ids : kinds_map) (kind : option bytes) (seq : Z) (out : Z * bytes) : list (Z * json) :=
  let id := commit_coin out.1 out.2 zero_blinding in
  if bool_decide (is_Some (mint_ids !! id)) then []
  else if bool_decide (utxo ex id = None) then []
  else let name := default (str "certificate") (kinds !! id) in
       if wanted kind name then [row id name out.1 out.2 None "unspent" seq] else [].
Definition transfer_rows (ex : T) (kinds mint_ids : kinds_map) (kind : option bytes) (tx : LedgerOp) : list (Z * json) :=
  match tx with
  | CertificateOp seq _ (OpTransfer _ outputs) => concat (output_row ex kinds mint_ids kind seq <$> outputs)
  | _ => []
  end.

Definition registry_rows (ex : T) (kind : option bytes) : list (Z * json) :=
  let '(kinds, mint_ids) := replay (ops ex) in
  concat (mint_row ex kinds kind <$> ops ex) ++ concat (transfer_rows ex kinds mint_ids kind <$> ops ex).

Definition by_seq (a b : Z * json) : bool := b.1 <=? a.1.
Definition registry (ex : T) (limit : Z) (kind : option bytes) : list (Z * json) :=
  take (clamp limit) (sort by_seq (registry_rows ex kind)).

(** ** The others *)
Definition key_le (key : String.string) (a b : json) : bool :=
  default 0 (as_u64 (at_key a key)) <=? default 0 (as_u64 (at_key b key)).

Definition op_row (tx : LedgerOp) : list json :=
  let op seq did (kind : String.string) detail :=
    [obj [("seq", JNum seq); ("did", JStr did); ("kind", text kind); ("detail", detail)]%string] in
  match tx with
  | CertificateOp seq did (OpMint amount owner _ source) =>
      op seq did "mint"%string (obj [("amount", JNum amount); ("owner", JStr owner); ("source", opt JStr source)]%string)
  | CertificateOp seq did (OpTransfer inputs outputs) =>
      op seq did "transfer"%string (obj [("inputs", JNum (Zlen inputs)); ("outputs", JArr ((λ o, JNum o.1) <$> outputs))]%string)
  | CertificateOp seq did (OpBurn inputs) => op seq did "burn"%string (obj [("inputs", JNum (Zlen inputs))]%string)
  | OtherOp => []
  end.

Definition audit_detail (ex : T) : res ApiError (option bytes) :=
  match audit ex with Ok _ => Ok None | Err d => Ok (Some (dg_message d)) | Panic => Panic end.

Definition read_exchange (ex : T) (read : Read) : res ApiError json :=
  match read with
  | Status =>
      r ← sum_u64 (snd <$> reserves ex);
      m ← sum_u64 (snd <$> merchants ex);
      Ok (obj [("treasury_did", JStr (treasury_did ex)); ("seq", JNum (current_seq ex));
        ("ledger", obj [("root", JStr (hex_encode (ledger_root ex))); ("total_supply", JNum (total_supply ex)); ("unspent", JNum (unspent_count ex))]);
        ("fiat", obj [("in", JNum (fiat_in ex)); ("out", JNum (fiat_out ex))]);
        ("reserves_total", JNum r); ("merchants_total", JNum m); ("funded_outstanding", JNum (funded_outstanding ex));
        ("denominations", JArr ((λ d, JNum (dn_value d)) <$> denominations ex));
        ("peg_outs_open", JNum (Zlen (filter (λ p, pw_confirmed p = false) (peg_outs ex)))); ("sandbox", JBool true)]%string)
  | Audit =>
      r ← sum_u64 (snd <$> reserves ex);
      m ← sum_u64 (snd <$> merchants ex);
      rm ← checked_u64 (r + m);
      liability ← checked_u64 (rm + funded_outstanding ex);
      asset ← checked_u64 (fiat_in ex - fiat_out ex);
      detail ← audit_detail ex;
      Ok (obj [("ok", JBool (bool_decide (detail = None))); ("detail", opt JStr detail);
        ("fiat_in", JNum (fiat_in ex)); ("fiat_out", JNum (fiat_out ex)); ("assets", JNum asset); ("liabilities", JNum liability);
        ("reserves_total", JNum r); ("merchants_total", JNum m); ("funded_outstanding", JNum (funded_outstanding ex));
        ("ledger_root", JStr (hex_encode (ledger_root ex))); ("total_supply", JNum (total_supply ex)); ("unspent", JNum (unspent_count ex))]%string)
  | Denominations =>
      let seq := current_seq ex in
      let out := (λ d, obj [("value", JNum (dn_value d)); ("expires_seq", JNum (dn_expires_seq d)); ("live", JBool (seq <=? dn_expires_seq d)%Z)]%string) <$> denominations ex in
      Ok (obj [("seq", JNum seq); ("denominations", JArr (sort (key_le "value") out))]%string)
  | Reserves owner =>
      let rows := (λ r, obj [("reserve_id", JStr (hex_encode r.1.1)); ("balance", JNum r.2)]%string) <$> filter (λ r, r.1.2 = owner) (reserves ex) in
      Ok (obj [("owner", JStr owner); ("reserves", JArr rows)]%string)
  | Reserve id =>
      match reserve ex id with
      | Some (owner, balance) => Ok (obj [("reserve_id", JStr (hex_encode id)); ("owner", JStr owner); ("balance", JNum balance)]%string)
      | None => Err (not_found "no such reserve")
      end
  | Coins owner =>
      let coin c := obj [("coin_id", JStr (hex_encode (cn_id c))); ("amount", JNum (cn_amount c)); ("owner", JStr (cn_owner c)); ("minted_seq", JNum (cn_minted_seq c))]%string in
      total ← sum_u64 (cn_amount <$> coins_of ex owner);
      Ok (obj [("owner", JStr owner); ("total", JNum total); ("coins", JArr (sort (key_le "minted_seq") (coin <$> coins_of ex owner)))]%string)
  | Merchant did => Ok (obj [("merchant", JStr did); ("balance", JNum (merchant_balance ex did))]%string)
  | PegOuts =>
      let peg p := obj [("wire_id", JStr (wr_id (pw_wire p))); ("to", JStr (wr_to (pw_wire p))); ("amount", JNum (wr_amount (pw_wire p)));
                        ("confirmed", JBool (pw_confirmed p)); ("merchant", JStr (pw_merchant p))]%string in
      Ok (obj [("peg_outs", JArr (peg <$> peg_outs ex))]%string)
  | Ops limit =>
      let l := ops ex in
      Ok (obj [("total", JNum (Zlen l)); ("ops", JArr (concat (op_row <$> drop (length l - clamp limit) l)))]%string)
  | Registry limit kind =>
      let rows := snd <$> registry ex limit kind in
      Ok (obj [("count", JNum (Zlen rows)); ("certificates", JArr rows)]%string)
  end.

Definition read_state (rt : option (Runtime (T:=T))) (read : Read) : res ApiError json :=
  match rt with
  | None => Err (unavailable "the exchange is not open")
  | Some rt => read_exchange (rt_exchange rt) read
  end.

(** ** Identifiers *)
Definition default_reserve_id (did : bytes) : bytes := sha256 (str "refi:reserve:" ++ did).
Definition parse_id (s : bytes) : option bytes := parse_hex32 s.
Definition is_ascii_hexdigit (b : byte) : bool := byte_in 48 57 b || byte_in 97 102 b || byte_in 65 70 b.
Definition is_did (s : bytes) : bool :=
  match strip_prefix (str "did:unfer:") s with
  | Some rest => (Zlen rest =? 64) && forallb is_ascii_hexdigit rest
  | None => false
  end.

(** ** The registry tells the truth *)

(** The certificates an operation creates. *)
Definition created (tx : LedgerOp) : list bytes :=
  match tx with
  | CertificateOp _ _ (OpMint amount owner blinding _) => [commit_coin amount owner blinding]
  | CertificateOp _ _ (OpTransfer _ outputs) => (λ out, commit_coin out.1 out.2 zero_blinding) <$> outputs
  | _ => []
  end.
Definition created_by (l : list LedgerOp) : list bytes := concat (created <$> l).

(** The kind of a certificate: that given by the last operation that created it,
    which is the kind of its mint, or the kind the first input of a transfer had
    then, or none in particular. Nothing is assumed of the log: an identifier may
    be created again, a transfer may spend what was never created. *)
Inductive derives : list LedgerOp → bytes → bytes → Prop :=
| derives_mint l seq did amount owner blinding source :
    derives (l ++ [CertificateOp seq did (OpMint amount owner blinding source)]) (commit_coin amount owner blinding) (kind_of source)
| derives_transfer l seq did i inputs outputs out k :
    derives l (cr_id i) k → out ∈ outputs →
    derives (l ++ [CertificateOp seq did (OpTransfer (i :: inputs) outputs)]) (commit_coin out.1 out.2 zero_blinding) k
| derives_unknown l seq did inputs outputs out :
    match inputs with i :: _ => cr_id i ∉ created_by l | [] => True end → out ∈ outputs →
    derives (l ++ [CertificateOp seq did (OpTransfer inputs outputs)]) (commit_coin out.1 out.2 zero_blinding) (str "certificate")
| derives_before l tx id k : derives l id k → id ∉ created tx → derives (l ++ [tx]) id k.

Lemma created_by_snoc l tx id : id ∈ created_by (l ++ [tx]) ↔ id ∈ created_by l ∨ id ∈ created tx.
Proof. unfold created_by. rewrite fmap_app, concat_app. cbn. rewrite app_nil_r. apply elem_of_app. Qed.

Lemma elem_concat {A B} (f : A → list B) l y : y ∈ concat (f <$> l) ↔ ∃ x, x ∈ l ∧ y ∈ f x.
Proof.
  induction l as [|x l IH]; cbn; [set_solver|]. rewrite elem_of_app, IH. set_solver.
Qed.

Lemma elem_created_transfer seq did ins outs id :
  id ∈ created (CertificateOp seq did (OpTransfer ins outs)) ↔ ∃ out : Z * bytes, out ∈ outs ∧ id = commit_coin out.1 out.2 zero_blinding.
Proof. cbn. rewrite list_elem_of_fmap. naive_solver. Qed.

Lemma derives_created l id k : derives l id k → id ∈ created_by l.
Proof.
  induction 1 as [|l seq did i ins outs out k _ _ Ho|l seq did ins outs out _ Ho|]; apply created_by_snoc; [right; cbn; set_solver|right..|by left];
    apply elem_created_transfer; eauto.
Qed.

Lemma replay_snoc l tx : replay (l ++ [tx]) = replay_op (replay l) tx.
Proof. unfold replay. by rewrite foldl_app. Qed.

Lemma replay_outputs k kinds outs id :
  foldl (replay_output k) kinds outs !! id =
  if bool_decide (id ∈ (λ out, commit_coin out.1 out.2 zero_blinding) <$> outs) then Some k else kinds !! id.
Proof.
  revert kinds. induction outs as [|o outs IH]; intros kinds; cbn [foldl]; [done|]. rewrite IH. rewrite fmap_cons. unfold replay_output.
  case_bool_decide as H1'; case_bool_decide as H2'; [done|set_solver| |].
  - apply elem_of_cons in H2' as [->|?]; [by rewrite lookup_insert_eq|done].
  - rewrite lookup_insert_ne; [done|set_solver].
Qed.

Lemma mint_ids_created l id : is_Some ((replay l).2 !! id) ↔
  ∃ seq did amount owner blinding source, CertificateOp seq did (OpMint amount owner blinding source) ∈ l ∧ id = commit_coin amount owner blinding.
Proof.
  induction l as [|tx l IH] using rev_ind; [cbn; rewrite lookup_empty; split; [by intros []|set_solver]|].
  rewrite replay_snoc. destruct (replay l) as [kinds mints]. cbn in IH.
  destruct tx as [seq did [a o b src|ins outs|ins]|]; cbn; [|rewrite IH; set_solver..].
  destruct (decide (id = commit_coin a o b)) as [->|Hne].
  - rewrite lookup_insert_eq. split; [|done]. intros _. eexists _, _, _, _, _, _. split; [apply elem_of_app; right; by apply list_elem_of_singleton|done].
  - rewrite lookup_insert_ne, IH by done. split.
    + intros (? & ? & ? & ? & ? & ? & ? & ?). eexists _, _, _, _, _, _. split; [apply elem_of_app; by left|done].
    + intros (? & ? & ? & ? & ? & ? & Hin & ?). eexists _, _, _, _, _, _. split; [|done].
      apply elem_of_app in Hin as [Hin|Hin%list_elem_of_singleton]; [done|by simplify_eq].
Qed.

(** The replay recovers exactly the kinds, of any log. *)
Lemma replay_derives l id k : (replay l).1 !! id = Some k → derives l id k.
Proof.
  revert id k. induction l as [|tx l IH] using rev_ind; intros id k; [cbn; by rewrite lookup_empty|].
  assert (∀ i, (replay l).1 !! i = None → i ∉ created_by l) as Hnone.
  { clear IH. intros i. induction l as [|t l IH] using rev_ind; [intros _; cbn; set_solver|]. rewrite replay_snoc, created_by_snoc.
    destruct (replay l) as [kinds mints]. cbn [fst] in IH. destruct t as [seq did [a o b src|ins outs|ins]|]; cbn; [| |set_solver..].
    - rewrite lookup_insert_None. set_solver.
    - rewrite replay_outputs. case_bool_decide; [done|]. set_solver. }
  rewrite replay_snoc. destruct (replay l) as [kinds mints] eqn:Er. cbn [fst] in *.
  destruct tx as [seq did [a o b src|ins outs|ins]|]; cbn [replay_op fst]; intros Hk;
    [| |apply derives_before; [by apply IH|cbn; set_solver]..].
  - apply lookup_insert_Some in Hk as [[<- <-]|[Hne Hk]]; [apply derives_mint|]. apply derives_before; [by apply IH|cbn; set_solver].
  - rewrite replay_outputs in Hk. case_bool_decide as Hi; [|apply derives_before; [by apply IH|done]]. injection Hk as <-.
    apply list_elem_of_fmap in Hi as (out & -> & Ho). destruct ins as [|i ins]; [by apply derives_unknown|]. cbn.
    destruct (kinds !! cr_id i) as [k|] eqn:E; cbn; [by apply derives_transfer; [apply IH|]|]. apply derives_unknown; [by apply Hnone|done].
Qed.
Lemma derives_replay l id k : derives l id k → (replay l).1 !! id = Some k.
Proof.
  induction 1 as [l seq did a o b src|l seq did i ins outs out k _ IH Ho|l seq did ins outs out Hu Ho|l tx id k _ IH Hn];
    rewrite replay_snoc; destruct (replay l) as [kinds mints] eqn:Er; cbn [replay_op fst] in *.
  - apply lookup_insert_eq.
  - rewrite replay_outputs, bool_decide_eq_true_2 by (apply list_elem_of_fmap; eauto). cbn. by rewrite IH.
  - rewrite replay_outputs, bool_decide_eq_true_2 by (apply list_elem_of_fmap; eauto). destruct ins as [|i ins]; [done|]. cbn.
    destruct (kinds !! cr_id i) as [k|] eqn:E; [|done]. destruct Hu. eapply derives_created, replay_derives. by rewrite Er.
  - destruct tx as [seq did [a o b src|ins outs|ins]|]; cbn in Hn |- *; [| |done..].
    + rewrite lookup_insert_ne by set_solver. done.
    + by rewrite replay_outputs, bool_decide_eq_false_2.
Qed.
Lemma created_kind l id : id ∈ created_by l → ∃ k, (replay l).1 !! id = Some k ∧ derives l id k.
Proof.
  intros Hi. assert (∃ k, derives l id k) as [k Hk]; [|exists k; split; [by apply derives_replay|done]].
  revert id Hi. induction l as [|tx l IH] using rev_ind; intros id Hi; [set_solver|].
  destruct (decide (id ∈ created tx)) as [Hc|Hc].
  - destruct tx as [seq did [a o b src|ins outs|ins]|]; [| |set_solver..].
    + apply list_elem_of_singleton in Hc as ->. eexists. apply derives_mint.
    + apply elem_created_transfer in Hc as (out & Ho & ->). destruct ins as [|i ins]; [eexists; by apply derives_unknown|].
      destruct (decide (cr_id i ∈ created_by l)) as [Hin|Hin]; [|eexists; by apply derives_unknown].
      destruct (IH _ Hin) as [k Hk]. exists k. by apply derives_transfer.
  - apply created_by_snoc in Hi as [Hi|?]; [|done]. destruct (IH _ Hi) as [k Hk]. exists k. by apply derives_before.
Qed.

(** What the registry lists: a mint with its kind and whether it is unspent, and
    a live output of a transfer that no mint of the log created, with the kind it
    inherited. *)
Definition minted (l : list LedgerOp) (id : bytes) : Prop :=
  ∃ seq did amount owner blinding source, CertificateOp seq did (OpMint amount owner blinding source) ∈ l ∧ id = commit_coin amount owner blinding.
Inductive listed (ex : T) (kind : option bytes) : Z * json → Prop :=
| listed_mint seq did amount owner blinding source k :
    CertificateOp seq did (OpMint amount owner blinding source) ∈ ops ex →
    derives (ops ex) (commit_coin amount owner blinding) k → wanted kind k = true →
    listed ex kind (row (commit_coin amount owner blinding) k amount owner source
      (if bool_decide (is_Some (utxo ex (commit_coin amount owner blinding))) then "unspent" else "spent") seq)
| listed_output seq did inputs outputs out k :
    CertificateOp seq did (OpTransfer inputs outputs) ∈ ops ex → out ∈ outputs →
    let id := commit_coin out.1 out.2 zero_blinding in
    ¬ minted (ops ex) id → is_Some (utxo ex id) → derives (ops ex) id k → wanted kind k = true →
    listed ex kind (row id k out.1 out.2 None "unspent" seq).

Lemma registry_rows_listed ex kind r : r ∈ registry_rows ex kind ↔ listed ex kind r.
Proof.
  pose proof (created_kind (ops ex)) as Hd. pose proof (derives_replay (ops ex)) as Hk. pose proof (mint_ids_created (ops ex)) as Hm.
  unfold registry_rows. destruct (replay (ops ex)) as [kinds mints]. cbn in Hd, Hk, Hm.
  rewrite elem_of_app, !elem_concat. split.
  - intros [(tx & Htx & Hr)|(tx & Htx & Hr)]; destruct tx as [seq did [a o b src|ins outs|ins]|]; cbn in Hr; try (by inversion Hr).
    + destruct (Hd (commit_coin a o b)) as (k & Ek & Hkd); [apply elem_concat; eexists; split; [exact Htx|cbn; set_solver]|]. rewrite Ek in Hr. cbn in Hr.
      destruct (wanted kind k) eqn:Ew; [|by inversion Hr]. apply list_elem_of_singleton in Hr as ->. by eapply listed_mint.
    + apply elem_concat in Hr as (out & Ho & Hr). unfold output_row in Hr.
      case_bool_decide as Hmt; [by inversion Hr|]. case_bool_decide as Hu; [by inversion Hr|].
      destruct (Hd (commit_coin out.1 out.2 zero_blinding)) as (k & Ek & Hkd); [apply elem_concat; eexists; split; [exact Htx|apply elem_created_transfer; by exists out]|].
      rewrite Ek in Hr. cbn in Hr. destruct (wanted kind k) eqn:Ew; [|by inversion Hr]. apply list_elem_of_singleton in Hr as ->.
      eapply listed_output; try done; [by rewrite Hm in Hmt|by apply not_eq_None_Some].
  - destruct 1 as [seq did a o b src k Htx Hkd Hw|seq did ins outs out k Htx Ho id Hmt Hu Hkd Hw].
    + left. eexists. split; [exact Htx|]. cbn. rewrite (Hk _ _ Hkd). cbn. rewrite Hw. by left.
    + right. eexists. split; [exact Htx|]. cbn. apply elem_concat. exists out. split; [done|]. unfold output_row.
      fold id. rewrite bool_decide_eq_false_2, bool_decide_eq_false_2, (Hk _ _ Hkd); cbn; [by rewrite Hw; left| |].
      * by apply not_eq_None_Some.
      * by rewrite Hm.
Qed.

(** A holding that a later transfer creates again is listed once for each of
    them: the identifier of an output depends on its amount and owner only. *)
Lemma recreated_listed_twice ex seq1 seq2 did1 did2 ins1 ins2 outs1 outs2 amount owner :
  let id := commit_coin amount owner zero_blinding in
  CertificateOp seq1 did1 (OpTransfer ins1 outs1) ∈ ops ex → (amount, owner) ∈ outs1 →
  CertificateOp seq2 did2 (OpTransfer ins2 outs2) ∈ ops ex → (amount, owner) ∈ outs2 →
  ¬ minted (ops ex) id → is_Some (utxo ex id) →
  ∃ k, row id k amount owner None "unspent" seq1 ∈ registry_rows ex None ∧ row id k amount owner None "unspent" seq2 ∈ registry_rows ex None.
Proof.
  intros id H1' O1 H2' O2 Hm Hu.
  destruct (created_kind (ops ex) id) as (k & _ & Hk); [apply elem_concat; eexists; split; [exact H1'|apply elem_created_transfer; by exists (amount, owner)]|].
  exists k. split; apply registry_rows_listed.
  - by apply (listed_output ex None seq1 did1 ins1 outs1 (amount, owner) k).
  - by apply (listed_output ex None seq2 did2 ins2 outs2 (amount, owner) k).
Qed.

(** C28. The registry is exact, over any log: it lists only certificates of the
    log, each with the kind the last operation that created it gave it and its
    true status, newest first, at most as many as asked for (and at most 1000);
    and it lists every mint of the wanted kind and every live transferred
    certificate that was not also minted, as far as they fit. *)
Theorem registry_exact ex limit kind :
  let l := registry ex limit kind in
  (length l ≤ clamp limit)%nat ∧ StronglySorted (λ a b, by_seq a b = true) l ∧
  (∀ r, r ∈ l → listed ex kind r) ∧
  ((length l < clamp limit)%nat → ∀ r, listed ex kind r → r ∈ l).
Proof.
  intros l. subst l. unfold registry. set (rows := registry_rows ex kind).
  assert (StronglySorted (λ a b, by_seq a b = true) (sort by_seq rows)) as Hs.
  { apply sort_sorted; unfold by_seq; intros *; [rewrite Z.leb_nle, Z.leb_le; lia|rewrite !Z.leb_le; lia]. }
  rewrite length_take. split_and!.
  - lia.
  - rewrite <-(take_drop (clamp limit) (sort by_seq rows)) in Hs. by eapply StronglySorted_app_1_l.
  - intros r Hr. apply registry_rows_listed. fold rows. rewrite <-(sort_perm by_seq). apply elem_of_take in Hr as (i & Hi & _). by eapply list_elem_of_lookup_2.
  - intros Hlt r Hr. apply registry_rows_listed in Hr. rewrite take_ge by lia. by rewrite sort_perm.
Qed.
End read.
End RefiRead.
