(* ===== verification/RefiBoot.v ===== *)
(** * Boot of the engine thread ([engine_main], [register_primitives],
    [load_manifest], [ensure_cps] of [refi/src/engine.rs])

    The host registers its primitives, loads the manifest, opens the exchange,
    and has the bridge compile the policy kernel. The theorem: a kernel that
    boots calls only primitives the manifest grants, and the exchange is open. *)

From S2P Require Import Prelude Text RefiUtil RefiJson RefiEngine RefiPolicy RefiRead Toml Auth Symbols Clif Cps CpsLang CpsProgram CpsFuse CpsWf CpsGate CpsCorrect Jit JitSafe ModuleHost Cursor.
Import RefiUtil RefiJson RefiEngine RefiPolicy RefiRead Toml Clif Cps CpsLang CpsProgram CpsGate Jit.

Module RefiBoot.

Definition primitives : list bytes := str <$> [
  "rs_role"; "rs_max_wire"; "rs_amount_ok"; "rs_owns_reserve"; "rs_owns_merchant"; "rs_daily_cap_ok"; "rs_coin_count";
  "rs_coin_ok"; "rs_denom_ok"; "rs_audit_ok"; "rs_open_reserve"; "rs_peg_in"; "rs_withdraw"; "rs_deposit"; "rs_peg_out";
  "rs_confirm_peg_out"; "rs_cancel_peg_out"; "rs_issue_denom"; "rs_mint"; "rs_transfer"]%string.

(** ** The jobs of the engine thread

    A caller sends a job and waits for the reply. A query that panics ends the
    thread; a command whose primitive panics ends the process. *)
Section jobs.
Context {T : Type} `{Taler T, !StateCodec T} {X : Type} `{Storage X} `{Sha256, HexText}.
Variable f : Z → Z → stm (est (T:=T) (X:=X)) bytes Z.

Inductive Job := Call (c : Cmd) | Query (r : Read).
Definition round_trip (j : Job) : stm (bool * est (T:=T) (X:=X)) ApiError json := λ '(alive, s),
  if negb alive then ((false, s), Err (unavailable "the exchange engine is not running"))
  else match j with
  | Call c => let '(s, r) := run_cmd f c s in ((true, s), r)
  | Query r =>
      match read_state (e_rt s) r with
      | Panic => ((false, s), Err (unavailable "the exchange engine dropped the request"))
      | r => ((true, s), r)
      end
  end.
Definition call (c : Cmd) : stm (bool * est (T:=T) (X:=X)) ApiError json := round_trip (Call c).
Definition read (r : Read) : stm (bool * est (T:=T) (X:=X)) ApiError json := round_trip (Query r).
End jobs.

Section boot.
Context {J : Type} `{ClifModule J, !JitBackend J}.
Context {T : Type} `{Taler T, !StateCodec T} {X : Type} `{Storage X} `{TomlText}.
Variables (jclock : nat → Z) (ft : features) (hash_order : gmap bytes func_id → list (bytes * func_id)) (panic_reason : bytes).
(** The addresses of the [rs_*] functions, the value of [LD_LIBRARY_PATH], and
    the front-end: its arguments and library path give its status and its
    standard error. *)
Variable prim_addr : bytes → Z.
Variable ld_library_path : option bytes.
Variable austral : bytes → list bytes → option bytes → stm X bytes (bytes * bytes).

Record boot_state := Boot { b_thread : thread (J:=J); b_engine : est (T:=T) (X:=X) }.
Abbreviation bm := (stm boot_state bytes).

Definition on_files {A} (m : stm X bytes A) : bm A := λ s,
  let e := b_engine s in let '(x, r) := m (e_x e) in (Boot (b_thread s) (Est (e_rt e) (e_ctx e) (e_tick e) x), r).
Definition on_engine {A} (m : stm est bytes A) : bm A := λ s, let '(e, r) := m (b_engine s) in (Boot (b_thread s) e, r).
Definition map_err {A} (f : bytes → bytes) (m : bm A) : bm A := λ s,
  match m s with (s, Err e) => (s, Err (f e)) | (s, r) => (s, r) end.

Definition put_statics (l : list (bytes * Z)) (t : thread (J:=J)) : thread :=
  {| t_jit := t_jit t; t_error := t_error t; t_module := t_module t; t_exports := t_exports t;
     t_auth := t_auth t; t_tick := t_tick t; t_statics := l |}.
Definition put_auth (a : Auth.AuthState) (t : thread (J:=J)) : thread :=
  {| t_jit := t_jit t; t_error := t_error t; t_module := t_module t; t_exports := t_exports t;
     t_auth := a; t_tick := t_tick t; t_statics := t_statics t |}.

Definition register_one (name : bytes) : bm () := map_err (λ e, str "register " ++ name ++ str ": " ++ e) (λ s,
  let t := b_thread s in
  let '(l, r) := Symbols.register_static_symbol (bool_decide (is_Some (t_jit t))) name (prim_addr name) (t_statics t) in
  (Boot (put_statics l t) (b_engine s), r)).
Definition register_primitives : bm () := stm_foldl (λ _ name, register_one name) () primitives.

Definition install_manifest (path b : bytes) : bm () := λ s,
  let '(a, rc) := Auth.safestos_load_auth_manifest (Some b) (t_auth (b_thread s)) in
  (Boot (put_auth a (b_thread s)) (b_engine s),
   if rc =? 1 then Ok ()
   else Err (str "the auth manifest " ++ path ++ str " was rejected (malformed TOML or unknown schema)")).
Definition load_manifest (path : bytes) : bm () :=
  o ← map_err (λ e, str "read " ++ path ++ str ": " ++ e) (on_files (st_read path));
  match o with None => stm_err (str "read " ++ path ++ str ": not found") | Some b => install_manifest path b end.

Definition read_cps (path : bytes) (label : String.string) : bm bytes :=
  o ← map_err (λ e, str label ++ path ++ str ": " ++ e) (on_files (st_read path));
  match o with None => stm_err (str label ++ path ++ str ": not found") | Some b => mret b end.

Definition exists_ (path : bytes) : bm bool := on_files (λ x, let '(x, b) := st_exists path x in (x, Ok b)).

Definition library_path (cfg : EngineConfig) : option bytes :=
  dir ← ModuleHost.path_parent (cfg_austral_bin cfg);
  Some (dir ++ match ld_library_path with Some old => str ":" ++ from_utf8_lossy old | None => [] end).

Definition ensure_cps (cfg : EngineConfig) : bm bytes :=
  let path := cfg_cps_path cfg in
  here ← exists_ path;
  if here : bool then read_cps path "read CPS " else
  match ModuleHost.path_parent path with
  | None => stm_err (path ++ str " has no parent")
  | Some out_dir =>
      _ ← map_err (λ e, str "create " ++ out_dir ++ str ": " ++ e) (on_files (st_create_dir out_dir));
      out ← map_err (λ e, str "spawn " ++ cfg_austral_bin cfg ++ str ": " ++ e)
        (on_files (austral (cfg_austral_bin cfg)
           [str "compile"; cfg_module_path cfg; str "--use-cps-jit"; str "--allow-all"; str "--target-type=tc"; str "--emit-cps=" ++ path]
           (library_path cfg)));
      made ← exists_ path;
      if negb made then
        stm_err (str "the Austral front-end produced no CPS (status " ++ out.1 ++ str "): " ++ from_utf8_lossy out.2)
      else read_cps path "read "
  end.

Definition compile_kernel (cps : bytes) : bm Z := λ s,
  let '(t, r) := compile_to_function_named jclock ft hash_order panic_reason (Some cps) (Some (str "apply")) (b_thread s) in
  (Boot t (b_engine s), r).

Definition no_kernel : bm Z := λ s,
  let msg := match cranelift_last_error (b_thread s) with
             | None => str "policy JIT returned no function"
             | Some e => from_utf8_lossy e
             end in
  (s, Err (str "compiling the Austral policy kernel failed: " ++ msg)).

Definition boot (cfg : EngineConfig) : bm Z :=
  _ ← register_primitives;
  _ ← load_manifest (cfg_manifest_path cfg);
  _ ← on_engine (open cfg);
  cps ← ensure_cps cfg;
  f ← compile_kernel cps;
  if f =? 0 then no_kernel else mret f.
End boot.

Section safe.
Context {J : Type} `{JitSafe.JitLaws J}.
Context {T : Type} `{Taler T, !StateCodec T} {X : Type} `{Storage X} `{TomlText}.
Variables (jclock : nat → Z) (ft : features) (hash_order : gmap bytes func_id → list (bytes * func_id)) (panic_reason : bytes).
Variables (prim_addr : bytes → Z) (ld_library_path : option bytes) (austral : bytes → list bytes → option bytes → stm X bytes (bytes * bytes)).
Local Abbreviation state := (boot_state (J:=J) (T:=T) (X:=X)).

Lemma set_slot_elem name a reg reg' : Symbols.set_slot name a reg = Some reg' → (name, a) ∈ reg' ∧ ∀ n b, n ≠ name → (n, b) ∈ reg → (n, b) ∈ reg'.
Proof.
  revert reg'. induction reg as [|[n b] reg IH]; intros reg' E; cbn in E; [done|]. case_bool_decide as En.
  - injection E as <-. subst n. set_solver.
  - apply bind_Some in E as (reg1 & E1 & [= <-]). destruct (IH _ E1). set_solver.
Qed.

Lemma register_one_spec name (s s' : state) :
  register_one prim_addr name s = (s', Ok ()) →
  b_engine s' = b_engine s ∧ t_auth (b_thread s') = t_auth (b_thread s) ∧
  (name, prim_addr name) ∈ t_statics (b_thread s') ∧
  ∀ n b, n ≠ name → (n, b) ∈ t_statics (b_thread s) → (n, b) ∈ t_statics (b_thread s').
Proof.
  unfold register_one, map_err. intros E.
  destruct (Symbols.register_static_symbol _ name _ _) as [l r] eqn:Er. destruct r as [[]|e|]; simplify_eq. cbn.
  split; [done|]. split; [done|]. unfold Symbols.register_static_symbol in Er.
  case_bool_decide; [done|]. destruct (_ =? 0); [done|]. case_bool_decide; [done|].
  destruct (Symbols.set_slot _ _ _) as [reg|] eqn:Es; injection Er as <-; [by apply set_slot_elem|]. set_solver.
Qed.

Lemma register_all_spec names (s s' : state) :
  NoDup names → stm_foldl (λ _ name, register_one prim_addr name) () names s = (s', Ok ()) →
  b_engine s' = b_engine s ∧ t_auth (b_thread s') = t_auth (b_thread s) ∧
  (∀ n, n ∈ names → (n, prim_addr n) ∈ t_statics (b_thread s')) ∧
  ∀ n b, n ∉ names → (n, b) ∈ t_statics (b_thread s) → (n, b) ∈ t_statics (b_thread s').
Proof.
  intros Hn. revert s. induction Hn as [|name names Hni Hn IH]; intros s E; cbn in E; [injection E as <-; set_solver|].
  apply CpsFuse.CpsFuse.bind_inv_ok in E as (s1 & [] & E1 & E). apply register_one_spec in E1 as (He1 & Ha1 & Hs1 & Hk1).
  apply IH in E as (He & Ha & Hs & Hk). split_and!; [congruence..| |].
  - intros n [->|Hin]%elem_of_cons; [by apply Hk|by apply Hs].
  - intros n b [? ?]%not_elem_of_cons Hin. apply Hk; [done|]. by apply Hk1.
Qed.

Lemma load_manifest_spec path (s s' : state) :
  t_auth (b_thread s) = Auth.auth_init → load_manifest path s = (s', Ok ()) →
  t_statics (b_thread s') = t_statics (b_thread s) ∧ e_rt (b_engine s') = e_rt (b_engine s) ∧
  ∃ text man, Auth.accepted text = Some man ∧
    ∀ e now p r, Auth.au_engine (t_auth (b_thread s')) = Some e →
      Auth.check_with e now p (str "Call") r = Ok () → Auth.grants_call man p r.
Proof.
  unfold load_manifest. intros Hi E. apply CpsFuse.CpsFuse.bind_inv_ok in E as (s1 & o & E1 & E).
  assert (b_thread s1 = b_thread s ∧ e_rt (b_engine s1) = e_rt (b_engine s)) as [Ht1 Hr1].
  { unfold map_err, on_files in E1. destruct (st_read path _) as [x [?|?|]]; by simplify_eq. }
  destruct o as [b|]; [|done]. unfold install_manifest in E. pose proof (Auth.load_spec b (t_auth (b_thread s1))) as Hl.
  rewrite Ht1, Hi in *. destruct (Auth.safestos_load_auth_manifest (Some b) Auth.auth_init) as [a rc] eqn:Ea.
  destruct (rc =? 1) eqn:Erc; [|done]. injection E as <-. cbn. split_and!; [done..|].
  destruct (Auth.accepted b) as [man|] eqn:Eacc.
  2:{ exfalso. unfold Auth.accepted in Eacc. unfold Auth.safestos_load_auth_manifest in Ea.
      destruct (bool_decide (b = [])); cbn in Eacc; [injection Ea as _ <-; done|].
      destruct (utf8_valid b); cbn in Eacc, Ea; [|injection Ea as _ <-; done].
      destruct (Auth.from_toml_str b) as [e|e|] eqn:Ef; [|injection Ea as _ <-; done..].
      destruct (Auth.from_toml_granted b e [] [] Ef) as (m & Hm & _). by rewrite Hm in Eacc. }
  exists b, man. split; [done|]. destruct Hl as (e & Ef & Hm & Hl). cbn in Hl. intros e' now p r He Hc.
  rewrite Hl in He. cbn in He. injection He as <-.
  unfold Auth.check_with, Auth.authorize, Auth.dyn_authorize in Hc. cbn in Hc. unfold Auth.manifest_engine in Hc.
  destruct (Auth.is_granted _ p r) eqn:Eg in Hc; [|done].
  apply Auth.merge_granted in Eg as [Eg|Eg]; [done|]. destruct (Auth.from_toml_granted b e p r Ef) as (m & Hm' & _ & Hg & _).
  rewrite Hm in Hm'. injection Hm' as <-. by apply Hg.
Qed.

Lemma open_spec cfg (e e' : est (T:=T) (X:=X)) :
  open cfg e = (e', Ok ()) → ∃ rt, e_rt e' = Some rt ∧ rt_cfg rt = cfg.
Proof.
  unfold open. destruct (st_read _ _) as [x [[b|]|er|]]; [| |done..].
  - destruct (decode_state b) as [p|]; [|done]. destruct (from_snapshot _ _) as [ex|er|]; [|done..]. intros [= <-]. by eexists.
  - unfold save. cbn. destruct (encode_state _) as [b|]; [|done]. destruct (st_write_atomic _ _ _) as [x' r].
    intros [= <- ->]. by eexists.
Qed.

(** Reading the kernel leaves the runtime and the thread alone. *)
Definition keeps (s s' : state) : Prop := b_thread s' = b_thread s ∧ e_rt (b_engine s') = e_rt (b_engine s).
Lemma keeps_trans s1 s2 s3 : keeps s1 s2 → keeps s2 s3 → keeps s1 s3.
Proof. unfold keeps. intros [-> ->] [-> ->]. done. Qed.
Lemma on_files_keeps {A} f (m : stm X bytes A) (s s' : state) a : map_err f (on_files m) s = (s', Ok a) → keeps s s' ∧ ∃ x x', m x = (x', Ok a).
Proof. unfold map_err, on_files. destruct (m _) as [x' [?|?|]] eqn:E; intros; simplify_eq. split; [done|eauto]. Qed.

Lemma exists_keeps path (s s' : state) b : exists_ path s = (s', Ok b) → keeps s s' ∧ ∃ x x', st_exists path x = (x', b).
Proof. unfold exists_, on_files. destruct (st_exists path _) as [x c] eqn:E. intros [= <- <-]. split; [done|eauto]. Qed.
Lemma read_cps_spec path l (s s' : state) b :
  read_cps path l s = (s', Ok b) → keeps s s' ∧ ∃ x x', st_read path x = (x', Ok (Some b)).
Proof.
  unfold read_cps. intros (s1 & o & [Hk Hr]%on_files_keeps & E)%CpsFuse.CpsFuse.bind_inv_ok.
  destruct o as [c|]; [|done]. injection E as <- <-. done.
Qed.

Lemma ensure_cps_spec cfg (s s' : state) b :
  ensure_cps ld_library_path austral cfg s = (s', Ok b) → keeps s s' ∧ ∃ x x', st_read (cfg_cps_path cfg) x = (x', Ok (Some b)).
Proof.
  unfold ensure_cps. intros (s1 & here & [Hk1 _]%exists_keeps & E)%CpsFuse.CpsFuse.bind_inv_ok.
  destruct here; [apply read_cps_spec in E as [Hk ?]; split; [by eapply keeps_trans|done]|].
  destruct (ModuleHost.path_parent _) as [d|]; [|done].
  apply CpsFuse.CpsFuse.bind_inv_ok in E as (s2 & [] & [Hk2 _]%on_files_keeps & E).
  apply CpsFuse.CpsFuse.bind_inv_ok in E as (s3 & out & [Hk3 _]%on_files_keeps & E).
  apply CpsFuse.CpsFuse.bind_inv_ok in E as (s4 & made & [Hk4 _]%exists_keeps & E).
  destruct made; [|done]. apply read_cps_spec in E as [Hk5 Hr]. split; [|done].
  do 3 (eapply keeps_trans; [eassumption|]).
  by eapply keeps_trans.
Qed.

Lemma compile_statics ir name (t : thread (J:=J)) :
  t_statics (compile_to_function_named jclock ft hash_order panic_reason ir name t).1 = t_statics t.
Proof.
  unfold compile_to_function_named, compile_guarded, compile_to_function_named_impl, mbind, stm_bind.
  assert (t_statics (cranelift_init ft (cranelift_clear_error t)).1 = t_statics t) as Hi.
  { unfold cranelift_init. cbn. destruct (t_jit t); [done|]. by destruct (jit_new _). }
  destruct (cranelift_init _ _) as [t1 [ready|e|]]; [|done..]. cbn in Hi. destruct (ready =? 0); [done|].
  destruct ir as [[|b ir]|]; [done| |done]. destruct (entry_name name) as [ns|]; [|done]. destruct (t_jit t1) as [jit|]; [|done].
  unfold compile_into. destruct (compile_cps_to_clif _ _ _) as [g [m|e|]]; [|done..].
  destruct (finalize_definitions _) as [j [[]|e|]]; [|done..]. unfold select_entry. destruct ns as [|c ns].
  - destruct (default_entry _ _) as [fid|]; [|done]. by destruct (get_finalized_function j fid).
  - destruct (name_map m !! _) as [fid|]; [|done]. by destruct (get_finalized_function j fid).
Qed.

(** The exchange is open under the given configuration, every primitive is
    registered with the bridge, the manifest was accepted, and the compiled
    kernel is the program its file encodes, in which every gated call is one
    the manifest grants. *)
Definition confined (cfg : EngineConfig) (s' : state) (f : Z) : Prop :=
  f ≠ 0 ∧ (∃ rt, e_rt (b_engine s') = Some rt ∧ rt_cfg rt = cfg) ∧
  (∀ n, n ∈ primitives → (n, prim_addr n) ∈ t_statics (b_thread s')) ∧
  ∃ text man cps p trailing, Auth.accepted text = Some man ∧ cps = enc_program p ++ trailing ∧
    (∃ x x', st_read (cfg_cps_path cfg) x = (x', Ok (Some cps))) ∧
    ∀ fd callee, fd ∈ p_funs p → callee ∈ calls_stmts (fd_body fd) → is_gated (from_utf8_lossy (fd_name fd)) callee = true →
      callee ∈ Auth.gt_kernel (Auth.mt_grants man) ∨ callee ∈ Auth.gt_zenodo (Auth.mt_grants man).
Lemma confined_keeps cfg (s s' : state) f : keeps s s' → confined cfg s f → confined cfg s' f.
Proof. unfold confined. by intros [-> ->]. Qed.

(** A booted engine is confined to its manifest. *)
Lemma boot_gated cfg (s s' : state) f :
  (∀ p x x' b, st_read p x = (x', Ok (Some b)) → buffer b) →
  t_auth (b_thread s) = Auth.auth_init →
  boot jclock ft hash_order panic_reason prim_addr ld_library_path austral cfg s = (s', Ok f) →
  confined cfg s' f.
Proof.
  intros Hb Hi E. unfold boot in E.
  apply CpsFuse.CpsFuse.bind_inv_ok in E as (s1 & [] & E1 & E). apply register_all_spec in E1 as (He1 & Ha1 & Hs1 & _);
    [|by apply (bool_decide_unpack _); vm_compute].
  apply CpsFuse.CpsFuse.bind_inv_ok in E as (s2 & [] & E2 & E).
  apply load_manifest_spec in E2 as (Hs2 & _ & text & man & Hacc & Hg); [|congruence].
  apply CpsFuse.CpsFuse.bind_inv_ok in E as (s3 & [] & E3 & E). unfold on_engine in E3.
  destruct (open cfg (b_engine s2)) as [e3 r3] eqn:Eo. injection E3 as <- ->. apply open_spec in Eo as (rt & Hrt & Hcfg).
  apply CpsFuse.CpsFuse.bind_inv_ok in E as (s4 & cps & E4 & E). apply ensure_cps_spec in E4 as ([Ht4 Hr4] & Hcps). cbn in Ht4, Hr4.
  apply CpsFuse.CpsFuse.bind_inv_ok in E as (s5 & q & E5 & E). unfold compile_kernel in E5.
  destruct (compile_to_function_named _ _ _ _ _ _ _) as [t5 r5] eqn:Ec. injection E5 as <- ->.
  destruct (q =? 0) eqn:Eq; [done|]. injection E as <- <-. apply Z.eqb_neq in Eq. split; [done|].
  split; [exists rt; cbn; by rewrite Hr4|].
  split. { intros n Hn. pose proof (compile_statics (Some cps) (Some (str "apply")) (b_thread s4)) as Hst. rewrite Ec in Hst. cbn in Hst |- *.
    rewrite Hst, Ht4, Hs2. by apply Hs1. }
  apply JitSafe.compile_pointer in Ec as (_ & jit & g & g' & m & j & u & ns & fid & _ & _ & _ & Hau & Ec & _); [|done].
  destruct Hcps as (x & x' & Hcps). apply CpsGate.compile_gated in Ec as (_ & p & tr & -> & _ & _ & Hp); [|by eapply Hb].
  exists text, man, (enc_program p ++ tr), p, tr. split_and!; [done..|by eauto|].
  intros fd callee Hfd Hcal Hgate. destruct (Hp fd callee Hfd Hcal Hgate) as (e & k & He & Hc).
  rewrite Hau, Ht4 in He. by destruct (Hg _ _ _ _ He Hc).
Qed.
End safe.
End RefiBoot.
