(* ===== verification/RefiContent.v ===== *)
(** * Pages and their markup ([refi/src/content.rs])

    The page store, and the Markdown renderer. The theorems: rendering always
    ends, and its output is text free of markup characters together with the
    renderer's own tags; slugs identify pages and revisions count saves. *)

From S2P Require Import Prelude Text RefiUtil RefiEngine RefiRead.
Import RefiUtil RefiEngine.

Module RefiContent.

Record Page := {
  pg_slug : bytes; pg_title : bytes; pg_body : bytes; pg_published : bool; pg_updated_at : Z; pg_author : bytes; pg_revision : Z
}.
Record ContentStore := { cs_pages : list Page; cs_seeded : bool }.
Definition content_default : ContentStore := {| cs_pages := []; cs_seeded := false |}.

(** ** Storage ([serde_json] as an interface) *)
Class ContentCodec := { encode_content : ContentStore → option bytes; decode_content : bytes → option ContentStore }.
Section files.
Context {X : Type} `{Storage X, ContentCodec}.
Definition load_content (path : bytes) : stm X bytes ContentStore := λ x,
  let '(x, r) := st_read path x in
  (x, match r with
      | Ok (Some b) => match decode_content b with
                       | Some c => Ok c
                       | None => Err (str "content file " ++ path ++ str " is not valid: ")
                       end
      | Ok None => Ok content_default
      | Err e => Err (str "read " ++ path ++ str ": " ++ e)
      | Panic => Panic
      end).
Definition save_content (path : bytes) (c : ContentStore) : stm X bytes () :=
  match encode_content c with None => stm_err (str "encode content: ") | Some b => st_write_atomic path b end.
End files.

(** ** The store; [now] is the clock where it is read *)

(** The seed pages. *)
Definition about_body : bytes := str "This service is the web front of the unfer ReFi exchange: GNU Taler-style settlement (reserves, withdraw, deposit, peg-out) over the unfer carbon-certificate ledger.

Carbon certificates are minted against a UNFCCC provenance reference and settle through the same e-coin ledger as fiat-backed value. Every state transition is signed and replayable, so an independent node can recompute the ledger root.

## What the ledger guarantees

- Minting requires the configured mint authority.
- A transfer conserves total value exactly.
- A coin has exactly one spend (nullifier bookkeeping).
- The fiat side never leaks: `fiat_in - fiat_out` always equals reserves + merchant balances + outstanding e-coins.
".
Definition sandbox_body : bytes := str "**This deployment runs sandbox settlement.** Bank wires are simulated by the service itself: a peg-in is booked and confirmed in-process, and a peg-out is a reserved wire an operator confirms. No fiat moves. Denominations and amounts are integers in the sandbox unit, and no real-world money, securities or carbon instruments change hands.

The regulatory surface of a live deployment (VASP registration, custody, commodity-backed e-coin treatment) is out of scope here and is unchanged from the project plan.
".
Definition registry_body : bytes := str "Each row is a certificate minted by the treasury. `source` is the provenance reference recorded on the consensus op — for carbon certificates that is a UNFCCC cancellation reference. `status` is derived by replaying the op log against the current unspent set: a spent row is history, an unspent row is a live certificate.

The ledger root shown on the home page is the sparse-Merkle commitment over the unspent set, so two nodes that replay the same log agree on it.
".
Definition seed_pages : list (bytes * bytes * bytes) :=
  [(str "about", str "About this exchange", about_body);
   (str "sandbox", str "Sandbox settlement notice", sandbox_body);
   (str "registry", str "How to read the registry", registry_body)].
Definition seed_if_empty (now : Z) (c : ContentStore) : ContentStore :=
  if cs_seeded c then c
  else {| cs_seeded := true;
          cs_pages := cs_pages c ++ ((λ '(slug, title, body),
            {| pg_slug := slug; pg_title := title; pg_body := body; pg_published := true; pg_updated_at := now;
               pg_author := str "bootstrap"; pg_revision := 1 |}) <$> seed_pages) |}.

Definition by_slug (c : ContentStore) (slug : bytes) : option Page := head (filter (λ p, pg_slug p = slug) (cs_pages c)).

(** [a.slug.cmp(&b.slug)] *)
Definition slug_le (a b : Page) : bool := digest_leb (pg_slug a) (pg_slug b).
Definition published (c : ContentStore) : list Page := RefiRead.sort slug_le (filter (λ p, pg_published p = true) (cs_pages c)).
Definition public_slugs (c : ContentStore) : list (bytes * bytes) := (λ p, (pg_slug p, pg_title p)) <$> published c.

(** [iter_mut().find(|p| p.slug == slug)], changed by [f]. *)
Fixpoint update_slug {E} (slug : bytes) (f : Page → res E Page) (l : list Page) : res E (option (Page * list Page)) :=
  match l with
  | [] => Ok None
  | p :: l =>
      if bool_decide (pg_slug p = slug) then q ← f p; Ok (Some (q, q :: l))
      else r ← update_slug slug f l;
           Ok (match r with Some (q, l') => Some (q, p :: l') | None => None end)
  end.

Definition put_slug (slug : option bytes) (title : bytes) : bytes :=
  match slug with
  | Some s => if bool_decide (trim s = []) then slugify title else slugify s
  | None => slugify title
  end.

Definition put {E} (slug : option bytes) (title body : bytes) (pub : bool) (author : bytes) (now : Z) (c : ContentStore) : res E (Page * ContentStore) :=
  let slug := put_slug slug title in
  r ← update_slug slug (λ p, rev ← checked_u64 (pg_revision p + 1);
        Ok {| pg_slug := pg_slug p; pg_title := title; pg_body := body; pg_published := pub; pg_updated_at := now;
              pg_author := author; pg_revision := rev |}) (cs_pages c);
  match r with
  | Some (page, pages) => Ok (page, {| cs_pages := pages; cs_seeded := cs_seeded c |})
  | None =>
      let page := {| pg_slug := slug; pg_title := title; pg_body := body; pg_published := pub; pg_updated_at := now;
                     pg_author := author; pg_revision := 1 |} in
      Ok (page, {| cs_pages := cs_pages c ++ [page]; cs_seeded := cs_seeded c |})
  end.

Definition delete (slug : bytes) (c : ContentStore) : bool * ContentStore :=
  let pages := filter (λ p, pg_slug p ≠ slug) (cs_pages c) in
  (negb (Nat.eqb (length pages) (length (cs_pages c))), {| cs_pages := pages; cs_seeded := cs_seeded c |}).

(** ** The renderer *)
Definition starts_with_any (ps : list String.string) (s : bytes) : bool := existsb (λ p, starts_with (str p) s) ps.

Definition link (url label : bytes) : bytes :=
  str "<a href=" ++ [Byte.x22] ++ url ++ [Byte.x22] ++ str " rel=" ++ [Byte.x22] ++ str "noopener noreferrer" ++ [Byte.x22] ++ str ">" ++ label ++ str "</a>".

(** One round of the loop: the first ['['], then ["]("], then [')']. *)
Definition link_step (s : bytes) : option bytes :=
  '(pre, rest) ← split_once (str "[") s;
  '(label, rest) ← split_once (str "](") rest;
  '(url, post) ← split_once (str ")") rest;
  Some (pre ++ (if starts_with_any ["https://"; "http://"]%string url then link url label else label) ++ post).

(** The number of ['['] goes down each round. *)
Definition brackets (s : bytes) : nat := length (filter (λ c, c = Byte.x5b) s).
Fixpoint links (fuel : nat) (s : bytes) : option bytes :=
  match link_step s with
  | None => Some s
  | Some s' => match fuel with O => None | S fuel => links fuel s' end
  end.

Inductive marker := Bold | CodeSpan.
Definition mark (m : marker) : bytes := match m with Bold => str "**" | CodeSpan => [Byte.x60] end.
Definition open_tag (m : marker) : bytes := match m with Bold => str "<strong>" | CodeSpan => str "<code>" end.
Definition close_tag (m : marker) : bytes := match m with Bold => str "</strong>" | CodeSpan => str "</code>" end.

(** The earlier of the two markers, with the text around it. *)
Definition next_marker (rest : bytes) : option (marker * bytes * bytes) :=
  match split_once (str "**") rest, split_once [Byte.x60] rest with
  | Some (b, ab), Some (c, ac) => Some (if (length b <? length c)%nat then (Bold, b, ab) else (CodeSpan, c, ac))
  | Some (b, ab), None => Some (Bold, b, ab)
  | None, Some (c, ac) => Some (CodeSpan, c, ac)
  | None, None => None
  end.
Fixpoint bold_and_code (fuel : nat) (rest : bytes) : option bytes :=
  match next_marker rest with
  | None => Some rest
  | Some (m, before, after) =>
      match fuel with
      | O => None
      | S fuel =>
          match split_once (mark m) after with
          | Some (span, rest) => out ← bold_and_code fuel rest; Some (before ++ open_tag m ++ span ++ close_tag m ++ out)
          | None => out ← bold_and_code fuel after; Some (before ++ mark m ++ out)
          end
      end
  end.

Definition inline (escaped : bytes) : option bytes :=
  s ← links (brackets escaped) escaped; bold_and_code (length s) s.

Definition trim_end (s : bytes) : bytes := reverse (trim_left (reverse <$> whitespace) 0 (reverse s)).

Definition close_list (in_list : bool) : bytes := if in_list then str "</ul>" else [].

Definition element (tag : String.string) (rest : bytes) : option bytes :=
  i ← inline rest; Some (str "<" ++ str tag ++ str ">" ++ i ++ str "</" ++ str tag ++ str ">").

Definition render_line (in_list : bool) (raw : bytes) : option (bytes * bool) :=
  let escaped := escape_html (trim_end raw) in
  let block tag rest := e ← element tag rest; Some (close_list in_list ++ e, false) in
  match strip_prefix (str "### ") escaped with
  | Some rest => block "h4"%string rest
  | None =>
  match strip_prefix (str "## ") escaped with
  | Some rest => block "h3"%string rest
  | None =>
  match strip_prefix (str "# ") escaped with
  | Some rest => block "h2"%string rest
  | None =>
  match strip_prefix (str "- ") escaped with
  | Some rest => e ← element "li" rest; Some ((if in_list then [] else str "<ul>") ++ e, true)
  | None => if bool_decide (trim escaped = []) then Some (close_list in_list, false) else block "p"%string escaped
  end end end end.

Fixpoint render_lines (in_list : bool) (ls : list bytes) : option bytes :=
  match ls with
  | [] => Some (close_list in_list)
  | l :: ls => '(out, in_list) ← render_line in_list l; more ← render_lines in_list ls; Some (out ++ more)
  end.
Definition render_markdown (body : bytes) : option bytes := render_lines false (lines body).

(** ** Rendering ends *)
Lemma brackets_app a b : brackets (a ++ b) = (brackets a + brackets b)%nat.
Proof. unfold brackets. by rewrite filter_app, length_app. Qed.

Lemma link_step_fewer s s' : link_step s = Some s' → (brackets s' < brackets s)%nat.
Proof.
  unfold link_step. intros ([pre r1] & E1 & H1)%bind_Some. apply bind_Some in H1 as ([label r2] & E2 & H2).
  apply bind_Some in H2 as ([url post] & E3 & [= <-]). apply split_once_Some in E1, E2, E3. subst.
  assert (∀ t, brackets (str "[" ++ t) = S (brackets t)) as Ho by done.
  assert (∀ t, brackets (str "](" ++ t) = brackets t ∧ brackets (str ")" ++ t) = brackets t) as Hc by done.
  assert (brackets (pre ++ str "[" ++ label ++ str "](" ++ url ++ str ")" ++ post) =
          S (brackets pre + brackets label + brackets url + brackets post)) as ->.
  { rewrite brackets_app, Ho, brackets_app, (proj1 (Hc _)), brackets_app, (proj2 (Hc _)). lia. }
  assert (brackets (link url label) = (brackets url + brackets label)%nat) as Hl.
  { unfold link. rewrite !brackets_app. change (brackets (str "<a href=")) with 0%nat. change (brackets [Byte.x22]) with 0%nat.
    change (brackets (str " rel=")) with 0%nat. change (brackets (str "noopener noreferrer")) with 0%nat.
    change (brackets (str ">")) with 0%nat. change (brackets (str "</a>")) with 0%nat. lia. }
  match goal with |- context [if ?b then _ else _] => destruct b end; rewrite !brackets_app, ?Hl; lia.
Qed.
Lemma links_total fuel s : (brackets s ≤ fuel)%nat → is_Some (links fuel s).
Proof.
  revert s. induction fuel as [|fuel IH]; intros s Hs; cbn; destruct (link_step s) as [s'|] eqn:E; try by eexists.
  - apply link_step_fewer in E. lia.
  - apply link_step_fewer in E. apply IH. lia.
Qed.

Lemma next_marker_Some rest m before after : next_marker rest = Some (m, before, after) → rest = before ++ mark m ++ after.
Proof.
  unfold next_marker. intros H.
  destruct (split_once (str "**") rest) as [[b ab]|] eqn:E1, (split_once [Byte.x60] rest) as [[c ac]|] eqn:E2; try done;
    [destruct (_ <? _)%nat|..]; injection H as <- <- <-; by apply split_once_Some.
Qed.
Lemma mark_length m : (1 ≤ length (mark m))%nat.
Proof. destruct m; cbn; lia. Qed.
Lemma bold_and_code_total fuel s : (length s ≤ fuel)%nat → is_Some (bold_and_code fuel s).
Proof.
  revert s. induction fuel as [|fuel IH]; intros s Hs; cbn; destruct (next_marker s) as [[[m b] a]|] eqn:E; try by eexists.
  all: apply next_marker_Some in E as ->; pose proof (mark_length m); rewrite !length_app in Hs. { lia. }
  destruct (split_once (mark m) a) as [[span rest]|] eqn:E.
  - apply split_once_Some in E as ->. rewrite !length_app in Hs. destruct (IH rest) as [out ->]; [lia|]. by eexists.
  - destruct (IH a) as [out ->]; [lia|]. by eexists.
Qed.

(** ** Its output is text and the renderer's own tags *)
Definition markup : list bytes :=
  [str "<a href=" ++ [Byte.x22]; [Byte.x22] ++ str " rel=" ++ [Byte.x22] ++ str "noopener noreferrer" ++ [Byte.x22] ++ str ">"] ++
  (str <$> ["</a>"; "<strong>"; "</strong>"; "<code>"; "</code>"; "<h2>"; "</h2>"; "<h3>"; "</h3>"; "<h4>"; "</h4>";
            "<ul>"; "</ul>"; "<li>"; "</li>"; "<p>"; "</p>"]%string).
Inductive safe : bytes → Prop :=
| safe_nil : safe []
| safe_char c s : is_text c = true → safe s → safe (c :: s)
| safe_tag m s : m ∈ markup → safe s → safe (m ++ s).

Lemma safe_app s t : safe s → safe t → safe (s ++ t).
Proof. induction 1; intros Ht; cbn; [done|by apply safe_char; auto|]. rewrite <-app_assoc. apply safe_tag; auto. Qed.
Lemma text_safe s : forallb is_text s = true → safe s.
Proof. induction s as [|c s IH]; cbn; [constructor|]. intros [? ?]%andb_prop. by apply safe_char; auto. Qed.
Lemma markup_safe m : m ∈ markup → safe m.
Proof. intros Hm. rewrite <-(app_nil_r m). by apply safe_tag; [|constructor]. Qed.

(** The characters the renderer cuts at are in none of its tags. *)
Definition cuts (c : byte) : bool := bool_decide (c ∈ [Byte.x5b; Byte.x5d; Byte.x28; Byte.x29; Byte.x2a; Byte.x60]).
Lemma markup_uncut m : m ∈ markup → forallb (λ c, negb (cuts c)) m = true.
Proof.
  assert (Forall (λ m, forallb (λ c, negb (cuts c)) m = true) markup) as H by (repeat constructor).
  rewrite Forall_forall in H. apply H.
Qed.
Lemma safe_cut s : safe s → ∀ a d b, cuts d = true → s = a ++ d :: b → safe a ∧ safe b.
Proof.
  induction 1 as [|c s Hc Hs IH|m s Hm Hs IH]; intros a d b Hd E.
  - by destruct a.
  - destruct a as [|x a]; injection E as -> ->; [by split; [constructor|]|].
    destruct (IH a d b Hd eq_refl). split; [by apply safe_char|done].
  - apply markup_uncut in Hm as Hu. apply app_eq_app in E as (l & [[E1 E2]|[E1 E2]]).
    + destruct l as [|x l]; cbn in E2.
      * rewrite app_nil_r in E1. destruct (IH [] d b Hd (eq_sym E2)). subst a. split; [by apply markup_safe|done].
      * injection E2 as <- E2. rewrite E1, forallb_app in Hu. cbn in Hu. rewrite Hd in Hu. by rewrite andb_false_r in Hu.
    + destruct (IH l d b Hd E2). subst. split; [by apply safe_tag|done].
Qed.
Lemma safe_split pat s a b :
  pat ≠ [] → forallb cuts pat = true → safe s → split_once pat s = Some (a, b) → safe a ∧ safe b.
Proof.
  intros Hp Hc Hs E%split_once_Some. subst s. revert a Hs. induction pat as [|c pat IH]; intros a Hs; [done|].
  cbn in Hc. apply andb_prop in Hc as [Hc Hc']. destruct (safe_cut _ Hs a c (pat ++ b) Hc eq_refl) as [Ha Hb].
  destruct pat as [|c' pat]; [done|]. split; [done|]. by eapply (IH ltac:(done) Hc' []).
Qed.

Lemma link_step_safe s s' : safe s → link_step s = Some s' → safe s'.
Proof.
  unfold link_step. intros Hs ([pre r1] & E1 & H1)%bind_Some. apply bind_Some in H1 as ([label r2] & E2 & H2).
  apply bind_Some in H2 as ([url post] & E3 & [= <-]).
  apply safe_split in E1 as [? Hr1]; [|done..]. apply safe_split in E2 as [? Hr2]; [|done..]. apply safe_split in E3 as [? ?]; [|done..].
  apply safe_app; [done|]. apply safe_app; [|done]. match goal with |- context [if ?b then _ else _] => destruct b end; [|done]. unfold link.
  change (str "<a href=" ++ [Byte.x22] ++ url ++ [Byte.x22] ++ str " rel=" ++ [Byte.x22] ++ str "noopener noreferrer" ++ [Byte.x22] ++ str ">" ++ label ++ str "</a>")
    with ((str "<a href=" ++ [Byte.x22]) ++ url ++ ([Byte.x22] ++ str " rel=" ++ [Byte.x22] ++ str "noopener noreferrer" ++ [Byte.x22] ++ str ">") ++ label ++ str "</a>").
  apply safe_tag; [by left|]. apply safe_app; [done|]. apply safe_tag; [by right; left|]. apply safe_app; [done|].
  apply markup_safe. by right; right; left.
Qed.
Lemma links_safe fuel s s' : safe s → links fuel s = Some s' → safe s'.
Proof.
  revert s. induction fuel as [|fuel IH]; intros s Hs E; cbn in E; destruct (link_step s) as [t|] eqn:Et; simplify_eq; try done.
  eapply IH; [|exact E]. by eapply link_step_safe.
Qed.

Lemma mark_cuts m : mark m ≠ [] ∧ forallb cuts (mark m) = true.
Proof. by destruct m. Qed.
Lemma tags_safe m : safe (open_tag m) ∧ safe (close_tag m) ∧ safe (mark m).
Proof. destruct m; split_and!; first [apply markup_safe; by apply (bool_decide_unpack _); vm_compute|by apply text_safe]. Qed.
Lemma next_marker_safe s m b a : safe s → next_marker s = Some (m, b, a) → safe b ∧ safe a.
Proof.
  intros Hs. unfold next_marker.
  destruct (split_once (str "**") s) as [[x y]|] eqn:E1, (split_once [Byte.x60] s) as [[z w]|] eqn:E2; try done;
    [destruct (_ <? _)%nat|..]; intros [= <- <- <-]; (eapply safe_split; [| |exact Hs|eassumption]; done).
Qed.
Lemma bold_and_code_safe fuel s s' : safe s → bold_and_code fuel s = Some s' → safe s'.
Proof.
  revert s s'. induction fuel as [|fuel IH]; intros s s' Hs E; cbn in E; destruct (next_marker s) as [[[m b] a]|] eqn:En; simplify_eq; try done.
  destruct (next_marker_safe _ _ _ _ Hs En) as [Hb Ha]. destruct (tags_safe m) as (Ho & Hc & Hm).
  destruct (split_once (mark m) a) as [[span rest]|] eqn:Es.
  - apply safe_split in Es as [? ?]; [|apply mark_cuts..|done]. apply bind_Some in E as (out & E & [= <-]). apply IH in E; [|done].
    by repeat apply safe_app.
  - apply bind_Some in E as (out & E & [= <-]). apply IH in E; [|done]. by repeat apply safe_app.
Qed.

Lemma inline_safe s : forallb is_text s = true → ∃ out, inline s = Some out ∧ safe out.
Proof.
  intros Hs%text_safe. unfold inline. destruct (links_total (brackets s) s) as [t Et]; [done|]. rewrite Et. cbn.
  destruct (bold_and_code_total (length t) t) as [out Eo]; [done|]. exists out. split; [done|].
  eapply bold_and_code_safe; [|exact Eo]. by eapply links_safe.
Qed.
Ltac own_tag := apply (bool_decide_unpack _); vm_compute; exact I.
Lemma text_drop s t p : forallb is_text s = true → strip_prefix p s = Some t → forallb is_text t = true.
Proof. intros Hs ->%strip_prefix_Some. rewrite forallb_app in Hs. by apply andb_prop in Hs as [_ ?]. Qed.

Lemma element_safe tag s :
  str "<" ++ str tag ++ str ">" ∈ markup → str "</" ++ str tag ++ str ">" ∈ markup → forallb is_text s = true →
  ∃ out, element tag s = Some out ∧ safe out.
Proof.
  intros H1 H2 Hs. unfold element. destruct (inline_safe s Hs) as (out & -> & Ho). cbn. eexists. split; [done|].
  enough (safe ((str "<" ++ str tag ++ str ">") ++ out ++ (str "</" ++ str tag ++ str ">"))) as Hn.
  { cbn in Hn |- *. rewrite <-!app_assoc in Hn. exact Hn. }
  apply safe_tag; [done|]. apply safe_app; [done|]. by apply markup_safe.
Qed.

Lemma close_list_safe l : safe (close_list l).
Proof. destruct l; [|constructor]. apply markup_safe. own_tag. Qed.

Lemma render_line_safe l raw : ∃ out l', render_line l raw = Some (out, l') ∧ safe out.
Proof.
  unfold render_line. pose proof (escape_html_text (trim_end raw)) as Hx. set (e := escape_html (trim_end raw)) in *.
  pose proof (close_list_safe l) as Hl.
  destruct (strip_prefix (str "### ") e) as [t|] eqn:E1.
  { destruct (element_safe "h4" t) as (out & -> & Ho); [own_tag|own_tag|by eapply text_drop|]. eexists _, _. split; [done|]. by apply safe_app. }
  destruct (strip_prefix (str "## ") e) as [t|] eqn:E2.
  { destruct (element_safe "h3" t) as (out & -> & Ho); [own_tag|own_tag|by eapply text_drop|]. eexists _, _. split; [done|]. by apply safe_app. }
  destruct (strip_prefix (str "# ") e) as [t|] eqn:E3.
  { destruct (element_safe "h2" t) as (out & -> & Ho); [own_tag|own_tag|by eapply text_drop|]. eexists _, _. split; [done|]. by apply safe_app. }
  destruct (strip_prefix (str "- ") e) as [t|] eqn:E4.
  { destruct (element_safe "li" t) as (out & -> & Ho); [own_tag|own_tag|by eapply text_drop|]. eexists _, _. split; [done|]. apply safe_app; [|done].
    destruct l; [constructor|]. apply markup_safe. own_tag. }
  case_bool_decide; [by eexists _, _|].
  destruct (element_safe "p" e) as (out & -> & Ho); [own_tag|own_tag|done|]. eexists _, _. split; [done|]. by apply safe_app.
Qed.

(** C34. Rendering a page always ends, whatever its body, and the result is text
    without markup characters together with the renderer's own tags: a page
    body cannot introduce a tag of its own. *)
Theorem render_markdown_safe body : ∃ out, render_markdown body = Some out ∧ safe out.
Proof.
  unfold render_markdown. generalize false. induction (lines body) as [|l ls IH]; intros b; cbn.
  - eexists. split; [done|]. apply close_list_safe.
  - destruct (render_line_safe b l) as (out & b' & -> & Ho). cbn. destruct (IH b') as (more & -> & Hm). cbn.
    eexists. split; [done|]. by apply safe_app.
Qed.

(** A ['['] inside a link's URL starts a second link inside the first one's
    attribute, whose quotes then end it: the text after it is read as
    attributes of the outer tag. *)
Example nested_link_breaks_quoting :
  inline (str "[a](https://x[b](https:// onmouseover=go x) )") =
  Some (str "<a href=" ++ [Byte.x22] ++ str "https://x<a href=" ++ [Byte.x22] ++ str "https:// onmouseover=go x" ++ [Byte.x22] ++
        str " rel=" ++ [Byte.x22] ++ str "noopener noreferrer" ++ [Byte.x22] ++ str ">a</a> " ++ [Byte.x22] ++
        str " rel=" ++ [Byte.x22] ++ str "noopener noreferrer" ++ [Byte.x22] ++ str ">b</a>").
Proof. vm_compute. reflexivity. Qed.

(** ** The store is keyed by slug *)
Definition slugs (c : ContentStore) : list bytes := pg_slug <$> cs_pages c.

Lemma find_slug_cons p l s :
  head (filter (λ q, pg_slug q = s) (p :: l)) = if bool_decide (pg_slug p = s) then Some p else head (filter (λ q, pg_slug q = s) l).
Proof. rewrite filter_cons. case_decide; case_bool_decide; done. Qed.

Lemma update_slug_spec {E} slug (f : Page → res E Page) l r :
  (∀ p q, f p = Ok q → pg_slug q = pg_slug p) → update_slug slug f l = Ok r →
  match r with
  | None => head (filter (λ q, pg_slug q = slug) l) = None ∧ slug ∉ pg_slug <$> l
  | Some (q, l') =>
      ∃ p, head (filter (λ q, pg_slug q = slug) l) = Some p ∧ f p = Ok q ∧ pg_slug p = slug ∧ pg_slug <$> l' = pg_slug <$> l ∧
      ∀ s, head (filter (λ q, pg_slug q = s) l') = if bool_decide (s = slug) then Some q else head (filter (λ q, pg_slug q = s) l)
  end.
Proof.
  intros Hf. revert r. induction l as [|p l IH]; intros r E0; cbn [update_slug] in E0.
  { injection E0 as <-. split; [done|]. cbn. set_solver. }
  case_bool_decide as Hp.
  - destruct (f p) as [q| |] eqn:Eq; cbn in E0; [|done..]. injection E0 as <-. exists p.
    rewrite find_slug_cons, bool_decide_eq_true_2 by done. split_and!; [done..|by rewrite !fmap_cons, (Hf _ _ Eq)|].
    intros s. rewrite !find_slug_cons, (Hf _ _ Eq). repeat case_bool_decide; congruence.
  - destruct (update_slug slug f l) as [o| |] eqn:El; cbn in E0; [|done..]. injection E0 as <-. specialize (IH _ eq_refl).
    rewrite find_slug_cons, bool_decide_eq_false_2 by done. destruct o as [[q l']|].
    + destruct IH as (p' & Hh & Hq & Hs & Hm & Hl). exists p'. split_and!; [done..|by rewrite !fmap_cons, Hm|].
      intros s. rewrite !find_slug_cons, Hl. repeat case_bool_decide; congruence.
    + destruct IH as [Hh Hs]. split; [done|]. rewrite fmap_cons. set_solver.
Qed.

Lemma delete_spec slug l :
  let l' := filter (λ p, pg_slug p ≠ slug) l in
  negb (Nat.eqb (length l') (length l)) = bool_decide (is_Some (head (filter (λ p, pg_slug p = slug) l))) ∧
  (∀ s, head (filter (λ p, pg_slug p = s) l') = if bool_decide (s = slug) then None else head (filter (λ p, pg_slug p = s) l)) ∧
  (NoDup (pg_slug <$> l) → NoDup (pg_slug <$> l')).
Proof.
  induction l as [|p l (IH1 & IH2 & IH3)]; [split_and!; [done| |done]; intros s; by case_bool_decide|].
  cbn zeta in *. rewrite filter_cons. split_and!.
  - rewrite find_slug_cons. pose proof (length_filter (λ p, pg_slug p ≠ slug) l). case_decide as H1.
    + rewrite (bool_decide_eq_false_2 (pg_slug p = slug)) by done. exact IH1.
    + rewrite (bool_decide_eq_true_2 (pg_slug p = slug)) by (destruct (decide (pg_slug p = slug)); tauto). cbn [length]. rewrite bool_decide_eq_true_2 by eauto.
      apply negb_true_iff, Nat.eqb_neq. lia.
  - intros s. rewrite find_slug_cons. case_decide as H1; [rewrite find_slug_cons|]; rewrite IH2; repeat case_bool_decide; congruence.
  - rewrite fmap_cons, NoDup_cons. intros [Hn Hd]. case_decide; [|by apply IH3]. rewrite fmap_cons. constructor; [|by apply IH3].
    intros (q & Hq & [_ Hin]%list_elem_of_filter)%list_elem_of_fmap. apply Hn. rewrite Hq. by apply list_elem_of_fmap_2.
Qed.

(** The page store is a map from slugs to pages. Saving makes the page the
    one found under its slug, a well-formed slug, with a revision one above the
    page it replaces (or 1), and leaves every other page alone; deleting removes
    it and reports whether it was there; slugs stay unique throughout. *)
Theorem page_store_exact :
  (∀ slug title body pub author now c page c', put (E:=bytes) slug title body pub author now c = Ok (page, c') →
     is_slug (pg_slug page) = true ∧
     pg_revision page = match by_slug c (pg_slug page) with Some old => pg_revision old + 1 | None => 1 end ∧
     (∀ s, by_slug c' s = if bool_decide (s = pg_slug page) then Some page else by_slug c s) ∧
     (NoDup (slugs c) → NoDup (slugs c'))) ∧
  (∀ slug c, let '(found, c') := delete slug c in
     found = bool_decide (is_Some (by_slug c slug)) ∧
     (∀ s, by_slug c' s = if bool_decide (s = slug) then None else by_slug c s) ∧
     (NoDup (slugs c) → NoDup (slugs c'))).
Proof.
  split.
  - intros slug title body pub author now c page c' E. unfold put in E.
    assert (is_slug (put_slug slug title) = true) as Hs.
    { unfold put_slug. destruct slug as [s|]; [case_bool_decide|]; apply slugify_slug. }
    set (sl := put_slug slug title) in *.
    destruct (update_slug sl _ _) as [o| |] eqn:Eu; cbn in E; [|done..].
    apply update_slug_spec in Eu; [|intros p q Hq; cbn in Hq; unfold checked_u64 in Hq; destruct (_ && _); [by injection Hq as <-|done]].
    destruct o as [[q l]|]; injection E as <- <-.
    + destruct Eu as (p & Hh & Hq & Hp & Hm & Hl). cbn in Hq. unfold checked_u64 in Hq. destruct (_ && _); [|done]. injection Hq as <-. cbn in *.
      subst sl. rewrite Hp. unfold by_slug. rewrite Hh. split_and!; try done.
      * intros s. cbn [cs_pages]. rewrite Hl. by rewrite Hp.
      * unfold slugs. cbn [cs_pages]. by rewrite Hm.
    + destruct Eu as [Hh Hn]. unfold by_slug, slugs. cbn [cs_pages pg_slug pg_revision]. rewrite Hh. split_and!; try done.
      * intros s. rewrite filter_app, head_app. cbn [filter list_filter]. case_bool_decide as E1.
        -- subst s. rewrite Hh. cbn. by rewrite decide_True.
        -- rewrite decide_False by (cbn; congruence). by destruct (head (filter (λ p, pg_slug p = s) (cs_pages c))).
      * intros Hd. rewrite fmap_app. apply NoDup_app. split_and!; [done|set_solver|apply NoDup_singleton].
  - intros slug c. unfold delete, by_slug, slugs. cbn [cs_pages]. apply delete_spec.
Qed.
End RefiContent.
