(* ===== verification/RefiHttp.v ===== *)
(** * HTTP/1.1 on the wire ([refi/src/server.rs], [refi/src/mm0.rs])

    The parser of requests and the printer of responses of the server, and the
    printer of requests and the parser of responses of the client. *)

From S2P Require Import Prelude Text RefiUtil RefiJson.
Import RefiUtil RefiJson.

Module RefiHttp.

Definition MAX_CONNECTIONS : Z := 256.
Definition MAX_HEAD : Z := 64 * 1024.
Definition MAX_BODY : Z := 256 * 1024.

(** ** Reading

    What a peer sends until it closes, or until the read fails ([true]). *)
Record stream := Stream { sr_bytes : bytes; sr_fails : bool }.

(** [BufRead::read_line]: up to and with the next line feed; a line that is not
    UTF-8 is an error. *)
Fixpoint cut_line (s : bytes) : option (bytes * bytes) :=
  match s with
  | [] => None
  | c :: s => if bool_decide (c = LF) then Some ([c], s)
              else '(l, rest) ← cut_line s; Some (c :: l, rest)
  end.
Definition read_line (s : stream) : res () (bytes * stream) :=
  match cut_line (sr_bytes s) with
  | Some (l, rest) => if utf8_valid l then Ok (l, Stream rest (sr_fails s)) else Err ()
  | None => if sr_fails s then Err () else if utf8_valid (sr_bytes s) then Ok (sr_bytes s, Stream [] false) else Err ()
  end.
(** [Read::read_exact] and [Read::read_to_end]. *)
Definition read_exact (n : Z) (s : stream) : res () (bytes * stream) :=
  if n <=? Zlen (sr_bytes s) then Ok (take (Z.to_nat n) (sr_bytes s), Stream (drop (Z.to_nat n) (sr_bytes s)) (sr_fails s)) else Err ().
Definition read_to_end (s : stream) : res () bytes := if sr_fails s then Err () else Ok (sr_bytes s).

(** [trim_end_matches(['\r', '\n'])] *)
Fixpoint drop_eol (s : bytes) : bytes :=
  match s with c :: t => if bool_decide (c = CR ∨ c = LF) then drop_eol t else s | [] => [] end.
Definition trim_eol (s : bytes) : bytes := reverse (drop_eol (reverse s)).

Definition starts (p : String.string) (s : bytes) : bool := bool_decide (is_Some (strip_prefix (str p) s)).

(** ** The server *)
Abbreviation refusal := (Z * bytes)%type.
Definition refuse {A} (status : Z) (message : String.string) : res refusal A := Err (status, str message).
Definition or_refuse {A} (r : res () A) (status : Z) (message : String.string) : res refusal A :=
  match r with Ok a => Ok a | Err _ => refuse status message | Panic => Panic end.

Record head_state := { hs_headers : list (bytes * bytes); hs_length : option Z; hs_chunked : bool }.

(** One header line. *)
Definition header_line (trimmed : bytes) (h : head_state) : res refusal head_state :=
  match split_once (str ":") trimmed with
  | None => refuse 400 "malformed header"
  | Some (name, value) =>
      let name := to_ascii_lowercase (trim name) in
      let value := trim value in
      h ← (if bool_decide (name = str "content-length") then
             match parse_uint (2 ^ 64) value with
             | Some n => Ok {| hs_headers := hs_headers h; hs_length := Some n; hs_chunked := hs_chunked h |}
             | None => refuse 400 "invalid Content-Length"
             end
           else Ok {| hs_headers := hs_headers h; hs_length := hs_length h;
                      hs_chunked := hs_chunked h || (bool_decide (name = str "transfer-encoding") && eq_ignore_ascii_case value (str "chunked")) |});
      let headers := hs_headers h ++ [(name, value)] in
      if 100 <? Zlen headers then refuse 431 "too many headers"
      else Ok {| hs_headers := headers; hs_length := hs_length h; hs_chunked := hs_chunked h |}
  end.

(** The loop over the headers. At most 100 are kept, so 101 rounds are enough. *)
Fixpoint read_headers (fuel : nat) (head_bytes : Z) (h : head_state) (s : stream) : res refusal (head_state * stream) :=
  '(line, s) ← or_refuse (read_line s) 400 "could not read headers";
  if Zlen line =? 0 then refuse 400 "connection closed mid-headers"
  else
    let head_bytes := head_bytes + Zlen line in
    if MAX_HEAD <? head_bytes then refuse 431 "request headers too large"
    else
      let trimmed := trim_eol line in
      if bool_decide (trimmed = []) then Ok (h, s)
      else h ← header_line trimmed h;
           match fuel with O => Panic | S fuel => read_headers fuel head_bytes h s end.

Definition read_request (peer : bytes) (s : stream) : res refusal (HttpRequest * bool * stream) :=
  '(line, s) ← or_refuse (read_line s) 400 "could not read the request line";
  if Zlen line =? 0 then refuse 400 "empty request"
  else
    let parts := split_whitespace (trim_eol line) in
    let method := default [] (parts !! 0%nat) in
    let target := default [] (parts !! 1%nat) in
    let version := default [] (parts !! 2%nat) in
    if bool_decide (method = []) || negb (starts "/" target) || negb (starts "HTTP/1." version) then refuse 400 "malformed request line"
    else
      '(h, s) ← read_headers 101 (Zlen line) {| hs_headers := []; hs_length := None; hs_chunked := false |} s;
      if hs_chunked h then refuse 411 "chunked bodies are not supported; send Content-Length"
      else
        let len := default 0 (hs_length h) in
        if MAX_BODY <? len then refuse 413 "request body exceeds 256 kB"
        else
          '(body, s) ← (if 0 <? len then or_refuse (read_exact len s) 400 "truncated request body" else Ok ([], s));
          let '(path, raw_query) := default (target, []) (split_once (str "?") target) in
          query ← mapM_res decode_pair (filter (λ p, p ≠ []) (split Byte.x26 raw_query));
          let head_only := eq_ignore_ascii_case method (str "HEAD") in
          Ok ({| rq_method := if head_only then str "GET" else method; rq_path := path; rq_query := query; rq_headers := hs_headers h;
                 rq_body := body; rq_peer := peer; rq_secure := false |}, head_only, s).

Definition reasons : list (Z * bytes) := (λ '(a, b), (a, str b)) <$> [
  (200, "OK"); (201, "Created"); (202, "Accepted"); (204, "No Content"); (303, "See Other"); (304, "Not Modified");
  (400, "Bad Request"); (401, "Unauthorized"); (403, "Forbidden"); (404, "Not Found"); (405, "Method Not Allowed");
  (409, "Conflict"); (411, "Length Required"); (413, "Payload Too Large"); (422, "Unprocessable Entity");
  (429, "Too Many Requests"); (431, "Request Header Fields Too Large"); (500, "Internal Server Error");
  (503, "Service Unavailable")]%string.
Definition reason (status : Z) : bytes :=
  default (str "Unknown") (snd <$> (snd <$> list_find (λ kv, kv.1 = status) reasons)).

Definition header_text (kv : bytes * bytes) : bytes :=
  if bool_decide ((CR ∉ kv.2) ∧ (LF ∉ kv.2)) then kv.1 ++ str ": " ++ kv.2 ++ CRLF else [].
Definition write_response (r : HttpResponse) (head_only : bool) : bytes :=
  str "HTTP/1.1 " ++ dec (rs_status r) ++ str " " ++ reason (rs_status r) ++ CRLF ++
  str "Content-Type: " ++ rs_content_type r ++ CRLF ++
  str "Content-Length: " ++ dec (Zlen (rs_body r)) ++ CRLF ++
  str "Connection: close" ++ CRLF ++
  concat (header_text <$> rs_headers r) ++ CRLF ++ (if head_only then [] else rs_body r).

(** [HttpResponse::json] and [HttpResponse::error] *)
Section json.
Context `{JsonCodec}.
Definition resp_json (status : Z) (v : json) : HttpResponse :=
  {| rs_status := status; rs_content_type := str "application/json; charset=utf-8"; rs_body := json_to_vec v; rs_headers := [] |}.
Definition resp_error (status : Z) (code name message : bytes) : HttpResponse :=
  resp_json status (obj [("error", obj [("code", JStr code); ("name", JStr name); ("message", JStr message)])]%string).
Definition to_response (e : ApiError) : HttpResponse := resp_error (ae_status e) (ae_code e) (ae_name e) (ae_message e).
(** [HttpRequest::json] *)
Definition req_json (r : HttpRequest) : option json := json_from_slice (rq_body r).

(** A connection, [handle] the service. *)
Definition handle_connection {S} (handle : HttpRequest → stm S () HttpResponse) (peer : bytes) (input : stream) : stm S () bytes := λ s,
  match read_request peer input with
  | Ok (req, head_only, _) =>
      match handle req s with
      | (s, Ok resp) => (s, Ok (write_response resp head_only))
      | (s, _) => (s, Panic)
      end
  | Err (status, message) => (s, Ok (write_response (resp_error status (str "UK-1000") (str "BadRequest") message) false))
  | Panic => (s, Panic)
  end.
End json.

(** ** The client of [mm0web] *)
Record Client := { cl_authority : bytes; cl_prefix : bytes }.
Fixpoint drop_slashes (s : bytes) : bytes := match s with Byte.x2f :: s => drop_slashes s | _ => s end.
Definition client_new (base : bytes) : res bytes Client :=
  let trimmed := reverse (drop_slashes (reverse (trim base))) in
  match strip_prefix (str "http://") trimmed with
  | None => Err (str "mm0web base URL must be http:// (got " ++ base ++ str "); TLS is not supported on this hop")
  | Some rest =>
      if bool_decide (rest = []) then Err (str "mm0web base URL " ++ base ++ str " has no host")
      else
        let '(authority, prefix) := match split_once (str "/") rest with Some (a, path) => (a, str "/" ++ path) | None => (rest, []) end in
        if bool_decide (authority = []) then Err (str "mm0web base URL " ++ base ++ str " has no host")
        else Ok {| cl_authority := authority; cl_prefix := prefix |}
  end.
Definition client_base (c : Client) : bytes := str "http://" ++ cl_authority c ++ cl_prefix c.

Definition request_text (c : Client) (method : String.string) (path : bytes) (body : option (bytes * bytes)) : bytes :=
  str method ++ str " " ++ cl_prefix c ++ path ++ str " HTTP/1.1" ++ CRLF ++ str "Host: " ++ cl_authority c ++ CRLF ++
  str "Accept: application/json" ++ CRLF ++ str "Connection: close" ++ CRLF ++
  match body with
  | Some (content_type, b) =>
      str "Content-Type: " ++ content_type ++ CRLF ++ str "Content-Length: " ++ dec (Zlen b) ++ CRLF ++ CRLF ++ b
  | None => CRLF
  end.

(** The headers of a response: the last length given. The stream shrinks each
    round. *)
Fixpoint read_lengths (fuel : nat) (length : option Z) (s : stream) : res bytes (option Z * stream) :=
  match read_line s with
  | Ok (line, s) =>
      if Zlen line =? 0 then Ok (length, s)
      else
        let header := trim_eol line in
        if bool_decide (header = []) then Ok (length, s)
        else
          let length := match split_once (str ":") header with
                        | Some (name, value) =>
                            if eq_ignore_ascii_case (trim name) (str "content-length") then parse_uint (2 ^ 64) (trim value) else length
                        | None => length
                        end in
          match fuel with O => Panic | S fuel => read_lengths fuel length s end
  | Err _ => Err (str "read mm0web headers: ")
  | Panic => Panic
  end.

Definition read_reply (s : stream) : res bytes (Z * bytes) :=
  match read_line s with
  | Ok (line, s) =>
      match w ← split_whitespace line !! 1%nat; parse_uint (2 ^ 16) w with
      | None => Err (str "mm0web sent a malformed status line: " ++ line)
      | Some status =>
          '(length, s) ← read_lengths (S (length (sr_bytes s))) None s;
          match length with
          | Some len => match read_exact len s with Ok (b, _) => Ok (status, b) | _ => Err (str "read mm0web body: ") end
          | None => match read_to_end s with Ok b => Ok (status, b) | _ => Err (str "read mm0web body: ") end
          end
      end
  | Err _ => Err (str "read mm0web status line: ")
  | Panic => Panic
  end.

(** ** What one side writes, the other reads *)
Lemma cut_line_app l rest : LF ∉ l → cut_line (l ++ LF :: rest) = Some (l ++ [LF], rest).
Proof.
  induction l as [|c l IH]; intros Hl; cbn; [by rewrite bool_decide_eq_true_2|].
  rewrite bool_decide_eq_false_2 by set_solver. by rewrite IH by set_solver.
Qed.

(** A line of ASCII text. *)
Definition plain (l : bytes) : Prop := forallb is_ascii l = true ∧ LF ∉ l.
Lemma plain_app a b : plain a → plain b → plain (a ++ b).
Proof. intros [Ha1 Ha2] [Hb1 Hb2]. split; [by rewrite forallb_app, Ha1, Hb1|set_solver]. Qed.

Lemma read_line_plain l rest f : plain l → read_line (Stream (l ++ CRLF ++ rest) f) = Ok (l ++ CRLF, Stream rest f).
Proof.
  intros [Ha Hl]. unfold read_line. cbn [sr_bytes sr_fails].
  change (l ++ CRLF ++ rest) with (l ++ [CR] ++ LF :: rest). rewrite app_assoc, cut_line_app by set_solver.
  rewrite <-app_assoc. change ([CR] ++ [LF]) with CRLF. rewrite utf8_ascii; [done|]. by rewrite forallb_app, Ha.
Qed.

Lemma trim_eol_line l : (∀ c, last l = Some c → c ≠ CR ∧ c ≠ LF) → trim_eol (l ++ CRLF) = l.
Proof.
  intros Hl. unfold trim_eol. rewrite reverse_app. change (reverse CRLF) with [LF; CR]. cbn [app drop_eol].
  rewrite !bool_decide_eq_true_2 by auto. destruct (reverse l) as [|c t] eqn:E.
  - apply (f_equal reverse) in E. by rewrite reverse_involutive in E.
  - cbn [drop_eol]. rewrite bool_decide_eq_false_2; [by rewrite <-E, reverse_involutive|].
    assert (last l = Some c) as [? ?]%Hl by (rewrite <-head_reverse, E; done). by intros [?|?].
Qed.

(** The reply of the server as lines. *)
Definition length_line (body : bytes) : bytes := str "Content-Length: " ++ dec (Zlen body).
Definition reply_headers (r : HttpResponse) : list bytes :=
  [str "Content-Type: " ++ rs_content_type r; length_line (rs_body r); str "Connection: close"] ++
  ((λ kv, kv.1 ++ str ": " ++ kv.2) <$> filter (λ kv, (CR ∉ kv.2) ∧ (LF ∉ kv.2)) (rs_headers r)).
Definition crlf (ls : list bytes) : bytes := concat ((λ l, l ++ CRLF) <$> ls).

Lemma write_response_lines r :
  write_response r false = (str "HTTP/1.1 " ++ dec (rs_status r) ++ str " " ++ reason (rs_status r)) ++ CRLF ++ crlf (reply_headers r) ++ CRLF ++ rs_body r.
Proof.
  unfold write_response, reply_headers, crlf, length_line. rewrite fmap_app, concat_app. cbn [fmap list_fmap concat app].
  assert (∀ l, concat (header_text <$> l) = concat ((λ l, l ++ CRLF) <$> ((λ kv : bytes * bytes, kv.1 ++ str ": " ++ kv.2) <$> filter (λ kv, (CR ∉ kv.2) ∧ (LF ∉ kv.2)) l))) as ->.
  { induction l as [|kv l IH]; [done|]. rewrite fmap_cons, filter_cons. cbn [concat]. unfold header_text at 1. rewrite IH.
    case_decide; case_bool_decide; try done. rewrite fmap_cons. cbn [concat fmap list_fmap]. by rewrite <-!app_assoc. }
  rewrite <-!app_assoc. done.
Qed.

Definition line_ok (l : bytes) : Prop := plain l ∧ l ≠ [] ∧ ∀ c, last l = Some c → c ≠ CR.
Lemma line_ok_trim l : line_ok l → trim_eol (l ++ CRLF) = l.
Proof. intros ((_ & Hl) & _ & Hc). apply trim_eol_line. intros c E. split; [by apply Hc|]. intros ->. apply Hl. by eapply last_Some_elem_of. Qed.

(** What a header line says about the length. *)
Definition length_of (len : option Z) (header : bytes) : option Z :=
  match split_once (str ":") header with
  | Some (name, value) => if eq_ignore_ascii_case (trim name) (str "content-length") then parse_uint (2 ^ 64) (trim value) else len
  | None => len
  end.

Lemma read_lengths_lines ls body f : ∀ fuel len, Forall line_ok ls → (length ls ≤ fuel)%nat →
  read_lengths fuel len (Stream (crlf ls ++ CRLF ++ body) f) = Ok (foldl length_of len ls, Stream body f).
Proof.
  induction ls as [|l ls IH]; intros fuel len Hl Hf.
  - cbn [crlf fmap list_fmap concat app foldl].
    assert (read_line (Stream ([] ++ CRLF ++ body) f) = Ok ([] ++ CRLF, Stream body f)) as E by (apply read_line_plain; split; [done|set_solver]).
    cbn [app] in E. destruct fuel; cbn [read_lengths]; rewrite E; reflexivity.
  - apply Forall_cons in Hl as [Hok Hl]. cbn [length] in Hf. destruct fuel as [|fuel]; [lia|].
    assert (crlf (l :: ls) ++ CRLF ++ body = l ++ CRLF ++ (crlf ls ++ CRLF ++ body)) as -> by (unfold crlf; cbn; by rewrite <-!app_assoc).
    cbn [read_lengths]. rewrite read_line_plain by apply Hok. rewrite line_ok_trim by done.
    rewrite (proj2 (Z.eqb_neq _ _)) by (rewrite length_app; cbn; lia). rewrite bool_decide_eq_false_2 by apply Hok.
    apply IH; [done|lia].
Qed.

(** A response the service builds: ASCII texts without line ends, and no header
    of its own that says a length. *)
Definition header_ok (kv : bytes * bytes) : Prop :=
  (LF ∉ kv.1) ∧ forallb is_ascii kv.1 = true ∧ forallb is_ascii kv.2 = true ∧ (z2b 58 ∉ kv.1) ∧
  eq_ignore_ascii_case (trim kv.1) (str "content-length") = false.
Record response_ok (r : HttpResponse) : Prop := {
  ro_status : 0 ≤ rs_status r < 2 ^ 16;
  ro_type : plain (rs_content_type r);
  ro_type_end : last (str "Content-Type: " ++ rs_content_type r) ≠ Some CR;
  ro_length : Zlen (rs_body r) < 2 ^ 64;
  ro_headers : Forall header_ok (rs_headers r)
}.

Lemma digits_plain l : Forall is_digit l → plain l.
Proof.
  intros Hl. split.
  - apply forallb_Forall. eapply Forall_impl; [exact Hl|]. intros c Hc. unfold is_digit in Hc. apply byte_in_spec. lia.
  - rewrite Forall_forall in Hl. intros Hin%Hl. by destruct Hin.
Qed.
Lemma dec_digits n : Forall is_digit (dec n).
Proof. apply dec_fixed_digits. Qed.
Lemma last_not_cr a b : b ≠ [] → CR ∉ b → ∀ c, last (a ++ b) = Some c → c ≠ CR.
Proof. intros Hb Hcr c. rewrite last_app. destruct (last b) as [x|] eqn:E; [|by apply last_None in E]. intros [= ->] ->. by apply Hcr, last_Some_elem_of. Qed.

Lemma reply_headers_ok r : response_ok r → Forall line_ok (reply_headers r).
Proof.
  intros [_ Ht Hte _ Hh]. unfold reply_headers. cbn [app]. repeat apply Forall_cons_2.
  - split; [apply plain_app; [by split; [|vm_compute; set_solver]|done]|]. split; [done|]. intros c E ->. by apply Hte.
  - pose proof (dec_digits (Zlen (rs_body r))) as Hd. split; [apply plain_app; [|by apply digits_plain]; by split; [|vm_compute; set_solver]|]. split; [done|].
    apply last_not_cr; [apply dec_nonempty|]. intros Hin. rewrite Forall_forall in Hd. by destruct (Hd _ Hin).
  - split; [|split; [done|]]; [by split; [|vm_compute; set_solver]|]. by intros c [= <-].
  - apply Forall_forall. intros l ([k v] & -> & [[Hcr Hlf] Hin]%list_elem_of_filter)%list_elem_of_fmap. rewrite Forall_forall in Hh.
    destruct (Hh _ Hin) as (Hk & Ha1 & Ha2 & _). cbn in *. split; [|split].
    + split; [rewrite forallb_app, Ha1; exact Ha2|]. rewrite elem_of_app, !elem_of_cons. naive_solver.
    + by destruct k.
    + apply last_not_cr; [done|]. rewrite !elem_of_cons. naive_solver.
Qed.

Lemma other_line len name value :
  z2b 58 ∉ name → eq_ignore_ascii_case (trim name) (str "content-length") = false → length_of len (name ++ str ": " ++ value) = len.
Proof.
  intros Hc Hn. unfold length_of. change (name ++ str ": " ++ value) with (name ++ z2b 58 :: (Byte.x20 :: value)).
  change (str ":") with [z2b 58]. rewrite split_once_byte by done. by rewrite Hn.
Qed.

Lemma trim_space v : Forall is_digit v → trim (Byte.x20 :: v) = v.
Proof. intros Hv. unfold trim. change (trim_left whitespace 0 (Byte.x20 :: v)) with (trim_left whitespace 0 v). by apply trim_digits. Qed.

Lemma length_line_length len body : Zlen body < 2 ^ 64 → length_of len (length_line body) = Some (Zlen body).
Proof.
  intros Hb. unfold length_of, length_line. change (str "Content-Length: " ++ dec (Zlen body)) with (str "Content-Length" ++ z2b 58 :: (Byte.x20 :: dec (Zlen body))).
  change (str ":") with [z2b 58]. rewrite split_once_byte by (vm_compute; set_solver).
  replace (eq_ignore_ascii_case (trim (str "Content-Length")) (str "content-length")) with true by (vm_compute; reflexivity).
  rewrite trim_space by apply dec_digits. apply parse_uint_dec; lia.
Qed.

Lemma reply_length r : response_ok r → foldl length_of None (reply_headers r) = Some (Zlen (rs_body r)).
Proof.
  intros [_ _ _ Hb Hh]. unfold reply_headers. cbn [app foldl].
  replace (length_of None (str "Content-Type: " ++ rs_content_type r)) with (@None Z)
    by (symmetry; apply (other_line None (str "Content-Type")); [vm_compute; set_solver|vm_compute; reflexivity]).
  rewrite length_line_length by done.
  replace (length_of (Some (Zlen (rs_body r))) (str "Connection: close")) with (Some (Zlen (rs_body r))) by reflexivity.
  induction (rs_headers r) as [|[k v] l IH]; [done|]. apply Forall_cons in Hh as [(_ & _ & _ & Hc & Hn) Hh]. rewrite filter_cons.
  case_decide; [|by apply IH]. rewrite fmap_cons. cbn [foldl fst snd]. rewrite other_line by done. by apply IH.
Qed.

Lemma reason_plain status : plain (reason status).
Proof.
  unfold reason. destruct (list_find _ _) as [[i [k v]]|] eqn:E; [|by split; [|vm_compute; set_solver]].
  apply list_find_Some in E as (Hi & _ & _). cbn. apply list_elem_of_lookup_2 in Hi.
  assert (Forall (λ kv : Z * bytes, forallb is_ascii kv.2 = true ∧ bool_decide (LF ∉ kv.2) = true) reasons) as Hall by (repeat constructor).
  rewrite Forall_forall in Hall. destruct (Hall _ Hi) as [H1 H2]. split; [done|by apply bool_decide_eq_true in H2].
Qed.

(** The two HTTP implementations agree: the client reads back the status and
    the body of every response the server writes, whatever its headers. *)
Theorem reply_roundtrip r f : response_ok r → read_reply (Stream (write_response r false) f) = Ok (rs_status r, rs_body r).
Proof.
  intros Hr. rewrite write_response_lines. unfold read_reply.
  pose proof (dec_digits (rs_status r)) as Hd. rewrite read_line_plain.
  2:{ apply plain_app; [by split; [|vm_compute; set_solver]|]. apply plain_app; [by apply digits_plain|].
      apply plain_app; [by split; [|vm_compute; set_solver]|apply reason_plain]. }
  assert (split_whitespace ((str "HTTP/1.1 " ++ dec (rs_status r) ++ str " " ++ reason (rs_status r)) ++ CRLF) !! 1%nat = Some (dec (rs_status r))) as ->.
  { unfold split_whitespace. rewrite <-!app_assoc.
    change (str "HTTP/1.1 " ++ dec (rs_status r) ++ str " " ++ reason (rs_status r) ++ CRLF)
      with (str "HTTP/1.1" ++ Byte.x20 :: dec (rs_status r) ++ Byte.x20 :: (reason (rs_status r) ++ CRLF)).
    rewrite split_ws_token by (repeat constructor).
    rewrite split_ws_token by (eapply Forall_impl; [exact Hd|exact digit_not_ws]).
    pose proof (dec_nonempty (rs_status r)). destruct (dec (rs_status r)); done. }
  cbn [mbind option_bind]. rewrite parse_uint_dec by (destruct Hr; lia).
  rewrite read_lengths_lines; [|by apply reply_headers_ok|].
  2:{ cbn [sr_bytes]. unfold crlf. generalize (CRLF ++ rs_body r). induction (reply_headers r) as [|l ls IH]; intros t; [cbn; lia|].
      cbn [fmap list_fmap concat length]. rewrite <-!app_assoc, !length_app. specialize (IH t). rewrite length_app in IH. cbn [length CRLF]. lia. }
  cbn [mbind res_bind]. rewrite reply_length by done. unfold read_exact. cbn [sr_bytes]. rewrite Z.leb_refl. rewrite Nat2Z.id. by rewrite firstn_all.
Qed.

(** ** Requests are bounded *)
Lemma header_line_count t h h' : header_line t h = Ok h' → Zlen (hs_headers h') = Zlen (hs_headers h) + 1 ∧ Zlen (hs_headers h') ≤ 100.
Proof.
  unfold header_line. destruct (split_once _ t) as [[n v]|]; [|done].
  set (m := if bool_decide _ then _ else _). assert (∀ h1, m = Ok h1 → hs_headers h1 = hs_headers h) as Hm.
  { intros h1. unfold m. case_bool_decide; [destruct (parse_uint _ _); [|done]|]; by intros [= <-]. }
  destruct m as [h1|e|]; [|done..]. cbn [mbind res_bind]. rewrite (Hm h1 eq_refl).
  destruct (Z.ltb_spec 100 (Zlen (hs_headers h ++ [(to_ascii_lowercase (trim n), trim v)]))) as [Hl|Hl]; [done|].
  intros [= <-]. cbn. rewrite length_app in *. cbn in *. lia.
Qed.
Lemma header_line_no_panic t h : header_line t h ≠ Panic.
Proof.
  unfold header_line. destruct (split_once _ t) as [[n v]|]; [|done]. case_bool_decide; [destruct (parse_uint _ _); [|done]|];
    cbn; destruct (_ <? _); done.
Qed.

Lemma read_headers_bounded fuel hb h s :
  100 < Zlen (hs_headers h) + Z.of_nat fuel → Zlen (hs_headers h) ≤ 100 →
  read_headers fuel hb h s ≠ Panic ∧
  ∀ h' s', read_headers fuel hb h s = Ok (h', s') → Zlen (hs_headers h') ≤ 100.
Proof.
  revert hb h s. induction fuel as [|fuel IH]; intros hb h s Hf Hh; cbn [read_headers]; [lia|].
  assert (read_line s ≠ Panic) as Hrl.
  { unfold read_line. destruct (cut_line _) as [[l r]|]; [by destruct (utf8_valid l)|]. destruct (sr_fails s); [done|]. by destruct (utf8_valid _). }
  destruct (read_line s) as [[line s1]|e|]; [|done..]. cbn [or_refuse mbind res_bind]. destruct (_ =? 0); [done|]. destruct (_ <? _); [done|].
  case_bool_decide; [split; [done|]; by intros h' s' [= <- <-]|].
  pose proof (header_line_no_panic (trim_eol line) h). destruct (header_line _ h) as [h1|e|] eqn:E; [|done..]. cbn [mbind res_bind].
  apply header_line_count in E. apply IH; lia.
Qed.

Lemma mapM_res_Panic {E A B} (f : A → res E B) l : mapM_res f l = Panic → ∃ a, a ∈ l ∧ f a = Panic.
Proof.
  induction l as [|a l IH]; cbn; [done|]. intros [?|(b & _ & Hp)]%bind_Panic; [exists a; set_solver|].
  apply bind_Panic in Hp as [Hp|(bs & _ & ?)]; [|done]. destruct (IH Hp) as (a' & ? & ?). exists a'. set_solver.
Qed.
Lemma starts_slash s : starts "/" s = true ↔ ∃ t, s = Byte.x2f :: t.
Proof.
  unfold starts. rewrite bool_decide_eq_true. split; [intros [t ->%strip_prefix_Some]; by exists t|intros [t ->]].
  exists t. apply (strip_prefix_app (str "/")).
Qed.

(** What the server accepts is bounded and what it refuses is answered: a
    request it parses has at most 100 headers and a body of at most 256 kB, a
    non-empty method and an absolute path; and the parser itself never fails in
    another way than with a status, unless a query parameter does. *)
Theorem request_bounded peer s :
  (∀ req head_only s', read_request peer s = Ok (req, head_only, s') →
     Zlen (rq_body req) ≤ MAX_BODY ∧ Zlen (rq_headers req) ≤ 100 ∧ rq_method req ≠ [] ∧ starts "/" (rq_path req) = true ∧ rq_peer req = peer) ∧
  (read_request peer s = Panic → ∃ pair, decode_pair (E:=refusal) pair = Panic).
Proof.
  assert (∀ s0, read_line s0 ≠ Panic) as Hrl.
  { intros s0. unfold read_line. destruct (cut_line _) as [[l r]|]; [by destruct (utf8_valid l)|]. destruct (sr_fails s0); [done|]. by destruct (utf8_valid _). }
  unfold read_request. specialize (Hrl s). destruct (read_line s) as [[line s1]|e|]; [|done..]. cbn [or_refuse mbind res_bind].
  destruct (_ =? 0); [done|]. set (parts := split_whitespace _). set (target := default [] (parts !! 1%nat)).
  destruct (bool_decide (default [] (parts !! 0%nat) = [])) eqn:Em; [done|]. destruct (starts "/" target) eqn:Et; [|done].
  destruct (starts "HTTP/1." _); [|done]. cbn [orb negb].
  destruct (read_headers_bounded 101 (Zlen line) {| hs_headers := []; hs_length := None; hs_chunked := false |} s1) as [Hn Hb]; [cbn; lia..|].
  destruct (read_headers _ _ _ s1) as [[h s2]|e|]; [|done..]. cbn [mbind res_bind]. specialize (Hb _ _ eq_refl).
  destruct (hs_chunked h); [done|]. destruct (Z.ltb_spec MAX_BODY (default 0 (hs_length h))) as [Hl|Hl]; [done|].
  set (body := if 0 <? _ then _ else _).
  assert (body ≠ Panic ∧ ∀ b s3, body = Ok (b, s3) → Zlen b ≤ MAX_BODY) as [Hnb Hbb].
  { unfold body. destruct (Z.ltb_spec 0 (default 0 (hs_length h))); [|split; [done|]; intros b s3 [= <- <-]; done].
    unfold read_exact. destruct (Z.leb_spec (default 0 (hs_length h)) (Zlen (sr_bytes s2))); [|done]. split; [done|]. intros b s3 [= <- <-].
    rewrite length_take. lia. }
  destruct body as [[b s3]|e|]; [|done..]. cbn [mbind res_bind]. specialize (Hbb _ _ eq_refl).
  destruct (default (target, []) (split_once (str "?") target)) as [path raw] eqn:Ep.
  assert (starts "/" path = true) as Hp.
  { destruct (split_once (str "?") target) as [[a q]|] eqn:Eq; injection Ep as <- <-; [|done].
    apply split_once_Some in Eq. apply starts_slash. apply starts_slash in Et as [t Et]. rewrite Et in Eq.
    destruct a as [|c a]; [done|]. injection Eq as <- _. by exists a. }
  destruct (mapM_res decode_pair _) as [query|e|] eqn:Eq; cbn [mbind res_bind].
  - split; [|done]. intros req ho s' [= <- <- <-]. cbn. split_and!; try done.
    destruct (eq_ignore_ascii_case _ _); [done|]. by apply bool_decide_eq_false in Em.
  - done.
  - split; [done|]. intros _. by apply mapM_res_Panic in Eq as (pair & _ & ?); exists pair.
Qed.

(** A request that stops its connection thread: an escape cut short by a
    character of several bytes. *)
Example request_panics : read_request [] (Stream (str "GET /?q=%a" ++ (z2b <$> [0xC3; 0xA9]) ++ str " HTTP/1.1" ++ CRLF ++ CRLF) false) = Panic.
Proof. vm_compute. reflexivity. Qed.

(** ** Connection slots ([serve_listener])

    [sl_active] is the counter, [sl_running] the connections being served. An
    arrival may find that no thread can be started; a connection ends normally,
    or its thread panics, and then the line that gives the slot back is not
    reached. *)
Record slots := { sl_active : Z; sl_running : Z; sl_shed : Z; sl_lost : Z }.
Inductive event := Arrives (spawned : bool) | Finishes | Panics.
Definition slot_step (max : Z) (s : slots) (e : event) : slots :=
  match e with
  | Arrives spawned =>
      if max <=? sl_active s then {| sl_active := sl_active s; sl_running := sl_running s; sl_shed := sl_shed s + 1; sl_lost := sl_lost s |}
      else if spawned then {| sl_active := sl_active s + 1; sl_running := sl_running s + 1; sl_shed := sl_shed s; sl_lost := sl_lost s |}
      else {| sl_active := sl_active s + 1 - 1; sl_running := sl_running s; sl_shed := sl_shed s; sl_lost := sl_lost s |}
  | Finishes =>
      if 0 <? sl_running s then {| sl_active := sl_active s - 1; sl_running := sl_running s - 1; sl_shed := sl_shed s; sl_lost := sl_lost s |} else s
  | Panics =>
      if 0 <? sl_running s then {| sl_active := sl_active s; sl_running := sl_running s - 1; sl_shed := sl_shed s; sl_lost := sl_lost s + 1 |} else s
  end.
Definition slots_new : slots := {| sl_active := 0; sl_running := 0; sl_shed := 0; sl_lost := 0 |}.

(** Connection accounting: at any time the counter is the connections being
    served plus the connections whose thread panicked, and never above the
    ceiling. So the ceiling holds, and without panics no capacity is lost; but a
    server that lost every slot refuses each later arrival for good. *)
Theorem slots_exact max es :
  0 ≤ max →
  let s := foldl (slot_step max) slots_new es in
  sl_active s = sl_running s + sl_lost s ∧ 0 ≤ sl_running s ∧ 0 ≤ sl_lost s ∧ sl_active s ≤ max ∧
  (sl_lost s = max → ∀ e, sl_lost (slot_step max s e) = max ∧ sl_running (slot_step max s e) = 0).
Proof.
  intros Hm. cbn zeta.
  assert (let s := foldl (slot_step max) slots_new es in sl_active s = sl_running s + sl_lost s ∧ 0 ≤ sl_running s ∧ 0 ≤ sl_lost s ∧ sl_active s ≤ max) as Hs.
  { induction es as [|e es IH] using rev_ind; [cbn; lia|]. rewrite foldl_app. cbn zeta in *. cbn [foldl].
    set (s := foldl (slot_step max) slots_new es) in *. destruct e as [[]| |]; cbn; repeat case_match; cbn; rewrite ?Z.leb_gt, ?Z.ltb_lt in *; lia. }
  cbn zeta in Hs. set (s := foldl (slot_step max) slots_new es) in *. destruct Hs as (H1 & H2 & H3 & H4). split_and!; [done..|].
  intros Hl e. destruct e as [[]| |]; cbn; repeat case_match; cbn; rewrite ?Z.leb_gt, ?Z.ltb_lt in *; lia.
Qed.
End RefiHttp.
