(* ===== verification/RefiProofs.v ===== *)
(** * The proof ledger ([refi/src/proofs.rs], [refi/src/mm0.rs])

    Submissions to the proof service, the state each one reached, and the DOI it
    earned. The theorem: a published row never changes again, and rows stay
    unique. *)

From S2P Require Import Prelude Text RefiUtil RefiJson RefiEngine RefiHttp.
Import RefiUtil RefiJson RefiEngine RefiHttp.

Module RefiProofs.

Definition MAX_FIELD : Z := 256 * 1024.

Inductive State := Queued | Verified | Published | Rejected | Failed.
#[export] Instance state_eq_dec : EqDecision State.
Proof. solve_decision. Defined.
Definition state_str (s : State) : bytes :=
  match s with Queued => str "queued" | Verified => str "verified" | Published => str "published" | Rejected => str "rejected" | Failed => str "failed" end.
Definition is_pending (s : State) : bool := match s with Queued | Verified => true | _ => false end.

Record Proof_ := {
  pf_id : bytes; pf_project : bytes; pf_title : bytes; pf_sha256 : bytes; pf_state : State; pf_mm0_proof : option bytes;
  pf_record : option Z; pf_doi : option bytes; pf_url : option bytes; pf_log : option bytes; pf_detail : option bytes;
  pf_submitted_by : bytes; pf_submitted_at : Z; pf_updated_at : Z
}.

Definition doi_url (p : Proof_) : option bytes := (λ d, str "https://doi.org/" ++ d) <$> pf_doi p.
Definition can_mint (p : Proof_) : bool := bool_decide (pf_state p = Published) && bool_decide (is_Some (pf_doi p)).
Definition proof_json (p : Proof_) : json :=
  obj [("id", JStr (pf_id p)); ("project", JStr (pf_project p)); ("title", JStr (pf_title p)); ("sha256", JStr (pf_sha256 p));
       ("state", JStr (state_str (pf_state p))); ("proof", opt JStr (pf_mm0_proof p)); ("zenodo_record", opt JNum (pf_record p));
       ("doi", opt JStr (pf_doi p)); ("url", opt JStr (pf_url p)); ("doi_url", opt JStr (doi_url p)); ("log", opt JStr (pf_log p));
       ("detail", opt JStr (pf_detail p)); ("submitted_by", JStr (pf_submitted_by p)); ("submitted_at", JNum (pf_submitted_at p));
       ("updated_at", JNum (pf_updated_at p))]%string.
Record ProofDetail := { pd_proof : Proof_; pd_backend : option bytes; pd_certificates : list json }.
Definition detail_json {E} (d : ProofDetail) : res E json :=
  v ← set_key (proof_json (pd_proof d)) "backend" (opt JStr (pd_backend d));
  set_key v "certificates" (JArr (pd_certificates d)).

(** ** The client's calls; the network turns a request to a host into what comes
    back *)
Record PublishReply := {
  pr_status : Z; pr_accepted : bool; pr_proof : option bytes; pr_doi : option bytes; pr_record : option Z; pr_url : option bytes;
  pr_log : option bytes; pr_stage : option bytes; pr_error : option bytes
}.
Record ProofReply := { rp_state : bytes; rp_doi : option bytes; rp_record : option Z; rp_url : option bytes; rp_log : option bytes }.

(** [string(&v, key)] *)
Definition string_field (v : json) (key : String.string) : option bytes :=
  s ← as_str (at_key v key); if bool_decide (trim s = []) then None else Some (trim s).

Class Network (N : Type) := exchange : bytes → bytes → stm N bytes stream.

Section client.
Context {N : Type} `{Network N, JsonCodec}.
Definition call_backend (c : Client) (method : String.string) (path : bytes) (body : option (bytes * bytes)) : stm N bytes (Z * bytes) := λ n,
  match exchange (cl_authority c) (request_text c method path body) n with
  | (n, Ok s) => (n, read_reply s)
  | (n, Err e) => (n, Err e)
  | (n, Panic) => (n, Panic)
  end.

Definition publish_form (project title mm0 mm1 : bytes) : bytes :=
  str "project=" ++ url_encode project ++ str "&title=" ++ url_encode title ++ str "&mm0=" ++ url_encode mm0 ++ str "&mm1=" ++ url_encode mm1.
Definition client_publish (c : Client) (project title mm0 mm1 : bytes) : stm N bytes PublishReply :=
  '(status, b) ← call_backend c "POST" (str "/api/v1/publish") (Some (str "application/x-www-form-urlencoded", publish_form project title mm0 mm1));
  let v := default JNull (json_from_slice b) in
  mret {| pr_status := status; pr_accepted := match at_key v "accepted" with JBool true => true | _ => false end;
          pr_proof := string_field v "proof"; pr_doi := string_field v "doi"; pr_record := as_u64 (at_key v "record");
          pr_url := string_field v "url"; pr_log := string_field v "log"; pr_stage := string_field v "stage"; pr_error := string_field v "error" |}.
Definition client_proof (c : Client) (project id : bytes) : stm N bytes ProofReply :=
  '(status, b) ← call_backend c "GET" (str "/proof?project=" ++ url_encode project ++ str "&id=" ++ url_encode id) None;
  if negb (status =? 200) then stm_err (str "mm0web answered " ++ dec status ++ str " for proof " ++ id)
  else match json_from_slice b with
       | None => stm_err (str "mm0web proof " ++ id ++ str " is not JSON: ")
       | Some v => mret {| rp_state := default [] (string_field v "state"); rp_doi := string_field v "doi"; rp_record := as_u64 (at_key v "record");
                           rp_url := string_field v "url"; rp_log := string_field v "log" |}
       end.
End client.

(** ** The store *)
Record Store := { so_version : Z; so_proofs : list Proof_ }.
Definition format_version : Z := 1.
Definition store_default : Store := {| so_version := format_version; so_proofs := [] |}.
Class ProofCodec := { encode_proofs : Store → option bytes; decode_proofs : bytes → option Store }.

Definition by_id (s : Store) (id : bytes) : option Proof_ := head (filter (λ p, pf_id p = id) (so_proofs s)).
(** Newest first, replacing any earlier row with the same id. *)
Definition put_proof (p : Proof_) (s : Store) : Store :=
  {| so_version := so_version s; so_proofs := p :: filter (λ q, pf_id q ≠ pf_id p) (so_proofs s) |}.

Section ledger.
Context {X : Type} `{Storage X, ProofCodec, Sha256, HexText, JsonCodec, Network X}.

Definition load_store (path : bytes) : stm X bytes Store := λ x,
  let '(x, r) := st_read path x in
  (x, match r with
      | Ok (Some b) =>
          match decode_proofs b with
          | None => Err (str "proof ledger " ++ path ++ str " is not valid: ")
          | Some s => if negb (so_version s =? format_version)
                      then Err (str "proof ledger " ++ path ++ str " has version " ++ dec (so_version s) ++ str " (this build writes 1)")
                      else Ok s
          end
      | Ok None => Ok store_default
      | Err e => Err (str "read " ++ path ++ str ": " ++ e)
      | Panic => Panic
      end).
Definition save_store (path : bytes) (s : Store) : stm X bytes () :=
  match encode_proofs s with None => stm_err (str "encode proofs: ") | Some b => st_write_atomic path b end.

Definition record_id (title mm0 mm1 : bytes) : bytes := sha256_hex (title ++ [LF] ++ mm0 ++ [LF] ++ mm1).

Record Ledger := { lg_path : bytes; lg_store : Store; lg_client : option Client }.
Definition put_store (s : Store) (l : Ledger) : Ledger := {| lg_path := lg_path l; lg_store := s; lg_client := lg_client l |}.
(** The ledger, with the files and the network. *)
Abbreviation lm := (stm (Ledger * X) bytes).

Definition ledger_load (path : bytes) (mm0web : option bytes) : stm X bytes Ledger := λ x,
  match mm0web with
  | Some base =>
      match client_new base with
      | Ok c => let '(x, r) := load_store path x in (x, s ← r; Ok {| lg_path := path; lg_store := s; lg_client := Some c |})
      | Err e => (x, Err e)
      | Panic => (x, Panic)
      end
  | None => let '(x, r) := load_store path x in (x, s ← r; Ok {| lg_path := path; lg_store := s; lg_client := None |})
  end.

Definition configured (l : Ledger) : bool := bool_decide (is_Some (lg_client l)).
Definition base (l : Ledger) : option bytes := client_base <$> lg_client l.
Definition counts (l : Ledger) : nat * nat * nat :=
  let n f := length (filter (λ p, f (pf_state p) = true) (so_proofs (lg_store l))) in
  (n (λ s, bool_decide (s = Published)), n is_pending, n (λ s, bool_decide (s = Rejected ∨ s = Failed))).

(** [a.or_else(|| b)] *)
Definition or_else {A} (a b : option A) : option A := match a with Some _ => a | None => b end.
Definition new_proof (id actor project title mm0 mm1 : bytes) (now : Z) (reply : PublishReply) : Proof_ :=
  let '(state, detail) :=
    if pr_status reply =? 400 then (Rejected, or_else ((λ s, str "rejected at " ++ s) <$> pr_stage reply) (pr_error reply))
    else if pr_status reply =? 200 then
      if bool_decide (is_Some (pr_doi reply)) then (Published, None)
      else (Verified, Some (str "mm0web verified the development but reported no deposit"))
    else if pr_status reply =? 202 then (Queued, None)
    else if pr_status reply =? 502 then (Verified, pr_error reply)
    else (Failed, or_else (pr_error reply) (Some (str "mm0web answered " ++ dec (pr_status reply)))) in
  {| pf_id := id; pf_project := project; pf_title := title; pf_sha256 := sha256_hex (mm0 ++ [LF] ++ mm1); pf_state := state;
     pf_mm0_proof := pr_proof reply; pf_record := pr_record reply; pf_doi := pr_doi reply; pf_url := pr_url reply; pf_log := pr_log reply;
     pf_detail := detail; pf_submitted_by := actor; pf_submitted_at := now; pf_updated_at := now |}.

Definition on_net {A} (m : stm X bytes A) : lm A := λ '(l, x), let '(x, r) := m x in ((l, x), r).
Definition set_store (s : Store) : lm () := λ '(l, x), ((put_store s l, x), Ok ()).
Definition save_ledger : lm () := λ '(l, x), let '(x, r) := save_store (lg_path l) (lg_store l) x in ((l, x), r).

(** [now] is the clock when the reply arrived. *)
Definition submit (c : Client) (id actor project title mm0 mm1 : bytes) (now : Z) (s : Store) : lm Proof_ :=
  reply ← on_net (client_publish c project title mm0 mm1);
  let proof := new_proof id actor project title mm0 mm1 now reply in
  _ ← set_store (put_proof proof s);
  _ ← save_ledger;
  mret proof.
Definition publish (actor project title mm0 mm1 : bytes) (now : Z) : lm Proof_ := λ st,
  let '(l, x) := st in
  let id := record_id title mm0 mm1 in
  let go := match lg_client l with
            | None => (st, Err (str "proof publishing is not configured on this exchange"))
            | Some c => submit c id actor project title mm0 mm1 now (lg_store l) st
            end in
  match by_id (lg_store l) id with
  | Some existing => if bool_decide (pf_state existing = Published) then (st, Ok existing) else go
  | None => go
  end.

(** *** Refreshing the pending rows *)
Definition next_state (s : bytes) : option State :=
  if bool_decide (s = str "published") then Some Published
  else if bool_decide (s = str "publish-failed") then Some Failed
  else if bool_decide (s = str "verified") then Some Verified
  else None.
(** [if new.is_some() && old != new { old = new; touched = true }] *)
Definition fold_in {A} `{EqDecision A} (old new : option A) (touched : bool) : option A * bool :=
  if bool_decide (is_Some new) && bool_decide (old ≠ new) then (new, true) else (old, touched).
Definition refresh_row (reply : ProofReply) (now : Z) (p : Proof_) : Proof_ * bool :=
  let '(state, t) := match next_state (rp_state reply) with
                     | Some s => if bool_decide (pf_state p ≠ s) then (s, true) else (pf_state p, false)
                     | None => (pf_state p, false)
                     end in
  let '(doi, t) := fold_in (pf_doi p) (rp_doi reply) t in
  let '(record, t) := fold_in (pf_record p) (rp_record reply) t in
  let '(url, t) := fold_in (pf_url p) (rp_url reply) t in
  let '(log, t) := fold_in (pf_log p) (rp_log reply) t in
  ({| pf_id := pf_id p; pf_project := pf_project p; pf_title := pf_title p; pf_sha256 := pf_sha256 p; pf_state := state;
      pf_mm0_proof := pf_mm0_proof p; pf_record := record; pf_doi := doi; pf_url := url; pf_log := log; pf_detail := pf_detail p;
      pf_submitted_by := pf_submitted_by p; pf_submitted_at := pf_submitted_at p;
      pf_updated_at := if t : bool then now else pf_updated_at p |}, t).
(** [iter_mut().find(|p| p.id == id)] *)
Fixpoint refresh_id (id : bytes) (reply : ProofReply) (now : Z) (l : list Proof_) : list Proof_ * bool :=
  match l with
  | [] => ([], false)
  | p :: l => if bool_decide (pf_id p = id) then let '(q, t) := refresh_row reply now p in (q :: l, t)
              else let '(l', t) := refresh_id id reply now l in (p :: l', t)
  end.

Definition pending (s : Store) : list (bytes * bytes * bytes) :=
  omap (λ p, if is_pending (pf_state p) then (λ m, (pf_id p, pf_project p, m)) <$> pf_mm0_proof p else None) (so_proofs s).

(** A backend that does not answer is skipped. *)
Definition refresh_one (c : Client) (now : Z) (row : bytes * bytes * bytes) : lm Z := λ '(l, x),
  let '(id, project, mm0_proof) := row in
  match client_proof c project mm0_proof x with
  | (x, Ok reply) =>
      let '(ps, t) := refresh_id id reply now (so_proofs (lg_store l)) in
      ((put_store {| so_version := so_version (lg_store l); so_proofs := ps |} l, x), Ok (if t : bool then 1 else 0))
  | (x, Err _) => ((l, x), Ok 0)
  | (x, Panic) => ((l, x), Panic)
  end.
Fixpoint refresh_rows (c : Client) (now : Z) (rows : list (bytes * bytes * bytes)) (changed : Z) : lm Z :=
  match rows with
  | [] => mret changed
  | row :: rows => t ← refresh_one c now row; refresh_rows c now rows (changed + t)
  end.
Definition save_if (changed : Z) : lm Z := if 0 <? changed then _ ← save_ledger; mret changed else mret changed.
(** One reading of the clock, [now], stands for those of the touched rows. *)
Definition refresh (now : Z) : lm Z := λ st,
  match lg_client st.1 with
  | None => (st, Ok 0)
  | Some c => (changed ← refresh_rows c now (pending (lg_store st.1)) 0; save_if changed) st
  end.

(** ** Published rows are final *)
Inductive op := OpPublish (actor project title mm0 mm1 : bytes) (now : Z) | OpRefresh (now : Z).
Definition op_step (st : Ledger * X) (o : op) : Ledger * X :=
  match o with
  | OpPublish actor project title mm0 mm1 now => (publish actor project title mm0 mm1 now st).1
  | OpRefresh now => (refresh now st).1
  end.

Definition rows (l : Ledger) : list Proof_ := so_proofs (lg_store l).
Definition keyed (ps : list Proof_) : Prop := NoDup (pf_id <$> ps).
(** [ps'] has every row of [ps] that is published. *)
Definition keeps_published (ps ps' : list Proof_) : Prop :=
  keyed ps → keyed ps' ∧ ∀ p, p ∈ ps → pf_state p = Published → p ∈ ps'.
#[global] Instance keeps_published_refl : Reflexive keeps_published.
Proof. by intros ps. Qed.
#[global] Instance keeps_published_trans : Transitive keeps_published.
Proof. intros a b c Hab Hbc Ha. destruct (Hab Ha) as [Hb H1']. destruct (Hbc Hb) as [Hc H2']. eauto. Qed.

Lemma keyed_eq ps p q : keyed ps → p ∈ ps → q ∈ ps → pf_id p = pf_id q → p = q.
Proof.
  unfold keyed. induction ps as [|r ps IH]; [set_solver|]. rewrite fmap_cons, NoDup_cons. intros [Hr Hn] Hp Hq E.
  apply elem_of_cons in Hp as [->|Hp]; apply elem_of_cons in Hq as [->|Hq]; [done|..|by apply IH].
  - destruct Hr. rewrite E. by apply list_elem_of_fmap_2.
  - destruct Hr. rewrite <-E. by apply list_elem_of_fmap_2.
Qed.
Lemma by_id_elem s id p : by_id s id = Some p → p ∈ so_proofs s ∧ pf_id p = id.
Proof.
  unfold by_id. intros Hp. assert (p ∈ filter (λ p, pf_id p = id) (so_proofs s)) as Hin by (destruct (filter _ _); [done|injection Hp as ->; left]).
  apply list_elem_of_filter in Hin. tauto.
Qed.
Lemma by_id_None s id p : by_id s id = None → p ∈ so_proofs s → pf_id p ≠ id.
Proof.
  unfold by_id. intros Hn Hin E. assert (p ∈ filter (λ p, pf_id p = id) (so_proofs s)) as Hf by (by apply list_elem_of_filter).
  destruct (filter _ _); [|done]. by inversion Hf.
Qed.

Lemma put_keeps p s :
  (∀ q, q ∈ so_proofs s → pf_id q = pf_id p → pf_state q ≠ Published) → keeps_published (so_proofs s) (so_proofs (put_proof p s)).
Proof.
  intros Hp Hk. cbn. split.
  - unfold keyed. rewrite fmap_cons, NoDup_cons. split.
    + intros (q & Hq & [Hne _]%list_elem_of_filter)%list_elem_of_fmap. congruence.
    + clear Hp. induction (so_proofs s) as [|q l IH]; [constructor|]. unfold keyed in Hk. rewrite fmap_cons, NoDup_cons in Hk. destruct Hk as [Hq Hk].
      rewrite filter_cons. case_decide; [|by apply IH]. rewrite fmap_cons, NoDup_cons. split; [|by apply IH].
      intros (r & Hr & [_ Hin]%list_elem_of_filter)%list_elem_of_fmap. apply Hq. rewrite Hr. by apply list_elem_of_fmap_2.
  - intros q Hq Hs. right. apply list_elem_of_filter. split; [|done]. intros E. by apply (Hp q).
Qed.

Lemma refresh_row_id reply now p : pf_id (refresh_row reply now p).1 = pf_id p.
Proof. unfold refresh_row. by repeat (destruct (fold_in _ _ _)||case_match). Qed.
Lemma refresh_id_ids id reply now l : pf_id <$> (refresh_id id reply now l).1 = pf_id <$> l.
Proof.
  induction l as [|p l IH]; [done|]. cbn [refresh_id]. case_bool_decide.
  - pose proof (refresh_row_id reply now p) as Hi. destruct (refresh_row _ _ _) as [q t]. cbn in *. by rewrite Hi.
  - destruct (refresh_id id reply now l) as [l' t]. cbn in *. by rewrite IH.
Qed.
Lemma refresh_id_other id reply now l p : p ∈ l → pf_id p ≠ id → p ∈ (refresh_id id reply now l).1.
Proof.
  induction l as [|q l IH]; [set_solver|]. cbn [refresh_id]. intros Hp Hne. case_bool_decide as Hq.
  - destruct (refresh_row _ _ _) as [r t]. cbn. apply elem_of_cons in Hp as [->|Hp]; [done|set_solver].
  - destruct (refresh_id id reply now l) as [l' t]. cbn in *. set_solver.
Qed.

Lemma refresh_rows_keep c now rs : ∀ ch (st : Ledger * X), keyed (rows st.1) →
  let st' := (refresh_rows c now rs ch st).1 in
  keyed (rows st'.1) ∧ ∀ p, p ∈ rows st.1 → (∀ r, r ∈ rs → r.1.1 ≠ pf_id p) → p ∈ rows st'.1.
Proof.
  induction rs as [|[[id project] m] rs IH]; intros ch st Hk; [done|].
  cbn [refresh_rows]. unfold mbind, stm_bind. destruct (refresh_one c now (id, project, m) st) as [st1 r] eqn:E.
  assert (keyed (rows st1.1) ∧ ∀ p, p ∈ rows st.1 → pf_id p ≠ id → p ∈ rows st1.1) as [Hk1 Hp1].
  { destruct st as [l x]. unfold refresh_one in E. destruct (client_proof c project m x) as [x' [reply|e|]]; [|by injection E as <- <-..].
    pose proof (refresh_id_ids id reply now (so_proofs (lg_store l))) as Hi.
    pose proof (refresh_id_other id reply now (so_proofs (lg_store l))) as Ho.
    destruct (refresh_id id reply now (so_proofs (lg_store l))) as [ps t]. injection E as <- <-. unfold keyed, rows in *. cbn in *. rewrite Hi. eauto. }
  destruct r as [t|e|].
  - destruct (IH (ch + t) st1 Hk1) as [Hk2 Hp2]. split; [done|]. intros p Hp Hr. apply Hp2; [|set_solver].
    apply Hp1; [done|]. intros E'. apply (Hr (id, project, m)); [set_solver|done].
  - split; [done|]. intros p Hp Hr. apply Hp1; [done|]. intros E'. apply (Hr (id, project, m)); [set_solver|done].
  - split; [done|]. intros p Hp Hr. apply Hp1; [done|]. intros E'. apply (Hr (id, project, m)); [set_solver|done].
Qed.

Lemma save_if_rows ch (st : Ledger * X) : rows (save_if ch st).1.1 = rows st.1.
Proof.
  unfold save_if. destruct (0 <? ch); [|done]. unfold mbind, stm_bind, save_ledger. destruct st as [l x].
  by destruct (save_store _ _ _) as [x' [[]|e|]].
Qed.

Lemma pending_unpublished s p r : keyed (so_proofs s) → p ∈ so_proofs s → pf_state p = Published → r ∈ pending s → r.1.1 ≠ pf_id p.
Proof.
  intros Hk Hp Hs (q & Hq & E)%list_elem_of_omap. intros Hid. destruct (is_pending (pf_state q)) eqn:Eq; [|done].
  destruct (pf_mm0_proof q) as [m|]; [|done]. injection E as <-. cbn in Hid. rewrite (keyed_eq _ q p Hk Hq Hp Hid), Hs in Eq. done.
Qed.

Lemma op_keeps (st : Ledger * X) o : keeps_published (rows st.1) (rows (op_step st o).1).
Proof.
  destruct o as [actor project title mm0 mm1 now|now]; cbn [op_step].
  - unfold publish. destruct st as [l x]. cbn [fst]. set (id := record_id title mm0 mm1).
    set (go := match lg_client l with None => _ | Some c => _ end).
    assert ((∀ q, q ∈ rows l → pf_id q = id → pf_state q ≠ Published) → keeps_published (rows l) (rows go.1.1)) as Hgo.
    { intros Hq. unfold go. destruct (lg_client l) as [c|]; [|done]. unfold submit, mbind, stm_bind, on_net.
      destruct (client_publish c project title mm0 mm1 x) as [x1 [reply|e|]]; [|done..]. cbn [set_store].
      assert (keeps_published (rows l) (so_proofs (put_proof (new_proof id actor project title mm0 mm1 now reply) (lg_store l)))) as Hp.
      { apply put_keeps. intros q Hin E. apply Hq; [done|]. rewrite E. unfold new_proof. by repeat case_match. }
      unfold save_ledger. destruct (save_store _ _ _) as [x2 [[]|e|]]; exact Hp. }
    destruct (by_id (lg_store l) id) as [p|] eqn:E.
    + case_bool_decide as Hs; [done|]. intros Hk. apply Hgo; [|done]. intros q Hq Eq Hqs. apply by_id_elem in E as [Hp Hi].
      rewrite (keyed_eq _ p q Hk Hp Hq) in Hs by congruence. done.
    + apply Hgo. intros q Hq Eq. by destruct (by_id_None _ _ _ E Hq).
  - unfold refresh. destruct (lg_client st.1) as [c|]; [|done]. intros Hk. unfold mbind, stm_bind.
    pose proof (refresh_rows_keep c now (pending (lg_store st.1)) 0 st Hk) as [Hk' Hp'].
    destruct (refresh_rows _ _ _ _ st) as [st1 [ch|e|]]; cbn [fst] in *; [rewrite save_if_rows|..]; (split; [done|]); intros p Hp Hs;
      (apply Hp'; [done|]); intros r Hr; exact (pending_unpublished _ p r Hk Hp Hs Hr).
Qed.

(** C32. A published proof is final: over any sequence of submissions and
    refreshes, whatever the backend answers and whether or not saving works, a
    row that is published stays exactly as it is (its DOI included), and no two
    rows share an id. *)
Theorem published_final (st : Ledger * X) ops :
  keyed (rows st.1) →
  let st' := foldl op_step st ops in
  keyed (rows st'.1) ∧ ∀ p, p ∈ rows st.1 → pf_state p = Published → p ∈ rows st'.1.
Proof.
  intros Hk. cbn zeta. revert st Hk. induction ops as [|o ops IH]; intros st Hk; [done|]. cbn [foldl].
  destruct (op_keeps st o Hk) as [Hk1 Hp1]. destruct (IH _ Hk1) as [Hk2 Hp2]. eauto.
Qed.
End ledger.
End RefiProofs.
