(* ===== verification/RefiAccounts.v ===== *)
(** * Accounts ([refi/src/accounts.rs])

    Roles, custodial accounts with hashed bearer tokens, and their store. *)

From S2P Require Import Prelude Text RefiUtil RefiJson RefiEngine.
Import RefiUtil RefiJson RefiEngine.

Module RefiAccounts.

Inductive Role := Customer | Merchant | Admin.
#[export] Instance role_eq_dec : EqDecision Role.
Proof. solve_decision. Defined.
Definition role_str (r : Role) : bytes := match r with Customer => str "customer" | Merchant => str "merchant" | Admin => str "admin" end.
Definition role_parse (s : bytes) : option Role :=
  if bool_decide (s = str "customer") then Some Customer
  else if bool_decide (s = str "merchant") then Some Merchant
  else if bool_decide (s = str "admin") then Some Admin
  else None.

Record Account := { ac_did : bytes; ac_name : bytes; ac_role : Role; ac_secret : bytes; ac_token : bytes; ac_created_at : Z }.
Abbreviation AccountStore := (list Account).
Definition account_is_admin (a : Account) : bool := bool_decide (ac_role a = Admin).
Definition public (a : Account) (reserves : list (bytes * Z)) (coins merchant_balance : Z) : json :=
  obj [("did", JStr (ac_did a)); ("name", JStr (ac_name a)); ("role", JStr (role_str (ac_role a))); ("created_at", JNum (ac_created_at a));
       ("reserves", JArr ((λ r, obj [("reserve_id", JStr r.1); ("balance", JNum r.2)]%string) <$> reserves));
       ("certificates", JNum coins); ("merchant_balance", JNum merchant_balance)]%string.

Class AccountCodec := { encode_accounts : AccountStore → option bytes; decode_accounts : bytes → option AccountStore }.
(** The DID of the key pair of a seed. *)
Class Keys := did_of : bytes → bytes.

Section accounts.
Context {X : Type} `{Storage X, AccountCodec, Sha256, HexText, Keys}.

Definition load_accounts (path : bytes) : stm X bytes AccountStore := λ x,
  let '(x, r) := st_read path x in
  (x, match r with
      | Ok (Some b) => match decode_accounts b with
                       | Some l => Ok l
                       | None => Err (str "accounts file " ++ path ++ str " is not valid: ")
                       end
      | Ok None => Ok []
      | Err e => Err (str "read " ++ path ++ str ": " ++ e)
      | Panic => Panic
      end).
Definition save_accounts (path : bytes) (l : AccountStore) : stm X bytes () :=
  match encode_accounts l with None => stm_err (str "encode accounts: ") | Some b => st_write_atomic path b end.

(** [seed] and [random] are the random bytes drawn. *)
Definition random_token (prefix random : bytes) : bytes := prefix ++ hex_encode random.
Definition create (name : bytes) (role : Role) (seed random : bytes) (now : Z) (l : AccountStore) : Account * bytes * AccountStore :=
  let token := random_token (str "refi_") random in
  let a := {| ac_did := did_of seed; ac_name := name; ac_role := role; ac_secret := hex_encode seed;
              ac_token := sha256_hex token; ac_created_at := now |} in
  (a, token, l ++ [a]).

Definition by_did (l : AccountStore) (did : bytes) : option Account := head (filter (λ a, ac_did a = did) l).
Definition by_token (l : AccountStore) (token : bytes) : option Account :=
  head (filter (λ a, ct_eq (ac_token a) (sha256_hex token) = true) l).

(** The signing seed: [hex::decode], then exactly 32 bytes. *)
Definition seed_of (a : Account) : option bytes :=
  b ← hex_decode (ac_secret a); if Zlen b =? 32 then Some b else None.

Lemma role_roundtrip r : role_parse (role_str r) = Some r.
Proof. by destruct r. Qed.
Lemma by_token_Some l t a : by_token l t = Some a → a ∈ l ∧ ac_token a = sha256_hex t.
Proof.
  unfold by_token. intros Ha. assert (a ∈ filter (λ a, ct_eq (ac_token a) (sha256_hex t) = true) l) as Hin
    by (destruct (filter _ l); [done|injection Ha as ->; left]).
  apply list_elem_of_filter in Hin as [Ht%ct_eq_exact Hin]. done.
Qed.
End accounts.
End RefiAccounts.
