(* ===== verification/RefiSite.v ===== *)
(** * The pages of the site ([refi/src/site.rs])

    The templates as functions from a view to the bytes of the page. A value is
    written into a template by [format], with the escaping the source gives it;
    in the templates a backquote stands for a double quote. Shortening an
    identifier slices it at fixed byte positions, so it can panic. *)

From S2P Require Import Prelude Text RefiUtil RefiJson RefiRead RefiAccounts RefiContent RefiProofs.
Import RefiUtil RefiJson RefiRead RefiAccounts RefiContent RefiProofs.

Module RefiSite.

(** What a page shows. *)
Record Chrome := { ch_pages : list (bytes * bytes); ch_sandbox : bool; ch_base_url : bytes }.
Inductive view :=
| V_home (status registry : json) (proofs : list Proof_) (certs : list json)
| V_registry (registry : json) (proofs : list (bytes * bytes * bytes * option bytes))
| V_not_found | V_api_docs | V_page (p : Page) | V_login (error : option bytes)
| V_dashboard (pages : list Page) (accounts : list Account) (status audit : json) (csrf : bytes)
| V_editor (p : option Page) (csrf : bytes)
| V_proofs (proofs : list Proof_) (counts : nat * nat * nat) (configured : bool) (backend : option bytes) (certs : list json)
| V_admin_proofs (proofs : list Proof_) (counts : nat * nat * nat) (configured : bool) (backend : option bytes) (csrf : bytes)
| V_proof_page (d : ProofDetail) | V_proof_result (p : Proof_) | V_admin_proof_detail (d : ProofDetail) (csrf : bytes).

(** ** Templates *)
Definition tpl (s : String.string) : bytes := (λ b, if bool_decide (b = Byte.x60) then Byte.x22 else b) <$> str s.
Definition lit (l : list String.string) : bytes := concat (tpl <$> l).
(** A template cut at its placeholders. *)
Fixpoint pieces (s : bytes) : list bytes :=
  match s with
  | [] => [[]]
  | b :: t =>
      match b, t with
      | Byte.x7b, Byte.x7d :: u => [] :: pieces u
      | _, _ => match pieces t with p :: ps => (b :: p) :: ps | [] => [[b]] end
      end
  end.
Fixpoint weave (ps args : list bytes) : bytes :=
  match ps, args with
  | p :: ps, a :: args => p ++ a ++ weave ps args
  | ps, _ => concat ps
  end.
(** [format!] *)
Definition format (l : list String.string) (args : list bytes) : bytes := weave (pieces (lit l)) args.

Definition str_of (v : json) (key : String.string) (d : bytes) : bytes := default d (as_str (at_key v key)).
Definition u64_of (v : json) (key : String.string) : bytes := dec (default 0 (as_u64 (at_key v key))).
Definition ok_class (b : bool) : bytes := if b then str "ok" else str "muted".
Definition is_unspent (c : json) : bool := bool_decide (as_str (at_key c "status") = Some (str "unspent")).
Definition dash : bytes := str "—".

Section site.
Context {E : Type}.

Definition layout (title : bytes) (chrome : Chrome) (body : bytes) (admin : bool) : bytes :=
  let nav_pages := concat ((λ p, format ["<a href=`/pages/{}`>{}</a>"]%string [escape_html p.1; escape_html p.2]) <$> ch_pages chrome) in
  let admin_link := if admin then lit ["<a class=`admin-link` href=`/admin`>admin</a>"]%string else [] in
  let banner :=
    if ch_sandbox chrome then lit
      ["<div class=`banner`><strong>Sandbox settlement.</strong> Bank wires are simulated ";
          "in-process; no fiat, securities or carbon instruments change hands.</div>"]%string
    else [] in
  format
    ["<!doctype html><html lang=`en`><head><meta charset=`utf-8`>";
        "<meta name=`viewport` content=`width=device-width,initial-scale=1`>";
        "<title>{} · ReFi Exchange</title>";
        "<link rel=`stylesheet` href=`/style.css`>";
        "<meta name=`description` content=`GNU Taler-style settlement over the unfer carbon-certificate ledger`>";
        "</head><body>{}";
        "<header class=`top`><a class=`brand` href=`/`><span class=`mark`>◈</span> ReFi Exchange</a>";
        "<nav><a href=`/`>Home</a><a href=`/registry`>Registry</a><a href=`/proofs`>Proofs</a><a href=`/api`>API</a>{}{}</nav>";
        "</header><main>{}</main>";
        "<footer><span>GNU Taler-style exchange adapter · unfer certificate ledger</span>";
        "<span class=`mono`>{}</span>";
        "<span><a href=`/pages/sandbox`>sandbox notice</a></span></footer>";
        "</body></html>"]%string
    [escape_html title; banner; nav_pages; admin_link; body; escape_html (ch_base_url chrome)].

Definition stat (label value hint : bytes) : bytes :=
  format
    ["<div class=`stat`><div class=`stat-label`>{}</div><div class=`stat-value`>{}</div><div class=`stat-hint`>{}</div></div>"]%string
    [escape_html label; escape_html value; escape_html hint].

Definition short (s : bytes) : res E bytes :=
  if 18 <? Zlen s then
    if is_char_boundary s 10 && is_char_boundary s (Zlen s - 6)
    then Ok (take 10 s ++ str "…" ++ drop (length s - 6) s) else Panic
  else Ok s.

(** ** Proofs in a table *)
Definition backs (p : Proof_) (c : json) : bool := bool_decide (pf_doi p = as_str (at_key c "source")).
Definition row_title (admin : bool) (p : Proof_) : bytes :=
  if admin then format ["<a href=`/admin/proofs/{}`>{}</a>"]%string [escape_html (pf_id p); escape_html (pf_title p)]
  else escape_html (pf_title p).
Definition row_doi (p : Proof_) : res E bytes :=
  match doi_url p, pf_doi p with
  | Some url, Some doi => Ok (format ["<a href=`{}` rel=`noopener`>{}</a>"]%string [escape_html url; escape_html doi])
  | _, _ =>
      match pf_mm0_proof p with
      | Some id => id ← short id; Ok (format ["<span class=`mono small`>{}</span>"]%string [escape_html id])
      | None => Ok dash
      end
  end.
Definition row_record (p : Proof_) : bytes :=
  match pf_url p with
  | Some url => format [" · <a href=`{}` rel=`noopener` target=`_blank`>zenodo ↗</a>"]%string [escape_html url]
  | None => []
  end.
Definition row_certificate (c : json) : bytes :=
  let cert := escape_html (str_of c "cert_id" []) in
  let status := str_of c "status" [] in
  format
    ["<div><a class=`mono small` href=`/registry#cert-{}`>{}</a> · {} units · ";
        "<span class=`pill {}`>{}</span></div>"]%string
    [cert; cert; u64_of c "amount"; ok_class (bool_decide (status = str "unspent")); escape_html status].
Definition row_cell (paired : bool) (certs : list json) (p : Proof_) : bytes :=
  if paired then
    let mine := concat (row_certificate <$> filter (λ c, backs p c = true) certs) in
    format ["<td>{}</td>"]%string [if bool_decide (mine = []) then lit ["<span class=`muted`>—</span>"]%string else mine]
  else [].
Definition proof_row (admin paired : bool) (certs : list json) (p : Proof_) : res E bytes :=
  doi ← row_doi p;
  sha ← short (pf_sha256 p);
  Ok (format
    ["<tr><td>{}</td><td><span class=`pill {}`>{}</span></td>";
        "<td>{}</td><td class=`mono small`>{}</td><td class=`num`>{}</td>{}</tr>"]%string
    [row_title admin p; ok_class (bool_decide (pf_state p = Published)); escape_html (state_str (pf_state p));
     doi ++ row_record p; escape_html sha; dec (pf_updated_at p); row_cell paired certs p]).
Definition proof_rows (proofs : list Proof_) (admin : bool) (certs : list json) : res E bytes :=
  let paired := existsb (λ c, existsb (λ p, backs p c) proofs) certs in
  rows ← mapM_res (proof_row admin paired certs) proofs;
  Ok (if bool_decide (concat rows = []) then lit
      ["<p class=`empty`>No proofs yet. An operator submits an mm0 development from the ";
          "<a href=`/admin/proofs`>console</a>; it is verified by <code>mm0-rs</code> and ";
          "<code>mm0-c</code> and archived on Zenodo with a DOI.</p>"]%string
    else format
      ["<table><thead><tr><th>Proof</th><th>State</th><th>DOI</th><th>Digest</th>";
          "<th class=`num`>Updated</th>{}</tr></thead><tbody>{}</tbody></table>"]%string
      [if paired then lit ["<th>Certificate</th>"]%string else []; concat rows]).

(** ** Public pages *)
Definition home_row (c : json) : res E bytes :=
  id ← short (str_of c "cert_id" []);
  owner ← short (str_of c "owner" []);
  Ok (format
    ["<tr><td class=`mono`>{}</td><td>{}</td><td class=`num`>{}</td><td>{}</td><td class=`mono small`>{}</td><td><span class=`pill {}`>{}</span></td></tr>"]%string
    [escape_html id; escape_html (str_of c "kind" (str "certificate")); u64_of c "amount"; escape_html owner;
     escape_html (str_of c "source" dash); ok_class (is_unspent c); escape_html (str_of c "status" [])]).
Definition home (chrome : Chrome) (status registry : json) (proofs : list Proof_) (certs : list json) : res E bytes :=
  let ledger := at_key status "ledger" in
  let fiat := at_key status "fiat" in
  rows ← mapM_res home_row (take 8 (default [] (as_array (at_key registry "certificates"))));
  let table := if bool_decide (concat rows = []) then lit
      ["<p class=`empty`>No certificates minted yet. The treasury mints against a UNFCCC provenance reference; see the <a href=`/api`>API</a>.</p>"]%string
    else format
      ["<table><thead><tr><th>Certificate</th><th>Kind</th><th class=`num`>Amount</th><th>Owner</th><th>Provenance</th><th>Status</th></tr></thead><tbody>{}</tbody></table>"]%string
      [concat rows] in
  pair ← proof_rows (take 4 proofs) false certs;
  root ← short (str_of ledger "root" []);
  let body := format
    ["<section class=`hero`><div class=`kicker`>Carbon certificates · Taler settlement</div>";
        "<h1>Verified tonnes, settled as spendable value.</h1>";
        "<p class=`lede`>A certificate ledger that proves conservation and a GNU Taler-style exchange ";
        "that turns reserve credit into e-coins — the same signed, replayable state for both fiat-backed ";
        "value and UNFCCC-backed carbon.</p>";
        "<div class=`cta`><a class=`button` href=`/api`>Read the API</a>";
        "<a class=`button ghost` href=`/registry`>Open the registry</a></div></section>";
        "<section class=`stats`>{}{}{}{}</section>";
        "<section class=`panel`><div class=`panel-head`><h2>Ledger state</h2>";
        "<span class=`mono small`>seq {} · root {}</span></div>";
        "<div class=`kv`><div><span>Mint authority</span><code>{}</code></div>";
        "<div><span>Fiat in / out</span><code>{} / {}</code></div>";
        "<div><span>Reserve liabilities</span><code>{}</code></div>";
        "<div><span>Merchant balances</span><code>{}</code></div>";
        "<div><span>Outstanding e-coins</span><code>{}</code></div></div></section>";
        "<section class=`panel`><div class=`panel-head`><h2>Newest certificates</h2>";
        "<a href=`/registry` class=`small`>full registry →</a></div>{}</section>";
        "<section class=`panel`><div class=`panel-head`><h2>Newest proofs</h2>";
        "<a href=`/proofs` class=`small`>all proofs →</a></div>{}</section>"]%string
    [stat (str "Certificates in circulation") (u64_of ledger "total_supply") (u64_of ledger "unspent" ++ str " unspent");
     stat (str "Ledger sequence") (u64_of status "seq") (str "signed ops");
     stat (str "Reserve liabilities") (u64_of status "reserves_total") (str "sandbox units");
     stat (str "Merchant balances") (u64_of status "merchants_total") (str "redeemable");
     u64_of status "seq"; escape_html root; escape_html (str_of status "treasury_did" []); u64_of fiat "in"; u64_of fiat "out";
     u64_of status "reserves_total"; u64_of status "merchants_total"; u64_of status "funded_outstanding"; table; pair] in
  Ok (layout (str "Home") chrome body false).

Definition is_attested (c : json) : bool := bool_decide (as_str (at_key c "kind") = Some (str "attested")).
Definition backed_by (proofs : list (bytes * bytes * bytes * option bytes)) (c : json) : bytes :=
  if negb (is_attested c) then lit ["<span class=`muted`>—</span>"]%string else
  let doi := str_of c "source" [] in
  match list_find (λ p, p.1.1.1 = doi) proofs with
  | Some (_, (_, id, title, record)) =>
      let href := default (str "https://doi.org/" ++ doi) record in
      format
        ["<a href=`/proofs/{}`>{}</a> · ";
            "<a href=`{}` rel=`noopener` target=`_blank`>zenodo record ↗</a>"]%string
        [escape_html id; escape_html title; escape_html href]
  | None => lit ["<span class=`muted`>—</span>"]%string
  end.
Definition registry_row (attested : bool) (proofs : list (bytes * bytes * bytes * option bytes)) (c : json) : bytes :=
  let extra := if attested then format ["<td>{}</td>"]%string [backed_by proofs c] else [] in
  let cert := escape_html (str_of c "cert_id" []) in
  format
    ["<tr id=`cert-{}`><td class=`mono small`>{}</td><td>{}</td><td class=`num`>{}</td><td class=`mono small`>{}</td>";
        "<td class=`mono small`>{}</td><td class=`num`>{}</td><td><span class=`pill {}`>{}</span></td>{}</tr>"]%string
    [cert; cert; escape_html (str_of c "kind" (str "certificate")); u64_of c "amount"; escape_html (str_of c "owner" []);
     escape_html (str_of c "source" dash); u64_of c "seq"; ok_class (is_unspent c); escape_html (str_of c "status" []); extra].
Definition registry (chrome : Chrome) (registry : json) (proofs : list (bytes * bytes * bytes * option bytes)) : bytes :=
  let certificates := default [] (as_array (at_key registry "certificates")) in
  let attested := existsb is_attested certificates in
  let rows := concat (registry_row attested proofs <$> certificates) in
  let body := format
    ["<section class=`panel`><div class=`panel-head`><h2>Certificate registry</h2>";
        "<span class=`small`>{}</span></div>";
        "<p class=`small muted`>Every mint on the consensus log, resolved against the live unspent set. ";
        "A spent row is history; an unspent row is a certificate that can still move.";
        "An <code>attested</code> row was minted against a published proof's DOI, ";
        "<a href=`/proofs`>backed by an archived verification</a>.</p>";
        "<table><thead><tr><th>Certificate id</th><th>Kind</th><th class=`num`>Amount</th><th>Owner</th>";
        "<th>Provenance</th><th class=`num`>Seq</th><th>Status</th>{}</tr></thead>";
        "<tbody>{}</tbody></table></section>"]%string
    [u64_of registry "count" ++ str " rows"; if attested then lit ["<th>Backed by</th>"]%string else [];
     if bool_decide (rows = [])
     then format ["<tr><td colspan=`{}` class=`empty`>Nothing minted yet.</td></tr>"]%string [dec (if attested then 8 else 7)]
     else rows] in
  layout (str "Registry") chrome body false.

(** Rendering always ends: the default is never used. *)
Definition markdown (body : bytes) : bytes := default [] (render_markdown body).
Definition page_view (chrome : Chrome) (p : Page) : bytes :=
  let body := format
    ["<article class=`prose`><div class=`kicker`>Page · rev {}</div><h1>{}</h1>{}</article>";
        "<p class=`small muted`>Last edited {} by <span class=`mono`>{}</span> · ";
        "<a href=`/admin/pages/{}`>edit in admin</a></p>"]%string
    [dec (pg_revision p); escape_html (pg_title p); markdown (pg_body p); dec (pg_updated_at p); escape_html (pg_author p);
     escape_html (pg_slug p)] in
  layout (pg_title p) chrome body false.

Definition api_docs (chrome : Chrome) (base_url : bytes) : bytes :=
  let body := format
    ["<article class=`prose`><div class=`kicker`>HTTP API · v1</div>";
        "<h1>Exchange API</h1>";
        "<p>All endpoints are JSON over HTTPS. Authenticate with ";
        "<code>Authorization: Bearer &lt;token&gt;</code>. Register with ";
        "<code>POST /api/v1/accounts</code> and store the returned token — it is shown once.</p>";
        "<h2>Public reads</h2>";
        "<ul><li><code>GET /api/v1/status</code> — treasury, sequence, ledger root, supply, fiat totals</li>";
        "<li><code>GET /api/v1/registry</code> — certificates plus provenance and spent status</li>";
        "<li><code>GET /api/v1/denominations</code> — live and expired denominations</li>";
        "<li><code>GET /api/v1/ops?limit=50</code> — the signed consensus log</li></ul>";
        "<h2>Account lifecycle (sandbox settlement)</h2>";
        "<ol><li><code>POST /api/v1/reserves</code> — open a reserve (idempotent)</li>";
        "<li><code>POST /api/v1/reserves/&lt;id&gt;/peg-in</code> <code>{`amount`:100}</code> — simulate an ";
        "incoming bank wire; booked and confirmed in-process</li>";
        "<li><code>POST /api/v1/reserves/&lt;id&gt;/withdraw</code> <code>{`amount`:100}</code> — turn reserve ";
        "credit into an e-coin of a live denomination</li>";
        "<li><code>POST /api/v1/deposits</code> <code>{`coins`:[`&lt;id&gt;`],`merchant`:`did:unfer:…`}</code> ";
        "— pay a merchant; the e-coin is retired and the merchant's fiat balance credited</li>";
        "<li><code>POST /api/v1/peg-outs</code> <code>{`amount`:50,`bank_account`:`DE…`}</code> — reserve a ";
        "wire out; an operator confirms it with <code>POST /api/v1/peg-outs/&lt;wire&gt;/confirm</code></li></ol>";
        "<h2>Carbon certificates</h2>";
        "<p>The treasury mints with <code>POST /api/v1/admin/mint</code> ";
        "<code>{`amount`:10,`owner`:`did:unfer:…`,`source`:`unfccc:vc:&lt;order&gt;`}</code>. ";
        "The provenance must be a UNFCCC order or a DOI ";
        "(<code>10.&lt;registrant&gt;/&lt;suffix&gt;</code>); a DOI is what a certificate minted ";
        "from a published proof carries. Transfers conserve value exactly: ";
        "<code>POST /api/v1/transfers</code> with inputs and <code>{`amount`,`to`}</code> outputs.</p>";
        "<h2>Proofs</h2>";
        "<p>An operator submits an mm0 development with ";
        "<code>POST /api/v1/admin/proofs</code> ";
        "<code>{`title`:`…`,`mm0`:`…`,`mm1`:`…`,`project`:`refi`}</code>; ";
        "it comes back <code>202 queued</code>, <code>verified</code> or <code>rejected</code>. ";
        "The ledger is public: <code>GET /api/v1/proofs</code> and ";
        "<code>GET /api/v1/proofs/&lt;id&gt;</code> (the latter also lists the certificates minted ";
        "from that proof's DOI). Mint from one with ";
        "<code>POST /api/v1/proofs/&lt;id&gt;/mint</code> ";
        "<code>{`amount`:10,`owner`:`did:unfer:…`}</code> — the provenance on the ";
        "mint is the proof's DOI.</p>";
        "<h2>Operations</h2>";
        "<ul><li><code>GET /api/v1/audit</code> (admin) — the fiat conservation identity</li>";
        "<li><code>POST /api/v1/admin/denominations</code> <code>{`value`:100,`expires_seq`:1000}</code></li>";
        "<li><code>GET /metrics</code> — Prometheus text</li>";
        "<li><code>GET /healthz</code> — audit + policy liveness</li></ul>";
        "<h2>Errors</h2>";
        "<pre><code>{`error`:{`code`:`UK-7102`,`name`:`TalerInsufficientBalance`,`message`:`…`}}</code></pre>";
        "<p class=`small muted`>Base URL: <span class=`mono`>{}</span> · sandbox settlement · no fiat moves.</p>";
        "</article>"]%string
    [escape_html base_url] in
  layout (str "API") chrome body false.

Definition not_found (chrome : Chrome) : bytes :=
  layout (str "Not found") chrome (lit
    ["<section class=`panel`><h1>Not found</h1><p>That page does not exist. ";
        "<a href=`/`>Return home</a>.</p></section>"]%string) false.

(** ** The admin console *)
Definition page_row (csrf : bytes) (p : Page) : bytes :=
  let slug := escape_html (pg_slug p) in
  format
    ["<tr><td><a href=`/admin/pages/{}`>{}</a></td><td class=`mono small`>{}</td>";
        "<td><span class=`pill {}`>{}</span></td><td class=`num`>r{}</td><td class=`num`>{}</td>";
        "<td class=`actions`><form method=`post` action=`/admin/pages/{}/publish`>";
        "<input type=`hidden` name=`token` value=`{}`>";
        "<button class=`mini` type=`submit`>{}</button></form>";
        "<form method=`post` action=`/admin/pages/{}/delete`>";
        "<input type=`hidden` name=`token` value=`{}`>";
        "<button class=`mini danger` type=`submit`>delete</button></form></td></tr>"]%string
    [slug; escape_html (pg_title p); slug; ok_class (pg_published p); if pg_published p then str "published" else str "draft";
     dec (pg_revision p); dec (pg_updated_at p); slug; escape_html csrf; if pg_published p then str "unpublish" else str "publish";
     slug; escape_html csrf].
Definition account_row (a : Account) : bytes :=
  format
    ["<tr><td>{}</td><td class=`mono small`>{}</td><td><span class=`pill`>{}</span></td><td class=`num`>{}</td></tr>"]%string
    [escape_html (ac_name a); escape_html (ac_did a); escape_html (role_str (ac_role a)); dec (ac_created_at a)].
Definition audit_ok (audit : json) : bool := match at_key audit "ok" with JBool true => true | _ => false end.
Definition admin_dashboard (chrome : Chrome) (pages : list Page) (accounts : list Account) (status audit : json) (csrf : bytes) : bytes :=
  let rows := concat (page_row csrf <$> pages) in
  let account_rows := concat (account_row <$> accounts) in
  let ledger := at_key status "ledger" in
  let body := format
    ["<section class=`panel`><div class=`panel-head`><h2>Content</h2>";
        "<a class=`button small` href=`/admin/proofs`>Proofs</a>";
        "<a class=`button small` href=`/admin/pages/new`>New page</a></div>";
        "<table><thead><tr><th>Title</th><th>Slug</th><th>State</th><th>Rev</th><th>Updated</th><th></th></tr></thead>";
        "<tbody>{}</tbody></table></section>";
        "<section class=`panel`><div class=`panel-head`><h2>Exchange</h2><span class=`small muted`>sandbox</span></div>";
        "<div class=`kv`><div><span>Seq</span><code>{}</code></div>";
        "<div><span>Ledger root</span><code class=`mono small`>{}</code></div>";
        "<div><span>Supply</span><code>{}</code></div>";
        "<div><span>Audit</span><code class=`{}`>{}</code></div>";
        "<div><span>Assets / liabilities</span><code>{} / {}</code></div></div>";
        "<form class=`inline` method=`post` action=`/admin/denominations`>";
        "<input type=`hidden` name=`token` value=`{}`>";
        "<label>Value <input name=`value` type=`number` min=`1` required></label>";
        "<label>Expires seq <input name=`expires_seq` type=`number` min=`0` placeholder=`horizon`></label>";
        "<button type=`submit`>Issue denomination</button></form>";
        "<form class=`inline` method=`post` action=`/admin/accounts`>";
        "<input type=`hidden` name=`token` value=`{}`>";
        "<label>Name <input name=`name` required maxlength=`64`></label>";
        "<label>Role <select name=`role`><option>customer</option><option>merchant</option><option>admin</option></select></label>";
        "<button type=`submit`>Create account</button></form>";
        "<p class=`small muted`>Account tokens are shown once, in the response of the request that creates them. ";
        "The bootstrap admin token lives in <code>admin.token</code> in the state directory.</p></section>";
        "<section class=`panel`><div class=`panel-head`><h2>Accounts</h2><span class=`small`>{}</span></div>";
        "<table><thead><tr><th>Name</th><th>DID</th><th>Role</th><th>Created</th></tr></thead>";
        "<tbody>{}</tbody></table></section>"]%string
    [if bool_decide (rows = []) then lit ["<tr><td colspan=`6` class=`empty`>No pages.</td></tr>"]%string else rows;
     u64_of status "seq"; escape_html (str_of ledger "root" []); u64_of ledger "total_supply";
     if audit_ok audit then str "ok-text" else str "danger-text"; if audit_ok audit then str "ok" else str "BROKEN";
     u64_of audit "assets"; u64_of audit "liabilities"; escape_html csrf; escape_html csrf; dec (Zlen accounts);
     if bool_decide (account_rows = []) then lit ["<tr><td colspan=`4` class=`empty`>No accounts.</td></tr>"]%string else account_rows] in
  layout (str "Admin") chrome body true.

(** The check box of the editor, whose tag carries the state. *)
Definition check_box (published : bool) : bytes :=
  if published then lit ["<label class=`check`><input type=`checkbox` name=`published` value=`1` checked> Published</label>"]%string
  else lit ["<label class=`check`><input type=`checkbox` name=`published` value=`1` > Published</label>"]%string.
Definition editor (chrome : Chrome) (p : option Page) (csrf : bytes) (notice : option bytes) : bytes :=
  let notice_html := match notice with Some n => format ["<div class=`notice`>{}</div>"]%string [escape_html n] | None => [] end in
  let get (f : Page → bytes) := match p with Some p => f p | None => [] end in
  let body := format
    ["{}<section class=`panel`><div class=`panel-head`><h2>{}</h2>";
        "<a class=`small` href=`/admin`>← back</a></div>";
        "<form method=`post` action=`/admin/pages` class=`stack`>";
        "<input type=`hidden` name=`token` value=`{}`>";
        "<input type=`hidden` name=`slug` value=`{}`>";
        "<label>Title <input name=`title` required maxlength=`160` value=`{}`></label>";
        "<label>Body <textarea name=`body` rows=`18` spellcheck=`false`>{}</textarea></label>";
        "{}";
        "<p class=`small muted`>Markdown subset: <code>#</code>/<code>##</code>/<code>###</code> headings, ";
        "<code>-</code> bullets, <code>**bold**</code>, backtick code, <code>[label](https://…)</code> links. ";
        "Everything else is escaped.</p>";
        "<button type=`submit`>Save page</button></form></section>"]%string
    [notice_html; if bool_decide (is_Some p) then str "Edit page" else str "New page"; escape_html csrf; escape_html (get pg_slug);
     escape_html (get pg_title); escape_html (get pg_body); check_box (match p with Some p => pg_published p | None => false end)] in
  layout (str "Admin · editor") chrome body true.

Definition login (chrome : Chrome) (error : option bytes) : bytes :=
  let err := match error with Some e => format ["<div class=`notice danger`>{}</div>"]%string [escape_html e] | None => [] end in
  let body := format
    ["<section class=`panel narrow`><div class=`panel-head`><h2>Admin sign-in</h2></div>{}";
        "<form method=`post` action=`/admin/login` class=`stack`>";
        "<label>Admin token <input name=`token` type=`password` required autocomplete=`current-password`></label>";
        "<button type=`submit`>Sign in</button></form>";
        "<p class=`small muted`>The token is the contents of <code>admin.token</code> in the service's ";
        "state directory. It is stored hashed; sign-in compares it in constant time.</p></section>"]%string
    [err] in
  layout (str "Admin · sign-in") chrome body true.

(** ** The proof ledger *)
Definition backend_note (configured : bool) (backend : option bytes) : bytes :=
  match configured, backend with
  | true, Some base => format
      ["<p class=`small`>Verification and archiving run on <code>{}</code>: each ";
          "development is checked by <code>mm0-rs</code> and then by <code>mm0-c</code> ";
          "(a warning is a proof hole) before Zenodo stores it and mints a DOI.</p>"]%string
      [escape_html base]
  | _, _ => lit
      ["<p class=`small`>This exchange has no proof backend configured, so ";
          "submissions are refused. Records already archived stay listed here.</p>"]%string
  end.
Definition counters (counts : nat * nat * nat) (pending_hint : String.string) : list bytes :=
  let '(published, pending, failed) := counts in
  [stat (str "Archived") (dec (Z.of_nat published)) (str "with a Zenodo DOI"); stat (str "Pending") (dec (Z.of_nat pending)) (str pending_hint);
   stat (str "Refused") (dec (Z.of_nat failed)) (str "proof hole or backend error")].
Definition proofs (chrome : Chrome) (l : list Proof_) (counts : nat * nat * nat) (configured : bool) (backend : option bytes) (certs : list json) : res E bytes :=
  rows ← proof_rows l false certs;
  let body := format
    ["<section class=`panel`><h1>Proof ledger</h1>{}";
        "<div class=`stats`>{}{}{}</div>{}";
        "<p class=`small`>The machine-readable form is <a href=`/api/v1/proofs`>";
        "/api/v1/proofs</a>.</p></section>"]%string
    ([backend_note configured backend] ++ counters counts "queued or verified, not archived" ++ [rows]) in
  Ok (layout (str "Proofs") chrome body false).
Definition admin_proofs (chrome : Chrome) (l : list Proof_) (counts : nat * nat * nat) (configured : bool) (backend : option bytes) (csrf : bytes) : res E bytes :=
  let form :=
    if configured then format
      ["<form method=`post` action=`/admin/proofs`>";
          "<input type=`hidden` name=`token` value=`{}`>";
          "<p><label>Project <input name=`project` size=`24` value=`refi` required></label></p>";
          "<p><label>Title <input name=`title` size=`64` required></label></p>";
          "<p><label>mm0 spec<br><textarea name=`mm0` rows=`8` cols=`80` required></textarea></label></p>";
          "<p><label>mm1 proofs<br><textarea name=`mm1` rows=`8` cols=`80`></textarea></label></p>";
          "<p><button type=`submit`>Verify and publish</button></p></form>"]%string
      [escape_html csrf]
    else lit
      ["<p class=`empty`>Proof publishing is not configured: start the service with ";
          "<code>--mm0web &lt;url&gt;</code> to reach an mm0web backend.</p>"]%string in
  rows ← proof_rows l true [];
  let body := format
    ["<section class=`panel`><div class=`panel-head`><h2>Submit a proof</h2>";
        "<a class=`small` href=`/admin`>← back</a></div>{}{}</section>";
        "<section class=`panel`><h2>Proof ledger</h2>";
        "<div class=`stats`>{}{}{}</div>{}</section>"]%string
    ([backend_note configured backend; form] ++ counters counts "queued or verified" ++ [rows]) in
  Ok (layout (str "Proofs · admin") chrome body true).

Definition pre (o : option bytes) (l : list String.string) (none : bytes) : bytes :=
  match o with Some (b :: t) => format l [escape_html (b :: t)] | _ => none end.
(** The digital object identifier is written as it is. *)
Definition archive_part (p : Proof_) : bytes :=
  if can_mint p then
    let doi := default [] (pf_doi p) in
    let record :=
      match pf_url p, pf_record p with
      | Some url, Some n => format
          ["<div><span>Record</span><a href=`{}` rel=`noopener` ";
              "target=`_blank`>zenodo record {} ↗</a></div>"]%string
          [escape_html url; dec n]
      | _, _ => []
      end in
    format
      ["<div class=`kv`><div><span>DOI</span><a href=`https://doi.org/{}` ";
          "rel=`noopener`>{}</a></div>{}</div>"]%string
      [doi; doi; record]
  else lit
    ["<p class=`empty`>Not archived: a proof without a DOI is evidence of checking, ";
        "not a citation, so it cannot back a certificate.</p>"]%string.
Definition cert_row (c : json) : res E bytes :=
  let cert := escape_html (str_of c "cert_id" []) in
  owner ← short (str_of c "owner" []);
  Ok (format
    ["<tr><td class=`mono small`><a href=`/registry#cert-{}`>{}</a></td><td class=`num`>{}</td>";
        "<td class=`mono small`>{}</td><td><span class=`pill {}`>{}</span></td></tr>"]%string
    [cert; cert; u64_of c "amount"; escape_html owner; ok_class (is_unspent c); escape_html (str_of c "status" [])]).
Definition mint_form (p : Proof_) (csrf : option bytes) : bytes :=
  match csrf with
  | Some csrf =>
      if can_mint p then format
        ["<form method=`post` action=`/admin/proofs/{}/mint`>";
            "<input type=`hidden` name=`token` value=`{}`>";
            "<p><label>Amount <input name=`amount` size=`12` value=`1` required></label>";
            "<label>Owner <input name=`owner` size=`68` required></label></p>";
            "<p class=`small`>The provenance on the mint is the DOI above; the policy ";
            "kernel still gates the amount and the audit.</p>";
            "<p><button type=`submit`>Mint certificate from this proof</button></p></form>"]%string
        [escape_html (pf_id p); escape_html csrf]
      else []
  | None => []
  end.
Definition proof_view (chrome : Chrome) (detail : ProofDetail) (csrf : option bytes) (title : bytes) (admin : bool) : res E bytes :=
  let p := pd_proof detail in
  let log := pre (pf_log p) ["<pre><code>{}</code></pre>"]%string (lit ["<p class=`empty`>No verification log was recorded for this submission.</p>"]%string) in
  let why := pre (pf_detail p) ["<p class=`small`>{}</p>"]%string [] in
  cert_rows ← mapM_res cert_row (pd_certificates detail);
  let certificates :=
    if bool_decide (concat cert_rows = []) then lit ["<p class=`empty`>No certificate has been minted against this proof yet.</p>"]%string
    else format
      ["<table><thead><tr><th>Certificate</th><th class=`num`>Amount</th><th>Owner</th>";
          "<th>Status</th></tr></thead><tbody>{}</tbody></table>"]%string
      [concat cert_rows] in
  let back := if admin then lit ["<a class=`small` href=`/admin/proofs`>← proofs</a>"]%string else lit ["<a class=`small` href=`/proofs`>← proofs</a>"]%string in
  let who := if admin then format ["<div><span>Submitted by</span><code>{}</code></div>"]%string [escape_html (pf_submitted_by p)] else [] in
  let body := format
    ["<section class=`panel`><div class=`panel-head`><h2>{}</h2>{}</div>";
        "<p>State: <span class=`pill {}`>{}</span></p>";
        "<div class=`kv`><div><span>Id</span><code>{}</code></div>";
        "<div><span>Digest</span><code>{}</code></div>";
        "<div><span>Project</span><code>{}</code></div>";
        "<div><span>mm0web proof</span><code>{}</code></div>";
        "<div><span>Backend</span><code>{}</code></div>{}</div>";
        "<h3>Verification log</h3>{}{}<h3>Archive</h3>{}</section>";
        "<section class=`panel`><div class=`panel-head`><h2>Certificates from this proof</h2>";
        "<span class=`small`>{}</span></div>{}{}</section>"]%string
    [escape_html title; back; ok_class (bool_decide (pf_state p = Published)); escape_html (state_str (pf_state p)); escape_html (pf_id p);
     escape_html (pf_sha256 p); escape_html (pf_project p); escape_html (default dash (pf_mm0_proof p));
     escape_html (default (str "not configured") (pd_backend detail)); who; log; why; archive_part p; dec (Zlen (pd_certificates detail));
     certificates; mint_form p csrf] in
  Ok (layout title chrome body admin).
Definition admin_proof_detail (chrome : Chrome) (detail : ProofDetail) (csrf : bytes) : res E bytes :=
  proof_view chrome detail (Some csrf) (str "Proof · admin") true.
Definition proof_page (chrome : Chrome) (detail : ProofDetail) : res E bytes :=
  proof_view chrome detail None (pf_title (pd_proof detail)) false.
Definition proof_result (chrome : Chrome) (p : Proof_) : bytes :=
  let doi :=
    match doi_url p with
    | Some url => format ["<div><span>DOI</span><a href=`{}`>{}</a></div>"]%string [escape_html url; escape_html (default [] (pf_doi p))]
    | None => lit ["<div><span>DOI</span><code>not archived yet</code></div>"]%string
    end in
  let detail := pre (pf_detail p) ["<pre><code>{}</code></pre>"]%string [] in
  let body := format
    ["<section class=`panel`><div class=`panel-head`><h2>{}</h2>";
        "<a class=`small` href=`/admin/proofs`>← proofs</a></div>";
        "<p>State: <span class=`pill {}`>{}</span></p>";
        "<div class=`kv`><div><span>Id</span><code>{}</code></div>";
        "<div><span>Digest</span><code>{}</code></div>{}";
        "<div><span>mm0web proof</span><code>{}</code></div></div>{}</section>"]%string
    [escape_html (pf_title p); ok_class (bool_decide (pf_state p = Published)); escape_html (state_str (pf_state p)); escape_html (pf_id p);
     escape_html (pf_sha256 p); doi; escape_html (default dash (pf_mm0_proof p)); detail] in
  layout (str "Proof submitted") chrome body true.

Definition render (c : Chrome) (v : view) : res E bytes :=
  match v with
  | V_home status reg l certs => home c status reg l certs
  | V_registry reg l => Ok (registry c reg l)
  | V_not_found => Ok (not_found c)
  | V_api_docs => Ok (api_docs c (ch_base_url c))
  | V_page p => Ok (page_view c p)
  | V_login e => Ok (login c e)
  | V_dashboard pages accounts status audit csrf => Ok (admin_dashboard c pages accounts status audit csrf)
  | V_editor p csrf => Ok (editor c p csrf None)
  | V_proofs l counts configured backend certs => proofs c l counts configured backend certs
  | V_admin_proofs l counts configured backend csrf => admin_proofs c l counts configured backend csrf
  | V_proof_page d => proof_page c d
  | V_proof_result p => Ok (proof_result c p)
  | V_admin_proof_detail d csrf => admin_proof_detail c d csrf
  end.
End site.

Definition style_css : bytes := lit
  [":root{--bg:#0b0f14;--panel:#111820;--line:#1e2a36;--ink:#e6edf3;--muted:#8b9bab;--accent:#34d399;--accent-dim:#0f3d2e;--danger:#f87171;--warn:#fbbf24}
*{box-sizing:border-box}
html{scroll-behavior:smooth}
body{margin:0;background:radial-gradient(1200px 600px at 20% -10%,#12202b 0%,var(--bg) 55%);color:var(--ink);font:16px/1.6 ui-sans-serif,system-ui,-apple-system,`Segoe UI`,sans-serif}
a{color:var(--accent);text-decoration:none}a:hover{text-decoration:underline}
.mono,code,pre{font-family:ui-monospace,SFMono-Regular,Menlo,monospace}
.small{font-size:.84rem}.muted{color:var(--muted)}
.banner{background:var(--accent-dim);border-bottom:1px solid #16513d;color:#c7f5e3;text-align:center;padding:.5rem 1rem;font-size:.86rem}
.top{display:flex;align-items:center;justify-content:space-between;gap:1rem;padding:1rem 2rem;border-bottom:1px solid var(--line);position:sticky;top:0;background:rgba(11,15,20,.86);backdrop-filter:blur(8px);z-index:5;flex-wrap:wrap}
.brand{font-weight:700;letter-spacing:-.01em;color:var(--ink)}.mark{color:var(--accent)}
nav{display:flex;gap:1.1rem;align-items:center;flex-wrap:wrap}
nav a{color:var(--muted);font-size:.92rem}nav a:hover{color:var(--ink);text-decoration:none}
.admin-link{color:var(--accent)!important}
main{max-width:1080px;margin:0 auto;padding:2.4rem 1.4rem 4rem}
.hero{padding:2.4rem 0 1.6rem;max-width:780px}
.kicker{color:var(--accent);text-transform:uppercase;letter-spacing:.14em;font-size:.74rem;font-weight:600}
h1{font-size:clamp(2rem,4vw,3rem);line-height:1.1;letter-spacing:-.03em;margin:.6rem 0 1rem}
h2{font-size:1.2rem;margin:0;letter-spacing:-.01em}
.lede{color:var(--muted);font-size:1.06rem;max-width:64ch}
.cta{display:flex;gap:.7rem;margin-top:1.4rem;flex-wrap:wrap}
.button{display:inline-block;padding:.6rem 1.05rem;border-radius:.5rem;background:var(--accent);color:#04150f;font-weight:600;font-size:.92rem;border:1px solid var(--accent)}
.button:hover{text-decoration:none;filter:brightness(1.08)}
.button.ghost{background:transparent;color:var(--ink);border-color:var(--line)}
.stats{display:grid;grid-template-columns:repeat(auto-fit,minmax(180px,1fr));gap:.9rem;margin:1.6rem 0}
.stat{background:var(--panel);border:1px solid var(--line);border-radius:.7rem;padding:1rem 1.1rem}
.stat-label{color:var(--muted);font-size:.78rem;text-transform:uppercase;letter-spacing:.08em}
.stat-value{font-size:1.8rem;font-weight:700;letter-spacing:-.02em;margin:.2rem 0}
.stat-hint{color:var(--muted);font-size:.8rem}
.panel{background:var(--panel);border:1px solid var(--line);border-radius:.8rem;padding:1.2rem 1.3rem;margin:1.2rem 0}
.panel.narrow{max-width:520px;margin-left:auto;margin-right:auto}
.panel-head{display:flex;justify-content:space-between;align-items:center;gap:1rem;margin-bottom:.9rem;flex-wrap:wrap}
.kv{display:grid;grid-template-columns:repeat(auto-fit,minmax(230px,1fr));gap:.7rem}
.kv>div{border-top:1px solid var(--line);padding-top:.5rem}
.kv span{display:block;color:var(--muted);font-size:.76rem;text-transform:uppercase;letter-spacing:.07em}
.kv code{font-size:.86rem;word-break:break-all}
table{width:100%;border-collapse:collapse;font-size:.9rem}
th{text-align:left;color:var(--muted);font-weight:500;font-size:.76rem;text-transform:uppercase;letter-spacing:.07em;border-bottom:1px solid var(--line);padding:.5rem .4rem}
td{padding:.55rem .4rem;border-bottom:1px solid #16212c;vertical-align:top}
tr:target td{background:#123047}
.num{text-align:right;font-variant-numeric:tabular-nums}
.pill{display:inline-block;padding:.1rem .5rem;border-radius:999px;font-size:.72rem;border:1px solid var(--line);color:var(--muted)}
.pill.ok{border-color:#16513d;color:#7ff0c4;background:#0d2a21}
.empty{color:var(--muted);text-align:center;padding:1.2rem}
.actions{display:flex;gap:.4rem;flex-wrap:wrap}.actions form{margin:0}
.mini{padding:.2rem .5rem;font-size:.74rem;border-radius:.35rem;background:#16212c;color:var(--ink);border:1px solid var(--line);cursor:pointer}
.mini.danger{color:var(--danger);border-color:#4a1f22}
button{font:inherit;padding:.55rem 1rem;border-radius:.45rem;border:1px solid var(--accent);background:var(--accent);color:#04150f;font-weight:600;cursor:pointer}
button:hover{filter:brightness(1.08)}
.stack{display:flex;flex-direction:column;gap:.9rem}
label{display:flex;flex-direction:column;gap:.35rem;font-size:.84rem;color:var(--muted)}
input,textarea,select{font:inherit;color:var(--ink);background:#0c141c;border:1px solid var(--line);border-radius:.45rem;padding:.55rem .65rem}
textarea{font-family:ui-monospace,SFMono-Regular,Menlo,monospace;font-size:.86rem;line-height:1.5;resize:vertical}
label.check{flex-direction:row;align-items:center;gap:.5rem}
label.check input{width:auto}
.inline{display:flex;gap:.7rem;align-items:flex-end;flex-wrap:wrap;margin-top:1rem;border-top:1px solid var(--line);padding-top:1rem}
.prose{max-width:74ch}.prose h2{margin:1.8rem 0 .6rem;font-size:1.35rem}.prose h3{margin:1.4rem 0 .5rem;font-size:1.1rem}
.prose p{margin:.7rem 0}.prose ul{margin:.7rem 0;padding-left:1.2rem}.prose li{margin:.25rem 0}
.prose code{background:#0c141c;border:1px solid var(--line);padding:.06rem .3rem;border-radius:.3rem;font-size:.86em}
.prose pre{background:#0c141c;border:1px solid var(--line);padding:.8rem;border-radius:.5rem;overflow:auto}
.notice{background:#3a2a10;border:1px solid #6b4e1a;color:#fde8b8;padding:.6rem .8rem;border-radius:.5rem;margin-bottom:1rem;font-size:.88rem}
.notice.danger{background:#3a1416;border-color:#6b1a1f;color:#fecaca}
.ok-text{color:var(--accent)}.danger-text{color:var(--danger)}
footer{max-width:1080px;margin:0 auto;padding:1.4rem;border-top:1px solid var(--line);color:var(--muted);font-size:.8rem;display:flex;gap:1rem;justify-content:space-between;flex-wrap:wrap}
@media (max-width:640px){.top{padding:.8rem 1rem}main{padding-top:1.4rem}td,th{font-size:.82rem}
"]%string.
End RefiSite.
