(* ===== verification/RefiPages.v ===== *)
(** * What the pages promise

    A reader of HTML that follows tags, quoted attribute values and the stack of
    open elements. A page of the site is read to its end with every element
    closed, and meets no element and no attribute but the site's own, whatever
    the ledger and the users wrote, but for the two values that are written
    without being escaped: the rendered body of a content page, and the
    identifier of a published proof. *)

From S2P Require Import Prelude Text RefiUtil RefiJson RefiRead RefiAccounts RefiContent RefiProofs RefiSite.
Import RefiSite RefiUtil RefiJson RefiRead RefiAccounts RefiContent RefiProofs.

Module RefiPages.

(** ** Reading HTML *)
Inductive mode := Content | InTag | InValue.
Record reader := Reader { rd_mode : mode; rd_tag : bytes; rd_open : list bytes }.

(** The elements and the attributes of the site; the last six elements are
    never closed. *)
Definition closed_names : list bytes := str <$>
  ["a"; "article"; "body"; "button"; "code"; "div"; "footer"; "form"; "h1"; "h2"; "h3"; "h4"; "head"; "header"; "html"; "label"; "li"; "main";
   "nav"; "ol"; "option"; "p"; "pre"; "section"; "select"; "span"; "strong"; "table"; "tbody"; "td"; "textarea"; "th"; "thead"; "title"; "tr"; "ul"]%string.
Definition void_names : list bytes := str <$> ["!doctype"; "br"; "input"; "link"; "meta"]%string.
Definition attributes : list bytes := tpl <$>
  [""; "html"; "checked"; "required"; "action=``"; "autocomplete=``"; "charset=``"; "class=``"; "cols=``"; "colspan=``"; "content=``"; "href=``"; "id=``";
   "lang=``"; "maxlength=``"; "method=``"; "min=``"; "name=``"; "placeholder=``"; "rel=``"; "rows=``"; "size=``"; "spellcheck=``"; "target=``";
   "type=``"; "value=``"]%string.
(** A tag, its values left out: what it does to the open elements. *)
Definition tag_step (tag : bytes) (opened : list bytes) : option (list bytes) :=
  match split Byte.x20 tag with
  | name :: atts =>
      if negb (forallb (λ a, bool_decide (a ∈ attributes)) atts) then None
      else match strip_prefix (str "/") name with
           | Some n => match opened with o :: rest => if bool_decide (o = n) then Some rest else None | [] => None end
           | None =>
               if bool_decide (name ∈ void_names) then Some opened
               else if bool_decide (name ∈ closed_names) then Some (name :: opened) else None
           end
  | [] => None
  end.
Definition read_byte (r : option reader) (b : byte) : option reader :=
  '(Reader m tag opened) ← r;
  match m with
  | Content => if bool_decide (b = Byte.x3c) then Some (Reader InTag [] opened) else r
  | InTag =>
      if bool_decide (b = Byte.x3e) then opened ← tag_step tag opened; Some (Reader Content [] opened)
      else Some (Reader (if bool_decide (b = Byte.x22) then InValue else InTag) (tag ++ [b]) opened)
  | InValue => if bool_decide (b = Byte.x22) then Some (Reader InTag (tag ++ [b]) opened) else r
  end.
Definition read (r : option reader) (s : bytes) : option reader := foldl read_byte r s.
Definition at_content (opened : list bytes) : option reader := Some (Reader Content [] opened).
(** Well-formed markup of the site. *)
Definition well_formed (s : bytes) : Prop := read (at_content []) s = at_content [].

(** ** Fragments *)

(** Markup that leaves the elements open around it as they are. *)
Definition frag (s : bytes) : Prop := ∀ opened, read (at_content opened) s = at_content opened.

Lemma read_app r s t : read r (s ++ t) = read (read r s) t.
Proof. apply foldl_app. Qed.
Lemma read_none s : read None s = None.
Proof. by induction s. Qed.
Lemma tag_step_frame tag opened opened' k : tag_step tag opened = Some opened' → tag_step tag (opened ++ k) = Some (opened' ++ k).
Proof.
  unfold tag_step. destruct (split Byte.x20 tag) as [|name atts]; [done|]. destruct (negb _); [done|].
  destruct (strip_prefix (str "/") name).
  - destruct opened as [|o rest]; [done|]. cbn. by case_bool_decide; [intros [= <-]|].
  - case_bool_decide; [by intros [= <-]|]. by case_bool_decide; [intros [= <-]|].
Qed.
Lemma read_byte_frame m tag opened b m' tag' opened' k : read_byte (Some (Reader m tag opened)) b = Some (Reader m' tag' opened') →
  read_byte (Some (Reader m tag (opened ++ k))) b = Some (Reader m' tag' (opened' ++ k)).
Proof.
  unfold read_byte. cbn. destruct m; repeat case_bool_decide; try by intros [= <- <- <-].
  intros (o & Ho & [= <- <- <-])%bind_Some. by rewrite (tag_step_frame _ _ _ _ Ho).
Qed.
Lemma read_frame s : ∀ m tag opened m' tag' opened' k, read (Some (Reader m tag opened)) s = Some (Reader m' tag' opened') →
  read (Some (Reader m tag (opened ++ k))) s = Some (Reader m' tag' (opened' ++ k)).
Proof.
  induction s as [|b s IH]; intros m tag opened m' tag' opened' k; [by intros [= <- <- <-]|].
  change (read ?r (b :: s)) with (read (read_byte r b) s). destruct (read_byte (Some (Reader m tag opened)) b) as [[m1 t1 o1]|] eqn:E.
  - intros Hr. rewrite (read_byte_frame _ _ _ _ _ _ _ k E). by apply IH.
  - by rewrite read_none.
Qed.
Lemma well_formed_frag s : well_formed s → frag s.
Proof. intros Hs opened. by apply (read_frame s _ _ [] _ _ []). Qed.
Lemma frag_well_formed s : frag s → well_formed s.
Proof. intros Hs. apply Hs. Qed.

Abbreviation textual s := (forallb is_text s = true).
Lemma read_text s m tag opened : m ≠ InTag → textual s → read (Some (Reader m tag opened)) s = Some (Reader m tag opened).
Proof.
  intros Hm. induction s as [|b s IH]; [done|]. cbn [forallb]. intros [Hb Hs]%andb_prop.
  change (read ?r (b :: s)) with (read (read_byte r b) s). rewrite <- (IH Hs) at 2. f_equal.
  unfold is_text in Hb. apply negb_true_iff, bool_decide_eq_false in Hb.
  unfold read_byte. cbn. destruct m; [|done|]; rewrite bool_decide_eq_false_2; set_solver.
Qed.
Lemma frag_text s : textual s → frag s.
Proof. intros Hs opened. by apply read_text. Qed.
Lemma frag_nil : frag [].
Proof. done. Qed.
Lemma frag_app s t : frag s → frag t → frag (s ++ t).
Proof. intros Hs Ht opened. by rewrite read_app, Hs, Ht. Qed.
Lemma frag_concat l : Forall frag l → frag (concat l).
Proof. induction 1; [apply frag_nil|by apply frag_app]. Qed.
Lemma frag_if (b : bool) s t : frag s → frag t → frag (if b then s else t).
Proof. by destruct b. Qed.

(** ** Templates *)

(** What a template asks of its arguments: markup between tags, text inside a
    value; nothing is written inside a tag. *)
Definition slot (m : mode) (a : bytes) : Prop := match m with Content => frag a | InValue => textual a | InTag => False end.
Fixpoint plan (r : reader) (ps : list bytes) : option (list mode) :=
  match ps with
  | [] => None
  | p :: ps =>
      r ← read (Some r) p;
      match ps, r with
      | [], Reader Content [] [] => Some []
      | _ :: _, Reader Content [] _ => cons Content <$> plan r ps
      | _ :: _, Reader InValue _ _ => cons InValue <$> plan r ps
      | _, _ => None
      end
  end.
Definition slots (l : list String.string) : option (list mode) := plan (Reader Content [] []) (pieces (lit l)).
Lemma weave_read ps : ∀ r ms args, plan r ps = Some ms → Forall2 slot ms args → read (Some r) (weave ps args) = at_content [].
Proof.
  induction ps as [|p ps IH]; [done|]. intros r ms args. cbn [plan]. intros (r1 & Hr & Hp)%bind_Some Ha. destruct ps as [|p' ps].
  - destruct r1 as [[] [|] [|]]; try done. injection Hp as <-. apply Forall2_nil_inv_l in Ha as ->. cbn. by rewrite app_nil_r.
  - assert (∃ ms' a args', ms = rd_mode r1 :: ms' ∧ args = a :: args' ∧ plan r1 (p' :: ps) = Some ms' ∧ Forall2 slot ms' args' ∧
      read (Some r1) a = Some r1) as (ms' & a & args' & -> & -> & Hp' & Ha' & Hread).
    { destruct r1 as [[] tag opened]; [destruct tag; [|done]|done|];
        apply fmap_Some in Hp as (ms' & Hp & ->); apply Forall2_cons_inv_l in Ha as (a & args' & Hs & Ha & ->);
        eexists _, _, _; split_and!; try done; [apply Hs|by apply read_text]. }
    change (weave (p :: p' :: ps) (a :: args')) with (p ++ a ++ weave (p' :: ps) args'). rewrite !read_app, Hr, Hread. by eapply IH.
Qed.
Lemma frag_format l ms args : slots l = Some ms → Forall2 slot ms args → frag (format l args).
Proof. intros Hl Ha. apply well_formed_frag. by eapply weave_read. Qed.
Lemma frag_lit l : well_formed (lit l) → frag (lit l).
Proof. apply well_formed_frag. Qed.

Lemma text_dec n : textual (dec n).
Proof.
  apply forallb_Forall. eapply Forall_impl; [apply dec_fixed_digits|]. intros b Hb. unfold is_digit in Hb.
  by destruct b; vm_compute in Hb |- *; try (destruct Hb; congruence).
Qed.
Lemma text_app s t : textual s → textual t → textual (s ++ t).
Proof. intros Hs Ht. by rewrite forallb_app, Hs, Ht. Qed.
Lemma text_if (b : bool) s t : textual s → textual t → textual (if b then s else t).
Proof. by destruct b. Qed.
Create HintDb html.
#[export] Hint Resolve escape_html_text text_dec text_app text_if frag_nil frag_app frag_concat frag_if frag_text : html.
#[export] Hint Extern 4 (textual (str _)) => vm_compute; reflexivity : html.
#[export] Hint Extern 4 (frag (lit _)) => apply frag_lit; vm_compute; reflexivity : html.
#[export] Hint Extern 4 (frag (str _)) => apply frag_text; vm_compute; reflexivity : html.
(** A template whose slots take their arguments. *)
Ltac html := cbn zeta; eapply frag_format; [vm_compute; reflexivity|repeat (constructor; [cbn [slot]|]); [..|constructor]]; auto with html.
#[export] Hint Extern 3 (frag (format _ _)) => html : html.

Lemma text_u64 v k : textual (u64_of v k).
Proof. apply text_dec. Qed.
Lemma text_class b : textual (ok_class b).
Proof. by destruct b. Qed.
#[export] Hint Resolve text_u64 text_class : html.
Lemma frag_map {A} (f : A → bytes) l : (∀ x, frag (f x)) → frag (concat (f <$> l)).
Proof. intros Hf. apply frag_concat, Forall_fmap, Forall_forall. auto. Qed.
#[export] Hint Resolve frag_map : html.

(** ** A hole in a template

    [s] is the markup of the site around [a], which is written between tags. *)
Definition frames (s a : bytes) : Prop := ∃ pre post opened,
  s = pre ++ a ++ post ∧ read (at_content []) pre = at_content opened ∧ read (at_content opened) post = at_content [].
Lemma frames_trans s a b : frames s a → frames a b → frames s b.
Proof.
  intros (p & q & o & -> & Hp & Hq) (p' & q' & o' & -> & Hp' & Hq'). exists (p ++ p'), (q' ++ q), (o' ++ o).
  rewrite <-!app_assoc. split; [done|]. rewrite !read_app, Hp. split; [by apply (read_frame p' _ _ [])|].
  by assert (read (at_content (o' ++ o)) q' = at_content o) as -> by exact (read_frame q' _ _ _ _ _ [] o Hq').
Qed.
Lemma weave_hole ps ms2 args2 a : Forall2 slot ms2 args2 → ∀ ms1 args1 r, plan r ps = Some (ms1 ++ Content :: ms2) → Forall2 slot ms1 args1 →
  ∃ pre post opened, weave ps (args1 ++ a :: args2) = pre ++ a ++ post ∧
    read (Some r) pre = at_content opened ∧ read (at_content opened) post = at_content [].
Proof.
  intros Ha2. induction ps as [|p ps IH]; [done|]. intros ms1 args1 r. cbn [plan]. intros (r1 & Hr & Hp)%bind_Some Ha.
  destruct ps as [|p' ps]; [destruct r1 as [[] [|] [|]]; try done; by destruct ms1|].
  destruct Ha as [|m b ms1 args1 Hb Ha].
  - destruct r1 as [[] tag opened]; [destruct tag; [|done]|done|]; apply fmap_Some in Hp as (ms' & Hp & Hm); [injection Hm as <-|done].
    exists p, (weave (p' :: ps) args2), opened. split; [done|]. split; [done|]. by eapply weave_read.
  - assert (m = rd_mode r1 ∧ plan r1 (p' :: ps) = Some (ms1 ++ Content :: ms2) ∧ read (Some r1) b = Some r1) as (_ & Hp' & Hread).
    { destruct r1 as [[] tag opened]; [destruct tag; [|done]|done|]; apply fmap_Some in Hp as (ms' & Hp & Hm); injection Hm as -> <-;
        split_and!; try done; [apply Hb|by apply read_text]. }
    destruct (IH ms1 args1 r1 Hp' Ha) as (pre & post & opened & Hw & H1 & H2). exists (p ++ b ++ pre), post, opened.
    cbn [app]. change (weave (p :: p' :: ps) (b :: ?l)) with (p ++ b ++ weave (p' :: ps) l). rewrite Hw, <-!app_assoc. split; [done|].
    by rewrite !read_app, Hr, Hread.
Qed.
Lemma format_hole l ms1 ms2 args1 args2 a : slots l = Some (ms1 ++ Content :: ms2) → Forall2 slot ms1 args1 → Forall2 slot ms2 args2 →
  frames (format l (args1 ++ a :: args2)) a.
Proof. intros Hl H1 H2. by apply (weave_hole _ ms2 args2 a H2 ms1 args1 _ Hl). Qed.

(** ** Rendered bodies *)

(** A link as the renderer cuts it. *)
Definition link_cut (s : bytes) : option (bytes * bytes * bytes * bytes) :=
  '(pre, rest) ← split_once (str "[") s;
  '(label, rest) ← split_once (str "](") rest;
  '(url, post) ← split_once (str ")") rest;
  Some (pre, label, url, post).
Definition no_bracket (s : bytes) : bool := forallb (λ c, negb (bool_decide (c = Byte.x5b))) s.
Definition unmarked (s : bytes) : bool := forallb (λ c, negb (bool_decide (c ∈ [Byte.x2a; Byte.x60]))) s.
(** No ['['] inside a link. *)
Fixpoint flat_links (fuel : nat) (s : bytes) : bool :=
  match link_cut s with
  | None => true
  | Some (_, label, url, post) =>
      no_bracket label && no_bracket url && match fuel with O => false | S fuel => flat_links fuel post end
  end.
(** The text of a line. *)
Definition line_text (raw : bytes) : bytes :=
  let e := escape_html (trim_end raw) in
  match strip_prefix (str "### ") e with Some t => t | None =>
  match strip_prefix (str "## ") e with Some t => t | None =>
  match strip_prefix (str "# ") e with Some t => t | None =>
  match strip_prefix (str "- ") e with Some t => t | None => e end end end end.
(** A line has no link, or links that contain no ['['] and neither an asterisk
    nor a backquote. *)
Definition tidy_text (t : bytes) : bool := bool_decide (link_cut t = None) || unmarked t && flat_links (length t) t.
Definition tidy (body : bytes) : bool := forallb (λ raw, tidy_text (line_text raw)) (lines body).

Lemma split_text pat s a b : textual s → split_once pat s = Some (a, b) → textual a ∧ textual b.
Proof. intros Hs ->%split_once_Some. rewrite !forallb_app, !andb_true_iff in Hs. tauto. Qed.
Lemma split_app c p t : c ∉ p → split_once [c] (p ++ t) = ('(a, b) ← split_once [c] t; Some (p ++ a, b)).
Proof.
  induction p as [|x p IH]; intros Hn; cbn [app]; [by destruct (split_once _ t) as [[]|]|].
  apply not_elem_of_cons in Hn as [Hx Hp]. cbn [split_once]. unfold strip_prefix at 1. cbn [length take app].
  rewrite bool_decide_eq_false_2 by congruence. rewrite IH by done. by destruct (split_once _ t) as [[]|].
Qed.
Lemma split_first c s a b : split_once [c] s = Some (a, b) → c ∉ a.
Proof.
  revert a b. induction s as [|x s IH]; intros a b; cbn [split_once].
  - done.
  - unfold strip_prefix at 1. cbn [length take]. case_bool_decide as Hx; [by intros [= <- <-]; apply not_elem_of_nil|].
    intros ([a' b'] & E & [= <- <-])%bind_Some. apply not_elem_of_cons. split; [intros ->; by apply Hx|by eapply IH].
Qed.
Lemma no_bracket_spec s : no_bracket s = true ↔ Byte.x5b ∉ s.
Proof.
  unfold no_bracket. rewrite forallb_forall. split.
  - intros Hs Hi%list_elem_of_In. by specialize (Hs _ Hi).
  - intros Hs x Hi%list_elem_of_In. by rewrite bool_decide_eq_false_2 by congruence.
Qed.
Lemma link_step_cut s : link_step s =
  ('(pre, label, url, post) ← link_cut s;
   Some (pre ++ (if starts_with_any ["https://"; "http://"]%string url then link url label else label) ++ post)).
Proof.
  unfold link_step, link_cut. destruct (split_once _ s) as [[a b]|]; [|done]. cbn. destruct (split_once _ b) as [[c d]|]; [|done]. cbn.
  by destruct (split_once _ d) as [[e f]|].
Qed.
Lemma link_cut_app p t : Byte.x5b ∉ p → link_cut (p ++ t) = ('(pre, label, url, post) ← link_cut t; Some (p ++ pre, label, url, post)).
Proof.
  intros Hp. unfold link_cut. change (str "[") with [Byte.x5b]. rewrite split_app by done. destruct (split_once _ t) as [[a b]|]; [|done]. cbn.
  destruct (split_once _ b) as [[c d]|]; [|done]. cbn. by destruct (split_once _ d) as [[e f]|].
Qed.
Lemma link_cut_text t pre label url post : textual t → link_cut t = Some (pre, label, url, post) →
  (Byte.x5b ∉ pre) ∧ textual pre ∧ textual label ∧ textual url ∧ textual post.
Proof.
  unfold link_cut. intros Ht ([a b] & E1 & H1)%bind_Some. apply bind_Some in H1 as ([c d] & E2 & H2).
  apply bind_Some in H2 as ([e f] & E3 & [= <- <- <- <-]). pose proof (split_first _ _ _ _ E1).
  apply split_text in E1 as [? Hb]; [|done]. apply split_text in E2 as [? Hd]; [|done]. apply split_text in E3 as [? ?]; done.
Qed.
Lemma link_frag url label : textual url → frag label → frag (link url label).
Proof.
  intros Hu Hl. replace (link url label) with (format ["<a href=`{}` rel=`noopener noreferrer`>{}</a>"]%string [url; label]) by reflexivity. html.
Qed.
(** The links of a text, done one after the other from the left. *)
Lemma links_frag n fuel p t out : Byte.x5b ∉ p → frag p → textual t → flat_links n t = true →
  unmarked p = true → unmarked t = true → links fuel (p ++ t) = Some out → frag out ∧ unmarked out = true.
Proof.
  revert n p t. induction fuel as [|fuel IH]; intros n p t Hp Hf Ht Hn Hu Hv; cbn [links];
    rewrite link_step_cut, link_cut_app by done;
    (destruct (link_cut t) as [[[[pre label] url] post]|] eqn:Ec; cbn [mbind option_bind];
      [|intros [= <-]; split; [apply frag_app; [done|by apply frag_text]|unfold unmarked; by rewrite forallb_app, andb_true_iff]]); [done|].
  destruct (link_cut_text _ _ _ _ _ Ht Ec) as (H1 & H2 & H3 & H4 & H5).
  assert (unmarked pre = true ∧ unmarked label = true ∧ unmarked url = true ∧ unmarked post = true) as (U1 & U2 & U3 & U4).
  { unfold link_cut in Ec. apply bind_Some in Ec as ([a b] & E1 & Ec). apply bind_Some in Ec as ([c d] & E2 & Ec).
    apply bind_Some in Ec as ([e f] & E3 & [= <- <- <- <-]). apply split_once_Some in E1, E2, E3. subst.
    unfold unmarked in Hv |- *. rewrite !forallb_app, !andb_true_iff in Hv. tauto. }
  assert (∃ m, no_bracket label = true ∧ no_bracket url = true ∧ flat_links m post = true) as (m & B1 & B2 & B3).
  { destruct n as [|n]; cbn [flat_links] in Hn; rewrite Ec, !andb_true_iff in Hn; [by destruct Hn|]. exists n. tauto. }
  rewrite no_bracket_spec in B1, B2. rewrite !app_assoc, <-(app_assoc p). apply (IH m); try done.
  - assert (Byte.x5b ∉ link url label) by (unfold link; rewrite !not_elem_of_app; split_and!; try done; by apply (bool_decide_unpack _); vm_compute).
    rewrite !not_elem_of_app. split_and!; [done..|]. by destruct (starts_with_any _ _).
  - repeat apply frag_app; [done|by apply frag_text|]. apply frag_if; [apply link_frag; [done|]|]; by apply frag_text.
  - unfold unmarked in *. rewrite !forallb_app, !andb_true_iff. split_and!; [done..|]. destruct (starts_with_any _ _); [|done].
    unfold link. rewrite !forallb_app, U2, U3. reflexivity.
Qed.

Lemma span_frag m span : textual span → frag (open_tag m ++ span ++ close_tag m).
Proof.
  intros Hs. destruct m.
  - replace (open_tag Bold ++ span ++ close_tag Bold) with (format ["<strong>{}</strong>"]%string [span]) by reflexivity. html.
  - replace (open_tag CodeSpan ++ span ++ close_tag CodeSpan) with (format ["<code>{}</code>"]%string [span]) by reflexivity. html.
Qed.
Lemma marker_text t m a b : textual t → next_marker t = Some (m, a, b) → textual a ∧ textual b.
Proof. intros Ht ->%next_marker_Some. rewrite !forallb_app, !andb_true_iff in Ht. tauto. Qed.
Lemma marks_frag fuel t out : textual t → bold_and_code fuel t = Some out → frag out.
Proof.
  revert t out. induction fuel as [|fuel IH]; intros t out Ht; cbn; destruct (next_marker t) as [[[m a] b]|] eqn:E;
    try done; try (intros [= <-]; by apply frag_text).
  destruct (marker_text _ _ _ _ Ht E) as [Ha Hb]. destruct (split_once (mark m) b) as [[span rest]|] eqn:Es.
  - apply split_text in Es as [Hs Hr]; [|done]. intros (o & Ho & [= <-])%bind_Some. apply IH in Ho; [|done].
    replace (open_tag m ++ span ++ close_tag m ++ o) with ((open_tag m ++ span ++ close_tag m) ++ o) by by rewrite <-!app_assoc.
    apply frag_app; [by apply frag_text|]. apply frag_app; [by apply span_frag|done].
  - intros (o & Ho & [= <-])%bind_Some. apply IH in Ho; [|done]. apply frag_app; [by apply frag_text|]. apply frag_app; [|done].
    apply frag_text. by destruct m.
Qed.
Lemma unmarked_marks fuel s : unmarked s = true → bold_and_code fuel s = Some s.
Proof.
  intros Hu. assert (next_marker s = None) as E; [|by destruct fuel; cbn; rewrite E].
  assert (∀ c pat a b, c ∈ [Byte.x2a; Byte.x60] → split_once (c :: pat) s ≠ Some (a, b)) as Hn.
  { intros c pat a b Hc ->%split_once_Some. unfold unmarked in Hu. rewrite !forallb_app, !andb_true_iff in Hu. cbn [forallb] in Hu.
    rewrite bool_decide_eq_true_2 in Hu by done. by destruct Hu as (_ & ? & _). }
  unfold next_marker. destruct (split_once (str "**") s) as [[a b]|] eqn:E1; [by apply (Hn Byte.x2a (str "*")) in E1; [|left]|].
  destruct (split_once [Byte.x60] s) as [[a b]|] eqn:E2; [by apply (Hn Byte.x60 []) in E2; [|right; left]|done].
Qed.
Lemma inline_frag t out : textual t → tidy_text t = true → inline t = Some out → frag out.
Proof.
  unfold tidy_text, inline. intros Ht Hc (s & Hs & Ho)%bind_Some. apply orb_true_iff in Hc as [Hc%bool_decide_eq_true|[Hu Hn]%andb_prop].
  - assert (s = t) as -> by (destruct (brackets t); cbn in Hs; rewrite link_step_cut, Hc in Hs; by injection Hs). by eapply marks_frag.
  - destruct (links_frag _ _ [] t s (not_elem_of_nil _) frag_nil Ht Hn eq_refl Hu Hs) as [Hf Hm]. rewrite unmarked_marks in Ho by done. by injection Ho as <-.
Qed.

(** The elements open before a line, of which the list is the renderer's. *)
Definition in_list (l : bool) (opened : list bytes) : list bytes := if l then str "ul" :: opened else opened.
Lemma read_close l opened : read (at_content (in_list l opened)) (close_list l) = at_content opened.
Proof. by destruct l. Qed.
Lemma element_frag tag t e : tag ∈ ["h2"; "h3"; "h4"; "li"; "p"]%string → textual t → tidy_text t = true → element tag t = Some e → frag e.
Proof.
  intros Htag Ht Hc (i & Hi & [= <-])%bind_Some. pose proof (inline_frag _ _ Ht Hc Hi) as Hf.
  assert (∀ l, slots l = Some [Content] → frag (format l [i])) as Hl by (intros l Hl; eapply frag_format; [exact Hl|by repeat constructor]).
  repeat (apply elem_of_cons in Htag as [->|Htag]); [..|by apply not_elem_of_nil in Htag].
  - exact (Hl ["<h2>{}</h2>"]%string eq_refl).
  - exact (Hl ["<h3>{}</h3>"]%string eq_refl).
  - exact (Hl ["<h4>{}</h4>"]%string eq_refl).
  - exact (Hl ["<li>{}</li>"]%string eq_refl).
  - exact (Hl ["<p>{}</p>"]%string eq_refl).
Qed.
Lemma line_reads l raw out l' opened : tidy_text (line_text raw) = true → render_line l raw = Some (out, l') →
  read (at_content (in_list l opened)) out = at_content (in_list l' opened).
Proof.
  unfold render_line, line_text. pose proof (escape_html_text (trim_end raw)) as Ht. revert Ht. generalize (escape_html (trim_end raw)) as e. intros e Ht Hc.
  assert (∀ tag t, tag ∈ ["h2"; "h3"; "h4"; "li"; "p"]%string → textual t → tidy_text t = true →
    (e ← element tag t; Some (close_list l ++ e, false)) = Some (out, l') → read (at_content (in_list l opened)) out = at_content (in_list l' opened)) as Hblock.
  { intros tag t Htag Htt Htc (x & Hx & [= <- <-])%bind_Some. rewrite read_app, read_close. by apply (element_frag tag t). }
  assert (∀ p t, strip_prefix p e = Some t → textual t) as Hs by (intros p t; by apply text_drop).
  destruct (strip_prefix (str "### ") e) as [t|] eqn:E1; [by apply Hblock; [set_solver|eapply Hs|]|].
  destruct (strip_prefix (str "## ") e) as [t|] eqn:E2; [by apply Hblock; [set_solver|eapply Hs|]|].
  destruct (strip_prefix (str "# ") e) as [t|] eqn:E3; [by apply Hblock; [set_solver|eapply Hs|]|].
  destruct (strip_prefix (str "- ") e) as [t|] eqn:E4.
  { intros (x & Hx & [= <- <-])%bind_Some. rewrite read_app. replace (read (at_content (in_list l opened)) (if l then [] else str "<ul>")) with (at_content (str "ul" :: opened)) by by destruct l.
    apply (element_frag "li" t); [set_solver|by eapply Hs|done..]. }
  case_bool_decide; [intros [= <- <-]; apply read_close|]. by apply Hblock; [set_solver|..].
Qed.
Lemma markdown_frag body : tidy body = true → frag (markdown body).
Proof.
  intros Hb opened. unfold markdown. destruct (render_markdown_safe body) as (out & Eo & _). rewrite Eo. cbn [default from_option id].
  unfold render_markdown, tidy in *. change (at_content opened) with (at_content (in_list false opened)) at 1. revert Eo. generalize false as l. revert out Hb.
  induction (lines body) as [|raw ls IH]; intros out Hb l; cbn [render_lines].
  - intros [= <-]. apply read_close.
  - cbn [forallb] in Hb. apply andb_prop in Hb as [Hc Hb]. intros ([o l'] & Eo & E)%bind_Some. apply bind_Some in E as (more & Em & [= <-]).
    rewrite read_app, (line_reads _ _ _ _ _ Hc Eo). by apply IH.
Qed.

(** ** The pages *)
Lemma layout_frag title c body admin : frag body → frag (layout title c body admin).
Proof. intros Hb. unfold layout. html. Qed.
Lemma stat_frag a b c : frag (stat a b c).
Proof. unfold stat. html. Qed.
#[export] Hint Resolve layout_frag stat_frag : html.

Section pages.
Context {E : Type}.
(** What a computation answers is a fragment. *)
Definition gives (r : res E bytes) : Prop := ∀ b, r = Ok b → frag b.
Lemma gives_ret b : frag b → gives (Ok b).
Proof. by intros Hb b' [= <-]. Qed.
Lemma gives_bind {A} (m : res E A) (k : A → res E bytes) : (∀ a, m = Ok a → gives (k a)) → gives (m ≫= k).
Proof. intros Hk b (a & Ha & Hb)%bind_Ok. by eapply Hk. Qed.
Lemma rows_frag {A} (f : A → res E bytes) l rows : (∀ x, gives (f x)) → mapM_res f l = Ok rows → frag (concat rows).
Proof.
  intros Hf Hr%mapM_res_Ok. apply frag_concat. induction Hr as [|x y l rows Hy _ IH]; constructor; [by eapply Hf|done].
Qed.

Lemma title_frag admin p : frag (row_title admin p).
Proof. unfold row_title. auto with html. Qed.
Lemma doi_frag p : gives (row_doi p).
Proof.
  unfold row_doi. destruct (doi_url p), (pf_doi p); [apply gives_ret; html|..];
    (destruct (pf_mm0_proof p); [apply gives_bind; intros id _; apply gives_ret; html|apply gives_ret; unfold dash; auto with html]).
Qed.
Lemma record_frag p : frag (row_record p).
Proof. unfold row_record. destruct (pf_url p); auto with html. Qed.
Lemma certificate_frag c : frag (row_certificate c).
Proof. unfold row_certificate. html. Qed.
#[local] Hint Resolve title_frag record_frag certificate_frag : html.
Lemma cell_frag paired certs p : frag (row_cell paired certs p).
Proof. unfold row_cell. cbn zeta. auto with html. Qed.
#[local] Hint Resolve cell_frag : html.
Lemma proof_row_frag admin paired certs p : gives (proof_row admin paired certs p).
Proof. unfold proof_row. apply gives_bind. intros doi Hd%doi_frag. apply gives_bind. intros sha _. apply gives_ret. html. Qed.
Lemma proof_rows_frag l admin certs : gives (proof_rows l admin certs).
Proof.
  unfold proof_rows. apply gives_bind. intros rows Hr. apply gives_ret. apply rows_frag in Hr; [|apply proof_row_frag]. auto with html.
Qed.
Lemma home_row_frag c : gives (home_row c).
Proof. unfold home_row. apply gives_bind. intros id _. apply gives_bind. intros owner _. apply gives_ret. html. Qed.
Lemma home_frag c status reg l certs : gives (home c status reg l certs).
Proof.
  unfold home. apply gives_bind. intros rows Hr. apply rows_frag in Hr; [|apply home_row_frag].
  apply gives_bind. intros pair Hp%proof_rows_frag. apply gives_bind. intros root _. apply gives_ret, layout_frag. html.
Qed.
Lemma backed_by_frag l c : frag (backed_by l c).
Proof.
  unfold backed_by. destruct (negb _); [auto with html|]. cbn zeta. destruct (list_find _ l) as [[i [[[d id] title] record]]|]; auto with html.
Qed.
#[local] Hint Resolve backed_by_frag : html.
Lemma registry_row_frag attested l c : frag (registry_row attested l c).
Proof. unfold registry_row. html. Qed.
#[local] Hint Resolve registry_row_frag : html.
Lemma registry_frag c reg l : frag (RefiSite.registry c reg l).
Proof. unfold RefiSite.registry. apply layout_frag. html. Qed.
Lemma api_docs_frag c base : frag (api_docs c base).
Proof. unfold api_docs. apply layout_frag. html. Qed.
Lemma not_found_frag c : frag (RefiSite.not_found c).
Proof. unfold RefiSite.not_found. auto with html. Qed.
Lemma page_view_frag c p : frag (markdown (pg_body p)) → frag (page_view c p).
Proof. intros Hb. unfold page_view. apply layout_frag. html. Qed.
Lemma layout_frames title c body admin : frames (layout title c body admin) body.
Proof.
  unfold layout. cbn zeta. apply (format_hole _ [Content; Content; Content; Content] [Content] [_; _; _; _] [_]);
    [vm_compute; reflexivity|repeat constructor; cbn [slot]; auto with html..].
Qed.
(** Whatever a body renders to, the page around it is the site's. *)
Lemma page_view_frames c p : frames (page_view c p) (markdown (pg_body p)).
Proof.
  unfold page_view. eapply frames_trans; [apply layout_frames|].
  apply (format_hole _ [Content; Content] [Content; Content; InValue] [_; _] [_; _; _]);
    [vm_compute; reflexivity|repeat constructor; cbn [slot]; auto with html..].
Qed.
Lemma page_row_frag csrf p : frag (page_row csrf p).
Proof. unfold page_row. html. Qed.
Lemma account_row_frag a : frag (account_row a).
Proof. unfold account_row. html. Qed.
#[local] Hint Resolve page_row_frag account_row_frag : html.
Lemma dashboard_frag c pages accounts status audit csrf : frag (admin_dashboard c pages accounts status audit csrf).
Proof. unfold admin_dashboard. apply layout_frag. html. Qed.
Lemma check_box_frag b : frag (check_box b).
Proof. unfold check_box. auto with html. Qed.
#[local] Hint Resolve check_box_frag : html.
Lemma editor_frag c p csrf notice : frag (editor c p csrf notice).
Proof. unfold editor. apply layout_frag. destruct notice; html. Qed.
Lemma login_frag c e : frag (RefiSite.login c e).
Proof. unfold RefiSite.login. apply layout_frag. destruct e; html. Qed.
Lemma note_frag configured backend : frag (backend_note configured backend).
Proof. unfold backend_note. destruct configured, backend; auto with html. Qed.
#[local] Hint Resolve note_frag : html.
Lemma proofs_frag c l counts configured backend certs : gives (RefiSite.proofs c l counts configured backend certs).
Proof.
  unfold RefiSite.proofs. apply gives_bind. intros rows Hr%proof_rows_frag. apply gives_ret, layout_frag.
  destruct counts as [[p q] f]. cbn [counters app]. html.
Qed.
Lemma admin_proofs_frag c l counts configured backend csrf : gives (admin_proofs c l counts configured backend csrf).
Proof.
  unfold admin_proofs. apply gives_bind. intros rows Hr%proof_rows_frag. apply gives_ret, layout_frag.
  destruct counts as [[p q] f]. cbn [counters app]. html.
Qed.
Lemma pre_frag o l none : slots l = Some [Content] → frag none → frag (pre o l none).
Proof. intros Hl Hn. destruct o as [[|b t]|]; [done| |done]. eapply frag_format; [exact Hl|]. constructor; [|constructor]. apply frag_text, escape_html_text. Qed.
#[local] Hint Extern 3 (frag (pre _ _ _)) => apply pre_frag; [vm_compute; reflexivity|auto with html] : html.
(** The identifier of an archived proof is text. *)
Definition plain_doi (p : Proof_) : Prop := ∀ doi, pf_doi p = Some doi → textual doi.
Lemma archive_frag p : plain_doi p → frag (archive_part p).
Proof.
  intros Hd. unfold archive_part. apply frag_if; [|auto with html]. cbn zeta. assert (textual (default [] (pf_doi p))) as Ht.
  { destruct (pf_doi p) as [doi|] eqn:Ed; [by apply Hd|done]. }
  destruct (pf_url p), (pf_record p); html.
Qed.
Lemma cert_row_frag c : gives (cert_row c).
Proof. unfold cert_row. cbn zeta. apply gives_bind. intros owner _. apply gives_ret. html. Qed.
Lemma mint_frag p csrf : frag (mint_form p csrf).
Proof. unfold mint_form. destruct csrf; auto with html. Qed.
#[local] Hint Resolve archive_frag mint_frag : html.
Lemma proof_view_frag c d csrf title admin : plain_doi (pd_proof d) → gives (proof_view c d csrf title admin).
Proof.
  intros Hd. unfold proof_view. cbn zeta. apply gives_bind. intros rows Hr. apply rows_frag in Hr; [|apply cert_row_frag].
  apply gives_ret, layout_frag. html.
Qed.
Lemma proof_result_frag c p : frag (proof_result c p).
Proof. unfold proof_result. apply layout_frag. destruct (doi_url p); html. Qed.

Lemma render_frag c v : match v with V_page _ | V_proof_page _ | V_admin_proof_detail _ _ => False | _ => True end → gives (render c v).
Proof.
  destruct v; intros []; cbn [render]; try apply gives_ret;
    auto using home_frag, registry_frag, not_found_frag, api_docs_frag, login_frag, dashboard_frag, editor_frag, proofs_frag,
      admin_proofs_frag, proof_result_frag.
Qed.

(** C33. The pages of the site are well-formed: read from its first byte to its
    last, a page closes every element it opens in order, and has no element and
    no attribute but those the templates use, so no script and no event handler,
    whatever the ledger, the accounts and the forms put in it. Two values are
    written without being escaped. The body of a content page: whatever it is,
    the site's markup around it is sound, and the whole page is when no line of
    the body has a link with a bracket inside or with an asterisk or backquote
    beside it. The identifier the backend gave a published proof: the page of a
    proof is well-formed when it holds no markup character. *)
Theorem pages_well_formed c v html : render (E:=E) c v = Ok html →
  match v with
  | V_page p => frames html (markdown (pg_body p)) ∧ (tidy (pg_body p) = true → well_formed html)
  | V_proof_page d | V_admin_proof_detail d _ => plain_doi (pd_proof d) → well_formed html
  | _ => well_formed html
  end.
Proof.
  intros Hr. destruct v as [| | | |p| | | | | |d| |d csrf];
    try (refine (frag_well_formed _ (render_frag c _ _ html Hr)); exact I).
  - assert (∀ s, Ok (E:=E) s = Ok html → s = html) as Hi by (by intros s [= <-]). apply Hi in Hr as <-. split; [apply page_view_frames|]. intros Ht. by apply frag_well_formed, page_view_frag, markdown_frag.
  - intros Hd. cbn [render] in Hr. unfold proof_page in Hr. eapply frag_well_formed, proof_view_frag; [exact Hd|exact Hr].
  - intros Hd. cbn [render] in Hr. unfold admin_proof_detail in Hr. eapply frag_well_formed, proof_view_frag; [exact Hd|exact Hr].
Qed.
End pages.

(** ** Concrete pages *)
Definition demo_chrome : Chrome := {| ch_pages := [(str "about", str "A & B")]; ch_sandbox := true; ch_base_url := str "https://refi.example" |}.
Definition demo_page (body : bytes) : Page :=
  {| pg_slug := str "about"; pg_title := str "<script>x</script>"; pg_body := body; pg_published := true; pg_updated_at := 1; pg_author := str "a";
     pg_revision := 1 |}.
Definition demo_body : bytes := str "**hi** <img src=x onerror=alert(1)>".
Definition demo_proof (state : State) (doi mm0 : option bytes) : Proof_ :=
  {| pf_id := str "p1"; pf_project := str "refi"; pf_title := str "T"; pf_sha256 := str "ab"; pf_state := state; pf_mm0_proof := mm0; pf_record := None;
     pf_doi := doi; pf_url := None; pf_log := None; pf_detail := None; pf_submitted_by := str "op"; pf_submitted_at := 1; pf_updated_at := 2 |}.
Definition demo_detail (doi : bytes) : ProofDetail :=
  {| pd_proof := demo_proof Published (Some doi) None; pd_backend := None; pd_certificates := [] |}.

Definition demo_links : bytes := str "## See [the **rules**

- [one](https://a/?q=1&r=2) and [two](http://b), not [three](ftp://c)
- `x < y` and **bold**".
Example pages_well_formed_witness :
  tidy demo_body = true ∧ well_formed (page_view demo_chrome (demo_page demo_body)) ∧
  frames (page_view demo_chrome (demo_page [Byte.x3c])) (markdown [Byte.x3c]).
Proof.
  split; [by vm_compute|].
  split; [apply (pages_well_formed (E:=Empty_set) demo_chrome (V_page (demo_page demo_body)) _ eq_refl); by vm_compute|].
  apply (pages_well_formed (E:=Empty_set) demo_chrome (V_page (demo_page [Byte.x3c])) _ eq_refl).
Defined.
(** The pages the service seeds and a body with links are tidy. *)
Example tidy_bodies : forallb (λ '(_, _, body), tidy body) seed_pages = true ∧ tidy demo_links = true.
Proof. by vm_compute. Qed.
(** The identifier the backend answers is the one value written as it is: it can
    open an element of its own. *)
Example doi_opens_element : ∃ html,
  render (E:=Empty_set) demo_chrome (V_proof_page (demo_detail (tpl "10.1/x`><script>alert(1)</script>"))) = Ok html ∧ ¬ well_formed html.
Proof. eexists. split; [reflexivity|]. vm_compute. discriminate. Qed.
(** A link inside the address of a link gives the element an attribute of the
    author's choice. *)
Example nested_link_adds_attribute :
  ¬ well_formed (page_view demo_chrome (demo_page (str "[a](https://x[b](https:// onmouseover=go x) )"))).
Proof. vm_compute. discriminate. Qed.
(** Shortening cuts at byte positions: text with a character across one of them
    ends the request. *)
Example short_panics : short (E:=Empty_set) (str "operator-été-lointain") = Panic.
Proof. vm_compute. reflexivity. Qed.
(** A proof that is not archived is paired with every certificate that has no
    provenance. *)
Example unarchived_proof_paired :
  let cert := obj [("cert_id", text "c1"); ("amount", JNum 5); ("status", text "unspent"); ("source", JNull)]%string in
  row_cell true [cert] (demo_proof Queued None (Some (str "m"))) = format ["<td>{}</td>"]%string [row_certificate cert].
Proof. vm_compute. reflexivity. Qed.
End RefiPages.
