(* ===== verification/RefiService.v ===== *)
(** * The service ([refi/src/service.rs], [refi/src/attestation.rs])

    Authentication, rate limiting, routing, the JSON API and the admin console.
    A handler runs as one step: the locks it takes are never contended here. The
    pages are those of [RefiSite]. *)

From S2P Require Import Prelude Text RefiUtil RefiJson RefiEngine RefiPolicy RefiRead RefiBoot RefiAccounts RefiContent RefiProofs RefiHttp RefiSite.
Import RefiSite RefiUtil RefiJson RefiEngine RefiRead RefiBoot RefiAccounts RefiContent RefiProofs RefiHttp.

Module RefiService.

Record Config := {
  cf_state_dir : bytes; cf_listen : bytes; cf_base_url : bytes; cf_open_registration : bool; cf_secure_cookies : bool;
  cf_mm0web : option bytes; cf_sandbox : bool
}.

Inductive Caller := TokenAdmin | AccountCaller (a : Account).
Definition caller_account (c : Caller) : option Account := match c with AccountCaller a => Some a | TokenAdmin => None end.
Definition caller_did (c : Caller) : option bytes := ac_did <$> caller_account c.
Definition caller_is_admin (c : Caller) : bool := match c with TokenAdmin => true | AccountCaller a => account_is_admin a end.

(** The measurement crate: the bundle of a service and its digest, and the
    binding of a digest to a nonce. *)
Record Identity := { id_id : bytes; id_state_root : bytes; id_listen : bytes; id_env_prefixes : list bytes }.
Class Measure := { bundle_for : Identity → res bytes (json * bytes); attestation_binding : bytes → bytes → bytes }.

Section service.
Context {T : Type} `{Taler T, !StateCodec T} {X : Type} `{Storage X, Network X} `{Sha256, HexText, JsonCodec, AccountCodec, ContentCodec, ProofCodec, Keys, Measure}.
Variables (clock uptime : nat → Z) (random : nat → bytes) (kernel : Z → Z → stm (est (T:=T) (X:=X)) bytes Z).
Variables (config : Config) (admin_hash : bytes).

(** The state; [v_calls] records the commands sent to the engine. *)
Record svc := Svc {
  v_engine : bool * est (T:=T) (X:=X);
  v_accounts : list Account; v_content : ContentStore; v_ledger : Ledger; v_limiter : gmap bytes (Z * Z);
  v_requests : Z; v_errors : Z; v_mutations : Z; v_draws : nat; v_calls : list Cmd
}.
Abbreviation sm := (stm svc ApiError).

Definition set_engine (e : bool * est (T:=T) (X:=X)) (s : svc) : svc :=
  Svc e (v_accounts s) (v_content s) (v_ledger s) (v_limiter s) (v_requests s) (v_errors s) (v_mutations s) (v_draws s) (v_calls s).
Definition add_call (c : Cmd) (s : svc) : svc :=
  Svc (v_engine s) (v_accounts s) (v_content s) (v_ledger s) (v_limiter s) (v_requests s) (v_errors s) (v_mutations s) (v_draws s) (v_calls s ++ [c]).
Definition set_accounts (l : list Account) (s : svc) : svc :=
  Svc (v_engine s) l (v_content s) (v_ledger s) (v_limiter s) (v_requests s) (v_errors s) (v_mutations s) (v_draws s) (v_calls s).
Definition set_content (c : ContentStore) (s : svc) : svc :=
  Svc (v_engine s) (v_accounts s) c (v_ledger s) (v_limiter s) (v_requests s) (v_errors s) (v_mutations s) (v_draws s) (v_calls s).
Definition set_ledger (l : Ledger) (s : svc) : svc :=
  Svc (v_engine s) (v_accounts s) (v_content s) l (v_limiter s) (v_requests s) (v_errors s) (v_mutations s) (v_draws s) (v_calls s).
Definition set_limiter (l : gmap bytes (Z * Z)) (s : svc) : svc :=
  Svc (v_engine s) (v_accounts s) (v_content s) (v_ledger s) l (v_requests s) (v_errors s) (v_mutations s) (v_draws s) (v_calls s).
Definition set_counts (requests errors mutations : Z) (s : svc) : svc :=
  Svc (v_engine s) (v_accounts s) (v_content s) (v_ledger s) (v_limiter s) requests errors mutations (v_draws s) (v_calls s).
Definition set_draws (n : nat) (s : svc) : svc :=
  Svc (v_engine s) (v_accounts s) (v_content s) (v_ledger s) (v_limiter s) (v_requests s) (v_errors s) (v_mutations s) n (v_calls s).

(** ** Primitives *)
Definition get {A} (f : svc → A) : sm A := λ s, (s, Ok (f s)).
Definition tick (s : svc) : svc :=
  let '(alive, e) := v_engine s in set_engine (alive, Est (e_rt e) (e_ctx e) (S (e_tick e)) (e_x e)) s.
Definition now_unix : sm Z := λ s, (tick s, Ok (clock (e_tick (v_engine s).2))).
Definition draw : sm bytes := λ s, (set_draws (S (v_draws s)) s, Ok (random (v_draws s))).
Definition mutated : sm () := λ s, (set_counts (v_requests s) (v_errors s) (v_mutations s + 1) s, Ok ()).

Definition engine_call (c : Cmd) : sm json := λ s,
  let '(e, r) := call kernel c (v_engine s) in (add_call c (set_engine e s), r).
Definition engine_read (q : Read) : sm json := λ s,
  let '(e, r) := read kernel q (v_engine s) in (set_engine e s, r).
(** Files live beside the engine's. An error is reported as [internal]. *)
Definition on_disk {A} (m : stm X bytes A) : sm A := λ s,
  let '(alive, e) := v_engine s in
  let '(x, r) := m (e_x e) in
  (set_engine (alive, Est (e_rt e) (e_ctx e) (e_tick e) x) s,
   match r with
   | Ok a => Ok a
   | Err m => Err {| ae_status := 500; ae_code := str "UK-5000"; ae_name := str "Internal"; ae_message := m |}
   | Panic => Panic
   end).
Definition liftr {A} (r : res ApiError A) : sm A := stm_lift r.
Definition err {A} (e : ApiError) : sm A := stm_err e.
Definition ok_or {A} (o : option A) (e : ApiError) : sm A := match o with Some a => mret a | None => err e end.

(** ** Rate limiting *)
Definition take_slot (key : bytes) (per_minute minute : Z) : sm bool := λ s,
  let '(m, n) := default (minute, 0) (v_limiter s !! key) in
  let '(m, n) := if negb (m =? minute) then (minute, 0) else (m, n) in
  if per_minute <=? n then (set_limiter (<[key := (m, n)]> (v_limiter s)) s, Ok false)
  else (set_limiter (<[key := (m, n + 1)]> (v_limiter s)) s, Ok true).
Definition allow (key : bytes) (per_minute : Z) : sm bool := now ← now_unix; take_slot key per_minute (now / 60).
Definition peer_of (req : HttpRequest) : bytes := if bool_decide (rq_peer req = []) then str "local" else rq_peer req.

(** ** Authentication *)
Definition bearer (req : HttpRequest) : option bytes :=
  match v ← header req (str "authorization"); strip_prefix (str "Bearer ") v with
  | Some rest => Some (trim rest)
  | None => trim <$> header req (str "x-api-key")
  end.
Fixpoint cookie_parts (parts : list bytes) (name : bytes) : option bytes :=
  match parts with
  | [] => None
  | part :: parts =>
      match split_once (str "=") (trim part) with
      | Some (k, v) => if bool_decide (trim k = name) then Some (trim v) else cookie_parts parts name
      | None => cookie_parts parts name
      end
  end.
Definition cookie (req : HttpRequest) (name : bytes) : option bytes := raw ← header req (str "cookie"); cookie_parts (split Byte.x3b raw) name.
Definition token_is_admin (token : bytes) : bool := ct_eq (sha256_hex token) admin_hash.

Definition token_of (req : HttpRequest) (allow_cookie : bool) : option bytes :=
  match bearer req with Some t => Some t | None => if allow_cookie then cookie req (str "refi_admin") else None end.
Definition authenticate (req : HttpRequest) (allow_cookie : bool) : sm Caller :=
  token ← ok_or (token_of req allow_cookie) (unauthorized "missing bearer token");
  if token_is_admin token then mret TokenAdmin
  else accounts ← get v_accounts;
       a ← ok_or (by_token accounts token) (unauthorized "unknown token");
       mret (AccountCaller a).
Definition require_admin (req : HttpRequest) (form_token : option bytes) : sm Caller :=
  match form_token with
  | Some t => if negb (token_is_admin t) then err (unauthorized "the form's admin token is not valid") else mret TokenAdmin
  | None =>
      caller ← authenticate req true;
      if negb (caller_is_admin caller) then err (unauthorized "admin sign-in required") else mret caller
  end.

(** ** Bodies *)
Definition body_of (req : HttpRequest) : json := default JNull (req_json req).
Definition str_at (v : json) (key : String.string) : bytes := default [] (as_str (at_key v key)).
Definition form_of (req : HttpRequest) : sm (list (bytes * bytes)) := liftr (parse_form (rq_body req)).
Definition field_or (form : list (bytes * bytes)) (key : String.string) (d : bytes) : bytes := default d (form_get form (str key)).
Definition amount_of (req : HttpRequest) : sm Z :=
  ok_or (a ← as_u64 (at_key (body_of req) "amount"); if 0 <? a then Some a else None) (bad_request "amount must be a positive integer").

Definition with_chrome (v : view) : sm bytes :=
  content ← get v_content;
  liftr (render {| ch_pages := public_slugs content; ch_sandbox := cf_sandbox config; ch_base_url := cf_base_url config |} v).
Definition page (status : Z) (v : view) : sm HttpResponse := html ← with_chrome v; mret (resp_html status html).
Definition redirect (location : bytes) : HttpResponse := with_header (resp_html 303 []) (str "Location") location.
Definition answer (status : Z) (v : json) : sm HttpResponse := mret (resp_json status v).

Definition put_accounts (l : list Account) : sm () := λ s, (set_accounts l s, Ok ()).
Definition put_content (c : ContentStore) : sm () := λ s, (set_content c s, Ok ()).
Definition create_account (name : bytes) (role : Role) : sm (Account * bytes) :=
  seed ← draw;
  rnd ← draw;
  now ← now_unix;
  accounts ← get v_accounts;
  let '(a, token, l) := create name role seed rnd now accounts in
  _ ← put_accounts l;
  _ ← on_disk (save_accounts (path_join (cf_state_dir config) (str "accounts.json")) l);
  mret (a, token).

(** ** The proofs *)
Definition on_ledger {A} (m : stm (Ledger * X) bytes A) (fail : bytes → ApiError) : sm A := λ s,
  let '(alive, e) := v_engine s in
  let '((l, x), r) := m (v_ledger s, e_x e) in
  (set_ledger l (set_engine (alive, Est (e_rt e) (e_ctx e) (e_tick e) x) s),
   match r with Ok a => Ok a | Err m => Err (fail m) | Panic => Panic end).

Definition publish_proof (actor project title mm0 mm1 : bytes) : sm Proof_ :=
  let title := trim title in
  let project := trim project in
  let project := if bool_decide (project = []) then str "refi" else project in
  if bool_decide (title = []) || (200 <? Zlen title) then err (bad_request "title must be 1..=200 characters")
  else if 64 <? Zlen project then err (bad_request "project must be at most 64 characters")
  else if bool_decide (trim mm0 = []) then err (bad_request "mm0 spec is required")
  else if (MAX_FIELD <? Zlen mm0) || (MAX_FIELD <? Zlen mm1) then
    err (api_error 413 "UK-1003" "PayloadTooLarge" "each of mm0 and mm1 must be at most 256 kB")
  else
    ledger ← get v_ledger;
    if negb (configured ledger) then err (unavailable "proof publishing is not configured; start the service with --mm0web <url>")
    else
      now ← now_unix;
      proof ← on_ledger (publish actor project title mm0 mm1 now)
        (λ m, {| ae_status := 502; ae_code := str "UK-5002"; ae_name := str "ProofBackend"; ae_message := m |});
      _ ← mutated;
      mret proof.

Definition certificates_for (doi : bytes) : sm (list json) := λ s,
  match engine_read (Registry 500 None) s with
  | (s, Ok registry) =>
      (s, Ok (filter (λ c, as_str (at_key c "source") = Some doi) (default [] (as_array (at_key registry "certificates")))))
  | (s, Err _) => (s, Ok [])
  | (s, Panic) => (s, Panic)
  end.
Definition proof_detail (id : bytes) : sm ProofDetail :=
  ledger ← get v_ledger;
  match by_id (lg_store ledger) id with
  | None => err (not_found "no such proof")
  | Some proof =>
      certs ← (match pf_doi proof with Some doi => certificates_for doi | None => mret [] end);
      mret {| pd_proof := proof; pd_backend := base ledger; pd_certificates := certs |}
  end.

Definition mint_from_proof (actor id : bytes) (amount : Z) (owner : bytes) : sm json :=
  ledger ← get v_ledger;
  proof ← ok_or (by_id (lg_store ledger) id) (not_found "no such proof");
  if negb (can_mint proof) then err (bad_request "only a published proof with a DOI can back a certificate")
  else if negb (is_did owner) then err (bad_request "owner must be a did:unfer:<64 hex> DID")
  else if amount =? 0 then err (bad_request "amount must be positive")
  else
    out ← engine_call (Mint actor amount owner (default [] (pf_doi proof)) true);
    _ ← mutated;
    mret out.

(** ** Public pages *)
Definition certs_of (registry : json) : list json := default [] (as_array (at_key registry "certificates")).
Definition site_home : sm HttpResponse :=
  status ← engine_read Status;
  registry ← engine_read (Registry 500 None);
  ledger ← get v_ledger;
  page 200 (V_home status registry (so_proofs (lg_store ledger)) (certs_of registry)).
Definition proof_index (l : Ledger) : list (bytes * bytes * bytes * option bytes) :=
  omap (λ p, (λ d, (d, pf_id p, pf_title p, pf_url p)) <$> pf_doi p) (so_proofs (lg_store l)).
Definition site_registry : sm HttpResponse :=
  registry ← engine_read (Registry 200 None);
  ledger ← get v_ledger;
  page 200 (V_registry registry (proof_index ledger)).
Definition site_proof (id : bytes) : sm HttpResponse := λ s,
  match proof_detail id s with
  | (s, Ok d) => page 200 (V_proof_page d) s
  | (s, Err e) => if ae_status e =? 404 then page 404 V_not_found s else (s, Err e)
  | (s, Panic) => (s, Panic)
  end.
Definition site_page (slug : bytes) : sm HttpResponse :=
  content ← get v_content;
  match by_slug content slug with
  | Some p => if pg_published p then page 200 (V_page p) else page 404 V_not_found
  | None => page 404 V_not_found
  end.
Definition site_proofs : sm HttpResponse :=
  ledger ← get v_ledger;
  registry ← engine_read (Registry 500 None);
  page 200 (V_proofs (so_proofs (lg_store ledger)) (counts ledger) (configured ledger) (base ledger) (certs_of registry)).

Definition MAX_NONCE : Z := 512.
Definition attestation (state_root listen : bytes) (nonce : option bytes) : res ApiError HttpResponse :=
  match nonce with
  | None => Err (bad_request "attestation requires ?nonce=<challenge>")
  | Some nonce =>
      if bool_decide (nonce = []) || (MAX_NONCE <? Zlen nonce) then Err (bad_request "nonce must be 1..512 bytes")
      else match bundle_for {| id_id := str "refi"; id_state_root := state_root; id_listen := listen; id_env_prefixes := [str "REFI_"; str "AUSTRAL_BIN"] |} with
           | Err e => Err {| ae_status := 500; ae_code := str "UK-5000"; ae_name := str "Internal"; ae_message := str "measurement failed: " ++ e |}
           | Panic => Panic
           | Ok (body, digest) =>
               body ← set_key body "nonce" (JStr nonce);
               body ← set_key body "binding" (JStr (attestation_binding digest nonce));
               Ok (resp_json 200 body)
           end
  end.

(** ** The admin console *)

(** The sign-in page instead, when the caller is no admin. *)
Definition as_admin (req : HttpRequest) (k : sm HttpResponse) : sm HttpResponse := λ s,
  match authenticate req true s with
  | (s, Err _) => page 200 (V_login None) s
  | (s, Panic) => (s, Panic)
  | (s, Ok caller) =>
      if negb (caller_is_admin caller) then page 403 (V_login (Some (str "this account is not an admin"))) s else k s
  end.
Definition csrf_of (req : HttpRequest) : bytes := default [] (cookie req (str "refi_admin")).
Definition admin_home (req : HttpRequest) : sm HttpResponse := as_admin req (
  status ← engine_read Status;
  audit ← engine_read Audit;
  content ← get v_content;
  accounts ← get v_accounts;
  page 200 (V_dashboard (cs_pages content) accounts status audit (csrf_of req))).

Definition admin_login (req : HttpRequest) : sm HttpResponse :=
  form ← form_of req;
  let token := field_or form "token" [] in
  ok ← allow (str "login:" ++ peer_of req) 10;
  if negb ok then err (limit "too many sign-in attempts")
  else if negb (token_is_admin token) then page 401 (V_login (Some (str "invalid admin token")))
  else mret (with_header (redirect (str "/admin")) (str "Set-Cookie")
         (str "refi_admin=" ++ token ++ str "; Path=/; HttpOnly; SameSite=Strict; Max-Age=43200" ++
          if cf_secure_cookies config then str "; Secure" else [])).
Definition admin_logout : HttpResponse :=
  with_header (redirect (str "/")) (str "Set-Cookie") (str "refi_admin=; Path=/; HttpOnly; SameSite=Strict; Max-Age=0").

Definition admin_editor (req : HttpRequest) (slug : bytes) : sm HttpResponse :=
  _ ← require_admin req None;
  content ← get v_content;
  let found := if bool_decide (slug = str "new") then None else by_slug content slug in
  if bool_decide (slug ≠ str "new") && bool_decide (found = None) then err (not_found "no such page")
  else page 200 (V_editor found (csrf_of req)).

Definition content_file : bytes := path_join (cf_state_dir config) (str "content.json").
Definition admin_save_page (req : HttpRequest) : sm HttpResponse :=
  form ← form_of req;
  caller ← require_admin req (Some (field_or form "token" []));
  let title := trim (field_or form "title" []) in
  if bool_decide (title = []) || (160 <? Zlen title) then err (bad_request "title must be 1..=160 characters")
  else
    let body := field_or form "body" [] in
    if 100000 <? Zlen body then err (bad_request "page body is limited to 100 kB")
    else
      let slug := trim (field_or form "slug" []) in
      content ← get v_content;
      now ← now_unix;
      '(saved, content) ← liftr (put (if bool_decide (slug = []) then None else Some slug) title body
        (bool_decide (is_Some (form_get form (str "published")))) (default (str "admin") (caller_did caller)) now content);
      _ ← put_content content;
      _ ← on_disk (save_content content_file content);
      mret (redirect (str "/admin/pages/" ++ pg_slug saved)).

Definition toggle (now : Z) (p : Page) : res ApiError Page :=
  rev ← checked_u64 (pg_revision p + 1);
  Ok {| pg_slug := pg_slug p; pg_title := pg_title p; pg_body := pg_body p; pg_published := negb (pg_published p); pg_updated_at := now;
        pg_author := pg_author p; pg_revision := rev |}.
Definition admin_page_action (req : HttpRequest) (slug action : bytes) : sm HttpResponse :=
  form ← form_of req;
  _ ← require_admin req (Some (field_or form "token" []));
  content ← get v_content;
  content ← (if bool_decide (action = str "publish") then
               now ← now_unix;
               r ← liftr (update_slug slug (toggle now) (cs_pages content));
               match r with
               | Some (_, pages) => mret {| cs_pages := pages; cs_seeded := cs_seeded content |}
               | None => err (not_found "no such page")
               end
             else if bool_decide (action = str "delete") then
               let '(found, content) := delete slug content in
               if negb found then err (not_found "no such page") else mret content
             else err (not_found "unknown page action"));
  _ ← put_content content;
  _ ← on_disk (save_content content_file content);
  mret (redirect (str "/admin")).

Definition account_created (a : Account) (token : bytes) : bytes :=
  tpl "<!doctype html><html lang=`en`><head><meta charset=`utf-8`><title>Account created</title><link rel=`stylesheet` href=`/style.css`></head><body><main><section class=`panel`><div class=`panel-head`><h2>Account created</h2><a class=`small` href=`/admin`>← back</a></div><p>Give this token to <strong>"
  ++ escape_html (ac_name a) ++ tpl "</strong> now — it is shown once.</p><pre><code>" ++ escape_html token ++
  tpl "</code></pre><div class=`kv`><div><span>DID</span><code>" ++ escape_html (ac_did a) ++ tpl "</code></div><div><span>Role</span><code>" ++
  role_str (ac_role a) ++ tpl "</code></div></div></section><p><a href=`/admin`>Back to admin</a></p></main></body></html>".
Definition name_ok (name : bytes) : bool := negb (bool_decide (name = [])) && (Zlen name <=? 64).
Definition admin_create_account_form (req : HttpRequest) : sm HttpResponse :=
  form ← form_of req;
  _ ← require_admin req (Some (field_or form "token" []));
  let name := trim (field_or form "name" []) in
  if negb (name_ok name) then err (bad_request "name must be 1..=64 characters")
  else
    role ← ok_or (role_parse (field_or form "role" (str "customer"))) (bad_request "unknown role");
    '(a, token) ← create_account name role;
    mret (resp_html 200 (account_created a token)).

Definition admin_issue_denom_form (req : HttpRequest) : sm HttpResponse :=
  form ← form_of req;
  _ ← require_admin req (Some (field_or form "token" []));
  value ← ok_or (v ← form_get form (str "value"); n ← parse_uint (2 ^ 64) v; if 0 <? n then Some n else None)
    (bad_request "value must be a positive integer");
  let expires := v ← form_get form (str "expires_seq"); parse_uint (2 ^ 64) v in
  _ ← engine_call (IssueDenom (str "admin") value expires true);
  _ ← mutated;
  mret (redirect (str "/admin")).

Definition admin_proofs (req : HttpRequest) : sm HttpResponse := as_admin req (
  ledger ← get v_ledger;
  page 200 (V_admin_proofs (so_proofs (lg_store ledger)) (counts ledger) (configured ledger) (base ledger) (csrf_of req))).
Definition admin_publish_proof (req : HttpRequest) : sm HttpResponse :=
  form ← form_of req;
  _ ← require_admin req (Some (field_or form "token" []));
  proof ← publish_proof (str "bootstrap-admin") (field_or form "project" (str "refi")) (field_or form "title" [])
    (field_or form "mm0" []) (field_or form "mm1" []);
  page 200 (V_proof_result proof).
Definition admin_proof_detail (req : HttpRequest) (id : bytes) : sm HttpResponse := as_admin req (
  d ← proof_detail id;
  page 200 (V_admin_proof_detail d (csrf_of req))).
Definition admin_mint_from_proof (req : HttpRequest) (id : bytes) : sm HttpResponse :=
  form ← form_of req;
  _ ← require_admin req (Some (field_or form "token" []));
  let amount := default 0 (v ← form_get form (str "amount"); parse_uint (2 ^ 64) v) in
  _ ← mint_from_proof (str "bootstrap-admin") id amount (field_or form "owner" []);
  mret (redirect (str "/admin/proofs/" ++ id)).

(** ** The JSON API *)
Definition account_json (a : Account) (token : bytes) (extra : list (String.string * json)) : json :=
  obj ([("did", JStr (ac_did a)); ("name", JStr (ac_name a)); ("role", JStr (role_str (ac_role a))); ("token", JStr token);
        ("warning", text "store this token now; it is not shown again")]%string ++ extra).
Definition api_register (req : HttpRequest) : sm HttpResponse :=
  if negb (cf_open_registration config) then
    err (api_error 403 "UK-4001" "RegistrationClosed" "self-registration is disabled; ask an operator for an account")
  else
    ok ← allow (str "register:" ++ peer_of req) 10;
    if negb ok then err (limit "too many account registrations from this client")
    else
      let name := trim (str_at (body_of req) "name") in
      if negb (name_ok name) then err (bad_request "name must be 1..=64 characters")
      else '(a, token) ← create_account name Customer;
           answer 201 (account_json a token [("sandbox", JBool (cf_sandbox config))]%string).

Definition api_me (caller : Caller) : sm HttpResponse :=
  a ← ok_or (caller_account caller) (unauthorized "this endpoint needs an account token");
  reserves ← engine_read (Reserves (ac_did a));
  coins ← engine_read (Coins (ac_did a));
  merchant ← engine_read (RefiRead.Merchant (ac_did a));
  let rows := (λ r, (str_at r "reserve_id", default 0 (as_u64 (at_key r "balance")))) <$> default [] (as_array (at_key reserves "reserves")) in
  let view := public a rows (default 0 (as_u64 (at_key coins "total"))) (default 0 (as_u64 (at_key merchant "balance"))) in
  view ← liftr (set_key view "certificates_detail" coins);
  view ← liftr (set_key view "sandbox" (JBool (cf_sandbox config)));
  answer 200 view.

(** A list of certificate ids. *)
Fixpoint parse_ids (ids : list json) (not_string not_id : String.string) : res ApiError (list bytes) :=
  match ids with
  | [] => Ok []
  | id :: ids =>
      match as_str id with
      | None => Err (bad_request not_string)
      | Some s =>
          match parse_id s with
          | None => Err (bad_request not_id)
          | Some b => rest ← parse_ids ids not_string not_id; Ok (b :: rest)
          end
      end
  end.
Definition one_to_16 {A} (l : list A) : bool := (1 <=? Zlen l) && (Zlen l <=? 16).
Definition api_deposit (req : HttpRequest) (caller : Caller) : sm HttpResponse :=
  a ← ok_or (caller_account caller) (unauthorized "a customer token is required");
  let body := body_of req in
  let merchant := trim (str_at body "merchant") in
  if negb (is_did merchant) then err (bad_request "merchant must be a did:unfer:<64 hex> DID")
  else
    ids ← ok_or (as_array (at_key body "coins")) (bad_request "coins must be an array of certificate ids");
    if negb (one_to_16 ids) then err (bad_request "deposit 1..=16 certificates at a time")
    else
      coins ← liftr (parse_ids ids "coin ids are strings" "coin id must be 64 hex characters");
      seed ← ok_or (seed_of a) (internal "the sandbox wallet key is malformed");
      out ← engine_call (Deposit (ac_did a) seed coins merchant);
      _ ← mutated;
      answer 200 out.

Fixpoint parse_outputs (outs : list json) : res ApiError (list (Z * bytes)) :=
  match outs with
  | [] => Ok []
  | o :: outs =>
      match as_u64 (at_key o "amount") with
      | None => Err (bad_request "output amount is required")
      | Some amount =>
          let to := str_at o "to" in
          if negb (is_did to) then Err (bad_request "output recipient must be a did:unfer: DID")
          else rest ← parse_outputs outs; Ok ((amount, to) :: rest)
      end
  end.
Definition api_transfer (req : HttpRequest) (caller : Caller) : sm HttpResponse :=
  a ← ok_or (caller_account caller) (unauthorized "an account token is required");
  let body := body_of req in
  inputs ← ok_or (as_array (at_key body "inputs")) (bad_request "inputs must be an array of certificate ids");
  if negb (one_to_16 inputs) then err (bad_request "transfer 1..=16 inputs at a time")
  else
    ids ← liftr (parse_ids inputs "input ids are strings" "input id must be 64 hex characters");
    outputs ← ok_or (as_array (at_key body "outputs")) (bad_request "outputs must be an array of {amount,to}");
    if negb (one_to_16 outputs) then err (bad_request "1..=16 outputs")
    else
      outs ← liftr (parse_outputs outputs);
      seed ← ok_or (seed_of a) (internal "the sandbox wallet key is malformed");
      out ← engine_call (Transfer (ac_did a) seed ids outs);
      _ ← mutated;
      answer 200 out.

Definition submission_status (s : State) : Z :=
  match s with Published => 200 | Queued | Verified => 202 | Rejected => 422 | Failed => 502 end.

Definition is_path (segs : list bytes) (p : list String.string) : bool := bool_decide (segs = str <$> p).
Definition route_admin_api (req : HttpRequest) (segs : list bytes) (caller : Caller) : sm HttpResponse :=
  if negb (caller_is_admin caller) then err (unauthorized "admin token required")
  else
    let get_m := bool_decide (rq_method req = str "GET") in
    let post := bool_decide (rq_method req = str "POST") in
    let body := body_of req in
    let at_ p := is_path segs ("api" :: "v1" :: "admin" :: p)%string in
    if get_m && at_ ["accounts"%string] then
      accounts ← get v_accounts;
      answer 200 (obj [("accounts", JArr ((λ a, obj [("did", JStr (ac_did a)); ("name", JStr (ac_name a)); ("role", JStr (role_str (ac_role a)));
                                                     ("created_at", JNum (ac_created_at a))]) <$> accounts))]%string)
    else if post && at_ ["accounts"%string] then
      let name := trim (str_at body "name") in
      if negb (name_ok name) then err (bad_request "name must be 1..=64 characters")
      else
        role ← ok_or (role_parse (default (str "customer") (as_str (at_key body "role")))) (bad_request "role must be customer, merchant or admin");
        '(a, token) ← create_account name role;
        answer 201 (account_json a token [])
    else if post && at_ ["proofs"%string] then
      proof ← publish_proof (default (str "bootstrap-admin") (caller_did caller)) (default (str "refi") (as_str (at_key body "project")))
        (str_at body "title") (str_at body "mm0") (str_at body "mm1");
      answer (submission_status (pf_state proof)) (proof_json proof)
    else if post && at_ ["denominations"%string] then
      value ← ok_or (as_u64 (at_key body "value")) (bad_request "value is required");
      out ← engine_call (IssueDenom (default (str "admin") (caller_did caller)) value (as_u64 (at_key body "expires_seq")) true);
      _ ← mutated;
      answer 200 out
    else if post && at_ ["mint"%string] then
      amount ← ok_or (as_u64 (at_key body "amount")) (bad_request "amount is required");
      let owner := trim (str_at body "owner") in
      let source := trim (str_at body "source") in
      if negb (is_did owner) then err (bad_request "owner must be a did:unfer:<64 hex> DID")
      else if negb ((Zlen source <=? 200) && (starts_with (str "unfccc:vc:") source || is_doi source)) then
        err (bad_request "source must be a UNFCCC provenance reference (unfccc:vc:<order>, max 200 chars) or a DOI (10.<registrant>/<suffix>)")
      else
        out ← engine_call (Mint (default (str "admin") (caller_did caller)) amount owner source true);
        _ ← mutated;
        answer 201 out
    else err (not_found "unknown admin endpoint").

Definition api_proofs : sm HttpResponse :=
  ledger ← get v_ledger;
  let '(published, pending, failed) := counts ledger in
  answer 200 (obj [("configured", JBool (configured ledger)); ("backend", opt JStr (base ledger));
    ("counts", obj [("published", JNum (Z.of_nat published)); ("pending", JNum (Z.of_nat pending)); ("failed", JNum (Z.of_nat failed))]);
    ("proofs", JArr (proof_json <$> so_proofs (lg_store ledger)))]%string).
Definition api_proof (id : bytes) : sm HttpResponse := d ← proof_detail id; v ← liftr (detail_json d); answer 200 v.

Definition bank_char (c : byte) : bool := is_ascii_alphanumeric c || bool_decide (c ∈ str " -/:").
Definition bank_ok (bank : bytes) : bool := negb (bool_decide (bank = [])) && (Zlen bank <=? 64) && forallb bank_char bank.

(** The segments after a prefix. *)
Definition under (segs : list bytes) (p : list String.string) : list bytes :=
  if bool_decide (take (length p) segs = str <$> p) then drop (length p) segs else [].

Definition reserve_view (req : HttpRequest) (id : bytes) : sm HttpResponse :=
  id ← ok_or (parse_id id) (bad_request "reserve id must be 64 hex characters");
  value ← engine_read (Reserve id);
  caller ← authenticate req false;
  if negb (caller_is_admin caller) && bool_decide (caller_did caller ≠ Some (str_at value "owner"))
  then err (unauthorized "this reserve belongs to another account")
  else value ← liftr (set_key value "sandbox" (JBool (cf_sandbox config))); answer 200 value.

(** The commands of an account; [did] is whom they are attributed to. *)
Definition done (m : sm json) : sm HttpResponse := out ← m; _ ← mutated; answer 200 out.
Definition open_reserve_api (req : HttpRequest) (did : bytes) : sm HttpResponse :=
  r ← (match as_str (at_key (body_of req) "reserve_id") with
       | Some s => ok_or (parse_id s) (bad_request "reserve_id must be 64 hex characters")
       | None => mret (default_reserve_id did)
       end);
  done (engine_call (OpenReserve did r)).
Definition reserve_action (req : HttpRequest) (did id action : bytes) : sm HttpResponse :=
  id ← ok_or (parse_id id) (bad_request "reserve id must be 64 hex characters");
  amount ← amount_of req;
  if bool_decide (action = str "peg-in") then done (engine_call (PegIn did id amount))
  else if bool_decide (action = str "withdraw") then done (engine_call (Withdraw did id amount))
  else err (not_found "unknown reserve action").
Definition peg_out_api (req : HttpRequest) (did : bytes) (caller : Caller) : sm HttpResponse :=
  amount ← amount_of req;
  let bank := trim (str_at (body_of req) "bank_account") in
  if negb (bank_ok bank) then err (bad_request "bank_account must be 1..=64 letters, digits, spaces or -/ :")
  else done (engine_call (PegOut did amount bank (caller_is_admin caller))).
Definition peg_out_action (did wire action : bytes) (caller : Caller) : sm HttpResponse :=
  if bool_decide (action = str "confirm") then
    if negb (caller_is_admin caller) then err (unauthorized "only an operator may confirm a wire")
    else done (engine_call (ConfirmPegOut did wire true))
  else if bool_decide (action = str "cancel") then done (engine_call (CancelPegOut did wire (caller_is_admin caller)))
  else err (not_found "unknown peg-out action").
Definition mint_api (req : HttpRequest) (caller : Caller) (id : bytes) : sm HttpResponse :=
  if negb (caller_is_admin caller) then err (unauthorized "admin token required")
  else
    let body := body_of req in
    out ← mint_from_proof (default (str "bootstrap-admin") (caller_did caller)) id (default 0 (as_u64 (at_key body "amount"))) (str_at body "owner");
    answer 201 out.

(** Everything below the public part. *)
Definition account_api (req : HttpRequest) (segs : list bytes) (caller : Caller) : sm HttpResponse :=
  let get_m := bool_decide (rq_method req = str "GET") in
  let post := bool_decide (rq_method req = str "POST") in
  let at_ p := is_path segs ("api" :: "v1" :: p)%string in
  let did := default (str "did:unfer:bootstrap-admin") (caller_did caller) in
  let rest :=
    if bool_decide (take 3 segs = str <$> ["api"; "v1"; "admin"]%string) then route_admin_api req segs caller
    else if get_m && at_ ["audit"%string] then
      if negb (caller_is_admin caller) then err (unauthorized "admin token required") else v ← engine_read Audit; answer 200 v
    else if get_m && at_ ["me"%string] then api_me caller
    else if post && at_ ["reserves"%string] then open_reserve_api req did
    else match post, under segs ["api"; "v1"; "reserves"]%string with
    | true, [id; action] => reserve_action req did id action
    | _, _ =>
        if post && at_ ["deposits"%string] then api_deposit req caller
        else if post && at_ ["transfers"%string] then api_transfer req caller
        else if post && at_ ["peg-outs"%string] then peg_out_api req did caller
        else match post, under segs ["api"; "v1"; "peg-outs"]%string with
        | true, [wire; action] => peg_out_action did wire action caller
        | _, _ => err (not_found "unknown API endpoint")
        end
    end in
  match post, under segs ["api"; "v1"; "proofs"]%string with
  | true, [id; m] => if bool_decide (m = str "mint") then mint_api req caller id else rest
  | _, _ => rest
  end.

Definition limit_of (req : HttpRequest) (d : Z) : Z := default d (v ← query_get req (str "limit"); parse_uint (2 ^ 64) v).
Definition read_answer (q : Read) : sm HttpResponse := v ← engine_read q; answer 200 v.
Definition route_api (req : HttpRequest) (segs : list bytes) : sm HttpResponse :=
  let get_m := bool_decide (rq_method req = str "GET") in
  let post := bool_decide (rq_method req = str "POST") in
  let at_ p := is_path segs ("api" :: "v1" :: p)%string in
  if get_m && at_ ["status"%string] then read_answer Status
  else if get_m && at_ ["registry"%string] then read_answer (Registry (limit_of req 200) (query_get req (str "kind")))
  else if get_m && at_ ["denominations"%string] then read_answer Denominations
  else if get_m && at_ ["ops"%string] then read_answer (Ops (limit_of req 50))
  else match get_m, under segs ["api"; "v1"; "reserves"]%string with
  | true, [id] => reserve_view req id
  | _, _ =>
  match get_m, under segs ["api"; "v1"; "merchants"]%string with
  | true, [did] => read_answer (RefiRead.Merchant did)
  | _, _ =>
  if post && at_ ["accounts"%string] then api_register req
  else if get_m && at_ ["proofs"%string] then api_proofs
  else match get_m, under segs ["api"; "v1"; "proofs"]%string with
  | true, [id] => api_proof id
  | _, _ => caller ← authenticate req false; account_api req segs caller
  end end end.

(** ** Operational endpoints *)
Definition healthz : sm HttpResponse :=
  audit ← engine_read Audit;
  up ← get (λ s, uptime (e_tick (v_engine s).2));
  let ok := match at_key audit "ok" with JBool true => true | _ => false end in
  answer (if ok then 200 else 503)
    (obj [("status", text (if ok then "ok" else "degraded")); ("audit", text (if ok then "ok" else "failed")); ("policy", text "loaded");
          ("uptime_s", JNum up); ("sandbox", JBool (cf_sandbox config))]%string).
Definition metric (name help kind : String.string) (value : Z) : bytes :=
  str "# HELP " ++ str name ++ str " " ++ str help ++ [LF] ++ str "# TYPE " ++ str name ++ str " " ++ str kind ++ [LF] ++ str name ++ str " " ++ dec value ++ [LF].
Definition metrics_page : sm HttpResponse := λ s,
  let '(s, r) := engine_read Status s in
  match r with
  | Panic => (s, Panic)
  | _ =>
      let status := match r with Ok v => v | _ => JNull end in
      let num v := default 0 (as_u64 v) in
      (s, Ok (resp_text 200 (
        metric "refi_requests_total" "HTTP requests handled" "counter" (v_requests s) ++
        metric "refi_errors_total" "responses with status >= 400" "counter" (v_errors s) ++
        metric "refi_mutations_total" "accepted state transitions" "counter" (v_mutations s) ++
        metric "refi_uptime_seconds" "process uptime" "gauge" (uptime (e_tick (v_engine s).2)) ++
        metric "refi_accounts" "registered accounts" "gauge" (Zlen (v_accounts s)) ++
        metric "refi_ledger_supply" "certificates in circulation" "gauge" (num (at_key (at_key status "ledger") "total_supply")) ++
        metric "refi_reserves_total" "reserve liabilities" "gauge" (num (at_key status "reserves_total")) ++
        metric "refi_merchants_total" "merchant fiat balances" "gauge" (num (at_key status "merchants_total")) ++
        metric "refi_policy_loaded" "Austral policy kernel loaded" "gauge" 1)))
  end.

(** ** Routing *)
Definition trimmed_path (p : bytes) : bytes :=
  match reverse (drop_slashes (reverse p)) with [] => str "/" | q => q end.
Definition segments (p : bytes) : list bytes := filter (λ s, s ≠ []) (split Byte.x2f p).

Definition route_site (req : HttpRequest) (segs : list bytes) : sm HttpResponse :=
  let get_m := bool_decide (rq_method req = str "GET") in
  let post := bool_decide (rq_method req = str "POST") in
  let fallback :=
    if bool_decide (head segs = Some (str "api")) then route_api req segs else page 404 V_not_found in
  if get_m && is_path segs [] then site_home
  else if get_m && is_path segs ["registry"%string] then site_registry
  else if get_m && is_path segs ["api"%string] then page 200 V_api_docs
  else match get_m, under segs ["pages"%string] with
  | true, [slug] => site_page slug
  | _, _ =>
  if get_m && is_path segs ["proofs"%string] then site_proofs
  else match get_m, under segs ["proofs"%string] with
  | true, [id] => site_proof id
  | _, _ =>
  if get_m && is_path segs ["attestation"%string] then liftr (attestation (cf_state_dir config) (cf_listen config) (query_get req (str "nonce")))
  else if get_m && is_path segs ["admin"%string] then admin_home req
  else if get_m && is_path segs ["admin"; "login"]%string then
    mret (resp_html 200 (RefiSite.login {| ch_pages := []; ch_sandbox := cf_sandbox config; ch_base_url := cf_base_url config |} None))
  else if post && is_path segs ["admin"; "login"]%string then admin_login req
  else if post && is_path segs ["admin"; "logout"]%string then mret admin_logout
  else match get_m, post, under segs ["admin"; "pages"]%string with
  | true, _, [slug] => admin_editor req slug
  | _, true, [slug; action] => admin_page_action req slug action
  | _, _, _ =>
  if post && is_path segs ["admin"; "pages"]%string then admin_save_page req
  else if post && is_path segs ["admin"; "accounts"]%string then admin_create_account_form req
  else if get_m && is_path segs ["admin"; "proofs"]%string then admin_proofs req
  else if post && is_path segs ["admin"; "proofs"]%string then admin_publish_proof req
  else match get_m, post, under segs ["admin"; "proofs"]%string with
  | true, _, [id] => admin_proof_detail req id
  | _, true, [id; m] => if bool_decide (m = str "mint") then admin_mint_from_proof req id else fallback
  | _, _, _ =>
  if post && is_path segs ["admin"; "denominations"]%string then admin_issue_denom_form req else fallback
  end end end end.

Definition style_page : HttpResponse :=
  {| rs_status := 200; rs_content_type := str "text/css; charset=utf-8"; rs_body := style_css;
     rs_headers := [(str "Cache-Control", str "public, max-age=300")] |}.
Definition route (req : HttpRequest) : sm HttpResponse :=
  let path := trimmed_path (rq_path req) in
  let get_m := bool_decide (rq_method req = str "GET") in
  if get_m && bool_decide (path = str "/healthz") then healthz
  else if get_m && bool_decide (path = str "/metrics") then metrics_page
  else if get_m && bool_decide (path = str "/style.css") then mret style_page
  else
    ok ← allow (peer_of req) 240;
    if negb ok then err (limit "too many requests from this client; slow down")
    else route_site req (segments path).

Definition decorate (r : HttpResponse) : HttpResponse :=
  {| rs_status := rs_status r; rs_content_type := rs_content_type r; rs_body := rs_body r;
     rs_headers := rs_headers r ++ [
       (str "X-Content-Type-Options", str "nosniff"); (str "Referrer-Policy", str "no-referrer");
       (str "Content-Security-Policy", str "default-src 'none'; style-src 'self'; img-src 'self' data:; form-action 'self'; base-uri 'none'; frame-ancestors 'none'");
       (str "Permissions-Policy", str "camera=(), microphone=(), geolocation=()")] ++
       (if cf_secure_cookies config then [(str "Strict-Transport-Security", str "max-age=31536000")] else []) |}.

Definition handle (req : HttpRequest) : stm svc () HttpResponse := λ s,
  let s := set_counts (v_requests s + 1) (v_errors s) (v_mutations s) s in
  let finish s (resp : HttpResponse) :=
    (if 400 <=? rs_status resp then set_counts (v_requests s) (v_errors s + 1) (v_mutations s) s else s, Ok (decorate resp)) in
  match route req s with
  | (s, Ok resp) => finish s resp
  | (s, Err e) => finish s (to_response e)
  | (s, Panic) => (s, Panic)
  end.

(** ** Start-up ([Service::new]): the stores as they are loaded *)
Definition bootstrap_admin (admin_token : bytes) (now : Z) : Account :=
  {| ac_did := str "did:unfer:bootstrap-admin"; ac_name := str "bootstrap"; ac_role := Admin; ac_secret := [];
     ac_token := sha256_hex admin_token; ac_created_at := now |}.
Definition service_new (admin_token : bytes) (now : Z) : stm X bytes (list Account * ContentStore * Ledger) :=
  let file name := path_join (cf_state_dir config) (str name) in
  accounts ← load_accounts (file "accounts.json"%string);
  content ← load_content (file "content.json"%string);
  content ← (if negb (cs_seeded content) then
               let c := seed_if_empty now content in _ ← save_content (file "content.json"%string) c; mret c
             else mret content);
  accounts ← (if negb (existsb account_is_admin accounts) then
                let l := accounts ++ [bootstrap_admin admin_token now] in _ ← save_accounts (file "accounts.json"%string) l; mret l
              else mret accounts);
  ledger ← ledger_load (file "proofs.json"%string) (cf_mm0web config);
  mret (accounts, content, ledger).
End service.
End RefiService.
