(* ===== verification/RefiAuth.v ===== *)
(** * Requests do only what their token allows ([refi/src/service.rs])

    Every command the service sends to the engine, and every change of its own
    stores, is authorized by a token the request carries in its header or in its
    form, never by a cookie alone. *)

From S2P Require Import Prelude Text RefiUtil RefiJson RefiEngine RefiRead RefiBoot RefiAccounts RefiContent RefiProofs RefiHttp RefiService.
Import RefiUtil RefiJson RefiEngine RefiRead RefiBoot RefiAccounts RefiContent RefiProofs RefiHttp RefiService.

Module RefiAuth.

Section auth.
Context {T : Type} `{Taler T, !StateCodec T} {X : Type} `{Storage X, Network X} `{Sha256, HexText, JsonCodec, AccountCodec, ContentCodec, ProofCodec, Keys, Measure}.
Variables (clock uptime : nat → Z) (random : nat → bytes) (kernel : Z → Z → stm (est (T:=T) (X:=X)) bytes Z).
Variables (config : Config) (admin_hash : bytes).
Local Abbreviation svc := (svc (T:=T) (X:=X)).
Local Abbreviation sm := (stm svc ApiError).

(** A token the request itself carries. *)
Definition carries (req : HttpRequest) (t : bytes) : Prop :=
  bearer req = Some t ∨ ∃ form, parse_form (E:=ApiError) (rq_body req) = Ok form ∧ t = field_or form "token" [].
(** Whom a token stands for. *)
Definition stands_for (accounts : list Account) (t : bytes) (c : Caller) : Prop :=
  if token_is_admin admin_hash t then c = TokenAdmin else ∃ a, by_token accounts t = Some a ∧ c = AccountCaller a.
Definition calls_as (accounts : list Account) (req : HttpRequest) (c : Caller) : Prop := ∃ t, carries req t ∧ stands_for accounts t c.
Definition by_admin (accounts : list Account) (req : HttpRequest) : Prop := ∃ c, calls_as accounts req c ∧ caller_is_admin c = true.

(** A command is the caller's own: on the account's behalf, with the account's
    key, and with the admin flag only for an admin. *)
Definition authorized (accounts : list Account) (req : HttpRequest) (cmd : Cmd) : Prop :=
  ∃ c, calls_as accounts req c ∧
    (is_admin cmd = true → caller_is_admin c = true) ∧
    (∀ a, c = AccountCaller a → actor cmd = ac_did a) ∧
    match cmd with
    | Deposit _ secret _ _ | Transfer _ secret _ _ => ∃ a, c = AccountCaller a ∧ seed_of a = Some secret
    | Mint _ _ _ _ _ | IssueDenom _ _ _ _ | ConfirmPegOut _ _ _ => caller_is_admin c = true
    | _ => True
    end ∧
    0 ≤ amount cmd < 2 ^ 64.

(** What a request may have done to the stores it found. *)
Record legit (s0 : svc) (req : HttpRequest) (s : svc) : Prop := {
  legit_calls : v_calls s = v_calls s0 ∨ ∃ cmd, v_calls s = v_calls s0 ++ [cmd] ∧ authorized (v_accounts s0) req cmd;
  legit_accounts : v_accounts s = v_accounts s0 ∨ ∃ a, v_accounts s = v_accounts s0 ++ [a] ∧
    (by_admin (v_accounts s0) req ∨ cf_open_registration config = true ∧ ac_role a = Customer);
  legit_content : v_content s = v_content s0 ∨ by_admin (v_accounts s0) req;
  legit_ledger : v_ledger s = v_ledger s0 ∨ by_admin (v_accounts s0) req
}.

(** ** Steps that touch none of the stores *)
Definition same (s s' : svc) : Prop :=
  v_calls s' = v_calls s ∧ v_accounts s' = v_accounts s ∧ v_content s' = v_content s ∧ v_ledger s' = v_ledger s.
#[local] Instance same_refl : Reflexive same.
Proof. by intros s. Qed.
#[local] Instance same_trans : Transitive same.
Proof. intros a b c (?&?&?&?) (?&?&?&?). unfold same. by split_and!; congruence. Qed.
Definition quiet {E A} (m : stm svc E A) : Prop := ∀ s, same s (m s).1.

Lemma quiet_bind {A B} (m : sm A) (k : A → sm B) : quiet m → (∀ a, quiet (k a)) → quiet (m ≫= k).
Proof.
  intros Hm Hk s. unfold mbind, stm_bind. specialize (Hm s). destruct (m s) as [s' [a|e|]]; [|done..]. by etrans; [|apply Hk].
Qed.
Lemma quiet_ret {A} (a : A) : quiet (mret a : sm A).
Proof. by intros s. Qed.
Lemma quiet_err {A} e : quiet (err e : sm A).
Proof. by intros s. Qed.
Lemma quiet_lift {A} r : quiet (liftr r : sm A).
Proof. by intros s. Qed.
Lemma quiet_get {A} (f : svc → A) : quiet (get f).
Proof. by intros s. Qed.
Lemma quiet_ok_or {A} (o : option A) e : quiet (ok_or o e : sm A).
Proof. by destruct o. Qed.
Lemma quiet_now : quiet (now_unix (T:=T) (X:=X) clock).
Proof. intros s. unfold now_unix, tick. by destruct (v_engine s). Qed.
Lemma quiet_draw : quiet (draw (T:=T) (X:=X) random).
Proof. by intros s. Qed.
Lemma quiet_mutated : quiet (mutated (T:=T) (X:=X)).
Proof. by intros s. Qed.
Lemma quiet_read q : quiet (engine_read kernel q).
Proof. intros s. unfold engine_read. by destruct (read _ _ _). Qed.
Lemma quiet_disk {A} (m : stm X bytes A) : quiet (on_disk m).
Proof. intros s. unfold on_disk. destruct (v_engine s) as [al e]. by destruct (m (e_x e)) as [x [?|?|]]. Qed.
Lemma quiet_slot key n m : quiet (take_slot (T:=T) (X:=X) key n m).
Proof. intros s. unfold take_slot. by repeat case_match. Qed.
Lemma quiet_if {A} (b : bool) (m n : sm A) : quiet m → quiet n → quiet (if b then m else n).
Proof. by destruct b. Qed.
Create HintDb quiet.
Hint Resolve quiet_bind quiet_ret quiet_err quiet_lift quiet_get quiet_ok_or quiet_now quiet_draw quiet_mutated quiet_read quiet_disk quiet_slot quiet_if : quiet.

Lemma quiet_allow key n : quiet (allow (T:=T) (X:=X) clock key n).
Proof. apply quiet_bind; auto with quiet. Qed.
Lemma quiet_form req : quiet (form_of (T:=T) (X:=X) req).
Proof. apply quiet_lift. Qed.
Lemma quiet_page status v : quiet (page (T:=T) (X:=X) config status v).
Proof. apply quiet_bind; [apply quiet_bind; auto with quiet|auto with quiet]. Qed.
Lemma quiet_answer status v : quiet (answer (T:=T) (X:=X) status v).
Proof. apply quiet_ret. Qed.
Lemma quiet_amount req : quiet (amount_of (T:=T) (X:=X) req).
Proof. apply quiet_ok_or. Qed.
Lemma quiet_authenticate req b : quiet (authenticate (T:=T) (X:=X) admin_hash req b).
Proof.
  apply quiet_bind; [auto with quiet|]. intros t. apply quiet_if; [auto with quiet|].
  apply quiet_bind; [auto with quiet|]. intros l. apply quiet_bind; auto with quiet.
Qed.
Lemma quiet_require req t : quiet (require_admin (T:=T) (X:=X) admin_hash req t).
Proof.
  unfold require_admin. destruct t as [t|]; [apply quiet_if; auto with quiet|].
  apply quiet_bind; [apply quiet_authenticate|]. intros c. apply quiet_if; auto with quiet.
Qed.
Lemma quiet_certificates doi : quiet (certificates_for kernel doi).
Proof. intros s. unfold certificates_for. pose proof (quiet_read (Registry 500 None) s). by destruct (engine_read _ _ s) as [s' [?|?|]]. Qed.
Lemma quiet_detail id : quiet (proof_detail kernel id).
Proof.
  apply quiet_bind; [auto with quiet|]. intros l. destruct (by_id _ id) as [p|]; [|auto with quiet].
  apply quiet_bind; [destruct (pf_doi p); [apply quiet_certificates|auto with quiet]|auto with quiet].
Qed.
Hint Resolve quiet_allow quiet_form quiet_page quiet_answer quiet_amount quiet_authenticate quiet_require quiet_certificates quiet_detail : quiet.

(** ** Handlers *)
Section request.
Context (s0 : svc) (req : HttpRequest).
Definition safe {E A} (m : stm svc E A) : Prop := ∀ s, same s0 s → legit s0 req (m s).1.

Lemma fresh_legit s : same s0 s → legit s0 req s.
Proof. intros (?&?&?&?). split; by left. Qed.
Lemma legit_same s s' : legit s0 req s → same s s' → legit s0 req s'.
Proof. intros [] (E1&E2&E3&E4). split; rewrite ?E1, ?E2, ?E3, ?E4; done. Qed.

Lemma safe_quiet {E A} (m : stm svc E A) : quiet m → safe m.
Proof. intros Hm s Hs. apply fresh_legit. by etrans. Qed.
(** A quiet step, whose result is known, then the rest. *)
Lemma safe_bind {A B} (m : sm A) (k : A → sm B) :
  quiet m → (∀ s s' a, same s0 s → m s = (s', Ok a) → safe (k a)) → safe (m ≫= k).
Proof.
  intros Hm Hk s Hs. unfold mbind, stm_bind. pose proof (Hm s) as Hq. destruct (m s) as [s' [a|e|]] eqn:E; cbn in Hq.
  - eapply Hk; [exact Hs|exact E|]. by etrans.
  - apply fresh_legit. by etrans.
  - apply fresh_legit. by etrans.
Qed.
Lemma safe_bind' {A B} (m : sm A) (k : A → sm B) : quiet m → (∀ a, safe (k a)) → safe (m ≫= k).
Proof. intros Hm Hk. apply safe_bind; [done|]. intros ? ? a _ _. apply Hk. Qed.
(** A step that changes something, then only quiet ones. *)
Lemma safe_then {A B} (m : sm A) (k : A → sm B) : safe m → (∀ a, quiet (k a)) → safe (m ≫= k).
Proof.
  intros Hm Hk s Hs. unfold mbind, stm_bind. specialize (Hm s Hs). destruct (m s) as [s' [a|e|]]; [|done..].
  eapply legit_same; [exact Hm|apply Hk].
Qed.

Lemma safe_call cmd : authorized (v_accounts s0) req cmd → safe (engine_call kernel cmd).
Proof.
  intros Ha s (E1&E2&E3&E4). unfold engine_call. destruct (call _ _ _) as [e r]. split; cbn; [|by left..].
  right. exists cmd. by rewrite E1.
Qed.

Lemma authenticated s s' b c : same s0 s → authenticate admin_hash req b s = (s', Ok c) →
  ∃ t, token_of req b = Some t ∧ stands_for (v_accounts s0) t c.
Proof.
  intros (_&Ha&_&_). unfold authenticate, mbind, stm_bind. destruct (token_of req b) as [t|]; [|done]. cbn.
  unfold stands_for. destruct (token_is_admin admin_hash t) eqn:Et; [intros [= <- <-]; exists t; by rewrite Et|].
  cbn. destruct (by_token (v_accounts s) t) as [a|] eqn:Eb; [|done]. intros [= <- <-]. exists t. rewrite Et. split; [done|].
  exists a. by rewrite <-Ha.
Qed.
Lemma bearer_calls s s' c : same s0 s → authenticate admin_hash req false s = (s', Ok c) → calls_as (v_accounts s0) req c.
Proof. intros Hs E. apply authenticated in E as (t & Ht & Hc); [|done]. exists t. split; [|done]. left. unfold token_of in Ht. by destruct (bearer req). Qed.
Lemma form_admin form (s s' : svc) c :
  parse_form (E:=ApiError) (rq_body req) = Ok form → require_admin admin_hash req (Some (field_or form "token" [])) s = (s', Ok c) →
  calls_as (v_accounts s0) req TokenAdmin ∧ c = TokenAdmin.
Proof.
  intros Hf E. unfold require_admin in E. destruct (token_is_admin _ _) eqn:Et; [|done]. injection E as _ <-. split; [|done].
  exists (field_or form "token" []). split; [right; by exists form|]. unfold stands_for. by rewrite Et.
Qed.
Lemma form_parsed (s s' : svc) form : form_of req s = (s', Ok form) → parse_form (E:=ApiError) (rq_body req) = Ok form.
Proof. by intros [= _ ->]. Qed.
Lemma admin_by c : calls_as (v_accounts s0) req c → caller_is_admin c = true → by_admin (v_accounts s0) req.
Proof. intros. by exists c. Qed.

Lemma as_u64_range v n : as_u64 v = Some n → 0 ≤ n < 2 ^ 64.
Proof. destruct v; cbn; try done. destruct (_ && _) eqn:E; [|done]. intros [= <-]. apply andb_prop in E as [?%Z.leb_le ?%Z.ltb_lt]. lia. Qed.
Lemma parse_digits_range b s acc n : 0 ≤ acc < b → parse_digits b s acc = Some n → 0 ≤ n < b.
Proof.
  revert acc. induction s as [|c s IH]; intros acc Ha; cbn; [by intros [= <-]|]. unfold from_ascii_digit.
  destruct (_ && _) eqn:Ed; [|done]. cbn. apply andb_prop in Ed as [?%Z.leb_le ?%Z.leb_le]. case_match eqn:E; [|done]. apply Z.ltb_lt in E. apply IH. lia.
Qed.
Lemma parse_uint_range s n : parse_uint (2 ^ 64) s = Some n → 0 ≤ n < 2 ^ 64.
Proof. unfold parse_uint. destruct (match s with b :: s' => _ | [] => _ end); [done|]. apply parse_digits_range. lia. Qed.

Ltac hush := repeat first
  [ solve [auto with quiet] | apply quiet_if | apply quiet_bind; [|intros ?]
  | match goal with |- quiet (match ?x with _ => _ end) => destruct x end ].
Ltac skip := apply safe_bind'; [solve [hush]|intros ?].
Ltac branch := match goal with |- safe (if ?b then _ else _) => destruct b eqn:?; [try (apply safe_quiet; solve [hush])|try (apply safe_quiet; solve [hush])] end.

Lemma ok_or_Some {A} (o : option A) e (s s' : svc) a : ok_or o e s = (s', Ok a) → o = Some a.
Proof. destruct o; [by intros [= <- <-]|done]. Qed.
Lemma lift_Ok {A} r (s s' : svc) (a : A) : liftr r s = (s', Ok a) → r = Ok a.
Proof. by intros [= _ ->]. Qed.
Ltac known H := apply safe_bind; [solve [hush]|]; intros ? ? ? _ H; first [apply ok_or_Some in H | apply lift_Ok in H].

(** *** The steps that change a store *)
Lemma safe_create name role :
  by_admin (v_accounts s0) req ∨ cf_open_registration config = true ∧ role = Customer →
  safe (create_account clock random config name role).
Proof.
  intros Hr. unfold create_account. do 3 skip. apply safe_bind; [hush|]. intros s s' l (_&Ha&_&_) [= <- <-]. cbn [create].
  apply safe_then; [|intros; hush]. intros s1 (E1&E2&E3&E4). cbn. split; cbn; [by left| |by left..].
  right. eexists. rewrite Ha. split; [done|]. cbn. naive_solver.
Qed.
Lemma safe_publish actor project title mm0 mm1 :
  by_admin (v_accounts s0) req → safe (publish_proof clock actor project title mm0 mm1).
Proof.
  intros Hb. unfold publish_proof. do 4 branch. skip. branch. skip. apply safe_then; [|intros; hush].
  intros s (E1&E2&E3&E4). unfold on_ledger. destruct (v_engine s) as [al e]. destruct (publish _ _ _ _ _ _ _) as [[l x] r].
  split; cbn; [by left..|by left|by right].
Qed.
Lemma safe_content c : by_admin (v_accounts s0) req → safe (put_content c).
Proof. intros Hb s (E1&E2&E3&E4). split; cbn; [by left..|by right|by left]. Qed.

Lemma safe_mint actor id amount owner c :
  calls_as (v_accounts s0) req c → caller_is_admin c = true → (∀ a, c = AccountCaller a → actor = ac_did a) → 0 ≤ amount < 2 ^ 64 →
  safe (mint_from_proof kernel actor id amount owner).
Proof.
  intros Hc Had Hac Ha. unfold mint_from_proof. skip. skip. do 3 branch. apply safe_then; [|intros; hush]. apply safe_call.
  exists c. split_and!; cbn; auto; lia.
Qed.

(** *** Handlers behind a token *)
Section caller.
Context (c : Caller) (Hc : calls_as (v_accounts s0) req c).

(** The account a command is attributed to. *)
Lemma attributed d a : c = AccountCaller a → default d (caller_did c) = ac_did a.
Proof. by intros ->. Qed.
Lemma safe_done m : safe m → safe (done m).
Proof. intros. apply safe_then; [done|]. intros. hush. Qed.
Lemma amount_range s s' n : amount_of (T:=T) (X:=X) req s = (s', Ok n) → 0 ≤ n < 2 ^ 64.
Proof.
  unfold amount_of. destruct (as_u64 _) as [k|] eqn:E; [|done]. cbn. destruct (0 <? k); [|done]. intros [= <- <-]. by eapply as_u64_range.
Qed.
Lemma u64_or_zero v : 0 ≤ default 0 (as_u64 v) < 2 ^ 64.
Proof. destruct (as_u64 v) eqn:E; cbn; [by eapply as_u64_range|lia]. Qed.

Ltac owned := apply safe_call; exists c; split_and!; cbn; first [lia | by apply attributed | by eauto | done].
Ltac charged := apply safe_bind; [solve [hush]|]; intros ? ? n ? Hn%amount_range.

Lemma safe_open_reserve : safe (open_reserve_api kernel req (default (str "did:unfer:bootstrap-admin") (caller_did c))).
Proof. unfold open_reserve_api. skip. apply safe_done. owned. Qed.
Lemma safe_reserve_action id action : safe (reserve_action kernel req (default (str "did:unfer:bootstrap-admin") (caller_did c)) id action).
Proof. unfold reserve_action. skip. charged. branch; [apply safe_done; owned|]. branch. apply safe_done. owned. Qed.
Lemma safe_peg_out : safe (peg_out_api kernel req (default (str "did:unfer:bootstrap-admin") (caller_did c)) c).
Proof. unfold peg_out_api. charged. branch. apply safe_done. owned. Qed.
Lemma safe_peg_out_action wire action : safe (peg_out_action kernel (default (str "did:unfer:bootstrap-admin") (caller_did c)) wire action c).
Proof.
  unfold peg_out_action. branch.
  - destruct (caller_is_admin c) eqn:Hadm; cbn; [|apply safe_quiet; hush]. apply safe_done. owned.
  - branch. apply safe_done. owned.
Qed.
Lemma safe_mint_api id : safe (mint_api kernel req c id).
Proof.
  unfold mint_api. destruct (caller_is_admin c) eqn:Hadm; cbn; [|apply safe_quiet; hush].
  apply safe_then; [|intros; hush]. apply (safe_mint _ _ _ _ c); [done..| |apply u64_or_zero]. intros. by apply attributed.
Qed.

Lemma parse_ids_length ids e1 e2 l : parse_ids ids e1 e2 = Ok l → length l = length ids.
Proof.
  revert l. induction ids as [|i ids IH]; intros l; cbn; [by intros [= <-]|]. destruct (as_str i); [|done]. destruct (parse_id _); [|done].
  destruct (parse_ids _ _ _) as [r|?|]; [|done..]. intros [= <-]. cbn. by rewrite (IH r eq_refl).
Qed.
Lemma one_to_16_small {A} (l : list A) : one_to_16 l = true → 0 ≤ Zlen l < 2 ^ 64.
Proof. intros [_ Hl%Z.leb_le]%andb_prop. lia. Qed.
Lemma safe_spend cmd a seed : caller_account c = Some a → seed_of a = Some seed →
  (∃ coins m, cmd = Deposit (ac_did a) seed coins m) ∨ (∃ l outs, cmd = Transfer (ac_did a) seed l outs) →
  0 ≤ amount cmd < 2 ^ 64 → safe (engine_call kernel cmd).
Proof.
  intros E' Hs Hcmd Hr. assert (E : c = AccountCaller a) by (destruct c; naive_solver). apply safe_call. exists c. split_and!; [done|destruct_or!; naive_solver..|lia|lia].
Qed.
Lemma safe_deposit : safe (api_deposit kernel req c).
Proof.
  unfold api_deposit. known Ha. branch. skip. rename a0 into ids. destruct (one_to_16 ids) eqn:E; cbn; [|apply safe_quiet; hush].
  known Hids. known Hs. apply safe_then; [|intros; hush].
  apply parse_ids_length in Hids. apply one_to_16_small in E. rewrite <-Hids in E. by eapply safe_spend; eauto.
Qed.
Lemma safe_transfer : safe (api_transfer kernel req c).
Proof.
  unfold api_transfer. known Ha. skip. rename a0 into ids. destruct (one_to_16 ids) eqn:E; cbn; [|apply safe_quiet; hush].
  known Hids. skip. branch. skip. known Hs. apply safe_then; [|intros; hush].
  apply parse_ids_length in Hids. apply one_to_16_small in E. rewrite <-Hids in E. by eapply safe_spend; eauto.
Qed.
Lemma safe_admin_api segs : safe (route_admin_api clock random kernel config req segs c).
Proof.
  unfold route_admin_api. destruct (caller_is_admin c) eqn:Hadm; cbn [negb]; [|apply safe_quiet; hush].
  assert (Hb := admin_by c Hc Hadm). branch. branch.
  { branch. skip. apply safe_then; [apply safe_create; by left|]. intros []. hush. }
  branch. { apply safe_then; [by apply safe_publish|]. intros. hush. }
  branch. { known Hv. apply as_u64_range in Hv. apply safe_then; [owned|]. intros. hush. }
  branch. known Hv. apply as_u64_range in Hv. do 2 branch. apply safe_then; [owned|]. intros. hush.
Qed.
Lemma safe_account_api segs : safe (account_api clock random kernel config req segs c).
Proof.
  unfold account_api.
  set (rest := if bool_decide (take 3 segs = _) then _ else _). assert (Hr : safe rest).
  { unfold rest. branch; [apply safe_admin_api|]. do 2 branch. branch; [apply safe_open_reserve|].
    repeat case_match; try solve [apply safe_reserve_action | apply safe_deposit | apply safe_transfer | apply safe_peg_out
      | apply safe_peg_out_action | apply safe_quiet; hush]. }
  clearbody rest. repeat case_match; [..|done]; try done; try apply safe_mint_api.
Qed.
End caller.

(** *** Handlers behind a form's token *)
Ltac signed Hb := apply safe_bind; [solve [hush]|]; intros ? ? form _ Hf%form_parsed; apply safe_bind; [solve [hush]|];
  intros ? ? ? _ [Hb ->]%(form_admin _ _ _ _ Hf).
Lemma admin_token : calls_as (v_accounts s0) req TokenAdmin → by_admin (v_accounts s0) req.
Proof. intros. by eapply admin_by. Qed.
Ltac stored := apply safe_then; [by apply safe_content, admin_token|intros; hush].

Lemma safe_save_page : safe (admin_save_page clock config admin_hash req).
Proof. unfold admin_save_page. signed Hb. do 2 branch. do 3 skip. case_match. stored. Qed.
Lemma safe_page_action slug action : safe (admin_page_action clock config admin_hash req slug action).
Proof. unfold admin_page_action. signed Hb. skip. skip. stored. Qed.
Lemma safe_create_form : safe (admin_create_account_form clock random config admin_hash req).
Proof.
  unfold admin_create_account_form. signed Hb. branch. skip. apply safe_then; [by apply safe_create; left; apply admin_token|].
  intros []. hush.
Qed.
Lemma form_u64 (form : list (bytes * bytes)) key : 0 ≤ default 0 (v ← form_get form key; parse_uint (2 ^ 64) v) < 2 ^ 64.
Proof. destruct (form_get form key) as [v|]; cbn; [|lia]. destruct (parse_uint _ v) eqn:E; cbn; [by eapply parse_uint_range|lia]. Qed.
Lemma safe_issue_form : safe (admin_issue_denom_form kernel admin_hash req).
Proof.
  unfold admin_issue_denom_form. signed Hb. known Hv. apply safe_then; [|intros; hush]. apply safe_call. exists TokenAdmin.
  destruct (form_get _ _) as [v|]; cbn in Hv; [|done]. destruct (parse_uint _ v) as [n|] eqn:E; cbn in Hv; [|done].
  apply parse_uint_range in E. destruct (0 <? n); [|done]. injection Hv as <-. split_and!; cbn; done || lia.
Qed.
Lemma safe_publish_form : safe (admin_publish_proof clock config admin_hash req).
Proof. unfold admin_publish_proof. signed Hb. apply safe_then; [by apply safe_publish, admin_token|]. intros. hush. Qed.
Lemma safe_mint_form id : safe (admin_mint_from_proof kernel admin_hash req id).
Proof.
  unfold admin_mint_from_proof. signed Hb. apply safe_then; [|intros; hush]. apply (safe_mint _ _ _ _ TokenAdmin); [done..|apply form_u64].
Qed.

(** *** Handlers that show the sign-in page to everyone else *)
Lemma quiet_as_admin k : quiet k → quiet (as_admin config admin_hash req k).
Proof.
  intros Hk s. unfold as_admin. pose proof (quiet_authenticate req true s) as Ha. destruct (authenticate _ _ _ s) as [s' [c|e|]]; [|by etrans; [|apply quiet_page]|done].
  case_match; etrans; [done|apply quiet_page|done|apply Hk].
Qed.
Lemma quiet_site_proof id : quiet (site_proof kernel config id).
Proof.
  intros s. unfold site_proof. pose proof (quiet_detail id s) as Hd. destruct (proof_detail _ _ s) as [s' [d|e|]]; [by etrans; [|apply quiet_page]| |done].
  case_match; [by etrans; [|apply quiet_page]|done].
Qed.
Lemma quiet_home : quiet (site_home kernel config).
Proof. unfold site_home. hush. Qed.
Lemma quiet_registry : quiet (site_registry kernel config).
Proof. unfold site_registry. hush. Qed.
Lemma quiet_site_page slug : quiet (site_page config slug).
Proof. unfold site_page. hush. Qed.
Lemma quiet_proofs : quiet (site_proofs kernel config).
Proof. unfold site_proofs. hush. Qed.
Lemma quiet_admin_home : quiet (admin_home kernel config admin_hash req).
Proof. apply quiet_as_admin. hush. Qed.
Lemma quiet_admin_proofs : quiet (admin_proofs config admin_hash req).
Proof. apply quiet_as_admin. hush. Qed.
Lemma quiet_admin_detail id : quiet (admin_proof_detail kernel config admin_hash req id).
Proof. apply quiet_as_admin. hush. Qed.
Lemma quiet_login : quiet (admin_login clock config admin_hash req).
Proof. unfold admin_login. hush. Qed.
Lemma quiet_editor slug : quiet (admin_editor config admin_hash req slug).
Proof. unfold admin_editor. hush. Qed.
Lemma quiet_metrics : quiet (metrics_page uptime kernel).
Proof. intros s. unfold metrics_page. pose proof (quiet_read Status s) as Hs. by destruct (engine_read _ _ s) as [s' [?|?|]]. Qed.

(** *** Routing *)
Hint Resolve quiet_site_proof quiet_metrics quiet_home quiet_registry quiet_site_page quiet_proofs quiet_admin_home quiet_admin_proofs
  quiet_admin_detail quiet_login quiet_editor : quiet.
Lemma safe_register : safe (api_register clock random config req).
Proof.
  unfold api_register. destruct (cf_open_registration config) eqn:Ho; cbn [negb]; [|apply safe_quiet; hush]. skip. do 2 branch.
  apply safe_then; [apply safe_create; by right|]. intros []. hush.
Qed.
Lemma safe_account segs : safe (caller ← authenticate admin_hash req false; account_api clock random kernel config req segs caller).
Proof. apply safe_bind; [hush|]. intros. by eapply safe_account_api, bearer_calls. Qed.
Create HintDb safe discriminated.
Hint Constants Opaque : safe.
Hint Resolve safe_account safe_register safe_page_action safe_save_page safe_create_form safe_publish_form safe_mint_form safe_issue_form : safe.
Ltac dispatch := repeat case_match; first [solve [auto with safe nocore] | apply safe_quiet; solve [auto with quiet | hush]].

Lemma safe_route_api segs : safe (route_api clock random kernel config admin_hash req segs).
Proof. unfold route_api. dispatch. Qed.
Hint Resolve safe_route_api : safe.
Lemma safe_route_site segs : safe (route_site clock random kernel config admin_hash req segs).
Proof. unfold route_site. dispatch. Qed.
Hint Resolve safe_route_site : safe.
Lemma safe_route : safe (route clock uptime random kernel config admin_hash req).
Proof.
  unfold route. do 3 (case_match; [apply safe_quiet; solve [hush]|]). skip. dispatch.
Qed.
End request.

(** C3. Whatever a request contains and whatever state it meets, handling it
    (routing, every page, form and API endpoint, the rate limiter and the
    counters) does at most this: it sends the engine at most one command, made for
    a caller whose token the request carries in its authorization header or in its
    form (the session cookie alone never suffices), attributed to that caller's own
    account and signed with that account's own key, with the admin flag and the
    operator commands only for an admin, and with an amount that fits 64 bits; it
    adds at most one account, for an admin or, where registration is open, as a
    plain customer; and it changes the pages and the proof ledger for an admin
    only. *)
Theorem requests_authorized s0 req : legit s0 req (handle clock uptime random kernel config admin_hash req s0).1.
Proof.
  unfold handle. set (s1 := set_counts _ _ _ s0). assert (Hs : same s0 s1) by done.
  pose proof (safe_route s0 req s1 Hs) as Hl. destruct (route _ _ _ _ _ _ _ s1) as [s [r|e|]]; cbn in Hl; [| |done].
  all: cbv beta iota zeta; case_match; [eapply legit_same; [exact Hl|done]|exact Hl].
Qed.
End auth.
End RefiAuth.
