(* ===== verification/RefiDemo.v ===== *)
(** * The exchange end to end

    A small exchange with reserves and mints, its state file, and a bridge that
    compiles a kernel: concrete instances of the interfaces the service is
    modelled against, on which its theorems are applied. *)

From S2P Require Import Prelude Cursor Text Toml Auth Clif Cps CpsLang CpsCorrect Demo Jit JitSafe RefiUtil RefiJson RefiFile RefiEngine RefiPolicy RefiRead RefiBoot RefiHttp RefiProofs.
Import Toml Clif Cps CpsLang CpsDemo Jit JitDemo HostDemo RefiUtil RefiJson RefiFile RefiEngine RefiPolicy RefiDurable RefiRead RefiBoot RefiHttp RefiProofs.

Module RefiDemo.

(** ** Text and files *)
#[export] Instance demo_sha : Sha256 := λ b, take 32 (b ++ replicate 32 Byte.x00).
Definition hex_digit (z : Z) : byte := z2b (if z <? 10 then 48 + z else 87 + z).
Definition hex_value (c : byte) : option Z :=
  if byte_in 48 57 c then Some (b2z c - 48) else if byte_in 97 102 c then Some (b2z c - 87) else None.
Fixpoint hex_bytes (s : bytes) : option bytes :=
  match s with
  | [] => Some []
  | a :: b :: s => x ← hex_value a; y ← hex_value b; rest ← hex_bytes s; Some (z2b (16 * x + y) :: rest)
  | _ => None
  end.
#[export] Instance demo_hex : HexText := {
  hex_encode b := concat ((λ c, [hex_digit (b2z c / 16); hex_digit (b2z c mod 16)]) <$> b);
  hex_decode := hex_bytes
}.
#[export] Instance files_storage : Storage (gmap bytes bytes) := {
  st_read p fs := (fs, match fs !! p with
                       | Some b => if Zlen b <? 2 ^ 63 then Ok (Some b) else Err (str "too large")
                       | None => Ok None
                       end);
  st_exists p fs := (fs, bool_decide (is_Some (fs !! p)));
  st_create_dir _ fs := (fs, Ok ());
  st_write_atomic p b fs := (<[p := b]> fs, Ok ())
}.
#[export] Instance demo_faults : Faults := {| fault _ := None; written _ := 0%nat |}.
#[export] Instance demo_pid : Process := 7.

(** ** The exchange: reserves, the last wire, and the mints in order *)
Definition toy : Type := list (bytes * bytes * Z) * option (bytes * bytes * Z) * list (Z * bytes * bytes * option bytes).
Definition toy_reserve (t : toy) (id : bytes) : option (bytes * Z) :=
  (λ '(_, o, b), (o, b)) <$> head (filter (λ '(i, _, _), i = id) t.1.1).
Definition toy_wire (w : bytes * bytes * Z) : WireRef := {| wr_id := w.1.1; wr_to := w.1.2; wr_amount := w.2 |}.
Definition refused {A} : stm toy Diagnostic A := λ t, (t, Err {| dg_code := OtherCode 1; dg_name := str "refused"; dg_message := [] |}).
Definition toy_coin (amount : Z) (owner blinding : bytes) : bytes := demo_sha (le_bytes 8 amount ++ blinding ++ owner).
Definition toy_op (i : nat) (m : Z * bytes * bytes * option bytes) : LedgerOp :=
  let '(a, o, b, src) := m in CertificateOp (Z.of_nat i) (str "did:treasury") (OpMint a o b src).

#[export] Instance toy_taler : Taler toy := {
  code_num _ := 1; code_name _ := str "code"; snapshot_t := toy; taler_new _ := ([], None, []);
  snapshot t := t; from_snapshot _ t := Ok t;
  reserve := toy_reserve; is_deposited _ _ := false; utxo _ _ := None;
  denomination _ v := if v =? 5 then Some {| dn_value := 5; dn_expires_seq := 100 |} else None;
  audit _ := Ok (); merchant_balance _ _ := 0; peg_out_wire _ _ := None; current_seq t := Zlen t.2;
  get_wire t id := toy_wire <$> t.1.2; reserves t := t.1.1; merchants _ := []; funded_outstanding _ := 0;
  fiat_in _ := 0; fiat_out _ := 0; ledger_root _ := []; total_supply _ := 0; unspent_count _ := 0;
  denominations _ := []; treasury_did _ := str "did:treasury"; peg_outs _ := []; coins_of _ _ := [];
  ops t := imap toy_op t.2; commit_coin := toy_coin;
  open_reserve r o t := (t.1.1 ++ [(r, o, 0)], t.1.2, t.2);
  issue_denomination _ _ t := t;
  prepare_transfer to a t := ((t.1.1, Some (str "w", to, a), t.2), Ok (toy_wire (str "w", to, a)));
  confirm_wire _ t := (t, Ok ());
  peg_in r w t := (((λ '(i, o, b), (i, o, if bool_decide (i = r) then b + wr_amount w else b)) <$> t.1.1, None, t.2), Ok ());
  withdraw _ _ := refused; deposit _ _ _ := refused; peg_out _ _ _ := refused; confirm_peg_out _ := refused; cancel_peg_out _ := refused;
  mint_certificate a o b src t := ((t.1, t.2 ++ [(a, o, b, src)]), Ok (toy_coin a o b));
  transfer_certificate _ _ _ := refused
}.

(** ** The state file: the bits of a numbering of the states *)
Fixpoint bits (p : positive) : bytes :=
  match p with xH => [Byte.x01] | xO p => Byte.x00 :: bits p | xI p => Byte.x02 :: bits p end.
Fixpoint unbits (b : bytes) : option positive :=
  match b with
  | [Byte.x01] => Some xH
  | Byte.x00 :: b => xO <$> unbits b
  | Byte.x02 :: b => xI <$> unbits b
  | _ => None
  end.
Lemma unbits_bits p : unbits (bits p) = Some p.
Proof. induction p as [p IH|p IH|]; cbn; [by rewrite IH..|done]. Qed.

Definition to_tuple (p : Persisted (T:=toy)) : Z * toy * (Z * list (bytes * Z)) :=
  (ps_version p, ps_exchange p, (us_day (ps_usage p), map_to_list (us_per_account (ps_usage p)))).
Definition of_tuple (t : Z * toy * (Z * list (bytes * Z))) : Persisted (T:=toy) :=
  {| ps_version := t.1.1; ps_exchange := t.1.2; ps_usage := {| us_day := t.2.1; us_per_account := list_to_map t.2.2 |} |}.
#[export] Instance toy_codec : StateCodec toy := {
  encode_state p := Some (bits (encode (to_tuple p)));
  decode_state b := of_tuple <$> (p ← unbits b; countable.decode p)
}.
#[export] Instance toy_laws : StateLaws toy.
Proof.
  split.
  - intros [v e [d m]] b [= <-]. cbn. rewrite unbits_bits. cbn. rewrite countable.decode_encode. unfold of_tuple, to_tuple. cbn.
    by rewrite list_to_map_to_list.
  - intros seed e. by exists e.
Qed.

(** ** A running engine *)
Definition demo_cfg : EngineConfig :=
  {| cfg_state_path := str "/s/state.json"; cfg_treasury_seed := []; cfg_manifest_path := str "/m.toml"; cfg_cps_path := str "/k.cps";
     cfg_austral_bin := str "/bin/austral"; cfg_module_path := str "/k.aum"; cfg_max_wire := 1000; cfg_daily_cap := 100; cfg_denom_horizon := 10;
     cfg_default_denoms := [5] |}.
Definition alice : bytes := str "did:alice".
Definition demo_rt : Runtime (T:=toy) :=
  {| rt_cfg := demo_cfg; rt_exchange := ([(str "r", alice, 3)], None, [(5, alice, str "n", Some (str "unfccc:vc:1"))]);
     rt_usage := {| us_day := 2; us_per_account := {[alice := 40]} |} |}.
Definition noon : nat → Z := λ _, 2 * 86400 + 43200.
Definition demo_est : est (T:=toy) (X:=gmap bytes bytes) := Est (Some demo_rt) None 0 ∅.
Definition demo_peg_in : Cmd := PegIn alice (str "r") 50.

Definition is_Okj {E A} (r : res E A) : bool := match r with Ok _ => true | _ => false end.
(** A peg-in within the cap is served; a second one would pass it. *)
Example demo_served :
  let '(s, r) := run_cmd (apply noon) demo_peg_in demo_est in
  is_Okj r = true ∧ (toy_reserve ∘ rt_exchange <$> e_rt s) ≫= (λ f, f (str "r")) = Some (alice, 53) ∧
  is_Okj (run_cmd (apply noon) demo_peg_in s).2 = false.
Proof. vm_compute. auto. Qed.

Example command_exact_witness :
  0 ≤ amount demo_peg_in < 2 ^ 64 ∧ permitted demo_rt (today (noon 0)) demo_peg_in = true ∧
  ∃ s' r u, run_cmd (apply noon) demo_peg_in demo_est = (s', r) ∧
    e_rt s' = Some {| rt_cfg := demo_cfg; rt_exchange := (transition demo_cfg demo_peg_in (rt_exchange demo_rt)).1; rt_usage := u |}.
Proof.
  assert (0 ≤ amount demo_peg_in < 2 ^ 64) as Ha by (cbn; lia). split; [exact Ha|]. split; [vm_compute; reflexivity|].
  destruct (run_cmd (apply noon) demo_peg_in demo_est) as [s' r] eqn:E.
  destruct (command_exact noon demo_peg_in demo_rt None 0 ∅ s' r Ha E) as [[u Hu] _]. exists s', r, u. split; [reflexivity|exact Hu].
Defined.

(** Three peg-ins in one day: the third would pass the cap. *)
Definition demo_day : list Cmd := [demo_peg_in; PegIn alice (str "r") 10; PegIn alice (str "r") 1].
Example demo_day_booked : pegged_in 2 alice (serve noon demo_day demo_est) = 60.
Proof. vm_compute. reflexivity. Qed.
Example daily_cap_holds_witness :
  us_day (rt_usage demo_rt) ≤ today (noon 0) ∧ Forall (λ c, 0 ≤ amount c < 2 ^ 64) demo_day ∧
  Z.min 100 40 + pegged_in 2 alice (serve noon demo_day demo_est) ≤ 100.
Proof.
  assert (us_day (rt_usage demo_rt) ≤ today (noon 0)) as Hd by (vm_compute; discriminate).
  assert (Forall (λ c, 0 ≤ amount c < 2 ^ 64) demo_day) as Ha by (repeat constructor; cbn; lia).
  split; [exact Hd|]. split; [exact Ha|].
  assert (∀ w, 0 ≤ default 0 (us_per_account (rt_usage demo_rt) !! w)) as Hu.
  { intros w. unfold demo_rt. cbn [rt_usage us_per_account]. destruct (decide (w = alice)) as [->|Hw]; [rewrite lookup_singleton_eq|rewrite lookup_singleton_ne by congruence]; cbn; lia. }
  refine (proj2 (daily_cap_holds noon demo_day demo_rt None 0 ∅ 2 alice _ Hu Ha) _ Hd); [cbn; lia|]. intros i j _. unfold noon. lia.
Defined.

(** A clock that shows the day before for the two readings of one peg-in: the
    day's usage is forgotten, and 150 is pegged in on top of 40 under a cap of
    100. *)
Definition stepped_back (i : nat) : Z := if decide (i = 2%nat ∨ i = 3%nat) then noon i - 86400 else noon i.
Definition forgetful_day : list Cmd := [demo_peg_in; PegIn alice (str "r") 10; PegIn alice (str "r") 100].
Example clock_back_passes_cap :
  pegged_in 2 alice (serve stepped_back forgetful_day demo_est) = 150 ∧
  readings stepped_back 0 (e_tick (ended stepped_back forgetful_day demo_est)) = [2; 2; 1; 1; 2; 2] ∧
  entered 2 2 [2; 2; 1; 1; 2; 2] = 2.
Proof. by vm_compute. Qed.

(** A disk that stores the state, and the same peg-in on it. *)
Definition demo_disk : disk :=
  {| d_dir := {[str "/s/state.json" := 1]}; d_past := [];
     d_data := {[1 := (default [] (encode_state (persisted demo_rt)), true)]}; d_next := 2 |}.
Definition demo_fs : fsys := Fsys demo_disk [] 0.
Lemma demo_tmp_ne : tmp_path (str "/s/state.json") ≠ str "/s/state.json".
Proof. by vm_compute. Qed.
Lemma demo_stored : stored (str "/s/state.json") demo_rt demo_disk.
Proof.
  pose proof demo_tmp_ne as Hne. split; unfold d_hist, demo_disk; cbn [d_dir d_past d_data d_next].
  - intros c Hc. apply list_elem_of_singleton in Hc as ->. rewrite lookup_singleton_eq.
    eexists. split; [apply lookup_singleton_eq|]. split.
    { eexists. split; [done|]. by apply decode_encode. }
    split; [lia|]. by rewrite lookup_singleton_ne by congruence.
  - intros i. by rewrite lookup_singleton_ne by congruence.
Qed.
Example command_durable_witness :
  stored (str "/s/state.json") demo_rt (fs_now demo_fs) ∧
  ∃ s' r rt', run_cmd (apply noon) demo_peg_in (Est (Some demo_rt) None 0 demo_fs) = (s', r) ∧ is_Okj r = true ∧
    e_rt s' = Some rt' ∧ survives demo_cfg demo_rt rt' (e_x s').
Proof.
  split; [exact demo_stored|].
  assert (is_Okj (run_cmd (apply noon) demo_peg_in (Est (Some demo_rt) None 0 demo_fs)).2 = true) as Hok by (vm_compute; reflexivity).
  destruct (run_cmd (apply noon) demo_peg_in (Est (Some demo_rt) None 0 demo_fs)) as [s' r] eqn:E.
  destruct (command_durable noon demo_peg_in demo_rt None 0 demo_fs s' r ltac:(cbn; lia) demo_stored eq_refl E) as (rt' & Hrt & Hs & _).
  exists s', r, rt'. split; [reflexivity|]. split; [exact Hok|]. split; [exact Hrt|exact Hs].
Defined.

(** ** The registry of two mints *)
Definition demo_mints : toy := ([], None, [(5, alice, str "n", Some (str "unfccc:vc:1")); (7, alice, str "m", Some (str "10.5281/zenodo.1"))]).
Example demo_registry : length (registry demo_mints 10 None) = 2%nat ∧ length (registry demo_mints 10 (Some (str "carbon"))) = 1%nat.
Proof. by vm_compute. Qed.

(** ** HTTP *)
Definition demo_response : HttpResponse := resp_text 200 (str "ok").
Lemma demo_response_ok : response_ok demo_response.
Proof. by split; [cbn; lia|split; [|vm_compute; set_solver]|..|cbn; lia|constructor]. Qed.
Example reply_roundtrip_witness :
  response_ok demo_response ∧ read_reply (Stream (write_response demo_response false) false) = Ok (200, str "ok").
Proof. split; [exact demo_response_ok|]. exact (reply_roundtrip demo_response false demo_response_ok). Defined.

(** Two slots, both lost to panics: the third arrival is refused. *)
Example slots_exact_witness :
  let s := foldl (slot_step 2) slots_new [Arrives true; Arrives true; Panics; Panics; Arrives true] in
  sl_active s = sl_running s + sl_lost s ∧ sl_lost s = 2 ∧ sl_running (slot_step 2 s (Arrives true)) = 0.
Proof.
  destruct (slots_exact 2 [Arrives true; Arrives true; Panics; Panics; Arrives true] ltac:(lia)) as (H1 & _ & _ & _ & H2).
  split; [exact H1|]. split; [vm_compute; reflexivity|]. exact (proj2 (H2 eq_refl (Arrives true))).
Defined.

(** ** Proofs *)
#[export] Instance demo_json : JsonCodec := {| json_from_slice _ := None; json_to_vec _ := [] |}.
#[export] Instance demo_proofs : ProofCodec := {| encode_proofs _ := Some []; decode_proofs _ := None |}.
#[export] Instance offline : Network (gmap bytes bytes) := λ _ _ fs, (fs, Err (str "offline")).
Definition demo_published : Proof_ :=
  {| pf_id := str "p1"; pf_project := str "refi"; pf_title := str "t"; pf_sha256 := []; pf_state := Published; pf_mm0_proof := None;
     pf_record := Some 1; pf_doi := Some (str "10.5281/zenodo.1"); pf_url := None; pf_log := None; pf_detail := None;
     pf_submitted_by := str "admin"; pf_submitted_at := 1; pf_updated_at := 1 |}.
Definition demo_ledger : Ledger :=
  {| lg_path := str "/s/proofs.json"; lg_store := {| so_version := 1; so_proofs := [demo_published] |}; lg_client := None |}.
Definition demo_proof_ops : list op := [OpPublish alice (str "refi") (str "u") (str "x") (str "y") 2; OpRefresh 3].
Example published_final_witness :
  keyed (rows demo_ledger) ∧ demo_published ∈ rows (foldl op_step (demo_ledger, (∅ : gmap bytes bytes)) demo_proof_ops).1.
Proof.
  assert (keyed (rows demo_ledger)) as Hk by (apply NoDup_singleton). split; [exact Hk|].
  exact (proj2 (published_final (demo_ledger, (∅ : gmap bytes bytes)) demo_proof_ops Hk) demo_published ltac:(left) eq_refl).
Defined.

(** ** Boot: a kernel that calls one granted primitive *)
Definition kernel_data : bytes :=
  enc_program {| p_module := Some (str "demo");
    p_funs := [{| fd_name := str "apply"; fd_params := [str "cmd"; str "amount"]; fd_ret := z2b 0;
                  fd_body := SReturn (EApp (str "uk_init") (ECons (EConst 1) ENil)) [] |}] |}.
Definition boot_files : gmap bytes bytes := list_to_map [(str "/m.toml", str "plain"); (str "/k.cps", kernel_data)].
Definition demo_addr (n : bytes) : Z := 4096 + Zlen n.
Definition no_austral : bytes → list bytes → option bytes → stm (gmap bytes bytes) bytes (bytes * bytes) := λ _ _ _ fs, (fs, Err (str "no such file")).
Abbreviation demo_boot := (boot (J:=engine) (T:=toy) (X:=gmap bytes bytes) demo_clock demo_features demo_order (str "boom") demo_addr None no_austral demo_cfg).
Definition boot_start : boot_state (J:=engine) (T:=toy) (X:=gmap bytes bytes) := Boot demo_thread (Est None None 0 boot_files).
Lemma demo_reads_bounded (p : bytes) (x x' : gmap bytes bytes) (b : bytes) : st_read p x = (x', Ok (Some b)) → buffer b.
Proof. cbn. destruct (x !! p) as [d|]; [|done]. destruct (Z.ltb_spec (Zlen d) (2 ^ 63)); [|done]. by intros [= _ <-]. Qed.
Example boot_gated_witness :
  t_auth (b_thread boot_start) = Auth.auth_init ∧ is_Okj (demo_boot boot_start).2 = true ∧
  ∃ s' f rt, demo_boot boot_start = (s', Ok f) ∧ f ≠ 0 ∧ e_rt (b_engine s') = Some rt ∧ rt_cfg rt = demo_cfg.
Proof.
  split; [reflexivity|]. assert (is_Okj (demo_boot boot_start).2 = true) as Hok by (vm_compute; reflexivity). split; [exact Hok|].
  destruct (demo_boot boot_start) as [s' [f|e|]] eqn:E; [|discriminate Hok..].
  destruct (boot_gated demo_clock demo_features demo_order (str "boom") demo_addr None no_austral demo_cfg boot_start s' f demo_reads_bounded eq_refl E)
    as (Hf & (rt & Hrt & Hcfg) & _).
  exists s', f, rt. split; [reflexivity|]. split; [exact Hf|]. split; [exact Hrt|exact Hcfg].
Defined.
End RefiDemo.
