(* ===== verification/RefiMain.v ===== *)
(** * The exchange's command line and start-up ([refi/src/main.rs])

    The options over their defaults in the environment, the two secrets of the
    state directory, and the start of engine and service in their order. The
    state is that of [RefiBoot]: the thread of the bridge, the engine and the
    files. Module [RefiMainDemo]: a start-up on concrete inputs. *)

From S2P Require Import Prelude Cursor Text Toml Auth Clif Symbols Cps CpsLang CpsGate CpsCorrect Jit JitSafe Demo RefiUtil RefiFile RefiJson RefiEngine RefiPolicy RefiRead RefiBoot RefiContent RefiHttp RefiProofs RefiAccounts RefiService RefiDemo.
Import RefiUtil RefiJson RefiFile RefiEngine RefiPolicy RefiRead RefiDurable Toml Clif Cps CpsLang CpsGate Jit RefiBoot RefiAccounts RefiContent RefiProofs RefiService.

Module RefiMain.

(** ** Options *)
Record Cli := MkCli {
  o_listen : bytes; o_state_dir : bytes; o_base_url : bytes; o_max_wire : Z; o_daily_cap : Z; o_denom_horizon : Z; o_open_registration : bool;
  o_mm0web : option bytes; o_austral_bin : bytes; o_module_path : bytes; o_manifest_path : bytes; o_cps_path : option bytes; o_check : bool
}.
(** The variables of the environment, and the directory of the sources. *)
Record environment := {
  v_refi_listen : option bytes; v_state_dir : option bytes; v_base_url : option bytes; v_mm0web : option bytes; v_austral : option bytes;
  manifest_dir : bytes
}.
Definition defaults (env : environment) : Cli := {|
  o_listen := default (str "127.0.0.1:8080") (v_refi_listen env);
  o_state_dir := default (str "state") (v_state_dir env);
  o_base_url := default (str "http://127.0.0.1:8080") (v_base_url env);
  o_max_wire := 100000; o_daily_cap := 500000; o_denom_horizon := 100000; o_open_registration := false;
  o_mm0web := v ← v_mm0web env; let v := trim v in if bool_decide (v = []) then None else Some v;
  o_austral_bin := default (path_join (manifest_dir env) (str "../austral")) (v_austral env);
  o_module_path := path_join (manifest_dir env) (str "modules/RefiPolicy.aum");
  o_manifest_path := path_join (manifest_dir env) (str "module.toml");
  o_cps_path := None; o_check := false |}.

Inductive setting :=
| Listen (v : bytes) | StateDir (v : bytes) | BaseUrl (v : bytes) | MaxWire (n : Z) | DailyCap (n : Z) | DenomHorizon (n : Z) | OpenRegistration
| Mm0web (v : option bytes) | AustralBin (v : bytes) | ModulePath (v : bytes) | ManifestPath (v : bytes) | CpsPath (v : bytes) | CheckOnly.
Definition apply_setting (c : Cli) (s : setting) : Cli :=
  let '(MkCli l d u w k h r m a p f q b) := c in
  match s with
  | Listen v => MkCli v d u w k h r m a p f q b
  | StateDir v => MkCli l v u w k h r m a p f q b
  | BaseUrl v => MkCli l d v w k h r m a p f q b
  | MaxWire n => MkCli l d u n k h r m a p f q b
  | DailyCap n => MkCli l d u w n h r m a p f q b
  | DenomHorizon n => MkCli l d u w k n r m a p f q b
  | OpenRegistration => MkCli l d u w k h true m a p f q b
  | Mm0web v => MkCli l d u w k h r v a p f q b
  | AustralBin v => MkCli l d u w k h r m v p f q b
  | ModulePath v => MkCli l d u w k h r m a v f q b
  | ManifestPath v => MkCli l d u w k h r m a p v q b
  | CpsPath v => MkCli l d u w k h r m a p f (Some v) b
  | CheckOnly => MkCli l d u w k h r m a p f q true
  end.

(** An exit code and the line written to the error stream; after a mistake in
    the options the usage text follows it. *)
Record exit := Exit { x_code : Z; x_text : bytes }.
Definition usage {A} (text : bytes) : res exit A := Err (Exit 2 text).
Definition value (flag : String.string) (rest : list bytes) : res exit bytes :=
  match rest with [] => usage (str flag ++ str " needs a value") | v :: _ => Ok v end.
Definition parse_num (s : bytes) : res exit Z := Prelude.ok_or (parse_uint (2 ^ 64) s) (Exit 2 (str "expected a number, got " ++ s)).
Definition after_value (l : list bytes) : list bytes := match l with [] => l | _ :: l' => l' end.
Fixpoint parse_args (c : Cli) (args : list bytes) : res exit Cli :=
  match args with
  | [] => Ok c
  | a :: rest =>
      let named (s : String.string) := bool_decide (a = str s) in
      let text (f : String.string) (k : bytes → setting) := v ← value f rest; parse_args (apply_setting c (k v)) (after_value rest) in
      let number (f : String.string) (k : Z → setting) :=
        v ← value f rest; n ← parse_num v; parse_args (apply_setting c (k n)) (after_value rest) in
      if named "" then parse_args c rest
      else if named "--help" || named "-h" then usage []
      else if named "--listen" then text "--listen"%string Listen
      else if named "--state-dir" then text "--state-dir"%string StateDir
      else if named "--base-url" then text "--base-url"%string BaseUrl
      else if named "--max-wire" then number "--max-wire"%string MaxWire
      else if named "--daily-cap" then number "--daily-cap"%string DailyCap
      else if named "--denom-horizon" then number "--denom-horizon"%string DenomHorizon
      else if named "--open-registration" then parse_args (apply_setting c OpenRegistration) rest
      else if named "--mm0web" then text "--mm0web"%string (λ v, Mm0web (if bool_decide (trim v = []) then None else Some v))
      else if named "--austral-bin" then text "--austral-bin"%string AustralBin
      else if named "--module" then text "--module"%string ModulePath
      else if named "--manifest" then text "--manifest"%string ManifestPath
      else if named "--cps" then text "--cps"%string CpsPath
      else if named "--check" then parse_args (apply_setting c CheckOnly) rest
      else usage (str "unknown flag: " ++ a)
  end.

(** ** Secrets; [draw] is what the random source gives *)
Section secrets.
Context {X : Type} `{Storage X, HexText}.
Definition read_text (path : bytes) : stm X bytes bytes := λ x,
  match st_read path x with
  | (x, Ok (Some b)) => (x, if utf8_valid b then Ok b else Err (str "read " ++ path ++ str ": stream did not contain valid UTF-8"))
  | (x, Ok None) => (x, Err (str "read " ++ path ++ str ": No such file or directory (os error 2)"))
  | (x, Err e) => (x, Err (str "read " ++ path ++ str ": " ++ e))
  | (x, Panic) => (x, Panic)
  end.
Definition ensure_secret (path draw : bytes) : stm X bytes bytes := λ x,
  let '(x, here) := st_exists path x in
  if here then
    (text ← read_text path;
     stm_lift (Prelude.ok_or (parse_hex32 (trim text)) (path ++ str " must hold 64 hex characters"))) x
  else (_ ← st_write_atomic path (hex_encode draw); mret draw) x.
Definition ensure_admin_token (path draw : bytes) : stm X bytes bytes := λ x,
  let '(x, here) := st_exists path x in
  if here then
    (text ← read_text path;
     let token := trim text in
     if Zlen token <? 32 then stm_err (path ++ str " is too short to be an admin token") else mret token) x
  else let token := random_token (str "refi_admin_") draw in (_ ← st_write_atomic path token; mret token) x.
End secrets.

(** ** Start-up *)
Section main.
Context {J : Type} `{ClifModule J, !JitBackend J}.
Context {T : Type} `{Taler T, !StateCodec T} {X : Type} `{Storage X, Network X, TomlText}.
Context `{Sha256, HexText, JsonCodec, AccountCodec, ContentCodec, ProofCodec, Keys, Measure}.
Variables (jclock : nat → Z) (ft : features) (hash_order : gmap bytes func_id → list (bytes * func_id)) (panic_reason : bytes).
Variables (prim_addr : bytes → Z) (ld_library_path : option bytes) (austral : bytes → list bytes → option bytes → stm X bytes (bytes * bytes)).
Variables (env : environment) (seed_draw token_draw : bytes) (now : Z).

(** [--check] prints the ledger; otherwise the service is handed to the listener. *)
Inductive outcome :=
| Checked (status : json) (admin_path : bytes)
| Listening (config : Config) (cfg : EngineConfig) (kernel : Z) (admin_token : bytes) (accounts : list Account) (content : ContentStore) (ledger : Ledger).
Abbreviation mm := (stm (boot_state (J:=J) (T:=T) (X:=X)) exit).

Definition orelse {A} (what : bytes → bytes) (m : stm (boot_state (J:=J) (T:=T) (X:=X)) bytes A) : mm A := λ s,
  match m s with (s, Ok a) => (s, Ok a) | (s, Err e) => (s, Err (Exit 1 (what e))) | (s, Panic) => (s, Panic) end.
(** A panic ends the thread of the engine, not the process. *)
Definition engine_start (cfg : EngineConfig) : stm (boot_state (J:=J) (T:=T) (X:=X)) bytes Z := λ s,
  match boot jclock ft hash_order panic_reason prim_addr ld_library_path austral cfg s with
  | (s, Panic) => (s, Err (str "policy thread died during startup"))
  | r => r
  end.
Definition engine_config (c : Cli) (seed : bytes) : EngineConfig := {|
  cfg_state_path := path_join (o_state_dir c) (str "exchange.json"); cfg_treasury_seed := seed; cfg_manifest_path := o_manifest_path c;
  cfg_cps_path := default (path_join (o_state_dir c) (str "RefiPolicy.cps")) (o_cps_path c); cfg_austral_bin := o_austral_bin c;
  cfg_module_path := o_module_path c; cfg_max_wire := o_max_wire c; cfg_daily_cap := o_daily_cap c; cfg_denom_horizon := o_denom_horizon c;
  cfg_default_denoms := [1; 5; 10; 50; 100; 500; 1000] |}.
Definition service_config (c : Cli) : Config := {|
  cf_state_dir := o_state_dir c; cf_listen := o_listen c; cf_base_url := o_base_url c; cf_open_registration := o_open_registration c;
  cf_secure_cookies := starts_with (str "https://") (o_base_url c); cf_mm0web := o_mm0web c; cf_sandbox := true |}.
Definition read_status : mm json := λ s,
  match read_state (e_rt (b_engine s)) Status with
  | Ok v => (s, Ok v)
  | Err e => (s, Err (Exit 1 (str "status read failed: " ++ ae_message e)))
  | Panic => (s, Err (Exit 1 (str "status read failed: the exchange engine dropped the request")))
  end.
Definition main (args : list bytes) : mm outcome :=
  c ← stm_lift (parse_args (defaults env) args);
  let dir := o_state_dir c in
  _ ← orelse (λ e, str "cannot create state dir " ++ dir ++ str ": " ++ e) (on_files (st_create_dir dir));
  let admin_path := path_join dir (str "admin.token") in
  seed ← orelse id (on_files (ensure_secret (path_join dir (str "treasury.key")) seed_draw));
  token ← orelse id (on_files (ensure_admin_token admin_path token_draw));
  f ← orelse (λ e, str "startup failed: " ++ e) (engine_start (engine_config c seed));
  if o_check c then status ← read_status; mret (Checked status admin_path)
  else
    '(accounts, content, ledger) ← orelse (λ e, str "cannot open the service stores: " ++ e) (on_files (service_new (service_config c) token now));
    mret (Listening (service_config c) (engine_config c seed) f token accounts content ledger).
End main.

(** ** The secrets survive a crash *)

(** What the secrets rely on: hexadecimal text is digits and letters, and
    decodes to what it encodes. *)
Definition hex_char (c : byte) : bool := byte_in 48 57 c || byte_in 97 102 c.
Class HexLaws `{HexText} := {
  hex_decode_encode b : hex_decode (hex_encode b) = Some b;
  hex_chars b : Forall hex_char (hex_encode b)
}.

Definition no_hex_char (w : bytes) : bool := match w with [] => false | b :: _ => negb (hex_char b) end.
Lemma ws_hex ws b s : forallb no_hex_char ws = true → hex_char b → ws_len ws (b :: s) = 0%nat.
Proof.
  intros Hws Hb. unfold ws_len. destruct (list_find _ ws) as [[i w]|] eqn:E; [|done].
  apply list_find_Some in E as (Hi & [t Ht] & _). apply strip_prefix_Some in Ht.
  rewrite forallb_Forall, Forall_lookup in Hws. specialize (Hws i w Hi). destruct w as [|b' w]; [done|].
  cbn in Ht, Hws. injection Ht as <- _. by destruct (hex_char b).
Qed.
Lemma trim_hex s : Forall hex_char s → trim s = s.
Proof.
  intros Hs. assert (∀ ws t, forallb no_hex_char ws = true → Forall hex_char t → trim_left ws 0 t = t) as Ht.
  { intros ws [|b t] Hw Ht; [done|]. apply Forall_cons in Ht as [Hb _]. cbn [trim_left]. by rewrite ws_hex. }
  unfold trim. rewrite (Ht whitespace s) by done. rewrite Ht by (done || by apply Forall_reverse). apply reverse_involutive.
Qed.
Lemma utf8_hex s : Forall hex_char s → utf8_valid s = true.
Proof.
  induction 1 as [|b s Hb _ IH]; [done|]. cbn [utf8_valid]. replace (byte_in 0 127 b) with true; [done|].
  symmetry. apply byte_in_spec. unfold hex_char in Hb. apply orb_prop_elim in Hb as [Hb%Is_true_true%byte_in_spec|Hb%Is_true_true%byte_in_spec]; lia.
Qed.

Section durable.
Context `{Faults, Process} `{HexLaws}.

(** A file that a start-up reads as the secret [k]. *)
Definition keeps_secret (k : bytes) (o : option bytes) : Prop :=
  ∃ b, o = Some b ∧ utf8_valid b = true ∧ parse_hex32 (trim b) = Some k.
(** Missing, or a whole secret. *)
Definition secret_file (o : option bytes) : Prop := o = None ∨ ∃ k, keeps_secret k o.
Local Abbreviation safely path := (settled path (tmp_path path)).

Lemma encoded_secret draw : Zlen draw = 32 → keeps_secret draw (Some (hex_encode draw)).
Proof.
  intros Hl. exists (hex_encode draw). pose proof (hex_chars draw) as Hc. split; [done|]. split; [by apply utf8_hex|].
  unfold parse_hex32. rewrite !trim_hex by (rewrite ?trim_hex; done). rewrite hex_decode_encode. cbn.
  by rewrite (proj2 (Z.eqb_eq _ _) Hl).
Qed.

(** The file system after [n] more calls that changed nothing. *)
Definition later_by (n : nat) (s : fsys) : fsys := Fsys (fs_now s) (fs_trace s) (n + fs_calls s).
(** Looking for the file is one call; a fault there reads as an absent file. *)
Lemma ensure_looks path draw (s : fsys) :
  ensure_secret path draw s =
  match fault (fs_calls s), contents (fs_now s) path with
  | None, Some b =>
      match fault (S (fs_calls s)) with
      | Some e => (later_by 2 s, Err (str "read " ++ path ++ str ": " ++ e))
      | None => (later_by 2 s,
          if utf8_valid b then Prelude.ok_or (parse_hex32 (trim b)) (path ++ str " must hold 64 hex characters")
          else Err (str "read " ++ path ++ str ": stream did not contain valid UTF-8"))
      end
  | _, _ => (_ ← write_atomic path (hex_encode draw); mret draw) (later_by 1 s)
  end.
Proof.
  unfold ensure_secret, st_exists. cbn [fsys_storage]. destruct (fault (fs_calls s)) as [e|]; [done|].
  destruct (contents (fs_now s) path) as [b|] eqn:Eb; [|done]. cbn.
  unfold mbind, stm_bind, read_text, st_read. cbn. destruct (fault (S (fs_calls s))) as [e|]; [done|]. rewrite Eb.
  by destruct (utf8_valid b).
Qed.
Lemma read_secret path k draw (s : fsys) :
  keeps_secret k (contents (fs_now s) path) → fault (fs_calls s) = None →
  ensure_secret path draw s =
    (later_by 2 s, match fault (S (fs_calls s)) with Some e => Err (str "read " ++ path ++ str ": " ++ e) | None => Ok k end).
Proof.
  intros (b & Eb & Hu & Hk) Hf. rewrite ensure_looks, Hf, Eb, Hu, Hk. by destruct (fault (S _)).
Qed.

Lemma crash_now path P d o : settled path (tmp_path path) P d → d_past d = [] → after_crash d path o → o = contents d path.
Proof.
  intros [Hd _] Hp (c & Hc & Ho). unfold d_hist in Hd, Hc. rewrite Hp in Hd, Hc. apply list_elem_of_singleton in Hc as ->.
  specialize (Hd (d_dir d) ltac:(by left)). unfold contents. destruct (d_dir d !! path) as [i|]; [|done].
  destruct Hd as (b & Eb & _). cbn. rewrite Eb in *. done.
Qed.

(** A start that draws a secret: what the files may hold after a crash is what
    they may have held before, or the secret drawn. *)
Lemma write_secret path draw P (s s' : fsys) r :
  Zlen draw = 32 → safely path P (fs_now s) → Forall (safely path P) (fs_trace s) →
  (_ ← write_atomic path (hex_encode draw); mret draw) s = (s', r) →
  Forall (safely path (λ o, P o ∨ o = Some (hex_encode draw))) (fs_now s' :: fs_trace s') ∧
  match r with
  | Ok k => k = draw ∧ contents (fs_now s') path = Some (hex_encode draw) ∧
            (d_past (fs_now s') = [] → ∀ o, after_crash (fs_now s') path o → o = Some (hex_encode draw))
  | Err _ => contents (fs_now s') path = contents (fs_now s) path
  | Panic => False
  end.
Proof.
  intros Hl Hs Ht E. unfold mbind, stm_bind in E. destruct (write_atomic path (hex_encode draw) s) as [s1 r1] eqn:Ew.
  destruct (write_atomic_crash path (hex_encode draw) P (tmp_path_ne _) s s1 r1 Ew Hs) as [Hall Hr].
  { eapply Forall_impl; [exact Ht|]. intros d. apply settled_weaken. by left. }
  destruct r1 as [[]|e|]; [|injection E as <- <-; by destruct Hr|by destruct Hr].
  injection E as <- <-. destruct Hr as [Hc Hf]. split_and!; [done..|]. intros Hp o Ho. exact (settled_crash _ _ _ _ _ (Hf Hp) Ho).
Qed.

(** C11. The signing secret is created whole and kept. Start on a disk where
    whatever a crash leaves of the file ([P]) is nothing or a whole secret. At
    every moment of the start, whatever calls fail, a crash leaves what it could
    have left before or the secret drawn. A start that succeeds returns the
    secret the file then holds, and a crash cannot lose it once the directory
    was forced: it is the one found there if the call that looked for the file
    was answered, and the one drawn if the file was missing, or if that call
    failed, for then the code takes the file for missing and replaces it. A
    later start whose two calls are answered returns the same secret and
    changes nothing. A start that fails leaves the file as it was. *)
Theorem secret_durable path draw P (s s' : fsys) r :
  Zlen draw = 32 → (∀ o, P o → secret_file o) → safely path P (fs_now s) → Forall (safely path P) (fs_trace s) →
  ensure_secret path draw s = (s', r) →
  (∀ d o, d ∈ fs_now s' :: fs_trace s' → after_crash d path o → P o ∨ o = Some (hex_encode draw)) ∧
  match r with
  | Ok k =>
      keeps_secret k (contents (fs_now s') path) ∧
      (d_past (fs_now s') = [] → ∀ o, after_crash (fs_now s') path o → keeps_secret k o) ∧
      match fault (fs_calls s), contents (fs_now s) path with
      | None, Some b => keeps_secret k (Some b) ∧ fs_now s' = fs_now s
      | _, _ => k = draw
      end ∧
      ∀ later draw', contents (fs_now later) path = contents (fs_now s') path →
        fault (fs_calls later) = None → fault (S (fs_calls later)) = None →
        ∃ later', ensure_secret path draw' later = (later', Ok k) ∧ fs_now later' = fs_now later
  | Err _ => contents (fs_now s') path = contents (fs_now s) path
  | Panic => False
  end.
Proof.
  intros Hl HP Hs Ht E.
  assert (Hlater : ∀ k (later : fsys) draw', keeps_secret k (contents (fs_now later) path) → fault (fs_calls later) = None →
    fault (S (fs_calls later)) = None → ∃ later', ensure_secret path draw' later = (later', Ok k) ∧ fs_now later' = fs_now later).
  { intros k later draw' Hk Hf Hf'. exists (later_by 2 later). by rewrite (read_secret path k) , Hf'. }
  assert (Hcrash : ∀ Q (x : fsys), Forall (safely path Q) (fs_now x :: fs_trace x) →
    ∀ d o, d ∈ fs_now x :: fs_trace x → after_crash d path o → Q o).
  { intros Q x Hx d o Hd Ho. rewrite Forall_forall in Hx. by eapply settled_crash; [apply Hx|]. }
  assert (Hw : (_ ← write_atomic path (hex_encode draw); mret draw) (later_by 1 s) = (s', r) →
    (∀ d o, d ∈ fs_now s' :: fs_trace s' → after_crash d path o → P o ∨ o = Some (hex_encode draw)) ∧
    match r with
    | Ok k => keeps_secret k (contents (fs_now s') path) ∧
        (d_past (fs_now s') = [] → ∀ o, after_crash (fs_now s') path o → keeps_secret k o) ∧ k = draw
    | Err _ => contents (fs_now s') path = contents (fs_now s) path
    | Panic => False
    end).
  { intros Ew. destruct (write_secret path draw P (later_by 1 s) _ _ Hl Hs Ht Ew) as [Hall Hr]. split; [by apply Hcrash|].
    destruct r as [k|e|]; [|done..]. destruct Hr as (-> & Hc & Hf). rewrite Hc. split_and!; [by apply encoded_secret| |done].
    intros Hp o Ho. rewrite (Hf Hp o Ho). by apply encoded_secret. }
  destruct (fault (fs_calls s)) as [e|] eqn:Ef; [|destruct (contents (fs_now s) path) as [b|] eqn:Eb].
  1,3: rewrite ensure_looks, Ef, ?Eb in E; apply Hw in E as [? Hr]; split; [done|]; destruct r as [k|?|]; [|done..];
    destruct Hr as (Hk & Hp & ->); split_and!; [done..|]; intros later draw' El; apply Hlater; by rewrite El.
  destruct (HP _ (settled_now _ _ _ _ Hs)) as [En|[k Hk]]; [congruence|].
  rewrite (read_secret path k) in E by done. injection E as <- <-. split; [intros d o Hd Ho; left; exact (Hcrash P s ltac:(by constructor) d o Hd Ho)|].
  cbn. destruct (fault (S (fs_calls s))) as [e|]; [done|]. rewrite Eb in *. split_and!; [done| |done..|].
  - intros Hp o Ho. rewrite (crash_now _ _ _ _ Hs Hp Ho), Eb. done.
  - intros later draw' El. apply Hlater. by rewrite El.
Qed.
End durable.

(** ** What listens *)
Section gated.
Context {J : Type} `{JitSafe.JitLaws J}.
Context {T : Type} `{Taler T, !StateCodec T} {X : Type} `{Storage X, Network X, TomlText}.
Context `{Sha256, HexText, JsonCodec, AccountCodec, ContentCodec, ProofCodec, Keys, Measure}.
Variables (jclock : nat → Z) (ft : features) (hash_order : gmap bytes func_id → list (bytes * func_id)) (panic_reason : bytes).
Variables (prim_addr : bytes → Z) (ld_library_path : option bytes) (austral : bytes → list bytes → option bytes → stm X bytes (bytes * bytes)).
Variables (env : environment) (seed_draw token_draw : bytes) (now : Z).
Local Abbreviation state := (boot_state (J:=J) (T:=T) (X:=X)).

Lemma bind_exit_ok {A B} (m : stm state exit A) (k : A → stm state exit B) s s2 b :
  (m ≫= k) s = (s2, Ok b) → ∃ s1 a, m s = (s1, Ok a) ∧ k a s1 = (s2, Ok b).
Proof. unfold mbind, stm_bind. destruct (m s) as [s1 [a|e|]]; [|done..]. eauto. Qed.
Lemma orelse_ok {A} what (m : stm state bytes A) s s' a : orelse what m s = (s', Ok a) → m s = (s', Ok a).
Proof. unfold orelse. destruct (m s) as [s1 [?|?|]]; congruence. Qed.
Lemma orelse_files {A} what (m : stm X bytes A) (s s' : state) a :
  orelse what (on_files m) s = (s', Ok a) → keeps s s' ∧ ∃ x x', m x = (x', Ok a).
Proof. intros E%orelse_ok. apply (on_files_keeps id). unfold map_err. by rewrite E. Qed.

Lemma ensure_secret_length path draw (x x' : X) k : Zlen draw = 32 → ensure_secret path draw x = (x', Ok k) → Zlen k = 32.
Proof.
  unfold ensure_secret, mbind, stm_bind. intros Hd. destruct (st_exists path x) as [x0 []].
  - destruct (read_text path x0) as [x1 [t|e|]]; [|done..]. unfold stm_lift, parse_hex32. destruct (hex_decode _) as [b|]; [|done].
    cbn. destruct (Zlen b =? 32) eqn:E; [|done]. intros [= _ <-]. by apply Z.eqb_eq.
  - destruct (st_write_atomic _ _ x0) as [x1 [[]|e|]]; [|done..]. by intros [= _ <-].
Qed.
Lemma ensure_token_length path draw (x x' : X) t :
  32 ≤ Zlen (random_token (str "refi_admin_") draw) → ensure_admin_token path draw x = (x', Ok t) → 32 ≤ Zlen t.
Proof.
  unfold ensure_admin_token, mbind, stm_bind. intros Hd. destruct (st_exists path x) as [x0 []].
  - destruct (read_text path x0) as [x1 [b|e|]]; [|done..]. destruct (Z.ltb_spec (Zlen (trim b)) 32); [done|]. by intros [= _ <-].
  - destruct (st_write_atomic _ _ x0) as [x1 [[]|e|]]; [|done..]. by intros [= _ <-].
Qed.

Lemma stm_files_ok {E A B} (m : stm X E A) (k : A → stm X E B) x x2 b :
  (m ≫= k) x = (x2, Ok b) → ∃ x1 a, m x = (x1, Ok a) ∧ k a x1 = (x2, Ok b).
Proof. unfold mbind, stm_bind. destruct (m x) as [x1 [a|e|]]; [|done..]. eauto. Qed.
Lemma service_new_admin config token (x x' : X) accounts content ledger :
  service_new config token now x = (x', Ok (accounts, content, ledger)) → existsb account_is_admin accounts = true.
Proof.
  unfold service_new. intros (x1 & l & _ & E)%stm_files_ok. apply stm_files_ok in E as (x2 & c & _ & E).
  apply stm_files_ok in E as (x3 & c' & _ & E). apply stm_files_ok in E as (x4 & l' & El & E).
  apply stm_files_ok in E as (x5 & g & _ & E). injection E as <- <- <- <-.
  destruct (existsb account_is_admin l) eqn:Ea; cbn in El; [injection El as _ <-; done|].
  apply stm_files_ok in El as (x6 & [] & _ & El). injection El as _ <-. rewrite existsb_app. cbn. by rewrite orb_true_r.
Qed.

(** C16. What listens is what was configured and granted. When the process of a
    fresh bridge reaches its listener, the options were read without a mistake
    and [--check] was not one of them; engine and service run the configuration
    those options give, with a signing secret of 32 bytes and an admin token of
    at least 32; some account is an administrator; and the policy kernel is the
    program its file encodes, every gated call of which the manifest grants. *)
Theorem main_gated args (s s' : state) config cfg f token accounts content ledger :
  (∀ p x x' b, st_read p x = (x', Ok (Some b)) → buffer b) →
  t_auth (b_thread s) = Auth.auth_init → Zlen seed_draw = 32 → 32 ≤ Zlen (random_token (str "refi_admin_") token_draw) →
  main jclock ft hash_order panic_reason prim_addr ld_library_path austral env seed_draw token_draw now args s
    = (s', Ok (Listening config cfg f token accounts content ledger)) →
  (∃ c, parse_args (defaults env) args = Ok c ∧ o_check c = false ∧ config = service_config c ∧ cfg = engine_config c (cfg_treasury_seed cfg)) ∧
  Zlen (cfg_treasury_seed cfg) = 32 ∧ 32 ≤ Zlen token ∧ existsb account_is_admin accounts = true ∧
  confined prim_addr cfg s' f.
Proof.
  intros Hb Hi Hs Ht E. unfold main in E. apply bind_exit_ok in E as (s0 & c & Ep & E).
  unfold stm_lift in Ep. destruct (parse_args _ _) as [c0|e|] eqn:Epa; [|done..]. injection Ep as <- ->.
  apply bind_exit_ok in E as (s1 & [] & [[Hk1 _] _]%orelse_files & E).
  apply bind_exit_ok in E as (s2 & seed & ([Hk2 _] & x2 & x2' & E2)%orelse_files & E).
  apply bind_exit_ok in E as (s3 & tok & ([Hk3 _] & x3 & x3' & E3)%orelse_files & E).
  apply bind_exit_ok in E as (s4 & q & E4%orelse_ok & E). unfold engine_start in E4.
  destruct (boot _ _ _ _ _ _ _ _ s3) as [sb [q0|e|]] eqn:Eboot; [|done..]. injection E4 as <- ->.
  apply boot_gated in Eboot; [|done|congruence].
  destruct (o_check c) eqn:Ec.
  { apply bind_exit_ok in E as (s5 & st & _ & E). done. }
  apply bind_exit_ok in E as (s5 & [[a ct] l] & (Hk5 & x5 & x5' & E5)%orelse_files & E). injection E as <- <- <- <- <- <- <- <-.
  split; [by exists c|]. split; [by eapply ensure_secret_length|]. split; [by eapply ensure_token_length|].
  split; [by eapply service_new_admin|]. by eapply confined_keeps.
Qed.
End gated.
End RefiMain.

(** * The exchange's process on concrete inputs

    A command line with every kind of option, the start-up of the exchange on a
    file system that holds a manifest and a kernel, and the signing secret on a
    fresh disk. *)

Import Toml Clif Cps CpsLang CpsDemo Jit JitDemo HostDemo RefiUtil RefiJson RefiFile RefiEngine RefiPolicy RefiDurable RefiRead RefiBoot RefiAccounts RefiContent RefiProofs RefiService RefiDemo RefiMain.

Module RefiMainDemo.

(** ** Options *)
Definition demo_env : environment :=
  {| v_refi_listen := None; v_state_dir := Some (str "/s"); v_base_url := None; v_mm0web := Some (str " http://mm0 "); v_austral := None;
     manifest_dir := str "/src/refi" |}.
Definition demo_args : list bytes :=
  str <$> ["--manifest"; "/m.toml"; "--cps"; "/k.cps"; ""; "--max-wire"; "1000"; "--base-url"; "https://x"; "--mm0web"; " "; "--open-registration"]%string.
Example demo_options : ∃ c, parse_args (defaults demo_env) demo_args = Ok c ∧ o_max_wire c = 1000 ∧ o_mm0web c = None ∧ o_open_registration c = true ∧
  o_state_dir c = str "/s" ∧ cf_secure_cookies (service_config c) = true.
Proof. eexists. split; [vm_compute; reflexivity|]. by vm_compute. Qed.

(** A flag takes the next argument as its value, whatever it is. *)
Example flag_as_value : ∃ c, parse_args (defaults demo_env) [str "--base-url"; str "--check"] = Ok c ∧ o_base_url c = str "--check" ∧ o_check c = false.
Proof. eexists. split; [vm_compute; reflexivity|]. by vm_compute. Qed.
(** The session cookie of an origin written in capitals is not marked secure. *)
Example capitals_insecure : ∃ c, parse_args (defaults demo_env) [str "--base-url"; str "HTTPS://x"] = Ok c ∧ cf_secure_cookies (service_config c) = false.
Proof. eexists. split; [vm_compute; reflexivity|]. by vm_compute. Qed.
(** Asking for help is an error. *)
Example help_fails c : parse_args c [str "--help"] = Err (Exit 2 []).
Proof. by vm_compute. Qed.

(** ** The signing secret *)
#[local] Instance demo_hex_laws : HexLaws.
Proof.
  split.
  - intros b. induction b as [|c b IH]; [done|]. change (hex_decode (hex_encode (c :: b))) with (hex_bytes (hex_digit (b2z c / 16) :: hex_digit (b2z c mod 16) :: hex_encode b)).
    change (hex_bytes (hex_encode b) = Some b) in IH. cbn [hex_bytes]. rewrite IH. by destruct c.
  - intros b. induction b as [|c b IH]; [constructor|]. change (Forall hex_char (hex_digit (b2z c / 16) :: hex_digit (b2z c mod 16) :: hex_encode b)).
    constructor; [destruct c; vm_compute; exact I|]. constructor; [destruct c; vm_compute; exact I|done].
Qed.
Definition new_disk : disk := {| d_dir := ∅; d_past := []; d_data := ∅; d_next := 1 |}.
Definition key_path : bytes := str "/s/treasury.key".
Definition demo_draw : bytes := replicate 32 (z2b 171).
Lemma new_disk_settled : settled key_path (tmp_path key_path) secret_file new_disk.
Proof. split; cbn; [|done]. intros c Hc. apply list_elem_of_singleton in Hc as ->. by left. Qed.
Example secret_durable_witness :
  Zlen demo_draw = 32 ∧ settled key_path (tmp_path key_path) secret_file new_disk ∧
  ∃ s', ensure_secret key_path demo_draw (Fsys new_disk [] 0) = (s', Ok demo_draw) ∧ d_past (fs_now s') = [] ∧
    ∀ o, after_crash (fs_now s') key_path o → keeps_secret demo_draw o.
Proof.
  split; [reflexivity|]. split; [exact new_disk_settled|].
  destruct (ensure_secret key_path demo_draw (Fsys new_disk [] 0)) as [s' r] eqn:E. exists s'.
  assert (r = Ok demo_draw) as -> by (change r with ((s', r).2); rewrite <-E; vm_compute; reflexivity).
  assert (d_past (fs_now s') = []) as Hp by (change s' with ((s', Ok (E:=bytes) demo_draw).1); rewrite <-E; vm_compute; reflexivity).
  split; [reflexivity|]. split; [exact Hp|].
  destruct (secret_durable key_path demo_draw secret_file (Fsys new_disk [] 0) s' _ eq_refl (λ o H, H) new_disk_settled (Forall_nil_2 _) E)
    as (_ & _ & Hc & _).
  exact (Hc Hp).
Defined.

(** A disk that holds a secret, and a file system whose first call fails: the
    start replaces the secret and reports success. *)
Definition kept_draw : bytes := replicate 32 (z2b 1).
Definition kept_disk : disk := fs_now (ensure_secret key_path kept_draw (Fsys new_disk [] 0)).1.
Definition first_fails : Faults := {| fault n := if bool_decide (n = 0%nat) then Some (str "Permission denied (os error 13)") else None; written n := n |}.
Example stat_failure_replaces_secret :
  contents kept_disk key_path = Some (hex_encode kept_draw) ∧
  let '(s', r) := ensure_secret (H:=fsys_storage (H:=first_fails)) key_path demo_draw (Fsys kept_disk [] 0) in
  r = Ok demo_draw ∧ contents (fs_now s') key_path = Some (hex_encode demo_draw).
Proof. split; [by vm_compute|]. by vm_compute. Qed.

(** ** Start-up *)
#[local] Instance demo_accounts : AccountCodec := {| encode_accounts _ := Some []; decode_accounts _ := None |}.
#[local] Instance demo_contents : ContentCodec := {| encode_content _ := Some []; decode_content _ := None |}.
#[local] Instance demo_keys : Keys := λ seed, str "did:" ++ seed.
#[local] Instance demo_measure : Measure := {| bundle_for _ := Err (str "unmeasured"); attestation_binding a b := a ++ b |}.
Abbreviation demo_main := (main (J:=engine) (T:=toy) (X:=gmap bytes bytes) demo_clock demo_features demo_order (str "boom") demo_addr None no_austral
  demo_env demo_draw demo_draw 0 demo_args).
Definition listening (o : outcome) : bool := match o with Listening _ _ _ _ _ _ _ => true | _ => false end.
Example main_gated_witness :
  t_auth (b_thread boot_start) = Auth.auth_init ∧
  ∃ s' config cfg f token accounts content ledger, demo_main boot_start = (s', Ok (Listening config cfg f token accounts content ledger)) ∧
    f ≠ 0 ∧ 32 ≤ Zlen token.
Proof.
  split; [reflexivity|].
  assert (match (demo_main boot_start).2 with Ok o => listening o | _ => false end = true) as Hok by (vm_compute; reflexivity).
  destruct (demo_main boot_start) as [s' [[|config cfg f token accounts content ledger]|e|]] eqn:E; [discriminate Hok| |discriminate Hok..].
  assert (32 ≤ Zlen (random_token (str "refi_admin_") demo_draw)) as Ht by (vm_compute; discriminate).
  assert (Zlen demo_draw = 32) as Hl by (vm_compute; reflexivity).
  pose proof (main_gated demo_clock demo_features demo_order (str "boom") demo_addr None no_austral demo_env demo_draw demo_draw 0 demo_args
    boot_start s' config cfg f token accounts content ledger demo_reads_bounded eq_refl Hl Ht E) as H.
  destruct H as (_ & _ & Htok & _ & Hf & _).
  exists s', config, cfg, f, token, accounts, content, ledger. split; [reflexivity|]. split; [exact Hf|exact Htok].
Defined.
End RefiMainDemo.
