(* ===== verification/Ecma.v ===== *)
(** * The kernel loopback of a sidecar ([cranelift/src/ecma.rs])

    A sidecar reaches the kernel through a Unix socket only. Each call is an
    event that runs down a chain of policy listeners (audit, grants, latch,
    meter, posture, deadline) to the dispatch onto the kernel's C functions. This
    file models the socket's connections, the chain, the marshalling of every
    symbol, and the configuration the sidecar is started with. *)

From S2P Require Import Prelude Text RefiUtil RefiJson Jit ModuleHost.
Import RefiUtil RefiJson.

Module Ecma.

(** ** The kernel's C functions

    An argument is an integer, or bytes with their length. The functions read
    the caller and the observability context of their thread. A buffer function
    gets the capacity of its buffer, or none for a probe with a null pointer; it
    answers a number and the bytes it writes. *)
Inductive ffi_arg := AInt (n : Z) | ABytes (b : bytes).
Record thread_ctx := Ctx { th_caller : option bytes; th_obs : option bytes }.
Definition no_ctx : thread_ctx := Ctx None None.

(** [unfer_protocol] *)
Inductive EffectKind := Observe | Mutate.
#[export] Instance effect_kind_eq_dec : EqDecision EffectKind.
Proof. solve_decision. Defined.
Record GrantSet := {
  gs_kernel : list bytes; gs_effects : list bytes; gs_observers : list bytes; gs_resources : list bytes;
  gs_effect_kinds : list (bytes * EffectKind)
}.
Definition no_grants : GrantSet := {| gs_kernel := []; gs_effects := []; gs_observers := []; gs_resources := []; gs_effect_kinds := [] |}.

(** What a TCP connection gives: no connection, a failed send, or the chunks
    received, ended by the peer or by an error. *)
Inductive tcp_result := NoResolve (e : option bytes) | NoConnect (e : bytes) | NoSend (e : bytes) | Received (chunks : list bytes) (fail : option bytes).

Class Unfer (K : Type) := {
  uk_call : thread_ctx → bytes → list ffi_arg → K → K * Z;
  uk_read : thread_ctx → bytes → list ffi_arg → option Z → K → K * (Z * bytes);
  uk_value : thread_ctx → bytes → list ffi_arg → K → K * json;
  uk_audit_append : thread_ctx → bytes → K → K;
  uk_is_sensitive_latched : bytes → K → bool;
  uk_meter_consume : bytes → Z → Z → K → K * Z;
  posture_is_strict : K → bool;
  uk_agent_id : Z → K → option bytes;
  tcp_get : bytes → bytes → K → K * tcp_result;
  timeout_ms : bytes → option Z;
  effect_kind : bytes → option EffectKind;
  grants_json : GrantSet → json;
  parse_grants : bytes → option GrantSet;
  (* the text of errors of other crates *)
  utf8_error : bytes → bytes;
  hex_error : bytes → bytes
}.

(** What the loopback did, in order. *)
Inductive event :=
| Called (th : thread_ctx) (name : bytes) (args : list ffi_arg)
| Fetched (host : bytes)
| Metered (principal : bytes)
| Audited (th : thread_ctx) (entry : json).

(** ** Grants on hosts *)
Definition split_host_port (hostport : bytes) : bytes * option Z :=
  match rsplit_once (z2b 58) hostport with
  | Some (host, port) =>
      if negb (bool_decide (port = [])) && forallb is_ascii_digit port then
        match parse_uint (2 ^ 16) port with Some p => (host, Some p) | None => (hostport, None) end
      else (hostport, None)
  | None => (hostport, None)
  end.
Definition entry_allows (host entry : bytes) : bool :=
  let '(req_host, req_port) := split_host_port host in
  let '(grant_host, grant_port) := split_host_port entry in
  if bool_decide (grant_host ≠ req_host) then false
  else match grant_port, req_port with Some gp, Some rp => gp =? rp | _, _ => true end.
Definition egress_allowed (host : bytes) (allowlist : list bytes) : bool :=
  if bool_decide (host = []) then false else existsb (entry_allows host) allowlist.

(** The part before the first of [/?#]. *)
Fixpoint authority_of (s : bytes) : bytes :=
  match s with
  | [] => []
  | c :: s => if bool_decide (c ∈ str "/?#") then [] else c :: authority_of s
  end.
Definition fetch_host (url : bytes) : bytes := authority_of (default [] (snd <$> split_once (str "://") url)).
Definition is_loopback_host (host : bytes) : bool :=
  bool_decide ((split_host_port host).1 ∈ str <$> ["127.0.0.1"; "localhost"; "::1"]%string).

(** ** Policy tables *)
Definition METERED_SYMBOLS : list bytes := str <$> [
  "uk_evolve"; "uk_condition"; "uk_event_probability"; "uk_bayesian_update"; "uk_belief_propagation"; "uk_ode_analyze"]%string.
Definition LOOPBACK_BUDGET : Z := 1000.
Definition LOOPBACK_RATE_LIMIT : Z := 0.
Definition SENSITIVE_BLOCKED_SYMBOLS : list bytes := str <$> [
  "uk_fetch"; "uk_agent_spawn"; "uk_blueprint_export"; "uk_action_submit"; "uk_gate_approve"; "uk_cert_set_authority"; "uk_cert_mint";
  "uk_cert_transfer"; "uk_cert_burn"; "uk_auction_open"; "uk_auction_bid"; "uk_auction_close"]%string.
Definition BUF_RETRIES : nat := 4.
Definition MAX_REPLY : Z := 1024 * 1024.

(** ** How each symbol is marshalled

    The parameters in order, and what becomes of the result: an integer that is
    an error when negative, a value as it is, a buffer as text, as text parsed
    as JSON where it parses, or as hexadecimal digits; five symbols have code of
    their own. *)
Inductive param := PInt | PStr.
Inductive shape :=
| ShInt (ps : list param) | ShValue (ps : list param) | ShText (ps : list param) | ShParsed (ps : list param) | ShRaw (ps : list param)
| ShExport | ShInstantiate | ShSubmit | ShFetch | ShClose.

Definition model_arms : list (String.string * shape) := [
  ("uk_version", ShValue []); ("uk_init", ShInt [PStr]); ("uk_model_create", ShInt [PStr]); ("uk_model_free", ShInt [PInt]);
  ("uk_set_prior", ShInt [PInt; PStr]); ("uk_set_hamiltonian", ShInt [PInt; PStr]); ("uk_evolve", ShInt [PInt; PStr]);
  ("uk_condition", ShInt [PInt; PStr]); ("uk_event_probability", ShInt [PInt; PStr]); ("uk_observe", ShInt [PInt; PStr]);
  ("uk_get_result", ShParsed [PInt]); ("uk_last_error", ShParsed []); ("uk_snapshot", ShParsed [PInt]); ("uk_restore", ShInt [PStr]);
  ("uk_blueprint_export", ShExport); ("uk_blueprint_instantiate", ShInstantiate)]%string.
Definition analysis_arms : list (String.string * shape) := [
  ("uk_subscribe", ShInt [PInt; PStr]); ("uk_poll", ShParsed [PInt]); ("uk_bayesian_update", ShInt [PInt; PStr]);
  ("uk_belief_propagation", ShInt [PInt; PStr]); ("uk_buf_free", ShInt [PInt]); ("uk_ode_analyze", ShInt [PStr]);
  ("uk_ode_measure_original", ShValue [PInt; PStr])]%string.
Definition action_arms : list (String.string * shape) := [
  ("uk_action_submit", ShSubmit); ("uk_action_apply", ShInt [PInt]); ("uk_action_reject", ShInt [PInt]); ("uk_action_revert", ShInt [PInt]);
  ("uk_action_get", ShParsed [PInt]); ("uk_action_list", ShParsed []); ("uk_gate_list_pending", ShParsed []); ("uk_gate_approve", ShInt [PInt]);
  ("uk_gate_reject", ShInt [PInt]); ("uk_session_fork", ShInt [PInt; PInt]); ("uk_session_compact", ShInt [PInt; PInt]);
  ("uk_skill_list", ShParsed [PStr]); ("uk_skill_get", ShParsed [PStr]); ("uk_skill_register", ShInt [PStr]); ("uk_skill_pack_import", ShInt [PStr]);
  ("uk_registry_vetted", ShInt [PStr; PInt]); ("uk_posture_get", ShParsed []); ("uk_posture_set", ShInt [PStr])]%string.
Definition agent_arms : list (String.string * shape) := [
  ("uk_audit_list", ShParsed []); ("uk_audit_clear", ShInt []); ("uk_agent_spawn", ShInt [PStr]); ("uk_agent_list", ShParsed []);
  ("uk_agent_kill", ShInt [PInt]); ("uk_agent_grants", ShParsed [PInt]); ("uk_fetch", ShFetch)]%string.
Definition resource_arms : list (String.string * shape) := [
  ("uk_resource_introduce", ShInt [PStr]); ("uk_resource_forfeit", ShInt [PStr]); ("uk_resource_use", ShInt [PStr]);
  ("uk_request_resource", ShInt [PStr]); ("uk_resource_pending", ShParsed []); ("uk_secret_put", ShInt [PStr; PStr]);
  ("uk_secret_get", ShText [PInt; PStr]); ("uk_secret_revoke", ShInt [PInt])]%string.
Definition market_arms : list (String.string * shape) := [
  ("uk_cert_set_authority", ShInt [PStr]); ("uk_cert_root", ShRaw []); ("uk_cert_status", ShText []); ("uk_cert_mint", ShInt [PStr]);
  ("uk_cert_transfer", ShInt [PStr]); ("uk_cert_burn", ShInt [PStr]); ("uk_auction_open", ShInt [PStr]); ("uk_auction_bid", ShInt [PStr]);
  ("uk_auction_close", ShClose); ("uk_auction_report", ShText [PStr])]%string.
Definition arms : list (String.string * shape) := model_arms ++ analysis_arms ++ action_arms ++ agent_arms ++ resource_arms ++ market_arms.
Definition arm (symbol : bytes) : option shape := snd <$> head (filter (λ a, str a.1 = symbol) arms).

Section loopback.
Context {K : Type} `{Unfer K, JsonCodec, HexText}.
(** Whether the [n]-th deadline of so many milliseconds passes before its
    worker answers. *)
Variable late : nat → Z → bool.

Record world := World { w_kernel : K; w_thread : thread_ctx; w_seq : Z; w_waits : nat; w_log : list event }.
Abbreviation dm := (stm world (Z * bytes)).
Abbreviation lm := (stm world Empty_set).

Definition log (e : event) (w : world) : world := World (w_kernel w) (w_thread w) (w_seq w) (w_waits w) (w_log w ++ [e]).
Definition put_kernel (k : K) (w : world) : world := World k (w_thread w) (w_seq w) (w_waits w) (w_log w).
Definition put_thread (t : thread_ctx) (w : world) : world := World (w_kernel w) t (w_seq w) (w_waits w) (w_log w).

(** ** Calling the kernel *)
Definition call_int (name : bytes) (args : list ffi_arg) : dm Z := λ w,
  let '(k, r) := uk_call (w_thread w) name args (w_kernel w) in (log (Called (w_thread w) name args) (put_kernel k w), Ok r).
Definition call_buf (name : bytes) (args : list ffi_arg) (cap : option Z) : dm (Z * bytes) := λ w,
  let '(k, r) := uk_read (w_thread w) name args cap (w_kernel w) in (log (Called (w_thread w) name args) (put_kernel k w), Ok r).
Definition call_value (name : bytes) (args : list ffi_arg) : dm json := λ w,
  let '(k, r) := uk_value (w_thread w) name args (w_kernel w) in (log (Called (w_thread w) name args) (put_kernel k w), Ok r).

(** [(-n) as u32] *)
Definition neg_code (n : Z) : dm Z := if n =? - 2 ^ 63 then stm_lift Panic else mret ((- n) mod 2 ^ 32).
(** The zeroed buffer of [n] bytes after the function wrote to it. *)
Definition filled (n : Z) (written : bytes) : bytes := take (Z.to_nat n) (written ++ replicate (Z.to_nat n) Byte.x00).

Definition read_last_error : dm (option bytes) :=
  '(needed, _) ← call_buf (str "uk_last_error") [] None;
  if needed <=? 0 then mret None
  else '(_, written) ← call_buf (str "uk_last_error") [] (Some needed);
       let buf := filled needed written in
       mret (if utf8_valid buf then Some buf else None).

Definition ffi_result (ret : Z) : dm json :=
  if ret <? 0 then
    code ← neg_code ret;
    message ← read_last_error;
    stm_err (code, default (str "UK-" ++ dec code) message)
  else mret (JNum ret).

Definition buf_failed (n : Z) : dm json :=
  code ← neg_code n;
  message ← read_last_error;
  stm_err (code, default [] message).
Definition finish_text (buf : bytes) : dm json := if utf8_valid buf then mret (JStr buf) else stm_err (1001, utf8_error buf).
Definition finish_raw (buf : bytes) : dm json := mret (JStr (hex_encode buf)).
Fixpoint buf_loop (retries : nat) (finish : bytes → dm json) (name : bytes) (args : list ffi_arg) (needed : Z) : dm json :=
  match retries with
  | O => stm_err (1002, str "kernel store kept changing size during read")
  | S retries =>
      '(n, written) ← call_buf name args (Some needed);
      if n <? 0 then buf_failed n
      else if n =? needed then finish (filled needed written)
      else buf_loop retries finish name args n
  end.
Definition buf_read (finish : bytes → dm json) (name : bytes) (args : list ffi_arg) : dm json :=
  '(needed, _) ← call_buf name args None;
  if needed <? 0 then buf_failed needed
  else if needed =? 0 then mret (JStr [])
  else buf_loop BUF_RETRIES finish name args needed.
Definition buf_out : bytes → list ffi_arg → dm json := buf_read finish_text.
Definition buf_out_raw : bytes → list ffi_arg → dm json := buf_read finish_raw.

(** ** Arguments *)
Definition as_i64 (v : json) : option Z := match v with JNum n => if (- 2 ^ 63 <=? n) && (n <? 2 ^ 63) then Some n else None | _ => None end.
Definition arg_i64 (args : list json) (i : nat) : dm Z :=
  match args !! i ≫= as_i64 with
  | Some n => mret n
  | None => stm_err (1001, str "arg " ++ dec (Z.of_nat i) ++ str ": expected integer")
  end.
Definition arg_str (args : list json) (i : nat) : dm bytes :=
  match args !! i with
  | None => stm_err (1001, str "arg " ++ dec (Z.of_nat i) ++ str ": missing")
  | Some (JStr s) => mret s
  | Some v => mret (json_to_vec v)
  end.
Fixpoint marshal (args : list json) (i : nat) (ps : list param) : dm (list ffi_arg) :=
  match ps with
  | [] => mret []
  | PInt :: ps => n ← arg_i64 args i; rest ← marshal args (S i) ps; mret (AInt n :: rest)
  | PStr :: ps => s ← arg_str args i; rest ← marshal args (S i) ps; mret (ABytes s :: rest)
  end.

(** [args.first().and_then(|a| a.get(key)).and_then(as_str).unwrap_or("")] *)
Definition first_field (args : list json) (key : String.string) : bytes := default [] (a ← head args; as_str (at_key a key)).

(** ** Fetching from a loopback fixture *)
Fixpoint recv (chunks : list bytes) (fail : option bytes) (acc : bytes) : res bytes bytes :=
  match chunks with
  | [] => match fail with Some e => Err (str "read: " ++ e) | None => Ok acc end
  | c :: chunks => let acc := acc ++ c in if MAX_REPLY <? Zlen acc then Ok acc else recv chunks fail acc
  end.
Definition reply_body (response : bytes) : res bytes bytes :=
  if bool_decide (response = []) then Err (str "empty response")
  else Ok (from_utf8_lossy (match split_once (CRLF ++ CRLF) response with Some (_, body) => body | None => response end)).
Definition loopback_get (host : bytes) : world → world * res bytes bytes := λ w,
  if negb (is_loopback_host host) then (w, Err (str "fetch egress restricted to loopback fixture (host '" ++ host ++ str "')"))
  else
    let '(h, port) := split_host_port host in
    let request := str "GET / HTTP/1.1" ++ CRLF ++ str "Host: " ++ h ++ CRLF ++ str "Connection: close" ++ CRLF ++ CRLF in
    let '(k, r) := tcp_get (h ++ str ":" ++ dec (default 80 port)) request (w_kernel w) in
    (log (Fetched host) (put_kernel k w),
     match r with
     | NoResolve (Some e) => Err (str "resolve " ++ host ++ str ": " ++ e)
     | NoResolve None => Err (str "resolve " ++ host ++ str ": empty address set")
     | NoConnect e => Err (str "connect " ++ host ++ str ": " ++ e)
     | NoSend e => Err (str "send: " ++ e)
     | Received chunks fail => response ← recv chunks fail []; reply_body response
     end).

(** ** Dispatch of one symbol *)
Definition parsed (out : json) : json := default out (json_from_slice (default [] (as_str out))).
(** The request with its principal set to the caller. *)
Definition stamp (actor : bytes) (req : json) : json :=
  match req with JObj fields => JObj (set_field (str "principal") (JStr actor) fields) | v => v end.
Definition submit (actor : bytes) (args : list json) : dm json :=
  match head args with
  | None => stm_err (1001, str "uk_action_submit: missing request arg")
  | Some req =>
      ret ← call_int (str "uk_action_submit") [ABytes (json_to_vec (stamp actor req))];
      ffi_result ret
  end.
Definition fetch (args : list json) : dm json := λ w,
  let host := fetch_host (first_field args "url") in
  if bool_decide (host = []) then (w, Err (1001, str "uk_fetch: missing url"))
  else match loopback_get host w with
       | (w, Ok body) => (w, Ok (obj [("host", JStr host); ("ok", JBool true); ("body", JStr body)]%string))
       | (w, Err e) => (w, Err (4004, str "uk_fetch " ++ host ++ str ": " ++ e))
       | (w, Panic) => (w, Panic)
       end.
Definition close_auction (args : list json) : dm json :=
  s ← arg_str args 0;
  '(n, written) ← call_buf (str "uk_auction_close") [ABytes s] (Some 4096);
  if n <? 0 then buf_failed n else finish_text (take (Z.to_nat n) (filled 4096 written)).
Definition instantiate (args : list json) : dm json :=
  hexed ← arg_str args 0;
  match hex_decode (trim hexed) with
  | None => stm_err (1001, str "blueprint hex decode: " ++ hex_error (trim hexed))
  | Some b => ret ← call_int (str "uk_blueprint_instantiate") [ABytes b]; ffi_result ret
  end.
Definition run_arm (actor symbol : bytes) (args : list json) (s : shape) : dm json :=
  match s with
  | ShInt ps => l ← marshal args 0 ps; ret ← call_int symbol l; ffi_result ret
  | ShValue ps => l ← marshal args 0 ps; call_value symbol l
  | ShText ps => l ← marshal args 0 ps; buf_out symbol l
  | ShParsed ps => l ← marshal args 0 ps; out ← buf_out symbol l; mret (parsed out)
  | ShRaw ps => l ← marshal args 0 ps; buf_out_raw symbol l
  | ShExport => l ← marshal args 0 [PInt]; out ← buf_out_raw symbol l; mret (obj [("cell_hex", JStr (default [] (as_str out)))]%string)
  | ShInstantiate => instantiate args
  | ShSubmit => submit actor args
  | ShFetch => fetch args
  | ShClose => close_auction args
  end.
Definition kernel_dispatch (actor symbol : bytes) (args : list json) : dm json :=
  match arm symbol with
  | Some s => run_arm actor symbol args s
  | None => stm_err (4004, str "kernel symbol '" ++ symbol ++ str "' has no loopback marshaling")
  end.

(** ** Events and listeners *)
Inductive DispatchMode := Waterfall | Parallel | Serial.
Record SymbolEvent := {
  ev_mode : DispatchMode; ev_symbol : bytes; ev_args : list json; ev_principal : bytes; ev_grants : list bytes; ev_effects : list bytes;
  ev_net : list bytes; ev_fetch_url : bytes; ev_caller_json : bytes; ev_observability : bytes; ev_max_ms : option Z
}.
Inductive Flow := Next | Deny (v : json) | FOk (v : json) | FErr (code : Z) (message : bytes).
Record SymbolListener := { sl_name : String.string; on_symbol : SymbolEvent → lm Flow → lm Flow }.

Fixpoint waterfall (ls : list SymbolListener) (ev : SymbolEvent) : lm Flow :=
  match ls with [] => mret Next | l :: ls => on_symbol l ev (waterfall ls ev) end.
Definition flow_rank (f : Flow) : Z := match f with Deny _ => 3 | FErr _ _ => 2 | FOk _ => 1 | Next => 0 end.
Fixpoint parallel (ls : list SymbolListener) (ev : SymbolEvent) (outcome : Flow) : lm Flow :=
  match ls with
  | [] => mret outcome
  | l :: ls => flow ← on_symbol l ev (mret Next); parallel ls ev (if flow_rank outcome <? flow_rank flow then flow else outcome)
  end.
Fixpoint serial (ls : list SymbolListener) (ev : SymbolEvent) (outcome : Flow) : lm Flow :=
  match ls with
  | [] => mret outcome
  | l :: ls => flow ← on_symbol l ev (mret Next); serial ls ev (match flow with Next => outcome | f => f end)
  end.
Definition emit (ls : list SymbolListener) (ev : SymbolEvent) : lm Flow :=
  match ev_mode ev with Waterfall => waterfall ls ev | Parallel => parallel ls ev Next | Serial => serial ls ev Next end.

(** *** The gates *)
Definition grant_error (ev : SymbolEvent) : option bytes :=
  if bool_decide (ev_symbol ev = str "uk_action_submit") then
    let effect := first_field (ev_args ev) "effect" in
    if bool_decide (effect ∈ ev_effects ev) then None
    else Some (str "UK-4001: Authorization denied — '" ++ ev_principal ev ++ str "' is not granted effect '" ++ effect ++ str "'")
  else if bool_decide (ev_symbol ev = str "uk_fetch") then
    let host := fetch_host (ev_fetch_url ev) in
    if bool_decide (host = []) then Some (str "UK-4001: uk_fetch requires a url with an explicit scheme://host")
    else if egress_allowed host (ev_net ev) then None
    else Some (str "UK-4001: Egress denied — '" ++ ev_principal ev ++ str "' has no net grant for host '" ++ host ++ str "'")
  else if bool_decide (ev_symbol ev ∈ ev_grants ev) then None
  else Some (str "UK-4001: Authorization denied — '" ++ ev_principal ev ++ str "' is not granted '" ++ ev_symbol ev ++ str "'").
Definition denial (code : json) (name : String.string) (message : bytes) : json :=
  obj [("code", code); ("name", text name); ("message", JStr message)]%string.

Definition GrantGateListener : SymbolListener := {|
  sl_name := "grant";
  on_symbol ev next := match grant_error ev with Some m => mret (Deny (denial (JNum 4001) "CallDenied" m)) | None => next end |}.

Definition latched (ev : SymbolEvent) (w : world) : bool :=
  bool_decide (ev_symbol ev ∈ SENSITIVE_BLOCKED_SYMBOLS) && uk_is_sensitive_latched (ev_principal ev) (w_kernel w).
Definition LatchListener : SymbolListener := {|
  sl_name := "latch";
  on_symbol ev next := λ w,
    if latched ev w then
      (w, Ok (Deny (denial (text "UK-4701") "SensitiveLatched" (str "UK-4701: '" ++ ev_principal ev ++ str "' is sensitive-latched and cannot " ++ ev_symbol ev))))
    else next w |}.

Definition consume (principal : bytes) : lm Z := λ w,
  let '(k, r) := uk_meter_consume principal LOOPBACK_BUDGET LOOPBACK_RATE_LIMIT (w_kernel w) in
  (log (Metered principal) (put_kernel k w), Ok r).
Definition MeterListener : SymbolListener := {|
  sl_name := "meter";
  on_symbol ev next :=
    if negb (bool_decide (ev_symbol ev ∈ METERED_SYMBOLS)) then next
    else r ← consume (ev_principal ev);
         if r =? 0 then next
         else if r =? 1 then mret (Deny (denial (text "UK-4601") "RateLimited" (str "'" ++ ev_principal ev ++ str "' exceeded its windowed call-rate limit")))
         else mret (Deny (denial (text "UK-4602") "BudgetExceeded" (str "'" ++ ev_principal ev ++ str "' exhausted its windowed budget"))) |}.

Definition ends_turn (symbol : bytes) : bool := bool_decide (symbol ∈ str <$> ["uk_session_close"; "uk_version"; "uk_action_submit"]%string).
Definition is_mutate (symbol : bytes) : bool := match effect_kind symbol with Some k => bool_decide (k = Mutate) | None => true end.
Definition paused (ev : SymbolEvent) (w : world) : bool := posture_is_strict (w_kernel w) && negb (ends_turn (ev_symbol ev)) && is_mutate (ev_symbol ev).
Definition PostureListener : SymbolListener := {|
  sl_name := "posture";
  on_symbol ev next := λ w,
    if paused ev w then
      (w, Ok (Deny (denial (text "UK-4501") "ConsoleOnly" (str "strict posture pauses '" ++ ev_symbol ev ++ str "' for approval (S21 lane); an operator must approve it"))))
    else next w |}.

(** *** Dispatch, with or without a deadline *)
Definition dispatch (ev : SymbolEvent) : lm Flow := λ w,
  match kernel_dispatch (ev_principal ev) (ev_symbol ev) (ev_args ev) w with
  | (w, Ok v) => (w, Ok (FOk v))
  | (w, Err (code, message)) => (w, Ok (FErr code message))
  | (w, Panic) => (w, Panic)
  end.
Definition DispatchListener : SymbolListener := {| sl_name := "dispatch"; on_symbol ev _ := dispatch ev |}.

Definition effective_deadline_ms (ev : SymbolEvent) : option Z := (λ declared, default declared (ev_max_ms ev)) <$> timeout_ms (ev_symbol ev).
Definition timed_out (ms : Z) : Flow :=
  Deny (denial (text "UK-4603") "ToolTimeout" (str "dispatch exceeded its " ++ dec ms ++ str "ms cooperative deadline")).
Definition put_waits (n : nat) (w : world) : world := World (w_kernel w) (w_thread w) (w_seq w) n (w_log w).
(** The worker runs on a thread of its own, to its end even when its answer
    comes too late; one that panics never answers. *)
Definition run_with_deadline (ms : Z) (work : lm Flow) : lm Flow := λ w,
  let n := w_waits w in
  let '(w', r) := work (put_thread no_ctx (put_waits (S n) w)) in
  (put_thread (w_thread w) w', if late n ms then Ok (timed_out ms) else match r with Ok f => Ok f | _ => Ok (timed_out ms) end).
Definition set_caller (c : bytes) : lm () := λ w, (put_thread (Ctx (Some c) (th_obs (w_thread w))) w, Ok ()).
Definition set_observability (o : bytes) : lm () := λ w, (put_thread (Ctx (th_caller (w_thread w)) (Some o)) w, Ok ()).
Definition clear_context : lm () := λ w, (put_thread no_ctx w, Ok ()).
Definition GuardListener : SymbolListener := {|
  sl_name := "guard";
  on_symbol ev next :=
    match effective_deadline_ms ev with
    | None => next
    | Some ms => run_with_deadline ms (
        _ ← set_caller (ev_caller_json ev);
        _ ← set_observability (ev_observability ev);
        flow ← dispatch ev;
        _ ← clear_context;
        mret flow)
    end |}.

(** *** The audit trail *)
Definition audit (entry : json) : lm () := λ w,
  (log (Audited (w_thread w) entry) (put_kernel (uk_audit_append (w_thread w) (json_to_vec entry) (w_kernel w)) w), Ok ()).
Definition audit_entry (symbol : bytes) (args : list json) (ok : bool) (detail : option bytes) : json :=
  obj ([("symbol", JStr symbol); ("args", JArr args); ("ok", JBool ok)]%string ++ match detail with Some d => [("detail"%string, JStr d)] | None => [] end).
Definition append_loopback_audit (symbol : bytes) (args : list json) (ok : bool) (detail : option bytes) : lm () :=
  audit (audit_entry symbol args ok detail).
Definition append_host_audit (symbol : bytes) (ok : bool) (detail : bytes) : lm () :=
  audit (obj [("symbol", JStr symbol); ("args", JArr []); ("ok", JBool ok); ("detail", JStr detail)]%string).
Definition outcome_audit (ev : SymbolEvent) (f : Flow) : lm () :=
  match f with
  | Next => mret ()
  | Deny v => append_loopback_audit (ev_symbol ev) (ev_args ev) false (Some (default [] (as_str (at_key v "message"))))
  | FOk _ => append_loopback_audit (ev_symbol ev) (ev_args ev) true
               (if bool_decide (ev_symbol ev = str "uk_fetch") then Some (str "action=allow host='" ++ fetch_host (ev_fetch_url ev) ++ str "'") else None)
  | FErr code message => append_loopback_audit (ev_symbol ev) (ev_args ev) false (Some (str "UK-" ++ dec code ++ str ": " ++ message))
  end.
Definition AuditListener : SymbolListener := {|
  sl_name := "audit";
  on_symbol ev next := flow ← next; _ ← outcome_audit ev flow; mret flow |}.

Definition LOOPBACK_WATERFALL : list SymbolListener :=
  [AuditListener; GrantGateListener; LatchListener; MeterListener; PostureListener; GuardListener; DispatchListener].
(** ** A call through the loopback *)
Definition json_response (key : String.string) (v : json) : bytes :=
  let body := json_to_vec (obj [(key, v)]) in
  str "HTTP/1.1 200 OK" ++ CRLF ++ str "Content-Type: application/json" ++ CRLF ++ str "Content-Length: " ++ dec (Zlen body) ++ CRLF ++
  str "Connection: close" ++ CRLF ++ CRLF ++ body.
Definition error_response (code : Z) (name : option String.string) (message : bytes) : bytes :=
  json_response "error" (obj ([("code", JNum code)]%string ++ match name with Some n => [("name"%string, text n)] | None => [] end ++ [("message"%string, JStr message)])).

Definition loopback_caller_json (from : String.string) (principal : bytes) (grants : GrantSet) : bytes :=
  json_to_vec (obj [("from", text from); ("principal", JStr principal); ("grants", grants_json grants)]%string).

(** A result that a failing or panicking read turns into nothing. *)
Definition ok_of {A} (m : dm A) : lm (option A) := λ w,
  match m w with (w, Ok a) => (w, Ok (Some a)) | (w, Err _) => (w, Ok None) | (w, Panic) => (w, Panic) end.
Definition agent_id (handle : Z) : lm (option bytes) := λ w, (w, Ok (uk_agent_id handle (w_kernel w))).
Definition ffi_agent_bounds (handle : Z) : lm (option (GrantSet * bytes)) :=
  out ← ok_of (buf_out (str "uk_agent_grants") [AInt handle]);
  match (v ← out; s ← as_str v; parse_grants s) with
  | None => mret None
  | Some grants => id ← agent_id handle; mret ((λ id, (grants, id)) <$> id)
  end.

(** The effective grants, the kind of caller, its name and its grant set. *)
Record Caller := { ca_grants : list bytes; ca_effects : list bytes; ca_from : String.string; ca_principal : bytes; ca_set : GrantSet }.
Definition gadget (module_name : bytes) (grants effects observers resources : list bytes) (effect_kinds : list (bytes * bytes)) : Caller :=
  {| ca_grants := grants; ca_effects := effects; ca_from := "gadget"; ca_principal := module_name;
     ca_set := {| gs_kernel := grants; gs_effects := effects; gs_observers := observers; gs_resources := resources;
                  gs_effect_kinds := (λ '(n, k), (n, if bool_decide (k = str "observe") then Observe else Mutate)) <$> effect_kinds |} |}.
Definition agent (bounds : GrantSet) (id : bytes) : Caller :=
  {| ca_grants := gs_kernel bounds; ca_effects := gs_effects bounds; ca_from := "agent"; ca_principal := id; ca_set := bounds |}.

Definition unknown_agent (handle : Z) (symbol : bytes) (args : list json) : lm bytes :=
  let message := str "agent handle " ++ ModuleHost.dec_i64 handle ++ str " is unknown or stopped" in
  _ ← set_caller (loopback_caller_json "agent" (str "agent-" ++ ModuleHost.dec_i64 handle) no_grants);
  _ ← append_loopback_audit symbol args false (Some message);
  _ ← clear_context;
  mret (error_response 4001 (Some "CallDenied"%string) message).

(** [{:x}] of a 64-bit number. *)
Fixpoint drop_zeros (s : bytes) : bytes :=
  match s with b :: ((_ :: _) as rest) => if bool_decide (b = Byte.x30) then drop_zeros rest else s | _ => s end.
Definition lower_hex (n : Z) : bytes := drop_zeros (hex_fixed 16 n).
Definition next_trace : lm Z := λ w,
  (World (w_kernel w) (w_thread w) ((w_seq w + 1) mod 2 ^ 64) (w_waits w) (w_log w), Ok (w_seq w)).

Definition event_of (c : Caller) (net : list bytes) (max_ms : option Z) (symbol : bytes) (args : list json) (trace : Z) : SymbolEvent :=
  {| ev_mode := Waterfall; ev_symbol := symbol; ev_args := args; ev_principal := ca_principal c; ev_grants := ca_grants c; ev_effects := ca_effects c;
     ev_net := net; ev_fetch_url := if bool_decide (symbol = str "uk_fetch") then first_field args "url" else [];
     ev_caller_json := loopback_caller_json (ca_from c) (ca_principal c) (ca_set c);
     ev_observability := json_to_vec (obj [("trace_id", JStr (ca_principal c ++ str "-" ++ lower_hex trace)); ("component", text "kernel.audit")]%string);
     ev_max_ms := max_ms |}.
Definition flow_response (f : Flow) : bytes :=
  match f with
  | Next => error_response 4001 (Some "CallDenied"%string) (str "no listener owned the decision")
  | Deny v => json_response "error" v
  | FOk v => json_response "result" v
  | FErr code message => error_response code (Some "KernelError"%string) message
  end.
Definition run_event (c : Caller) (net : list bytes) (max_ms : option Z) (symbol : bytes) (args : list json) : lm bytes :=
  _ ← set_caller (loopback_caller_json (ca_from c) (ca_principal c) (ca_set c));
  trace ← next_trace;
  let ev := event_of c net max_ms symbol args trace in
  _ ← set_observability (ev_observability ev);
  flow ← emit LOOPBACK_WATERFALL ev;
  _ ← clear_context;
  mret (flow_response flow).

Definition dispatch_loopback_as_with_max_ms (agent_handle : option Z) (module_name : bytes)
    (grants effects observers resources : list bytes) (effect_kinds : list (bytes * bytes)) (net : list bytes) (max_ms : option Z)
    (symbol body : bytes) : lm bytes :=
  match json_from_slice body ≫= as_array with
  | None => mret (error_response 4000 None (str "args must be a JSON array"))
  | Some args =>
      match agent_handle with
      | Some handle =>
          b ← ffi_agent_bounds handle;
          match b with
          | Some (bounds, id) => run_event (agent bounds id) net max_ms symbol args
          | None => unknown_agent handle symbol args
          end
      | None => run_event (gadget module_name grants effects observers resources effect_kinds) net max_ms symbol args
      end
  end.
Definition dispatch_loopback_as (agent_handle : option Z) (module_name : bytes) (grants effects observers resources : list bytes)
    (effect_kinds : list (bytes * bytes)) (net : list bytes) (symbol body : bytes) : lm bytes :=
  dispatch_loopback_as_with_max_ms agent_handle module_name grants effects observers resources effect_kinds net None symbol body.
Definition dispatch_loopback (module_name : bytes) (grants effects observers net : list bytes) (symbol body : bytes) : lm bytes :=
  dispatch_loopback_as None module_name grants effects observers [] [] net symbol body.

(** ** A connection

    What is read from it is a list of chunks of at most 4096 bytes; an error ends
    it as the peer does. *)
Abbreviation conn := (list bytes).
Definition MAX_HEAD : Z := 1024 * 1024.
(** The bytes read until the end of the head, and the rest of the connection. *)
Fixpoint read_head (chunks : list bytes) (acc : bytes) : option (bytes * list bytes) :=
  match chunks with
  | [] => None
  | c :: chunks =>
      let acc := acc ++ c in
      if bool_decide (is_Some (split_once (CRLF ++ CRLF) acc)) then Some (acc, chunks)
      else if MAX_HEAD <? Zlen acc then None else read_head chunks acc
  end.
Definition header_length (line : bytes) (n : Z) : Z :=
  match strip_prefix (str "content-length:") (to_ascii_lowercase (from_utf8_lossy line)) with
  | Some v => default 0 (parse_uint (2 ^ 64) (trim v))
  | None => n
  end.
Definition content_length (head : bytes) : Z := foldl (λ n line, header_length line n) 0 (split LF head).
Fixpoint read_body (chunks : list bytes) (body : bytes) (len : Z) : bytes :=
  if Zlen body <? len then match chunks with [] => body | c :: chunks => read_body chunks (body ++ c) len end else body.
Fixpoint drop_leading (c : byte) (s : bytes) : bytes := match s with b :: s' => if bool_decide (b = c) then drop_leading c s' else s | [] => [] end.
Definition symbol_of (head : bytes) : option bytes :=
  let request_line := from_utf8_lossy (default [] (hd_error (split LF head))) in
  strip_prefix (str "kernel/") (drop_leading Byte.x2f (default [] (split_whitespace request_line !! 1%nat))).

Definition gatekeeper_mode_allows_side_effect (mode : ModuleHost.GatekeeperMode) (symbol : bytes) : bool :=
  if bool_decide (symbol ≠ str "uk_action_submit") then true else match mode with ModuleHost.Disabled => false | _ => true end.

(** What a module brings to its loopback. *)
Record Bounds := {
  bd_module : bytes; bd_grants : list bytes; bd_effects : list bytes; bd_observers : list bytes; bd_net : list bytes; bd_resources : list bytes;
  bd_effect_kinds : list (bytes * bytes); bd_mode : ModuleHost.GatekeeperMode; bd_max_ms : option Z
}.
Definition answer_request (b : Bounds) (head body : bytes) : lm bytes :=
  match symbol_of head with
  | None => mret (error_response 4000 None (str "bad path"))
  | Some sym =>
      if negb (gatekeeper_mode_allows_side_effect (bd_mode b) sym) then
        _ ← append_host_audit (str "uk_security") false (str "GATEKEEPER_DISABLED module='" ++ bd_module b ++ str "' symbol='" ++ sym ++ str "'");
        mret (error_response 4004 None (str "side effects disabled by gatekeeper mode for module '" ++ bd_module b ++ str "'"))
      else dispatch_loopback_as_with_max_ms None (bd_module b) (bd_grants b) (bd_effects b) (bd_observers b) (bd_resources b) (bd_effect_kinds b)
             (bd_net b) (bd_max_ms b) sym body
  end.
Definition handle_loopback_conn (b : Bounds) (c : conn) : lm (option bytes) :=
  match read_head c [] with
  | None => mret None
  | Some (request, rest) =>
      let '(head, after) := default (request, []) (split_once (CRLF ++ CRLF) request) in
      let len := content_length head in
      let body := read_body rest after len in
      response ← answer_request b head (from_utf8_lossy (take (Z.to_nat len) body));
      mret (Some response)
  end.

Definition forbidden : bytes :=
  str "HTTP/1.1 403 Forbidden" ++ CRLF ++ str "Content-Length: 2" ++ CRLF ++ str "Connection: close" ++ CRLF ++ CRLF ++ str "{}".
Definition debug_pid (p : option Z) : bytes := match p with Some p => str "Some(" ++ dec p ++ str ")" | None => str "None" end.
(** One accepted connection; [want] is the process expected, 0 for any. A
    connection is served on a thread of its own. *)
Definition accept_conn (b : Bounds) (want : Z) (peer : option Z) (c : conn) : lm (option bytes) := λ w,
  let fresh := put_thread no_ctx w in
  if negb (want =? 0) && bool_decide (peer ≠ Some want) then
    (_ ← append_host_audit (str "uk_security") false (str "loopback peer pid mismatch: expected " ++ dec want ++ str ", got " ++ debug_pid peer);
     mret (Some forbidden)) fresh
  else handle_loopback_conn b c fresh.

(** ** The configuration of the sidecar *)
Definition is_kernel_symbol (sym : bytes) : bool := bool_decide (sym ∈ Jit.registered_unfer_symbols).
(** A backquote stands for a double quote. *)
Definition quoted (s : String.string) : bytes := (λ b, if bool_decide (b = Byte.x60) then Byte.x22 else b) <$> str s.
Definition binding (sym : bytes) : bytes := quoted "         (name = `" ++ sym ++ quoted "`, service = `kernel-loopback`)," ++ [LF].
Definition egress_service (i : nat) (host : bytes) : bytes :=
  quoted "    (name = `net-egress-" ++ dec (Z.of_nat i) ++ quoted "`, external = (address = `http://" ++ host ++ quoted "`, http = ()))," ++ [LF].
Definition bindings_of (grants : list bytes) : list bytes := filter (λ s, is_kernel_symbol s = true) grants.
Definition config_source (m : ModuleHost.ModuleManifest) (loopback main : bytes) : bytes :=
  quoted "using Workerd = import `/workerd/workerd.capnp`;

const config :Workerd.Config = (
  services = [
    (name = `main`,
     worker = (
       compatibilityDate = `2025-07-01`,
       modules = [
         (name = `harness.mjs`, esModule = embed `harness.mjs`),
         (name = `module.js`, esModule = embed `module.js`),
       ],
       bindings = [
" ++ concat (binding <$> bindings_of (ModuleHost.mm_grants m)) ++ quoted "       ],
     )),
    (name = `kernel-loopback`,
     external = (address = `unix:" ++ loopback ++ quoted "`, http = ())),
" ++ concat (imap egress_service (ModuleHost.mm_net_grants m)) ++ quoted "  ],
  sockets = [
    (name = `main`, address = `unix:" ++ main ++ quoted "`, http = (), service = `main`),
  ],
);
".
End loopback.
End Ecma.
