(* ===== verification/EcmaSafe.v ===== *)
(** * What a sidecar can do through its loopback ([cranelift/src/ecma.rs])

    Every effect on the kernel that a connection causes passed the peer check,
    the gatekeeper and each gate of the chain, and ran under the module's own
    identity; a call whose arguments are an array leaves one audit entry when it
    is answered, and what else is answered leaves one of the host or none. *)

From S2P Require Import Prelude Text RefiUtil RefiJson ModuleHost Ecma.
Import RefiUtil RefiJson Ecma.

Module EcmaSafe.

(** ** The policy, independently of the chain *)
Section policy.
Context {K : Type} `{Unfer K}.

Definition granted (ca : Caller) (net : list bytes) (sym : bytes) (args : list json) : Prop :=
  if decide (sym = str "uk_action_submit") then first_field args "effect" ∈ ca_effects ca
  else if decide (sym = str "uk_fetch") then egress_allowed (fetch_host (first_field args "url")) net = true
  else sym ∈ ca_grants ca.
Definition unlatched (ca : Caller) (k : K) (sym : bytes) : Prop :=
  sym ∈ SENSITIVE_BLOCKED_SYMBOLS → uk_is_sensitive_latched (ca_principal ca) k = false.
(** The kernel after the meter, and whether the meter let the call pass. *)
Definition metered (ca : Caller) (sym : bytes) (k : K) : K * bool :=
  if decide (sym ∈ METERED_SYMBOLS) then
    let '(k, r) := uk_meter_consume (ca_principal ca) LOOPBACK_BUDGET LOOPBACK_RATE_LIMIT k in (k, r =? 0)
  else (k, true).
(** Under the strict posture only what observes, or ends a turn, or asks for
    approval. *)
Definition calm (k : K) (sym : bytes) : Prop :=
  posture_is_strict k = true → sym ∈ (str <$> ["uk_session_close"; "uk_version"; "uk_action_submit"]%string) ∨ effect_kind sym = Some Observe.
Record admitted (ca : Caller) (net : list bytes) (k : K) (sym : bytes) (args : list json) : Prop := {
  ad_granted : granted ca net sym args;
  ad_latch : unlatched ca k sym;
  ad_meter : (metered ca sym k).2 = true;
  ad_posture : calm (metered ca sym k).1 sym
}.
End policy.

Create HintDb does.
Section safe.
Context {K : Type} `{Unfer K, JsonCodec, HexText}.
Variable late : nat → Z → bool.
Local Abbreviation world := (world (K:=K)).

(** ** Computations that only do what a predicate says

    They keep the thread's context and extend the log by events that satisfy
    it. *)
Definition extends (P : event → Prop) (w w' : world) : Prop := ∃ evs, w_log w' = w_log w ++ evs ∧ Forall P evs.
#[local] Instance extends_refl P : Reflexive (extends P).
Proof. intros w. exists []. by rewrite app_nil_r. Qed.
Lemma extends_idle P (w w' : world) : w_log w' = w_log w → extends P w w'.
Proof. intros El. exists []. by rewrite app_nil_r. Qed.
#[local] Instance extends_trans P : Transitive (extends P).
Proof.
  intros a b c (e1 & E1 & F1) (e2 & E2 & F2). exists (e1 ++ e2). rewrite E2, E1, app_assoc. split; [done|]. by apply Forall_app.
Qed.
Definition does {E A} (th : thread_ctx) (P : event → Prop) (m : stm world E A) : Prop :=
  ∀ w, w_thread w = th → w_thread (m w).1 = th ∧ extends P w (m w).1.

Section does.
Context (th : thread_ctx) (P : event → Prop) {E : Type}.
Lemma acts_ret {A} (a : A) : does th P (mret a : stm world E A).
Proof. by intros w Hw. Qed.
Lemma acts_lift {A} (r : res E A) : does th P (stm_lift r : stm world E A).
Proof. by intros w Hw. Qed.
Lemma acts_err {A} e : does th P (stm_err e : stm world E A).
Proof. by intros w Hw. Qed.
Lemma acts_bind {A B} (m : stm world E A) (k : A → stm world E B) : does th P m → (∀ a, does th P (k a)) → does th P (m ≫= k).
Proof.
  intros Hm Hk w Hw. unfold mbind, stm_bind. destruct (Hm w Hw) as [Ht Hx]. destruct (m w) as [w1 [a|e|]]; cbn in *; [|done..].
  destruct (Hk a w1 Ht) as [Ht2 Hx2]. split; [done|]. by etrans.
Qed.
Lemma acts_if {A} (b : bool) (m n : stm world E A) : does th P m → does th P n → does th P (if b then m else n).
Proof. by destruct b. Qed.
End does.

(** *** The kernel's functions *)
Section kernel.
Context (th : thread_ctx) (actor symbol : bytes) (args : list json).
(** What a dispatch of [symbol] may call, and with what: a submission carries
    the caller's name as its principal. *)
Definition call_of (n : bytes) (l : list ffi_arg) : Prop :=
  n = str "uk_last_error" ∨
  n = symbol ∧ (symbol = str "uk_action_submit" → ∃ req, head args = Some req ∧ l = [ABytes (json_to_vec (stamp actor req))]).
Definition effect_of (e : event) : Prop :=
  match e with
  | Called t n l => t = th ∧ call_of n l
  | Fetched host => symbol = str "uk_fetch" ∧ host = fetch_host (first_field args "url") ∧ is_loopback_host host = true
  | Metered _ | Audited _ _ => False
  end.
Local Abbreviation quiet := (does th effect_of).

Lemma extend_one e k (w : world) : effect_of e → extends effect_of w (log e (put_kernel k w)).
Proof. intros He. exists [e]. split; [done|]. by constructor. Qed.
Lemma acts_int n l : call_of n l → quiet (call_int n l).
Proof. intros Hn w Hw. unfold call_int. destruct (uk_call _ _ _ _) as [k r]. split; [done|]. by apply extend_one. Qed.
Lemma acts_buf n l cap : call_of n l → quiet (call_buf n l cap).
Proof. intros Hn w Hw. unfold call_buf. destruct (uk_read _ _ _ _ _) as [k r]. split; [done|]. by apply extend_one. Qed.
Lemma acts_value l : call_of symbol l → quiet (call_value symbol l).
Proof. intros Hn w Hw. unfold call_value. destruct (uk_value _ _ _ _) as [k r]. split; [done|]. by apply extend_one. Qed.
Lemma call_last l : call_of (str "uk_last_error") l.
Proof. by left. Qed.
Hint Resolve call_last : does.
Hint Resolve acts_ret acts_lift acts_err acts_int acts_buf acts_value : does.
Ltac go := repeat first
  [ solve [auto with does] | apply acts_if | apply acts_bind; [|intros ?]
  | match goal with |- does _ _ (match ?x with _ => _ end) => destruct x end ].

Lemma acts_last_error : quiet read_last_error.
Proof. unfold read_last_error. go. Qed.
Lemma acts_neg n : quiet (neg_code n).
Proof. unfold neg_code. go. Qed.
Hint Resolve acts_last_error acts_neg : does.
Lemma acts_ffi n : quiet (ffi_result n).
Proof. unfold ffi_result. go. Qed.
Lemma acts_failed n : quiet (buf_failed n).
Proof. unfold buf_failed. go. Qed.
Lemma acts_text b : quiet (finish_text b).
Proof. unfold finish_text. go. Qed.
Hint Resolve acts_ffi acts_failed acts_text : does.
Lemma acts_loop fin k l needed : call_of symbol l → (∀ b, quiet (fin b)) → quiet (buf_loop k fin symbol l needed).
Proof. intros Hc Hf. revert needed. induction k as [|k IH]; intros needed; cbn [buf_loop]; go. Qed.
Lemma acts_read fin l : call_of symbol l → (∀ b, quiet (fin b)) → quiet (buf_read fin symbol l).
Proof. intros Hc Hf. unfold buf_read. go; by apply acts_loop. Qed.
Lemma acts_out l : call_of symbol l → quiet (buf_out symbol l).
Proof. intros Hc. apply acts_read; auto with does. Qed.
Lemma acts_raw l : call_of symbol l → quiet (buf_out_raw symbol l).
Proof. intros Hc. apply acts_read; [done|]. unfold finish_raw. auto with does. Qed.
Lemma acts_arg_i64 i : quiet (arg_i64 args i).
Proof. unfold arg_i64. go. Qed.
Lemma acts_arg_str i : quiet (arg_str args i).
Proof. unfold arg_str. go. Qed.
Hint Resolve acts_out acts_raw acts_arg_i64 acts_arg_str : does.
Lemma acts_marshal ps i : quiet (marshal args i ps).
Proof. revert i. induction ps as [|[] ps IH]; intros i; cbn [marshal]; go. Qed.
Hint Resolve acts_marshal : does.

Lemma acts_fetch : symbol = str "uk_fetch" → quiet (fetch args).
Proof.
  intros Hs w Hw. unfold fetch. case_bool_decide; [done|]. unfold loopback_get.
  destruct (is_loopback_host _) eqn:El; [|done]. cbn [negb].
  destruct (split_host_port _) as [h p]. destruct (tcp_get _ _ _) as [k r].
  assert (extends effect_of w (log (Fetched (fetch_host (first_field args "url"))) (put_kernel k w))) as Hx by (by apply extend_one).
  by repeat case_match; simplify_eq.
Qed.
Lemma acts_submit : symbol = str "uk_action_submit" → quiet (submit actor args).
Proof.
  intros ->. unfold submit. destruct (head args) as [req|] eqn:Eh; [|go].
  apply acts_bind; [|intros; go]. apply acts_int. right. split; [done|]. intros _. by exists req.
Qed.
Lemma call_plain l : symbol ≠ str "uk_action_submit" → call_of symbol l.
Proof. intros Hn. right. by split. Qed.
Lemma acts_close : symbol = str "uk_auction_close" → quiet (close_auction args).
Proof.
  intros E. unfold close_auction. rewrite <- E. apply acts_bind; [go|intros s].
  apply acts_bind; [|intros [n b]; go]. apply acts_buf, call_plain. by rewrite E.
Qed.
Lemma acts_instantiate : symbol = str "uk_blueprint_instantiate" → quiet (instantiate args).
Proof.
  intros E. unfold instantiate. rewrite <- E. apply acts_bind; [go|intros s]. destruct (hex_decode _) as [b|]; [|go].
  apply acts_bind; [|intros n; go]. apply acts_int, call_plain. by rewrite E.
Qed.

Lemma str_inj a b : str a = str b → a = b.
Proof. intros Heq. rewrite <- (String.string_of_list_byte_of_string a), <- (String.string_of_list_byte_of_string b). by unfold str in Heq; rewrite Heq. Qed.
(** The request submitted has the effect that was checked, and the caller's
    name. *)
Lemma field_set key k x fields : field k (set_field key x fields) = if decide (k = key) then Some x else field k fields.
Proof.
  induction fields as [|[k' v] fields IH]; cbn; [by repeat (case_bool_decide || case_decide); congruence|].
  repeat case_bool_decide; cbn; rewrite ?IH; repeat (case_decide || case_bool_decide); congruence.
Qed.
Lemma stamp_request req fields : req = JObj fields →
  at_key (stamp actor req) "principal" = JStr actor ∧ at_key (stamp actor req) "effect" = at_key req "effect".
Proof. intros ->. cbn. by rewrite !field_set. Qed.
(** Each special shape belongs to its own symbol. *)
Definition own_name (sh : shape) : option String.string :=
  match sh with
  | ShExport => Some "uk_blueprint_export" | ShInstantiate => Some "uk_blueprint_instantiate" | ShSubmit => Some "uk_action_submit"
  | ShFetch => Some "uk_fetch" | ShClose => Some "uk_auction_close" | _ => None
  end%string.
Definition own_arm (a : String.string * shape) : bool :=
  match own_name a.2 with Some n => String.eqb a.1 n | None => negb (String.eqb a.1 "uk_action_submit") end.
Lemma own_arms : forallb own_arm arms = true.
Proof. by vm_compute. Qed.
Lemma arm_own s sh : arm s = Some sh → match own_name sh with Some n => s = str n | None => s ≠ str "uk_action_submit" end.
Proof.
  unfold arm. destruct (head _) as [[n sh']|] eqn:E; [|done]. intros [= <-].
  assert ((n, sh') ∈ filter (λ a, str a.1 = s) arms) as [Hs Hi]%list_elem_of_filter by (destruct (filter _ arms); [done|injection E as ->; left]).
  cbn in Hs. pose proof (proj1 (forallb_forall _ _) own_arms _ (proj1 (list_elem_of_In _ _) Hi)) as Ho. unfold own_arm in Ho. cbn in Ho.
  destruct (own_name sh') as [m|]; [by apply String.eqb_eq in Ho as <-|]. rewrite <- Hs. intros Heq%str_inj. by subst n.
Qed.
Lemma acts_arm sh : arm symbol = Some sh → quiet (run_arm actor symbol args sh).
Proof.
  intros Ha%arm_own. destruct sh; cbn in Ha |- *;
    try (by first [apply acts_instantiate | apply acts_submit | apply acts_fetch | apply acts_close]);
    assert (∀ l, call_of symbol l) by (intros l; apply call_plain; by first [done | rewrite Ha]); go.
Qed.
Lemma acts_kernel : quiet (kernel_dispatch actor symbol args).
Proof. unfold kernel_dispatch. destruct (arm symbol) as [sh|] eqn:E; [by apply acts_arm|go]. Qed.
End kernel.

(** ** The chain *)
Lemma extends_mono (P Q : event → Prop) (w w' : world) : (∀ e, P e → Q e) → extends P w w' → extends Q w w'.
Proof. intros HPQ (evs & El & Hf). exists evs. split; [done|]. by eapply Forall_impl. Qed.

Section chain.
Context (ca : Caller) (net : list bytes) (max_ms : option Z) (sym : bytes) (args : list json) (trace : Z).
Local Abbreviation ev := (event_of ca net max_ms sym args trace).
Definition call_ctx : thread_ctx := Ctx (Some (ev_caller_json ev)) (Some (ev_observability ev)).
Local Abbreviation effect := (effect_of call_ctx (ca_principal ca) sym args).

(** What one call may cause, from the kernel it started in. *)
Definition chained (k : K) (e : event) : Prop :=
  match e with
  | Called _ _ _ | Fetched _ => effect e ∧ admitted ca net k sym args
  | Metered p => p = ca_principal ca ∧ granted ca net sym args ∧ unlatched ca k sym
  | Audited _ _ => False
  end.
Lemma effect_chained k e : admitted ca net k sym args → effect e → chained k e.
Proof. by destruct e. Qed.

Lemma acts_dispatch : does call_ctx effect (dispatch ev).
Proof.
  intros w Hw. destruct (acts_kernel call_ctx (ca_principal ca) sym args w Hw) as [Ht Hx]. unfold dispatch. cbn [ev_principal ev_symbol ev_args event_of].
  by destruct (kernel_dispatch _ _ _ w) as [w1 [v|[c m]|]].
Qed.
Lemma acts_guarded : does call_ctx effect (waterfall [GuardListener late; DispatchListener] ev).
Proof.
  cbn [waterfall on_symbol GuardListener DispatchListener]. destruct (effective_deadline_ms ev) as [ms|]; [|apply acts_dispatch].
  intros w Hw. unfold run_with_deadline.
  set (w1 := World (w_kernel w) call_ctx (w_seq w) (S (w_waits w)) (w_log w)).
  destruct (acts_dispatch w1 eq_refl) as [Ht Hx].
  set (work := _ ≫= _).
  assert (extends effect w (work (put_thread no_ctx (put_waits (S (w_waits w)) w))).1) as Hwork.
  { subst work. unfold mbind, stm_bind, set_caller, set_observability, clear_context. cbn -[dispatch].
    change (dispatch _ _) with (dispatch ev w1). by destruct (dispatch ev w1) as [w2 [f|[]|]]. }
  destruct (work _) as [w2 r]. split; [done|]. exact Hwork.
Qed.

Lemma grant_granted : grant_error ev = None → granted ca net sym args.
Proof.
  unfold grant_error, granted. cbn [ev_symbol ev_args ev_effects ev_grants ev_net ev_fetch_url event_of].
  destruct (decide (sym = str "uk_action_submit")) as [->|Hn1]; [rewrite bool_decide_eq_true_2 by done; by case_bool_decide|].
  rewrite bool_decide_eq_false_2 by done.
  destruct (decide (sym = str "uk_fetch")) as [->|Hn2]; [rewrite bool_decide_eq_true_2 by done|rewrite bool_decide_eq_false_2 by done; by case_bool_decide].
  case_bool_decide; [done|]. by destruct (egress_allowed _ _).
Qed.
Lemma latched_not (w : world) : latched ev w = false → unlatched ca (w_kernel w) sym.
Proof. unfold latched, unlatched. cbn. intros Hl Hs. by rewrite (bool_decide_eq_true_2 _ Hs) in Hl. Qed.
Lemma paused_not (w : world) : paused ev w = false → calm (w_kernel w) sym.
Proof.
  unfold paused, calm, ends_turn, is_mutate. cbn. intros Hp Hs. rewrite Hs in Hp. cbn in Hp.
  case_bool_decide; [by left|]. right. destruct (effect_kind sym) as [[]|]; done.
Qed.

(** The rest of the chain from the posture, in a kernel [k] the call started
    in and [w] after the meter. *)
Lemma posture_contained k (w : world) : w_thread w = call_ctx → (calm (w_kernel w) sym → admitted ca net k sym args) →
  let w' := (waterfall [PostureListener; GuardListener late; DispatchListener] ev w).1 in
  w_thread w' = call_ctx ∧ extends (chained k) w w'.
Proof.
  intros Hw Had. cbn [waterfall on_symbol PostureListener]. destruct (paused ev w) eqn:Ep; [done|].
  destruct (acts_guarded w Hw) as [Ht Hx]. split; [exact Ht|]. eapply extends_mono, Hx. intros e. apply effect_chained, Had. by apply paused_not.
Qed.
Lemma chain_contained (w : world) : w_thread w = call_ctx →
  let w' := (waterfall (tail (LOOPBACK_WATERFALL late)) ev w).1 in
  w_thread w' = call_ctx ∧ extends (chained (w_kernel w)) w w'.
Proof.
  intros Hw. cbn [waterfall on_symbol GrantGateListener LatchListener MeterListener LOOPBACK_WATERFALL tail].
  destruct (grant_error ev) as [m|] eqn:Eg; [done|]. apply grant_granted in Eg.
  destruct (latched ev w) eqn:El; [done|]. apply latched_not in El. cbn [ev_symbol ev_principal event_of].
  case_bool_decide as Em; cbn [negb].
  - unfold mbind, stm_bind, consume.
    destruct (uk_meter_consume _ _ _ (w_kernel w)) as [k r] eqn:Ec.
    set (w1 := log (Metered (ca_principal ca)) (put_kernel k w)).
    assert (metered ca sym (w_kernel w) = (k, r =? 0)) as Emt by (unfold metered; rewrite decide_True by done; by rewrite Ec).
    assert (extends (chained (w_kernel w)) w w1) as Hx1 by (exists [Metered (ca_principal ca)]; split; [done|by repeat constructor]).
    destruct (r =? 0) eqn:Er; [|by destruct (r =? 1)].
    destruct (posture_contained (w_kernel w) w1 Hw) as [Ht Hx]; [|split; [exact Ht|by etrans]].
    intros Hc. split; rewrite ?Emt; done.
  - apply posture_contained; [done|]. intros Hc.
    assert (metered ca sym (w_kernel w) = (w_kernel w, true)) as Emt by (unfold metered; by rewrite decide_False).
    split; rewrite ?Emt; done.
Qed.

(** Some listener decides. *)
Lemma dispatch_decides w w' f : dispatch ev w = (w', Ok f) → f ≠ Next.
Proof. unfold dispatch. destruct (kernel_dispatch _ _ _ _) as [w1 [v|[c m]|]]; intros [= <- <-] || done; done. Qed.
Lemma guarded_decides w w' f : waterfall [GuardListener late; DispatchListener] ev w = (w', Ok f) → f ≠ Next.
Proof.
  cbn [waterfall on_symbol GuardListener DispatchListener]. destruct (effective_deadline_ms ev) as [ms|]; [|apply dispatch_decides].
  unfold run_with_deadline, mbind, stm_bind, set_caller, set_observability, clear_context. cbn -[dispatch].
  destruct (dispatch _ _) as [w2 [f2|[]|]] eqn:Ed; cbn.
  - apply dispatch_decides in Ed. destruct (late _ _); by intros [= <- <-].
  - destruct (late _ _); by intros [= <- <-].
Qed.
Lemma chain_decides w w' f : waterfall (tail (LOOPBACK_WATERFALL late)) ev w = (w', Ok f) → f ≠ Next.
Proof.
  assert (∀ w, waterfall [PostureListener; GuardListener late; DispatchListener] ev w = (w', Ok f) → f ≠ Next) as Hp.
  { intros w0. cbn [waterfall on_symbol PostureListener]. destruct (paused ev w0); [by intros [= <- <-]|apply guarded_decides]. }
  cbn [waterfall on_symbol GrantGateListener LatchListener MeterListener LOOPBACK_WATERFALL tail].
  destruct (grant_error ev) as [m|]; [by intros [= <- <-]|]. destruct (latched ev w); [by intros [= <- <-]|].
  case_bool_decide; cbn [negb]; [|apply Hp]. unfold mbind, stm_bind, consume.
  destruct (uk_meter_consume _ _ _ _) as [k r]. destruct (r =? 0); [apply Hp|]. destruct (r =? 1); by intros [= <- <-].
Qed.
End chain.

(** ** One call, with its audit entry *)
Definition succeeded (f : Flow) : bool := match f with FOk _ => true | _ => false end.
(** The entry for the answer [resp], under the context [th]. *)
Definition audit_of (th : thread_ctx) (sym : bytes) (args : list json) (resp : bytes) (e : event) : Prop :=
  ∃ flow detail, flow ≠ Next ∧ resp = flow_response flow ∧ e = Audited th (audit_entry sym args (succeeded flow) detail).
Lemma outcome_entry th sym args ev f (w : world) : ev_symbol ev = sym → ev_args ev = args → f ≠ Next → w_thread w = th →
  ∃ e w', outcome_audit ev f w = (w', Ok ()) ∧ w_thread w' = th ∧ w_log w' = w_log w ++ [e] ∧ audit_of th sym args (flow_response f) e.
Proof.
  intros <- <- Hf <-.
  assert (∃ d, outcome_audit ev f = append_loopback_audit (ev_symbol ev) (ev_args ev) (succeeded f) d) as [d ->] by (destruct f; by eauto).
  eexists _, _. split; [reflexivity|]. split; [done|]. split; [done|]. by exists f, d.
Qed.
(** Chained events, and one entry at the end when there is an answer. *)
Definition answered (ca : Caller) (net : list bytes) (sym : bytes) (args : list json) (w : world) (out : world * res Empty_set bytes) : Prop :=
  ∃ max_ms evs, let th := call_ctx ca net max_ms sym args (w_seq w) in
    Forall (chained ca net max_ms sym args (w_seq w) (w_kernel w)) evs ∧
    match out with
    | (w', Ok resp) => w_thread w' = no_ctx ∧ ∃ e, w_log w' = w_log w ++ evs ++ [e] ∧ audit_of th sym args resp e
    | (w', Panic) => w_log w' = w_log w ++ evs
    | (_, Err _) => False
    end.
Lemma run_answered ca net max_ms sym args (w : world) : answered ca net sym args w (run_event late ca net max_ms sym args w).
Proof.
  exists max_ms. set (w1 := World (w_kernel w) (call_ctx ca net max_ms sym args (w_seq w)) ((w_seq w + 1) mod 2 ^ 64) (w_waits w) (w_log w)).
  destruct (chain_contained ca net max_ms sym args (w_seq w) w1 eq_refl) as [Ht (evs & El & Hf)]. exists evs. split; [exact Hf|].
  assert (run_event late ca net max_ms sym args w =
    match emit (AuditListener :: tail (LOOPBACK_WATERFALL late)) (event_of ca net max_ms sym args (w_seq w)) w1 with
    | (w2, Ok f) => (put_thread no_ctx w2, Ok (flow_response f)) | (w2, Err e) => (w2, Err e) | (w2, Panic) => (w2, Panic)
    end) as -> by reflexivity.
  unfold emit. cbn [ev_mode event_of].
  cbn [waterfall on_symbol AuditListener]. unfold mbind, stm_bind.
  destruct (waterfall (tail _) _ w1) as [w2 [f|[]|]] eqn:Ec; cbn [fst] in *; [|exact El].
  destruct (outcome_entry _ sym args (event_of ca net max_ms sym args (w_seq w)) f w2 eq_refl eq_refl (chain_decides _ _ _ _ _ _ _ _ _ Ec) Ht)
    as (e & w3 & Eo & Ht3 & El3 & Ha).
  rewrite Eo. cbn. split; [done|]. exists e. rewrite El3, El, <- app_assoc. done.
Qed.

(** ** A connection *)
Definition expected (want : Z) (peer : option Z) : Prop := want = 0 ∨ peer = Some want.
(** The symbol and the arguments a connection's bytes carry. *)
Definition requested (c : list bytes) (sym : bytes) (args : list json) : Prop :=
  ∃ request rest, read_head c [] = Some (request, rest) ∧
  ∃ head after, (head, after) = default (request, []) (split_once (CRLF ++ CRLF) request) ∧ symbol_of head = Some sym ∧
  json_from_slice (from_utf8_lossy (take (Z.to_nat (content_length head)) (read_body rest after (content_length head)))) = Some (JArr args).
Definition module_caller (b : Bounds) : Caller :=
  gadget (bd_module b) (bd_grants b) (bd_effects b) (bd_observers b) (bd_resources b) (bd_effect_kinds b).
Definition caller_name (ca : Caller) : bytes := loopback_caller_json (ca_from ca) (ca_principal ca) (ca_set ca).

(** What the caller [ca] may cause by calling [sym] in the kernel [k]. *)
Definition permitted_call (ca : Caller) (net : list bytes) (k : K) (sym : bytes) (args : list json) (e : event) : Prop :=
  match e with
  | Called th n l => admitted ca net k sym args ∧ th_caller th = Some (caller_name ca) ∧ call_of (ca_principal ca) sym args n l
  | Fetched host =>
      admitted ca net k sym args ∧ sym = str "uk_fetch" ∧ host = fetch_host (first_field args "url") ∧ is_loopback_host host = true
  | Metered p => p = ca_principal ca ∧ granted ca net sym args ∧ unlatched ca k sym
  | Audited _ _ => True
  end.
Definition permitted (b : Bounds) (want : Z) (peer : option Z) (c : list bytes) (k : K) (e : event) : Prop :=
  (∃ th entry, e = Audited th entry) ∨
  expected want peer ∧ ∃ sym args, requested c sym args ∧ (sym = str "uk_action_submit" → bd_mode b ≠ ModuleHost.Disabled) ∧
    permitted_call (module_caller b) (bd_net b) k sym args e.

Lemma chained_permitted ca net max_ms sym args trace k e : chained ca net max_ms sym args trace k e → permitted_call ca net k sym args e.
Proof. destruct e as [t n l|host|p|t en]; cbn; [|tauto..]. intros [[-> Hc] Had]. by split. Qed.
Lemma answered_permitted ca net sym args w out : answered ca net sym args w out → extends (permitted_call ca net (w_kernel w) sym args) w out.1.
Proof.
  intros (ms & evs & Hf & Hout).
  assert (Forall (permitted_call ca net (w_kernel w) sym args) evs) as Hp by (eapply Forall_impl; [exact Hf|apply chained_permitted]).
  destruct out as [w' [resp|[]|]]; [|by exists evs].
  destruct Hout as (_ & e & El & (f & d & _ & _ & ->)). exists (evs ++ [Audited (call_ctx ca net ms sym args (w_seq w)) (audit_entry sym args (succeeded f) d)]).
  split; [done|]. apply Forall_app. split; [done|]. by repeat constructor.
Qed.
Lemma audited_one b want peer c k th e (w : world) : extends (permitted b want peer c k) w (audit e (put_thread th w)).1.
Proof. eexists [_]. split; [done|]. constructor; [left; by eauto|constructor]. Qed.

(** C4. Whatever bytes a sidecar sends, the kernel functions called, the
    hosts contacted and the units metered are those of the one symbol its
    request names; they happen only for the expected process, when the module
    holds the grant (the effect named, the host, or the symbol), is not latched,
    passed the meter and the posture, and its gatekeeper is not disabled; they
    run under the module's own identity, a submission carries the module's name
    as its principal, and only loopback hosts are contacted. *)
Theorem loopback_contained b want peer c (w : world) :
  extends (permitted b want peer c (w_kernel w)) w (accept_conn late b want peer c w).1.
Proof.
  unfold accept_conn. destruct (negb (want =? 0) && bool_decide (peer ≠ Some want)) eqn:Ew; [apply audited_one|].
  assert (expected want peer) as Hx.
  { unfold expected. destruct (want =? 0) eqn:E0; [left; lia|]. cbn in Ew. apply bool_decide_eq_false in Ew. right. by apply dec_stable. }
  unfold handle_loopback_conn. destruct (read_head c []) as [[request rest]|] eqn:Er; [|by apply extends_idle].
  destruct (default _ _) as [head after] eqn:Es. unfold answer_request.
  destruct (symbol_of head) as [sym|] eqn:Ey; [|by apply extends_idle].
  destruct (negb (gatekeeper_mode_allows_side_effect _ _)) eqn:Em; [apply audited_one|]. unfold dispatch_loopback_as_with_max_ms.
  destruct (json_from_slice _) as [v|] eqn:Ej; [|by apply extends_idle]. destruct v as [| | | | |args|]; try by apply extends_idle. cbn [as_array mbind option_bind].
  pose proof (answered_permitted _ _ _ _ _ _ (run_answered (module_caller b) (bd_net b) (bd_max_ms b) sym args (put_thread no_ctx w))) as Ha.
  match goal with |- extends _ _ ?x.1 => assert (x.1 = (run_event late (module_caller b) (bd_net b) (bd_max_ms b) sym args (put_thread no_ctx w)).1) as -> end.
  { unfold mbind, stm_bind, module_caller. by destruct (run_event _ _ _ _ _ _ _) as [w1 [resp|[]|]]. }
  destruct Ha as (evs & El & Hf). exists evs. split; [exact El|]. eapply Forall_impl; [exact Hf|]. intros e He. right. split; [exact Hx|].
  exists sym, args. split; [by exists request, rest; split; [done|]; exists head, after|]. split; [|exact He].
  intros ->. unfold gatekeeper_mode_allows_side_effect in Em. rewrite bool_decide_eq_false_2 in Em by tauto. by intros Hd; rewrite Hd in Em.
Qed.

(** ** Sub-agents *)
Definition bounds_read (th : thread_ctx) (handle : Z) (e : event) : Prop :=
  match e with Called t n l => t = th ∧ (n = str "uk_last_error" ∨ n = str "uk_agent_grants") | _ => False end.
Lemma acts_bounds th handle : does th (bounds_read th handle) (ffi_agent_bounds handle).
Proof.
  unfold ffi_agent_bounds. apply acts_bind.
  - intros w Hw. unfold ok_of.
    assert (does th (bounds_read th handle) (buf_out (str "uk_agent_grants") [AInt handle])) as Hd.
    { intros w' Hw'. destruct (acts_out th [] (str "uk_agent_grants") [] [AInt handle]) with (w := w') as [Ht Hx]; [by apply call_plain|done|].
      split; [done|]. eapply extends_mono, Hx. intros [t n l|h|p|t e]; cbn; [|by intros (? & _)|done..].
      intros [-> [->|[-> _]]]; split; auto. }
    destruct (Hd w Hw) as [Ht Hx]. by destruct (buf_out _ _ w) as [w1 [v|e|]].
  - intros out. destruct (_ ≫= _); [|by intros w Hw]. by intros w Hw.
Qed.

(** Who a call is attributed to: the module, or the very agent the handle
    names when the call starts, with the bounds recorded for it. *)
Definition caller_of (handle : option Z) (b : Bounds) (w : world) : bytes :=
  match handle with
  | None => caller_name (module_caller b)
  | Some h =>
      match (ffi_agent_bounds h w).2 with
      | Ok (Some (bounds, id)) => caller_name (agent bounds id)
      | _ => loopback_caller_json "agent" (str "agent-" ++ ModuleHost.dec_i64 h) no_grants
      end
  end.
Definition loopback_as (handle : option Z) (b : Bounds) (sym body : bytes) : stm world Empty_set bytes :=
  dispatch_loopback_as_with_max_ms late handle (bd_module b) (bd_grants b) (bd_effects b) (bd_observers b) (bd_resources b) (bd_effect_kinds b)
    (bd_net b) (bd_max_ms b) sym body.
Definition silent (e : event) : Prop := match e with Audited _ _ => False | _ => True end.
(** One audit entry, the last event, made under the caller's name, agrees with
    the answer. *)
Definition audited (handle : option Z) (b : Bounds) (sym : bytes) (args : list json) (w w' : world) (resp : bytes) : Prop :=
  w_thread w' = no_ctx ∧ ∃ evs th ok detail v,
    w_log w' = w_log w ++ evs ++ [Audited th (audit_entry sym args ok detail)] ∧ Forall silent evs ∧
    th_caller th = Some (caller_of handle b w) ∧ resp = json_response (if ok then "result" else "error")%string v.
Lemma flow_key f : ∃ v, flow_response f = json_response (if succeeded f then "result" else "error")%string v.
Proof. destruct f; by eexists. Qed.
Lemma answered_audited handle b ca net sym args w0 w w' resp :
  caller_name ca = caller_of handle b w0 → extends silent w0 w →
  answered ca net sym args w (w', Ok resp) → audited handle b sym args w0 w' resp.
Proof.
  intros Hat (evs0 & El0 & Hf0) (ms & evs & Hf & Ht & e & El & (f & d & _ & -> & ->)). split; [done|]. destruct (flow_key f) as [v Hv].
  exists (evs0 ++ evs), (call_ctx ca net ms sym args (w_seq w)), (succeeded f), d, v.
  rewrite El, El0, !app_assoc. split; [done|]. split; [|split; [by rewrite <-Hat|done]]. apply Forall_app. split; [done|].
  eapply Forall_impl; [exact Hf|]. by intros [].
Qed.

(** A call: audited when its arguments are an array, and else refused without
    an entry. *)
Definition not_array : bytes := error_response 4000 None (str "args must be a JSON array").
Definition call_trail (handle : option Z) (b : Bounds) (sym body : bytes) (w w' : world) (resp : bytes) : Prop :=
  match json_from_slice body with
  | Some (JArr args) => audited handle b sym args w w' resp
  | _ => w' = w ∧ resp = not_array
  end.
Lemma call_audited handle b sym body (w w' : world) resp :
  loopback_as handle b sym body w = (w', Ok resp) → call_trail handle b sym body w w' resp.
Proof.
  unfold loopback_as, dispatch_loopback_as_with_max_ms, call_trail. destruct (json_from_slice body) as [j|]; [|by intros [= <- <-]].
  destruct j as [| | | | |args|]; try by intros [= <- <-]. cbn [mbind option_bind as_array].
  destruct handle as [h|].
  - unfold mbind, stm_bind. destruct (acts_bounds (w_thread w) h w eq_refl) as [Ht Hx].
    assert (extends silent w (ffi_agent_bounds h w).1) as Hs by (eapply extends_mono, Hx; by intros []).
    assert (caller_of (Some h) b w = match (ffi_agent_bounds h w).2 with
      | Ok (Some (bounds, id)) => caller_name (agent bounds id)
      | _ => loopback_caller_json "agent" (str "agent-" ++ ModuleHost.dec_i64 h) no_grants end) as Hc by done.
    destruct (ffi_agent_bounds h w) as [w1 [[[bounds id]|]|[]|]]; [| |done]; cbn [fst snd] in Hs, Hc; intros Hr.
    + by eapply answered_audited; [|exact Hs|rewrite <- Hr; apply run_answered].
    + unfold unknown_agent in Hr. injection Hr as <- <-. destruct Hs as (evs & El & Hf). split; [done|].
      eexists evs, _, false, _, _. cbn. rewrite El, <- app_assoc. split; [reflexivity|]. split; [done|]. split; [|reflexivity]. exact (f_equal Some (eq_sym Hc)).
  - intros Hr. eapply answered_audited; [|apply extends_refl|rewrite <- Hr; apply run_answered]. done.
Qed.

(** A connection. The symbol its path names, if any, and its body: *)
Definition request_of (c : list bytes) : option (option bytes * bytes) :=
  '(request, rest) ← read_head c [];
  let '(head, after) := default (request, []) (split_once (CRLF ++ CRLF) request) in
  Some (symbol_of head, from_utf8_lossy (take (Z.to_nat (content_length head)) (read_body rest after (content_length head)))).
#[local] Existing Instance ModuleHost.gatekeeper_eq_dec.
(** One entry of the host, which names no caller. *)
Definition host_entry (w w' : world) : Prop :=
  ∃ detail, w_log w' = w_log w ++
    [Audited no_ctx (obj [("symbol", text "uk_security"); ("args", JArr []); ("ok", JBool false); ("detail", JStr detail)]%string)].
Definition conn_trail (b : Bounds) (want : Z) (peer : option Z) (c : list bytes) (w w' : world) (r : option bytes) : Prop :=
  if bool_decide (want = 0 ∨ peer = Some want) then
    match request_of c with
    | None => r = None ∧ w_log w' = w_log w
    | Some (None, _) => r = Some (error_response 4000 None (str "bad path")) ∧ w_log w' = w_log w
    | Some (Some sym, body) =>
        if bool_decide (sym = str "uk_action_submit" ∧ bd_mode b = ModuleHost.Disabled) then
          host_entry w w' ∧ ∃ message, r = Some (error_response 4004 None message)
        else ∃ resp, r = Some resp ∧ call_trail None b sym body (put_thread no_ctx w) w' resp
    end
  else host_entry w w' ∧ r = Some forbidden.

(** C17. What the audit trail holds of the calls. A call for the module or for a
    sub-agent that is answered, granted or denied, leaves one entry and that
    entry last, made under the name and grants of the module or of the very agent
    its handle names, whose flag says whether the answer is a result or an error;
    the thread's identity is cleared. A body that is no array is refused with
    4000 and leaves no entry. Of the connections, a stranger's and a submission
    while the gatekeeper is disabled leave one entry of the host, which names no
    caller; a request without a path leaves none. *)
Theorem loopback_audited :
  (∀ handle b sym body (w w' : world) resp,
    loopback_as handle b sym body w = (w', Ok resp) → call_trail handle b sym body w w' resp) ∧
  (∀ b want peer c (w w' : world) r,
    accept_conn late b want peer c w = (w', Ok r) → conn_trail b want peer c w w' r).
Proof.
  split; [exact call_audited|]. intros b want peer c w w' r. unfold accept_conn, conn_trail.
  assert (negb (want =? 0) && bool_decide (peer ≠ Some want) = negb (bool_decide (want = 0 ∨ peer = Some want))) as ->.
  { destruct (Z.eqb_spec want 0); cbn; [by rewrite bool_decide_eq_true_2 by by left|]. rewrite bool_decide_not. f_equal. by apply bool_decide_ext; intuition. }
  case_bool_decide; cbn [negb]. 2:{ intros [= <- <-]. split; [by eexists|done]. }
  unfold handle_loopback_conn, request_of. destruct (read_head c []) as [[request rest]|]; [|by intros [= <- <-]].
  cbn [mbind option_bind]. destruct (default _ _) as [head after]. unfold mbind, stm_bind, answer_request.
  destruct (symbol_of head) as [sym|]; [|by intros [= <- <-]].
  assert (negb (gatekeeper_mode_allows_side_effect (bd_mode b) sym) = bool_decide (sym = str "uk_action_submit" ∧ bd_mode b = ModuleHost.Disabled)) as ->.
  { unfold gatekeeper_mode_allows_side_effect. destruct (decide (sym = str "uk_action_submit")) as [Hs|Hs].
    - rewrite bool_decide_eq_false_2 by tauto. destruct (bd_mode b); cbn; symmetry; [by apply bool_decide_eq_false_2; intros []..|by apply bool_decide_eq_true_2].
    - rewrite bool_decide_eq_true_2 by done. rewrite bool_decide_eq_false_2 by tauto. done. }
  case_bool_decide. { intros [= <- <-]. split; [by eexists|by eexists]. }
  match goal with |- context [dispatch_loopback_as_with_max_ms _ _ _ _ _ _ _ _ _ _ _ ?bd] => set (body := bd) end.
  change (dispatch_loopback_as_with_max_ms _ _ _ _ _ _ _ _ _ _ _ body) with (loopback_as None b sym body).
  destruct (loopback_as None b sym body (put_thread no_ctx w)) as [w1 [resp|[]|]] eqn:El; [|done]. intros [= <- <-]. exists resp. split; [done|].
  by apply call_audited.
Qed.

(** What admits a call of an agent: its recorded bounds, but for the network,
    where it is the allowlist of the module. *)
Definition agent_grant (bounds : GrantSet) (net : list bytes) (sym : bytes) (args : list json) : Prop :=
  sym = str "uk_action_submit" ∧ first_field args "effect" ∈ gs_effects bounds ∨
  sym = str "uk_fetch" ∧ egress_allowed (fetch_host (first_field args "url")) net = true ∨
  sym ≠ str "uk_action_submit" ∧ sym ≠ str "uk_fetch" ∧ sym ∈ gs_kernel bounds.
Lemma granted_agent bounds id net sym args : granted (agent bounds id) net sym args → agent_grant bounds net sym args.
Proof. unfold granted, agent_grant. destruct (decide _); [by left|]. destruct (decide _); right; [by left|by right]. Qed.

(** C31. A call made for a sub-agent reads the agent's recorded bounds and then
    does only what those bounds admit: an effect or a kernel symbol of theirs,
    whatever the module holds. The one exception is [uk_fetch], which the
    module's own network allowlist admits, so an agent without any bounds can
    contact the hosts of its module, and none if the module has none. For an
    unknown or stopped agent nothing happens but that read and the audit entry. *)
Theorem agent_bounded handle b sym body (w : world) :
  extends (λ e, silent e → bounds_read (w_thread w) handle e ∨
    ∃ bounds id w1 args, ffi_agent_bounds handle w = (w1, Ok (Some (bounds, id))) ∧ json_from_slice body = Some (JArr args) ∧
      agent_grant bounds (bd_net b) sym args ∧ permitted_call (agent bounds id) (bd_net b) (w_kernel w1) sym args e)
    w (loopback_as (Some handle) b sym body w).1.
Proof.
  unfold loopback_as, dispatch_loopback_as_with_max_ms. destruct (json_from_slice body) as [v|]; [|apply extends_refl].
  destruct v as [| | | | |args|]; try apply extends_refl. cbn [mbind option_bind as_array]. unfold mbind, stm_bind.
  destruct (acts_bounds (w_thread w) handle w eq_refl) as [Ht Hx].
  destruct (ffi_agent_bounds handle w) as [w1 r] eqn:Eb. cbn [fst] in *.
  etrans; [eapply extends_mono; [|exact Hx]; intros e He _; by left|].
  destruct r as [[[bounds id]|]|[]|]; [| |apply extends_refl].
  - eapply extends_mono, answered_permitted, run_answered. intros e He Hs. right. exists bounds, id, w1, args. split_and!; [done..| |done].
    eapply granted_agent. destruct e; cbn in He; [apply He..|done].
  - eexists [_]. split; [reflexivity|]. by constructor.
Qed.

(** ** Listeners that all run *)
Fixpoint flows (ls : list (SymbolListener (K:=K))) (ev : SymbolEvent) : stm world Empty_set (list Flow) :=
  match ls with
  | [] => mret []
  | l :: ls => flow ← on_symbol l ev (mret Next); rest ← flows ls ev; mret (flow :: rest)
  end.
(** In the parallel mode the outcome is the most restrictive of the flows of
    all listeners. *)
Lemma parallel_most_restrictive ls ev o (w w' : world) f : parallel ls ev o w = (w', Ok f) →
  ∃ fs, flows ls ev w = (w', Ok fs) ∧ f ∈ o :: fs ∧ Forall (λ g, flow_rank g ≤ flow_rank f) (o :: fs).
Proof.
  revert o w. induction ls as [|l ls IH]; intros o w; cbn [parallel flows].
  - intros [= <- <-]. exists []. split; [done|]. split; [by left|]. by repeat constructor.
  - unfold mbind, stm_bind. destruct (on_symbol l ev _ w) as [w1 [g|[]|]]; [|done].
    intros (fs & Ef & Hin & Hall)%IH. rewrite Ef. exists (g :: fs). split; [done|].
    apply Forall_cons in Hall as [Hle Hall]. destruct (flow_rank o <? flow_rank g) eqn:E.
    + split; [set_solver|]. repeat constructor; [lia|lia|done].
    + split; [set_solver|]. repeat constructor; [lia|lia|done].
Qed.

(** ** Reading a buffer *)
Section buffer.
(** The documented protocol: a store holds a payload or fails; a probe answers
    the length, a read with room for [c] bytes also copies up to [c] of them. *)
Context (payload : thread_ctx → bytes → list ffi_arg → K → option bytes).
Definition probe_then_copy : Prop := ∀ th name args cap k,
  let '(n, written) := (uk_read th name args cap k).2 in
  match payload th name args k with
  | Some p => n = Zlen p ∧ written = match cap with Some c => take (Z.to_nat c) p | None => [] end
  | None => n < 0
  end.
(** Other threads may change the store between two reads. *)
Definition next_read (th : thread_ctx) (name : bytes) (args : list ffi_arg) (k k' : K) : Prop := ∃ cap, k' = (uk_read th name args cap k).1.
Definition held (th : thread_ctx) (name : bytes) (args : list ffi_arg) (k : K) (p : bytes) : Prop :=
  ∃ k', rtc (next_read th name args) k k' ∧ payload th name args k' = Some p.

Context (Hprotocol : probe_then_copy) (name : bytes) (args : list ffi_arg) (finish : bytes → stm world (Z * bytes) json).
Lemma filled_whole p : filled (Zlen p) (take (Z.to_nat (Zlen p)) p) = p.
Proof.
  unfold filled. replace (Z.to_nat (Zlen p)) with (length p) by lia. rewrite firstn_all. apply take_app_length.
Qed.
Lemma failed_not n (w w' : world) v : buf_failed n w ≠ (w', Ok v).
Proof.
  unfold buf_failed, mbind, stm_bind. destruct (neg_code n w) as [w1 [c|e|]]; [|done..].
  by destruct (read_last_error w1) as [w2 [m|e|]].
Qed.
Lemma call_next n cap (w : world) r w1 : call_buf n args cap w = (w1, Ok r) →
  w_thread w1 = w_thread w ∧ next_read (w_thread w) n args (w_kernel w) (w_kernel w1) ∧ (uk_read (w_thread w) n args cap (w_kernel w)).2 = r.
Proof. unfold call_buf. destruct (uk_read _ _ _ _ _) as [k r'] eqn:E. intros [= <- <-]. split; [done|]. split; [by exists cap; rewrite E|done]. Qed.
(** A result of the loop is the whole payload of one moment. *)
Lemma loop_consistent k needed (w w' : world) v : buf_loop k finish name args needed w = (w', Ok v) →
  ∃ p w1, held (w_thread w) name args (w_kernel w) p ∧ finish p w1 = (w', Ok v).
Proof.
  revert needed w. induction k as [|k IH]; intros needed w; cbn [buf_loop]; [done|]. unfold mbind, stm_bind.
  destruct (call_buf name args (Some needed) w) as [w1 [[n written]|e|]] eqn:Ec; [|done..].
  apply call_next in Ec as (Ht & Hn & Hr). pose proof (Hprotocol (w_thread w) name args (Some needed) (w_kernel w)) as Hp. rewrite Hr in Hp. cbn in Hp.
  destruct (n <? 0) eqn:E0; [by intros ?%failed_not|]. destruct (payload _ _ _ _) as [p|] eqn:Ep; [destruct Hp as [-> ->]|lia].
  destruct (Zlen p =? needed) eqn:En.
  - apply Z.eqb_eq in En as <-. rewrite filled_whole. intros Hf. exists p, w1. split; [|done]. by exists (w_kernel w).
  - intros (p' & w2 & (k' & Hk & Hh) & Hf)%IH. rewrite Ht in Hk, Hh. exists p', w2. split; [|done]. exists k'. split; [by eapply rtc_l|done].
Qed.
Lemma read_consistent (w w' : world) v : buf_read finish name args w = (w', Ok v) →
  (v = JStr [] ∧ held (w_thread w) name args (w_kernel w) []) ∨
  ∃ p w1, held (w_thread w) name args (w_kernel w) p ∧ finish p w1 = (w', Ok v).
Proof.
  unfold buf_read, mbind, stm_bind. destruct (call_buf name args None w) as [w1 [[n written]|e|]] eqn:Ec; [|done..].
  apply call_next in Ec as (Ht & Hn & Hr). pose proof (Hprotocol (w_thread w) name args None (w_kernel w)) as Hp. rewrite Hr in Hp. cbn in Hp.
  destruct (n <? 0) eqn:E0; [by intros ?%failed_not|]. destruct (payload _ _ _ _) as [p|] eqn:Ep; [destruct Hp as [-> _]|lia].
  destruct (Zlen p =? 0) eqn:En.
  - intros [= <- <-]. left. split; [done|]. exists (w_kernel w). split; [done|]. by destruct p.
  - intros (p' & w2 & (k' & Hk & Hh) & Hf)%loop_consistent. rewrite Ht in Hk, Hh. right. exists p', w2. split; [|done]. exists k'. split; [by eapply rtc_l|done].
Qed.
End buffer.

(** C30. However other threads change a store while it is read, a text read
    from it is the whole payload the store held at one moment, neither truncated
    nor padded, and raw bytes are that payload in hexadecimal digits. *)
Theorem buf_out_consistent payload name args (w w' : world) v : probe_then_copy payload →
  let whole p := held payload (w_thread w) name args (w_kernel w) p in
  (buf_out name args w = (w', Ok v) → ∃ p, whole p ∧ v = JStr p) ∧
  (buf_out_raw name args w = (w', Ok v) → ∃ p, whole p ∧ (v = JStr (hex_encode p) ∨ p = [] ∧ v = JStr [])).
Proof.
  intros Hp whole. split; intros [[-> Hh]|(p & w1 & Hh & Hf)]%(read_consistent payload Hp); [by exists []| |by exists []; auto|].
  - unfold finish_text in Hf. destruct (utf8_valid p); [|done]. injection Hf as _ <-. by exists p.
  - injection Hf as _ <-. exists p. auto.
Qed.
End safe.
End EcmaSafe.
