(* ===== verification/Sidecar.v ===== *)
(** * The supervisor of a sidecar ([cranelift/src/ecma.rs])

    Where the runtime is looked for, what a sidecar is started with, the wait
    for its socket, the thread that restarts it, the calls made to it, and its
    end. The supervising thread and the owner run at the same time: their steps
    on the shared slot, the quit flag and the expected process are a step
    relation. *)

From S2P Require Import Prelude Text RefiUtil RefiJson Jit ModuleHost Ecma.
Import RefiUtil RefiJson.

Module Sidecar.

(** ** The machine *)
Record SandboxProfile := { sp_writable_dirs : list bytes; sp_readable_dirs : list bytes; sp_memory_max_bytes : option Z }.
(** A command line, in the OS sandbox or not. *)
Record Launch := { la_bin : bytes; la_args : list bytes; la_sandbox : option SandboxProfile }.

Class Os (X : Type) := {
  env_var : bytes → X → option bytes;
  exists_path : bytes → X → bool;
  is_file : bytes → X → bool;
  file_mode : bytes → X → option Z;
  dir_paths : bytes → X → option (list bytes);
  canonicalize : bytes → X → option bytes;
  sandbox_supported : X → bool;
  create_dir_all : bytes → stm X bytes ();
  copy : bytes → bytes → stm X bytes ();
  write : bytes → bytes → stm X bytes ();
  remove_file : bytes → X → X;
  remove_dir_all : bytes → X → X;
  bind_socket : bytes → stm X bytes ();
  set_nonblocking : bytes → stm X bytes ();
  launch : Launch → stm X bytes Z;
  kill : Z → X → X
}.

(** ** Finding the runtime *)
Record WorkerdPaths := { wp_bin : bytes; wp_import_dir : bytes }.
Section paths.
Context {X : Type} `{Os X}.
Definition is_executable (x : X) (p : bytes) : bool :=
  is_file p x && match file_mode p x with Some m => negb (Z.land m 0x49 =? 0) | None => false end.
Definition find_on_path (name : bytes) (x : X) : option bytes :=
  path ← env_var (str "PATH") x;
  head (filter (λ p, is_executable x p = true) ((λ dir, path_join dir name) <$> split (z2b 58) path)).
Definition FNM_WORKERD : bytes := str "installation/lib/node_modules/workerd/bin/workerd".
(** Paths in one directory compare by their bytes. *)
Definition find_in_fnm (x : X) : option bytes :=
  home ← env_var (str "HOME") x;
  versions ← dir_paths (path_join home (str ".local/share/fnm/node-versions")) x;
  head (filter (λ p, is_file p x = true) ((λ v, path_join v FNM_WORKERD) <$> reverse (merge_sort digest_le versions))).
Definition resolve_workerd_bin (x : X) : res bytes bytes :=
  match env_var (str "UNFER_WORKERD") x with
  | Some p => if exists_path p x then Ok p else Err (str "workerd binary not found: " ++ p)
  | None =>
      match find_on_path (str "workerd") x with
      | Some p => Ok p
      | None => match find_in_fnm x with
                | Some p => Ok p
                | None => Err (str "ecmascript module requires the workerd runtime; set UNFER_WORKERD to its path, install it via `npm install -g workerd`, or put it on $PATH")
                end
      end
  end.
Definition CAPNP : bytes := str "workerd.capnp".
Definition package_dir (bin : bytes) (x : X) : bytes := default [] (path_parent (default bin (canonicalize bin x)) ≫= path_parent).
Definition from_env (x : X) : res bytes WorkerdPaths :=
  bin ← resolve_workerd_bin x;
  import_dir ← (match env_var (str "UNFER_WORKERD_IMPORT") x with
                | Some d => Ok d
                | None => if exists_path (path_join (package_dir bin x) CAPNP) x then Ok (package_dir bin x)
                          else Err (str "cannot locate workerd.capnp; set UNFER_WORKERD_IMPORT to its directory")
                end);
  if exists_path (path_join import_dir CAPNP) x then Ok {| wp_bin := bin; wp_import_dir := import_dir |}
  else Err (str "workerd.capnp not found in " ++ import_dir).
End paths.

(** ** Starting *)
Record EcmaSidecar := {
  es_pid : Z; es_main_sock : bytes; es_loopback : bytes; es_bounds : Ecma.Bounds; es_staging : bytes; es_launch : Launch;
  es_module_name : bytes; es_call_deadline : Z; es_memory_max_bytes : option Z
}.
(** One round of the wait for the socket: what the process's status, its
    error output, the socket and the clock say. *)
Record Round := { rd_wait : res bytes (option bytes); rd_stderr : option bytes; rd_connect : bool; rd_late : bool }.
Fixpoint wait_ready (rounds : list Round) : option (res bytes ()) :=
  match rounds with
  | [] => None
  | r :: rounds =>
      match rd_wait r with
      | Err e => Some (Err (str "wait: " ++ e))
      | Panic => Some Panic
      | Ok (Some status) =>
          Some (Err (str "workerd exited early with " ++ match rd_stderr r with Some e => status ++ [LF] ++ str "stderr:" ++ [LF] ++ e | None => status end))
      | Ok None =>
          if rd_connect r then Some (Ok ())
          else if rd_late r then Some (Err (str "timed out waiting for workerd socket")) else wait_ready rounds
      end
  end.

Section spawn.
Context {X : Type} `{Os X}.
(** The [sandbox] feature, and the text of the worker's entry. *)
Variable sandbox : bool.
Variable harness_source : bytes.

Definition out_or {A} (prefix : bytes) (m : stm X bytes A) : stm X bytes A := λ x,
  match m x with (x, Err e) => (x, Err (prefix ++ e)) | r => r end.
Definition attempt {A} (m : stm X bytes A) : stm X bytes (option A) := λ x,
  match m x with (x, Ok a) => (x, Ok (Some a)) | (x, Err _) => (x, Ok None) | (x, Panic) => (x, Panic) end.

Definition bounds_of (m : ModuleHost.ModuleManifest) : Ecma.Bounds := {|
  Ecma.bd_module := ModuleHost.mm_name m; Ecma.bd_grants := ModuleHost.mm_grants m; Ecma.bd_effects := ModuleHost.mm_effects m;
  Ecma.bd_observers := ModuleHost.mm_observers m; Ecma.bd_net := ModuleHost.mm_net_grants m; Ecma.bd_resources := ModuleHost.mm_resources m;
  Ecma.bd_effect_kinds := ModuleHost.mm_effect_kinds m; Ecma.bd_mode := ModuleHost.mm_gatekeeper_mode m; Ecma.bd_max_ms := ModuleHost.mm_max_ms m
|}.
(** [KernelLoopback::start], up to its thread. *)
Definition loopback_start (sock : bytes) : stm X bytes () :=
  _ ← (λ x, (remove_file sock x, Ok ()));
  _ ← out_or (str "loopback bind: ") (bind_socket sock);
  out_or (str "loopback nonblocking: ") (set_nonblocking sock).
(** A loopback whose owner fails is dropped, and its socket with it. *)
Definition with_loopback {A} (sock : bytes) (rest : stm X bytes A) : stm X bytes A := λ x,
  match rest x with (x, Err e) => (remove_file sock x, Err e) | r => r end.

Definition system_dirs : list bytes :=
  str <$> ["/lib"; "/lib64"; "/usr/lib"; "/etc"; "/nix/store"; "/run/current-system"; "/proc"; "/dev"]%string.
Definition profile_of (dir staging : bytes) (m : ModuleHost.ModuleManifest) (paths : WorkerdPaths) (x : X) : SandboxProfile := {|
  sp_writable_dirs := [staging; dir] ++ (path_join dir <$> ModuleHost.mm_fs_grants m);
  sp_readable_dirs := [wp_import_dir paths; default (str "/") (path_parent (wp_bin paths))] ++ system_dirs ++
    match canonicalize (wp_bin paths) x ≫= path_parent with Some p => [p] | None => [] end;
  sp_memory_max_bytes := ModuleHost.mm_memory_max_bytes m
|}.
Definition launch_of (dir staging : bytes) (m : ModuleHost.ModuleManifest) (paths : WorkerdPaths) (x : X) : Launch := {|
  la_bin := wp_bin paths;
  la_args := [str "serve"; path_join staging (str "config.capnp"); str "-I"; wp_import_dir paths];
  la_sandbox := if sandbox && sandbox_supported x then Some (profile_of dir staging m paths x) else None
|}.
Definition make_child (l : Launch) : stm X bytes Z := λ x,
  let kind := match la_sandbox l with Some _ => str "spawn sandboxed workerd: " | None => str "spawn workerd: " end in
  match launch l x with (x, Err e) => (x, Err (kind ++ e ++ str " (bin=" ++ la_bin l ++ str ")")) | r => r end.
Definition apply_memory_cgroup (pid : Z) (memory_max_bytes : option Z) : stm X bytes () :=
  match memory_max_bytes with
  | None => mret ()
  | Some n =>
      if n =? 0 then mret ()
      else
        let dir := str "/sys/fs/cgroup/unfer-" ++ dec pid in
        made ← attempt (create_dir_all dir);
        match made with
        | None => mret ()
        | Some _ =>
            _ ← attempt (write (path_join dir (str "memory.max")) (dec n));
            _ ← attempt (write (path_join dir (str "cgroup.procs")) (dec pid));
            mret ()
        end
  end.

(** After the loopback: the files, and the first child. *)
Definition spawn_child (dir staging : bytes) (m : ModuleHost.ModuleManifest) (paths : WorkerdPaths) : stm X bytes EcmaSidecar :=
  let loopback_sock := path_join staging (str "kernel-loopback.sock") in
  _ ← out_or (str "write harness: ") (write (path_join staging (str "harness.mjs")) harness_source);
  let main_sock := path_join staging (str "main.sock") in
  _ ← out_or (str "write config: ") (write (path_join staging (str "config.capnp")) (Ecma.config_source m loopback_sock main_sock));
  l ← (λ x, (x, Ok (launch_of dir staging m paths x)));
  pid ← make_child l;
  _ ← apply_memory_cgroup pid (ModuleHost.mm_memory_max_bytes m);
  mret {| es_pid := pid; es_main_sock := main_sock; es_loopback := loopback_sock; es_bounds := bounds_of m; es_staging := staging; es_launch := l;
          es_module_name := ModuleHost.mm_name m; es_call_deadline := default 5000 (ModuleHost.mm_max_ms m);
          es_memory_max_bytes := ModuleHost.mm_memory_max_bytes m |}.
(** [drop] on the machine: the child [pid] of the slot, the staging directory,
    then the loopback. *)
Definition drop_files (s : EcmaSidecar) (pid : option Z) (x : X) : X :=
  let x := match pid with Some pid => kill pid x | None => x end in
  remove_file (es_loopback s) (remove_dir_all (es_staging s) x).
(** [None]: the wait has not ended within the rounds. *)
Definition await (rounds : list Round) (s : EcmaSidecar) : stm X bytes (option EcmaSidecar) := λ x,
  match wait_ready rounds with
  | None => (x, Ok None)
  | Some (Ok _) => (x, Ok (Some s))
  | Some (Err e) => (drop_files s (Some (es_pid s)) x, Err e)
  | Some Panic => (x, Panic)
  end.
Definition spawn (dir staging : bytes) (m : ModuleHost.ModuleManifest) (paths : WorkerdPaths) (rounds : list Round) : stm X bytes (option EcmaSidecar) :=
  _ ← out_or (str "staging dir: ") (create_dir_all staging);
  let entry_file := path_join dir (ModuleHost.mm_entry m) in
  present ← (λ x, (x, Ok (exists_path entry_file x)));
  if negb present then stm_err (str "ecmascript entry not found: " ++ entry_file) else
  _ ← out_or (str "copy entry: ") (copy entry_file (path_join staging (str "module.js")));
  let loopback_sock := path_join staging (str "kernel-loopback.sock") in
  _ ← loopback_start loopback_sock;
  s ← with_loopback loopback_sock (spawn_child dir staging m paths);
  await rounds s.
End spawn.

(** ** Supervision

    The owner, the supervising thread and the processes. The thread is
    asleep; has seen no request to quit; has seen the child dead; or holds a new
    child that is not in the slot yet. *)
Inductive Supervisor := Sleeping | Polling | Down | Spawned (pid : Z) | Returned.
Inductive Owner := Using | Quitting | Dropped.
Record state := State {
  st_slot : option Z; st_quit : bool; st_expected : Z; st_backoff : Z; st_supervisor : Supervisor; st_owner : Owner;
  st_procs : gset Z; st_audit : list (bytes * bool)
}.
Definition put_supervisor (s : Supervisor) (st : state) : state :=
  State (st_slot st) (st_quit st) (st_expected st) (st_backoff st) s (st_owner st) (st_procs st) (st_audit st).
Definition sleep_for (backoff : Z) (st : state) : state :=
  State (st_slot st) (st_quit st) (st_expected st) backoff Sleeping (st_owner st) (st_procs st) (st_audit st).
Definition put_slot (slot : option Z) (st : state) : state :=
  State slot (st_quit st) (st_expected st) (st_backoff st) (st_supervisor st) (st_owner st) (st_procs st) (st_audit st).
Definition put_procs (procs : gset Z) (st : state) : state :=
  State (st_slot st) (st_quit st) (st_expected st) (st_backoff st) (st_supervisor st) (st_owner st) procs (st_audit st).
Definition host_audit (message : bytes) (ok : bool) (st : state) : state :=
  State (st_slot st) (st_quit st) (st_expected st) (st_backoff st) (st_supervisor st) (st_owner st) (st_procs st) (st_audit st ++ [(message, ok)]).

Section supervise.
Variable module_name : bytes.
Definition named (what : String.string) : bytes := str what ++ str " module='" ++ module_name ++ str "'".

(** [try_wait] on the child of the slot. *)
Definition exited (st : state) : bool := match st_slot st with Some pid => bool_decide (pid ∉ st_procs st) | None => false end.
(** After the sleep. *)
Definition wake (st : state) : state := put_supervisor (if st_quit st then Returned else Polling) st.
Definition poll (st : state) : state := if exited st then put_supervisor Down st else sleep_for 100 st.
(** [make_child] gave a process or an error. *)
Definition respawn (made : res bytes Z) (st : state) : state :=
  let st := host_audit (named "KERNEL_DOWN") false st in
  match made with
  | Ok pid => put_supervisor (Spawned pid) (put_procs ({[ pid ]} ∪ st_procs st) st)
  | Err e => sleep_for (Z.min (st_backoff st * 2) 8000) (host_audit (named "RESPAWN_FAILED" ++ str ": " ++ e) false st)
  | Panic => put_supervisor Returned st
  end.
Definition install (pid : Z) (st : state) : state :=
  sleep_for 1000 (host_audit (named "KERNEL_HEALED") true (put_slot (Some pid) st)).

(** One turn of the loop, with nothing in between. *)
Definition turn (made : res bytes Z) (st : state) : state :=
  let st := wake st in
  match st_supervisor st with
  | Polling =>
      let st := poll st in
      match st_supervisor st with
      | Down => let st := respawn made st in match st_supervisor st with Spawned pid => install pid st | _ => st end
      | _ => st
      end
  | _ => st
  end.

(** [spawn_with_supervisor] *)
Definition supervised (pid : Z) : state := State (Some pid) false pid 100 Sleeping Using {[ pid ]} [].
(** [arm_loopback_peer] *)
Definition arm_loopback_peer (pid : Z) (st : state) : state :=
  State (st_slot st) (st_quit st) pid (st_backoff st) (st_supervisor st) (st_owner st) (st_procs st) (st_audit st).
Definition child_pid (st : state) : Z := default 0 (st_slot st).
Definition kill_child (st : state) : state := match st_slot st with Some pid => put_procs (st_procs st ∖ {[ pid ]}) st | None => st end.
(** [drop]: the flag, then the child and its slot. *)
Definition drop_quit (st : state) : state :=
  State (st_slot st) true (st_expected st) (st_backoff st) (st_supervisor st) Quitting (st_procs st) (st_audit st).
Definition drop_child (st : state) : state :=
  let st := put_slot None (kill_child st) in
  State (st_slot st) (st_quit st) (st_expected st) (st_backoff st) (st_supervisor st) Dropped (st_procs st) (st_audit st).

Inductive step : state → state → Prop :=
| step_exit pid st : step st (put_procs (st_procs st ∖ {[ pid ]}) st)
| step_wake st : st_supervisor st = Sleeping → step st (wake st)
| step_poll st : st_supervisor st = Polling → step st (poll st)
| step_respawn made st : st_supervisor st = Down → (∀ pid, made = Ok pid → pid ∉ st_procs st) → step st (respawn made st)
| step_install pid st : st_supervisor st = Spawned pid → step st (install pid st)
| step_kill st : st_owner st = Using → step st (kill_child st)
| step_quit st : st_owner st = Using → step st (drop_quit st)
| step_drop st : st_owner st = Quitting → step st (drop_child st).
End supervise.

(** ** Calling a sidecar *)
Inductive unix_result := RefusedConnect (e : bytes) | RefusedTimeout (e : bytes) | RefusedSend (e : bytes) | RefusedRecv (e : bytes) | Reply (b : bytes).
(** What [POST path] gives; the text of a reply without an end of its head is
    cut at 200 bytes, which panics inside a character. *)
Definition request_text (path body : bytes) : bytes :=
  str "POST " ++ path ++ str " HTTP/1.1" ++ CRLF ++ str "Host: unix" ++ CRLF ++ str "Content-Type: application/json" ++ CRLF ++
  str "Content-Length: " ++ dec (Zlen body) ++ CRLF ++ str "Connection: close" ++ CRLF ++ CRLF ++ body.
Definition http_post (exchange : bytes → unix_result) (sock path body : bytes) : res bytes bytes :=
  match exchange (request_text path body) with
  | RefusedConnect e => Err (str "connect " ++ sock ++ str ": " ++ e)
  | RefusedTimeout e => Err (str "timeout: " ++ e)
  | RefusedSend e => Err (str "send: " ++ e)
  | RefusedRecv e => Err (str "recv: " ++ e)
  | Reply b =>
      let response := from_utf8_lossy b in
      match split_once (CRLF ++ CRLF) response with
      | Some (_, body) => Ok body
      | None =>
          let n := Z.min (Zlen response) 200 in
          if is_char_boundary response n then Err (str "bad HTTP response: " ++ take (Z.to_nat n) response) else Panic
      end
  end.
Definition contains (s needle : bytes) : bool := bool_decide (is_Some (split_once needle s)).
Definition deadline_hit (e : bytes) : bool :=
  contains e (str "recv") && (contains e (str "timeout") || contains e (str "unavailable")).
Section call.
(** The [Debug] form of a string. *)
Variable debug_str : bytes → bytes.
Definition call_body (entrypoint args_json : bytes) : bytes :=
  str "{" ++ Ecma.quoted "`entrypoint`:" ++ debug_str entrypoint ++ Ecma.quoted ",`args`:" ++ args_json ++ str "}".
Definition call (s : EcmaSidecar) (exchange : bytes → unix_result) (entrypoint args_json : bytes) (st : state) : state * res bytes bytes :=
  let result := http_post exchange (es_main_sock s) (str "/unfer/call") (call_body entrypoint args_json) in
  match result with
  | Err e => (if deadline_hit e then kill_child (host_audit (named (es_module_name s) "CALL_DEADLINE" ++ str ": " ++ e) false st) else st, result)
  | _ => (st, result)
  end.
End call.
End Sidecar.
