(* ===== verification/SidecarSafe.v ===== *)
(** * The supervision of a sidecar is right, and where it is not
    ([cranelift/src/ecma.rs])

    At most one process runs, the pauses stay within bounds, a dead child is
    replaced as soon as one can be started; but a replacement is not the process
    the loopback expects, and one started during the drop outlives its owner. *)

From S2P Require Import Prelude Text RefiUtil RefiJson ModuleHost Ecma EcmaSafe Sidecar.
Import RefiUtil RefiJson Ecma Sidecar.

Module SidecarSafe.

Section safe.
Variable module_name : bytes.
Local Abbreviation step := (step module_name).
Local Abbreviation turn := (turn module_name).

(** ** What holds in every reachable state *)
Definition slot_set (st : state) : gset Z := match st_slot st with Some pid => {[ pid ]} | None => ∅ end.
(** The processes the thread and the slot account for. *)
Definition accounted (st : state) : Prop :=
  match st_supervisor st with Down => st_procs st = ∅ | Spawned pid => st_procs st ⊆ {[ pid ]} | _ => st_procs st ⊆ slot_set st end.
Record sound (first : Z) (st : state) : Prop := {
  so_expected : st_expected st = first;
  so_backoff : 100 ≤ st_backoff st ≤ 8000;
  so_procs : accounted st
}.
Lemma accounted_one st : accounted st → (size (st_procs st) ≤ 1)%nat.
Proof.
  assert (∀ X pid, X ⊆ ({[ pid ]} : gset Z) → (size X ≤ 1)%nat) as Hs.
  { intros X pid Hx. apply subseteq_size in Hx. by rewrite size_singleton in Hx. }
  unfold accounted, slot_set. destruct (st_supervisor st); [| |intros ->; rewrite size_empty; lia|apply Hs|];
    (destruct (st_slot st); [apply Hs|intros Hx; apply subseteq_size in Hx; rewrite size_empty in Hx; lia]).
Qed.
Lemma exited_none st : accounted st → st_supervisor st = Polling → exited st = true → st_procs st = ∅.
Proof.
  unfold accounted, exited, slot_set. intros Ha Hs. rewrite Hs in Ha. destruct (st_slot st) as [pid|]; [|done].
  intros Hn%bool_decide_eq_true. set_solver.
Qed.
Lemma accounted_sub st procs : procs ⊆ st_procs st → accounted st → accounted (put_procs procs st).
Proof. unfold accounted, slot_set. cbn. destruct (st_supervisor st); set_solver. Qed.
Lemma kill_sub st : ∃ procs, procs ⊆ st_procs st ∧ kill_child st = put_procs procs st ∧ procs ∩ slot_set st = ∅.
Proof.
  unfold kill_child, slot_set. destruct (st_slot st) as [pid|] eqn:E; [exists (st_procs st ∖ {[ pid ]})|exists (st_procs st)]; (split; [set_solver|]);
    (split; [by destruct st|set_solver]).
Qed.
Lemma step_sound first st st' : step st st' → sound first st → sound first st'.
Proof.
  intros Hst [He Hb Ha]. destruct Hst as [pid st|st Hs|st Hs|made st Hs Hfresh|pid st Hs|st Ho|st Ho|st Ho].
  - split; [done..|]. apply accounted_sub; set_solver.
  - split; [done..|]. unfold accounted in *. rewrite Hs in Ha. cbn. by destruct (st_quit st).
  - unfold poll. destruct (exited st) eqn:Ex; (split; [done|cbn; lia|]).
    + unfold accounted. cbn. by apply exited_none.
    + unfold accounted in *. by rewrite Hs in Ha.
  - unfold accounted in Ha. rewrite Hs in Ha. destruct made as [pid|e|]; (split; [done|cbn; lia|]); unfold accounted; cbn; rewrite Ha; set_solver.
  - split; [done|cbn; lia|]. unfold accounted in *. by rewrite Hs in Ha.
  - destruct (kill_sub st) as (procs & Hp & -> & _). split; [done..|]. by apply accounted_sub.
  - by split.
  - destruct (kill_sub st) as (procs & Hp & Hk & Hd). unfold drop_child. rewrite Hk. split; [done..|].
    unfold accounted, slot_set in *. cbn. destruct (st_supervisor st), (st_slot st); set_solver.
Qed.
Lemma supervised_sound first : sound first (supervised first).
Proof. split; [done|cbn; lia|]. cbn. set_solver. Qed.
Lemma reachable_sound first st : rtc step (supervised first) st → sound first st.
Proof. intros Hr. eapply rtc_ind_r with (P := sound first); [apply supervised_sound| |exact Hr]. intros; by eapply step_sound. Qed.

(** C18. In every interleaving of the supervising thread, the owner's kills and
    drop, and processes that end, at most one process of a sidecar runs and the
    thread's pause is between 100 milliseconds and 8 seconds. *)
Theorem single_sidecar first st : rtc step (supervised first) st → (size (st_procs st) ≤ 1)%nat ∧ 100 ≤ st_backoff st ≤ 8000.
Proof. intros [_ Hb Ha]%reachable_sound. split; [by apply accounted_one|done]. Qed.

(** The loopback keeps expecting the first process: every connection of a
    replacement the supervisor started and recorded as healed is refused, and
    calls nothing in the kernel. *)
Theorem healed_refused {K} `{Unfer K, JsonCodec, HexText} late first st pid b c (w : world (K:=K)) :
  rtc step (supervised first) st → first ≠ 0 → st_slot st = Some pid → pid ≠ first →
  let out := accept_conn late b (st_expected st) (Some pid) c w in
  out.2 = Ok (Some forbidden) ∧ EcmaSafe.extends (λ e, ∃ th entry, e = Audited th entry) w out.1.
Proof.
  intros [-> _ _]%reachable_sound Hf Hs Hp. unfold accept_conn. rewrite (proj2 (Z.eqb_neq _ _) Hf), bool_decide_eq_true_2 by congruence.
  split; [done|]. eexists [_]. split; [reflexivity|]. constructor; [by eauto|constructor].
Qed.

(** ** Replacement *)
Definition turns (outcomes : list (res bytes Z)) (st : state) : state := foldl (λ st made, turn made st) st outcomes.
(** The time slept, in milliseconds. *)
Fixpoint slept (outcomes : list (res bytes Z)) (st : state) : Z :=
  match outcomes with [] => 0 | made :: outcomes => st_backoff st + slept outcomes (turn made st) end.
Definition waiting (st : state) : Prop := st_supervisor st = Sleeping ∧ st_quit st = false ∧ exited st = true.
Definition failed (e : bytes) : list (bytes * bool) :=
  [(named module_name "KERNEL_DOWN", false); (named module_name "RESPAWN_FAILED" ++ str ": " ++ e, false)].
Definition healed : list (bytes * bool) := [(named module_name "KERNEL_DOWN", false); (named module_name "KERNEL_HEALED", true)].
Lemma turn_down made st : waiting st →
  turn made st = let st := respawn module_name made (put_supervisor Down (put_supervisor Polling st)) in
                 match st_supervisor st with Spawned pid => install module_name pid st | _ => st end.
Proof.
  intros (Hs & Hq & Hx). unfold turn, wake. rewrite Hq. cbn [st_supervisor put_supervisor]. unfold poll.
  assert (exited (put_supervisor Polling st) = true) as -> by exact Hx. done.
Qed.
Lemma turn_fails e st : waiting st → 100 ≤ st_backoff st →
  waiting (turn (Err e) st) ∧ 100 ≤ st_backoff (turn (Err e) st) ≤ 8000 ∧ st_audit (turn (Err e) st) = st_audit st ++ failed e.
Proof. intros Hw Hb. rewrite turn_down by done. destruct Hw as (_ & Hq & Hx). split; [by split|]. cbn. split; [lia|]. by rewrite <- app_assoc. Qed.

(** C29. When the child has died and nobody quits, the loop keeps trying: after
    any number of failed starts the first start that works puts a running child
    in the slot; every failure and the recovery are recorded in order, and the
    time slept is at most 8 seconds per failure beyond the first pause. *)
Theorem supervise_heals errs pid st : waiting st → 100 ≤ st_backoff st →
  let outcomes := (Err <$> errs) ++ [Ok pid] in let st' := turns outcomes st in
  st_slot st' = Some pid ∧ pid ∈ st_procs st' ∧ st_supervisor st' = Sleeping ∧
  st_audit st' = st_audit st ++ concat (failed <$> errs) ++ healed ∧
  slept outcomes st ≤ st_backoff st + 8000 * Zlen errs.
Proof.
  revert st. induction errs as [|e errs IH]; intros st Hw Hb; cbn [fmap list_fmap app turns foldl slept].
  - rewrite turn_down by done. cbn. split; [done|]. split; [set_solver|]. split; [done|]. split; [by rewrite <- app_assoc|lia].
  - destruct (turn_fails e st Hw Hb) as (Hw' & Hb' & Ha). destruct (IH _ Hw' (proj1 Hb')) as (H1 & H2 & H3 & H4 & H5).
    split; [exact H1|]. split; [exact H2|]. split; [exact H3|]. split; [|cbn [length]; lia].
    unfold turns in H4. rewrite H4, Ha, <- app_assoc. cbn [concat fmap list_fmap]. by rewrite <- app_assoc.
Qed.
(** A turn is a run of the thread's steps. *)
Lemma turn_steps made st : st_supervisor st = Sleeping → (∀ pid, made = Ok pid → pid ∉ st_procs st) → rtc step st (turn made st).
Proof.
  intros Hs Hf. unfold turn. eapply rtc_l; [by apply step_wake|]. destruct (st_supervisor (wake st)) eqn:Ew; try done.
  eapply rtc_l; [by apply step_poll|]. destruct (st_supervisor (poll (wake st))) eqn:Ep; try done.
  assert (st_procs (poll (wake st)) = st_procs st) as Hpr by (unfold poll; by destruct (exited _)).
  eapply rtc_l; [apply (step_respawn _ made); [done|by rewrite Hpr]|].
  destruct (st_supervisor (respawn _ _ _)) eqn:Er; try done. apply rtc_once. by apply step_install.
Qed.

(** ** The drop *)
Definition ended (st : state) : Prop :=
  st_slot st = None ∧ st_procs st = ∅ ∧ st_owner st = Dropped ∧ st_quit st = true ∧
  (st_supervisor st = Sleeping ∨ st_supervisor st = Polling ∨ st_supervisor st = Returned).
Lemma step_ended st st' : step st st' → ended st → ended st'.
Proof.
  intros Hst (Hs & Hp & Ho & Hq & Hsup). unfold ended in *. destruct Hst as [pid st|st E|st E|made st E Hfresh|pid st E|st E|st E|st E]; cbn.
  - rewrite Hp. split; [done|]. split; [set_solver|done].
  - rewrite Hq. naive_solver.
  - unfold poll, exited. rewrite Hs. cbn. naive_solver.
  - destruct Hsup as [|[|]]; congruence.
  - destruct Hsup as [|[|]]; congruence.
  - congruence.
  - congruence.
  - congruence.
Qed.
(** A drop that finds the supervising thread asleep, polling or gone ends the
    child for good: no process of the sidecar runs in any later state. *)
Theorem drop_ends first st st' : rtc step (supervised first) st → st_owner st = Quitting → st_quit st = true →
  (st_supervisor st = Sleeping ∨ st_supervisor st = Polling ∨ st_supervisor st = Returned) →
  rtc step (drop_child st) st' → st_procs st' = ∅.
Proof.
  intros [_ _ Ha]%reachable_sound Ho Hq Hs Hr.
  assert (ended (drop_child st)) as He.
  { destruct (kill_sub st) as (procs & Hp & Hk & Hd). unfold ended, drop_child. rewrite Hk. cbn. split; [done|]. split; [|done].
    unfold accounted in Ha. destruct Hs as [E|[E|E]]; rewrite E in Ha; set_solver. }
  assert (ended st') as (_ & Hp & _); [|done].
  eapply rtc_ind_r with (P := ended); [exact He| |exact Hr]. intros; by eapply step_ended.
Qed.
(** A drop that comes between the thread's look at a dead child and its
    restart leaves a running process behind: the owner is gone, the thread has
    returned, and nothing will end the process. *)
Theorem drop_orphans : ∃ st, rtc step (supervised 1) st ∧ st_owner st = Dropped ∧ st_supervisor st = Returned ∧ st_procs st = {[ 2 ]}.
Proof.
  eexists. split.
  - eapply rtc_l; [apply (step_exit _ 1)|]. eapply rtc_l; [by apply step_wake|]. eapply rtc_l; [by apply step_poll|].
    eapply rtc_l; [by apply step_quit|]. eapply rtc_l; [by apply step_drop|].
    eapply rtc_l; [apply (step_respawn _ (Ok 2)); [by vm_compute|]|].
    { intros pid [= <-]. by vm_compute. }
    eapply rtc_l; [apply (step_install _ 2); by vm_compute|]. eapply rtc_l; [apply step_wake; by vm_compute|]. apply rtc_refl.
  - by vm_compute.
Qed.

(** ** The wait and the calls *)
Lemma wait_ready_ends rounds : Exists (λ r, rd_late r = true) rounds → is_Some (wait_ready rounds).
Proof.
  induction 1 as [r rounds Hl|r rounds _ IH]; cbn; destruct (rd_wait r) as [[st|]|e|]; try by eexists; destruct (rd_connect r).
  - rewrite Hl. by destruct (rd_connect r); eexists.
  - destruct (rd_connect r), (rd_late r); by eauto.
Qed.
Lemma wait_ready_connected rounds : wait_ready rounds = Some (Ok ()) → Exists (λ r, rd_wait r = Ok None ∧ rd_connect r = true) rounds.
Proof.
  induction rounds as [|r rounds IH]; cbn; [done|]. destruct (rd_wait r) as [[st|]|e|] eqn:Ew; [done| |done..].
  destruct (rd_connect r) eqn:Ec; [by left|]. destruct (rd_late r); [done|]. intros ?. right. by apply IH.
Qed.
(** A call that runs past its deadline leaves a child for the loop to replace. *)
Lemma call_kills debug_str s ex entry args st pid e : es_module_name s = module_name → st_slot st = Some pid →
  ex (request_text (str "/unfer/call") (call_body debug_str entry args)) = RefusedRecv e → deadline_hit (str "recv: " ++ e) = true →
  let st' := (call debug_str s ex entry args st).1 in
  exited st' = true ∧ st_audit st' = st_audit st ++ [(named module_name "CALL_DEADLINE" ++ str ": " ++ str "recv: " ++ e, false)].
Proof.
  intros <- Hs Hx Hd. unfold call, http_post. rewrite Hx, Hd. unfold kill_child. cbn [fst]. cbn [st_slot host_audit]. rewrite Hs.
  split; [|done]. unfold exited. cbn. rewrite Hs. apply bool_decide_eq_true_2. set_solver.
Qed.
End safe.

(** ** Witnesses *)
Definition after_exit : state := put_procs ∅ (supervised 5).
Lemma after_exit_step : rtc (step (str "m")) (supervised 5) after_exit.
Proof. apply rtc_once. assert (after_exit = put_procs (st_procs (supervised 5) ∖ {[ 5 ]}) (supervised 5)) as -> by (by vm_compute). apply step_exit. Qed.
Lemma single_sidecar_witness : (size (st_procs after_exit) ≤ 1)%nat ∧ 100 ≤ st_backoff after_exit ≤ 8000.
Proof. apply (single_sidecar (str "m") 5). apply after_exit_step. Defined.
Lemma supervise_heals_witness :
  st_slot (turns (str "m") [Err (str "no memory"); Ok 6] after_exit) = Some 6 ∧
  slept (str "m") [Err (str "no memory"); Ok 6] after_exit ≤ 100 + 8000.
Proof.
  destruct (supervise_heals (str "m") [str "no memory"] 6 after_exit) as (H1 & _ & _ & _ & H2); [by vm_compute|by vm_compute|]. by split.
Defined.
Definition quitting : state := drop_quit (supervised 5).
Lemma drop_ends_witness : st_procs (drop_child quitting) = ∅.
Proof.
  apply (drop_ends (str "m") 5 quitting); [|done|done|by left|apply rtc_refl]. apply rtc_once. by apply step_quit.
Defined.
End SidecarSafe.
