(* ===== verification/EcmaDemo.v ===== *)
(** * A module on a small kernel

    A kernel with one store, a latch and a meter; a module that may read the
    store, ask for one effect and fetch from a local host; and its connections,
    on which the theorems of the loopback are applied; and a machine on which a
    sidecar is looked for and started. *)

From S2P Require Import Prelude Text RefiUtil RefiJson ModuleHost Ecma EcmaSafe Sidecar SidecarSafe.
Import RefiUtil RefiJson Ecma EcmaSafe.

Module EcmaDemo.

(** ** Text *)
Fixpoint show (v : json) : bytes :=
  match v with
  | JNull => str "null"
  | JBool b => str (if b then "true" else "false")
  | JNum n => ModuleHost.dec_i64 n
  | JFloat t => t
  | JStr s => [Byte.x22] ++ s ++ [Byte.x22]
  | JArr l => str "[" ++ concat ((λ v, show v ++ str ",") <$> l) ++ str "]"
  | JObj fs => str "{" ++ concat ((λ '(k, v), k ++ str ":" ++ show v ++ str ",") <$> fs) ++ str "}"
  end.
Definition notify : json := obj [("effect", text "notify"); ("principal", text "root")]%string.
Definition visit : json := obj [("url", text "http://localhost:8080/a?b")]%string.
#[export] Instance toy_json : JsonCodec := {
  json_from_slice b :=
    if bool_decide (b = str "[7]") then Some (JArr [JNum 7])
    else if bool_decide (b = str "[notify]") then Some (JArr [notify])
    else if bool_decide (b = str "[visit]") then Some (JArr [visit]) else None;
  json_to_vec := show
}.
Definition digit (z : Z) : byte := z2b (if z <? 10 then 48 + z else 87 + z).
#[export] Instance toy_hex : HexText := {
  hex_encode b := concat ((λ c, [digit (b2z c / 16); digit (b2z c mod 16)]) <$> b);
  hex_decode b := None
}.

(** ** The kernel: whether the store was read before, the latch, the units
    used, and the submissions *)
Record kernel := Kernel { kn_read : bool; kn_latched : bool; kn_used : Z; kn_submitted : list (option bytes * list ffi_arg) }.
(** The store grows after the first read. *)
Definition kn_store (k : kernel) : bytes := if kn_read k then str "newer text" else str "old".
#[export] Instance toy_unfer : Unfer kernel := {
  uk_call th name args k :=
    if bool_decide (name = str "uk_action_submit") then
      (Kernel (kn_read k) (kn_latched k) (kn_used k) (kn_submitted k ++ [(th_caller th, args)]), 1)
    else (k, -7);
  uk_read _ name _ cap k :=
    (Kernel true (kn_latched k) (kn_used k) (kn_submitted k),
     (Zlen (kn_store k), match cap with Some c => take (Z.to_nat c) (kn_store k) | None => [] end));
  uk_value _ _ _ k := (k, JNum 1);
  uk_audit_append _ _ k := k;
  uk_is_sensitive_latched _ k := kn_latched k;
  uk_meter_consume _ budget _ k :=
    if kn_used k <? budget then (Kernel (kn_read k) (kn_latched k) (kn_used k + 1) (kn_submitted k), 0) else (k, 2);
  posture_is_strict _ := false;
  uk_agent_id h _ := if h =? 3 then Some (str "agent-3") else None;
  tcp_get _ _ k := (k, Received [str "HTTP/1.1 200 OK" ++ CRLF ++ CRLF ++ str "page"] None);
  timeout_ms name := if bool_decide (name = str "uk_evolve") then Some 50 else None;
  effect_kind _ := None;
  grants_json _ := JNull;
  parse_grants _ := Some no_grants;
  utf8_error _ := []; hex_error _ := []
}.
Definition on_time (n : nat) (ms : Z) : bool := false.
Definition start : world (K:=kernel) := World (Kernel false false 0 []) no_ctx 1 0 [].

Definition bounds : Bounds := {|
  bd_module := str "m"; bd_grants := str <$> ["uk_get_result"; "uk_evolve"]%string; bd_effects := [str "notify"]; bd_observers := [];
  bd_net := [str "localhost:8080"]; bd_resources := []; bd_effect_kinds := []; bd_mode := ModuleHost.Enabled; bd_max_ms := None
|}.
Definition post (sym args : String.string) : list bytes :=
  [str "POST /kernel/" ++ str sym ++ str " HTTP/1.1" ++ CRLF ++ str "Content-Length: " ++ dec (Zlen (str args)) ++ CRLF;
   CRLF ++ str args].
Definition serve (b : Bounds) (peer : option Z) (sym args : String.string) (w : world (K:=kernel)) := accept_conn on_time b 9 peer (post sym args) w.
Definition calls (w : world (K:=kernel)) : list bytes :=
  omap (λ e, match e with Called _ n _ => Some n | Fetched h => Some h | _ => None end) (w_log w).
Definition body_of (out : world (K:=kernel) * res Empty_set (option bytes)) : option bytes :=
  match out.2 with Ok (Some r) => snd <$> split_once (CRLF ++ CRLF) r | _ => None end.

(** A granted read passes the store's change; a submission is stamped with the
    module's name; a fetch reaches the local host. *)
Example serve_reads : let out := serve bounds (Some 9) "uk_get_result" "[7]" start in
  calls out.1 = replicate 3 (str "uk_get_result") ∧ body_of out = Some (show (obj [("result"%string, text "newer text")])).
Proof. split; by vm_compute. Qed.
Example serve_submits : let out := serve bounds (Some 9) "uk_action_submit" "[notify]" start in
  snd <$> kn_submitted (w_kernel out.1) = [[ABytes (show (obj [("effect", text "notify"); ("principal", text "m")]%string))]] ∧
  body_of out = Some (show (obj [("result"%string, JNum 1)])).
Proof. split; by vm_compute. Qed.
Example serve_fetches : calls (serve bounds (Some 9) "uk_fetch" "[visit]" start).1 = [str "localhost:8080"].
Proof. by vm_compute. Qed.
(** A stranger, a symbol not granted, and a disabled gatekeeper reach nothing. *)
Example serve_refuses :
  calls (serve bounds (Some 8) "uk_get_result" "[7]" start).1 = [] ∧
  calls (serve bounds (Some 9) "uk_snapshot" "[7]" start).1 = [] ∧
  calls (serve {| bd_module := str "m"; bd_grants := []; bd_effects := [str "notify"]; bd_observers := []; bd_net := []; bd_resources := [];
                  bd_effect_kinds := []; bd_mode := ModuleHost.Disabled; bd_max_ms := None |} (Some 9) "uk_action_submit" "[notify]" start).1 = [].
Proof. by vm_compute. Qed.

(** ** Sub-agents

    The third agent has no bounds, the fourth does not exist. *)
Definition as_agent (h : Z) (sym args : String.string) := loopback_as on_time (Some h) bounds (str sym) (str args) start.
Definition last_caller (w : world (K:=kernel)) : option bytes :=
  e ← last (w_log w); match e with Audited th _ => th_caller th | _ => None end.
(** What the module holds does not help its agents, but for its network. *)
Example agent_denied : calls (as_agent 3 "uk_get_result" "[7]").1 = replicate 3 (str "uk_agent_grants") ∧
  kn_submitted (w_kernel (as_agent 3 "uk_action_submit" "[notify]").1) = [].
Proof. by vm_compute. Qed.
Example agent_fetches : calls (as_agent 3 "uk_fetch" "[visit]").1 = replicate 3 (str "uk_agent_grants") ++ [str "localhost:8080"].
Proof. by vm_compute. Qed.
Example agents_named : last_caller (as_agent 3 "uk_get_result" "[7]").1 = Some (caller_name (agent no_grants (str "agent-3"))) ∧
  last_caller (as_agent 4 "uk_get_result" "[7]").1 = Some (loopback_caller_json "agent" (str "agent-4") no_grants).
Proof. by vm_compute. Qed.
(** A stranger's call and a body that is no array are answered without an entry
    for the module. *)
Example unnamed_answers :
  last_caller (serve bounds (Some 8) "uk_get_result" "[7]" start).1 = None ∧
  w_log (serve bounds (Some 9) "uk_get_result" "{}" start).1 = [] ∧ body_of (serve bounds (Some 9) "uk_get_result" "{}" start) ≠ None.
Proof. vm_compute. done. Qed.

(** ** The theorems applied *)
Definition read_call : world * res Empty_set bytes := loopback_as on_time None bounds (str "uk_get_result") (str "[7]") start.
Lemma loopback_audited_witness :
  call_trail None bounds (str "uk_get_result") (str "[7]") start read_call.1 (match read_call.2 with Ok r => r | _ => [] end) ∧
  conn_trail bounds 9 (Some 8) (post "uk_get_result" "[7]") start (serve bounds (Some 8) "uk_get_result" "[7]" start).1 (Some forbidden).
Proof.
  destruct (loopback_audited on_time) as [Hcall Hconn].
  split; [apply Hcall; by vm_compute|apply (Hconn bounds 9 (Some 8)); by vm_compute].
Defined.

Definition toy_payload (th : thread_ctx) (name : bytes) (args : list ffi_arg) (k : kernel) : option bytes := Some (kn_store k).
Lemma buf_out_consistent_witness :
  ∃ p, held toy_payload no_ctx (str "uk_get_result") [AInt 7] (w_kernel start) p ∧ JStr (str "newer text") = JStr p.
Proof.
  eapply (buf_out_consistent toy_payload (str "uk_get_result") [AInt 7] start); [|by vm_compute].
  intros th name args cap k. by split.
Defined.
Definition replaced : Sidecar.state := SidecarSafe.turns (str "m") [Ok 6] SidecarSafe.after_exit.
Lemma healed_refused_witness : (accept_conn on_time bounds (Sidecar.st_expected replaced) (Some 6) (post "uk_get_result" "[7]") start).2 = Ok (Some forbidden).
Proof.
  apply (SidecarSafe.healed_refused (str "m") on_time 5 replaced 6 bounds (post "uk_get_result" "[7]") start); [|done|by vm_compute|done].
  etrans; [apply SidecarSafe.after_exit_step|]. apply SidecarSafe.turn_steps; [done|]. intros pid [= <-]. by vm_compute.
Defined.

(** ** A machine: its files and what was launched *)
Record machine := Machine { mc_files : list bytes; mc_launched : list Sidecar.Launch }.
#[export] Instance toy_os : Sidecar.Os machine := {
  Sidecar.env_var n _ := if bool_decide (n = str "HOME") then Some (str "/home/u") else None;
  Sidecar.exists_path p x := bool_decide (p ∈ mc_files x);
  Sidecar.is_file p x := bool_decide (p ∈ mc_files x);
  Sidecar.file_mode _ _ := None;
  Sidecar.dir_paths p x := Some (path_join p <$> (str <$> ["v20.1.0"; "v9.11.2"]%string));
  Sidecar.canonicalize p _ := Some p;
  Sidecar.sandbox_supported _ := true;
  Sidecar.create_dir_all _ x := (x, Ok ());
  Sidecar.copy _ b x := (Machine (b :: mc_files x) (mc_launched x), Ok ());
  Sidecar.write p _ x := (Machine (p :: mc_files x) (mc_launched x), Ok ());
  Sidecar.remove_file p x := Machine (filter (λ q, q ≠ p) (mc_files x)) (mc_launched x);
  Sidecar.bind_socket p x := (Machine (p :: mc_files x) (mc_launched x), Ok ());
  Sidecar.set_nonblocking _ x := (x, Ok ());
  Sidecar.remove_dir_all p x := Machine (filter (λ q, strip_prefix p q = None) (mc_files x)) (mc_launched x);
  Sidecar.launch l x := (Machine (mc_files x) (l :: mc_launched x), Ok 9);
  Sidecar.kill _ x := Machine (mc_files x) []
}.
Definition in_version (v : String.string) : bytes :=
  path_join (str "/home/u/.local/share/fnm/node-versions") (path_join (str v) Sidecar.FNM_WORKERD).
(** Versions are compared as text: the ninth is preferred to the twentieth. *)
Example fnm_prefers_v9 : Sidecar.find_in_fnm (Machine [in_version "v20.1.0"; in_version "v9.11.2"] []) = Some (in_version "v9.11.2").
Proof. by vm_compute. Qed.
Example parents :
  path_parent <$> (str <$> ["/pkg/bin/workerd"; "/a"; "a"; "/"; ""; "a//b/."; "./a"]%string) =
  [Some (str "/pkg/bin"); Some (str "/"); Some []; None; None; Some (str "a"); Some (str ".")].
Proof. by vm_compute. Qed.
Definition js : ModuleHost.ModuleManifest := {|
  ModuleHost.mm_name := str "m"; ModuleHost.mm_version := []; ModuleHost.mm_archetypes := []; ModuleHost.mm_archetype := str "ecmascript";
  ModuleHost.mm_entry := str "main.js"; ModuleHost.mm_grants := [str "uk_get_result"; str "no_symbol"]; ModuleHost.mm_effects := []; ModuleHost.mm_effect_kinds := [];
  ModuleHost.mm_observers := []; ModuleHost.mm_resources := []; ModuleHost.mm_fs_grants := [str "data"; str "/srv"]; ModuleHost.mm_net_grants := [];
  ModuleHost.mm_max_ms := None; ModuleHost.mm_memory_max_bytes := None; ModuleHost.mm_gatekeeper_mode := ModuleHost.Enabled |}.
Definition tools : Sidecar.WorkerdPaths := {| Sidecar.wp_bin := str "/pkg/bin/workerd"; Sidecar.wp_import_dir := str "/pkg" |}.
Definition quiet : Sidecar.Round := {| Sidecar.rd_wait := Ok None; Sidecar.rd_stderr := None; Sidecar.rd_connect := false; Sidecar.rd_late := false |}.
Definition answering : Sidecar.Round := {| Sidecar.rd_wait := Ok None; Sidecar.rd_stderr := None; Sidecar.rd_connect := true; Sidecar.rd_late := false |}.
Definition dead : Sidecar.Round := {| Sidecar.rd_wait := Ok (Some (str "exit status: 1")); Sidecar.rd_stderr := None; Sidecar.rd_connect := false; Sidecar.rd_late := false |}.
Definition spawn_on (files : list bytes) (rounds : list Sidecar.Round) : machine * res bytes (option Sidecar.EcmaSidecar) :=
  Sidecar.spawn true (str "export") (str "/mod") (str "/mod/.unfer-ecma") js tools rounds (Machine files []).
(** The child may write to its staging and module directories and to what the
    manifest grants, an absolute grant as it stands. *)
Example spawned_profile :
  match (spawn_on [str "/mod/main.js"] [quiet; answering]).2 with
  | Ok (Some s) => Sidecar.sp_writable_dirs <$> Sidecar.la_sandbox (Sidecar.es_launch s) | _ => None
  end = Some (str <$> ["/mod/.unfer-ecma"; "/mod"; "/mod/data"; "/srv"]%string).
Proof. by vm_compute. Qed.
(** A child that ends early is reported, and nothing of it is left. *)
Example spawn_early_exit : spawn_on [str "/mod/main.js"] [quiet; dead] =
  (Machine [str "/mod/main.js"] [], Err (str "workerd exited early with exit status: 1")).
Proof. by vm_compute. Qed.
Example spawn_missing : (spawn_on [] [answering]).2 = Err (str "ecmascript entry not found: /mod/main.js").
Proof. by vm_compute. Qed.
(** Loaded again from the same directory, the new sidecar loses its socket and
    its configuration when the old one is dropped. *)
Definition reload : machine :=
  match spawn_on [str "/mod/main.js"] [answering] with
  | (x, Ok (Some old)) =>
      let x := (Sidecar.spawn true (str "export") (str "/mod") (str "/mod/.unfer-ecma") js tools [answering] x).1 in
      Sidecar.drop_files old (Some (Sidecar.es_pid old)) x
  | (x, _) => x
  end.
Example reload_loses_files : mc_files reload = [str "/mod/main.js"].
Proof. by vm_compute. Qed.
End EcmaDemo.
