(* ===== verification/Cli.v ===== *)
(** * The package command line ([avm-cli/src/main.rs])

    The dispatcher, the flags, and every command, over the store, the hot
    store, plan resolution and evaluation. Each run of the program opens the
    store from the directory it is given: a directory that does not exist yet is
    an empty store. *)

From S2P Require Import Prelude Text Cas Compression Manifest Crypto Store HotStore Derivation Graph Memo RefiJson.
Import Hex Manifest Crypto RefiJson.

Module Cli.

(** A failure keeps the error of the component it came from. *)
Inductive cli_error := Message (m : bytes) | OfCas (prefix : bytes) (e : CasError) | OfEval (e : Graph.EvalError).
Inductive note := Plain (m : bytes) | Failed (e : cli_error).

(** What a process finds: environment variables, the temporary directory, the
    sizes of the files of a directory, the time an evaluation takes. *)
Record environment := {
  env_store : option bytes; env_hot_limit : option bytes; env_hot_dir : option bytes; temp_dir : bytes;
  file_sizes : bytes → option (list Z); eval_us : Z
}.
Record world := World { w_stores : gmap bytes Store.Disk; w_files : gmap bytes bytes; w_stdout : bytes; w_stderr : list note }.

Definition USAGE : bytes := str
"avm-pkg — content-addressed package engine for australVM

USAGE:
  avm-pkg [--store <dir>] <command> [args]

COMMANDS (implemented over the real subsystems):
  init                         create the store layout
  put <file> [--name N] [--version V] [--sign <seed-hex32>] [--drv <hex32>]
                               ingest a file as a cell; prints its manifest hash
  get <manifest-hex> [-o FILE] [--hot-limit SZ]
                               hydrate through the ephemeral hot store
  stat <manifest-hex>          manifest as JSON
  store-stats                  cold-store counters as JSON
  hot-stats                    hot-store budget, dir, and scratch usage
  gc [--dry-run] [--keep-roots]
                               compact unreferenced chunks (v1: every
                               manifest is a root; --keep-roots is implicit)
  drv-hash <plan.json> [target]    derivation Merkle ids (deterministic)
  eval <plan.json> [target]        memoized warm evaluation report (L1 + L2)

PENDING (see PLAN_avm_pkg.md — these refuse rather than fake):
  build <file.au>              needs the hermetic executor (Sprint 3);
                               the OCaml totality pass + plan.json export shipped:
                               austral compile --pkg-totality=true --emit-derivations=plan.json
  push / pull                  needs the Sprint 5 remote client
".

(** ** Arguments *)
Definition parse_size (s : bytes) : res cli_error Z :=
  let s := trim s in
  let '(num, mult) :=
    match last s with
    | Some b => if bool_decide (b ∈ str "Kk") then (removelast s, 1024)
                else if bool_decide (b ∈ str "Mm") then (removelast s, 1024 * 1024)
                else if bool_decide (b ∈ str "Gg") then (removelast s, 1024 * 1024 * 1024) else (s, 1)
    | None => (s, 1)
    end in
  match parse_uint (2 ^ 64) (trim num) with
  | None => Err (Message (str "bad size `" ++ s ++ str "` (want e.g. 4096, 256K, 1G)"))
  | Some n => if n * mult <? 2 ^ 64 then Ok (n * mult) else Panic
  end.
Fixpoint position (a : bytes) (args : list bytes) : option nat :=
  match args with [] => None | x :: args => if bool_decide (x = a) then Some O else S <$> position a args end.
Definition flag (args : list bytes) (name : String.string) : option bytes := i ← position (str name) args; args !! S i.
Definition is_flag_value (args : list bytes) (a : bytes) : bool :=
  match position a args with
  | Some (S i) => match args !! i with Some f => starts_with (str "--") f && (2 <? Zlen f) | None => false end
  | _ => false
  end.
Section cli.
Context `{Blake3, Lz4, Ed25519, HotStore.WriteAt, JsonCodec}.
Variable env : environment.
(** The workers of a parallel hydration and the order of their writes. *)
Variable workers : nat.
Variable sched : list nat.
(** [serde_json] on a plan file, and the text of its error. *)
Variable parse_plan : bytes → option (list Derivation.Derivation).
Variable plan_error : bytes → bytes.

Abbreviation cm := (stm world cli_error).
Definition say {A} (m : bytes) : cm A := stm_err (Message m).
Definition of_cas {A} (prefix : bytes) (r : res CasError A) : cm A :=
  stm_lift (match r with Ok a => Ok a | Err e => Err (OfCas prefix e) | Panic => Panic end).

(** ** The store *)
Definition empty_disk : Store.Disk := {| Store.d_packs := ∅; Store.d_index := ∅; Store.d_manifests := ∅ |}.
Definition disk_at (dir : bytes) (w : world) : Store.Disk := default empty_disk (w_stores w !! dir).
Definition put_disk (dir : bytes) (d : Store.Disk) (w : world) : world :=
  World (<[dir := d]> (w_stores w)) (w_files w) (w_stdout w) (w_stderr w).
Definition open_at (prefix : bytes) (dir : bytes) : cm Store.ChunkStore := λ w,
  let d := disk_at dir w in
  match Store.open d with
  | Ok s => (put_disk dir d w, Ok s)
  | Err e => (put_disk dir d w, Err (OfCas prefix e))
  | Panic => (put_disk dir d w, Panic)
  end.
Definition open_store (dir : bytes) : cm Store.ChunkStore := open_at (str "cannot open store: ") dir.
(** An operation on the open store; the disk is that of its directory. *)
Definition on_store {A} (dir : bytes) (m : Store.st A) (s : Store.ChunkStore) : cm (Store.ChunkStore * A) := λ w,
  match m s with
  | (s, Ok a) => (put_disk dir (Store.cs_disk s) w, Ok (s, a))
  | (s, Err e) => (put_disk dir (Store.cs_disk s) w, Err (OfCas [] e))
  | (s, Panic) => (put_disk dir (Store.cs_disk s) w, Panic)
  end.

Definition no_such_file : bytes := str "No such file or directory (os error 2)".
Definition read_file (path : bytes) : cm bytes := λ w,
  match w_files w !! path with
  | Some b => (w, Ok b)
  | None => (w, Err (Message (str "read " ++ path ++ str ": " ++ no_such_file)))
  end.
Definition write_file (path b : bytes) : cm () := λ w, (World (w_stores w) (<[path := b]> (w_files w)) (w_stdout w) (w_stderr w), Ok ()).
Definition print (b : bytes) : cm () := λ w, (World (w_stores w) (w_files w) (w_stdout w ++ b) (w_stderr w), Ok ()).

Definition hot_limit_from_env : res cli_error Z :=
  match env_hot_limit env with Some v => parse_size v | None => Ok (1024 * 1024 * 1024) end.
Definition hot_dir_from_env : bytes := default (path_join (temp_dir env) (str "avm-hot")) (env_hot_dir env).
Definition limit_of (args : list bytes) : cm Z :=
  stm_lift (match flag args "--hot-limit" with Some v => parse_size v | None => hot_limit_from_env end).
Definition render (v : json) : bytes := json_to_vec v.
Definition hexed (o : option bytes) : json := opt (λ h, JStr (hex h)) o.

(** ** Commands *)
Definition cmd_init (dir : bytes) : cm bytes :=
  _ ← open_at [] dir; mret (str "initialized store at " ++ dir).

Definition put_operand (args : list bytes) : option bytes :=
  head (filter (λ a, negb (starts_with (str "--") a) && negb (is_flag_value args a) = true) args).
Definition put_line (m : Manifest) : bytes :=
  hex (identity_digest m) ++ str "  " ++ m_name m ++ str " " ++ m_version m ++ str "  (" ++ dec (m_total_size m) ++ str " bytes, " ++
  dec (Zlen (m_chunks m)) ++ str " chunks" ++ (if bool_decide (is_Some (m_signature m)) then str ", signed" else []) ++ str " )".
Definition sign_stored (dir : bytes) (seed_hex : bytes) (m : Manifest) (s : Store.ChunkStore) : cm Manifest :=
  seed ← of_cas (str "bad --seed: ") (unhex seed_hex);
  let m := sign_manifest m (signing_key_from_seed seed) in
  _ ← on_store dir (Store.put_manifest m) s;
  mret m.
Definition cmd_put (dir : bytes) (args : list bytes) : cm bytes :=
  match put_operand args with
  | None => say (str "put needs a file path")
  | Some path =>
      let name := match flag args "--name" with Some n => n | None => default (str "cell") (path_file_stem path) end in
      let version := default (str "0.0.0") (flag args "--version") in
      drv ← (match flag args "--drv" with Some h => d ← of_cas [] (unhex h); mret (Some d) | None => mret None end);
      data ← read_file path;
      s ← open_store dir;
      '(s, manifest) ← on_store dir (Store.put_buffer name version data drv) s;
      manifest ← (match flag args "--sign" with Some seed_hex => sign_stored dir seed_hex manifest s | None => mret manifest end);
      mret (put_line manifest)
  end.

(** [Manifest::to_json] *)
Definition manifest_json (m : Manifest) : json := obj [
  ("name", JStr (m_name m)); ("version", JStr (m_version m)); ("total_size", JNum (m_total_size m)); ("chunks", JNum (Zlen (m_chunks m)));
  ("drv_hash", hexed (m_drv_hash m)); ("identity", JStr (hex (identity_digest m))); ("signed", JBool (bool_decide (is_Some (m_signature m))));
  ("pubkey", hexed (m_pubkey m))]%string.
Definition cmd_stat (dir : bytes) (args : list bytes) : cm bytes :=
  match args with
  | [] => say (str "stat needs a manifest hash")
  | id_hex :: _ =>
      id ← of_cas [] (unhex id_hex);
      s ← open_store dir;
      m ← of_cas [] (Store.get_manifest s id);
      mret (render (manifest_json m))
  end.
Definition cmd_store_stats (dir : bytes) : cm bytes :=
  s ← open_store dir;
  let t := Store.stats s in
  mret (render (obj [("chunks", JNum (Store.ss_chunks t)); ("packs", JNum (Store.ss_packs t)); ("pack_bytes", JNum (Store.ss_pack_bytes t));
                     ("manifests", JNum (Store.ss_manifests t)); ("root", JStr dir)]%string)).
Definition cmd_hot_stats (args : list bytes) : cm bytes :=
  limit ← limit_of args;
  let sizes := default [] (file_sizes env hot_dir_from_env) in
  let total := foldl Z.add 0 sizes in
  if 2 ^ 64 <=? total then stm_lift Panic else
  mret (render (obj [("budget_bytes", JNum limit); ("hot_dir", JStr hot_dir_from_env); ("scratch_files", JNum (Zlen sizes));
                     ("scratch_bytes", JNum total);
                     ("note", text "resident cell mappings are per-process; live hot-store residency is reported by the runtime (Sprint 3), not a CLI that hydrates and exits")]%string)).

(** The numbers of a dry run: roots, live chunks, dead chunks. *)
Definition dry_run (s : Store.ChunkStore) : res CasError (Z * Z * Z) :=
  manifests ← Store.list_manifests s;
  live ← foldM (λ (live : gset bytes) id, m ← Store.get_manifest s id; Ok (live ∪ list_to_set (m_chunks m))) ∅ manifests;
  let total := Store.ss_chunks (Store.stats s) in
  Ok (Zlen manifests, Z.of_nat (size live), Z.max 0 (total - Z.of_nat (size live))).
Definition dry_run_json (n : Z * Z * Z) : json := obj [
  ("dry_run", JBool true); ("roots", JNum n.1.1); ("live_chunks", JNum n.1.2); ("dead_chunks", JNum n.2);
  ("note", text "v1: every manifest is a root (--keep-roots is implicit)")]%string.
Definition gc_json (r : Store.GcReport) : json := obj [
  ("live_chunks", JNum (Store.gr_live_chunks r)); ("dead_chunks", JNum (Store.gr_dead_chunks r)); ("packs_before", JNum (Store.gr_packs_before r));
  ("packs_after", JNum (Store.gr_packs_after r)); ("bytes_reclaimed", JNum (Store.gr_bytes_reclaimed r))]%string.
Definition cmd_gc (dir : bytes) (args : list bytes) : cm bytes :=
  s ← open_store dir;
  if bool_decide (str "--dry-run" ∈ args) then
    n ← of_cas [] (dry_run s);
    mret (render (dry_run_json n))
  else
    '(_, report) ← on_store dir Store.gc s;
    mret (render (gc_json report)).

Definition of_eval {A} (r : res Graph.EvalError A) : cm A :=
  stm_lift (match r with Ok a => Ok a | Err e => Err (OfEval e) | Panic => Panic end).
Definition insert_drvs (l : list Derivation.Derivation) : res Graph.EvalError Graph.Plan := foldM Graph.insert ∅ l.
Definition load_plan (path : bytes) : cm Graph.Plan :=
  content ← read_file path;
  if negb (utf8_valid content) then say (str "read " ++ path ++ str ": stream did not contain valid UTF-8") else
  match parse_plan content with
  | None => say (str "parse " ++ path ++ str ": " ++ plan_error content)
  | Some l => of_eval (insert_drvs l)
  end.
(** A map printed in the order of its keys. *)
Definition ids_json (ids : gmap bytes bytes) : json := JObj ((λ kv, (kv.1, JStr (hex kv.2))) <$> Store.sorted_entries ids).
Definition cmd_drv_hash (args : list bytes) : cm bytes :=
  match args with
  | [] => say (str "drv-hash needs <plan.json>")
  | path :: rest =>
      let target := head rest in
      plan ← load_plan path;
      graph ← of_eval (Graph.resolve plan target);
      mret (render (obj [("target", hexed (target ≫= λ t, Graph.rg_ids graph !! t)); ("resolved", ids_json (Graph.rg_ids graph));
                         ("order", JArr (JStr <$> Graph.rg_order graph))]%string))
  end.

(** Every manifest of the store that records a derivation. *)
Definition built_ids (s : Store.ChunkStore) : gset bytes :=
  match Store.list_manifests s with
  | Ok ids => list_to_set (omap (λ id, match Store.get_manifest s id with Ok m => m_drv_hash m | _ => None end) ids)
  | _ => ∅
  end.
Definition store_presence (ids : gset bytes) : Memo.Presence := λ id, bool_decide (id ∈ ids).
Definition presence_at (dir : bytes) : cm (option Memo.Presence) := λ w,
  match open_store dir w with
  | (w, Ok s) => (w, Ok (Some (store_presence (built_ids s))))
  | (w, Err _) => (w, Ok None)
  | (w, Panic) => (w, Panic)
  end.
Definition cmd_eval (dir : bytes) (args : list bytes) : cm bytes :=
  match args with
  | [] => say (str "eval needs <plan.json>")
  | path :: rest =>
      plan ← load_plan path;
      presence ← presence_at dir;
      report ← of_eval (Memo.evaluate plan (head rest) (Memo.new presence)).2;
      mret (render (obj [("target", JStr (hex (Memo.er_target_id report))); ("resolved", JNum (Z.of_nat (size (Memo.er_resolved report))));
                         ("order", JArr (JStr <$> Memo.er_order report)); ("visited", JArr (JStr <$> Memo.er_visited report));
                         ("session_hits", JArr (JStr <$> Memo.er_session_hits report)); ("store_hits", JArr (JStr <$> Memo.er_store_hits report));
                         ("eval_us", JNum (eval_us env mod 2 ^ 64));
                         ("note", text "store_hits are id-keyed build skips; ids are always recomputed (see PLAN_avm_pkg.md)")]%string))
  end.

Definition hydrate_get (dir id_hex : bytes) (limit : Z) : cm (bytes * HotStore.HotStats * Manifest) :=
  id ← of_cas [] (unhex id_hex);
  s ← open_store dir;
  manifest ← of_cas [] (Store.get_manifest s id);
  let '(hot, r) := HotStore.read_cell s workers sched id (HotStore.new limit false) in
  b ← of_cas [] r;
  mret (b, HotStore.stats hot, manifest).
Definition cmd_get (dir : bytes) (args : list bytes) : cm bytes :=
  match args with
  | [] => say (str "get needs a manifest hash")
  | id_hex :: _ =>
      limit ← limit_of args;
      '(b, stats, manifest) ← hydrate_get dir id_hex limit;
      match flag args "-o" with
      | Some out =>
          _ ← write_file out b;
          mret (render (obj [("wrote", JStr out); ("bytes", JNum (Zlen b)); ("name", JStr (m_name manifest));
                             ("hot_usage_bytes", JNum (HotStore.hst_usage stats)); ("hot_cells", JNum (HotStore.hst_cells stats))]%string))
      | None =>
          _ ← print b;
          mret (dec (Zlen b) ++ str " bytes hydrated (hot usage " ++ dec (HotStore.hst_usage stats) ++ str " / " ++ dec (HotStore.hst_capacity stats) ++ str ")")
      end
  end.

(** ** The dispatcher

    An error is an exit code; its message has been printed. *)
Fixpoint store_args (dir : bytes) (argv : list bytes) : option (bytes * list bytes) :=
  match argv with
  | a :: rest =>
      if bool_decide (a = str "--store") then match rest with d :: rest => store_args d rest | [] => None end
      else Some (dir, argv)
  | [] => Some (dir, [])
  end.
Definition eprint (n : note) (w : world) : world := World (w_stores w) (w_files w) (w_stdout w) (w_stderr w ++ [n]).
Definition pending (cmd : bytes) : bytes :=
  str "`" ++ cmd ++ str "` is not implemented yet: " ++
  (if bool_decide (cmd = str "build") then
     str "needs the hermetic executor (Sprint 3); the OCaml totality pass shipped — produce plan.json with `austral compile --pkg-totality=true --emit-derivations=plan.json`"
   else str "needs the Sprint 5 remote client") ++
  str " — see PLAN_avm_pkg.md for the sprint it belongs to (refusing instead of faking)".
(** [None] is a name that is no command. *)
Definition command (dir cmd : bytes) (args : list bytes) : option (cm bytes) :=
  let named (s : String.string) := bool_decide (cmd = str s) in
  if named "init" then Some (cmd_init dir)
  else if named "put" then Some (cmd_put dir args)
  else if named "stat" then Some (cmd_stat dir args)
  else if named "store-stats" then Some (cmd_store_stats dir)
  else if named "hot-stats" then Some (cmd_hot_stats args)
  else if named "gc" then Some (cmd_gc dir args)
  else if named "drv-hash" then Some (cmd_drv_hash args)
  else if named "eval" then Some (cmd_eval dir args)
  else if named "get" then Some (cmd_get dir args)
  else if named "build" || named "push" || named "pull" then Some (say (pending cmd))
  else None.
Definition run (argv : list bytes) : stm world Z (option bytes) := λ w,
  match store_args (default (str "./avm-store") (env_store env)) argv with
  | None => (eprint (Plain (str "avm-pkg: --store needs a directory")) w, Err 2)
  | Some (_, []) => (eprint (Plain USAGE) w, Err 2)
  | Some (dir, cmd :: args) =>
      match command dir cmd args with
      | Some m =>
          match m w with
          | (w, Ok t) => (w, Ok (Some t))
          | (w, Err e) => (eprint (Failed e) w, Err 1)
          | (w, Panic) => (w, Panic)
          end
      | None =>
          if bool_decide (cmd ∈ str <$> ["help"; "--help"; "-h"]%string) then
            (World (w_stores w) (w_files w) (w_stdout w ++ USAGE) (w_stderr w), Ok None)
          else (eprint (Plain USAGE) (eprint (Plain (str "avm-pkg: unknown command `" ++ cmd ++ str "`")) w), Err 2)
      end
  end.
(** The exit code. *)
Definition main (argv : list bytes) (w : world) : world * res Empty_set Z :=
  match run argv w with
  | (w, Ok (Some t)) => (World (w_stores w) (w_files w) (w_stdout w ++ t ++ [LF]) (w_stderr w), Ok 0)
  | (w, Ok None) => (w, Ok 0)
  | (w, Err code) => (w, Ok code)
  | (w, Panic) => (w, Panic)
  end.
End cli.
End Cli.
