(* ===== verification/CliSafe.v ===== *)
(** * What the commands promise together ([avm-cli/src/main.rs])

    A file put by one process is got back by another, a dry run says what a
    collection will do, the two ways to ask for an identity agree, and what is
    not implemented changes nothing. *)

From S2P Require Import Prelude Text Cas Chunker Compression Cursor Manifest Crypto Disk Store StoreSpec StoreOps StoreBuffer StoreGc HotStore Derivation Graph Memo RefiJson Cli.
Import Hex Manifest Crypto StoreSpec StoreOps StoreBuffer StoreGc RefiJson Cli.

Module CliSafe.

Section safe.
Context `{Blake3, !Blake3Laws, Lz4, !Lz4Laws, Ed25519, !Ed25519Laws, HotStore.WriteAt, JsonCodec}.
Context (env : environment) (workers : nat) (sched : list nat).
Context (parse_plan : bytes → option (list Derivation.Derivation)) (plan_error : bytes → bytes).
Local Abbreviation run := (Cli.run env workers sched parse_plan plan_error).

(** The store of a directory opens, and holds [A]. *)
Definition holds (dir : bytes) (w : world) (A : Abs) : Prop := ∃ s, Store.open (disk_at dir w) = Ok s ∧ Inv s A.

Lemma disk_put dir d w : disk_at dir (put_disk dir d w) = d.
Proof. unfold disk_at. cbn. by rewrite lookup_insert_eq. Qed.
Lemma open_run dir w s : Store.open (disk_at dir w) = Ok s → open_store dir w = (put_disk dir (disk_at dir w) w, Ok s).
Proof. intros Ho. unfold open_store, open_at. by rewrite Ho. Qed.
Lemma run_store dir cmd args m w : cmd ≠ str "--store" → command env workers sched parse_plan plan_error dir cmd args = Some m →
  run (str "--store" :: dir :: cmd :: args) w =
    match m w with (w, Ok t) => (w, Ok (Some t)) | (w, Err e) => (eprint (Failed e) w, Err 1) | (w, Panic) => (w, Panic) end.
Proof.
  intros Hc Hm. unfold run. cbn [store_args]. rewrite bool_decide_eq_true_2 by done. cbn [store_args].
  rewrite bool_decide_eq_false_2 by done. by rewrite Hm.
Qed.

(** ** Putting *)
Definition put_args (path : bytes) (sign : option bytes) : list bytes :=
  path :: match sign with Some seed => [str "--sign"; hex seed] | None => [] end.
Lemma position_ne a x args : x ≠ a → position a (x :: args) = S <$> position a args.
Proof. intros Hx. cbn. by rewrite bool_decide_eq_false_2. Qed.
Lemma hex_ne d s : length d = 32%nat → length s ≠ 64%nat → hex d ≠ s.
Proof. intros Hd Hs E. apply Hs. rewrite <- E, length_hex. lia. Qed.
Lemma not_flag path name : starts_with (str "--") path = false → starts_with (str "--") (str name) = true → path ≠ str name.
Proof. intros Hp Hn E. congruence. Qed.
Section flags.
Context (path : bytes) (sign : option bytes) (Hpath : starts_with (str "--") path = false) (Hsign : opt_len 32 sign).
Lemma put_operand_path : put_operand (put_args path sign) = Some path.
Proof.
  unfold put_operand, put_args. rewrite filter_cons_True; [done|]. rewrite Hpath. cbn [negb andb].
  unfold is_flag_value. cbn [position]. by rewrite bool_decide_eq_true_2.
Qed.
Lemma other_flag name : starts_with (str "--") (str name) = true → length (str name) ≠ 64%nat → str "--sign" ≠ str name →
  flag (put_args path sign) name = None.
Proof.
  intros Hn Hl Hs. unfold flag, put_args. rewrite position_ne by by apply not_flag. destruct sign as [seed|]; [|done].
  rewrite position_ne by done. rewrite position_ne by by apply hex_ne. done.
Qed.
Lemma sign_flag : flag (put_args path sign) "--sign" = hex <$> sign.
Proof.
  unfold flag, put_args. rewrite position_ne by by apply not_flag. destruct sign as [seed|]; [|done].
  cbn [position]. by rewrite bool_decide_eq_true_2.
Qed.
End flags.

(** What a put leaves: a manifest of the payload, readable under its
    identity, signed when asked. *)
Record put_result (dir path data : bytes) (raws : list bytes) (w w1 : world) (m : Manifest) : Prop := {
  pr_files : w_files w1 = w_files w;
  pr_store : ∃ A', holds dir w1 A' ∧ a_manifests A' !! identity_digest m = Some m ∧
    Forall2 (λ c raw, a_chunks A' !! c = Some raw) (m_chunks m) raws ∧ concat raws = data;
  pr_size : m_total_size m = Zlen data;
  pr_policy : HotStore.check_policy false m = Ok ()
}.
Lemma sign_policy m key : HotStore.check_policy false (sign_manifest m key) = Ok ().
Proof.
  unfold HotStore.check_policy. cbn [sign_manifest m_pubkey m_signature]. unfold verify_manifest. cbn [sign_manifest m_pubkey m_signature].
  rewrite ed_key_valid. change (identity_digest _) with (identity_digest m). by rewrite ed_correct.
Qed.
Lemma sign_wf m key : manifest_wf m → manifest_wf (sign_manifest m key).
Proof. intros []. split; cbn; try done; by rewrite ?ed_key_length, ?ed_sign_length. Qed.
Lemma reopened dir w s A : Inv s A → disk_at dir w = Store.cs_disk s → holds dir w A.
Proof. intros HI Hd. destruct (reopen_ok s A HI) as (s' & Ho & _ & _ & HI'). exists s'. by rewrite Hd. Qed.

Section put.
Context (dir path data : bytes) (sign : option bytes) (w : world) (A : Abs).
Context (Hpath : starts_with (str "--") path = false) (Hsign : opt_len 32 sign) (Hfile : w_files w !! path = Some data).
Definition stem : bytes := default (str "cell") (path_file_stem path).
Context (Hholds : holds dir w A).
Context (Hfits : ∀ s, Store.open (disk_at dir w) = Ok s → buffer_fits s stem (str "0.0.0") data None).
Context (Hclash : ∀ cs, Cdc.chunk_payload data Cdc.default_config = Ok cs → no_clash A (Cdc.chunk_bytes data <$> cs)).
Lemma put_run : ∃ w1 cs m, cmd_put dir (put_args path sign) w = (w1, Ok (put_line m)) ∧ put_result dir path data (Cdc.chunk_bytes data <$> cs) w w1 m ∧
  Cdc.chunk_payload data Cdc.default_config = Ok cs ∧ m_chunks m = Cdc.ck_hash <$> cs.
Proof.
  destruct Hholds as (s & Ho & HI).
  destruct (put_buffer_stored s A stem (str "0.0.0") data None HI (Hfits s Ho) Hclash) as (s' & A' & cs & Hcs & Hrun & HI' & Hm & Hall & Hcat & _).
  set (m := manifest_of stem (str "0.0.0") data None cs) in *.
  assert (cmd_put dir (put_args path sign) w =
    (manifest ← (match hex <$> sign with Some seed_hex => sign_stored dir seed_hex m s' | None => mret m end); mret (put_line manifest))
      (put_disk dir (Store.cs_disk s') (put_disk dir (disk_at dir w) w))) as ->.
  { unfold cmd_put. rewrite put_operand_path by done. rewrite sign_flag by done.
    rewrite (other_flag _ _ Hpath Hsign "--name"), (other_flag _ _ Hpath Hsign "--version"), (other_flag _ _ Hpath Hsign "--drv") by by vm_compute.
    unfold mbind, stm_bind, read_file. cbn [mret stm_ret]. rewrite Hfile. rewrite (open_run _ _ _ Ho).
    unfold on_store. fold stem. cbn [default]. by rewrite Hrun. }
  destruct sign as [seed|]; cbn [fmap option_fmap option_map].
  - unfold sign_stored, of_cas. unfold mbind, stm_bind, stm_lift. rewrite unhex_hex by exact Hsign.
    unfold on_store, signing_key_from_seed.
    destruct (inv_manifest _ _ HI' _ _ Hm) as (_ & Hwf & _ & Hc).
    destruct (put_manifest_ok s' A' (sign_manifest m seed) HI' (sign_wf _ _ Hwf) Hc) as (s2 & Hp & HI2 & _).
    rewrite Hp. eexists _, cs, _. split; [reflexivity|]. split; [|done]. split; [done| |done|apply sign_policy].
    eexists. split; [eapply reopened; [exact HI2|apply disk_put]|]. split; [apply lookup_insert_eq|done].
  - eexists _, cs, _. split; [reflexivity|]. split; [|done]. split; [done| |done|done].
    exists A'. split; [eapply reopened; [exact HI'|apply disk_put]|done].
Qed.
End put.

(** ** Getting *)
Definition get_args (id out : bytes) : list bytes := [hex id; str "-o"; out].
Lemma get_flags id out : length id = 32%nat → flag (get_args id out) "-o" = Some out ∧ flag (get_args id out) "--hot-limit" = None.
Proof.
  intros Hid. unfold flag, get_args. split.
  - rewrite position_ne by by apply hex_ne. cbn [position]. by rewrite bool_decide_eq_true_2.
  - rewrite position_ne by by apply hex_ne. rewrite position_ne by done. cbn [position]. by case_bool_decide.
Qed.
Lemma get_run dir path out data raws w w1 m limit : put_result dir path data raws w w1 m → hot_limit_from_env env = Ok limit → Zlen data < 2 ^ 63 →
  HotStore.covers sched (length (m_chunks m)) →
  ∃ w2 line, cmd_get env workers sched dir (get_args (identity_digest m) out) w1 = (w2, Ok line) ∧
    w_files w2 !! out = Some (HotStore.delivered workers raws) ∧ disk_at dir w2 = disk_at dir w1.
Proof.
  intros [_ (A' & (s & Ho & HI) & Hm & Hall & Hcat) Hsize Hpol] Hl Hlen Hcov.
  destruct (inv_manifest _ _ HI _ _ Hm) as (_ & _ & Hid & _).
  pose proof (get_manifest_ok s A' _ m HI Hm) as Hg.
  assert (length (identity_digest m) = 32%nat) as Hd by apply blake3_length.
  destruct (get_flags (identity_digest m) out Hd) as [Hf1 Hf2].
  destruct (HotStore.acquire_transparent s A' workers sched (identity_digest m) (HotStore.new limit false) HI) as (h & r & Ha & _ & _ & _ & Hiff & _).
  { apply HotStore.new_inv. }
  { intros id c. cbn. by rewrite lookup_empty. }
  { split; [done|]. intros m' Hm'. rewrite Hg in Hm'. injection Hm' as <-. cbn. split; [done|]. lia. }
  assert (r = Ok (HotStore.delivered workers raws)) as ->.
  { apply Hiff. unfold HotStore.cell_spec. rewrite Hg. cbn [mbind res_bind]. cbn [HotStore.new HotStore.hs_enforce]. rewrite Hpol. cbn [mbind res_bind].
    rewrite (read_assembled_ok s A' m raws) by (done || rewrite ?Hcat; lia). cbn [mbind res_bind].
    by rewrite (HotStore.raws_read s A' _ raws). }
  unfold cmd_get. unfold get_args at 1. unfold limit_of. rewrite Hf2, Hl. unfold mbind, stm_bind, stm_lift.
  unfold hydrate_get, of_cas, mbind, stm_bind, stm_lift. rewrite unhex_hex by done. rewrite (open_run _ _ _ Ho), Hg.
  change (HotStore.read_cell s workers sched) with (HotStore.acquire s workers sched). rewrite Ha.
  unfold get_args in Hf1 |- *. cbn [mret stm_ret]. rewrite Hf1.
  eexists _, _. split; [reflexivity|]. cbn [write_file w_files]. split; [apply lookup_insert_eq|]. apply disk_put.
Qed.

(** C6. A file put and got back. One process puts a file, signed or not, into a
    store that has room for it and holds no other bytes under a digest of its
    chunks; another process gets it under the identity the first one printed,
    through the manifest, the packs, the index and the hot store, and writes out
    what was delivered of its chunks. That is the file byte for byte when it has
    fewer than 64 chunks, when one worker hydrates it, and when the system takes
    every positioned write whole; otherwise each chunk's slot holds the bytes
    accepted and zeros, for the code ignores how many were. *)
Theorem cli_put_get dir path out data sign w A limit :
  starts_with (str "--") path = false → opt_len 32 sign → w_files w !! path = Some data → holds dir w A →
  (∀ s, Store.open (disk_at dir w) = Ok s → buffer_fits s (stem path) (str "0.0.0") data None) →
  (∀ cs, Cdc.chunk_payload data Cdc.default_config = Ok cs →
     no_clash A (Cdc.chunk_bytes data <$> cs) ∧ HotStore.covers sched (length cs)) →
  hot_limit_from_env env = Ok limit → Zlen data < 2 ^ 63 →
  ∃ w1 w2 id rest line cs, let raws := Cdc.chunk_bytes data <$> cs in
    Cdc.chunk_payload data Cdc.default_config = Ok cs ∧ concat raws = data ∧
    run ([str "--store"; dir; str "put"] ++ put_args path sign) w = (w1, Ok (Some (hex id ++ str "  " ++ rest))) ∧
    run ([str "--store"; dir; str "get"] ++ get_args id out) w1 = (w2, Ok (Some line)) ∧
    w_files w2 !! out = Some (HotStore.delivered workers raws) ∧
    (Zlen cs < 64 ∨ (workers ≤ 1)%nat ∨ HotStore.wholly raws → w_files w2 !! out = Some data).
Proof.
  intros Hp Hs Hf Hh Hfit Hcs Hl Hlen.
  destruct (put_run dir path data sign w A Hp Hs Hf Hh Hfit) as (w1 & cs & m & Hput & Hres & Hc & Hm).
  { intros cs Hc. by apply Hcs. }
  destruct (Hcs cs Hc) as [_ Hcov].
  destruct (get_run dir path out data _ w w1 m limit Hres Hl Hlen) as (w2 & line & Hget & Hout & _).
  { by rewrite Hm, length_fmap. }
  destruct (pr_store _ _ _ _ _ _ _ Hres) as (_ & _ & _ & _ & Hcat).
  exists w1, w2, (identity_digest m). eexists _, line, cs. cbn [app]. split; [done|]. split; [done|]. split; [|split; [|split; [done|]]].
  - rewrite (run_store dir (str "put") (put_args path sign) (cmd_put dir (put_args path sign))) by done. rewrite Hput. reflexivity.
  - rewrite (run_store dir (str "get") (get_args _ out) (cmd_get env workers sched dir (get_args (identity_digest m) out))) by done. by rewrite Hget.
  - intros Hw. by rewrite Hout, HotStore.delivered_exact, Hcat by by rewrite length_fmap.
Qed.

(** ** Collecting *)
Lemma live_dom s A : Inv s A → dom (a_chunks (gc_abs A)) = live_of A.
Proof.
  intros HI. apply leibniz_equiv. intros d. rewrite elem_of_dom. unfold gc_abs. cbn [a_chunks]. split.
  - intros [x [_ Hl]%map_lookup_filter_Some]. exact Hl.
  - intros Hl. apply elem_of_live in Hl as (id & m & Hm & Hd). destruct (inv_manifest _ _ HI _ _ Hm) as (_ & _ & _ & Hc).
    destruct (Hc d Hd) as [x Hx]. exists x. apply map_lookup_filter_Some. split; [done|]. apply elem_of_live. by exists id, m.
Qed.
Lemma state_size s A : Inv s A → size (Store.cs_state s) = size (a_chunks A).
Proof. intros HI. pose proof (inv_keys_perm s A HI) as Hp%Permutation_length. by rewrite !length_fmap, !length_map_to_list in Hp. Qed.
Lemma dry_run_ok s A : Inv s A → ∃ roots, dry_run s = Ok (roots, Z.of_nat (size (live_of A)), dead_of s A).
Proof.
  intros HI. pose proof (live_set_ok s A HI) as Hl. unfold Store.live_set in Hl. unfold dry_run.
  destruct (Store.list_manifests s) as [ids|e|]; [|done..]. cbn [mbind res_bind] in *. rewrite Hl. cbn [mbind res_bind]. exists (Zlen ids).
  f_equal. f_equal. rewrite (dead_of_size s A HI). cbn [Store.stats Store.ss_chunks]. rewrite (state_size s A HI).
  rewrite <- (live_dom s A HI), size_dom.
  assert (size (a_chunks (gc_abs A)) ≤ size (a_chunks A))%nat by (apply map_subseteq_size, map_filter_subseteq). lia.
Qed.

(** C40. A dry run of the collection changes nothing and reports exactly the live
    and dead chunks that a collection of the same store then reports. *)
Theorem cli_dry_run_exact dir w A : holds dir w A →
  ∃ w1 roots w2 r,
    run [str "--store"; dir; str "gc"; str "--dry-run"] w =
      (w1, Ok (Some (render (dry_run_json (roots, Store.gr_live_chunks r, Store.gr_dead_chunks r))))) ∧
    w_files w1 = w_files w ∧ (∀ d, disk_at d w1 = disk_at d w) ∧
    run [str "--store"; dir; str "gc"] w = (w2, Ok (Some (render (gc_json r)))).
Proof.
  intros (s & Ho & HI). destruct (dry_run_ok s A HI) as [roots Hd]. destruct (gc_run s A HI) as (r & Hgc & Hl & Hdead).
  eexists _, roots, _, r. split; [|split; [|split]].
  - rewrite (run_store dir (str "gc") [str "--dry-run"] (cmd_gc dir [str "--dry-run"])) by done.
    unfold cmd_gc, mbind, stm_bind. rewrite (open_run _ _ _ Ho). rewrite bool_decide_eq_true_2 by by left.
    unfold of_cas, stm_lift. rewrite Hd, Hl, Hdead. reflexivity.
  - done.
  - intros d. unfold disk_at. cbn. destruct (decide (d = dir)) as [->|Hne]; [by rewrite lookup_insert_eq|by rewrite lookup_insert_ne].
  - rewrite (run_store dir (str "gc") [] (cmd_gc dir [])) by done. unfold cmd_gc, mbind, stm_bind. rewrite (open_run _ _ _ Ho).
    rewrite bool_decide_eq_false_2 by apply not_elem_of_nil. unfold on_store. rewrite Hgc. reflexivity.
Qed.

(** ** Identities *)
Lemma resolve_agrees plan x t : Memo.valid plan (Memo.mt_l1 t) →
  match Graph.resolve plan (Some x), (Memo.evaluate plan (Some x) t).2 with
  | Ok rg, Ok rep => Graph.rg_ids rg !! x = Some (Memo.er_target_id rep)
  | Err _, Err _ => True
  | _, _ => False
  end.
Proof.
  intros Hv. pose proof (Memo.evaluate_spec plan (Some x) t Hv) as He. pose proof (Graph.resolve_resolved plan (Some x)) as Hr.
  destruct (Memo.evaluate plan (Some x) t) as [t' [rep|e|]]; cbn [snd]; destruct He as (_ & _ & He); [| |done];
    (destruct (Graph.resolve plan (Some x)) as [rg|e'|]; [| |done]).
  - destruct He as (_ & _ & Ht & _). destruct Hr as (Hm & Hroots & _). destruct (Hroots x eq_refl) as [id Hid].
    rewrite Hid. f_equal. eapply Graph.merkle_det; [by apply Hm|by apply Ht].
  - destruct He as (Hm & Hroots & _). eapply Memo.no_defect; [|exact Hr]. intros r ->. destruct (Hroots x eq_refl) as [id Hid].
    exists id. by apply Hm.
  - destruct Hr as (Hm & Hroots & _). eapply Memo.no_defect; [|exact He]. intros r ->. destruct (Hroots x eq_refl) as [id Hid].
    exists id. by apply Hm.
  - done.
Qed.
Lemma presence_run dir w : Store.open (disk_at dir w) ≠ Panic → ∃ w' p, presence_at dir w = (w', Ok p).
Proof. intros Hp. unfold presence_at, open_store, open_at. destruct (Store.open _) as [s|e|]; [by eauto..|done]. Qed.

(** C39. Asked for the same derivation of the same plan, the two commands agree:
    both fail, or both print the same identity, whatever the store holds. *)
Theorem cli_eval_agrees dir path x w plan : load_plan parse_plan plan_error path w = (w, Ok plan) → Store.open (disk_at dir w) ≠ Panic →
  let eval := (run [str "--store"; dir; str "eval"; path; x] w).2 in
  let hash := (run [str "--store"; dir; str "drv-hash"; path; x] w).2 in
  (∃ id fields fields', eval = Ok (Some (render (obj (("target"%string, JStr (hex id)) :: fields)))) ∧
                        hash = Ok (Some (render (obj (("target"%string, JStr (hex id)) :: fields'))))) ∨
  eval = Err 1 ∧ hash = Err 1.
Proof.
  intros Hl Hp. destruct (presence_run dir w Hp) as (w' & p & Hpr).
  rewrite (run_store dir (str "eval") [path; x] (cmd_eval env parse_plan plan_error dir [path; x])) by done.
  rewrite (run_store dir (str "drv-hash") [path; x] (cmd_drv_hash parse_plan plan_error [path; x])) by done.
  unfold cmd_eval, cmd_drv_hash, mbind, stm_bind. rewrite Hl, Hpr. unfold of_eval, stm_lift. cbn [head].
  pose proof (resolve_agrees plan x (Memo.new p)) as Ha. destruct (Graph.resolve plan (Some x)) as [rg|e|];
    destruct (Memo.evaluate plan (Some x) (Memo.new p)) as [t [rep|e'|]]; cbn [snd] in *; try (exfalso; by apply Ha);
    [|right; done].
  left. exists (Memo.er_target_id rep). eexists _, _. split; [reflexivity|]. cbn [option_bind mbind mret stm_ret snd].
  rewrite Ha by done. reflexivity.
Qed.

(** What is not implemented is refused, and nothing is touched. *)
Lemma cli_refuses dir cmd args w : cmd ∈ str <$> ["build"; "push"; "pull"]%string →
  run (str "--store" :: dir :: cmd :: args) w = (eprint (Failed (Message (pending cmd))) w, Err 1).
Proof.
  intros Hc. rewrite (run_store dir cmd args (say (pending cmd))); [done|..];
    (repeat (apply elem_of_cons in Hc as [->|Hc]; [done|]); by apply not_elem_of_nil in Hc).
Qed.

End safe.

(** ** Concrete runs *)
Section witnesses.
#[local] Existing Instances toy_blake3 toy_blake3_laws toy_lz4 toy_lz4_laws toy_ed25519 toy_ed25519_laws.
#[local] Existing Instances HotStore.full_writes.
Definition demo_codec : JsonCodec := {| json_from_slice _ := None; json_to_vec v := match v with JObj l => concat l.*1 | _ => [] end |}.
#[local] Existing Instance demo_codec.
Definition demo_env : environment := {|
  env_store := None; env_hot_limit := Some (str "64K"); env_hot_dir := None; temp_dir := str "/tmp"; file_sizes _ := None; eval_us := 5 |}.
Definition demo_world : world := World ∅ {[ str "a.txt" := str "hello"; str "plan.json" := str "cc" ]} [] [].
Definition demo_parse (b : bytes) : option (list Derivation.Derivation) := Some [Memo.node b [] [str "src"]].
Definition demo_run : list bytes → stm world Z (option bytes) := Cli.run demo_env 1 [0%nat] demo_parse id.

Lemma demo_open : Store.open empty_disk = Ok store0.
Proof. vm_compute. reflexivity. Qed.
Lemma demo_holds : holds (str "d") demo_world abs_empty.
Proof. exists store0. split; [exact demo_open|apply inv_empty]. Qed.
Lemma cli_put_get_witness : ∃ w1 w2 id rest line cs, let raws := Cdc.chunk_bytes (str "hello") <$> cs in
  Cdc.chunk_payload (str "hello") Cdc.default_config = Ok cs ∧ concat raws = str "hello" ∧
  demo_run ([str "--store"; str "d"; str "put"] ++ put_args (str "a.txt") None) demo_world = (w1, Ok (Some (hex id ++ str "  " ++ rest))) ∧
  demo_run ([str "--store"; str "d"; str "get"] ++ get_args id (str "b.txt")) w1 = (w2, Ok (Some line)) ∧
  w_files w2 !! str "b.txt" = Some (HotStore.delivered 1 raws) ∧
  (Zlen cs < 64 ∨ (1 ≤ 1)%nat ∨ HotStore.wholly raws → w_files w2 !! str "b.txt" = Some (str "hello")).
Proof.
  unfold demo_run. apply (cli_put_get demo_env 1 [0%nat] demo_parse id (str "d") (str "a.txt") (str "b.txt") (str "hello") None demo_world abs_empty 65536);
    [vm_compute; reflexivity|done|vm_compute; reflexivity|exact demo_holds|..|vm_compute; reflexivity|vm_compute; reflexivity].
  - intros s Ho. change (disk_at _ _) with empty_disk in Ho. rewrite demo_open in Ho. injection Ho as <-. split; vm_compute; done.
  - intros cs Hcs. vm_compute in Hcs. injection Hcs as <-. split; [split|].
    + intros a b ->%list_elem_of_singleton ->%list_elem_of_singleton _. reflexivity.
    + intros raw x _ Hx. cbn in Hx. by rewrite lookup_empty in Hx.
    + intros i. rewrite list_elem_of_singleton. cbn. lia.
Defined.
Lemma cli_dry_run_exact_witness : ∃ w1 roots w2 r,
  demo_run [str "--store"; str "d"; str "gc"; str "--dry-run"] demo_world =
    (w1, Ok (Some (render (dry_run_json (roots, Store.gr_live_chunks r, Store.gr_dead_chunks r))))) ∧
  w_files w1 = w_files demo_world ∧ (∀ d, disk_at d w1 = disk_at d demo_world) ∧
  demo_run [str "--store"; str "d"; str "gc"] demo_world = (w2, Ok (Some (render (gc_json r)))).
Proof. unfold demo_run. exact (cli_dry_run_exact demo_env 1 [0%nat] demo_parse id (str "d") demo_world abs_empty demo_holds). Defined.
Definition demo_plan : Graph.Plan := {[ str "cc" := Memo.node (str "cc") [] [str "src"] ]}.
Lemma demo_plan_loads : load_plan demo_parse id (str "plan.json") demo_world = (demo_world, Ok demo_plan).
Proof. vm_cast_no_check (eq_refl (demo_world, @Ok cli_error _ demo_plan)). Qed.
Lemma demo_opens : Store.open (disk_at (str "d") demo_world) ≠ Panic.
Proof. change (disk_at _ _) with empty_disk. by rewrite demo_open. Qed.
Lemma cli_eval_agrees_witness :
  let eval := (Cli.run demo_env 1 [0%nat] demo_parse id [str "--store"; str "d"; str "eval"; str "plan.json"; str "cc"] demo_world).2 in
  let hash := (Cli.run demo_env 1 [0%nat] demo_parse id [str "--store"; str "d"; str "drv-hash"; str "plan.json"; str "cc"] demo_world).2 in
  (∃ id fields fields', eval = Ok (Some (render (obj (("target"%string, JStr (hex id)) :: fields)))) ∧
                        hash = Ok (Some (render (obj (("target"%string, JStr (hex id)) :: fields'))))) ∨
  eval = Err 1 ∧ hash = Err 1.
Proof.
  exact (cli_eval_agrees demo_env 1 [0%nat] demo_parse id (str "d") (str "plan.json") (str "cc") demo_world demo_plan demo_plan_loads demo_opens).
Defined.
(** The operand of a put is looked for by value: a file named like its own cell is not found. *)
Lemma operand_by_value : put_operand (str <$> ["--name"; "demo"; "demo"]%string) = None ∧
  put_operand (str <$> ["demo"; "--name"; "demo"]%string) = Some (str "demo").
Proof. by vm_compute. Qed.
(** A size whose product with its unit passes 64 bits is not an error. *)
Lemma size_overflow : parse_size (str "17179869184G") = Panic ∧ parse_size (str "17179869183G") = Ok (17179869183 * 2 ^ 30).
Proof. by vm_compute. Qed.
(** A [--sign] at the end of the arguments is no flag: the cell is stored unsigned. *)
Lemma sign_without_seed : flag (str <$> ["a.txt"; "--sign"]%string) "--sign" = None.
Proof. done. Qed.
End witnesses.
End CliSafe.
