(* ===== verification/Modhost.v ===== *)
(** * The module host's command line ([cranelift/src/bin/modhost.rs])

    The options of the [host] command, the check of one permission, hosting a
    directory (load, attestation gate, hot swap, calls), and the older mode that
    drives a compiler process line by line. What goes to the standard output is
    kept as lines, with the events of [--json] as values; diagnostics are the
    other stream. *)

From S2P Require Import Prelude Cursor Text Toml Auth Attest Clif Symbols Cps CpsCorrect Jit ModuleHost RefiJson.
Import Toml Clif Cps CpsCorrect Jit ModuleHost RefiJson.

Module Modhost.
#[local] Existing Instance Auth.manifest_engine.

Definition USAGE_AUTHORIZE : bytes := str "usage: modhost authorize <manifest.toml> <module> <uk_symbol> [--json]".
Definition USAGE_HOST : bytes :=
  str "usage: modhost host <module-dir> --call <ep> [--args ...] [--args-json <json>] [--repeat N] [--swap <dir>] [--json]".
Definition USAGE_LEGACY : bytes := str "usage: modhost host-legacy <austral-path> <module-src>... -- <entrypoint>...".

(** ** The options of [host] *)
Inductive usage :=
| RequiresValue (flag : bytes)
| RequiresValueGot (flag v : bytes)
| ExpectsIntegers (v : bytes)
| ExpectsWhole (v : bytes)
| UnknownOption (v : bytes).

Record options := Options {
  o_entrypoint : bytes; o_call_args : list Z; o_args_json : option bytes; o_repeat : Z; o_swap_dir : option bytes; o_json : bool
}.
Definition no_options : options := Options (str "run") [] None 1 None false.
Definition set_entrypoint (v : bytes) (o : options) : options :=
  Options v (o_call_args o) (o_args_json o) (o_repeat o) (o_swap_dir o) (o_json o).
Definition push_arg (v : Z) (o : options) : options :=
  Options (o_entrypoint o) (o_call_args o ++ [v]) (o_args_json o) (o_repeat o) (o_swap_dir o) (o_json o).
Definition set_args_json (v : bytes) (o : options) : options :=
  Options (o_entrypoint o) (o_call_args o) (Some v) (o_repeat o) (o_swap_dir o) (o_json o).
Definition set_repeat (n : Z) (o : options) : options :=
  Options (o_entrypoint o) (o_call_args o) (o_args_json o) n (o_swap_dir o) (o_json o).
Definition set_swap (v : bytes) (o : options) : options :=
  Options (o_entrypoint o) (o_call_args o) (o_args_json o) (o_repeat o) (Some v) (o_json o).
Definition set_json (o : options) : options :=
  Options (o_entrypoint o) (o_call_args o) (o_args_json o) (o_repeat o) (o_swap_dir o) true.

Definition is_option (a : bytes) : bool := starts_with (str "--") a.
(** The value that follows a flag, and where the scan goes on. *)
Definition opt_value (flag : String.string) (rest : list bytes) : res usage bytes :=
  match rest with
  | [] => Err (RequiresValue (str flag))
  | v :: _ => if is_option v then Err (RequiresValueGot (str flag) v) else Ok v
  end.
Definition next (l : list bytes) : list bytes := match l with [] => l | _ :: l' => l' end.

(** [in_args] is the inner loop of [--args]: it ends at the next option. *)
Fixpoint host_options (in_args : bool) (o : options) (args : list bytes) : res usage options :=
  match args with
  | [] => Ok o
  | a :: rest =>
      let named (s : String.string) := bool_decide (a = str s) in
      if in_args && negb (is_option a) then
        v ← ok_or (parse_i64 a) (ExpectsIntegers a);
        host_options true (push_arg v o) rest
      else if named "--call" then v ← opt_value "--call" rest; host_options false (set_entrypoint v o) (next rest)
      else if named "--args-json" then v ← opt_value "--args-json" rest; host_options false (set_args_json v o) (next rest)
      else if named "--args" then host_options true o rest
      else if named "--repeat" then
        v ← opt_value "--repeat" rest;
        n ← ok_or (parse_uint (2 ^ 64) v) (ExpectsWhole v);
        host_options false (set_repeat n o) (next rest)
      else if named "--swap" then v ← opt_value "--swap" rest; host_options false (set_swap v o) (next rest)
      else if named "--json" then host_options false (set_json o) rest
      else Err (UnknownOption a)
  end.

(** ** What a run leaves on the two streams *)
Inductive line := Line (b : bytes) | Event (v : json).
Inductive diag := Diag (b : bytes) | Usage (u : usage) (text : bytes).

(** What the attestation gate sees of a directory. *)
Class ModuleDirs (X : Type) := module_dir : bytes → X → Attest.mdir.
(** A child process spoken to line by line; an empty line is the end of its
    output. *)
Class JitServer (X : Type) := {
  srv_spawn : bytes → list bytes → stm X bytes ();
  srv_read_line : stm X bytes bytes;
  srv_write : bytes → stm X bytes ();
  srv_kill : X → X;
  srv_wait : X → X
}.

Section modhost.
Context {J : Type} `{ClifModule J, !JitBackend J} {X : Type} `{HostWorld X, TomlText, ModuleDirs X, JitServer X}.
Variable clock : nat → Z.
Variable ft : features.
Variable ecmascript : bool.

Record term := Term { t_host : @state J X _; t_stdout : list line; t_stderr : list diag }.
(** A failure is an exit code. *)
Abbreviation cm := (stm term Z).

Definition println (l : line) : cm () := λ w, (Term (t_host w) (t_stdout w ++ [l]) (t_stderr w), Ok ()).
Definition eprintln (d : diag) : cm () := λ w, (Term (t_host w) (t_stdout w) (t_stderr w ++ [d]), Ok ()).
Definition emit (js : bool) (event : json) : cm () := if js then println (Event event) else mret ().
Definition say (js : bool) (b : bytes) : cm () := if js then mret () else println (Line b).
(** An operation of the host; its result is a value here. *)
Definition host {A} (m : stm (@state J X _) bytes A) : cm (A + bytes) := λ w,
  match m (t_host w) with
  | (s, Ok a) => (Term s (t_stdout w) (t_stderr w), Ok (inl a))
  | (s, Err e) => (Term s (t_stdout w) (t_stderr w), Ok (inr e))
  | (s, Panic) => (Term s (t_stdout w) (t_stderr w), Panic)
  end.
Definition error_event (kind : String.string) (detail : bytes) (more : list (String.string * json)) : json :=
  obj (("event", text "error") :: ("kind", text kind) :: ("detail", JStr detail) :: more)%string.
Definition refuse {A} (js : bool) (event : json) (d : bytes) (code : Z) : cm A :=
  _ ← emit js event; _ ← eprintln (Diag d); stm_err code.
Definition usage_error {A} (u : usage) (text : bytes) : cm A := _ ← eprintln (Usage u text); stm_err 2.

(** ** [authorize] *)
Definition check_call (principal symbol : bytes) : stm (@state J X _) bytes () := thr (λ t,
  let '(a, r) := Auth.check (clock (t_tick t)) principal (str "Call") symbol (t_auth t) in
  ({| t_jit := t_jit t; t_error := t_error t; t_module := t_module t; t_exports := t_exports t;
      t_auth := a; t_tick := t_tick t; t_statics := t_statics t |}, r)).
Definition decision (allowed : bool) (principal symbol : bytes) (more : list (String.string * json)) : json :=
  obj (("event", text "decision") :: ("allowed", JBool allowed) :: ("principal", JStr principal) :: ("symbol", JStr symbol) :: more)%string.
Definition cmd_authorize (manifest_path principal symbol : bytes) (js : bool) : cm () :=
  toml ← host (out (read_to_string manifest_path));
  match toml with
  | inr e =>
      let m := str "cannot read manifest " ++ manifest_path ++ str ": " ++ e in
      refuse js (error_event "manifest_unreadable" m []) (str "modhost: " ++ m) 2
  | inl toml =>
      match Auth.from_toml_str toml with
      | Err e =>
          let m := str "invalid manifest: " ++ e in
          refuse js (error_event "manifest_invalid" m []) (str "modhost: " ++ m) 2
      | Panic => stm_lift Panic
      | Ok engine =>
          _ ← host (set_auth (Auth.set_auth_engine (Auth.Dyn engine)));
          r ← host (check_call principal symbol);
          match r with
          | inl _ =>
              _ ← emit js (decision true principal symbol []);
              say js (str "ALLOW: module '" ++ principal ++ str "' may Call '" ++ symbol ++ str "'")
          | inr reason =>
              refuse js (decision false principal symbol [("reason", JStr reason)]%string) (str "UK-4001 CallDenied: " ++ reason) 1
          end
      end
  end.

(** ** [host] *)
Definition verify_at (dir : bytes) (mode : Auth.LiquidMode) : stm (@state J X _) bytes bytes := λ s,
  (s, Attest.verify_module (module_dir dir (h_x s)) mode).
Definition liquid_posture (dir : bytes) : stm (@state J X _) bytes bytes := λ s,
  let path := path_join dir (str "module.toml") in
  match out (read_to_string path) s with
  | (s, Err _) => verify_at dir Auth.Off s
  | (s, Panic) => (s, Panic)
  | (s, Ok toml) =>
      match Auth.from_toml_str toml with
      | Err e => (s, Err (str "LiquidManifestInvalid: " ++ path ++ str ": " ++ e))
      | Panic => (s, Panic)
      | Ok engine =>
          let quals := Auth.liquid_qualifiers engine in
          (note ← verify_at dir (Auth.liquid_mode engine);
           mret (if bool_decide (quals = []) then note
                 else note ++ str " (qualifiers: " ++ concat (intersperse (str ", ") quals) ++ str ")")) s
      end
  end.

Definition new_host : stm (@state J X _) bytes () := λ s, (State ∅ ∅ (h_thread s) (h_x s), Ok ()).
Definition loaded_modules (s : @state J X _) : list bytes := (map_to_list (h_modules s)).*1.
(** [host.loaded_modules()[0]] *)
Definition first_module : cm bytes := λ w,
  (w, match loaded_modules (t_host w) with name :: _ => Ok name | [] => Panic end).

Definition load_module (js : bool) (dir : bytes) : cm () :=
  r ← host (load clock ft ecmascript dir);
  match r with
  | inl handle =>
      let m := mh_manifest handle in
      let n := Z.of_nat (function_count handle) in
      _ ← emit js (obj [("event", text "loaded"); ("module", JStr (mm_name m)); ("version", JStr (mm_version m)); ("functions", JNum n);
                          ("entry", JStr (mm_entry m))]%string);
      say js (str "modhost: loaded '" ++ mm_name m ++ str "' v" ++ mm_version m ++ str " (" ++ dec n ++ str " functions, entry='" ++
                mm_entry m ++ str "')")
  | inr e =>
      let m := str "load failed: " ++ e in
      refuse js (error_event "load_failed" m []) (str "modhost: " ++ m) 1
  end.
Definition attestation (note : bytes) (phase : String.string) : json :=
  obj [("event", text "attestation"); ("note", JStr note); ("phase", text phase)]%string.
Definition load_gate (js : bool) (dir : bytes) : cm () :=
  r ← host (liquid_posture dir);
  match r with
  | inr e =>
      refuse js (error_event "attestation_refused" e [("phase", text "load")]%string) (str "modhost: refusing to host: " ++ e) 1
  | inl note =>
      if bool_decide (note = []) then mret ()
      else _ ← emit js (attestation note "load"); say js (str "modhost: " ++ note)
  end.
Definition swap_gate (js : bool) (dir : bytes) : cm () :=
  r ← host (liquid_posture dir);
  match r with
  | inr e =>
      refuse js (error_event "attestation_refused" e [("phase", text "swap")]%string) (str "modhost: refusing to hot-swap: " ++ e) 1
  | inl note => _ ← emit js (attestation note "swap"); say js (str "modhost: swap attestation: " ++ note)
  end.
Definition swap_module (js : bool) (dir : bytes) : cm () :=
  name ← first_module;
  _ ← swap_gate js dir;
  r ← host (swap clock ft ecmascript name dir);
  match r with
  | inl _ =>
      _ ← emit js (obj [("event", text "swapped"); ("module", JStr name); ("from", JStr dir)]%string);
      say js (str "modhost: hot-swapped '" ++ name ++ str "' from " ++ dir)
  | inr e =>
      let m := str "swap failed: " ++ e in
      refuse js (error_event "swap_failed" m []) (str "modhost: " ++ m) 1
  end.
Definition call_once (o : options) (name : bytes) : stm (@state J X _) bytes bytes :=
  match o_args_json o with
  | Some args => if ecmascript then call_json name (o_entrypoint o) args else stm_err (str "--args-json requires the 'ecmascript' feature")
  | None => v ← call ecmascript name (o_entrypoint o) (o_call_args o); mret (dec_i64 v)
  end.
Definition one_call (o : options) (name : bytes) (idx : Z) : cm () :=
  let js := o_json o in
  let ep := o_entrypoint o in
  let counts := [("iteration", JNum idx); ("repeat", JNum (o_repeat o))]%string in
  _ ← (if (1 <? o_repeat o) && negb js then println (Line (str "--- call " ++ dec idx ++ str "/" ++ dec (o_repeat o) ++ str " ---")) else mret ());
  r ← host (call_once o name);
  match r with
  | inl result =>
      _ ← emit js (obj (("event", text "call") :: ("entrypoint", JStr ep) :: ("result", JStr result) :: counts)%string);
      say js (ep ++ str ": " ++ result)
  | inr e =>
      let m := str "call failed: " ++ e in
      refuse js (error_event "call_failed" m (("entrypoint", JStr ep) :: counts)%string) (str "modhost: " ++ m) 1
  end.
Fixpoint call_loop (o : options) (name : bytes) (n : nat) (idx : Z) : cm () :=
  match n with O => mret () | S n => _ ← one_call o name idx; call_loop o name n (idx + 1) end.
Definition cmd_host (dir : bytes) (args : list bytes) : cm () :=
  match host_options false no_options args with
  | Err u => usage_error u USAGE_HOST
  | Panic => stm_lift Panic
  | Ok o =>
      _ ← host new_host;
      _ ← load_module (o_json o) dir;
      _ ← load_gate (o_json o) dir;
      _ ← (match o_swap_dir o with Some sd => swap_module (o_json o) sd | None => mret () end);
      name ← first_module;
      call_loop o name (Z.to_nat (o_repeat o)) 1
  end.

(** ** [host-legacy] *)
Definition server {A} (m : stm X bytes A) : cm (A + bytes) := host (out m).
Definition kill : cm () := λ w, (Term (State (h_modules (t_host w)) (h_instances (t_host w)) (h_thread (t_host w)) (srv_kill (h_x (t_host w))))
                                   (t_stdout w) (t_stderr w), Ok ()).
Definition wait : cm () := λ w, (Term (State (h_modules (t_host w)) (h_instances (t_host w)) (h_thread (t_host w)) (srv_wait (h_x (t_host w))))
                                   (t_stdout w) (t_stderr w), Ok ()).
Definition abandon {A} (d : bytes) : cm A := _ ← eprintln (Diag d); _ ← kill; stm_err 1.
Definition server_args (module_args : list bytes) : list bytes :=
  [str "compile"] ++ module_args ++ [str "--jit-server"; str "--allow-all"; str "--target-type=tc"].
Fixpoint legacy_calls (targets : list bytes) : cm () :=
  match targets with
  | [] => mret ()
  | target :: targets =>
      w ← server (srv_write (str "call " ++ target ++ [LF]));
      match w with
      | inr _ => stm_lift Panic
      | inl _ =>
          r ← server srv_read_line;
          match r with
          | inl [] => mret ()
          | inr e => eprintln (Diag (str "modhost: read error: " ++ e))
          | inl result_line =>
              let result := trim result_line in
              match strip_prefix (str "RESULT ") result with
              | Some val => _ ← println (Line (target ++ str ": " ++ val)); legacy_calls targets
              | None =>
                  if starts_with (str "ERROR ") result then abandon (str "modhost: " ++ result)
                  else _ ← eprintln (Diag (str "modhost: unexpected output: " ++ result)); legacy_calls targets
              end
          end
      end
  end.
Definition spawn_jit_server (austral_path : bytes) (module_args call_args : list bytes) : cm () :=
  child ← server (srv_spawn austral_path (server_args module_args));
  match child with
  | inr e => _ ← eprintln (Diag (str "modhost: failed to spawn austral: " ++ e)); stm_err 1
  | inl _ =>
      ready ← server srv_read_line;
      match ready with
      | inr e => abandon (str "modhost: failed to read from austral: " ++ e)
      | inl ready_line =>
          if starts_with (str "READY") ready_line then
            _ ← legacy_calls call_args;
            _ ← server (srv_write (str "exit" ++ [LF]));
            wait
          else abandon (str "modhost: unexpected output from austral: " ++ ready_line)
      end
  end.
(** Before the first [--] and after it; later ones are dropped. *)
Fixpoint split_args (seen : bool) (args : list bytes) : list bytes * list bytes :=
  match args with
  | [] => ([], [])
  | a :: args =>
      if bool_decide (a = str "--") then split_args true args
      else let '(m, c) := split_args seen args in if seen then (m, a :: c) else (a :: m, c)
  end.

(** ** The dispatcher *)
Definition print_usage (p : bytes → cm ()) : cm () := _ ← p USAGE_AUTHORIZE; _ ← p USAGE_HOST; p USAGE_LEGACY.
Definition fail_usage (u : bytes) : cm () := _ ← eprintln (Diag u); stm_err 2.
Definition asks_help (a : bytes) : bool := bool_decide (a = str "--help") || bool_decide (a = str "-h").
Fixpoint before_dashes (args : list bytes) : list bytes :=
  match args with [] => [] | a :: args => if bool_decide (a = str "--") then [] else a :: before_dashes args end.
Definition run (args : list bytes) : cm () :=
  match before_dashes args with
  | [] => stm_lift Panic
  | _ :: pre =>
      if existsb asks_help pre then print_usage (λ u, println (Line u))
      else match args with
      | _ :: sub :: rest =>
          if bool_decide (sub = str "authorize") then
            let js := bool_decide (str "--json" ∈ rest) in
            match filter (λ t, t ≠ str "--json") rest with
            | [manifest; principal; symbol] => cmd_authorize manifest principal symbol js
            | _ => fail_usage USAGE_AUTHORIZE
            end
          else if bool_decide (sub = str "host") then
            match rest with dir :: opts => cmd_host dir opts | [] => fail_usage USAGE_HOST end
          else if bool_decide (sub = str "host-legacy") then
            match rest with
            | austral_path :: ((_ :: _) as rest) =>
                match split_args false rest with
                | ([], _) => fail_usage (str "modhost: no module sources provided")
                | (module_args, call_args) => spawn_jit_server austral_path module_args call_args
                end
            | _ => fail_usage USAGE_LEGACY
            end
          else _ ← print_usage (λ u, eprintln (Diag u)); stm_err 2
      | _ => _ ← print_usage (λ u, eprintln (Diag u)); stm_err 2
      end
  end.
(** The exit code. *)
Definition main (args : list bytes) (w : term) : term * res Empty_set Z :=
  match run args w with (w, Ok _) => (w, Ok 0) | (w, Err code) => (w, Ok code) | (w, Panic) => (w, Panic) end.
End modhost.
End Modhost.
