(* ===== verification/ModhostSafe.v ===== *)
(** * What the module host's command line promises

    The options are exactly those of a grammar; a permission is granted exactly
    when the manifest lists it; a module runs only after its attestation, and
    that of the module swapped in, was accepted; under [--json] the standard
    output holds events only. Module [ModhostDemo]: the command line at work. *)

From S2P Require Import Prelude Cursor Text Toml Auth Attest Clif Symbols Cps CpsLang CpsCorrect Jit ModuleHost Demo RefiJson Modhost.
Import Toml Clif Cps CpsCorrect Jit ModuleHost RefiJson Modhost.

Module ModhostSafe.
#[local] Existing Instance Auth.manifest_engine.

(** ** The grammar of the options *)

(** A group of arguments; the integers of [--args] with their values. *)
Inductive group :=
| GCall (v : bytes)
| GArgsJson (v : bytes)
| GArgs (l : list (bytes * Z))
| GRepeat (v : bytes) (n : Z)
| GSwap (v : bytes)
| GJson.
Definition value (v : bytes) : Prop := is_option v = false.
Definition group_wf (g : group) : Prop :=
  match g with
  | GCall v | GArgsJson v | GSwap v => value v
  | GArgs l => Forall (λ p, value p.1 ∧ parse_i64 p.1 = Some p.2) l
  | GRepeat v n => value v ∧ parse_uint (2 ^ 64) v = Some n
  | GJson => True
  end.
Definition group_tokens (g : group) : list bytes :=
  match g with
  | GCall v => [str "--call"; v]
  | GArgsJson v => [str "--args-json"; v]
  | GArgs l => str "--args" :: l.*1
  | GRepeat v _ => [str "--repeat"; v]
  | GSwap v => [str "--swap"; v]
  | GJson => [str "--json"]
  end.
Definition group_set (o : options) (g : group) : options :=
  match g with
  | GCall v => set_entrypoint v o
  | GArgsJson v => set_args_json v o
  | GArgs l => foldl (λ o p, push_arg p.2 o) o l
  | GRepeat _ n => set_repeat n o
  | GSwap v => set_swap v o
  | GJson => set_json o
  end.

Lemma no_flag_value v : value v → ∀ s, is_option (str s) = true → v ≠ str s.
Proof. unfold value. congruence. Qed.
Lemma opt_value_Ok f rest v : opt_value f rest = Ok v ↔ value v ∧ rest = v :: next rest.
Proof.
  destruct rest as [|v' rest]; cbn; [naive_solver|]. unfold value. destruct (is_option v') eqn:E; split.
  - done.
  - intros [? [= ->]]. congruence.
  - by intros [= ->].
  - by intros [_ [= ->]].
Qed.

(** The integers after [--args], read in the inner loop, then the rest. *)
Lemma host_options_ints l o args : Forall (λ p, value p.1 ∧ parse_i64 p.1 = Some p.2) l →
  host_options true o (l.*1 ++ args) = host_options true (foldl (λ o p, push_arg p.2 o) o l) args.
Proof.
  intros Hl. revert o. induction Hl as [|[a z] l [Ha Hz] _ IH]; intros o; [done|]. cbn in *. rewrite Ha. cbn. rewrite Hz. cbn. apply IH.
Qed.
Lemma host_options_mode o args : (∀ a rest, args = a :: rest → is_option a = true) → host_options true o args = host_options false o args.
Proof. destruct args as [|a rest]; [done|]. intros H. cbn. by rewrite (H a rest). Qed.
Lemma tokens_head gs a rest : concat (group_tokens <$> gs) = a :: rest → is_option a = true.
Proof. destruct gs as [|[] gs]; intros [= <- _]; done. Qed.
Lemma host_options_group o g gs : group_wf g →
  host_options false o (group_tokens g ++ concat (group_tokens <$> gs)) = host_options false (group_set o g) (concat (group_tokens <$> gs)).
Proof.
  destruct g as [v|v|l|v n|v|]; cbn [group_wf group_tokens app]; intros Hg.
  3: { change (host_options true o (l.*1 ++ concat (group_tokens <$> gs)) = host_options false (group_set o (GArgs l)) (concat (group_tokens <$> gs))).
       rewrite host_options_ints by done. apply host_options_mode, tokens_head. }
  3: destruct Hg as [Hg Hn].
  all: unfold value in *; cbn -[parse_uint]; try (rewrite Hg; cbn -[parse_uint]); try rewrite Hn; done.
Qed.
Lemma host_options_complete gs : ∀ o, Forall group_wf gs → host_options false o (concat (group_tokens <$> gs)) = Ok (foldl group_set o gs).
Proof.
  induction gs as [|g gs IH]; intros o Hg; [done|]. apply Forall_cons in Hg as [Hg Hgs].
  cbn [fmap list_fmap concat]. rewrite host_options_group by done. by apply IH.
Qed.

(** What a scan that succeeds has read: integers, when it began inside
    [--args], then groups. *)
Definition scanned (m : bool) (o : options) (args : list bytes) (o' : options) : Prop :=
  ∃ l gs, (m = false → l = []) ∧ group_wf (GArgs l) ∧ Forall group_wf gs ∧ args = l.*1 ++ concat (group_tokens <$> gs) ∧
    o' = foldl group_set (group_set o (GArgs l)) gs.
Lemma scanned_group m g o args o' : group_wf g → (∀ l, g ≠ GArgs l) → scanned false (group_set o g) args o' → scanned m o (group_tokens g ++ args) o'.
Proof.
  intros Hg Hn (l & gs & Hl & _ & Hgs & -> & ->). rewrite (Hl eq_refl). exists [], (g :: gs). cbn. split_and!; try done. by constructor.
Qed.
Lemma scanned_args m o args o' : scanned true o args o' → scanned m o (str "--args" :: args) o'.
Proof. intros (l & gs & _ & Hl & Hgs & -> & ->). exists [], (GArgs l :: gs). cbn. split_and!; try done. by constructor. Qed.
Lemma scanned_int o a z args o' : value a → parse_i64 a = Some z → scanned true (push_arg z o) args o' → scanned true o (a :: args) o'.
Proof. intros Ha Hz (l & gs & _ & Hl & Hgs & -> & ->). exists ((a, z) :: l), gs. cbn in *. split_and!; try done. by constructor. Qed.
Lemma host_options_sound n : ∀ m o args o', (length args ≤ n)%nat → host_options m o args = Ok o' → scanned m o args o'.
Proof.
  induction n as [|n IH]; intros m o [|a rest] o' Hn; cbn [length] in Hn; [|lia|..].
  1, 2: intros [= <-]; exists [], []; split_and!; done || by constructor.
  assert (∀ m o o', host_options m o rest = Ok o' → scanned m o rest o') as IH1 by (intros; apply IH; [lia|done]).
  assert (∀ v o o', rest = v :: next rest → host_options false o (next rest) = Ok o' → scanned false o (next rest) o') as IH2.
  { intros v o1 o2 Hv. apply IH. rewrite Hv in Hn. cbn [length] in Hn. lia. }
  cbn [host_options]. destruct (m && negb (is_option a)) eqn:Em.
  { apply andb_true_iff in Em as [-> Ha%negb_true_iff]. intros (z & Hz%ok_or_Ok & H)%bind_Ok. by eapply scanned_int, IH1. }
  clear Em. repeat (case_bool_decide as Hc; [subst a|clear Hc]).
  - intros (v & [Hv Hr]%opt_value_Ok & H)%bind_Ok. rewrite Hr. apply (scanned_group m (GCall v)); [done..|]. by eapply IH2.
  - intros (v & [Hv Hr]%opt_value_Ok & H)%bind_Ok. rewrite Hr. apply (scanned_group m (GArgsJson v)); [done..|]. by eapply IH2.
  - intros H. by apply scanned_args, IH1.
  - intros (v & [Hv Hr]%opt_value_Ok & (k & Hk%ok_or_Ok & H)%bind_Ok)%bind_Ok. rewrite Hr. apply (scanned_group m (GRepeat v k)); [done..|]. by eapply IH2.
  - intros (v & [Hv Hr]%opt_value_Ok & H)%bind_Ok. rewrite Hr. apply (scanned_group m (GSwap v)); [done..|]. by eapply IH2.
  - intros H. apply (scanned_group m GJson); [done..|]. by apply IH1.
  - done.
Qed.
Lemma host_options_no_panic n : ∀ m o args, (length args ≤ n)%nat → host_options m o args ≠ Panic.
Proof.
  induction n as [|n IH]; intros m o [|a rest] Hn; cbn [length] in Hn; [done|lia|done|].
  assert (∀ m o, host_options m o rest ≠ Panic) as IH1 by (intros; apply IH; lia).
  assert (∀ o, host_options false o (next rest) ≠ Panic) as IH2 by (intros; apply IH; destruct rest; cbn in *; lia).
  assert (∀ f, opt_value f rest ≠ Panic) as Hv by (intros f; destruct rest as [|v ?]; cbn; [done|by destruct (is_option v)]).
  cbn [host_options]. repeat case_match; try done.
  all: repeat (apply no_panic_bind; [first [apply Hv|apply no_panic_ok_or]|intros ? _]); first [apply IH1|apply IH2].
Qed.

(** The options of [host] are read without a default in place of a mistake:
    the scan accepts exactly the sequences of option groups of the grammar, with
    each flag followed by a value that is no option, whole numbers where they
    are due and every integer of [--args] kept, and sets what the groups say in
    their order; it never panics. *)
Theorem host_options_exact o args o' :
  (host_options false o args = Ok o' ↔
   ∃ gs, Forall group_wf gs ∧ args = concat (group_tokens <$> gs) ∧ o' = foldl group_set o gs) ∧
  host_options false o args ≠ Panic.
Proof.
  split; [split|].
  - intros H%(host_options_sound (length args)); [|done]. destruct H as (l & gs & Hl & _ & Hgs & -> & ->). rewrite (Hl eq_refl). by exists gs.
  - intros (gs & Hgs & -> & ->). by apply host_options_complete.
  - by eapply host_options_no_panic.
Qed.

Create HintDb calm.

(** ** One permission *)
Section safe.
Context {J : Type} `{ClifModule J, !JitBackend J} {X : Type} `{HostWorld X, TomlText, ModuleDirs X, JitServer X}.
Variable clock : nat → Z.
Variable ft : features.
Variable ecmascript : bool.
Abbreviation host_state := (@state J X _).
Abbreviation term := (@term J X _).
Abbreviation cm := (stm term Z).
Abbreviation main := (Modhost.main (J:=J) (X:=X) clock ft ecmascript).
Abbreviation outside := (λ w : term, h_x (t_host w)).

(** The manifest a text stands for, when the engine accepts it. *)
Definition manifest_of (t : bytes) : option Auth.ManifestToml :=
  match Auth.from_toml_str t with Ok _ => v ← toml_parse t; Auth.de_manifest v | _ => None end.
Lemma from_toml_no_panic t : Auth.from_toml_str t ≠ Panic.
Proof. unfold Auth.from_toml_str. no_panic. unfold Auth.liquid_parse. no_panic. Qed.
Lemma engine_manifest t e p r : Auth.from_toml_str t = Ok e →
  ∃ m, manifest_of t = Some m ∧ (Auth.is_granted e p r = true ↔ Auth.grants_call m p r).
Proof.
  intros He. destruct (Auth.from_toml_granted t e p r He) as (m & Hm & _ & Hg & _). exists m. unfold manifest_of. by rewrite He.
Qed.

Definition events (js : bool) (e : json) : list line := if js then [Event e] else [].
Lemma refuse_run {A} js e d code (w : term) :
  refuse (A:=A) js e d code w = (Term (t_host w) (t_stdout w ++ events js e) (t_stderr w ++ [Diag d]), Err code).
Proof. unfold refuse, mbind, stm_bind. destruct js; cbn; by rewrite ?app_nil_r. Qed.
Lemma check_manifest now e p r a :
  (Auth.check now p (str "Call") r (Auth.set_auth_engine (Auth.Dyn e) a)).2 =
  if Auth.is_granted e p r then Ok () else Err (str "UK-4001: Authorization denied: {} is not granted {}").
Proof. cbn. unfold Auth.check_with, Auth.authorize, Auth.dyn_authorize, Auth.manifest_engine. cbn. by destruct (Auth.is_granted e p r). Qed.

(** The three outcomes of an authorization. *)
Definition known (r : res bytes bytes) : Prop := ∃ t m, r = Ok t ∧ manifest_of t = Some m.
Definition granted (r : res bytes bytes) (p sym : bytes) : Prop := ∃ t m, r = Ok t ∧ manifest_of t = Some m ∧ Auth.grants_call m p sym.
Definition verdict (r : res bytes bytes) (p sym : bytes) (code : Z) : Prop :=
  (code = 0 ↔ granted r p sym) ∧ (code = 1 ↔ known r ∧ ¬ granted r p sym) ∧ (code = 2 ↔ ¬ known r).
Lemma verdict_unknown r p sym : ¬ known r → verdict r p sym 2.
Proof. intros Hk. split_and!; split; try done; [|by intros [? _]]. intros (t & m & Ht & Hm & _). destruct Hk. by exists t, m. Qed.
Lemma verdict_known t m p sym (b : bool) : manifest_of t = Some m → (b = true ↔ Auth.grants_call m p sym) → verdict (Ok t) p sym (if b then 0 else 1).
Proof.
  intros Hm Hb. assert (known (Ok t)) as Hk by by exists t, m.
  assert (granted (Ok t) p sym ↔ b = true) as Hg.
  { rewrite Hb. split; [intros (t' & m' & [= <-] & Hm' & ?); congruence|by exists t, m]. }
  unfold verdict. rewrite Hg. destruct b; naive_solver.
Qed.
Lemma authorize_run path p sym js (w : term) x' r : read_to_string path (outside w) = (x', r) → r ≠ Panic →
  ∃ w' o code, cmd_authorize clock path p sym js w = (w', o) ∧ verdict r p sym code ∧ o = (if code =? 0 then Ok () else Err code).
Proof.
  intros Hr Hp. unfold cmd_authorize, mbind, stm_bind, host, out. rewrite Hr. destruct r as [t|e|]; [| |done]; cbn [t_host].
  2: { rewrite refuse_run. eexists _, _, 2. split; [reflexivity|]. split; [|done]. apply verdict_unknown. by intros (? & ? & ? & _). }
  pose proof (from_toml_no_panic t). destruct (Auth.from_toml_str t) as [e|e|] eqn:Et; [| |done].
  2: { rewrite refuse_run. eexists _, _, 2. split; [reflexivity|]. split; [|done]. apply verdict_unknown.
       intros (t' & m & [= <-] & Hm). unfold manifest_of in Hm. by rewrite Et in Hm. }
  destruct (engine_manifest t e p sym Et) as (m & Hm & Hg). cbn [set_auth thr h_thread t_host h_x h_modules h_instances t_auth].
  pose proof (verdict_known t m p sym _ Hm Hg) as Hv. unfold check_call, thr. cbn [h_thread t_host h_x h_modules h_instances t_auth t_tick].
  match goal with |- context [Auth.check ?now _ _ _ _] => pose proof (check_manifest now e p sym (t_auth (h_thread (t_host w)))) as Hc end.
  destruct (Auth.check _ _ _ _ _) as [a r]. cbn [snd] in Hc. subst r. destruct (Auth.is_granted e p sym).
  - destruct js; by eexists _, _, 0.
  - rewrite refuse_run. by eexists _, _, 1.
Qed.

(** An argument the dispatcher does not interpret. *)
Definition plain (a : bytes) : Prop := a ∉ str <$> ["--json"; "--help"; "-h"; "--"]%string.
Lemma before_plain l rest : Forall (λ a, a ≠ str "--") l → before_dashes (l ++ rest) = l ++ before_dashes rest.
Proof. induction 1 as [|a l Ha _ IH]; [done|]. cbn. rewrite bool_decide_eq_false_2 by done. by rewrite IH. Qed.
Lemma no_help l : Forall (λ a, a ≠ str "--help" ∧ a ≠ str "-h") l → existsb asks_help l = false.
Proof. induction 1 as [|a l [Ha Hb] _ IH]; [done|]. cbn. rewrite IH. unfold asks_help. by rewrite !bool_decide_eq_false_2. Qed.
Lemma plain_ne a : plain a → a ≠ str "--json" ∧ a ≠ str "--help" ∧ a ≠ str "-h" ∧ a ≠ str "--".
Proof. unfold plain. cbn. rewrite !not_elem_of_cons. naive_solver. Qed.
Definition json_flag (js : bool) : list bytes := if js then [str "--json"] else [].

(** [authorize] answers for the manifest alone: whatever engine the process
    had, it exits with 0 exactly when the manifest is readable and valid and
    grants the call to that module, with 1 exactly when it is readable and
    valid and does not, and with 2 otherwise; it never panics. *)
Theorem authorize_exact prog path p sym js (w : term) x' r :
  prog ≠ str "--" → Forall plain [path; p; sym] → read_to_string path (outside w) = (x', r) → r ≠ Panic →
  ∃ w' code, main ([prog; str "authorize"; path; p; sym] ++ json_flag js) w = (w', Ok code) ∧ verdict r p sym code.
Proof.
  intros Hprog Hpl Hr Hp. assert (Forall (λ a, a ≠ str "--json" ∧ a ≠ str "--help" ∧ a ≠ str "-h" ∧ a ≠ str "--") [path; p; sym]) as Hne.
  { eapply Forall_impl; [exact Hpl|]. intros a. apply plain_ne. }
  rewrite !Forall_cons in Hne. destruct Hne as ((? & ? & ? & ?) & (? & ? & ? & ?) & (? & ? & ? & ?) & _).
  destruct (authorize_run path p sym js w x' r Hr Hp) as (w' & o & code & Hrun & Hv & Ho).
  exists w', code. split; [|done]. unfold main, run.
  rewrite (before_plain [prog; str "authorize"; path; p; sym]) by (repeat constructor; done).
  cbn [app]. rewrite (no_help (str "authorize" :: path :: p :: sym :: before_dashes (json_flag js))).
  2: { repeat (constructor; [done|]). destruct js; [|done]. by repeat constructor. }
  rewrite bool_decide_eq_true_2 by done.
  assert (filter (λ t, t ≠ str "--json") (path :: p :: sym :: json_flag js) = [path; p; sym]) as ->.
  { rewrite !filter_cons_True by done. by destruct js. }
  assert (bool_decide (str "--json" ∈ path :: p :: sym :: json_flag js) = js) as ->.
  { destruct js; [apply bool_decide_eq_true_2; set_solver|apply bool_decide_eq_false_2; cbn; set_solver]. }
  rewrite Hrun, Ho. by destruct (Z.eqb_spec code 0) as [->|].
Qed.

(** ** The gate before the module runs

    [quiet]: no call of the module has been made and the directories are those
    the command line was given; [D] is what they hold. *)
Section gate.
Variable quiet : X → Prop.
Variable D : bytes → Attest.mdir.
Definition preserves {A} (m : stm X bytes A) : Prop := ∀ x x' r, quiet x → m x = (x', r) → quiet x'.
Record calm (dirs : list bytes) : Prop := {
  c_dir d x : d ∈ dirs → quiet x → module_dir d x = D d;
  c_text d x : d ∈ dirs → quiet x →
    match Attest.read_to_string (D d) (str "module.toml"), (read_to_string (path_join d (str "module.toml")) x).2 with
    | Some t, Ok t' => t' = t | None, Err _ => True | _, _ => False end;
  c_read p : preserves (read_to_string p);
  c_file p : preserves (read_file p);
  c_env v : preserves (env_var v);
  c_paths : preserves paths_from_env;
  c_spawn d st m ps : preserves (spawn d st m ps)
}.

(** What the gate admits of a directory. *)
Definition admitted (d : Attest.mdir) (mode : Auth.LiquidMode) : Prop :=
  match mode with
  | Auth.Off => True
  | Auth.Optional => ∀ att, Attest.sidecar d att → Attest.current d att
  | Auth.Required => ∃ att, Attest.sidecar d att ∧ Attest.current d att
  end.
Definition attested (d : Attest.mdir) : Prop :=
  match Attest.read_to_string d (str "module.toml") with
  | None => True
  | Some t => ∃ e, Auth.from_toml_str t = Ok e ∧ admitted d (Auth.liquid_mode e)
  end.

Definition calmly {A} (m : stm host_state bytes A) : Prop := ∀ s s' r, quiet (h_x s) → m s = (s', r) → quiet (h_x s').
Lemma calmly_bind {A B} (m : stm host_state bytes A) (k : A → stm host_state bytes B) : calmly m → (∀ a, calmly (k a)) → calmly (m ≫= k).
Proof.
  intros Hm Hk s s' r Hq. unfold mbind, stm_bind. destruct (m s) as [s1 [a|e|]] eqn:E; pose proof (Hm _ _ _ Hq E).
  - by apply Hk.
  - by intros [= <- _].
  - by intros [= <- _].
Qed.
Lemma calmly_lift {A} (r : res bytes A) : calmly (stm_lift r).
Proof. by intros s s' r' Hq [= <- _]. Qed.
Lemma calmly_ret {A} (a : A) : calmly (mret a).
Proof. by intros s s' r' Hq [= <- _]. Qed.
Lemma calmly_err {A} e : calmly (stm_err (A:=A) e).
Proof. by intros s s' r' Hq [= <- _]. Qed.
Lemma calmly_out {A} (m : stm X bytes A) : preserves m → calmly (out m).
Proof. intros Hm s s' r Hq. unfold out. destruct (m (h_x s)) as [x' r'] eqn:E. intros [= <- _]. by eapply Hm. Qed.
Lemma calmly_out_or {A} what (m : stm X bytes A) : preserves m → calmly (out_or what m).
Proof. intros Hm%calmly_out s s' r Hq. unfold out_or. destruct (out m s) as [s1 r'] eqn:E. intros [= <- _]. by eapply Hm. Qed.
Lemma calmly_thr {A} (g : @thread J → @thread J * res bytes A) : calmly (thr g).
Proof. intros s s' r Hq. unfold thr. destruct (g (h_thread s)). by intros [= <- _]. Qed.
Lemma calmly_put n h : calmly (put_handle n h).
Proof. by intros s s' r' Hq [= <- _]. Qed.
Lemma calmly_get n : calmly (get_module n).
Proof. by intros s s' r' Hq [= <- _]. Qed.
#[local] Hint Resolve calmly_lift calmly_ret calmly_err calmly_out calmly_out_or calmly_thr calmly_put calmly_get c_read c_file c_env c_paths c_spawn : calm.
#[local] Ltac calmer := repeat first [apply calmly_bind; [|intros ?]|case_match|progress eauto with calm].

Section run.
Context (dirs : list bytes) (Hcalm : calm dirs).
Lemma resolve_calm m : calmly (resolve_runtime_choice m).
Proof.
  intros s s' r Hq. unfold resolve_runtime_choice. destruct (out _ s) as [s1 r1] eqn:E.
  apply (calmly_out (env_var (str "UNFER_HARNESS_ORG"))) in E; [|by eapply c_env|done]. case_match; by intros [= <- _].
Qed.
Lemma manifest_calm d : calmly (read_manifest d).
Proof. unfold read_manifest. calmer. Qed.
Lemma install_calm t m : calmly (install_auth t m).
Proof. unfold install_auth, set_auth. calmer. Qed.
#[local] Hint Resolve resolve_calm manifest_calm install_calm : calm.
Lemma load_calm d : calmly (load clock ft ecmascript d).
Proof. unfold load, spawn_sidecar, compile_cps_binary. calmer. Qed.
Lemma swap_calm n d : calmly (swap clock ft ecmascript n d).
Proof. unfold swap, spawn_sidecar, compile_cps_binary. calmer. Qed.
Lemma posture_gated d (s s' : host_state) r : d ∈ dirs → quiet (h_x s) → liquid_posture d s = (s', r) → quiet (h_x s') ∧ (∀ a, r = Ok a → attested (D d)).
Proof.
  intros Hd Hq. unfold liquid_posture, out. pose proof (c_text dirs Hcalm d (h_x s) Hd Hq) as Ht.
  destruct (read_to_string _ (h_x s)) as [x' t] eqn:Er. pose proof (c_read dirs Hcalm _ _ _ _ Hq Er) as Hq'.
  pose proof (c_dir dirs Hcalm d x' Hd Hq') as Hdir. cbn [snd] in Ht. unfold attested. destruct (Attest.read_to_string (D d) _) as [t0|], t as [t|e|]; try done.
  2: { intros [= <- <-]. naive_solver. }
  subst t. pose proof (from_toml_no_panic t0). destruct (Auth.from_toml_str t0) as [e|e|] eqn:Ee; [|intros [= <- <-]; naive_solver|done].
  unfold mbind, stm_bind, verify_at. cbn [h_x]. rewrite Hdir. destruct (Attest.attest_exact (D d) (Auth.liquid_mode e)) as [Ha _].
  destruct (Attest.verify_module (D d) (Auth.liquid_mode e)) as [note|e'|]; intros [= <- <-]; (split; [done|]); [|done..].
  intros _ _. exists e. split; [done|]. apply Ha. by exists note.
Qed.

(** A step that leaves the outside quiet and, when it succeeds, makes [G] true;
    and a run that ends quiet unless [T]. *)
Definition leads {A} (G : Prop) (m : cm A) : Prop :=
  ∀ w w' r, quiet (outside w) → m w = (w', r) → quiet (outside w') ∧ (∀ a, r = Ok a → G).
Definition gated {A} (T : Prop) (m : cm A) : Prop := ∀ w w' r, quiet (outside w) → m w = (w', r) → quiet (outside w') ∨ T.
Lemma leads_weaken {A} (G G' : Prop) (m : cm A) : (G → G') → leads G m → leads G' m.
Proof. intros HG Hm w w' r Hq E. destruct (Hm _ _ _ Hq E). naive_solver. Qed.
Lemma leads_both {A B} (G G' : Prop) (m : cm A) (k : A → cm B) : leads G m → (∀ a, leads G' (k a)) → leads (G ∧ G') (m ≫= k).
Proof.
  intros Hm Hk w w' r Hq. unfold mbind, stm_bind. destruct (m w) as [w1 [a|e|]] eqn:E; destruct (Hm _ _ _ Hq E) as [Hq1 HG].
  - intros E'. destruct (Hk _ _ _ _ Hq1 E') as [Hq2 HG']. split; [done|]. naive_solver.
  - intros [= <- <-]. naive_solver.
  - intros [= <- <-]. naive_solver.
Qed.
Lemma leads_seq {A B} (G : Prop) (m : cm A) (k : A → cm B) : leads True m → (∀ a, leads G (k a)) → leads G (m ≫= k).
Proof. intros Hm Hk. eapply leads_weaken; [|by apply leads_both]. by intros [_ ?]. Qed.
Lemma gated_bind {A B} (G T : Prop) (m : cm A) (k : A → cm B) : leads G m → (G → ∀ a, gated T (k a)) → gated T (m ≫= k).
Proof.
  intros Hm Hk w w' r Hq. unfold mbind, stm_bind. destruct (m w) as [w1 [a|e|]] eqn:E; destruct (Hm _ _ _ Hq E) as [Hq1 HG].
  - intros E'. by eapply Hk; [eapply HG| |].
  - intros [= <- _]. by left.
  - intros [= <- _]. by left.
Qed.
Lemma leads_gated {A} (G T : Prop) (m : cm A) : leads G m → gated T m.
Proof. intros Hm w w' r Hq E. left. by destruct (Hm _ _ _ Hq E). Qed.
Lemma leads_ret {A} (a : A) : leads True (mret a).
Proof. intros w w' r Hq [= <- _]. naive_solver. Qed.
Lemma leads_err {A} G c : leads (A:=A) G (stm_err c).
Proof. intros w w' r Hq [= <- <-]. naive_solver. Qed.
Lemma leads_panic {A} G : leads (A:=A) G (stm_lift Panic).
Proof. intros w w' r Hq [= <- <-]. naive_solver. Qed.
Lemma leads_println l : leads True (println l).
Proof. intros w w' r Hq [= <- _]. naive_solver. Qed.
Lemma leads_eprintln d : leads True (eprintln d).
Proof. intros w w' r Hq [= <- _]. naive_solver. Qed.
Lemma leads_emit js e : leads True (emit js e).
Proof. destruct js; [apply leads_println|apply leads_ret]. Qed.
Lemma leads_say js b : leads True (say js b).
Proof. destruct js; [apply leads_ret|apply leads_println]. Qed.
Lemma leads_refuse {A} G js e d c : leads (A:=A) G (refuse js e d c).
Proof. intros w w' r Hq. rewrite refuse_run. intros [= <- <-]. naive_solver. Qed.
Lemma leads_host {A} (m : stm host_state bytes A) : calmly m → leads True (host m).
Proof. intros Hm w w' r Hq. unfold host. destruct (m (t_host w)) as [s [a|e|]] eqn:E; apply Hm in E; try done; intros [= <- _]; naive_solver. Qed.
Lemma leads_first : leads True (first_module (J:=J) (X:=X)).
Proof. intros w w' r Hq [= <- _]. naive_solver. Qed.
#[local] Hint Resolve leads_ret leads_err leads_panic leads_println leads_eprintln leads_emit leads_say leads_refuse leads_host leads_first
  load_calm swap_calm : calm.
#[local] Ltac leads := repeat first [apply leads_seq; [|intros ?]|case_match|progress eauto with calm].
Lemma leads_gate {A} d (ok ko : bytes → cm A) : d ∈ dirs → (∀ n, leads True (ok n)) → (∀ e, leads False (ko e)) →
  leads (attested (D d)) (r ← host (liquid_posture d); match r with inl n => ok n | inr e => ko e end).
Proof.
  intros Hd Hok Hko w w' r Hq. unfold mbind, stm_bind, host. destruct (liquid_posture d (t_host w)) as [s p] eqn:E.
  destruct (posture_gated d _ _ _ Hd Hq E) as [Hq' Ha]. destruct p as [n|e|].
  - intros E'. destruct (Hok n (Term s (t_stdout w) (t_stderr w)) _ _ Hq' E') as [Hq'' _]. naive_solver.
  - intros E'. destruct (Hko e (Term s (t_stdout w) (t_stderr w)) _ _ Hq' E') as [Hq'' Hf]. split; [done|]. intros a Hr. by destruct (Hf a Hr).
  - intros [= <- <-]. naive_solver.
Qed.
Lemma load_leads js d : leads True (load_module clock ft ecmascript js d).
Proof. unfold load_module. leads. Qed.
Lemma load_gate_leads js d : d ∈ dirs → leads (attested (D d)) (load_gate js d).
Proof. intros Hd. unfold load_gate. apply leads_gate; [done|intros n; leads|auto with calm]. Qed.
Lemma swap_leads js d : d ∈ dirs → leads (attested (D d)) (swap_module clock ft ecmascript js d).
Proof.
  intros Hd. unfold swap_module. apply leads_seq; [apply leads_first|intros name].
  eapply leads_weaken; [|apply leads_both; [unfold swap_gate; apply leads_gate; [done|intros n; leads|auto with calm]|intros ?; instantiate (1 := True)]]; [by intros [? _]|].
  leads.
Qed.
Lemma cmd_host_gated dir opts : dir ∈ dirs →
  (∀ o sd, host_options false no_options opts = Ok o → o_swap_dir o = Some sd → sd ∈ dirs) →
  gated (attested (D dir) ∧ ∀ o sd, host_options false no_options opts = Ok o → o_swap_dir o = Some sd → attested (D sd))
    (cmd_host clock ft ecmascript dir opts).
Proof.
  intros Hd Hs. unfold cmd_host. destruct (host_options false no_options opts) as [o|u|].
  2: { eapply (leads_gated True). unfold usage_error. leads. }
  2: { eapply leads_gated. apply (leads_panic True). }
  apply (gated_bind True); [apply leads_host; intros s s' r Hq [= <- _]; exact Hq|intros _ _].
  apply (gated_bind True); [apply load_leads|intros _ _].
  apply (gated_bind (attested (D dir))); [by apply load_gate_leads|intros Ha _].
  apply (gated_bind (∀ sd, o_swap_dir o = Some sd → attested (D sd))); [|intros Hb _].
  - destruct (o_swap_dir o) as [sd|] eqn:Eo.
    + eapply leads_weaken; [|apply swap_leads; by eapply Hs]. by intros Ha' sd' [= <-].
    + eapply leads_weaken; [|apply leads_ret]. done.
  - intros w w' r _ _. right. split; [done|]. intros o' sd [= <-]. apply Hb.
Qed.
End run.

(** C14. Nothing of a module is called before the gate: when a run of [host] has
    left anything but a world in which no call was made, the attestation of the
    directory was accepted, and with [--swap] that of the incoming one too. With
    [required], that means a sidecar that parses, describes the sources and the
    obligations on disk and says they were proved. *)
Theorem modhost_gated dirs prog dir opts (w w' : term) r :
  calm dirs → dir ∈ dirs → (∀ o sd, host_options false no_options opts = Ok o → o_swap_dir o = Some sd → sd ∈ dirs) →
  quiet (outside w) → main (prog :: str "host" :: dir :: opts) w = (w', r) →
  quiet (outside w') ∨
  attested (D dir) ∧ ∀ o sd, host_options false no_options opts = Ok o → o_swap_dir o = Some sd → attested (D sd).
Proof.
  intros Hc Hd Hs Hq Hm. unfold Modhost.main in Hm. destruct (run _ _ _ _ w) as [w1 r1] eqn:Hr.
  assert (w' = w1) as -> by by destruct r1; injection Hm as <- _. clear Hm. revert Hr. unfold run.
  destruct (before_dashes _) as [|a pre]; [intros [= <- _]; by left|].
  destruct (existsb asks_help pre); [|].
  - intros Hr. left. unfold print_usage, mbind, stm_bind in Hr. by injection Hr as <- _.
  - rewrite bool_decide_eq_false_2, bool_decide_eq_true_2 by done. by apply (cmd_host_gated dirs).
Qed.
End gate.

(** ** The standard output under [--json] *)
Definition is_event (l : line) : bool := match l with Event _ => true | Line _ => false end.
Definition prints {A} (js : bool) (m : cm A) : Prop :=
  ∀ w w' r, m w = (w', r) → ∃ ls, t_stdout w' = t_stdout w ++ ls ∧ Forall (λ l, is_event l = js) ls.
Lemma prints_none {A} js (m : cm A) : (∀ w, t_stdout (m w).1 = t_stdout w) → prints js m.
Proof. intros Hm w w' r E. specialize (Hm w). rewrite E in Hm. exists []. by rewrite app_nil_r. Qed.
Lemma prints_bind {A B} js (m : cm A) (k : A → cm B) : prints js m → (∀ a, prints js (k a)) → prints js (m ≫= k).
Proof.
  intros Hm Hk w w' r. unfold mbind, stm_bind. destruct (m w) as [w1 [a|e|]] eqn:E; destruct (Hm _ _ _ E) as (l1 & Hl1 & Hf1).
  - intros E'. destruct (Hk _ _ _ _ E') as (l2 & Hl2 & Hf2). exists (l1 ++ l2). rewrite Hl2, Hl1, app_assoc. by rewrite Forall_app.
  - intros [= <- _]. by exists l1.
  - intros [= <- _]. by exists l1.
Qed.
Lemma prints_println l : prints (is_event l) (println l).
Proof. intros w w' r [= <- _]. exists [l]. split; [done|]. by constructor. Qed.
Lemma prints_emit js e : prints js (emit js e).
Proof. destruct js; [apply (prints_println (Event e))|by apply prints_none]. Qed.
Lemma prints_say js b : prints js (say js b).
Proof. destruct js; [by apply prints_none|apply (prints_println (Line b))]. Qed.
Lemma prints_host {A} js (m : stm host_state bytes A) : prints js (host m).
Proof. apply prints_none. intros w. unfold host. by destruct (m (t_host w)) as [s [a|e|]]. Qed.
Lemma prints_refuse {A} js e d c : prints (A:=A) js (refuse js e d c).
Proof. unfold refuse. apply prints_bind; [apply prints_emit|]. by intros _; apply prints_none. Qed.
#[local] Hint Resolve prints_emit prints_say prints_host prints_refuse : calm.
#[local] Hint Extern 3 (prints _ (mret _)) => by apply prints_none : calm.
#[local] Hint Extern 3 (prints _ (stm_lift _)) => by apply prints_none : calm.
#[local] Hint Extern 3 (prints _ (stm_err _)) => by apply prints_none : calm.
#[local] Hint Extern 3 (prints _ (eprintln _)) => by apply prints_none : calm.
#[local] Hint Extern 3 (prints _ first_module) => by apply prints_none : calm.
#[local] Ltac printing := repeat first [apply prints_bind; [|intros ?]|case_match|progress eauto with calm].
Lemma call_prints o name idx : prints (o_json o) (one_call ecmascript o name idx).
Proof.
  unfold one_call. apply prints_bind; [|intros ?; printing]. destruct ((1 <? o_repeat o) && negb (o_json o)) eqn:E; [|printing].
  apply andb_true_iff in E as [_ Hj%negb_true_iff]. rewrite Hj. apply (prints_println (Line _)).
Qed.
Lemma loop_prints o name n : ∀ idx, prints (o_json o) (call_loop ecmascript o name n idx).
Proof. induction n as [|n IH]; intros idx; cbn [call_loop]; [printing|]. apply prints_bind; [apply call_prints|intros ?; apply IH]. Qed.

(** Under [--json] every line [host] and [authorize] print is one event, and
    without it none is. *)
Lemma machine_clean dir opts o : host_options false no_options opts = Ok o → prints (o_json o) (cmd_host clock ft ecmascript dir opts).
Proof.
  intros Ho. unfold cmd_host. rewrite Ho. unfold load_module, load_gate, swap_module, swap_gate. printing. apply loop_prints.
Qed.
Lemma authorize_clean path p sym js : prints js (cmd_authorize clock path p sym js).
Proof. unfold cmd_authorize. printing. Qed.
End safe.
End ModhostSafe.

(** * The module host's command line at work

    A world of files in a map, where starting a sidecar and calling code leave a
    mark: an attested module is hosted and called, and what the order of load and
    gate, and the older mode, let through. *)

Import Toml Clif Cps CpsLang CpsCorrect CpsDemo Jit JitDemo ModuleHost RefiJson Modhost ModhostSafe.

Module ModhostDemo.

Abbreviation files := (gmap bytes bytes).
Definition read_at (path : bytes) : stm files bytes bytes := λ fs, (fs, ok_or (fs !! path) (str "not found")).
Definition mark (name : String.string) (fs : files) : files := <[str name := []]> fs.

#[export] Instance mod_world : HostWorld files := {
  read_to_string := read_at;
  read_file := read_at;
  write_file path d fs := (<[path := d]> fs, Ok ());
  create_dir_all _ fs := (fs, Ok ());
  exists_path path fs := (fs, Ok (bool_decide (is_Some (fs !! path))));
  env_var _ fs := (fs, Err []);
  runtime_choice _ _ _ fallback requested := Profile (default fallback requested);
  cell := ();
  cell_parse _ := Ok ();
  cell_name _ := [];
  cell_files _ := [];
  cell_session _ := None;
  sidecar := ();
  worker_paths := ();
  paths_from_env fs := (fs, Ok ());
  spawn _ _ _ _ fs := (mark "started" fs, Ok ());
  sidecar_call _ _ args fs := (mark "called" fs, Ok args);
  json_result _ := Some (Some 7);
  uk_snapshot _ _ fs := (fs, Ok (0, []));
  uk_restore _ fs := (fs, Ok 1);
  uk_model_free _ fs := (fs, Ok 0);
  uk_last_error _ fs := (fs, Ok (0, []));
  call_code _ args fs := (mark "called" fs, Ok (Zlen args))
}.
(** Manifest texts stand for their trees. *)
Definition mod_manifest (archetype : bytes) : toml :=
  TTable [(str "module", TTable [(str "name", TString (str "demo")); (str "archetype", TString archetype)]);
          (str "grants", TTable [(str "kernel", TArray [TString (str "uk_init")])]);
          (str "verify", TTable [(str "liquid", TString (str "required"))])].
#[export] Instance mod_toml : TomlText := λ s,
  if bool_decide (s = str "cps") then Some (mod_manifest (str "austral_cps"))
  else if bool_decide (s = str "js") then Some (mod_manifest (str "ecmascript"))
  else None.
#[export] Instance mod_dirs : ModuleDirs files := λ d fs,
  list_to_map (omap (λ n, b ← fs !! path_join d n; Some (n, Some b)) (str <$> ["module.toml"; "liquid.ok"; "m.aum"]%string)).
(** A compiler process that says what the file ["out"] holds, once, and whose
    input is closed when there is a file ["closed"]. *)
#[export] Instance mod_server : JitServer files := {
  srv_spawn _ _ fs := (fs, Ok ());
  srv_read_line fs := (delete (str "out") fs, Ok (default [] (fs !! str "out")));
  srv_write _ fs := (fs, match fs !! str "closed" with Some _ => Err (str "Broken pipe") | None => Ok () end);
  srv_kill fs := fs;
  srv_wait fs := fs
}.

Definition mod_source : bytes := str "module body M is end module body.".
Definition mod_sidecar : bytes :=
  str "sources_hash = " ++ dec (Attest.fnv1a (str "m.aum" ++ [Byte.x00] ++ mod_source ++ [Byte.x00])) ++ [LF] ++
  str "mlw_hash = 0" ++ [LF] ++ str "prover = z3" ++ [LF] ++ str "prover_version = 4" ++ [LF] ++ str "verdict = proved" ++ [LF] ++
  str "trusted_contracts = 0" ++ [LF].
Definition mod_files : files := list_to_map [
  (str "/m/module.toml", str "cps"); (str "/m/module.cps", demo_data); (str "/m/m.aum", mod_source); (str "/m/liquid.ok", mod_sidecar);
  (str "/j/module.toml", str "js"); (str "/bad/module.toml", str "?"); (str "out", str "READY" ++ [LF])].
Abbreviation mod_main := (Modhost.main (J:=engine) (X:=files) demo_clock demo_features true).
Definition mod_term (fs : files) : @term engine files _ := Term (State ∅ ∅ demo_thread fs) [] [].
Definition args (l : list String.string) : list bytes := str <$> l.

(** Reading, and starting a sidecar, is quiet. *)
Definition quiet (x : files) : Prop := x = mod_files ∨ x = mark "started" mod_files.
Definition mod_D (d : bytes) : Attest.mdir := module_dir d mod_files.
Lemma started_dir fs : module_dir (str "/m") (mark "started" fs) = module_dir (str "/m") fs.
Proof. unfold module_dir, mod_dirs, mark. cbn [omap list_omap fmap list_fmap]. by rewrite !lookup_insert_ne by (vm_compute; discriminate). Qed.
Lemma started_text x : quiet x → (read_at (path_join (str "/m") (str "module.toml")) x).2 = Ok (str "cps").
Proof. intros [-> | ->]; vm_compute; reflexivity. Qed.
Lemma mod_text : Attest.read_to_string (mod_D (str "/m")) (str "module.toml") = Some (str "cps").
Proof. vm_compute. reflexivity. Qed.
Lemma mod_calm : calm quiet mod_D [str "/m"].
Proof.
  split; try by intros ? x x' r Hq [= <- _].
  - intros d x ->%list_elem_of_singleton [-> | ->]; [reflexivity|apply started_dir].
  - intros d x ->%list_elem_of_singleton Hq. rewrite mod_text. cbn [read_to_string mod_world]. by rewrite started_text.
  - by intros x x' r Hq [= <- _].
  - intros d st m ps x x' r Hq [= <- _]. right. destruct Hq as [-> | ->]; [done|]. unfold mark. by rewrite insert_insert_eq.
Qed.

Definition mod_opts : list bytes := args ["--call"; "sum"; "--args"; "3"; "-4"; "--json"].
Definition mod_hosted : @term engine files _ * res Empty_set Z := mod_main (str "modhost" :: str "host" :: str "/m" :: mod_opts) (mod_term mod_files).
Lemma mod_hosted_called : h_x (t_host mod_hosted.1) !! str "called" = Some [] ∧ mod_hosted.2 = Ok 0.
Proof. split; vm_compute; reflexivity. Qed.
Lemma quiet_uncalled x : quiet x → x !! str "called" = None.
Proof. intros [-> | ->]; vm_compute; reflexivity. Qed.
Lemma mod_no_swap o sd : host_options false no_options mod_opts = Ok o → o_swap_dir o = Some sd → sd ∈ [str "/m"].
Proof. intros [= <-]. done. Qed.

Example modhost_gated_witness : attested (mod_D (str "/m")).
Proof.
  destruct (modhost_gated demo_clock demo_features true quiet mod_D [str "/m"] (str "modhost") (str "/m") mod_opts (mod_term mod_files)
              mod_hosted.1 mod_hosted.2 mod_calm) as [Hq|[Ha _]].
  - apply list_elem_of_singleton. reflexivity.
  - exact mod_no_swap.
  - by left.
  - apply surjective_pairing.
  - destruct mod_hosted_called as [Hc _]. rewrite (quiet_uncalled _ Hq) in Hc. discriminate.
  - exact Ha.
Defined.
Lemma mod_read : read_at (str "/m/module.toml") mod_files = (mod_files, Ok (str "cps")).
Proof. unfold read_at. by f_equal. Qed.
Lemma mod_plain : Forall plain [str "/m/module.toml"; str "demo"; str "uk_init"].
Proof. unfold plain. repeat constructor; apply (bool_decide_unpack _); vm_compute; reflexivity. Qed.
Example authorize_exact_witness : ∃ w' code,
  mod_main ([str "modhost"; str "authorize"; str "/m/module.toml"; str "demo"; str "uk_init"] ++ json_flag true) (mod_term mod_files) = (w', Ok code) ∧
  verdict (Ok (str "cps")) (str "demo") (str "uk_init") code.
Proof.
  refine (authorize_exact demo_clock demo_features true (str "modhost") (str "/m/module.toml") (str "demo") (str "uk_init") true
           (mod_term mod_files) mod_files (Ok (str "cps")) _ mod_plain mod_read _); done.
Defined.

(** A module whose attestation is refused has already been started: the gate
    comes after the load, which starts the sidecar of a JavaScript module. *)
Example gate_after_start :
  let r := mod_main (args ["modhost"; "host"; "/j"; "--call"; "run"]) (mod_term mod_files) in
  r.2 = Ok 1 ∧ h_x (t_host r.1) !! str "started" = Some [].
Proof. split; vm_compute; reflexivity. Qed.
(** The compiler process ends before it answers: no result, and success. *)
Example legacy_silence_succeeds :
  let r := mod_main (args ["modhost"; "host-legacy"; "austral"; "m.aum"; "--"; "run"]) (mod_term mod_files) in
  r.2 = Ok 0 ∧ t_stdout r.1 = [] ∧ t_stderr r.1 = [].
Proof. split_and!; vm_compute; reflexivity. Qed.
(** A process that closes its input is a panic, not an exit code. *)
Example legacy_broken_pipe :
  (mod_main (args ["modhost"; "host-legacy"; "austral"; "m.aum"; "--"; "run"]) (mod_term (<[str "closed" := []]> mod_files))).2 = Panic.
Proof. vm_compute. reflexivity. Qed.
(** [authorize] takes an unknown option for a name. *)
Example authorize_option_as_name :
  (mod_main (args ["modhost"; "authorize"; "/m/module.toml"; "--verbose"; "uk_init"]) (mod_term mod_files)).2 = Ok 1.
Proof. vm_compute. reflexivity. Qed.
(** A manifest that does not parse is refused by the posture, a missing one is
    [off]. *)
Example posture_of_bad_manifest :
  (liquid_posture (J:=engine) (str "/bad") (State ∅ ∅ demo_thread mod_files)).2 =
    Err (str "LiquidManifestInvalid: /bad/module.toml: TOML parse error: {}") ∧
  (liquid_posture (J:=engine) (str "/none") (State ∅ ∅ demo_thread mod_files)).2 = Ok (str "liquid checking off for this module").
Proof. split; vm_compute; reflexivity. Qed.
End ModhostDemo.
